(* ===== verification/_CoqProject ===== *)
-Q . S2P
Prelude.v
Text.v
Protocol.v
Uuids.v
SpecBuilder.v
Auth.v
AuthProofs.v
MemoryOwner.v
Reduce.v
Authorizer.v
Driver.v
DriverTurns.v
DriverProofs.v
Store.v
StoreProofs.v
StoreTriggers.v
StoreMessages.v
StoreStops.v
StoreThreads.v
Surface.v
Stream.v
Queue.v
QueueProofs.v
Server.v
ServerLogic.v
Traces.v
Spawner.v
Deliverer.v
Fires.v
Webhook.v
Scheduler.v
Sandbox.v
Turns.v
DriverWorld.v
Worker.v
WorkerProofs.v
WorkerBox.v
Sweeps.v
Http.v
HttpProofs.v
HttpIsolation.v
HttpAnswers.v
Workflow.v
Bend.v
BendGuard.v
BendRun.v
Journal.v
Host.v
Mcp.v
McpProofs.v
Catalog.v
Postgres.v
PostgresProofs.v
PostgresLocks.v
PostgresLists.v
PostgresTriggers.v
PostgresPuts.v
PostgresMessages.v
Gateway.v
GatewayProofs.v
RedisSlot.v
PostgresMemory.v
Jev.v
JevProofs.v
Scripts.v
Rhai.v
Js.v
WorkerLoop.v
Startup.v
Proxy.v
Execution.v
Commands.v
