(* ===== verification/Prelude.v ===== *)
(** * gol, a composable agent runtime: verification library

    gol runs agents.  A run is described by a [RunSpec]; everything that
    happens in it is an [Event] of an append-only log, and its state is a fold
    of that log.  A driver asks a decider for the next effect, lets the
    authorizer judge it, performs it (a tool call, a model call, a memory
    access, a delegation, a message, a question) and records what came back.
    A server stores the logs, hands runs to workers through a Redis queue,
    streams what happened to the owners, stops runs and fires triggers.
    Workflows are programs replayed over a journal file.

    ** The parts and the files

    The paths are under [src/crates].

    - [Prelude]: machine integers, results, lists, bytes, the library's tactics
      and its hint database [gol].
    - [Protocol] ([protocol/src]: [id.rs], [spec.rs], [effect.rs], [model.rs],
      [tool.rs], [policy.rs], [phase.rs], [event.rs]): the data model.
      [Uuids] is the interface of the [uuid] crate, a class with its laws.
    - [SpecBuilder] ([protocol/src/spec.rs]): the typestate builder; its type
      parameters are indices of [RunSpecBuilder].
    - [Reduce] ([protocol/src/reduce.rs], [protocol/src/fold.rs]): the two
      reducers, [applicable] and [fold].
    - [Authorizer] ([protocol/src/authorizer.rs]): [authorize], with the policy
      as an inductive relation [Permitted].
    - [MemoryOwner] ([protocol/src/effect.rs], [harness/src/memory.rs]): who
      owns a memory, and the memories.
    - [Driver] ([harness/src/driver.rs] and the traits of [decider.rs],
      [message.rs], [spawner.rs], [model.rs], [echo.rs]): the driver as a
      record threaded through its methods, and the [run_until] loop.
      [DriverTurns] is its specification: the turns a run is made of, with the
      refinement lemmas; [DriverProofs] has its theorems.
    - [Store], [StoreTriggers], [StoreMessages], [StoreStops], [StoreThreads]
      ([server/src/store.rs]): the in-memory store, whose methods are steps on
      a record of locks; [StoreProofs] has the theorems of the first.
    - [Postgres] ([server/src/postgres.rs]): the same store in a database,
      whose calls are the statements they send.  Sessions are side by side: a
      step is one statement of one session, which may wait for a lock, fail or
      be lost; the order in which a prune comes to its rows is the
      database's.  [PostgresProofs] relates them to the in-memory store, and
      [PostgresLocks] is about who waits for whom; [PostgresLists] the stops,
      the threads and what a connect fills in; [PostgresTriggers] the table of
      triggers, [PostgresPuts] its puts side by side, [PostgresMessages] the
      messages.
    - [Queue] ([server/src/queue.rs]): the Lua scripts with their keys and
      arguments in order, and the methods that call them; [QueueProofs] has
      its theorems.
    - [Server], [ServerLogic]: the server as one process among many, over the
      shared store, messages, triggers and queue; a monad in which every call
      of them is a step between which the others step, that can fail before or
      after it took effect; the rules [Good] and [evolves] that all processes
      keep, and the rely-guarantee judgement [triple] in which the handlers'
      theorems are proved.  [Traces]: the judgement [traced], which also says
      which steps were the handler's own.
    - [Text]: the methods of [str] the server's parsers use.
    - [Spawner] ([server/src/spawner.rs]), [Deliverer] ([deliverer.rs]),
      [Fires] ([triggers.rs]), [Webhook] ([webhook.rs] and the secret of
      [triggers.rs]), [Scheduler] ([scheduler.rs]): the handlers that start
      runs, deliver messages and fire triggers, each with its theorems.
    - [Sandbox], [Turns] ([inference.rs]): the sandbox hosts, in memory and
      through Docker, behind the class [SandboxHost] with the laws
      [SandboxLaws] the turns rely on; [Hosted], a host the other processes
      use between any two calls of this one; and the coworker turns.
    - [DriverWorld]: what a driver leaves of the world its collaborators and
      its boundary step in; [Worker] ([worker.rs], [tools.rs]): a worker, from
      the claim of a run to its acknowledgement, with the driver inside;
      [WorkerProofs] and [WorkerBox] have its theorems.  [Sweeps]
      ([worker.rs]): the sweeps that finish what processes that died left.
      [WorkerLoop] ([worker.rs], [scheduler.rs]): the heartbeat of a lease, and
      the loops around all of these.
    - [Stream] ([stream.rs]): the event streams over the outbox and over a
      run's log, as a relation with every reader, writer and client; [Surface]
      ([surface.rs]): a log as a client renders it.
    - [Auth] ([auth.rs]): the authenticator; the verifier's key set and its
      fetches are a step relation over requests at once, the checks of a token
      and of the environment are functions.  [AuthProofs] has its theorems.
    - [Http] ([http.rs]): every route, from what axum took from a request to
      its answer, over the same store, queue and sandboxes.  [HttpProofs] shows
      that the routes keep the rules, [HttpIsolation] what a caller can ask for
      and learn, [HttpAnswers] what a reply and a stop change, step by step.
    - [Workflow] ([workflow-core/src], [harness-core/src/reduce.rs]): programs
      and their evaluation, with [script] as their specification.
    - [Bend], [BendGuard], [BendRun] ([workflow-bend/src]): the line a Bend
      workflow prints and its parser; the scanner that guards a source, with a
      grammar as its specification; and staging, running and compiling.
    - [Rhai], [Js] ([workflow-rhai/src], [workflow-js/src]): the builders behind
      the two script front ends, over whatever calls a script makes, with
      [Scripts] for what a program may hold.
    - [Jev], [JevProofs] ([harness/src/jev.rs]): the external decider: what it
      is told and offered, and the effect of its answer.
    - [Gateway], [GatewayProofs] ([gateway/src], [server/src/models.rs]): a
      model call, from the environment's keys to the provider's answer.
    - [RedisSlot] ([queue.rs], [with_connection]): the queue's connections,
      their callers side by side; [PostgresMemory] ([memory/src]): the memory
      in a database.
    - [Mcp], [McpProofs], [Catalog] ([harness/src/catalog.rs]): the lines and
      frames of a tool server, the sessions with one, and the loading of a
      catalog of tools, servers and skills.
    - [Startup] ([server/src/main.rs], [stores.rs], the builders of [worker.rs]
      and [deliverer.rs], the routers' state of [http.rs]): how a server comes
      up, as the actions it does outside the process.
    - [Commands] ([inference.rs], [run_within]): a command of the host with its
      timeout.  [Proxy] ([proxy/src], [inference.rs]): the fixture proxy and the
      poster that asks it.  [Execution] ([execution/src], [local.rs],
      [surface-core/src]): placed runs, the local echo and the surface.
    - [Journal] and [Host] ([runtime-tokio/src/journal.rs], [host.rs]): the
      journal file to the byte, and the replay of a workflow over it.

    ** How the code is modelled

    Strings are their UTF-8 bytes.  [u32] and [u64] values are [N] with
    saturation, wrap-around or truncation written out where the source has it;
    [i64] values are [Z]; lengths are [nat].  A [Result] is [result], a panic
    is [None].  A method on [&mut self] is a function from the state to the
    state; a method of the store runs under its lock and so is one step, and
    the theorems about it quantify over every sequence of steps, which is every
    interleaving of its callers.  A lock is a value and whether it is
    poisoned.  Code outside the repository is a parameter: the deciders,
    tools, models, memories, spawners and deliverers are functions that thread
    an arbitrary state [W] of the world, the clock and fresh ids are the class
    [World], uuids the class [UuidCrate], Redis the classes [Redis] and
    [RedisLaws] over a view of its keys, the checksum the class [Crc32].  Each
    class has an instance in the library, at which the witnesses evaluate.

    ** What the theorems show

    - Reducers: an end is final, the lifecycle and its counters are bounded on
      every log whatever its events, a wait ends only by its own answer, a
      child is counted once, [applicable] is exact.
    - Authorizer: it decides exactly the policy, and rights only shrink down a
      line of delegations.  Memory: two runs share a memory exactly when they
      stand for the same owner.
    - Driver: a run terminates whatever its collaborators answer, records only
      what is due and authorized, has in every prefix of its log at most its
      budget of decisions and model calls, none uncounted but the one that
      finishes it ([run_until_within_budget]), and keeps its log append-only
      with one end.  After a crash between a decision and its authorization it
      does, in the world it is resumed in, what the uninterrupted run would do
      there ([resume_after_decision]); a later call starts the run's own run
      and step memory empty, so it goes on exactly as the uninterrupted run
      would have if that held nothing.
    - Store: logs are append-only and end once, one of several writers at the
      same position wins, the outbox has no gaps and shows nobody else's
      events, agents keep their owner, messages are stored and answered once,
      a stop covers what existed and what is below it, the views of threads
      agree, triggers are capped, one scheduler moves a tick, and a pause is
      visible in the generation.
    - Postgres: however the statements of concurrent calls interleave, fail or
      are lost, the calls take effect one at a time as the in-memory store's
      do, each at a statement of its own ([postgres_refines_memory], and
      [pg_messages_are_messages]).  A prune locks its rows one after another,
      so two servers' pruners can wait for each other; nothing else is ever in
      a deadlock, and once Postgres ends one of them every call finishes
      ([postgres_calls_finish]).  A stop covers what it covers in memory,
      rows of older servers included ([pg_stopped_iff_covered]); the triggers
      are the in-memory list's ([pg_triggers_are_triggers]) and puts side by
      side keep the cap ([pg_triggers_capped]).
    - Queue: no run is lost, a lease excludes, stale calls change nothing, the
      reaper hands back exactly what expired; while its beats are in time, a
      worker keeps its lease and nobody else is handed the run
      ([heartbeat_keeps_the_lease]).
    - Server: every handler keeps the rules at each of its steps, whatever the
      other processes do, whichever call fails and wherever the process dies
      ([worker_strands_nothing], [spawner_strands_nothing],
      [deliverer_strands_nothing], [fires_strand_nothing],
      [scheduler_strands_nothing], [turns_strand_nothing],
      [sweeps_strand_nothing], [http_strands_nothing]): the logs only grow, an ended log is fixed, a
      queued open run stays queued, claimed, parked or pending.  A run a
      worker reports as ended has ended; a Box turn is ended only after
      the host, which other workers use meanwhile, confirmed gone the sandbox of
      each attempt up to its own ([box_turn_ends_without_its_sandboxes]): those
      of later attempts are left to the sweep, which takes none from an open
      turn.  A child is one hop below its parent on the same placement and work
      model, has no more rights than it and is named once; a reply reaches only its
      asker and settles the ask; a held run is never pushed, a tick is one
      run; the next tick is one the pattern names; a webhook request is
      accepted exactly when it is signed, well formed and fresh, and its
      signed bytes split in one way.
    - Streams: an outbox stream misses nothing and repeats nothing whatever the
      schedule, a run stream is the run's log, nothing waits unhinted, and the
      slots are counted.
    - Authenticator: a caller is accepted only by a token that decodes under a
      fitting key of the issuer; a key the issuer removed stops verifying;
      fetches of the key set are one at a time and spaced, whatever is asked
      for; no request is stuck, and one for a fresh known key never waits.
    - HTTP: another principal's run is a missing run on every route that names
      one; a body makes only bounded, unmarked specs; a run carried out inside
      its request has ended when it is answered; an answer lands once, on the
      question it answers; a stop cancels only its principal's runs and leaves
      none of those it covers that no worker had; a label names the task its
      card shows; a hook nobody signed learns nothing and changes nothing.
    - Bend workflows: the parser accepts exactly the printer's lines within the
      limits and gives back the program; the guard accepts exactly the sources
      that define one main, of a String, and never panics; nothing is run that
      was not checked, and never on the host's network.
    - Script workflows: a program that compiles is all the script made, each
      decision once, within the limits, whatever errors the script caught
      ([js_program_is_what_was_made], [rhai_program_is_what_was_made]); every
      program within them can be written ([rhai_writes_every_program],
      [js_writes_every_program]).
    - Jev: what it decides is within the budget, goes to an agent that is
      there, is authorized and has something to give
      ([jev_decides_what_can_be_done]); no label means two effects
      ([jev_labels_are_unique]).
    - Gateway: the platform's key goes only in the one post of a run that may
      use it, to its provider or a safe base URL ([platform_key_stays]), and a
      run's log tells nothing of what came back ([run_log_learns_nothing]).
    - Connections: no two callers of the queue share one, and a probe that is
      waited for is being made ([redis_slot_sound]); while Redis is down,
      connects are spaced ([redis_probes_are_spaced]).  The memory in Postgres
      answers as one in the process does, whatever is lost
      ([pg_memory_is_memory]), and recovers ([pg_memory_recovers]).
    - Tool servers: the lines read are those the server wrote
      ([lines_are_the_servers]); a call gives the response to its own
      request if that came within the timeout of its writing and fails
      otherwise, and a session that failed is not used again
      ([mcp_call_answers]).  A catalog that loads has no name twice and only
      what its file declares ([catalog_is_sound]).
    - Start-up: a server does the actions of its plan up to the first that
      fails ([main_follows_plan]); a worker is started only when the stores,
      Redis, the catalog and the port are ready ([workers_start_when_ready]);
      its threads share the router's store ([server_shares_its_stores]); one
      that refuses to start serves nothing ([refused_serves_nothing]).
    - Commands end within their time ([run_within_ends]); the poster calls no
      vendor and gets the proxy's completion through it
      ([poster_through_the_proxy]); a placed run always comes back
      ([placed_run_comes_back]).
    - Workflows: evaluation is what reading the program forwards prescribes,
      and terminates; a journal reads back what was committed, a commit is
      atomic under any failure or kill, an interrupted join or spawn is
      finished by running it again.

    ** Bounds and fuel

    [run_until] and [run_to_completion] take fuel, one unit per iteration of
    the loop; [max_steps + 2] are enough for every run
    ([run_until_terminates]), and the other theorems of the driver prove that
    it returns.  [decode_frames] takes the length of the file plus one, which
    is enough since a frame has at least nine bytes ([journal_decode_iff]).
    The walk up a lineage in [stopped] takes the run's hops plus two
    ([stopped_iff_covered]), the walk in [open_runs_under] the longest line of
    hops plus three ([open_runs_under_iff]).  [Workflow.drive] takes the calls on a program's
    longest path plus one ([workflow_terminates]).  [Worker.drive] runs
    [run_until] with that theorem's fuel, so it always comes back.  The loops
    of [BendGuard] take the length of what is left, and running out is a panic
    [main_guard_iff] excludes.  A command is looked at [timeout / 20 + 2] times
    at most ([run_within_ends]).  The readers of a server's lines take the bytes
    that are left plus two, and its pages the source's own limit.  The
    recursive query of a stop takes the run's hops plus two
    ([pg_stopped_iff_covered]).  A
    schedule of the Postgres calls has at most seven statements for each call
    and, for a prune, two locks for each row the outbox can come to hold
    ([postgres_calls_finish]).  The loops of [gap_tick] take fuel computed from its interval ([gap_tick_ends]);
    a worker's reloads and the scheduler's passes are bounded in the source.

    ** What is not modelled

    Serialization with serde, axum and its rejections, the reading of a token
    and the check of its signature (class [Jose]), the HTTP agent under the
    gateway, the processes of the operating system, the pool of connections to
    Postgres with its timeouts, the thread that listens for hints, TLS, and
    the statements that create the schema, the script engines under
    [workflow-js] and [workflow-rhai], Bend itself, and the service behind
    Jev.  Endless loops are unfolded for the passes they make ([WorkerLoop]); in the
    theorems of [Server] the heartbeat of a lease is one of the other
    processes.  What goes to standard error is left out.  The broadcast channel
    of hints is the list of what was sent on it.  In the queue, [pop] is left out, and a call
    that fails to reach Redis is a fault of [Server].  Of Postgres, the
    semantics of the statements used, read committed and repeatable read
    snapshots, row locks and advisory locks are taken from its documentation
    and written as functions on tables; a statement that a lost client left
    running takes effect when it is lost or never.  [memory_scenarios] and [replay_proof]
    are tests of the parts above.

    ** Plan

    What remains is glue over code outside the repository. *)

From stdpp Require Export prelude gmap strings pretty list fin_maps.
From Stdlib Require Export Lia Sorted.

#[export] Set Default Goal Selector "!".

(** ** Machine integers

    [u32], [u64] and [usize] values are kept as [N] with their width written
    out; [i64] values are kept as [Z].  Lengths and indices into a [Vec] are
    [nat]. *)

Definition u32_max : N := 4294967295.
Definition u64_max : N := 18446744073709551615.

(** [a.saturating_add(b)] and [a.saturating_sub(b)] on [u32]. *)
Definition sat_add32 (a b : N) : N := N.min (a + b) u32_max.
Definition sat_sub32 (a b : N) : N := (a - b)%N.

(** [a += 1] on a [u32], compiled without overflow checks. *)
Definition wrap_add32 (a b : N) : N := ((a + b) mod 4294967296)%N.

(** An [i64], and arithmetic on it compiled without overflow checks. *)
Definition i64_max : Z := 9223372036854775807.
Definition wrap_i64 (z : Z) : Z := ((z + 2 ^ 63) mod 2 ^ 64 - 2 ^ 63)%Z.

Lemma wrap_i64_id z : (- 2 ^ 63 <= z < 2 ^ 63)%Z -> wrap_i64 z = z.
Proof. intros Hz. unfold wrap_i64. rewrite Z.mod_small; lia. Qed.

(** [a.wrapping_mul(b)] on [u64]. *)
Definition wrap_mul64 (a b : N) : N := ((a * b) mod 18446744073709551616)%N.

Lemma sat_add32_le_max a b : (sat_add32 a b <= u32_max)%N.
Proof. unfold sat_add32. lia. Qed.

Lemma sat_add32_exact a b : (a + b <= u32_max)%N -> sat_add32 a b = (a + b)%N.
Proof. unfold sat_add32. lia. Qed.

Lemma sat_add32_mono a b c : (a <= b)%N -> (sat_add32 a c <= sat_add32 b c)%N.
Proof. unfold sat_add32. lia. Qed.

(** A saturated sum below a [u32] bound did not saturate. *)
Lemma sat_add32_lt_exact a b m :
  (m <= u32_max)%N -> (sat_add32 a b < m)%N -> sat_add32 a b = (a + b)%N.
Proof. unfold sat_add32. lia. Qed.

Lemma wrap_add32_exact a b : (a + b <= u32_max)%N -> wrap_add32 a b = (a + b)%N.
Proof. unfold wrap_add32, u32_max. intros H. apply N.mod_small. lia. Qed.

Lemma wrap_add32_le_max a b : (wrap_add32 a b <= u32_max)%N.
Proof.
  unfold wrap_add32, u32_max.
  pose proof (N.mod_upper_bound (a + b) 4294967296 ltac:(done)). lia.
Qed.

(** ** Results

    [Result<T, E>] as a type of its own, with the [?] operator as a
    notation of [rust_scope]. *)

Inductive result (A E : Type) : Type :=
| Ok (a : A)
| Err (e : E).
Arguments Ok {A E} a.
Arguments Err {A E} e.

Declare Scope rust_scope.
Delimit Scope rust_scope with rust.

Notation "'let?' x ':=' m 'in' k" :=
  (match m with Ok x => k | Err e => Err e end)
  (at level 10, x pattern, m at level 200, k at level 200,
   format "'[v' 'let?'  x  ':='  m  'in'  '/' k ']'") : rust_scope.

Definition is_ok {A E} (r : result A E) : bool :=
  match r with Ok _ => true | Err _ => false end.

(** ** Automation

    [split_match] case-splits on a [match] or an [if] of the goal or of a
    hypothesis; [crush_match] repeats it, discharging impossible and trivial
    cases. *)

Ltac split_match :=
  match goal with
  | |- context [match ?x with _ => _ end] => destruct x eqn:?
  | H : context [match ?x with _ => _ end] |- _ => destruct x eqn:?
  end.

Ltac crush_match := repeat (split_match; simplify_eq/=; try done).

(** Turns boolean tests into propositions. *)
Ltac bool_to_prop :=
  repeat match goal with
  | H : (_ && _)%bool = true |- _ => apply andb_true_iff in H; destruct H
  | H : (_ && _)%bool = false |- _ => apply andb_false_iff in H
  | H : (_ || _)%bool = true |- _ => apply orb_true_iff in H
  | H : (_ || _)%bool = false |- _ => apply orb_false_iff in H; destruct H
  | H : negb _ = true |- _ => apply negb_true_iff in H
  | H : negb _ = false |- _ => apply negb_false_iff in H
  | H : bool_decide _ = true |- _ => apply bool_decide_eq_true in H
  | H : bool_decide _ = false |- _ => apply bool_decide_eq_false in H
  | H : (_ =? _)%N = true |- _ => apply N.eqb_eq in H
  | H : (_ =? _)%N = false |- _ => apply N.eqb_neq in H
  | H : (_ <? _)%N = true |- _ => apply N.ltb_lt in H
  | H : (_ <? _)%N = false |- _ => apply N.ltb_ge in H
  | H : (_ <=? _)%N = true |- _ => apply N.leb_le in H
  | H : (_ <=? _)%N = false |- _ => apply N.leb_gt in H
  | H : (_ <=? _)%nat = true |- _ => apply Nat.leb_le in H
  | H : (_ <=? _)%nat = false |- _ => apply Nat.leb_gt in H
  | H : (_ <? _)%nat = true |- _ => apply Nat.ltb_lt in H
  | H : (_ <? _)%nat = false |- _ => apply Nat.ltb_ge in H
  | H : (_ =? _)%nat = true |- _ => apply Nat.eqb_eq in H
  | H : (_ =? _)%nat = false |- _ => apply Nat.eqb_neq in H
  | H : (_ <=? _)%Z = true |- _ => apply Z.leb_le in H
  | H : (_ <=? _)%Z = false |- _ => apply Z.leb_gt in H
  | H : (_ <? _)%Z = true |- _ => apply Z.ltb_lt in H
  | H : (_ <? _)%Z = false |- _ => apply Z.ltb_ge in H
  end.

(** The hint database of the library: preservation lemmas of the
    components' invariants and arithmetic side conditions. *)
Create HintDb gol.
#[export] Hint Resolve sat_add32_le_max wrap_add32_le_max : gol.
#[export] Hint Extern 4 (_ <= _)%N => lia : gol.
#[export] Hint Extern 4 (_ < _)%N => lia : gol.

(** ** Lists *)

(** [iter().any(p)], [iter().all(p)] and [iter().position(p)]. *)
Lemma existsb_false_Forall {A} (p : A -> bool) l :
  existsb p l = false <-> Forall (fun x => p x = false) l.
Proof.
  induction l as [|x l IH]; simpl; [done|].
  rewrite orb_false_iff, Forall_cons, IH. done.
Qed.

Lemma existsb_app' {A} (p : A -> bool) l k :
  existsb p (l ++ k) = existsb p l || existsb p k.
Proof. apply existsb_app. Qed.

Fixpoint position {A} (p : A -> bool) (l : list A) : option nat :=
  match l with
  | [] => None
  | x :: l => if p x then Some 0 else S <$> position p l
  end.

Lemma position_Some {A} (p : A -> bool) l i :
  position p l = Some i <->
  existsb p (take i l) = false /\ exists x, l !! i = Some x /\ p x = true.
Proof.
  revert i; induction l as [|y l IH]; intros i; simpl.
  { split; [done|]. intros (_ & x & Hx & _). done. }
  destruct (p y) eqn:Hy.
  - split.
    + intros [= <-]. split; [done|]. by exists y.
    + intros (Hex & x & Hx & Hp). destruct i; [done|]. simpl in Hex.
      rewrite Hy in Hex. done.
  - rewrite fmap_Some. split.
    + intros (j & Hj & ->). apply IH in Hj as (Hex & x & Hx & Hp). simpl.
      rewrite Hy. simpl. eauto.
    + intros (Hex & x & Hx & Hp). destruct i as [|j]; simplify_eq/=; [congruence|].
      rewrite Hy in Hex. simpl in Hex. exists j. split; [|done].
      apply IH. eauto.
Qed.

Lemma position_None {A} (p : A -> bool) l : position p l = None <-> existsb p l = false.
Proof.
  induction l as [|y l IH]; simpl; [done|].
  destruct (p y); simpl; [done|]. rewrite fmap_None. done.
Qed.

(** Folding over an extended list. *)
Lemma fold_left_snoc {A B} (f : A -> B -> A) l x a :
  fold_left f (l ++ [x]) a = f (fold_left f l a) x.
Proof. rewrite fold_left_app. done. Qed.

(** An invariant of a left fold. *)
Lemma fold_left_ind {A B} (P : A -> Prop) (f : A -> B -> A) l a :
  P a -> (forall a x, P a -> x ∈ l -> P (f a x)) -> P (fold_left f l a).
Proof.
  revert a; induction l as [|x l IH]; intros a Ha Hstep; simpl; [done|].
  apply IH.
  - apply Hstep; [done|]. set_solver.
  - intros a' y Ha' Hy. apply Hstep; [done|]. set_solver.
Qed.

Lemma filter_all {A} (P : A -> Prop) `{!forall x, Decision (P x)} l :
  Forall P l -> filter P l = l.
Proof.
  induction 1 as [|x l Hx _ IH]; [done|]. rewrite filter_cons, decide_True by done. by f_equal.
Qed.

Lemma filter_none {A} (P : A -> Prop) `{!forall x, Decision (P x)} l :
  Forall (fun x => ~ P x) l -> filter P l = [].
Proof.
  induction 1 as [|x l Hx _ IH]; [done|]. by rewrite filter_cons, decide_False by done.
Qed.

(** [sort_by_key], as a stable insertion sort by a boolean order. *)
Fixpoint insert_by {A} (leb : A -> A -> bool) (x : A) (l : list A) : list A :=
  match l with
  | [] => [x]
  | y :: l => if leb x y then x :: y :: l else y :: insert_by leb x l
  end.

Fixpoint sort_by {A} (leb : A -> A -> bool) (l : list A) : list A :=
  match l with
  | [] => []
  | x :: l => insert_by leb x (sort_by leb l)
  end.

Lemma insert_by_perm {A} (leb : A -> A -> bool) x l : insert_by leb x l ≡ₚ x :: l.
Proof.
  induction l as [|y l IH]; simpl; [done|]. destruct (leb x y); [done|].
  rewrite IH. apply Permutation_swap.
Qed.

Lemma sort_by_perm {A} (leb : A -> A -> bool) l : sort_by leb l ≡ₚ l.
Proof. induction l as [|x l IH]; simpl; [done|]. by rewrite insert_by_perm, IH. Qed.

Definition total_leb {A} (leb : A -> A -> bool) : Prop :=
  (forall x y, leb x y = true \/ leb y x = true) /\
  (forall x y z, leb x y = true -> leb y z = true -> leb x z = true).

Lemma sort_by_sorted {A} (leb : A -> A -> bool) l :
  total_leb leb -> StronglySorted (fun x y => leb x y = true) (sort_by leb l).
Proof.
  intros [Htot Htr]. induction l as [|x l IH]; simpl; [constructor|].
  induction IH as [|y k Hk IHk Hy]; simpl; [by repeat constructor|].
  destruct (leb x y) eqn:E.
  - constructor; [by constructor|]. constructor; [done|].
    eapply Forall_impl; [exact Hy|]. intros z. by apply Htr.
  - constructor; [done|]. rewrite insert_by_perm. constructor; [|done].
    destruct (Htot x y); [congruence|done].
Qed.

(** Lists related in order stay so. *)
Lemma Forall2_list_filter {A B} (R : A -> B -> Prop) (f : A -> bool) (g : B -> bool) l k :
  (forall x y, R x y -> f x = g y) -> Forall2 R l k -> Forall2 R (List.filter f l) (List.filter g k).
Proof.
  intros Hfg. induction 1 as [|x y l k Hxy _ IH]; cbn; [constructor|]. rewrite (Hfg x y Hxy).
  destruct (g y); [by constructor|done].
Qed.

Lemma Forall2_sort_by {A B} (R : A -> B -> Prop) (leb : A -> A -> bool) (leb' : B -> B -> bool) l k :
  (forall x y x' y', R x y -> R x' y' -> leb x x' = leb' y y') -> Forall2 R l k ->
  Forall2 R (sort_by leb l) (sort_by leb' k).
Proof.
  intros Hleb. induction 1 as [|x y l k Hxy _ IH]; cbn; [constructor|].
  induction IH as [|x' y' l' k' Hxy' Hl' IH']; cbn; [by repeat constructor|].
  rewrite (Hleb x y x' y') by done. destruct (leb' y y'); by repeat constructor.
Qed.

(** [iter_mut().find(p)] with an update of what it finds. *)
Fixpoint update_first {A} (p : A -> bool) (f : A -> A) (l : list A) : option (A * list A) :=
  match l with
  | [] => None
  | x :: l =>
      if p x then Some (f x, f x :: l)
      else
        match update_first p f l with
        | Some (y, l) => Some (y, x :: l)
        | None => None
        end
  end.

Lemma update_first_Some {A} (p : A -> bool) f l y l' :
  update_first p f l = Some (y, l') ->
  exists a x b, l = a ++ x :: b /\ l' = a ++ f x :: b /\ y = f x /\ p x = true /\
    Forall (fun z => p z = false) a.
Proof.
  revert y l'; induction l as [|x l IH]; intros y l'; simpl; [done|]. destruct (p x) eqn:E.
  - intros [= <- <-]. exists [], x, l. by split_and!.
  - destruct (update_first p f l) as [[y' l'']|]; [|done]. intros [= <- <-].
    destruct (IH _ _ eq_refl) as (a & x' & b & -> & -> & -> & Hp & Ha).
    exists (x :: a), x', b. split_and!; auto.
Qed.

Lemma update_first_None {A} (p : A -> bool) f l :
  update_first p f l = None <-> Forall (fun z => p z = false) l.
Proof.
  induction l as [|x l IH]; simpl; [done|]. rewrite Forall_cons. destruct (p x) eqn:E.
  - split; [done|]. by intros [? _].
  - destruct (update_first p f l) as [[y' l'']|]; rewrite <-IH; naive_solver.
Qed.

(** ** Bytes

    A byte is an [ascii]; a Rust [&[u8]] is a list of them, and the bytes of
    a string are [string_bytes].  [le_bytes] and [le_value] are
    [to_le_bytes] and [from_le_bytes] at a width of [k] bytes. *)

Abbreviation byte := Ascii.ascii.

Definition string_bytes (s : string) : list byte := String.list_ascii_of_string s.
Definition bytes_string (b : list byte) : string := String.string_of_list_ascii b.

Fixpoint le_bytes (k : nat) (x : N) : list byte :=
  match k with
  | O => []
  | S k => Ascii.ascii_of_N (x mod 256) :: le_bytes k (x / 256)
  end.

Fixpoint le_value (b : list byte) : N :=
  match b with
  | [] => 0
  | c :: b => (Ascii.N_of_ascii c + 256 * le_value b)%N
  end.

Lemma bytes_string_bytes s : bytes_string (string_bytes s) = s.
Proof. apply String.string_of_list_ascii_of_string. Qed.

Lemma string_bytes_string b : string_bytes (bytes_string b) = b.
Proof. apply String.list_ascii_of_string_of_list_ascii. Qed.

#[export] Instance string_bytes_inj : Inj (=) (=) string_bytes.
Proof. intros s t H. rewrite <-(bytes_string_bytes s), H. apply bytes_string_bytes. Qed.

Lemma length_string_bytes s : length (string_bytes s) = String.length s.
Proof. unfold string_bytes. induction s as [|c s IH]; simpl; [done|]. by rewrite IH. Qed.

Lemma string_bytes_app s t : string_bytes (s +:+ t) = string_bytes s ++ string_bytes t.
Proof.
  unfold string_bytes, String.app. induction s as [|c s IH]; simpl; [done|].
  f_equal. apply IH.
Qed.

Lemma length_le_bytes k x : length (le_bytes k x) = k.
Proof. revert x; induction k as [|k IH]; intros x; simpl; auto. Qed.

Lemma le_value_bytes k x : le_value (le_bytes k x) = (x mod 256 ^ N.of_nat k)%N.
Proof.
  revert x; induction k as [|k IH]; intros x; simpl le_bytes; simpl le_value.
  { rewrite N.mod_1_r. done. }
  rewrite IH, Ascii.N_ascii_embedding by (apply N.mod_upper_bound; done).
  rewrite Nat2N.inj_succ, N.pow_succ_r' by lia.
  rewrite N.Div0.mod_mul_r. lia.
Qed.

Lemma le_value_u32 x : (x <= u32_max)%N -> le_value (le_bytes 4 x) = x.
Proof.
  intros Hx. rewrite le_value_bytes. apply N.mod_small.
  unfold u32_max in Hx. change (256 ^ N.of_nat 4)%N with 4294967296%N. lia.
Qed.

Lemma le_value_bound b : (le_value b < 256 ^ N.of_nat (length b))%N.
Proof.
  induction b as [|c b IH]; simpl le_value; [done|].
  simpl length. rewrite Nat2N.inj_succ, N.pow_succ_r' by lia.
  pose proof (Ascii.N_ascii_bounded c). lia.
Qed.

Lemma app_inj_length {A} (l1 l2 k1 k2 : list A) :
  length l1 = length k1 -> l1 ++ l2 = k1 ++ k2 -> l1 = k1 /\ l2 = k2.
Proof. intros Hlen H. by apply app_inj_1. Qed.

Lemma le_bytes_u32_app_inj x y l k :
  (x <= u32_max)%N -> (y <= u32_max)%N ->
  le_bytes 4 x ++ l = le_bytes 4 y ++ k -> x = y /\ l = k.
Proof.
  intros Hx Hy H. apply app_inj_length in H as [H ->]; [|by rewrite !length_le_bytes].
  split; [|done]. by rewrite <-(le_value_u32 x), <-(le_value_u32 y), H.
Qed.

(** ** Blank text

    [text.trim().is_empty()]: every character has the Unicode property
    [White_Space].  The characters are recognised in their UTF-8 encoding. *)

Fixpoint blank_bytes (b : list N) : bool :=
  match b with
  | [] => true
  | 194 :: c :: b => ((c =? 133) || (c =? 160)) && blank_bytes b
  | 225 :: 154 :: c :: b => (c =? 128) && blank_bytes b
  | 226 :: 128 :: c :: b =>
      (((128 <=? c) && (c <=? 138)) || (c =? 168) || (c =? 169) || (c =? 175)) && blank_bytes b
  | 226 :: 129 :: c :: b => (c =? 159) && blank_bytes b
  | 227 :: 128 :: c :: b => (c =? 128) && blank_bytes b
  | c :: b => (((9 <=? c) && (c <=? 13)) || (c =? 32)) && blank_bytes b
  end%N%bool.

Definition blank (s : string) : bool :=
  blank_bytes (Ascii.N_of_ascii <$> string_bytes s).
