(* ===== verification/Text.v ===== *)
(** * Methods of [str]

    The methods of the standard library's [str] the server's parsers use, on
    the bytes of a text in UTF-8. *)

From S2P Require Import Prelude.

(** ** Classes of characters *)

Definition code (b : byte) : N := Ascii.N_of_ascii b.

Definition between (low high : N) (b : byte) : bool := (low <=? code b)%N && (code b <=? high)%N.

Definition is_ascii_digit (b : byte) : bool := between 48 57 b.

Definition is_ascii_uppercase (b : byte) : bool := between 65 90 b.

(** [is_ascii_graphic]: [!] to [~]. *)
Definition is_ascii_graphic (b : byte) : bool := between 33 126 b.

Definition to_ascii_lowercase (b : byte) : byte :=
  if is_ascii_uppercase b then Ascii.ascii_of_N (code b + 32) else b.

Definition string_lowercase (s : string) : string :=
  bytes_string (to_ascii_lowercase <$> string_bytes s).

(** ** Prefixes and parts *)

(** [strip_prefix]. *)
Definition strip_prefix (prefix bytes : list byte) : option (list byte) :=
  if bool_decide (take (length prefix) bytes = prefix) then Some (drop (length prefix) bytes) else None.

Definition starts_with (prefix s : string) : bool :=
  bool_decide (is_Some (strip_prefix (string_bytes prefix) (string_bytes s))).

(** [contains] of a pattern that is a text. *)
Fixpoint contains_bytes (pattern bytes : list byte) : bool :=
  bool_decide (is_Some (strip_prefix pattern bytes)) ||
  match bytes with [] => false | _ :: rest => contains_bytes pattern rest end.

Definition contains (pattern s : string) : bool :=
  contains_bytes (string_bytes pattern) (string_bytes s).

Lemma strip_prefix_Some prefix bytes rest :
  strip_prefix prefix bytes = Some rest <-> bytes = prefix ++ rest.
Proof.
  unfold strip_prefix. case_bool_decide as E.
  - split; [|intros ->; by rewrite drop_app_length].
    intros [= <-]. rewrite <-(take_drop (length prefix) bytes) at 1. by rewrite E.
  - split; [done|]. intros ->. by rewrite take_app_length in E.
Qed.

(** ** [trim]

    White space is recognised at either end by its encoding, as in [blank]. *)

Fixpoint trim_front (b : list N) : list N :=
  match b with
  | 194 :: c :: rest =>
      if ((c =? 133) || (c =? 160))%N then trim_front rest else b
  | 225 :: 154 :: c :: rest => if (c =? 128)%N then trim_front rest else b
  | 226 :: 128 :: c :: rest =>
      if (((128 <=? c) && (c <=? 138)) || (c =? 168) || (c =? 169) || (c =? 175))%N
      then trim_front rest else b
  | 226 :: 129 :: c :: rest => if (c =? 159)%N then trim_front rest else b
  | 227 :: 128 :: c :: rest => if (c =? 128)%N then trim_front rest else b
  | c :: rest => if (((9 <=? c) && (c <=? 13)) || (c =? 32))%N then trim_front rest else b
  | [] => []
  end%N.

(** The same of the bytes in reverse. *)
Fixpoint trim_back (b : list N) : list N :=
  match b with
  | c :: 194 :: rest =>
      if ((c =? 133) || (c =? 160))%N then trim_back rest else b
  | c :: 154 :: 225 :: rest => if (c =? 128)%N then trim_back rest else b
  | c :: 128 :: 226 :: rest =>
      if (((128 <=? c) && (c <=? 138)) || (c =? 168) || (c =? 169) || (c =? 175))%N
      then trim_back rest else b
  | c :: 129 :: 226 :: rest => if (c =? 159)%N then trim_back rest else b
  | c :: 128 :: 227 :: rest => if (c =? 128)%N then trim_back rest else b
  | c :: rest => if (((9 <=? c) && (c <=? 13)) || (c =? 32))%N then trim_back rest else b
  | [] => []
  end%N.

Definition trim (s : string) : string :=
  let front := trim_front (code <$> string_bytes s) in
  bytes_string (Ascii.ascii_of_N <$> rev (trim_back (rev front))).

(** [trim_start]. *)
Definition trim_start (s : string) : string :=
  bytes_string (Ascii.ascii_of_N <$> trim_front (code <$> string_bytes s)).

(** ** Lines *)

(** The parts of a text between the bytes [sep]. *)
Fixpoint split_bytes (sep : byte) (bytes : list byte) : list (list byte) :=
  match bytes with
  | [] => [[]]
  | b :: rest =>
      if bool_decide (b = sep) then [] :: split_bytes sep rest
      else match split_bytes sep rest with
           | part :: parts => (b :: part) :: parts
           | [] => [[b]]
           end
  end.

(** [join] with a byte between the parts. *)
Fixpoint join_bytes (sep : byte) (parts : list (list byte)) : list byte :=
  match parts with
  | [] => []
  | [part] => part
  | part :: parts => part ++ sep :: join_bytes sep parts
  end.

Lemma split_bytes_nonempty sep bytes : split_bytes sep bytes <> [].
Proof. destruct bytes as [|b bytes]; simpl; [done|]. case_bool_decide; [done|]. by destruct (split_bytes sep bytes). Qed.

(** Splitting and joining undo each other. *)
Lemma join_split sep bytes : join_bytes sep (split_bytes sep bytes) = bytes.
Proof.
  induction bytes as [|b bytes IH]; simpl; [done|]. pose proof (split_bytes_nonempty sep bytes) as Hn.
  case_bool_decide as Hb.
  - subst b. destruct (split_bytes sep bytes) as [|part parts]; [done|]. by rewrite <-IH.
  - destruct (split_bytes sep bytes) as [|part parts]; [done|]. rewrite <-IH. by destruct parts.
Qed.

Lemma split_part sep part : sep ∉ part -> split_bytes sep part = [part].
Proof.
  induction part as [|b part IH]; simpl; [done|]. intros Hn%not_elem_of_cons. destruct Hn as [Hb Hn].
  case_bool_decide; [congruence|]. by rewrite IH.
Qed.

Lemma split_app sep part bytes : sep ∉ part ->
  split_bytes sep (part ++ sep :: bytes) = part :: split_bytes sep bytes.
Proof.
  induction part as [|b part IH]; simpl; intros Hn; [by rewrite bool_decide_eq_true_2|].
  apply not_elem_of_cons in Hn as [Hb Hn]. case_bool_decide; [congruence|]. by rewrite IH.
Qed.

Lemma split_join sep parts : parts <> [] -> Forall (fun part => sep ∉ part) parts ->
  split_bytes sep (join_bytes sep parts) = parts.
Proof.
  induction parts as [|part parts IH]; [done|]. intros _ [Hp Hps]%Forall_cons.
  destruct parts as [|p2 ps]; [by apply split_part|].
  change (join_bytes sep (part :: p2 :: ps)) with (part ++ sep :: join_bytes sep (p2 :: ps)).
  by rewrite split_app, IH.
Qed.

Definition newline : byte := Ascii.ascii_of_N 10.
Definition carriage_return : byte := Ascii.ascii_of_N 13.

(** Without a last carriage return. *)
Definition strip_cr (line : list byte) : list byte :=
  match rev line with
  | b :: rest => if bool_decide (b = carriage_return) then rev rest else line
  | [] => line
  end.

(** [lines()]: a last line that is empty is none. *)
Definition lines (s : string) : list string :=
  let parts := split_bytes newline (string_bytes s) in
  let parts := match last parts with Some [] => take (length parts - 1) parts | _ => parts end in
  (fun line => bytes_string (strip_cr line)) <$> parts.

(** ** Characters *)

(** A byte that is not the first of its character. *)
Definition is_continuation_byte (b : byte) : bool := between 128 191 b.

Definition chars_count (s : string) : nat :=
  length (List.filter (fun b => negb (is_continuation_byte b)) (string_bytes s)).

(** [chars().take(n)], collected. *)
Fixpoint take_chars (n : nat) (bytes : list byte) : list byte :=
  match bytes with
  | [] => []
  | b :: rest =>
      if is_continuation_byte b then b :: take_chars n rest
      else match n with O => [] | S n => b :: take_chars n rest end
  end.

(** What is taken has no more characters. *)
Lemma take_chars_count n bytes : chars_count (bytes_string (take_chars n bytes)) <= n.
Proof.
  unfold chars_count. rewrite string_bytes_string. revert n. induction bytes as [|b bytes IH]; intros n; [cbn; lia|].
  cbn [take_chars]. destruct (is_continuation_byte b) eqn:Eb; [cbn [List.filter]; rewrite Eb; apply IH|].
  destruct n as [|n]; [cbn; lia|]. cbn [List.filter]. rewrite Eb. cbn. specialize (IH n). lia.
Qed.

(** ** UTF-8

    [std::str::from_utf8]: the well-formed byte sequences of the Unicode
    standard (table 3-7). *)

Definition continuation (c : N) : bool := ((128 <=? c) && (c <=? 191))%N.

Fixpoint utf8_bytes (b : list N) : bool :=
  match b with
  | [] => true
  | c :: b =>
      if (c <=? 127)%N then utf8_bytes b
      else if ((194 <=? c) && (c <=? 223))%N then
        match b with
        | c1 :: b => continuation c1 && utf8_bytes b
        | _ => false
        end
      else if ((224 <=? c) && (c <=? 239))%N then
        match b with
        | c1 :: c2 :: b =>
            ((if (c =? 224)%N then 160 <=? c1 else 128 <=? c1) &&
             (if (c =? 237)%N then c1 <=? 159 else c1 <=? 191))%N &&
            continuation c2 && utf8_bytes b
        | _ => false
        end
      else if ((240 <=? c) && (c <=? 244))%N then
        match b with
        | c1 :: c2 :: c3 :: b =>
            ((if (c =? 240)%N then 144 <=? c1 else 128 <=? c1) &&
             (if (c =? 244)%N then c1 <=? 143 else c1 <=? 191))%N &&
            continuation c2 && continuation c3 && utf8_bytes b
        | _ => false
        end
      else false
  end.

Definition utf8 (b : list byte) : bool := utf8_bytes (Ascii.N_of_ascii <$> b).

(** [char::len_utf8], by the first byte of the character. *)
Definition char_len (b : byte) : nat :=
  if (code b <? 128)%N then 1 else if (code b <? 224)%N then 2 else if (code b <? 240)%N then 3 else 4.

(** A text starts with a whole character. *)
Lemma utf8_cons b bytes : utf8 (b :: bytes) = true ->
  exists tail rest, bytes = tail ++ rest /\ S (length tail) = char_len b /\
    Forall (fun c => is_continuation_byte c = true) tail /\
    is_continuation_byte b = false /\ utf8 rest = true.
Proof.
  unfold utf8, char_len, is_continuation_byte, between, continuation. cbn [fmap list_fmap utf8_bytes].
  change Ascii.N_of_ascii with code. intros H.
  destruct (N.leb_spec (code b) 127).
  { exists [], bytes. destruct (N.ltb_spec (code b) 128); [|lia].
    destruct (N.leb_spec 128 (code b)); [lia|]. by split_and!. }
  destruct (N.ltb_spec (code b) 128); [lia|].
  destruct (N.leb_spec 194 (code b)); simpl in H.
  2:{ destruct (N.leb_spec 224 (code b)); [lia|]. destruct (N.leb_spec 240 (code b)); [lia|done]. }
  assert ((128 <=? code b)%N && (code b <=? 191)%N = false) as Hb.
  { apply andb_false_iff. right. apply N.leb_gt. lia. }
  destruct (N.leb_spec (code b) 223); simpl in H.
  { destruct (N.ltb_spec (code b) 224); [|lia]. destruct bytes as [|c bytes]; [done|]. simpl in H.
    apply andb_prop in H as [Hc Hu]. exists [c], bytes. split_and!; try done. by repeat constructor. }
  destruct (N.ltb_spec (code b) 224); [lia|]. destruct (N.leb_spec 224 (code b)); [|lia].
  destruct (N.leb_spec (code b) 239); simpl in H.
  { destruct (N.ltb_spec (code b) 240); [|lia]. destruct bytes as [|c1 [|c2 bytes]]; try done. simpl in H.
    apply andb_prop in H as [[[G1 G2]%andb_prop Hc]%andb_prop Hu]. exists [c1; c2], bytes.
    split_and!; try done. constructor; [|by repeat constructor].
    destruct (code b =? 224)%N, (code b =? 237)%N; bool_to_prop; apply andb_true_iff; rewrite !N.leb_le; lia. }
  destruct (N.ltb_spec (code b) 240); [lia|]. destruct (N.leb_spec 240 (code b)); [|lia].
  destruct (N.leb_spec (code b) 244); simpl in H; [|done].
  destruct bytes as [|c1 [|c2 [|c3 bytes]]]; try done. simpl in H.
  apply andb_prop in H as [[[[G1 G2]%andb_prop Hc2]%andb_prop Hc3]%andb_prop Hu]. exists [c1; c2; c3], bytes.
  split_and!; try done. constructor; [|by repeat constructor].
  destruct (code b =? 240)%N, (code b =? 244)%N; bool_to_prop; apply andb_true_iff; rewrite !N.leb_le; lia.
Qed.

Lemma utf8_ascii b bytes : (code b < 128)%N -> utf8 (b :: bytes) = utf8 bytes.
Proof.
  intros Hb. unfold utf8. cbn [fmap list_fmap utf8_bytes]. change (Ascii.N_of_ascii b) with (code b).
  destruct (N.leb_spec (code b) 127); [done|lia].
Qed.

(** What is left of a text from the start of a character is a text. *)
Lemma utf8_suffix before rest : utf8 (before ++ rest) = true ->
  match rest with b :: _ => is_continuation_byte b = false | [] => True end -> utf8 rest = true.
Proof.
  remember (length before) as n eqn:En. revert before En.
  induction n as [n IH] using lt_wf_ind. intros before -> Hu Hr. destruct before as [|b before]; [done|].
  simpl in Hu. apply utf8_cons in Hu as (tail & more & E & _ & Hc & _ & Hm).
  apply app_eq_inv in E as [(k & -> & ->)|(k & -> & ->)].
  - apply (IH (length k) ltac:(simpl; rewrite length_app; lia) k eq_refl Hm Hr).
  - destruct k as [|c k]; [done|]. exfalso. apply Forall_app in Hc as [_ Hk].
    inversion Hk; subst. simpl in Hr. congruence.
Qed.

(** ** Paths

    [std::path] on Unix, on the bytes of a path. *)

Definition slash : byte := Ascii.ascii_of_N 47.
Definition full_stop : byte := Ascii.ascii_of_N 46.

(** [Path::join]. *)
Definition path_join (dir name : string) : string :=
  if starts_with "/" name then name
  else if bool_decide (last (string_bytes dir) = Some (slash)) || bool_decide (dir = "")
       then dir +:+ name
       else dir +:+ "/" +:+ name.

(** The normal components and the [..]s of a path. *)
Definition path_parts (path : string) : list (list byte) :=
  List.filter (fun part => negb (bool_decide (part = [])) && negb (bool_decide (part = [full_stop])))
    (split_bytes slash (string_bytes path)).

Definition is_absolute (path : string) : bool := starts_with "/" path.

(** [Path::starts_with], by components. *)
Definition path_starts_with (path base : string) : bool :=
  bool_decide (is_absolute path = is_absolute base) &&
  bool_decide (take (length (path_parts base)) (path_parts path) = path_parts base).

(** [Path::file_stem]. *)
Definition file_stem (path : string) : option string :=
  name ← last (path_parts path);
  if bool_decide (name = [full_stop; full_stop]) then None
  else
    match split_bytes full_stop name with
    | [] | [_] => Some (bytes_string name)
    | parts =>
        match join_bytes full_stop (take (length parts - 1) parts) with
        | [] => Some (bytes_string name)
        | stem => Some (bytes_string stem)
        end
    end.

Example stems :
  file_stem <$> ["skills/a.md"; "a.tar.gz"; ".bashrc"; "dir/"; "."; "a/..."] =
  [Some "a"; Some "a.tar"; Some ".bashrc"; Some "dir"; None; Some ".."].
Proof. vm_compute. reflexivity. Qed.

Example trim_both_ends : trim "  a b
 " = "a b" /\ trim "" = "" /\ trim " " = "".
Proof. vm_compute. split_and!; reflexivity. Qed.

Example lines_of_a_text :
  lines (bytes_string (string_bytes "a" ++ [carriage_return; newline; newline] ++ string_bytes "b" ++ [newline]))
  = ["a"; ""; "b"].
Proof. vm_compute. reflexivity. Qed.

Example take_chars_keeps_characters :
  take_chars 2 (string_bytes "é…x") = string_bytes "é…" /\ chars_count "é…x" = 3.
Proof. vm_compute. split; reflexivity. Qed.
