(* ===== verification/Protocol.v ===== *)
(** * The data model of [crates/protocol]

    Identifiers ([id.rs]), run specifications ([spec.rs]), effects
    ([effect.rs]), model and tool descriptions ([model.rs], [tool.rs]),
    policy decisions ([policy.rs]), the two state types ([phase.rs]) and
    events ([event.rs]), with the typestate builder of [spec.rs].

    A Rust [String] is the [string] of its UTF-8 bytes, so [len()] is
    [String.length].  A [Uuid] is its 128-bit value. *)

From S2P Require Import Prelude.

(** ** Identifiers (id.rs) *)

(** The [id!] macro declares one newtype per kind of identifier over
    [Uuid]; here they are one record with the kind as a phantom index. *)
Inductive IdKind :=
| KRun | KAgent | KStep | KEvent | KArtifact | KTool | KApproval
| KInvocation | KMessage | KTrigger.

(** A [Uuid] is a 128-bit value. *)
Definition uuid_bound : N := 340282366920938463463374607431768211456.

Record Uuid : Type := mkUuid {
  uuid_N : N;
  uuid_lt : (uuid_N <? uuid_bound)%N = true;
}.

#[export] Instance uuid_N_inj : Inj (=) (=) uuid_N.
Proof.
  intros [x Hx] [y Hy] Heq. simpl in Heq. subst y. f_equal.
  apply eq_pi. solve_decision.
Qed.

#[export] Instance Uuid_eq_dec : EqDecision Uuid.
Proof.
  intros x y. destruct (decide (uuid_N x = uuid_N y)) as [E|E].
  - left. by apply (inj uuid_N).
  - right. by intros ->.
Defined.

(** [Uuid::from_u128]. *)
Lemma from_u128_lt n : (n mod uuid_bound <? uuid_bound)%N = true.
Proof. apply N.ltb_lt. by apply N.mod_upper_bound. Qed.

Definition from_u128 (n : N) : Uuid := mkUuid (n mod uuid_bound) (from_u128_lt n).

Lemma from_u128_uuid_N u : from_u128 (uuid_N u) = u.
Proof.
  apply (inj uuid_N). simpl. apply N.mod_small. apply N.ltb_lt, uuid_lt.
Qed.

#[export] Instance Uuid_countable : Countable Uuid :=
  inj_countable' uuid_N from_u128 from_u128_uuid_N.

Record Id (k : IdKind) : Type := from_uuid { as_uuid : Uuid }.
Arguments from_uuid {k} as_uuid.
Arguments as_uuid {k} i.

#[export] Instance Id_eq_dec k : EqDecision (Id k).
Proof. solve_decision. Defined.

#[export] Instance Id_countable k : Countable (Id k) :=
  inj_countable' as_uuid from_uuid
    (fun i => match i with from_uuid _ => eq_refl end).

(** An identifier with a given number, for concrete runs. *)
Definition id_of {k} (n : N) : Id k := from_uuid (from_u128 n).

Abbreviation RunId := (Id KRun).
Abbreviation AgentId := (Id KAgent).
Abbreviation StepId := (Id KStep).
Abbreviation EventId := (Id KEvent).
Abbreviation ArtifactId := (Id KArtifact).
Abbreviation ToolId := (Id KTool).
Abbreviation ApprovalId := (Id KApproval).
Abbreviation InvocationId := (Id KInvocation).
Abbreviation MessageId := (Id KMessage).

(** ** Specifications (spec.rs) *)

Record Capability : Type := mkCapability { cap_name : string }.

#[export] Instance Capability_eq_dec : EqDecision Capability.
Proof. solve_decision. Defined.

Inductive ExecutionPlacement := Local | Reverse | PBox.

#[export] Instance ExecutionPlacement_eq_dec : EqDecision ExecutionPlacement.
Proof. solve_decision. Defined.

Inductive CredentialSource :=
| BringYourOwn (secret_ref : string)
| PlatformGateway.

Inductive ModelProvider := OpenAI | Anthropic | Gemini | SystemOne.

Record WorkModel : Type := mkWorkModel {
  wm_provider : ModelProvider;
  wm_model_name : string;
  wm_credential : CredentialSource;
}.

(** The principal a run belongs to. *)
Record Owner : Type := mkOwner {
  issuer : string;
  subject : string;
  tenant : string;
}.

#[export] Instance Owner_eq_dec : EqDecision Owner.
Proof. solve_decision. Defined.

(** [Owner::is]: the same issuer and subject; the tenant does not count. *)
Definition owner_is (self other : Owner) : bool :=
  bool_decide (issuer self = issuer other) &&
  bool_decide (subject self = subject other).

Record Limits : Type := mkLimits {
  max_steps : N;
  max_model_calls : N;
}.

#[export] Instance Limits_eq_dec : EqDecision Limits.
Proof. solve_decision. Defined.

(** A [Limits] holds two [u32]s. *)
Definition limits_u32 (l : Limits) : Prop :=
  (max_steps l <= u32_max)%N /\ (max_model_calls l <= u32_max)%N.

Record Lineage : Type := mkLineage {
  parent : option RunId;
  lineage_root : option RunId;
  hop : N;
}.

Definition Lineage_default : Lineage := mkLineage None None 0.

Record RunSpec : Type := mkRunSpec {
  run_id : RunId;
  owner : Owner;
  agent_id : AgentId;
  agent_version : string;
  input : string;
  placement : ExecutionPlacement;
  work_model : WorkModel;
  capabilities : list Capability;
  limits : Limits;
  metadata : gmap string string;
  lineage : Lineage;
}.

(** [RunSpec::root]. *)
Definition root (self : RunSpec) : RunId :=
  default (run_id self) (lineage_root (lineage self)).

(** ** Effects (effect.rs) *)

Inductive MemoryScope :=
| ScopeStep | ScopeRun | ScopeSession | ScopeAgent | ScopeWorkspace
| ScopeUser | ScopeOrganization | ScopeGlobal.

#[export] Instance MemoryScope_eq_dec : EqDecision MemoryScope.
Proof. solve_decision. Defined.

Inductive Effect :=
| EModelCall (prompt : string)
| EToolCall (name input : string) (invocation : InvocationId)
| EMemoryRead (scope : MemoryScope) (key : string)
| EMemoryWrite (scope : MemoryScope) (key value : string)
| EExecute (command : string)
| EDelegate (agent_id : AgentId) (input : string)
| ESendMessage (to : AgentId) (body : string) (expects_reply : bool)
    (reply_to : option MessageId) (timeout_secs : option N)
| EAskUser (prompt : string)
| ERequestApproval (approval_id : ApprovalId) (reason : string)
| EWait (reason : string)
| EPublishArtifact (artifact_id : ArtifactId) (name body : string)
| EComplete (outcome : string).

#[export] Instance Effect_eq_dec : EqDecision Effect.
Proof. solve_decision. Defined.

Definition SESSION_ID : string := "session_id".
Definition WORKSPACE_ID : string := "workspace_id".

(** ** Models, tools, policy (model.rs, tool.rs, policy.rs) *)

Inductive MessageRole := RoleSystem | RoleUser | RoleAssistant.

#[export] Instance MessageRole_eq_dec : EqDecision MessageRole.
Proof. solve_decision. Defined.

Record ModelMessage : Type := mkModelMessage {
  role : MessageRole;
  text : string;
}.

Record Usage : Type := mkUsage { input_tokens : N; output_tokens : N }.

Record ModelRequest : Type := mkModelRequest {
  mr_provider : ModelProvider;
  mr_model_name : string;
  mr_prompt : string;
}.

Record ToolDescriptor : Type := mkToolDescriptor {
  tool_id : ToolId;
  tool_name : string;
  description : string;
  input_schema : string;
  output_schema : string;
  required_capability : Capability;
}.

Inductive PolicyDecision :=
| Allow
| Deny (reason : string)
| RequireApproval
| Modify
| Limit
| Redirect.

#[export] Instance PolicyDecision_eq_dec : EqDecision PolicyDecision.
Proof. solve_decision. Defined.

(** ** Phases (phase.rs) *)

Definition MAX_RETRIES : N := 2.
Definition MAX_DELEGATION_HOPS : N := 8.
Definition MAX_CHILDREN : N := 10.
Definition MAX_MESSAGE_BYTES : nat := 32 * 1024.
Definition MAX_ASK_TIMEOUT_SECS : N := 24 * 60 * 60.

Inductive FailureClass :=
| FcAgent | FcModel | FcTool | FcPolicy | FcEnvironment | FcInfrastructure
| FcTimeout | FcBudget | FcDependency | FcUserCancellation.

#[export] Instance FailureClass_eq_dec : EqDecision FailureClass.
Proof. solve_decision. Defined.

Inductive HarnessState :=
| Idle
| Running (step attempt : N) (answered : bool)
| WaitingForTool (step attempt : N) (name : string) (invocation : InvocationId)
| WaitingForMessage (step attempt : N) (message_id : MessageId)
| Completed (outcome : string)
| Failed (class : FailureClass) (message : string)
| Cancelled.

#[export] Instance HarnessState_eq_dec : EqDecision HarnessState.
Proof. solve_decision. Defined.

(** [HarnessState::is_terminal]. *)
Definition harness_is_terminal (self : HarnessState) : bool :=
  match self with
  | Completed _ | Failed _ _ | Cancelled => true
  | _ => false
  end.

Inductive DispatchPhase :=
| DCreated | DQueued | DScheduled | DProvisioning | DStarting | DRunning
| DWaiting (reason : string)
| DAwaitingApproval (approval_id : ApprovalId)
| DPaused | DRecovering
| DCompleted (outcome : string)
| DFailed (class : FailureClass) (message : string)
| DCancelled | DExpired.

#[export] Instance DispatchPhase_eq_dec : EqDecision DispatchPhase.
Proof. solve_decision. Defined.

(** [DispatchPhase::is_terminal]. *)
Definition dispatch_is_terminal (self : DispatchPhase) : bool :=
  match self with
  | DCompleted _ | DFailed _ _ | DCancelled | DExpired => true
  | _ => false
  end.

(** ** Events (event.rs) *)

(** Unix milliseconds, an [i64]. *)
Definition Timestamp := Z.

Inductive Actor := ActorSystem | ActorAgent | ActorPolicy | ActorTool | ActorGateway.

Record EventEnvelope : Type := mkEventEnvelope {
  event_id : EventId;
  env_event_type : string;
  env_run_id : RunId;
  env_step_id : option StepId;
  env_parent_run_id : option RunId;
  env_agent_id : AgentId;
  env_agent_version : string;
  at_ : Timestamp;
  actor : Actor;
  caused_by : option EventId;
}.

Inductive EventPayload :=
| RunCreated
| RunQueued
| RunScheduled
| RunProvisioning
| RunStarting
| RunStarted
| RunWaiting (reason : string)
| RunAwaitingApproval (approval_id : ApprovalId)
| RunPaused
| RunRecovering
| RunResumed
| RunCompleted (outcome : string)
| RunFailed (class : FailureClass) (message : string)
| RunCancelled
| RunExpired
| UserMessage (text : string)
| StepRetried
| StepAdvanced
| EffectDecided (effect : Effect)
| EffectAuthorized (effect : Effect)
| EffectDenied (effect : Effect) (reason : string)
| ToolResult (name : string) (invocation : InvocationId) (step attempt : N) (output : string)
| ModelResponded (message : ModelMessage) (usage : option Usage)
| MemoryRead (scope : MemoryScope) (key : string) (value : option string)
| MemoryWritten (scope : MemoryScope) (key value : string)
| ChildStarted (run_id : RunId) (agent_id : AgentId) (limits : Limits)
| DelegateRefused (agent_id : AgentId) (reason : string)
| MessageSent (message_id : MessageId) (to : AgentId) (expects_reply : bool)
| MessageRefused (to : AgentId) (reason : string)
| MessageReceived (message_id : MessageId) (from_agent : AgentId) (from_run : RunId)
    (body : string) (reply_to : option MessageId)
| AskTimedOut (message_id : MessageId)
| UserAsked (message_id : MessageId) (prompt : string)
| UserAskRefused (reason : string)
| UserAnswered (message_id : MessageId) (text : string).

(** [EventPayload::event_type]. *)
Definition event_type (self : EventPayload) : string :=
  match self with
  | RunCreated => "run.created"
  | RunQueued => "run.queued"
  | RunScheduled => "run.scheduled"
  | RunProvisioning => "run.provisioning"
  | RunStarting => "run.starting"
  | RunStarted => "run.started"
  | RunWaiting _ => "run.waiting"
  | RunAwaitingApproval _ => "run.awaiting_approval"
  | RunPaused => "run.paused"
  | RunRecovering => "run.recovering"
  | RunResumed => "run.resumed"
  | RunCompleted _ => "run.completed"
  | RunFailed _ _ => "run.failed"
  | RunCancelled => "run.cancelled"
  | RunExpired => "run.expired"
  | UserMessage _ => "message.user"
  | StepRetried => "step.retried"
  | StepAdvanced => "step.advanced"
  | EffectDecided _ => "effect.decided"
  | EffectAuthorized _ => "effect.authorized"
  | EffectDenied _ _ => "effect.denied"
  | ToolResult _ _ _ _ _ => "tool.result"
  | ModelResponded _ _ => "model.responded"
  | MemoryRead _ _ _ => "memory.read"
  | MemoryWritten _ _ _ => "memory.written"
  | ChildStarted _ _ _ => "child.started"
  | DelegateRefused _ _ => "delegate.refused"
  | MessageSent _ _ _ => "message.sent"
  | MessageRefused _ _ => "message.refused"
  | MessageReceived _ _ _ _ _ => "message.received"
  | AskTimedOut _ => "message.ask_timed_out"
  | UserAsked _ _ => "user.asked"
  | UserAskRefused _ => "user.ask_refused"
  | UserAnswered _ _ => "user.answered"
  end.

Record Event : Type := mkEvent {
  envelope : EventEnvelope;
  payload : EventPayload;
}.

Record EventSource : Type := mkEventSource {
  src_run_id : RunId;
  src_parent_run_id : option RunId;
  src_agent_id : AgentId;
  src_agent_version : string;
  src_step_id : option StepId;
  src_actor : Actor;
  src_caused_by : option EventId;
  src_at : Timestamp;
}.

(** [EventSource::new]. *)
Definition event_source_new (run : RunId) (agent : AgentId) (version : string)
    (a : Actor) (t : Timestamp) : EventSource :=
  mkEventSource run None agent version None a None t.

(** [EventSource::for_spec]: also names the parent of a child run. *)
Definition event_source_for_spec (spec : RunSpec) (a : Actor) (t : Timestamp) : EventSource :=
  let s := event_source_new (run_id spec) (agent_id spec) (agent_version spec) a t in
  mkEventSource (src_run_id s) (parent (lineage spec)) (src_agent_id s)
    (src_agent_version s) (src_step_id s) (src_actor s) (src_caused_by s) (src_at s).

(** [Event::record], given the random id [EventId::new()] drew. *)
Definition record (fresh : EventId) (source : EventSource) (p : EventPayload) : Event :=
  mkEvent
    (mkEventEnvelope fresh (event_type p) (src_run_id source) (src_step_id source)
       (src_parent_run_id source) (src_agent_id source) (src_agent_version source)
       (src_at source) (src_actor source) (src_caused_by source))
    p.

(** An event built by [record] carries the type name of its payload. *)
Definition event_wf (e : Event) : Prop :=
  env_event_type (envelope e) = event_type (payload e).

Lemma record_wf fresh s p : event_wf (record fresh s p).
Proof. done. Qed.

(** ** Concrete values for examples *)

(** [sample_spec] of [spec.rs], with fixed ids. *)
Definition sample_spec : RunSpec :=
  mkRunSpec (id_of 1) (mkOwner "https://issuer.test" "user-1" "tenant-1") (id_of 2) "1"
    "hello" Local (mkWorkModel OpenAI "gpt-test" PlatformGateway) [] (mkLimits 8 4) ∅
    Lineage_default.

Definition sample_event (p : EventPayload) : Event :=
  record (id_of 0) (event_source_for_spec sample_spec ActorSystem 0%Z) p.
