(* ===== verification/Uuids.v ===== *)
(** * What the runtime relies on of the [uuid] crate

    [Uuid::new_v5] (a SHA-1 hash of a namespace and a name), [as_bytes], the
    text form written by [Display] and read by [FromStr] are code of the [uuid]
    crate.  They are the operations of a class, with the documented laws the
    program rests on; [hyphenated] is an instance, in the crate's hyphenated
    form, that shows the laws can hold. *)

From S2P Require Import Prelude Text Protocol.

Class UuidCrate : Type := {
  uuid_bytes : Uuid -> list byte;
  uuid_v5 : Uuid -> list byte -> Uuid;
  uuid_display : Uuid -> string;
  uuid_parse : string -> option Uuid;
  uuid_bytes_length u : length (uuid_bytes u) = 16;
  uuid_bytes_inj u v : uuid_bytes u = uuid_bytes v -> u = v;
  uuid_display_length u : String.length (uuid_display u) = 36;
  uuid_parse_display u : uuid_parse (uuid_display u) = Some u;
  uuid_display_lower u : existsb is_ascii_uppercase (string_bytes (uuid_display u)) = false;
}.

Section Laws.
Context `{UuidCrate}.

Lemma uuid_display_inj u v : uuid_display u = uuid_display v -> u = v.
Proof. intros E. apply (f_equal uuid_parse) in E. rewrite !uuid_parse_display in E. congruence. Qed.

Lemma uuid_bytes_app_inj u v l k :
  uuid_bytes u ++ l = uuid_bytes v ++ k -> u = v /\ l = k.
Proof.
  intros E. apply app_inj_length in E as [E ->]; [|by rewrite !uuid_bytes_length].
  split; [by apply uuid_bytes_inj|done].
Qed.

(** [Display] of an identifier: that of its uuid. *)
Definition id_display {k} (i : Id k) : string := uuid_display (as_uuid i).

Lemma id_uuid_inj {k} (i j : Id k) : as_uuid i = as_uuid j -> i = j.
Proof. destruct i, j; simpl; congruence. Qed.

Lemma id_display_inj {k} (i j : Id k) : id_display i = id_display j -> i = j.
Proof. intros E%uuid_display_inj. by apply id_uuid_inj. Qed.

(** [FromStr] of an identifier. *)
Definition id_parse {k} (s : string) : option (Id k) := from_uuid <$> uuid_parse s.

Lemma id_parse_display {k} (i : Id k) : id_parse (id_display i) = Some i.
Proof. unfold id_parse, id_display. rewrite uuid_parse_display. by destruct i. Qed.

End Laws.

(** ** The hyphenated form *)

Definition hex_digit (d : N) : byte :=
  Ascii.ascii_of_N (if (d <? 10)%N then 48 + d else 87 + d).

Definition unhex_digit (c : byte) : option N :=
  let n := Ascii.N_of_ascii c in
  if ((48 <=? n) && (n <? 58))%N then Some (n - 48)%N
  else if ((97 <=? n) && (n <? 103))%N then Some (n - 87)%N
  else None.

Fixpoint hex_list (k : nat) (n : N) : list byte :=
  match k with
  | O => []
  | S k => hex_list k (n / 16) ++ [hex_digit (n mod 16)]
  end.

Definition unhex_list (l : list byte) : option N :=
  fold_left (fun acc c => v ← acc; d ← unhex_digit c; Some (16 * v + d)%N) l (Some 0%N).

Lemma unhex_hex_digit d : (d < 16)%N -> unhex_digit (hex_digit d) = Some d.
Proof.
  intros Hd. assert (d ∈ seq 0 16 ≫= fun i => [N.of_nat i]) as Hin.
  { apply list_elem_of_bind. exists (N.to_nat d). split; [|apply elem_of_seq; lia].
    rewrite N2Nat.id. set_solver. }
  simpl in Hin. repeat (apply elem_of_cons in Hin as [->|Hin]; [reflexivity|]).
  by apply not_elem_of_nil in Hin.
Qed.

Lemma unhex_hex_list k n : unhex_list (hex_list k n) = Some (n mod 16 ^ N.of_nat k)%N.
Proof.
  revert n; induction k as [|k IH]; intros n; simpl hex_list.
  { rewrite N.mod_1_r. done. }
  unfold unhex_list in *. rewrite fold_left_snoc, IH. simpl.
  rewrite unhex_hex_digit by (by apply N.mod_upper_bound). simpl. f_equal.
  rewrite Nat2N.inj_succ, N.pow_succ_r', N.Div0.mod_mul_r by lia. lia.
Qed.

Lemma length_hex_list k n : length (hex_list k n) = k.
Proof.
  revert n; induction k as [|k IH]; intros n; simpl; [done|].
  rewrite length_app, IH. simpl. lia.
Qed.

Definition dash : byte := Ascii.ascii_of_nat 45.

Definition hyphenate (l : list byte) : list byte :=
  take 8 l ++ dash :: take 4 (drop 8 l) ++ dash :: take 4 (drop 12 l) ++
  dash :: take 4 (drop 16 l) ++ dash :: drop 20 l.

Definition unhyphenate (l : list byte) : list byte :=
  take 8 l ++ take 4 (drop 9 l) ++ take 4 (drop 14 l) ++ take 4 (drop 19 l) ++ drop 24 l.

Lemma unhyphenate_hyphenate l : length l = 32 -> unhyphenate (hyphenate l) = l.
Proof. intros Hl. do 32 (destruct l as [|? l]; [done|]). destruct l; done. Qed.

Lemma length_hyphenate l : length l = 32 -> length (hyphenate l) = 36.
Proof. intros Hl. do 32 (destruct l as [|? l]; [done|]). destruct l; done. Qed.

Lemma existsb_sublist {A} (p : A -> bool) (l k : list A) :
  (forall x, x ∈ l -> x ∈ k) -> existsb p k = false -> existsb p l = false.
Proof.
  intros Hin Hk. destruct (existsb p l) eqn:E; [|done]. apply existsb_exists in E as (x & Hx & Hp).
  assert (existsb p k = true); [|congruence]. apply existsb_exists. exists x. split; [|done].
  apply list_elem_of_In, Hin. by apply list_elem_of_In.
Qed.

Lemma hex_list_lower k n : existsb is_ascii_uppercase (hex_list k n) = false.
Proof.
  revert n. induction k as [|k IH]; intros n; simpl; [done|]. rewrite existsb_app, IH. simpl.
  rewrite orb_false_r. unfold hex_digit, is_ascii_uppercase, between, code.
  assert (n mod 16 < 16)%N as Hn by (by apply N.mod_upper_bound).
  destruct (n mod 16 <? 10)%N eqn:E; bool_to_prop; rewrite !Ascii.N_ascii_embedding by lia;
    apply andb_false_iff; [left|right]; apply N.leb_gt; lia.
Qed.

Lemma take_in {A} (x : A) n l : x ∈ take n l -> x ∈ l.
Proof. intros Hx. rewrite <-(take_drop n l). apply elem_of_app. by left. Qed.

Lemma drop_in {A} (x : A) n l : x ∈ drop n l -> x ∈ l.
Proof. intros Hx. rewrite <-(take_drop n l). apply elem_of_app. by right. Qed.

Lemma hyphenate_in b l : b ∈ hyphenate l -> b = dash \/ b ∈ l.
Proof.
  unfold hyphenate. repeat (rewrite elem_of_app || rewrite elem_of_cons).
  intros Hb. repeat match goal with H : _ \/ _ |- _ => destruct H as [H|H] end; auto; right;
    repeat (apply take_in in Hb || apply drop_in in Hb); done.
Qed.

#[refine] Definition hyphenated : UuidCrate := {|
  uuid_bytes u := le_bytes 16 (uuid_N u);
  uuid_v5 ns name := from_u128 (uuid_N ns + le_value name);
  uuid_display u := bytes_string (hyphenate (hex_list 32 (uuid_N u)));
  uuid_parse s := from_u128 <$> unhex_list (unhyphenate (string_bytes s));
|}.
Proof.
  - intros u. apply length_le_bytes.
  - intros u v E. apply (f_equal le_value) in E. rewrite !le_value_bytes in E.
    change (256 ^ N.of_nat 16)%N with uuid_bound in E.
    rewrite !N.mod_small in E by (apply N.ltb_lt, uuid_lt). by apply (inj uuid_N).
  - intros u. rewrite <-length_string_bytes, string_bytes_string.
    apply length_hyphenate, length_hex_list.
  - intros u. rewrite string_bytes_string, unhyphenate_hyphenate by apply length_hex_list.
    rewrite unhex_hex_list. simpl. change (16 ^ N.of_nat 32)%N with uuid_bound.
    rewrite N.mod_small by (apply N.ltb_lt, uuid_lt). f_equal. apply from_u128_uuid_N.
  - intros u. rewrite string_bytes_string.
    apply (existsb_sublist _ _ (dash :: hex_list 32 (uuid_N u))); [|exact (hex_list_lower 32 (uuid_N u))].
    intros b [-> |Hb]%hyphenate_in; [by left|by right].
Defined.

Example hyphenated_example :
  uuid_display (UuidCrate := hyphenated) (from_u128 0x3b1c9c0a4e2d4b7a9c118a0e5d2f6b41)
  = "3b1c9c0a-4e2d-4b7a-9c11-8a0e5d2f6b41".
Proof. vm_compute. reflexivity. Qed.
