(* ===== verification/SpecBuilder.v ===== *)
(** * The run specification builder and child run ids ([spec.rs])

    [RunSpecBuilder] is a typestate builder: [build] exists only once the
    agent, the input, the placement, the work model and the owner are
    recorded, and it unwraps them.  The model keeps the type parameters as
    indices of the record, so the operations below can only be composed as
    the Rust type checker lets them be, and keeps the [expect]s of [build]
    as the failing case of an [option]: [build_total] shows it is never
    taken.

    A child's id is a version-5 UUID of the request that asked for it.  The
    hash and the byte layout of a UUID are of the [uuid] crate ([UuidCrate]). *)

From S2P Require Import Prelude Protocol Uuids.

Inductive Tag := Missing | IsSet.

Record ChildOf : Type := mkChildOf {
  co_parent : RunId;
  co_root : RunId;
  co_hop : N;
  co_step : N;
}.

Record SpecDraft : Type := mkSpecDraft {
  d_owner : option Owner;
  d_agent_id : option AgentId;
  d_agent_version : option string;
  d_input : option string;
  d_placement : option ExecutionPlacement;
  d_work_model : option WorkModel;
  d_capabilities : list Capability;
  d_limits : Limits;
  d_metadata : gmap string string;
  d_child_of : option ChildOf;
}.

Record RunSpecBuilder (A I P W O : Tag) : Type := mkBuilder { draft : SpecDraft }.
Arguments mkBuilder {A I P W O} draft.
Arguments draft {A I P W O} r.

(** [RunSpecBuilder::new] and [RunSpec::builder]. *)
Definition builder : RunSpecBuilder Missing Missing Missing Missing Missing :=
  mkBuilder (mkSpecDraft None None None None None None [] (mkLimits 8 4) ∅ None).

Definition with_owner {A I P W} (b : RunSpecBuilder A I P W Missing) (o : Owner)
    : RunSpecBuilder A I P W IsSet :=
  let d := draft b in
  mkBuilder (mkSpecDraft (Some o) (d_agent_id d) (d_agent_version d) (d_input d)
    (d_placement d) (d_work_model d) (d_capabilities d) (d_limits d) (d_metadata d)
    (d_child_of d)).

Definition with_agent {I P W O} (b : RunSpecBuilder Missing I P W O) (a : AgentId)
    (version : string) : RunSpecBuilder IsSet I P W O :=
  let d := draft b in
  mkBuilder (mkSpecDraft (d_owner d) (Some a) (Some version) (d_input d)
    (d_placement d) (d_work_model d) (d_capabilities d) (d_limits d) (d_metadata d)
    (d_child_of d)).

Definition with_input {A P W O} (b : RunSpecBuilder A Missing P W O) (text : string)
    : RunSpecBuilder A IsSet P W O :=
  let d := draft b in
  mkBuilder (mkSpecDraft (d_owner d) (d_agent_id d) (d_agent_version d) (Some text)
    (d_placement d) (d_work_model d) (d_capabilities d) (d_limits d) (d_metadata d)
    (d_child_of d)).

Definition with_placement {A I W O} (b : RunSpecBuilder A I Missing W O)
    (p : ExecutionPlacement) : RunSpecBuilder A I IsSet W O :=
  let d := draft b in
  mkBuilder (mkSpecDraft (d_owner d) (d_agent_id d) (d_agent_version d) (d_input d)
    (Some p) (d_work_model d) (d_capabilities d) (d_limits d) (d_metadata d)
    (d_child_of d)).

Definition with_work_model {A I P O} (b : RunSpecBuilder A I P Missing O) (w : WorkModel)
    : RunSpecBuilder A I P IsSet O :=
  let d := draft b in
  mkBuilder (mkSpecDraft (d_owner d) (d_agent_id d) (d_agent_version d) (d_input d)
    (d_placement d) (Some w) (d_capabilities d) (d_limits d) (d_metadata d)
    (d_child_of d)).

Abbreviation CompleteBuilder := (RunSpecBuilder IsSet IsSet IsSet IsSet IsSet).

Definition with_capabilities (b : CompleteBuilder) (c : list Capability) : CompleteBuilder :=
  let d := draft b in
  mkBuilder (mkSpecDraft (d_owner d) (d_agent_id d) (d_agent_version d) (d_input d)
    (d_placement d) (d_work_model d) c (d_limits d) (d_metadata d) (d_child_of d)).

Definition with_limits (b : CompleteBuilder) (l : Limits) : CompleteBuilder :=
  let d := draft b in
  mkBuilder (mkSpecDraft (d_owner d) (d_agent_id d) (d_agent_version d) (d_input d)
    (d_placement d) (d_work_model d) (d_capabilities d) l (d_metadata d) (d_child_of d)).

Definition with_metadata (b : CompleteBuilder) (m : gmap string string) : CompleteBuilder :=
  let d := draft b in
  mkBuilder (mkSpecDraft (d_owner d) (d_agent_id d) (d_agent_version d) (d_input d)
    (d_placement d) (d_work_model d) (d_capabilities d) (d_limits d) m (d_child_of d)).

(** [child_of]: a child of [p], started by its [step], one hop further on. *)
Definition child_of (b : CompleteBuilder) (p : RunSpec) (step : N) : CompleteBuilder :=
  let d := draft b in
  mkBuilder (mkSpecDraft (d_owner d) (d_agent_id d) (d_agent_version d) (d_input d)
    (d_placement d) (d_work_model d) (d_capabilities d) (d_limits d) (d_metadata d)
    (Some (mkChildOf (run_id p) (root p) (sat_add32 (hop (lineage p)) 1) step))).

Definition CHILD_RUN_NAMESPACE : Uuid := from_u128 0x6f8b1c2e4a7d4e5b9c3f2d1a0b8e7c6d%N.

Section Build.
Context `{UuidCrate}.

(** The bytes the child's id is derived from: root, parent, step, agent and
    input, in that order. *)
Definition child_name (child : ChildOf) (agent : AgentId) (text : string) : list byte :=
  uuid_bytes (as_uuid (co_root child)) ++ uuid_bytes (as_uuid (co_parent child)) ++
  le_bytes 4 (co_step child) ++ uuid_bytes (as_uuid agent) ++ string_bytes text.

(** [build], given the id [RunId::new()] draws for a top-level run.  [None]
    is a panic of one of its [expect]s. *)
Definition build (fresh : RunId) (b : CompleteBuilder) : option RunSpec :=
  let d := draft b in
  agent ← d_agent_id d;
  text ← d_input d;
  let '(id, lin) :=
    match d_child_of d with
    | None => (fresh, Lineage_default)
    | Some child =>
        (from_uuid (uuid_v5 CHILD_RUN_NAMESPACE (child_name child agent text)),
         mkLineage (Some (co_parent child)) (Some (co_root child)) (co_hop child))
    end in
  o ← d_owner d;
  version ← d_agent_version d;
  p ← d_placement d;
  w ← d_work_model d;
  Some (mkRunSpec id o agent version text p w (d_capabilities d) (d_limits d)
          (d_metadata d) lin).

End Build.

(** ** The typestate is honest *)

(** The builders a caller can reach through the operations above. *)
Inductive reachable : forall {A I P W O : Tag}, RunSpecBuilder A I P W O -> Prop :=
| reach_new : reachable builder
| reach_owner A I P W (b : RunSpecBuilder A I P W Missing) o :
    reachable b -> reachable (with_owner b o)
| reach_agent I P W O (b : RunSpecBuilder Missing I P W O) a v :
    reachable b -> reachable (with_agent b a v)
| reach_input A P W O (b : RunSpecBuilder A Missing P W O) t :
    reachable b -> reachable (with_input b t)
| reach_placement A I W O (b : RunSpecBuilder A I Missing W O) p :
    reachable b -> reachable (with_placement b p)
| reach_work_model A I P O (b : RunSpecBuilder A I P Missing O) w :
    reachable b -> reachable (with_work_model b w)
| reach_capabilities b c : reachable b -> reachable (with_capabilities b c)
| reach_limits b l : reachable b -> reachable (with_limits b l)
| reach_metadata b m : reachable b -> reachable (with_metadata b m)
| reach_child_of b p s : reachable b -> reachable (child_of b p s).

(** What a tag promises: the fields it stands for are recorded. *)
Definition promised {T} (t : Tag) (o : option T) : Prop := t = IsSet -> is_Some o.

Definition builder_wf {A I P W O} (b : RunSpecBuilder A I P W O) : Prop :=
  promised A (d_agent_id (draft b)) /\ promised A (d_agent_version (draft b)) /\
  promised I (d_input (draft b)) /\ promised P (d_placement (draft b)) /\
  promised W (d_work_model (draft b)) /\ promised O (d_owner (draft b)).

Lemma reachable_wf {A I P W O} (b : RunSpecBuilder A I P W O) :
  reachable b -> builder_wf b.
Proof.
  unfold builder_wf, promised. induction 1; simpl in *; intuition (eauto; congruence).
Qed.

(** A specification that the typestate lets a caller build is always
    built: none of [build]'s [expect]s can panic, whatever order the required
    fields were recorded in and whatever optional ones were set. *)
Theorem build_total `{UuidCrate} fresh (b : CompleteBuilder) :
  reachable b -> is_Some (build fresh b).
Proof.
  intros (Ha & Hv & Hi & Hp & Hw & Ho)%reachable_wf.
  destruct (Ha eq_refl) as [a Ea], (Hv eq_refl) as [v Ev], (Hi eq_refl) as [i Ei],
    (Hp eq_refl) as [p Ep], (Hw eq_refl) as [w Ew], (Ho eq_refl) as [o Eo].
  unfold build. rewrite Ea, Ei; simpl. destruct (d_child_of _); simpl;
    rewrite Eo, Ev, Ep, Ew; simpl; eauto.
Qed.

Lemma build_total_witness :
  is_Some (build (H := hyphenated) (id_of 1)
    (with_limits
      (with_work_model
        (with_placement
          (with_agent (with_input (with_owner builder (mkOwner "i" "s" "t")) "hello")
             (id_of 3) "1") PBox)
        (mkWorkModel OpenAI "gpt-test" PlatformGateway))
      (mkLimits 4 2))).
Proof.
  apply build_total. apply reach_limits, reach_work_model, reach_placement,
    reach_agent, reach_input, reach_owner, reach_new.
Defined.

(** ** Child run ids *)

Section ChildIds.
Context `{UuidCrate}.

(** The bytes a child's id is hashed from determine the request: two
    delegations name the same bytes only when their root, parent, step, agent
    and input all agree, so a change in any of them names another child (up to
    collisions of the hash). *)
Theorem child_name_inj c a t c' a' t' :
  (co_step c <= u32_max)%N -> (co_step c' <= u32_max)%N ->
  child_name c a t = child_name c' a' t' ->
  co_root c = co_root c' /\ co_parent c = co_parent c' /\
  co_step c = co_step c' /\ a = a' /\ t = t'.
Proof.
  intros Hs Hs' E. unfold child_name in E.
  apply uuid_bytes_app_inj in E as [Hr%id_uuid_inj E].
  apply uuid_bytes_app_inj in E as [Hp%id_uuid_inj E].
  apply le_bytes_u32_app_inj in E as [Hst E]; [|done..].
  apply uuid_bytes_app_inj in E as [Ha%id_uuid_inj E%(inj string_bytes)].
  done.
Qed.

(** What [build] makes of a child of [p]: its id depends on the request
    alone, its lineage names its parent and root, and it is one hop further
    (saturating). *)
Lemma build_child_of b p s fresh spec :
  build fresh (child_of b p s) = Some spec ->
  run_id spec = from_uuid (uuid_v5 CHILD_RUN_NAMESPACE
    (child_name (mkChildOf (run_id p) (root p) (sat_add32 (hop (lineage p)) 1) s)
       (agent_id spec) (input spec))) /\
  parent (lineage spec) = Some (run_id p) /\
  root spec = root p /\
  hop (lineage spec) = sat_add32 (hop (lineage p)) 1.
Proof.
  unfold build. simpl. intros E.
  repeat (apply bind_Some in E as (? & ? & E)). simplify_eq/=. done.
Qed.
End ChildIds.

Lemma child_name_inj_witness :
  let c := mkChildOf (id_of 1) (id_of 2) 1 3 in
  co_root c = co_root c /\ co_parent c = co_parent c /\ co_step c = co_step c /\
  (id_of 4 : AgentId) = id_of 4 /\ "draft" = "draft".
Proof. apply (@child_name_inj hyphenated); done. Defined.
