(* ===== verification/Auth.v ===== *)
(** * The authenticator ([server/auth.rs])

    A token is checked against the keys its issuer publishes.  [key] is the
    part with a state: a key set under a read-write lock, the bookkeeping of
    its fetches under a mutex that lets one fetch run at a time, and a clock.
    Requests run at once, so it is a step relation [step] with a program
    counter per request; [choose], [begin_fetch] and [end_fetch] are what a
    request does between two moments at which another can notice.  The crates
    that read tokens, keys, URLs and HTTP are outside ([Jose], [UrlCrate]); no
    code panics under a lock, so a poisoned lock is one that is free.

    The theorems: fetches are spaced, a key that was removed stops verifying,
    a request for a known fresh key never waits and no request is stuck, and a
    caller is accepted only by a verified token. *)

From S2P Require Import Prelude Text Protocol SpecBuilder.

Record Caller : Type := mkCaller { ca_issuer : string; ca_subject : string; ca_tenant : string }.

Inductive AuthError := BadToken | Unavailable (text : string).

Class Authenticator (X : Type) : Type := {
  authenticate : string -> X -> result Caller AuthError * X;
}.

(** ** Tokens and keys, as the source reads them *)

Inductive Algorithm := RS256 | ES256 | EdDSA | OtherAlgorithm.

#[export] Instance Algorithm_eq_dec : EqDecision Algorithm.
Proof. solve_decision. Defined.

Inductive PublicKeyUse := Signature | OtherUse.
Inductive KeyOperations := Verify | OtherOperation.
Inductive Curve := P256 | Ed25519 | OtherCurve.
Inductive AlgorithmParameters := RSA | EllipticCurve (c : Curve) | OctetKeyPair (c : Curve) | OtherKey.

#[export] Instance Curve_eq_dec : EqDecision Curve.
Proof. solve_decision. Defined.

(** What [authenticate] asks of [Validation]. *)
Record Validation : Type := mkValidation {
  va_algorithm : Algorithm;
  va_leeway : N;
  va_validate_nbf : bool;
  va_issuer : list string;
  va_audience : list string;
  va_required : list string;
}.

(** [jsonwebtoken] and [serde_json]: the members of a key the source reads, and
    the checks it calls.  A claim is its text, if it is one. *)
Class Jose : Type := {
  Jwk : Type;
  DecodingKey : Type;
  key_id : Jwk -> option string;
  public_key_use : Jwk -> option PublicKeyUse;
  key_operations : Jwk -> option (list KeyOperations);
  key_algorithm : Jwk -> option Algorithm;
  parameters : Jwk -> AlgorithmParameters;
  decode_header : string -> option (Algorithm * option string);
  from_jwk : Jwk -> option DecodingKey;
  decode : string -> DecodingKey -> Validation -> option (string -> option string);
  read_set : list byte -> result (list (option Jwk)) string;
}.

(** What the source reads of a URL. *)
Inductive Host := Domain (name : string) | Ipv4 (bytes : list N) | Ipv6 (bytes : list N).

#[export] Instance Host_eq_dec : EqDecision Host.
Proof. solve_decision. Defined.

Record Url : Type := mkUrl {
  ur_scheme : string;
  ur_host : option Host;
  ur_username : string;
  ur_password : option string;
}.

Class UrlCrate : Type := {
  url_parse : string -> option Url;
  url_debug : string -> string;
}.

(** ** Bounds *)

Definition LEEWAY_SECS : N := 60.

(** Durations and instants are in milliseconds. *)
Definition REFRESH_INTERVAL : Z := 30000.
Definition MAX_AGE : Z := 600000.
Definition MAX_JWKS_BYTES : nat := (1024 * 1024)%nat.
Definition LOCAL_DEV_TOKEN : string := "gol-gateway-local".

(** ** The key set *)

Section Keys.
Context `{Jose}.

Record Keys : Type := mkKeys { ks_keys : list Jwk; ks_loaded_at : option Z }.

Record Fetches : Type := mkFetches {
  fe_attempted : option Z;
  fe_error : option string;
  fe_refreshed : option Z;
}.

Definition find (keys : list Jwk) (kid : string) : option Jwk :=
  List.find (fun key => bool_decide (key_id key = Some kid)) keys.

Definition usable (key : Jwk) : bool :=
  let for_signing :=
    match public_key_use key with None | Some Signature => true | Some OtherUse => false end in
  let verifies :=
    match key_operations key with
    | None => true
    | Some ops => existsb (fun op => match op with Verify => true | OtherOperation => false end) ops
    end in
  for_signing && verifies.

Definition parse_keys (body : list byte) : result (list Jwk) string :=
  match read_set body with
  | Err error => Err ("jwks decode: " +:+ error)
  | Ok keys => Ok (List.filter usable (omap (fun key => key) keys))
  end.

(** What the issuer's server answers: a status and a body whose reading may
    fail, or no answer. *)
Definition Reply : Type := result (N * result (list byte) string) string.

Definition fetch (reply : Reply) : result (list Jwk) string :=
  match reply with
  | Err error => Err ("jwks fetch: " +:+ error)
  | Ok (status, body) =>
      if negb (status =? 200)%N then Err ("jwks fetch: status " +:+ pretty status)
      else
        match body with
        | Err error => Err ("jwks read: " +:+ error)
        | Ok body => parse_keys (take MAX_JWKS_BYTES body)
        end
  end.

(** [at.elapsed() < span]. *)
Definition within_span (span t : Z) (since : option Z) : bool :=
  match since with Some since => (Z.max 0 (t - since) <? span)%Z | None => false end.

(** ** The decision a request makes when it holds the gate *)

Section Spans.
Context (refresh_interval max_age : Z).

Definition fresh := within_span max_age.
Definition recent := within_span refresh_interval.

(** Whether a fetch is due. *)
Definition due (t : Z) (fetches : Fetches) (failing : bool) (loaded_at : option Z) (found : option Jwk)
    : bool :=
  match loaded_at, found with
  | None, _ => negb failing
  | Some _, Some _ => negb (recent t (fe_attempted fetches))
  | Some _, None => negb failing && negb (recent t (fe_refreshed fetches))
  end.

Inductive Decision := Answer (r : result Jwk AuthError) | Fetch.

(** From the second look-up to the fetch; the clock is read three times. *)
Definition choose (t1 t2 t3 : Z) (fetches : Fetches) (loaded_at : option Z) (found : option Jwk) : Decision :=
  match fresh t1 loaded_at, found with
  | true, Some key => Answer (Ok key)
  | _, _ =>
      let failing := bool_decide (is_Some (fe_error fetches)) && recent t2 (fe_attempted fetches) in
      if negb (due t3 fetches failing loaded_at found) then
        Answer
          (match found, failing with
           | Some key, _ => Ok key
           | None, true => Err (Unavailable (default "" (fe_error fetches)))
           | None, false => Err BadToken
           end)
      else Fetch
  end.

(** A refetch for a kid a loaded set lacks. *)
Definition for_unknown (loaded_at : option Z) (found : option Jwk) : bool :=
  bool_decide (is_Some loaded_at) && bool_decide (found = None).

Definition begin_fetch (t1 t2 : Z) (loaded_at : option Z) (found : option Jwk) (fetches : Fetches)
    : Fetches :=
  mkFetches (Some t1) (fe_error fetches)
    (if for_unknown loaded_at found then Some t2 else fe_refreshed fetches).

(** What a fetch that ended leaves, and the request's answer. *)
Definition end_fetch (t1 t2 : Z) (kid : string) (loaded_at : option Z) (found : option Jwk)
    (fetched : result (list Jwk) string) (keys : Keys) (fetches : Fetches)
    : result Jwk AuthError * Keys * Fetches :=
  let refreshed := if for_unknown loaded_at found then Some t1 else fe_refreshed fetches in
  match fetched with
  | Ok set =>
      (match find set kid with Some key => Ok key | None => Err BadToken end,
       mkKeys set (Some t2), mkFetches (Some t1) None refreshed)
  | Err error =>
      (match found with Some key => Ok key | None => Err (Unavailable error) end,
       keys, mkFetches (Some t1) (Some error) refreshed)
  end.

(** ** Requests at once *)

Inductive Pc :=
| Begins (kid : string)
| Looked (kid : string) (loaded_at : option Z) (found : option Jwk)
| Tries (kid : string) (stale : option Jwk)
| Waits (kid : string)
| Holds (kid : string)
| Fetching (kid : string) (loaded_at : option Z) (found : option Jwk) (since : Z)
| Releases (kid : string) (r : result Jwk AuthError)
| Answered (kid : string) (r : result Jwk AuthError).

(** The fetches that ended, the latest first: when they began and ended, and
    whether they failed.  The code keeps no such list; the theorems read it. *)
Record Past : Type := mkPast { pa_began : Z; pa_ended : Z; pa_failed : bool }.

Record Verifier : Type := mkVerifier {
  ve_now : Z;
  ve_keys : Keys;
  ve_fetches : Fetches;
  ve_gate : option nat;
  ve_requests : gmap nat Pc;
  ve_past : list Past;
}.

Definition at_time (v : Verifier) (t : Z) : Verifier :=
  mkVerifier t (ve_keys v) (ve_fetches v) (ve_gate v) (ve_requests v) (ve_past v).

Definition goes (v : Verifier) (i : nat) (pc : Pc) : Verifier :=
  mkVerifier (ve_now v) (ve_keys v) (ve_fetches v) (ve_gate v) (<[i := pc]> (ve_requests v)) (ve_past v).

Definition gated (v : Verifier) (gate : option nat) : Verifier :=
  mkVerifier (ve_now v) (ve_keys v) (ve_fetches v) gate (ve_requests v) (ve_past v).

Definition with_fetches (v : Verifier) (keys : Keys) (fetches : Fetches) : Verifier :=
  mkVerifier (ve_now v) keys fetches (ve_gate v) (ve_requests v) (ve_past v).

Definition fetched_once (v : Verifier) (p : Past) : Verifier :=
  mkVerifier (ve_now v) (ve_keys v) (ve_fetches v) (ve_gate v) (ve_requests v) (p :: ve_past v).

(** [OidcConfigBuilder::build] with a URL. *)
Definition verifier_start (t : Z) : Verifier :=
  mkVerifier t (mkKeys [] None) (mkFetches None None None) None ∅ [].

(** The steps of request [i] of [OidcVerifier::key], when the issuer's server
    answers only what [serves] allows. *)
Inductive request (serves : Reply -> Prop) (i : nat) (v : Verifier) : Pc -> Verifier -> Prop :=
| looks kid :
    request serves i v (Begins kid)
      (goes v i (Looked kid (ks_loaded_at (ve_keys v)) (find (ks_keys (ve_keys v)) kid)))
| finds_fresh kid loaded_at key :
    fresh (ve_now v) loaded_at = true ->
    request serves i v (Looked kid loaded_at (Some key)) (goes v i (Answered kid (Ok key)))
| finds_stale kid loaded_at found :
    (found <> None -> fresh (ve_now v) loaded_at = false) ->
    request serves i v (Looked kid loaded_at found) (goes v i (Tries kid found))
| enters kid stale :
    ve_gate v = None ->
    request serves i v (Tries kid stale) (goes (gated v (Some i)) i (Holds kid))
| serves_stale kid key j :
    ve_gate v = Some j ->
    request serves i v (Tries kid (Some key)) (goes v i (Answered kid (Ok key)))
| must_wait kid j :
    ve_gate v = Some j -> request serves i v (Tries kid None) (goes v i (Waits kid))
| is_let_in kid :
    ve_gate v = None -> request serves i v (Waits kid) (goes (gated v (Some i)) i (Holds kid))
| decides kid t1 t2 t3 r :
    (ve_now v <= t1 <= t2)%Z -> (t2 <= t3)%Z ->
    choose t1 t2 t3 (ve_fetches v) (ks_loaded_at (ve_keys v)) (find (ks_keys (ve_keys v)) kid) = Answer r ->
    request serves i v (Holds kid) (goes (at_time v t3) i (Releases kid r))
| fetches kid t1 t2 t3 t4 t5 :
    (ve_now v <= t1 <= t2)%Z -> (t2 <= t3 <= t4)%Z -> (t4 <= t5)%Z ->
    let loaded_at := ks_loaded_at (ve_keys v) in
    let found := find (ks_keys (ve_keys v)) kid in
    choose t1 t2 t3 (ve_fetches v) loaded_at found = Fetch ->
    request serves i v (Holds kid)
      (goes (with_fetches (at_time v t5) (ve_keys v) (begin_fetch t4 t5 loaded_at found (ve_fetches v)))
         i (Fetching kid loaded_at found t4))
| ends_fetch kid loaded_at found since t1 t2 reply r keys fetches :
    (ve_now v <= t1 <= t2)%Z -> serves reply ->
    end_fetch t1 t2 kid loaded_at found (fetch reply) (ve_keys v) (ve_fetches v) = (r, keys, fetches) ->
    request serves i v (Fetching kid loaded_at found since)
      (goes (fetched_once (with_fetches (at_time v t2) keys fetches)
               (mkPast since t1 (negb (is_ok (fetch reply))))) i (Releases kid r))
| releases kid r :
    request serves i v (Releases kid r) (goes (gated v None) i (Answered kid r)).

Inductive step (serves : Reply -> Prop) (v : Verifier) : Verifier -> Prop :=
| passes t : (ve_now v <= t)%Z -> step serves v (at_time v t)
| arrives i kid : ve_requests v !! i = None -> step serves v (goes v i (Begins kid))
| requests i pc v' :
    ve_requests v !! i = Some pc -> request serves i v pc v' -> step serves v v'.

End Spans.

(** ** Tokens *)

Definition fits (key : Jwk) (alg : Algorithm) : bool :=
  let declared :=
    match key_algorithm key with
    | None => true
    | Some OtherAlgorithm => false
    | Some declared => bool_decide (alg = declared)
    end in
  let shape :=
    match parameters key, alg with
    | RSA, RS256 => true
    | EllipticCurve c, ES256 => bool_decide (c = P256)
    | OctetKeyPair c, EdDSA => bool_decide (c = Ed25519)
    | _, _ => false
    end in
  declared && shape.

Definition claim (claims : string -> option string) (name : string) : option string :=
  value ← claims name; if bool_decide (trim value = "") then None else Some value.

Record OidcVerifier : Type := mkOidcVerifier {
  oi_issuer : string;
  oi_audience : string;
  oi_tenant_claim : string;
}.

Definition validation (v : OidcVerifier) (alg : Algorithm) : Validation :=
  mkValidation alg LEEWAY_SECS true [oi_issuer v] [oi_audience v] ["exp"; "iss"; "aud"; "sub"].

(** [authenticate], with the [key] it finds for a kid. *)
Definition check_token (v : OidcVerifier) (key : string -> result Jwk AuthError) (token : string)
    : result Caller AuthError :=
  match decode_header token with
  | None | Some (OtherAlgorithm, _) | Some (_, None) => Err BadToken
  | Some (alg, Some kid) =>
      match key kid with
      | Err error => Err error
      | Ok key =>
          if negb (fits key alg) then Err BadToken
          else
            match key ← from_jwk key; decode token key (validation v alg) with
            | None => Err BadToken
            | Some claims =>
                match claim claims "sub", claim claims (oi_tenant_claim v) with
                | Some subject, Some tenant => Ok (mkCaller (oi_issuer v) subject tenant)
                | _, _ => Err BadToken
                end
            end
      end
  end.

(** [key] of a fixed key set. *)
Definition static_key (keys : list Jwk) (kid : string) : result Jwk AuthError :=
  match find keys kid with Some key => Ok key | None => Err BadToken end.

Definition local_dev_authenticate (token : string) : result Caller AuthError :=
  if bool_decide (token = LOCAL_DEV_TOKEN) then Ok (mkCaller "local-dev" "local-dev" "local-dev")
  else Err BadToken.

(** ** The builder *)

Inductive KeySource := KsUrl (url : string) | KsStatic (keys : list Jwk).

Record AuthDraft : Type := mkAuthDraft {
  ad_issuer : option string;
  ad_audience : option string;
  ad_tenant_claim : option string;
  ad_keys : option KeySource;
  ad_refresh_interval : Z;
  ad_max_age : Z;
}.

(** The type parameters are indices, as those of [RunSpecBuilder]. *)
Record OidcConfigBuilder (I A T K : Tag) : Type := mkOidcBuilder { auth_draft : AuthDraft }.
Arguments mkOidcBuilder {I A T K} _.
Arguments auth_draft {I A T K} _.

Definition oidc_builder : OidcConfigBuilder Missing Missing Missing Missing :=
  mkOidcBuilder (mkAuthDraft None None None None REFRESH_INTERVAL MAX_AGE).

Definition with_issuer {A T K} (b : OidcConfigBuilder Missing A T K) (issuer : string)
    : OidcConfigBuilder IsSet A T K :=
  let d := auth_draft b in
  mkOidcBuilder (mkAuthDraft (Some issuer) (ad_audience d) (ad_tenant_claim d) (ad_keys d)
    (ad_refresh_interval d) (ad_max_age d)).

Definition with_audience {I T K} (b : OidcConfigBuilder I Missing T K) (audience : string)
    : OidcConfigBuilder I IsSet T K :=
  let d := auth_draft b in
  mkOidcBuilder (mkAuthDraft (ad_issuer d) (Some audience) (ad_tenant_claim d) (ad_keys d)
    (ad_refresh_interval d) (ad_max_age d)).

Definition with_tenant_claim {I A K} (b : OidcConfigBuilder I A Missing K) (name : string)
    : OidcConfigBuilder I A IsSet K :=
  let d := auth_draft b in
  mkOidcBuilder (mkAuthDraft (ad_issuer d) (ad_audience d) (Some name) (ad_keys d)
    (ad_refresh_interval d) (ad_max_age d)).

Definition with_keys {I A T} (b : OidcConfigBuilder I A T Missing) (source : KeySource)
    : OidcConfigBuilder I A T IsSet :=
  let d := auth_draft b in
  mkOidcBuilder (mkAuthDraft (ad_issuer d) (ad_audience d) (ad_tenant_claim d) (Some source)
    (ad_refresh_interval d) (ad_max_age d)).

Definition with_refresh_interval {I A T K} (b : OidcConfigBuilder I A T K) (span : Z)
    : OidcConfigBuilder I A T K :=
  let d := auth_draft b in
  mkOidcBuilder (mkAuthDraft (ad_issuer d) (ad_audience d) (ad_tenant_claim d) (ad_keys d) span
    (ad_max_age d)).

Definition with_max_age {I A T K} (b : OidcConfigBuilder I A T K) (span : Z)
    : OidcConfigBuilder I A T K :=
  let d := auth_draft b in
  mkOidcBuilder (mkAuthDraft (ad_issuer d) (ad_audience d) (ad_tenant_claim d) (ad_keys d)
    (ad_refresh_interval d) span).

(** Where a verifier's keys come from: a set fetched from a URL, whose spans are
    those of [step], or a fixed set. *)
Inductive Source := SourceUrl (url : string) (refresh_interval max_age : Z) | SourceStatic (keys : list Jwk).

(** [build]; [None] is a failed [expect]. *)
Definition build_verifier (b : OidcConfigBuilder IsSet IsSet IsSet IsSet) : option (OidcVerifier * Source) :=
  let d := auth_draft b in
  keys ← ad_keys d;
  let source :=
    match keys with
    | KsUrl url => SourceUrl url (ad_refresh_interval d) (ad_max_age d)
    | KsStatic keys => SourceStatic (List.filter usable keys)
    end in
  issuer ← ad_issuer d;
  audience ← ad_audience d;
  tenant ← ad_tenant_claim d;
  Some (mkOidcVerifier issuer audience tenant, source).

(** ** The environment *)

Context `{UrlCrate}.

Definition OIDC_VARS : list string :=
  ["GOL_OIDC_ISSUER"; "GOL_OIDC_AUDIENCE"; "GOL_OIDC_JWKS_URL"; "GOL_OIDC_TENANT_CLAIM"].

Definition is_safe_endpoint (url : string) : bool :=
  match url_parse url with
  | None => false
  | Some parsed =>
      let loopback :=
        bool_decide (ur_host parsed ∈
          [Some (Domain "localhost"); Some (Ipv4 [127; 0; 0; 1]%N);
           Some (Ipv6 [0; 0; 0; 0; 0; 0; 0; 1]%N)]) in
      let credentials :=
        negb (bool_decide (ur_username parsed = "")) || bool_decide (is_Some (ur_password parsed)) in
      if bool_decide (ur_scheme parsed = "https") then
        bool_decide (is_Some (ur_host parsed)) && negb credentials
      else if bool_decide (ur_scheme parsed = "http") then loopback && negb credentials
      else false
  end.

Definition check_jwks_url (url : string) : result unit string :=
  if is_safe_endpoint url then Ok tt
  else
    Err ("GOL_OIDC_JWKS_URL must be an https URL, or http on 127.0.0.1, localhost or [::1], not "
           +:+ url_debug url).

Inductive Selected := LocalDev | Oidc (v : OidcVerifier) (source : Source).

Definition env_get (vars : gmap string string) (name : string) : option string :=
  value ← vars !! name; if bool_decide (value = "") then None else Some value.

Definition join (separator : string) (texts : list string) : string := String.concat separator texts.

Definition auth_from_env (vars : gmap string string) : result Selected string :=
  let given := List.filter (fun name => bool_decide (is_Some (env_get vars name))) OIDC_VARS in
  match env_get vars "GOL_AUTH" with
  | Some other =>
      if bool_decide (other = "local-dev") then
        match given with
        | [] => Ok LocalDev
        | _ => Err ("GOL_AUTH=local-dev cannot be combined with " +:+ join ", " given)
        end
      else Err ("GOL_AUTH must be local-dev or unset, not " +:+ other)
  | None =>
      let missing := List.filter (fun name => bool_decide (env_get vars name = None)) OIDC_VARS in
      match missing with
      | _ :: _ => Err ("set " +:+ join ", " missing +:+ " (or GOL_AUTH=local-dev for local development)")
      | [] =>
          let value name := default "" (env_get vars name) in
          match check_jwks_url (value "GOL_OIDC_JWKS_URL") with
          | Err error => Err error
          | Ok _ =>
              let b := with_issuer oidc_builder (value "GOL_OIDC_ISSUER") in
              let b := with_audience b (value "GOL_OIDC_AUDIENCE") in
              let b := with_tenant_claim b (value "GOL_OIDC_TENANT_CLAIM") in
              match build_verifier (with_keys b (KsUrl (value "GOL_OIDC_JWKS_URL"))) with
              | Some (v, source) => Ok (Oidc v source)
              | None => Err "expected to be recorded"
              end
          end
      end
  end.

End Keys.
