(* ===== verification/AuthProofs.v ===== *)
(** * What the authenticator promises

    Over every interleaving of requests, with the clock running and the
    issuer's server answering as it likes. *)

From S2P Require Import Prelude Text Protocol SpecBuilder Auth.

Section Verifier.
Context `{Jose} (refresh_interval max_age : Z).
Context (serves : Reply -> Prop).

Abbreviation step := (step refresh_interval max_age serves).
Abbreviation request := (request refresh_interval max_age serves).
Abbreviation recent := (recent refresh_interval).
Abbreviation fresh := (fresh max_age).
Abbreviation choose := (Auth.choose refresh_interval max_age).

(** The verifier after any steps from its start. *)
Definition reachable (v : Verifier) : Prop := exists t, rtc step (verifier_start t) v.

(** A fetch that begins at [t] after those of [past]: it waits for the last to
    end, an interval after a failure, and an interval after the one before. *)
Definition may_begin (past : list Past) (t : Z) : Prop :=
  match past with
  | [] => True
  | last :: rest =>
      (pa_ended last <= t)%Z /\ (pa_failed last = true -> pa_ended last + refresh_interval <= t)%Z /\
      match rest with [] => True | before :: _ => (pa_ended before + refresh_interval <= t)%Z end
  end.

Fixpoint spaced (past : list Past) : Prop :=
  match past with
  | [] => True
  | p :: rest => (pa_began p <= pa_ended p)%Z /\ may_begin rest (pa_began p) /\ spaced rest
  end.

(** The request has the gate. *)
Definition inside (pc : Pc) : Prop :=
  match pc with Holds _ | Fetching _ _ _ _ | Releases _ _ => True | _ => False end.

(** The fetches as the bookkeeping knows them when none is under way. *)
Record settled (v : Verifier) : Prop := {
  se_attempted : fe_attempted (ve_fetches v) = pa_ended <$> head (ve_past v);
  se_error : is_Some (fe_error (ve_fetches v)) <-> exists p, head (ve_past v) = Some p /\ pa_failed p = true;
  se_refreshed : match ve_past v with
    | last :: before :: _ =>
        pa_failed last = true \/ fe_refreshed (ve_fetches v) = Some (pa_ended last) \/
        (pa_ended before + refresh_interval <= pa_began last)%Z
    | _ => True
    end;
}.

Record invariant (v : Verifier) : Prop := {
  in_gate : forall i, (exists pc, ve_requests v !! i = Some pc /\ inside pc) <-> ve_gate v = Some i;
  in_spaced : spaced (ve_past v);
  in_past : forall p, p ∈ ve_past v -> (pa_ended p <= ve_now v)%Z;
  in_first : ks_loaded_at (ve_keys v) = None -> Forall (fun p => pa_failed p = true) (ve_past v);
  in_settled : (forall i kid loaded_at found since,
      ve_requests v !! i <> Some (Fetching kid loaded_at found since)) -> settled v;
  in_fetching : forall i kid loaded_at found since,
    ve_requests v !! i = Some (Fetching kid loaded_at found since) ->
    loaded_at = ks_loaded_at (ve_keys v) /\ (since <= ve_now v)%Z /\ may_begin (ve_past v) since /\
    (for_unknown loaded_at found = false ->
     match ve_past v with [] => True | last :: _ => (pa_ended last + refresh_interval <= since)%Z end);
}.

Lemma recent_later t since : recent t (Some since) = false -> (since <= t)%Z -> (since + refresh_interval <= t)%Z.
Proof. unfold Auth.recent, within_span. rewrite Z.ltb_ge. lia. Qed.

Lemma start_invariant t : invariant (verifier_start t).
Proof.
  split; simpl; try done.
  - intros i. split; [intros (pc & Hi & _); by rewrite lookup_empty in Hi|done].
  - intros p Hp. by inversion Hp.
  - intros _. split; simpl; [done|split; [by intros []|by intros (? & ? & _)]|done].
Qed.

(** When a fetch is decided, it may begin. *)
Lemma due_may_begin v t1 t2 t3 t4 found :
  spaced (ve_past v) -> (forall p, p ∈ ve_past v -> (pa_ended p <= ve_now v)%Z) ->
  (ks_loaded_at (ve_keys v) = None -> Forall (fun p => pa_failed p = true) (ve_past v)) ->
  settled v -> (ve_now v <= t1 <= t2)%Z -> (t2 <= t3 <= t4)%Z ->
  choose t1 t2 t3 (ve_fetches v) (ks_loaded_at (ve_keys v)) found = Fetch ->
  may_begin (ve_past v) t4 /\
  (for_unknown (ks_loaded_at (ve_keys v)) found = false ->
   match ve_past v with [] => True | last :: _ => (pa_ended last + refresh_interval <= t4)%Z end).
Proof.
  intros Hsp Hnow Hfirst [Ha He Hr] Ht12 Ht34 Hd. unfold may_begin.
  destruct (ve_past v) as [|last rest] eqn:Ep; [done|]. simpl in Ha.
  assert (pa_ended last <= ve_now v)%Z as Hlast by (apply Hnow, list_elem_of_here).
  assert (bool_decide (is_Some (fe_error (ve_fetches v))) = pa_failed last) as Hfail.
  { destruct (pa_failed last) eqn:El.
    - apply bool_decide_eq_true, He. by exists last.
    - apply bool_decide_eq_false. rewrite He. simpl. intros (p & [= <-] & Hp). congruence. }
  unfold Auth.choose in Hd. rewrite Hfail, Ha in Hd.
  set (failing := pa_failed last && recent t2 (Some (pa_ended last))) in *.
  assert (due refresh_interval t3 (ve_fetches v) failing (ks_loaded_at (ve_keys v)) found = true) as Hdue.
  { destruct (due _ _ _ _ _ _); [done|]. simpl in Hd. by destruct (fresh _ _), found, failing. }
  assert (failing = false -> pa_failed last = true -> pa_ended last + refresh_interval <= t4)%Z as Hf.
  { unfold failing. intros Hff Hl. rewrite Hl in Hff. simpl in Hff. apply recent_later in Hff; lia. }
  destruct Hsp as (Hle & Hmay & _). unfold due in Hdue.
  destruct (ks_loaded_at (ve_keys v)) as [loaded|].
  - destruct found as [key|].
    + rewrite Ha in Hdue. apply negb_true_iff, recent_later in Hdue; [|lia].
      split; [|lia]. split_and!; [lia|lia|]. destruct rest as [|before]; [done|]. destruct Hmay. lia.
    + apply andb_prop in Hdue as [Hnf Hnr]. apply negb_true_iff in Hnf, Hnr. split; [|done].
      split_and!; [lia|auto|]. destruct rest as [|before rest]; [done|]. destruct Hmay as (Hm & _).
      destruct Hr as [Hr|[Hr|Hr]].
      * specialize (Hf Hnf Hr). lia.
      * rewrite Hr in Hnr. apply recent_later in Hnr; lia.
      * lia.
  - apply negb_true_iff in Hdue. specialize (Hfirst eq_refl). apply Forall_cons in Hfirst as [Hl _].
    specialize (Hf Hdue Hl). split; [|lia]. split_and!; [lia|lia|].
    destruct rest as [|before]; [done|]. destruct Hmay. lia.
Qed.

(** A request outside the gate that stays outside changes nothing else. *)
Lemma goes_outside v i pc :
  invariant v -> (forall pc0, ve_requests v !! i = Some pc0 -> ~ inside pc0) -> ~ inside pc ->
  invariant (goes v i pc).
Proof.
  intros [Hg Hs Hp Hf Hse Hfe] Hold Hnew. split; simpl; try done.
  - intros j. rewrite <-Hg. destruct (decide (i = j)) as [<-|Hne].
    + rewrite lookup_insert_eq. split; intros (pc0 & Hi & Hin); [by injection Hi as <-|].
      by destruct (Hold pc0).
    + by rewrite lookup_insert_ne.
  - intros Hnf. assert (settled v) as [H1 H2 H3]; [|by split].
    apply Hse. intros j kid loaded found since Hj.
    destruct (decide (i = j)) as [<-|Hne]; [by apply (Hold _ Hj)|].
    apply (Hnf j kid loaded found since). by rewrite lookup_insert_ne.
  - intros j kid loaded found since Hj. destruct (decide (i = j)) as [<-|Hne].
    + rewrite lookup_insert_eq in Hj. by injection Hj as ->.
    + rewrite lookup_insert_ne in Hj by done. by apply (Hfe j kid loaded found since).
Qed.

(** Nobody is inside a free gate, and whoever is inside holds it. *)
Lemma free_gate v i pc : invariant v -> ve_gate v = None -> ve_requests v !! i = Some pc -> ~ inside pc.
Proof. intros Hi Hg Hpc Hin. assert (ve_gate v = Some i) by (apply (in_gate v Hi); eauto). congruence. Qed.

Lemma only_inside v i j pc pc' : invariant v -> ve_requests v !! i = Some pc -> inside pc ->
  ve_requests v !! j = Some pc' -> inside pc' -> i = j.
Proof.
  intros Hi Hpc Hin Hpc' Hin'.
  assert (ve_gate v = Some i) by (apply (in_gate v Hi); eauto).
  assert (ve_gate v = Some j) by (apply (in_gate v Hi); eauto). congruence.
Qed.

Lemma gate_moves v i pc gate :
  (forall j, j <> i -> forall pc0, ve_requests v !! j = Some pc0 -> ~ inside pc0) ->
  (inside pc <-> gate = Some i) -> (gate = None \/ gate = Some i) ->
  forall j, (exists pc0, <[i := pc]> (ve_requests v) !! j = Some pc0 /\ inside pc0) <-> gate = Some j.
Proof.
  intros Hothers Hin Hgate j. destruct (decide (i = j)) as [<-|Hne].
  - rewrite lookup_insert_eq. split; [intros (pc0 & [= <-] & Hp); by apply Hin|].
    intros Hg. exists pc. split; [done|by apply Hin].
  - rewrite lookup_insert_ne by done. split.
    + intros (pc0 & Hj & Hp). by destruct (Hothers j (not_eq_sym Hne) pc0).
    + intros ->. destruct Hgate as [|Hg]; [done|]. by injection Hg.
Qed.

Lemma enter_invariant v i kid : invariant v -> ve_gate v = None ->
  invariant (goes (gated v (Some i)) i (Holds kid)).
Proof.
  intros Hi Hg. pose proof Hi as [_ Hs Hp Hf Hse Hfe].
  assert (forall j kid loaded found since, ve_requests v !! j <> Some (Fetching kid loaded found since)) as Hno.
  { intros j kid0 loaded found since Hj. by apply (free_gate v j _ Hi Hg Hj). }
  split; simpl; try done.
  - apply (gate_moves v); [intros j _ pc0 Hj; by apply (free_gate v j)|done|by right].
  - intros _. destruct (Hse Hno) as [H1 H2 H3]. by split.
  - intros j kid0 loaded found since Hj. destruct (decide (i = j)) as [<-|Hne].
    + rewrite lookup_insert_eq in Hj. by injection Hj.
    + rewrite lookup_insert_ne in Hj by done. by destruct (Hno j kid0 loaded found since).
Qed.

Lemma spaced_cons past p :
  spaced past -> (pa_began p <= pa_ended p)%Z -> may_begin past (pa_began p) -> spaced (p :: past).
Proof. intros. by split_and!. Qed.

(** What a request inside the gate keeps. *)
Lemma inside_invariant v i pc v' :
  invariant v -> ve_requests v !! i = Some pc -> inside pc -> request i v pc v' -> invariant v'.
Proof.
  intros Hi Hpc Hin Hstep. pose proof Hi as [_ Hs Hp Hf Hse Hfe].
  assert (forall j, j <> i -> forall pc0, ve_requests v !! j = Some pc0 -> ~ inside pc0) as Hothers.
  { intros j Hne pc0 Hj Hin0. apply Hne. by apply (only_inside v j i pc0 pc). }
  assert (forall kid loaded found since j, j <> i -> ve_requests v !! j <> Some (Fetching kid loaded found since)) as Hno.
  { intros kid loaded found since j Hne Hj. by apply (Hothers j Hne _ Hj). }
  assert (ve_gate v = Some i) as Hg by (apply (in_gate v Hi); eauto).
  assert (forall pc1, (forall kid loaded found since, pc1 <> Fetching kid loaded found since) ->
    forall j kid loaded found since, <[i := pc1]> (ve_requests v) !! j <> Some (Fetching kid loaded found since)) as Hnone.
  { intros pc1 Hn j kid loaded found since Hj. destruct (decide (i = j)) as [<-|Hne].
    - rewrite lookup_insert_eq in Hj. injection Hj as Hj. by apply Hn in Hj.
    - rewrite lookup_insert_ne in Hj by done. by apply (Hno kid loaded found since j). }
  inversion Hstep as [| | | | | | |kid t1 t2 t3 r Ht12 Ht23 Hd|kid t1 t2 t3 t4 t5 Ht12 Ht34 Ht5 loaded found Hd
    |kid loaded found since t1 t2 reply r keys fetches Ht Hserves He|kid r]; subst; try done.
  - assert (settled v) as [H1 H2 H3].
    { apply Hse. intros j kid0 loaded found since Hj. destruct (decide (j = i)) as [->|Hne]; [congruence|].
      by apply (Hno kid0 loaded found since j). }
    split; simpl; try done.
    + apply (gate_moves v); [done|by rewrite Hg|by right].
    + intros p Hin'. specialize (Hp p Hin'). lia.
    + intros j kid0 loaded found since Hj. by apply (Hnone (Releases kid r)) in Hj.
  - assert (settled v) as Hset.
    { apply Hse. intros j kid0 loaded0 found0 since Hj. destruct (decide (j = i)) as [->|Hne]; [congruence|].
      by apply (Hno kid0 loaded0 found0 since j). }
    destruct (due_may_begin v t1 t2 t3 t4 found Hs Hp Hf Hset Ht12 Ht34 Hd) as [Hmay Hun].
    split; simpl; try done.
    + apply (gate_moves v); [done|by rewrite Hg|by right].
    + intros p Hin'. specialize (Hp p Hin'). lia.
    + intros Hnf. exfalso. apply (Hnf i kid loaded found t4). by rewrite lookup_insert_eq.
    + intros j kid0 loaded0 found0 since Hj. destruct (decide (i = j)) as [<-|Hne].
      * rewrite lookup_insert_eq in Hj. injection Hj as <- <- <- <-. split_and!; [done|lia|done|done].
      * rewrite lookup_insert_ne in Hj by done. by destruct (Hno kid0 loaded0 found0 since j (not_eq_sym Hne)).
  - destruct (Hfe i kid loaded found since Hpc) as (-> & Hsince & Hmay & Hun).
    assert (fe_attempted fetches = Some t1 /\
      (is_Some (fe_error fetches) <-> is_ok (fetch reply) = false) /\
      (for_unknown (ks_loaded_at (ve_keys v)) found = true -> fe_refreshed fetches = Some t1) /\
      (ks_loaded_at keys = None -> is_ok (fetch reply) = false /\ ks_loaded_at (ve_keys v) = None))
      as (Ha & Hfail & Hrefreshed & Hloaded).
    { unfold end_fetch in He. destruct (fetch reply) as [set|error]; injection He as <- <- <-; simpl.
      - split_and!; [done|by split; [intros []|]|by intros ->|done].
      - split_and!; [done|by split; [|eexists]|by intros ->|done]. }
    split; simpl; try done.
    + apply (gate_moves v); [done|by rewrite Hg|by right].
    + split_and!; [lia|done|done].
    + intros p [->|Hin']%elem_of_cons; simpl; [lia|]. specialize (Hp p Hin'). lia.
    + intros Hl. destruct (Hloaded Hl) as [Hr Hl0]. constructor; [simpl; by rewrite Hr|auto].
    + intros _. split; simpl.
      * done.
      * rewrite Hfail. split; [intros Hr; eexists; split; [done|simpl; by rewrite Hr]|].
        intros (p & [= <-] & Hr). simpl in Hr. by apply negb_true_iff in Hr.
      * destruct (ve_past v) as [|before rest]; [done|]. right.
        destruct (for_unknown (ks_loaded_at (ve_keys v)) found); [left; auto|right; auto].
    + intros j kid0 loaded0 found0 since0 Hj.
      by apply (Hnone (Releases kid r)) in Hj.
  - assert (settled v) as [H1 H2 H3].
    { apply Hse. intros j kid0 loaded found since Hj. destruct (decide (j = i)) as [->|Hne]; [congruence|].
      by apply (Hno kid0 loaded found since j). }
    split; simpl; try done.
    + apply (gate_moves v); [done|done|by left].
    + intros j kid0 loaded found since Hj. by apply (Hnone (Answered kid r)) in Hj.
Qed.

Lemma step_invariant v v' : step v v' -> invariant v -> invariant v'.
Proof.
  intros [t Ht|i kid Hi|i pc v1 Hpc Hr] Hinv.
  - destruct Hinv as [Hg Hs Hp Hf Hse Hfe]. split; simpl; try done.
    + intros p Hin. specialize (Hp p Hin). lia.
    + intros Hn. destruct (Hse Hn) as [H1 H2 H3]. by split.
    + intros i kid loaded found since Hi. destruct (Hfe i kid loaded found since Hi) as (? & ? & ? & ?).
      split_and!; [done|lia|done|done].
  - apply goes_outside; [done| |by intros []]. intros pc0. by rewrite Hi.
  - destruct pc; try (by eapply inside_invariant); inversion Hr; subst;
      try (by apply enter_invariant);
      (apply goes_outside; [done| |by intros []]; intros pc0; rewrite Hpc; intros [= <-]; by intros []).
Qed.

Lemma reachable_invariant v : reachable v -> invariant v.
Proof.
  intros [t Hr]. pose proof (start_invariant t) as Hi. revert Hi.
  induction Hr as [v|v1 v2 v3 Hs _ IH]; [done|]. intros Hi. by apply IH, (step_invariant v1).
Qed.

Lemma spaced_split l past : spaced (l ++ past) -> spaced past.
Proof. induction l as [|p l IH]; [done|]. intros (_ & _ & Hs). by apply IH. Qed.

(** The issuer is not flooded: whatever the requests, at most one fetch runs at
    a time; two fetches in a row do not overlap, and after one that failed the
    next waits the refresh interval; and among any three fetches in a row the
    last begins at least the interval after the first ended, so at most two
    begin in any interval, however many unknown kids are asked for.  The same
    holds of the fetch under way. *)
Theorem fetches_are_spaced v : reachable v ->
  (forall i j kid kid' loaded loaded' found found' since since',
     ve_requests v !! i = Some (Fetching kid loaded found since) ->
     ve_requests v !! j = Some (Fetching kid' loaded' found' since') -> i = j) /\
  (forall l f2 f1 past, ve_past v = l ++ f2 :: f1 :: past ->
     (pa_ended f1 <= pa_began f2)%Z /\
     (pa_failed f1 = true -> (pa_ended f1 + refresh_interval <= pa_began f2)%Z)) /\
  (forall l f3 f2 f1 past, ve_past v = l ++ f3 :: f2 :: f1 :: past ->
     (pa_ended f1 + refresh_interval <= pa_began f3)%Z) /\
  (forall i kid loaded found since f2 f1 past,
     ve_requests v !! i = Some (Fetching kid loaded found since) -> ve_past v = f2 :: f1 :: past ->
     (pa_ended f2 <= since)%Z /\ (pa_ended f1 + refresh_interval <= since)%Z).
Proof.
  intros Hi%reachable_invariant. pose proof (in_spaced v Hi) as Hs. split_and!.
  - intros i j kid kid' loaded loaded' found found' since since' H1 H2. by eapply only_inside; eauto.
  - intros l f2 f1 past Ep. rewrite Ep in Hs. apply spaced_split in Hs as (_ & (H1 & H2 & _) & _). auto.
  - intros l f3 f2 f1 past Ep. rewrite Ep in Hs. apply spaced_split in Hs as (_ & (_ & _ & H3) & _). auto.
  - intros i kid loaded found since f2 f1 past Hpc Ep.
    destruct (in_fetching v Hi i kid loaded found since Hpc) as (_ & _ & Hm & _). rewrite Ep in Hm.
    destruct Hm as (H1 & _ & H3). auto.
Qed.

End Verifier.

(** ** Keys *)

Section Keys.
Context `{Jose} (refresh_interval max_age : Z).

(** The issuer's server no longer has the kid. *)
Definition without (kid : string) (reply : Reply) : Prop :=
  match fetch reply with Ok set => find set kid = None | Err _ => True end.

(** The request has not seen a key for [kid]. *)
Definition keyless (kid : string) (pc : Pc) : Prop :=
  match pc with
  | Looked kid' _ found | Tries kid' found | Fetching kid' _ found _ => kid' = kid -> found = None
  | Releases kid' r | Answered kid' r => kid' = kid -> is_ok r = false
  | Begins _ | Waits _ | Holds _ => True
  end.

Lemma choose_keyless t1 t2 t3 fetches loaded_at r :
  choose refresh_interval max_age t1 t2 t3 fetches loaded_at None = Answer r -> is_ok r = false.
Proof.
  unfold choose. destruct (fresh _ _ _); destruct (due _ _ _ _ _ _); simpl; try done;
    destruct (_ && _); by intros [= <-].
Qed.

Lemma end_fetch_keyless t1 t2 kid loaded_at reply keys fetches r keys' fetches' :
  without kid reply -> find (ks_keys keys) kid = None ->
  end_fetch t1 t2 kid loaded_at None (fetch reply) keys fetches = (r, keys', fetches') ->
  is_ok r = false.
Proof.
  unfold without, end_fetch. destruct (fetch reply) as [set|error]; intros Hw Hk [= <- <- <-]; [|done].
  by rewrite Hw.
Qed.

Lemma end_fetch_set t1 t2 kid kid' loaded_at found reply keys fetches r keys' fetches' :
  without kid reply -> find (ks_keys keys) kid = None ->
  end_fetch t1 t2 kid' loaded_at found (fetch reply) keys fetches = (r, keys', fetches') ->
  find (ks_keys keys') kid = None.
Proof.
  unfold without, end_fetch. destruct (fetch reply) as [set|error]; by intros Hw Hk [= <- <- <-].
Qed.

(** The set lacks the key, and so do the requests that came since. *)
Definition forgotten (kid : string) (v0 v : Verifier) : Prop :=
  find (ks_keys (ve_keys v)) kid = None /\
  (forall i, is_Some (ve_requests v0 !! i) -> is_Some (ve_requests v !! i)) /\
  forall i pc, ve_requests v0 !! i = None -> ve_requests v !! i = Some pc -> keyless kid pc.

Lemma forgotten_goes kid v0 v i pc :
  forgotten kid v0 v -> (ve_requests v0 !! i = None -> keyless kid pc) -> forgotten kid v0 (goes v i pc).
Proof.
  intros (Hk & Hold & Hnew) Hpc. split_and!; simpl; [done| |].
  - intros j Hj. destruct (decide (i = j)) as [<-|Hne]; [rewrite lookup_insert_eq; by eexists|].
    rewrite lookup_insert_ne by done. auto.
  - intros j pc' Hj. destruct (decide (i = j)) as [<-|Hne].
    + rewrite lookup_insert_eq. intros [= <-]. auto.
    + rewrite lookup_insert_ne by done. by apply Hnew.
Qed.

Lemma forgotten_frame kid v0 v v' :
  find (ks_keys (ve_keys v')) kid = None -> ve_requests v' = ve_requests v ->
  forgotten kid v0 v -> forgotten kid v0 v'.
Proof. intros Hk Hr (_ & Hold & Hnew). split_and!; [done|by rewrite Hr..]. Qed.

Lemma request_forgotten kid v0 i v pc v' :
  forgotten kid v0 v -> ve_requests v !! i = Some pc ->
  request refresh_interval max_age (without kid) i v pc v' -> forgotten kid v0 v'.
Proof.
  intros Hf Hpc Hr. pose proof Hf as (Hk & _ & Hnew).
  assert (ve_requests v0 !! i = None -> keyless kid pc) as Hless by (intros Hi; by apply (Hnew i)).
  assert (forall v1, find (ks_keys (ve_keys v1)) kid = None -> ve_requests v1 = ve_requests v ->
    forgotten kid v0 v1) as Hframe by (intros v1 Hk1 Hr1; by apply (forgotten_frame kid v0 v v1)).
  destruct Hr as [kid'|kid' loaded key _|kid' loaded found _|kid' stale _|kid' key j _|kid' j _|kid' _
    |kid' t1 t2 t3 r _ _ Hc|kid' t1 t2 t3 t4 t5 _ _ _ loaded found Hc
    |kid' loaded found since t1 t2 reply r keys fetches _ Hw He|kid' r]; apply forgotten_goes; auto; simpl; try done.
  - by intros _ ->.
  - intros Hi Hkid. by specialize (Hless Hi Hkid).
  - intros Hi Hkid. by specialize (Hless Hi Hkid).
  - intros _ ->. rewrite Hk in Hc. by eapply choose_keyless.
  - by intros _ ->.
  - apply Hframe; [|done]. by eapply end_fetch_set.
  - intros Hi ->. rewrite (Hless Hi eq_refl) in He. by eapply end_fetch_keyless.
Qed.

Lemma step_forgotten kid v0 v v' :
  step refresh_interval max_age (without kid) v v' -> forgotten kid v0 v -> forgotten kid v0 v'.
Proof.
  intros [t _|i kid' Hi|i pc v1 Hpc Hr] Hf.
  - by apply (forgotten_frame kid v0 v); [apply Hf|..].
  - by apply forgotten_goes.
  - by eapply request_forgotten.
Qed.

Lemma steps_forgotten kid v0 v v' :
  rtc (step refresh_interval max_age (without kid)) v v' -> forgotten kid v0 v -> forgotten kid v0 v'.
Proof.
  induction 1 as [v|v1 v2 v3 Hs _ IH]; [done|]. intros Hf. by apply IH, (step_forgotten kid v0 v1).
Qed.

(** C18. A key the issuer removed stops verifying: once a set without the kid has
    been stored, and while the issuer's server does not publish it again, no
    request that came since is answered with a key for it, however requests,
    fetches and failures interleave.  And the set is replaced in time: a request
    that has the gate when the set is older than [max_age], with no fetch tried
    within the refresh interval, can only fetch. *)
Theorem removed_key_stops_verifying kid v0 v :
  find (ks_keys (ve_keys v0)) kid = None ->
  rtc (step refresh_interval max_age (without kid)) v0 v ->
  (forall i key, ve_requests v0 !! i = None -> ve_requests v !! i <> Some (Answered kid (Ok key))) /\
  (forall serves i kid' loaded v',
     ve_requests v !! i = Some (Holds kid') -> ks_loaded_at (ve_keys v) = Some loaded ->
     (loaded + max_age <= ve_now v)%Z -> find (ks_keys (ve_keys v)) kid' <> None ->
     (forall tried, fe_attempted (ve_fetches v) = Some tried -> tried + refresh_interval <= ve_now v)%Z ->
     (0 <= max_age)%Z ->
     request refresh_interval max_age serves i v (Holds kid') v' ->
     exists found since, ve_requests v' !! i = Some (Fetching kid' (Some loaded) found since)).
Proof.
  intros Hk Hr. split.
  - assert (forgotten kid v0 v) as (_ & _ & Hnew).
    { apply (steps_forgotten kid v0 v0 v Hr). split; [done|split; [done|]]. intros i pc H1 H2. congruence. }
    intros i key Hi Ha. by specialize (Hnew i _ Hi Ha eq_refl).
  - intros serves i kid' loaded v' Hpc Hl Hold Hfound Htried Hpos Hstep.
    inversion Hstep as [| | | | | | |? t1 t2 t3 r Ht12 Ht23 Hc|? t1 t2 t3 t4 t5 Ht12 Ht34 Ht5 ? ? Hc| |]; subst.
    + exfalso. revert Hfound Hc. rewrite Hl. unfold choose.
      assert (fresh max_age t1 (Some loaded) = false) as ->.
      { unfold fresh, within_span. apply Z.ltb_ge. lia. }
      destruct (find _ kid') as [key|]; [intros _|done]. unfold due.
      assert (recent refresh_interval t3 (fe_attempted (ve_fetches v)) = false) as ->; [|done].
      unfold recent, within_span. destruct (fe_attempted (ve_fetches v)) as [tried|]; [|done].
      specialize (Htried tried eq_refl). apply Z.ltb_ge. lia.
    + rewrite <-Hl. simpl. rewrite lookup_insert_eq. by eexists _, _.
Qed.

End Keys.

(** ** Progress *)

Section Progress.
Context `{Jose} (refresh_interval max_age : Z) (serves : Reply -> Prop).

Abbreviation request := (request refresh_interval max_age serves).
Abbreviation step := (step refresh_interval max_age serves).

(** The steps a request has left at most. *)
Definition rank (pc : Pc) : nat :=
  match pc with
  | Begins _ => 7 | Looked _ _ _ => 6 | Tries _ _ => 5 | Waits _ => 4
  | Holds _ => 3 | Fetching _ _ _ _ => 2 | Releases _ _ => 1 | Answered _ _ => 0
  end.

Definition work (v : Verifier) : nat := map_fold (fun _ pc n => rank pc + n)%nat 0%nat (ve_requests v).

(** A step of a request that is here already. *)
Definition moves (v v' : Verifier) : Prop :=
  exists i pc, ve_requests v !! i = Some pc /\ request i v pc v'.

Lemma request_ranks i v pc v' : request i v pc v' ->
  exists pc', ve_requests v' = <[i := pc']> (ve_requests v) /\ (rank pc' < rank pc)%nat.
Proof. destruct 1; eexists; (split; [reflexivity|simpl; lia]). Qed.

Lemma moves_lower v v' : moves v v' -> (work v' < work v)%nat.
Proof.
  intros (i & pc & Hi & Hr). destruct (request_ranks i v pc v' Hr) as (pc' & E & Hlt). unfold work. rewrite E.
  rewrite (map_fold_delete_L _ _ i pc (ve_requests v)); [|intros; lia|done].
  rewrite (map_fold_delete_L _ _ i pc' (<[i := pc']> _)); [|intros; lia|by rewrite lookup_insert_eq].
  rewrite delete_insert_eq. lia.
Qed.

Lemma moves_step v v' : moves v v' -> step v v'.
Proof. intros (i & pc & Hi & Hr). by apply (requests _ _ _ v i pc). Qed.

(** Whoever has the gate goes on. *)
Lemma inside_moves v i pc reply : serves reply ->
  ve_requests v !! i = Some pc -> inside pc -> exists v', moves v v'.
Proof.
  intros Hs Hi Hin. destruct pc as [| | | |kid|kid loaded found since|kid r|]; try done.
  - set (t := ve_now v). set (loaded := ks_loaded_at (ve_keys v)). set (found := find (ks_keys (ve_keys v)) kid).
    destruct (choose refresh_interval max_age t t t (ve_fetches v) loaded found) as [r|] eqn:Hc.
    + eexists _, i, _. split; [done|]. by eapply (decides _ _ _ i v kid t t t r); [lia..|].
    + eexists _, i, _. split; [done|]. by eapply (fetches _ _ _ i v kid t t t t t); [lia..|].
  - destruct (end_fetch (ve_now v) (ve_now v) kid loaded found (fetch reply) (ve_keys v) (ve_fetches v))
      as [[r keys] fetches] eqn:He.
    eexists _, i, _. split; [done|]. by eapply ends_fetch; [|done|exact He]; lia.
  - eexists _, i, _. split; [done|]. apply releases.
Qed.

Lemma live_moves v i pc reply : invariant refresh_interval v -> serves reply ->
  ve_requests v !! i = Some pc -> rank pc <> 0%nat -> exists v', moves v v'.
Proof.
  intros Hv Hs Hi Hpc. destruct pc as [kid|kid loaded found|kid stale|kid|kid|kid loaded found since|kid r|kid r];
    try (by eapply inside_moves); try done.
  - eexists _, i, _. split; [done|]. apply looks.
  - destruct found as [key|].
    + destruct (fresh max_age (ve_now v) loaded) eqn:Hf; eexists _, i, _; (split; [done|]);
        [by apply finds_fresh|by apply finds_stale].
    + eexists _, i, _. split; [done|]. by apply finds_stale.
  - destruct (ve_gate v) as [j|] eqn:Hg; [|eexists _, i, _; split; [done|]; by apply enters].
    destruct stale as [key|]; eexists _, i, _; (split; [done|]); [by eapply serves_stale|by eapply must_wait].
  - destruct (ve_gate v) as [j|] eqn:Hg; [|eexists _, i, _; split; [done|]; by apply is_let_in].
    apply (in_gate _ v Hv) in Hg as (pc & Hj & Hin). by apply (inside_moves v j pc reply).
Qed.

Lemma some_live v :
  (forall i pc, ve_requests v !! i = Some pc -> exists kid r, pc = Answered kid r) \/
  exists i pc, ve_requests v !! i = Some pc /\ rank pc <> 0%nat.
Proof.
  set (live := fun p : nat * Pc => rank p.2 <> 0%nat).
  destruct (decide (Exists live (map_to_list (ve_requests v)))) as [He|Hn].
  - apply Exists_exists in He as ([i pc] & Hi%elem_of_map_to_list & Hpc). right. by exists i, pc.
  - left. intros i pc Hi. destruct pc; try (by eexists _, _); contradict Hn; apply Exists_exists;
      (eexists; split; [by apply elem_of_map_to_list|done]).
Qed.

Lemma run_to_answers reply n v : serves reply -> invariant refresh_interval v -> (work v <= n)%nat ->
  exists v', rtc moves v v' /\ forall i pc, ve_requests v' !! i = Some pc ->
    exists kid r, pc = Answered kid r.
Proof.
  intros Hs. revert v. induction n as [|n IH]; intros v Hv Hw;
    (destruct (some_live v) as [Hall|(i & pc & Hi & Hpc)]; [by exists v|]);
    destruct (live_moves v i pc reply Hv Hs Hi Hpc) as (v1 & Hm); pose proof (moves_lower v v1 Hm); [lia|].
  destruct (IH v1) as (v' & Hr & Hall);
    [by apply (step_invariant refresh_interval max_age serves v), Hv; apply moves_step|lia|].
  exists v'. split; [by eapply rtc_l|done].
Qed.

(** No request is stuck.  If the issuer's server answers at all, be it with an
    error, then from every reachable state the requests there are run to their
    answers by their own steps, each of which lowers the work left, so at most
    [work] of them: the gate is always let go of.  And a request whose key is
    known and fresh is answered in two steps of its own, whoever fetches. *)
Theorem requests_go_on v reply : reachable refresh_interval max_age serves v -> serves reply ->
  (exists v', rtc moves v v' /\ forall i pc, ve_requests v' !! i = Some pc ->
     exists kid r, pc = Answered kid r) /\
  (forall n v', nsteps moves n v v' -> (n <= work v)%nat) /\
  (forall i kid key, ve_requests v !! i = Some (Begins kid) ->
     fresh max_age (ve_now v) (ks_loaded_at (ve_keys v)) = true -> find (ks_keys (ve_keys v)) kid = Some key ->
     exists v', nsteps moves 2 v v' /\ ve_requests v' !! i = Some (Answered kid (Ok key))).
Proof.
  intros Hv%reachable_invariant Hs. split_and!.
  - by apply (run_to_answers reply (work v)).
  - intros n. clear. revert v. induction n as [|n IH]; [lia|]. intros v v' Hn.
    inversion Hn as [|? ? w ? Hm Hrest]; subst. apply moves_lower in Hm. specialize (IH w v' Hrest). lia.
  - intros i kid key Hi Hf Hk. eexists. split.
    + eapply nsteps_l; [eexists i, _; split; [exact Hi|apply looks]|]. rewrite Hk.
      apply nsteps_once. eexists i, _. split; [by apply lookup_insert_eq|]. by apply finds_fresh.
    + by apply lookup_insert_eq.
Qed.

End Progress.

(** ** Tokens and the environment *)

Section Tokens.
Context `{Jose} `{UrlCrate}.

Lemma fits_shape key alg : fits key alg = true ->
  (alg = RS256 /\ parameters key = RSA) \/ (alg = ES256 /\ parameters key = EllipticCurve P256) \/
  (alg = EdDSA /\ parameters key = OctetKeyPair Ed25519).
Proof.
  unfold fits. intros [_ Hs]%andb_prop. destruct (parameters key), alg; try done; auto;
    apply bool_decide_eq_true in Hs as ->; auto.
Qed.

Lemma claim_some claims name value : claim claims name = Some value ->
  claims name = Some value /\ trim value <> "".
Proof.
  unfold claim. destruct (claims name) as [v|]; simpl; [|done]. case_bool_decide; [done|]. by intros [= <-].
Qed.

(** C17. A caller is accepted only by a token the issuer signed for this server: it
    names an accepted algorithm and a kid, a key was found for the kid, the key
    is of the shape the algorithm takes, and the token decodes under it with
    the issuer, the audience, the expiry and the not-before time required.  The
    caller is of the verifier's issuer, and its subject and its tenant are the
    token's own claims, neither of them blank. *)
Theorem accepted_caller_is_verified v key_of token c :
  check_token v key_of token = Ok c ->
  exists alg kid key dk claims,
    decode_header token = Some (alg, Some kid) /\ key_of kid = Ok key /\
    ((alg = RS256 /\ parameters key = RSA) \/ (alg = ES256 /\ parameters key = EllipticCurve P256) \/
     (alg = EdDSA /\ parameters key = OctetKeyPair Ed25519)) /\
    from_jwk key = Some dk /\
    decode token dk (mkValidation alg 60 true [oi_issuer v] [oi_audience v] ["exp"; "iss"; "aud"; "sub"])
      = Some claims /\
    ca_issuer c = oi_issuer v /\
    claims "sub" = Some (ca_subject c) /\ trim (ca_subject c) <> "" /\
    claims (oi_tenant_claim v) = Some (ca_tenant c) /\ trim (ca_tenant c) <> "".
Proof.
  unfold check_token. destruct (decode_header token) as [[alg [kid|]]|] eqn:Eh; [|by destruct alg|done].
  destruct (key_of kid) as [key|error] eqn:Ek; [|by destruct alg].
  destruct (fits key alg) eqn:Ef; [|by destruct alg]. pose proof (fits_shape key alg Ef) as Hs. simpl.
  destruct (from_jwk key) as [dk|] eqn:Ed; simpl; [|by destruct alg].
  destruct (decode token dk (validation v alg)) as [claims|] eqn:Ec; [|by destruct alg].
  destruct (claim claims "sub") as [subject|] eqn:Esub; [|by destruct alg].
  destruct (claim claims (oi_tenant_claim v)) as [tenant|] eqn:Et; [|by destruct alg].
  apply claim_some in Esub as [? ?], Et as [? ?]. intros E.
  assert (c = mkCaller (oi_issuer v) subject tenant) as -> by (destruct alg; congruence).
  by exists alg, kid, key, dk, claims.
Qed.

(** The authenticator is the one the environment names: the local one only
    when it is asked for and no variable of the other is set, and the other
    only with all its variables set, with the keys of a safe URL. *)
Theorem auth_from_env_selects vars s : auth_from_env vars = Ok s ->
  match s with
  | LocalDev =>
      env_get vars "GOL_AUTH" = Some "local-dev" /\
      forall name, name ∈ OIDC_VARS -> env_get vars name = None
  | Oidc v source =>
      env_get vars "GOL_AUTH" = None /\ env_get vars "GOL_OIDC_ISSUER" = Some (oi_issuer v) /\
      env_get vars "GOL_OIDC_AUDIENCE" = Some (oi_audience v) /\
      env_get vars "GOL_OIDC_TENANT_CLAIM" = Some (oi_tenant_claim v) /\
      exists url, env_get vars "GOL_OIDC_JWKS_URL" = Some url /\ is_safe_endpoint url = true /\
        source = SourceUrl url REFRESH_INTERVAL MAX_AGE
  end.
Proof.
  unfold auth_from_env, OIDC_VARS. destruct (env_get vars "GOL_AUTH") as [other|] eqn:Ea.
  - case_bool_decide as Ho; [subst other|done]. simpl.
    destruct (env_get vars "GOL_OIDC_ISSUER") eqn:E1, (env_get vars "GOL_OIDC_AUDIENCE") eqn:E2,
      (env_get vars "GOL_OIDC_JWKS_URL") eqn:E3, (env_get vars "GOL_OIDC_TENANT_CLAIM") eqn:E4;
      simpl; try done. intros [= <-]. split; [done|]. set_solver.
  - simpl. destruct (env_get vars "GOL_OIDC_ISSUER") eqn:E1, (env_get vars "GOL_OIDC_AUDIENCE") eqn:E2,
      (env_get vars "GOL_OIDC_JWKS_URL") as [url|] eqn:E3, (env_get vars "GOL_OIDC_TENANT_CLAIM") eqn:E4;
      simpl; try done. unfold check_jwks_url. destruct (is_safe_endpoint url) eqn:Es; [|done].
    intros [= <-]. by split_and!; [..|exists url].
Qed.

End Tokens.

(** ** Examples *)

(** A library whose keys are their kids, and whose sets are one key. *)
Definition demo_jose : Jose := {|
  Jwk := string;
  DecodingKey := string;
  key_id key := Some key;
  public_key_use _ := None;
  key_operations _ := None;
  key_algorithm _ := Some RS256;
  parameters _ := RSA;
  decode_header token := if bool_decide (token = "signed by k1") then Some (RS256, Some "k1") else None;
  from_jwk key := Some key;
  decode token key v :=
    if bool_decide (va_audience v = ["gol"]) then
      Some (fun name => if bool_decide (name = "sub") then Some "user-1"
                        else if bool_decide (name = "tid") then Some "tenant-1" else None)
    else None;
  read_set body := Ok [Some (bytes_string body)];
|}.

#[local] Existing Instance demo_jose.

Definition demo_oidc : OidcVerifier := mkOidcVerifier "https://issuer.test" "gol" "tid".

Definition demo_keys (kid : string) : list Jwk := [kid].

Definition demo_reply (kid : string) : Reply := Ok (200%N, Ok (string_bytes kid)).

Abbreviation demo_step := (step REFRESH_INTERVAL MAX_AGE).

(** The state reached, evaluated. *)
Ltac evaluated :=
  match goal with |- rtc _ ?w _ => let w' := eval vm_compute in w in change w with w' end.

(** One step of request [i], by the rule [c]. *)
Ltac goes_on i c := eapply rtc_l; [eapply (requests _ _ _ _ i); [vm_compute; reflexivity|eapply c]|]; [..|evaluated].

(** A request that finds no key takes the gate and begins to fetch at [t]. *)
Ltac asks i kid t :=
  eapply rtc_l; [apply (arrives _ _ _ _ i kid); vm_compute; reflexivity|]; evaluated;
  goes_on i looks; goes_on i finds_stale; [by intros []|]; goes_on i enters; [reflexivity|].

(** The request that has the gate fetches at [t], gets the answer at [t'], and
    lets the gate go. *)
Ltac fetches_at i t t' reply :=
  eapply rtc_l; [eapply (requests _ _ _ _ i);
    [vm_compute; reflexivity|eapply (fetches _ _ _ _ _ _ t t t t t);
      [vm_compute; split; discriminate..|vm_compute; discriminate|vm_compute; reflexivity]]|]; evaluated;
  eapply rtc_l; [eapply (requests _ _ _ _ i);
    [vm_compute; reflexivity|eapply (ends_fetch _ _ _ i _ _ _ _ _ t' t' reply);
      [vm_compute; split; discriminate|assumption|vm_compute; reflexivity]]|]; evaluated;
  goes_on i releases.

(** Two requests, one for a key of the issuer and one for a kid it lacks. *)
Lemma demo_fetches serves : serves (demo_reply "k1") ->
  exists v, rtc (demo_step serves) (verifier_start 0) v /\
    ve_past v = [mkPast 40000 40010 false; mkPast 0 5 false] /\
    ve_requests v !! 1%nat = Some (Answered "k2" (Err BadToken)).
Proof.
  intros Hs. eexists. split.
  - asks 0%nat "k1" 0%Z. fetches_at 0%nat 0%Z 5%Z (demo_reply "k1").
    eapply rtc_l; [apply (passes _ _ _ _ 40000%Z); vm_compute; discriminate|].
    asks 1%nat "k2" 0%Z. fetches_at 1%nat 40000%Z 40010%Z (demo_reply "k1"). apply rtc_refl.
  - split; vm_compute; reflexivity.
Qed.

Lemma fetches_are_spaced_witness :
  exists v f2 f1, reachable REFRESH_INTERVAL MAX_AGE (fun _ => True) v /\ ve_past v = [f2; f1] /\
    (pa_ended f1 <= pa_began f2)%Z.
Proof.
  destruct (demo_fetches (fun _ => True) I) as (v & Hr & Hp & _).
  assert (reachable REFRESH_INTERVAL MAX_AGE (fun _ => True) v) as Hv by (exists 0%Z; exact Hr).
  destruct (fetches_are_spaced REFRESH_INTERVAL MAX_AGE (fun _ => True) v Hv) as (_ & H2 & _).
  exists v, (mkPast 40000 40010 false), (mkPast 0 5 false).
  exact (conj Hv (conj Hp (proj1 (H2 [] _ _ [] Hp)))).
Defined.

Lemma removed_key_stops_verifying_witness :
  exists v, ve_requests v !! 1%nat = Some (Answered "k2" (Err BadToken)) /\
    forall key, ve_requests v !! 1%nat <> Some (Answered "k2" (Ok key)).
Proof.
  assert (without "k2" (demo_reply "k1")) as Hw by (vm_compute; reflexivity).
  destruct (demo_fetches (without "k2") Hw) as (v & Hr & _ & Ha). exists v. split; [exact Ha|].
  intros key. apply (removed_key_stops_verifying REFRESH_INTERVAL MAX_AGE "k2" (verifier_start 0) v);
    [reflexivity|exact Hr|reflexivity].
Defined.

Lemma requests_go_on_witness :
  exists v v', ve_requests v !! 0%nat = Some (Begins "k1") /\
    rtc (moves REFRESH_INTERVAL MAX_AGE (fun _ => True)) v v' /\
    forall i pc, ve_requests v' !! i = Some pc -> exists kid r, pc = Answered kid r.
Proof.
  set (v := goes (verifier_start 0) 0 (Begins "k1")).
  assert (reachable REFRESH_INTERVAL MAX_AGE (fun _ => True) v) as Hv.
  { exists 0%Z. apply rtc_once. apply arrives. reflexivity. }
  destruct (requests_go_on REFRESH_INTERVAL MAX_AGE (fun _ => True) v (demo_reply "k1") Hv I)
    as ((v' & Hr & Hall) & _).
  exists v, v'. split; [reflexivity|]. exact (conj Hr Hall).
Defined.

Lemma accepted_caller_is_verified_witness :
  exists c, check_token demo_oidc (static_key (demo_keys "k1")) "signed by k1" = Ok c /\
    ca_issuer c = "https://issuer.test".
Proof.
  assert (check_token demo_oidc (static_key (demo_keys "k1")) "signed by k1" =
    Ok (mkCaller "https://issuer.test" "user-1" "tenant-1")) as Hc by (vm_compute; reflexivity).
  exists (mkCaller "https://issuer.test" "user-1" "tenant-1"). split; [exact Hc|].
  destruct (accepted_caller_is_verified demo_oidc (static_key (demo_keys "k1")) "signed by k1" _ Hc)
    as (alg & kid & key & dk & claims & H). apply H.
Defined.

(** A key set of no key of the token's kid, and a token of another form. *)
Example other_kid_refused : check_token demo_oidc (static_key (demo_keys "k2")) "signed by k1" = Err BadToken.
Proof. vm_compute. reflexivity. Qed.

Example other_token_refused : check_token demo_oidc (static_key (demo_keys "k1")) "unsigned" = Err BadToken.
Proof. vm_compute. reflexivity. Qed.
