(* ===== verification/MemoryOwner.v ===== *)
(** * Whose memory it is ([effect.rs]) and the memories of a run ([memory.rs])

    [memory_owner_id] names the owner of a memory scope as text, by
    length-prefixed parts.  [MemoryOwner] is the identity that text stands
    for; [memory_owner_id_faithful] shows that the text determines it and is
    determined by it, so no two owners share a memory.  [Memory] is the trait
    of [harness/memory.rs] as a class, with the laws its clients rely on and
    the two implementations in the crate. *)

From S2P Require Import Prelude Protocol Uuids.

(** ** Owner ids *)

(** [format!("{}:{part}", part.len())]. *)
Definition prefixed (part : string) : string :=
  pretty (N.of_nat (String.length part)) +:+ ":" +:+ part.

Fixpoint joined (parts : list string) : string :=
  match parts with
  | [] => ""
  | part :: parts => prefixed part +:+ joined parts
  end.

Section OwnerId.
Context `{UuidCrate}.

Definition owner_user (o : Owner) : string := joined [issuer o; subject o].
Definition owner_organization (o : Owner) : string := joined [issuer o; tenant o].

(** A non-empty id the metadata names, or nothing. *)
Definition metadata_id (spec : RunSpec) (key : string) : option string :=
  id ← metadata spec !! key;
  if bool_decide (id = "") then None else Some id.

Definition memory_owner_id (spec : RunSpec) (scope : MemoryScope) (step : N) : option string :=
  let o := owner spec in
  let named key := (fun id => joined [id]) <$> metadata_id spec key in
  match scope with
  | ScopeStep => Some (id_display (run_id spec) +:+ "/" +:+ pretty step)
  | ScopeRun => Some (id_display (run_id spec))
  | ScopeAgent => Some (owner_user o +:+ joined [id_display (agent_id spec)])
  | ScopeUser => Some (owner_user o)
  | ScopeOrganization => Some (owner_organization o)
  | ScopeSession =>
      session ← named SESSION_ID; Some (owner_user o +:+ joined [tenant o] +:+ session)
  | ScopeWorkspace => ws ← named WORKSPACE_ID; Some (owner_organization o +:+ ws)
  | ScopeGlobal => None
  end.

End OwnerId.

(** ** The identity an owner id stands for *)

Inductive MemoryOwner :=
| OwnStep (run : RunId) (step : N)
| OwnRun (run : RunId)
| OwnAgent (iss sub : string) (agent : AgentId)
| OwnUser (iss sub : string)
| OwnOrganization (iss ten : string)
| OwnSession (iss sub ten session : string)
| OwnWorkspace (iss ten workspace : string).

Definition memory_owner (spec : RunSpec) (scope : MemoryScope) (step : N)
    : option MemoryOwner :=
  let o := owner spec in
  match scope with
  | ScopeStep => Some (OwnStep (run_id spec) step)
  | ScopeRun => Some (OwnRun (run_id spec))
  | ScopeAgent => Some (OwnAgent (issuer o) (subject o) (agent_id spec))
  | ScopeUser => Some (OwnUser (issuer o) (subject o))
  | ScopeOrganization => Some (OwnOrganization (issuer o) (tenant o))
  | ScopeSession =>
      OwnSession (issuer o) (subject o) (tenant o) <$> metadata_id spec SESSION_ID
  | ScopeWorkspace =>
      OwnWorkspace (issuer o) (tenant o) <$> metadata_id spec WORKSPACE_ID
  | ScopeGlobal => None
  end.

(** ** Length prefixes keep the parts apart *)

Definition is_digit (c : byte) : Prop := (48 <= Ascii.N_of_ascii c < 58)%N.

Lemma pretty_N_char_digit x : is_digit (pretty_N_char x).
Proof. unfold is_digit, pretty_N_char. by repeat case_match. Qed.

Lemma pretty_N_go_digits x s :
  exists l, Forall is_digit l /\ string_bytes (pretty_N_go x s) = l ++ string_bytes s.
Proof.
  revert s; induction (N.lt_wf_0 x) as [x _ IH]; intros s.
  destruct (decide (x = 0%N)) as [->|Hx].
  { exists []. rewrite pretty_N_go_0. done. }
  rewrite pretty_N_go_step by lia.
  destruct (IH (x / 10)%N (N.div_lt x 10 ltac:(lia) ltac:(lia))
              (String (pretty_N_char (x mod 10)) s)) as (l & Hl & ->).
  exists (l ++ [pretty_N_char (x mod 10)]). split.
  - apply Forall_app; split; [done|]. constructor; [|done]. apply pretty_N_char_digit.
  - by rewrite <-app_assoc.
Qed.

Lemma pretty_N_digits (n : N) : Forall is_digit (string_bytes (pretty n)).
Proof.
  unfold pretty, pretty_N. case_decide; [by repeat constructor|].
  destruct (pretty_N_go_digits n "") as (l & Hl & ->). by rewrite app_nil_r.
Qed.

Lemma digits_colon_inj l1 l2 k1 k2 :
  Forall is_digit l1 -> Forall is_digit l2 ->
  l1 ++ string_bytes ":" ++ k1 = l2 ++ string_bytes ":" ++ k2 -> l1 = l2 /\ k1 = k2.
Proof.
  revert l2; induction l1 as [|c l1 IH]; intros [|d l2] H1 H2 E; simplify_eq/=; try done.
  - apply Forall_inv in H2. unfold is_digit in H2. cbn in H2. lia.
  - apply Forall_inv in H1. unfold is_digit in H1. cbn in H1. lia.
  - apply Forall_cons in H1 as [_ H1], H2 as [_ H2].
    destruct (IH l2 H1 H2) as [-> ->]; done.
Qed.

Lemma prefixed_app_inj p q s t :
  prefixed p +:+ s = prefixed q +:+ t -> p = q /\ s = t.
Proof.
  intros E%(f_equal string_bytes). unfold prefixed in E.
  rewrite !string_bytes_app, <-!app_assoc in E.
  apply digits_colon_inj in E as [El E]; [|apply pretty_N_digits..].
  apply (inj string_bytes), (inj pretty), Nat2N.inj in El.
  apply app_inj_length in E as [Ep Es]; [|by rewrite !length_string_bytes].
  split; by apply (inj string_bytes).
Qed.

Lemma app_empty_r s : s +:+ "" = s.
Proof. apply (inj string_bytes). rewrite string_bytes_app. apply app_nil_r. Qed.

Lemma app_assoc_string s t u : (s +:+ t) +:+ u = s +:+ (t +:+ u).
Proof. apply (inj string_bytes). rewrite !string_bytes_app. by rewrite app_assoc. Qed.

#[export] Instance joined_inj : Inj (=) (=) joined.
Proof.
  intros ps; induction ps as [|p ps IH]; intros [|q qs] E; simpl in E; try done.
  - apply (f_equal string_bytes) in E. unfold prefixed in E.
    rewrite !string_bytes_app in E. by destruct (string_bytes (pretty _)).
  - apply (f_equal string_bytes) in E. unfold prefixed in E.
    rewrite !string_bytes_app in E. by destruct (string_bytes (pretty _)).
  - apply prefixed_app_inj in E as [-> E]. f_equal. by apply IH.
Qed.

Lemma joined_app ps qs : joined (ps ++ qs) = joined ps +:+ joined qs.
Proof.
  induction ps as [|p ps IH]; simpl; [done|]. by rewrite IH, app_assoc_string.
Qed.

#[local] Arguments joined : simpl never.

Section OwnerIdProofs.
Context `{UuidCrate}.

(** The text of an owner. *)
Definition owner_text (o : MemoryOwner) : string :=
  match o with
  | OwnStep run step => id_display run +:+ "/" +:+ pretty step
  | OwnRun run => id_display run
  | OwnAgent iss sub agent => joined [iss; sub; id_display agent]
  | OwnUser iss sub => joined [iss; sub]
  | OwnOrganization iss ten => joined [iss; ten]
  | OwnSession iss sub ten session => joined [iss; sub; ten; session]
  | OwnWorkspace iss ten workspace => joined [iss; ten; workspace]
  end.

Lemma memory_owner_id_text spec scope step :
  memory_owner_id spec scope step = owner_text <$> memory_owner spec scope step.
Proof.
  destruct scope; simpl; try done.
  - destruct (metadata_id spec SESSION_ID) as [s|]; simpl; [|done]. f_equal.
    unfold owner_user. by rewrite <-!joined_app.
  - f_equal. unfold owner_user. by rewrite <-joined_app.
  - destruct (metadata_id spec WORKSPACE_ID) as [s|]; simpl; [|done]. f_equal.
    unfold owner_organization. by rewrite <-joined_app.
Qed.

Lemma id_display_app_inj {k} (i j : Id k) s t :
  id_display i +:+ s = id_display j +:+ t -> i = j /\ s = t.
Proof.
  intros E%(f_equal string_bytes). rewrite !string_bytes_app in E.
  apply app_inj_length in E as [E1%(inj string_bytes)%id_display_inj E2%(inj string_bytes)];
    [done|]. unfold id_display. by rewrite !length_string_bytes, !uuid_display_length.
Qed.

(** Two owners of the same scope are told apart by their text. *)
Lemma owner_text_inj s1 s2 scope n1 n2 o1 o2 :
  memory_owner s1 scope n1 = Some o1 -> memory_owner s2 scope n2 = Some o2 ->
  owner_text o1 = owner_text o2 -> o1 = o2.
Proof.
  destruct scope; simpl; intros E1 E2 Et;
    repeat match goal with
    | E : _ <$> _ = Some _ |- _ => apply fmap_Some in E as (? & _ & ->)
    | E : Some _ = Some _ |- _ => injection E as <-
    end; simpl in Et; try (apply (inj joined) in Et; congruence); try done.
  - apply id_display_app_inj in Et as [-> Et]. by simplify_eq.
  - by apply id_display_inj in Et as ->.
  - apply (inj joined) in Et. injection Et as -> -> ->%id_display_inj. done.
Qed.

Lemma memory_owner_id_eq s1 s2 scope n1 n2 :
  memory_owner_id s1 scope n1 = memory_owner_id s2 scope n2 <->
  memory_owner s1 scope n1 = memory_owner s2 scope n2.
Proof.
  rewrite !memory_owner_id_text. split; [|by intros ->].
  destruct (memory_owner s1 scope n1) as [o1|] eqn:E1,
    (memory_owner s2 scope n2) as [o2|] eqn:E2; simpl; try done.
  intros [= Et]. f_equal. by eapply owner_text_inj.
Qed.

(** Memory owner ids are faithful: for every scope, two runs get the same id
    exactly when they stand for the same owner (the same run and step, run,
    user, user and agent, organization, user's session in its tenant, or
    organization's workspace), and no id exactly when there is no owner.  So no
    choice of issuer, subject, tenant, session or workspace text lets one owner
    reach another's memory. *)
Theorem memory_owner_id_faithful s1 s2 scope n1 n2 :
  memory_owner_id s1 scope n1 = memory_owner_id s2 scope n2 <->
  memory_owner s1 scope n1 = memory_owner s2 scope n2.
Proof. apply memory_owner_id_eq. Qed.

End OwnerIdProofs.

(** ** The memory trait (memory.rs) *)

Record StoreError : Type := mkStoreError { message : string }.

Record MemoryKey : Type := mkMemoryKey { mk_scope : MemoryScope; mk_owner_id : string }.

#[export] Instance MemoryKey_eq_dec : EqDecision MemoryKey.
Proof. solve_decision. Defined.

Definition scope_index (s : MemoryScope) : nat :=
  match s with
  | ScopeStep => 0 | ScopeRun => 1 | ScopeSession => 2 | ScopeAgent => 3
  | ScopeWorkspace => 4 | ScopeUser => 5 | ScopeOrganization => 6 | ScopeGlobal => 7
  end.

Definition scope_of_index (n : nat) : MemoryScope :=
  match n with
  | 0 => ScopeStep | 1 => ScopeRun | 2 => ScopeSession | 3 => ScopeAgent
  | 4 => ScopeWorkspace | 5 => ScopeUser | 6 => ScopeOrganization | _ => ScopeGlobal
  end.

#[export] Instance MemoryScope_countable : Countable MemoryScope :=
  inj_countable' scope_index scope_of_index
    (fun s => match s with
              | ScopeStep | ScopeRun | ScopeSession | ScopeAgent | ScopeWorkspace
              | ScopeUser | ScopeOrganization | ScopeGlobal => eq_refl
              end).

#[export] Instance MemoryKey_countable : Countable MemoryKey :=
  inj_countable' (fun k => (mk_scope k, mk_owner_id k)) (fun p => mkMemoryKey p.1 p.2)
    (fun k => match k with mkMemoryKey _ _ => eq_refl end).

(** The trait: reads and writes of a memory whose state is an [S]. *)
Class Memory (S : Type) : Type := {
  mem_read : S -> MemoryKey -> string -> result (option string) StoreError;
  mem_write : S -> MemoryKey -> string -> string -> result unit StoreError * S;
}.

(** What a client relies on: an acknowledged write is read back, and no write
    is seen under another owner or another key. *)
Class MemoryLaws (S : Type) `{Memory S} : Prop := {
  mem_read_written s owner key value s' :
    mem_write s owner key value = (Ok tt, s') -> mem_read s' owner key = Ok (Some value);
  mem_read_other s owner key value r s' owner' key' :
    mem_write s owner key value = (r, s') -> (owner', key') <> (owner, key) ->
    mem_read s' owner' key' = mem_read s owner' key';
}.

(** [InMemory]: a map under a lock that a panicking writer poisons.  Reads
    still answer then, writes are refused. *)
Record InMemory : Type := mkInMemory {
  mem_values : gmap (MemoryKey * string) string;
  mem_poisoned : bool;
}.

Definition in_memory_default : InMemory := mkInMemory ∅ false.

Definition in_memory_read (s : InMemory) (owner : MemoryKey) (key : string)
    : result (option string) StoreError :=
  Ok (mem_values s !! (owner, key)).

Definition in_memory_write (s : InMemory) (owner : MemoryKey) (key value : string)
    : result unit StoreError * InMemory :=
  if mem_poisoned s then (Err (mkStoreError "memory lock poisoned"), s)
  else (Ok tt, mkInMemory (<[(owner, key) := value]> (mem_values s)) false).

#[export] Instance InMemory_memory : Memory InMemory :=
  {| mem_read := in_memory_read; mem_write := in_memory_write |}.

#[export] Instance InMemory_laws : MemoryLaws InMemory.
Proof.
  split; simpl; unfold in_memory_write, in_memory_read; intros.
  - destruct (mem_poisoned s); simplify_eq/=. by simplify_map_eq.
  - destruct (mem_poisoned s); simplify_eq/=; [done|].
    by rewrite lookup_insert_ne.
Qed.

(** [RunMemory]: run and step memory kept with the run, every other scope in
    the shared memory. *)
Section RunMemory.
Context {Shared : Type} `{Memory Shared}.

Record RunMemory : Type := mkRunMemory { rm_shared : Shared; rm_own : InMemory }.

Definition run_memory_new (shared : Shared) : RunMemory :=
  mkRunMemory shared in_memory_default.

(** [holder]: whether the run itself keeps [owner]'s memory. *)
Definition held_by_run (owner : MemoryKey) : bool :=
  match mk_scope owner with ScopeRun | ScopeStep => true | _ => false end.

Definition run_memory_read (s : RunMemory) (owner : MemoryKey) (key : string)
    : result (option string) StoreError :=
  if held_by_run owner then mem_read (rm_own s) owner key
  else mem_read (rm_shared s) owner key.

Definition run_memory_write (s : RunMemory) (owner : MemoryKey) (key value : string)
    : result unit StoreError * RunMemory :=
  if held_by_run owner then
    let '(r, own) := mem_write (rm_own s) owner key value in (r, mkRunMemory (rm_shared s) own)
  else
    let '(r, sh) := mem_write (rm_shared s) owner key value in (r, mkRunMemory sh (rm_own s)).

#[export] Instance RunMemory_memory : Memory RunMemory :=
  {| mem_read := run_memory_read; mem_write := run_memory_write |}.

#[export] Instance RunMemory_laws `{!MemoryLaws Shared} : MemoryLaws RunMemory.
Proof.
  split.
  - intros s owner key value s'.
    change (run_memory_write s owner key value = (Ok tt, s') ->
            run_memory_read s' owner key = Ok (Some value)).
    unfold run_memory_write, run_memory_read. destruct (held_by_run owner);
      destruct (mem_write _ owner key value) eqn:Ew; intros [= -> <-]; by eapply mem_read_written.
  - intros s owner key value r s' owner' key'.
    change (run_memory_write s owner key value = (r, s') -> (owner', key') <> (owner, key) ->
            run_memory_read s' owner' key' = run_memory_read s owner' key').
    unfold run_memory_write, run_memory_read. destruct (held_by_run owner);
      destruct (mem_write _ owner key value) eqn:Ew; intros [= -> <-] Hne;
      destruct (held_by_run owner'); done || by eapply mem_read_other.
Qed.

End RunMemory.
Arguments RunMemory Shared : clear implicits.

(** ** Tenants do not reach each other's memory *)

Section Isolation.
Context `{UuidCrate} {S : Type} `{MemoryLaws S}.

(** The key under which a run of [spec] at harness step [step] reaches
    [scope]: [Driver::memory_key]. *)
Definition memory_key_of (spec : RunSpec) (scope : MemoryScope) (step : N)
    : option MemoryKey :=
  mkMemoryKey scope <$> memory_owner_id spec scope step.

(** C23. Memory is isolated between owners and shared within one: after a run
    writes an entry of a scope, a run that stands for the same owner of that
    scope reads the value back, and a read under another scope, by another
    owner, or of another key answers as if nothing had been written. *)
Theorem memory_isolated s1 sc1 n1 s2 sc2 n2 k1 k2 key key' value (m m' : S) :
  memory_key_of s1 sc1 n1 = Some k1 -> memory_key_of s2 sc2 n2 = Some k2 ->
  mem_write m k1 key value = (Ok tt, m') ->
  (sc1 = sc2 -> memory_owner s1 sc1 n1 = memory_owner s2 sc2 n2 -> key = key' ->
     mem_read m' k2 key' = Ok (Some value)) /\
  ((sc1 <> sc2 \/ memory_owner s1 sc1 n1 <> memory_owner s2 sc2 n2 \/ key <> key') ->
     mem_read m' k2 key' = mem_read m k2 key').
Proof.
  unfold memory_key_of. intros E1 E2 Hw.
  apply fmap_Some in E1 as (o1 & E1 & ->), E2 as (o2 & E2 & ->). split.
  - intros <- Ho <-. apply memory_owner_id_eq in Ho.
    rewrite E1, E2 in Ho. injection Ho as <-. by eapply mem_read_written.
  - intros Hne. eapply mem_read_other; [done|]. intros [= <- <- <-].
    destruct Hne as [Hne|[Hne|Hne]]; [done| |done]. apply Hne.
    apply memory_owner_id_eq. congruence.
Qed.

End Isolation.

Definition sample_key : MemoryKey := mkMemoryKey ScopeUser "19:https://issuer.test6:user-1".

Definition sample_memory : RunMemory InMemory := run_memory_new in_memory_default.

Lemma sample_key_of step : memory_key_of (H := hyphenated) sample_spec ScopeUser step = Some sample_key.
Proof. vm_compute. reflexivity. Qed.

Lemma memory_isolated_witness :
  mem_read (snd (mem_write sample_memory sample_key "k" "v")) sample_key "k" = Ok (Some "v").
Proof.
  apply (memory_isolated (H := hyphenated) sample_spec ScopeUser 1 sample_spec ScopeUser 2
    sample_key sample_key "k" "k" "v" sample_memory).
  - apply sample_key_of.
  - apply sample_key_of.
  - reflexivity.
  - reflexivity.
  - reflexivity.
  - reflexivity.
Defined.
