(* ===== verification/Reduce.v ===== *)
(** * The reducers and the fold of a run's log ([reduce.rs], [fold.rs])

    [reduce] moves the harness state, [reduce_dispatch] the control-plane
    phase, and [fold] runs both over a log while counting what the run
    spent.  [applicable] is the rule the driver asks before it authorizes an
    effect. *)

From S2P Require Import Prelude Protocol.

Definition Effects := list Effect.

(** ** reduce.rs *)

Definition reduce_dispatch (state : DispatchPhase) (event : Event) : DispatchPhase :=
  if dispatch_is_terminal state then state
  else
    match state, payload event with
    | DCreated, RunQueued => DQueued
    | DQueued, RunScheduled => DScheduled
    | DScheduled, RunProvisioning => DProvisioning
    | DProvisioning, RunStarting => DStarting
    | (DStarting | DCreated), RunStarted => DRunning
    | DRunning, RunWaiting reason => DWaiting reason
    | DRunning, RunAwaitingApproval approval_id => DAwaitingApproval approval_id
    | DRunning, RunPaused => DPaused
    | DRunning, RunRecovering => DRecovering
    | (DWaiting _ | DAwaitingApproval _ | DPaused | DRecovering), RunResumed => DRunning
    | (DRunning | DWaiting _ | DAwaitingApproval _ | DPaused | DRecovering),
      RunCompleted outcome => DCompleted outcome
    | _, RunFailed class message => DFailed class message
    | _, RunCancelled => DCancelled
    | _, RunExpired => DExpired
    | _, _ => state
    end.

(** Whether the harness acts on [effect] when it is authorized in [state]. *)
Definition applicable (state : HarnessState) (effect : Effect) (spec : RunSpec) : bool :=
  match state with
  | Running step _ answered =>
      match effect with
      | EToolCall _ _ _ =>
          negb answered && ((1 <=? step)%N && (step <=? max_steps (limits spec))%N)
      | EComplete _ | EModelCall _ | EMemoryRead _ _ | EMemoryWrite _ _ _
      | EDelegate _ _ => true
      | ESendMessage _ _ expects_reply _ _ => negb (expects_reply && answered)
      | EAskUser _ => negb answered
      | EExecute _ | ERequestApproval _ _ | EWait _ | EPublishArtifact _ _ _ => false
      end
  | _ => false
  end.

(** The reply to, or the timeout of, an ask answers the step waiting on it. *)
Definition answer_ask (state : HarnessState) (message_id : MessageId)
    : HarnessState * Effects :=
  match state with
  | WaitingForMessage step attempt waiting =>
      if bool_decide (waiting = message_id) then (Running step attempt true, [])
      else (state, [])
  | other => (other, [])
  end.

Definition on_authorized (state : HarnessState) (effect : Effect) (spec : RunSpec)
    : HarnessState * Effects :=
  if negb (applicable state effect spec) then (state, [])
  else
    match state with
    | Running step attempt _ =>
        match effect with
        | EToolCall name _ invocation =>
            (WaitingForTool step attempt name invocation, [effect])
        | EComplete outcome => (Completed outcome, [])
        | _ => (state, [effect])
        end
    | _ => (state, [])
    end.

(** [Running], [WaitingForTool] and [WaitingForMessage]: the states the
    terminal events act on. *)
Definition is_active (state : HarnessState) : bool :=
  match state with
  | Running _ _ _ | WaitingForTool _ _ _ _ | WaitingForMessage _ _ _ => true
  | _ => false
  end.

Definition reduce (state : HarnessState) (event : Event) (spec : RunSpec)
    : HarnessState * Effects :=
  if harness_is_terminal state then (state, [])
  else
    match payload event with
    | RunStarted =>
        match state with
        | Idle => (Running 1 0 false, [])
        | other => (other, [])
        end
    | EffectAuthorized effect => on_authorized state effect spec
    | ToolResult name invocation step attempt _ =>
        match state with
        | WaitingForTool waiting_step waiting_attempt waiting_name waiting_invocation =>
            if (step =? waiting_step)%N && (attempt =? waiting_attempt)%N &&
               bool_decide (name = waiting_name) &&
               bool_decide (invocation = waiting_invocation)
            then (Running waiting_step waiting_attempt true, [])
            else (state, [])
        | _ => (state, [])
        end
    | MessageSent message_id _ true | UserAsked message_id _ =>
        match state with
        | Running step attempt false => (WaitingForMessage step attempt message_id, [])
        | other => (other, [])
        end
    | MessageReceived _ _ _ _ (Some reply_to) => answer_ask state reply_to
    | AskTimedOut message_id | UserAnswered message_id _ => answer_ask state message_id
    | StepRetried =>
        match state with
        | Running step attempt true =>
            if (attempt <? MAX_RETRIES)%N then (Running step (attempt + 1) false, [])
            else (state, [])
        | other => (other, [])
        end
    | StepAdvanced =>
        match state with
        | Running step _ true =>
            if (step <? max_steps (limits spec))%N then (Running (step + 1) 0 false, [])
            else (state, [])
        | other => (other, [])
        end
    | RunCompleted outcome =>
        match state with
        | Running _ _ _ => (Completed outcome, [])
        | other => (other, [])
        end
    | RunFailed class message =>
        if is_active state then (Failed class message, []) else (state, [])
    | RunCancelled => if is_active state then (Cancelled, []) else (state, [])
    | RunExpired =>
        if is_active state then (Failed FcTimeout "run expired", []) else (state, [])
    | RunCreated | RunQueued | RunScheduled | RunProvisioning | RunStarting
    | RunWaiting _ | RunAwaitingApproval _ | RunPaused | RunRecovering | RunResumed
    | EffectDecided _ | EffectDenied _ _ | ModelResponded _ _ | UserMessage _
    | MemoryRead _ _ _ | MemoryWritten _ _ _ | ChildStarted _ _ _
    | DelegateRefused _ _ | MessageSent _ _ _ | MessageRefused _ _
    | MessageReceived _ _ _ _ _ | UserAskRefused _ => (state, [])
    end.

(** ** fold.rs *)

Record RunState : Type := mkRunState {
  rs_run_id : RunId;
  harness : HarnessState;
  dispatch : DispatchPhase;
  steps : N;
  model_calls : N;
  children : N;
  given_steps : N;
  given_model_calls : N;
}.

(** The loop variables of [fold]: what it returns, and the children it has
    already counted. *)
Record FoldState : Type := mkFoldState {
  fs_harness : HarnessState;
  fs_dispatch : DispatchPhase;
  fs_steps : N;
  fs_model_calls : N;
  fs_children : N;
  fs_given_steps : N;
  fs_given_model_calls : N;
  fs_started : gset RunId;
}.

Definition fold_init : FoldState := mkFoldState Idle DCreated 0 0 0 0 0 ∅.

Definition is_running (h : HarnessState) : bool :=
  match h with Running _ _ _ => true | _ => false end.

(** The counters of one event, counted in the harness state before it. *)
Definition fold_count (s : FoldState) (p : EventPayload) : FoldState :=
  let '(mkFoldState h d st mc ch gs gm started) := s in
  match p with
  | EffectDecided (EComplete _) =>
      if is_running h then s
      else mkFoldState h d (wrap_add32 st 1) mc ch gs gm started
  | EffectDecided _ => mkFoldState h d (wrap_add32 st 1) mc ch gs gm started
  | EffectAuthorized (EModelCall _) => mkFoldState h d st (wrap_add32 mc 1) ch gs gm started
  | ChildStarted run _ l =>
      if bool_decide (run ∈ started) then s
      else mkFoldState h d st mc (wrap_add32 ch 1) (sat_add32 gs (max_steps l))
             (sat_add32 gm (max_model_calls l)) ({[run]} ∪ started)
  | _ => s
  end.

(** One turn of [fold]'s loop: the counters, then the dispatch phase, then
    the harness. *)
Definition fold_step (spec : RunSpec) (s : FoldState) (event : Event) : FoldState :=
  let '(mkFoldState h d st mc ch gs gm started) := fold_count s (payload event) in
  mkFoldState (fst (reduce h event spec)) (reduce_dispatch d event) st mc ch gs gm started.

Definition fold_events (spec : RunSpec) (events : list Event) : FoldState :=
  fold_left (fold_step spec) events fold_init.

Definition fold (spec : RunSpec) (events : list Event) : RunState :=
  let '(mkFoldState h d st mc ch gs gm _) := fold_events spec events in
  mkRunState (run_id spec) h d st mc ch gs gm.

(** ** What [reduce] does, effect by effect *)

Lemma reduce_terminal s e spec :
  harness_is_terminal s = true -> reduce s e spec = (s, []).
Proof. unfold reduce. by intros ->. Qed.

Lemma reduce_dispatch_terminal d e :
  dispatch_is_terminal d = true -> reduce_dispatch d e = d.
Proof. unfold reduce_dispatch. by intros ->. Qed.

Lemma applicable_running s eff spec :
  applicable s eff spec = true -> exists st a ans, s = Running st a ans.
Proof. destruct s; simpl; try done. eauto. Qed.

(** An effect is emitted only by its own authorization, and only where it is
    applicable. *)
Lemma reduce_emits s e spec :
  snd (reduce s e spec) = [] \/
  exists eff, payload e = EffectAuthorized eff /\ applicable s eff spec = true /\
    snd (reduce s e spec) = [eff].
Proof.
  unfold reduce. destruct (harness_is_terminal s); [by left|].
  destruct (payload e) eqn:Hp;
    try (by left); try (left; unfold answer_ask in *; by crush_match).
  unfold on_authorized. destruct (applicable s effect spec) eqn:Ha; simpl; [|by left].
  apply applicable_running in Ha as Hs. destruct Hs as (st & a & ans & ->).
  destruct effect; simpl; eauto 6.
Qed.

(** [applicable] is exact: an authorized effect is acted on (the state
    changes or the effect is emitted) if and only if [applicable] says so, so
    the driver, which denies the effects that are not applicable, never
    records an authorization that [reduce] would drop, and never denies one it
    would act on. *)
Theorem applicable_iff_acts s eff spec e :
  payload e = EffectAuthorized eff ->
  applicable s eff spec = true <-> reduce s e spec <> (s, []).
Proof.
  intros Hp. split.
  - intros Ha. apply applicable_running in Ha as Hs. destruct Hs as (st & a & ans & ->).
    unfold reduce. simpl. rewrite Hp. unfold on_authorized. rewrite Ha. simpl.
    destruct eff; congruence.
  - intros Hr. destruct (applicable s eff spec) eqn:Ha; [done|]. exfalso. apply Hr.
    unfold reduce. destruct (harness_is_terminal s); [done|]. rewrite Hp.
    unfold on_authorized. by rewrite Ha.
Qed.

(** ** The lifecycle [reduce] implements

    The six checked phases as a step relation: what a run may do next,
    whatever events arrive. *)

Inductive lifecycle (max : N) : HarnessState -> HarnessState -> Prop :=
| life_start : lifecycle max Idle (Running 1 0 false)
| life_call s a n i :
    (1 <= s <= max)%N -> lifecycle max (Running s a false) (WaitingForTool s a n i)
| life_ask s a m : lifecycle max (Running s a false) (WaitingForMessage s a m)
| life_result s a n i : lifecycle max (WaitingForTool s a n i) (Running s a true)
| life_reply s a m : lifecycle max (WaitingForMessage s a m) (Running s a true)
| life_retry s a :
    (a < MAX_RETRIES)%N -> lifecycle max (Running s a true) (Running s (a + 1) false)
| life_advance s a :
    (s < max)%N -> lifecycle max (Running s a true) (Running (s + 1) 0 false)
| life_complete s a ans o : lifecycle max (Running s a ans) (Completed o)
| life_fail s c m : is_active s = true -> lifecycle max s (Failed c m)
| life_cancel s : is_active s = true -> lifecycle max s Cancelled.

#[export] Hint Constructors lifecycle : gol.

Lemma reduce_lifecycle s e spec :
  fst (reduce s e spec) = s \/
  lifecycle (max_steps (limits spec)) s (fst (reduce s e spec)).
Proof.
  unfold reduce, on_authorized, answer_ask.
  destruct (harness_is_terminal s) eqn:Ht; [by left|].
  destruct (payload e); try (by left);
    repeat (split_match; simpl; bool_to_prop; subst; try (by left);
            try (right; by auto with gol)).
  right. simpl in *. bool_to_prop. subst. by constructor.
Qed.

(** How far a run has come: each lifecycle step moves it on, up to
    [9 * max 1 max_steps + 1]. *)
Definition rank (max : N) (s : HarnessState) : N :=
  match s with
  | Idle => 0
  | Running st a ans => 1 + 9 * (st - 1) + 3 * a + (if ans then 2 else 0)
  | WaitingForTool st a _ _ | WaitingForMessage st a _ => 1 + 9 * (st - 1) + 3 * a + 1
  | Completed _ | Failed _ _ | Cancelled => 9 * N.max 1 max + 1
  end.

(** The counters of a state reached from [Idle]: a step from 1 to
    [max 1 max_steps], at most [MAX_RETRIES] retries of it, and a tool call
    only within the limit. *)
Definition bounded (max : N) (s : HarnessState) : Prop :=
  match s with
  | Running st a _ | WaitingForMessage st a _ =>
      (1 <= st <= N.max 1 max)%N /\ (a <= MAX_RETRIES)%N
  | WaitingForTool st a _ _ => (1 <= st <= max)%N /\ (a <= MAX_RETRIES)%N
  | _ => True
  end.

Lemma lifecycle_bounded max s s' : lifecycle max s s' -> bounded max s -> bounded max s'.
Proof. destruct 1; simpl; unfold MAX_RETRIES in *; intros; try done; lia. Qed.

Lemma lifecycle_rank max s s' :
  lifecycle max s s' -> bounded max s -> (rank max s < rank max s')%N.
Proof.
  destruct 1; simpl; unfold MAX_RETRIES in *; intros Hb; try lia.
  - destruct ans; lia.
  - destruct s; simplify_eq/=; unfold MAX_RETRIES in *; try destruct answered; lia.
  - destruct s; simplify_eq/=; unfold MAX_RETRIES in *; try destruct answered; lia.
Qed.

Lemma rank_le max s : bounded max s -> (rank max s <= 9 * N.max 1 max + 1)%N.
Proof. destruct s; simpl; unfold MAX_RETRIES; try destruct answered; lia. Qed.

Lemma reduce_bounded s e spec :
  bounded (max_steps (limits spec)) s ->
  bounded (max_steps (limits spec)) (fst (reduce s e spec)).
Proof.
  destruct (reduce_lifecycle s e spec) as [->|H]; [done|]. by apply lifecycle_bounded.
Qed.

(** ** Folding a log *)

Lemma fold_events_snoc spec es e :
  fold_events spec (es ++ [e]) = fold_step spec (fold_events spec es) e.
Proof. apply fold_left_snoc. Qed.

Lemma fold_events_app spec es es' :
  fold_events spec (es ++ es') = fold_left (fold_step spec) es' (fold_events spec es).
Proof. apply fold_left_app. Qed.

Lemma fold_count_states s p :
  fs_harness (fold_count s p) = fs_harness s /\ fs_dispatch (fold_count s p) = fs_dispatch s.
Proof. destruct s; simpl. by crush_match. Qed.

Lemma fold_step_harness spec s e :
  fs_harness (fold_step spec s e) = fst (reduce (fs_harness s) e spec).
Proof.
  unfold fold_step. pose proof (fold_count_states s (payload e)) as [H _].
  destruct (fold_count s (payload e)); simpl in *. by subst.
Qed.

Lemma fold_step_dispatch spec s e :
  fs_dispatch (fold_step spec s e) = reduce_dispatch (fs_dispatch s) e.
Proof.
  unfold fold_step. pose proof (fold_count_states s (payload e)) as [_ H].
  destruct (fold_count s (payload e)); simpl in *. by subst.
Qed.

Lemma fold_harness spec es : harness (fold spec es) = fs_harness (fold_events spec es).
Proof. unfold fold. by destruct (fold_events spec es). Qed.

Lemma fold_dispatch spec es : dispatch (fold spec es) = fs_dispatch (fold_events spec es).
Proof. unfold fold. by destruct (fold_events spec es). Qed.

Lemma fold_harness_snoc spec es e :
  harness (fold spec (es ++ [e])) = fst (reduce (harness (fold spec es)) e spec).
Proof. by rewrite !fold_harness, fold_events_snoc, fold_step_harness. Qed.

Lemma fold_dispatch_snoc spec es e :
  dispatch (fold spec (es ++ [e])) = reduce_dispatch (dispatch (fold spec es)) e.
Proof. by rewrite !fold_dispatch, fold_events_snoc, fold_step_dispatch. Qed.

Lemma fold_bounded spec es : bounded (max_steps (limits spec)) (harness (fold spec es)).
Proof.
  rewrite fold_harness. unfold fold_events. apply fold_left_ind; [done|].
  intros s e Hs _. rewrite fold_step_harness. by apply reduce_bounded.
Qed.

(** How many events of [es] change the harness state, from [s] on. *)
Fixpoint harness_changes (spec : RunSpec) (s : HarnessState) (es : list Event) : N :=
  match es with
  | [] => 0
  | e :: es =>
      let s' := fst (reduce s e spec) in
      ((if decide (s' = s) then 0 else 1) + harness_changes spec s' es)%N
  end.

Lemma harness_changes_rank spec s es :
  bounded (max_steps (limits spec)) s ->
  (harness_changes spec s es + rank (max_steps (limits spec)) s
     <= 9 * N.max 1 (max_steps (limits spec)) + 1)%N.
Proof.
  revert s; induction es as [|e es IH]; intros s Hs; simpl.
  { apply rank_le in Hs. lia. }
  pose proof (IH _ (reduce_bounded s e spec Hs)) as H.
  destruct (decide _) as [E|E]; [rewrite E in H |- *; lia|].
  destruct (reduce_lifecycle s e spec) as [|Hl]; [done|].
  apply lifecycle_rank in Hl; [lia|done].
Qed.

(** Whatever events a log holds, in whatever order: the harness moves only
    along the lifecycle, its step stays between 1 and [max 1 max_steps] (so
    [step + 1] never overflows), each step is retried at most [MAX_RETRIES]
    times, a tool call is outstanding only within the step limit, and the state
    changes at most [9 * max 1 max_steps + 1] times in all. *)
Theorem harness_lifecycle_bounded spec es :
  bounded (max_steps (limits spec)) (harness (fold spec es)) /\
  (harness_changes spec Idle es <= 9 * N.max 1 (max_steps (limits spec)) + 1)%N /\
  (forall e, harness (fold spec (es ++ [e])) = harness (fold spec es) \/
     lifecycle (max_steps (limits spec)) (harness (fold spec es))
       (harness (fold spec (es ++ [e])))).
Proof.
  split; [apply fold_bounded|]. split.
  - pose proof (harness_changes_rank spec Idle es I) as H. simpl in H. lia.
  - intros e. rewrite fold_harness_snoc. apply reduce_lifecycle.
Qed.

(** ** Ends *)

(** An end is final: once a log's fold is terminal, in the harness or in
    the dispatch phase, no further events change that state. *)
Theorem fold_terminal_sticks spec es es' :
  (harness_is_terminal (harness (fold spec es)) = true ->
     harness (fold spec (es ++ es')) = harness (fold spec es)) /\
  (dispatch_is_terminal (dispatch (fold spec es)) = true ->
     dispatch (fold spec (es ++ es')) = dispatch (fold spec es)).
Proof.
  induction es' as [|e es' IH] using rev_ind; [by rewrite app_nil_r|].
  rewrite app_assoc, fold_harness_snoc, fold_dispatch_snoc. destruct IH as [IHh IHd].
  split; intros Ht.
  - rewrite IHh by done. by rewrite reduce_terminal.
  - rewrite IHd by done. by rewrite reduce_dispatch_terminal.
Qed.

Definition is_failed_or_cancelled (h : HarnessState) : bool :=
  match h with Failed _ _ | Cancelled => true | _ => false end.

Lemma reduce_newly_failed h e spec d :
  is_failed_or_cancelled h = false ->
  is_failed_or_cancelled (fst (reduce h e spec)) = true ->
  dispatch_is_terminal (reduce_dispatch d e) = true.
Proof.
  unfold reduce, on_authorized, answer_ask. intros Hh Hr.
  destruct (dispatch_is_terminal d) eqn:Hd; [by rewrite reduce_dispatch_terminal|].
  unfold reduce_dispatch. rewrite Hd.
  destruct (payload e); try (by destruct d); exfalso; simplify_eq/=;
    repeat (split_match; simplify_eq/=; try congruence).
Qed.

(** The two states of a run agree on failure: a harness that failed or was
    cancelled belongs to a run whose dispatch phase has ended, on every log. *)
Theorem failed_harness_ends_dispatch spec es :
  is_failed_or_cancelled (harness (fold spec es)) = true ->
  dispatch_is_terminal (dispatch (fold spec es)) = true.
Proof.
  induction es as [|e es IH] using rev_ind; [done|].
  rewrite fold_harness_snoc, fold_dispatch_snoc. intros H.
  destruct (is_failed_or_cancelled (harness (fold spec es))) eqn:Hf.
  - rewrite reduce_dispatch_terminal; auto.
  - by eapply reduce_newly_failed.
Qed.

(** The payloads that end a run's log ([is_run_end] of the driver and
    [is_terminal] of the store, which are the same). *)
Definition is_run_end (p : EventPayload) : bool :=
  match p with
  | RunCompleted _ | RunFailed _ _ | RunCancelled | RunExpired => true
  | _ => false
  end.

(** The dispatch phases in which a run has started and not ended. *)
Definition dispatch_started (d : DispatchPhase) : bool :=
  match d with
  | DRunning | DWaiting _ | DAwaitingApproval _ | DPaused | DRecovering => true
  | _ => false
  end.

(** When the payloads that end a run's log end its dispatch phase: always,
    except for a [RunCompleted] recorded before the run was running, which
    [reduce_dispatch] ignores although the store takes it as the end of the
    log. *)
Theorem run_end_ends_dispatch d e :
  dispatch_is_terminal d = false -> is_run_end (payload e) = true ->
  dispatch_is_terminal (reduce_dispatch d e) = true <->
  (forall o, payload e = RunCompleted o -> dispatch_started d = true).
Proof.
  intros Hd He. unfold reduce_dispatch. rewrite Hd.
  destruct (payload e); try done; destruct d; simpl in *; try done; split; try done; eauto.
  all: intros H; by apply (H outcome).
Qed.

(** ** Waits *)

(** The answer a waiting state takes: the result of the very call it waits on,
    or a reply to (or the timeout or the user's answer of) the very ask. *)
Definition answers (s : HarnessState) (p : EventPayload) : Prop :=
  match s with
  | WaitingForTool st a n i => exists out, p = ToolResult n i st a out
  | WaitingForMessage st a m =>
      (exists i f r b, p = MessageReceived i f r b (Some m)) \/
      p = AskTimedOut m \/ (exists t, p = UserAnswered m t)
  | _ => False
  end.

Definition waiting (s : HarnessState) : bool :=
  match s with WaitingForTool _ _ _ _ | WaitingForMessage _ _ _ => true | _ => false end.

Definition resumed (s : HarnessState) : HarnessState :=
  match s with
  | WaitingForTool st a _ _ | WaitingForMessage st a _ => Running st a true
  | other => other
  end.

Definition ends_active (p : EventPayload) : option HarnessState :=
  match p with
  | RunFailed class message => Some (Failed class message)
  | RunCancelled => Some Cancelled
  | RunExpired => Some (Failed FcTimeout "run expired")
  | _ => None
  end.

Lemma reduce_waiting s e spec :
  waiting s = true ->
  reduce s e spec =
    match ends_active (payload e) with
    | Some ended => (ended, [])
    | None =>
        match s, payload e with
        | WaitingForTool st a n i, ToolResult n' i' st' a' _ =>
            if (st' =? st)%N && (a' =? a)%N && bool_decide (n' = n) && bool_decide (i' = i)
            then (resumed s, []) else (s, [])
        | WaitingForMessage _ _ m,
          (MessageReceived _ _ _ _ (Some m') | AskTimedOut m' | UserAnswered m' _) =>
            if bool_decide (m = m') then (resumed s, []) else (s, [])
        | _, _ => (s, [])
        end
    end.
Proof.
  intros Hw. destruct s; try done; unfold reduce; simpl;
    destruct (payload e); simpl; try done; by crush_match.
Qed.

(** A wait ends in two ways only: by the answer to the very call or ask it
    waits on (same name, invocation, step and attempt; same message), which
    resumes the same attempt of the same step, or by the failure, cancellation
    or expiry of the run.  A stale, duplicate or misdirected answer changes
    nothing. *)
Theorem wait_ends_only_by_its_answer s e spec :
  waiting s = true ->
  (answers s (payload e) -> reduce s e spec = (resumed s, [])) /\
  (forall ended, ends_active (payload e) = Some ended -> reduce s e spec = (ended, [])) /\
  (~ answers s (payload e) -> ends_active (payload e) = None ->
     reduce s e spec = (s, [])).
Proof.
  intros Hw. rewrite reduce_waiting by done. split_and!.
  - destruct s; try done; simpl.
    + intros [out ->]. simpl. by rewrite !N.eqb_refl, !bool_decide_true.
    + intros [(i & f & r & b & ->)|[->|(t & ->)]]; simpl; by rewrite bool_decide_true.
  - by intros ended ->.
  - intros Hn ->. destruct s; try done; destruct (payload e); try done; simpl in *.
    + split_match; [|done]. bool_to_prop. subst. destruct Hn. eauto.
    + destruct reply_to; [|done]. case_bool_decide; [|done]. subst. destruct Hn. eauto 10.
    + case_bool_decide; [|done]. subst. destruct Hn. eauto.
    + case_bool_decide; [|done]. subst. destruct Hn. eauto.
Qed.

(** ** Children *)

Definition started_child (p : EventPayload) : option (RunId * Limits) :=
  match p with ChildStarted run _ l => Some (run, l) | _ => None end.

(** The limits of the children a log started, each child once, as it was first
    recorded. *)
Fixpoint distinct_children (seen : gset RunId) (es : list Event) : list Limits :=
  match es with
  | [] => []
  | e :: es =>
      match started_child (payload e) with
      | Some (run, l) =>
          if bool_decide (run ∈ seen) then distinct_children seen es
          else l :: distinct_children ({[run]} ∪ seen) es
      | None => distinct_children seen es
      end
  end.

Definition total (f : Limits -> N) (ls : list Limits) : N :=
  foldr (fun l acc => (f l + acc)%N) 0%N ls.

Definition child_counters (s : FoldState) : N * N * N :=
  (fs_children s, fs_given_steps s, fs_given_model_calls s).

Lemma fold_step_children spec s e :
  child_counters (fold_step spec s e) = child_counters (fold_count s (payload e)) /\
  fs_started (fold_step spec s e) = fs_started (fold_count s (payload e)).
Proof. unfold fold_step. by destruct (fold_count s (payload e)). Qed.

Lemma fold_count_no_child s p :
  started_child p = None ->
  child_counters (fold_count s p) = child_counters s /\
  fs_started (fold_count s p) = fs_started s.
Proof. intros H. destruct s, p; simpl in *; try done; by crush_match. Qed.

Lemma fold_count_child s p run l :
  started_child p = Some (run, l) ->
  child_counters (fold_count s p) =
    (if bool_decide (run ∈ fs_started s) then child_counters s
     else (wrap_add32 (fs_children s) 1, sat_add32 (fs_given_steps s) (max_steps l),
           sat_add32 (fs_given_model_calls s) (max_model_calls l))) /\
  fs_started (fold_count s p) =
    if bool_decide (run ∈ fs_started s) then fs_started s else {[run]} ∪ fs_started s.
Proof.
  intros H. destruct s, p; simplify_eq/=. by case_bool_decide.
Qed.

Lemma fold_left_children spec es s :
  (fs_given_steps s <= u32_max)%N -> (fs_given_model_calls s <= u32_max)%N ->
  (fs_children s + N.of_nat (length (distinct_children (fs_started s) es)) <= u32_max)%N ->
  child_counters (fold_left (fold_step spec) es s) =
    (fs_children s + N.of_nat (length (distinct_children (fs_started s) es)),
     N.min (fs_given_steps s + total max_steps (distinct_children (fs_started s) es)) u32_max,
     N.min (fs_given_model_calls s
              + total max_model_calls (distinct_children (fs_started s) es)) u32_max)%N.
Proof.
  revert s; induction es as [|e es IH]; intros s Hgs Hgm Hc; simpl in *.
  { unfold child_counters. f_equal; [f_equal|]; lia. }
  pose proof (fold_step_children spec s e) as [Hcc Hst].
  destruct (started_child (payload e)) as [[run l]|] eqn:Hp.
  - destruct (fold_count_child s _ run l Hp) as [Hcc' Hst'].
    rewrite Hcc' in Hcc. rewrite Hst' in Hst. case_bool_decide as Hin.
    + injection Hcc as Hc1 Hc2 Hc3. rewrite IH; rewrite ?Hc1, ?Hc2, ?Hc3, ?Hst; done.
    + simpl in *. injection Hcc as Hc1 Hc2 Hc3. rewrite wrap_add32_exact in Hc1 by lia.
      rewrite IH; rewrite ?Hc1, ?Hc2, ?Hc3, ?Hst; [|auto with gol|auto with gol|lia].
      unfold sat_add32. f_equal; [f_equal|]; lia.
  - destruct (fold_count_no_child s _ Hp) as [Hcc' Hst'].
    rewrite Hcc' in Hcc. rewrite Hst' in Hst. injection Hcc as Hc1 Hc2 Hc3.
    rewrite IH; rewrite ?Hc1, ?Hc2, ?Hc3, ?Hst; done.
Qed.

(** What a run gave its children is counted once per child: a child recorded
    again (the same request decided again names the same run) adds nothing,
    the count is the number of distinct children, and the budget given away is
    the saturating sum of the limits each was first recorded with. *)
Theorem children_counted_once spec es :
  (N.of_nat (length (distinct_children ∅ es)) <= u32_max)%N ->
  children (fold spec es) = N.of_nat (length (distinct_children ∅ es)) /\
  given_steps (fold spec es) = N.min (total max_steps (distinct_children ∅ es)) u32_max /\
  given_model_calls (fold spec es) =
    N.min (total max_model_calls (distinct_children ∅ es)) u32_max.
Proof.
  intros H. pose proof (fold_left_children spec es fold_init) as Hf. simpl in Hf.
  unfold fold, fold_events. destruct (fold_left (fold_step spec) es fold_init).
  unfold child_counters in Hf. simpl in *.
  specialize (Hf ltac:(done) ltac:(done) ltac:(lia)). injection Hf as -> -> ->.
  split_and!; lia.
Qed.

(** ** Concrete runs *)

Definition calling : HarnessState := Running 1 0 false.

Lemma applicable_iff_acts_witness :
  applicable calling (EModelCall "p") sample_spec = true <->
  reduce calling (sample_event (EffectAuthorized (EModelCall "p"))) sample_spec <> (calling, []).
Proof. apply (applicable_iff_acts calling (EModelCall "p")). reflexivity. Defined.

Lemma failed_harness_ends_dispatch_witness :
  dispatch_is_terminal
    (dispatch (fold sample_spec [sample_event RunStarted; sample_event RunExpired])) = true.
Proof. apply failed_harness_ends_dispatch. vm_compute. reflexivity. Defined.

(** The run that completed before it started: the log has ended, the phase has
    not. *)
Lemma run_end_ends_dispatch_witness :
  dispatch_is_terminal (reduce_dispatch DQueued (sample_event (RunCompleted "done"))) = false.
Proof.
  destruct (dispatch_is_terminal _) eqn:E; [|reflexivity].
  pose proof (proj1 (run_end_ends_dispatch DQueued (sample_event (RunCompleted "done"))
    eq_refl eq_refl) E "done" eq_refl) as Hs. discriminate Hs.
Defined.

Lemma wait_ends_only_by_its_answer_witness :
  reduce (WaitingForTool 1 0 "echo" (id_of 7))
    (sample_event (ToolResult "echo" (id_of 7) 1 0 "hi")) sample_spec = (Running 1 0 true, []).
Proof.
  refine (proj1 (wait_ends_only_by_its_answer (WaitingForTool 1 0 "echo" (id_of 7))
    (sample_event (ToolResult "echo" (id_of 7) 1 0 "hi")) sample_spec eq_refl) _).
  exists "hi". reflexivity.
Defined.

Lemma children_counted_once_witness :
  let child := sample_event (ChildStarted (id_of 9) (id_of 2) (mkLimits 3 1)) in
  children (fold sample_spec [child; child]) = 1%N.
Proof.
  intros child. refine (proj1 (children_counted_once sample_spec [child; child] _)).
  vm_compute. discriminate.
Defined.

Lemma fold_terminal_sticks_witness :
  harness (fold sample_spec ([sample_event RunStarted; sample_event RunCancelled]
    ++ [sample_event (RunCompleted "late")])) = Cancelled.
Proof.
  apply (fold_terminal_sticks sample_spec
    [sample_event RunStarted; sample_event RunCancelled]).
  vm_compute. reflexivity.
Defined.
