(* ===== verification/Authorizer.v ===== *)
(** * The policy ([authorizer.rs])

    [authorize] decides every effect before it is performed.  [Permitted] is
    the policy it implements, stated as rules; [authorize_iff_permitted] shows
    that the code allows exactly what the rules permit, and
    [authorize_attenuates] that a run with fewer rights is never allowed
    more. *)

From S2P Require Import Prelude Protocol Uuids MemoryOwner.

Definition MODEL_CALL : string := "model.call".
Definition MEMORY_READ : string := "memory.read".
Definition MEMORY_WRITE : string := "memory.write".
Definition AGENT_DELEGATE : string := "agent.delegate".
Definition AGENT_MESSAGE : string := "agent.message".
Definition USER_ASK : string := "user.ask".

Section Authorize.
Context `{UuidCrate}.

Definition allow_capability (spec : RunSpec) (name : string) : PolicyDecision :=
  if existsb (fun held => bool_decide (held = mkCapability name)) (capabilities spec)
  then Allow
  else Deny ("missing capability: " +:+ name).

Definition allow_memory (spec : RunSpec) (capability : string) (scope : MemoryScope)
    : PolicyDecision :=
  let decision := allow_capability spec capability in
  if bool_decide (decision <> Allow) then decision
  else if bool_decide (scope = ScopeGlobal) then
    Deny "global memory is shared by every tenant and is not offered"
  else
    match memory_owner_id spec scope 0 with
    | Some _ => decision
    | None =>
        let key := match scope with ScopeWorkspace => WORKSPACE_ID | _ => SESSION_ID end in
        Deny ("no " +:+ key +:+ " in the run's metadata")
    end.

Definition check_message (spec : RunSpec) (effect : Effect) : PolicyDecision :=
  match effect with
  | ESendMessage _ body expects_reply reply_to timeout_secs =>
      let starts_task := bool_decide (reply_to = None) || expects_reply in
      if starts_task && (MAX_DELEGATION_HOPS <=? hop (lineage spec))%N then
        Deny ("messaging is already " +:+ pretty MAX_DELEGATION_HOPS +:+ " hops deep")
      else if (MAX_MESSAGE_BYTES <? String.length body)%nat then
        Deny ("a message body is at most " +:+ pretty (N.of_nat MAX_MESSAGE_BYTES) +:+ " bytes")
      else
        match timeout_secs with
        | Some seconds =>
            if negb expects_reply then Deny "only an ask has a timeout"
            else if negb ((1 <=? seconds)%N && (seconds <=? MAX_ASK_TIMEOUT_SECS)%N) then
              Deny ("an ask waits at most " +:+ pretty MAX_ASK_TIMEOUT_SECS +:+ " seconds")
            else Allow
        | None => Allow
        end
  | _ => Allow
  end.

Definition authorize (spec : RunSpec) (effect : Effect) (tools : list ToolDescriptor)
    : PolicyDecision :=
  match effect with
  | EComplete _ => Allow
  | EModelCall _ => allow_capability spec MODEL_CALL
  | EMemoryRead scope _ => allow_memory spec MEMORY_READ scope
  | EMemoryWrite scope _ _ => allow_memory spec MEMORY_WRITE scope
  | EToolCall name _ _ =>
      match List.find (fun tool => bool_decide (tool_name tool = name)) tools with
      | Some tool => allow_capability spec (cap_name (required_capability tool))
      | None => Deny ("unknown tool: " +:+ name)
      end
  | EDelegate _ _ =>
      match allow_capability spec AGENT_DELEGATE with
      | Allow =>
          if (MAX_DELEGATION_HOPS <=? hop (lineage spec))%N then
            Deny ("delegation is already " +:+ pretty MAX_DELEGATION_HOPS +:+ " hops deep")
          else Allow
      | decision => decision
      end
  | ESendMessage _ _ _ _ _ =>
      match allow_capability spec AGENT_MESSAGE with
      | Allow => check_message spec effect
      | decision => decision
      end
  | EAskUser prompt =>
      match allow_capability spec USER_ASK with
      | Allow =>
          if blank prompt then Deny "a question is empty"
          else if (MAX_MESSAGE_BYTES <? String.length prompt)%nat then
            Deny ("a question is over " +:+ pretty (N.of_nat MAX_MESSAGE_BYTES) +:+ " bytes")
          else Allow
      | decision => decision
      end
  | EExecute _ | ERequestApproval _ _ | EWait _ | EPublishArtifact _ _ _ =>
      Deny "effect is not implemented in this slice"
  end.

End Authorize.

(** ** The policy as rules *)

Definition holds (spec : RunSpec) (name : string) : Prop :=
  mkCapability name ∈ capabilities spec.

(** Whose memory a scope is must be known: session and workspace memory need
    their id, and there is no global memory. *)
Definition memory_offered (spec : RunSpec) (scope : MemoryScope) : Prop :=
  match scope with
  | ScopeSession => is_Some (metadata_id spec SESSION_ID)
  | ScopeWorkspace => is_Some (metadata_id spec WORKSPACE_ID)
  | ScopeGlobal => False
  | _ => True
  end.

Definition below_hop_cap (spec : RunSpec) : Prop := (hop (lineage spec) < MAX_DELEGATION_HOPS)%N.

(** A timeout is on an ask, from a second to a day. *)
Definition timeout_ok (expects_reply : bool) (timeout : option N) : Prop :=
  forall t, timeout = Some t -> expects_reply = true /\ (1 <= t <= MAX_ASK_TIMEOUT_SECS)%N.

Inductive Permitted (spec : RunSpec) (tools : list ToolDescriptor) : Effect -> Prop :=
| may_complete outcome : Permitted spec tools (EComplete outcome)
| may_call_model prompt : holds spec MODEL_CALL -> Permitted spec tools (EModelCall prompt)
| may_read scope key :
    holds spec MEMORY_READ -> memory_offered spec scope ->
    Permitted spec tools (EMemoryRead scope key)
| may_write scope key value :
    holds spec MEMORY_WRITE -> memory_offered spec scope ->
    Permitted spec tools (EMemoryWrite scope key value)
| may_call_tool before tool after name inp inv :
    tools = before ++ tool :: after -> tool_name tool = name ->
    Forall (fun t => tool_name t <> name) before ->
    required_capability tool ∈ capabilities spec ->
    Permitted spec tools (EToolCall name inp inv)
| may_delegate agent inp :
    holds spec AGENT_DELEGATE -> below_hop_cap spec -> Permitted spec tools (EDelegate agent inp)
| may_send to body expects_reply reply_to timeout :
    holds spec AGENT_MESSAGE ->
    (reply_to = None \/ expects_reply = true -> below_hop_cap spec) ->
    (String.length body <= MAX_MESSAGE_BYTES)%nat ->
    timeout_ok expects_reply timeout ->
    Permitted spec tools (ESendMessage to body expects_reply reply_to timeout)
| may_ask prompt :
    holds spec USER_ASK -> blank prompt = false ->
    (String.length prompt <= MAX_MESSAGE_BYTES)%nat ->
    Permitted spec tools (EAskUser prompt).

(** ** The code implements the rules *)

Section AuthorizeProofs.
Context `{UuidCrate}.

Lemma allow_capability_spec spec name :
  (allow_capability spec name = Allow /\ holds spec name) \/
  (allow_capability spec name = Deny ("missing capability: " +:+ name) /\ ~ holds spec name).
Proof.
  unfold allow_capability. destruct (existsb _ _) eqn:E; [left|right]; split; try done.
  - apply existsb_exists in E as (c & Hc & E). bool_to_prop. subst. by apply list_elem_of_In.
  - intros Hin. apply existsb_false_Forall in E. rewrite Forall_forall in E.
    specialize (E _ Hin). by rewrite bool_decide_true in E.
Qed.

Ltac by_capability spec name :=
  destruct (allow_capability_spec spec name) as [[-> ?]|[-> ?]].

Lemma memory_offered_owner spec scope step :
  is_Some (memory_owner_id spec scope step) <-> memory_offered spec scope.
Proof.
  rewrite memory_owner_id_text, fmap_is_Some.
  destruct scope; simpl; rewrite ?fmap_is_Some, ?is_Some_alt; done.
Qed.

Lemma allow_memory_spec spec cap scope :
  allow_memory spec cap scope = Allow <-> holds spec cap /\ memory_offered spec scope.
Proof.
  unfold allow_memory. pose proof (memory_offered_owner spec scope 0) as Ho.
  by_capability spec cap.
  - rewrite bool_decide_false by (intros Hn; by apply Hn). case_bool_decide as Hg.
    + subst. split; [done|]. by intros [_ []].
    + destruct (memory_owner_id spec scope 0); split; try done.
      * split; [done|]. apply Ho. eauto.
      * intros [_ Hm]. apply Ho in Hm as [? ?]. done.
  - rewrite bool_decide_true by done. split; [done|]. by intros [? _].
Qed.

Lemma find_split tools name tool :
  List.find (fun t => bool_decide (tool_name t = name)) tools = Some tool <->
  exists before after, tools = before ++ tool :: after /\ tool_name tool = name /\
    Forall (fun t => tool_name t <> name) before.
Proof.
  induction tools as [|t tools IH]; simpl.
  { split; [done|]. intros ([|??] & ? & ? & _); done. }
  case_bool_decide as Ht.
  - split.
    + intros [= <-]. by exists [], tools.
    + intros ([|b before] & after & E & Hn & Hb); simplify_eq/=; [done|].
      by apply Forall_inv in Hb.
  - rewrite IH. split.
    + intros (before & after & -> & Hn & Hb). exists (t :: before), after. auto.
    + intros ([|b before] & after & E & Hn & Hb); simplify_eq/=.
      apply Forall_cons in Hb as [_ Hb]. eauto.
Qed.

Lemma check_message_spec spec to body er rt timeout :
  check_message spec (ESendMessage to body er rt timeout) = Allow <->
  (rt = None \/ er = true -> below_hop_cap spec) /\
  (String.length body <= MAX_MESSAGE_BYTES)%nat /\ timeout_ok er timeout.
Proof.
  unfold check_message, timeout_ok, below_hop_cap.
  destruct (MAX_DELEGATION_HOPS <=? hop (lineage spec))%N eqn:Eh; bool_to_prop;
    destruct (MAX_MESSAGE_BYTES <? String.length body)%nat eqn:Eb; bool_to_prop;
    case_bool_decide; destruct er; simpl; try (naive_solver lia);
    destruct timeout as [t|]; simpl; try (naive_solver lia);
    destruct (1 <=? t)%N eqn:E1, (t <=? MAX_ASK_TIMEOUT_SECS)%N eqn:E2; bool_to_prop; simpl;
    naive_solver lia.
Qed.

#[local] Arguments check_message : simpl never.

Lemma authorize_permitted spec eff tools :
  authorize spec eff tools = Allow <-> Permitted spec tools eff.
Proof.
  split.
  - destruct eff; simpl; try done.
    + by_capability spec MODEL_CALL; [by constructor|done].
    + destruct (List.find _ tools) as [t|] eqn:Ef; [|done].
      apply find_split in Ef as (before & after & -> & Hn & Hb).
      by_capability spec (cap_name (required_capability t)); [|done]. intros _.
      eapply may_call_tool; try done. unfold holds in *. by destruct (required_capability t).
    + intros [? ?]%allow_memory_spec. by constructor.
    + intros [? ?]%allow_memory_spec. by constructor.
    + by_capability spec AGENT_DELEGATE; [|done].
      destruct (_ <=? _)%N eqn:E; [done|]. bool_to_prop. by constructor.
    + by_capability spec AGENT_MESSAGE; [|done].
      intros (? & ? & ?)%check_message_spec. by constructor.
    + by_capability spec USER_ASK; [|done]. destruct (blank prompt) eqn:Eb; [done|].
      destruct (_ <? _)%nat eqn:El; [done|]. bool_to_prop. by constructor.
    + by constructor.
  - destruct 1; simpl; try done.
    + by_capability spec MODEL_CALL; done.
    + by apply allow_memory_spec.
    + by apply allow_memory_spec.
    + assert (List.find (fun t => bool_decide (tool_name t = name)) tools = Some tool) as ->
        by (apply find_split; eauto).
      by_capability spec (cap_name (required_capability tool)); [done|].
      unfold holds in *. by destruct (required_capability tool).
    + by_capability spec AGENT_DELEGATE; [|done]. unfold below_hop_cap in *.
      destruct (_ <=? _)%N eqn:E; [|done]. bool_to_prop. lia.
    + by_capability spec AGENT_MESSAGE; [|done]. by apply check_message_spec.
    + by_capability spec USER_ASK; [|done]. rewrite H1.
      destruct (_ <? _)%nat eqn:El; [|done]. bool_to_prop. lia.
Qed.

(** The authorizer only ever allows or denies. *)
Lemma authorize_allow_or_deny spec eff tools :
  authorize spec eff tools = Allow \/ exists reason, authorize spec eff tools = Deny reason.
Proof.
  unfold authorize, check_message, allow_memory.
  destruct eff; eauto;
    repeat match goal with
    | |- context [allow_capability spec ?n] => by_capability spec n
    | _ => split_match
    end; eauto.
Qed.

(** C5. The authorizer implements the policy: for every run, effect and set of
    tools, [authorize] answers [Allow] exactly when the rules permit the effect
    (the capability of the effect's kind; a known tool, whose first descriptor
    of that name counts; an owner for the memory; the hop cap for what starts a
    task; the bounds of messages, questions and timeouts), and otherwise a
    [Deny] with a reason, never one of the other decisions. *)
Theorem authorize_iff_permitted spec eff tools :
  (authorize spec eff tools = Allow <-> Permitted spec tools eff) /\
  (~ Permitted spec tools eff -> exists reason, authorize spec eff tools = Deny reason).
Proof.
  pose proof (authorize_permitted spec eff tools) as Hp. split; [done|].
  intros Hn. destruct (authorize_allow_or_deny spec eff tools) as [Ha|Hd]; [|done]. by apply Hp in Ha.
Qed.

(** Rights only shrink: what is permitted to a run that holds a subset of
    another's capabilities, is at least as many hops deep and names a session
    and a workspace only where the other does, is permitted to the other. *)
Lemma permitted_attenuates child parent eff tools :
  capabilities child ⊆ capabilities parent ->
  (hop (lineage parent) <= hop (lineage child))%N ->
  (is_Some (metadata_id child SESSION_ID) -> is_Some (metadata_id parent SESSION_ID)) ->
  (is_Some (metadata_id child WORKSPACE_ID) -> is_Some (metadata_id parent WORKSPACE_ID)) ->
  Permitted child tools eff -> Permitted parent tools eff.
Proof.
  intros Hc Hh Hs Hw.
  assert (forall n, holds child n -> holds parent n) as Hcap by (intros n; apply Hc).
  assert (below_hop_cap child -> below_hop_cap parent) as Hhop by (unfold below_hop_cap; lia).
  assert (forall sc, memory_offered child sc -> memory_offered parent sc) as Hm
    by (intros []; simpl; auto).
  destruct 1; econstructor; eauto.
Qed.

(** Rights only shrink: a run that holds a subset of another's capabilities,
    is at least as many hops deep and names the same session and workspace is
    allowed no effect the other is denied. *)
Theorem authorize_attenuates child parent eff tools :
  capabilities child ⊆ capabilities parent ->
  (hop (lineage parent) <= hop (lineage child))%N ->
  metadata_id child SESSION_ID = metadata_id parent SESSION_ID ->
  metadata_id child WORKSPACE_ID = metadata_id parent WORKSPACE_ID ->
  authorize child eff tools = Allow -> authorize parent eff tools = Allow.
Proof.
  intros Hc Hh Hs Hw. rewrite !authorize_permitted.
  apply permitted_attenuates; [done|done|by rewrite Hs|by rewrite Hw].
Qed.

End AuthorizeProofs.

(** ** Concrete decisions *)

Definition with_caps (names : list string) (spec : RunSpec) : RunSpec :=
  mkRunSpec (run_id spec) (owner spec) (agent_id spec) (agent_version spec) (input spec)
    (placement spec) (work_model spec) (mkCapability <$> names) (limits spec) (metadata spec)
    (lineage spec).

Lemma authorize_iff_permitted_witness :
  exists reason,
    authorize (H := hyphenated) sample_spec (EModelCall "hi") [] = Deny reason.
Proof.
  apply (authorize_iff_permitted (H := hyphenated) sample_spec (EModelCall "hi") []).
  intros Hp. inversion Hp as [|? Hh| | | | | |]. inversion Hh.
Defined.

Lemma authorize_attenuates_witness :
  authorize (H := hyphenated) (with_caps [AGENT_DELEGATE; MODEL_CALL] sample_spec)
    (EModelCall "hi") [] = Allow.
Proof.
  apply (authorize_attenuates (H := hyphenated) (with_caps [MODEL_CALL] sample_spec)).
  - intros c Hc. right. exact Hc.
  - reflexivity || (intros E; discriminate E).
  - reflexivity.
  - reflexivity.
  - vm_compute. reflexivity.
Defined.
