(* ===== verification/Driver.v ===== *)
(** * The driver ([harness/driver.rs] and the traits it calls)

    A [Driver] carries one run: it asks a decider for the next effect,
    authorizes it, performs it and records every step in the run's log.  What
    it calls is outside of it: the decider, the tools, the model gateway, the
    memory, the spawner and the deliverer are functions over a [World] state,
    which also holds the clock and the source of random ids.  Each operation
    is a function from the driver and the world to a result, the driver and
    the world after it.

    [run_until]'s loop is a [Fixpoint] with fuel; [DriverProofs] shows how
    much is enough. *)

From S2P Require Import Prelude Protocol Uuids MemoryOwner Reduce Authorizer.

(** ** The traits of the harness crate *)

(** decider.rs *)
Record Skill : Type := mkSkill { skill_name : string; skill_body : string }.

(** spawner.rs *)
Record DelegateTarget : Type := mkDelegateTarget {
  target_agent_id : AgentId;
  target_name : string;
  target_description : string;
}.

Record ChildRequest : Type := mkChildRequest {
  cr_parent : RunSpec;
  cr_step : N;
  cr_agent_id : AgentId;
  cr_input : string;
  cr_limits : Limits;
}.

Record StartedChild : Type := mkStartedChild {
  sc_run_id : RunId;
  sc_limits : Limits;
}.

(** message.rs *)
Record MessageRequest : Type := mkMessageRequest {
  mq_from : RunSpec;
  mq_decision : N;
  mq_to : AgentId;
  mq_body : string;
  mq_expects_reply : bool;
  mq_reply_to : option MessageId;
  mq_timeout_secs : option N;
  mq_limits : option Limits;
}.

Record SentMessage : Type := mkSentMessage {
  sm_message_id : MessageId;
  sm_task : option StartedChild;
}.

(** decider.rs *)
Record DecisionView : Type := mkDecisionView {
  dv_spec : RunSpec;
  dv_state : RunState;
  dv_events : list Event;
  dv_tools : list ToolDescriptor;
  dv_skills : list Skill;
  dv_agents : list DelegateTarget;
  dv_messaging : bool;
  dv_asking : bool;
  dv_steps_exhausted : bool;
  dv_model_calls_exhausted : bool;
}.

Record DeciderError : Type := mkDeciderError { de_message : string }.

(** The clock and the random ids: [Timestamp::now()] with [EventId::new()],
    drawn together for each event, and [MessageId::new()]. *)
Class World (W : Type) : Type := {
  w_stamp : W -> (Timestamp * EventId) * W;
  w_message_id : W -> MessageId * W;
}.

(** A world whose memory is one run's [RunMemory], over a shared memory. *)
Class RunWorld (W Shared : Type) `{Memory W} `{Memory Shared} : Type := {
  w_memory : W -> RunMemory Shared;
  w_set_memory : W -> RunMemory Shared -> W;
  w_mem_read w own key : mem_read w own key = mem_read (w_memory w) own key;
  w_mem_write w own key value :
    mem_write w own key value =
      let '(r, m) := mem_write (w_memory w) own key value in (r, w_set_memory w m);
  w_get_set w m : w_memory (w_set_memory w m) = m;
  w_set_get w : w_set_memory w (w_memory w) = w;
}.

(** What a later call, or another process, resumes the run in: a new
    [RunMemory] over the shared memory. *)
Definition restarted `{RunWorld W Shared} (w : W) : W :=
  w_set_memory w (run_memory_new (rm_shared (w_memory w))).

Section Traits.
Context (W : Type).

Definition AgentSpawner := ChildRequest -> W -> result StartedChild string * W.
Definition MessageDeliverer := MessageRequest -> W -> result SentMessage string * W.
Definition Decider := DecisionView -> W -> result Effect DeciderError * W.

(** model.rs: [complete] and [complete_with_usage]. *)
Definition ModelCompletion := ModelRequest -> W -> result (ModelMessage * option Usage) string * W.

(** The default [complete_with_usage] of a model that reports no usage. *)
Definition default_with_usage (complete : ModelRequest -> W -> result ModelMessage string * W)
    : ModelCompletion :=
  fun request w =>
    match complete request w with
    | (Ok message, w) => (Ok (message, None), w)
    | (Err e, w) => (Err e, w)
    end.

Definition UnavailableModel : ModelCompletion :=
  default_with_usage (fun _ w => (Err "no model gateway", w)).

(** echo.rs: a tool, and the echo tool. *)
Record Tool : Type := mkTool {
  descriptor : ToolDescriptor;
  call : string -> W -> result string string * W;
}.

End Traits.
Arguments descriptor {W} t.
Arguments call {W} t _ _.
Arguments mkTool {W} _ _.
Arguments UnavailableModel {W}.

(** A text between double quotes. *)
Definition quoted (s : string) : string :=
  let quote := String (Ascii.ascii_of_N 34) EmptyString in quote +:+ s +:+ quote.

Definition EchoTool_descriptor : ToolDescriptor :=
  let schema := "{" +:+ quoted "type" +:+ ":" +:+ quoted "string" +:+ "}" in
  mkToolDescriptor (id_of 0x3b1c9c0a4e2d4b7a9c118a0e5d2f6b41) "echo" "Returns the input text."
    schema schema (mkCapability "tool.echo").

Definition EchoTool {W} : Tool W := mkTool EchoTool_descriptor (fun input w => (Ok input, w)).

(** ** The driver *)

Inductive BootError := BootUnsupportedPlacement (p : ExecutionPlacement).

Inductive ResumeError :=
| ResumeUnsupportedPlacement (p : ExecutionPlacement)
| NotStartable (d : DispatchPhase).

Inductive Boundary := Continue | Cancel | Pause.

Section Driver.
Context `{UuidCrate} {W : Type} `{World W} `{Memory W}.

Record Driver : Type := mkDriver {
  d_spec : RunSpec;
  d_events : list Event;
  d_skills : list Skill;
  d_loaded : option (list (Tool W));
  d_spawner : option (AgentSpawner W);
  d_deliverer : option (MessageDeliverer W);
  d_user_questions : bool;
  d_targets : list DelegateTarget;
  d_pending : list Effect;
  d_undecided : option (HarnessState * Effect);
  d_resumed : bool;
}.

(** The driver [boot] and [resume] build before anything is recorded. *)
Definition driver_new (spec : RunSpec) (events : list Event) : Driver :=
  mkDriver spec events [] None None None false [] [] None false.

Definition set_events (d : Driver) (es : list Event) : Driver :=
  mkDriver (d_spec d) es (d_skills d) (d_loaded d) (d_spawner d) (d_deliverer d)
    (d_user_questions d) (d_targets d) (d_pending d) (d_undecided d) (d_resumed d).

Definition set_loaded (d : Driver) (tools : option (list (Tool W))) : Driver :=
  mkDriver (d_spec d) (d_events d) (d_skills d) tools (d_spawner d) (d_deliverer d)
    (d_user_questions d) (d_targets d) (d_pending d) (d_undecided d) (d_resumed d).

(** Sets what [run_until] does first. *)
Definition set_first (d : Driver) (pending : list Effect)
    (undecided : option (HarnessState * Effect)) (resumed : bool) : Driver :=
  mkDriver (d_spec d) (d_events d) (d_skills d) (d_loaded d) (d_spawner d) (d_deliverer d)
    (d_user_questions d) (d_targets d) pending undecided resumed.

Definition with_deliverer (d : Driver) (deliverer : MessageDeliverer W) : Driver :=
  mkDriver (d_spec d) (d_events d) (d_skills d) (d_loaded d) (d_spawner d) (Some deliverer)
    (d_user_questions d) (d_targets d) (d_pending d) (d_undecided d) (d_resumed d).

Definition with_user_questions (d : Driver) : Driver :=
  mkDriver (d_spec d) (d_events d) (d_skills d) (d_loaded d) (d_spawner d) (d_deliverer d)
    true (d_targets d) (d_pending d) (d_undecided d) (d_resumed d).

Definition with_spawner (d : Driver) (spawner : AgentSpawner W)
    (targets : list DelegateTarget) : Driver :=
  mkDriver (d_spec d) (d_events d) (d_skills d) (d_loaded d) (Some spawner) (d_deliverer d)
    (d_user_questions d) targets (d_pending d) (d_undecided d) (d_resumed d).

Definition push (d : Driver) (w : W) (p : EventPayload) (a : Actor) : Driver * W :=
  let '((t, fresh), w) := w_stamp w in
  (set_events d (d_events d ++ [record fresh (event_source_for_spec (d_spec d) a t) p]), w).

Definition log_ended (d : Driver) : bool :=
  existsb (fun event => is_run_end (payload event)) (d_events d).

Definition state (d : Driver) : RunState := fold (d_spec d) (d_events d).

Definition reduce_effects (s : HarnessState) (event : Event) (spec : RunSpec) : list Effect :=
  snd (reduce s event spec).

Definition effects_of_last (spec : RunSpec) (events : list Event) : list Effect :=
  match last events with
  | None => []
  | Some l =>
      let prior := fold spec (take (length events - 1) events) in
      reduce_effects (harness prior) l spec
  end.

Definition describe (s : HarnessState) : string :=
  match s with
  | Idle => "idle"
  | Running _ _ true => "running, answered"
  | Running _ _ _ => "running"
  | WaitingForTool _ _ _ _ => "waiting for a tool"
  | WaitingForMessage _ _ _ => "waiting for a reply"
  | Completed _ | Failed _ _ | Cancelled => "finished"
  end.

Definition boot (spec : RunSpec) (w : W) : result Driver BootError * W :=
  let '(d, w) := push (driver_new spec []) w RunStarted ActorSystem in (Ok d, w).

Definition is_run_started (p : EventPayload) : bool :=
  match p with RunStarted => true | _ => false end.

Definition resume (spec : RunSpec) (events : list Event) (w : W)
    : result Driver ResumeError * W :=
  let started := existsb (fun event => is_run_started (payload event)) events in
  let ended := existsb (fun event => is_run_end (payload event)) events in
  let driver := driver_new spec events in
  if ended then (Ok driver, w)
  else
    let st := state driver in
    if negb started then
      match dispatch st with
      | DCreated | DStarting =>
          let '(d, w) := push driver w RunStarted ActorSystem in (Ok d, w)
      | other => (Err (NotStartable other), w)
      end
    else
      let driver := set_first driver [] None true in
      match harness st with
      | Completed outcome =>
          let '(d, w) := push driver w (RunCompleted outcome) ActorSystem in (Ok d, w)
      | h =>
          if harness_is_terminal h then (Ok driver, w)
          else
            match payload <$> last events with
            | Some (EffectDecided effect) =>
                let before := take (length events - 1) events in
                (Ok (set_first driver [] (Some (harness (fold spec before), effect)) true), w)
            | _ => (Ok (set_first driver (effects_of_last spec events) None true), w)
            end
      end.

(** The parts of a [LoadedCatalog]. *)
Definition boot_with_catalog (spec : RunSpec) (catalog : list (Tool W) * list Skill) (w : W)
    : result Driver BootError * W :=
  match boot spec w with
  | (Ok d, w) =>
      let '(tools, skills) := catalog in
      (Ok (mkDriver (d_spec d) (d_events d) skills (Some tools) (d_spawner d) (d_deliverer d)
             (d_user_questions d) (d_targets d) (d_pending d) (d_undecided d) (d_resumed d)), w)
  | (Err e, w) => (Err e, w)
  end.

Definition cancel (d : Driver) (w : W) : Driver * W := push d w RunCancelled ActorSystem.

Definition retry (d : Driver) (w : W) : Driver * W := push d w StepRetried ActorSystem.

Definition deliver_tool_result (d : Driver) (w : W) (name : string) (invocation : InvocationId)
    (output : string) : bool * (Driver * W) :=
  match harness (state d) with
  | WaitingForTool step attempt expected_name expected_invocation =>
      if bool_decide (name <> expected_name) || bool_decide (invocation <> expected_invocation)
      then (false, (d, w))
      else (true, push d w (ToolResult name invocation step attempt output) ActorTool)
  | _ => (false, (d, w))
  end.

(** Authorizes the effect the log just recorded as decided, from the harness
    state before that decision, and returns what to perform. *)
Definition authorize_decided (d : Driver) (w : W) (h : HarnessState) (effect : Effect)
    (tools : list ToolDescriptor) : list Effect * (Driver * W) :=
  match authorize (d_spec d) effect tools with
  | Allow =>
      if negb (applicable h effect (d_spec d)) then
        let reason := "not applicable while " +:+ describe h in
        ([], push d w (EffectDenied effect reason) ActorSystem)
      else
        let '(d, w) := push d w (EffectAuthorized effect) ActorPolicy in
        let '(d, w) :=
          match effect, harness (state d) with
          | EComplete outcome, Completed _ => push d w (RunCompleted outcome) ActorSystem
          | _, _ => (d, w)
          end in
        (effects_of_last (d_spec d) (d_events d), (d, w))
  | Deny reason => ([], push d w (EffectDenied effect reason) ActorPolicy)
  | RequireApproval | Modify | Limit | Redirect =>
      ([], push d w (EffectDenied effect "effect is not implemented in this slice") ActorPolicy)
  end.

Definition steps_spent (spec : RunSpec) (st : RunState) : bool :=
  (max_steps (limits spec) <=? sat_add32 (steps st) (given_steps st))%N.

Definition model_calls_spent (spec : RunSpec) (st : RunState) : bool :=
  (max_model_calls (limits spec) <=? sat_add32 (model_calls st) (given_model_calls st))%N.

Definition over_budget (spec : RunSpec) (st : RunState) (effect : Effect) : bool :=
  match effect with
  | EComplete _ => if is_running (harness st) then false else steps_spent spec st
  | EModelCall _ => steps_spent spec st || model_calls_spent spec st
  | _ => steps_spent spec st
  end.

Definition decision_view (d : Driver) (tools : list ToolDescriptor) (skills : list Skill)
    : DecisionView :=
  let st := state d in
  mkDecisionView (d_spec d) st (d_events d) tools skills (d_targets d)
    (bool_decide (is_Some (d_deliverer d))) (d_user_questions d)
    (steps_spent (d_spec d) st) (model_calls_spent (d_spec d) st).

Definition decide_with_skills (d : Driver) (w : W) (decider : Decider W)
    (tools : list ToolDescriptor) (skills : list Skill)
    : result (list Effect) DeciderError * (Driver * W) :=
  let st := state d in
  if harness_is_terminal (harness st) then (Ok [], (d, w))
  else
    match decider (decision_view d tools skills) w with
    | (Err e, w) => (Err e, (d, w))
    | (Ok effect, w) =>
        if over_budget (d_spec d) st effect then
          (Ok [], push d w (RunFailed FcBudget "limit hit") ActorSystem)
        else
          let '(d, w) := push d w (EffectDecided effect) ActorAgent in
          let '(effects, dw) := authorize_decided d w (harness st) effect tools in
          (Ok effects, dw)
    end.

(** [Driver::decide]. *)
Definition driver_decide (d : Driver) (w : W) (decider : Decider W)
    (tools : list ToolDescriptor) : result (list Effect) DeciderError * (Driver * W) :=
  decide_with_skills d w decider tools (d_skills d).

Definition advance_answered_step (d : Driver) (w : W) : Driver * W :=
  match harness (state d) with
  | Running step _ true =>
      if (max_steps (limits (d_spec d)) <=? step)%N then (d, w)
      else push d w StepAdvanced ActorSystem
  | _ => (d, w)
  end.

Definition memory_key (d : Driver) (scope : MemoryScope) : option MemoryKey :=
  let step :=
    match harness (state d) with
    | Running step _ _ | WaitingForTool step _ _ _ => step
    | _ => 0%N
    end in
  memory_key_of (d_spec d) scope step.

(** [{scope:?}]. *)
Definition scope_debug (scope : MemoryScope) : string :=
  match scope with
  | ScopeStep => "Step" | ScopeRun => "Run" | ScopeSession => "Session"
  | ScopeAgent => "Agent" | ScopeWorkspace => "Workspace" | ScopeUser => "User"
  | ScopeOrganization => "Organization" | ScopeGlobal => "Global"
  end.

Definition fail_unowned (d : Driver) (w : W) (scope : MemoryScope) : Driver * W :=
  push d w
    (RunFailed FcPolicy
       ("memory " +:+ scope_debug scope +:+ ": the run names no owner for it")) ActorSystem.

(** The store's own message goes to standard error only. *)
Definition fail_memory (d : Driver) (w : W) (operation : string) : Driver * W :=
  push d w (RunFailed FcInfrastructure ("memory " +:+ operation +:+ ": store unavailable"))
    ActorSystem.

Definition left_of (max used given : N) : N := sat_sub32 max (sat_add32 used given).

Definition carve (d : Driver) (st : RunState) : result Limits string :=
  let l := limits (d_spec d) in
  let steps_left := left_of (max_steps l) (steps st) (given_steps st) in
  let model_calls_left := left_of (max_model_calls l) (model_calls st) (given_model_calls st) in
  if negb (is_running (harness st)) then Err "the run is not running"
  else if (MAX_CHILDREN <=? children st)%N then
    Err ("already started " +:+ pretty MAX_CHILDREN +:+ " children")
  else if (steps_left <? 2)%N || (model_calls_left <? 2)%N then
    Err "not enough budget left to give a child"
  else Ok (mkLimits (steps_left / 2) (model_calls_left / 2)).

Definition delegate (d : Driver) (w : W) (agent : AgentId) (inp : string) : Driver * W :=
  let st := state d in
  let refused := carve d st in
  let step := match harness st with Running step _ _ => step | _ => 0%N end in
  let '(started, w) :=
    match refused with
    | Err reason => (Err reason, w)
    | Ok given =>
        match d_spawner d with
        | None => (Err "no agent spawner is configured", w)
        | Some spawner => spawner (mkChildRequest (d_spec d) step agent inp given) w
        end
    end in
  let p :=
    match started with
    | Ok child => ChildStarted (sc_run_id child) agent (sc_limits child)
    | Err reason => DelegateRefused agent reason
    end in
  push d w p ActorSystem.

Definition ask_user (d : Driver) (w : W) (prompt : string) : Driver * W :=
  if d_user_questions d then
    let '(message_id, w) := w_message_id w in
    push d w (UserAsked message_id prompt) ActorSystem
  else push d w (UserAskRefused "the run cannot wait for an answer") ActorSystem.

Definition send_message (d : Driver) (w : W) (to : AgentId) (body : string)
    (expects_reply : bool) (reply_to : option MessageId) (timeout_secs : option N)
    : Driver * W :=
  let st := state d in
  let starts_task := bool_decide (reply_to = None) || expects_reply in
  let budget :=
    if negb (is_running (harness st)) then Err "the run is not running"
    else if negb (bool_decide (is_Some (d_deliverer d))) then Err "no message deliverer is configured"
    else if starts_task then (let? l := carve d st in Ok (Some l))%rust
    else Ok None in
  let '(sent, w) :=
    match budget with
    | Err reason => (Err reason, w)
    | Ok l =>
        match d_deliverer d with
        | None => (Err "no message deliverer is configured", w)
        | Some deliverer =>
            deliverer (mkMessageRequest (d_spec d) (steps st) to body expects_reply reply_to
                         timeout_secs l) w
        end
    end in
  match sent with
  | Ok sent =>
      let '(d, w) :=
        match sm_task sent with
        | Some task => push d w (ChildStarted (sc_run_id task) to (sc_limits task)) ActorSystem
        | None => (d, w)
        end in
      push d w (MessageSent (sm_message_id sent) to expects_reply) ActorSystem
  | Err reason => push d w (MessageRefused to reason) ActorSystem
  end.

(** One effect of [perform]'s loop.  [true] goes on with the next effect,
    [false] is the [return] after a failure. *)
Definition perform_one (d : Driver) (w : W) (effect : Effect) (tools : list (Tool W))
    (models : ModelCompletion W) : bool * (Driver * W) :=
  match effect with
  | EToolCall name inp invocation =>
      match harness (state d) with
      | WaitingForTool _ _ waiting_name waiting_invocation =>
          if bool_decide (waiting_name <> name) || bool_decide (waiting_invocation <> invocation)
          then (true, (d, w))
          else
            match List.find (fun tool => bool_decide (tool_name (descriptor tool) = name)) tools with
            | None => (false, push d w (RunFailed FcTool ("unknown tool: " +:+ name)) ActorSystem)
            | Some tool =>
                match call tool inp w with
                | (Ok output, w) => (true, snd (deliver_tool_result d w name invocation output))
                | (Err message, w) => (false, push d w (RunFailed FcTool message) ActorSystem)
                end
            end
      | _ => (true, (d, w))
      end
  | EModelCall prompt =>
      let request :=
        mkModelRequest (wm_provider (work_model (d_spec d)))
          (wm_model_name (work_model (d_spec d))) prompt in
      match models request w with
      | (Ok (message, usage), w) => (true, push d w (ModelResponded message usage) ActorGateway)
      | (Err message, w) => (true, push d w (RunFailed FcDependency message) ActorGateway)
      end
  | EMemoryRead scope key =>
      match memory_key d scope with
      | None => (false, fail_unowned d w scope)
      | Some own =>
          match mem_read w own key with
          | Ok value => (true, push d w (MemoryRead scope key value) ActorSystem)
          | Err _ => (false, fail_memory d w "read")
          end
      end
  | EMemoryWrite scope key value =>
      match memory_key d scope with
      | None => (false, fail_unowned d w scope)
      | Some own =>
          match mem_write w own key value with
          | (Ok _, w) => (true, push d w (MemoryWritten scope key value) ActorSystem)
          | (Err _, w) => (false, fail_memory d w "write")
          end
      end
  | EDelegate agent inp => (true, delegate d w agent inp)
  | ESendMessage to body expects_reply reply_to timeout_secs =>
      (true, send_message d w to body expects_reply reply_to timeout_secs)
  | EAskUser prompt => (true, ask_user d w prompt)
  | EComplete _ | EExecute _ | ERequestApproval _ _ | EWait _ | EPublishArtifact _ _ _ =>
      (true, (d, w))
  end.

Fixpoint perform (d : Driver) (w : W) (effects : list Effect) (tools : list (Tool W))
    (models : ModelCompletion W) : Driver * W :=
  match effects with
  | [] => (d, w)
  | effect :: effects =>
      match perform_one d w effect tools models with
      | (true, (d, w)) => perform d w effects tools models
      | (false, dw) => dw
      end
  end.

Section Loop.
Context (decider : Decider W) (tools : list (Tool W)) (models : ModelCompletion W)
  (at_boundary : Driver -> W -> Boundary * W).

Let descriptors : list ToolDescriptor := descriptor <$> tools.

(** [run_until]'s loop.  [None]: the fuel ran out. *)
Fixpoint run_loop (fuel : nat) (d : Driver) (w : W)
    : option (result unit DeciderError * (Driver * W)) :=
  match fuel with
  | O => None
  | S fuel =>
      if harness_is_terminal (harness (state d)) || log_ended d then Some (Ok tt, (d, w))
      else
        match at_boundary d w with
        | (Cancel, w) => Some (Ok tt, cancel d w)
        | (Pause, w) => Some (Ok tt, (d, w))
        | (Continue, w) =>
            match harness (state d) with
            | WaitingForMessage _ _ _ => Some (Ok tt, (d, w))
            | _ =>
                match driver_decide d w decider descriptors with
                | (Err e, dw) => Some (Err e, dw)
                | (Ok [], (d, w)) =>
                    if harness_is_terminal (harness (state d)) then Some (Ok tt, (d, w))
                    else run_loop fuel d w
                | (Ok effects, (d, w)) =>
                    let '(d, w) := perform d w effects tools models in
                    let '(d, w) := advance_answered_step d w in
                    run_loop fuel d w
                end
            end
        end
  end.

(** What [run_until] does before its loop: finish the step the log was cut
    in. *)
Definition run_first (d : Driver) (w : W) : Driver * W :=
  let pending := d_pending d in
  let undecided := d_undecided d in
  let was_resumed := d_resumed d in
  let d := set_first d [] None false in
  let '(pending, (d, w)) :=
    match undecided with
    | Some (h, effect) => authorize_decided d w h effect descriptors
    | None => (pending, (d, w))
    end in
  if was_resumed then
    let '(d, w) := perform d w pending tools models in
    advance_answered_step d w
  else (d, w).

Definition run_until (fuel : nat) (d : Driver) (w : W)
    : option (result unit DeciderError * (Driver * W)) :=
  let '(d, w) := run_first d w in run_loop fuel d w.

End Loop.

Definition run_to_completion (decider : Decider W) (tools : list (Tool W))
    (models : ModelCompletion W) (fuel : nat) (d : Driver) (w : W)
    : option (result unit DeciderError * (Driver * W)) :=
  run_until decider tools models (fun _ w => (Continue, w)) fuel d w.

(** The loaded tools are taken for the run and put back after it. *)
Definition run_loaded (decider : Decider W) (models : ModelCompletion W)
    (fuel : nat) (d : Driver) (w : W) : option (result unit DeciderError * (Driver * W)) :=
  let tools := default [] (d_loaded d) in
  match run_to_completion decider tools models fuel (set_loaded d None) w with
  | Some (r, (d, w)) => Some (r, (set_loaded d (Some tools), w))
  | None => None
  end.

End Driver.
Arguments Driver W : clear implicits.

(** ** A scripted decider, and a concrete world *)

(** [ScriptedDecider]: its state is the effects it has left. *)
Definition scripted_decide (script : list Effect)
    : result Effect DeciderError * list Effect :=
  match script with
  | effect :: script => (Ok effect, script)
  | [] => (Err (mkDeciderError "scripted decider has no further effect"), [])
  end.

(** A world with a counter for the clock and the ids, a script and a memory. *)
Record Sim : Type := mkSim {
  sim_next : N;
  sim_script : list Effect;
  sim_memory : RunMemory InMemory;
}.

Definition sim_tick (s : Sim) : Sim := mkSim (sim_next s + 1) (sim_script s) (sim_memory s).

#[export] Instance Sim_world : World Sim := {|
  w_stamp s := ((Z.of_N (sim_next s), id_of (sim_next s)), sim_tick s);
  w_message_id s := (id_of (sim_next s), sim_tick s);
|}.

#[export] Instance Sim_memory : Memory Sim := {|
  mem_read s own key := mem_read (sim_memory s) own key;
  mem_write s own key value :=
    let '(r, m) := mem_write (sim_memory s) own key value in
    (r, mkSim (sim_next s) (sim_script s) m);
|}.

#[export] Instance Sim_run_world : RunWorld Sim InMemory.
Proof.
  refine {| w_memory := sim_memory; w_set_memory s m := mkSim (sim_next s) (sim_script s) m |};
    try reflexivity.
  by intros [].
Defined.

Definition sim_decider : Decider Sim := fun _ s =>
  let '(r, script) := scripted_decide (sim_script s) in
  (r, mkSim (sim_next s) script (sim_memory s)).

Definition sim_world (script : list Effect) : Sim :=
  mkSim 100 script (run_memory_new in_memory_default).

(** A driver that booted [spec] in that world, and the world after it. *)
Definition sim_boot (spec : RunSpec) (script : list Effect) : Driver Sim * Sim :=
  push (driver_new spec []) (sim_world script) RunStarted ActorSystem.

Definition echo_spec : RunSpec := with_caps ["tool.echo"; "memory.write"; "memory.read"] sample_spec.

Definition echo_script : list Effect :=
  [EToolCall "echo" "ping" (id_of 7); EMemoryWrite ScopeRun "k" "v"; EMemoryRead ScopeRun "k";
   EModelCall "not allowed"; EComplete "done"].

Definition sim_run (fuel : nat) (dw : Driver Sim * Sim) :=
  run_to_completion (H := hyphenated) sim_decider [EchoTool] UnavailableModel fuel dw.1 dw.2.

Example echo_run :
  (fun r => (r.1, payload <$> d_events r.2.1)) <$> sim_run 10 (sim_boot echo_spec echo_script) =
  Some (Ok tt,
    [RunStarted;
     EffectDecided (EToolCall "echo" "ping" (id_of 7));
     EffectAuthorized (EToolCall "echo" "ping" (id_of 7));
     ToolResult "echo" (id_of 7) 1 0 "ping"; StepAdvanced;
     EffectDecided (EMemoryWrite ScopeRun "k" "v");
     EffectAuthorized (EMemoryWrite ScopeRun "k" "v"); MemoryWritten ScopeRun "k" "v";
     EffectDecided (EMemoryRead ScopeRun "k"); EffectAuthorized (EMemoryRead ScopeRun "k");
     MemoryRead ScopeRun "k" (Some "v");
     EffectDecided (EModelCall "not allowed");
     EffectDenied (EModelCall "not allowed") "missing capability: model.call";
     EffectDecided (EComplete "done"); EffectAuthorized (EComplete "done");
     RunCompleted "done"]).
Proof. vm_compute. reflexivity. Qed.
