(* ===== verification/DriverTurns.v ===== *)
(** * What a driver records: the turns of a run

    An abstract specification of the driver's log, on payloads: [turn] is one
    decision with everything recorded for it, [recovery] what a resumed run
    records first, and [runs] a whole run.  [run_loop_runs] and
    [run_first_recovers] show that the driver's operations refine it. *)

From S2P Require Import Prelude Protocol Uuids MemoryOwner Reduce Authorizer Driver.

(** ** Logs as payloads *)

(** The fold only looks at payloads. *)
Definition fold_payload (spec : RunSpec) (s : FoldState) (p : EventPayload) : FoldState :=
  fold_step spec s (sample_event p).

Definition after (spec : RunSpec) (s : FoldState) (ps : list EventPayload) : FoldState :=
  fold_left (fold_payload spec) ps s.

(** The fold of a log of payloads. *)
Abbreviation folded spec ps := (after spec fold_init ps).

Lemma reduce_payload s e e' spec :
  payload e = payload e' -> reduce s e spec = reduce s e' spec.
Proof. unfold reduce. by intros ->. Qed.

Lemma fold_step_payload spec s e :
  fold_step spec s e = fold_payload spec s (payload e).
Proof.
  unfold fold_payload, fold_step, reduce_dispatch. simpl.
  destruct (fold_count s (payload e)).
  by rewrite (reduce_payload _ e (sample_event (payload e))).
Qed.

Lemma fold_events_folded spec es : fold_events spec es = folded spec (payload <$> es).
Proof.
  unfold fold_events, after. generalize fold_init.
  induction es as [|e es IH]; intros s; simpl; [done|]. by rewrite IH, fold_step_payload.
Qed.

Lemma after_app spec s ps qs : after spec s (ps ++ qs) = after spec (after spec s ps) qs.
Proof. apply fold_left_app. Qed.

Definition harness_step (spec : RunSpec) (h : HarnessState) (p : EventPayload) : HarnessState :=
  fst (reduce h (sample_event p) spec).

Lemma after_harness spec s ps :
  fs_harness (after spec s ps) = fold_left (harness_step spec) ps (fs_harness s).
Proof.
  revert s; induction ps as [|p ps IH]; intros s; simpl; [done|].
  by rewrite IH; unfold fold_payload; rewrite fold_step_harness.
Qed.

(** The state [fold] returns, as a part of the folded state. *)
Definition run_state (spec : RunSpec) (s : FoldState) : RunState :=
  mkRunState (run_id spec) (fs_harness s) (fs_dispatch s) (fs_steps s) (fs_model_calls s)
    (fs_children s) (fs_given_steps s) (fs_given_model_calls s).

Lemma fold_run_state spec es :
  fold spec es = run_state spec (folded spec (payload <$> es)).
Proof. unfold fold. rewrite <-fold_events_folded. by destruct (fold_events spec es). Qed.

Definition ended (ps : list EventPayload) : bool := existsb is_run_end ps.

Lemma ended_events es :
  existsb (fun e => is_run_end (payload e)) es = ended (payload <$> es).
Proof. unfold ended. induction es as [|e es IH]; simpl; [done|]. by rewrite IH. Qed.

(** [check_one_terminal] of the store, as a property of a log: a payload that
    ends the run is the last one. *)
Definition one_end (ps : list EventPayload) : Prop :=
  forall i p, ps !! i = Some p -> is_run_end p = true -> S i = length ps.

(** ** The specification *)

Section Turns.
Context `{UuidCrate} (spec : RunSpec) (tools : list ToolDescriptor).

(** What performing an authorized effect records, in the state [s] after its
    authorization. *)
Inductive outcome (s : FoldState) : Effect -> list EventPayload -> Prop :=
| out_failed eff class msg :
    outcome s eff [RunFailed class msg]
| out_tool st a name inp inv output :
    fs_harness s = WaitingForTool st a name inv ->
    outcome s (EToolCall name inp inv) [ToolResult name inv st a output]
| out_model prompt msg usage : outcome s (EModelCall prompt) [ModelResponded msg usage]
| out_read scope key value : outcome s (EMemoryRead scope key) [MemoryRead scope key value]
| out_write scope key value :
    outcome s (EMemoryWrite scope key value) [MemoryWritten scope key value]
| out_child agent inp run l : outcome s (EDelegate agent inp) [ChildStarted run agent l]
| out_no_child agent inp reason : outcome s (EDelegate agent inp) [DelegateRefused agent reason]
| out_sent to body er rt timeout m :
    outcome s (ESendMessage to body er rt timeout) [MessageSent m to er]
| out_sent_task to body er rt timeout m run l :
    outcome s (ESendMessage to body er rt timeout) [ChildStarted run to l; MessageSent m to er]
| out_not_sent to body er rt timeout reason :
    outcome s (ESendMessage to body er rt timeout) [MessageRefused to reason]
| out_asked prompt m : outcome s (EAskUser prompt) [UserAsked m prompt]
| out_not_asked prompt reason : outcome s (EAskUser prompt) [UserAskRefused reason].

(** An answered step with a step left advances. *)
Definition advances (h : HarnessState) : bool :=
  match h with
  | Running st _ true => (st <? max_steps (limits spec))%N
  | _ => false
  end.

Definition advance (s : FoldState) : list EventPayload :=
  if advances (fs_harness s) then [StepAdvanced] else [].

Definition is_complete (eff : Effect) : bool :=
  match eff with EComplete _ => true | _ => false end.

(** What is recorded once [eff] is decided, with the harness at [h]. *)
Inductive settled (s : FoldState) (eff : Effect) : list EventPayload -> Prop :=
| settled_denied reason :
    authorize spec eff tools <> Allow \/ applicable (fs_harness s) eff spec = false ->
    settled s eff [EffectDenied eff reason]
| settled_complete o :
    eff = EComplete o -> applicable (fs_harness s) eff spec = true ->
    settled s eff [EffectAuthorized eff; RunCompleted o]
| settled_effect out s' :
    authorize spec eff tools = Allow -> applicable (fs_harness s) eff spec = true ->
    is_complete eff = false ->
    s' = after spec s [EffectAuthorized eff] ->
    outcome s' eff out ->
    settled s eff (EffectAuthorized eff :: out ++ advance (after spec s' out)).

(** One decision of the loop. *)
Inductive turn (s : FoldState) : list EventPayload -> Prop :=
| turn_budget eff :
    over_budget spec (run_state spec s) eff = true ->
    turn s [RunFailed FcBudget "limit hit"]
| turn_decided eff ps :
    over_budget spec (run_state spec s) eff = false ->
    settled (after spec s [EffectDecided eff]) eff ps ->
    turn s (EffectDecided eff :: ps).

(** The loop goes on: the harness has not ended, nor has the log. *)
Definition alive (log : list EventPayload) : Prop :=
  harness_is_terminal (fs_harness (folded spec log)) = false /\ ended log = false.

(** No decision is left to settle, where the loop goes on. *)
Definition between (log : list EventPayload) : Prop :=
  alive log -> forall eff, last log <> Some (EffectDecided eff).

(** A run of the loop, from one log to the next. *)
Inductive runs (log : list EventPayload) : list EventPayload -> Prop :=
| runs_stop : runs log log
| runs_cancel : alive log -> runs log (log ++ [RunCancelled])
| runs_turn ps log' :
    alive log -> turn (folded spec log) ps -> runs (log ++ ps) log' -> runs log log'.

(** What a resumed run records before its loop: the rest of the step the log
    was cut in. *)
Inductive recovery (log : list EventPayload) : list EventPayload -> Prop :=
| recovery_none : between log -> recovery log []
| recovery_decided before eff ps :
    log = before ++ [EffectDecided eff] -> alive log ->
    settled (folded spec log) eff ps ->
    recovery log (ps ++ advance (folded spec (log ++ ps)))
| recovery_authorized before eff out :
    log = before ++ [EffectAuthorized eff] -> alive log ->
    applicable (fs_harness (folded spec before)) eff spec = true -> is_complete eff = false ->
    outcome (folded spec log) eff out ->
    recovery log (out ++ advance (folded spec (log ++ out)))
| recovery_advance : alive log -> between log -> recovery log (advance (folded spec log)).

End Turns.

(** ** The driver's operations refine it *)

Section Refinement.
Context `{UuidCrate} {W : Type} `{World W} `{Memory W}.
Implicit Types (d : Driver W) (w : W).

(** An event recorded for the run of [spec]. *)
Definition stamped (spec : RunSpec) (e : Event) : Prop :=
  exists fresh a t, e = record fresh (event_source_for_spec spec a t) (payload e).

Abbreviation log d := (payload <$> d_events d).

(** [d'] is [d] with events of payloads [ps] recorded. *)
Definition appended d d' (ps : list EventPayload) : Prop :=
  exists new, d' = set_events d (d_events d ++ new) /\ payload <$> new = ps /\
    Forall (stamped (d_spec d)) new.

Lemma appended_refl d : appended d d [].
Proof. exists []. rewrite app_nil_r. destruct d. by split_and!. Qed.

Lemma appended_trans d1 d2 d3 ps qs :
  appended d1 d2 ps -> appended d2 d3 qs -> appended d1 d3 (ps ++ qs).
Proof.
  intros (n1 & -> & <- & F1) (n2 & -> & <- & F2). exists (n1 ++ n2). split_and!.
  - unfold set_events; simpl. by rewrite app_assoc.
  - by rewrite fmap_app.
  - by apply Forall_app.
Qed.

Lemma appended_log d d' ps : appended d d' ps -> log d' = log d ++ ps.
Proof. intros (new & -> & <- & _). simpl. by rewrite fmap_app. Qed.

Lemma appended_spec d d' ps : appended d d' ps -> d_spec d' = d_spec d.
Proof. by intros (new & -> & _). Qed.

Lemma push_appended d w p a d' w' : push d w p a = (d', w') -> appended d d' [p].
Proof.
  unfold push. destruct (w_stamp w) as [[t fresh] w1]. intros [= <- <-].
  eexists [_]. split_and!; [done|done|]. constructor; [|done]. by eexists _, _, _.
Qed.

Lemma state_folded d : state d = run_state (d_spec d) (folded (d_spec d) (log d)).
Proof. apply fold_run_state. Qed.

Lemma harness_folded d : harness (state d) = fs_harness (folded (d_spec d) (log d)).
Proof. by rewrite state_folded. Qed.

Lemma log_ended_log d : log_ended d = ended (log d).
Proof.
  apply ended_events.
Qed.

Lemma effects_of_last_snoc spec es e :
  effects_of_last spec (es ++ [e]) = snd (reduce (harness (fold spec es)) e spec).
Proof.
  unfold effects_of_last, reduce_effects. rewrite last_snoc, length_app. simpl.
  rewrite Nat.add_sub. by rewrite take_app_length.
Qed.

Lemma advance_appended d w d' w' :
  advance_answered_step d w = (d', w') ->
  appended d d' (advance (d_spec d) (folded (d_spec d) (log d))).
Proof.
  unfold advance_answered_step, advance, advances. rewrite harness_folded.
  destruct (fs_harness _) as [|st a [|]| | | | |]; try (intros [= <- <-]; apply appended_refl).
  rewrite N.ltb_antisym. destruct (_ <=? st)%N; simpl.
  - intros [= <- <-]; apply appended_refl.
  - apply push_appended.
Qed.

(** The payload [deliver_tool_result] records. *)
Lemma deliver_appended d w name inv output b d' w' st a :
  harness (state d) = WaitingForTool st a name inv ->
  deliver_tool_result d w name inv output = (b, (d', w')) ->
  appended d d' [ToolResult name inv st a output].
Proof.
  unfold deliver_tool_result. intros ->.
  rewrite !bool_decide_false by (intros Hn; by apply Hn). simpl.
  destruct (push _ _ _ _) eqn:E. intros [= <- <- <-]. by eapply push_appended.
Qed.

(** The state an authorized effect is performed in. *)
Definition ready (h : HarnessState) (eff : Effect) : Prop :=
  match eff with
  | EToolCall name _ inv => exists st a, h = WaitingForTool st a name inv
  | EComplete _ | EExecute _ | ERequestApproval _ _ | EWait _ | EPublishArtifact _ _ _ => False
  | _ => is_running h = true
  end.

Lemma applicable_ready spec h eff e :
  applicable h eff spec = true -> is_complete eff = false ->
  payload e = EffectAuthorized eff ->
  ready (fst (reduce h e spec)) eff /\ snd (reduce h e spec) = [eff].
Proof.
  intros Ha Hc Hp. apply applicable_running in Ha as Hs. destruct Hs as (st & a & ans & ->).
  unfold reduce. simpl. rewrite Hp. unfold on_authorized. rewrite Ha. simpl.
  destruct eff; simplify_eq/=; eauto.
Qed.

Lemma delegate_outcome d w agent inp d' w' s :
  delegate d w agent inp = (d', w') ->
  exists out, appended d d' out /\ outcome s (EDelegate agent inp) out.
Proof.
  unfold delegate. destruct (match carve d (state d) with Ok _ => _ | Err _ => _ end) as [r w1].
  intros Hp%push_appended. eexists. split; [done|]. destruct r; constructor.
Qed.

Lemma send_message_outcome d w to body er rt timeout d' w' s :
  send_message d w to body er rt timeout = (d', w') ->
  exists out, appended d d' out /\ outcome s (ESendMessage to body er rt timeout) out.
Proof.
  unfold send_message.
  destruct (match _ with Ok l => _ | Err reason => (Err reason, w) end) as [[sent|reason] w1].
  - destruct (sm_task sent) as [task|].
    + destruct (push d w1 _ _) as [d1 w2] eqn:E1. intros E2.
      apply push_appended in E1, E2. eexists. split; [by eapply appended_trans|].
      simpl. constructor.
    + intros Hp%push_appended. eexists. split; [done|]. constructor.
  - intros Hp%push_appended. eexists. split; [done|]. constructor.
Qed.

Lemma ask_user_outcome d w prompt d' w' s :
  ask_user d w prompt = (d', w') ->
  exists out, appended d d' out /\ outcome s (EAskUser prompt) out.
Proof.
  unfold ask_user. destruct (d_user_questions d).
  - destruct (w_message_id w). intros Hp%push_appended. eexists. split; [done|]. constructor.
  - intros Hp%push_appended. eexists. split; [done|]. constructor.
Qed.

(** A [push] as the result of a branch. *)
Lemma push_outcome d w p a (b b' : bool) d' w' s eff :
  (b, push d w p a) = (b', (d', w')) -> outcome s eff [p] ->
  exists out, appended d d' out /\ outcome s eff out.
Proof. intros [= _ Hp%push_appended] Ho. eauto. Qed.

Lemma perform_one_outcome d w eff tools models b d' w' :
  ready (harness (state d)) eff ->
  perform_one d w eff tools models = (b, (d', w')) ->
  exists out, appended d d' out /\ outcome (folded (d_spec d) (log d)) eff out.
Proof.
  intros Hr. unfold perform_one. destruct eff; try done; simpl in Hr.
  - destruct (models _ w) as [[[msg usage]|msg] w1]; intros E; eapply push_outcome;
      try done; constructor.
  - destruct Hr as (st & a & Hh). rewrite Hh.
    rewrite !bool_decide_false by (intros Hn; by apply Hn). simpl.
    destruct (List.find _ tools) as [tool|];
      [|intros E; eapply push_outcome; [done|constructor]].
    destruct (call tool _ w) as [[output|msg] w1];
      [|intros E; eapply push_outcome; [done|constructor]].
    destruct (deliver_tool_result _ _ _ _ _) as [b' [d1 w2]] eqn:Ed. simpl.
    intros [= <- <- <-]. eapply deliver_appended in Ed; [|done].
    eexists. split; [done|]. constructor. by rewrite <-harness_folded.
  - destruct (memory_key d scope);
      [|intros E; eapply push_outcome; [done|constructor]].
    destruct (mem_read _ _ _); intros E; eapply push_outcome; done || constructor.
  - destruct (memory_key d scope);
      [|intros E; eapply push_outcome; [done|constructor]].
    destruct (mem_write _ _ _ _) as [[[]|] w1]; intros E; eapply push_outcome;
      done || constructor.
  - intros [= _ E]. by eapply delegate_outcome.
  - intros [= _ E]. by eapply send_message_outcome.
  - intros [= _ E]. by eapply ask_user_outcome.
Qed.

Lemma perform_single d w eff tools models :
  perform d w [eff] tools models = (perform_one d w eff tools models).2.
Proof. simpl. by destruct (perform_one d w eff tools models) as [[] []]. Qed.

(** Performing an effect and advancing the step. *)
Lemma perform_advance d w eff tools models d1 w1 d2 w2 :
  ready (harness (state d)) eff ->
  perform d w [eff] tools models = (d1, w1) -> advance_answered_step d1 w1 = (d2, w2) ->
  exists out, outcome (folded (d_spec d) (log d)) eff out /\
    appended d d2 (out ++ advance (d_spec d) (folded (d_spec d) (log d ++ out))).
Proof.
  intros Hr Hp Ha. rewrite perform_single in Hp.
  destruct (perform_one d w eff tools models) as [b [d1' w1']] eqn:E. simpl in Hp.
  injection Hp as -> ->. apply perform_one_outcome in E as (out & Hap & Ho); [|done].
  exists out. split; [done|]. apply advance_appended in Ha.
  rewrite (appended_log _ _ _ Hap), (appended_spec _ _ _ Hap) in Ha.
  by eapply appended_trans.
Qed.

Lemma harness_step_decided spec h eff : harness_step spec h (EffectDecided eff) = h.
Proof. unfold harness_step, reduce. by destruct (harness_is_terminal h). Qed.

(** A denied decision. *)
Lemma denied_settles d w eff tools reason a d' w' :
  push d w (EffectDenied eff reason) a = (d', w') ->
  authorize (d_spec d) eff tools <> Allow \/
    applicable (harness (state d)) eff (d_spec d) = false ->
  exists ps, appended d d' ps /\
    settled (d_spec d) tools (folded (d_spec d) (log d)) eff ps /\
    (harness (state d') = harness (state d) \/
     harness_is_terminal (harness (state d')) = true).
Proof.
  intros Hp%push_appended Hd. exists [EffectDenied eff reason]. split_and!; [done| |].
  - constructor. by rewrite <-harness_folded.
  - left. rewrite !harness_folded, (appended_log _ _ _ Hp), (appended_spec _ _ _ Hp).
    rewrite after_app, after_harness. simpl. unfold harness_step, reduce.
    by destruct (harness_is_terminal _).
Qed.

(** The state and the effects after an authorization was recorded. *)
Lemma authorized_state d w eff d1 w1 :
  push d w (EffectAuthorized eff) ActorPolicy = (d1, w1) ->
  exists e, payload e = EffectAuthorized eff /\ d_spec d1 = d_spec d /\
    harness (state d1) = fst (reduce (harness (state d)) e (d_spec d)) /\
    effects_of_last (d_spec d1) (d_events d1) = snd (reduce (harness (state d)) e (d_spec d)).
Proof.
  intros (new & -> & Hnew & _)%push_appended.
  destruct new as [|e [|]]; try discriminate Hnew. injection Hnew as He.
  exists e. split_and!; [done|done|unfold state; simpl; apply fold_harness_snoc|].
  simpl. apply effects_of_last_snoc.
Qed.

(** An authorized completion. *)
Lemma completion_settles d w o tools d1 w1 d2 w2 :
  applicable (harness (state d)) (EComplete o) (d_spec d) = true ->
  authorize (d_spec d) (EComplete o) tools = Allow ->
  push d w (EffectAuthorized (EComplete o)) ActorPolicy = (d1, w1) ->
  push d1 w1 (RunCompleted o) ActorSystem = (d2, w2) ->
  harness (state d1) = Completed o ->
  effects_of_last (d_spec d2) (d_events d2) = [] /\
  exists ps, appended d d2 ps /\
    settled (d_spec d) tools (folded (d_spec d) (log d)) (EComplete o) ps /\
    harness_is_terminal (harness (state d2)) = true.
Proof.
  intros Hap Ha Ha1%push_appended (new & -> & Hnew & Hst)%push_appended Hh1.
  destruct new as [|e2 [|]]; try discriminate Hnew. split.
  - simpl. rewrite effects_of_last_snoc. fold (state d1). by rewrite Hh1, reduce_terminal.
  - exists ([EffectAuthorized (EComplete o)] ++ [RunCompleted o]). split_and!.
    + apply (appended_trans _ _ _ _ _ Ha1). by exists [e2].
    + eapply settled_complete; [done|]. by rewrite <-harness_folded.
    + unfold state. simpl. rewrite fold_harness_snoc. fold (state d1).
      by rewrite Hh1, reduce_terminal.
Qed.

(** Authorizing a decision: it is denied, completes the run, or is handed back
    to be performed. *)
Lemma authorize_decided_settles d w eff tools effs d' w' :
  authorize_decided d w (harness (state d)) eff tools = (effs, (d', w')) ->
  (effs = [] /\ exists ps, appended d d' ps /\
     settled (d_spec d) tools (folded (d_spec d) (log d)) eff ps /\
     (harness (state d') = harness (state d) \/
      harness_is_terminal (harness (state d')) = true)) \/
  (effs = [eff] /\ appended d d' [EffectAuthorized eff] /\
   authorize (d_spec d) eff tools = Allow /\
   applicable (harness (state d)) eff (d_spec d) = true /\ is_complete eff = false /\
   ready (harness (state d')) eff).
Proof.
  unfold authorize_decided.
  destruct (authorize (d_spec d) eff tools) eqn:Ea;
    try (intros [= <- Hp]; left; split; [done|]; eapply denied_settles; [done|]; left; congruence).
  destruct (applicable (harness (state d)) eff (d_spec d)) eqn:Hap; simpl.
  2: { intros [= <- Hp]. left. split; [done|]. eapply denied_settles; [done|by right]. }
  destruct (push d w (EffectAuthorized eff) ActorPolicy) as [d1 w1] eqn:E1.
  destruct (authorized_state _ _ _ _ _ E1) as (e & He & Hspec & Hh1 & Hl1).
  destruct (is_complete eff) eqn:Hc.
  - destruct eff as [| | | | | | | | | | |o]; try done. simpl.
    apply applicable_running in Hap as Hs. destruct Hs as (st & a & ans & Hs).
    rewrite Hs in Hh1. unfold reduce in Hh1. simpl in Hh1. rewrite He in Hh1. simpl in Hh1.
    rewrite Hh1. destruct (push d1 w1 _ _) as [d2 w2] eqn:E2. intros [= <- <- <-]. left.
    destruct (completion_settles _ _ _ _ _ _ _ _ Hap Ea E1 E2 Hh1) as (-> & ps & ? & ? & ?).
    split; [done|]. exists ps. auto.
  - assert (match eff, harness (state d1) with
            | EComplete o, Completed _ => push d1 w1 (RunCompleted o) ActorSystem
            | _, _ => (d1, w1) end = (d1, w1)) as -> by (by destruct eff).
    intros [= <- <- <-]. right. rewrite Hl1, Hh1.
    destruct (applicable_ready (d_spec d) (harness (state d)) eff e Hap Hc He) as [? ->].
    split_and!; try done. by eapply push_appended.
Qed.

(** One iteration: decide, perform, advance. *)
Lemma driver_decide_turn d w decider tools r d' w' :
  harness_is_terminal (harness (state d)) = false ->
  driver_decide d w decider tools = (r, (d', w')) ->
  match r with
  | Err _ => d' = d
  | Ok [] => exists ps, appended d d' ps /\ turn (d_spec d) tools (folded (d_spec d) (log d)) ps
  | Ok effs => exists eff, effs = [eff] /\
      over_budget (d_spec d) (state d) eff = false /\
      appended d d' [EffectDecided eff; EffectAuthorized eff] /\
      authorize (d_spec d) eff tools = Allow /\
      applicable (harness (state d)) eff (d_spec d) = true /\ is_complete eff = false /\
      ready (harness (state d')) eff
  end.
Proof.
  intros Ht. unfold driver_decide, decide_with_skills. rewrite Ht.
  destruct (decider _ w) as [[eff|e] w1]; [|by intros [= <- <- <-]].
  destruct (over_budget _ _ _) eqn:Eb.
  { intros [= <- Hp%push_appended]. eexists. split; [done|].
    econstructor. by rewrite <-state_folded. }
  destruct (push d w1 (EffectDecided eff) ActorAgent) as [d1 w2] eqn:E1.
  apply push_appended in E1 as Ha1.
  assert (harness (state d1) = harness (state d)) as Hh.
  { rewrite !harness_folded, (appended_log _ _ _ Ha1), (appended_spec _ _ _ Ha1).
    rewrite !after_app, after_harness. simpl. apply harness_step_decided. }
  rewrite <-Hh. destruct (authorize_decided d1 w2 _ eff tools) as [effs [d2 w3]] eqn:E2.
  apply authorize_decided_settles in E2.
  rewrite (appended_spec _ _ _ Ha1), (appended_log _ _ _ Ha1), after_app in E2.
  intros [= <- <- <-].
  destruct E2 as [(-> & ps & Ha2 & Hs & _)|(-> & Ha2 & ? & ? & ? & ?)].
  - exists (EffectDecided eff :: ps). split.
    + by apply (appended_trans _ _ _ _ _ Ha1 Ha2).
    + econstructor; [by rewrite <-state_folded|done].
  - exists eff. split_and!; try done. by apply (appended_trans _ _ _ _ _ Ha1 Ha2).
Qed.

(** A decision that was performed is a turn. *)
Lemma performed_turn d eff tools models d1 w1 d2 w2 d3 w3 :
  over_budget (d_spec d) (state d) eff = false ->
  appended d d1 [EffectDecided eff; EffectAuthorized eff] ->
  authorize (d_spec d) eff (descriptor <$> tools) = Allow ->
  applicable (harness (state d)) eff (d_spec d) = true -> is_complete eff = false ->
  ready (harness (state d1)) eff ->
  perform d1 w1 [eff] tools models = (d2, w2) -> advance_answered_step d2 w2 = (d3, w3) ->
  exists ps, appended d d3 ps /\
    turn (d_spec d) (descriptor <$> tools) (folded (d_spec d) (log d)) ps.
Proof.
  intros Hb Ha Hal Hap Hc Hr Ep Eadv.
  eapply perform_advance in Ep as (out & Ho & Ha3); [|done..].
  eexists. split; [by eapply (appended_trans _ _ _ _ _ Ha Ha3)|].
  rewrite (appended_log _ _ _ Ha), (appended_spec _ _ _ Ha) in Ho |- *.
  simpl. rewrite !after_app in Ho |- *. econstructor; [by rewrite <-state_folded|].
  rewrite harness_folded in Hap.
  eapply settled_effect; try done; [|by rewrite after_app..].
  rewrite after_harness. simpl. by rewrite harness_step_decided.
Qed.

(** The loop records turns until it stops or is cancelled. *)
Lemma run_loop_runs decider tools models at_boundary fuel d w r d' w' :
  run_loop decider tools models at_boundary fuel d w = Some (r, (d', w')) ->
  exists ps, appended d d' ps /\
    runs (d_spec d) (descriptor <$> tools) (log d) (log d ++ ps).
Proof.
  revert d w; induction fuel as [|fuel IH]; intros d w; simpl; [done|].
  destruct (harness_is_terminal (harness (state d)) || log_ended d) eqn:Ealive.
  { intros [= <- <- <-]. exists []. rewrite app_nil_r. split; [apply appended_refl|constructor]. }
  bool_to_prop. assert (alive (d_spec d) (log d)) as Halive
    by (unfold alive; by rewrite <-harness_folded, <-log_ended_log).
  assert (forall d1 w1 ps, appended d d1 ps ->
    turn (d_spec d) (descriptor <$> tools) (folded (d_spec d) (log d)) ps ->
    run_loop decider tools models at_boundary fuel d1 w1 = Some (r, (d', w')) ->
    exists ps', appended d d' ps' /\
      runs (d_spec d) (descriptor <$> tools) (log d) (log d ++ ps')) as Hnext.
  { intros d1 w1 ps Ha Hturn (ps' & Ha' & Hruns)%IH.
    rewrite (appended_log _ _ _ Ha), (appended_spec _ _ _ Ha) in Hruns.
    exists (ps ++ ps'). split; [by eapply appended_trans|]. rewrite app_assoc.
    by eapply runs_turn. }
  destruct (at_boundary d w) as [[| |] w1].
  2: { intros [= <- Hp%push_appended]. eexists. split; [done|]. by constructor. }
  2: { intros [= <- <- <-]. exists []. rewrite app_nil_r.
       split; [apply appended_refl|constructor]. }
  assert (forall k : option (result unit DeciderError * (Driver W * W)),
    match harness (state d) with
    | WaitingForMessage _ _ _ => Some (Ok tt, (d, w1))
    | _ => k end = Some (r, (d', w')) ->
    (Ok tt, (d, w1)) = (r, (d', w')) \/ k = Some (r, (d', w'))) as Hwait.
  { intros k E. destruct (harness (state d)); try (by right). left. congruence. }
  intros [[= <- <- <-]|E]%Hwait.
  { exists []. rewrite app_nil_r. split; [apply appended_refl|constructor]. }
  destruct (driver_decide d w1 decider (descriptor <$> tools)) as [res [d1 w2]] eqn:Ed.
  apply driver_decide_turn in Ed; [|done]. destruct res as [[|eff effs]|err].
  - destruct Ed as (ps & Ha & Hturn).
    destruct (harness_is_terminal (harness (state d1))); [|by eapply Hnext].
    injection E as <- <- <-. exists ps. split; [done|].
    eapply runs_turn; [done..|constructor].
  - destruct Ed as (eff' & [= -> ->] & Hb & Ha & Hal & Hap & Hc & Hr).
    destruct (perform d1 w2 [eff'] tools models) as [d2 w3] eqn:Ep.
    destruct (advance_answered_step d2 w3) as [d3 w4] eqn:Eadv.
    edestruct performed_turn as (ps & Hps & Hturn); [by eauto..|]. by eapply Hnext.
  - injection E as <- <- <-. subst. exists []. rewrite app_nil_r.
    split; [apply appended_refl|constructor].
Qed.

(** ** Resumed runs *)

Lemma advance_terminal spec s :
  harness_is_terminal (fs_harness s) = true -> advance spec s = [].
Proof. unfold advance, advances. by destruct (fs_harness s). Qed.

(** A step advances once. *)
Lemma advance_once spec s : advance spec (after spec s (advance spec s)) = [].
Proof.
  unfold advance at 2. destruct (advances spec (fs_harness s)) eqn:E.
  - unfold advance. rewrite after_harness. simpl.
    destruct (fs_harness s) as [|st a [|]| | | | |]; try done. simpl in *.
    unfold harness_step, reduce. simpl. by rewrite E.
  - unfold advance. simpl. by rewrite E.
Qed.

(** What [boot] and [resume] leave [run_until] to do first. *)
Inductive first_ok d : Prop :=
| first_none :
    d_pending d = [] -> d_undecided d = None -> between (d_spec d) (log d) ->
    (d_resumed d = true -> alive (d_spec d) (log d) \/
       harness_is_terminal (harness (state d)) = true) ->
    first_ok d
| first_undecided before eff :
    d_undecided d = Some (harness (state d), eff) -> d_resumed d = true ->
    log d = before ++ [EffectDecided eff] -> alive (d_spec d) (log d) ->
    first_ok d
| first_pending before eff :
    d_pending d = [eff] -> d_undecided d = None -> d_resumed d = true ->
    log d = before ++ [EffectAuthorized eff] -> alive (d_spec d) (log d) ->
    applicable (fs_harness (folded (d_spec d) before)) eff (d_spec d) = true ->
    is_complete eff = false ->
    first_ok d.

Lemma ready_after_authorized d before eff :
  log d = before ++ [EffectAuthorized eff] ->
  applicable (fs_harness (folded (d_spec d) before)) eff (d_spec d) = true ->
  is_complete eff = false -> ready (harness (state d)) eff.
Proof.
  intros Hl Hap Hc. rewrite harness_folded, Hl, after_app, after_harness. simpl.
  by apply (applicable_ready (d_spec d) _ eff (sample_event (EffectAuthorized eff))).
Qed.

Lemma run_first_recovers d w tools models d' w' :
  first_ok d -> run_first tools models d w = (d', w') ->
  exists ps, appended (set_first d [] None false) d' ps /\
    recovery (d_spec d) (descriptor <$> tools) (log d) ps.
Proof.
  intros Hf. unfold run_first. destruct Hf as [Hp Hu Hb Hr|before eff Hu Hr Hl Ha|
    before eff Hp Hu Hr Hl Ha Hap Hc].
  - rewrite Hp, Hu. destruct (d_resumed d).
    + simpl. intros Hadv%advance_appended. eexists. split; [exact Hadv|]. simpl.
      destruct Hr as [Ha|Ht]; [done| |]; [by constructor|].
      rewrite advance_terminal by (by rewrite <-harness_folded). by constructor.
    + intros [= <- <-]. exists []. split; [apply appended_refl|by constructor].
  - rewrite Hu, Hr. set (d0 := set_first d [] None false).
    change (harness (state d)) with (harness (state d0)).
    destruct (authorize_decided d0 w _ eff _) as [effs [d1 w1]] eqn:Ed.
    apply authorize_decided_settles in Ed as [(-> & ps & Ha1 & Hs & _)|(-> & Ha1 & Hal & Hap & Hc & Hrd)].
    + simpl. intros Hadv%advance_appended.
      rewrite (appended_spec _ _ _ Ha1), (appended_log _ _ _ Ha1) in Hadv.
      eexists. split; [by eapply appended_trans|]. by eapply recovery_decided.
    + destruct (perform d1 w1 [eff] tools models) as [d2 w2] eqn:Ep. intros Hadv.
      eapply perform_advance in Ep as (out & Ho & Ha3); [|done..].
      rewrite (appended_log _ _ _ Ha1), (appended_spec _ _ _ Ha1) in Ho, Ha3.
      eexists. split; [by eapply appended_trans|]. simpl in *.
      rewrite harness_folded in Hap. simpl in Hap. rewrite !after_app in Ho |- *.
      pose proof (settled_effect (d_spec d) (descriptor <$> tools)
        (folded (d_spec d) (log d)) eff out _ Hal Hap Hc eq_refl Ho) as Hs.
      pose proof (recovery_decided _ _ _ _ _ _ Hl Ha Hs) as Hrec.
      rewrite app_comm_cons, !after_app in Hrec.
      change (after ?sp ?s (EffectAuthorized eff :: out)) with
        (after sp s ([EffectAuthorized eff] ++ out)) in Hrec.
      rewrite !after_app, advance_once, app_nil_r in Hrec.
      rewrite after_app. exact Hrec.
  - rewrite Hp, Hu, Hr. set (d0 := set_first d [] None false).
    destruct (perform d0 w [eff] tools models) as [d2 w2] eqn:Ep. intros Hadv.
    eapply perform_advance in Ep as (out & Ho & Ha3); [|by eapply ready_after_authorized|done].
    eexists. split; [exact Ha3|]. by eapply recovery_authorized.
Qed.

(** [run_until] refines a recovery followed by a run. *)
Lemma run_until_refines decider tools models at_boundary fuel d w r d' w' :
  first_ok d ->
  run_until decider tools models at_boundary fuel d w = Some (r, (d', w')) ->
  exists ps qs, appended (set_first d [] None false) d' (ps ++ qs) /\
    recovery (d_spec d) (descriptor <$> tools) (log d) ps /\
    runs (d_spec d) (descriptor <$> tools) (log d ++ ps) ((log d ++ ps) ++ qs).
Proof.
  intros Hf. unfold run_until. destruct (run_first tools models d w) as [d1 w1] eqn:E1.
  apply run_first_recovers in E1 as (ps & Ha & Hr); [|done].
  intros (qs & Ha2 & Hruns)%run_loop_runs. exists ps, qs.
  rewrite (appended_spec _ _ _ Ha), (appended_log _ _ _ Ha) in Hruns.
  split_and!; [by eapply appended_trans|done|done].
Qed.

End Refinement.
