(* ===== verification/DriverProofs.v ===== *)
(** * What the driver guarantees

    The theorems of [driver.rs], proved on the turns of [DriverTurns]: the
    loop terminates within the step limit, the log is append-only with at most
    one end, every authorization was due, the budget is kept, and a run
    resumed from its log goes on as the run that was cut would have. *)

From S2P Require Import Prelude Protocol Uuids MemoryOwner Reduce Authorizer Driver DriverTurns.

Section SpecFacts.
Context `{UuidCrate} (spec : RunSpec) (tools : list ToolDescriptor).

(** ** One end *)

Lemma ended_app l k : ended (l ++ k) = ended l || ended k.
Proof. apply existsb_app. Qed.

Lemma one_end_not_ended ps : ended ps = false -> one_end ps.
Proof.
  unfold ended, one_end. rewrite existsb_false_Forall, Forall_lookup.
  intros Hf i p Hi He. apply Hf in Hi. congruence.
Qed.

Lemma one_end_last ps p : ended ps = false -> one_end (ps ++ [p]).
Proof.
  intros Hf i q Hi He. rewrite length_app. simpl.
  apply lookup_app_Some in Hi as [Hi|[Hi Hq]].
  - apply one_end_not_ended in Hf as Ho. unfold ended in Hf.
    rewrite existsb_false_Forall, Forall_lookup in Hf. apply Hf in Hi. congruence.
  - destruct (i - length ps) eqn:E; simplify_eq/=. lia.
Qed.

Lemma one_end_app l ps : ended l = false -> one_end ps -> one_end (l ++ ps).
Proof.
  intros Hl Hps i p Hi He. rewrite length_app. apply lookup_app_Some in Hi as [Hi|[Hi Hp]].
  - unfold ended in Hl. rewrite existsb_false_Forall, Forall_lookup in Hl.
    apply Hl in Hi. congruence.
  - specialize (Hps _ _ Hp He). lia.
Qed.

(** A log with one end that ended has its end last, and cannot be extended. *)
Lemma one_end_init l p : one_end (l ++ [p]) -> ended l = false.
Proof.
  intros Ho. unfold ended. apply existsb_false_Forall, Forall_lookup. intros i q Hi.
  destruct (is_run_end q) eqn:Hq; [|done]. apply lookup_lt_Some in Hi as Hlt.
  assert (S i = length (l ++ [p])) as Hlen by (eapply Ho; [by apply lookup_app_l_Some|done]).
  rewrite length_app in Hlen. simpl in Hlen. lia.
Qed.

Lemma ready_active h eff : ready h eff -> is_active h = true.
Proof. destruct eff; simpl; try done; try (by destruct h). by intros (? & ? & ->). Qed.

Lemma ready_after s eff :
  applicable (fs_harness s) eff spec = true -> is_complete eff = false ->
  ready (fs_harness (after spec s [EffectAuthorized eff])) eff.
Proof.
  intros Hap Hc. rewrite after_harness. simpl.
  by apply (applicable_ready spec _ eff (sample_event (EffectAuthorized eff))).
Qed.

Lemma failed_terminal s class msg :
  is_active (fs_harness s) = true ->
  harness_is_terminal (fs_harness (after spec s [RunFailed class msg])) = true.
Proof.
  intros Ha. rewrite after_harness. simpl. unfold harness_step, reduce. simpl.
  by destruct (fs_harness s).
Qed.

(** What an effect records holds no decision and no authorization, and ends
    the run only by failing it. *)
Lemma outcome_shape s eff out :
  outcome s eff out ->
  (exists class msg, out = [RunFailed class msg]) \/ ended out = false.
Proof. destruct 1; eauto. Qed.

Lemma outcome_advance_end s eff out :
  outcome s eff out -> ready (fs_harness s) eff ->
  one_end (out ++ advance spec (after spec s out)).
Proof.
  intros Ho Hr%ready_active. apply outcome_shape in Ho as [(class & msg & ->)|Hn].
  - rewrite advance_terminal by (by apply failed_terminal). apply (one_end_last []). done.
  - apply one_end_not_ended. rewrite ended_app, Hn. unfold advance. by destruct (advances _ _).
Qed.

Lemma settled_one_end s eff ps : settled spec tools s eff ps -> one_end ps.
Proof.
  destruct 1 as [reason ?|o -> ?|out s' Hal Hap Hc -> Ho].
  - by apply one_end_not_ended.
  - by apply (one_end_last [EffectAuthorized _]).
  - apply (one_end_app [EffectAuthorized eff]); [done|].
    apply outcome_advance_end with eff; [done|]. by apply ready_after.
Qed.

Lemma turn_one_end s ps : turn spec tools s ps -> one_end ps.
Proof.
  destruct 1 as [eff ?|eff ps ? Hs].
  - by apply (one_end_last []).
  - apply (one_end_app [EffectDecided eff]); [done|]. by eapply settled_one_end.
Qed.

Lemma runs_one_end log log' : runs spec tools log log' -> one_end log -> one_end log'.
Proof.
  induction 1 as [|log [_ Ha]|log ps log' [_ Ha] Ht _ IH]; [done|..]; intros Ho.
  - by apply one_end_last.
  - apply IH, one_end_app; [done|]. by eapply turn_one_end.
Qed.

(** An end settles the harness too, so a recovered step stays ended. *)
Lemma settled_end_terminal s eff ps :
  settled spec tools s eff ps -> ended ps = true ->
  harness_is_terminal (fs_harness (after spec s ps)) = true.
Proof.
  destruct 1 as [reason ?|o -> Hap|out s' Hal Hap Hc -> Ho]; [done|..]; intros He.
  - apply applicable_running in Hap as (st & a & ans & Hs).
    rewrite after_harness, Hs. done.
  - apply ready_after in Hap as Hr; [|done]. apply ready_active in Hr.
    apply outcome_shape in Ho as [(class & msg & ->)|Hn].
    + rewrite advance_terminal by (by apply failed_terminal). rewrite app_nil_r.
      change (EffectAuthorized eff :: [RunFailed class msg])
        with ([EffectAuthorized eff] ++ [RunFailed class msg]).
      rewrite after_app. by apply failed_terminal.
    + exfalso. change (ended (EffectAuthorized eff :: out ++ ?a)) with (ended (out ++ a)) in He.
      rewrite ended_app, Hn in He. unfold advance in He. by destruct (advances _ _).
Qed.

Lemma recovery_one_end log ps : recovery spec tools log ps -> one_end log -> one_end (log ++ ps).
Proof.
  destruct 1 as [|before eff ps -> [_ Ha] Hs|before eff out -> [_ Ha] Hap Hc Ho|[_ Ha]]; intros Hone.
  - by rewrite app_nil_r.
  - apply one_end_app; [done|]. destruct (ended ps) eqn:He.
    + rewrite advance_terminal; [|by rewrite after_app; eapply settled_end_terminal].
      rewrite app_nil_r. by eapply settled_one_end.
    + apply one_end_not_ended. rewrite ended_app, He. unfold advance.
      by destruct (advances _ _).
  - apply one_end_app; [done|]. rewrite (after_app _ _ _ out).
    apply outcome_advance_end with eff; [done|]. rewrite after_app. by apply ready_after.
  - apply one_end_app; [done|]. apply one_end_not_ended. unfold advance.
    by destruct (advances _ _).
Qed.

(** ** Every event is due *)

(** When the driver may record [p] after [k]. *)
Definition due (k : list EventPayload) (p : EventPayload) : Prop :=
  match p with
  | EffectDecided eff => over_budget spec (run_state spec (folded spec k)) eff = false
  | EffectAuthorized eff =>
      last k = Some (EffectDecided eff) /\ authorize spec eff tools = Allow /\
      applicable (fs_harness (folded spec k)) eff spec = true
  | EffectDenied eff _ =>
      last k = Some (EffectDecided eff) /\
      (authorize spec eff tools <> Allow \/
       applicable (fs_harness (folded spec k)) eff spec = false)
  | ToolResult name inv st a _ => fs_harness (folded spec k) = WaitingForTool st a name inv
  | StepAdvanced => advances spec (fs_harness (folded spec k)) = true
  | RunCompleted o => fs_harness (folded spec k) = Completed o
  | _ => True
  end.

Fixpoint all_due (k ps : list EventPayload) : Prop :=
  match ps with
  | [] => True
  | p :: ps => due k p /\ all_due (k ++ [p]) ps
  end.

Lemma all_due_app k ps qs : all_due k (ps ++ qs) <-> all_due k ps /\ all_due (k ++ ps) qs.
Proof.
  revert k; induction ps as [|p ps IH]; intros k; simpl.
  - rewrite app_nil_r. tauto.
  - rewrite IH, <-app_assoc. simpl. tauto.
Qed.

Lemma all_due_split k ps a p b : all_due k ps -> ps = a ++ p :: b -> due (k ++ a) p.
Proof. intros Hd ->. apply all_due_app in Hd as [_ [Hp _]]. done. Qed.

Lemma advance_due k : all_due k (advance spec (folded spec k)).
Proof. unfold advance. destruct (advances _ _) eqn:E; simpl; auto. Qed.

Lemma outcome_due k eff out : outcome (folded spec k) eff out -> all_due k out.
Proof. destruct 1; simpl; auto. Qed.

Lemma settled_due k eff ps :
  last k = Some (EffectDecided eff) -> settled spec tools (folded spec k) eff ps -> all_due k ps.
Proof.
  intros Hl. destruct 1 as [reason Hd|o -> Hap|out s' Hal Hap Hc -> Ho].
  - simpl. auto.
  - simpl. split_and!; try done. rewrite after_app.
    apply applicable_running in Hap as (st & a & ans & Hs). by rewrite after_harness, Hs.
  - rewrite <-after_app in Ho |- *. simpl. split; [done|]. apply all_due_app.
    split; [by eapply outcome_due|].
    change (fold_payload spec ?s ?p) with (after spec s [p]). rewrite <-!after_app, app_assoc.
    apply advance_due.
Qed.

Lemma turn_due k ps : turn spec tools (folded spec k) ps -> all_due k ps.
Proof.
  destruct 1 as [eff Hb|eff ps Hb Hs]; simpl; [auto|]. split; [done|].
  rewrite <-after_app in Hs. eapply settled_due; [|done]. apply last_snoc.
Qed.

Lemma runs_due k log' :
  runs spec tools k log' -> exists ps, log' = k ++ ps /\ all_due k ps.
Proof.
  induction 1 as [|k Ha|k ps log' Ha Ht _ (qs & -> & IH)].
  - exists []. by rewrite app_nil_r.
  - by exists [RunCancelled].
  - exists (ps ++ qs). rewrite app_assoc. split; [done|]. apply all_due_app.
    split; [by apply turn_due|done].
Qed.

Lemma recovery_due k ps : recovery spec tools k ps -> all_due k ps.
Proof.
  destruct 1 as [|before eff ps -> Ha Hs|before eff out -> Ha Hap Hc Ho|Ha]; [done|..].
  - apply all_due_app. split; [|apply advance_due]. eapply settled_due; [apply last_snoc|done].
  - apply all_due_app. split; [by eapply outcome_due|apply advance_due].
  - apply advance_due.
Qed.

(** ** Budgets *)

Definition decided_model (k : list EventPayload) : N :=
  match last k with Some (EffectDecided (EModelCall _)) => 1 | _ => 0 end.

Definition is_decided (p : EventPayload) : bool :=
  match p with EffectDecided _ => true | _ => false end.

Definition is_model_authorized (p : EventPayload) : bool :=
  match p with EffectAuthorized (EModelCall _) => true | _ => false end.

(** The decisions, and the authorized model calls, of a log: how many events
    there are, not what the harness counted. *)
Definition decisions (k : list EventPayload) : N := N.of_nat (length (List.filter is_decided k)).
Definition authorized_calls (k : list EventPayload) : N :=
  N.of_nat (length (List.filter is_model_authorized k)).

(** Whether [p] finishes a run whose harness is at [h]: the decision to
    complete it, which costs no step. *)
Definition finishes (h : HarnessState) (p : EventPayload) : bool :=
  match p with EffectDecided eff => is_complete eff && is_running h | _ => false end.

(** The decisions that cost a step: all but the one that finishes the run. *)
Fixpoint paid_from (s : FoldState) (k : list EventPayload) : N :=
  match k with
  | [] => 0
  | p :: k =>
      (if is_decided p && negb (finishes (fs_harness s) p) then 1 else 0) +
      paid_from (fold_payload spec s p) k
  end.

Definition paid (k : list EventPayload) : N := paid_from (folded spec []) k.

(** What may follow the decision that finishes the run: its authorization or
    an end of the run, and no other decision. *)
Definition finished_tail (eff : Effect) (b : list EventPayload) : Prop :=
  existsb is_decided b = false /\
  match b with [] => True | p :: _ => p = EffectAuthorized eff \/ is_run_end p = true end.

Definition finishes_last (k : list EventPayload) : Prop :=
  forall a eff b, k = a ++ EffectDecided eff :: b ->
    finishes (fs_harness (folded spec a)) (EffectDecided eff) = true -> finished_tail eff b.

(** The events of a log are within the limits: the decisions that cost a step,
    the model calls with the one that is decided and not yet authorized, and
    no decision after the one that finishes the run. *)
Definition within (k : list EventPayload) : Prop :=
  (paid k <= max_steps (limits spec))%N /\
  (authorized_calls k + decided_model k <= max_model_calls (limits spec))%N /\
  finishes_last k.

Lemma paid_from_app s k ps : paid_from s (k ++ ps) = (paid_from s k + paid_from (after spec s k) ps)%N.
Proof. revert s; induction k as [|p k IH]; intros s; simpl; [done|]. rewrite IH. lia. Qed.

Lemma paid_snoc k p :
  paid (k ++ [p]) =
    (paid k + if is_decided p && negb (finishes (fs_harness (folded spec k)) p) then 1 else 0)%N.
Proof. unfold paid. rewrite paid_from_app. simpl. by rewrite N.add_0_r. Qed.

Lemma authorized_calls_snoc k p :
  authorized_calls (k ++ [p]) =
    (authorized_calls k + if is_model_authorized p then 1 else 0)%N.
Proof.
  unfold authorized_calls. rewrite List.filter_app, length_app. simpl.
  destruct (is_model_authorized p); simpl; lia.
Qed.

Lemma fold_payload_steps s p :
  fs_steps (fold_payload spec s p) =
    if is_decided p && negb (finishes (fs_harness s) p) then wrap_add32 (fs_steps s) 1
    else fs_steps s.
Proof.
  unfold fold_payload, fold_step. destruct s, p; simpl; try done;
    try destruct effect; simpl; try destruct (is_running _); try case_bool_decide; done.
Qed.

Lemma fold_payload_model_calls s p :
  fs_model_calls (fold_payload spec s p) =
    if is_model_authorized p then wrap_add32 (fs_model_calls s) 1 else fs_model_calls s.
Proof.
  unfold fold_payload, fold_step. destruct s, p; simpl; try done;
    try destruct effect; try destruct (is_running _); try case_bool_decide; done.
Qed.

(** The harness's [u32] counters are the numbers of events. *)
Lemma steps_exact k : (paid k <= u32_max)%N -> fs_steps (folded spec k) = paid k.
Proof.
  induction k as [|p k IH] using rev_ind; [done|]. rewrite paid_snoc, after_app.
  change (after spec ?s [p]) with (fold_payload spec s p). rewrite fold_payload_steps.
  destruct (_ && _); intros Hk; rewrite IH by lia; [apply wrap_add32_exact|]; lia.
Qed.

Lemma model_calls_exact k :
  (authorized_calls k <= u32_max)%N -> fs_model_calls (folded spec k) = authorized_calls k.
Proof.
  induction k as [|p k IH] using rev_ind; [done|]. rewrite authorized_calls_snoc, after_app.
  change (after spec ?s [p]) with (fold_payload spec s p). rewrite fold_payload_model_calls.
  destruct (is_model_authorized p); intros Hk; rewrite IH by lia; [apply wrap_add32_exact|]; lia.
Qed.

(** A decision within the budget leaves both counters below their limit. *)
Lemma not_over_budget s eff :
  limits_u32 (limits spec) -> over_budget spec (run_state spec s) eff = false ->
  (finishes (fs_harness s) (EffectDecided eff) = true \/
   (fs_steps s + fs_given_steps s < max_steps (limits spec))%N) /\
  (forall prompt, eff = EModelCall prompt ->
     (fs_model_calls s + fs_given_model_calls s < max_model_calls (limits spec))%N).
Proof.
  intros [Hs Hm]. unfold over_budget, steps_spent, model_calls_spent. simpl.
  unfold sat_add32. destruct eff; simpl; try destruct (is_running (fs_harness s)) eqn:Er; intros Hb;
    bool_to_prop; (split; [|intros ? [=]]); try (by left); try lia; right; lia.
Qed.

(** The two counts, without the order of the decisions. *)
Definition counted (k : list EventPayload) : Prop :=
  (paid k <= max_steps (limits spec))%N /\
  (authorized_calls k + decided_model k <= max_model_calls (limits spec))%N.

Lemma due_counted k p :
  limits_u32 (limits spec) -> counted k -> due k p -> counted (k ++ [p]).
Proof.
  intros Hu [Hs Hm] Hd. pose proof Hu as [Hu1 Hu2]. unfold counted.
  assert (fs_steps (folded spec k) = paid k) as Es by (apply steps_exact; lia).
  assert (fs_model_calls (folded spec k) = authorized_calls k) as Em
    by (apply model_calls_exact; lia).
  rewrite paid_snoc, authorized_calls_snoc. unfold decided_model in *. rewrite last_snoc.
  destruct p; try (simpl in *; split; lia).
  - apply not_over_budget in Hd as [Hst Hmc]; [|done]. rewrite Es, Em in *.
    split; [|destruct effect; simpl; try lia; specialize (Hmc _ eq_refl); lia].
    destruct Hst as [->|Hst]; [simpl; lia|]. destruct (_ && _); lia.
  - simpl in Hd |- *. destruct Hd as (Hl & _ & _). rewrite Hl in Hm. destruct effect; simpl; lia.
Qed.

Lemma all_due_counted k ps :
  limits_u32 (limits spec) -> counted k -> all_due k ps -> counted (k ++ ps).
Proof.
  intros Hu. revert k; induction ps as [|p ps IH]; intros k Hk Hd; simpl in *.
  - by rewrite app_nil_r.
  - destruct Hd as [Hp Hd]. rewrite (assoc (++) k [p] ps : _ ++ (_ :: _) = _). apply IH; [|done].
    by apply due_counted.
Qed.

(** ** The decision that finishes a run is its last *)

Lemma finishes_last_prefix k ps : finishes_last (k ++ ps) -> finishes_last k.
Proof.
  intros Hf a eff b -> Hr. destruct (Hf a eff (b ++ ps)) as [Hd Hh]; [by rewrite <-app_assoc|done|].
  rewrite existsb_app' in Hd. apply orb_false_iff in Hd as [Hd _]. split; [done|].
  by destruct b.
Qed.

(** At most one decision cost nothing. *)
Lemma finishes_last_once k : finishes_last k -> (decisions k <= paid k + 1)%N.
Proof.
  unfold paid. change (folded spec []) with (folded spec ([] : list EventPayload)).
  change (finishes_last k) with (finishes_last ([] ++ k)).
  generalize ([] : list EventPayload) as pre. unfold decisions.
  induction k as [|p k IH]; intros pre Hf; simpl; [lia|].
  assert (finishes_last ((pre ++ [p]) ++ k)) as Hf' by (by rewrite <-app_assoc).
  specialize (IH _ Hf'). rewrite after_app in IH. simpl in IH.
  destruct (is_decided p) eqn:Ed; simpl; [|lia].
  destruct (finishes (fs_harness (folded spec pre)) p) eqn:Ef; simpl; [|lia].
  destruct p; try done. destruct (Hf pre effect k eq_refl Ef) as [Hn _].
  enough (List.filter is_decided k = []) as -> by (simpl; lia).
  clear -Hn. induction k as [|q k IH]; [done|]. simpl in *. apply orb_false_iff in Hn as [-> Hn].
  by apply IH.
Qed.

(** Nothing is decided in [ps], and a finishing decision before it is followed
    as it may be. *)
Lemma finishes_last_quiet k ps :
  finishes_last k -> existsb is_decided ps = false ->
  (forall before eff, k = before ++ [EffectDecided eff] ->
     finishes (fs_harness (folded spec before)) (EffectDecided eff) = true ->
     match ps with [] => True | p :: _ => p = EffectAuthorized eff \/ is_run_end p = true end) ->
  finishes_last (k ++ ps).
Proof.
  intros Hf Hq Hl a eff b He Hr.
  apply app_eq_inv in He as [(c & -> & Hc)|(c & -> & Hc)].
  - destruct c as [|q c]; simplify_eq/=.
    destruct (Hf a eff c eq_refl Hr) as [Hd Hh]. split.
    + by rewrite existsb_app', Hd, Hq.
    + destruct c; [|done]. apply (Hl a eff eq_refl Hr).
  - rewrite Hc, existsb_app' in Hq. simpl in Hq. by rewrite orb_true_r in Hq.
Qed.

Lemma finishing_harness before eff :
  finishes (fs_harness (folded spec before)) (EffectDecided eff) = true ->
  exists o st a ans, eff = EComplete o /\
    fs_harness (folded spec (before ++ [EffectDecided eff])) = Running st a ans.
Proof.
  simpl. intros Hf. apply andb_true_iff in Hf as [Hc Hr]. destruct eff; try done.
  rewrite after_app, after_harness. simpl. rewrite harness_step_decided.
  destruct (fs_harness (folded spec before)) eqn:E; try done. by repeat eexists.
Qed.

Lemma between_quiet k ps :
  finishes_last k -> existsb is_decided ps = false -> alive spec k -> between spec k ->
  finishes_last (k ++ ps).
Proof.
  intros Hf Hq Ha Hb. apply finishes_last_quiet; [done..|].
  intros before eff -> _. by destruct (Hb Ha eff); rewrite last_snoc.
Qed.

Lemma after_terminal s ps :
  harness_is_terminal (fs_harness s) = true -> fs_harness (after spec s ps) = fs_harness s.
Proof.
  revert s; induction ps as [|p ps IH]; intros s Ht; [done|].
  change (p :: ps) with ([p] ++ ps). rewrite after_app.
  assert (fs_harness (after spec s [p]) = fs_harness s) as Hp.
  { rewrite after_harness. unfold harness_step. simpl. by rewrite reduce_terminal. }
  by rewrite IH, Hp; rewrite ?Hp.
Qed.

(** A log whose finishing decision was followed up does not go on. *)
Lemma finished_not_alive a eff p c :
  finishes (fs_harness (folded spec a)) (EffectDecided eff) = true ->
  (p = EffectAuthorized eff \/ is_run_end p = true) ->
  alive spec (a ++ EffectDecided eff :: p :: c) -> False.
Proof.
  intros Hf Hp [Ht He]. destruct (finishing_harness _ _ Hf) as (o & st & at' & ans & -> & Hh).
  assert (a ++ EffectDecided (EComplete o) :: p :: c =
    (a ++ [EffectDecided (EComplete o)]) ++ p :: c) as E by (by rewrite <-app_assoc).
  rewrite E in Ht, He. rewrite ended_app in He. simpl in He. destruct Hp as [->|Hp].
  - rewrite (assoc (++) (a ++ [_]) [EffectAuthorized (EComplete o)] c : _ ++ (_ :: _) = _) in Ht.
    rewrite (after_app _ _ (_ ++ [EffectAuthorized _])), after_app in Ht.
    assert (fs_harness (after spec (folded spec (a ++ [EffectDecided (EComplete o)]))
      [EffectAuthorized (EComplete o)]) = Completed o) as Hc by (by rewrite after_harness, Hh).
    by rewrite after_terminal, Hc in Ht by (by rewrite Hc).
  - rewrite Hp in He. simpl in He. by rewrite orb_true_r in He.
Qed.

(** Once a harness that goes on decided to finish, the step settles it. *)
Lemma settled_finishing before eff ps :
  finishes (fs_harness (folded spec before)) (EffectDecided eff) = true ->
  settled spec tools (folded spec (before ++ [EffectDecided eff])) eff ps ->
  exists o, ps = [EffectAuthorized eff; RunCompleted o].
Proof.
  intros Hf. destruct (finishing_harness _ _ Hf) as (o & st & a & ans & -> & Hh).
  intros Hs. inversion Hs as [reason Hd| |]; simplify_eq/=; [|by eexists].
  rewrite Hh in Hd. by destruct Hd.
Qed.

Lemma quiet_last ps eff : existsb is_decided ps = false -> last ps <> Some (EffectDecided eff).
Proof.
  intros Hq Hl. apply last_Some in Hl as [qs ->]. rewrite existsb_app' in Hq. simpl in Hq.
  by rewrite orb_true_r in Hq.
Qed.

Lemma between_app k ps : ps <> [] -> existsb is_decided ps = false -> between spec (k ++ ps).
Proof.
  intros Hne Hq _ eff. rewrite last_app. destruct (last ps) as [p|] eqn:Hl.
  - rewrite <-Hl. by apply quiet_last.
  - by apply last_None in Hl.
Qed.

Lemma advance_decides_nothing s : existsb is_decided (advance spec s) = false.
Proof. unfold advance. by destruct (advances _ _). Qed.

Lemma settled_quiet s eff ps :
  settled spec tools s eff ps -> ps <> [] /\ existsb is_decided ps = false.
Proof.
  destruct 1 as [| |out s' ? ? ? ? Ho]; [done..|]. split; [done|]. simpl.
  rewrite existsb_app', advance_decides_nothing. by destruct Ho.
Qed.

Lemma turn_finishes_last k ps :
  finishes_last k -> alive spec k -> between spec k -> turn spec tools (folded spec k) ps ->
  finishes_last (k ++ ps) /\ between spec (k ++ ps).
Proof.
  intros Hf Ha Hb. destruct 1 as [eff Ho|eff ps Ho Hs].
  - split; [by apply between_quiet|by apply between_app].
  - destruct (settled_quiet _ _ _ Hs) as [Hne Hq]. rewrite <-after_app in Hs.
    assert (k ++ EffectDecided eff :: ps = (k ++ [EffectDecided eff]) ++ ps) as ->
      by (by rewrite <-app_assoc).
    split; [|by apply between_app]. apply finishes_last_quiet; [|done|].
    + intros a eff' b He Hr. apply app_eq_inv in He as [(c & -> & Hc)|(c & -> & Hc)].
      * destruct c as [|q c]; simplify_eq/=; [by split|].
        destruct (Hf a eff' c eq_refl Hr) as [Hd Hh]. exfalso.
        destruct c as [|q c]; [by destruct (Hb Ha eff'); rewrite last_snoc|].
        by eapply finished_not_alive.
      * apply (f_equal length) in Hc as Hlen. rewrite length_app in Hlen. simpl in Hlen.
        destruct c; [|simpl in Hlen; lia]. destruct b; [|simpl in Hlen; lia]. by split.
    + intros before eff' He Hr. apply app_inj_2 in He as [-> [= ->]]; [|done].
      destruct (settled_finishing _ _ _ Hr Hs) as [o ->]. by left.
Qed.

Lemma runs_finishes_last k log' :
  runs spec tools k log' -> finishes_last k -> between spec k -> finishes_last log'.
Proof.
  induction 1 as [|k Ha|k ps log' Ha Ht _ IH]; intros Hf Hb; [done|..].
  - by apply between_quiet.
  - destruct (turn_finishes_last _ _ Hf Ha Hb Ht). by apply IH.
Qed.

Lemma recovery_finishes_last k ps :
  recovery spec tools k ps -> finishes_last k ->
  finishes_last (k ++ ps) /\ between spec (k ++ ps).
Proof.
  assert (forall a s, existsb is_decided (a ++ advance spec s) = existsb is_decided a) as Hadv
    by (intros a s; by rewrite existsb_app', advance_decides_nothing, orb_false_r).
  assert (forall s' eff out, outcome s' eff out -> out <> [] /\ existsb is_decided out = false)
    as Hout by (by destruct 1).
  destruct 1 as [Hb|before eff ps -> Ha Hs|before eff out -> Ha Hap Hc Ho|Ha Hb]; intros Hf.
  - by rewrite app_nil_r.
  - destruct (settled_quiet _ _ _ Hs) as [Hne Hq].
    split; [|apply between_app; [by destruct ps|by rewrite Hadv]].
    apply finishes_last_quiet; [done|by rewrite Hadv|].
    intros before' eff' He Hr. apply app_inj_2 in He as [-> [= ->]]; [|done].
    destruct (settled_finishing _ _ _ Hr Hs) as [o ->]. by left.
  - destruct (Hout _ _ _ Ho) as [Hne Hq].
    split; [|apply between_app; [by destruct out|by rewrite Hadv]].
    apply between_quiet; [done|by rewrite Hadv|done|].
    intros _ eff'. by rewrite last_snoc.
  - split; [by apply between_quiet; [|apply advance_decides_nothing| |]|].
    unfold advance. destruct (advances _ _); [by apply between_app|by rewrite app_nil_r].
Qed.

(** ** Progress *)

Lemma steps_quiet s ps :
  existsb is_decided ps = false -> fs_steps (after spec s ps) = fs_steps s.
Proof.
  revert s; induction ps as [|p ps IH]; intros s; simpl; [done|].
  intros [Hp Hps]%orb_false_iff. rewrite IH by done. rewrite fold_payload_steps. by destruct p.
Qed.

(** A turn ends the run or uses one of the steps left. *)
Lemma turn_progress s ps :
  limits_u32 (limits spec) -> turn spec tools s ps ->
  ended ps = true \/
  (fs_steps s < max_steps (limits spec))%N /\ fs_steps (after spec s ps) = (fs_steps s + 1)%N.
Proof.
  intros Hu. destruct 1 as [eff Hb|eff ps Hb Hs]; [by left|].
  apply not_over_budget in Hb as [Hst _]; [|done].
  change (EffectDecided eff :: ps) with ([EffectDecided eff] ++ ps).
  rewrite ended_app, after_app, steps_quiet by (by eapply settled_quiet).
  destruct (is_complete eff && is_running (fs_harness s)) eqn:Ec.
  - left. bool_to_prop. destruct eff as [| | | | | | | | | | |o]; try done.
    assert (applicable (fs_harness (after spec s [EffectDecided (EComplete o)]))
      (EComplete o) spec = true) as Hap.
    { rewrite after_harness. simpl. rewrite harness_step_decided.
      by destruct (fs_harness s). }
    inversion Hs as [reason Hd|o' Ho|]; simplify_eq/=; [|done].
    destruct Hd as [Hd|Hd]; [done|congruence].
  - assert (fs_steps s + fs_given_steps s < max_steps (limits spec))%N as Hlt.
    { destruct Hst as [Hc|]; [|done]. simpl in Hc. by rewrite Hc in Ec. }
    right. destruct Hu as [Hu _]. split; [lia|]. simpl. rewrite fold_payload_steps.
    simpl. rewrite Ec. simpl. rewrite wrap_add32_exact; lia.
Qed.

(** ** A harness that ended belongs to a log that ended *)

Definition completes (p : EventPayload) : bool :=
  match p with EffectAuthorized (EComplete _) => true | _ => false end.

Lemma harness_step_ends h p :
  harness_is_terminal h = false -> is_run_end p = false -> completes p = false ->
  harness_is_terminal (harness_step spec h p) = false.
Proof.
  intros Hh Hp Hc. unfold harness_step, reduce, on_authorized, answer_ask. rewrite Hh. simpl.
  destruct p; try done; by crush_match.
Qed.

Lemma after_ends s ps :
  harness_is_terminal (fs_harness s) = false -> ended ps = false ->
  existsb completes ps = false -> harness_is_terminal (fs_harness (after spec s ps)) = false.
Proof.
  rewrite after_harness. generalize (fs_harness s). induction ps as [|p ps IH]; [done|].
  intros h Hh He Hc. unfold ended in *. simpl in *. bool_to_prop.
  apply IH; [|done|done]. by apply harness_step_ends.
Qed.

(** In [ps], recorded from [s] on, the harness ends only with the log. *)
Definition ends_with (s : FoldState) (ps : list EventPayload) : Prop :=
  harness_is_terminal (fs_harness s) = false ->
  harness_is_terminal (fs_harness (after spec s ps)) = true -> ended ps = true.

Lemma quiet_ends_with s ps : existsb completes ps = false -> ends_with s ps.
Proof.
  intros Hc Hs Ht. destruct (ended ps) eqn:He; [done|]. by rewrite after_ends in Ht.
Qed.

Lemma advance_completes s : existsb completes (advance spec s) = false.
Proof. unfold advance. by destruct (advances _ _). Qed.

Lemma settled_ends_with s eff ps : settled spec tools s eff ps -> ends_with s ps.
Proof.
  destruct 1 as [reason Hd|o -> Hap|out s' Hal Hap Hc -> Ho].
  - by apply quiet_ends_with.
  - by intros _ _.
  - apply quiet_ends_with. simpl. rewrite existsb_app', advance_completes.
    destruct eff; try done; by destruct Ho.
Qed.

Lemma turn_ends_with s ps : turn spec tools s ps -> ends_with s ps.
Proof.
  destruct 1 as [eff Hb|eff ps Hb Hs]; [by intros _ _|]. intros Hn Ht.
  change (EffectDecided eff :: ps) with ([EffectDecided eff] ++ ps) in *.
  rewrite after_app in Ht. apply (settled_ends_with _ _ _ Hs); [|done].
  rewrite after_harness. simpl. by rewrite harness_step_decided.
Qed.

Lemma recovery_ends_with k ps : recovery spec tools k ps -> ends_with (folded spec k) ps.
Proof.
  destruct 1 as [|before eff ps Hk Ha Hs|before eff out Hk Ha Hap Hc Ho|Ha].
  - by apply quiet_ends_with.
  - intros Hn. unfold advance. destruct (advances _ _) eqn:Ea; rewrite ?app_nil_r.
    + rewrite after_app. intros Ht. exfalso.
      assert (harness_is_terminal (fs_harness (folded spec (k ++ ps))) = false) as Hf.
      { unfold advances in Ea. by destruct (fs_harness (folded spec (k ++ ps))). }
      rewrite after_app in Hf. by rewrite (after_ends _ [StepAdvanced]) in Ht.
    + by apply (settled_ends_with _ _ _ Hs).
  - apply quiet_ends_with. rewrite existsb_app', advance_completes. by destruct Ho.
  - apply quiet_ends_with, advance_completes.
Qed.

(** The harness of the log has not ended, or the log has. *)
Definition agrees (k : list EventPayload) : Prop :=
  harness_is_terminal (fs_harness (folded spec k)) = true -> ended k = true.

Lemma agrees_app k ps :
  agrees k -> ends_with (folded spec k) ps -> agrees (k ++ ps).
Proof.
  intros Hk He Ht. rewrite ended_app. rewrite after_app in Ht.
  destruct (harness_is_terminal (fs_harness (folded spec k))) eqn:E; [by rewrite Hk|].
  rewrite He by done. apply orb_true_r.
Qed.

Lemma runs_agrees k log' : runs spec tools k log' -> agrees k -> agrees log'.
Proof.
  induction 1 as [|k Ha|k ps log' Ha Ht _ IH]; intros Hk; [done|..].
  - apply agrees_app; [done|]. by apply quiet_ends_with.
  - apply IH, agrees_app; [done|]. by apply turn_ends_with.
Qed.

Lemma failed_ended k :
  is_failed_or_cancelled (fs_harness (folded spec k)) = true -> ended k = true.
Proof.
  induction k as [|p k IH] using rev_ind; [done|]. rewrite after_app, after_harness, ended_app.
  simpl. destruct (is_failed_or_cancelled (fs_harness (folded spec k))) eqn:Hf;
    [by rewrite IH|].
  intros Hp. rewrite orb_false_r. destruct (is_run_end p) eqn:He; [apply orb_true_r|]. exfalso.
  revert Hf Hp. generalize (fs_harness (folded spec k)). intros h Hf.
  unfold harness_step, reduce, on_authorized, answer_ask. simpl.
  destruct (harness_is_terminal h); [simpl; congruence|].
  destruct p; simplify_eq/=; try congruence; repeat (split_match; simplify_eq/=; try congruence).
Qed.

End SpecFacts.

Section DriverFacts.
Context `{UuidCrate} {W : Type} `{World W} `{Memory W}.
Implicit Types (d : Driver W) (w : W).

Abbreviation log d := (payload <$> d_events d).

(** ** Termination *)

Definition steps_left d : nat :=
  N.to_nat (max_steps (limits (d_spec d)) - fs_steps (folded (d_spec d) (log d))).

Lemma run_loop_ended decider tools models at_boundary fuel d w :
  ended (log d) = true ->
  run_loop decider tools models at_boundary (S fuel) d w = Some (Ok tt, (d, w)).
Proof. intros He. simpl. by rewrite log_ended_log, He, orb_true_r. Qed.

Lemma turn_steps_left d d1 tools ps :
  limits_u32 (limits (d_spec d)) -> appended d d1 ps ->
  turn (d_spec d) tools (folded (d_spec d) (log d)) ps ->
  ended (log d1) = true \/ (S (steps_left d1) = steps_left d).
Proof.
  intros Hu Ha Ht. apply turn_progress in Ht; [|done].
  rewrite (appended_log _ _ _ Ha), ended_app. unfold steps_left.
  rewrite (appended_log _ _ _ Ha), (appended_spec _ _ _ Ha), after_app.
  destruct Ht as [->|[Hlt ->]]; [left; apply orb_true_r|right; lia].
Qed.

Lemma run_loop_total decider tools models at_boundary fuel d w :
  limits_u32 (limits (d_spec d)) -> (steps_left d + 2 <= fuel)%nat ->
  is_Some (run_loop decider tools models at_boundary fuel d w).
Proof.
  revert d w; induction fuel as [|fuel IH]; intros d w Hu Hf; [lia|]. simpl.
  destruct (harness_is_terminal (harness (state d)) || log_ended d) eqn:Ealive; [by eexists|].
  bool_to_prop. destruct (at_boundary d w) as [[] w1]; [|by eexists..].
  assert (forall k : option (result unit DeciderError * (Driver W * W)), is_Some k ->
    is_Some match harness (state d) with
    | WaitingForMessage _ _ _ => Some (Ok tt, (d, w1))
    | _ => k end) as Hwait.
  { intros k Hk. destruct (harness (state d)); done. }
  apply Hwait. clear Hwait.
  assert (forall d1 w1 ps, appended d d1 ps ->
    turn (d_spec d) (descriptor <$> tools) (folded (d_spec d) (log d)) ps ->
    is_Some (run_loop decider tools models at_boundary fuel d1 w1)) as Hnext.
  { intros d1 w2 ps Ha Ht. destruct (turn_steps_left _ _ _ _ Hu Ha Ht) as [He|Hs].
    - destruct fuel; [lia|]. rewrite run_loop_ended by done. by eexists.
    - apply IH; [by rewrite (appended_spec _ _ _ Ha)|lia]. }
  destruct (driver_decide d w1 decider (descriptor <$> tools)) as [res [d1 w2]] eqn:Ed.
  apply driver_decide_turn in Ed; [|done]. destruct res as [[|eff effs]|err]; [| |by eexists].
  - destruct Ed as (ps & Ha & Ht).
    destruct (harness_is_terminal (harness (state d1))); [by eexists|].
    by eapply Hnext.
  - destruct Ed as (eff' & [= -> ->] & Hb & Ha & Hal & Hap & Hc & Hr).
    destruct (perform d1 w2 [eff'] tools models) as [d2 w3] eqn:Ep.
    destruct (advance_answered_step d2 w3) as [d3 w4] eqn:Eadv.
    edestruct performed_turn as (ps & Hps & Hturn); [by eauto..|]. by eapply Hnext.
Qed.

(** ** Booted and resumed drivers *)

(** [d] is [d0] with collaborators set: [with_spawner], [with_deliverer],
    [with_user_questions] and the parts of a catalog. *)
Definition configured d0 d : Prop :=
  d_spec d = d_spec d0 /\ d_events d = d_events d0 /\ d_pending d = d_pending d0 /\
  d_undecided d = d_undecided d0 /\ d_resumed d = d_resumed d0.

Lemma configured_refl d : configured d d.
Proof. done. Qed.

Lemma configured_first_ok d0 d : configured d0 d -> first_ok d0 -> first_ok d.
Proof.
  intros (Hs & He & Hp & Hu & Hr). unfold state in *.
  destruct 1 as [Hp0 Hu0 Hb0 Hr0|before eff Hu0 Hr0 Hl Ha|before eff Hp0 Hu0 Hr0 Hl Ha Hap Hc].
  - apply first_none; [congruence..| |]; [by rewrite Hs, He|]. unfold state. rewrite Hr, Hs, He. done.
  - apply (first_undecided _ before eff); unfold state; rewrite ?Hu, ?Hr, ?Hs, ?He; done.
  - apply (first_pending _ before eff); unfold state; rewrite ?Hp, ?Hu, ?Hr, ?Hs, ?He; done.
Qed.

Lemma started_folded spec es :
  existsb (fun e => is_run_started (payload e)) es = false ->
  harness (fold spec es) = Idle.
Proof.
  induction es as [|e es IH] using rev_ind; [done|]. rewrite existsb_app'. simpl.
  intros [Hes He]%orb_false_iff. rewrite orb_false_r in He. rewrite fold_harness_snoc, IH by done.
  unfold reduce, on_authorized, answer_ask. simpl. destruct (payload e); try done.
  - by destruct expects_reply.
  - by destruct reply_to.
Qed.

Lemma log_snoc (es : list Event) p :
  payload <$> last es = Some p ->
  exists es' e, es = es' ++ [e] /\ payload e = p.
Proof.
  destruct es as [|e es _] using rev_ind; [done|]. rewrite last_snoc. intros [= <-]. eauto.
Qed.

(** What [resume] records at once: nothing on a log that ended, the start of a
    run that had not started, the end of one that had completed. *)
Inductive opening (spec : RunSpec) (k : list EventPayload) : list EventPayload -> Prop :=
| opening_none :
    ended k = true \/ (forall o, fs_harness (folded spec k) <> Completed o) -> opening spec k []
| opening_start :
    ended k = false -> fs_harness (folded spec k) = Idle -> opening spec k [RunStarted]
| opening_complete o :
    ended k = false -> fs_harness (folded spec k) = Completed o ->
    opening spec k [RunCompleted o].

(** A driver rebuilt from the stored log [es]. *)
Definition rebuilt (spec : RunSpec) (es : list Event) d : Prop :=
  d_spec d = spec /\ first_ok d /\
  exists new, d_events d = es ++ new /\ Forall (stamped spec) new /\
    opening spec (payload <$> es) (payload <$> new).

Lemma rebuilt_open spec es p u r :
  ended (payload <$> es) = true \/
    (forall o, fs_harness (folded spec (payload <$> es)) <> Completed o) ->
  first_ok (set_first (driver_new spec es) p u r : Driver W) ->
  rebuilt spec es (set_first (driver_new spec es) p u r).
Proof.
  intros Hn Hf. split_and!; [done|done|]. exists []. simpl. rewrite app_nil_r.
  split_and!; [done|done|by constructor].
Qed.

(** A push on a driver with nothing left to do first. *)
Lemma rebuilt_push spec es r w p a d w' :
  (r = true -> alive spec ((payload <$> es) ++ [p]) \/
     harness_is_terminal (fs_harness (folded spec ((payload <$> es) ++ [p]))) = true) ->
  push (set_first (driver_new spec es) [] None r) w p a = (d, w') ->
  opening spec (payload <$> es) [p] -> rebuilt spec es d.
Proof.
  intros Hr Hp%push_appended Ho.
  pose proof (appended_log _ _ _ Hp) as Hl. simpl in Hl.
  pose proof (appended_spec _ _ _ Hp) as Hs. simpl in Hs.
  destruct Hp as (new & Hd & Hnew & Hf). split_and!; [done| |].
  - apply first_none; [by rewrite Hd..| |].
    + rewrite Hl, Hs. intros _ eff. rewrite last_snoc. by inversion Ho.
    + rewrite harness_folded, Hl, Hs. rewrite Hd. exact Hr.
  - exists new. rewrite Hd, Hnew. by split_and!.
Qed.

Lemma resume_open_first_ok spec es :
  alive spec (payload <$> es) ->
  first_ok match payload <$> last es with
    | Some (EffectDecided effect) =>
        set_first (driver_new spec es : Driver W) []
          (Some (harness (fold spec (take (length es - 1) es)), effect)) true
    | _ => set_first (driver_new spec es) (effects_of_last spec es) None true
    end.
Proof.
  intros Ha. destruct es as [|e es _] using rev_ind.
  { apply first_none; [done|done|done|]. by left. }
  rewrite last_snoc. simpl.
  assert (fmap payload (es ++ [e]) = (payload <$> es) ++ [payload e]) as Hl
    by (by rewrite fmap_app).
  destruct (reduce_emits (harness (fold spec es)) e spec) as [Hn|(eff & Hp & Hap & Hem)].
  - destruct (is_decided (payload e)) eqn:Hd.
    2: { assert (first_ok (set_first (driver_new spec (es ++ [e]) : Driver W)
           (effects_of_last spec (es ++ [e])) None true)) as Hf
           by (rewrite effects_of_last_snoc, Hn; apply first_none; [done|done| |by left];
             simpl; rewrite Hl; intros _ eff; rewrite last_snoc; intros [= Hp]; by rewrite Hp in Hd).
         destruct (payload e); try exact Hf. done. }
    destruct (payload e) as [| | | | | | | | | | | | | | | | | |effect| | | | | | | | | | | | | | |]
      eqn:Hp; try done.
    apply first_undecided with (payload <$> es) effect; simpl; try done.
    do 2 f_equal. unfold state. simpl.
    rewrite length_app, Nat.add_sub, take_app_length, fold_harness_snoc.
    rewrite (reduce_payload _ e (sample_event (EffectDecided effect))) by done.
    symmetry. apply harness_step_decided.
  - rewrite Hp. apply first_pending with (payload <$> es) eff; simpl; try done.
    + by rewrite effects_of_last_snoc, Hem.
    + by rewrite Hl, Hp.
    + by rewrite fold_run_state in Hap.
    + destruct eff; try done. exfalso. apply applicable_running in Hap as (st & a & ans & Hs).
      rewrite Hs in Hem. unfold reduce in Hem. simpl in Hem. by rewrite Hp in Hem.
Qed.

Lemma resume_rebuilt spec es w d w' : resume spec es w = (Ok d, w') -> rebuilt spec es d.
Proof.
  unfold resume.
  rewrite ended_events.
  destruct (ended (payload <$> es)) eqn:He.
  { intros [= <- <-]. apply (rebuilt_open spec es [] None false); [by left|].
    apply first_none; [done..| |done]. intros [_ Ha]. simpl in Ha. congruence. }
  unfold state. rewrite fold_run_state. simpl.
  destruct (existsb (fun e => is_run_started (payload e)) es) eqn:Hst; simpl negb; cbv iota.
  2: { assert (fs_harness (folded spec (payload <$> es)) = Idle) as Hidle.
       { apply (started_folded spec) in Hst. by rewrite fold_run_state in Hst. }
       assert (forall d1 w1, push (driver_new spec es) w RunStarted ActorSystem = (d1, w1) ->
         rebuilt spec es d1) as Hpush.
       { intros d1 w1 Hp. apply (rebuilt_push spec es false w RunStarted ActorSystem d1 w1);
           [done|exact Hp|by constructor]. }
       destruct (fs_dispatch _); try done;
         destruct (push (driver_new spec es) w RunStarted ActorSystem) as [d1 w1];
         intros [= <- <-]; by eapply Hpush. }
  destruct (harness_is_terminal (fs_harness (folded spec (payload <$> es)))) eqn:Ht.
  - destruct (fs_harness (folded spec (payload <$> es))) as [| | | |o| |] eqn:Hh; try done.
    + destruct (push _ w (RunCompleted o) ActorSystem) as [d1 w1] eqn:E.
      intros [= <- <-]. eapply rebuilt_push; [|exact E|by constructor].
      intros _. right. rewrite after_app, after_harness, Hh. done.
    + intros [= <- <-]. apply rebuilt_open, first_none; [right; congruence|done|done| |];
        [intros [Ha _]; simpl in Ha; by rewrite Hh in Ha|]. right.
      by rewrite harness_folded; simpl; rewrite Hh.
    + intros [= <- <-]. apply rebuilt_open, first_none; [right; congruence|done|done| |];
        [intros [Ha _]; simpl in Ha; by rewrite Hh in Ha|]. right.
      by rewrite harness_folded; simpl; rewrite Hh.
  - assert (alive spec (payload <$> es)) as Ha by done.
    pose proof (resume_open_first_ok spec es Ha) as Hf.
    destruct (fs_harness (folded spec (payload <$> es))) eqn:Hh; try done; simpl;
      destruct (payload <$> last es) as [[]|]; intros [= <- <-];
      (apply rebuilt_open; [right; congruence|done]).
Qed.

Lemma boot_rebuilt spec w d w' : boot spec w = (Ok d, w') -> rebuilt spec [] d.
Proof.
  unfold boot. destruct (push _ w RunStarted ActorSystem) as [d1 w1] eqn:E.
  intros [= <- <-]. eapply (rebuilt_push spec [] false); [done|exact E|by constructor].
Qed.

(** [boot] is [resume] on an empty log. *)
Lemma boot_resume spec w :
  resume spec [] w = let '(r, w') := boot spec w in
    (match r with Ok d => Ok d | Err (BootUnsupportedPlacement p) =>
       Err (ResumeUnsupportedPlacement p) end, w').
Proof. unfold resume, boot. simpl. by destruct (push _ w RunStarted ActorSystem). Qed.

Lemma opening_agrees spec k ops : opening spec k ops -> agrees spec (k ++ ops).
Proof.
  destruct 1 as [[He|Hn]|He Hh|o He Hh]; unfold agrees; rewrite ?app_nil_r; [done|..].
  - intros Ht. apply (failed_ended spec). specialize (Hn). 
    destruct (fs_harness (folded spec k)) as [| | | |o| |]; try done. by destruct (Hn o).
  - by rewrite after_app, after_harness, Hh.
  - intros _. rewrite ended_app. apply orb_true_r.
Qed.

(** How the loop returns when nobody stops it. *)
Lemma run_loop_settles decider tools models fuel d w r d' w' :
  run_loop decider tools models (fun _ w => (Continue, w)) fuel d w = Some (r, (d', w')) ->
  match r with
  | Ok _ => harness_is_terminal (harness (state d')) = true \/ ended (log d') = true \/
      exists st a m, harness (state d') = WaitingForMessage st a m
  | Err _ => ended (log d') = false /\ harness_is_terminal (harness (state d')) = false
  end.
Proof.
  revert d w; induction fuel as [|fuel IH]; intros d w; simpl; [done|].
  destruct (harness_is_terminal (harness (state d)) || log_ended d) eqn:Ealive.
  { intros [= <- <- <-]. bool_to_prop. rewrite log_ended_log in Ealive. tauto. }
  bool_to_prop. rewrite log_ended_log in *.
  destruct (match harness (state d) with WaitingForMessage _ _ _ => true | _ => false end) eqn:Ew.
  { destruct (harness (state d)) eqn:Eh; try done. intros [= <- <- <-].
    right. right. eauto. }
  assert (forall k : option (result unit DeciderError * (Driver W * W)),
    match harness (state d) with
    | WaitingForMessage _ _ _ => Some (Ok tt, (d, w))
    | _ => k end = k) as -> by (by destruct (harness (state d))).
  destruct (driver_decide d w decider (descriptor <$> tools)) as [res [d1 w2]] eqn:Ed.
  apply driver_decide_turn in Ed; [|done]. destruct res as [[|eff effs]|err].
  - destruct (harness_is_terminal (harness (state d1))) eqn:Et; [|by apply IH].
    intros [= <- <- <-]. by left.
  - destruct (perform d1 w2 (eff :: effs) tools models) as [d2 w3].
    destruct (advance_answered_step d2 w3). apply IH.
  - intros [= <- <- <-]. by subst.
Qed.

(** ** The theorems *)

(** The fuel that is enough for a run of [spec]: each turn takes one of its
    steps, one more ends the run, and one sees that it ended. *)
Definition enough (spec : RunSpec) : nat := N.to_nat (max_steps (limits spec)) + 2.

Section Runs.
Context (decider : Decider W) (tools : list (Tool W)) (models : ModelCompletion W)
  (at_boundary : Driver W -> W -> Boundary * W).
Context (spec : RunSpec) (Hu : limits_u32 (limits spec)).
Context (es : list Event) (w0 w : W) (d0 d : Driver W)
  (Hresume : resume spec es w0 = (Ok d0, w)) (Hconf : configured d0 d).
Context (fuel : nat) (Hfuel : (enough spec <= fuel)%nat).

Lemma configured_rebuilt : rebuilt spec es d.
Proof.
  destruct (resume_rebuilt _ _ _ _ _ Hresume) as (Hs & Hf & Hn).
  pose proof Hconf as (Hs' & He & _). split_and!; [congruence|by eapply configured_first_ok|].
  by rewrite He.
Qed.

(** Everything the run records: what [resume] opened with, the rest of the
    step that was cut, then turns. *)
Lemma run_until_records :
  exists r d' w' new, run_until decider tools models at_boundary fuel d w = Some (r, (d', w')) /\
    d_events d' = es ++ new /\ Forall (stamped spec) new /\
    exists ops ps, opening spec (payload <$> es) ops /\
      recovery spec (descriptor <$> tools) ((payload <$> es) ++ ops) ps /\
      runs spec (descriptor <$> tools) (((payload <$> es) ++ ops) ++ ps) (log d').
Proof.
  destruct configured_rebuilt as (Hs & Hf & new & He & Hst & Hop).
  assert (is_Some (run_until decider tools models at_boundary fuel d w)) as [[r [d' w']] Hr].
  { unfold run_until. destruct (run_first tools models d w) as [d1 w1] eqn:E1.
    apply run_first_recovers in E1 as (ps & Ha & _); [|done].
    apply run_loop_total; unfold steps_left; rewrite (appended_spec _ _ _ Ha); simpl;
      rewrite Hs; [done|]. unfold enough in Hfuel. lia. }
  exists r, d', w'. apply run_until_refines in Hr as Href; [|done].
  destruct Href as (ps & qs & Ha & Hrec & Hruns).
  rewrite He, Hs, fmap_app in Hrec, Hruns.
  pose proof (appended_log _ _ _ Ha) as Hl. simpl in Hl. rewrite He, fmap_app in Hl.
  destruct Ha as (new' & Hd' & Hnew' & Hst'). simpl in Hst'. rewrite Hs in Hst'.
  exists (new ++ new'). split_and!; [done| | |].
  - rewrite Hd'. simpl. by rewrite He, app_assoc.
  - by apply Forall_app.
  - exists (payload <$> new), ps. rewrite Hl, app_assoc. by split_and!.
Qed.

Lemma opening_due k ops : opening spec k ops -> all_due spec (descriptor <$> tools) k ops.
Proof. by destruct 1. Qed.

Lemma opening_finishes_last k ops :
  opening spec k ops -> finishes_last spec k -> finishes_last spec (k ++ ops).
Proof.
  intros Hop Hf. apply finishes_last_quiet; [done|by destruct Hop|].
  intros before eff -> Hr. destruct (finishing_harness _ _ _ Hr) as (o & st & a & ans & -> & Hh).
  destruct Hop as [|_ Hi|o' _ Hc]; [done|congruence|by right].
Qed.

Lemma opening_one_end k ops : opening spec k ops -> one_end k -> one_end (k ++ ops).
Proof. destruct 1; intros Ho; [by rewrite app_nil_r|by apply one_end_last..]. Qed.

(** Every recorded event was due, and the log keeps its one end. *)
Lemma run_until_due :
  one_end (payload <$> es) ->
  exists r d' w' new, run_until decider tools models at_boundary fuel d w = Some (r, (d', w')) /\
    d_events d' = es ++ new /\ Forall (stamped spec) new /\ one_end (log d') /\
    all_due spec (descriptor <$> tools) (payload <$> es) (payload <$> new).
Proof.
  intros Ho.
  destruct run_until_records as (r & d' & w' & new & Hr & He & Hst & ops & ps & Hop & Hrec & Hruns).
  exists r, d', w', new. split_and!; try done.
  - eapply runs_one_end; [done|]. eapply recovery_one_end; [done|]. by apply opening_one_end.
  - apply opening_due in Hop. apply recovery_due in Hrec.
    destruct (runs_due _ _ _ _ Hruns) as (qs & Hl & Hq).
    rewrite He, fmap_app, <-!app_assoc in Hl. apply app_inv_head in Hl. rewrite Hl.
    rewrite !all_due_app. by split_and!.
Qed.

(** The decision that finishes the run stays its last one. *)
Lemma run_until_finishes_last r d' w' :
  run_until decider tools models at_boundary fuel d w = Some (r, (d', w')) ->
  finishes_last spec (payload <$> es) -> finishes_last spec (log d').
Proof.
  destruct run_until_records as (r1 & d1 & w1 & new & Hr & _ & _ & ops & ps & Hop & Hrec & Hruns).
  rewrite Hr. intros [= <- <- <-] Hf. apply opening_finishes_last in Hop; [|done].
  destruct (recovery_finishes_last _ _ _ _ Hrec Hop). by eapply runs_finishes_last.
Qed.

(** C11. A run's loop terminates: whatever the decider, the tools, the models,
    the memory, the spawner and the deliverer answer, a driver resumed from any
    log (or booted, which is the empty log) returns within
    [max_steps + 2] iterations, even a decider that only proposes effects the
    policy denies. *)
Theorem run_until_terminates :
  is_Some (run_until decider tools models at_boundary fuel d w).
Proof. destruct run_until_records as (r & d' & w' & new & -> & _). by eexists. Qed.

(** A run's log is append-only and ends once: the driver returns with the
    stored log extended by events of this run (its run, agent, version and
    parent on every envelope), and a log with at most one terminal event, the
    last, still is one, which is what the store asks of a log. *)
Theorem run_until_log_append_only (Hone : one_end (payload <$> es)) :
  exists r d' w' new, run_until decider tools models at_boundary fuel d w = Some (r, (d', w')) /\
    d_events d' = es ++ new /\ Forall (stamped spec) new /\ one_end (log d').
Proof.
  destruct (run_until_due Hone) as (r & d' & w' & new & Hr & He & Hst & Ho & _).
  by exists r, d', w', new.
Qed.

(** C1. Nothing is done without its authorization: of the events a driver
    records, an [EffectAuthorized] comes right after the [EffectDecided] of the
    same effect, the policy allows that effect and the harness acts on it; an
    effect is denied only if one of the two fails; a decision is recorded only
    within the budget; a tool result only for the call the harness waits on;
    and the run is completed only by a harness that completed. *)
Theorem run_until_records_only_what_is_due (Hone : one_end (payload <$> es)) :
  exists r d' w', run_until decider tools models at_boundary fuel d w = Some (r, (d', w')) /\
    forall k p rest, log d' = k ++ p :: rest -> (length es <= length k)%nat ->
      due spec (descriptor <$> tools) k p.
Proof.
  destruct (run_until_due Hone) as (r & d' & w' & new & Hr & He & _ & _ & Hd).
  exists r, d', w'. split; [done|]. intros k p rest Hl Hlen.
  rewrite He, fmap_app in Hl.
  assert (exists a, k = (payload <$> es) ++ a /\ payload <$> new = a ++ p :: rest)
    as (a & -> & Hn).
  { apply app_eq_inv in Hl as [(a & Hk & Hr')|(a & Hk & Hr')].
    - assert (a = []) as -> by (apply (f_equal length) in Hk; rewrite length_app, length_fmap in Hk;
        destruct a; [done|simpl in Hk; lia]). exists []. rewrite app_nil_r in *. subst.
      split; [done|]. by simpl in Hr'.
    - by exists a. }
  by eapply all_due_split.
Qed.

(** C4. A run keeps its own budget, at every moment of it.  If the events of
    the stored log are within the limits, so are those of every longer prefix
    of the log the driver returns (and so of any log a crash can leave): the
    [EffectDecided] events that cost a step are at most [max_steps], only the
    decision that finishes the run costs none and no decision comes after it,
    so that there are at most [max_steps + 1] in all, and the authorized model
    calls, with the one decided and not yet authorized, are at most
    [max_model_calls].  The [u32] counters the budget is checked against are
    exactly these numbers of events: they never wrap. *)
Theorem run_until_within_budget (Hone : one_end (payload <$> es))
    (Hw : within spec (payload <$> es)) :
  exists r d' w', run_until decider tools models at_boundary fuel d w = Some (r, (d', w')) /\
    forall k, (payload <$> es) `prefix_of` k -> k `prefix_of` log d' ->
      within spec k /\
      (decisions k <= max_steps (limits spec) + 1)%N /\
      fs_steps (folded spec k) = paid spec k /\
      fs_model_calls (folded spec k) = authorized_calls k.
Proof.
  destruct (run_until_due Hone) as (r & d' & w' & new & Hr & He & _ & _ & Hd).
  exists r, d', w'. split; [done|]. destruct Hw as (Hp & Hm & Hf).
  assert (finishes_last spec (log d')) as Hlast by (by eapply run_until_finishes_last).
  intros k [a ->] [b Hb]. rewrite Hb in Hlast. apply finishes_last_prefix in Hlast.
  rewrite He, fmap_app, <-app_assoc in Hb. apply app_inv_head in Hb.
  rewrite Hb in Hd. apply all_due_app in Hd as [Hd _].
  eapply all_due_counted in Hd as [Hp' Hm']; [|done|by split]. destruct Hu as [Hu1 Hu2].
  split_and!; [done..| | |].
  - pose proof (finishes_last_once _ _ Hlast). lia.
  - apply steps_exact. lia.
  - apply model_calls_exact. lia.
Qed.

End Runs.

(** A run that is carried to completion is settled: the driver returns, and
    unless the decider failed the log has its terminal event or the run waits
    for a message; a failure of the decider leaves the log open, with no
    terminal event. *)
Theorem run_to_completion_settles decider tools models spec es w0 w d0 d fuel :
  limits_u32 (limits spec) -> resume spec es w0 = (Ok d0, w) -> configured d0 d ->
  (enough spec <= fuel)%nat ->
  exists r d' w', run_to_completion decider tools models fuel d w = Some (r, (d', w')) /\
    match r with
    | Ok _ => ended (log d') = true \/
        exists st a m, harness (state d') = WaitingForMessage st a m
    | Err _ => ended (log d') = false /\ harness_is_terminal (harness (state d')) = false
    end.
Proof.
  intros Hu Hres Hconf Hfuel.
  destruct (run_until_records decider tools models (fun _ w => (Continue, w)) spec Hu es w0 w
    d0 d Hres Hconf fuel Hfuel)
    as (r & d' & w' & new & Hr & He & Hst & ops & ps & Hop & Hrec & Hruns).
  exists r, d', w'. split; [done|].
  assert (agrees spec (log d')) as Hag.
  { eapply runs_agrees; [done|]. apply agrees_app; [by apply opening_agrees|].
    by eapply recovery_ends_with. }
  pose proof (configured_rebuilt spec es w0 w d0 d Hres Hconf) as (Hs & Hf & _).
  unfold run_until in Hr. destruct (run_first tools models d w) as [d1 w1] eqn:E1.
  apply run_first_recovers in E1 as (ps' & Ha1 & _); [|done].
  pose proof (run_loop_runs _ _ _ _ _ _ _ _ _ _ Hr) as (qs & Ha2 & _).
  apply run_loop_settles in Hr. destruct r; [|done].
  destruct Hr as [Ht|Hr]; [|done]. left. apply Hag.
  by rewrite harness_folded, (appended_spec _ _ _ Ha2), (appended_spec _ _ _ Ha1) in Ht;
    simpl in Ht; rewrite Hs in Ht.
Qed.

(** A log that ended stays as it is: a driver resumed from it calls nobody
    (neither the decider nor any collaborator, the world is untouched), records
    nothing and returns at once. *)
Theorem resume_ended_log_is_inert decider tools models at_boundary spec es w fuel :
  ended (payload <$> es) = true ->
  exists d0, resume spec es w = (Ok d0, w) /\ d_events d0 = es /\
    forall d, configured d0 d ->
      run_until decider tools models at_boundary (S fuel) d w = Some (Ok tt, (d, w)).
Proof.
  intros He. exists (driver_new spec es). unfold resume.
  rewrite ended_events, He.
  split_and!; [done|done|]. intros d (Hs & Hev & Hp & Hu & Hr). unfold run_until, run_first.
  simpl in Hp, Hu, Hr. rewrite Hu, Hr. cbv beta iota zeta.
  rewrite run_loop_ended by (simpl; by rewrite Hev).
  destruct d; simpl in *. by subst.
Qed.

(** ** Crashes

    A run cut in the middle of a turn: after the decision was recorded, or
    after its authorization was. *)

(** The driver [d0] with the collaborators of [d]. *)
Definition like d d0 : Driver W :=
  mkDriver (d_spec d0) (d_events d0) (d_skills d) (d_loaded d) (d_spawner d) (d_deliverer d)
    (d_user_questions d) (d_targets d) (d_pending d0) (d_undecided d0) (d_resumed d0).

(** A driver at the head of its loop, about to decide. *)
Record at_head d : Prop := mkAtHead {
  head_pending : d_pending d = [];
  head_undecided : d_undecided d = None;
  head_resumed : d_resumed d = false;
  head_started : existsb (fun e => is_run_started (payload e)) (d_events d) = true;
  head_alive : alive (d_spec d) (log d);
  head_advanced : advances (d_spec d) (harness (state d)) = false;
}.

Lemma set_first_like d d1 ps p u r :
  at_head d -> appended d d1 ps ->
  set_first (like d (set_first (driver_new (d_spec d) (d_events d1)) p u r)) [] None false = d1.
Proof.
  intros [Hp Hu Hr _ _ _] (new & -> & _). unfold like, set_first, set_events, driver_new. simpl.
  by rewrite Hp, Hu, Hr.
Qed.

Lemma head_started_app d d1 ps :
  at_head d -> appended d d1 ps ->
  existsb (fun e => is_run_started (payload e)) (d_events d1) = true.
Proof.
  intros Hh (new & -> & _). simpl. by rewrite existsb_app', head_started.
Qed.

Lemma advance_noop d w :
  advances (d_spec d) (harness (state d)) = false -> advance_answered_step d w = (d, w).
Proof.
  unfold advance_answered_step, advances. destruct (harness (state d)) as [|st a []| | | | |];
    try done. rewrite N.ltb_antisym. by destruct (_ <=? st)%N.
Qed.

(** [resume] on a log that has started, has not ended and was cut. *)
Lemma resume_open spec es w :
  existsb (fun e => is_run_started (payload e)) es = true -> alive spec (payload <$> es) ->
  resume spec es w =
    (Ok match payload <$> last es with
        | Some (EffectDecided effect) =>
            set_first (driver_new spec es) []
              (Some (harness (fold spec (take (length es - 1) es)), effect)) true
        | _ => set_first (driver_new spec es) (effects_of_last spec es) None true
        end, w).
Proof.
  intros Hs [Ht He]. unfold resume. rewrite Hs.
  rewrite ended_events, He. simpl negb. cbv iota.
  unfold state. simpl. rewrite fold_run_state. simpl.
  destruct (fs_harness (folded spec (payload <$> es))); try done; simpl;
    by destruct (payload <$> last es) as [[]|].
Qed.

Section Crash.
Context (decider : Decider W) (tools : list (Tool W)) (models : ModelCompletion W)
  (at_boundary : Driver W -> W -> Boundary * W).
Context (d : Driver W) (w w1 w2 w3 : W) (eff : Effect) (d1 : Driver W) (fuel : nat).
Context (Hhead : at_head d)
  (Hboundary : at_boundary d w = (Continue, w1))
  (Hwaiting : forall st a m, harness (state d) <> WaitingForMessage st a m)
  (Hdecider : decider (decision_view d (descriptor <$> tools) (d_skills d)) w1 = (Ok eff, w2))
  (Hbudget : over_budget (d_spec d) (state d) eff = false)
  (Hdecided : push d w2 (EffectDecided eff) ActorAgent = (d1, w3)).

Abbreviation loop := (run_loop decider tools models at_boundary).

(** The rest of the turn, from the authorization on. *)
Definition rest_of_turn (fuel : nat) (r : list Effect * (Driver W * W))
    : option (result unit DeciderError * (Driver W * W)) :=
  match r with
  | ([], (d, w)) =>
      if harness_is_terminal (harness (state d)) then Some (Ok tt, (d, w)) else loop fuel d w
  | (effects, (d, w)) =>
      let '(d, w) := perform d w effects tools models in
      let '(d, w) := advance_answered_step d w in
      loop fuel d w
  end.

Lemma loop_turn fuel' :
  loop (S fuel') d w =
  rest_of_turn fuel' (authorize_decided d1 w3 (harness (state d)) eff (descriptor <$> tools)).
Proof.
  destruct (head_alive d Hhead) as [Ht He]. rewrite <-harness_folded in Ht. simpl.
  rewrite Ht, log_ended_log, He, Hboundary. simpl.
  assert (forall k : option (result unit DeciderError * (Driver W * W)),
    match harness (state d) with
    | WaitingForMessage _ _ _ => Some (Ok tt, (d, w1))
    | _ => k end = k) as ->.
  { intros k. destruct (harness (state d)) eqn:E; try done. by destruct (Hwaiting _ _ _ eq_refl). }
  unfold driver_decide, decide_with_skills. rewrite Ht, Hdecider, Hbudget, Hdecided.
  by destruct (authorize_decided d1 w3 _ eff _) as [[|] []].
Qed.

Lemma decided_harness : harness (state d1) = harness (state d).
Proof.
  pose proof (push_appended _ _ _ _ _ _ Hdecided) as Ha.
  rewrite !harness_folded, (appended_log _ _ _ Ha), (appended_spec _ _ _ Ha).
  rewrite after_app, after_harness. apply harness_step_decided.
Qed.

Lemma decided_alive : alive (d_spec d) (log d1).
Proof.
  pose proof (push_appended _ _ _ _ _ _ Hdecided) as Ha.
  destruct (head_alive d Hhead) as [Ht He]. split.
  - rewrite (appended_log _ _ _ Ha), after_app, after_harness. simpl.
    by rewrite harness_step_decided.
  - by rewrite (appended_log _ _ _ Ha), ended_app, He.
Qed.

(** A run resumed with nothing to perform goes on as the loop does. *)
Lemma rest_of_denied d2 w4 :
  advances (d_spec d2) (harness (state d2)) = false ->
  (let '(d, w) := advance_answered_step d2 w4 in loop (S fuel) d w) =
  rest_of_turn (S fuel) ([], (d2, w4)).
Proof.
  intros Hadv. rewrite advance_noop by done. simpl.
  destruct (harness_is_terminal (harness (state d2))) eqn:Et; done.
Qed.

(** The decision is authorized from the harness [resume] finds. *)
Lemma resumed_rest w' d2 w4 effs :
  authorize_decided d1 w' (harness (state d)) eff (descriptor <$> tools) = (effs, (d2, w4)) ->
  (let '(d, w) := perform d2 w4 effs tools models in
   let '(d, w) := advance_answered_step d w in loop (S fuel) d w) =
  rest_of_turn (S fuel) (effs, (d2, w4)).
Proof.
  pose proof (push_appended _ _ _ _ _ _ Hdecided) as Ha.
  rewrite <-decided_harness. intros Ed.
  apply authorize_decided_settles in Ed as [(-> & ps & Ha2 & _ & Hh)|(-> & _)]; [|done].
  apply rest_of_denied. rewrite decided_harness in Hh. destruct Hh as [->|Ht].
  - rewrite (appended_spec _ _ _ Ha2), (appended_spec _ _ _ Ha). apply (head_advanced d Hhead).
  - unfold advances. by destruct (harness (state d2)).
Qed.

(** What a run resumed with [effs] left to perform does. *)
Lemma run_pending d0 w' effs d2 :
  set_first d0 [] None false = d2 -> d_pending d0 = effs -> d_undecided d0 = None ->
  d_resumed d0 = true ->
  run_until decider tools models at_boundary (S fuel) d0 w' =
  let '(d, w) := perform d2 w' effs tools models in
  let '(d, w) := advance_answered_step d w in loop (S fuel) d w.
Proof.
  intros <- <- Hu Hr. unfold run_until, run_first. rewrite Hu, Hr. cbv beta iota zeta.
  destruct (perform _ w' _ tools models) as [d3 w3']. by destruct (advance_answered_step d3 w3').
Qed.

Lemma run_undecided d0 w' h :
  set_first d0 [] None false = d1 -> d_undecided d0 = Some (h, eff) -> d_resumed d0 = true ->
  run_until decider tools models at_boundary (S fuel) d0 w' =
  let '(effs, (d, w)) := authorize_decided d1 w' h eff (descriptor <$> tools) in
  let '(d, w) := perform d w effs tools models in
  let '(d, w) := advance_answered_step d w in loop (S fuel) d w.
Proof.
  intros <- Hu Hr. unfold run_until, run_first. rewrite Hu, Hr. cbv beta iota zeta.
  destruct (authorize_decided _ w' h eff _) as [effs [d2 w4]].
  destruct (perform d2 w4 effs tools models) as [d3 w5]. by destruct (advance_answered_step d3 w5).
Qed.

(** A log extended by one event. *)
Lemma appended_snoc (da db : Driver W) p :
  appended da db [p] -> exists e, db = set_events da (d_events da ++ [e]) /\ payload e = p.
Proof.
  intros (new & -> & Hnew & _). destruct new as [|e [|]]; try discriminate Hnew.
  injection Hnew as He. by exists e.
Qed.

(** The driver [resume] builds from the log cut after the decision. *)
Definition resumed_decided : Driver W :=
  set_first (driver_new (d_spec d) (d_events d1)) [] (Some (harness (state d), eff)) true.

(** It finishes the turn that was cut, whatever world it is resumed in. *)
Lemma resume_decided w' :
  resume (d_spec d) (d_events d1) w' = (Ok resumed_decided, w') /\
  run_until decider tools models at_boundary (S fuel) (like d resumed_decided) w' =
    rest_of_turn (S fuel)
      (authorize_decided d1 w' (harness (state d)) eff (descriptor <$> tools)).
Proof.
  pose proof (push_appended _ _ _ _ _ _ Hdecided) as Ha.
  pose proof (head_started_app _ _ _ Hhead Ha) as Hst. unfold resumed_decided. split.
  - rewrite resume_open by (done || apply decided_alive).
    destruct (appended_snoc _ _ _ Ha) as (e & -> & He). simpl d_events. rewrite last_snoc.
    simpl (payload <$> Some e). by rewrite He, length_app, Nat.add_sub, take_app_length.
  - rewrite (run_undecided _ _ (harness (state d))) by (done || by eapply set_first_like).
    destruct (authorize_decided d1 w' _ eff _) as [effs [d2 w4]] eqn:Ed. by eapply resumed_rest.
Qed.

(** C9. A crash between a decision and its authorization loses no decision.
    [resume] takes the log the crash left and the decision is not asked for
    again: in whatever world the run is resumed (a later clock, other ids,
    other memory), it does there what the uninterrupted driver does from that
    decision on: authorize it from the harness state it was made in, perform
    it, and go on with the loop.  A later call or another process starts the
    run's own run and step memory empty and keeps every other scope; so for a
    run that holds nothing in its run and step memory at the crash, resumed
    with the same clock and ids, the rest is exactly the uninterrupted run
    (same result, same log, same calls to every collaborator). *)
Theorem resume_after_decision `{Memory Shared} `{!RunWorld W Shared} :
  exists d0,
    (forall w', resume (d_spec d) (d_events d1) w' = (Ok d0, w') /\
       run_until decider tools models at_boundary (S fuel) (like d d0) w' =
       rest_of_turn (S fuel)
         (authorize_decided d1 w' (harness (state d)) eff (descriptor <$> tools))) /\
    loop (S (S fuel)) d w =
      rest_of_turn (S fuel)
        (authorize_decided d1 w3 (harness (state d)) eff (descriptor <$> tools)) /\
    (forall own key, mem_read (restarted w3) own key =
       if held_by_run own then Ok None else mem_read w3 own key) /\
    (rm_own (w_memory w3) = in_memory_default ->
       run_until decider tools models at_boundary (S fuel) (like d d0) (restarted w3) =
       loop (S (S fuel)) d w).
Proof.
  exists resumed_decided. split_and!; [exact resume_decided|apply loop_turn| |].
  - intros own key. rewrite (w_mem_read (restarted w3)), (w_mem_read w3). unfold restarted.
    rewrite w_get_set.
    change (run_memory_read (run_memory_new (rm_shared (w_memory w3))) own key =
      if held_by_run own then Ok None else run_memory_read (w_memory w3) own key).
    unfold run_memory_read. by destruct (held_by_run own).
  - intros Hown. assert (restarted w3 = w3) as ->.
    { unfold restarted, run_memory_new. rewrite <-Hown. destruct (w_memory w3) eqn:E. simpl.
      by rewrite <-E, w_set_get. }
    destruct (resume_decided w3) as [_ ->]. by rewrite loop_turn.
Qed.

Section Authorized.
Context (d2 : Driver W) (w4 : W)
  (Hallow : authorize (d_spec d) eff (descriptor <$> tools) = Allow)
  (Happlicable : applicable (harness (state d)) eff (d_spec d) = true)
  (Hauthorized : push d1 w3 (EffectAuthorized eff) ActorPolicy = (d2, w4)).

Lemma authorized_appended : appended d d2 [EffectDecided eff; EffectAuthorized eff].
Proof.
  apply (appended_trans d d1 d2 [_] [_]); by eapply push_appended.
Qed.

Lemma authorized_spec : d_spec d2 = d_spec d.
Proof. apply (appended_spec _ _ _ authorized_appended). Qed.

Lemma authorize_decided_push :
  authorize_decided d1 w3 (harness (state d)) eff (descriptor <$> tools) =
  let '(d3, w5) :=
    match eff, harness (state d2) with
    | EComplete outcome, Completed _ => push d2 w4 (RunCompleted outcome) ActorSystem
    | _, _ => (d2, w4)
    end in
  (effects_of_last (d_spec d3) (d_events d3), (d3, w5)).
Proof.
  unfold authorize_decided.
  rewrite (appended_spec _ _ _ (push_appended _ _ _ _ _ _ Hdecided)).
  by rewrite Hallow, Happlicable, Hauthorized.
Qed.

Lemma authorized_harness :
  harness (state d2) = fst (reduce (harness (state d)) (sample_event (EffectAuthorized eff)) (d_spec d)).
Proof.
  rewrite harness_folded, (appended_log _ _ _ authorized_appended), authorized_spec.
  rewrite after_app, after_harness. simpl. by rewrite harness_step_decided, <-harness_folded.
Qed.

Lemma authorized_not_ended : ended (log d2) = false.
Proof.
  rewrite (appended_log _ _ _ authorized_appended), ended_app.
  by destruct (head_alive d Hhead) as [_ ->].
Qed.

(** An effect to perform. *)
Lemma resume_authorized_effect :
  is_complete eff = false ->
  exists d0 w5, resume (d_spec d) (d_events d2) w4 = (Ok d0, w5) /\
    run_until decider tools models at_boundary (S fuel) (like d d0) w5 =
    loop (S (S fuel)) d w.
Proof.
  intros Hc. pose proof (push_appended _ _ _ _ _ _ Hauthorized) as Ha2.
  destruct (applicable_ready (d_spec d) _ eff (sample_event (EffectAuthorized eff))
    Happlicable Hc eq_refl) as [Hready Hemits]. rewrite <-authorized_harness in Hready.
  assert (effects_of_last (d_spec d) (d_events d2) = [eff]) as Hlast.
  { destruct (appended_snoc _ _ _ Ha2) as (e & -> & He). simpl. rewrite effects_of_last_snoc.
    rewrite (reduce_payload _ e (sample_event (EffectAuthorized eff))) by done.
    rewrite <-(appended_spec _ _ _ (push_appended _ _ _ _ _ _ Hdecided)) at 1.
    by rewrite (decided_harness : harness (fold (d_spec d1) (d_events d1)) = _). }
  assert (alive (d_spec d) (log d2)) as Halive.
  { split; [|apply authorized_not_ended]. rewrite <-authorized_spec, <-harness_folded.
    apply ready_active in Hready. by destruct (harness (state d2)). }
  exists (set_first (driver_new (d_spec d) (d_events d2)) [eff] None true), w4. split.
  - rewrite resume_open by (done || eapply head_started_app; eauto using authorized_appended).
    rewrite <-Hlast. destruct (appended_snoc _ _ _ Ha2) as (e & -> & He). simpl d_events.
    rewrite last_snoc. simpl (payload <$> Some e). by rewrite He.
  - rewrite loop_turn, (run_pending _ _ [eff] d2) by
      (done || by eapply set_first_like, authorized_appended).
    assert (authorize_decided d1 w3 (harness (state d)) eff (descriptor <$> tools) =
      ([eff], (d2, w4))) as ->; [|done].
    rewrite authorize_decided_push, <-Hlast, <-authorized_spec. by destruct eff.
Qed.

(** A completion to record. *)
Lemma resume_authorized_complete :
  is_complete eff = true ->
  exists d0 w5, resume (d_spec d) (d_events d2) w4 = (Ok d0, w5) /\
    run_until decider tools models at_boundary (S fuel) (like d d0) w5 =
    loop (S (S fuel)) d w.
Proof.
  intros Hc. assert (exists o, eff = EComplete o) as [o Heff].
  { clear -Hc. destruct eff; try done. eauto. }
  destruct (applicable_running _ _ _ Happlicable) as (st & a & ans & Hs).
  assert (harness (state d2) = Completed o) as Hh by (by rewrite authorized_harness, Hs, Heff).
  set (d2' := set_first (driver_new (d_spec d) (d_events d2) : Driver W) [] None true).
  destruct (push d2' w4 (RunCompleted o) ActorSystem) as [d0 w5] eqn:E0.
  destruct (push d2 w4 (RunCompleted o) ActorSystem) as [d3 w5'] eqn:E3.
  assert (d3 = set_first (like d d0) [] None false /\ w5' = w5) as [Hd3 ->].
  { pose proof authorized_appended as (new & Hd2 & _). unfold push in E0, E3.
    destruct (w_stamp w4) as [[t fresh] w6]. injection E0 as <- <-. injection E3 as <- <-.
    rewrite Hd2. destruct Hhead as [Hp Hu Hr _ _ _].
    unfold like, set_first, set_events, d2'. simpl. rewrite ?Hd2. simpl. by rewrite Hp, Hu, Hr. }
  pose proof (push_appended _ _ _ _ _ _ E3) as Ha3.
  assert (harness (state d3) = Completed o) as Hh3.
  { rewrite harness_folded, (appended_log _ _ _ Ha3), (appended_spec _ _ _ Ha3).
    rewrite after_app, after_harness, <-harness_folded, Hh. done. }
  exists d0, w5. split.
  - unfold resume. rewrite ended_events, authorized_not_ended.
    rewrite (head_started_app _ _ _ Hhead authorized_appended). simpl negb. cbv iota.
    unfold state in Hh |- *. simpl d_spec. simpl d_events. rewrite authorized_spec in Hh.
    rewrite Hh. fold d2'. by rewrite E0.
  - assert (d_pending d0 = [] /\ d_undecided d0 = None /\ d_resumed d0 = true) as (Hp & Hu & Hr).
    { pose proof (push_appended _ _ _ _ _ _ E0) as (new & -> & _). done. }
    rewrite loop_turn, (run_pending _ _ [] d3) by done.
    rewrite authorize_decided_push, Heff, Hh, E3. simpl perform. cbv iota zeta beta.
    rewrite advance_noop by (unfold advances; by rewrite Hh3).
    simpl. rewrite Hh3. simpl.
    assert (effects_of_last (d_spec d3) (d_events d3) = []) as ->; [|simpl; by rewrite ?Hh3].
    destruct (appended_snoc _ _ _ Ha3) as (e & -> & He). simpl. rewrite effects_of_last_snoc.
    by rewrite (Hh : harness (fold (d_spec d2) (d_events d2)) = _), reduce_terminal.
Qed.

(** A crash between an authorization and its result loses no decision either:
    the run resumed from that log performs the authorized effect (a tool call
    with the same invocation), or records the completion that was authorized,
    and then, in a world that is as the crash left it (so for a run that used
    no run or step memory), does exactly what the uninterrupted run would have
    done. *)
Theorem resume_after_authorization :
  exists d0 w5, resume (d_spec d) (d_events d2) w4 = (Ok d0, w5) /\
    run_until decider tools models at_boundary (S fuel) (like d d0) w5 =
    loop (S (S fuel)) d w.
Proof.
  destruct (is_complete eff) eqn:Hc;
    [by apply resume_authorized_complete|by apply resume_authorized_effect].
Qed.

End Authorized.
End Crash.
End DriverFacts.

(** ** Concrete runs *)

Section Witnesses.
#[local] Existing Instance hyphenated.

Definition echo_driver : Driver Sim := (sim_boot echo_spec echo_script).1.
Definition echo_world : Sim := (sim_boot echo_spec echo_script).2.
Definition continue_all : Driver Sim -> Sim -> Boundary * Sim := fun _ w => (Continue, w).

Lemma echo_resume :
  resume echo_spec [] (sim_world echo_script) = (Ok echo_driver, echo_world).
Proof. reflexivity. Qed.

Lemma echo_limits : limits_u32 (limits echo_spec).
Proof. split; vm_compute; discriminate. Qed.

Lemma echo_one_end : one_end (payload <$> ([] : list Event)).
Proof. intros i p Hi. discriminate Hi. Qed.

Lemma run_until_terminates_witness :
  is_Some (run_until sim_decider [EchoTool] UnavailableModel continue_all 10 echo_driver echo_world).
Proof.
  apply (run_until_terminates sim_decider [EchoTool] UnavailableModel continue_all echo_spec
    echo_limits [] (sim_world echo_script) echo_world echo_driver echo_driver echo_resume
    (configured_refl _) 10).
  vm_compute. reflexivity || lia.
Defined.

Lemma run_until_log_append_only_witness :
  exists r d' w' new,
    run_until sim_decider [EchoTool] UnavailableModel continue_all 10 echo_driver echo_world =
      Some (r, (d', w')) /\
    d_events d' = [] ++ new /\ Forall (stamped echo_spec) new /\ one_end (payload <$> d_events d').
Proof.
  apply (run_until_log_append_only sim_decider [EchoTool] UnavailableModel continue_all echo_spec
    echo_limits [] (sim_world echo_script) echo_world echo_driver echo_driver echo_resume
    (configured_refl _) 10); [vm_compute; reflexivity || lia|apply echo_one_end].
Defined.

Lemma run_until_records_only_what_is_due_witness :
  exists r d' w',
    run_until sim_decider [EchoTool] UnavailableModel continue_all 10 echo_driver echo_world =
      Some (r, (d', w')) /\
    forall k p rest, payload <$> d_events d' = k ++ p :: rest -> (0 <= length k)%nat ->
      due echo_spec [EchoTool_descriptor] k p.
Proof.
  apply (run_until_records_only_what_is_due sim_decider [EchoTool] UnavailableModel continue_all
    echo_spec echo_limits [] (sim_world echo_script) echo_world echo_driver echo_driver
    echo_resume (configured_refl _) 10); [vm_compute; reflexivity || lia|apply echo_one_end].
Defined.

(** What the budget's theorem needs of the stored log, of a run that starts. *)
Lemma within_nil spec : within spec [].
Proof.
  split_and!; [apply N.le_0_l|apply N.le_0_l|].
  by intros [] eff b He.
Qed.

Lemma run_until_within_budget_witness :
  exists r d' w',
    run_until sim_decider [EchoTool] UnavailableModel continue_all 10 echo_driver echo_world =
      Some (r, (d', w')) /\
    forall k, [] `prefix_of` k -> k `prefix_of` (payload <$> d_events d') ->
      within echo_spec k /\
      (decisions k <= max_steps (limits echo_spec) + 1)%N /\
      fs_steps (folded echo_spec k) = paid echo_spec k /\
      fs_model_calls (folded echo_spec k) = authorized_calls k.
Proof.
  apply (run_until_within_budget sim_decider [EchoTool] UnavailableModel continue_all echo_spec
    echo_limits [] (sim_world echo_script) echo_world echo_driver echo_driver echo_resume
    (configured_refl _) 10);
    [vm_compute; reflexivity || lia|apply echo_one_end|apply within_nil].
Defined.

Lemma run_to_completion_settles_witness :
  exists r d' w', run_to_completion sim_decider [EchoTool] UnavailableModel 10 echo_driver
      echo_world = Some (r, (d', w')) /\
    match r with
    | Ok _ => ended (payload <$> d_events d') = true \/
        exists st a m, harness (state d') = WaitingForMessage st a m
    | Err _ => ended (payload <$> d_events d') = false /\
        harness_is_terminal (harness (state d')) = false
    end.
Proof.
  apply (run_to_completion_settles sim_decider [EchoTool] UnavailableModel echo_spec []
    (sim_world echo_script) echo_world echo_driver echo_driver 10 echo_limits echo_resume
    (configured_refl _)).
  vm_compute. reflexivity || lia.
Defined.

Lemma resume_ended_log_is_inert_witness :
  exists d0 : Driver Sim, resume echo_spec [sample_event RunCancelled] echo_world =
      (Ok d0, echo_world) /\ d_events d0 = [sample_event RunCancelled] /\
    forall d, configured d0 d ->
      run_until sim_decider [EchoTool] UnavailableModel continue_all 1 d echo_world =
        Some (Ok tt, (d, echo_world)).
Proof. apply resume_ended_log_is_inert. reflexivity. Defined.

(** The first turn of the echo run, cut after its decision and after its
    authorization. *)
Definition echo_call : Effect := EToolCall "echo" "ping" (id_of 7).
Definition echo_decided : Driver Sim * Sim :=
  push echo_driver (sim_decider (decision_view echo_driver [EchoTool_descriptor] []) echo_world).2
    (EffectDecided echo_call) ActorAgent.
Definition echo_authorized : Driver Sim * Sim :=
  push echo_decided.1 echo_decided.2 (EffectAuthorized echo_call) ActorPolicy.

Lemma echo_at_head : at_head echo_driver.
Proof. split; try reflexivity. split; reflexivity. Qed.

Lemma echo_runs st a m : harness (state echo_driver) <> WaitingForMessage st a m.
Proof. intros E. discriminate E. Qed.

Lemma resume_after_decision_witness :
  exists d0,
    (forall w', resume echo_spec (d_events echo_decided.1) w' = (Ok d0, w') /\
       run_until sim_decider [EchoTool] UnavailableModel continue_all 9 (like echo_driver d0) w' =
       rest_of_turn sim_decider [EchoTool] UnavailableModel continue_all 9
         (authorize_decided echo_decided.1 w' (harness (state echo_driver)) echo_call
            [EchoTool_descriptor])) /\
    run_until sim_decider [EchoTool] UnavailableModel continue_all 9 (like echo_driver d0)
      (restarted echo_decided.2) =
    run_loop sim_decider [EchoTool] UnavailableModel continue_all 10 echo_driver echo_world.
Proof.
  destruct (resume_after_decision sim_decider [EchoTool] UnavailableModel continue_all echo_driver
    echo_world echo_world (sim_decider (decision_view echo_driver [EchoTool_descriptor] [])
      echo_world).2 echo_decided.2 echo_call echo_decided.1 8 echo_at_head eq_refl
    echo_runs eq_refl eq_refl (surjective_pairing _) (Shared := InMemory))
    as (d0 & Hres & _ & _ & Hsame).
  exists d0. split; [exact Hres|]. apply Hsame. reflexivity.
Defined.

Lemma resume_after_authorization_witness :
  exists d0 w5, resume echo_spec (d_events echo_authorized.1) echo_authorized.2 = (Ok d0, w5) /\
    run_until sim_decider [EchoTool] UnavailableModel continue_all 9 (like echo_driver d0) w5 =
    run_loop sim_decider [EchoTool] UnavailableModel continue_all 10 echo_driver echo_world.
Proof.
  apply (resume_after_authorization sim_decider [EchoTool] UnavailableModel continue_all
    echo_driver echo_world echo_world
    (sim_decider (decision_view echo_driver [EchoTool_descriptor] []) echo_world).2
    echo_decided.2 echo_call echo_decided.1 8 echo_at_head);
    [reflexivity|intros st a m E; discriminate E|reflexivity|reflexivity|apply surjective_pairing
    |reflexivity|reflexivity|apply surjective_pairing].
Defined.

End Witnesses.
