(* ===== verification/Store.v ===== *)
(** * The in-memory store ([server/store.rs]): agents, runs and the outbox

    [InMemoryStore] keeps every run's log, numbers each stored event in its
    owner's outbox in the same step, and refuses what would rewrite or
    outlive a log.  A [Mutex] is a value and whether a writer panicked while
    holding it: a poisoned lock still serves reads and refuses writes.  The
    methods run under the [runs] lock, so each is one step of the store. *)

From S2P Require Import Prelude Protocol MemoryOwner Reduce.

(** ** Locks *)

Record Lock (A : Type) : Type := mkLock { guarded : A; poisoned : bool }.
Arguments mkLock {A} guarded poisoned.
Arguments guarded {A} l.
Arguments poisoned {A} l.

Definition lock_read {A} (l : Lock A) : A := guarded l.

Definition lock_write {A} (l : Lock A) (name : string) : result A StoreError :=
  if poisoned l then Err (mkStoreError (name +:+ " store lock poisoned")) else Ok (guarded l).

(** The value a writer leaves in the lock it took. *)
Definition lock_set {A} (l : Lock A) (a : A) : Lock A := mkLock a (poisoned l).

(** ** What is stored *)

Record AgentManifest : Type := mkAgentManifest {
  am_id : AgentId;
  am_version : string;
  am_name : string;
  am_description : string;
  am_instructions : string;
  am_tools : list string;
  am_required_capabilities : list Capability;
}.

Record StoredAgent : Type := mkStoredAgent { sa_manifest : AgentManifest; sa_owner : Owner }.

Inductive PutAgent := AgentStored | OwnedByOther.

Record StoredRun : Type := mkStoredRun { sr_spec : RunSpec; sr_events : list Event }.

Record StoredArtifact : Type := mkStoredArtifact {
  art_id : ArtifactId;
  art_run_id : RunId;
  art_name : string;
  art_body : list byte;
}.

Inductive PutRun := RunStored | RunExisted.

Inductive Append := Appended | Terminal | Missing | Moved.

#[export] Instance Append_eq_dec : EqDecision Append.
Proof. solve_decision. Defined.

(** [is_terminal] of the store names the payloads [is_run_end] does. *)
Definition is_terminal (p : EventPayload) : bool :=
  match p with
  | RunCompleted _ | RunFailed _ _ | RunCancelled | RunExpired => true
  | _ => false
  end.

Definition has_terminal (events : list Event) : bool :=
  existsb (fun event => is_terminal (payload event)) events.

Definition check_one_terminal (events : list Event) : result unit StoreError :=
  match position (fun event => is_terminal (payload event)) events with
  | Some at_ =>
      if (at_ + 1 <? length events)%nat
      then Err (mkStoreError "a batch holds an event after its terminal event")
      else Ok tt
  | None => Ok tt
  end.

Record OutboxEntry : Type := mkOutboxEntry {
  oe_seq : N;
  oe_run_id : RunId;
  oe_run_seq : N;
  oe_event : Event;
}.

Record OutboxPage : Type := mkOutboxPage {
  entries : list OutboxEntry;
  pruned_through : N;
  last_number : N;
}.

Definition Principal := (string * string)%type.

Record OutboxRow : Type := mkOutboxRow {
  row_principal : Principal;
  row_seq : N;
  row_run_id : RunId;
  row_run_seq : N;
  row_stored_ms : Z;
}.

Record Outbox : Type := mkOutbox {
  ob_counts : gmap Principal N;
  ob_pruned : gmap Principal N;
  ob_rows : list OutboxRow;
}.

Definition principal (o : Owner) : Principal := (issuer o, subject o).

Lemma owner_is_principal a b : owner_is a b = true <-> principal a = principal b.
Proof.
  unfold owner_is, principal. rewrite andb_true_iff, !bool_decide_eq_true.
  split; [intros [-> ->]; done|]. by intros [= -> ->].
Qed.

(** ** Hints *)

Definition ALL : N := 0.

(** FNV-1a over issuer, NUL and subject, on [u64]. *)
Definition principal_hint_of (iss sub : string) : N :=
  let step hash (b : N) := wrap_mul64 (N.lxor hash b) 0x100000001b3 in
  let bytes s := Ascii.N_of_ascii <$> string_bytes s in
  N.max (fold_left step (bytes iss ++ [0%N] ++ bytes sub) 0xcbf29ce484222325%N) 1.

Definition principal_hint (o : Owner) : N := principal_hint_of (issuer o) (subject o).

(** ** The store *)

(** The parts of [InMemoryStore] this file is about.  [hints] is what was sent
    to the streams, latest first. *)
Record RunsStore : Type := mkRunsStore {
  agents : Lock (gmap AgentId StoredAgent);
  runs : Lock (gmap RunId StoredRun);
  artifacts : Lock (gmap ArtifactId StoredArtifact);
  outbox : Lock Outbox;
  order : N;
  stored : Lock (gmap RunId N);
  hints : list N;
}.

Definition empty_outbox : Outbox := mkOutbox ∅ ∅ [].

Definition store_default : RunsStore :=
  mkRunsStore (mkLock ∅ false) (mkLock ∅ false) (mkLock ∅ false) (mkLock empty_outbox false) 0
    (mkLock ∅ false) [].

Definition set_agents (s : RunsStore) a : RunsStore :=
  mkRunsStore (lock_set (agents s) a) (runs s) (artifacts s) (outbox s) (order s) (stored s)
    (hints s).
Definition set_runs (s : RunsStore) r : RunsStore :=
  mkRunsStore (agents s) (lock_set (runs s) r) (artifacts s) (outbox s) (order s) (stored s)
    (hints s).
Definition set_artifacts (s : RunsStore) a : RunsStore :=
  mkRunsStore (agents s) (runs s) (lock_set (artifacts s) a) (outbox s) (order s) (stored s)
    (hints s).
Definition set_outbox (s : RunsStore) o (sent : list N) : RunsStore :=
  mkRunsStore (agents s) (runs s) (artifacts s) (lock_set (outbox s) o) (order s) (stored s)
    (sent ++ hints s).
Definition set_order (s : RunsStore) n : RunsStore :=
  mkRunsStore (agents s) (runs s) (artifacts s) (outbox s) n (stored s) (hints s).
Definition set_stored (s : RunsStore) m : RunsStore :=
  mkRunsStore (agents s) (runs s) (artifacts s) (outbox s) (order s) (lock_set (stored s) m)
    (hints s).

Definition count_of (o : Outbox) (p : Principal) : N := default 0%N (ob_counts o !! p).
Definition pruned_of (o : Outbox) (p : Principal) : N := default 0%N (ob_pruned o !! p).

(** The rows [number] pushes: [count] events of [run] after the [stored_len]
    it had. *)
Definition new_rows (p : Principal) (run : RunId) (first : N) (stored_len count : nat)
    (now : Timestamp) : list OutboxRow :=
  (fun n => mkOutboxRow p (first + N.of_nat n) run (N.of_nat stored_len + N.of_nat n + 1) now)
    <$> seq 0 count.

(** [InMemoryStore::number]. *)
Definition number (s : RunsStore) (o : Owner) (run : RunId) (stored_len count : nat)
    (now : Timestamp) : result RunsStore StoreError :=
  (let? ob := lock_write (outbox s) "outbox" in
   let p := principal o in
   let first := (count_of ob p + 1)%N in
   Ok (set_outbox s
         (mkOutbox (<[p := (first + N.of_nat count - 1)%N]> (ob_counts ob)) (ob_pruned ob)
            (ob_rows ob ++ new_rows p run first stored_len count now))
         [principal_hint o]))%rust.

(** A method's result, and the store after it. *)
Definition Outcome (A : Type) : Type := result A StoreError * RunsStore.

(** [InMemoryStore::append_checked]. *)
Definition append_checked (s : RunsStore) (id : RunId) (seen : option nat)
    (events : list Event) (now : Timestamp) : Outcome Append :=
  match check_one_terminal events with
  | Err e => (Err e, s)
  | Ok _ =>
      match lock_write (runs s) "run" with
      | Err e => (Err e, s)
      | Ok rs =>
          match rs !! id with
          | None => (Ok Missing, s)
          | Some run =>
              if has_terminal (sr_events run) then (Ok Terminal, s)
              else if match seen with
                      | Some n => negb (n =? length (sr_events run))%nat
                      | None => false
                      end
              then (Ok Moved, s)
              else
                match number s (owner (sr_spec run)) id (length (sr_events run)) (length events)
                        now with
                | Err e => (Err e, s)
                | Ok s =>
                    (Ok Appended,
                     set_runs s (<[id := mkStoredRun (sr_spec run) (sr_events run ++ events)]> rs))
                end
          end
      end
  end.

Definition append_events (s : RunsStore) (id : RunId) (events : list Event) (now : Timestamp)
    : Outcome Append := append_checked s id None events now.

Definition append_events_after (s : RunsStore) (id : RunId) (seen : nat) (events : list Event)
    (now : Timestamp) : Outcome Append := append_checked s id (Some seen) events now.

(** [put_run].  The events are numbered, then the run gets its place in the
    store's order, then it is stored. *)
Definition put_run (s : RunsStore) (run : StoredRun) (now : Timestamp) : Outcome PutRun :=
  let id := run_id (sr_spec run) in
  match check_one_terminal (sr_events run) with
  | Err e => (Err e, s)
  | Ok _ =>
      match lock_write (runs s) "run" with
      | Err e => (Err e, s)
      | Ok rs =>
          match rs !! id with
          | Some _ => (Ok RunExisted, s)
          | None =>
              match number s (owner (sr_spec run)) id 0 (length (sr_events run)) now with
              | Err e => (Err e, s)
              | Ok s =>
                  let s := set_order s (order s + 1) in
                  match lock_write (stored s) "run order" with
                  | Err e => (Err e, s)
                  | Ok m =>
                      (Ok RunStored, set_runs (set_stored s (<[id := order s]> m)) (<[id := run]> rs))
                  end
              end
          end
      end
  end.

Definition get_run (s : RunsStore) (id : RunId) : option StoredRun := lock_read (runs s) !! id.

(** [run_page]. *)
Definition run_page (s : RunsStore) (id : RunId) (after limit : nat) : option StoredRun :=
  (fun run => mkStoredRun (sr_spec run) (take limit (drop after (sr_events run)))) <$> get_run s id.

Definition put_agent (s : RunsStore) (agent : StoredAgent) : Outcome PutAgent :=
  match lock_write (agents s) "agent" with
  | Err e => (Err e, s)
  | Ok m =>
      let id := am_id (sa_manifest agent) in
      match m !! id with
      | Some kept =>
          if negb (owner_is (sa_owner kept) (sa_owner agent)) then (Ok OwnedByOther, s)
          else (Ok AgentStored, set_agents s (<[id := agent]> m))
      | None => (Ok AgentStored, set_agents s (<[id := agent]> m))
      end
  end.

Definition get_agent (s : RunsStore) (id : AgentId) : option StoredAgent :=
  lock_read (agents s) !! id.

Definition put_artifact (s : RunsStore) (a : StoredArtifact) : Outcome unit :=
  match lock_write (artifacts s) "artifact" with
  | Err e => (Err e, s)
  | Ok m => (Ok tt, set_artifacts s (<[art_id a := a]> m))
  end.

Definition get_artifact (s : RunsStore) (id : ArtifactId) : option StoredArtifact :=
  lock_read (artifacts s) !! id.

(** ** The outbox *)

(** The rows of a page: the principal's, numbered after [after], at most
    [limit]. *)
Definition page_rows (o : Outbox) (p : Principal) (after : N) (limit : nat) : list OutboxRow :=
  take limit (filter (fun row => row_principal row = p /\ (after < row_seq row)%N) (ob_rows o)).

(** A row's event, read through to its run's log. *)
Definition row_entry (rs : gmap RunId StoredRun) (row : OutboxRow)
    : result OutboxEntry StoreError :=
  match run ← rs !! row_run_id row; sr_events run !! (N.to_nat (row_run_seq row) - 1)%nat with
  | Some event => Ok (mkOutboxEntry (row_seq row) (row_run_id row) (row_run_seq row) event)
  | None => Err (mkStoreError ("outbox entry " +:+ pretty (row_seq row) +:+ " has no event"))
  end.

(** [collect::<Result<_, _>>()]: the first error, or every value. *)
Fixpoint collect {A B E} (f : A -> result B E) (l : list A) : result (list B) E :=
  match l with
  | [] => Ok []
  | a :: l => (let? b := f a in let? bs := collect f l in Ok (b :: bs))%rust
  end.

Definition outbox_after (s : RunsStore) (o : Owner) (after : N) (limit : nat)
    : result OutboxPage StoreError :=
  let p := principal o in
  let ob := lock_read (outbox s) in
  (let? es := collect (row_entry (lock_read (runs s))) (page_rows ob p after limit) in
   Ok (mkOutboxPage es (pruned_of ob p) (count_of ob p)))%rust.

(** Up to which number each principal's entries go: the last one stored before
    [before]. *)
Definition prune_through (rows : list OutboxRow) (before : Timestamp) : gmap Principal N :=
  fold_left
    (fun through row =>
       if (row_stored_ms row <? before)%Z then
         <[row_principal row :=
             N.max (default 0%N (through !! row_principal row)) (row_seq row)]> through
       else through)
    rows ∅.

Definition kept_row (through : gmap Principal N) (row : OutboxRow) : bool :=
  match through !! row_principal row with
  | Some t => (t <? row_seq row)%N
  | None => true
  end.

Definition prune_outbox (s : RunsStore) (before : Timestamp) : Outcome N :=
  match lock_write (outbox s) "outbox" with
  | Err e => (Err e, s)
  | Ok ob =>
      let through := prune_through (ob_rows ob) before in
      let rows := filter (fun row => Is_true (kept_row through row)) (ob_rows ob) in
      let pruned := union_with (fun a b => Some (N.max a b)) (ob_pruned ob) through in
      (Ok (N.of_nat (length (ob_rows ob) - length rows)),
       set_outbox s (mkOutbox (ob_counts ob) pruned rows) [])
  end.
