(* ===== verification/StoreProofs.v ===== *)
(** * What the store guarantees

    Logs only grow and end once, the outbox numbers every stored event of a
    principal without a gap and in order, agents keep their owner, and of the
    writers that append after the same length one wins. *)

From S2P Require Import Prelude Protocol MemoryOwner Reduce DriverTurns Store.

(** ** Consecutive numbers *)

Definition nums (b : N) (len : nat) : list N := (fun n => b + N.of_nat n)%N <$> seq 0 len.

Lemma nums_S b len : nums b (S len) = b :: nums (b + 1) len.
Proof.
  unfold nums. simpl. f_equal; [lia|]. rewrite <-fmap_S_seq, <-list_fmap_compose.
  apply list_fmap_ext. intros i n _. simpl. lia.
Qed.

Lemma length_nums b len : length (nums b len) = len.
Proof. unfold nums. by rewrite length_fmap, length_seq. Qed.

Lemma nums_app b m n : nums b (m + n) = nums b m ++ nums (b + N.of_nat m) n.
Proof.
  revert b; induction m as [|m IH]; intros b.
  - simpl. f_equal. lia.
  - simpl plus. rewrite !nums_S, IH. simpl. do 3 f_equal. lia.
Qed.

Lemma drop_nums b len k : drop k (nums b len) = nums (b + N.of_nat k) (len - k).
Proof.
  revert b len; induction k as [|k IH]; intros b len.
  - rewrite drop_0. f_equal; lia.
  - destruct len as [|len]; [done|]. rewrite nums_S, skipn_cons, IH. f_equal; lia.
Qed.

Lemma elem_of_nums x b len : x ∈ nums b len <-> (b <= x < b + N.of_nat len)%N.
Proof.
  unfold nums. rewrite list_elem_of_fmap. split.
  - intros (n & -> & Hn%elem_of_seq). lia.
  - intros Hx. exists (N.to_nat (x - b)). rewrite elem_of_seq. lia.
Qed.

(** ** Rows in the order of their numbers *)

Definition before (a b : OutboxRow) : Prop := (row_seq a < row_seq b)%N.

Lemma sorted_filter (P : OutboxRow -> Prop) `{!forall r, Decision (P r)} l :
  StronglySorted before l -> StronglySorted before (filter P l).
Proof.
  induction 1 as [|a l Hl IH Ha]; [constructor|]. rewrite filter_cons.
  case_decide; [|done]. constructor; [done|].
  apply Forall_forall. intros b [_ Hb]%list_elem_of_filter. rewrite Forall_forall in Ha. by apply Ha.
Qed.

(** The rows after a number are a suffix of them. *)
Lemma sorted_after_suffix t l :
  StronglySorted before l ->
  exists k, filter (fun row => (t < row_seq row)%N) l = drop k l.
Proof.
  induction 1 as [|a l Hl (k & IH) Ha]; [by exists 0|]. rewrite filter_cons.
  case_decide as Ht; [|by exists (S k)]. exists 0. simpl. f_equal.
  apply filter_all. eapply Forall_impl; [exact Ha|]. unfold before. lia.
Qed.

Lemma nums_sorted l b len : row_seq <$> l = nums b len -> StronglySorted before l.
Proof.
  revert b len; induction l as [|a l IH]; intros b len; [constructor|].
  destruct len as [|len]; [done|]. rewrite nums_S. intros [= Ha Hl]. constructor; [by eapply IH|].
  apply Forall_forall. intros c Hc. unfold before. assert (row_seq c ∈ nums (b + 1) len) as Hin.
  { rewrite <-Hl. by apply list_elem_of_fmap_2. }
  apply elem_of_nums in Hin. lia.
Qed.

Lemma nums_after l b len t :
  row_seq <$> l = nums b len ->
  row_seq <$> filter (fun row => (t < row_seq row)%N) l =
    nums (N.max b (t + 1)) (N.to_nat (b + N.of_nat len - N.max b (t + 1))).
Proof.
  revert b len; induction l as [|a l IH]; intros b len.
  - destruct len; [|by rewrite nums_S]. intros _. by replace (N.to_nat _) with 0 by lia.
  - destruct len as [|len]; [done|]. rewrite nums_S. intros [= Ha Hl].
    rewrite filter_cons. specialize (IH _ _ Hl). case_decide as Ht; rewrite ?fmap_cons, IH.
    + replace (N.to_nat (b + N.of_nat (S len) - N.max b (t + 1)))
        with (S (N.to_nat (b + 1 + N.of_nat len - N.max (b + 1) (t + 1)))) by lia.
      rewrite nums_S. f_equal; [lia|]. f_equal. lia.
    + f_equal; lia.
Qed.

(** ** The log of a batch *)

Lemma is_terminal_run_end p : is_terminal p = is_run_end p.
Proof. by destruct p. Qed.

Lemma has_terminal_ended es : has_terminal es = ended (payload <$> es).
Proof. apply ended_events. Qed.

Lemma check_one_terminal_spec es :
  (check_one_terminal es = Ok tt /\ one_end (payload <$> es)) \/
  (exists e, check_one_terminal es = Err e) /\ ~ one_end (payload <$> es).
Proof.
  unfold check_one_terminal, one_end.
  destruct (position _ es) as [i|] eqn:Hp.
  - apply position_Some in Hp as (Hbefore & x & Hx & Ht).
    apply lookup_lt_Some in Hx as Hlt.
    destruct (i + 1 <? length es)%nat eqn:E; bool_to_prop.
    + right. split; [by eexists|]. intros Ho.
      specialize (Ho i (payload x)). rewrite list_lookup_fmap, Hx, length_fmap in Ho.
      specialize (Ho eq_refl Ht). lia.
    + left. split; [done|]. intros j p Hj Hend. rewrite length_fmap.
      rewrite list_lookup_fmap in Hj. apply fmap_Some in Hj as (y & Hy & ->).
      apply lookup_lt_Some in Hy as Hlt'. destruct (decide (j < i)%nat) as [Hji|]; [|lia].
      exfalso. rewrite existsb_false_Forall, Forall_lookup in Hbefore.
      specialize (Hbefore j y). rewrite lookup_take_lt in Hbefore by done.
      specialize (Hbefore Hy). rewrite is_terminal_run_end in Hbefore. congruence.
  - left. split; [done|]. apply position_None in Hp. intros j p Hj Hend.
    rewrite list_lookup_fmap in Hj. apply fmap_Some in Hj as (y & Hy & ->).
    rewrite existsb_false_Forall, Forall_lookup in Hp. specialize (Hp _ _ Hy).
    rewrite is_terminal_run_end in Hp. congruence.
Qed.

(** ** The invariant *)

Definition rows_of (o : Outbox) (p : Principal) : list OutboxRow :=
  filter (fun row => row_principal row = p) (ob_rows o).

Definition rows_of_run (o : Outbox) (id : RunId) : list OutboxRow :=
  filter (fun row => row_run_id row = id) (ob_rows o).

(** Each principal's rows are numbered from the last pruned number to its
    count, with no gap; each row belongs to a stored run of that principal;
    and the rows of a run are the places of its log, in order, from the first
    not pruned to the last stored. *)
Record outbox_wf (rs : gmap RunId StoredRun) (o : Outbox) : Prop := mkOutboxWf {
  ow_pruned p : (pruned_of o p <= count_of o p)%N;
  ow_seqs p : row_seq <$> rows_of o p =
    nums (pruned_of o p + 1) (N.to_nat (count_of o p - pruned_of o p));
  ow_runs row : row ∈ ob_rows o -> exists run, rs !! row_run_id row = Some run /\
    principal (owner (sr_spec run)) = row_principal row;
  ow_run_rows id run : rs !! id = Some run ->
    exists k, (k <= length (sr_events run))%nat /\
      row_run_seq <$> rows_of_run o id = nums (N.of_nat k + 1) (length (sr_events run) - k);
}.

Record store_wf (s : RunsStore) : Prop := mkStoreWf {
  sw_runs id run : lock_read (runs s) !! id = Some run ->
    run_id (sr_spec run) = id /\ one_end (payload <$> sr_events run);
  sw_outbox : outbox_wf (lock_read (runs s)) (lock_read (outbox s));
  sw_stored : poisoned (stored s) = false;
}.

Lemma store_default_wf : store_wf store_default.
Proof. split; [done| |done]. split; try done. intros row Hrow. inversion Hrow. Qed.

(** The outbox [number] leaves. *)
Definition numbered (o : Outbox) (p : Principal) (id : RunId) (len count : nat)
    (now : Timestamp) : Outbox :=
  mkOutbox (<[p := (count_of o p + 1 + N.of_nat count - 1)%N]> (ob_counts o)) (ob_pruned o)
    (ob_rows o ++ new_rows p id (count_of o p + 1) len count now).

Lemma number_ok s o id len count now :
  number s o id len count now = Ok
    (set_outbox s (numbered (lock_read (outbox s)) (principal o) id len count now)
       [principal_hint o]) \/
  exists e, number s o id len count now = Err e.
Proof. unfold number, lock_write. destruct (poisoned (outbox s)); eauto. Qed.

Lemma new_rows_elem row p id first len count now :
  row ∈ new_rows p id first len count now -> row_principal row = p /\ row_run_id row = id.
Proof. unfold new_rows. by intros (n & -> & _)%list_elem_of_fmap. Qed.

Lemma new_rows_seq p id first len count now :
  row_seq <$> new_rows p id first len count now = nums first count.
Proof. unfold new_rows, nums. by rewrite <-list_fmap_compose. Qed.

Lemma new_rows_run_seq p id first len count now :
  row_run_seq <$> new_rows p id first len count now = nums (N.of_nat len + 1) count.
Proof.
  unfold new_rows, nums. rewrite <-list_fmap_compose. apply list_fmap_ext.
  intros i n _. simpl. lia.
Qed.

Lemma rows_of_numbered o p q id len count now :
  rows_of (numbered o p id len count now) q =
    rows_of o q ++ if bool_decide (p = q)
                   then new_rows p id (count_of o p + 1) len count now else [].
Proof.
  unfold rows_of. simpl. rewrite filter_app. f_equal. case_bool_decide as Hpq.
  - apply filter_all, Forall_forall. intros row [? _]%new_rows_elem. congruence.
  - apply filter_none, Forall_forall. intros row [? _]%new_rows_elem. congruence.
Qed.

Lemma rows_of_run_numbered o p id id' len count now :
  rows_of_run (numbered o p id len count now) id' =
    rows_of_run o id' ++ if bool_decide (id = id')
                         then new_rows p id (count_of o p + 1) len count now else [].
Proof.
  unfold rows_of_run. simpl. rewrite filter_app. f_equal. case_bool_decide as Hpq.
  - apply filter_all, Forall_forall. intros row [_ ?]%new_rows_elem. congruence.
  - apply filter_none, Forall_forall. intros row [_ ?]%new_rows_elem. congruence.
Qed.

Lemma count_of_numbered o p q id len count now :
  count_of (numbered o p id len count now) q =
    (count_of o q + if bool_decide (p = q) then N.of_nat count else 0)%N.
Proof.
  unfold count_of. simpl. case_bool_decide as Hpq.
  - subst. rewrite lookup_insert_eq. simpl. unfold count_of. lia.
  - rewrite lookup_insert_ne by done. lia.
Qed.

(** Numbering the events added to a run, or the first ones of a new run. *)
Lemma numbered_wf rs o id run p count now :
  outbox_wf rs o -> principal (owner (sr_spec run)) = p ->
  (count <= length (sr_events run))%nat ->
  match rs !! id with
  | Some old => principal (owner (sr_spec old)) = p /\
      length (sr_events run) = length (sr_events old) + count
  | None => length (sr_events run) = count
  end ->
  outbox_wf (<[id := run]> rs)
    (numbered o p id (length (sr_events run) - count) count now).
Proof.
  intros [Hpr Hseq Hruns Hrr] Hp Hcount Hold. split.
  - intros q. rewrite count_of_numbered. specialize (Hpr q). unfold pruned_of in *. simpl.
    case_bool_decide; lia.
  - intros q. rewrite rows_of_numbered, fmap_app, Hseq, count_of_numbered.
    change (pruned_of (numbered o p id (length (sr_events run) - count) count now) q)
      with (pruned_of o q).
    specialize (Hpr q). case_bool_decide as Hpq.
    + subst q. rewrite new_rows_seq.
      replace (N.to_nat (count_of o p + N.of_nat count - pruned_of o p))
        with (N.to_nat (count_of o p - pruned_of o p) + count) by lia.
      rewrite nums_app. do 2 f_equal. lia.
    + rewrite app_nil_r. f_equal. lia.
  - intros row Hrow. simpl in Hrow. apply elem_of_app in Hrow as [Hrow|[Hq Hid]%new_rows_elem].
    + destruct (Hruns row Hrow) as (run' & Hr & Hown).
      destruct (decide (row_run_id row = id)) as [Heq|Hne].
      * rewrite Heq in *. exists run. rewrite lookup_insert_eq. rewrite Hr in Hold. split; [done|].
        destruct Hold. congruence.
      * exists run'. by rewrite lookup_insert_ne.
    + exists run. rewrite Hid, lookup_insert_eq. by rewrite Hp, Hq.
  - intros id' run' Hr'. rewrite rows_of_run_numbered, fmap_app. case_bool_decide as Hid.
    + subst id'. rewrite lookup_insert_eq in Hr'. injection Hr' as <-.
      rewrite new_rows_run_seq. destruct (rs !! id) as [old|] eqn:Hr.
      * destruct Hold as [_ Hlen]. destruct (Hrr id old Hr) as (k & Hk & ->).
        exists k. split; [lia|].
        replace (length (sr_events run) - k) with ((length (sr_events old) - k) + count) by lia.
        rewrite nums_app. do 2 f_equal. lia.
      * exists 0. split; [lia|].
        assert (rows_of_run o id = []) as ->.
        { apply filter_none, Forall_forall. intros row Hrow Hrid.
          destruct (Hruns row Hrow) as (run' & Hr' & _). congruence. }
        simpl. f_equal; lia.
    + rewrite lookup_insert_ne in Hr' by done. rewrite app_nil_r. by apply Hrr.
Qed.

(** ** The operations keep it *)

Lemma append_checked_cases s id seen events now r s' :
  append_checked s id seen events now = (r, s') ->
  (s' = s /\ r <> Ok Appended) \/
  exists run, lock_read (runs s) !! id = Some run /\ r = Ok Appended /\
    ended (payload <$> sr_events run) = false /\
    (forall n, seen = Some n -> n = length (sr_events run)) /\
    one_end (payload <$> events) /\
    s' = set_runs (set_outbox s (numbered (lock_read (outbox s)) (principal (owner (sr_spec run)))
                                   id (length (sr_events run)) (length events) now)
                     [principal_hint (owner (sr_spec run))])
           (<[id := mkStoredRun (sr_spec run) (sr_events run ++ events)]> (lock_read (runs s))).
Proof.
  unfold append_checked.
  destruct (check_one_terminal_spec events) as [[-> Hone]|[[e ->] _]];
    [|intros [= <- <-]; by left].
  unfold lock_write. destruct (poisoned (runs s)); [intros [= <- <-]; by left|].
  change (guarded (runs s)) with (lock_read (runs s)).
  destruct (lock_read (runs s) !! id) as [run|] eqn:Hrun; [|intros [= <- <-]; by left].
  rewrite has_terminal_ended. destruct (ended _) eqn:He; [intros [= <- <-]; by left|].
  destruct (match seen with Some n => _ | None => false end) eqn:Hseen;
    [intros [= <- <-]; by left|].
  destruct (number_ok s (owner (sr_spec run)) id (length (sr_events run)) (length events) now)
    as [->|[e ->]]; [|intros [= <- <-]; by left].
  intros [= <- <-]. right. exists run. split_and!; try done.
  intros n ->. by bool_to_prop.
Qed.

Lemma put_run_cases s run now r s' :
  store_wf s -> put_run s run now = (r, s') ->
  (s' = s /\ r <> Ok RunStored) \/
  lock_read (runs s) !! run_id (sr_spec run) = None /\ r = Ok RunStored /\
    one_end (payload <$> sr_events run) /\
    s' = set_runs (set_stored (set_order (set_outbox s
             (numbered (lock_read (outbox s)) (principal (owner (sr_spec run)))
                (run_id (sr_spec run)) 0 (length (sr_events run)) now)
             [principal_hint (owner (sr_spec run))]) (order s + 1))
             (<[run_id (sr_spec run) := (order s + 1)%N]> (lock_read (stored s))))
           (<[run_id (sr_spec run) := run]> (lock_read (runs s))).
Proof.
  intros Hwf. unfold put_run.
  destruct (check_one_terminal_spec (sr_events run)) as [[-> Hone]|[[e ->] _]];
    [|intros [= <- <-]; by left].
  unfold lock_write. destruct (poisoned (runs s)); [intros [= <- <-]; by left|].
  change (guarded (runs s)) with (lock_read (runs s)).
  destruct (lock_read (runs s) !! _) as [old|] eqn:Hrun; [intros [= <- <-]; by left|].
  destruct (number_ok s (owner (sr_spec run)) (run_id (sr_spec run)) 0
    (length (sr_events run)) now) as [->|[e ->]]; [|intros [= <- <-]; by left].
  simpl. rewrite (sw_stored s Hwf). intros [= <- <-]. by right.
Qed.

Lemma append_checked_wf s id seen events now r s' :
  store_wf s -> append_checked s id seen events now = (r, s') -> store_wf s'.
Proof.
  intros Hwf [[-> _]|(run & Hrun & -> & He & _ & Hone & ->)]%append_checked_cases; [done|].
  destruct (Hwf) as [Hruns Hout Hst]. split; [|simpl|done].
  - simpl. intros id' run' Hr'. destruct (decide (id = id')) as [<-|Hne].
    + rewrite lookup_insert_eq in Hr'. injection Hr' as <-. simpl.
      split; [by apply (Hruns id run)|]. rewrite fmap_app.
      intros i p Hi Hp. rewrite length_app. apply lookup_app_Some in Hi as [Hi|[Hi Hq]].
      * exfalso. unfold ended in He. rewrite existsb_false_Forall, Forall_lookup in He.
        apply He in Hi. congruence.
      * specialize (Hone _ _ Hq Hp). lia.
    + rewrite lookup_insert_ne in Hr' by done. by apply Hruns.
  - set (new := mkStoredRun (sr_spec run) (sr_events run ++ events)).
    assert (length (sr_events new) = length (sr_events run) + length events) as Hlen
      by apply length_app.
    replace (length (sr_events run)) with (length (sr_events new) - length events) by lia.
    apply numbered_wf; [done|done|lia|]. rewrite Hrun. done.
Qed.

Lemma put_run_wf s run now r s' :
  store_wf s -> put_run s run now = (r, s') -> store_wf s'.
Proof.
  intros Hwf Hp. destruct (put_run_cases _ _ _ _ _ Hwf Hp) as [[-> _]|(Hn & -> & Hone & ->)];
    [done|].
  destruct (Hwf) as [Hruns Hout Hst]. split; [|simpl|done].
  - simpl. intros id' run' Hr'. destruct (decide (run_id (sr_spec run) = id')) as [<-|Hne].
    + rewrite lookup_insert_eq in Hr'. by injection Hr' as <-.
    + rewrite lookup_insert_ne in Hr' by done. by apply Hruns.
  - replace 0 with (length (sr_events run) - length (sr_events run)) by lia.
    apply numbered_wf; [done|done|lia|]. by rewrite Hn.
Qed.

(** A principal is pruned through the number of one of its rows. *)
Lemma prune_through_row rows t0 p t :
  prune_through rows t0 !! p = Some t ->
  exists row, row ∈ rows /\ row_principal row = p /\ row_seq row = t.
Proof.
  unfold prune_through. revert p t.
  apply (fold_left_ind (fun through => forall p t, through !! p = Some t ->
    exists row, row ∈ rows /\ row_principal row = p /\ row_seq row = t)); [done|].
  intros m row IH Hrow p t. destruct (row_stored_ms row <? t0)%Z; [|apply IH].
  destruct (decide (row_principal row = p)) as [<-|Hne].
  - rewrite lookup_insert_eq. intros [= <-].
    destruct (m !! row_principal row) as [u|] eqn:Hm; simpl.
    + destruct (N.max_spec u (row_seq row)) as [[_ ->]|[_ ->]]; [by exists row|].
      by apply IH.
    + exists row. split_and!; [done|done|lia].
  - rewrite lookup_insert_ne by done. apply IH.
Qed.

(** What is kept of a principal's rows, and of a run's. *)
Lemma kept_rows through (rows : list OutboxRow) (P : OutboxRow -> Prop) `{!forall r, Decision (P r)} p :
  (forall row, row ∈ rows -> P row -> row_principal row = p) ->
  filter P (filter (fun row => Is_true (kept_row through row)) rows) =
  match through !! p with
  | Some t => filter (fun row => (t < row_seq row)%N) (filter P rows)
  | None => filter P rows
  end.
Proof.
  intros Hp. rewrite list_filter_filter. destruct (through !! p) as [t|] eqn:Ht.
  - rewrite list_filter_filter. induction rows as [|row rows IH]; [done|].
    rewrite !filter_cons. rewrite IH by (intros; apply Hp; set_solver).
    destruct (decide (P row)) as [HP|HP].
    + assert (row_principal row = p) as Hrow by (apply Hp; [set_solver|done]).
      unfold kept_row. rewrite Hrow, Ht.
      destruct (t <? row_seq row)%N eqn:E; bool_to_prop;
        repeat case_decide; naive_solver lia.
    + repeat case_decide; naive_solver.
  - induction rows as [|row rows IH]; [done|].
    rewrite !filter_cons. rewrite IH by (intros; apply Hp; set_solver).
    destruct (decide (P row)) as [HP|HP].
    + assert (row_principal row = p) as Hrow by (apply Hp; [set_solver|done]).
      unfold kept_row. rewrite Hrow, Ht. rewrite decide_True by done. done.
    + rewrite decide_False; [done|]. naive_solver.
Qed.

(** The outbox [prune_outbox] leaves. *)
Definition pruned_outbox (o : Outbox) (t0 : Timestamp) : Outbox :=
  let through := prune_through (ob_rows o) t0 in
  mkOutbox (ob_counts o) (union_with (fun a b => Some (N.max a b)) (ob_pruned o) through)
    (filter (fun row => Is_true (kept_row through row)) (ob_rows o)).

Lemma pruned_of_pruned o t0 p :
  pruned_of (pruned_outbox o t0) p =
    match prune_through (ob_rows o) t0 !! p with
    | Some t => N.max (pruned_of o p) t
    | None => pruned_of o p
    end.
Proof.
  unfold pruned_of. simpl. rewrite lookup_union_with.
  destruct (ob_pruned o !! p), (prune_through (ob_rows o) t0 !! p); simpl; lia.
Qed.

Lemma rows_of_range rs o p row :
  outbox_wf rs o -> row ∈ ob_rows o -> row_principal row = p ->
  (pruned_of o p < row_seq row <= count_of o p)%N.
Proof.
  intros Hwf Hrow Hp. pose proof (ow_pruned _ _ Hwf p).
  assert (row_seq row ∈ row_seq <$> rows_of o p) as Hin.
  { apply list_elem_of_fmap_2, list_elem_of_filter. done. }
  rewrite (ow_seqs _ _ Hwf p) in Hin. apply elem_of_nums in Hin. lia.
Qed.

Lemma pruned_wf rs o t0 : outbox_wf rs o -> outbox_wf rs (pruned_outbox o t0).
Proof.
  intros Hwf. pose proof Hwf as [Hpr Hseq Hruns Hrr].
  assert (forall p t, prune_through (ob_rows o) t0 !! p = Some t ->
    (pruned_of o p < t <= count_of o p)%N) as Hthrough.
  { intros p t (row & Hrow & Hp & <-)%prune_through_row. by eapply rows_of_range. }
  split.
  - intros p. rewrite pruned_of_pruned. change (count_of (pruned_outbox o t0) p) with (count_of o p).
    specialize (Hpr p). destruct (_ !! p) as [t|] eqn:Ht; [apply Hthrough in Ht|]; lia.
  - intros p. rewrite pruned_of_pruned. change (count_of (pruned_outbox o t0) p) with (count_of o p).
    unfold rows_of. simpl. rewrite kept_rows with (p := p) by done.
    destruct (_ !! p) as [t|] eqn:Ht; [|apply Hseq]. apply Hthrough in Ht.
    rewrite (nums_after _ _ _ _ (Hseq p)). f_equal; lia.
  - intros row Hrow. apply Hruns. simpl in Hrow. by apply list_elem_of_filter in Hrow as [_ ?].
  - intros id run Hr. destruct (Hrr id run Hr) as (k & Hk & Hrows).
    set (p := principal (owner (sr_spec run))).
    assert (forall row, row ∈ ob_rows o -> row_run_id row = id -> row_principal row = p) as Hp.
    { intros row Hrow Hid. destruct (Hruns row Hrow) as (run' & Hr' & <-).
      rewrite Hid, Hr in Hr'. by injection Hr' as <-. }
    unfold rows_of_run at 1. simpl. rewrite kept_rows with (p := p) by done.
    change (filter (fun row => row_run_id row = id) (ob_rows o)) with (rows_of_run o id).
    destruct (_ !! p) as [t|]; [|by exists k].
    destruct (sorted_after_suffix t (rows_of_run o id)) as (j & ->).
    { assert (rows_of_run o id = filter (fun row => row_run_id row = id) (rows_of o p)) as ->.
      { unfold rows_of, rows_of_run. rewrite list_filter_filter.
        clear -Hp. induction (ob_rows o) as [|row rows IH]; [done|]. rewrite !filter_cons.
        rewrite IH by (intros; apply Hp; set_solver).
        specialize (Hp row ltac:(set_solver)). repeat case_decide; naive_solver. }
      apply sorted_filter. eapply nums_sorted. apply Hseq. }
    exists (k + Nat.min j (length (sr_events run) - k))%nat. split; [lia|].
    rewrite fmap_drop, Hrows, drop_nums.
    destruct (decide (j <= length (sr_events run) - k)%nat) as [Hj|Hj].
    + f_equal; lia.
    + replace (length (sr_events run) - k - j) with 0 by lia.
      by replace (length (sr_events run) - (k + _)) with 0 by lia.
Qed.

Lemma prune_outbox_cases s t0 r s' :
  prune_outbox s t0 = (r, s') ->
  s' = s \/ s' = set_outbox s (pruned_outbox (lock_read (outbox s)) t0) [].
Proof.
  unfold prune_outbox, lock_write. destruct (poisoned (outbox s)); intros [= <- <-]; auto.
Qed.

(** ** Sequences of operations *)

Inductive StoreOp :=
| OpPutAgent (agent : StoredAgent)
| OpPutArtifact (artifact : StoredArtifact)
| OpPutRun (run : StoredRun) (now : Timestamp)
| OpAppend (id : RunId) (seen : option nat) (events : list Event) (now : Timestamp)
| OpPrune (t0 : Timestamp).

Definition apply_op (s : RunsStore) (op : StoreOp) : RunsStore :=
  match op with
  | OpPutAgent agent => snd (put_agent s agent)
  | OpPutArtifact a => snd (put_artifact s a)
  | OpPutRun run now => snd (put_run s run now)
  | OpAppend id seen events now => snd (append_checked s id seen events now)
  | OpPrune t0 => snd (prune_outbox s t0)
  end.

Definition apply_ops (s : RunsStore) (ops : list StoreOp) : RunsStore := fold_left apply_op ops s.

Lemma put_agent_frame s agent :
  runs (snd (put_agent s agent)) = runs s /\ outbox (snd (put_agent s agent)) = outbox s /\
  stored (snd (put_agent s agent)) = stored s.
Proof. unfold put_agent. by repeat case_match. Qed.

Lemma put_artifact_frame s a :
  runs (snd (put_artifact s a)) = runs s /\ outbox (snd (put_artifact s a)) = outbox s /\
  stored (snd (put_artifact s a)) = stored s.
Proof. unfold put_artifact. by repeat case_match. Qed.

Lemma store_wf_frame s s' :
  runs s' = runs s /\ outbox s' = outbox s /\ stored s' = stored s -> store_wf s -> store_wf s'.
Proof. intros (Hr & Ho & Hs) [H1 H2 H3]. split; rewrite ?Hr, ?Ho, ?Hs; done. Qed.

Lemma apply_op_wf s op : store_wf s -> store_wf (apply_op s op).
Proof.
  intros Hwf. destruct op; simpl.
  - eapply store_wf_frame; [apply put_agent_frame|done].
  - eapply store_wf_frame; [apply put_artifact_frame|done].
  - destruct (put_run s run now) eqn:E. by eapply put_run_wf.
  - destruct (append_checked s id seen events now) eqn:E. by eapply append_checked_wf.
  - destruct (prune_outbox s t0) eqn:E. apply prune_outbox_cases in E as [->| ->]; [done|].
    destruct Hwf as [H1 H2 H3]. split; [done| |done]. by apply pruned_wf.
Qed.

#[export] Hint Resolve apply_op_wf : gol.

Lemma apply_ops_wf s ops : store_wf s -> store_wf (apply_ops s ops).
Proof. intros Hs. apply (fold_left_ind store_wf); auto with gol. Qed.

(** ** Logs *)

Definition log_grows (s s' : RunsStore) : Prop :=
  forall id run, get_run s id = Some run ->
    exists run', get_run s' id = Some run' /\ sr_spec run' = sr_spec run /\
      sr_events run `prefix_of` sr_events run' /\
      (ended (payload <$> sr_events run) = true -> sr_events run' = sr_events run).

#[export] Instance log_grows_preorder : PreOrder log_grows.
Proof.
  split.
  - intros s id run Hr. by exists run.
  - intros s1 s2 s3 H12 H23 id run Hr.
    destruct (H12 _ _ Hr) as (r2 & Hr2 & Hs2 & Hp2 & He2).
    destruct (H23 _ _ Hr2) as (r3 & Hr3 & Hs3 & Hp3 & He3). exists r3.
    split_and!; [done|congruence|by etrans|]. intros He.
    rewrite He3; [by apply He2|]. by rewrite He2.
Qed.

Lemma log_grows_frame s s' : runs s' = runs s -> log_grows s s'.
Proof. intros Hr id run. unfold get_run. rewrite Hr. eauto. Qed.

Lemma apply_op_grows s op : store_wf s -> log_grows s (apply_op s op).
Proof.
  intros Hwf. destruct op; simpl.
  - apply log_grows_frame, put_agent_frame.
  - apply log_grows_frame, put_artifact_frame.
  - destruct (put_run s run now) as [r s'] eqn:E.
    destruct (put_run_cases _ _ _ _ _ Hwf E) as [[-> _]|(Hn & _ & _ & ->)]; [done|].
    intros id old Hold. unfold get_run in *. simpl. exists old. rewrite lookup_insert_ne; [done|].
    intros <-. congruence.
  - destruct (append_checked s id seen events now) as [r s'] eqn:E.
    apply append_checked_cases in E as [[-> _]|(run & Hrun & _ & He & _ & _ & ->)]; [done|].
    intros id' old Hold. unfold get_run in *. simpl.
    destruct (decide (id = id')) as [<-|Hne].
    + rewrite Hrun in Hold. injection Hold as <-. rewrite lookup_insert_eq. eexists.
      split_and!; [done|done|by eexists|]. rewrite He. done.
    + rewrite lookup_insert_ne by done. by exists old.
  - destruct (prune_outbox s t0) as [r s'] eqn:E.
    apply prune_outbox_cases in E as [->| ->]; [done|by apply log_grows_frame].
Qed.

Lemma apply_ops_grows s ops : store_wf s -> log_grows s (apply_ops s ops).
Proof.
  unfold apply_ops. revert s; induction ops as [|op ops IH]; intros s Hwf; [done|]. simpl.
  etrans; [by apply apply_op_grows|]. apply IH. auto with gol.
Qed.

(** C6. A stored log is append-only and final: after any operations of the
    store, a run keeps its spec, the events it had are a prefix of those it
    has, it still ends at its first terminal event, and a log that had ended
    is unchanged.  Nothing redelivered, late or concurrent can rewrite it. *)
Theorem store_logs_append_only s ops id run :
  store_wf s -> get_run s id = Some run ->
  exists run', get_run (apply_ops s ops) id = Some run' /\ sr_spec run' = sr_spec run /\
    sr_events run `prefix_of` sr_events run' /\ one_end (payload <$> sr_events run') /\
    (ended (payload <$> sr_events run) = true -> sr_events run' = sr_events run).
Proof.
  intros Hwf Hr. destruct (apply_ops_grows s ops Hwf _ _ Hr) as (run' & Hr' & Hs & Hp & He).
  exists run'. split_and!; try done.
  by apply (sw_runs _ (apply_ops_wf s ops Hwf) id).
Qed.

(** Of the writers that append after the same length of a log, one wins:
    once a non-empty batch was appended after [n] events, every later append
    after [n] events is refused, whatever happened in between, and changes
    nothing. *)
Theorem append_after_single_winner s id n first second now now' s1 ops r s2 :
  store_wf s -> first <> [] ->
  append_events_after s id n first now = (Ok Appended, s1) ->
  append_events_after (apply_ops s1 ops) id n second now' = (r, s2) ->
  r <> Ok Appended /\ s2 = apply_ops s1 ops.
Proof.
  intros Hwf Hne H1 H2. unfold append_events_after in *.
  pose proof (append_checked_wf _ _ _ _ _ _ _ Hwf H1) as Hwf1.
  apply append_checked_cases in H1 as [[_ []]|(run & Hrun & _ & _ & Hn & _ & Hs1)]; [done|].
  specialize (Hn n eq_refl). apply append_checked_cases in H2 as [[-> Hr]|H2]; [done|].
  destruct H2 as (run2 & Hrun2 & _ & _ & Hn2 & _). specialize (Hn2 n eq_refl). exfalso.
  assert (get_run s1 id = Some (mkStoredRun (sr_spec run) (sr_events run ++ first))) as Hg.
  { rewrite Hs1. unfold get_run. simpl. by rewrite lookup_insert_eq. }
  destruct (apply_ops_grows s1 ops Hwf1 _ _ Hg) as (run' & Hr' & _ & Hp & _).
  unfold get_run in Hr'. rewrite Hrun2 in Hr'. injection Hr' as <-.
  apply prefix_length in Hp. simpl in Hp. rewrite length_app in Hp.
  destruct first; [done|]. simpl in Hp. lia.
Qed.

(** ** The outbox *)

Lemma page_rows_nums rs o p a limit :
  outbox_wf rs o ->
  row_seq <$> page_rows o p a limit =
    take limit (nums (N.max (pruned_of o p) a + 1)
                  (N.to_nat (count_of o p - N.max (pruned_of o p) a))).
Proof.
  intros Hwf. unfold page_rows. rewrite fmap_take. f_equal.
  assert (filter (fun row => row_principal row = p /\ (a < row_seq row)%N) (ob_rows o) =
    filter (fun row => (a < row_seq row)%N) (rows_of o p)) as ->.
  { unfold rows_of. rewrite list_filter_filter. apply list_filter_iff. naive_solver. }
  rewrite (nums_after _ _ _ _ (ow_seqs _ _ Hwf p)). pose proof (ow_pruned _ _ Hwf p).
  f_equal; lia.
Qed.

(** A row's event is the one its run's log has at its place. *)
Definition entry_of (rs : gmap RunId StoredRun) (row : OutboxRow) (e : OutboxEntry) : Prop :=
  oe_seq e = row_seq row /\ oe_run_id e = row_run_id row /\ oe_run_seq e = row_run_seq row /\
  exists run, rs !! row_run_id row = Some run /\
    principal (owner (sr_spec run)) = row_principal row /\
    (1 <= row_run_seq row)%N /\
    sr_events run !! (N.to_nat (row_run_seq row) - 1)%nat = Some (oe_event e).

Lemma row_entry_ok rs o row :
  outbox_wf rs o -> row ∈ ob_rows o -> exists e, row_entry rs row = Ok e /\ entry_of rs row e.
Proof.
  intros Hwf Hrow. destruct (ow_runs _ _ Hwf row Hrow) as (run & Hr & Hp).
  destruct (ow_run_rows _ _ Hwf _ _ Hr) as (k & Hk & Hrows).
  assert (row_run_seq row ∈ nums (N.of_nat k + 1) (length (sr_events run) - k)) as Hin.
  { rewrite <-Hrows. apply list_elem_of_fmap_2, list_elem_of_filter. done. }
  apply elem_of_nums in Hin.
  destruct (lookup_lt_is_Some_2 (sr_events run) (N.to_nat (row_run_seq row) - 1)) as [e He]; [lia|].
  exists (mkOutboxEntry (row_seq row) (row_run_id row) (row_run_seq row) e).
  unfold row_entry. rewrite Hr. simpl. rewrite He. split; [done|]. split_and!; [done|done|done|].
  exists run. split_and!; [done|done|lia|done].
Qed.

Lemma collect_ok {A B E} (f : A -> result B E) (R : A -> B -> Prop) l :
  Forall (fun a => exists b, f a = Ok b /\ R a b) l ->
  exists bs, collect f l = Ok bs /\ Forall2 R l bs.
Proof.
  induction 1 as [|a l (b & Hb & HR) _ (bs & Hbs & IH)]; simpl; [by eexists|].
  rewrite Hb, Hbs. eauto.
Qed.

(** An entry of a page: the event its run's log holds at its place, in a run of
    principal [p]. *)
Definition entry_in (s : RunsStore) (p : Principal) (e : OutboxEntry) : Prop :=
  exists run, get_run s (oe_run_id e) = Some run /\
    principal (owner (sr_spec run)) = p /\ (1 <= oe_run_seq e)%N /\
    sr_events run !! (N.to_nat (oe_run_seq e) - 1)%nat = Some (oe_event e).

Lemma outbox_page_ok s o a limit :
  store_wf s ->
  let ob := lock_read (outbox s) in
  let from := N.max (pruned_of ob (principal o)) a in
  exists page, outbox_after s o a limit = Ok page /\
    oe_seq <$> entries page =
      take limit (nums (from + 1) (N.to_nat (last_number page - from))) /\
    pruned_through page = pruned_of ob (principal o) /\
    last_number page = count_of ob (principal o) /\
    Forall (entry_in s (principal o)) (entries page).
Proof.
  intros Hwf ob from. pose proof (sw_outbox _ Hwf) as How. fold ob in How.
  destruct (collect_ok (row_entry (lock_read (runs s))) (entry_of (lock_read (runs s)))
    (page_rows ob (principal o) a limit)) as (es & Hes & HR).
  { apply Forall_forall. intros row Hrow. apply (row_entry_ok _ ob); [done|].
    unfold page_rows in Hrow. apply elem_of_take in Hrow as (i & Hi & _).
    apply list_elem_of_lookup_2, list_elem_of_filter in Hi. tauto. }
  exists (mkOutboxPage es (pruned_of ob (principal o)) (count_of ob (principal o))).
  unfold outbox_after. fold ob. rewrite Hes. simpl. split_and!; try done.
  - unfold from. rewrite <-(page_rows_nums _ _ _ _ _ How). clear -HR.
    induction HR as [|row e rows es (Hs & _) _ IH]; [done|].
    rewrite !fmap_cons. by f_equal.
  - apply Forall_forall. intros e (i & He)%list_elem_of_lookup_1.
    destruct (Forall2_lookup_r _ _ _ _ _ HR He) as (row & Hrow & (_ & Hid & Hseq & run & Hr & Hp & Hx)).
    exists run. rewrite Hid, Hseq. unfold get_run. split_and!; try tauto.
    rewrite Hp. unfold page_rows in Hrow. apply lookup_take_Some in Hrow as [Hrow _].
    apply list_elem_of_lookup_2, list_elem_of_filter in Hrow. tauto.
Qed.

(** The outbox is complete and gap-free: whatever operations built the
    store, a page of a principal's outbox after [a] is never an error; its
    entries are numbered consecutively from the first number after both [a]
    and what was pruned, up to the principal's last number or the limit; and
    each entry is the event its own run's log holds at its place, in a run of
    that principal.  So a reader that is not behind the pruned number misses
    nothing and sees nobody else's events. *)
Theorem outbox_page_complete ops o a limit :
  let s := apply_ops store_default ops in
  let ob := lock_read (outbox s) in
  let from := N.max (pruned_of ob (principal o)) a in
  exists page, outbox_after s o a limit = Ok page /\
    oe_seq <$> entries page =
      take limit (nums (from + 1) (N.to_nat (last_number page - from))) /\
    pruned_through page = pruned_of ob (principal o) /\
    last_number page = count_of ob (principal o) /\
    Forall (entry_in s (principal o)) (entries page).
Proof. intros s ob from. apply outbox_page_ok, apply_ops_wf, store_default_wf. Qed.

(** ** Agents *)

(** The principal an agent id belongs to. *)
Definition agent_principal (s : RunsStore) (id : AgentId) : option Principal :=
  (fun agent => principal (sa_owner agent)) <$> get_agent s id.

Lemma agents_frame s op :
  (forall agent, op <> OpPutAgent agent) -> agents (apply_op s op) = agents s.
Proof.
  intros Hne. destruct op; simpl; try done; [by destruct (Hne agent)|..].
  - unfold put_artifact. by repeat case_match.
  - unfold put_run. repeat case_match; try done; simpl in *;
      unfold number in *; repeat case_match; by simplify_eq.
  - unfold append_checked. repeat case_match; try done; simpl in *;
      unfold number in *; repeat case_match; by simplify_eq.
  - unfold prune_outbox. by repeat case_match.
Qed.

Lemma apply_op_agent s op id p :
  agent_principal s id = Some p -> agent_principal (apply_op s op) id = Some p.
Proof.
  unfold agent_principal, get_agent. intros Hp.
  assert ((exists agent, op = OpPutAgent agent) \/ forall agent, op <> OpPutAgent agent)
    as [[agent ->]|Hne] by (destruct op; eauto).
  - simpl. unfold put_agent, lock_write. destruct (poisoned (agents s)); [done|].
    change (guarded (agents s)) with (lock_read (agents s)).
    destruct (decide (am_id (sa_manifest agent) = id)) as [<-|Hid].
    + destruct (lock_read (agents s) !! _) as [kept|] eqn:Hk; [|done]. simpl in Hp.
      destruct (owner_is (sa_owner kept) (sa_owner agent)) eqn:Ho; simpl; [|by rewrite Hk].
      rewrite lookup_insert_eq. simpl. apply owner_is_principal in Ho. congruence.
    + destruct (lock_read (agents s) !! am_id (sa_manifest agent)) as [kept|];
        [destruct (owner_is _ _); simpl|simpl]; rewrite ?lookup_insert_ne by done; done.
  - by rewrite agents_frame.
Qed.

(** An agent id belongs to the principal that stored it first: no operation
    hands it to another, and a put by another principal is refused and changes
    nothing. *)
Theorem agent_owner_fixed s ops id p agent :
  agent_principal s id = Some p ->
  agent_principal (apply_ops s ops) id = Some p /\
  (am_id (sa_manifest agent) = id -> principal (sa_owner agent) <> p ->
     poisoned (agents (apply_ops s ops)) = false ->
     put_agent (apply_ops s ops) agent = (Ok OwnedByOther, apply_ops s ops)).
Proof.
  intros Hp. assert (agent_principal (apply_ops s ops) id = Some p) as Hp'.
  { apply (fold_left_ind (fun s => agent_principal s id = Some p)); [done|].
    intros. by apply apply_op_agent. }
  split; [done|]. intros <- Hne Hpo. unfold put_agent, lock_write. rewrite Hpo.
  unfold agent_principal, get_agent, lock_read in Hp'.
  destruct (guarded (agents (apply_ops s ops)) !! _) as [kept|]; [|done].
  injection Hp' as Hk. destruct (owner_is (sa_owner kept) (sa_owner agent)) eqn:Ho; [|done].
  apply owner_is_principal in Ho. congruence.
Qed.

(** ** Concrete stores *)

Definition sample_run : StoredRun := mkStoredRun sample_spec [sample_event RunCreated].

Definition sample_store : RunsStore := apply_ops store_default [OpPutRun sample_run 5%Z].

Lemma sample_store_wf : store_wf sample_store.
Proof. apply apply_ops_wf, store_default_wf. Qed.

Lemma store_logs_append_only_witness :
  exists run', get_run (apply_ops sample_store
      [OpAppend (id_of 1) None [sample_event RunStarted; sample_event RunCancelled] 6%Z;
       OpAppend (id_of 1) None [sample_event RunStarted] 7%Z; OpPutRun sample_run 8%Z])
      (id_of 1) = Some run' /\ sr_spec run' = sample_spec /\
    [sample_event RunCreated] `prefix_of` sr_events run' /\
    one_end (payload <$> sr_events run') /\
    (ended (payload <$> [sample_event RunCreated]) = true ->
       sr_events run' = [sample_event RunCreated]).
Proof.
  apply (store_logs_append_only sample_store _ (id_of 1) sample_run sample_store_wf).
  vm_compute. reflexivity.
Defined.

Lemma append_after_single_winner_witness :
  let s1 := snd (append_events_after sample_store (id_of 1) 1 [sample_event RunStarted] 6%Z) in
  fst (append_events_after s1 (id_of 1) 1 [sample_event RunQueued] 7%Z) <> Ok Appended.
Proof.
  intros s1.
  refine (proj1 (append_after_single_winner sample_store (id_of 1) 1 [sample_event RunStarted]
    [sample_event RunQueued] 6%Z 7%Z s1 [] _ _ sample_store_wf _ _ (surjective_pairing _))).
  - discriminate.
  - vm_compute. reflexivity.
Defined.

Definition sample_agent (sub : string) : StoredAgent :=
  mkStoredAgent (mkAgentManifest (id_of 2) "1" "echo" "" "" [] [])
    (mkOwner "https://issuer.test" sub "tenant-1").

Lemma agent_owner_fixed_witness :
  let s := apply_ops store_default [OpPutAgent (sample_agent "user-1")] in
  put_agent s (sample_agent "user-2") = (Ok OwnedByOther, s).
Proof.
  intros s.
  refine (proj2 (agent_owner_fixed s [] (id_of 2) ("https://issuer.test", "user-1")
    (sample_agent "user-2") _) _ _ _).
  - vm_compute. reflexivity.
  - reflexivity.
  - discriminate.
  - reflexivity.
Defined.
