(* ===== verification/StoreTriggers.v ===== *)
(** * Triggers in the in-memory store ([server/store.rs])

    A principal's triggers, each its owner's alone.  The theorems: the cap per
    principal, the isolation of principals, the single scheduler that moves a
    tick, and the generation that tells a pause apart. *)

From S2P Require Import Prelude Protocol MemoryOwner Store.

(** ** Data *)

Abbreviation TriggerId := (Id KTrigger).

Inductive TriggerKind :=
| Schedule (cron time_zone : string)
| Webhook (rotation : N).

Inductive Missed := RunOnceLate | Skip.

Record StoredTrigger : Type := mkStoredTrigger {
  tg_id : TriggerId;
  tg_owner : Owner;
  tg_agent_id : AgentId;
  tg_kind : TriggerKind;
  tg_input : string;
  tg_placement : ExecutionPlacement;
  tg_work_model : WorkModel;
  tg_limits : option Limits;
  tg_missed : Missed;
  tg_enabled : bool;
  tg_next_fire_ms : option Z;
  tg_created_ms : Z;
  tg_generation : N;
}.

Definition set_enabled_to (t : StoredTrigger) (enabled : bool) : StoredTrigger :=
  mkStoredTrigger (tg_id t) (tg_owner t) (tg_agent_id t) (tg_kind t) (tg_input t)
    (tg_placement t) (tg_work_model t) (tg_limits t) (tg_missed t) enabled (tg_next_fire_ms t)
    (tg_created_ms t) (tg_generation t).

Definition set_kind (t : StoredTrigger) (kind : TriggerKind) : StoredTrigger :=
  mkStoredTrigger (tg_id t) (tg_owner t) (tg_agent_id t) kind (tg_input t) (tg_placement t)
    (tg_work_model t) (tg_limits t) (tg_missed t) (tg_enabled t) (tg_next_fire_ms t)
    (tg_created_ms t) (tg_generation t).

Definition set_next_fire (t : StoredTrigger) (next : option Z) : StoredTrigger :=
  mkStoredTrigger (tg_id t) (tg_owner t) (tg_agent_id t) (tg_kind t) (tg_input t)
    (tg_placement t) (tg_work_model t) (tg_limits t) (tg_missed t) (tg_enabled t) next
    (tg_created_ms t) (tg_generation t).

Definition resumed_trigger (t : StoredTrigger) (next : option Z) : StoredTrigger :=
  mkStoredTrigger (tg_id t) (tg_owner t) (tg_agent_id t) (tg_kind t) (tg_input t)
    (tg_placement t) (tg_work_model t) (tg_limits t) (tg_missed t) true next (tg_created_ms t)
    (tg_generation t + 1).

(** The triggers under their lock. *)
Definition Triggers := Lock (list StoredTrigger).

(** ** Operations *)

Definition triggers_default : Triggers := mkLock [] false.

Definition names (o : Owner) (id : TriggerId) (t : StoredTrigger) : bool :=
  bool_decide (tg_id t = id) && owner_is (tg_owner t) o.

Definition put_trigger (l : Triggers) (t : StoredTrigger) (most : nat)
    : result bool StoreError * Triggers :=
  match lock_write l "triggers" with
  | Err e => (Err e, l)
  | Ok ts =>
      let kept := length (List.filter (fun kept => owner_is (tg_owner kept) (tg_owner t)) ts) in
      if (most <=? kept)%nat then (Ok false, l) else (Ok true, lock_set l (ts ++ [t]))
  end.

(** [sort_by_key(|trigger| (trigger.created_ms, trigger.id.as_uuid()))]. *)
Definition created_leb (a b : StoredTrigger) : bool :=
  (tg_created_ms a <? tg_created_ms b)%Z ||
  ((tg_created_ms a =? tg_created_ms b)%Z &&
   (uuid_N (as_uuid (tg_id a)) <=? uuid_N (as_uuid (tg_id b)))%N).

Definition triggers_of (l : Triggers) (o : Owner) : list StoredTrigger :=
  sort_by created_leb (List.filter (fun t => owner_is (tg_owner t) o) (lock_read l)).

Definition trigger (l : Triggers) (o : Owner) (id : TriggerId) : option StoredTrigger :=
  List.find (names o id) (lock_read l).

(** An update of the trigger found, if any, and the trigger after it. *)
Definition update_found (l : Triggers) (p : StoredTrigger -> bool)
    (f : StoredTrigger -> StoredTrigger) : result (option StoredTrigger) StoreError * Triggers :=
  match lock_write l "triggers" with
  | Err e => (Err e, l)
  | Ok ts =>
      match update_first p f ts with
      | Some (t, ts) => (Ok (Some t), lock_set l ts)
      | None => (Ok None, l)
      end
  end.

Definition set_enabled (l : Triggers) (o : Owner) (id : TriggerId) (enabled : bool)
    : result (option StoredTrigger) StoreError * Triggers :=
  update_found l (names o id) (fun t => set_enabled_to t enabled).

(** [rotate_webhook]: none for a schedule, or at the last rotation. *)
Definition rotate_webhook (l : Triggers) (o : Owner) (id : TriggerId)
    : result (option StoredTrigger) StoreError * Triggers :=
  match lock_write l "triggers" with
  | Err e => (Err e, l)
  | Ok ts =>
      match List.find (names o id) ts with
      | None => (Ok None, l)
      | Some t =>
          match tg_kind t with
          | Webhook rotation =>
              if (rotation <? u32_max)%N then
                update_found l (names o id) (fun t => set_kind t (Webhook (rotation + 1)))
              else (Ok None, l)
          | Schedule _ _ => (Ok None, l)
          end
      end
  end.

Definition delete_trigger (l : Triggers) (o : Owner) (id : TriggerId)
    : result bool StoreError * Triggers :=
  match lock_write l "triggers" with
  | Err e => (Err e, l)
  | Ok ts =>
      let kept := List.filter (fun t => negb (names o id t)) ts in
      (Ok (length kept <? length ts)%nat, lock_set l kept)
  end.

Definition resume_trigger (l : Triggers) (o : Owner) (id : TriggerId) (next : option Z)
    : result (option StoredTrigger) StoreError * Triggers :=
  update_found l (names o id) (fun t => if tg_enabled t then t else resumed_trigger t next).

(** [None < Some _], and [Some] by its value. *)
Definition option_leb (a b : option Z) : bool :=
  match a, b with
  | None, _ => true
  | Some _, None => false
  | Some a, Some b => (a <=? b)%Z
  end.

Definition next_leb (a b : StoredTrigger) : bool :=
  if bool_decide (tg_next_fire_ms a = tg_next_fire_ms b)
  then (uuid_N (as_uuid (tg_id a)) <=? uuid_N (as_uuid (tg_id b)))%N
  else option_leb (tg_next_fire_ms a) (tg_next_fire_ms b).

Definition is_due (now : Z) (t : StoredTrigger) : bool :=
  tg_enabled t && match tg_next_fire_ms t with Some next => (next <=? now)%Z | None => false end.

Definition due_triggers (l : Triggers) (now : Z) (limit : nat) : list StoredTrigger :=
  take limit (sort_by next_leb (List.filter (is_due now) (lock_read l))).

Definition advance_trigger (l : Triggers) (id : TriggerId) (due next : option Z)
    : result bool StoreError * Triggers :=
  match update_found l (fun t => bool_decide (tg_id t = id) && bool_decide (tg_next_fire_ms t = due))
          (fun t => set_next_fire t next) with
  | (Ok found, l) => (Ok (bool_decide (is_Some found)), l)
  | (Err e, l) => (Err e, l)
  end.

Definition is_webhook (t : StoredTrigger) : bool :=
  match tg_kind t with Webhook _ => true | Schedule _ _ => false end.

Definition webhook_trigger (l : Triggers) (id : TriggerId) : option StoredTrigger :=
  List.find (fun t => bool_decide (tg_id t = id) && is_webhook t) (lock_read l).

Definition unscheduled_triggers (l : Triggers) (limit : nat) : list StoredTrigger :=
  take limit
    (List.filter
       (fun t => tg_enabled t && negb (bool_decide (is_Some (tg_next_fire_ms t))) &&
                 negb (is_webhook t))
       (lock_read l)).

Definition pause_triggers (l : Triggers) (o : Owner) : result nat StoreError * Triggers :=
  match lock_write l "triggers" with
  | Err e => (Err e, l)
  | Ok ts =>
      let pausing t := owner_is (tg_owner t) o && tg_enabled t in
      (Ok (length (List.filter pausing ts)),
       lock_set l ((fun t => if pausing t then set_enabled_to t false else t) <$> ts))
  end.

(** ** Sequences of operations *)

Inductive TriggerOp :=
| OpPutTrigger (t : StoredTrigger) (most : nat)
| OpPause (o : Owner) (id : TriggerId)
| OpRotate (o : Owner) (id : TriggerId)
| OpDelete (o : Owner) (id : TriggerId)
| OpResume (o : Owner) (id : TriggerId) (next : option Z)
| OpAdvance (id : TriggerId) (due next : option Z)
| OpPauseAll (o : Owner).

Definition apply_trigger_op (l : Triggers) (op : TriggerOp) : Triggers :=
  match op with
  | OpPutTrigger t most => snd (put_trigger l t most)
  | OpPause o id => snd (set_enabled l o id false)
  | OpRotate o id => snd (rotate_webhook l o id)
  | OpDelete o id => snd (delete_trigger l o id)
  | OpResume o id next => snd (resume_trigger l o id next)
  | OpAdvance id due next => snd (advance_trigger l id due next)
  | OpPauseAll o => snd (pause_triggers l o)
  end.

Definition apply_trigger_ops (l : Triggers) (ops : list TriggerOp) : Triggers :=
  fold_left apply_trigger_op ops l.

(** What an operation may make of a trigger that stays: the same trigger, with
    a generation that only grows, and grows when it runs again. *)
Definition evolves (t t' : StoredTrigger) : Prop :=
  tg_id t' = tg_id t /\ tg_owner t' = tg_owner t /\
  (tg_generation t <= tg_generation t')%N /\
  (tg_enabled t = false -> tg_enabled t' = true -> (tg_generation t < tg_generation t')%N).

#[export] Instance evolves_preorder : PreOrder evolves.
Proof.
  split.
  - intros t. split_and!; [done|done|lia|congruence].
  - intros t1 t2 t3 (Hi & Ho & Hg & He) (Hi' & Ho' & Hg' & He').
    split_and!; [congruence|congruence|lia|]. intros H1 H3.
    destruct (tg_enabled t2) eqn:H2; [specialize (He H1 eq_refl)|specialize (He' eq_refl H3)]; lia.
Qed.

(** The triggers after an operation: the old ones evolved, some dropped, and
    perhaps a new one at the end. *)
Lemma update_found_evolves l p f r l' :
  (forall t, evolves t (f t)) -> update_found l p f = (r, l') ->
  Forall2 evolves (lock_read l) (lock_read l').
Proof.
  intros Hf. unfold update_found, lock_write. destruct (poisoned l); [by intros [= <- <-]|].
  destruct (update_first p f (guarded l)) as [[t ts]|] eqn:E; intros [= <- <-]; [|done].
  apply update_first_Some in E as (a & x & b & Hl & -> & _). unfold lock_read. simpl. rewrite Hl.
  apply Forall2_app; [done|]. by constructor.
Qed.

Lemma set_enabled_evolves t : evolves t (set_enabled_to t false).
Proof. split_and!; simpl; [done|done|lia|done]. Qed.

Lemma set_kind_evolves t k : evolves t (set_kind t k).
Proof. split_and!; simpl; [done|done|lia|congruence]. Qed.

Lemma set_next_evolves t next : evolves t (set_next_fire t next).
Proof. split_and!; simpl; [done|done|lia|congruence]. Qed.

Lemma resume_evolves t next : evolves t (if tg_enabled t then t else resumed_trigger t next).
Proof.
  destruct (tg_enabled t) eqn:E; [done|]. split_and!; simpl; [done|done|lia|lia].
Qed.

Inductive changes (ts : list StoredTrigger) : TriggerOp -> list StoredTrigger -> Prop :=
| changes_evolved op ts' : Forall2 evolves ts ts' -> changes ts op ts'
| changes_put t most :
    (length (List.filter (fun kept => owner_is (tg_owner kept) (tg_owner t)) ts) < most)%nat ->
    changes ts (OpPutTrigger t most) (ts ++ [t])
| changes_deleted o id :
    changes ts (OpDelete o id) (List.filter (fun t => negb (names o id t)) ts).

Lemma apply_trigger_op_changes l op :
  changes (lock_read l) op (lock_read (apply_trigger_op l op)).
Proof.
  assert (forall p f, (forall t, evolves t (f t)) ->
    changes (lock_read l) op (lock_read (snd (update_found l p f)))) as Hupd.
  { intros p f Hf. constructor. destruct (update_found l p f) eqn:E.
    by eapply update_found_evolves. }
  destruct op; simpl.
  - unfold put_trigger, lock_write. destruct (poisoned l); [by constructor|].
    destruct (_ <=? _)%nat eqn:E; [by constructor|]. bool_to_prop. by constructor.
  - apply Hupd. intros t. apply set_enabled_evolves.
  - unfold rotate_webhook, lock_write. destruct (poisoned l); [by constructor|].
    destruct (List.find _ _) as [t|]; [|by constructor].
    destruct (tg_kind t); [by constructor|]. destruct (_ <? _)%N; [|by constructor].
    apply Hupd. intros t'. apply set_kind_evolves.
  - unfold delete_trigger, lock_write. destruct (poisoned l); [by constructor|].
    apply changes_deleted.
  - apply Hupd. intros t. apply resume_evolves.
  - unfold advance_trigger.
    destruct (update_found l _ _) as [r l'] eqn:E. apply update_found_evolves in E;
      [by destruct r; constructor|]. intros t. apply set_next_evolves.
  - unfold pause_triggers, lock_write. destruct (poisoned l); [by constructor|].
    constructor. unfold lock_read. simpl. induction (guarded l) as [|t ts IH]; simpl; [done|].
    constructor; [|done]. destruct (_ && _); [apply set_enabled_evolves|done].
Qed.

(** ** The cap *)

Definition kept_by (o : Owner) (ts : list StoredTrigger) : nat :=
  length (List.filter (fun t => owner_is (tg_owner t) o) ts).

Definition put_most (op : TriggerOp) : nat :=
  match op with OpPutTrigger _ most => most | _ => 0 end.

Lemma kept_by_evolved o ts ts' : Forall2 evolves ts ts' -> kept_by o ts' = kept_by o ts.
Proof.
  unfold kept_by. induction 1 as [|t t' ts ts' (_ & Ho & _) _ IH]; simpl; [done|].
  rewrite Ho. destruct (owner_is _ _); simpl; auto.
Qed.

Lemma kept_by_deleted o (p : StoredTrigger -> bool) ts :
  (kept_by o (List.filter p ts) <= kept_by o ts)%nat.
Proof.
  unfold kept_by. induction ts as [|t ts IH]; simpl; [lia|].
  destruct (p t); simpl; destruct (owner_is _ _); simpl; lia.
Qed.

Lemma kept_by_principal o o' ts : owner_is o o' = true -> kept_by o ts = kept_by o' ts.
Proof.
  intros Ho%owner_is_principal. unfold kept_by. f_equal. apply List.filter_ext. intros t.
  apply eq_bool_prop_intro. rewrite !Is_true_true, !owner_is_principal, Ho. done.
Qed.

Lemma changes_capped ts op ts' o most :
  changes ts op ts' -> (put_most op <= most)%nat -> (kept_by o ts <= most)%nat ->
  (kept_by o ts' <= most)%nat.
Proof.
  destruct 1 as [op ts' He|t m Hm|o' id]; simpl; intros Hop Hk.
  - by rewrite (kept_by_evolved o _ _ He).
  - unfold kept_by. rewrite List.filter_app, length_app. simpl. fold (kept_by o ts).
    fold (kept_by (tg_owner t) ts) in Hm.
    destruct (owner_is (tg_owner t) o) eqn:Ho; simpl; [|lia].
    rewrite (kept_by_principal _ _ _ Ho) in Hm. lia.
  - pose proof (kept_by_deleted o (fun t => negb (names o' id t)) ts). lia.
Qed.

(** The cap on triggers holds for every principal: if every put names at
    most [most], no order of puts, pauses, resumes, deletions, rotations and
    fires leaves a principal with more than [most] triggers (the tenant of the
    owner does not give a second allowance). *)
Theorem triggers_capped ops most o :
  Forall (fun op => (put_most op <= most)%nat) ops ->
  (kept_by o (lock_read (apply_trigger_ops triggers_default ops)) <= most)%nat.
Proof.
  intros Hops. unfold apply_trigger_ops.
  apply (fold_left_ind (fun l => (kept_by o (lock_read l) <= most)%nat)).
  - apply Nat.le_0_l.
  - intros l op Hl Hop. eapply changes_capped; [apply apply_trigger_op_changes| |done].
    by eapply Forall_forall in Hops.
Qed.

(** ** Generations *)

Lemma find_head {A} (p : A -> bool) l : List.find p l = head (List.filter p l).
Proof. induction l as [|x l IH]; simpl; [done|]. by destruct (p x). Qed.

Lemma names_evolved o id ts ts' :
  Forall2 evolves ts ts' ->
  Forall2 evolves (List.filter (names o id) ts) (List.filter (names o id) ts').
Proof.
  induction 1 as [|t t' ts ts' Ht _ IH]; simpl; [done|].
  destruct (Ht) as (Hi & Ho & _).
  assert (names o id t' = names o id t) as -> by (unfold names; by rewrite Hi, Ho).
  destruct (names o id t); [|done]. by constructor.
Qed.

Lemma names_deleted o id o' id' ts :
  List.filter (names o id) (List.filter (fun t => negb (names o' id' t)) ts) =
    if bool_decide (id = id') && owner_is o o' then [] else List.filter (names o id) ts.
Proof.
  destruct (bool_decide (id = id') && owner_is o o') eqn:E.
  - bool_to_prop. subst. rewrite owner_is_principal in *.
    induction ts as [|t ts IH]; simpl; [done|].
    destruct (names o' id' t) eqn:En; simpl; [done|]. unfold names in *.
    destruct (bool_decide (tg_id t = id')); [|done]. simpl in *.
    destruct (owner_is (tg_owner t) o) eqn:Eo; [|done]. exfalso.
    apply owner_is_principal in Eo.
    assert (owner_is (tg_owner t) o' = true) by (apply owner_is_principal; congruence). congruence.
  - induction ts as [|t ts IH]; simpl; [done|].
    destruct (names o' id' t) eqn:En; simpl; [|by rewrite IH].
    destruct (names o id t) eqn:En'; [|done]. exfalso. unfold names in En, En'.
    apply andb_true_iff in En as [Hi%bool_decide_eq_true Ho%owner_is_principal].
    apply andb_true_iff in En' as [Hi'%bool_decide_eq_true Ho'%owner_is_principal].
    assert (owner_is o o' = true) as Hoo by (apply owner_is_principal; congruence).
    rewrite Hoo, bool_decide_true in E by congruence. done.
Qed.

Definition puts (id : TriggerId) (op : TriggerOp) : Prop :=
  exists t most, op = OpPutTrigger t most /\ tg_id t = id.

Lemma changes_named ts op ts' o id :
  changes ts op ts' -> ~ puts id op ->
  List.filter (names o id) ts' = [] \/
  Forall2 evolves (List.filter (names o id) ts) (List.filter (names o id) ts').
Proof.
  destruct 1 as [op ts' He|t m Hm|o' id']; intros Hp.
  - right. by apply names_evolved.
  - right. rewrite List.filter_app. simpl.
    assert (names o id t = false) as ->; [|by rewrite app_nil_r].
    unfold names. by rewrite bool_decide_false by (intros Hid; apply Hp; by exists t, m).
  - rewrite names_deleted. destruct (_ && _); [by left|by right].
Qed.

Lemma trigger_evolves l ops o id t t' :
  Forall (fun op => ~ puts id op) ops ->
  trigger l o id = Some t -> trigger (apply_trigger_ops l ops) o id = Some t' -> evolves t t'.
Proof.
  unfold trigger. rewrite !find_head. intros Hops Ht Ht'.
  assert (List.filter (names o id) (lock_read (apply_trigger_ops l ops)) = [] \/
    Forall2 evolves (List.filter (names o id) (lock_read l))
      (List.filter (names o id) (lock_read (apply_trigger_ops l ops)))) as Hf.
  { unfold apply_trigger_ops.
    apply (fold_left_ind (fun l' => List.filter (names o id) (lock_read l') = [] \/
      Forall2 evolves (List.filter (names o id) (lock_read l))
        (List.filter (names o id) (lock_read l')))); [by right|].
    intros l' op Hl' Hop. eapply Forall_forall in Hops; [|done].
    destruct (changes_named _ _ _ o id (apply_trigger_op_changes l' op) Hops) as [|He]; [by left|].
    destruct Hl' as [Hnil|Hl']; [|right; by etrans].
    rewrite Hnil in He. apply Forall2_nil_inv_l in He. by left. }
  destruct Hf as [Hf|Hf]; [by rewrite Hf in Ht'|].
  inversion Hf as [Hn1 Hn2|x y xs ys Hxy Hr Hn1 Hn2]; rewrite <-Hn1, <-Hn2 in *; simplify_eq/=.
  done.
Qed.

(** The generation tells a pause: if a trigger was paused at some moment and
    runs again later, whatever happened before, between and after, its
    generation is greater than the one it had before the pause, so a fire that
    read the trigger earlier finds another generation and holds its run. *)
Theorem generation_tells_pause l ops1 ops2 o id t0 t1 t2 :
  Forall (fun op => ~ puts id op) ops1 -> Forall (fun op => ~ puts id op) ops2 ->
  trigger l o id = Some t0 ->
  trigger (apply_trigger_ops l ops1) o id = Some t1 -> tg_enabled t1 = false ->
  trigger (apply_trigger_ops (apply_trigger_ops l ops1) ops2) o id = Some t2 ->
  tg_enabled t2 = true ->
  (tg_generation t0 < tg_generation t2)%N.
Proof.
  intros Hops1 Hops2 H0 H1 He1 H2 He2.
  destruct (trigger_evolves _ _ _ _ _ _ Hops1 H0 H1) as (_ & _ & Hg & _).
  destruct (trigger_evolves _ _ _ _ _ _ Hops2 H1 H2) as (_ & _ & _ & Hlt).
  specialize (Hlt He1 He2). lia.
Qed.

(** ** Ticks *)

(** Schedulers that each try to move the same tick, one after the other. *)
Fixpoint advance_all (l : Triggers) (id : TriggerId) (due : option Z) (nexts : list (option Z))
    : list (result bool StoreError) * Triggers :=
  match nexts with
  | [] => ([], l)
  | next :: nexts =>
      let '(r, l) := advance_trigger l id due next in
      let '(rs, l) := advance_all l id due nexts in (r :: rs, l)
  end.

Definition at_tick (id : TriggerId) (due : option Z) (t : StoredTrigger) : bool :=
  bool_decide (tg_id t = id) && bool_decide (tg_next_fire_ms t = due).

Lemma advance_trigger_miss l id due next :
  poisoned l = false -> existsb (at_tick id due) (lock_read l) = false ->
  advance_trigger l id due next = (Ok false, l).
Proof.
  intros Hp Hn. unfold advance_trigger, update_found, lock_write. rewrite Hp.
  apply existsb_false_Forall, (update_first_None _ (fun t => set_next_fire t next)) in Hn.
  unfold at_tick, lock_read in Hn. by rewrite Hn.
Qed.

Lemma advance_all_miss l id due nexts :
  poisoned l = false -> existsb (at_tick id due) (lock_read l) = false ->
  advance_all l id due nexts = (replicate (length nexts) (Ok false), l).
Proof.
  intros Hp Hn. induction nexts as [|next nexts IH]; simpl; [done|].
  by rewrite advance_trigger_miss, IH.
Qed.

Lemma advance_trigger_moves l id due next :
  poisoned l = false -> NoDup (tg_id <$> lock_read l) -> next <> due ->
  exists l', advance_trigger l id due next =
      (Ok (existsb (at_tick id due) (lock_read l)), l') /\
    poisoned l' = false /\ existsb (at_tick id due) (lock_read l') = false.
Proof.
  intros Hp Hnd Hne. destruct (existsb (at_tick id due) (lock_read l)) eqn:E.
  2: { exists l. split_and!; [by apply advance_trigger_miss|done|done]. }
  unfold advance_trigger, update_found, lock_write. rewrite Hp.
  destruct (update_first _ _ (guarded l)) as [[t ts]|] eqn:Eu.
  - apply update_first_Some in Eu as (a & x & b & Hl & -> & -> & Hx & Ha).
    eexists. split_and!; [done|done|]. unfold lock_read in *. simpl. rewrite Hl in Hnd.
    rewrite fmap_app, fmap_cons, NoDup_app, NoDup_cons in Hnd.
    destruct Hnd as (_ & Hax & Hxb & _). bool_to_prop.
    apply existsb_false_Forall, Forall_app. split; [done|].
    constructor; [unfold at_tick; simpl; rewrite (bool_decide_false (next = due)) by done;
      apply andb_false_r|].
    apply Forall_forall. intros y Hy. unfold at_tick. rewrite bool_decide_false; [done|].
    intros Hyx. apply Hxb. apply list_elem_of_fmap. exists y. split; [congruence|done].
  - apply update_first_None in Eu. unfold lock_read in E.
    apply existsb_false_Forall in Eu. unfold at_tick in E. congruence.
Qed.

(** One scheduler moves a tick: of any number of schedulers that read the
    same tick of a trigger and try to move it on, exactly one succeeds, the
    first, if the trigger still has that tick; the others are told they did
    not. *)
Theorem one_scheduler_moves_a_tick l id due next nexts :
  poisoned l = false -> NoDup (tg_id <$> lock_read l) -> next <> due ->
  fst (advance_all l id due (next :: nexts)) =
    Ok (existsb (at_tick id due) (lock_read l)) :: replicate (length nexts) (Ok false).
Proof.
  intros Hp Hnd Hne. destruct (advance_trigger_moves l id due next Hp Hnd Hne)
    as (l' & Ha & Hp' & He'). simpl. by rewrite Ha, advance_all_miss.
Qed.

(** ** Concrete triggers *)

Definition sample_trigger (n : N) (sub : string) : StoredTrigger :=
  mkStoredTrigger (id_of n) (mkOwner "https://issuer.test" sub "tenant-1") (id_of 2)
    (Schedule "0 * * * *" "UTC") "tick" Local (work_model sample_spec) None RunOnceLate true
    (Some 1000%Z) 0%Z 0.

Definition sample_owner : Owner := mkOwner "https://issuer.test" "user-1" "tenant-1".

Definition sample_triggers : Triggers :=
  apply_trigger_ops triggers_default
    [OpPutTrigger (sample_trigger 1 "user-1") 2; OpPutTrigger (sample_trigger 2 "user-2") 2].

Lemma triggers_capped_witness :
  (kept_by sample_owner (lock_read (apply_trigger_ops triggers_default
     [OpPutTrigger (sample_trigger 1 "user-1") 1; OpPutTrigger (sample_trigger 3 "user-1") 1]))
   <= 1)%nat.
Proof. apply triggers_capped. repeat constructor. Defined.

Lemma generation_tells_pause_witness :
  (0 < tg_generation (resumed_trigger (sample_trigger 1 "user-1") (Some 9%Z)))%N.
Proof.
  apply (generation_tells_pause sample_triggers [OpPause sample_owner (id_of 1)]
    [OpResume sample_owner (id_of 1) (Some 9%Z)] sample_owner (id_of 1)
    (sample_trigger 1 "user-1") (set_enabled_to (sample_trigger 1 "user-1") false)).
  - repeat constructor. intros (t & m & E & _). discriminate E.
  - repeat constructor. intros (t & m & E & _). discriminate E.
  - vm_compute. reflexivity.
  - vm_compute. reflexivity.
  - reflexivity.
  - vm_compute. reflexivity.
  - reflexivity.
Defined.

Lemma one_scheduler_moves_a_tick_witness :
  fst (advance_all sample_triggers (id_of 1) (Some 1000%Z) [Some 2000%Z; Some 2000%Z; None]) =
    [Ok true; Ok false; Ok false].
Proof.
  rewrite (one_scheduler_moves_a_tick sample_triggers (id_of 1) (Some 1000%Z) (Some 2000%Z)).
  - vm_compute. reflexivity.
  - reflexivity.
  - vm_compute. repeat constructor; rewrite list_elem_of_In; simpl; intros Hin; decompose [or] Hin; congruence.
  - discriminate.
Defined.
