(* ===== verification/StoreMessages.v ===== *)
(** * Messages in the in-memory store ([server/store.rs])

    A message is named by the run and the decision that sent it, and an ask is
    answered once.  The iteration order of a [HashMap] is unspecified;
    [map_to_list] stands for it, and no theorem depends on which it is. *)

From S2P Require Import Prelude Protocol MemoryOwner Store.

Record StoredMessage : Type := mkStoredMessage {
  ms_id : MessageId;
  ms_owner : Owner;
  ms_from_run : RunId;
  ms_from_agent : AgentId;
  ms_decision : N;
  ms_to_agent : AgentId;
  ms_body : string;
  ms_expects_reply : bool;
  ms_reply_to : option MessageId;
  ms_task_run : option RunId;
  ms_deadline : option Timestamp;
  ms_timeout_secs : option N;
  ms_hop : N;
}.

Inductive PutMessage := MessageStored | MessageExisted (m : StoredMessage).

(** Each message, and whether it (an ask) is answered. *)
Definition Messages := Lock (gmap MessageId (StoredMessage * bool)).

Definition messages_default : Messages := mkLock ∅ false.

(** [values()]. *)
Definition message_values (ms : gmap MessageId (StoredMessage * bool))
    : list (StoredMessage * bool) := (map_to_list ms).*2.

Definition sent_by (run : RunId) (decision : N) (m : StoredMessage) : bool :=
  bool_decide (ms_from_run m = run) && (ms_decision m =? decision)%N.

Definition put_message (l : Messages) (m : StoredMessage)
    : result PutMessage StoreError * Messages :=
  match lock_write l "message" with
  | Err e => (Err e, l)
  | Ok ms =>
      match List.find (fun s => sent_by (ms_from_run m) (ms_decision m) s.1) (message_values ms) with
      | Some (existing, _) => (Ok (MessageExisted existing), l)
      | None => (Ok MessageStored, lock_set l (<[ms_id m := (m, false)]> ms))
      end
  end.

Definition message (l : Messages) (id : MessageId) : option StoredMessage :=
  fst <$> lock_read l !! id.

Definition open_ask (s : StoredMessage * bool) : bool := negb s.2 && ms_expects_reply s.1.

Definition ask_of_task (l : Messages) (task : RunId) : option StoredMessage :=
  fst <$> List.find (fun s => open_ask s && bool_decide (ms_task_run s.1 = Some task))
            (message_values (lock_read l)).

Definition answer (l : Messages) (ask : MessageId) : result bool StoreError * Messages :=
  match lock_write l "message" with
  | Err e => (Err e, l)
  | Ok ms =>
      match ms !! ask with
      | Some (m, false) => (Ok true, lock_set l (<[ask := (m, true)]> ms))
      | _ => (Ok false, l)
      end
  end.

Definition ask_due (now : Timestamp) (s : StoredMessage * bool) : bool :=
  open_ask s && match ms_deadline s.1 with Some d => (d <=? now)%Z | None => false end.

Definition message_leb (a b : StoredMessage) : bool :=
  (uuid_N (as_uuid (ms_id a)) <=? uuid_N (as_uuid (ms_id b)))%N.

Definition open_asks_due (l : Messages) (now : Timestamp) : list StoredMessage :=
  sort_by message_leb (fst <$> List.filter (ask_due now) (message_values (lock_read l))).

(** ** Sequences of operations *)

Inductive MessageOp := OpPutMessage (m : StoredMessage) | OpAnswer (ask : MessageId).

(** What the operations answered, oldest first, and the messages after them. *)
Inductive MessageReply := RPut (r : result PutMessage StoreError) | RAnswer (r : result bool StoreError).

Fixpoint apply_message_ops (l : Messages) (ops : list MessageOp)
    : list MessageReply * Messages :=
  match ops with
  | [] => ([], l)
  | OpPutMessage m :: ops =>
      let '(r, l) := put_message l m in
      let '(rs, l) := apply_message_ops l ops in (RPut r :: rs, l)
  | OpAnswer ask :: ops =>
      let '(r, l) := answer l ask in
      let '(rs, l) := apply_message_ops l ops in (RAnswer r :: rs, l)
  end.

(** A message of that run's decision was stored; that ask was answered. *)
Definition stores (run : RunId) (decision : N) (x : MessageOp * MessageReply) : bool :=
  match x with
  | (OpPutMessage m, RPut (Ok MessageStored)) => sent_by run decision m
  | _ => false
  end.

Definition answers_it (id : MessageId) (x : MessageOp * MessageReply) : bool :=
  match x with (OpAnswer ask, RAnswer (Ok true)) => bool_decide (ask = id) | _ => false end.

Definition times (p : MessageOp * MessageReply -> bool) (l : Messages) (ops : list MessageOp)
    : nat :=
  length (List.filter p (zip ops (fst (apply_message_ops l ops)))).

Lemma message_values_elem ms s :
  s ∈ message_values ms <-> exists id, ms !! id = Some s.
Proof.
  unfold message_values. rewrite list_elem_of_fmap. split.
  - intros ([id s'] & -> & Hs%elem_of_map_to_list). by exists id.
  - intros (id & Hid). exists (id, s). split; [done|]. by apply elem_of_map_to_list.
Qed.

Lemma find_None_elem {A} (p : A -> bool) l x : List.find p l = None -> x ∈ l -> p x = false.
Proof. intros Hf Hx. eapply List.find_none; [done|]. by apply list_elem_of_In. Qed.

Lemma find_Some_elem {A} (p : A -> bool) l x : List.find p l = Some x -> x ∈ l /\ p x = true.
Proof. intros Hf. apply List.find_some in Hf. by rewrite list_elem_of_In. Qed.

(** Message ids are random, so each put brings an id that is not in use. *)
Definition put_ids (ops : list MessageOp) : list MessageId :=
  omap (fun op => match op with OpPutMessage m => Some (ms_id m) | OpAnswer _ => None end) ops.

Definition fresh_ids (l : Messages) (ops : list MessageOp) : Prop :=
  NoDup (put_ids ops) /\ forall id, id ∈ put_ids ops -> lock_read l !! id = None.

(** A message of that run's decision is stored. *)
Definition sent (l : Messages) (run : RunId) (decision : N) : Prop :=
  exists id s, lock_read l !! id = Some s /\ sent_by run decision s.1 = true.

Lemma put_message_cases l m r l' :
  put_message l m = (r, l') ->
  (r <> Ok MessageStored /\ l' = l) \/
  (r = Ok MessageStored /\ ~ sent l (ms_from_run m) (ms_decision m) /\
   l' = lock_set l (<[ms_id m := (m, false)]> (lock_read l))).
Proof.
  unfold put_message, lock_write. destruct (poisoned l); [intros [= <- <-]; by left|].
  change (guarded l) with (lock_read l). destruct (List.find _ _) as [[kept b]|] eqn:E.
  - intros [= <- <-]. by left.
  - intros [= <- <-]. right. split_and!; [done| |done]. intros (id & s & Hs & Hsent).
    apply (find_None_elem _ _ s) in E; [congruence|]. apply message_values_elem. eauto.
Qed.

Lemma answer_cases l ask r l' :
  answer l ask = (r, l') ->
  (r <> Ok true /\ l' = l) \/
  exists m, r = Ok true /\ lock_read l !! ask = Some (m, false) /\
    l' = lock_set l (<[ask := (m, true)]> (lock_read l)).
Proof.
  unfold answer, lock_write. destruct (poisoned l); [intros [= <- <-]; by left|].
  change (guarded l) with (lock_read l).
  destruct (lock_read l !! ask) as [[m []]|] eqn:E; intros [= <- <-]; [by left| |by left].
  right. by exists m.
Qed.

Lemma fresh_after_put l m ops r l' :
  fresh_ids l (OpPutMessage m :: ops) -> put_message l m = (r, l') -> fresh_ids l' ops.
Proof.
  intros [Hnd Hf] E. unfold put_ids in *. simpl in *. apply NoDup_cons in Hnd as [Hm Hnd].
  split; [done|]. intros id Hid.
  apply put_message_cases in E as [[_ ->]|(_ & _ & ->)]; [apply Hf; set_solver|]. simpl.
  rewrite lookup_insert_ne; [apply Hf; set_solver|]. intros <-. done.
Qed.

Lemma fresh_after_answer l ask ops r l' :
  fresh_ids l (OpAnswer ask :: ops) -> answer l ask = (r, l') -> fresh_ids l' ops.
Proof.
  intros [Hnd Hf] E. unfold put_ids in *. simpl in *. split; [done|]. intros id Hid.
  specialize (Hf id Hid).
  apply answer_cases in E as [[_ ->]|(m & _ & Hm & ->)]; [done|]. simpl.
  rewrite lookup_insert_ne; [done|]. intros <-. congruence.
Qed.

(** Once sent, a message stays sent: fresh ids overwrite nothing. *)
Lemma sent_after_put l m run decision r l' :
  lock_read l !! ms_id m = None -> put_message l m = (r, l') ->
  sent l' run decision <->
  sent l run decision \/ (r = Ok MessageStored /\ sent_by run decision m = true).
Proof.
  intros Hn E. apply put_message_cases in E as [[Hr ->]|(-> & _ & ->)]; [naive_solver|].
  unfold sent. simpl. split.
  - intros (id & s & Hs & Hsent). destruct (decide (ms_id m = id)) as [<-|Hne].
    + rewrite lookup_insert_eq in Hs. injection Hs as <-. by right.
    + rewrite lookup_insert_ne in Hs by done. left. eauto.
  - intros [(id & s & Hs & Hsent)|[_ Hsent]].
    + exists id, s. rewrite lookup_insert_ne; [done|]. intros <-. congruence.
    + exists (ms_id m), (m, false). by rewrite lookup_insert_eq.
Qed.

Lemma sent_after_answer l ask run decision r l' :
  answer l ask = (r, l') -> sent l' run decision <-> sent l run decision.
Proof.
  intros [[_ ->]|(m & _ & Hm & ->)]%answer_cases; [done|]. unfold sent. simpl. split.
  - intros (id & s & Hs & Hsent). destruct (decide (ask = id)) as [<-|Hne].
    + rewrite lookup_insert_eq in Hs. injection Hs as <-. by exists ask, (m, false).
    + rewrite lookup_insert_ne in Hs by done. eauto.
  - intros (id & s & Hs & Hsent). destruct (decide (ask = id)) as [<-|Hne].
    + exists ask, (m, true). rewrite lookup_insert_eq. split; [done|].
      rewrite Hm in Hs. by injection Hs as <-.
    + exists id, s. by rewrite lookup_insert_ne.
Qed.

Lemma times_stores l ops run decision :
  fresh_ids l ops ->
  (sent l run decision -> times (stores run decision) l ops = 0) /\
  (times (stores run decision) l ops <= 1)%nat.
Proof.
  unfold times. revert l; induction ops as [|op ops IH]; intros l Hf; [by split; [|apply Nat.le_0_l]|].
  destruct op as [m|ask]; simpl.
  - assert (lock_read l !! ms_id m = None) as Hn.
    { apply Hf. unfold put_ids. simpl. set_solver. }
    destruct (put_message l m) as [r l'] eqn:E. simpl.
    pose proof (sent_after_put _ _ run decision _ _ Hn E) as Hs.
    destruct (IH l' (fresh_after_put _ _ _ _ _ Hf E)) as [IH0 IH1].
    apply put_message_cases in E.
    destruct (apply_message_ops l' ops) as [rs l'']. simpl in *.
    assert (stores run decision (OpPutMessage m, RPut r) = false \/
      r = Ok MessageStored /\ sent_by run decision m = true) as [Hst|[-> Hst]].
    { destruct r as [[]|]; simpl; auto. destruct (sent_by run decision m); auto. }
    + unfold stores in Hst. rewrite Hst. split; [|done]. intros Hl. apply IH0, Hs. by left.
    + rewrite Hst. simpl. rewrite IH0 by (apply Hs; by right). split; [|lia]. intros Hl.
      destruct E as [[[] _]|(_ & Hns & _)]; [done|]. exfalso. apply Hns.
      unfold sent_by in Hst. by bool_to_prop; subst.
  - destruct (answer l ask) as [r l'] eqn:E. simpl.
    pose proof (sent_after_answer _ _ run decision _ _ E) as Hs.
    destruct (IH l' (fresh_after_answer _ _ _ _ _ Hf E)) as [IH0 IH1].
    destruct (apply_message_ops l' ops) as [rs l'']. simpl in *. split; [|done].
    intros Hl. by apply IH0, Hs.
Qed.

Definition answered (l : Messages) (id : MessageId) : Prop :=
  exists m, lock_read l !! id = Some (m, true).

Lemma times_answers l ops id :
  fresh_ids l ops ->
  (answered l id -> times (answers_it id) l ops = 0) /\
  (times (answers_it id) l ops <= 1)%nat.
Proof.
  unfold times. revert l; induction ops as [|op ops IH]; intros l Hf; [by split; [|apply Nat.le_0_l]|].
  destruct op as [m|ask]; simpl.
  - assert (lock_read l !! ms_id m = None) as Hn.
    { apply Hf. unfold put_ids. simpl. set_solver. }
    destruct (put_message l m) as [r l'] eqn:E. simpl.
    destruct (IH l' (fresh_after_put _ _ _ _ _ Hf E)) as [IH0 IH1].
    destruct (apply_message_ops l' ops) as [rs l'']. simpl in *. split; [|done].
    intros [m' Hm']. apply IH0. exists m'.
    apply put_message_cases in E as [[_ ->]|(_ & _ & ->)]; [done|]. simpl.
    rewrite lookup_insert_ne; [done|]. intros <-. congruence.
  - destruct (answer l ask) as [r l'] eqn:E. simpl.
    destruct (IH l' (fresh_after_answer _ _ _ _ _ Hf E)) as [IH0 IH1].
    destruct (apply_message_ops l' ops) as [rs l'']. simpl in *.
    apply answer_cases in E as [[Hr ->]|(m & -> & Hm & ->)].
    + by destruct r as [[]|].
    + case_bool_decide as Hid; simpl.
      * subst ask. rewrite IH0 by (exists m; simpl; by rewrite lookup_insert_eq).
        split; [|lia]. intros [m' Hm']. congruence.
      * split; [|done]. intros [m' Hm']. apply IH0. exists m'. simpl.
        by rewrite lookup_insert_ne.
Qed.

(** A message is stored once and an ask is answered once: over any sequence
    of puts (each with an id of its own) and answers, a run's decision stores
    at most one message, however often it is redelivered, and of all the
    attempts to answer an ask (its reply, its timeout, the end of its task) at
    most one is told it did. *)
Theorem messages_once ops run decision id :
  NoDup (put_ids ops) ->
  (times (stores run decision) messages_default ops <= 1)%nat /\
  (times (answers_it id) messages_default ops <= 1)%nat.
Proof.
  intros Hnd. assert (fresh_ids messages_default ops) as Hf by done.
  split; [by apply times_stores|by apply times_answers].
Qed.

(** ** Concrete messages *)

Definition sample_message (decision : N) (id : MessageId) : StoredMessage :=
  mkStoredMessage id (mkOwner "https://issuer.test" "user-1" "tenant-1") (id_of 1) (id_of 2)
    decision (id_of 3) "hi" true None None None None 0.

(** A decision sent twice and answered twice: stored once, answered once. *)
Definition sample_message_ops : list MessageOp :=
  [OpPutMessage (sample_message 1 (id_of 10)); OpPutMessage (sample_message 1 (id_of 11));
   OpAnswer (id_of 10); OpAnswer (id_of 10)].

Example sample_message_counts :
  times (stores (id_of 1) 1) messages_default sample_message_ops = 1 /\
  times (answers_it (id_of 10)) messages_default sample_message_ops = 1.
Proof. vm_compute. done. Qed.

Lemma messages_once_witness :
  (times (stores (id_of 1) 1) messages_default sample_message_ops <= 1)%nat /\
  (times (answers_it (id_of 10)) messages_default sample_message_ops <= 1)%nat.
Proof.
  apply messages_once. vm_compute. repeat constructor; rewrite list_elem_of_In; simpl;
    intros Hin; decompose [or] Hin; congruence.
Defined.
