(* ===== verification/StoreStops.v ===== *)
(** * Stops in the in-memory store ([server/store.rs])

    A stop covers the runs its scope names that existed when it was made, and
    every run under them.  [stopped] walks up a run's lineage; the walk is a
    [Fixpoint] with fuel, and the depth of the run's delegation is enough,
    since a run is one hop below its parent. *)

From S2P Require Import Prelude Protocol Uuids MemoryOwner Reduce DriverTurns Store StoreProofs.

Inductive StopScope :=
| StopRun (run : RunId)
| StopThread (thread : string)
| StopOwner.

#[export] Instance StopScope_eq_dec : EqDecision StopScope.
Proof. solve_decision. Defined.

(** [StopScope::kind_and_key]. *)
Definition kind_and_key `{UuidCrate} (s : StopScope) : string * string :=
  match s with
  | StopRun run => ("run", id_display run)
  | StopThread thread => ("thread", thread)
  | StopOwner => ("owner", "")
  end.

Definition thread_of (spec : RunSpec) : option string :=
  session ← metadata spec !! SESSION_ID;
  if bool_decide (session = "") then None else Some session.

(** [created_ms]: a run's first event's time. *)
Definition created_ms (run : StoredRun) : Z :=
  match head (sr_events run) with Some e => at_ (envelope e) | None => 0%Z end.

Definition stop_names (scope : StopScope) (stop : N) (run : StoredRun) (number : N) : bool :=
  match scope with
  | StopRun id => bool_decide (id = run_id (sr_spec run))
  | StopThread thread =>
      (number <? stop)%N && bool_decide (thread_of (sr_spec run) = Some thread)
  | StopOwner => (number <? stop)%N
  end.

Definition StopEntry := (Principal * StopScope * N)%type.

Definition Stops := Lock (list StopEntry).

(** The stops and the rest of the store, whose order both writes take a number
    from. *)
Record StopsStore : Type := mkStopsStore { ss_store : RunsStore; ss_stops : Stops }.

Definition put_stop (s : StopsStore) (o : Owner) (scope : StopScope)
    : result unit StoreError * StopsStore :=
  match lock_write (ss_stops s) "stop" with
  | Err e => (Err e, s)
  | Ok stops =>
      let key := principal o in
      let kept :=
        List.filter
          (fun e => negb (bool_decide (e.1.1 = key) && bool_decide (e.1.2 = scope))) stops in
      let n := (order (ss_store s) + 1)%N in
      (Ok tt, mkStopsStore (set_order (ss_store s) n)
                (lock_set (ss_stops s) (kept ++ [(key, scope, n)])))
  end.

Definition number_of (s : RunsStore) (id : RunId) : N :=
  default 0%N (lock_read (stored s) !! id).

(** Whether a stop by its principal names [member] itself. *)
Definition stop_here (s : StopsStore) (id : RunId) (member : StoredRun) : bool :=
  let key := principal (owner (sr_spec member)) in
  existsb (fun e => bool_decide (e.1.1 = key) &&
                    stop_names e.1.2 e.2 member (number_of (ss_store s) id))
    (lock_read (ss_stops s)).

(** [stopped]'s walk: the run, then each run above it.  [None]: the fuel ran
    out. *)
Fixpoint stopped_walk (fuel : nat) (s : StopsStore) (next : option RunId) : option bool :=
  match fuel with
  | O => None
  | S fuel =>
      match next with
      | None => Some false
      | Some id =>
          match lock_read (runs (ss_store s)) !! id with
          | None => Some false
          | Some member =>
              if stop_here s id member then Some true
              else stopped_walk fuel s (parent (lineage (sr_spec member)))
          end
      end
  end.

Definition stopped (fuel : nat) (s : StopsStore) (run : RunId) : option bool :=
  stopped_walk fuel s (Some run).

(** [open_runs_under]'s walk: whether [next] is [under] or a run below it. *)
Fixpoint within_walk (fuel : nat) (rs : gmap RunId StoredRun) (next : option RunId)
    (under : RunId) : option bool :=
  match fuel with
  | O => None
  | S fuel =>
      match next with
      | None => Some false
      | Some current =>
          if bool_decide (current = under) then Some true
          else within_walk fuel rs (run ← rs !! current; parent (lineage (sr_spec run))) under
      end
  end.

Definition open_under (fuel : nat) (rs : gmap RunId StoredRun) (o : Owner) (scope : StopScope)
    (run : StoredRun) : bool :=
  owner_is (owner (sr_spec run)) o && negb (has_terminal (sr_events run)) &&
  match scope with
  | StopRun under =>
      default false (within_walk fuel rs (Some (run_id (sr_spec run))) under)
  | StopThread thread => bool_decide (thread_of (sr_spec run) = Some thread)
  | StopOwner => true
  end.

(** [values()] of the runs, in the map's order. *)
Definition open_runs_under (fuel : nat) (s : StopsStore) (o : Owner) (scope : StopScope)
    : list StoredRun :=
  let rs := lock_read (runs (ss_store s)) in
  List.filter (open_under fuel rs o scope) (map_to_list rs).*2.

(** ** What a stop covers *)

(** The run is named by a stop of its principal, or the run above it is
    covered. *)
Inductive covered (s : StopsStore) : RunId -> Prop :=
| covered_here id run :
    get_run (ss_store s) id = Some run -> stop_here s id run = true -> covered s id
| covered_above id run p :
    get_run (ss_store s) id = Some run -> parent (lineage (sr_spec run)) = Some p ->
    covered s p -> covered s id.

(** A stored run is at least one hop below its stored parent
    ([RunSpecBuilder::child_of]). *)
Definition lineage_ok (s : RunsStore) : Prop :=
  forall id run p above, get_run s id = Some run -> parent (lineage (sr_spec run)) = Some p ->
    get_run s p = Some above -> (hop (lineage (sr_spec above)) < hop (lineage (sr_spec run)))%N.

(** The fuel the walk from [id] needs: one turn for each hop of the run, one
    for itself and one past its root. *)
Definition walk_fuel (s : RunsStore) (id : RunId) : nat :=
  match get_run s id with Some run => N.to_nat (hop (lineage (sr_spec run))) + 2 | None => 1 end.

Lemma stopped_walk_correct s fuel id :
  lineage_ok (ss_store s) -> (walk_fuel (ss_store s) id <= fuel)%nat ->
  exists b, stopped_walk fuel s (Some id) = Some b /\ (b = true <-> covered s id).
Proof.
  intros Hok. revert id; induction fuel as [|fuel IH]; intros id Hf.
  { unfold walk_fuel in Hf. destruct (get_run _ _); lia. }
  simpl. change (lock_read (runs (ss_store s)) !! id) with (get_run (ss_store s) id).
  unfold walk_fuel in Hf. destruct (get_run (ss_store s) id) as [run|] eqn:Hr.
  2: { exists false. split; [done|]. split; [done|].
       intros Hc. inversion Hc as [? ? Hg|? ? ? Hg]; congruence. }
  destruct (stop_here s id run) eqn:Hh.
  { exists true. split; [done|]. split; [|done]. intros _. by eapply covered_here. }
  destruct (parent (lineage (sr_spec run))) as [p|] eqn:Hp.
  2: { destruct fuel; [lia|]. exists false. split; [done|]. split; [done|].
       intros Hc. inversion Hc as [? ? Hg ?|? ? ? Hg Hp']; rewrite Hr in Hg;
         injection Hg as <-; congruence. }
  destruct (IH p) as (b & Hb & Hc).
  { unfold walk_fuel. destruct (get_run (ss_store s) p) as [above|] eqn:Ha; [|lia].
    specialize (Hok _ _ _ _ Hr Hp Ha). lia. }
  exists b. split; [done|]. rewrite Hc. split; [by eapply covered_above|].
  intros Hcov. inversion Hcov as [? ? Hg Hs|? ? p' Hg Hp']; rewrite Hr in Hg;
    injection Hg as <-; congruence || (rewrite Hp in Hp'; by injection Hp' as <-).
Qed.

(** A run, or a run below it. *)
Inductive below (s : RunsStore) (under : RunId) : RunId -> Prop :=
| below_self : below s under under
| below_child id run p :
    get_run s id = Some run -> parent (lineage (sr_spec run)) = Some p -> below s under p ->
    below s under id.

(** The fuel [open_runs_under]'s walk needs: it also takes a turn for a parent
    that is not stored. *)
Definition within_fuel (s : RunsStore) (id : RunId) : nat :=
  match get_run s id with Some run => N.to_nat (hop (lineage (sr_spec run))) + 3 | None => 2 end.

Lemma within_walk_correct s fuel id under :
  lineage_ok s -> (within_fuel s id <= fuel)%nat ->
  exists b, within_walk fuel (lock_read (runs s)) (Some id) under = Some b /\
    (b = true <-> below s under id).
Proof.
  intros Hok. revert id; induction fuel as [|fuel IH]; intros id Hf.
  { unfold within_fuel in Hf. destruct (get_run _ _); lia. }
  simpl. change (lock_read (runs s) !! id) with (get_run s id).
  case_bool_decide as Hid; [subst; exists true; split; [done|split; [constructor|done]]|].
  unfold within_fuel in Hf.
  assert (forall b, (parent (lineage (sr_spec b)) = None \/ get_run s id = None) ->
    get_run s id = Some b \/ get_run s id = None -> ~ below s under id) as Hnot.
  { intros b Hb Hg Hbelow. inversion Hbelow as [|? run' p' Hg' Hp']; [done|].
    destruct Hb, Hg; congruence. }
  destruct (get_run s id) as [run|] eqn:Hr; simpl.
  - destruct (parent (lineage (sr_spec run))) as [p|] eqn:Hp.
    + destruct (IH p) as (b & Hb & Hc).
      { unfold within_fuel. destruct (get_run s p) as [above|] eqn:Ha; [|lia].
        specialize (Hok _ _ _ _ Hr Hp Ha). lia. }
      exists b. split; [done|]. rewrite Hc. split; [by eapply below_child|].
      intros Hbelow. inversion Hbelow as [|? ? p' Hg Hp']; [done|].
      rewrite Hr in Hg. injection Hg as <-. rewrite Hp in Hp'. by injection Hp' as <-.
    + destruct fuel; [lia|]. exists false. split; [done|]. split; [done|].
      intros Hbelow. destruct (Hnot run); auto.
  - destruct fuel as [|fuel]; [lia|]. exists false. split; [done|]. split; [done|].
    intros Hbelow. inversion Hbelow; [done|congruence].
Qed.

(** Fuel for the walk from any run. *)
Definition under_fuel (s : RunsStore) : nat :=
  foldr (fun run fuel => Nat.max (N.to_nat (hop (lineage (sr_spec run))) + 3) fuel) 2
    (map_to_list (lock_read (runs s))).*2.

Lemma under_fuel_enough s id : (within_fuel s id <= under_fuel s)%nat.
Proof.
  unfold under_fuel, within_fuel. destruct (get_run s id) as [run|] eqn:Hr.
  - assert (run ∈ (map_to_list (lock_read (runs s))).*2) as Hin.
    { apply list_elem_of_fmap. exists (id, run). split; [done|]. by apply elem_of_map_to_list. }
    clear Hr. induction Hin as [|? ? ? _ IH]; simpl; lia.
  - induction (_.*2) as [|? ? IH]; simpl; lia.
Qed.

(** [open_runs_under] is exact: the open runs of that principal in the scope,
    which for a run is it and every run below it. *)
Lemma open_runs_under_iff s o scope run :
  store_wf (ss_store s) -> lineage_ok (ss_store s) ->
  run ∈ open_runs_under (under_fuel (ss_store s)) s o scope <->
  get_run (ss_store s) (run_id (sr_spec run)) = Some run /\ owner_is (owner (sr_spec run)) o = true /\
  has_terminal (sr_events run) = false /\
  match scope with
  | StopRun under => below (ss_store s) under (run_id (sr_spec run))
  | StopThread thread => thread_of (sr_spec run) = Some thread
  | StopOwner => True
  end.
Proof.
  intros Hwf Hok. unfold open_runs_under, open_under.
  rewrite list_elem_of_In, List.filter_In, <-list_elem_of_In, !andb_true_iff, negb_true_iff.
  assert (run ∈ (map_to_list (lock_read (runs (ss_store s)))).*2 <->
    get_run (ss_store s) (run_id (sr_spec run)) = Some run) as ->.
  { rewrite list_elem_of_fmap. split.
    - intros ([id run'] & -> & Hin%elem_of_map_to_list). simpl.
      by rewrite (proj1 (sw_runs _ Hwf id run' Hin)).
    - intros Hr. exists (run_id (sr_spec run), run). split; [done|]. by apply elem_of_map_to_list. }
  destruct scope as [under|thread|].
  - destruct (within_walk_correct (ss_store s) _ (run_id (sr_spec run)) under Hok
      (under_fuel_enough _ _)) as (b & -> & <-). simpl. naive_solver.
  - rewrite bool_decide_eq_true. naive_solver.
  - naive_solver.
Qed.

(** [stopped] is exact and returns: on a store whose runs lie below their
    parents, the walk ends within the run's hops plus two turns, and answers
    true exactly when a stop of its own principal names the run or a run above
    it. *)
Theorem stopped_iff_covered s run fuel :
  lineage_ok (ss_store s) -> (walk_fuel (ss_store s) run <= fuel)%nat ->
  exists b, stopped fuel s run = Some b /\ (b = true <-> covered s run).
Proof. apply stopped_walk_correct. Qed.

(** ** Before and after a stop *)

(** The numbers of the store's order are handed out in turn. *)
Definition numbers_ok (s : StopsStore) : Prop :=
  (forall id, (number_of (ss_store s) id <= order (ss_store s))%N) /\
  (forall e, e ∈ lock_read (ss_stops s) -> (e.2 <= order (ss_store s))%N).

Lemma put_stop_entries s o scope s' e :
  put_stop s o scope = (Ok tt, s') ->
  e ∈ lock_read (ss_stops s') <->
  (e = (principal o, scope, order (ss_store s) + 1)%N \/
   e ∈ lock_read (ss_stops s) /\ e.1 <> (principal o, scope)).
Proof.
  unfold put_stop, lock_write. destruct (poisoned (ss_stops s)); [done|]. intros [= <-]. simpl.
  unfold lock_read. rewrite elem_of_app, list_elem_of_singleton, list_elem_of_In, List.filter_In.
  rewrite <-list_elem_of_In, negb_true_iff, andb_false_iff, !bool_decide_eq_false.
  destruct e as [[k sc] n]. simpl. destruct (decide (k = principal o)), (decide (sc = scope));
    naive_solver.
Qed.

(** The runs a scope names, when it is stopped. *)
Definition in_scope (o : Owner) (scope : StopScope) (id : RunId) (run : StoredRun) : Prop :=
  principal (owner (sr_spec run)) = principal o /\
  match scope with
  | StopRun r => r = run_id (sr_spec run)
  | StopThread thread => thread_of (sr_spec run) = Some thread
  | StopOwner => True
  end.

Lemma put_stop_frame s o scope s' id :
  put_stop s o scope = (Ok tt, s') ->
  get_run (ss_store s') id = get_run (ss_store s) id /\
  number_of (ss_store s') id = number_of (ss_store s) id.
Proof.
  unfold put_stop, lock_write. destruct (poisoned (ss_stops s)); [done|]. by intros [= <-].
Qed.

Lemma covered_mono s s' id :
  (forall id run, get_run (ss_store s) id = Some run -> get_run (ss_store s') id = Some run) ->
  (forall id run, get_run (ss_store s) id = Some run ->
     stop_here s id run = true -> stop_here s' id run = true) ->
  covered s id -> covered s' id.
Proof. intros Hg Hs. induction 1; [eapply covered_here|eapply covered_above]; eauto. Qed.

Lemma stop_here_spec s id run :
  stop_here s id run = true <->
  exists e, e ∈ lock_read (ss_stops s) /\ e.1.1 = principal (owner (sr_spec run)) /\
    stop_names e.1.2 e.2 run (number_of (ss_store s) id) = true.
Proof.
  unfold stop_here. rewrite existsb_exists. split.
  - intros (e & He%list_elem_of_In & Hn). bool_to_prop. by exists e.
  - intros (e & He%list_elem_of_In & Hk & Hn). exists e. by rewrite Hk, bool_decide_true, Hn.
Qed.

Lemma stop_names_mono scope n n' run k :
  (n <= n')%N -> stop_names scope n run k = true -> stop_names scope n' run k = true.
Proof.
  intros Hn. destruct scope; simpl; [done|..]; rewrite ?andb_true_iff, ?N.ltb_lt.
  - intros [? ?]. split; [lia|done].
  - lia.
Qed.

(** A stop covers what existed, and what is under it: right after a stop,
    every stored run of that principal in its scope is covered, with every run
    below it, and everything covered before still is (a stop of the same scope
    replaces the earlier one and loses nothing); while a run that is numbered
    after every stop, is not itself named by one, and has no covered run above
    it is not covered. *)
Theorem stop_covers_what_existed s o scope s' :
  numbers_ok s -> put_stop s o scope = (Ok tt, s') ->
  (forall id run, get_run (ss_store s) id = Some run -> in_scope o scope id run ->
     covered s' id) /\
  (forall id, covered s id -> covered s' id) /\
  (forall id run, get_run (ss_store s') id = Some run ->
     (forall e, e ∈ lock_read (ss_stops s') ->
        (e.2 <= number_of (ss_store s') id)%N /\ e.1.2 <> StopRun (run_id (sr_spec run))) ->
     (forall p, parent (lineage (sr_spec run)) = Some p -> ~ covered s' p) ->
     ~ covered s' id).
Proof.
  intros [Hnum Hstops] Hput.
  pose proof (fun id => put_stop_frame s o scope s' id Hput) as Hframe.
  pose proof (fun e => put_stop_entries s o scope s' e Hput) as Hent. split_and!.
  - intros id run Hr [Hp Hsc]. destruct (Hframe id) as [Hg Hn].
    apply (covered_here s' id run); [congruence|]. apply stop_here_spec.
    exists (principal o, scope, order (ss_store s) + 1)%N. split_and!; [apply Hent; by left|done|].
    rewrite Hn. specialize (Hnum id). destruct scope; simpl.
    + by apply bool_decide_eq_true.
    + rewrite andb_true_iff, N.ltb_lt, bool_decide_eq_true. split; [lia|done].
    + apply N.ltb_lt. lia.
  - intros id. apply covered_mono; clear id.
    + intros id run Hr. destruct (Hframe id) as [Hg _]. congruence.
    + intros id run Hr (e & He & Hk & Hn)%stop_here_spec. apply stop_here_spec.
      destruct (Hframe id) as [_ ->].
      destruct (decide (e.1 = (principal o, scope))) as [Heq|Hne].
      * exists (principal o, scope, order (ss_store s) + 1)%N.
        rewrite Heq in Hk, Hn. simpl in *. split_and!; [apply Hent; by left|done|].
        eapply stop_names_mono; [|done]. specialize (Hstops e He). lia.
      * exists e. split_and!; [apply Hent; by right|done|done].
  - intros id run Hr Hlate Habove Hcov.
    inversion Hcov as [? run' Hg Hs|? run' p Hg Hp Hc]; subst.
    + rewrite Hr in Hg. injection Hg as <-. apply stop_here_spec in Hs as (e & He & _ & Hn).
      destruct (Hlate e He) as [Hle Hnr]. destruct e as [[k sc] n]. simpl in *.
      destruct sc; simpl in Hn; bool_to_prop; [congruence|lia|lia].
    + rewrite Hr in Hg. injection Hg as <-. by apply (Habove p).
Qed.

(** ** Concrete stops *)

Definition child_spec : RunSpec :=
  mkRunSpec (id_of 5) (owner sample_spec) (agent_id sample_spec) "1" "task" Local
    (work_model sample_spec) [] (limits sample_spec) ∅
    (mkLineage (Some (id_of 1)) (Some (id_of 1)) 1).

(** A run and, below it, a child, with no stop yet. *)
Definition stops_before : StopsStore :=
  mkStopsStore
    (apply_ops store_default
       [OpPutRun sample_run 5%Z; OpPutRun (mkStoredRun child_spec [sample_event RunCreated]) 6%Z])
    (mkLock [] false).

Definition stops_after : StopsStore :=
  snd (put_stop stops_before (owner sample_spec) (StopRun (id_of 1))).

Lemma stops_runs id run :
  get_run (ss_store stops_before) id = Some run ->
  (id = id_of 1 /\ run = sample_run) \/
  (id = id_of 5 /\ run = mkStoredRun child_spec [sample_event RunCreated]).
Proof.
  assert (lock_read (runs (ss_store stops_before)) =
    <[id_of 5 := mkStoredRun child_spec [sample_event RunCreated]]> (<[id_of 1 := sample_run]> ∅))
    as E by (vm_compute; reflexivity).
  unfold get_run. rewrite E. intros [[<- <-]|[_ [[<- <-]|[_ H]]%lookup_insert_Some]]%lookup_insert_Some;
    [by right|by left|by rewrite lookup_empty in H].
Qed.

Lemma stops_lineage : lineage_ok (ss_store stops_after).
Proof.
  intros id run p above. change (get_run (ss_store stops_after)) with
    (get_run (ss_store stops_before)).
  intros [[-> ->]|[-> ->]]%stops_runs Hp [[-> ->]|[-> ->]]%stops_runs; try discriminate Hp.
  vm_compute. reflexivity.
Qed.

Lemma stopped_iff_covered_witness :
  exists b, stopped 3 stops_after (id_of 5) = Some b /\ (b = true <-> covered stops_after (id_of 5)).
Proof.
  apply (stopped_iff_covered stops_after (id_of 5) 3 stops_lineage).
  vm_compute. reflexivity.
Defined.

Lemma stops_numbers : numbers_ok stops_before.
Proof.
  split; [|intros e He; inversion He]. intros id. unfold number_of.
  assert (lock_read (stored (ss_store stops_before)) =
    <[id_of 5 := 2%N]> (<[id_of 1 := 1%N]> ∅)) as E by (vm_compute; reflexivity).
  rewrite E. change (order (ss_store stops_before)) with 2%N.
  destruct (decide (id_of 5 = id)) as [<-|H5]; [rewrite lookup_insert_eq; simpl; lia|].
  rewrite lookup_insert_ne by done.
  destruct (decide (id_of 1 = id)) as [<-|H1]; [rewrite lookup_insert_eq; simpl; lia|].
  rewrite lookup_insert_ne by done. rewrite lookup_empty. simpl. lia.
Qed.

Lemma stop_covers_what_existed_witness : covered stops_after (id_of 1).
Proof.
  refine (proj1 (stop_covers_what_existed stops_before (owner sample_spec) (StopRun (id_of 1))
    stops_after stops_numbers _) (id_of 1) sample_run _ _).
  - vm_compute. reflexivity.
  - vm_compute. reflexivity.
  - split; reflexivity.
Defined.
