(* ===== verification/StoreThreads.v ===== *)
(** * Threads and agents listed by the in-memory store ([server/store.rs])

    [threads_of], [runs_of_thread] and [thread_root] read the same runs in
    three ways; [threads_consistent] says that they agree.  A [HashMap]'s
    [values()] are the values of the map in some order: the theorem does not
    depend on it, since runs have ids of their own. *)

From S2P Require Import Prelude Protocol Reduce DriverTurns Store StoreProofs StoreStops.

(** [values()]. *)
Definition map_values {K A} `{Countable K} (m : gmap K A) : list A := (map_to_list m).*2.

(** ** Agents *)

Definition agent_leb (a b : StoredAgent) : bool :=
  (uuid_N (as_uuid (am_id (sa_manifest a))) <=? uuid_N (as_uuid (am_id (sa_manifest b))))%N.

Definition agents_of (s : RunsStore) (o : Owner) : list StoredAgent :=
  sort_by agent_leb
    (List.filter (fun agent => owner_is (sa_owner agent) o) (map_values (lock_read (agents s)))).

(** ** Threads *)

Record ThreadSummary : Type := mkThreadSummary {
  th_thread_id : string;
  th_agent_id : AgentId;
  th_started_ms : Z;
  th_runs : N;
}.

(** Order by [(created_ms(run), run.spec.run_id.as_uuid())]. *)
Definition run_leb (a b : StoredRun) : bool :=
  (created_ms a <? created_ms b)%Z ||
  ((created_ms a =? created_ms b)%Z &&
   (uuid_N (as_uuid (run_id (sr_spec a))) <=? uuid_N (as_uuid (run_id (sr_spec b))))%N).

Definition is_root (run : StoredRun) : bool :=
  bool_decide (parent (lineage (sr_spec run)) = None).

(** The principal's runs that belong to some thread, oldest first. *)
Definition owned_runs (s : RunsStore) (o : Owner) : list StoredRun :=
  sort_by run_leb
    (List.filter
       (fun run => owner_is (owner (sr_spec run)) o && bool_decide (is_Some (thread_of (sr_spec run))))
       (map_values (lock_read (runs s)))).

(** One turn of [threads_of]'s pass. *)
Definition add_thread (threads : gmap string (ThreadSummary * bool)) (run : StoredRun) :
    gmap string (ThreadSummary * bool) :=
  match thread_of (sr_spec run) with
  | None => threads
  | Some id =>
      let root := is_root run in
      let '(thread, rooted) :=
        default (mkThreadSummary id (agent_id (sr_spec run)) (created_ms run) 0, false)
          (threads !! id) in
      let thread :=
        mkThreadSummary (th_thread_id thread) (th_agent_id thread) (th_started_ms thread)
          (th_runs thread + 1) in
      if root && negb rooted then
        <[id := (mkThreadSummary (th_thread_id thread) (agent_id (sr_spec run)) (created_ms run)
                   (th_runs thread), true)]> threads
      else <[id := (thread, rooted)]> threads
  end.

(** Newest first, then by thread id. *)
Definition thread_leb (a b : ThreadSummary) : bool :=
  (th_started_ms b <? th_started_ms a)%Z ||
  ((th_started_ms a =? th_started_ms b)%Z && String.leb (th_thread_id a) (th_thread_id b)).

Definition thread_list (s : RunsStore) (o : Owner) : list ThreadSummary :=
  sort_by thread_leb ((map_values (fold_left add_thread (owned_runs s o) ∅)).*1).

Definition threads_of (s : RunsStore) (o : Owner) (after limit : nat) : list ThreadSummary :=
  take limit (drop after (thread_list s o)).

(** [min_by_key]: the first of the least. *)
Definition min_by {A} (leb : A -> A -> bool) (l : list A) : option A :=
  match l with
  | [] => None
  | x :: l => Some (fold_left (fun m y => if leb m y then m else y) l x)
  end.

Definition in_thread (o : Owner) (thread : string) (run : StoredRun) : bool :=
  owner_is (owner (sr_spec run)) o && bool_decide (thread_of (sr_spec run) = Some thread).

Definition thread_root (s : RunsStore) (o : Owner) (thread : string) : option RunSpec :=
  sr_spec <$> min_by run_leb
    (List.filter (fun run => in_thread o thread run && is_root run)
       (map_values (lock_read (runs s)))).

(** Order by [(created_ms, stored number, uuid)]; no number is least. *)
Definition stored_leb (numbers : gmap RunId N) (a b : StoredRun) : bool :=
  let na := numbers !! run_id (sr_spec a) in
  let nb := numbers !! run_id (sr_spec b) in
  let lt := match na, nb with
            | None, Some _ => true
            | Some x, Some y => (x <? y)%N
            | _, _ => false
            end in
  (created_ms a <? created_ms b)%Z ||
  ((created_ms a =? created_ms b)%Z &&
   (lt || (bool_decide (na = nb) &&
           (uuid_N (as_uuid (run_id (sr_spec a))) <=? uuid_N (as_uuid (run_id (sr_spec b))))%N))).

Definition runs_of_thread (s : RunsStore) (o : Owner) (thread : string) (limit : nat) :
    list StoredRun :=
  take limit
    (sort_by (stored_leb (lock_read (stored s)))
       (List.filter (in_thread o thread) (map_values (lock_read (runs s))))).

(** ** What the pass computes *)

(** The summary of thread [id] over the runs [l], oldest first. *)
Definition summary_of (id : string) (l : list StoredRun) : option (ThreadSummary * bool) :=
  let own := List.filter (fun run => bool_decide (thread_of (sr_spec run) = Some id)) l in
  match own with
  | [] => None
  | first :: _ =>
      let lead := default first (List.find is_root own) in
      Some (mkThreadSummary id (agent_id (sr_spec lead)) (created_ms lead) (N.of_nat (length own)),
            existsb is_root own)
  end.

Lemma find_app {A} (p : A -> bool) l k :
  List.find p (l ++ k) = match List.find p l with Some x => Some x | None => List.find p k end.
Proof. induction l as [|x l IH]; simpl; [done|]. by destruct (p x). Qed.

Lemma existsb_find {A} (p : A -> bool) l : existsb p l = bool_decide (is_Some (List.find p l)).
Proof.
  induction l as [|x l IH]; simpl; [done|]. by destruct (p x).
Qed.

Lemma filter_snoc {A} (p : A -> bool) l x :
  List.filter p (l ++ [x]) = List.filter p l ++ (if p x then [x] else []).
Proof. by rewrite List.filter_app. Qed.

(** The entry of its thread a run leaves. *)
Definition next_entry (id : string) (entry : option (ThreadSummary * bool)) (run : StoredRun) :
    ThreadSummary * bool :=
  match entry with
  | None => (mkThreadSummary id (agent_id (sr_spec run)) (created_ms run) 1, is_root run)
  | Some (t, rooted) =>
      if is_root run && negb rooted
      then (mkThreadSummary (th_thread_id t) (agent_id (sr_spec run)) (created_ms run)
              (th_runs t + 1), true)
      else (mkThreadSummary (th_thread_id t) (th_agent_id t) (th_started_ms t) (th_runs t + 1),
            rooted)
  end.

Lemma add_thread_lookup threads run id :
  add_thread threads run !! id =
  if bool_decide (thread_of (sr_spec run) = Some id)
  then Some (next_entry id (threads !! id) run) else threads !! id.
Proof.
  unfold add_thread, next_entry. destruct (thread_of (sr_spec run)) as [t|].
  2:{ by rewrite bool_decide_false. }
  destruct (decide (t = id)) as [->|Hne].
  - rewrite bool_decide_true by done. destruct (threads !! id) as [[t rooted]|]; simpl;
      destruct (is_root run); try destruct rooted; simpl; by rewrite lookup_insert_eq.
  - rewrite bool_decide_false by congruence.
    destruct (default _ _) as [th rooted]. destruct (is_root run && negb rooted);
      by rewrite lookup_insert_ne.
Qed.

Lemma summary_of_snoc id l run :
  summary_of id (l ++ [run]) =
  if bool_decide (thread_of (sr_spec run) = Some id)
  then Some (next_entry id (summary_of id l) run) else summary_of id l.
Proof.
  unfold summary_of. rewrite filter_snoc.
  destruct (decide (thread_of (sr_spec run) = Some id)) as [Ht|Ht];
    [|by rewrite (bool_decide_false _ Ht), app_nil_r].
  rewrite (bool_decide_true _ Ht).
  set (own := List.filter _ l). destruct own as [|first own'] eqn:Eown; simpl app.
  - simpl. rewrite orb_false_r. by destruct (is_root run).
  - change (first :: own' ++ [run]) with ((first :: own') ++ [run]).
    rewrite existsb_app, find_app, length_app, existsb_find. unfold next_entry.
    destruct (List.find is_root (first :: own')) as [lead|].
    + rewrite bool_decide_true by done. rewrite andb_false_r. cbn [th_runs th_agent_id]. simpl.
      do 3 f_equal. lia.
    + rewrite bool_decide_false by (by intros []). simpl.
      destruct (is_root run); simpl; do 3 f_equal; lia.
Qed.

Lemma fold_threads l id : fold_left add_thread l ∅ !! id = summary_of id l.
Proof.
  induction l as [|run l IH] using rev_ind; [done|].
  rewrite fold_left_snoc, add_thread_lookup, summary_of_snoc, IH. done.
Qed.

(** ** The order of runs *)

Lemma run_leb_total : total_leb run_leb.
Proof.
  unfold total_leb, run_leb. split.
  - intros x y. rewrite !orb_true_iff, !andb_true_iff, !Z.ltb_lt, !Z.eqb_eq, !N.leb_le. lia.
  - intros x y z. rewrite !orb_true_iff, !andb_true_iff, !Z.ltb_lt, !Z.eqb_eq, !N.leb_le. lia.
Qed.

Lemma run_leb_antisym x y :
  run_leb x y = true -> run_leb y x = true -> run_id (sr_spec x) = run_id (sr_spec y).
Proof.
  unfold run_leb. rewrite !orb_true_iff, !andb_true_iff, !Z.ltb_lt, !Z.eqb_eq, !N.leb_le.
  intros H1 H2. assert (uuid_N (as_uuid (run_id (sr_spec x))) = uuid_N (as_uuid (run_id (sr_spec y))))
    as E by lia. apply (inj uuid_N) in E. destruct (run_id (sr_spec x)), (run_id (sr_spec y)).
  simpl in E. congruence.
Qed.

Lemma min_by_least {A} (leb : A -> A -> bool) l x :
  total_leb leb -> min_by leb l = Some x -> x ∈ l /\ Forall (fun y => leb x y = true) l.
Proof.
  intros [Htot Htr]. destruct l as [|a l]; [done|]. simpl. intros [= <-].
  induction l as [|b l IH] using rev_ind.
  - split; [set_solver|]. constructor; [destruct (Htot a a); done|done].
  - rewrite fold_left_snoc. destruct IH as [Hin Hle]. set (m := fold_left _ l a) in *.
    destruct (leb m b) eqn:E; (split; [set_solver|]).
    + rewrite app_comm_cons, Forall_app. auto.
    + rewrite app_comm_cons, Forall_app. destruct (Htot m b) as [?|Hbm]; [congruence|]. split.
      * eapply Forall_impl; [exact Hle|]. intros y. by apply Htr.
      * constructor; [destruct (Htot b b); done|done].
Qed.

Lemma min_by_None {A} (leb : A -> A -> bool) l : min_by leb l = None <-> l = [].
Proof. by destruct l. Qed.

Lemma sorted_list_filter {A} (R : A -> A -> Prop) (p : A -> bool) l :
  StronglySorted R l -> StronglySorted R (List.filter p l).
Proof.
  induction 1 as [|x l _ IH Hx]; simpl; [constructor|]. destruct (p x); [|done].
  constructor; [done|]. rewrite Forall_forall in *. intros y Hy. apply Hx.
  apply list_elem_of_In, List.filter_In in Hy as [Hy _]. by apply list_elem_of_In.
Qed.

Lemma find_least {A} (R : A -> A -> Prop) (p : A -> bool) l x :
  StronglySorted R l -> List.find p l = Some x ->
  x ∈ l /\ p x = true /\ forall y, y ∈ l -> p y = true -> y = x \/ R x y.
Proof.
  induction 1 as [|z l _ IH Hz]; simpl; [done|]. destruct (p z) eqn:E.
  - intros [= <-]. split_and!; [set_solver|done|]. intros y [->|Hy]%elem_of_cons _; [auto|].
    right. rewrite Forall_forall in Hz. auto.
  - intros Hf. destruct (IH Hf) as (Hx & Hp & Hy). split_and!; [set_solver|done|].
    intros y [->|?]%elem_of_cons; [congruence|auto].
Qed.

Lemma filter_perm {A} (p : A -> bool) l k : l ≡ₚ k -> List.filter p l ≡ₚ List.filter p k.
Proof.
  induction 1 as [|x l k _ IH|x y l|l k m _ IH1 _ IH2]; simpl; repeat destruct (p _);
    eauto using perm_skip, perm_swap, perm_trans.
Qed.

Lemma filter_filter {A} (p q : A -> bool) l :
  List.filter p (List.filter q l) = List.filter (fun x => q x && p x) l.
Proof.
  induction l as [|x l IH]; simpl; [done|]. destruct (q x); simpl; [|done].
  destruct (p x); by rewrite IH.
Qed.

(** ** The threads of a principal *)

Section Threads.
Context (s : RunsStore) (o : Owner) (Hwf : store_wf s).

Abbreviation own_of id :=
  (List.filter (fun run => bool_decide (thread_of (sr_spec run) = Some id)) (owned_runs s o)).

Lemma own_perm id :
  own_of id ≡ₚ List.filter (in_thread o id) (map_values (lock_read (runs s))).
Proof.
  unfold owned_runs. rewrite (filter_perm _ _ _ (sort_by_perm _ _)), filter_filter.
  apply reflexive_eq, List.filter_ext. intros run. unfold in_thread.
  rewrite <-andb_assoc. f_equal. destruct (decide (thread_of (sr_spec run) = Some id)) as [->|Hn].
  - done.
  - by rewrite (bool_decide_false _ Hn), andb_false_r.
Qed.

Lemma own_sorted id : StronglySorted (fun a b => run_leb a b = true) (own_of id).
Proof. apply sorted_list_filter, sort_by_sorted, run_leb_total. Qed.

(** A stored run is known by its id. *)
Lemma values_inj x y :
  x ∈ map_values (lock_read (runs s)) -> y ∈ map_values (lock_read (runs s)) ->
  run_id (sr_spec x) = run_id (sr_spec y) -> x = y.
Proof.
  unfold map_values. intros ([i x'] & -> & Hx)%list_elem_of_fmap ([j y'] & -> & Hy)%list_elem_of_fmap.
  apply elem_of_map_to_list in Hx, Hy. simpl.
  destruct (sw_runs _ Hwf _ _ Hx) as [-> _], (sw_runs _ Hwf _ _ Hy) as [-> _].
  intros ->. congruence.
Qed.

(** The first root of a thread in the pass is the thread's root. *)
Lemma find_root id : sr_spec <$> List.find is_root (own_of id) = thread_root s o id.
Proof.
  unfold thread_root.
  set (roots := List.filter (fun run => in_thread o id run && is_root run) _).
  assert (forall run, run ∈ own_of id /\ is_root run = true <-> run ∈ roots) as Hroots.
  { intros run. rewrite (own_perm id). unfold roots.
    rewrite !list_elem_of_In, !List.filter_In, andb_true_iff. tauto. }
  assert (forall run, run ∈ roots -> run ∈ map_values (lock_read (runs s))) as Hvals.
  { intros run. unfold roots. rewrite !list_elem_of_In, List.filter_In. tauto. }
  destruct (List.find is_root (own_of id)) as [lead|] eqn:Ef.
  - apply (find_least _ _ _ _ (own_sorted id)) in Ef as (Hin & Hp & Hle).
    assert (lead ∈ roots) as Hl by (by apply Hroots).
    destruct (min_by run_leb roots) as [m|] eqn:Em.
    2:{ apply min_by_None in Em. rewrite Em in Hl. by apply not_elem_of_nil in Hl. }
    apply (min_by_least _ _ _ run_leb_total) in Em as [Hm Hmle]. simpl. do 2 f_equal.
    apply values_inj; [auto..|].
    destruct (proj2 (Hroots m) Hm) as [Hmo Hmp].
    destruct (Hle m Hmo Hmp) as [->|Hlm]; [done|].
    rewrite Forall_forall in Hmle. apply run_leb_antisym; auto.
  - destruct (min_by run_leb roots) as [m|] eqn:Em; [|done].
    apply (min_by_least _ _ _ run_leb_total) in Em as [Hm _].
    destruct (proj2 (Hroots m) Hm) as [Hmo Hmp]. apply list_elem_of_In in Hmo.
    by rewrite (List.find_none _ _ Ef m Hmo) in Hmp.
Qed.

Lemma thread_entries id entry :
  (id, entry) ∈ map_to_list (fold_left add_thread (owned_runs s o) ∅) <->
  summary_of id (owned_runs s o) = Some entry.
Proof. rewrite elem_of_map_to_list, fold_threads. done. Qed.

Lemma thread_list_elem t :
  t ∈ thread_list s o <->
  exists rooted, summary_of (th_thread_id t) (owned_runs s o) = Some (t, rooted).
Proof.
  unfold thread_list. rewrite sort_by_perm. unfold map_values.
  rewrite list_elem_of_fmap. setoid_rewrite list_elem_of_fmap. split.
  - intros ([t' rooted] & -> & ([id entry] & E & Hin)). simpl in *. subst entry.
    apply thread_entries in Hin. exists rooted. rewrite <-Hin.
    unfold summary_of in Hin. destruct (List.filter _ _); [done|]. by injection Hin as <- _.
  - intros [rooted H]. exists (t, rooted). split; [done|].
    exists (th_thread_id t, (t, rooted)). split; [done|]. by apply thread_entries.
Qed.

Lemma thread_ids_nodup : NoDup (th_thread_id <$> thread_list s o).
Proof.
  unfold thread_list. rewrite sort_by_perm. unfold map_values. rewrite <-!list_fmap_compose.
  rewrite (list_fmap_ext _ fst); [apply NoDup_fst_map_to_list|].
  intros i [id [t rooted]] Hi. apply list_elem_of_lookup_2, thread_entries in Hi. simpl.
  unfold summary_of in Hi. destruct (List.filter _ _); [done|]. by injection Hi as <- _.
Qed.

(** The three views of a principal's threads agree: a thread is listed once,
    exactly when it has runs; its count is the number of its runs; and its agent
    and start are those of its coordinator, the run [thread_root] finds, or of
    its oldest run while it has none. *)
Theorem threads_consistent :
  NoDup (th_thread_id <$> thread_list s o) /\
  (forall id, id ∈ th_thread_id <$> thread_list s o <-> runs_of_thread s o id 1 <> []) /\
  (forall t limit, t ∈ thread_list s o ->
     length (runs_of_thread s o (th_thread_id t) limit) = Nat.min limit (N.to_nat (th_runs t))) /\
  (forall t, t ∈ thread_list s o ->
     exists lead, in_thread o (th_thread_id t) lead = true /\
       th_agent_id t = agent_id (sr_spec lead) /\ th_started_ms t = created_ms lead /\
       forall spec, thread_root s o (th_thread_id t) = Some spec -> sr_spec lead = spec).
Proof.
  assert (forall id limit, length (runs_of_thread s o id limit) =
    Nat.min limit (length (own_of id))) as Hlen.
  { intros id limit. unfold runs_of_thread. by rewrite length_take, sort_by_perm, own_perm. }
  split_and!; [apply thread_ids_nodup| | |].
  - intros id. rewrite list_elem_of_fmap. specialize (Hlen id 1). split.
    + intros (t & -> & [rooted Ht]%thread_list_elem) E. rewrite E in Hlen. simpl in Hlen.
      unfold summary_of in Ht. destruct (own_of (th_thread_id t)); simpl in Hlen; [done|lia].
    + intros Hne. destruct (summary_of id (owned_runs s o)) as [[t rooted]|] eqn:Es.
      * assert (th_thread_id t = id) as Hid.
        { unfold summary_of in Es. destruct (own_of id); [done|]. by injection Es as <- _. }
        exists t. split; [done|]. apply thread_list_elem. exists rooted. by rewrite Hid.
      * unfold summary_of in Es. destruct (own_of id); [|done]. simpl in Hlen.
        by apply length_zero_iff_nil in Hlen.
  - intros t limit [rooted Ht]%thread_list_elem. rewrite Hlen. f_equal.
    unfold summary_of in Ht. destruct (own_of (th_thread_id t)) as [|first own]; [done|].
    injection Ht as Ht _. rewrite <-Ht. cbn [th_runs]. by rewrite Nat2N.id.
  - intros t [rooted Ht]%thread_list_elem. pose proof (find_root (th_thread_id t)) as Hroot.
    unfold summary_of in Ht. destruct (own_of (th_thread_id t)) as [|first own] eqn:Eo; [done|].
    set (lead := default first (List.find is_root (first :: own))) in Ht.
    exists lead. injection Ht as Ht _. rewrite <-Ht at 2 3. cbn [th_agent_id th_started_ms].
    split_and!; [|done|done|].
    + assert (lead ∈ own_of (th_thread_id t)) as Hin.
      { rewrite Eo. unfold lead. destruct (List.find is_root (first :: own)) eqn:Ef; simpl;
          [|set_solver]. apply List.find_some in Ef as [? _]. by apply list_elem_of_In. }
      rewrite own_perm, list_elem_of_In, List.filter_In in Hin. tauto.
    + intros spec Hs. rewrite Hs in Hroot. unfold lead.
      destruct (List.find is_root (first :: own)); [by injection Hroot|done].
Qed.

End Threads.

(** Two runs of one thread, the older of which is a child stored first. *)
Definition thread_run (n : N) (up : option RunId) : StoredRun :=
  mkStoredRun
    (mkRunSpec (id_of n) (owner sample_spec) (id_of (n + 10)) "1" "hello" Local
       (work_model sample_spec) [] (mkLimits 8 4) {[SESSION_ID := "t"]}
       (mkLineage up None 0))
    [sample_event RunCreated].

Definition thread_store : RunsStore :=
  apply_ops store_default [OpPutRun (thread_run 1 (Some (id_of 7))) 5%Z; OpPutRun (thread_run 2 None) 6%Z].

Lemma threads_consistent_witness :
  thread_list thread_store (owner sample_spec) = [mkThreadSummary "t" (id_of 12) 0 2] /\
  length (runs_of_thread thread_store (owner sample_spec) "t" 9) = 2.
Proof.
  assert (thread_list thread_store (owner sample_spec) = [mkThreadSummary "t" (id_of 12) 0 2]) as E
    by (vm_compute; reflexivity).
  split; [exact E|].
  destruct (threads_consistent thread_store (owner sample_spec)
    (apply_ops_wf _ _ store_default_wf)) as (_ & _ & Hlen & _).
  apply (Hlen (mkThreadSummary "t" (id_of 12) 0 2) 9). rewrite E. constructor.
Defined.
