(* ===== verification/Surface.v ===== *)
(** * What a client renders ([server/surface.rs])

    A run's log as the events of the AG-UI protocol, and a run's outcome as a
    tree for json-render.  JSON objects are the constructors of [AgUi], one per
    ["type"]; [Element] keeps an element's type, its properties and its
    children.  The theorem: what is emitted is whole frames, a tool call or a
    message with all its parts, and the stream is closed exactly as often as
    the log ends. *)

From S2P Require Import Prelude Protocol Uuids Reduce DriverTurns Store StoreProofs.

(** ** AG-UI *)

Inductive AgUi :=
| RUN_STARTED (thread run : string)
| TOOL_CALL_START (call name : string)
| TOOL_CALL_ARGS (call delta : string)
| TOOL_CALL_END (call : string)
| TOOL_CALL_RESULT (message call content : string)
| TEXT_MESSAGE_START (message role : string)
| TEXT_MESSAGE_CONTENT (message delta : string)
| TEXT_MESSAGE_END (message : string)
| RUN_FINISHED (thread run : string)
| RUN_ERROR (message : string).

Section Surface.
Context `{UuidCrate}.

(** The authorized input of each tool invocation: the last one, as collecting
    into a map keeps it. *)
Definition tool_inputs (events : list Event) : gmap InvocationId string :=
  fold_left
    (fun inputs event =>
       match payload event with
       | EffectAuthorized (EToolCall _ input invocation) => <[invocation := input]> inputs
       | _ => inputs
       end) events ∅.

Definition text_message (id role text : string) : list AgUi :=
  [TEXT_MESSAGE_START id role; TEXT_MESSAGE_CONTENT id text; TEXT_MESSAGE_END id].

Definition role_name (role : MessageRole) : string :=
  match role with RoleAssistant => "assistant" | RoleUser => "user" | RoleSystem => "system" end.

(** What one event emits, and the reply it leaves as the last thing emitted. *)
Definition ag_ui_event (run : string) (inputs : gmap InvocationId string)
    (last_reply : option string) (event : Event) : list AgUi * option string :=
  let id := id_display (event_id (envelope event)) in
  match payload event with
  | ToolResult name invocation _ _ output =>
      let delta := default "" (inputs !! invocation) in
      let call := id_display invocation in
      ([TOOL_CALL_START call name; TOOL_CALL_ARGS call delta; TOOL_CALL_END call;
        TOOL_CALL_RESULT ("result-" +:+ id) call output], None)
  | UserMessage text =>
      (if bool_decide (text = "") then [] else text_message id "user" text, None)
  | ModelResponded message _ =>
      let text := Protocol.text message in
      if bool_decide (text = "") then ([], None)
      else
        (text_message id (role_name (Protocol.role message)) text,
         if bool_decide (Protocol.role message = RoleAssistant) then Some text else None)
  | RunCompleted outcome =>
      ((if negb (bool_decide (outcome = "")) && negb (bool_decide (last_reply = Some outcome))
        then text_message ("outcome-" +:+ run) "assistant" outcome else []) ++
       [RUN_FINISHED run run], None)
  | RunFailed _ text => ([RUN_ERROR text], None)
  | RunCancelled => ([RUN_ERROR "cancelled"], None)
  | RunExpired => ([RUN_ERROR "expired"], None)
  | _ => ([], None)
  end.

(** One turn of the loop: an event that emits nothing leaves the reply. *)
Definition ag_ui_step (run : string) (inputs : gmap InvocationId string)
    (acc : list AgUi * option string) (event : Event) : list AgUi * option string :=
  let '(emitted, reply) := ag_ui_event run inputs acc.2 event in
  (acc.1 ++ emitted, match emitted with [] => acc.2 | _ => reply end).

Definition ag_ui_events (id : RunId) (events : list Event) : list AgUi :=
  let run := id_display id in
  (fold_left (ag_ui_step run (tool_inputs events)) events ([RUN_STARTED run run], None)).1.

End Surface.

(** ** json-render *)

Record Element : Type := mkElement {
  el_type : string;
  el_props : list (string * string);
  el_children : list string;
}.

Record RenderSpec : Type := mkRenderSpec { rd_root : string; rd_elements : list (string * Element) }.

Definition text_element (text : string) : Element := mkElement "Text" [("text", text)] [].

Definition json_render_spec (input outcome : string) : RenderSpec :=
  mkRenderSpec "screen"
    [("screen", mkElement "Stack" [("direction", "vertical"); ("gap", "8")]
                  ["title"; "input"; "outcome"]);
     ("title", text_element "gol");
     ("input", text_element input);
     ("outcome", text_element outcome)].

(** ** Whole frames *)

Definition closes (e : AgUi) : bool :=
  match e with RUN_FINISHED _ _ | RUN_ERROR _ => true | _ => false end.

(** A tool call or a message with all its parts, in order and under one id, or
    a frame of its own. *)
Inductive frame : list AgUi -> Prop :=
| frame_tool call name delta message content :
    frame [TOOL_CALL_START call name; TOOL_CALL_ARGS call delta; TOOL_CALL_END call;
           TOOL_CALL_RESULT message call content]
| frame_text id role text : text <> "" -> frame (text_message id role text)
| frame_finished run : frame [RUN_FINISHED run run]
| frame_error text : frame [RUN_ERROR text].

Definition count_closes (l : list AgUi) : nat := length (List.filter closes l).

Definition count_ends (events : list Event) : nat :=
  length (List.filter (fun event => is_terminal (payload event)) events).

Section Frames.
Context `{UuidCrate} (run : string) (inputs : gmap InvocationId string).

Lemma ag_ui_event_frames reply event emitted reply' :
  ag_ui_event run inputs reply event = (emitted, reply') ->
  (exists frames, emitted = concat frames /\ Forall frame frames) /\
  count_closes emitted = (if is_terminal (payload event) then 1 else 0) /\
  (forall text, reply' = Some text -> exists id, emitted = text_message id "assistant" text).
Proof.
  assert (forall l : list AgUi, frame l -> exists frames, l = concat frames /\ Forall frame frames) as Hone.
  { intros l Hl. exists [l]. simpl. rewrite app_nil_r. auto. }
  assert (exists frames, ([] : list AgUi) = concat frames /\ Forall frame frames) as Hnone by by exists [].
  unfold ag_ui_event.
  destruct (payload event) as [| | | | | | | | | | |outcome| | | |text| | | | | | |message usage| | | | | | | | | | |];
    intros E; simpl in E; try (injection E as <- <-; split_and!; [exact Hnone|reflexivity|done]);
    try (injection E as <- <-; split_and!; [apply Hone; constructor|reflexivity|done]).
  - injection E as <- <-. case_bool_decide; simpl;
      [split_and!; [apply (Hone [_]); constructor|reflexivity|done]|].
    case_bool_decide; simpl; [split_and!; [apply (Hone [_]); constructor|reflexivity|done]|].
    split_and!; [|reflexivity|done].
    exists [text_message ("outcome-" +:+ run) "assistant" outcome; [RUN_FINISHED run run]].
    split; [done|]. by repeat constructor.
  - injection E as <- <-. case_bool_decide; [by split_and!|].
    split_and!; [by apply Hone; constructor|done|done].
  - case_bool_decide; injection E as <- <-; [by split_and!|].
    split_and!; [by apply Hone; constructor|done|].
    intros text. case_bool_decide as Hr; [|done]. intros [= <-]. rewrite Hr. by eexists.
Qed.

End Frames.

(** What a client is sent of a run is its start and then whole frames, a tool
    call or a message of some text with all its parts, and it is told that the
    run ended exactly as often as the log holds an end; a reply that the run
    then ends with is sent once. *)
Theorem ag_ui_is_whole `{UuidCrate} id events :
  exists frames,
    ag_ui_events id events = RUN_STARTED (id_display id) (id_display id) :: concat frames /\
    Forall frame frames /\ count_closes (ag_ui_events id events) = count_ends events.
Proof.
  unfold ag_ui_events. generalize (tool_inputs events) as inputs. intros inputs.
  set (run := id_display id).
  assert (forall acc, (exists frames, acc.1 = RUN_STARTED run run :: concat frames /\ Forall frame frames) ->
    (exists frames, (fold_left (ag_ui_step run inputs) events acc).1 = RUN_STARTED run run :: concat frames /\
       Forall frame frames) /\
    count_closes (fold_left (ag_ui_step run inputs) events acc).1 = count_closes acc.1 + count_ends events)
    as Hfold.
  { induction events as [|event events IH]; intros acc Hacc; simpl; [split; [done|unfold count_ends; simpl; lia]|].
    destruct (ag_ui_event run inputs acc.2 event) as [emitted reply] eqn:E.
    assert (ag_ui_step run inputs acc event =
      (acc.1 ++ emitted, match emitted with [] => acc.2 | _ => reply end)) as Hstep
      by (unfold ag_ui_step; by rewrite E).
    destruct (ag_ui_event_frames _ _ _ _ _ _ E) as ((new & He & Hnew) & Hc & _).
    destruct (IH (ag_ui_step run inputs acc event)) as [Hf Hn].
    { rewrite Hstep. destruct Hacc as (frames & -> & Hall). exists (frames ++ new). simpl.
      rewrite concat_app, He. split; [done|]. by apply Forall_app. }
    split; [done|]. rewrite Hn, Hstep. unfold count_closes in *. simpl.
    rewrite List.filter_app, length_app, Hc. unfold count_ends. simpl.
    destruct (is_terminal _); simpl; lia. }
  destruct (Hfold ([RUN_STARTED run run], None)) as [(frames & Hf & Hall) Hn]; [by exists []|].
  exists frames. by rewrite Hf in *.
Qed.

(** A turn's reply is not repeated by the outcome it completes with. *)
Example reply_once :
  let run := id_display (H := hyphenated) (k := KRun) (id_of 1) in
  let reply := sample_event (ModelResponded (mkModelMessage RoleAssistant "hi") None) in
  ag_ui_events (H := hyphenated) (id_of 1)
    [reply; sample_event StepAdvanced; sample_event (RunCompleted "hi")] =
  RUN_STARTED run run ::
  text_message (id_display (H := hyphenated) (event_id (envelope reply))) "assistant" "hi" ++
  [RUN_FINISHED run run].
Proof. vm_compute. reflexivity. Qed.
