(* ===== verification/Stream.v ===== *)
(** * The live streams ([server/stream.rs])

    A client follows its principal's outbox, or one run's log, as server-sent
    events: a page is read and sent, then the stream waits for a hint that
    there is more, or for the poll.  Between two reads any writers work on the
    store.  The theorems: what a client is sent, across any reads, is every
    event after its cursor, once and in order; a stream that waits has sent
    what there is, and what comes next is hinted; a run's stream ends with its
    log; and the streams of a principal are counted. *)

From S2P Require Import Prelude Protocol Uuids Reduce DriverTurns Store StoreProofs.

Definition PAGE : nat := 500.
Definition MAX_STREAMS : N := 16.

(** Milliseconds. *)
Definition POLL_LIVE : N := 30000.
Definition POLL_DOWN : N := 5000.
Definition HEARTBEAT : N := 15000.

(** ** Slots *)

Abbreviation Streams := (gmap Principal N).

(** A slot is the key it is counted under. *)
Definition take_slot (streams : Streams) (o : Owner) : option Principal * Streams :=
  let key := principal o in
  let opened := match streams !! key with Some _ => streams | None => <[key := 0%N]> streams end in
  let count := default 0%N (streams !! key) in
  if (MAX_STREAMS <=? count)%N then (None, opened)
  else (Some key, <[key := (count + 1)%N]> opened).

(** [count -= 1] on a [usize], compiled without overflow checks. *)
Definition drop_slot (streams : Streams) (key : Principal) : Streams :=
  match streams !! key with
  | Some count =>
      let count := ((count + u64_max) mod (u64_max + 1))%N in
      if (count =? 0)%N then delete key streams else <[key := count]> streams
  | None => streams
  end.

(** ** Frames *)

Inductive SseData :=
| EventData (run : RunId) (run_seq : N) (event : Event)
| ResetData (pruned_through : N).

Record Sse : Type := mkSse { sse_id : N; sse_event : string; sse_data : SseData }.

Definition event_frame (id : N) (run : RunId) (run_seq : N) (event : Event) : Sse :=
  mkSse id (event_type (payload event)) (EventData run run_seq event).

Definition reset_frame (pruned : N) : Sse := mkSse pruned "reset" (ResetData pruned).

(** ** Waiting *)

(** What a waiting stream is woken by, in the order it takes them: its client
    went away, the poll is due, a hint, a lag (hints were dropped), or nobody
    sends hints any more. *)
Inductive Signal := ClientGone | PollDue | Hinted (hint : N) | Lagged | HintsClosed.

Definition poll_every (live : option bool) : N :=
  match live with Some true => POLL_LIVE | _ => POLL_DOWN end.

(** [true] when the client went away; [None] while nothing decides.  [subscribed]
    says whether there is a receiver to read hints from. *)
Fixpoint wait (subscribed : bool) (hint : N) (signals : list Signal) : option bool :=
  match signals with
  | [] => None
  | ClientGone :: _ => Some true
  | PollDue :: _ => Some false
  | Hinted got :: rest =>
      if subscribed && ((got =? hint)%N || (got =? ALL)%N) then Some false
      else wait subscribed hint rest
  | Lagged :: rest => if subscribed then Some false else wait subscribed hint rest
  | HintsClosed :: rest => wait false hint rest
  end.

(** ** The streams *)

(** What happens at one turn of a stream's loop: what the writers did before
    its read, whether the read fails (a store error, or its task panicked),
    how many frames its client takes before it goes away, and what wakes it. *)
Record Look : Type := mkLook {
  lk_ops : list StoreOp;
  lk_fails : bool;
  lk_room : nat;
  lk_signals : list Signal;
}.

Inductive Next := Again | Waits | Ended.

Definition woken (decided : option bool) : Next :=
  match decided with Some true => Ended | Some false => Again | None => Waits end.

(** The store keeps an outbox, so there is a receiver. *)
Definition wait_next (o : Owner) (look : Look) : Next :=
  woken (wait true (principal_hint o) (lk_signals look)).

(** What was sent, the cursor, the store as it was last read, and how the
    stream stands. *)
Record Streamed (C : Type) : Type := mkStreamed {
  sd_sent : list Sse;
  sd_cursor : C;
  sd_store : RunsStore;
  sd_next : Next;
}.
Arguments mkStreamed {C} _ _ _ _.
Arguments sd_sent {C} _.
Arguments sd_cursor {C} _.
Arguments sd_store {C} _.
Arguments sd_next {C} _.

(** The loop, over its turns: [round] is its body. *)
Fixpoint stream_loop {C} (round : Look -> RunsStore -> C -> list Sse * C * Next)
    (looks : list Look) (s : RunsStore) (cursor : C) : Streamed C :=
  match looks with
  | [] => mkStreamed [] cursor s Again
  | look :: looks =>
      let s := apply_ops s (lk_ops look) in
      let '(sent, cursor, next) := round look s cursor in
      match next with
      | Again =>
          let rest := stream_loop round looks s cursor in
          mkStreamed (sent ++ sd_sent rest) (sd_cursor rest) (sd_store rest) (sd_next rest)
      | _ => mkStreamed sent cursor s next
      end
  end.

(** The loop over a page: what was sent, the cursor, and whether the client is
    still there. *)
Fixpoint send_entries (room : nat) (page : list OutboxEntry) (cursor : N) : list Sse * N * bool :=
  match page, room with
  | [], _ => ([], cursor, true)
  | _ :: _, O => ([], cursor, false)
  | e :: page, S room =>
      let '(sent, cursor, there) := send_entries room page (oe_seq e) in
      (event_frame (oe_seq e) (oe_run_id e) (oe_run_seq e) (oe_event e) :: sent, cursor, there)
  end.

Definition outbox_round (o : Owner) (look : Look) (s : RunsStore) (cursor : option N)
    : list Sse * option N * Next :=
  let '(after, limit) := match cursor with Some after => (after, PAGE) | None => (u64_max, 0%nat) end in
  if lk_fails look then ([], cursor, Ended)
  else
    match outbox_after s o after limit with
    | Err _ => ([], cursor, Ended)
    | Ok page =>
        match cursor with
        | None => ([], Some (last_number page), Again)
        | Some after =>
            if (after <? pruned_through page)%N then
              (match lk_room look with O => [] | S _ => [reset_frame (pruned_through page)] end,
               cursor, Ended)
            else
              let full := (length (entries page) =? PAGE)%nat in
              let '(sent, after, there) := send_entries (lk_room look) (entries page) after in
              if negb there then (sent, Some after, Ended)
              else (sent, Some after, if full then Again else wait_next o look)
        end
    end.

Definition outbox_stream (o : Owner) : list Look -> RunsStore -> option N -> Streamed (option N) :=
  stream_loop (outbox_round o).

(** The loop over a run's events: the last says whether the stream goes on. *)
Fixpoint send_events (room : nat) (id : RunId) (events : list Event) (cursor : N)
    : list Sse * N * bool :=
  match events, room with
  | [], _ => ([], cursor, true)
  | _ :: _, O => ([], cursor, false)
  | e :: events, S room =>
      let run_seq := (cursor + 1)%N in
      let frame := event_frame run_seq id run_seq e in
      if is_terminal (payload e) then ([frame], run_seq, false)
      else
        let '(sent, cursor, there) := send_events room id events run_seq in
        (frame :: sent, cursor, there)
  end.

Definition run_round (o : Owner) (id : RunId) (look : Look) (s : RunsStore) (cursor : N)
    : list Sse * N * Next :=
  if lk_fails look then ([], cursor, Ended)
  else
    match run_page s id (N.to_nat (cursor - 1)) (PAGE + 1) with
    | None => ([], cursor, Ended)
    | Some run =>
        let '(ended, events) :=
          if (0 <? cursor)%N then
            match sr_events run with
            | seen :: events => (is_terminal (payload seen), events)
            | [] => (false, [])
            end
          else (false, sr_events run) in
        if ended : bool then ([], cursor, Ended)
        else
          let '(sent, cursor, there) := send_events (lk_room look) id (take PAGE events) cursor in
          if negb there then (sent, cursor, Ended)
          else (sent, cursor, if (length sent <? PAGE)%nat then wait_next o look else Again)
    end.

Definition run_stream (o : Owner) (id : RunId) : list Look -> RunsStore -> N -> Streamed N :=
  stream_loop (run_round o id).

(** ** Reading the store as it goes on *)

Lemma apply_ops_app s ops ops' : apply_ops s (ops ++ ops') = apply_ops (apply_ops s ops) ops'.
Proof. apply fold_left_app. Qed.

Lemma stream_loop_store {C} (round : Look -> RunsStore -> C -> list Sse * C * Next) looks s c :
  exists ops, sd_store (stream_loop round looks s c) = apply_ops s ops.
Proof.
  revert s c; induction looks as [|look looks IH]; intros s c; simpl; [by exists []|].
  destruct (round look (apply_ops s (lk_ops look)) c) as [[sent c'] next].
  destruct next; simpl; [|by eexists|by eexists].
  destruct (IH (apply_ops s (lk_ops look)) c') as [ops ->]. exists (lk_ops look ++ ops).
  by rewrite apply_ops_app.
Qed.

Lemma stream_loop_grows {C} (round : Look -> RunsStore -> C -> list Sse * C * Next) looks s c :
  store_wf s -> log_grows s (sd_store (stream_loop round looks s c)).
Proof.
  intros Hs. destruct (stream_loop_store round looks s c) as [ops ->]. by apply apply_ops_grows.
Qed.

Lemma get_run_grown s s' id run k e :
  log_grows s s' -> get_run s id = Some run -> sr_events run !! k = Some e ->
  exists run', get_run s' id = Some run' /\ sr_spec run' = sr_spec run /\ sr_events run' !! k = Some e.
Proof.
  intros Hg Hr He. destruct (Hg id run Hr) as (run' & Hr' & Hs & [more Hm] & _).
  exists run'. split_and!; [done|done|]. rewrite Hm. by apply lookup_app_l_Some.
Qed.

Lemma take_nums k b len : take k (nums b len) = nums b (Nat.min k len).
Proof.
  unfold nums. by rewrite <-fmap_take, take_seq.
Qed.

(** ** The outbox's stream *)

Definition own_frame (s : RunsStore) (p : Principal) (f : Sse) : Prop :=
  exists e, entry_in s p e /\ f = event_frame (oe_seq e) (oe_run_id e) (oe_run_seq e) (oe_event e).

Lemma own_frame_grown s s' p f : log_grows s s' -> own_frame s p f -> own_frame s' p f.
Proof.
  intros Hg (e & (run & Hr & Hp & H1 & He) & ->).
  destruct (get_run_grown _ _ _ _ _ _ Hg Hr He) as (run' & Hr' & Hs & He').
  exists e. split; [|done]. exists run'. rewrite Hs. done.
Qed.

Lemma send_entries_spec room page c sent c' there s p :
  send_entries room page c = (sent, c', there) ->
  oe_seq <$> page = nums (c + 1) (length page) -> Forall (entry_in s p) page ->
  sse_id <$> sent = nums (c + 1) (length sent) /\ Forall (own_frame s p) sent /\
  c' = (c + N.of_nat (length sent))%N /\ (there = true -> length sent = length page).
Proof.
  revert page c sent c' there.
  induction room as [|room IH]; intros [|e page] c sent c' there; simpl;
    intros E Hseq Hall; try (injection E as <- <- <-; simpl; split_and!; try done; lia).
  destruct (send_entries room page (oe_seq e)) as [[more c2] there2] eqn:Em.
  injection E as <- <- <-. rewrite nums_S in Hseq. injection Hseq as He Hseq.
  apply Forall_cons in Hall as [Hin Hall]. rewrite He in Em.
  destruct (IH page (c + 1)%N more c2 there2 Em Hseq Hall) as (Hids & Hown & Hc & Hlen).
  rewrite fmap_cons, length_cons, nums_S. split_and!.
  - simpl. by rewrite He, Hids.
  - constructor; [by exists e|done].
  - lia.
  - intros Ht. rewrite (Hlen Ht). done.
Qed.

(** A turn of the loop: the frames that follow the cursor, and the last one
    when the cursor fell behind what was pruned. *)
Lemma outbox_round_spec o look s a sent c next :
  store_wf s -> outbox_round o look s (Some a) = (sent, c, next) ->
  let p := principal o in let ob := lock_read (outbox s) in
  (sse_id <$> sent = nums (a + 1) (length sent) /\ Forall (own_frame s p) sent /\
   c = Some (a + N.of_nat (length sent))%N /\
   (next = Waits -> (count_of ob p <= a + N.of_nat (length sent))%N)) \/
  (sent = [reset_frame (pruned_of ob p)] /\ c = Some a /\ next = Ended /\ (a < pruned_of ob p)%N).
Proof.
  intros Hs E p ob. unfold outbox_round in E.
  assert (forall c0 : option N, c0 = Some a -> ([] : list Sse, c0, Ended) = (sent, c, next) ->
    sse_id <$> sent = nums (a + 1) (length sent) /\ Forall (own_frame s p) sent /\
    c = Some (a + N.of_nat (length sent))%N /\
    (next = Waits -> (count_of ob p <= a + N.of_nat (length sent))%N)) as Hnone.
  { intros c0 -> [= <- <- <-]. split_and!; try done. simpl. f_equal. lia. }
  destruct (lk_fails look); [by left; eapply Hnone|].
  destruct (outbox_page_ok s o a PAGE Hs) as (page & Hpage & Hseq & Hpr & Hlast & Hin).
  rewrite Hpage in E. fold ob p in Hseq, Hpr, Hlast, Hin.
  destruct (a <? pruned_through page)%N eqn:Hb.
  { apply N.ltb_lt in Hb. rewrite Hpr in *. destruct (lk_room look); [by left; eapply Hnone|].
    injection E as <- <- <-. by right. }
  left. apply N.ltb_ge in Hb. rewrite Hpr in Hb.
  rewrite (N.max_r _ _ Hb), take_nums in Hseq.
  destruct (send_entries (lk_room look) (entries page) a) as [[sent' c'] there] eqn:Es.
  assert (length (entries page) = Nat.min PAGE (N.to_nat (last_number page - a))) as Hlen.
  { rewrite <-(length_fmap oe_seq), Hseq. apply length_nums. }
  rewrite <-Hlen in Hseq.
  destruct (send_entries_spec _ _ _ _ _ _ _ _ Es Hseq Hin) as (Hids & Hown & -> & Hall).
  destruct there; simpl in E; [|injection E as <- <- <-; by split_and!].
  injection E as <- <- <-. split_and!; [done|done|done|].
  rewrite (Hall eq_refl), <-Hlast. destruct (_ =? _)%nat eqn:Hf; [done|].
  apply Nat.eqb_neq in Hf. intros _. lia.
Qed.

(** A client with no cursor starts at the end of what is stored then. *)
Lemma outbox_stream_starts o look looks s :
  store_wf s -> lk_fails look = false ->
  let s1 := apply_ops s (lk_ops look) in
  outbox_stream o (look :: looks) s None =
    outbox_stream o looks s1 (Some (count_of (lock_read (outbox s1)) (principal o))).
Proof.
  intros Hs Hf s1. unfold outbox_stream. simpl. fold s1. unfold outbox_round at 1. rewrite Hf.
  destruct (outbox_page_ok s1 o u64_max 0) as (page & -> & _ & _ & Hlast & _).
  { by apply apply_ops_wf. }
  simpl. rewrite Hlast. by destruct (stream_loop _ _ _ _).
Qed.

Lemma outbox_stream_follows o looks s a :
  store_wf s ->
  let r := outbox_stream o looks s (Some a) in
  let p := principal o in let ob := lock_read (outbox (sd_store r)) in
  exists frames reset,
    sd_sent r = frames ++ reset /\
    sse_id <$> frames = nums (a + 1) (length frames) /\
    Forall (own_frame (sd_store r) p) frames /\
    sd_cursor r = Some (a + N.of_nat (length frames))%N /\
    (reset = [] \/ reset = [reset_frame (pruned_of ob p)] /\ sd_next r = Ended /\
       (a + N.of_nat (length frames) < pruned_of ob p)%N) /\
    (sd_next r = Waits -> (count_of ob p <= a + N.of_nat (length frames))%N).
Proof.
  unfold outbox_stream. revert s a. induction looks as [|look looks IH]; intros s a Hs; simpl.
  { exists [], []. split_and!; try done; [|by left]. simpl. f_equal. lia. }
  set (s1 := apply_ops s (lk_ops look)). assert (store_wf s1) as Hs1 by by apply apply_ops_wf.
  destruct (outbox_round o look s1 (Some a)) as [[sent c] next] eqn:E.
  destruct (outbox_round_spec _ _ _ _ _ _ _ Hs1 E) as [(Hids & Hown & -> & Hw)|(-> & -> & -> & Hp)].
  2: { exists [], [reset_frame (pruned_of (lock_read (outbox s1)) (principal o))]. simpl.
       split_and!; try done; [f_equal; lia|]. right. split_and!; [done|done|lia]. }
  destruct next; simpl; [|by exists sent, []; rewrite app_nil_r; split_and!; auto..].
  destruct (IH s1 (a + N.of_nat (length sent))%N Hs1)
    as (frames & reset & Hsent & Hids' & Hown' & Hc & Hreset & Hw').
  exists (sent ++ frames), reset. rewrite Hsent, app_assoc, length_app.
  rewrite Nat2N.inj_add, N.add_assoc.
  split_and!; try done.
  - rewrite fmap_app, nums_app, Hids, Hids'. do 2 f_equal. lia.
  - apply Forall_app. split; [|done]. eapply Forall_impl; [exact Hown|]. intros f.
    apply own_frame_grown. by apply stream_loop_grows.
Qed.

(** ** Hints *)

Lemma wait_poll subscribed hint signals :
  PollDue ∈ signals -> is_Some (wait subscribed hint signals).
Proof.
  revert subscribed; induction signals as [|signal signals IH]; intros subscribed; [set_solver|].
  intros [<-|Hin]%elem_of_cons; [by eexists|].
  destruct signal; simpl; try by eexists.
  - destruct (_ && _); eauto.
  - destruct subscribed; eauto.
  - eauto.
Qed.

Lemma wait_hinted hint signals :
  Hinted hint ∈ signals -> HintsClosed ∉ signals -> is_Some (wait true hint signals).
Proof.
  induction signals as [|signal signals IH]; [set_solver|].
  intros [<-|Hin]%elem_of_cons Hc; simpl; [rewrite N.eqb_refl; by eexists|].
  assert (HintsClosed ∉ signals) as Hc' by set_solver.
  destruct signal; simpl; try by eexists.
  - destruct (_ || _); [by eexists|eauto].
  - set_solver.
Qed.

Lemma principal_hint_eq o o' : principal o = principal o' -> principal_hint o = principal_hint o'.
Proof. unfold principal, principal_hint. by intros [= -> ->]. Qed.

(** An operation that numbers an event sends its principal's hint. *)
Definition hinted (o : Owner) (s s' : RunsStore) : Prop :=
  exists sent, hints s' = sent ++ hints s /\
    ((count_of (lock_read (outbox s)) (principal o) < count_of (lock_read (outbox s')) (principal o))%N ->
     principal_hint o ∈ sent).

#[export] Instance hinted_preorder o : PreOrder (hinted o).
Proof.
  split.
  - intros s. exists []. split; [done|lia].
  - intros s1 s2 s3 (h1 & E1 & H1) (h2 & E2 & H2). exists (h2 ++ h1).
    rewrite E2, E1, app_assoc. split; [done|]. intros Hlt. rewrite elem_of_app.
    destruct (decide (count_of (lock_read (outbox s1)) (principal o) <
      count_of (lock_read (outbox s2)) (principal o))%N); [by right; apply H1|].
    left. apply H2. lia.
Qed.

Lemma same_hinted o s s' : hints s' = hints s -> outbox s' = outbox s -> hinted o s s'.
Proof. intros Hh Ho. exists []. rewrite Hh, Ho. split; [done|lia]. Qed.

Lemma numbered_hinted o s s' o' id len count now :
  hints s' = principal_hint o' :: hints s ->
  lock_read (outbox s') = numbered (lock_read (outbox s)) (principal o') id len count now ->
  hinted o s s'.
Proof.
  intros Hh Ho. exists [principal_hint o']. split; [done|]. rewrite Ho, count_of_numbered.
  case_bool_decide as Hp; [|lia]. intros _. rewrite (principal_hint_eq _ _ Hp). set_solver.
Qed.

Lemma apply_op_hinted o s op : store_wf s -> hinted o s (apply_op s op).
Proof.
  intros Hs. destruct op; simpl.
  - apply same_hinted; unfold put_agent; by repeat case_match.
  - apply same_hinted; unfold put_artifact; by repeat case_match.
  - destruct (put_run s run now) as [r s'] eqn:E.
    destruct (put_run_cases _ _ _ _ _ Hs E) as [[-> _]|(_ & _ & _ & ->)]; [done|].
    by eapply numbered_hinted.
  - destruct (append_checked s id seen events now) as [r s'] eqn:E.
    apply append_checked_cases in E as [[-> _]|(run & _ & _ & _ & _ & _ & ->)]; [done|].
    by eapply numbered_hinted.
  - destruct (prune_outbox s t0) as [r s'] eqn:E. exists []. simpl.
    apply prune_outbox_cases in E as [->| ->]; (split; [done|simpl; unfold count_of; simpl; lia]).
Qed.

Lemma apply_ops_hinted o s ops : store_wf s -> hinted o s (apply_ops s ops).
Proof.
  unfold apply_ops. revert s; induction ops as [|op ops IH]; intros s Hs; [done|]. simpl.
  etrans; [by apply apply_op_hinted|]. apply IH. auto with gol.
Qed.

(** ** A run's stream *)

Definition run_frame (s : RunsStore) (id : RunId) (f : Sse) : Prop :=
  exists run k e, get_run s id = Some run /\ sr_events run !! k = Some e /\
    f = event_frame (N.of_nat k + 1) id (N.of_nat k + 1) e.

Lemma run_frame_grown s s' id f : log_grows s s' -> run_frame s id f -> run_frame s' id f.
Proof.
  intros Hg (run & k & e & Hr & He & ->).
  destruct (get_run_grown _ _ _ _ _ _ Hg Hr He) as (run' & Hr' & _ & He'). by exists run', k, e.
Qed.

Lemma send_events_spec room id (log : list Event) (a : nat) n sent c there :
  send_events room id (take n (drop a log)) (N.of_nat a) = (sent, c, there) ->
  (a + length sent <= Nat.max a (length log))%nat /\
  sse_id <$> sent = nums (N.of_nat a + 1) (length sent) /\
  Forall (fun f => exists k e, log !! k = Some e /\
    f = event_frame (N.of_nat k + 1) id (N.of_nat k + 1) e) sent /\
  c = N.of_nat (a + length sent) /\
  (there = true -> length sent = Nat.min n (length log - a) /\
     Forall (fun e => is_terminal (payload e) = false) (take n (drop a log))).
Proof.
  revert room a sent c there. induction n as [|n IH]; intros room a sent c there.
  { destruct room; intros [= <- <- <-]; simpl; rewrite Nat.add_0_r; (split_and!; try done); lia. }
  destruct (drop a log) as [|e rest] eqn:Ed; simpl.
  { destruct room; intros [= <- <- <-].
    all: simpl; rewrite Nat.add_0_r; apply (f_equal length) in Ed; rewrite length_drop in Ed;
      simpl in Ed; (split_and!; try done); [lia|]; intros _; rewrite Ed;
      by split. }
  assert (log !! a = Some e) as He by (rewrite <-(Nat.add_0_r a), <-lookup_drop, Ed; done).
  assert (drop (S a) log = rest) as Ed'.
  { replace (S a) with (a + 1)%nat by lia. by rewrite <-drop_drop, Ed. }
  pose proof (lookup_lt_Some _ _ _ He) as Hlt.
  destruct room as [|room].
  { intros [= <- <- <-]. simpl. rewrite Nat.add_0_r. split_and!; try done. lia. }
  simpl. replace (N.of_nat a + 1)%N with (N.of_nat (S a)) by lia.
  assert (exists k e0, log !! k = Some e0 /\
    event_frame (N.of_nat (S a)) id (N.of_nat (S a)) e =
      event_frame (N.of_nat k + 1) id (N.of_nat k + 1) e0) as Hf.
  { exists a, e. split; [done|]. by replace (N.of_nat a + 1)%N with (N.of_nat (S a)) by lia. }
  destruct (is_terminal (payload e)) eqn:Ht.
  { intros [= <- <- <-]. simpl. split_and!; try done; [lia| |f_equal; lia].
    by constructor. }
  destruct (send_events room id (take n rest) _) as [[more c'] there'] eqn:Es.
  intros [= <- <- <-]. rewrite <-Ed' in Es.
  destruct (IH _ _ _ _ _ Es) as (Hl & Hids & Hall & -> & Hth).
  rewrite fmap_cons, length_cons, nums_S. split_and!.
  - lia.
  - simpl. rewrite Hids. do 2 f_equal; lia.
  - by constructor.
  - f_equal. lia.
  - intros Ht'. destruct (Hth Ht') as [-> Hnt]. rewrite Ed' in Hnt. split; [|by constructor].
    destruct (length log - a)%nat eqn:El; simpl; lia.
Qed.

Lemma one_end_terminal_last (log : list Event) k e :
  one_end (payload <$> log) -> log !! k = Some e -> is_terminal (payload e) = true ->
  S k = length log.
Proof.
  intros Ho He Ht. pose proof (lookup_lt_Some _ _ _ He).
  destruct (decide (S k = length log)) as [|Hne]; [done|].
  exfalso. rewrite is_terminal_run_end in Ht.
  specialize (Ho k (payload e)). rewrite list_lookup_fmap, He, length_fmap in Ho.
  specialize (Ho eq_refl Ht). lia.
Qed.

(** A page of a run, one event before the cursor included, is what follows the
    cursor. *)
Lemma page_after (log : list Event) (a : nat) :
  let page := take (PAGE + 1) (drop (a - 1) log) in
  let events := if (0 <? a)%nat then tail page else page in
  take PAGE events = take PAGE (drop a log) /\
  ((0 < a)%nat -> head page = log !! (a - 1)%nat).
Proof.
  intros page events. unfold events, page. split.
  - destruct (Nat.ltb_spec 0 a) as [Ha|Ha].
    + replace (drop a log) with (tail (drop (a - 1) log)).
      * rewrite Nat.add_1_r. destruct (drop (a - 1) log) as [|e rest]; [done|].
        rewrite firstn_cons. unfold tail. by rewrite take_take, Nat.min_id.
      * replace a with (a - 1 + 1)%nat at 2 by lia. rewrite <-drop_drop. by destruct (drop (a - 1) log).
    + replace a with 0%nat by lia. rewrite take_take. by f_equal; lia.
  - intros Ha. rewrite head_lookup, lookup_take_lt by (unfold PAGE; lia).
    by rewrite lookup_drop, Nat.add_0_r.
Qed.

Lemma run_round_spec o id look s a sent c next :
  store_wf s -> run_round o id look s (N.of_nat a) = (sent, c, next) ->
  sse_id <$> sent = nums (N.of_nat a + 1) (length sent) /\ Forall (run_frame s id) sent /\
  c = N.of_nat (a + length sent) /\
  forall run, get_run s id = Some run -> (a <= length (sr_events run))%nat ->
    (a + length sent <= length (sr_events run))%nat /\
    (next = Waits -> (a + length sent)%nat = length (sr_events run) /\
       has_terminal (sr_events run) = false).
Proof.
  intros Hs. unfold run_round.
  assert (([] : list Sse, N.of_nat a, Ended) = (sent, c, next) ->
    sse_id <$> sent = nums (N.of_nat a + 1) (length sent) /\ Forall (run_frame s id) sent /\
    c = N.of_nat (a + length sent) /\
    forall run, get_run s id = Some run -> (a <= length (sr_events run))%nat ->
      (a + length sent <= length (sr_events run))%nat /\
      (next = Waits -> (a + length sent)%nat = length (sr_events run) /\
         has_terminal (sr_events run) = false)) as Hnone.
  { intros [= <- <- <-]. simpl. rewrite Nat.add_0_r. by split_and!. }
  destruct (lk_fails look); [exact Hnone|]. unfold run_page.
  destruct (get_run s id) as [run|] eqn:Hrun; [|exact Hnone]. cbn [fmap option_fmap option_map sr_events].
  replace (N.to_nat (N.of_nat a - 1)) with (a - 1)%nat by lia.
  set (log := sr_events run) in *. pose proof (page_after log a) as [Hpage Hhead].
  set (page := take (PAGE + 1) (drop (a - 1) log)) in *.
  set (events := if (0 <? a)%nat then tail page else page) in Hpage.
  assert (exists over, (if (0 <? N.of_nat a)%N then
      match page with seen :: events => (is_terminal (payload seen), events) | [] => (false, []) end
      else (false, page)) = (over, events) /\
    (over = false -> forall e, (0 < a)%nat -> log !! (a - 1)%nat = Some e -> is_terminal (payload e) = false))
    as (over & -> & Hover).
  { destruct a as [|a]; [exists false; split; [done|lia]|].
    rewrite <-(Hhead ltac:(lia)). unfold events. simpl.
    destruct page as [|seen rest]; [by exists false|].
    exists (is_terminal (payload seen)). split; [done|]. intros Hnt e _. simpl. by intros [= <-]. }
  destruct over; [exact Hnone|]. rewrite Hpage.
  destruct (send_events (lk_room look) id (take PAGE (drop a log)) (N.of_nat a))
    as [[sent' c'] there] eqn:Es.
  destruct (send_events_spec _ _ _ _ _ _ _ _ Es) as (Hl & Hids & Hall & -> & Hth).
  intros E.
  assert (sent' = sent /\ N.of_nat (a + length sent') = c) as [-> <-] by (destruct there; by injection E).
  split_and!; [done| |done|].
  - eapply Forall_impl; [exact Hall|]. intros f (k & e & He & ->). by exists run, k, e.
  - intros run' [= <-] Ha. fold log in Ha |- *. split; [lia|]. intros ->.
    destruct there; [|done]. destruct (Hth eq_refl) as [Hlen Hnt].
    change (negb true) with false in E. injection E.
    destruct (length sent <? PAGE)%nat eqn:Hp; [|intros; discriminate]. apply Nat.ltb_lt in Hp. intros _.
    split; [lia|]. unfold has_terminal. apply existsb_false_Forall, Forall_lookup.
    intros k e He. destruct (is_terminal (payload e)) eqn:Ht; [|done]. exfalso.
    pose proof (sw_runs _ Hs id run Hrun) as [_ Hone].
    pose proof (one_end_terminal_last _ _ _ Hone He Ht) as Hk. fold log in Hk.
    destruct (decide (k < a)%nat) as [Hka|Hka].
    + assert (k = a - 1)%nat as -> by lia.
      rewrite (Hover eq_refl e) in Ht; [done|lia|done].
    + rewrite Forall_lookup in Hnt. rewrite (Hnt (k - a)%nat e) in Ht; [done|].
      rewrite lookup_take_lt by lia. rewrite lookup_drop. by replace (a + (k - a))%nat with k by lia.
Qed.

(** A run's stream is the run's log: it sends the events after its cursor at
    their places, in order, without a gap or a repeat, and none past the log;
    and when it waits, it has sent the whole log, and the log has not ended. *)
Theorem run_stream_is_the_log o id looks s a run :
  store_wf s -> get_run s id = Some run -> (a <= length (sr_events run))%nat ->
  let r := run_stream o id looks s (N.of_nat a) in
  exists run' : StoredRun, get_run (sd_store r) id = Some run' /\
    sse_id <$> sd_sent r = nums (N.of_nat a + 1) (length (sd_sent r)) /\
    Forall (run_frame (sd_store r) id) (sd_sent r) /\
    sd_cursor r = N.of_nat (a + length (sd_sent r)) /\
    (a + length (sd_sent r) <= length (sr_events run'))%nat /\
    (sd_next r = Waits -> (a + length (sd_sent r))%nat = length (sr_events run') /\
       has_terminal (sr_events run') = false).
Proof.
  unfold run_stream. revert s a run.
  induction looks as [|look looks IH]; intros s a run Hs Hrun Ha; simpl.
  { exists run. rewrite Nat.add_0_r. by split_and!. }
  pose proof (apply_ops_grows s (lk_ops look) Hs) as Hg.
  set (s1 := apply_ops s (lk_ops look)) in *. assert (store_wf s1) as Hs1 by by apply apply_ops_wf.
  destruct (Hg id run Hrun) as (run1 & Hrun1 & _ & Hp & _). apply prefix_length in Hp.
  destruct (run_round o id look s1 (N.of_nat a)) as [[sent c] next] eqn:E.
  destruct (run_round_spec _ _ _ _ _ _ _ _ Hs1 E) as (Hids & Hf & -> & Hrest).
  destruct (Hrest run1 Hrun1 ltac:(lia)) as [Hle Hw].
  destruct next; simpl; [|by exists run1; split_and!; auto..].
  destruct (IH s1 (a + length sent)%nat run1 Hs1 Hrun1 Hle)
    as (run' & Hrun' & Hids' & Hf' & Hc & Hle' & Hw').
  exists run'. rewrite length_app, Nat.add_assoc. split_and!; try done.
  - rewrite fmap_app, nums_app, Hids, Hids'. do 2 f_equal. lia.
  - apply Forall_app. split; [|done]. eapply Forall_impl; [exact Hf|]. intros f.
    apply run_frame_grown. by apply stream_loop_grows.
Qed.

(** ** Slots *)

(** The streams of every principal, with the slots that are open: a slot is
    taken, or one that is open is dropped. *)
Inductive slot_step : Streams * list Principal -> Streams * list Principal -> Prop :=
| slot_taken streams open o key streams' :
    take_slot streams o = (Some key, streams') -> slot_step (streams, open) (streams', key :: open)
| slot_refused streams open o streams' :
    take_slot streams o = (None, streams') -> slot_step (streams, open) (streams', open)
| slot_dropped streams before key after :
    slot_step (streams, before ++ key :: after) (drop_slot streams key, before ++ after).

Definition slots_of (open : list Principal) (p : Principal) : N :=
  N.of_nat (length (filter (fun key => key = p) open)).

(** A principal is counted while it has slots, and has at most [MAX_STREAMS]. *)
Definition counted (w : Streams * list Principal) : Prop :=
  forall p, default 0%N (w.1 !! p) = slots_of w.2 p /\ (w.1 !! p <> Some 0%N) /\
    (slots_of w.2 p <= MAX_STREAMS)%N.

Lemma slots_of_cons key open p :
  slots_of (key :: open) p = (slots_of open p + if bool_decide (key = p) then 1 else 0)%N.
Proof. unfold slots_of. rewrite filter_cons. case_decide; case_bool_decide; simpl; first [done|lia]. Qed.

Lemma slots_of_middle before key after p :
  slots_of (before ++ key :: after) p =
    (slots_of (before ++ after) p + if bool_decide (key = p) then 1 else 0)%N.
Proof.
  rewrite <-slots_of_cons. unfold slots_of. f_equal.
  apply Permutation_length, filter_Permutation. by rewrite Permutation_middle.
Qed.

Lemma take_slot_counted streams open o key streams' :
  counted (streams, open) -> take_slot streams o = (key, streams') ->
  match key with
  | Some key => key = principal o /\ (slots_of open key < MAX_STREAMS)%N /\
      counted (streams', key :: open)
  | None => slots_of open (principal o) = MAX_STREAMS /\ streams' = streams
  end.
Proof.
  intros Hc. unfold take_slot. destruct (Hc (principal o)) as (Hn & Hz & Hm). simpl in *.
  rewrite Hn. destruct (N.leb_spec MAX_STREAMS (slots_of open (principal o))) as [Hle|Hlt];
    intros [= <- <-].
  - split; [lia|]. destruct (streams !! principal o) eqn:E; [done|].
    simpl in Hn. rewrite <-Hn in Hle. by apply N.leb_le in Hle.
  - split_and!; [done|done|]. intros p. simpl. rewrite slots_of_cons.
    assert (forall q, q <> principal o ->
      match streams !! principal o with Some _ => streams | None => <[principal o := 0%N]> streams end
        !! q = streams !! q) as Hother.
    { intros q Hq. destruct (streams !! principal o); [done|]. by apply lookup_insert_ne. }
    case_bool_decide as Hp.
    + subst p. rewrite lookup_insert_eq. simpl. split_and!; [done| |lia]. intros [= ?]. lia.
    + rewrite lookup_insert_ne, Hother by congruence. destruct (Hc p) as (? & ? & ?). simpl in *.
      rewrite N.add_0_r. done.
Qed.

Lemma drop_slot_counted streams before key after :
  counted (streams, before ++ key :: after) -> counted (drop_slot streams key, before ++ after).
Proof.
  intros Hc p. destruct (Hc p) as (Hn & Hz & Hm). simpl in *. rewrite slots_of_middle in Hn, Hm.
  destruct (Hc key) as (Hnk & Hzk & Hmk). simpl in *.
  rewrite slots_of_middle, bool_decide_eq_true_2 in Hnk, Hmk by done.
  unfold drop_slot. destruct (streams !! key) as [count|] eqn:E; simpl in Hnk; [|lia].
  assert ((count + u64_max) mod (u64_max + 1) = count - 1)%N as ->.
  { rewrite Hnk. unfold u64_max, MAX_STREAMS in *.
    replace (slots_of (before ++ after) key + 1 + 18446744073709551615)%N
      with (slots_of (before ++ after) key + 1 * 18446744073709551616)%N by lia.
    change (18446744073709551615 + 1)%N with 18446744073709551616%N.
    rewrite N.Div0.mod_add, N.mod_small by lia. lia. }
  case_bool_decide as Hp.
  - subst p. destruct (N.eqb_spec (count - 1) 0).
    + rewrite lookup_delete_eq. simpl. split_and!; [lia|done|lia].
    + rewrite lookup_insert_eq. simpl. split_and!; [lia|congruence|lia].
  - rewrite N.add_0_r in Hn, Hm.
    destruct (_ =? _)%N; [rewrite lookup_delete_ne|rewrite lookup_insert_ne]; done.
Qed.

Lemma slots_counted w : rtc slot_step (∅, []) w -> counted w.
Proof.
  intros Hw. refine (rtc_ind_r counted (∅, []) _ _ _ Hw).
  - intros p. simpl. rewrite lookup_empty. by split_and!.
  - intros w1 w2 _ Hstep Hc. destruct Hstep as [streams open o key streams' E|streams open o streams' E|].
    + by destruct (take_slot_counted _ _ _ _ _ Hc E) as (_ & _ & H).
    + by destruct (take_slot_counted _ _ _ _ _ Hc E) as [_ ->].
    + by apply drop_slot_counted.
Qed.

(** ** The theorems *)

(** C24. A client of the outbox misses nothing: whatever the writers do between its
    reads, wherever a read fails or the client goes away, a stream from the
    cursor [a] sends the events numbered [a + 1], [a + 2] and so on, without a
    gap or a repeat, each as its run's log holds it and each of that principal;
    the cursor it ends with is the last number sent, so a client that comes
    back from there goes on where it was; only a cursor that fell behind what
    was pruned is answered with a reset, which is the last frame; and a stream
    that waits has sent everything its last read found. *)
Theorem outbox_stream_misses_nothing o looks s a :
  store_wf s ->
  let r := outbox_stream o looks s (Some a) in
  let p := principal o in let ob := lock_read (outbox (sd_store r)) in
  exists frames reset,
    sd_sent r = frames ++ reset /\
    sse_id <$> frames = nums (a + 1) (length frames) /\
    Forall (own_frame (sd_store r) p) frames /\
    sd_cursor r = Some (a + N.of_nat (length frames))%N /\
    (reset = [] \/ reset = [reset_frame (pruned_of ob p)] /\ sd_next r = Ended /\
       (a + N.of_nat (length frames) < pruned_of ob p)%N) /\
    (sd_next r = Waits -> (count_of ob p <= a + N.of_nat (length frames))%N).
Proof. exact (outbox_stream_follows o looks s a). Qed.

(** A stream never sleeps through an event: once it waits, whatever operations
    number another event of its principal also send the principal's hint, and
    whatever else arrives with that hint, and in whatever order, the wait is
    over, as it is when the poll is due, hint or none. *)
Theorem nothing_waits_unhinted o looks s a ops signals :
  store_wf s ->
  let r := outbox_stream o looks s (Some a) in
  let s' := apply_ops (sd_store r) ops in
  sd_next r = Waits ->
  (exists sent, hints s' = sent ++ hints (sd_store r) /\
     (forall c, sd_cursor r = Some c ->
        (c < count_of (lock_read (outbox s')) (principal o))%N -> principal_hint o ∈ sent)) /\
  (Hinted (principal_hint o) ∈ signals -> HintsClosed ∉ signals ->
     is_Some (wait true (principal_hint o) signals)) /\
  (forall subscribed, PollDue ∈ signals -> is_Some (wait subscribed (principal_hint o) signals)).
Proof.
  intros Hs r s' Hw. split_and!; [|apply wait_hinted|intros; by apply wait_poll].
  assert (store_wf (sd_store r)) as Hr.
  { unfold r, outbox_stream.
    destruct (stream_loop_store (outbox_round o) looks s (Some a)) as [ops' ->].
    by apply apply_ops_wf. }
  destruct (apply_ops_hinted o (sd_store r) ops Hr) as (sent & Hh & Hlt).
  exists sent. split; [done|]. intros c Hc Hgrown. apply Hlt.
  destruct (outbox_stream_follows o looks s a Hs) as (frames & reset & _ & _ & _ & Hcur & _ & Hall).
  fold r in Hcur, Hall. rewrite Hc in Hcur. injection Hcur as ->. 
  exact (N.le_lt_trans _ _ _ (Hall Hw) Hgrown).
Qed.

(** A principal's streams are counted exactly: after any streams were opened,
    refused and closed, each principal is counted as often as it has streams
    open, at most [MAX_STREAMS] times and only while it has one; another is
    refused exactly when it has [MAX_STREAMS] open, and a refusal changes
    nothing. *)
Theorem streams_are_counted streams open o key streams' :
  rtc slot_step (∅, []) (streams, open) -> take_slot streams o = (key, streams') ->
  (forall p, default 0%N (streams !! p) = slots_of open p /\ (slots_of open p <= MAX_STREAMS)%N /\
     (is_Some (streams !! p) <-> (0 < slots_of open p)%N)) /\
  (key = None <-> slots_of open (principal o) = MAX_STREAMS) /\
  (key = None -> streams' = streams).
Proof.
  intros Hw E. apply slots_counted in Hw as Hc.
  pose proof (take_slot_counted _ _ _ _ _ Hc E) as Hk. split; [|split].
  - intros p. destruct (Hc p) as (Hn & Hz & Hm). simpl in *. split; [done|]. split; [done|].
    rewrite <-Hn. destruct (streams !! p) as [n|]; simpl.
    + assert (n <> 0%N) by congruence. split; [lia|by eexists].
    + split; [by intros []|lia].
  - destruct key; [|by destruct Hk]. destruct Hk as (-> & Hlt & _).
    split; [done|]. intros Heq. exfalso. lia.
  - destruct key; [done|]. intros _. by destruct Hk.
Qed.

(** ** At concrete inputs *)

(** A writer appends between two reads of a stream. *)
Definition demo_looks : list Look :=
  [mkLook [] false 9 [Hinted 7; Lagged];
   mkLook [OpAppend (run_id sample_spec) None [sample_event RunQueued] 6%Z] false 9 [Hinted 7]].

Lemma outbox_stream_misses_nothing_witness :
  sse_id <$> sd_sent (outbox_stream (owner sample_spec) demo_looks sample_store (Some 0%N)) = [1; 2]%N /\
  exists frames reset,
    sd_sent (outbox_stream (owner sample_spec) demo_looks sample_store (Some 0%N)) = frames ++ reset /\
    sse_id <$> frames = nums 1 (length frames).
Proof.
  split; [vm_compute; reflexivity|].
  destruct (outbox_stream_misses_nothing (owner sample_spec) demo_looks sample_store 0 sample_store_wf)
    as (frames & reset & Hsent & Hids & _).
  exists frames, reset. exact (conj Hsent Hids).
Defined.

Lemma nothing_waits_unhinted_witness :
  is_Some (wait true (principal_hint (owner sample_spec))
    [Hinted 7; Hinted (principal_hint (owner sample_spec))]).
Proof.
  refine (proj1 (proj2 (nothing_waits_unhinted (owner sample_spec) demo_looks sample_store 0 []
    [Hinted 7; Hinted (principal_hint (owner sample_spec))] sample_store_wf _)) _ _).
  - vm_compute. reflexivity.
  - apply list_elem_of_further, list_elem_of_here.
  - intros H. repeat (apply elem_of_cons in H as [H|H]; [discriminate|]). by apply elem_of_nil in H.
Defined.

Lemma run_stream_is_the_log_witness :
  sse_id <$> sd_sent (run_stream (owner sample_spec) (run_id sample_spec) demo_looks sample_store 1)
    = [2]%N /\
  exists run', get_run (sd_store (run_stream (owner sample_spec) (run_id sample_spec) demo_looks
                                   sample_store 1)) (run_id sample_spec) = Some run'.
Proof.
  split; [vm_compute; reflexivity|].
  destruct (run_stream_is_the_log (owner sample_spec) (run_id sample_spec) demo_looks sample_store 1
    sample_run sample_store_wf) as (run' & Hrun & _); [vm_compute; reflexivity|simpl; lia|].
  by exists run'.
Defined.

Lemma streams_are_counted_witness :
  (take_slot ∅ (owner sample_spec)).2 !! principal (owner sample_spec) = Some 1%N /\
  slots_of [principal (owner sample_spec)] (principal (owner sample_spec)) <> MAX_STREAMS.
Proof.
  split; [vm_compute; reflexivity|].
  assert (is_Some (take_slot (take_slot ∅ (owner sample_spec)).2 (owner sample_spec)).1) as Hs
    by (vm_compute; by eexists).
  destruct (take_slot (take_slot ∅ (owner sample_spec)).2 (owner sample_spec)) as [key streams'] eqn:E.
  destruct (streams_are_counted (take_slot ∅ (owner sample_spec)).2 [principal (owner sample_spec)]
    (owner sample_spec) key streams') as (_ & Hk & _); [|exact E|].
  - eapply rtc_l; [|apply rtc_refl]. apply (slot_taken _ _ (owner sample_spec)). reflexivity.
  - intros H. apply Hk in H. subst key. by destruct Hs.
Defined.
