(* ===== verification/Queue.v ===== *)
(** * The Redis run queue ([server/queue.rs])

    The queue is a set of Lua scripts, each of which Redis runs as one step.
    Redis itself is a parameter: a [Redis] server has a state [R], the
    commands the scripts call, and a view [db] of its keys; [RedisLaws] says
    what the commands do to that view (their documentation).  [redis_db] is an
    instance of both.  The scripts are translated command by command; the
    theorems are about their effect on the view. *)

From S2P Require Import Prelude Protocol Uuids.

(** ** Redis *)

(** The keys of a server: lists (left end first), hashes by key and field,
    sorted sets by key and member, strings with the time in milliseconds they
    last until, and the clock in microseconds. *)
Record Db : Type := mkDb {
  db_now : N;
  db_lists : gmap string (list string);
  db_hashes : gmap (string * string) string;
  db_counts : gmap (string * string) N;
  db_zsets : gmap (string * string) N;
  db_strings : gmap string (string * N);
}.

Definition now_ms (d : Db) : N := (db_now d / 1000)%N.

Definition list_of (d : Db) (k : string) : list string := default [] (db_lists d !! k).

(** A string key that has not run out. *)
Definition string_of (d : Db) (k : string) : option string :=
  match db_strings d !! k with
  | Some (v, until) => if (now_ms d <? until)%N then Some v else None
  | None => None
  end.

Definition set_list (d : Db) (k : string) (l : list string) : Db :=
  mkDb (db_now d) (<[k := l]> (db_lists d)) (db_hashes d) (db_counts d) (db_zsets d)
    (db_strings d).
Definition set_hashes (d : Db) h : Db :=
  mkDb (db_now d) (db_lists d) h (db_counts d) (db_zsets d) (db_strings d).
Definition set_counts (d : Db) c : Db :=
  mkDb (db_now d) (db_lists d) (db_hashes d) c (db_zsets d) (db_strings d).
Definition set_zsets (d : Db) z : Db :=
  mkDb (db_now d) (db_lists d) (db_hashes d) (db_counts d) z (db_strings d).
Definition set_strings (d : Db) s : Db :=
  mkDb (db_now d) (db_lists d) (db_hashes d) (db_counts d) (db_zsets d) s.

(** [LREM key 1 x]: the first [x] from the left. *)
Fixpoint remove_first (x : string) (l : list string) : list string :=
  match l with
  | [] => []
  | y :: l => if bool_decide (y = x) then l else y :: remove_first x l
  end.

Class Redis (R : Type) : Type := {
  db : R -> Db;
  TIME : R -> N * N;
  ZADD_NX : R -> string -> N -> string -> R;
  ZREM : R -> string -> string -> R;
  LPOS : R -> string -> string -> option nat;
  LPUSH : R -> string -> string -> R;
  RPUSH : R -> string -> string -> R;
  LMOVE_right_left : R -> string -> string -> option string * R;
  LREM_1 : R -> string -> string -> R;
  LRANGE_all : R -> string -> list string;
  SET_NX_PX : R -> string -> string -> N -> bool * R;
  GET : R -> string -> option string;
  DEL : R -> string -> R;
  EXISTS : R -> string -> bool;
  PEXPIRE : R -> string -> N -> N * R;
  HINCRBY_1 : R -> string -> string -> N * R;
  HSET : R -> string -> string -> string -> R;
  HGET : R -> string -> string -> option string;
  HDEL : R -> string -> string -> R;
  RPOP : R -> string -> option string * R;
  ZRANGE_all : R -> string -> list string;
  ZRANGEBYSCORE_upto : R -> string -> Z -> list string;
  HGETALL : R -> string -> list (string * string);
  HGET_count : R -> string -> string -> option N;
  elapse : R -> N -> R;
}.

(** What the commands answer and do, by their documentation.  [elapse] is the
    time that passes between two scripts: the clock moves on, and strings run
    out by it. *)
Class RedisLaws (R : Type) `{Redis R} : Prop := {
  TIME_law r : TIME r = (db_now (db r) / 1000000, db_now (db r) mod 1000000)%N;
  ZADD_law r k score m :
    db (ZADD_NX r k score m) =
      match db_zsets (db r) !! (k, m) with
      | Some _ => db r
      | None => set_zsets (db r) (<[(k, m) := score]> (db_zsets (db r)))
      end;
  ZREM_law r k m : db (ZREM r k m) = set_zsets (db r) (delete (k, m) (db_zsets (db r)));
  LPOS_law r k x : is_Some (LPOS r k x) <-> x ∈ list_of (db r) k;
  LPUSH_law r k x : db (LPUSH r k x) = set_list (db r) k (x :: list_of (db r) k);
  RPUSH_law r k x : db (RPUSH r k x) = set_list (db r) k (list_of (db r) k ++ [x]);
  LMOVE_law r k k' :
    match LMOVE_right_left r k k' with
    | (None, r') => list_of (db r) k = [] /\ db r' = db r
    | (Some x, r') => exists l, list_of (db r) k = l ++ [x] /\
        let d := set_list (db r) k l in db r' = set_list d k' (x :: list_of d k')
    end;
  LREM_law r k x : db (LREM_1 r k x) = set_list (db r) k (remove_first x (list_of (db r) k));
  LRANGE_law r k : LRANGE_all r k = list_of (db r) k;
  SET_law r k v ms :
    match SET_NX_PX r k v ms with
    | (false, r') => is_Some (string_of (db r) k) /\ db r' = db r
    | (true, r') => string_of (db r) k = None /\
        db r' = set_strings (db r) (<[k := (v, now_ms (db r) + ms)%N]> (db_strings (db r)))
    end;
  GET_law r k : GET r k = string_of (db r) k;
  DEL_law r k : db (DEL r k) = set_strings (db r) (delete k (db_strings (db r)));
  EXISTS_law r k : EXISTS r k = bool_decide (is_Some (string_of (db r) k));
  PEXPIRE_law r k ms :
    match string_of (db r) k, PEXPIRE r k ms with
    | None, (n, r') => n = 0%N /\ db r' = db r
    | Some v, (n, r') => n = 1%N /\
        db r' = set_strings (db r) (<[k := (v, now_ms (db r) + ms)%N]> (db_strings (db r)))
    end;
  HINCRBY_law r k f :
    let n := (default 0 (db_counts (db r) !! (k, f)) + 1)%N in
    fst (HINCRBY_1 r k f) = n /\
    db (snd (HINCRBY_1 r k f)) = set_counts (db r) (<[(k, f) := n]> (db_counts (db r)));
  HSET_law r k f v : db (HSET r k f v) = set_hashes (db r) (<[(k, f) := v]> (db_hashes (db r)));
  HGET_law r k f : HGET r k f = db_hashes (db r) !! (k, f);
  HDEL_law r k f :
    db (HDEL r k f) =
      set_counts (set_hashes (db r) (delete (k, f) (db_hashes (db r))))
        (delete (k, f) (db_counts (db r)));
  RPOP_law r k :
    match RPOP r k with
    | (None, r') => list_of (db r) k = [] /\ db r' = db r
    | (Some x, r') => exists l, list_of (db r) k = l ++ [x] /\ db r' = set_list (db r) k l
    end;
  ZRANGE_law r k m : m ∈ ZRANGE_all r k <-> is_Some (db_zsets (db r) !! (k, m));
  ZRANGEBYSCORE_law r k cutoff m :
    m ∈ ZRANGEBYSCORE_upto r k cutoff <->
    exists score, db_zsets (db r) !! (k, m) = Some score /\ (Z.of_N score <= cutoff)%Z;
  HGETALL_law r k f v : (f, v) ∈ HGETALL r k <-> db_hashes (db r) !! (k, f) = Some v;
  HGET_count_law r k f : HGET_count r k f = db_counts (db r) !! (k, f);
  elapse_law r us :
    db (elapse r us) =
      mkDb (db_now (db r) + us) (db_lists (db r)) (db_hashes (db r)) (db_counts (db r))
        (db_zsets (db r)) (db_strings (db r));
}.

(** ** The queue *)

Record QueueTiming : Type := mkQueueTiming {
  lease_time : N; heartbeat : N; reap_every : N; idle_wait : N; max_backoff : N;
  max_deliveries : N; sweep_after : N; forget_after : N;
}.

(** Durations in milliseconds. *)
Definition QueueTiming_default : QueueTiming :=
  mkQueueTiming 30000 10000 15000 500 30000 5 60000 (24 * 60 * 60 * 1000).

(** The keys of a queue. *)
Record RunQueue : Type := mkRunQueue {
  q_runs : string;
  q_processing : string;
  q_deliveries : string;
  q_pending : string;
  q_parked : string;
  q_lease_prefix : string;
}.

Definition with_key (key : string) : RunQueue :=
  let tag := "{" +:+ key +:+ "}" in
  mkRunQueue tag (tag +:+ ":processing") (tag +:+ ":deliveries") (tag +:+ ":pending")
    (tag +:+ ":parked") (tag +:+ ":lease:").

Definition open : RunQueue := with_key "gol:runs".

Definition lease_key (q : RunQueue) (entry : string) : string := q_lease_prefix q +:+ entry.

(** The error of a claim: its message quotes the entry that was dropped. *)
Inductive ClaimError := DroppedEntry (text : string).

(** ** The Lua scripts, with their [KEYS] and [ARGV] in order *)

Section Lua.
Context {R : Type} `{Redis R}.

(** [now[1] * 1000 + math.floor(now[2] / 1000)]. *)
Definition time_ms (r : R) : N := let '(s, us) := TIME r in (s * 1000 + us / 1000)%N.

Definition PEND (r : R) (key1 arg1 : string) : R := ZADD_NX r key1 (time_ms r) arg1.

Definition QUEUED_OR_CLAIMED (r : R) (key1 key2 arg1 : string) : bool :=
  bool_decide (is_Some (LPOS r key1 arg1)) || bool_decide (is_Some (LPOS r key2 arg1)).

Definition PUSH (r : R) (key1 key2 arg1 : string) : R :=
  let r := LPUSH r key1 arg1 in ZREM r key2 arg1.

Definition PUSH_ONCE (r : R) (key1 key2 key3 arg1 : string) : bool * R :=
  let r := ZREM r key2 arg1 in
  if bool_decide (is_Some (LPOS r key1 arg1)) || bool_decide (is_Some (LPOS r key3 arg1))
  then (false, r)
  else (true, LPUSH r key1 arg1).

Definition PENDING_FOR (r : R) (key1 : string) (arg1 : N) : list string :=
  let cutoff := (Z.of_N (time_ms r) - Z.of_N arg1)%Z in
  ZRANGEBYSCORE_upto r key1 cutoff.

Definition CLAIM (r : R) (key1 key2 arg1 arg2 : string) (arg3 : N) : option string * R :=
  match LMOVE_right_left r key1 key2 with
  | (None, r) => (None, r)
  | (Some id, r) =>
      match SET_NX_PX r (arg1 +:+ id) arg2 arg3 with
      | (false, r) => (None, LREM_1 r key2 id)
      | (true, r) => (Some id, r)
      end
  end.

Definition START (r : R) (key1 arg1 : string) : N * R := HINCRBY_1 r key1 arg1.

Definition RELEASE (r : R) (key1 key2 key3 arg1 arg2 : string) : R :=
  if bool_decide (GET r key2 = Some arg2) then
    let r := LREM_1 r key1 arg1 in
    let r := LPUSH r key3 arg1 in
    DEL r key2
  else r.

Definition PARK (r : R) (key1 key2 key3 key4 arg1 arg2 arg3 : string) : bool * R :=
  if bool_decide (GET r key2 <> Some arg2) then (false, r)
  else
    let r := LREM_1 r key1 arg1 in
    let r := HSET r key3 arg1 arg3 in
    let r := DEL r key2 in
    (true, HDEL r key4 arg1).

Definition WAKE (r : R) (key1 key2 arg1 arg2 : string) : bool * R :=
  if bool_decide (HGET r key1 arg1 <> Some arg2) then (false, r)
  else
    let r := HDEL r key1 arg1 in
    (true, LPUSH r key2 arg1).

Definition RENEW (r : R) (key1 arg1 : string) (arg2 : N) : bool * R :=
  if bool_decide (GET r key1 = Some arg1) then
    let '(n, r) := PEXPIRE r key1 arg2 in ((n =? 1)%N, r)
  else (false, r).

Definition ACK (r : R) (key1 key2 key3 arg1 arg2 : string) : R :=
  let r := LREM_1 r key1 arg1 in
  let r := HDEL r key3 arg1 in
  if bool_decide (GET r key2 = Some arg2) then DEL r key2 else r.

(** One turn of [REAP]'s loop. *)
Definition reap_turn (r : R) (key1 key2 arg1 : string) (moved : list string) (id : string) :
    R * list string :=
  if EXISTS r (arg1 +:+ id) then (r, moved)
  else
    let r := LREM_1 r key1 id in
    (RPUSH r key2 id, moved ++ [id]).

Definition REAP (r : R) (key1 key2 arg1 : string) : list string * R :=
  let '(r, moved) :=
    fold_left (fun acc id => reap_turn acc.1 key1 key2 arg1 acc.2 id) (LRANGE_all r key1) (r, []) in
  (moved, r).

End Lua.

(** ** The methods

    An id is the text [id.to_string()] gives.  A call that reaches Redis is
    its script; a call that does not (no connection) is an error to its caller
    and no step here. *)

Section Scripts.
Context {R : Type} `{Redis R} (q : RunQueue).

Definition pend (r : R) (id : string) : R := PEND r (q_pending q) id.

Definition queued_or_claimed (r : R) (id : string) : bool :=
  QUEUED_OR_CLAIMED r (q_runs q) (q_processing q) id.

Definition push (r : R) (id : string) : R := PUSH r (q_runs q) (q_pending q) id.

Definition push_once (r : R) (id : string) : bool * R :=
  PUSH_ONCE r (q_runs q) (q_pending q) (q_processing q) id.

(** [millis]: a lease of at least a millisecond, as a [u64]. *)
Definition millis (ms : N) : N := N.max (N.min ms u64_max) 1.

(** The script call of [claim]; [claim_run] is the whole method. *)
Definition claim (r : R) (token : string) (ms : N) : option string * R :=
  CLAIM r (q_runs q) (q_processing q) (q_lease_prefix q) token (millis ms).

Definition start (r : R) (id : string) : N * R := START r (q_deliveries q) id.

Definition release (r : R) (id token : string) : R :=
  RELEASE r (q_processing q) (lease_key q id) (q_runs q) id token.

Definition park (r : R) (id token ask : string) : bool * R :=
  PARK r (q_processing q) (lease_key q id) (q_parked q) (q_deliveries q) id token ask.

Definition wake (r : R) (id ask : string) : bool * R := WAKE r (q_parked q) (q_runs q) id ask.

Definition renew (r : R) (id token : string) (ms : N) : bool * R :=
  RENEW r (lease_key q id) token (millis ms).

Definition forget (r : R) (entry token : string) : R :=
  ACK r (q_processing q) (lease_key q entry) (q_deliveries q) entry token.

Definition ack (r : R) (id token : string) : R := forget r id token.

Definition reap_one (r : R) (moved : list string) (id : string) : R * list string :=
  reap_turn r (q_processing q) (q_runs q) (q_lease_prefix q) moved id.

(** The script call of [reap]; [reap_runs] is the whole method. *)
Definition reap (r : R) : list string * R := REAP r (q_processing q) (q_runs q) (q_lease_prefix q).

Definition unpend (r : R) (id : string) : R := ZREM r (q_pending q) id.

(** [RedisRunQueue::claim]: an entry that is not a run id is dropped. *)
Definition claim_run `{UuidCrate} (r : R) (token : string) (ms : N)
    : result (option RunId) ClaimError * R :=
  match claim r token ms with
  | (None, r) => (Ok None, r)
  | (Some text, r) =>
      match id_parse text with
      | Some id => (Ok (Some id), r)
      | None => (Err (DroppedEntry text), forget r text token)
      end
  end.

(** [RedisRunQueue::reap]: the runs among the entries it moved. *)
Definition reap_runs `{UuidCrate} (r : R) : list RunId * R :=
  let '(moved, r) := reap r in (omap id_parse moved, r).

(** [RedisRunQueue::now_ms]. *)
Definition redis_now_ms (r : R) : Z := Z.of_N (time_ms r).

Definition unpend_entry (r : R) (entry : string) : R := ZREM r (q_pending q) entry.

(** [pending], [list] with [queued] and [processing], [parked] and [starts]
    read; [pop] takes the oldest run off for good. *)
Definition pending `{UuidCrate} (r : R) : list RunId :=
  omap id_parse (ZRANGE_all r (q_pending q)).

(** The script call of [pending_for]; the method drops what is not a run id. *)
Definition pending_for_entries (r : R) (age : N) : list string :=
  PENDING_FOR r (q_pending q) (N.min age u64_max).

Definition list_ids `{UuidCrate} (r : R) (key : string) : list RunId :=
  omap id_parse (LRANGE_all r key).

Definition queued `{UuidCrate} (r : R) : list RunId := list_ids r (q_runs q).

Definition processing `{UuidCrate} (r : R) : list RunId := list_ids r (q_processing q).

Definition parked_entry `{UuidCrate} (e : string * string) : option (RunId * MessageId) :=
  run ← id_parse e.1; ask ← id_parse e.2; Some (run, ask).

(** [sort_by_key(|(run, _)| run.as_uuid())]. *)
Definition parked_leb (a b : RunId * MessageId) : bool :=
  (uuid_N (as_uuid a.1) <=? uuid_N (as_uuid b.1))%N.

Definition parked `{UuidCrate} (r : R) : list (RunId * MessageId) :=
  sort_by parked_leb (omap parked_entry (HGETALL r (q_parked q))).

Definition starts (r : R) (id : string) : N := default 0%N (HGET_count r (q_deliveries q) id).

(** [pop]: an entry that is not a run id is an error, and gone. *)
Definition pop `{UuidCrate} (r : R) : result (option RunId) string * R :=
  match RPOP r (q_runs q) with
  | (None, r) => (Ok None, r)
  | (Some text, r) =>
      match id_parse text with
      | Some id => (Ok (Some id), r)
      | None => (Err text, r)
      end
  end.

End Scripts.

(** ** An instance *)

(** The members of a sorted set with the scores [p] takes, lowest first. *)
Definition members_upto (d : Db) (k : string) (p : N -> bool) : list string :=
  let members :=
    omap (fun e => if bool_decide (e.1.1 = k) && p e.2 then Some (e.2, e.1.2) else None)
      (map_to_list (db_zsets d)) in
  (sort_by (fun a b => (a.1 <=? b.1)%N) members).*2.

Lemma members_upto_elem d k p m :
  m ∈ members_upto d k p <-> exists score, db_zsets d !! (k, m) = Some score /\ p score = true.
Proof.
  unfold members_upto. rewrite list_elem_of_fmap. split.
  - intros ([score m'] & -> & Hin). rewrite sort_by_perm in Hin.
    apply list_elem_of_omap in Hin as ([[k' f] v] & Hv%elem_of_map_to_list & Hs).
    destruct (bool_decide _ && p _) eqn:E in Hs; simplify_eq/=. bool_to_prop. subst. eauto.
  - intros (score & Hs & Hp). exists (score, m). split; [done|]. rewrite sort_by_perm.
    apply list_elem_of_omap. exists ((k, m), score). rewrite elem_of_map_to_list. split; [done|].
    simpl. by rewrite bool_decide_true, Hp.
Qed.

(** The view itself as a server. *)
#[export] Instance redis_db : Redis Db := {|
  db d := d;
  TIME d := (db_now d / 1000000, db_now d mod 1000000)%N;
  ZADD_NX d k score m :=
    match db_zsets d !! (k, m) with
    | Some _ => d
    | None => set_zsets d (<[(k, m) := score]> (db_zsets d))
    end;
  ZREM d k m := set_zsets d (delete (k, m) (db_zsets d));
  LPOS d k x := position (fun y => bool_decide (y = x)) (list_of d k);
  LPUSH d k x := set_list d k (x :: list_of d k);
  RPUSH d k x := set_list d k (list_of d k ++ [x]);
  LMOVE_right_left d k k' :=
    match last (list_of d k) with
    | None => (None, d)
    | Some x =>
        let d := set_list d k (take (length (list_of d k) - 1) (list_of d k)) in
        (Some x, set_list d k' (x :: list_of d k'))
    end;
  LREM_1 d k x := set_list d k (remove_first x (list_of d k));
  LRANGE_all d k := list_of d k;
  SET_NX_PX d k v ms :=
    match string_of d k with
    | Some _ => (false, d)
    | None => (true, set_strings d (<[k := (v, now_ms d + ms)%N]> (db_strings d)))
    end;
  GET d k := string_of d k;
  DEL d k := set_strings d (delete k (db_strings d));
  EXISTS d k := bool_decide (is_Some (string_of d k));
  PEXPIRE d k ms :=
    match string_of d k with
    | None => (0%N, d)
    | Some v => (1%N, set_strings d (<[k := (v, now_ms d + ms)%N]> (db_strings d)))
    end;
  HINCRBY_1 d k f :=
    let n := (default 0 (db_counts d !! (k, f)) + 1)%N in
    (n, set_counts d (<[(k, f) := n]> (db_counts d)));
  HSET d k f v := set_hashes d (<[(k, f) := v]> (db_hashes d));
  HGET d k f := db_hashes d !! (k, f);
  HDEL d k f :=
    set_counts (set_hashes d (delete (k, f) (db_hashes d))) (delete (k, f) (db_counts d));
  RPOP d k :=
    match last (list_of d k) with
    | None => (None, d)
    | Some x => (Some x, set_list d k (take (length (list_of d k) - 1) (list_of d k)))
    end;
  ZRANGE_all d k := members_upto d k (fun _ => true);
  ZRANGEBYSCORE_upto d k cutoff := members_upto d k (fun score => (Z.of_N score <=? cutoff)%Z);
  HGETALL d k :=
    omap (fun e => if bool_decide (e.1.1 = k) then Some (e.1.2, e.2) else None)
      (map_to_list (db_hashes d));
  HGET_count d k f := db_counts d !! (k, f);
  elapse d us :=
    mkDb (db_now d + us) (db_lists d) (db_hashes d) (db_counts d) (db_zsets d) (db_strings d);
|}.

#[export] Instance redis_db_laws : RedisLaws Db.
Proof.
  split; try done.
  - intros d k x. simpl. destruct (position _ _) as [i|] eqn:E.
    + apply position_Some in E as (_ & y & Hy & Hp). bool_to_prop. subst.
      split; [|done]. intros _. by eapply list_elem_of_lookup_2.
    + split; [by intros []|]. intros Hx. apply position_None, existsb_false_Forall in E.
      rewrite Forall_forall in E. specialize (E x Hx). by rewrite bool_decide_true in E.
  - intros d k k'. simpl. destruct (list_of d k) as [|x l _] eqn:E using rev_ind; [done|].
    rewrite last_snoc, length_app. simpl. rewrite Nat.add_sub, take_app_length. by exists l.
  - intros d k v ms. simpl. by destruct (string_of d k).
  - intros d k ms. simpl. by destruct (string_of d k).
  - intros d k. simpl. destruct (list_of d k) as [|x l _] eqn:E using rev_ind; [done|].
    rewrite last_snoc, length_app. simpl. rewrite Nat.add_sub, take_app_length. by exists l.
  - intros d k m. simpl. rewrite members_upto_elem. split; [intros (? & -> & _); eauto|].
    intros [score ->]. eauto.
  - intros d k cutoff m. simpl. rewrite members_upto_elem.
    split; intros (score & Hs & Hp); exists score; (split; [done|]); lia.
  - intros d k f v. simpl. rewrite list_elem_of_omap. split.
    + intros ([[k' f'] v'] & Hv%elem_of_map_to_list & Hs). simpl in Hs.
      case_bool_decide; simplify_eq/=. done.
    + intros Hv. exists ((k, f), v). rewrite elem_of_map_to_list. split; [done|]. simpl.
      by rewrite bool_decide_true.
Qed.
