(* ===== verification/QueueProofs.v ===== *)
(** * What the run queue guarantees

    No script loses a run, a lease excludes every other worker while it lasts,
    a worker whose lease is gone changes nothing, and the reaper hands back
    exactly the runs whose lease ran out.  The theorems hold for every server
    that obeys [RedisLaws]. *)

From S2P Require Import Prelude Protocol Uuids Queue.

(** ** The view after a command *)

Lemma list_of_set_eq d k l : list_of (set_list d k l) k = l.
Proof. unfold list_of. simpl. by rewrite lookup_insert_eq. Qed.

Lemma list_of_set_ne d k k' l : k <> k' -> list_of (set_list d k l) k' = list_of d k'.
Proof. intros. unfold list_of. simpl. by rewrite lookup_insert_ne. Qed.

Lemma string_of_insert d k k' v until :
  string_of (set_strings d (<[k := (v, until)]> (db_strings d))) k' =
    if bool_decide (k = k') then (if (now_ms d <? until)%N then Some v else None)
    else string_of d k'.
Proof.
  unfold string_of. simpl. case_bool_decide.
  - subst. by rewrite lookup_insert_eq.
  - by rewrite lookup_insert_ne.
Qed.

Lemma string_of_delete d k k' :
  string_of (set_strings d (delete k (db_strings d))) k' =
    if bool_decide (k = k') then None else string_of d k'.
Proof.
  unfold string_of. simpl. case_bool_decide.
  - subst. by rewrite lookup_delete_eq.
  - by rewrite lookup_delete_ne.
Qed.

Lemma remove_first_in x y l : y ∈ remove_first x l -> y ∈ l.
Proof.
  induction l as [|z l IH]; simpl; [done|]. case_bool_decide; [set_solver|].
  rewrite !elem_of_cons. naive_solver.
Qed.

Lemma remove_first_ne x y l : x <> y -> y ∈ l -> y ∈ remove_first x l.
Proof.
  intros Hne. induction l as [|z l IH]; simpl; [done|]. rewrite elem_of_cons.
  case_bool_decide; [naive_solver|]. rewrite elem_of_cons. naive_solver.
Qed.

Lemma remove_first_head x l : remove_first x (x :: l) = l.
Proof. simpl. by rewrite bool_decide_true. Qed.

(** ** Keys *)

(** The keys of a queue do not clash. *)
Record keys_ok (q : RunQueue) : Prop := mkKeysOk {
  runs_processing : q_runs q <> q_processing q;
  parked_deliveries : q_parked q <> q_deliveries q;
}.

Lemma with_key_ok key : keys_ok (with_key key).
Proof.
  split; simpl; intros E%(f_equal string_bytes); rewrite !string_bytes_app in E.
  - apply (f_equal length) in E. rewrite !length_app, !length_string_bytes in E. simpl in E. lia.
  - apply app_inv_head in E. discriminate E.
Qed.

Lemma lease_key_inj q id id' : lease_key q id = lease_key q id' -> id = id'.
Proof.
  unfold lease_key. intros E%(f_equal string_bytes). rewrite !string_bytes_app in E.
  apply app_inv_head in E. by apply (inj string_bytes).
Qed.

Section Queue.
Context {R : Type} `{Redis R} `{!RedisLaws R} (q : RunQueue) (Hq : keys_ok q).
Implicit Types (r : R) (id : string).

(** What a queue holds. *)
Definition waiting r : list string := list_of (db r) (q_runs q).
Definition claimed r : list string := list_of (db r) (q_processing q).
Definition parked_on r id : option string := db_hashes (db r) !! (q_parked q, id).
Definition lease_of r id : option string := string_of (db r) (lease_key q id).

(** The view of a run's place, all a script can change of it. *)
Record view r (runs processing : list string) (hashes : gmap (string * string) string)
    (strings : gmap string (string * N)) (now : N) : Prop := mkView {
  view_runs : waiting r = runs;
  view_processing : claimed r = processing;
  view_hashes : db_hashes (db r) = hashes;
  view_strings : db_strings (db r) = strings;
  view_now : db_now (db r) = now;
}.

Lemma view_self r :
  view r (waiting r) (claimed r) (db_hashes (db r)) (db_strings (db r)) (db_now (db r)).
Proof. done. Qed.

Section Commands.
Context (r : R) (runs processing : list string) (hashes : gmap (string * string) string)
  (strings : gmap string (string * N)) (now : N).
Context (Hv : view r runs processing hashes strings now).

Ltac command law :=
  destruct Hv as [Hr Hp Hh Hs Hn]; unfold waiting, claimed in *;
  split; unfold waiting, claimed; rewrite law; simpl;
  rewrite ?list_of_set_eq, ?list_of_set_ne by (apply Hq || (apply not_eq_sym, Hq));
  by rewrite ?Hr, ?Hp, ?Hh, ?Hs, ?Hn.

Lemma view_lpush_runs id : view (LPUSH r (q_runs q) id) (id :: runs) processing hashes strings now.
Proof. command LPUSH_law. Qed.

Lemma view_rpush_runs id :
  view (RPUSH r (q_runs q) id) (runs ++ [id]) processing hashes strings now.
Proof. command RPUSH_law. Qed.

Lemma view_lrem id :
  view (LREM_1 r (q_processing q) id) runs (remove_first id processing) hashes strings now.
Proof. command LREM_law. Qed.

Lemma view_zrem id : view (ZREM r (q_pending q) id) runs processing hashes strings now.
Proof. command ZREM_law. Qed.

Lemma view_del k : view (DEL r k) runs processing hashes (delete k strings) now.
Proof. command DEL_law. Qed.

Lemma view_hset k f v :
  view (HSET r k f v) runs processing (<[(k, f) := v]> hashes) strings now.
Proof. command HSET_law. Qed.

Lemma view_hdel k f : view (HDEL r k f) runs processing (delete (k, f) hashes) strings now.
Proof. command HDEL_law. Qed.

Lemma view_elapse us : view (elapse r us) runs processing hashes strings (now + us).
Proof. command elapse_law. Qed.

End Commands.
(** ** The view after a script *)

Lemma view_eq r r' : db r' = db r ->
  view r' (waiting r) (claimed r) (db_hashes (db r)) (db_strings (db r)) (db_now (db r)).
Proof. intros E. split; unfold waiting, claimed; by rewrite E. Qed.

Lemma push_view r id :
  view (push q r id) (id :: waiting r) (claimed r) (db_hashes (db r)) (db_strings (db r))
    (db_now (db r)).
Proof. apply view_zrem, view_lpush_runs, view_self. Qed.

Lemma push_once_view r id b r' :
  push_once q r id = (b, r') ->
  view r' (if b then id :: waiting r else waiting r) (claimed r) (db_hashes (db r))
    (db_strings (db r)) (db_now (db r)) /\
  (b = false <-> id ∈ waiting r \/ id ∈ claimed r).
Proof.
  pose proof (view_zrem _ _ _ _ _ _ (view_self r) id) as Hz. unfold push_once, PUSH_ONCE.
  assert (is_Some (LPOS (ZREM r (q_pending q) id) (q_runs q) id) <-> id ∈ waiting r) as Hw.
  { rewrite LPOS_law. by rewrite (view_runs _ _ _ _ _ _ Hz : list_of _ _ = _). }
  assert (is_Some (LPOS (ZREM r (q_pending q) id) (q_processing q) id) <-> id ∈ claimed r) as Hc.
  { rewrite LPOS_law. by rewrite (view_processing _ _ _ _ _ _ Hz : list_of _ _ = _). }
  destruct (bool_decide _ || bool_decide _) eqn:E; intros [= <- <-].
  - split; [done|]. apply orb_true_iff in E. rewrite !bool_decide_eq_true, Hw, Hc in E. done.
  - split; [by apply view_lpush_runs|]. apply orb_false_iff in E.
    rewrite !bool_decide_eq_false, Hw, Hc in E. naive_solver.
Qed.

Lemma claim_view r token ms c r' :
  claim q r token ms = (c, r') ->
  (c = None /\ waiting r = [] /\ db r' = db r) \/
  exists l id, waiting r = l ++ [id] /\
    ((c = None /\ is_Some (lease_of r id) /\
      view r' l (claimed r) (db_hashes (db r)) (db_strings (db r)) (db_now (db r))) \/
     (c = Some id /\ lease_of r id = None /\
      view r' l (id :: claimed r) (db_hashes (db r))
        (<[lease_key q id := (token, now_ms (db r) + millis ms)%N]> (db_strings (db r)))
        (db_now (db r)))).
Proof.
  intros Heq. unfold claim, CLAIM in Heq.
  pose proof (LMOVE_law r (q_runs q) (q_processing q)) as Hm.
  destruct (LMOVE_right_left r (q_runs q) (q_processing q)) as [[id|] r1].
  2: { destruct Hm as [Hw Hd]. injection Heq as <- <-. by left. }
  destruct Hm as (l & Hw & Hd). simpl in Hd. right. exists l, id. split; [done|].
  rewrite list_of_set_ne in Hd by apply Hq.
  assert (view r1 l (id :: claimed r) (db_hashes (db r)) (db_strings (db r)) (db_now (db r))) as Hv.
  { split; unfold waiting, claimed; rewrite Hd; simpl; [|by rewrite list_of_set_eq|done..].
    rewrite list_of_set_ne by (apply not_eq_sym, Hq). by rewrite list_of_set_eq. }
  assert (string_of (db r1) (lease_key q id) = lease_of r id) as Hl.
  { unfold lease_of, string_of, now_ms. by rewrite Hd. }
  assert (now_ms (db r1) = now_ms (db r)) as Hnow by (unfold now_ms; by rewrite Hd).
  change (q_lease_prefix q +:+ id) with (lease_key q id) in Heq.
  pose proof (SET_law r1 (lease_key q id) token (millis ms)) as Hs.
  destruct (SET_NX_PX r1 (lease_key q id) token (millis ms)) as [[] r2];
    destruct Hs as [Hlive Hd2]; rewrite Hl in Hlive; injection Heq as <- <-.
  - right. split_and!; [done|done|]. destruct Hv as [H1 H2 H3 H4 H5].
    unfold waiting, claimed in *.
    split; unfold waiting, claimed; rewrite Hd2; try done. simpl. by rewrite H4, Hnow.
  - left. split_and!; [done|done|].
    assert (view r2 l (id :: claimed r) (db_hashes (db r)) (db_strings (db r)) (db_now (db r)))
      as Hv2.
    { destruct Hv as [H1 H2 H3 H4 H5]. unfold waiting, claimed in *.
      split; unfold waiting, claimed; by rewrite Hd2. }
    pose proof (view_lrem _ _ _ _ _ _ Hv2 id) as Hv3. by rewrite remove_first_head in Hv3.
Qed.

Lemma release_view r id token :
  (lease_of r id = Some token /\
   view (release q r id token) (id :: waiting r) (remove_first id (claimed r)) (db_hashes (db r))
     (delete (lease_key q id) (db_strings (db r))) (db_now (db r))) \/
  (lease_of r id <> Some token /\ release q r id token = r).
Proof.
  unfold release, RELEASE. rewrite GET_law. fold (lease_of r id). case_bool_decide; [left|by right].
  split; [done|]. apply view_del, view_lpush_runs, view_lrem, view_self.
Qed.

Lemma park_view r id token ask b r' :
  park q r id token ask = (b, r') ->
  (b = true /\ lease_of r id = Some token /\
   view r' (waiting r) (remove_first id (claimed r))
     (delete (q_deliveries q, id) (<[(q_parked q, id) := ask]> (db_hashes (db r))))
     (delete (lease_key q id) (db_strings (db r))) (db_now (db r))) \/
  (b = false /\ lease_of r id <> Some token /\ r' = r).
Proof.
  unfold park, PARK. rewrite GET_law. fold (lease_of r id). case_bool_decide; intros [= <- <-];
    [by right|left].
  split_and!; [done|destruct (decide (lease_of r id = Some token)); tauto|].
  apply view_hdel, view_del, view_hset, view_lrem, view_self.
Qed.

Lemma wake_view r id ask b r' :
  wake q r id ask = (b, r') ->
  (b = true /\ parked_on r id = Some ask /\
   view r' (id :: waiting r) (claimed r) (delete (q_parked q, id) (db_hashes (db r)))
     (db_strings (db r)) (db_now (db r))) \/
  (b = false /\ parked_on r id <> Some ask /\ r' = r).
Proof.
  unfold wake, WAKE. rewrite HGET_law. fold (parked_on r id). case_bool_decide; intros [= <- <-];
    [by right|left].
  split_and!; [done|destruct (decide (parked_on r id = Some ask)); tauto|].
  apply view_lpush_runs, view_hdel, view_self.
Qed.

Lemma renew_view r id token ms b r' :
  renew q r id token ms = (b, r') ->
  (b = true /\ lease_of r id = Some token /\
   view r' (waiting r) (claimed r) (db_hashes (db r))
     (<[lease_key q id := (token, now_ms (db r) + millis ms)%N]> (db_strings (db r)))
     (db_now (db r))) \/
  (b = false /\ lease_of r id <> Some token /\ r' = r).
Proof.
  unfold renew, RENEW. rewrite GET_law. fold (lease_of r id). case_bool_decide as Hl.
  2: { intros [= <- <-]. by right. }
  pose proof (PEXPIRE_law r (lease_key q id) (millis ms)) as Hp. fold (lease_of r id) in Hp.
  rewrite Hl in Hp. destruct (PEXPIRE r (lease_key q id) (millis ms)) as [n r1].
  destruct Hp as [-> Hd]. intros [= <- <-]. left. split_and!; [done|done|].
  split; unfold waiting, claimed; by rewrite Hd.
Qed.

Lemma ack_view r id token :
  exists strings,
    view (ack q r id token) (waiting r) (remove_first id (claimed r))
      (delete (q_deliveries q, id) (db_hashes (db r))) strings (db_now (db r)) /\
    strings = if bool_decide (lease_of r id = Some token)
              then delete (lease_key q id) (db_strings (db r)) else db_strings (db r).
Proof.
  pose proof (view_hdel _ _ _ _ _ _ (view_lrem _ _ _ _ _ _ (view_self r) id)
    (q_deliveries q) id) as Hv.
  set (r1 := HDEL (LREM_1 r (q_processing q) id) (q_deliveries q) id) in Hv.
  assert (GET r1 (lease_key q id) = lease_of r id) as Hg.
  { rewrite GET_law. unfold lease_of, string_of, now_ms. by destruct Hv as [_ _ _ -> ->]. }
  eexists. split; [|done]. unfold ack, forget, ACK. fold r1. rewrite Hg. case_bool_decide; [|done].
  by apply view_del.
Qed.

(** ** Reaping *)

Definition dead r id : bool := bool_decide (lease_of r id = None).

Lemma lease_of_view r r' runs processing hashes id :
  view r' runs processing hashes (db_strings (db r)) (db_now (db r)) ->
  lease_of r' id = lease_of r id.
Proof.
  intros Hv. unfold lease_of, string_of, now_ms. by destruct Hv as [_ _ _ -> ->].
Qed.

(** Removing the dead entries one by one, from the left. *)
Lemma remove_dead (p : string -> bool) pre id l :
  Forall (fun x => p x = false) pre -> p id = true ->
  remove_first id (pre ++ id :: l) = pre ++ l.
Proof.
  intros Hpre Hid. induction Hpre as [|x pre Hx _ IH]; simpl.
  - by rewrite bool_decide_true.
  - rewrite bool_decide_false by congruence. by rewrite IH.
Qed.

Lemma reap_one_eq r moved id :
  reap_one q r moved id =
  if EXISTS r (lease_key q id) then (r, moved)
  else (RPUSH (LREM_1 r (q_processing q) id) (q_runs q) id, moved ++ [id]).
Proof. done. Qed.

Lemma reap_loop r0 r runs kept todo moved r' moved' :
  view r runs (kept ++ todo) (db_hashes (db r0)) (db_strings (db r0)) (db_now (db r0)) ->
  Forall (fun x => dead r0 x = false) kept ->
  fold_left (fun acc id => reap_one q acc.1 acc.2 id) todo (r, moved) = (r', moved') ->
  view r' (runs ++ List.filter (dead r0) todo)
    (kept ++ List.filter (fun x => negb (dead r0 x)) todo)
    (db_hashes (db r0)) (db_strings (db r0)) (db_now (db r0)) /\
  moved' = moved ++ List.filter (dead r0) todo.
Proof.
  revert r runs kept moved; induction todo as [|id todo IH]; intros r runs kept moved Hv Hk; simpl.
  { intros [= <- <-]. by rewrite !app_nil_r in *. }
  assert (EXISTS r (lease_key q id) = negb (dead r0 id)) as He.
  { rewrite EXISTS_law. change (string_of (db r) (lease_key q id)) with (lease_of r id).
    rewrite (lease_of_view r0 r _ _ _ id Hv). unfold dead.
    destruct (lease_of r0 id); [by rewrite bool_decide_true|]. by rewrite bool_decide_false. }
  rewrite (reap_one_eq r moved id), He. destruct (dead r0 id) eqn:Hd; simpl.
  - intros Hf. eapply (IH _ (runs ++ [id]) kept (moved ++ [id])) in Hf; [|  |done].
    + by rewrite <-!app_assoc in Hf.
    + rewrite <-(remove_dead (dead r0) kept id todo) by done. by apply view_rpush_runs, view_lrem.
  - intros Hf. eapply (IH r runs (kept ++ [id]) moved) in Hf.
    + by rewrite <-app_assoc in Hf.
    + by rewrite <-app_assoc.
    + apply Forall_app. auto.
Qed.

Lemma reap_view r moved r' :
  reap q r = (moved, r') ->
  view r' (waiting r ++ List.filter (dead r) (claimed r))
    (List.filter (fun x => negb (dead r x)) (claimed r))
    (db_hashes (db r)) (db_strings (db r)) (db_now (db r)) /\
  moved = List.filter (dead r) (claimed r).
Proof.
  unfold reap, REAP. rewrite LRANGE_law. fold (claimed r).
  destruct (fold_left _ (claimed r) (r, [])) as [r1 moved1] eqn:E. intros [= <- <-].
  by apply (reap_loop r r (waiting r) [] (claimed r) [] r1 moved1) in E.
Qed.

(** ** Sequences of scripts *)

Inductive QueueOp :=
| QPend (id : string)
| QUnpend (id : string)
| QPush (id : string)
| QPushOnce (id : string)
| QClaim (token : string) (ms : N)
| QStart (id : string)
| QRelease (id token : string)
| QPark (id token ask : string)
| QWake (id ask : string)
| QRenew (id token : string) (ms : N)
| QAck (id token : string)
| QReap
| QElapse (us : N).

(** A script's effect, and the run it claimed, if it did. *)
Definition queue_step r (op : QueueOp) : option string * R :=
  match op with
  | QPend id => (None, pend q r id)
  | QUnpend id => (None, unpend q r id)
  | QPush id => (None, push q r id)
  | QPushOnce id => (None, snd (push_once q r id))
  | QClaim token ms => claim q r token ms
  | QStart id => (None, snd (start q r id))
  | QRelease id token => (None, release q r id token)
  | QPark id token ask => (None, snd (park q r id token ask))
  | QWake id ask => (None, snd (wake q r id ask))
  | QRenew id token ms => (None, snd (renew q r id token ms))
  | QAck id token => (None, ack q r id token)
  | QReap => (None, snd (reap q r))
  | QElapse us => (None, elapse r us)
  end.

Definition queue_steps r (ops : list QueueOp) : R :=
  fold_left (fun r op => snd (queue_step r op)) ops r.

Lemma pend_view r id :
  view (pend q r id) (waiting r) (claimed r) (db_hashes (db r)) (db_strings (db r)) (db_now (db r)).
Proof.
  unfold pend, PEND. split; unfold waiting, claimed; rewrite ZADD_law; by destruct (_ !! _).
Qed.

Lemma start_view r id :
  view (snd (start q r id)) (waiting r) (claimed r) (db_hashes (db r)) (db_strings (db r))
    (db_now (db r)).
Proof.
  unfold start, START. destruct (HINCRBY_law r (q_deliveries q) id) as [_ Hd].
  split; unfold waiting, claimed; by rewrite Hd.
Qed.

(** A lease in the view. *)
Definition lease_in (strings : gmap string (string * N)) (now : N) id : option string :=
  match strings !! lease_key q id with
  | Some (v, until) => if (now / 1000 <? until)%N then Some v else None
  | None => None
  end.

Lemma lease_of_in r runs processing hashes strings now id :
  view r runs processing hashes strings now -> lease_of r id = lease_in strings now id.
Proof. intros [_ _ _ Hs Hn]. unfold lease_of, string_of, now_ms, lease_in. by rewrite Hs, Hn. Qed.

Lemma lease_in_insert strings now id id' v until :
  lease_in (<[lease_key q id' := (v, until)]> strings) now id =
    if bool_decide (id' = id) then (if (now / 1000 <? until)%N then Some v else None)
    else lease_in strings now id.
Proof.
  unfold lease_in. case_bool_decide as E.
  - subst. by rewrite lookup_insert_eq.
  - rewrite lookup_insert_ne; [done|]. by intros ?%lease_key_inj.
Qed.

Lemma lease_in_delete strings now id id' :
  lease_in (delete (lease_key q id') strings) now id =
    if bool_decide (id' = id) then None else lease_in strings now id.
Proof.
  unfold lease_in. case_bool_decide as E.
  - subst. by rewrite lookup_delete_eq.
  - rewrite lookup_delete_ne; [done|]. by intros ?%lease_key_inj.
Qed.

(** ** What a step does

    Every script's effect on the view, in one relation: [effect r op c] relates
    a step of [op] that claims [c] to the lists, hashes, strings and clock it
    leaves. *)

Inductive effect r : QueueOp -> option string -> list string -> list string ->
    gmap (string * string) string -> gmap string (string * N) -> N -> Prop :=
| effect_none op :
    effect r op None (waiting r) (claimed r) (db_hashes (db r)) (db_strings (db r)) (db_now (db r))
| effect_push op id :
    op = QPush id \/ op = QPushOnce id ->
    effect r op None (id :: waiting r) (claimed r) (db_hashes (db r)) (db_strings (db r))
      (db_now (db r))
| effect_drop op l id :
    waiting r = l ++ [id] -> is_Some (lease_of r id) ->
    effect r op None l (claimed r) (db_hashes (db r)) (db_strings (db r)) (db_now (db r))
| effect_claim token ms l id :
    waiting r = l ++ [id] -> lease_of r id = None ->
    effect r (QClaim token ms) (Some id) l (id :: claimed r) (db_hashes (db r))
      (<[lease_key q id := (token, now_ms (db r) + millis ms)%N]> (db_strings (db r)))
      (db_now (db r))
| effect_release id token :
    lease_of r id = Some token ->
    effect r (QRelease id token) None (id :: waiting r) (remove_first id (claimed r))
      (db_hashes (db r)) (delete (lease_key q id) (db_strings (db r))) (db_now (db r))
| effect_park id token ask :
    lease_of r id = Some token ->
    effect r (QPark id token ask) None (waiting r) (remove_first id (claimed r))
      (delete (q_deliveries q, id) (<[(q_parked q, id) := ask]> (db_hashes (db r))))
      (delete (lease_key q id) (db_strings (db r))) (db_now (db r))
| effect_wake op id :
    is_Some (parked_on r id) ->
    effect r op None (id :: waiting r) (claimed r) (delete (q_parked q, id) (db_hashes (db r)))
      (db_strings (db r)) (db_now (db r))
| effect_renew id token ms :
    lease_of r id = Some token ->
    effect r (QRenew id token ms) None (waiting r) (claimed r) (db_hashes (db r))
      (<[lease_key q id := (token, now_ms (db r) + millis ms)%N]> (db_strings (db r)))
      (db_now (db r))
| effect_ack id token :
    effect r (QAck id token) None (waiting r) (remove_first id (claimed r))
      (delete (q_deliveries q, id) (db_hashes (db r)))
      (if bool_decide (lease_of r id = Some token)
       then delete (lease_key q id) (db_strings (db r)) else db_strings (db r))
      (db_now (db r))
| effect_reap :
    effect r QReap None (waiting r ++ List.filter (dead r) (claimed r))
      (List.filter (fun x => negb (dead r x)) (claimed r))
      (db_hashes (db r)) (db_strings (db r)) (db_now (db r))
| effect_elapse us :
    effect r (QElapse us) None (waiting r) (claimed r) (db_hashes (db r)) (db_strings (db r))
      (db_now (db r) + us).

Lemma queue_step_effect r op :
  exists runs processing hashes strings now,
    effect r op (fst (queue_step r op)) runs processing hashes strings now /\
    view (snd (queue_step r op)) runs processing hashes strings now.
Proof.
  assert (exists runs processing hashes strings now,
    effect r op None runs processing hashes strings now /\
    view r runs processing hashes strings now) as Hsame
    by (do 5 eexists; split; [apply effect_none|apply view_self]).
  destruct op as [i|i|i|i|t ms|i|i t|i t ask|i ask|i t ms|i t| |us]; simpl.
  - do 5 eexists; split; [apply effect_none|apply pend_view].
  - do 5 eexists; split; [apply effect_none|apply view_zrem, view_self].
  - do 5 eexists; split; [apply effect_push; by left|apply push_view].
  - destruct (push_once q r i) as [[] r'] eqn:E; apply push_once_view in E as [Hv _];
      do 5 eexists; (split; [|exact Hv]); [apply effect_push; by right|apply effect_none].
  - destruct (claim q r t ms) as [c r'] eqn:E.
    apply claim_view in E as [(-> & _ & Hd)|(l & i & Hw & [(-> & Hi & Hv)|(-> & Hi & Hv)])].
    + do 5 eexists; split; [apply effect_none|by apply view_eq].
    + do 5 eexists; split; [by apply (effect_drop r _ l i)|done].
    + do 5 eexists; split; [by apply (effect_claim r t ms l i)|done].
  - do 5 eexists; split; [apply effect_none|apply start_view].
  - destruct (release_view r i t) as [[Hi Hv]|[_ ->]]; [|done].
    do 5 eexists; split; [by apply effect_release|done].
  - destruct (park q r i t ask) as [b r'] eqn:E.
    apply park_view in E as [(_ & Hi & Hv)|(_ & _ & ->)]; [|done].
    do 5 eexists; split; [by apply effect_park|done].
  - destruct (wake q r i ask) as [b r'] eqn:E.
    apply wake_view in E as [(_ & Hi & Hv)|(_ & _ & ->)]; [|done].
    do 5 eexists; split; [by apply effect_wake|done].
  - destruct (renew q r i t ms) as [b r'] eqn:E.
    apply renew_view in E as [(_ & Hi & Hv)|(_ & _ & ->)]; [|done].
    do 5 eexists; split; [by apply effect_renew|done].
  - destruct (ack_view r i t) as (strings & Hv & ->).
    do 5 eexists; split; [apply effect_ack|done].
  - destruct (reap q r) as [moved r'] eqn:E. apply reap_view in E as [Hv _].
    do 5 eexists; split; [apply effect_reap|done].
  - do 5 eexists; split; [apply effect_elapse|apply view_elapse, view_self].
Qed.

(** ** No run is lost *)

Definition kept r id : Prop :=
  id ∈ waiting r \/ id ∈ claimed r \/ is_Some (parked_on r id).

(** A run with a live lease is in processing. *)
Definition leased_claimed r id : Prop := is_Some (lease_of r id) -> id ∈ claimed r.

Definition acks id (op : QueueOp) : Prop := exists token, op = QAck id token.

(** The same, of a view. *)
Definition safe_view (runs processing : list string) (hashes : gmap (string * string) string)
    (strings : gmap string (string * N)) (now : N) id : Prop :=
  (id ∈ runs \/ id ∈ processing \/ is_Some (hashes !! (q_parked q, id))) /\
  (is_Some (lease_in strings now id) -> id ∈ processing).

Lemma safe_of_view r runs processing hashes strings now id :
  view r runs processing hashes strings now ->
  safe_view runs processing hashes strings now id <-> kept r id /\ leased_claimed r id.
Proof.
  intros Hv. unfold safe_view, kept, leased_claimed. rewrite (lease_of_in _ _ _ _ _ _ id Hv).
  unfold parked_on. by destruct Hv as [-> -> -> _ _].
Qed.

Lemma elapse_lease strings now us id :
  is_Some (lease_in strings (now + us) id) -> is_Some (lease_in strings now id).
Proof.
  unfold lease_in. destruct (strings !! _) as [[v until]|]; [|done].
  destruct (_ <? until)%N eqn:E; [|by intros []]. apply N.ltb_lt in E. intros _.
  assert (now / 1000 <= (now + us) / 1000)%N by (apply N.Div0.div_le_mono; lia).
  destruct (now / 1000 <? until)%N eqn:E'; [done|]. apply N.ltb_ge in E'. lia.
Qed.

Lemma effect_safe r op c runs processing hashes strings now id :
  effect r op c runs processing hashes strings now -> ~ acks id op ->
  safe_view (waiting r) (claimed r) (db_hashes (db r)) (db_strings (db r)) (db_now (db r)) id ->
  safe_view runs processing hashes strings now id.
Proof.
  intros He Hack [Hk Hl].
  assert (forall i, lease_of r i = lease_in (db_strings (db r)) (db_now (db r)) i) as Hin
    by (intros i; apply (lease_of_in _ _ _ _ _ _ i (view_self r))).
  destruct He as [op|op i Hop|op l i Hw Hi|t ms l i Hw Hi|i t Hi|i t ask Hi|op i Hp|i t ms Hi|i t| |us];
    unfold safe_view; rewrite ?lease_in_delete, ?lease_in_insert.
  - done.
  - set_solver.
  - rewrite Hw in Hk. rewrite Hin in Hi. destruct (decide (i = id)) as [->|]; set_solver.
  - rewrite Hw in Hk. case_bool_decide; set_solver.
  - case_bool_decide as E; [subst; set_solver|]. split; [|intros ?; apply remove_first_ne; auto].
    destruct Hk as [?|[?|?]]; [set_solver|right; left; by apply remove_first_ne|auto].
  - rewrite lookup_delete_ne by (intros [= E]; by apply (parked_deliveries q Hq)).
    case_bool_decide; [subst; rewrite lookup_insert_eq; split; [eauto|by intros []]|].
    rewrite lookup_insert_ne by congruence. split; [|intros ?; apply remove_first_ne; auto].
    destruct Hk as [?|[?|?]]; [auto|right; left; by apply remove_first_ne|auto].
  - destruct (decide (i = id)) as [->|Hne]; [set_solver|].
    rewrite lookup_delete_ne by congruence. set_solver.
  - split; [done|]. case_bool_decide; [|done]. subst. intros _. apply Hl. by rewrite <-Hin, Hi.
  - assert (i <> id) as Hne by (intros ->; apply Hack; by exists t).
    rewrite lookup_delete_ne by congruence. split.
    + destruct Hk as [?|[?|?]]; [auto|right; left; by apply remove_first_ne|auto].
    + case_bool_decide; rewrite ?lease_in_delete, ?bool_decide_false by done;
        intros ?; apply remove_first_ne; auto.
  - rewrite elem_of_app, !list_elem_of_In, !List.filter_In, <-!list_elem_of_In. split.
    + destruct (dead r id) eqn:Hd; destruct Hk as [?|[?|?]]; auto.
    + intros Hs. split; [by apply Hl|]. unfold dead. rewrite Hin.
      by rewrite bool_decide_false by (intros Hn; rewrite Hn in Hs; by destruct Hs).
  - split; [done|]. intros Hs%elapse_lease. auto.
Qed.

Lemma queue_step_safe r op id :
  ~ acks id op -> kept r id -> leased_claimed r id ->
  kept (snd (queue_step r op)) id /\ leased_claimed (snd (queue_step r op)) id.
Proof.
  intros Hack Hk Hl.
  destruct (queue_step_effect r op) as (runs & processing & hashes & strings & now & He & Hv).
  apply (safe_of_view _ _ _ _ _ _ id Hv). eapply effect_safe; [done|done|].
  by apply (safe_of_view r _ _ _ _ _ id (view_self r)).
Qed.

(** C7. The queue never loses a run: from when it is queued, claimed or parked,
    through any interleaving of every worker's scripts, crashes and lease
    expiries, a run that nobody acknowledges stays on the runs list, in
    processing or parked. *)
Theorem queue_never_loses_a_run r ops id :
  Forall (fun op => ~ acks id op) ops -> kept r id -> leased_claimed r id ->
  kept (queue_steps r ops) id /\ leased_claimed (queue_steps r ops) id.
Proof.
  intros Hops Hk Hl. unfold queue_steps.
  apply (fold_left_ind (fun r => kept r id /\ leased_claimed r id)); [done|].
  intros r' op [Hk' Hl'] Hop. eapply Forall_forall in Hops; [|done]. by apply queue_step_safe.
Qed.

(** The reaper hands back exactly the runs whose lease ran out: every entry
    of the processing list with no live lease goes to the front of the runs
    list, in order, every other entry stays claimed, and nothing else
    changes. *)
Theorem reap_hands_back_expired r moved r' :
  reap q r = (moved, r') ->
  moved = List.filter (dead r) (claimed r) /\
  waiting r' = waiting r ++ moved /\
  claimed r' = List.filter (fun id => negb (dead r id)) (claimed r) /\
  (forall id, lease_of r' id = lease_of r id /\ parked_on r' id = parked_on r id) /\
  (forall id, id ∈ claimed r' -> is_Some (lease_of r' id)).
Proof.
  intros [Hv ->]%reap_view. pose proof Hv as [Hw Hc Hh Hs Hn].
  split_and!; [done|done|done| |].
  - intros id. split; [by eapply lease_of_view|]. unfold parked_on. by rewrite Hh.
  - intros id Hid. rewrite Hc, list_elem_of_In, List.filter_In in Hid.
    rewrite (lease_of_view r r' _ _ _ id Hv). destruct Hid as [_ Hd]. unfold dead in Hd.
    destruct (lease_of r id); [done|]. by rewrite bool_decide_true in Hd.
Qed.

(** A worker that lost its lease changes nothing: releasing, parking or
    renewing a run whose lease it does not hold leaves the queue as it is, so
    a late call cannot take the run from the worker that holds it now; and a
    wake for another ask than the one a run is parked on changes nothing. *)
Theorem stale_calls_change_nothing r id token ask ms :
  (lease_of r id <> Some token ->
     release q r id token = r /\ park q r id token ask = (false, r) /\
     renew q r id token ms = (false, r)) /\
  (parked_on r id <> Some ask -> wake q r id ask = (false, r)).
Proof.
  split.
  - intros Hl. split_and!.
    + destruct (release_view r id token) as [[? _]|[_ ->]]; done.
    + destruct (park q r id token ask) as [b r'] eqn:E.
      by apply park_view in E as [(_ & ? & _)|(-> & _ & ->)].
    + destruct (renew q r id token ms) as [b r'] eqn:E.
      by apply renew_view in E as [(_ & ? & _)|(-> & _ & ->)].
  - intros Hp. destruct (wake q r id ask) as [b r'] eqn:E.
    by apply wake_view in E as [(_ & ? & _)|(-> & _ & ->)].
Qed.

(** ** Leases exclude *)

(** The holder's own calls on its run. *)
Definition holder_op id token (op : QueueOp) : Prop :=
  match op with
  | QRelease i t | QPark i t _ | QRenew i t _ | QAck i t => i = id /\ t = token
  | _ => False
  end.

Definition lease_entry r id : option (string * N) := db_strings (db r) !! lease_key q id.

Lemma lease_of_entry r id token until :
  lease_entry r id = Some (token, until) -> (now_ms (db r) < until)%N ->
  lease_of r id = Some token.
Proof.
  unfold lease_entry, lease_of, string_of. intros -> Hn. apply N.ltb_lt in Hn. by rewrite Hn.
Qed.

(** The strings a step leaves: a lease that is held stays what it is unless
    its holder acts. *)
Lemma effect_entry r op c runs processing hashes strings now id token until :
  effect r op c runs processing hashes strings now ->
  db_strings (db r) !! lease_key q id = Some (token, until) -> lease_of r id = Some token ->
  ~ holder_op id token op ->
  strings !! lease_key q id = Some (token, until) /\ c <> Some id.
Proof.
  intros He Hs Hl Hop.
  assert (forall i t, lease_of r i = Some t -> ~ (i = id /\ t = token) -> i <> id) as Hholder.
  { intros i t Hi Hn ->. apply Hn. split; [done|]. rewrite Hl in Hi. by injection Hi. }
  assert (forall i, i <> id -> lease_key q i <> lease_key q id) as Hkey
    by (intros i Hi ?%lease_key_inj; done).
  destruct He as [op|op i Hop'|op l i Hw Hi|t ms l i Hw Hi|i t Hi|i t ask Hi|op i Hp|i t ms Hi|i t| |us];
    simpl in Hop; try done.
  - assert (i <> id) as Hne by congruence. rewrite lookup_insert_ne by auto.
    split; [done|congruence].
  - split; [|done]. rewrite lookup_delete_ne; eauto.
  - split; [|done]. rewrite lookup_delete_ne; eauto.
  - split; [|done]. rewrite lookup_insert_ne; eauto.
  - split; [|done]. case_bool_decide; [|done]. rewrite lookup_delete_ne; eauto.
Qed.

Lemma queue_step_entry r op id token until :
  lease_entry r id = Some (token, until) -> (now_ms (db r) < until)%N ->
  ~ holder_op id token op ->
  lease_entry (snd (queue_step r op)) id = Some (token, until) /\
  fst (queue_step r op) <> Some id.
Proof.
  intros He Hnow Hop. pose proof (lease_of_entry _ _ _ _ He Hnow) as Hl.
  destruct (queue_step_effect r op) as (runs & processing & hashes & strings & now & Hf & Hv).
  unfold lease_entry. rewrite (view_strings _ _ _ _ _ _ Hv). by eapply effect_entry.
Qed.

(** Time only moves on. *)
Lemma queue_step_now r op : (db_now (db r) <= db_now (db (snd (queue_step r op))))%N.
Proof.
  destruct (queue_step_effect r op) as (runs & processing & hashes & strings & now & Hf & Hv).
  rewrite (view_now _ _ _ _ _ _ Hv). destruct Hf; lia.
Qed.

Lemma queue_steps_now r ops : (db_now (db r) <= db_now (db (queue_steps r ops)))%N.
Proof.
  unfold queue_steps. apply (fold_left_ind (fun r' => (db_now (db r) <= db_now (db r'))%N)); [lia|].
  intros r' op Hr _. etrans; [exact Hr|apply queue_step_now].
Qed.

Lemma now_ms_mono (d d' : Db) : (db_now d <= db_now d')%N -> (now_ms d <= now_ms d')%N.
Proof. intros. unfold now_ms. by apply N.Div0.div_le_mono. Qed.

Lemma lease_held r ops id token until :
  lease_entry r id = Some (token, until) -> Forall (fun op => ~ holder_op id token op) ops ->
  (now_ms (db (queue_steps r ops)) < until)%N ->
  lease_entry (queue_steps r ops) id = Some (token, until) /\
  forall pre op post, ops = pre ++ op :: post -> fst (queue_step (queue_steps r pre) op) <> Some id.
Proof.
  revert r; induction ops as [|op ops IH]; intros r He Hops Hnow.
  { split; [done|]. intros [|??] ? ? E; discriminate E. }
  apply Forall_cons in Hops as [Hop Hops].
  assert (now_ms (db r) < until)%N as Hr.
  { eapply N.le_lt_trans; [|exact Hnow]. apply now_ms_mono, queue_steps_now. }
  destruct (queue_step_entry _ _ _ _ _ He Hr Hop) as (He' & Hc).
  destruct (IH (snd (queue_step r op)) He' Hops Hnow) as [IH1 IH2]. split; [done|].
  intros [|p pre] op' post E; injection E as -> ->; [done|]. by apply (IH2 pre op' post).
Qed.

(** A lease excludes: once a worker has claimed a run (or renewed its
    claim), then until the lease runs out, and unless that worker releases,
    parks, renews or acknowledges the run itself, no interleaving of the
    others' scripts takes the lease from it or hands the run to another
    claim. *)
Theorem lease_excludes r token ms id r1 ops :
  claim q r token ms = (Some id, r1) \/ renew q r id token ms = (true, r1) ->
  Forall (fun op => ~ holder_op id token op) ops ->
  (now_ms (db (queue_steps r1 ops)) < now_ms (db r) + millis ms)%N ->
  lease_of (queue_steps r1 ops) id = Some token /\
  forall pre t ms' post, ops = pre ++ QClaim t ms' :: post ->
    fst (claim q (queue_steps r1 pre) t ms') <> Some id.
Proof.
  intros Hget Hops Hnow.
  assert (lease_entry r1 id = Some (token, now_ms (db r) + millis ms)%N) as He.
  { unfold lease_entry. destruct Hget as [E|E].
    - apply claim_view in E as [(? & _)|(l & i & _ & [(? & _)|([= <-] & _ & Hv)])]; [done|done|].
      destruct Hv as [_ _ _ -> _]. by rewrite lookup_insert_eq.
    - apply renew_view in E as [(_ & _ & Hv)|(? & _)]; [|done].
      destruct Hv as [_ _ _ -> _]. by rewrite lookup_insert_eq. }
  destruct (lease_held _ _ _ _ _ He Hops Hnow) as [He' Hno]. split.
  - by eapply lease_of_entry.
  - intros pre t ms' post E. by apply (Hno pre (QClaim t ms') post).
Qed.

End Queue.

(** ** Concrete queues *)

Definition empty_db : Db := mkDb 1000000 ∅ ∅ ∅ ∅ ∅.

Definition gol_ok : keys_ok open := with_key_ok "gol:runs".

(** Two runs queued; worker [a] claims the older. *)
Definition queued_db : Db := push open (push open empty_db "run-1") "run-2".
Definition claimed_db : Db := snd (claim open queued_db "a" 30000).

Lemma queue_never_loses_a_run_witness :
  kept open (queue_steps open claimed_db
    [QElapse 40000000; QReap; QClaim "b" 30000; QRelease "run-1" "a"; QPark "run-1" "b" "ask-1";
     QPushOnce "run-2"; QWake "run-1" "ask-1"]) "run-1".
Proof.
  apply (queue_never_loses_a_run open gol_ok claimed_db _ "run-1").
  - repeat constructor; intros [t E]; discriminate E.
  - right. left. vm_compute. left.
  - intros _. vm_compute. left.
Defined.

Lemma reap_hands_back_expired_witness :
  let r := elapse claimed_db 40000000 in
  fst (reap open r) = List.filter (dead open r) (claimed open r).
Proof.
  intros r. apply (reap_hands_back_expired open gol_ok r (fst (reap open r)) (snd (reap open r))).
  apply surjective_pairing.
Defined.

Lemma stale_calls_change_nothing_witness :
  release open claimed_db "run-1" "b" = claimed_db.
Proof.
  refine (proj1 (proj1 (stale_calls_change_nothing open gol_ok claimed_db "run-1" "b" "ask-1" 1) _)).
  vm_compute. discriminate.
Defined.

Lemma lease_excludes_witness :
  lease_of open (queue_steps open claimed_db
    [QElapse 29000000; QReap; QPush "run-1"; QClaim "b" 30000; QClaim "b" 30000;
     QRelease "run-1" "b"; QAck "run-1" "b"]) "run-1" = Some "a".
Proof.
  refine (proj1 (lease_excludes open gol_ok queued_db "a" 30000 "run-1" claimed_db _ _ _ _)).
  - left. vm_compute. reflexivity.
  - repeat constructor; simpl; intros E; try destruct E; discriminate || congruence.
  - vm_compute. reflexivity.
Defined.
