(* ===== verification/Server.v ===== *)
(** * The server as one of many processes

    Every handler of the server works on a shared state: the store with its
    stops, the messages, the triggers, and the Redis queue.  Each call of a
    store or of the queue is one step of that state; between two calls of a
    handler any other thread or process may step, a call may fail before or
    after it took effect, and the process may die.

    A handler is a function over [Server]: the shared state, what else the
    process reaches ([sv_rest]), and a [Future], which says for each call to
    come what the others do before it and whether it fails, and what the clock
    and the random ids give.  A theorem for every future is a theorem for
    every interleaving, every error and every crash: a process that dies makes
    no effective call any more.  [sv_steps] records this process's own steps
    of the shared state. *)

From S2P Require Import Prelude Protocol Uuids MemoryOwner Reduce Store StoreTriggers.
From S2P Require Import StoreMessages StoreStops StoreThreads Queue Driver.

(** ** The shared state *)

Section Shared.
Context (R : Type).

Record Shared : Type := mkShared {
  sh_store : StopsStore;
  sh_messages : Messages;
  sh_triggers : Triggers;
  sh_queue : R;
}.

(** Whether a call fails, and if so whether it took effect first. *)
Inductive Fault := NoFault | FailsBefore | FailsAfter.

Record Moment : Type := mkMoment { others : Shared -> Shared; fault : Fault }.

Record Future : Type := mkFuture {
  fu_moment : nat -> Moment;
  fu_time : nat -> Timestamp;
  fu_id : nat -> N;
}.

(** A process: [sv_drawn] counts what it took of its future. *)
Record Server (X : Type) : Type := mkServer {
  sv_shared : Shared;
  sv_rest : X;
  sv_future : Future;
  sv_drawn : nat;
  sv_steps : list (Shared * Shared);
}.

End Shared.
Arguments mkShared {R} _ _ _ _.
Arguments sh_store {R} _.
Arguments sh_messages {R} _.
Arguments sh_triggers {R} _.
Arguments sh_queue {R} _.
Arguments mkMoment {R} _ _.
Arguments others {R} _ _.
Arguments fault {R} _.
Arguments mkFuture {R} _ _ _.
Arguments fu_moment {R} _ _.
Arguments fu_time {R} _ _.
Arguments fu_id {R} _ _.
Arguments mkServer {R X} _ _ _ _ _.
Arguments sv_shared {R X} _.
Arguments sv_rest {R X} _.
Arguments sv_future {R X} _.
Arguments sv_drawn {R X} _.
Arguments sv_steps {R X} _.

(** The runs, the agents and the stops of a shared state. *)
Definition runs_store {R} (s : Shared R) : RunsStore := ss_store (sh_store s).

Definition stored_run {R} (s : Shared R) (id : RunId) : option StoredRun :=
  get_run (runs_store s) id.

(** ** Handlers *)

Section Handlers.
Context {R X : Type}.

Definition M (A : Type) : Type := Server R X -> A * Server R X.

Definition ret {A} (a : A) : M A := fun w => (a, w).

Definition bind {A B} (m : M A) (k : A -> M B) : M B := fun w => let '(a, w) := m w in k a w.

Definition drew (w : Server R X) : Server R X :=
  mkServer (sv_shared w) (sv_rest w) (sv_future w) (S (sv_drawn w)) (sv_steps w).

Definition set_rest (w : Server R X) (x : X) : Server R X :=
  mkServer (sv_shared w) x (sv_future w) (sv_drawn w) (sv_steps w).

(** [Timestamp::now()], and the bits of a random id. *)
Definition now : M Timestamp := fun w => (fu_time (sv_future w) (sv_drawn w), drew w).

Definition random : M N := fun w => (fu_id (sv_future w) (sv_drawn w), drew w).

(** A call: the others step, then it takes effect, fails, or both. *)
Definition call {A E} (error : E) (f : Shared R -> result A E * Shared R) : M (result A E) :=
  fun w =>
    let m := fu_moment (sv_future w) (sv_drawn w) in
    let s := others m (sv_shared w) in
    let after (r : result A E) s' :=
      (r, mkServer s' (sv_rest w) (sv_future w) (S (sv_drawn w)) ((s, s') :: sv_steps w)) in
    match fault m with
    | NoFault => let '(r, s') := f s in after r s'
    | FailsBefore => after (Err error) s
    | FailsAfter => let '(_, s') := f s in after (Err error) s'
    end.

(** The error a failing store, and a failing queue, reports. *)
Definition unavailable : StoreError := mkStoreError "store unavailable".

Definition store_call {A} (f : Shared R -> result A StoreError * Shared R)
    : M (result A StoreError) := call unavailable f.

Definition queue_call {A} (f : R -> A * R) : M (result A string) :=
  call "redis is unavailable"
    (fun s => let '(a, r) := f (sh_queue s) in
              (Ok a, mkShared (sh_store s) (sh_messages s) (sh_triggers s) r)).

End Handlers.

Notation "'let!' x ':=' m 'in' k" := (bind m (fun x => k))
  (at level 10, x pattern, m at level 200, k at level 200,
   format "'[v' 'let!'  x  ':='  m  'in'  '/' k ']'") : rust_scope.

(** The [?] operator: an error is the handler's, as it is. *)
Definition try {R X A B E} (m : @M R X (result A E)) (k : A -> @M R X (result B E))
    : @M R X (result B E) :=
  bind m (fun r => match r with Ok a => k a | Err e => ret (Err e) end).

(** [map_err(f)?]. *)
Definition try_with {R X A B E F} (f : E -> F) (m : @M R X (result A E))
    (k : A -> @M R X (result B F)) : @M R X (result B F) :=
  bind m (fun r => match r with Ok a => k a | Err e => ret (Err (f e)) end).

Notation "'let!?' x ':=' m 'in' k" := (try m (fun x => k))
  (at level 10, x pattern, m at level 200, k at level 200,
   format "'[v' 'let!?'  x  ':='  m  'in'  '/' k ']'") : rust_scope.

Notation "'let!?' x ':=' m 'else' f 'in' k" := (try_with f m (fun x => k))
  (at level 10, x pattern, m at level 200, f at level 200, k at level 200,
   format "'[v' 'let!?'  x  ':='  m  'else'  f  'in'  '/' k ']'") : rust_scope.

(** A [for] loop that carries [a]. *)
Fixpoint for_each {R X A T} (l : list T) (body : A -> T -> @M R X A) (a : A) : @M R X A :=
  match l with
  | [] => ret a
  | x :: l => bind (body a x) (for_each l body)
  end.

(** Runs [m] with a cell of its own (a captured variable of a closure), and
    returns the cell's last value beside its answer. *)
Definition with_cell {R X C A} (c : C) (m : @M R (C * X) A) : @M R X (A * C) :=
  fun w =>
    let '(a, w') :=
      m (mkServer (sv_shared w) (c, sv_rest w) (sv_future w) (sv_drawn w) (sv_steps w)) in
    ((a, (sv_rest w').1),
     mkServer (sv_shared w') (sv_rest w').2 (sv_future w') (sv_drawn w') (sv_steps w')).

Definition get_cell {R X C} : @M R (C * X) C := fun w => ((sv_rest w).1, w).

Definition set_cell {R X C} (c : C) : @M R (C * X) unit :=
  fun w => (tt, set_rest w (c, (sv_rest w).2)).

(** A handler that does not know of the cell. *)
Definition beside_cell {R X C A} (m : @M R X A) : @M R (C * X) A :=
  fun w =>
    let '(a, w') :=
      m (mkServer (sv_shared w) (sv_rest w).2 (sv_future w) (sv_drawn w) (sv_steps w)) in
    (a, mkServer (sv_shared w') ((sv_rest w).1, sv_rest w') (sv_future w') (sv_drawn w')
          (sv_steps w')).

(** A handler's answer that is [Ok]. *)
Lemma ok_pair {A E S} (p : result A E * S) : is_ok p.1 = true -> exists a s, p = (Ok a, s).
Proof. destruct p as [[a|e] s]; [eauto|done]. Qed.

(** ** The calls of the stores *)

Section Stores.
Context {R X : Type}.

Definition with_store (s : Shared R) (st : StopsStore) : Shared R :=
  mkShared st (sh_messages s) (sh_triggers s) (sh_queue s).

(** A method of [RunsStore] as a step of the shared state. *)
Definition on_runs {A} (f : RunsStore -> Outcome A) (s : Shared R) : result A StoreError * Shared R :=
  let '(r, st) := f (runs_store s) in (r, with_store s (mkStopsStore st (ss_stops (sh_store s)))).

Definition on_messages {A} (f : Messages -> result A StoreError * Messages) (s : Shared R)
    : result A StoreError * Shared R :=
  let '(r, ms) := f (sh_messages s) in
  (r, mkShared (sh_store s) ms (sh_triggers s) (sh_queue s)).

Definition on_triggers {A} (f : Triggers -> result A StoreError * Triggers) (s : Shared R)
    : result A StoreError * Shared R :=
  let '(r, ts) := f (sh_triggers s) in
  (r, mkShared (sh_store s) (sh_messages s) ts (sh_queue s)).

Definition reads {A} (f : Shared R -> A) (s : Shared R) : result A StoreError * Shared R :=
  (Ok (f s), s).

Definition do_run (id : RunId) : @M R X (result (option StoredRun) StoreError) :=
  store_call (reads (fun s => stored_run s id)).

Definition do_agent (id : AgentId) : @M R X (result (option StoredAgent) StoreError) :=
  store_call (reads (fun s => get_agent (runs_store s) id)).

Definition do_agents_of (o : Owner) : @M R X (result (list StoredAgent) StoreError) :=
  store_call (reads (fun s => agents_of (runs_store s) o)).

Definition do_put_run (run : StoredRun) : @M R X (result PutRun StoreError) :=
  (let! t := now in store_call (on_runs (fun s => put_run s run t)))%rust.

Definition do_append_events (id : RunId) (es : list Event) : @M R X (result Append StoreError) :=
  (let! t := now in store_call (on_runs (fun s => append_events s id es t)))%rust.

Definition do_append_events_after (id : RunId) (seen : nat) (es : list Event)
    : @M R X (result Append StoreError) :=
  (let! t := now in store_call (on_runs (fun s => append_events_after s id seen es t)))%rust.

Definition do_prune_outbox (before : Timestamp) : @M R X (result N StoreError) :=
  store_call (on_runs (fun s => prune_outbox s before)).

(** [stops().stopped(run)] of a store that keeps stops.  The walk has the fuel
    [stopped_iff_covered] shows is enough. *)
Definition is_stopped (s : Shared R) (id : RunId) : bool :=
  default false (stopped (walk_fuel (runs_store s) id) (sh_store s) id).

Definition do_stopped (id : RunId) : @M R X (result bool StoreError) :=
  store_call (reads (fun s => is_stopped s id)).

Definition do_put_message (m : StoredMessage) : @M R X (result PutMessage StoreError) :=
  store_call (on_messages (fun ms => put_message ms m)).

Definition do_message (id : MessageId) : @M R X (result (option StoredMessage) StoreError) :=
  store_call (reads (fun s => message (sh_messages s) id)).

Definition do_ask_of_task (task : RunId) : @M R X (result (option StoredMessage) StoreError) :=
  store_call (reads (fun s => ask_of_task (sh_messages s) task)).

Definition do_answer (ask : MessageId) : @M R X (result bool StoreError) :=
  store_call (on_messages (fun ms => answer ms ask)).

Definition do_open_asks_due (t : Timestamp) : @M R X (result (list StoredMessage) StoreError) :=
  store_call (reads (fun s => open_asks_due (sh_messages s) t)).

Definition do_trigger (o : Owner) (id : TriggerId) : @M R X (result (option StoredTrigger) StoreError) :=
  store_call (reads (fun s => trigger (sh_triggers s) o id)).

Definition do_webhook_trigger (id : TriggerId) : @M R X (result (option StoredTrigger) StoreError) :=
  store_call (reads (fun s => webhook_trigger (sh_triggers s) id)).

Definition do_due_triggers (t : Z) (limit : nat) : @M R X (result (list StoredTrigger) StoreError) :=
  store_call (reads (fun s => due_triggers (sh_triggers s) t limit)).

Definition do_unscheduled_triggers (limit : nat) : @M R X (result (list StoredTrigger) StoreError) :=
  store_call (reads (fun s => unscheduled_triggers (sh_triggers s) limit)).

Definition do_set_enabled (o : Owner) (id : TriggerId) (enabled : bool)
    : @M R X (result (option StoredTrigger) StoreError) :=
  store_call (on_triggers (fun ts => set_enabled ts o id enabled)).

Definition do_advance_trigger (id : TriggerId) (due next : option Z) : @M R X (result bool StoreError) :=
  store_call (on_triggers (fun ts => advance_trigger ts id due next)).

End Stores.

(** ** The calls of the queue *)

Section Calls.
Context `{UuidCrate} {R X : Type} `{Redis R} (q : RunQueue).

(** A script that answers nothing. *)
Definition silent (f : R -> R) (r : R) : unit * R := (tt, f r).

Definition reads_queue {A} (f : R -> A) (r : R) : A * R := (f r, r).

Definition do_pend (id : RunId) : @M R X (result unit string) :=
  queue_call (silent (fun r => pend q r (id_display id))).

Definition do_unpend (id : RunId) : @M R X (result unit string) :=
  queue_call (silent (fun r => unpend q r (id_display id))).

Definition do_push (id : RunId) : @M R X (result unit string) :=
  queue_call (silent (fun r => Queue.push q r (id_display id))).

Definition do_push_once (id : RunId) : @M R X (result bool string) :=
  queue_call (fun r => push_once q r (id_display id)).

Definition do_queued_or_claimed (id : RunId) : @M R X (result bool string) :=
  queue_call (reads_queue (fun r => queued_or_claimed q r (id_display id))).

Definition do_start (id : RunId) : @M R X (result N string) :=
  queue_call (fun r => Queue.start q r (id_display id)).

Definition do_release (id : RunId) (token : string) : @M R X (result unit string) :=
  queue_call (silent (fun r => release q r (id_display id) token)).

Definition do_park (id : RunId) (token : string) (ask : MessageId) : @M R X (result bool string) :=
  queue_call (fun r => park q r (id_display id) token (id_display ask)).

Definition do_wake (id : RunId) (ask : MessageId) : @M R X (result bool string) :=
  queue_call (fun r => wake q r (id_display id) (id_display ask)).

Definition do_renew (id : RunId) (token : string) (ms : N) : @M R X (result bool string) :=
  queue_call (fun r => renew q r (id_display id) token ms).

Definition do_ack (id : RunId) (token : string) : @M R X (result unit string) :=
  queue_call (silent (fun r => ack q r (id_display id) token)).

Definition do_forget (entry token : string) : @M R X (result unit string) :=
  queue_call (silent (fun r => forget q r entry token)).

Definition do_reap : @M R X (result (list RunId) string) := queue_call (reap_runs q).

Definition do_parked : @M R X (result (list (RunId * MessageId)) string) :=
  queue_call (reads_queue (parked q)).

Definition do_now_ms : @M R X (result Z string) := queue_call (reads_queue redis_now_ms).

(** [RedisRunQueue::claim]: the script, then, in a call of its own, the entry
    that is no run id is forgotten. *)
Definition do_claim (token : string) (ms : N) : @M R X (result (option RunId) string) :=
  (let!? claimed := queue_call (fun r => claim q r token ms) in
   match claimed with
   | None => ret (Ok None)
   | Some text =>
       match id_parse text with
       | Some id => ret (Ok (Some id))
       | None =>
           let!? _ := do_forget text token in
           ret (Err ("dropped queue entry " +:+ text))
       end
   end)%rust.

(** [RedisRunQueue::pending_for]: an entry that is no run id is dropped, or
    left if it cannot be dropped now. *)
Definition do_pending_for (age : N) : @M R X (result (list RunId) string) :=
  (let!? values := queue_call (reads_queue (fun r => pending_for_entries q r age)) in
   let! ids :=
     for_each values
       (fun ids text =>
          match id_parse text with
          | Some id => ret (ids ++ [id])
          | None =>
              let! _ := queue_call (silent (fun r => unpend_entry q r text)) in
              ret ids
          end) [] in
   ret (Ok ids))%rust.

End Calls.

(** ** The events the server records itself ([server/inference.rs]) *)

Section Events.
Context {R X : Type}.

(** An event from [a] for the run of [spec]: [Event::record] with the time and
    a fresh id. *)
Definition recorded (spec : RunSpec) (a : Actor) (p : EventPayload) : @M R X Event :=
  (let! t := now in
   let! fresh := random in
   ret (Protocol.record (id_of fresh) (event_source_for_spec spec a t) p))%rust.

Definition system_event (spec : RunSpec) (p : EventPayload) : @M R X Event :=
  recorded spec ActorSystem p.

Definition user_message_event (spec : RunSpec) : @M R X Event :=
  recorded spec ActorSystem (UserMessage (input spec)).

Definition queued_events (spec : RunSpec) : @M R X (list Event) :=
  (let! created := system_event spec RunCreated in
   let! queued := system_event spec RunQueued in
   let! text := user_message_event spec in
   ret [created; queued; text])%rust.

Definition dispatch_events (spec : RunSpec) : @M R X (list Event) :=
  (let! scheduled := system_event spec RunScheduled in
   let! provisioning := system_event spec RunProvisioning in
   let! starting := system_event spec RunStarting in
   ret [scheduled; provisioning; starting])%rust.

Definition run_cancelled_event (spec : RunSpec) : @M R X Event :=
  recorded spec ActorSystem RunCancelled.

Definition run_failed_event (spec : RunSpec) (class : FailureClass) (text : string)
    : @M R X Event := recorded spec ActorSystem (RunFailed class text).

(** [append_completion] on an empty list, [completion_events]. *)
Definition completion_events (spec : RunSpec) (text : string) : @M R X (list Event) :=
  (let! responded :=
     recorded spec ActorGateway (ModelResponded (mkModelMessage RoleAssistant text) None) in
   let! completed := recorded spec ActorSystem (RunCompleted text) in
   ret [responded; completed])%rust.

End Events.

(** [still_waiting] of [server/spawner.rs]: the log is only a run's queued
    events. *)
Definition is_queued_payload (p : EventPayload) : bool :=
  match p with RunCreated | RunQueued | UserMessage _ => true | _ => false end.

Definition still_waiting (es : list Event) : bool :=
  forallb (fun event => is_queued_payload (payload event)) es.

(** ** The world of a driver the server runs *)

#[export] Instance beside_memory {C X} `{Memory X} : Memory (C * X) := {|
  mem_read cx := mem_read cx.2;
  mem_write cx owner key value :=
    let '(r, x) := mem_write cx.2 owner key value in (r, (cx.1, x));
|}.

#[export] Instance server_world {R X} : World (Server R X) := {|
  w_stamp w :=
    let '(t, w) := now w in
    let '(fresh, w) := random w in ((t, id_of fresh), w);
  w_message_id w := let '(n, w) := random w in (id_of n, w);
|}.

#[export] Instance server_memory {R X} `{Memory X} : Memory (Server R X) := {|
  mem_read w := mem_read (sv_rest w);
  mem_write w owner key value :=
    let '(r, x) := mem_write (sv_rest w) owner key value in (r, set_rest w x);
|}.
