(* ===== verification/ServerLogic.v ===== *)
(** * Reasoning about handlers

    [Good] is what the server's processes keep together: a run that was queued
    and is open is on the runs list, in processing or parked, or it is still
    as its producer stored it and pending, for the sweep.  [evolves] is what
    one step of any process may do to the shared state; [triple] is a
    rely-guarantee judgement: a handler, run among others that only do what
    [evolves] lets them, only does so itself, at every one of its steps, and
    ends with its postcondition. *)

From S2P Require Import Prelude Protocol Uuids MemoryOwner Reduce DriverTurns Store StoreProofs.
From S2P Require Import StoreTriggers StoreMessages StoreStops Queue QueueProofs Authorizer.
From S2P Require Import Driver Server.

(** ** Pending runs, and what a script leaves of them *)

Section Pending.
Context {R : Type} `{Redis R} `{!RedisLaws R} (q : RunQueue) (Hq : keys_ok q).
Implicit Types (r : R) (i : string).

Definition pending_score r i : option N := db_zsets (db r) !! (q_pending q, i).

(** The scripts that take [i] off pending. *)
Definition unpends i (op : QueueOp) : Prop := op = QUnpend i \/ op = QPush i \/ op = QPushOnce i.

Lemma zrem_pending r i j :
  pending_score (ZREM r (q_pending q) j) i = if bool_decide (j = i) then None else pending_score r i.
Proof.
  unfold pending_score. rewrite ZREM_law. simpl. case_bool_decide.
  - subst. apply lookup_delete_eq.
  - apply lookup_delete_ne. congruence.
Qed.

Lemma reap_one_pending r moved i j :
  pending_score (reap_one q r moved j).1 i = pending_score r i.
Proof.
  unfold reap_one, reap_turn, pending_score. destruct (EXISTS _ _); [done|]. simpl.
  by rewrite RPUSH_law, LREM_law.
Qed.

Lemma reap_pending r i : pending_score (reap q r).2 i = pending_score r i.
Proof.
  unfold reap, REAP.
  destruct (fold_left _ _ _) as [r' moved] eqn:E. simpl. change r' with (r', moved).1. rewrite <-E.
  apply (fold_left_ind (fun acc => pending_score acc.1 i = pending_score r i)); [done|].
  intros [r1 m1] x <- _. apply (reap_one_pending r1 m1 i x).
Qed.

Lemma claim_pending r token ms i : pending_score (claim q r token ms).2 i = pending_score r i.
Proof.
  unfold claim, CLAIM, pending_score.
  pose proof (LMOVE_law r (q_runs q) (q_processing q)) as Hl.
  destruct (LMOVE_right_left _ _ _) as [[id|] r1]; [|destruct Hl as [_ Hl]; simpl; by rewrite Hl].
  destruct Hl as (l & _ & Hl). cbv zeta in Hl.
  pose proof (SET_law r1 (q_lease_prefix q +:+ id) token (millis ms)) as Hs.
  destruct (SET_NX_PX _ _ _ _) as [[] r2]; destruct Hs as [_ Hs]; simpl.
  - by rewrite Hs, Hl.
  - by rewrite LREM_law, Hs, Hl.
Qed.

Lemma queue_step_pending r op i :
  ~ unpends i op -> is_Some (pending_score r i) -> is_Some (pending_score (queue_step q r op).2 i).
Proof.
  intros Hn Hp. unfold unpends in Hn.
  destruct op as [j|j|j|j|t ms|j|j t|j t ask|j ask|j t ms|j t| |us]; simpl.
  - unfold pend, PEND, pending_score. rewrite ZADD_law. destruct (_ !! (_, j)); [done|]. simpl.
    destruct (decide (j = i)) as [->|]; [rewrite lookup_insert_eq; by eexists|].
    by rewrite lookup_insert_ne by congruence.
  - unfold unpend. rewrite zrem_pending, bool_decide_false; [done|]. naive_solver.
  - unfold Queue.push, PUSH. rewrite zrem_pending, bool_decide_false by naive_solver.
    unfold pending_score. by rewrite LPUSH_law.
  - unfold push_once, PUSH_ONCE. destruct (_ || _); simpl; [|unfold pending_score; rewrite LPUSH_law;
      simpl; change (is_Some (pending_score (ZREM r (q_pending q) j) i))];
      rewrite zrem_pending, bool_decide_false by naive_solver; done.
  - by rewrite claim_pending.
  - unfold Queue.start, START, pending_score. destruct (HINCRBY_law r (q_deliveries q) j) as [_ ->]. done.
  - unfold release, RELEASE, pending_score. case_bool_decide; [|done].
    by rewrite DEL_law, LPUSH_law, LREM_law.
  - unfold park, PARK, pending_score. case_bool_decide; [done|]. simpl.
    by rewrite HDEL_law, DEL_law, HSET_law, LREM_law.
  - unfold wake, WAKE, pending_score. case_bool_decide; [done|]. simpl. by rewrite LPUSH_law, HDEL_law.
  - unfold renew, RENEW, pending_score. case_bool_decide; [|done].
    pose proof (PEXPIRE_law r (lease_key q j) (millis ms)) as Hx.
    destruct (PEXPIRE _ _ _) as [n r1], (string_of _ _); destruct Hx as [_ Hx]; simpl; by rewrite Hx.
  - unfold ack, forget, ACK, pending_score. case_bool_decide; by rewrite ?DEL_law, HDEL_law, LREM_law.
  - by rewrite reap_pending.
  - unfold pending_score. by rewrite elapse_law.
Qed.

(** A run is put on a list or leased only by a push, or from there. *)
Lemma effect_listed r op c runs processing hashes strings now i :
  effect q r op c runs processing hashes strings now ->
  (i ∈ runs \/ i ∈ processing \/ is_Some (hashes !! (q_parked q, i))) \/
    is_Some (lease_in q strings now i) ->
  (kept q r i \/ is_Some (lease_of q r i)) \/ op = QPush i \/ op = QPushOnce i.
Proof.
  intros He.
  assert (forall j, lease_of q r j = lease_in q (db_strings (db r)) (db_now (db r)) j) as Hin
    by (intros j; apply (lease_of_in q _ _ _ _ _ _ j (view_self q r))).
  unfold kept, parked_on. rewrite Hin.
  destruct He as [op|op j Hop|op l j Hw Hj|t ms l j Hw Hj|j t Hj|j t ask Hj|op j Hp|j t ms Hj|j t| |us];
    rewrite ?lease_in_delete, ?lease_in_insert.
  - tauto.
  - set_solver.
  - rewrite Hw. set_solver.
  - rewrite Hw. case_bool_decide; set_solver.
  - rewrite elem_of_cons. rewrite Hin in Hj.
    pose proof (remove_first_in j i (claimed q r)).
    case_bool_decide as E; [subst; rewrite Hj; eauto|]. naive_solver.
  - rewrite Hin in Hj. pose proof (remove_first_in j i (claimed q r)).
    rewrite lookup_delete_ne by (intros [= E]; by apply (parked_deliveries q Hq)).
    case_bool_decide as E; [subst; rewrite Hj; eauto|]. rewrite lookup_insert_ne by congruence.
    naive_solver.
  - unfold parked_on in Hp. destruct (decide (j = i)) as [->|]; [naive_solver|].
    rewrite lookup_delete_ne by congruence. set_solver.
  - rewrite Hin in Hj. case_bool_decide; [subst; rewrite Hj; eauto|]. naive_solver.
  - pose proof (remove_first_in j i (claimed q r)).
    rewrite lookup_delete_ne by (intros [= E]; by apply (parked_deliveries q Hq)).
    case_bool_decide; rewrite ?lease_in_delete; [case_bool_decide|]; [|naive_solver..].
    intros [?|[]]; [naive_solver|done].
  - rewrite elem_of_app, !list_elem_of_In, !List.filter_In, <-!list_elem_of_In. naive_solver.
  - intros [?|Hl%elapse_lease]; naive_solver.
Qed.

Lemma queue_step_listed r op i :
  kept q (queue_step q r op).2 i \/ is_Some (lease_of q (queue_step q r op).2 i) ->
  (kept q r i \/ is_Some (lease_of q r i)) \/ op = QPush i \/ op = QPushOnce i.
Proof.
  destruct (queue_step_effect q Hq r op) as (runs & processing & hashes & strings & now & He & Hv).
  intros Hk. eapply effect_listed; [exact He|].
  rewrite (lease_of_in q _ _ _ _ _ _ i Hv) in Hk. unfold kept, parked_on in Hk.
  by destruct Hv as [<- <- <- _ _].
Qed.

(** Nothing but its acknowledgement leaves a leased run out of processing. *)
Lemma effect_leased r op c runs processing hashes strings now i :
  effect q r op c runs processing hashes strings now -> ~ acks i op ->
  leased_claimed q r i -> is_Some (lease_in q strings now i) -> i ∈ processing.
Proof.
  intros He Hack Hl.
  assert (forall j, lease_of q r j = lease_in q (db_strings (db r)) (db_now (db r)) j) as Hin
    by (intros j; apply (lease_of_in q _ _ _ _ _ _ j (view_self q r))).
  unfold leased_claimed in Hl. rewrite Hin in Hl.
  destruct He as [op|op j Hop|op l j Hw Hj|t ms l j Hw Hj|j t Hj|j t ask Hj|op j Hp|j t ms Hj|j t| |us];
    rewrite ?lease_in_delete, ?lease_in_insert; try done.
  - case_bool_decide; set_solver.
  - case_bool_decide; [by intros []|]. intros ?. apply remove_first_ne; auto.
  - case_bool_decide; [by intros []|]. intros ?. apply remove_first_ne; auto.
  - case_bool_decide; [|done]. subst. intros _. apply Hl. by rewrite <-Hin, Hj.
  - assert (j <> i) by (intros ->; apply Hack; by exists t).
    case_bool_decide; rewrite ?lease_in_delete, ?bool_decide_false by done;
      intros ?; apply remove_first_ne; auto.
  - intros Hs. rewrite list_elem_of_In, List.filter_In, <-list_elem_of_In.
    split; [by apply Hl|]. unfold dead. rewrite Hin.
    by rewrite bool_decide_false by (intros Hn; rewrite Hn in Hs; by destruct Hs).
  - intros Hs%elapse_lease. auto.
Qed.

Lemma queue_step_leased r op i :
  ~ acks i op -> leased_claimed q r i -> leased_claimed q (queue_step q r op).2 i.
Proof.
  intros Hack Hl.
  destruct (queue_step_effect q Hq r op) as (runs & processing & hashes & strings & now & He & Hv).
  intros Hs. rewrite (lease_of_in q _ _ _ _ _ _ i Hv) in Hs. destruct Hv as [_ -> _ _ _].
  by eapply effect_leased.
Qed.

(** What a push leaves. *)
Lemma pushed_kept r op i :
  op = QPush i \/ op = QPushOnce i -> kept q (queue_step q r op).2 i.
Proof.
  intros [->| ->]; simpl.
  - left. destruct (push_view q Hq r i) as [-> _ _ _ _]. set_solver.
  - destruct (push_once q r i) as [b r'] eqn:E.
    apply (push_once_view q Hq) in E as [[Hw Hc _ _ _] Hb]. unfold kept. simpl. rewrite Hw, Hc.
    destruct b; [set_solver|]. destruct Hb as [Hb _]. destruct (Hb eq_refl); auto.
Qed.

End Pending.

(** ** The shared state the processes keep *)

Definition is_run_queued (p : EventPayload) : bool :=
  match p with RunQueued => true | _ => false end.

Definition was_queued (es : list Event) : bool :=
  existsb (fun event => is_run_queued (payload event)) es.

(** A log as it grows: its spec is fixed, its events are only added to, and
    none once it has ended. *)
Definition grows (run run' : StoredRun) : Prop :=
  sr_spec run' = sr_spec run /\ sr_events run `prefix_of` sr_events run' /\
  (has_terminal (sr_events run) = true -> run' = run).

#[export] Instance grows_preorder : PreOrder grows.
Proof.
  split; [by intros run|]. intros r1 r2 r3 (Hs & Hp & Ht) (Hs' & Hp' & Ht').
  split_and!; [congruence|by etrans|]. intros H. specialize (Ht H). subst. auto.
Qed.

Lemma has_terminal_prefix es es' :
  es `prefix_of` es' -> has_terminal es = true -> has_terminal es' = true.
Proof. intros [k ->]. unfold has_terminal. rewrite existsb_app. by intros ->. Qed.

Lemma was_queued_prefix es es' :
  es `prefix_of` es' -> was_queued es = true -> was_queued es' = true.
Proof. intros [k ->]. unfold was_queued. rewrite existsb_app. by intros ->. Qed.

Lemma still_waiting_prefix es es' :
  es `prefix_of` es' -> still_waiting es' = true -> still_waiting es = true.
Proof. intros [k ->]. unfold still_waiting. rewrite forallb_app. by intros [? _]%andb_true_iff. Qed.

Section State.
Context `{UuidCrate} {R : Type} `{Redis R} (q : RunQueue).
Implicit Types (s : Shared R) (id : RunId) (run : StoredRun).

Definition open_run s id run : Prop :=
  stored_run s id = Some run /\ has_terminal (sr_events run) = false.

Definition closed s id : Prop :=
  exists run, stored_run s id = Some run /\ has_terminal (sr_events run) = true.

Definition in_queue s id : Prop := kept q (sh_queue s) (id_display id).

Definition leased s id : Prop := is_Some (lease_of q (sh_queue s) (id_display id)).

Definition is_pending s id : Prop := is_Some (pending_score q (sh_queue s) (id_display id)).

Record Good s : Prop := mkGood {
  good_store : store_wf (runs_store s);
  good_agents (agent : AgentId) kept :
    get_agent (runs_store s) agent = Some kept -> am_id (sa_manifest kept) = agent;
  good_listed id : in_queue s id \/ leased s id -> is_Some (stored_run s id);
  good_texts text id :
    kept q (sh_queue s) text \/ is_Some (lease_of q (sh_queue s) text) ->
    id_parse (k := KRun) text = Some id -> text = id_display id;
  good_leased id run : open_run s id run -> leased_claimed q (sh_queue s) (id_display id);
  good_kept id run :
    open_run s id run -> was_queued (sr_events run) = true ->
    in_queue s id \/ still_waiting (sr_events run) = true /\ is_pending s id;
}.

(** What a step of any process may do. *)
Record evolves s s' : Prop := mkEvolves {
  ev_runs id run : stored_run s id = Some run ->
    exists run', stored_run s' id = Some run' /\ grows run run';
  ev_good : Good s -> Good s';
  ev_kept id : Good s -> in_queue s id -> in_queue s' id \/ closed s' id;
}.

(** A process that does not forget the pending entry of a run that is not
    stored yet.  The sweep does, after [forget_after]: a producer is taken to
    store its run sooner. *)
Definition prompt s s' : Prop :=
  evolves s s' /\ forall id, is_pending s id -> stored_run s' id = None -> is_pending s' id.

Lemma closed_evolves s s' id : evolves s s' -> closed s id -> closed s' id.
Proof.
  intros He (run & Hr & Ht). apply (ev_runs _ _ He) in Hr as (run' & Hr' & _ & _ & Hsame).
  rewrite Hsame in Hr' by done. by exists run.
Qed.

#[export] Instance server_evolves_preorder : PreOrder evolves.
Proof.
  split.
  - intros s. split; [|auto..]. intros id run Hr. by exists run.
  - intros s1 s2 s3 H12 H23. split.
    + intros id run Hr. apply (ev_runs _ _ H12) in Hr as (run2 & Hr2 & Hg).
      apply (ev_runs _ _ H23) in Hr2 as (run3 & Hr3 & Hg'). exists run3. split; [done|]. by etrans.
    + intros Hg. by apply (ev_good _ _ H23), (ev_good _ _ H12).
    + intros id Hg Hk. apply (ev_kept _ _ H12) in Hk as [Hk|Hk]; [| |done].
      * apply (ev_kept _ _ H23) in Hk; [done|]. by apply (ev_good _ _ H12).
      * right. by eapply closed_evolves.
Qed.

Lemma stored_none_evolves s s' id : evolves s s' -> stored_run s' id = None -> stored_run s id = None.
Proof.
  intros He Hn. destruct (stored_run s id) as [run|] eqn:E; [|done].
  apply (ev_runs _ _ He) in E as (run' & Hr & _). congruence.
Qed.

#[export] Instance prompt_preorder : PreOrder prompt.
Proof.
  split; [by intros s|]. intros s1 s2 s3 [H12 P12] [H23 P23]. split; [by etrans|].
  intros id Hp Hn. apply P23; [|done]. apply P12; [done|]. by eapply stored_none_evolves.
Qed.

Lemma prompt_evolves s s' : prompt s s' -> evolves s s'.
Proof. by intros []. Qed.

End State.
#[export] Hint Resolve prompt_evolves : gol.

(** ** Rely and guarantee *)

(** A discipline [G] for the steps: at least as free as [prompt], and at most
    as [evolves]. *)
Class Discipline `{UuidCrate} {R : Type} `{Redis R} (q : RunQueue)
    (G : Shared R -> Shared R -> Prop) : Prop := {
  disc_preorder :: PreOrder G;
  prompt_G s s' : prompt q s s' -> G s s';
  G_evolves s s' : G s s' -> evolves q s s';
}.

#[export] Instance prompt_discipline `{UuidCrate} {R} `{Redis R} q : Discipline q (prompt q).
Proof. split; [apply _|done|apply prompt_evolves]. Qed.

#[export] Instance evolves_discipline `{UuidCrate} {R} `{Redis R} q : Discipline q (evolves q).
Proof. split; [apply _|apply prompt_evolves|done]. Qed.

Section Triples.
Context `{UuidCrate} {R X : Type} `{Redis R} (q : RunQueue).
Context (G : Shared R -> Shared R -> Prop) `{!Discipline q G}.
Implicit Types (w : Server R X) (P F : Shared R -> Prop).

(** The others only do what [G] says. *)
Definition respectful w : Prop :=
  forall n s, Good q s -> G s (others (fu_moment (sv_future w) n) s).

(** From [w] on, this process only did what [G] says, and so did the others. *)
Definition moves w w' : Prop :=
  sv_future w' = sv_future w /\ G (sv_shared w) (sv_shared w') /\
  exists own, sv_steps w' = own ++ sv_steps w /\ Forall (fun step => G step.1 step.2) own.

Definition triple {A} P (m : M A) (Q : A -> Shared R -> Prop) : Prop :=
  forall w, respectful w -> Good q (sv_shared w) -> P (sv_shared w) ->
    moves w (m w).2 /\ Q (m w).1 (sv_shared (m w).2).

(** What the others cannot undo. *)
Definition stable P : Prop := forall s s', Good q s -> G s s' -> P s -> P s'.

#[export] Instance moves_preorder : PreOrder moves.
Proof.
  split.
  - intros w. split_and!; [done|done|]. by exists [].
  - intros w1 w2 w3 (Hf & Hg & own & Ho & Hs) (Hf' & Hg' & own' & Ho' & Hs').
    split_and!; [congruence|by etrans|]. exists (own' ++ own).
    rewrite Ho', Ho, app_assoc. split; [done|]. by apply Forall_app.
Qed.

Lemma moves_respectful w w' : moves w w' -> respectful w -> respectful w'.
Proof. intros (Hf & _) Hr n. rewrite Hf. apply Hr. Qed.

Lemma moves_good w w' : moves w w' -> Good q (sv_shared w) -> Good q (sv_shared w').
Proof. intros (_ & Hg & _). apply (ev_good q _ _ (G_evolves (G := G) _ _ Hg)). Qed.

Lemma triple_ret {A} (a : A) (Q : A -> Shared R -> Prop) : triple (Q a) (ret a) Q.
Proof. intros w _ _ HP. by split. Qed.

Lemma triple_bind {A B} P (m : M A) (Q : A -> Shared R -> Prop) (k : A -> M B)
    (T : B -> Shared R -> Prop) :
  triple P m Q -> (forall a, triple (Q a) (k a) T) -> triple P (bind m k) T.
Proof.
  intros Hm Hk w Hr Hg HP. destruct (Hm w Hr Hg HP) as [Hmv HQ]. unfold bind.
  destruct (m w) as [a w1]. simpl in *.
  destruct (Hk a w1) as [Hmv' HT]; [by eapply moves_respectful|by eapply moves_good|done|].
  split; [by etrans|done].
Qed.

Lemma bind_assoc {A B C} (m : @M R X A) (k : A -> M B) (l : B -> M C) w :
  bind (bind m k) l w = bind m (fun a => bind (k a) l) w.
Proof. unfold bind. by destruct (m w). Qed.

Lemma triple_ext {A} P (m m' : M A) (Q : A -> Shared R -> Prop) :
  (forall w, m' w = m w) -> triple P m Q -> triple P m' Q.
Proof. intros E Hm w. rewrite E. apply Hm. Qed.

Lemma triple_conseq {A} P P' (m : M A) (Q Q' : A -> Shared R -> Prop) :
  triple P m Q -> (forall s, Good q s -> P' s -> P s) ->
  (forall a s, Good q s -> Q a s -> Q' a s) -> triple P' m Q'.
Proof.
  intros Hm HP HQ w Hr Hg Hp. destruct (Hm w Hr Hg) as [Hmv Hq]; [by apply HP|].
  split; [done|]. apply HQ; [|done]. by eapply moves_good.
Qed.

Lemma triple_pure {A} (φ : Prop) P (m : M A) Q : (φ -> triple P m Q) -> triple (fun s => φ /\ P s) m Q.
Proof. intros Hm w Hr Hg [Hφ HP]. by apply Hm. Qed.

Lemma triple_frame {A} F P (m : M A) (Q : A -> Shared R -> Prop) :
  stable F -> triple P m Q -> triple (fun s => P s /\ F s) m (fun a s => Q a s /\ F s).
Proof.
  intros Hst Hm w Hr Hg [HP HF]. destruct (Hm w Hr Hg HP) as [Hmv HQ].
  split; [done|]. split; [done|]. destruct Hmv as (_ & Hgs & _). by eapply Hst.
Qed.

Lemma triple_call {A E} P (e : E) (f : Shared R -> result A E * Shared R)
    (Q : result A E -> Shared R -> Prop) :
  stable P ->
  (forall s, Good q s -> P s -> Q (Err e) s) ->
  (forall s, Good q s -> P s -> G s (f s).2 /\ Q (f s).1 (f s).2 /\ Q (Err e) (f s).2) ->
  triple P (call e f) Q.
Proof.
  intros Hst Hbefore Hstep w Hr Hg HP.
  pose proof (Hr (sv_drawn w) _ Hg) as Hothers.
  pose proof (ev_good q _ _ (G_evolves (G := G) _ _ Hothers) Hg) as Hg'.
  pose proof (Hst _ _ Hg Hothers HP) as HP'.
  destruct (Hstep _ Hg' HP') as (HG & HQ & HQe). unfold call.
  set (m := fu_moment (sv_future w) (sv_drawn w)) in *.
  destruct (fault m); [| |]; try destruct (f (others m (sv_shared w))) as [r s']; simpl in *;
    (split; [split_and!; [done|try (by etrans)|]|by auto]);
    eexists [_]; (split; [done|]); by constructor.
Qed.

(** What holds of the answer in any world. *)
Lemma triple_value {A} P (m : M A) (Q : A -> Shared R -> Prop) (φ : A -> Prop) :
  triple P m Q -> (forall w, φ (m w).1) -> triple P m (fun a s => Q a s /\ φ a).
Proof. intros Hm Hφ w Hr Hg HP. by destruct (Hm w Hr Hg HP). Qed.

(** A step that only draws from the clock and the random ids. *)
Definition draws {A} (m : @M R X A) (φ : A -> Prop) : Prop :=
  forall w, sv_shared (m w).2 = sv_shared w /\ sv_future (m w).2 = sv_future w /\
    sv_steps (m w).2 = sv_steps w /\ φ (m w).1.

Lemma triple_draws {A} P (m : M A) (φ : A -> Prop) :
  draws m φ -> triple P m (fun a s => φ a /\ P s).
Proof.
  intros Hd w _ _ HP. destruct (Hd w) as (Hs & Hf & Ho & Hφ). split; [|by rewrite Hs].
  split_and!; [done|by rewrite Hs|]. by exists [].
Qed.

Lemma draws_bind {A B} (m : M A) (φ : A -> Prop) (k : A -> M B) (ψ : B -> Prop) :
  draws m φ -> (forall a, φ a -> draws (k a) ψ) -> draws (bind m k) ψ.
Proof.
  intros Hm Hk w. unfold bind. destruct (Hm w) as (Hs & Hf & Ho & Hφ).
  destruct (m w) as [a w1]. simpl in *. destruct (Hk a Hφ w1) as (Hs' & Hf' & Ho' & Hψ).
  split_and!; congruence || done.
Qed.

Lemma draws_ret {A} (a : A) (φ : A -> Prop) : φ a -> draws (ret a) φ.
Proof. by intros Ha w. Qed.

Lemma draws_now : draws now (fun _ => True).
Proof. by intros w. Qed.

Lemma draws_random : draws random (fun _ => True).
Proof. by intros w. Qed.

(** An event recorded for a run. *)
Definition says (spec : RunSpec) (p : EventPayload) (e : Event) : Prop :=
  payload e = p /\ stamped spec e.

Lemma draws_recorded spec a p : draws (recorded spec a p) (says spec p).
Proof.
  unfold recorded. eapply draws_bind; [apply draws_now|]. intros t _.
  eapply draws_bind; [apply draws_random|]. intros n _. apply draws_ret. split; [done|]. by eexists _, _, _.
Qed.

End Triples.

(** ** The steps of the queue and of the store *)

Section Steps.
Context `{UuidCrate} {R : Type} `{Redis R} `{!RedisLaws R} (q : RunQueue) (Hq : keys_ok q).
Implicit Types (s : Shared R) (id : RunId) (run : StoredRun).

Definition with_queue s (r : R) : Shared R :=
  mkShared (sh_store s) (sh_messages s) (sh_triggers s) r.

(** When a script is safe: only an ended run, or one that is not stored, is
    acknowledged, only a stored one is pushed, and a run that waits is taken
    off pending only from where it is queued. *)
Definition allowed s (op : QueueOp) : Prop :=
  match op with
  | QAck i _ => forall id run, i = id_display id -> ~ open_run s id run
  | QPush i | QPushOnce i => exists id, i = id_display id /\ is_Some (stored_run s id)
  | QUnpend i => forall id run, i = id_display id -> open_run s id run ->
      was_queued (sr_events run) = true -> still_waiting (sr_events run) = true -> in_queue q s id
  | _ => True
  end.

Lemma open_not_closed s id run : open_run s id run -> ~ closed s id.
Proof. intros [Hr Ho] (run' & Hr' & Hc). congruence. Qed.

Lemma queue_op_kept s op id :
  Good q s -> allowed s op -> in_queue q s id ->
  in_queue q (with_queue s (queue_step q (sh_queue s) op).2) id \/ closed s id.
Proof.
  intros Hg Ha Hk. destruct (good_listed q s Hg id) as [run Hr]; [by left|].
  destruct (has_terminal (sr_events run)) eqn:Ht; [right; by exists run|]. left.
  assert (open_run s id run) as Hopen by done.
  apply queue_step_safe; [done..| |done|by eapply good_leased].
  intros [token ->]. by apply (Ha id run).
Qed.

Lemma queue_op_pending s op id run :
  Good q s -> allowed s op -> open_run s id run -> was_queued (sr_events run) = true ->
  still_waiting (sr_events run) = true -> is_pending q s id ->
  let s' := with_queue s (queue_step q (sh_queue s) op).2 in
  in_queue q s' id \/ is_pending q s' id.
Proof.
  intros Hg Ha Ho Hw Hs Hp.
  destruct op; try (right; apply queue_step_pending; [|done]; by intros [|[|]]).
  - destruct (decide (id0 = id_display id)) as [->|Hne].
    + left. destruct (queue_op_kept s (QUnpend (id_display id)) id Hg Ha) as [|Hc]; [|done|].
      * by eapply (Ha id run).
      * by destruct (open_not_closed _ _ _ Ho Hc).
    + right. apply queue_step_pending; [|done]. intros [|[|]]; congruence.
  - destruct (decide (id0 = id_display id)) as [->|Hne].
    + left. apply pushed_kept; auto.
    + right. apply queue_step_pending; [|done]. intros [|[|]]; congruence.
  - destruct (decide (id0 = id_display id)) as [->|Hne].
    + left. apply pushed_kept; auto.
    + right. apply queue_step_pending; [|done]. intros [|[|]]; congruence.
Qed.

Lemma queue_op_evolves s op :
  Good q s -> allowed s op -> evolves q s (with_queue s (queue_step q (sh_queue s) op).2).
Proof.
  intros Hg Ha. split.
  { intros id run Hr. by exists run. }
  2: { intros id _ Hk. by destruct (queue_op_kept s op id Hg Ha Hk); [left|right]. }
  intros _.
  split; [apply Hg|apply Hg| | | |].
  - intros id Hk. apply (queue_step_listed q Hq) in Hk as [Hk|Hop]; [by apply (good_listed q s Hg)|].
    destruct op; try (by destruct Hop); simplify_eq/=;
      destruct Hop as [Hop|Hop]; simplify_eq/=; destruct Ha as (id' & Hid%id_display_inj & Hs);
      by subst.
  - intros text id Hk Hid.
    apply (queue_step_listed q Hq) in Hk as [Hk|Hop]; [by apply (good_texts q s Hg)|].
    assert (exists id', text = id_display id') as [id' ->]
      by (destruct Hop as [-> | ->]; destruct Ha as (id' & -> & _); by exists id').
    rewrite id_parse_display in Hid. congruence.
  - intros id run Ho. apply queue_step_leased; [done| |by eapply good_leased].
    intros [token ->]. by apply (Ha id run).
  - intros id run Ho Hw. destruct (good_kept q s Hg id run Ho Hw) as [Hk|[Hs Hp]].
    + left. destruct (queue_op_kept s op id Hg Ha Hk) as [|Hc]; [done|].
      by destruct (open_not_closed _ _ _ Ho Hc).
    + destruct (queue_op_pending s op id run Hg Ha Ho Hw Hs Hp) as [|]; auto.
Qed.

(** Only a stored run is taken off pending. *)
Definition unpends_stored s (op : QueueOp) : Prop :=
  forall id, op = QUnpend (id_display id) -> is_Some (stored_run s id).

Lemma queue_op_prompt s op :
  Good q s -> allowed s op -> unpends_stored s op ->
  prompt q s (with_queue s (queue_step q (sh_queue s) op).2).
Proof.
  intros Hg Ha Hu. split; [by apply queue_op_evolves|]. intros id Hp Hn.
  change (stored_run s id = None) in Hn. apply queue_step_pending; [|done].
  intros [->|[-> | ->]].
  - destruct (Hu id eq_refl). congruence.
  - destruct Ha as (id' & <-%id_display_inj & [? ?]). congruence.
  - destruct Ha as (id' & <-%id_display_inj & [? ?]). congruence.
Qed.

(** A step that leaves the runs and the queue as they are, and stores every
    agent under its own id. *)
Lemma store_prompt s s' :
  (forall id, stored_run s' id = stored_run s id) ->
  (store_wf (runs_store s) -> store_wf (runs_store s')) ->
  (forall agent kept, get_agent (runs_store s') agent = Some kept ->
     get_agent (runs_store s) agent = Some kept \/ am_id (sa_manifest kept) = agent) ->
  sh_queue s' = sh_queue s -> prompt q s s'.
Proof.
  intros Hr Hwf Ha Hqu.
  assert (forall id, in_queue q s' id <-> in_queue q s id) as Hk.
  { intros id. unfold in_queue. by rewrite Hqu. }
  assert (forall id run, open_run s' id run <-> open_run s id run) as Ho.
  { intros id run. unfold open_run. by rewrite Hr. }
  assert (forall id, is_pending q s' id <-> is_pending q s id) as Hp.
  { intros id. unfold is_pending. by rewrite Hqu. }
  split; [split|].
  - intros id run Hs. exists run. by rewrite Hr.
  - intros [Hwf' Hag Hl Htx Hle Hke]. split; [auto| | | | |].
    + intros agent kept [Hg|Hg]%Ha; [by apply Hag|done].
    + intros id. unfold leased. rewrite Hk, Hr, Hqu. apply Hl.
    + intros text id. rewrite Hqu. apply Htx.
    + intros id run. rewrite Ho, Hqu. apply Hle.
    + intros id run. rewrite Ho, Hk, Hp. apply Hke.
  - intros id _. rewrite Hk. auto.
  - intros id. by rewrite Hp.
Qed.

(** A step that leaves the runs, the agents and the queue as they are. *)
Lemma frame_prompt s s' :
  (forall id, stored_run s' id = stored_run s id) ->
  (forall agent, get_agent (runs_store s') agent = get_agent (runs_store s) agent) ->
  (store_wf (runs_store s) -> store_wf (runs_store s')) ->
  sh_queue s' = sh_queue s -> prompt q s s'.
Proof.
  intros Hr Ha Hwf Hqu. apply store_prompt; [done..| |done]. intros agent kept. rewrite Ha. by left.
Qed.

(** The runs of a store after one changed. *)
Definition with_runs s (st : RunsStore) : Shared R :=
  with_store s (mkStopsStore st (ss_stops (sh_store s))).

(** A step that changes the log of [id] alone, or stores it: the rules hold
    when the run it leaves is safe. *)
Lemma one_run_prompt s st id run :
  Good q s -> store_wf st ->
  (forall agent, get_agent st agent = get_agent (runs_store s) agent) ->
  (forall id', get_run st id' = if bool_decide (id = id') then Some run else stored_run s id') ->
  match stored_run s id with
  | Some old => has_terminal (sr_events old) = false /\ sr_spec run = sr_spec old /\
      exists es, sr_events run = sr_events old ++ es /\
        (was_queued (sr_events run) = true -> in_queue q s id \/ has_terminal es = true)
  | None => has_terminal (sr_events run) = false -> was_queued (sr_events run) = true ->
      still_waiting (sr_events run) = true /\ is_pending q s id
  end ->
  prompt q s (with_runs s st).
Proof.
  intros Hg Hwf Hag Hget Hold.
  assert (forall id', stored_run (with_runs s st) id' =
    if bool_decide (id = id') then Some run else stored_run s id') as Hst by done.
  split; [split|].
  - intros id' run' Hr'. rewrite Hst. case_bool_decide; [|by exists run']. subst id'.
    rewrite Hr' in Hold. destruct Hold as (Ho & Hs & es & He & _). exists run. split; [done|].
    split_and!; [done|rewrite He; by apply prefix_app_r|congruence].
  - intros _. split; [done|intros agent; rewrite Hag; apply Hg| | | |].
    + intros id' Hk. rewrite Hst. case_bool_decide; [by eexists|]. by apply (good_listed q s Hg).
    + apply (good_texts q s Hg).
    + intros id' run' [Hr' Ho']. rewrite Hst in Hr'. case_bool_decide.
      * subst id'. destruct (stored_run s id) as [old|] eqn:E.
        -- destruct Hold as (Ho & _). by eapply (good_leased q s Hg id old).
        -- intros Hl. destruct (good_listed q s Hg id); [by right|congruence].
      * by eapply (good_leased q s Hg).
    + intros id' run' [Hr' Ho'] Hw. rewrite Hst in Hr'. case_bool_decide.
      * subst id'. injection Hr' as <-. destruct (stored_run s id) as [old|] eqn:E; [|auto].
        destruct Hold as (Ho & _ & es & He & Hin). left.
        rewrite He in Ho'. unfold has_terminal in *. rewrite existsb_app in Ho'.
        apply orb_false_iff in Ho' as [_ Ho']. by destruct (Hin Hw) as [|?]; [|congruence].
      * by apply (good_kept q s Hg id' run').
  - intros id' _ Hk. by left.
  - intros id' Hp _. done.
Qed.

End Steps.

(** ** The rules of the calls *)

(** The run was stored under [id] with (at least) this log. *)
Definition seen_run {R} (id : RunId) (run : StoredRun) (s : Shared R) : Prop :=
  exists run', stored_run s id = Some run' /\ grows run run'.

(** Once stored, an open run is in the queue. *)
Definition held `{UuidCrate} {R} `{Redis R} (q : RunQueue) (id : RunId) (s : Shared R) : Prop :=
  is_Some (stored_run s id) /\ (in_queue q s id \/ closed s id).

Section Rules.
Context `{UuidCrate} {R X : Type} `{Redis R} `{!RedisLaws R} (q : RunQueue) (Hq : keys_ok q).
Context (G : Shared R -> Shared R -> Prop) `{!Discipline q G}.
Implicit Types (P : Shared R -> Prop) (id : RunId).

Abbreviation triple := (triple (X := X) q G).
Abbreviation stable := (stable q G).

Lemma stable_and P F : stable P -> stable F -> stable (fun s => P s /\ F s).
Proof. intros HP HF s s' Hg HG [? ?]. split; [by eapply HP|by eapply HF]. Qed.

Lemma stable_pure (φ : Prop) : stable (fun _ => φ).
Proof. by intros s s'. Qed.

Lemma stable_closed id : stable (fun s => closed s id).
Proof. intros s s' _ HG. by apply (closed_evolves q), G_evolves. Qed.

Lemma stable_seen id run : stable (seen_run id run).
Proof.
  intros s s' _ HG (run' & Hr & Hgr). apply (ev_runs q _ _ (G_evolves (G := G) _ _ HG)) in Hr as (run'' & Hr & Hg').
  exists run''. split; [done|]. by etrans.
Qed.

Lemma stable_stored id : stable (fun s => is_Some (stored_run s id)).
Proof.
  intros s s' _ HG [run Hr]. apply (ev_runs q _ _ (G_evolves (G := G) _ _ HG)) in Hr as (run' & -> & _). by eexists.
Qed.

Lemma stable_held id : stable (held q id).
Proof.
  intros s s' Hg HG [Hs Hk]. split; [by eapply stable_stored|].
  destruct Hk as [Hk|Hc]; [|right; by eapply stable_closed].
  by apply (ev_kept q _ _ (G_evolves (G := G) _ _ HG)).
Qed.

Lemma triple_store_read {A} P (f : Shared R -> A) (φ : A -> Shared R -> Prop) :
  stable P -> (forall s, Good q s -> P s -> φ (f s) s) ->
  triple P (store_call (reads f))
    (fun r s => P s /\ match r with Ok a => φ a s | Err _ => True end).
Proof.
  intros HP Hφ. apply (triple_call q G); [done|auto|]. intros s Hg Hp. simpl.
  split; [reflexivity|]. auto.
Qed.

Lemma triple_read {A} P (f : Shared R -> A) :
  stable P -> triple P (store_call (reads f)) (fun _ => P).
Proof.
  intros HP. eapply (triple_conseq q G); [by apply (triple_store_read P f (fun _ _ => True))|done|].
  by intros r s _ [? _].
Qed.

Lemma triple_queue_read {A} P (f : R -> A) (φ : A -> Shared R -> Prop) :
  stable P -> (forall s, Good q s -> P s -> φ (f (sh_queue s)) s) ->
  triple P (queue_call (reads_queue f))
    (fun r s => P s /\ match r with Ok a => φ a s | Err _ => True end).
Proof.
  intros HP Hφ. apply (triple_call q G); [done|auto|]. intros s Hg Hp. simpl.
  specialize (Hφ s Hg Hp). destruct s. simpl in *. split; [reflexivity|]. by split_and!.
Qed.

Lemma triple_run P id :
  stable P -> triple P (do_run id)
    (fun r s => P s /\ match r with Ok (Some run) => seen_run id run s | _ => True end).
Proof.
  intros HP. eapply (triple_conseq q G); [apply (triple_store_read P _ (fun o s => match o with Some run => seen_run id run s | None => True end)); [done|]|done|].
  - intros s _ _. destruct (stored_run s id) as [run|] eqn:E; [|done]. by exists run.
  - intros [[run|]|] s _ [? ?]; done.
Qed.

(** A script of the queue as a call, and what it answers. *)
Lemma triple_queue_op {A} P (op : QueueOp) (f : R -> A * R) (φ : A -> Shared R -> Prop) :
  stable P ->
  (forall s, Good q s -> P s -> (f (sh_queue s)).2 = (queue_step q (sh_queue s) op).2) ->
  (forall s, Good q s -> P s -> allowed q s op /\ unpends_stored s op) ->
  (forall s, Good q s -> P s ->
     φ (f (sh_queue s)).1 (with_queue s (queue_step q (sh_queue s) op).2)) ->
  triple P (queue_call f)
    (fun r s => P s /\ match r with Ok a => φ a s | Err _ => True end).
Proof.
  intros HP Hf Hal Hφ. apply (triple_call q G); [done|auto|]. intros s Hg Hp.
  specialize (Hf s Hg Hp). specialize (Hφ s Hg Hp).
  destruct (f (sh_queue s)) as [a r]. simpl in *. subst r.
  destruct (Hal s Hg Hp) as [Ha Hu]. pose proof (queue_op_prompt q Hq s op Hg Ha Hu) as Hpr.
  apply prompt_G in Hpr. split; [exact Hpr|]. split_and!; [by eapply HP|exact Hφ|by eapply HP|done].
Qed.

(** The same where nothing is asked of the answer. *)
Lemma triple_queue_silent P (op : QueueOp) (f : R -> R) :
  stable P -> (forall r, f r = (queue_step q r op).2) ->
  (forall s, Good q s -> P s -> allowed q s op /\ unpends_stored s op) ->
  triple P (queue_call (silent f)) (fun _ => P).
Proof.
  intros HP Hf Hal.
  eapply (triple_conseq q G); [apply (triple_queue_op P op _ (fun _ _ => True)); try done| done|].
  - intros s _ _. apply Hf.
  - by intros r s _ [? _].
Qed.

Lemma triple_messages {A} P (f : Messages -> result A StoreError * Messages)
    (φ : A -> Shared R -> Prop) :
  stable P ->
  (forall s, Good q s -> P s ->
     match (f (sh_messages s)).1 with Ok a => φ a (on_messages f s).2 | Err _ => True end) ->
  triple P (store_call (on_messages f))
    (fun r s => P s /\ match r with Ok a => φ a s | Err _ => True end).
Proof.
  intros HP Hφ. apply (triple_call q G); [done|auto|]. intros s Hg Hp.
  specialize (Hφ s Hg Hp). unfold on_messages in *. destruct (f (sh_messages s)) as [r ms]. simpl in *.
  assert (G s (mkShared (sh_store s) ms (sh_triggers s) (sh_queue s))) as HG
    by (by apply prompt_G, frame_prompt).
  split; [done|]. split_and!; [by eapply HP|done|by eapply HP|done].
Qed.

Lemma triple_triggers {A} P (f : Triggers -> result A StoreError * Triggers)
    (φ : A -> Shared R -> Prop) :
  stable P ->
  (forall s, Good q s -> P s ->
     match (f (sh_triggers s)).1 with Ok a => φ a (on_triggers f s).2 | Err _ => True end) ->
  triple P (store_call (on_triggers f))
    (fun r s => P s /\ match r with Ok a => φ a s | Err _ => True end).
Proof.
  intros HP Hφ. apply (triple_call q G); [done|auto|]. intros s Hg Hp.
  specialize (Hφ s Hg Hp). unfold on_triggers in *. destruct (f (sh_triggers s)) as [r ts]. simpl in *.
  assert (G s (mkShared (sh_store s) (sh_messages s) ts (sh_queue s))) as HG
    by (by apply prompt_G, frame_prompt).
  split; [done|]. split_and!; [by eapply HP|done|by eapply HP|done].
Qed.

End Rules.

(** ** The rules of appends and puts *)

Section StoreRules.
Context `{UuidCrate} {R X : Type} `{Redis R} `{!RedisLaws R} (q : RunQueue) (Hq : keys_ok q).
Context (G : Shared R -> Shared R -> Prop) `{!Discipline q G}.
Implicit Types (P : Shared R -> Prop) (id : RunId) (s : Shared R).

Abbreviation triple := (triple (X := X) q G).
Abbreviation stable := (stable q G).

Lemma get_run_set_runs st (rs : gmap RunId StoredRun) id id' run :
  get_run (set_runs st (<[id := run]> rs)) id' =
    if bool_decide (id = id') then Some run else rs !! id'.
Proof.
  unfold get_run, lock_read. simpl. case_bool_decide; [subst; apply lookup_insert_eq|].
  by apply lookup_insert_ne.
Qed.

Lemma append_step s id seen es t r st :
  Good q s ->
  (forall run, open_run s id run -> was_queued (sr_events run ++ es) = true ->
     in_queue q s id \/ has_terminal es = true) ->
  append_checked (runs_store s) id seen es t = (r, st) ->
  prompt q s (with_runs s st) /\
  (r = Ok Appended -> exists run, open_run s id run /\
     (forall n, seen = Some n -> n = length (sr_events run)) /\
     stored_run (with_runs s st) id = Some (mkStoredRun (sr_spec run) (sr_events run ++ es))).
Proof.
  intros Hg Hin E. pose proof (append_checked_wf _ _ _ _ _ _ _ (good_store q s Hg) E) as Hwf.
  apply append_checked_cases in E as [[-> Hr]|(run & Hrun & -> & He & Hseen & _ & ->)].
  { split; [|done]. by apply frame_prompt. }
  rewrite <-has_terminal_ended in He.
  assert (open_run s id run) as Ho by done.
  set (run' := mkStoredRun (sr_spec run) (sr_events run ++ es)) in *.
  split.
  - apply (one_run_prompt q s _ id run'); [done|done|done|intros id'; apply get_run_set_runs|].
    unfold stored_run, get_run. rewrite Hrun. split_and!; [done|done|]. exists es. eauto.
  - intros _. exists run. split_and!; [done|done|].
    etrans; [apply get_run_set_runs|]. by rewrite bool_decide_true.
Qed.

Lemma append_terminal st id seen es t st' :
  append_checked st id seen es t = (Ok Terminal, st') ->
  exists run, get_run st id = Some run /\ has_terminal (sr_events run) = true /\ st' = st.
Proof.
  unfold append_checked, get_run. destruct (check_one_terminal es); [|done].
  unfold lock_write. destruct (poisoned (runs st)); [done|].
  change (guarded (runs st)) with (lock_read (runs st)).
  destruct (lock_read (runs st) !! id) as [run|]; [|done].
  destruct (has_terminal (sr_events run)) eqn:Ht; [intros [= <-]; eauto|].
  destruct (match seen with Some n => _ | None => false end); [done|].
  by destruct (number _ _ _ _ _ _).
Qed.

Lemma append_missing st id seen es t st' :
  append_checked st id seen es t = (Ok Missing, st') -> get_run st id = None.
Proof.
  unfold append_checked, get_run. destruct (check_one_terminal es); [|done].
  unfold lock_write. destruct (poisoned (runs st)); [done|].
  change (guarded (runs st)) with (lock_read (runs st)).
  destruct (lock_read (runs st) !! id) as [run|]; [|done].
  destruct (has_terminal (sr_events run)); [done|].
  destruct (match seen with Some n => _ | None => false end); [done|].
  by destruct (number _ _ _ _ _ _).
Qed.

Lemma append_moved st id seen es t st' :
  append_checked st id seen es t = (Ok Moved, st') -> is_Some seen.
Proof.
  unfold append_checked. destruct (check_one_terminal es); [|done].
  unfold lock_write. destruct (poisoned (runs st)); [done|].
  destruct (guarded (runs st) !! id) as [run|]; [|done].
  destruct (has_terminal (sr_events run)); [done|].
  destruct seen; [by eexists|]. by destruct (number _ _ _ _ _ _).
Qed.

Lemma triple_append_any P id seen es :
  stable P ->
  (forall s run, Good q s -> P s -> open_run s id run -> was_queued (sr_events run ++ es) = true ->
     in_queue q s id \/ has_terminal es = true) ->
  triple P (bind now (fun t => store_call (on_runs (fun st => append_checked st id seen es t))))
    (fun r s => P s /\
       match r with
       | Ok Appended => exists s0 run, Good q s0 /\ P s0 /\ open_run s0 id run /\
           (forall n, seen = Some n -> n = length (sr_events run)) /\
           seen_run id (mkStoredRun (sr_spec run) (sr_events run ++ es)) s
       | Ok Terminal => closed s id
       | Ok Missing => exists s0, P s0 /\ stored_run s0 id = None
       | Ok Moved => is_Some seen
       | Err _ => True
       end).
Proof.
  intros HP Hin. eapply (triple_bind q G); [apply (triple_draws q G), draws_now|].
  intros t. apply (triple_pure q G). intros _.
  apply (triple_call q G); [done|auto|]. intros s Hg Hp. unfold on_runs.
  destruct (append_checked (runs_store s) id seen es t) as [r st] eqn:E. simpl.
  destruct (append_step s id seen es t r st Hg ltac:(eauto) E) as [Hpr Happ].
  apply prompt_G in Hpr as HG. assert (P (with_runs s st)) as HP' by (by eapply HP).
  split; [done|]. split; [|done]. split; [done|].
  destruct r as [[]|]; try done.
  - destruct (Happ eq_refl) as (run & Ho & Hseen & Hst). exists s, run. split_and!; try done.
    by eexists.
  - apply append_terminal in E as (run & Hr & Ht & ->). by exists run.
  - apply append_missing in E. by exists s.
  - by apply append_moved in E.
Qed.

(** The same for events that do not queue the run. *)
Lemma triple_append P id seen es :
  stable P -> was_queued es = false ->
  (forall s run, Good q s -> P s -> open_run s id run -> was_queued (sr_events run) = true ->
     in_queue q s id \/ has_terminal es = true) ->
  triple P (bind now (fun t => store_call (on_runs (fun st => append_checked st id seen es t))))
    (fun r s => P s /\
       match r with
       | Ok Appended => exists s0 run, Good q s0 /\ P s0 /\ open_run s0 id run /\
           (forall n, seen = Some n -> n = length (sr_events run)) /\
           seen_run id (mkStoredRun (sr_spec run) (sr_events run ++ es)) s
       | Ok Terminal => closed s id
       | Ok Missing => exists s0, P s0 /\ stored_run s0 id = None
       | Ok Moved => is_Some seen
       | Err _ => True
       end).
Proof.
  intros HP Hnq Hin. apply triple_append_any; [done|]. intros s run Hg Hp Ho Hw.
  apply (Hin s run Hg Hp Ho). unfold was_queued in *. by rewrite existsb_app, Hnq, orb_false_r in Hw.
Qed.

(** What an append of events that end the run leaves. *)
Definition ends_run P id (seen : option nat) (r : result Append StoreError) s : Prop :=
  match r with
  | Ok (Appended | Terminal) => closed s id
  | Ok Missing => exists s0, P s0 /\ stored_run s0 id = None
  | Ok Moved => is_Some seen
  | Err _ => True
  end.

Lemma seen_closed id run s : seen_run id run s -> has_terminal (sr_events run) = true -> closed s id.
Proof. intros (run' & Hr & _ & _ & Hsame) Ht. rewrite Hsame in Hr by done. by exists run. Qed.

Lemma triple_ending_any P id seen es :
  stable P -> has_terminal es = true ->
  triple P (bind now (fun t => store_call (on_runs (fun st => append_checked st id seen es t))))
    (fun r s => P s /\ ends_run P id seen r s).
Proof.
  intros HP Ht. eapply (triple_conseq q G); [by apply triple_append_any; auto|done|].
  intros [[]|] s _ [Hp Hpost]; split; try done.
  destruct Hpost as (s0 & run & _ & _ & _ & _ & Hseen). eapply seen_closed; [exact Hseen|].
  simpl. unfold has_terminal in *. by rewrite existsb_app, Ht, orb_true_r.
Qed.

Lemma triple_ending P id es :
  stable P -> has_terminal es = true ->
  triple P (do_append_events id es) (fun r s => P s /\ ends_run P id None r s).
Proof. apply triple_ending_any. Qed.

Lemma put_step s run t r st :
  Good q s -> let id := run_id (sr_spec run) in
  (stored_run s id = None -> has_terminal (sr_events run) = false ->
     was_queued (sr_events run) = true ->
     still_waiting (sr_events run) = true /\ is_pending q s id) ->
  put_run (runs_store s) run t = (r, st) ->
  prompt q s (with_runs s st) /\
  (r = Ok RunStored -> stored_run s id = None /\ stored_run (with_runs s st) id = Some run).
Proof.
  intros Hg id Hin E. pose proof (put_run_wf _ _ _ _ _ (good_store q s Hg) E) as Hwf.
  apply put_run_cases in E as [[-> Hr]|(Hnone & -> & _ & ->)]; [| |apply Hg].
  { split; [|done]. by apply frame_prompt. }
  split.
  - apply (one_run_prompt q s _ id run); [done|done|done|intros id'; apply get_run_set_runs|].
    unfold stored_run, get_run in *. fold id in Hnone. rewrite Hnone in *. auto.
  - intros _. split; [done|]. etrans; [apply get_run_set_runs|]. by rewrite bool_decide_true.
Qed.

Lemma put_existed st run t st' :
  put_run st run t = (Ok RunExisted, st') ->
  is_Some (get_run st (run_id (sr_spec run))) /\ st' = st.
Proof.
  unfold put_run, get_run. destruct (check_one_terminal _); [|done].
  unfold lock_write. destruct (poisoned (runs st)); [done|].
  change (guarded (runs st)) with (lock_read (runs st)).
  destruct (lock_read (runs st) !! _); [intros [= <-]; eauto|].
  destruct (number _ _ _ _ _ _) as [st1|]; [|done].
  destruct (poisoned (stored _)); done.
Qed.

Lemma triple_put_run P run :
  let id := run_id (sr_spec run) in
  stable P ->
  (forall s, Good q s -> P s -> stored_run s id = None -> has_terminal (sr_events run) = false ->
     was_queued (sr_events run) = true ->
     still_waiting (sr_events run) = true /\ is_pending q s id) ->
  triple P (do_put_run run)
    (fun r s => P s /\
       match r with
       | Ok RunStored => seen_run id run s
       | Ok RunExisted => is_Some (stored_run s id)
       | Err _ => True
       end).
Proof.
  intros id HP Hin. eapply (triple_bind q G); [apply (triple_draws q G), draws_now|].
  intros t. apply (triple_pure q G). intros _.
  apply (triple_call q G); [done|auto|]. intros s Hg Hp. unfold on_runs.
  destruct (put_run (runs_store s) run t) as [r st] eqn:E. simpl.
  destruct (put_step s run t r st Hg (Hin s Hg Hp) E) as [Hpr Hput].
  apply prompt_G in Hpr as HG. assert (P (with_runs s st)) as HP' by (by eapply HP).
  split; [done|]. split; [|done]. split; [done|].
  destruct r as [[]|]; try done.
  - destruct (Hput eq_refl) as [_ Hst]. by eexists.
  - apply put_existed in E as [Hs ->]. done.
Qed.

End StoreRules.

(** ** Sequencing with [?] *)

Section Try.
Context `{UuidCrate} {R X : Type} `{Redis R} (q : RunQueue).
Context (G : Shared R -> Shared R -> Prop) `{!Discipline q G}.

Abbreviation triple := (triple (X := X) q G).
Abbreviation stable := (stable q G).

Lemma triple_try_with {A B E F} P (f : E -> F) (m : M (result A E)) (k : A -> M (result B F)) Q T :
  triple P m Q -> (forall a, triple (Q (Ok a)) (k a) T) ->
  (forall e s, Q (Err e) s -> T (Err (f e)) s) -> triple P (try_with f m k) T.
Proof.
  intros Hm Hk He. eapply (triple_bind q G); [done|]. intros [a|e]; [apply Hk|].
  eapply (triple_conseq q G); [apply (triple_ret q G)|intros s _; apply He|done].
Qed.

Lemma triple_try {A B E} P (m : M (result A E)) (k : A -> M (result B E)) Q T :
  triple P m Q -> (forall a, triple (Q (Ok a)) (k a) T) ->
  (forall e s, Q (Err e) s -> T (Err e) s) -> triple P (try m k) T.
Proof. apply (triple_try_with P (fun e => e)). Qed.

(** A value returned where the postcondition already holds. *)
Lemma triple_done {A} P (a : A) (Q : A -> Shared R -> Prop) :
  (forall s, Good q s -> P s -> Q a s) -> triple P (ret a) Q.
Proof. intros HP. eapply (triple_conseq q G); [apply (triple_ret q G)|done|done]. Qed.

Lemma triple_pre {A} P P' (m : M A) Q :
  triple P m Q -> (forall s, Good q s -> P' s -> P s) -> triple P' m Q.
Proof. intros Hm HP. by eapply (triple_conseq q G). Qed.

Lemma triple_post {A} P (m : M A) (Q Q' : A -> Shared R -> Prop) :
  triple P m Q -> (forall a s, Good q s -> Q a s -> Q' a s) -> triple P m Q'.
Proof. intros Hm HQ. by eapply (triple_conseq q G). Qed.

(** A loop keeps what its body keeps. *)
Lemma triple_for_each {A T} (l : list T) (body : A -> T -> M A) (I : A -> Shared R -> Prop) a :
  (forall a x, x ∈ l -> triple (I a) (body a x) I) -> triple (I a) (for_each l body a) I.
Proof.
  revert a. induction l as [|x l IH]; intros a Hb; simpl; [apply (triple_ret q G)|].
  eapply (triple_bind q G); [apply Hb; set_solver|]. intros a'. apply IH. intros ? ? ?. apply Hb. set_solver.
Qed.

End Try.

(** ** Cells *)

Section Cells.
Context `{UuidCrate} {R X C : Type} `{Redis R} (q : RunQueue).
Context (G : Shared R -> Shared R -> Prop) `{!Discipline q G}.

Lemma triple_with_cell {A} P (c : C) (m : @M R (C * X) A) (Q : A -> Shared R -> Prop) :
  triple q G P m Q -> triple q G P (with_cell c m) (fun ac => Q ac.1).
Proof.
  intros Hm w Hr Hg HP. unfold with_cell.
  set (w0 := mkServer _ (c, sv_rest w) _ _ _).
  destruct (Hm w0 Hr Hg HP) as [(Hf & HG & own & Ho & Hs) HQ].
  destruct (m w0) as [a w1]. simpl in *. split; [|done]. split_and!; [done|done|]. by exists own.
Qed.

Lemma triple_beside_cell {A} P (m : @M R X A) (Q : A -> Shared R -> Prop) :
  triple q G P m Q -> triple q G P (beside_cell m : @M R (C * X) A) Q.
Proof.
  intros Hm w Hr Hg HP. unfold beside_cell.
  set (w0 := mkServer _ (sv_rest w).2 _ _ _).
  destruct (Hm w0 Hr Hg HP) as [(Hf & HG & own & Ho & Hs) HQ].
  destruct (m w0) as [a w1]. simpl in *. split; [|done]. split_and!; [done|done|]. by exists own.
Qed.

Lemma triple_set_cell P (c : C) : triple q G P (set_cell c : @M R (C * X) unit) (fun _ => P).
Proof. intros w _ _ HP. split; [|done]. split_and!; [done|reflexivity|]. by exists []. Qed.

Lemma triple_get_cell P : triple q G P (get_cell : @M R (C * X) C) (fun _ => P).
Proof. intros w _ _ HP. split; [|done]. split_and!; [done|reflexivity|]. by exists []. Qed.

End Cells.

(** What a handler keeps of the rest of its process. *)

Section Rest.
Context {R X : Type} (I : X -> Prop).

Definition rest_inv {A} (m : @M R X A) : Prop := forall w, I (sv_rest w) -> I (sv_rest (m w).2).

Lemma rest_ret {A} (a : A) : rest_inv (ret a).
Proof. by intros w. Qed.

Lemma rest_bind {A B} (m : M A) (k : A -> M B) :
  rest_inv m -> (forall a, rest_inv (k a)) -> rest_inv (bind m k).
Proof.
  intros Hm Hk w HI. unfold bind. specialize (Hm w HI). destruct (m w) as [a w1]. by apply Hk.
Qed.

Lemma rest_try_with {A B E F} (f : E -> F) (m : M (result A E)) (k : A -> M (result B F)) :
  rest_inv m -> (forall a, rest_inv (k a)) -> rest_inv (try_with f m k).
Proof. intros Hm Hk. apply rest_bind; [done|]. intros [a|e]; [apply Hk|apply rest_ret]. Qed.

Lemma rest_try {A B E} (m : M (result A E)) (k : A -> M (result B E)) :
  rest_inv m -> (forall a, rest_inv (k a)) -> rest_inv (try m k).
Proof. apply (rest_try_with (fun e => e)). Qed.

Lemma rest_call {A E} (e : E) (f : Shared R -> result A E * Shared R) : rest_inv (call e f).
Proof.
  intros w HI. unfold call. set (m := fu_moment _ _).
  destruct (fault m); [|done|]; by destruct (f _).
Qed.

Lemma rest_now : rest_inv now.
Proof. by intros w. Qed.

Lemma rest_random : rest_inv random.
Proof. by intros w. Qed.

Lemma rest_recorded spec a p : rest_inv (recorded spec a p).
Proof.
  apply rest_bind; [apply rest_now|]. intros t. apply rest_bind; [apply rest_random|].
  intros n. apply rest_ret.
Qed.

End Rest.
Create HintDb rest.
#[export] Hint Resolve rest_ret rest_bind rest_try rest_try_with rest_call rest_now rest_random
  rest_recorded : rest.

(** ** What a handler touches

    Whatever the others do, every own step of the handler is in [Φ]. *)

Section Only.
Context {R X : Type}.
Implicit Types (Φ : Shared R -> Shared R -> Prop).

Definition only {A} Φ (m : @M R X A) : Prop :=
  forall w, exists own, sv_steps (m w).2 = own ++ sv_steps w /\
    Forall (fun step => Φ step.1 step.2) own.

Lemma only_ret {A} Φ (a : A) : only Φ (ret a).
Proof. intros w. by exists []. Qed.

Lemma only_bind {A B} Φ (m : M A) (k : A -> M B) :
  only Φ m -> (forall a, only Φ (k a)) -> only Φ (bind m k).
Proof.
  intros Hm Hk w. unfold bind. destruct (Hm w) as (own & Ho & Hf). destruct (m w) as [a w1].
  destruct (Hk a w1) as (own' & Ho' & Hf'). simpl in *. exists (own' ++ own).
  rewrite Ho', Ho, app_assoc. split; [done|]. by apply Forall_app.
Qed.

Lemma only_try_with {A B E F} Φ (f : E -> F) (m : M (result A E)) (k : A -> M (result B F)) :
  only Φ m -> (forall a, only Φ (k a)) -> only Φ (try_with f m k).
Proof. intros Hm Hk. apply only_bind; [done|]. intros [a|e]; [apply Hk|apply only_ret]. Qed.

Lemma only_draws {A} Φ (m : @M R X A) φ : draws m φ -> only Φ m.
Proof. intros Hd w. destruct (Hd w) as (_ & _ & Ho & _). by exists []. Qed.

(** A call is one step, and its answer is that step's. *)
Lemma call_step {A E} (e : E) (f : Shared R -> result A E * Shared R) (w : Server R X) :
  exists s s', sv_steps (call e f w).2 = (s, s') :: sv_steps w /\ (s' = s \/ s' = (f s).2) /\
    forall a, (call e f w).1 = Ok a -> f s = (Ok a, s').
Proof.
  unfold call. set (m := fu_moment _ _). destruct (fault m).
  - destruct (f (others m (sv_shared w))) as [r s'] eqn:E'. simpl.
    eexists _, _. split_and!; [done|right; by rewrite E'|]. intros a ->. done.
  - simpl. eexists _, _. split_and!; [done|by left|done].
  - destruct (f (others m (sv_shared w))) as [r s'] eqn:E'. simpl.
    eexists _, _. split_and!; [done|right; by rewrite E'|done].
Qed.

Lemma only_call {A E} Φ (e : E) (f : Shared R -> result A E * Shared R) :
  (forall s, Φ s s) -> (forall s, Φ s (f s).2) -> only Φ (call e f : @M R X _).
Proof.
  intros Hid Hf w. destruct (call_step e f w) as (s & s' & Hs & Hc & _). exists [(s, s')].
  split; [done|]. constructor; [|done]. simpl. by destruct Hc as [-> | ->].
Qed.

(** The same of the runs whose answer is in [φ]. *)
Definition only_when {A} (φ : A -> Prop) Φ (m : @M R X A) : Prop :=
  forall w, φ (m w).1 -> exists own, sv_steps (m w).2 = own ++ sv_steps w /\
    Forall (fun step => Φ step.1 step.2) own.

Lemma only_when_bind {A B} (φ : B -> Prop) Φ (m : M A) (k : A -> M B) :
  only Φ m -> (forall a, only_when φ Φ (k a)) -> only_when φ Φ (bind m k).
Proof.
  intros Hm Hk w. unfold bind. destruct (Hm w) as (own & Ho & Hf). destruct (m w) as [a w1].
  intros Hφ. destruct (Hk a w1 Hφ) as (own' & Ho' & Hf'). simpl in *. exists (own' ++ own).
  rewrite Ho', Ho, app_assoc. split; [done|]. by apply Forall_app.
Qed.

Lemma only_when_try_with {A B E F} (φ : result B F -> Prop) Φ (f : E -> F)
    (m : M (result A E)) (k : A -> M (result B F)) :
  only Φ m -> (forall a, only_when φ Φ (k a)) -> only_when φ Φ (try_with f m k).
Proof.
  intros Hm Hk. apply only_when_bind; [done|]. intros [a|e]; [apply Hk|].
  intros w _. by apply only_ret.
Qed.

Lemma only_when_only {A} (φ : A -> Prop) Φ (m : M A) : only Φ m -> only_when φ Φ m.
Proof. by intros Hm w _. Qed.

Lemma only_when_never {A} (φ : A -> Prop) Φ (m : M A) :
  (forall w, ~ φ (m w).1) -> only_when φ Φ m.
Proof. intros Hn w Hφ. by destruct (Hn w). Qed.

Lemma only_reads {A} Φ (f : Shared R -> A) :
  (forall s, Φ s s) -> only Φ (store_call (reads f) : @M R X _).
Proof. intros Hid. by apply only_call. Qed.

(** The steps that change the log of [id] alone. *)
Definition only_log (id : RunId) (s s' : Shared R) : Prop :=
  forall id', id' <> id -> stored_run s' id' = stored_run s id'.

Lemma only_append id seen es :
  only (only_log id)
    (bind now (fun t => store_call (on_runs (fun st => append_checked st id seen es t))) : @M R X _).
Proof.
  apply only_bind; [eapply only_draws, draws_now|]. intros t. apply only_call; [by intros s|].
  intros s id' Hne. unfold on_runs.
  destruct (append_checked _ _ _ _ _) as [r st] eqn:E. simpl.
  apply append_checked_cases in E as [[-> _]|(run & _ & _ & _ & _ & _ & ->)]; [done|].
  unfold stored_run, get_run, lock_read. simpl. by rewrite lookup_insert_ne.
Qed.

End Only.

Lemma only_with_cell {R X C A} Φ (c : C) (m : @M R (C * X) A) :
  only Φ m -> only Φ (with_cell c m : @M R X _).
Proof.
  intros Hm w. unfold with_cell. set (w0 := mkServer _ (c, sv_rest w) _ _ _).
  specialize (Hm w0). by destruct (m w0).
Qed.

Lemma only_set_cell {R X C} Φ (c : C) : only Φ (set_cell c : @M R (C * X) unit).
Proof. intros w. by exists []. Qed.

(** The steps that leave the triggers and the messages as they are. *)
Definition on_runs_and_queue {R} (s s' : Shared R) : Prop :=
  sh_triggers s' = sh_triggers s /\ sh_messages s' = sh_messages s.

Section Frame.
Context {R X : Type} (Φ : Shared R -> Shared R -> Prop).
Hypothesis Hframe : forall s s', on_runs_and_queue s s' -> Φ s s'.

Lemma only_queue_call {A} (f : R -> A * R) : only Φ (queue_call f : @M R X _).
Proof. apply only_call; intros s; apply Hframe; [done|]. by destruct (f (sh_queue s)). Qed.

Lemma only_runs_call {A} (f : Timestamp -> RunsStore -> Outcome A) :
  only Φ (bind now (fun t => store_call (on_runs (f t))) : @M R X _).
Proof.
  apply only_bind; [eapply only_draws, draws_now|]. intros t.
  apply only_call; intros s; apply Hframe; [done|]. unfold on_runs. by destruct (f t _).
Qed.

Lemma only_read {A} (f : Shared R -> A) : only Φ (store_call (reads f) : @M R X _).
Proof. apply only_reads. intros s. by apply Hframe. Qed.

End Frame.

Lemma only_when_with_cell {R X C A} (φ : A -> Prop) Φ (c : C) (m : @M R (C * X) A) :
  only_when φ Φ m -> only_when (fun ac => φ ac.1) Φ (with_cell c m : @M R X _).
Proof.
  intros Hm w. unfold with_cell. set (w0 := mkServer _ (c, sv_rest w) _ _ _).
  specialize (Hm w0). destruct (m w0) as [a w1]. simpl in *. auto.
Qed.

(** ** A handler among well-behaved others *)

(** What a handler run from [w] to [w'] keeps: every one of its own steps, and
    everything the others did meanwhile, follows [G], and the shared state
    follows the rules at the end. *)
Definition keeps `{UuidCrate} {R X} `{Redis R} (q : RunQueue) (G : Shared R -> Shared R -> Prop)
    (w w' : Server R X) : Prop :=
  moves G w w' /\ Good q (sv_shared w').

Lemma triple_keeps `{UuidCrate} {R X} `{Redis R} q G `{!Discipline q G} {A}
    (P : Shared R -> Prop) (m : @M R X A) Q w :
  triple q G P m Q -> respectful q G w -> Good q (sv_shared w) -> P (sv_shared w) ->
  keeps q G w (m w).2.
Proof.
  intros Hm Hr Hg HP. destruct (Hm w Hr Hg HP) as [Hmv _]. split; [done|]. by eapply (moves_good q G).
Qed.

(** ** A concrete server *)

(** One agent of the sample run's owner, no run yet, and an empty queue. *)
Definition demo_agent : StoredAgent :=
  mkStoredAgent
    (mkAgentManifest (id_of 2) "1" "helper" "" "" []
       [mkCapability MODEL_CALL; mkCapability AGENT_DELEGATE])
    (owner sample_spec).

Definition demo_store : RunsStore := set_agents store_default {[id_of 2 := demo_agent]}.

Definition empty_db : Db := mkDb 0 ∅ ∅ ∅ ∅ ∅.

Definition demo_shared : Shared Db :=
  mkShared (mkStopsStore demo_store (mkLock [] false)) messages_default triggers_default empty_db.

(** Nothing happens in between, and nothing fails. *)
Definition calm : Future Db :=
  mkFuture (fun _ => mkMoment (fun s => s) NoFault) (fun n => Z.of_nat n) (fun n => N.of_nat n + 100)%N.

Definition demo_server {X} (x : X) : Server Db X := mkServer demo_shared x calm 0 [].

Lemma calm_respectful `{UuidCrate} {X} q (w : Server Db X) :
  sv_future w = calm -> respectful q (prompt q) w.
Proof. intros E n s _. by rewrite E. Qed.

Lemma demo_good `{UuidCrate} q : Good q demo_shared.
Proof.
  assert (forall id, stored_run demo_shared id = None) as Hnone by (intros id; apply lookup_empty).
  assert (forall text, ~ (kept q (sh_queue demo_shared) text \/
    is_Some (lease_of q (sh_queue demo_shared) text))) as Hk.
  { intros text [[Hw|[Hc|Hp]]|Hl]; [by inversion Hw|by inversion Hc|..].
    - unfold parked_on in Hp. simpl in Hp. rewrite lookup_empty in Hp. by destruct Hp.
    - unfold lease_of, string_of in Hl. simpl in Hl. rewrite lookup_empty in Hl. by destruct Hl. }
  split.
  - split; [|apply (sw_outbox _ store_default_wf)|done].
    intros id run Hr. specialize (Hnone id). unfold stored_run, get_run in Hnone. congruence.
  - intros agent kept Ha. unfold get_agent, lock_read in Ha. simpl in Ha.
    apply lookup_singleton_Some in Ha as [<- <-]. done.
  - intros id Hl. by destruct (Hk (id_display id)).
  - intros text id Hl. by destruct (Hk text).
  - intros id run [Hr _]. by rewrite Hnone in Hr.
  - intros id run [Hr _]. by rewrite Hnone in Hr.
Qed.
