(* ===== verification/Traces.v ===== *)
(** * What a handler did, step by step

    [triple] says what a handler leaves; a trace says which steps of the shared
    state were its own, so that a theorem can say that a handler changed one
    thing, once.  The latest step comes first, as in [sv_steps]. *)

From S2P Require Import Prelude Protocol Uuids Store StoreTriggers StoreMessages StoreStops Queue.
From S2P Require Import Server ServerLogic.

Definition Step (R : Type) : Type := (Shared R * Shared R)%type.

(** Steps that all follow [φ], and steps of which one is [ψ]. *)
Definition all_steps {R} (φ : Shared R -> Shared R -> Prop) (own : list (Step R)) : Prop :=
  Forall (fun step => φ step.1 step.2) own.

Definition one_step {R} (φ ψ : Shared R -> Shared R -> Prop) (own : list (Step R)) : Prop :=
  exists later s s' earlier,
    own = later ++ (s, s') :: earlier /\ all_steps φ later /\ ψ s s' /\ all_steps φ earlier.

Lemma all_steps_app {R} (φ : Shared R -> Shared R -> Prop) l k :
  all_steps φ (l ++ k) <-> all_steps φ l /\ all_steps φ k.
Proof. apply Forall_app. Qed.

Lemma all_steps_weaken {R} (φ ψ : Shared R -> Shared R -> Prop) l :
  (forall s s', φ s s' -> ψ s s') -> all_steps φ l -> all_steps ψ l.
Proof. intros Hw Hl. eapply Forall_impl; [exact Hl|]. intros [s s']. apply Hw. Qed.

Lemma one_step_after {R} (φ ψ : Shared R -> Shared R -> Prop) l k :
  all_steps φ l -> one_step φ ψ k -> one_step φ ψ (l ++ k).
Proof.
  intros Hl (later & s & s' & earlier & -> & Hlater & Hs & He).
  exists (l ++ later), s, s', earlier. rewrite app_assoc. split_and!; try done. by apply all_steps_app.
Qed.

Lemma one_step_before {R} (φ ψ : Shared R -> Shared R -> Prop) l k :
  one_step φ ψ l -> all_steps φ k -> one_step φ ψ (l ++ k).
Proof.
  intros (later & s & s' & earlier & -> & Hlater & Hs & He) Hk.
  exists later, s, s', (earlier ++ k). rewrite <-app_assoc. split_and!; try done. by apply all_steps_app.
Qed.

Lemma one_step_now {R} (φ ψ : Shared R -> Shared R -> Prop) s s' :
  ψ s s' -> one_step φ ψ [(s, s')].
Proof. intros Hs. exists [], s, s', []. split_and!; [done|constructor|done|constructor]. Qed.

Section Traces.
Context `{UuidCrate} {R X : Type} `{Redis R} (q : RunQueue).
Context (G : Shared R -> Shared R -> Prop) `{!Discipline q G}.
Implicit Types (w : Server R X) (P : Shared R -> Prop).

Definition traced {A} P (m : @M R X A) (Q : A -> list (Step R) -> Shared R -> Prop) : Prop :=
  forall w, respectful q G w -> Good q (sv_shared w) -> P (sv_shared w) ->
    moves G w (m w).2 /\
    exists own, sv_steps (m w).2 = own ++ sv_steps w /\ Q (m w).1 own (sv_shared (m w).2).

Lemma traced_done {A} P (a : A) (Q : A -> list (Step R) -> Shared R -> Prop) :
  (forall s, Good q s -> P s -> Q a [] s) -> traced P (ret a) Q.
Proof. intros HQ w _ Hg HP. split; [reflexivity|]. exists []. auto. Qed.

Lemma traced_post {A} P (m : @M R X A) Q Q' :
  traced P m Q -> (forall a own s, Good q s -> Q a own s -> Q' a own s) -> traced P m Q'.
Proof.
  intros Hm HQ w Hr Hg HP. destruct (Hm w Hr Hg HP) as (Hmv & own & Ho & Hq).
  split; [done|]. exists own. split; [done|]. apply HQ; [|done]. by eapply (moves_good q G).
Qed.

Lemma traced_pre {A} P P' (m : @M R X A) Q :
  traced P m Q -> (forall s, Good q s -> P' s -> P s) -> traced P' m Q.
Proof. intros Hm HP w Hr Hg Hp. apply Hm; auto. Qed.

Lemma traced_pure {A} (φ : Prop) P (m : @M R X A) Q :
  (φ -> traced P m Q) -> traced (fun s => φ /\ P s) m Q.
Proof. intros Hm w Hr Hg [Hφ HP]. by apply Hm. Qed.

Lemma traced_bind {A B} P (m : @M R X A) (k : A -> M B) Q T :
  traced P m Q ->
  (forall a own, traced (Q a own) (k a) (fun b own' => T b (own' ++ own))) ->
  traced P (bind m k) T.
Proof.
  intros Hm Hk w Hr Hg HP. destruct (Hm w Hr Hg HP) as (Hmv & own & Ho & HQ). unfold bind.
  destruct (m w) as [a w1]. simpl in *.
  destruct (Hk a own w1) as (Hmv' & own' & Ho' & HT);
    [by eapply (moves_respectful q G)|by eapply (moves_good q G)|done|].
  split; [by etrans|]. exists (own' ++ own). split; [|done]. by rewrite Ho', Ho, app_assoc.
Qed.

Lemma traced_try_with {A B E F} P (f : E -> F) (m : @M R X (result A E)) (k : A -> M (result B F)) Q T :
  traced P m Q ->
  (forall a own, traced (Q (Ok a) own) (k a) (fun b own' => T b (own' ++ own))) ->
  (forall e own s, Good q s -> Q (Err e) own s -> T (Err (f e)) own s) ->
  traced P (try_with f m k) T.
Proof.
  intros Hm Hk He. eapply traced_bind; [done|]. intros [a|e] own; [apply Hk|].
  apply traced_done. intros s Hg Hq. by apply He.
Qed.

Lemma traced_try {A B E} P (m : @M R X (result A E)) (k : A -> M (result B E)) Q T :
  traced P m Q ->
  (forall a own, traced (Q (Ok a) own) (k a) (fun b own' => T b (own' ++ own))) ->
  (forall e own s, Good q s -> Q (Err e) own s -> T (Err e) own s) ->
  traced P (try m k) T.
Proof. apply (traced_try_with P (fun e => e)). Qed.

(** What a triple leaves, with steps that [only] knows. *)
Lemma traced_triple {A} P (m : @M R X A) (Q : A -> Shared R -> Prop) Φ :
  triple q G P m Q -> only Φ m -> traced P m (fun a own s => Q a s /\ all_steps Φ own).
Proof.
  intros Hm Ho w Hr Hg HP. destruct (Hm w Hr Hg HP) as [Hmv HQ].
  destruct (Ho w) as (own & Hs & Hall). split; [done|]. by exists own.
Qed.

Lemma traced_draws {A} P (m : @M R X A) (φ : A -> Prop) :
  draws m φ -> traced P m (fun a own s => own = [] /\ φ a /\ P s).
Proof.
  intros Hd w Hr Hg HP. destruct (Hd w) as (Hs & Hf & Ho & Hφ).
  split; [|exists []; by rewrite Hs, Ho]. split_and!; [done|by rewrite Hs|by exists []].
Qed.

(** A call: its step, and its answer or the error it reports instead. *)
Lemma traced_call {A E} P (e : E) (f : Shared R -> result A E * Shared R) Q :
  stable q G P ->
  (forall s, Good q s -> P s -> Q (Err e) [(s, s)] s) ->
  (forall s, Good q s -> P s ->
     G s (f s).2 /\ Q (f s).1 [(s, (f s).2)] (f s).2 /\ Q (Err e) [(s, (f s).2)] (f s).2) ->
  traced P (call e f : @M R X _) Q.
Proof.
  intros Hst Hbefore Hstep w Hr Hg HP.
  pose proof (Hr (sv_drawn w) _ Hg) as Hothers.
  pose proof (ev_good q _ _ (G_evolves (G := G) _ _ Hothers) Hg) as Hg'.
  pose proof (Hst _ _ Hg Hothers HP) as HP'.
  destruct (Hstep _ Hg' HP') as (HG & HQ & HQe). specialize (Hbefore _ Hg' HP'). unfold call.
  set (m := fu_moment (sv_future w) (sv_drawn w)) in *.
  destruct (fault m); [| |]; try destruct (f (others m (sv_shared w))) as [r s']; simpl in *;
    (split; [split_and!; [done|try (by etrans)|]; eexists [_]; (split; [done|]); by constructor|];
     eexists [_]; (split; [done|]); done).
Qed.

(** A call that reads: its one step changes nothing, and it answers with what
    that state holds. *)
Lemma traced_reads {A E} P (e : E) (f : Shared R -> result A E * Shared R) (g : Shared R -> A) :
  stable q G P -> (forall s, f s = (Ok (g s), s)) ->
  traced P (call e f : @M R X _)
    (fun r own s => own = [(s, s)] /\ P s /\ match r with Ok a => a = g s | Err _ => True end).
Proof.
  intros Hst Hf. apply traced_call; [done|by intros s _ HP|]. intros s Hg HP. rewrite Hf. simpl.
  split; [by apply (prompt_G (q := q))|]. by split_and!.
Qed.

(** A loop keeps what its body keeps of the turns done and the steps so far. *)
Lemma traced_for_each {A T} (l : list T) (body : A -> T -> @M R X A)
    (I : list T -> A -> list (Step R) -> Shared R -> Prop) a own turns :
  (forall a own x turns, x ∈ l ->
     traced (I turns a own) (body a x) (fun a own' => I (turns ++ [x]) a (own' ++ own))) ->
  traced (I turns a own) (for_each l body a) (fun a own' => I (turns ++ l) a (own' ++ own)).
Proof.
  revert a own turns. induction l as [|x l IH]; intros a own turns Hb; simpl.
  { apply traced_done. intros s _. by rewrite app_nil_r. }
  eapply traced_bind; [apply Hb; set_solver|]. intros a' own'. simpl.
  eapply traced_post; [apply (IH a' (own' ++ own) (turns ++ [x]))|].
  - intros a1 own1 y turns1 Hy. apply Hb. set_solver.
  - intros a1 own1 s _. by rewrite <-!app_assoc.
Qed.

End Traces.
