(* ===== verification/Spawner.v ===== *)
(** * Starting runs on the queue ([server/spawner.rs])

    [enqueue] stores a run and queues it, pending first; [settle_fire] settles
    a trigger's run past its gate; [start] carries out a delegation.  The
    theorems: whatever fails or dies between two calls, no run is stranded;
    a child has no more rights than its parent; asking again names the same
    child. *)

From S2P Require Import Prelude Protocol Uuids MemoryOwner SpecBuilder Reduce Authorizer.
From S2P Require Import DriverTurns Store StoreProofs StoreTriggers StoreMessages StoreStops.
From S2P Require Import Queue QueueProofs Driver Server ServerLogic.

(** ** Data *)

Inductive EnqueueError :=
| EQueue (text : string)
| EStore (error : StoreError)
| EPush (text : string)
| EHeld (text : string).

Inductive OnPushFailure := End | LeaveToSweep.

Inductive Gate := GateOpen | GateShut | GateUnknown (reason : string).

Inductive Fire := FirePushed | FireHeld | FireFound.

Definition is_scheduled (p : EventPayload) : bool :=
  match p with RunScheduled => true | _ => false end.

(** Whether a log ended before a worker scheduled it. *)
Definition never_ran (es : list Event) : bool :=
  existsb (fun event => is_terminal (payload event)) es &&
  negb (existsb (fun event => is_scheduled (payload event)) es).

(** [OwnedSpawner]: its store is the shared one. *)
Record OwnedSpawner : Type := mkOwnedSpawner { os_queue : option RunQueue }.

Section Spawner.
Context `{UuidCrate} {R X : Type} `{Redis R}.

Local Open Scope rust_scope.

(** ** [enqueue] *)

(** [end]: a store that refuses is only reported. *)
Definition end_run (spec : RunSpec) (text : string) : @M R X unit :=
  let! failed := run_failed_event spec FcInfrastructure text in
  let! _ := do_append_events (run_id spec) [failed] in
  ret tt.

Definition enqueue (q : RunQueue) (spec : RunSpec) (on_push_failure : OnPushFailure)
    : @M R X (result PutRun EnqueueError) :=
  let!? _ := do_pend q (run_id spec) else EQueue in
  let! events := queued_events spec in
  let! put := do_put_run (mkStoredRun spec events) in
  match put with
  | Err error =>
      let! _ := end_run spec "store unavailable" in
      ret (Err (EStore error))
  | Ok RunExisted => ret (Ok RunExisted)
  | Ok RunStored =>
      let! pushed := do_push q (run_id spec) in
      match pushed with
      | Ok _ => ret (Ok RunStored)
      | Err error =>
          match on_push_failure with
          | End =>
              let! _ := end_run spec ("queue push failed: " +:+ error) in
              ret (Err (EPush error))
          | LeaveToSweep => ret (Ok RunStored)
          end
      end
  end.

(** ** Fires *)

Definition settle_fire (q : RunQueue) (spec : RunSpec) (gate : @M R X Gate)
    : @M R X (result Fire EnqueueError) :=
  let id := run_id spec in
  let!? found := do_run id else EStore in
  let events := match found with Some run => sr_events run | None => [] end in
  if negb (still_waiting events) then
    let!? _ := do_unpend q id else EQueue in
    ret (Ok FireFound)
  else
    let! answer := gate in
    match answer with
    | GateOpen =>
        let!? pushed := do_push_once q id else EPush in
        ret (Ok (if pushed : bool then FirePushed else FireFound))
    | GateShut =>
        let! cancelled := run_cancelled_event spec in
        let! held := do_append_events id [cancelled] in
        match held with
        | Ok (Appended | Terminal) =>
            let! _ := do_unpend q id in
            ret (Ok FireHeld)
        | Ok (Missing | Moved) => ret (Err (EHeld "a held run was not stored to cancel"))
        | Err error => ret (Err (EHeld (MemoryOwner.message error)))
        end
    | GateUnknown reason => ret (Err (EHeld reason))
    end.

Definition enqueue_fire (q : RunQueue) (spec : RunSpec) (gate : @M R X Gate)
    : @M R X (result Fire EnqueueError) :=
  let!? _ := do_pend q (run_id spec) else EQueue in
  let! events := queued_events spec in
  let!? _ := do_put_run (mkStoredRun spec events) else EStore in
  settle_fire q spec gate.

(** ** Children *)

Definition settle_existing (q : RunQueue) (id : RunId) (events : list Event)
    : @M R X (result unit string) :=
  let!? done :=
    if negb (still_waiting events) then ret (Ok true) else do_queued_or_claimed q id in
  if done : bool then
    let!? _ := do_unpend q id in
    ret (Ok tt)
  else ret (Ok tt).

(** The capabilities a child gets: those its manifest asks for that its parent
    holds. *)
Definition child_capabilities (manifest : AgentManifest) (p : RunSpec) : list Capability :=
  List.filter (fun c => existsb (fun held => bool_decide (held = c)) (capabilities p))
    (am_required_capabilities manifest).

(** Of its parent's metadata a child keeps the session. *)
Definition child_metadata (p : RunSpec) : gmap string string :=
  match metadata p !! SESSION_ID with
  | Some session => {[SESSION_ID := session]}
  | None => ∅
  end.

(** The builder calls of [child_spec].  The child's id is not random, so the
    fresh id [build] is given is not used; [None], a failed [expect] of the
    builder, does not arise ([built_child]). *)
Definition build_child (request : ChildRequest) (manifest : AgentManifest) : option RunSpec :=
  let p := cr_parent request in
  let b := with_owner SpecBuilder.builder (owner p) in
  let b := with_agent b (am_id manifest) (am_version manifest) in
  let b := with_input b (cr_input request) in
  let b := with_placement b (placement p) in
  let b := with_work_model b (work_model p) in
  let b := with_capabilities b (child_capabilities manifest p) in
  let b := with_limits b (cr_limits request) in
  let b := with_metadata b (child_metadata p) in
  build (run_id p) (child_of b p (cr_step request)).

Definition child_spec (sp : OwnedSpawner) (request : ChildRequest)
    : @M R X (result RunSpec string) :=
  match os_queue sp with
  | None => ret (Err "delegation needs the run queue")
  | Some _ =>
      let p := cr_parent request in
      let! stop := do_stopped (run_id p) in
      match stop with
      | Ok true => ret (Err "the chain is stopped")
      | Err _ => ret (Err "store unavailable")
      | Ok false =>
          let! found := do_agent (cr_agent_id request) in
          match found with
          | Ok None => ret (Err "no such agent")
          | Err _ => ret (Err "store unavailable")
          | Ok (Some agent) =>
              if negb (owner_is (sa_owner agent) (owner p)) then
                ret (Err "agent belongs to another owner")
              else
                match build_child request (sa_manifest agent) with
                | Some spec => ret (Ok spec)
                | None => ret (Err "expected to be recorded")
                end
          end
      end
  end.

(** The reason an error of [enqueue] is reported with. *)
Definition enqueue_reason (error : EnqueueError) : string :=
  match error with
  | EQueue _ => "queue unavailable"
  | EStore _ => "store unavailable"
  | EPush _ => "queue push failed"
  | EHeld _ => "held"
  end.

Definition enqueue_child (sp : OwnedSpawner) (spec : RunSpec) : @M R X (result StartedChild string) :=
  match os_queue sp with
  | None => ret (Err "delegation needs the run queue")
  | Some q =>
      let! put := enqueue q spec LeaveToSweep in
      match put with
      | Ok RunStored => ret (Ok (mkStartedChild (run_id spec) (limits spec)))
      | Ok RunExisted =>
          let! found := do_run (run_id spec) in
          match found with
          | Ok (Some child) =>
              if never_ran (sr_events child) then
                let! _ := do_unpend q (run_id spec) in
                ret (Err "the child could not be started")
              else
                let! _ := settle_existing q (run_id spec) (sr_events child) in
                ret (Ok (mkStartedChild (run_id spec) (limits (sr_spec child))))
          | Ok None | Err _ => ret (Err "store unavailable")
          end
      | Err error => ret (Err (enqueue_reason error))
      end
  end.

(** [AgentSpawner::start]. *)
Definition start (sp : OwnedSpawner) (request : ChildRequest) : @M R X (result StartedChild string) :=
  let!? spec := child_spec sp request in
  enqueue_child sp spec.

End Spawner.

(** ** What is recorded *)

Section Proofs.
Context `{UuidCrate} {R X : Type} `{Redis R} `{!RedisLaws R} (q : RunQueue) (Hq : keys_ok q).

Definition queued_log (spec : RunSpec) (es : list Event) : Prop :=
  payload <$> es = [RunCreated; RunQueued; UserMessage (input spec)] /\ Forall (stamped spec) es.

Lemma queued_log_waiting spec es :
  queued_log spec es ->
  still_waiting es = true /\ was_queued es = true /\ has_terminal es = false.
Proof.
  intros [Hp _]. destruct es as [|e1 [|e2 [|e3 []]]]; try discriminate Hp.
  injection Hp as H1 H2 H3. unfold still_waiting, was_queued, has_terminal. simpl.
  by rewrite H1, H2, H3.
Qed.

Lemma draws_queued_events spec : draws (queued_events spec : @M R X _) (queued_log spec).
Proof.
  unfold queued_events, system_event, user_message_event.
  eapply draws_bind; [apply draws_recorded|]. intros e1 [H1 S1].
  eapply draws_bind; [apply draws_recorded|]. intros e2 [H2 S2].
  eapply draws_bind; [apply draws_recorded|]. intros e3 [H3 S3].
  apply draws_ret. split; [simpl; by rewrite H1, H2, H3|]. by repeat constructor.
Qed.

(** ** [enqueue] *)

Section Rules.
Context (G : Shared R -> Shared R -> Prop) `{!Discipline q G}.
Abbreviation triple := (triple (X := X) q G).
Abbreviation stable := (stable q G).

(** Appending one event that ends the run. *)
Lemma triple_end P id spec p m :
  stable P -> is_terminal p = true -> draws m (says spec p) ->
  triple P (bind m (fun e => do_append_events id [e]))
    (fun r s => P s /\ match r with Ok (Appended | Terminal) => closed s id | _ => True end).
Proof.
  intros HP Ht Hm. eapply (triple_bind q G); [by apply (triple_draws q G)|]. intros e.
  apply (triple_pure q G). intros [He _]. eapply (triple_post q G).
  - apply (triple_ending q G P id [e]); [done|]. unfold has_terminal. simpl. by rewrite He, Ht.
  - by intros [[]|] s _ [? ?].
Qed.

Lemma triple_end_run P spec text : stable P -> triple P (end_run spec text) (fun _ => P).
Proof.
  intros HP. eapply (triple_ext q G); [intros w; symmetry; apply bind_assoc|].
  eapply (triple_bind q G).
  - apply (triple_end P _ spec (RunFailed FcInfrastructure text)); [done|done|apply draws_recorded].
  - intros r. apply (triple_done q G). by intros s _ [? _].
Qed.

End Rules.

(** Pending, or stored already. *)
Definition pended id (s : Shared R) : Prop := is_pending q s id \/ is_Some (stored_run s id).

Lemma stable_pended id : stable q (prompt q) (pended id).
Proof.
  intros s s' Hg [He Hp] [Hpe|Hs]; [|right; by eapply (stable_stored q (prompt q))].
  destruct (stored_run s' id) eqn:E; [right; by eexists|]. left. by apply Hp.
Qed.

Lemma pend_pending r i : is_Some (pending_score q (pend q r i) i).
Proof.
  unfold pend, PEND, pending_score. rewrite ZADD_law.
  destruct (db_zsets (db r) !! (q_pending q, i)) eqn:E; [by rewrite E|]. simpl. rewrite lookup_insert_eq. by eexists.
Qed.

Lemma triple_pend id :
  triple (X := X) q (prompt q) (fun _ => True) (do_pend q id)
    (fun r s => match r with Ok _ => pended id s | Err _ => True end).
Proof.
  eapply (triple_post q (prompt q)).
  - apply (triple_queue_op q Hq (prompt q) _ (QPend (id_display id)) _ (fun _ s => pended id s)); try done.
    intros s _ _. left. apply pend_pending.
  - by intros r s _ [_ ?].
Qed.

(** Storing a queued run that is pending. *)
Lemma triple_put_queued spec events :
  queued_log spec events ->
  triple (X := X) q (prompt q) (pended (run_id spec)) (do_put_run (mkStoredRun spec events))
    (fun r s => pended (run_id spec) s /\
       match r with
       | Ok RunStored => seen_run (run_id spec) (mkStoredRun spec events) s
       | Ok RunExisted => is_Some (stored_run s (run_id spec))
       | Err _ => True
       end).
Proof.
  intros (Hw & _ & _)%queued_log_waiting.
  apply (triple_put_run q (prompt q) _ (mkStoredRun spec events)); [apply stable_pended|]. simpl.
  intros s Hg [Hp|[run Hs]] Hn _ _; [done|congruence].
Qed.

Lemma triple_push P id :
  stable q (prompt q) P -> (forall s, P s -> is_Some (stored_run s id)) ->
  triple (X := X) q (prompt q) P (do_push q id) (fun _ => P).
Proof.
  intros HP Hs. apply (triple_queue_silent q Hq (prompt q) P (QPush (id_display id))); [done|done|].
  intros s Hg Hp. split; [by exists id; auto|done].
Qed.

Definition enqueued (spec : RunSpec) (r : result PutRun EnqueueError) (s : Shared R) : Prop :=
  match r with
  | Ok RunStored => exists run, sr_spec run = spec /\ seen_run (run_id spec) run s
  | Ok RunExisted => is_Some (stored_run s (run_id spec))
  | Err _ => True
  end.

Lemma triple_enqueue spec on :
  triple (X := X) q (prompt q) (fun _ => True) (enqueue q spec on) (enqueued spec).
Proof.
  eapply (triple_try_with q (prompt q)); [apply triple_pend| |done]. intros u. simpl.
  eapply (triple_bind q (prompt q)); [apply (triple_draws q (prompt q)), draws_queued_events|].
  intros events. apply (triple_pure q (prompt q)). intros Hlog.
  eapply (triple_bind q (prompt q)); [by apply triple_put_queued|]. intros [[]|error].
  - apply (triple_pre q (prompt q) (seen_run (run_id spec) (mkStoredRun spec events))); [|tauto].
    assert (stable q (prompt q) (seen_run (run_id spec) (mkStoredRun spec events))) as Hst
      by apply stable_seen, _.
    eapply (triple_bind q (prompt q)).
    { apply triple_push; [done|]. intros s (run & -> & _). by eexists. }
    intros [u'|error]; [|destruct on].
    + apply (triple_done q (prompt q)). intros s _ Hs. by exists (mkStoredRun spec events).
    + eapply (triple_bind q (prompt q)); [apply (triple_end_run (prompt q)), Hst|]. intros [].
      by apply (triple_done q (prompt q)).
    + apply (triple_done q (prompt q)). intros s _ Hs. by exists (mkStoredRun spec events).
  - apply (triple_done q (prompt q)). by intros s _ [_ ?].
  - eapply (triple_bind q (prompt q)).
    { apply (triple_pre q (prompt q) (fun _ => True)); [by apply (triple_end_run (prompt q))|done]. }
    intros []. by apply (triple_done q (prompt q)).
Qed.

(** ** Children *)

Section Unpend.
Context (G : Shared R -> Shared R -> Prop) `{!Discipline q G}.

Lemma triple_unpend P id :
  stable q G P ->
  (forall s, Good q s -> P s -> is_Some (stored_run s id) /\
     forall run, open_run s id run -> still_waiting (sr_events run) = true -> in_queue q s id) ->
  triple (X := X) q G P (do_unpend q id) (fun _ => P).
Proof.
  intros HP Hs. apply (triple_queue_silent q Hq G P (QUnpend (id_display id))); [done|done|].
  intros s Hg Hp. destruct (Hs s Hg Hp) as [Hst Hw]. split.
  - intros id' run Hid Ho _ Hwait. apply id_display_inj in Hid as <-. by eapply Hw.
  - intros id' [= Hid%id_display_inj]. by subst.
Qed.

(** A log that moved past waiting stays past it. *)
Lemma seen_not_waiting id run s :
  seen_run id run s -> still_waiting (sr_events run) = false ->
  is_Some (stored_run s id) /\
  forall run', open_run s id run' -> still_waiting (sr_events run') = true -> in_queue q s id.
Proof.
  intros (run1 & Hr & _ & Hpre & _) Hw. split; [by eexists|]. intros run' [Hr' _] Hw'.
  rewrite Hr in Hr'. injection Hr' as <-. by rewrite (still_waiting_prefix _ _ Hpre Hw') in Hw.
Qed.

Lemma closed_stored id (s : Shared R) :
  closed s id ->
  is_Some (stored_run s id) /\
  forall run, open_run s id run -> still_waiting (sr_events run) = true -> in_queue q s id.
Proof.
  intros Hc. split; [destruct Hc as (run & -> & _); by eexists|].
  intros run Ho. by destruct (open_not_closed _ _ _ Ho Hc).
Qed.

Lemma queued_or_claimed_kept r id : queued_or_claimed q r id = true -> kept q r id.
Proof.
  unfold queued_or_claimed, QUEUED_OR_CLAIMED. rewrite orb_true_iff, !bool_decide_eq_true, !LPOS_law.
  intros [?|?]; [by left|by right; left].
Qed.

Lemma triple_settle_existing id run :
  triple (X := X) q G (seen_run id run) (settle_existing q id (sr_events run))
    (fun _ => seen_run id run).
Proof.
  assert (stable q G (seen_run id run)) as Hst by apply stable_seen, _.
  unfold settle_existing.
  apply (triple_try q G _ _ _ (fun r s => seen_run id run s /\
    match r with Ok true => still_waiting (sr_events run) = false \/ held q id s | _ => True end)).
  - destruct (still_waiting (sr_events run)) eqn:Hw.
    + simpl negb. cbv iota.
      apply (triple_queue_read q G _ _
        (fun b s => if b : bool then true = false \/ held q id s else True)); [done|].
      intros s Hg Hs. destruct (queued_or_claimed _ _ _) eqn:E; [|done]. right.
      split; [destruct Hs as (? & -> & _); by eexists|]. left. by apply queued_or_claimed_kept.
    + apply (triple_done q G). auto.
  - intros [].
    + assert (stable q G (fun s => seen_run id run s /\
        (still_waiting (sr_events run) = false \/ held q id s))) as Hst2.
      { apply stable_and; [done|]. intros s s' Hg HG [?|Hh]; [by left|right].
        by eapply (stable_held q G id). }
      eapply (triple_try q G).
      * apply triple_unpend; [exact Hst2|]. intros s Hg [Hs [Hw|[Hsome Hk]]].
        -- by eapply seen_not_waiting.
        -- destruct Hk as [Hk|Hc]; [by split|by apply closed_stored].
      * intros []. apply (triple_done q G). by intros s _ [? _].
      * by intros e s [? _].
    + apply (triple_done q G). by intros s _ [? _].
  - by intros e s [? _].
Qed.

End Unpend.

(** What [start] promises of its answer. *)
Definition started (r : result StartedChild string) (s : Shared R) : Prop :=
  match r with
  | Ok child => exists run, seen_run (sc_run_id child) run s /\
      run_id (sr_spec run) = sc_run_id child /\ limits (sr_spec run) = sc_limits child
  | Err _ => True
  end.

Lemma never_ran_ended es : never_ran es = true -> has_terminal es = true.
Proof. unfold never_ran. by intros [? _]%andb_true_iff. Qed.

Lemma seen_run_id id run s : Good q s -> seen_run (R := R) id run s -> run_id (sr_spec run) = id.
Proof.
  intros Hg (run' & Hr & Hs & _). rewrite <-Hs.
  by apply (sw_runs (runs_store s) (good_store q s Hg)).
Qed.

Lemma triple_enqueue_child spec :
  triple (X := X) q (prompt q) (fun _ => True)
    (enqueue_child (mkOwnedSpawner (Some q)) spec)
    (fun r s => started r s /\
       match r with Ok child => sc_run_id child = run_id spec | Err _ => True end).
Proof.
  unfold enqueue_child. simpl.
  eapply (triple_bind q (prompt q)); [apply triple_enqueue|]. intros [[]|error].
  - apply (triple_done q (prompt q)). intros s _ (run & Hsp & Hs). split; [|done].
    exists run. simpl. by rewrite Hsp.
  - eapply (triple_bind q (prompt q)).
    { apply (triple_run q (prompt q)). apply (stable_stored q (prompt q)). }
    intros [[child|]|error].
    2,3: by apply (triple_done q (prompt q)).
    apply (triple_pre q (prompt q) (seen_run (run_id spec) child)); [|by intros s _ [_ ?]].
    assert (stable q (prompt q) (seen_run (run_id spec) child)) as Hst by apply stable_seen, _.
    destruct (never_ran (sr_events child)) eqn:Hn.
    + eapply (triple_bind q (prompt q)).
      { apply (triple_unpend (prompt q)); [exact Hst|]. intros s _ Hs. apply closed_stored.
        eapply seen_closed; [exact Hs|]. by apply never_ran_ended. }
      intros ?. by apply (triple_done q (prompt q)).
    + eapply (triple_bind q (prompt q)); [apply (triple_settle_existing (prompt q))|].
      intros ?. apply (triple_done q (prompt q)). intros s Hg Hs. split; [|done].
      exists child. simpl. split_and!; [done|by eapply seen_run_id|done].
  - by apply (triple_done q (prompt q)).
Qed.

(** The id of the child a request asks for. *)
Definition child_id (request : ChildRequest) : RunId :=
  let p := cr_parent request in
  from_uuid (uuid_v5 CHILD_RUN_NAMESPACE
    (child_name (mkChildOf (run_id p) (root p) (sat_add32 (hop (lineage p)) 1) (cr_step request))
       (cr_agent_id request) (cr_input request))).

(** A child of [p] with at most its rights. *)
Record child_of_parent (p spec : RunSpec) : Prop := mkChildOfParent {
  child_owner : owner spec = owner p;
  child_caps : capabilities spec ⊆ capabilities p;
  child_placed : placement spec = placement p /\ work_model spec = work_model p;
  child_lineage : lineage spec = mkLineage (Some (run_id p)) (Some (root p)) (sat_add32 (hop (lineage p)) 1);
  child_session key :
    metadata spec !! key = if bool_decide (key = SESSION_ID) then metadata p !! SESSION_ID else None;
}.

Lemma built_child request manifest :
  exists spec, build_child request manifest = Some spec /\
    child_of_parent (cr_parent request) spec /\ limits spec = cr_limits request /\
    (am_id manifest = cr_agent_id request -> run_id spec = child_id request).
Proof.
  eexists. split; [reflexivity|]. split_and!; [|done|by simpl; intros ->].
  split; simpl; [done| |done|done|].
  - intros c Hc. apply list_elem_of_In, List.filter_In in Hc as [_ Hc].
    apply existsb_exists in Hc as (held & Hin & He). bool_to_prop. subst.
    by apply list_elem_of_In.
  - intros key. unfold child_metadata. destruct (metadata _ !! SESSION_ID) eqn:E; case_bool_decide; subst.
    + apply lookup_singleton_eq.
    + by apply lookup_singleton_ne.
    + apply lookup_empty.
    + apply lookup_empty.
Qed.

(** What [child_spec] answers, in any world. *)
Lemma child_spec_ok sp request (w : Server R X) spec w' :
  child_spec sp request w = (Ok spec, w') ->
  is_Some (os_queue sp) /\ child_of_parent (cr_parent request) spec /\
  limits spec = cr_limits request.
Proof.
  unfold child_spec. destruct (os_queue sp); [|done]. unfold bind.
  destruct (do_stopped _ w) as [[[]|e] w1]; [done| |done].
  destruct (do_agent _ w1) as [[[agent|]|e] w2]; [|done..].
  destruct (negb _); [done|].
  destruct (built_child request (sa_manifest agent)) as (spec' & -> & Hc & Hl & _).
  intros [= <- <-]. by split_and!; [eexists| |].
Qed.

Lemma triple_child_spec G `{!Discipline q G} request :
  triple (X := X) q G (fun _ => True) (child_spec (mkOwnedSpawner (Some q)) request)
    (fun r _ => match r with Ok spec => run_id spec = child_id request | Err _ => True end).
Proof.
  unfold child_spec. cbn [os_queue].
  eapply (triple_bind q G).
  { apply (triple_store_read q G (fun _ => True) _ (fun _ _ => True)); [by intros s s'|done]. }
  intros [[]|e]; try (by apply (triple_done q G)).
  eapply (triple_bind q G).
  { apply (triple_pre q G (fun _ => True)); [|done].
    apply (triple_store_read q G _ _ (fun o _ => match o with
      | Some agent => am_id (sa_manifest agent) = cr_agent_id request | None => True end)).
    - by intros s s'.
    - intros s Hg _. destruct (get_agent _ _) as [agent|] eqn:E; [|done]. by apply (good_agents q s Hg). }
  intros [[agent|]|e]; try (by apply (triple_done q G)).
  destruct (negb _); [by apply (triple_done q G)|].
  apply (triple_pure q G True). intros _. cbv beta iota.
  destruct (built_child request (sa_manifest agent)) as (spec & -> & _ & _ & Hid).
  apply (triple_done q G). intros s _ Ha. by apply Hid.
Qed.

Lemma triple_start request :
  triple (X := X) q (prompt q) (fun _ => True) (start (mkOwnedSpawner (Some q)) request)
    (fun r s => started r s /\
       match r with Ok child => sc_run_id child = child_id request | Err _ => True end).
Proof.
  unfold start. eapply (triple_try q (prompt q)); [apply triple_child_spec, _| |done].
  intros spec w Hr Hg Hid.
  destruct (triple_enqueue_child spec w Hr Hg I) as [Hm [Hs Hi]]. split; [done|]. split; [done|].
  destruct (enqueue_child _ _ _) as [[child|] ?]; [|done]. simpl in *. congruence.
Qed.

(** ** Fires *)

(** A held fire has ended, and a pushed one is in the queue until it has. *)
Definition fire_ok {E} (id : RunId) (r : result Fire E) (s : Shared R) : Prop :=
  match r with
  | Ok FireHeld => closed s id
  | Ok FirePushed => held q id s
  | _ => True
  end.

Lemma triple_settle_fire G `{!Discipline q G} spec (gate : M Gate) :
  triple (X := X) q G (fun _ => True) gate (fun _ _ => True) ->
  triple (X := X) q G (fun s => is_Some (stored_run s (run_id spec))) (settle_fire q spec gate)
    (fire_ok (run_id spec)).
Proof.
  intros Hgate. set (id := run_id spec).
  assert (stable q G (fun s => is_Some (stored_run s id))) as Hst by apply stable_stored, _.
  unfold settle_fire. fold id.
  eapply (triple_try_with q G); [by apply (triple_run q G)| |done]. intros found.
  destruct (negb (still_waiting _)) eqn:Hw.
  { destruct found as [run|]; [|done]. bool_to_prop.
    apply (triple_pre q G (seen_run id run)); [|by intros s _ [_ ?]].
    eapply (triple_try_with q G).
    - apply (triple_unpend G); [apply stable_seen, _|]. intros s _ Hs. by eapply seen_not_waiting.
    - intros []. by apply (triple_done q G).
    - done. }
  eapply (triple_bind q G).
  { apply (triple_pre q G (fun s => True /\ is_Some (stored_run s id))); [|by intros s _ [? _]].
    apply (triple_frame q G (fun s => is_Some (stored_run s id))); [exact Hst|exact Hgate]. }
  intros answer. apply (triple_pre q G (fun s => is_Some (stored_run s id))); [|by intros s _ [_ ?]].
  destruct answer as [| |reason]; [| |by apply (triple_done q G)].
  - eapply (triple_try_with q G).
    + apply (triple_queue_op q Hq G _ (QPushOnce (id_display id)) _ (fun _ s => held q id s)); try done.
      * intros s _ Hs. split; [by exists id|done].
      * intros s _ Hs. split; [done|]. left. apply (pushed_kept q Hq); auto.
    + intros pushed. apply (triple_done q G). intros s _ [_ Hh]. by destruct pushed.
    + done.
  - eapply (triple_ext q G); [intros w; symmetry; apply bind_assoc|].
    eapply (triple_bind q G).
    { apply (triple_end G _ id spec RunCancelled); [exact Hst|done|apply draws_recorded]. }
    assert (forall held, held = Appended \/ held = Terminal ->
      triple (X := X) q G (fun s => is_Some (stored_run s id) /\ closed s id)
        (bind (do_unpend q id) (fun _ => ret (Ok FireHeld)))
        (fire_ok (E := EnqueueError) id)) as Hheld.
    { intros _ _. apply (triple_pre q G (fun s => closed s id)); [|by intros s _ [_ ?]].
      eapply (triple_bind q G).
      - apply (triple_unpend G); [apply stable_closed, _|]. intros s _ Hc. by apply closed_stored.
      - intros ?. by apply (triple_done q G). }
    intros [[]|e]; try (by apply (triple_done q G)).
    + apply (Hheld Appended). by left.
    + apply (Hheld Terminal). by right.
Qed.

Lemma triple_enqueue_fire spec (gate : M Gate) :
  triple (X := X) q (prompt q) (fun _ => True) gate (fun _ _ => True) ->
  triple (X := X) q (prompt q) (fun _ => True) (enqueue_fire q spec gate)
    (fire_ok (run_id spec)).
Proof.
  intros Hgate. eapply (triple_try_with q (prompt q)); [apply triple_pend| |done]. intros [].
  eapply (triple_bind q (prompt q)); [apply (triple_draws q (prompt q)), draws_queued_events|].
  intros events. apply (triple_pure q (prompt q)). intros Hlog.
  eapply (triple_try_with q (prompt q)); [by apply triple_put_queued| |done]. intros put.
  eapply (triple_pre q (prompt q)); [by apply (triple_settle_fire (prompt q))|].
  intros s _ [_ Hs]. destruct put; [|done]. destruct Hs as (run & -> & _). by eexists.
Qed.

(** ** The properties *)

(** C19. A child has no more rights than its parent: a spec [child_spec] gives,
    whatever the store holds and whatever happens meanwhile, is owned by the
    parent's owner, names the parent in its lineage, one hop below it (a [u32]
    that saturates) under the same root, runs on the same placement and with
    the same work model, has the budget the driver carved, capabilities that
    are all the parent's and no metadata but the parent's session, and is never
    allowed an effect the parent would be denied, with any tools. *)
Theorem child_has_no_more_rights sp request (w : Server R X) spec w' :
  (hop (lineage (cr_parent request)) <= u32_max)%N ->
  child_spec sp request w = (Ok spec, w') ->
  owner spec = owner (cr_parent request) /\ limits spec = cr_limits request /\
  lineage spec = mkLineage (Some (run_id (cr_parent request))) (Some (root (cr_parent request)))
    (sat_add32 (hop (lineage (cr_parent request))) 1) /\
  root spec = root (cr_parent request) /\
  placement spec = placement (cr_parent request) /\
  work_model spec = work_model (cr_parent request) /\
  capabilities spec ⊆ capabilities (cr_parent request) /\
  (forall key value, metadata spec !! key = Some value ->
     key = SESSION_ID /\ metadata (cr_parent request) !! SESSION_ID = Some value) /\
  forall eff tools, authorize spec eff tools = Allow ->
    authorize (cr_parent request) eff tools = Allow.
Proof.
  intros Hh (_ & Hc & Hl)%child_spec_ok. pose proof (child_lineage _ _ Hc) as Hlin.
  split_and!; [apply Hc|done|done|unfold root; by rewrite Hlin|apply Hc..| |].
  { intros key value. rewrite (child_session _ _ Hc). by case_bool_decide. }
  intros eff tools. rewrite !authorize_permitted. apply permitted_attenuates.
  - apply Hc.
  - rewrite Hlin. simpl. unfold sat_add32. lia.
  - unfold metadata_id. by rewrite (child_session _ _ Hc), bool_decide_true.
  - unfold metadata_id. rewrite (child_session _ _ Hc), bool_decide_false by done. by intros [].
Qed.

(** Nothing is stranded by starting a run: a delegation, a new run and a
    trigger's fire, among any other processes that follow the rules, with any
    call failing before or after it took effect and the process dying at any
    point, keep the rules at every step: the logs only grow, an ended log is
    fixed, a queued open run stays queued, claimed or parked until it ends, and
    one that is stored and not yet queued stays pending for the sweep. *)
Theorem spawner_strands_nothing (w : Server R X) request spec on (gate : M Gate) :
  respectful q (prompt q) w -> Good q (sv_shared w) ->
  triple q (prompt q) (fun _ => True) gate (fun _ _ => True) ->
  keeps q (prompt q) w (start (mkOwnedSpawner (Some q)) request w).2 /\
  keeps q (prompt q) w (enqueue q spec on w).2 /\
  keeps q (prompt q) w (enqueue_fire q spec gate w).2.
Proof.
  intros Hr Hg Hgate. split_and!.
  - by eapply triple_keeps; [apply _|apply triple_start|..].
  - by eapply triple_keeps; [apply _|apply triple_enqueue|..].
  - by eapply triple_keeps; [apply _|by apply triple_enqueue_fire|..].
Qed.

(** Asking again names one child: when two calls of [start] with the same
    request both report a child, the first at any time before the second, in
    whatever process, they report the same run with the same limits, and that
    run is stored with them. *)
Theorem asking_again_names_one_child request (w1 w2 : Server R X) c1 c2 w1' w2' :
  respectful q (prompt q) w1 -> Good q (sv_shared w1) -> respectful q (prompt q) w2 ->
  start (mkOwnedSpawner (Some q)) request w1 = (Ok c1, w1') ->
  evolves q (sv_shared w1') (sv_shared w2) ->
  start (mkOwnedSpawner (Some q)) request w2 = (Ok c2, w2') ->
  c1 = c2 /\ exists run, stored_run (sv_shared w2') (sc_run_id c2) = Some run /\
    limits (sr_spec run) = sc_limits c2.
Proof.
  intros Hr1 Hg1 Hr2 E1 Hev E2.
  destruct (triple_start request w1 Hr1 Hg1 I) as [Hm1 [Hs1 Hi1]].
  assert (Good q (sv_shared w1')) as Hg1' by (eapply (moves_good q (prompt q)); [|done]; by rewrite E1 in Hm1).
  assert (Good q (sv_shared w2)) as Hg2 by (by apply (ev_good q _ _ Hev)).
  destruct (triple_start request w2 Hr2 Hg2 I) as [Hm2 [Hs2 Hi2]].
  rewrite E1 in *. rewrite E2 in *. simpl in *.
  destruct Hs1 as (run1 & Hs1 & _ & Hl1), Hs2 as (run2 & Hs2 & _ & Hl2).
  assert (seen_run (sc_run_id c1) run1 (sv_shared w2')) as Hs1'.
  { eapply (stable_seen q (evolves q)); [exact Hg1'| |exact Hs1].
    etrans; [exact Hev|]. by apply prompt_evolves, Hm2. }
  destruct c1 as [id1 l1], c2 as [id2 l2]. simpl in *. subst.
  destruct Hs1' as (run & Hrun & Hsp1 & _), Hs2 as (run' & Hrun' & Hsp2 & _).
  rewrite Hrun in Hrun'. injection Hrun' as <-. split; [by rewrite <-Hsp1, Hsp2|].
  exists run. by rewrite Hsp2.
Qed.

End Proofs.

(** ** A concrete delegation *)

#[local] Instance demo_uuids : UuidCrate := hyphenated.

Definition demo_request : ChildRequest :=
  mkChildRequest (with_caps [MODEL_CALL] sample_spec) 1 (id_of 2) "task" (mkLimits 3 2).

Definition demo_q : RunQueue := Queue.open.

Abbreviation demo_start w :=
  (start (X := unit) (mkOwnedSpawner (Some demo_q)) demo_request w).

Example demo_child :
  match demo_start (demo_server tt) with
  | (Ok child, w) =>
      sc_limits child = mkLimits 3 2 /\
      waiting demo_q (sh_queue (sv_shared w)) = [id_display (sc_run_id child)]
  | _ => False
  end.
Proof. vm_compute. split; reflexivity. Qed.

Lemma child_has_no_more_rights_witness :
  exists spec, (child_spec (mkOwnedSpawner (Some demo_q)) demo_request (demo_server tt)).1 = Ok spec /\
    owner spec = owner sample_spec /\ authorize spec (EDelegate (id_of 2) "x") [] <> Allow.
Proof.
  destruct (ok_pair (child_spec (mkOwnedSpawner (Some demo_q)) demo_request (demo_server tt)))
    as (spec & w' & E); [vm_compute; reflexivity|].
  exists spec. destruct (child_has_no_more_rights _ demo_request _ spec w'
    ltac:(vm_compute; intros [=]) E) as (Ho & _ & _ & _ & _ & _ & _ & _ & Ha).
  split; [by rewrite E|]. split; [exact Ho|]. intros Hal. apply Ha in Hal. vm_compute in Hal.
  discriminate Hal.
Defined.

Lemma spawner_strands_nothing_witness :
  keeps demo_q (prompt demo_q) (demo_server tt) (demo_start (demo_server tt)).2.
Proof.
  refine (proj1 (spawner_strands_nothing demo_q (with_key_ok "gol:runs") (demo_server tt)
    demo_request sample_spec End (ret GateOpen) _ _ _)).
  - apply calm_respectful. reflexivity.
  - apply demo_good.
  - apply triple_done; [apply _|]. intros s _ _. exact I.
Defined.

Lemma asking_again_names_one_child_witness :
  exists c, (demo_start (demo_server tt)).1 = Ok c /\
    (demo_start (demo_start (demo_server tt)).2).1 = Ok c.
Proof.
  destruct (ok_pair (demo_start (demo_server tt))) as (c1 & w1 & E1); [vm_compute; reflexivity|].
  destruct (ok_pair (demo_start (demo_start (demo_server tt)).2)) as (c2 & w2 & E2);
    [vm_compute; reflexivity|].
  rewrite E2. rewrite E1 in *. simpl in E2 |- *. exists c1. split; [done|]. simpl. f_equal. symmetry.
  apply (asking_again_names_one_child demo_q (with_key_ok "gol:runs") demo_request
    (demo_server tt) w1 c1 c2 w1 w2).
  - apply calm_respectful. reflexivity.
  - apply demo_good.
  - apply calm_respectful. change w1 with (Ok (E := string) c1, w1).2. rewrite <-E1.
    vm_compute. reflexivity.
  - exact E1.
  - reflexivity.
  - exact E2.
Defined.
