(* ===== verification/Deliverer.v ===== *)
(** * Messages between agents ([server/deliverer.rs])

    [send] stores a message and starts its task; [reply] answers the open ask
    whose task is the sending run; [deliver] brings an answer into the asker's
    log, marks the ask answered and wakes the asker.  The theorems: delivering
    follows the rules of the queue whatever fails, a settled ask no longer
    holds its asker, a reply reaches the run that asked and no other, and a
    body is cut at a character boundary. *)

From S2P Require Import Prelude Protocol Uuids MemoryOwner SpecBuilder Reduce Authorizer.
From S2P Require Import DriverTurns Store StoreProofs StoreTriggers StoreMessages StoreStops.
From S2P Require Import Queue QueueProofs Driver Server ServerLogic Spawner.

(** ** Where an ask stands *)

Inductive AskState := AskUnsent | AskOpen | AskAnswered.

#[export] Instance AskState_eq_dec : EqDecision AskState.
Proof. solve_decision. Defined.

Definition ask_step (ask : MessageId) (state : AskState) (p : EventPayload) : AskState :=
  match p with
  | MessageSent message_id _ _ | UserAsked message_id _ =>
      if bool_decide (message_id = ask) then AskOpen else state
  | MessageReceived _ _ _ _ (Some reply_to) =>
      if bool_decide (reply_to = ask) && bool_decide (state = AskOpen) then AskAnswered else state
  | AskTimedOut message_id | UserAnswered message_id _ =>
      if bool_decide (message_id = ask) && bool_decide (state = AskOpen) then AskAnswered else state
  | _ => state
  end.

Definition ask_state (events : list Event) (ask : MessageId) : AskState :=
  fold_left (fun state event => ask_step ask state (payload event)) events AskUnsent.

(** [iter().find_map(f)] and [iter().rev().find_map(f)]. *)
Definition find_map {A B} (f : A -> option B) (l : list A) : option B := head (omap f l).
Definition rfind_map {A B} (f : A -> option B) (l : list A) : option B := last (omap f l).

Definition asked_user (ask : MessageId) (p : EventPayload) : option string :=
  match p with
  | UserAsked message_id prompt => if bool_decide (message_id = ask) then Some prompt else None
  | _ => None
  end.

Definition open_question (spec : RunSpec) (events : list Event) : option (MessageId * string) :=
  if has_terminal events then None
  else
    match harness (fold spec events) with
    | WaitingForMessage _ _ ask =>
        prompt ← find_map (fun event => asked_user ask (payload event)) events; Some (ask, prompt)
    | _ => None
    end.

Definition is_user_question (events : list Event) (ask : MessageId) : bool :=
  existsb (fun event => bool_decide (is_Some (asked_user ask (payload event)))) events.

(** ** The answer of a task *)

(** [str::is_char_boundary], on the bytes of a UTF-8 text. *)
Definition is_continuation (b : byte) : bool :=
  let n := Ascii.N_of_ascii b in ((128 <=? n) && (n <? 192))%N.

Definition is_char_boundary (s : list byte) (i : nat) : bool :=
  match s !! i with
  | Some b => (i =? 0)%nat || negb (is_continuation b)
  | None => (i =? length s)%nat
  end.

(** [while !body.is_char_boundary(end) { end -= 1 }]. *)
Fixpoint boundary_at (s : list byte) (i : nat) : nat :=
  if is_char_boundary s i then i
  else match i with O => O | S i => boundary_at s i end.

Definition capped (body : string) : string :=
  let s := string_bytes body in
  if (MAX_MESSAGE_BYTES <? length s)%nat
  then bytes_string (take (boundary_at s MAX_MESSAGE_BYTES) s)
  else body.

(** A non-blank response of the assistant. *)
Definition assistant_text (p : EventPayload) : option string :=
  match p with
  | ModelResponded message _ =>
      if bool_decide (role message = RoleAssistant) && negb (blank (text message))
      then Some (text message) else None
  | _ => None
  end.

(** The body of a task's answer, once it ended. *)
Definition answer_body (events : list Event) : option string :=
  let responded := rfind_map (fun event => assistant_text (payload event)) events in
  rfind_map
    (fun event =>
       match payload event with
       | RunCompleted outcome => Some (default outcome responded)
       | RunFailed _ text => Some ("the task failed: " +:+ text)
       | RunCancelled => Some "the task was cancelled"
       | RunExpired => Some "the task expired"
       | _ => None
       end) events.

(** The decision, with the high bit of a [u32] set. *)
Definition task_step (decision : N) : N := N.lor decision (2 ^ 31).

Inductive IfUnsent := Leave | Close.

Section Deliverer.
Context `{UuidCrate} {R X : Type} `{Redis R}.

Local Open Scope rust_scope.

Definition task_answer (task : RunId) (task_agent : AgentId) (ask : MessageId)
    (events : list Event) : @M R X (option EventPayload) :=
  match answer_body events with
  | None => ret None
  | Some body =>
      let! n := random in
      ret (Some (MessageReceived (id_of n) task_agent task (capped body) (Some ask)))
  end.

(** ** [deliver] *)

Definition failed (asker : RunId) (ask : MessageId) (error : string) : string :=
  "answer to ask " +:+ id_display ask +:+ " of run " +:+ id_display asker +:+ ": " +:+ error.

(** What [deliver] does with the asker's log: [None] when the answer may be
    marked, or what [deliver] returns at once. *)
Definition deliver_log (asker : RunId) (ask : MessageId) (answer : EventPayload)
    (if_unsent : IfUnsent) (run : StoredRun) : @M R X (option (result bool string)) :=
  if has_terminal (sr_events run) then ret None
  else
    match ask_state (sr_events run) ask, if_unsent with
    | AskUnsent, Leave => ret (Some (Ok false))
    | AskUnsent, Close | AskAnswered, _ => ret None
    | AskOpen, _ =>
        let! event := recorded (sr_spec run) ActorSystem answer in
        let! appended := do_append_events asker [event] in
        match appended with
        | Ok (Appended | Terminal | Missing) => ret None
        | Ok Moved => ret (Some (Err (failed asker ask "Moved")))
        | Err error => ret (Some (Err (failed asker ask (MemoryOwner.message error))))
        end
    end.

(** The ask is marked answered, then its asker woken; a failure of either is
    only reported. *)
Definition settle_ask (q : RunQueue) (asker : RunId) (ask : MessageId) : @M R X (result bool string) :=
  let! _ := do_answer ask in
  let! _ := do_wake q asker ask in
  ret (Ok true).

Definition deliver (q : RunQueue) (asker : RunId) (ask : MessageId) (answer : EventPayload)
    (if_unsent : IfUnsent) : @M R X (result bool string) :=
  let!? found := do_run asker else (fun error => failed asker ask (MemoryOwner.message error)) in
  let! stop :=
    match found with
    | Some run => deliver_log asker ask answer if_unsent run
    | None => ret None
    end in
  match stop with
  | Some r => ret r
  | None => settle_ask q asker ask
  end.

(** ** [OwnedDeliverer] *)

Record OwnedDeliverer : Type := mkOwnedDeliverer { od_queue : RunQueue }.

Definition od_spawner (self : OwnedDeliverer) : OwnedSpawner := mkOwnedSpawner (Some (od_queue self)).

Definition same_message (stored m : StoredMessage) : bool :=
  bool_decide (ms_to_agent stored = ms_to_agent m) &&
  bool_decide (ms_body stored = ms_body m) &&
  eqb (ms_expects_reply stored) (ms_expects_reply m) &&
  bool_decide (ms_reply_to stored = ms_reply_to m) &&
  bool_decide (ms_task_run stored = ms_task_run m) &&
  bool_decide (ms_timeout_secs stored = ms_timeout_secs m).

Definition put (m : StoredMessage) : @M R X (result MessageId string) :=
  let! r := do_put_message m in
  match r with
  | Ok MessageStored => ret (Ok (ms_id m))
  | Ok (MessageExisted stored) =>
      if same_message stored m then ret (Ok (ms_id stored))
      else ret (Err "another message was sent at this decision")
  | Err _ => ret (Err "store unavailable")
  end.

Definition reply (self : OwnedDeliverer) (request : MessageRequest)
    : @M R X (result SentMessage string) :=
  let from := mq_from request in
  let! found := do_ask_of_task (run_id from) in
  match found with
  | Err _ => ret (Err "store unavailable")
  | Ok None => ret (Err "not a reply to an ask this run was sent")
  | Ok (Some ask) =>
      if negb (bool_decide (Some (ms_id ask) = mq_reply_to request) &&
               bool_decide (ms_from_agent ask = mq_to request))
      then ret (Err "not a reply to an ask this run was sent")
      else
        let! n := random in
        let!? message_id :=
          put (mkStoredMessage (id_of n) (owner from) (run_id from) (agent_id from)
                 (mq_decision request) (ms_from_agent ask) (mq_body request) false
                 (Some (ms_id ask)) None None None (hop (lineage from))) in
        let! delivered :=
          deliver (od_queue self) (ms_from_run ask) (ms_id ask)
            (MessageReceived message_id (agent_id from) (run_id from) (mq_body request)
               (Some (ms_id ask))) Leave in
        match delivered with
        | Ok true => ret (Ok (mkSentMessage message_id None))
        | Ok false => ret (Err "the asker has not logged the ask yet")
        | Err _ => ret (Err "store unavailable")
        end
  end.

(** [saturating_add] on [i64] of a duration in milliseconds, which is not
    negative. *)

Definition deadline_after (t : Timestamp) (seconds : N) : Timestamp :=
  Z.min (t + Z.of_N seconds * 1000) i64_max.

Definition deadline_of (timeout_secs : option N) : @M R X (option Timestamp) :=
  match timeout_secs with
  | None => ret None
  | Some seconds => let! t := now in ret (Some (deadline_after t seconds))
  end.

Definition send (self : OwnedDeliverer) (request : MessageRequest)
    : @M R X (result SentMessage string) :=
  let from := mq_from request in
  match mq_limits request with
  | None => reply self request
  | Some l =>
      if (MAX_DELEGATION_HOPS <=? hop (lineage from))%N then
        ret (Err ("messaging is already " +:+ pretty MAX_DELEGATION_HOPS +:+ " hops deep"))
      else
        let!? task :=
          child_spec (od_spawner self)
            (mkChildRequest from (task_step (mq_decision request)) (mq_to request)
               (mq_body request) l) in
        let! deadline := deadline_of (mq_timeout_secs request) in
        let! n := random in
        let!? message_id :=
          put (mkStoredMessage (id_of n) (owner from) (run_id from) (agent_id from)
                 (mq_decision request) (mq_to request) (mq_body request) (mq_expects_reply request)
                 (mq_reply_to request) (Some (run_id task)) deadline (mq_timeout_secs request)
                 (hop (lineage from))) in
        let!? task := enqueue_child (od_spawner self) task in
        ret (Ok (mkSentMessage message_id (Some task)))
  end.

End Deliverer.

(** ** Ask states *)

Lemma ask_state_app es k ask :
  ask_state (es ++ k) ask =
    fold_left (fun state event => ask_step ask state (payload event)) k (ask_state es ask).
Proof. apply fold_left_app. Qed.

Lemma ask_step_sent ask state p : state <> AskUnsent -> ask_step ask state p <> AskUnsent.
Proof.
  intros Hs. unfold ask_step. destruct p; try done; try (by case_bool_decide).
  - destruct reply_to; [|done]. by destruct (_ && _).
  - by destruct (_ && _).
  - by destruct (_ && _).
Qed.

(** An ask once logged stays logged. *)
Lemma ask_state_sent es es' ask :
  es `prefix_of` es' -> ask_state es ask <> AskUnsent -> ask_state es' ask <> AskUnsent.
Proof.
  intros [k ->] Hs. rewrite ask_state_app.
  apply (fold_left_ind (fun state => state <> AskUnsent)); [done|]. intros state e Hst _.
  by apply ask_step_sent.
Qed.

(** The payloads that answer [ask]. *)
Definition answers (ask : MessageId) (p : EventPayload) : Prop :=
  match p with
  | MessageReceived _ _ _ _ reply_to => reply_to = Some ask
  | AskTimedOut m | UserAnswered m _ => m = ask
  | _ => False
  end.

Definition is_answer (p : EventPayload) : Prop := exists ask, answers ask p.

Lemma answers_is ask p : answers ask p -> is_answer p.
Proof. by exists ask. Qed.

Lemma answer_not_queued p : is_answer p -> is_run_queued p = false.
Proof. by intros [ask]; destruct p. Qed.

Lemma ask_state_answered es e ask :
  ask_state es ask <> AskUnsent -> answers ask (payload e) ->
  ask_state (es ++ [e]) ask = AskAnswered.
Proof.
  intros Hs Ha. rewrite ask_state_app. simpl. unfold ask_step.
  destruct (ask_state es ask); [done|..]; destruct (payload e); try done; simpl in Ha; subst;
    rewrite (bool_decide_true (ask = ask)) by done; by repeat case_bool_decide.
Qed.

Lemma still_waiting_unsent es ask : still_waiting es = true -> ask_state es ask = AskUnsent.
Proof.
  unfold still_waiting, ask_state. rewrite forallb_forall. intros Hw.
  apply (fold_left_ind (fun state => state = AskUnsent)); [done|]. intros state e -> He.
  specialize (Hw e). rewrite <-list_elem_of_In in Hw. specialize (Hw He).
  unfold ask_step. by destruct (payload e).
Qed.

Lemma ask_step_open ask p : ~ answers ask p -> ask_step ask AskOpen p = AskOpen.
Proof.
  intros Hn. unfold ask_step. destruct p; simpl in Hn; try done; try (by case_bool_decide).
  destruct reply_to; [|done]. by rewrite bool_decide_false by congruence.
Qed.

Lemma reduce_keeps_waiting s0 a0 m e spec st a ask :
  fst (reduce (WaitingForMessage s0 a0 m) e spec) = WaitingForMessage st a ask ->
  m = ask /\ ~ answers ask (payload e).
Proof.
  unfold reduce, on_authorized, answer_ask, answers. simpl.
  destruct (payload e); crush_match; intros Hx; simplify_eq/=; bool_to_prop; split; congruence || tauto.
Qed.

Lemma reduce_starts_waiting h e spec st a ask :
  (forall s0 a0 m, h <> WaitingForMessage s0 a0 m) ->
  fst (reduce h e spec) = WaitingForMessage st a ask ->
  forall state, ask_step ask state (payload e) = AskOpen.
Proof.
  intros Hh. unfold reduce, on_authorized, answer_ask. destruct h; simpl; try (by crush_match).
  2: by destruct (Hh step attempt message_id).
  destruct (payload e); crush_match; intros Hx; simplify_eq/=; try done; by bool_to_prop.
Qed.

(** A harness that waits on an ask has it open in its log. *)
Lemma waiting_is_open spec es st a ask :
  harness (fold spec es) = WaitingForMessage st a ask -> ask_state es ask = AskOpen.
Proof.
  revert st a. induction es as [|e es IH] using rev_ind; intros st a; [done|].
  rewrite fold_harness_snoc, ask_state_app. simpl. intros Hw.
  destruct (harness (fold spec es)) as [| | |s0 a0 m| | |] eqn:Eh;
    try (by eapply reduce_starts_waiting; [|exact Hw]).
  apply reduce_keeps_waiting in Hw as [-> Hn]. rewrite (IH s0 a0) by done. by apply ask_step_open.
Qed.

(** ** [deliver] follows the rules and settles the ask *)

Section Proofs.
Context `{UuidCrate} {R X : Type} `{Redis R} `{!RedisLaws R} (q : RunQueue) (Hq : keys_ok q).
Context (G : Shared R -> Shared R -> Prop) `{!Discipline q G}.
Abbreviation triple := (triple (X := X) q G).
Abbreviation stable := (stable q G).

(** The asker's log took an answer, or it ended. *)
Definition ask_settled (asker : RunId) (ask : MessageId) (s : Shared R) : Prop :=
  closed s asker \/
  exists run, seen_run asker run s /\ ask_state (sr_events run) ask = AskAnswered.

Lemma stable_ask_settled asker ask : stable (ask_settled asker ask).
Proof.
  intros s s' Hg HG [Hc|(run & Hs & Ha)]; [left; by eapply (stable_closed q G)|right].
  exists run. split; [|done]. by eapply (stable_seen q G).
Qed.

(** An answer appended where the ask was open. *)
Lemma triple_append_answer asker ask run e :
  ask_state (sr_events run) ask <> AskUnsent -> is_answer (payload e) ->
  triple (seen_run asker run) (do_append_events asker [e])
    (fun r s => seen_run asker run s /\
       match r with
       | Ok (Appended | Terminal | Missing) => answers ask (payload e) -> ask_settled asker ask s
       | _ => True
       end).
Proof.
  intros Hsent Ha. assert (stable (seen_run asker run)) as Hst by apply stable_seen, _.
  eapply (triple_post q G).
  - apply (triple_append q G (seen_run asker run) asker None [e]); [done| |].
    + unfold was_queued. simpl. by rewrite answer_not_queued.
    + intros s run' Hg (run1 & Hr1 & _ & Hpre & _) [Hr' Ho'] Hw. left.
      rewrite Hr1 in Hr'. injection Hr' as ->.
      destruct (good_kept q s Hg asker run') as [|[Hwait _]]; [done|done|done|].
      exfalso. by apply Hsent, still_waiting_unsent, (still_waiting_prefix _ _ Hpre).
  - intros [[]|] s Hg [Hs Hpost]; split; try done; intros Hans.
    + destruct Hpost as (s0 & run0 & _ & (run1 & Hr1 & _ & Hpre & _) & [Hr0 _] & _ & Hseen).
      rewrite Hr0 in Hr1. injection Hr1 as <-. right. eexists. split; [exact Hseen|]. simpl.
      apply ask_state_answered; [|done]. by eapply ask_state_sent.
    + by left.
    + destruct Hpost as (s0 & (run1 & Hr1 & _) & Hn). congruence.
Qed.

Lemma triple_deliver_log asker ask answer if_unsent run :
  is_answer answer ->
  triple (seen_run asker run) (deliver_log asker ask answer if_unsent run)
    (fun r s => match r with
       | None => if_unsent = Leave -> answers ask answer -> ask_settled asker ask s
       | Some r => r <> Ok true
       end).
Proof.
  intros Ha. unfold deliver_log. destruct (has_terminal (sr_events run)) eqn:Ht.
  { apply (triple_done q G). intros s _ Hs _ _. left. by eapply seen_closed. }
  destruct (ask_state (sr_events run) ask) eqn:Es.
  - destruct if_unsent; by apply (triple_done q G).
  - eapply (triple_bind q G); [apply (triple_draws q G), draws_recorded|]. intros e.
    apply (triple_pure q G). intros [He _].
    eapply (triple_bind q G); [apply (triple_append_answer asker ask); congruence|].
    intros [[]|]; apply (triple_done q G); try done; intros s _ [_ Hs] _; by rewrite He in Hs.
  - apply (triple_done q G). intros s _ Hs _ _. right. by exists run.
Qed.

Lemma triple_settle_ask P asker ask : stable P -> triple P (settle_ask q asker ask) (fun r s => r = Ok true /\ P s).
Proof.
  intros HP. eapply (triple_bind q G).
  { apply (triple_messages q G P _ (fun _ _ => True)); [done|]. intros s _ _. by destruct (_.1). }
  intros r. eapply (triple_bind q G).
  { apply (triple_pre q G P); [|by intros s _ [? _]].
    apply (triple_queue_op q Hq G P (QWake (id_display asker) (id_display ask)) _ (fun _ _ => True));
      done. }
  intros r'. apply (triple_done q G). by intros s _ [? _].
Qed.

(** With the asker known to be stored ([known]), an answer that was not left
    for later settles the ask. *)
Lemma triple_deliver (known : bool) asker ask answer if_unsent :
  is_answer answer ->
  triple (fun s => known = true -> is_Some (stored_run s asker))
    (deliver q asker ask answer if_unsent)
    (fun r s => r = Ok true -> known = true -> if_unsent = Leave -> answers ask answer ->
       ask_settled asker ask s).
Proof.
  intros Ha. unfold deliver.
  assert (stable (fun s => known = true -> is_Some (stored_run s asker))) as Hst.
  { intros s s' Hg HG Hk Ht. eapply (stable_stored q G); eauto. }
  eapply (triple_try_with q G).
  { apply (triple_store_read q G _ _ (fun o s => match o with
      | Some run => seen_run asker run s | None => known = false end)); [exact Hst|].
    intros s _ Hk. destruct (stored_run s asker) as [run|] eqn:E; [by exists run|].
    destruct known; [|done]. by destruct (Hk eq_refl). }
  2: done.
  intros found.
  apply (triple_bind q G _ _ (fun stop s => match stop with
    | None => known = true -> if_unsent = Leave -> answers ask answer -> ask_settled asker ask s
    | Some r => r <> Ok true end)).
  - destruct found as [run|].
    + apply (triple_pre q G (seen_run asker run)); [|by intros s _ [_ ?]].
      eapply (triple_post q G); [by apply (triple_deliver_log asker ask)|].
      intros [r|] s _ Hr; [done|auto].
    + apply (triple_done q G). intros s _ [_ ->]. done.
  - intros [r|].
    + apply (triple_done q G). by intros s _ Hr ->.
    + eapply (triple_post q G); [apply triple_settle_ask|].
      * intros s s' Hg HG Hs Hk Hu Hans. eapply stable_ask_settled; eauto.
      * intros r s _ [-> Hs] _. done.
Qed.

Lemma draws_task_answer task agent ask events :
  draws (task_answer task agent ask events : @M R X _)
    (fun o => match o with Some p => answers ask p | None => True end).
Proof.
  unfold task_answer. destruct (answer_body events); [|by apply draws_ret].
  eapply draws_bind; [apply draws_random|]. intros n _. by apply draws_ret.
Qed.

(** The same with nothing asked of the answer. *)
Lemma triple_delivered P asker ask answer if_unsent :
  stable P -> is_answer answer -> triple P (deliver q asker ask answer if_unsent) (fun _ => P).
Proof.
  intros HP Ha. apply (triple_conseq q G) with
    (P := fun s => (false = true -> is_Some (stored_run s asker)) /\ P s)
    (Q := fun r s => (r = Ok true -> false = true -> if_unsent = Leave -> answers ask answer ->
       ask_settled asker ask s) /\ P s); [|done|by intros r s _ []].
  apply (triple_frame q G); [done|]. by apply (triple_deliver false).
Qed.

Lemma triple_put P m : stable P -> triple P (put m) (fun _ => P).
Proof.
  intros HP. eapply (triple_bind q G).
  { apply (triple_messages q G P _ (fun _ _ => True)); [done|]. intros s _ _. by destruct (_.1). }
  intros [[|stored]|]; try (apply (triple_done q G); by intros s _ [? _]).
  destruct (same_message _ _); apply (triple_done q G); by intros s _ [? _].
Qed.

Lemma triple_reply request :
  triple (fun _ => True) (reply (mkOwnedDeliverer q) request) (fun _ _ => True).
Proof.
  unfold reply. assert (stable (fun _ => True)) as Htrue by (by intros s s').
  eapply (triple_bind q G).
  { apply (triple_store_read q G _ _ (fun _ _ => True)); done. }
  intros [[ask|]|]; try (by apply (triple_done q G)).
  destruct (negb _); [by apply (triple_done q G)|].
  eapply (triple_bind q G); [apply (triple_draws q G), draws_random|]. intros n.
  apply (triple_pre q G (fun _ => True)); [|done].
  eapply (triple_try q G); [by apply triple_put| |done]. intros id.
  eapply (triple_bind q G).
  { apply (triple_delivered (fun _ => True)); [done|]. by exists (ms_id ask). }
  intros [[]|]; by apply (triple_done q G).
Qed.

End Proofs.

(** ** What a reply touches *)

Section Reply.
Context `{UuidCrate} {R X : Type} `{Redis R}.

Lemma only_messages {A} id (f : Messages -> result A StoreError * Messages) :
  only (only_log id) (store_call (on_messages f) : @M R X _).
Proof.
  apply only_call; [by intros s|]. intros s id' _. unfold on_messages. by destruct (f (sh_messages s)).
Qed.

Lemma only_queue {A} id (f : R -> A * R) : only (only_log id) (queue_call f : @M R X _).
Proof. apply only_call; [by intros s|]. intros s id' _. by destruct (f (sh_queue s)). Qed.

Lemma only_log_read {A} id (f : Shared R -> A) : only (only_log id) (store_call (reads f) : @M R X _).
Proof. by apply only_call. Qed.

Lemma only_deliver q asker ask answer if_unsent :
  only (only_log asker) (deliver q asker ask answer if_unsent : @M R X _).
Proof.
  apply only_try_with; [apply only_log_read|]. intros found.
  apply only_bind.
  - destruct found as [run|]; [|apply only_ret]. unfold deliver_log.
    destruct (has_terminal _); [apply only_ret|].
    destruct (ask_state _ _); [destruct if_unsent; apply only_ret| |apply only_ret].
    apply only_bind; [eapply only_draws, draws_recorded|]. intros e.
    apply only_bind; [apply only_append|]. intros [[]|]; apply only_ret.
  - intros [r|]; [apply only_ret|].
    apply only_bind; [apply only_messages|]. intros ?.
    apply only_bind; [apply only_queue|]. intros ?. apply only_ret.
Qed.

Lemma only_put id m : only (only_log id) (put m : @M R X _).
Proof.
  apply only_bind; [apply only_messages|]. intros [[|stored]|]; try apply only_ret.
  destruct (same_message _ _); apply only_ret.
Qed.

(** C20. A reply reaches the run that asked and no other: whatever the other
    processes do, the only log a reply writes to is that of a run whose still
    unanswered ask named the sending run as its task, with the id and the agent
    the reply names; with no such ask in the store, it writes to none. *)
Theorem reply_reaches_only_its_asker self request (w : Server R X) :
  exists own, sv_steps (reply self request w).2 = own ++ sv_steps w /\
    forall s s' id, (s, s') ∈ own -> stored_run s' id <> stored_run s id ->
      exists s0 ask, (s0, s0) ∈ own /\
        ask_of_task (sh_messages s0) (run_id (mq_from request)) = Some ask /\
        mq_reply_to request = Some (ms_id ask) /\ ms_from_agent ask = mq_to request /\
        id = ms_from_run ask.
Proof.
  unfold reply. unfold bind at 1.
  destruct (call_step unavailable
    (reads (fun s => ask_of_task (sh_messages s) (run_id (mq_from request)))) w)
    as (s0 & s0' & Hs0 & Hc & Hr).
  assert (s0' = s0) as -> by (by destruct Hc). clear Hc. unfold do_ask_of_task, store_call.
  destruct (call unavailable _ w) as [r w1]. simpl in Hs0, Hr.
  assert (exists own, sv_steps w1 = own ++ sv_steps w /\
    forall s s' id, (s, s') ∈ own -> stored_run s' id <> stored_run s id ->
      exists s0 ask, (s0, s0) ∈ own /\
        ask_of_task (sh_messages s0) (run_id (mq_from request)) = Some ask /\
        mq_reply_to request = Some (ms_id ask) /\ ms_from_agent ask = mq_to request /\
        id = ms_from_run ask) as Hnone.
  { exists [(s0, s0)]. split; [done|].
    intros s s' id [[= -> ->]|Hin]%elem_of_cons; [done|by inversion Hin]. }
  destruct r as [[ask|]|]; [|exact Hnone..].
  destruct (negb _) eqn:Eb; [exact Hnone|].
  apply negb_false_iff, andb_true_iff in Eb as [Eid Eag]. bool_to_prop.
  match goal with |- exists own, sv_steps (?m w1).2 = _ /\ _ =>
    assert (only (only_log (ms_from_run ask)) m) as Hrest end.
  { apply only_bind; [eapply only_draws, draws_random|]. intros n.
    apply (only_try_with _ (fun e => e)); [apply only_put|]. intros id.
    apply only_bind; [apply only_deliver|]. intros [[]|]; apply only_ret. }
  destruct (Hrest w1) as (own & Ho & Hf). exists (own ++ [(s0, s0)]).
  rewrite Ho, Hs0, <-app_assoc. split; [done|]. intros s s' id Hin Hne.
  exists s0, ask. split_and!.
  - set_solver.
  - specialize (Hr _ eq_refl). by injection Hr.
  - done.
  - done.
  - apply elem_of_app in Hin as [Hin|[[= -> ->]|Hin]%elem_of_cons]; [|done|by inversion Hin].
    rewrite Forall_forall in Hf. specialize (Hf _ Hin). simpl in Hf.
    destruct (decide (id = ms_from_run ask)); [done|]. by destruct Hne; apply Hf.
Qed.

End Reply.

(** ** Cutting a body *)

Lemma boundary_zero s : is_char_boundary s 0 = true.
Proof. unfold is_char_boundary. by destruct s. Qed.

Lemma boundary_at_spec s i :
  is_char_boundary s (boundary_at s i) = true /\ (boundary_at s i <= i)%nat /\
  forall n, (n <= i)%nat -> is_char_boundary s n = true -> (n <= boundary_at s i)%nat.
Proof.
  induction i as [|i (IHb & IHl & IHm)]; simpl.
  - rewrite boundary_zero. split_and!; [apply boundary_zero|lia|lia].
  - destruct (is_char_boundary s (S i)) eqn:E; [by split_and!; [|lia|lia]|].
    split_and!; [done|lia|]. intros n Hn Hb. destruct (decide (n = S i)) as [->|]; [congruence|].
    apply IHm; [lia|done].
Qed.

(** The bytes of one character: a first byte and its continuation bytes. *)
Definition is_char (ch : list byte) : Prop :=
  match ch with
  | [] => False
  | b :: rest => is_continuation b = false /\ Forall (fun c => is_continuation c = true) rest
  end.

(** A boundary lies between two characters. *)
Lemma boundary_between chars n :
  Forall is_char chars -> (n <= length (concat chars))%nat ->
  is_char_boundary (concat chars) n = true ->
  exists k, n = length (concat (take k chars)).
Proof.
  intros Hc. revert n. induction Hc as [|ch chars Hch _ IH]; intros n Hn Hb.
  { exists 0. simpl in *. lia. }
  destruct (decide (n = 0)) as [->|Hn0]; [by exists 0|]. simpl in *. rewrite length_app in Hn.
  unfold is_char_boundary in Hb. destruct (decide (n < length ch)) as [Hlt|Hge].
  - exfalso. rewrite lookup_app_l in Hb by done. destruct ch as [|b rest]; [done|].
    destruct n as [|n]; [done|]. simpl in *. destruct Hch as [_ Hrest].
    destruct (rest !! n) as [c|] eqn:Ec; [|apply lookup_ge_None in Ec; lia].
    rewrite Forall_lookup in Hrest. by rewrite (Hrest _ _ Ec) in Hb.
  - destruct (IH (n - length ch)) as (k & Hk); [lia| |].
    + unfold is_char_boundary. rewrite lookup_app_r in Hb by lia.
      destruct (concat chars !! (n - length ch)) as [c|] eqn:Ec.
      * destruct (is_continuation c); [|by rewrite orb_true_r].
        rewrite orb_false_r in *. bool_to_prop. lia.
      * bool_to_prop. rewrite length_app in Hb. apply Nat.eqb_eq. lia.
    + exists (S k). simpl. rewrite length_app, <-Hk. lia.
Qed.

Lemma boundary_of_chars chars j :
  Forall is_char chars -> is_char_boundary (concat chars) (length (concat (take j chars))) = true.
Proof.
  intros Hc. rewrite <-(take_drop j chars) at 1. rewrite concat_app. unfold is_char_boundary.
  rewrite lookup_app_r, Nat.sub_diag, length_app by done.
  destruct (drop j chars) as [|ch rest] eqn:E; simpl; [apply Nat.eqb_eq; lia|].
  assert (is_char ch) as Hch.
  { rewrite Forall_forall in Hc. apply Hc. rewrite <-(take_drop j chars), E. set_solver. }
  destruct ch as [|b l]; [done|]. simpl. destruct Hch as [-> _]. apply orb_true_r.
Qed.

(** A body is cut between characters, and as late as possible: the answer
    of a task is at most [MAX_MESSAGE_BYTES] long, is the whole body when that
    fits, and otherwise the longest prefix that fits and ends where a character
    of the text ends, so a text in UTF-8 loses whole characters at its end and
    none is split. *)
Theorem capped_keeps_characters body chars :
  Forall is_char chars -> string_bytes body = concat chars ->
  exists k, string_bytes (capped body) = concat (take k chars) /\
    (length (concat (take k chars)) <= MAX_MESSAGE_BYTES)%nat /\
    forall j, (length (concat (take j chars)) <= MAX_MESSAGE_BYTES)%nat ->
      (length (concat (take j chars)) <= length (concat (take k chars)))%nat.
Proof.
  intros Hc Hb. unfold capped. rewrite Hb.
  assert (forall j, take (length (concat (take j chars))) (concat chars) = concat (take j chars)) as Htake.
  { intros j. rewrite <-(take_drop j chars) at 2. rewrite concat_app. apply take_app_length. }
  assert (forall j, (length (concat (take j chars)) <= length (concat chars))%nat) as Hle.
  { intros j. rewrite <-(take_drop j chars) at 2. rewrite concat_app, length_app. lia. }
  destruct (MAX_MESSAGE_BYTES <? length (concat chars))%nat eqn:E; bool_to_prop.
  - destruct (boundary_at_spec (concat chars) MAX_MESSAGE_BYTES) as (Hbd & Hmax & Hlong).
    set (n := boundary_at (concat chars) MAX_MESSAGE_BYTES) in *.
    destruct (boundary_between chars n Hc) as (k & Hk); [lia|done|].
    exists k. rewrite string_bytes_string. rewrite Hk at 1. split; [apply Htake|]. split; [lia|].
    intros j Hj. rewrite <-Hk. apply Hlong; [done|]. by apply boundary_of_chars.
  - exists (length chars). rewrite firstn_all. split_and!; [done|done|]. intros j _. apply Hle.
Qed.

(** ** The properties *)

Section Properties.
Context `{UuidCrate} {R X : Type} `{Redis R} `{!RedisLaws R} (q : RunQueue) (Hq : keys_ok q).

Lemma draws_deadline timeout : draws (deadline_of timeout : @M R X _) (fun _ => True).
Proof.
  destruct timeout; [|by apply draws_ret].
  eapply draws_bind; [apply draws_now|]. intros t _. by apply draws_ret.
Qed.

Lemma triple_send request :
  triple (X := X) q (prompt q) (fun _ => True) (send (mkOwnedDeliverer q) request) (fun _ _ => True).
Proof.
  unfold send. destruct (mq_limits request) as [l|]; [|by apply triple_reply; [|apply _]].
  assert (stable q (prompt q) (fun _ : Shared R => True)) as Htrue by (by intros s s').
  destruct (_ <=? _)%N; [by apply (triple_done q (prompt q))|].
  eapply (triple_try q (prompt q)); [apply (triple_child_spec q (prompt q))| |done]. intros task.
  apply (triple_pre q (prompt q) (fun _ => True)); [|done].
  eapply (triple_bind q (prompt q)); [apply (triple_draws q (prompt q)), draws_deadline|].
  intros deadline. apply (triple_pure q (prompt q)). intros _.
  eapply (triple_bind q (prompt q)); [apply (triple_draws q (prompt q)), draws_random|].
  intros n. apply (triple_pure q (prompt q)). intros _.
  eapply (triple_try q (prompt q)); [by apply (triple_put q (prompt q))| |done]. intros id.
  eapply (triple_try q (prompt q)); [by apply (triple_enqueue_child q Hq)| |done]. intros child.
  by apply (triple_done q (prompt q)).
Qed.

(** Messages follow the rules too: sending (a tell, an ask with its task, or
    a reply) and delivering an answer, among any other processes that follow
    the rules, with any call failing and the process dying at any point, keep
    them at every step: no log is rewritten and no asker or task is lost from
    the queue. *)
Theorem deliverer_strands_nothing (w : Server R X) request asker ask answer if_unsent :
  respectful q (prompt q) w -> Good q (sv_shared w) -> answers ask answer ->
  keeps q (prompt q) w (send (mkOwnedDeliverer q) request w).2 /\
  keeps q (prompt q) w (deliver q asker ask answer if_unsent w).2.
Proof.
  intros Hr Hg Ha. split.
  - by eapply triple_keeps; [apply _|apply triple_send|..].
  - by eapply triple_keeps; [apply _|by apply (triple_delivered q Hq (prompt q) (fun _ => True)); [intros s s'|eapply answers_is]|..].
Qed.

(** A delivered answer settles its ask: when [deliver] reports an answer to
    a stored asker as delivered, the asker's log has ended, or it took an answer
    to the ask after the ask was logged, so that at that point the harness no
    longer waits on it.  Another answer that came first, a timeout racing a
    reply, or a log that moved meanwhile changes nothing of this. *)
Theorem deliver_settles_the_ask (w : Server R X) asker ask answer w' :
  respectful q (evolves q) w -> Good q (sv_shared w) ->
  is_Some (stored_run (sv_shared w) asker) -> answers ask answer ->
  deliver q asker ask answer Leave w = (Ok true, w') ->
  closed (sv_shared w') asker \/
  exists run, seen_run asker run (sv_shared w') /\ ask_state (sr_events run) ask = AskAnswered /\
    forall spec st a, harness (fold spec (sr_events run)) <> WaitingForMessage st a ask.
Proof.
  intros Hr Hg Hs Ha E.
  destruct (triple_deliver q Hq (evolves q) true asker ask answer Leave (answers_is _ _ Ha) w Hr Hg) as [_ Hpost];
    [auto|].
  rewrite E in Hpost. destruct Hpost as [Hc|(run & Hrun & Hans)]; [done..|by left|].
  right. exists run. split_and!; [done|done|]. intros spec st a Hw%waiting_is_open. congruence.
Qed.

End Properties.

(** ** A concrete ask *)

#[local] Instance demo_uuids : UuidCrate := hyphenated.

(** The sample run has asked (message 9) and waits in processing. *)
Definition asking_log : list Event :=
  sample_event <$> [RunCreated; RunQueued; UserMessage "hello"; RunScheduled; RunProvisioning;
    RunStarting; RunStarted; MessageSent (id_of 9) (id_of 2) true].

Definition asking_shared : Shared Db :=
  with_queue (with_runs demo_shared
      (put_run demo_store (mkStoredRun sample_spec asking_log) 5%Z).2)
    (Queue.push Queue.open empty_db (id_display (id_of 1 : RunId))).

Lemma asking_stored id run :
  stored_run asking_shared id = Some run -> id = id_of 1 /\ run = mkStoredRun sample_spec asking_log.
Proof.
  assert (lock_read (runs (runs_store asking_shared)) =
    {[id_of 1 := mkStoredRun sample_spec asking_log]}) as E by (vm_compute; reflexivity).
  unfold stored_run, get_run. rewrite E. by intros [<- <-]%lookup_singleton_Some.
Qed.

Lemma asking_listed text : kept Queue.open (sh_queue asking_shared) text <-> text = id_display (id_of 1 : RunId).
Proof.
  assert (waiting Queue.open (sh_queue asking_shared) = [id_display (id_of 1 : RunId)]) as Ew
    by (vm_compute; reflexivity).
  assert (claimed Queue.open (sh_queue asking_shared) = []) as Ec by (vm_compute; reflexivity).
  unfold kept, parked_on. rewrite Ew, Ec.
  change (db_hashes (db (sh_queue asking_shared))) with (∅ : gmap (string * string) string).
  rewrite lookup_empty, list_elem_of_singleton. split.
  - intros [E|[E|[]]]; [done|by inversion E|done].
  - by left.
Qed.

Lemma asking_good : Good Queue.open asking_shared.
Proof.
  assert (forall text, ~ is_Some (lease_of Queue.open (sh_queue asking_shared) text)) as Hnl.
  { intros text [v Hv]. unfold lease_of, string_of in Hv.
    change (db_strings (db (sh_queue asking_shared))) with (∅ : gmap string (string * N)) in Hv.
    by rewrite lookup_empty in Hv. }
  split.
  - apply (put_run_wf demo_store (mkStoredRun sample_spec asking_log) 5%Z
      (put_run demo_store (mkStoredRun sample_spec asking_log) 5%Z).1).
    + apply (good_store _ _ (demo_good Queue.open)).
    + apply surjective_pairing.
  - apply (good_agents _ _ (demo_good Queue.open)).
  - intros id [Hk|Hl]; [|by destruct (Hnl (id_display id))].
    apply asking_listed, id_display_inj in Hk as ->. vm_compute. by eexists.
  - intros text id [->%asking_listed|Hl] Hid; [|by destruct (Hnl text)].
    rewrite id_parse_display in Hid. congruence.
  - intros id run _ Hl. by destruct (Hnl (id_display id)).
  - intros id run [[-> ->]%asking_stored _] _. left. by apply asking_listed.
Qed.

Definition asking_server : Server Db unit := mkServer asking_shared tt calm 0 [].

Definition demo_answer : EventPayload :=
  MessageReceived (id_of 10) (id_of 2) (id_of 3) "the answer" (Some (id_of 9)).

Lemma deliverer_strands_nothing_witness :
  keeps Queue.open (prompt Queue.open) asking_server
    (deliver Queue.open (id_of 1) (id_of 9) demo_answer Leave asking_server).2.
Proof.
  refine (proj2 (deliverer_strands_nothing Queue.open (with_key_ok "gol:runs") asking_server
    (mkMessageRequest sample_spec 1 (id_of 2) "hi" false None None None) (id_of 1) (id_of 9)
    demo_answer Leave _ _ _)).
  - apply calm_respectful. reflexivity.
  - apply asking_good.
  - reflexivity.
Defined.

Lemma deliver_settles_the_ask_witness :
  closed (sv_shared (deliver Queue.open (id_of 1) (id_of 9) demo_answer Leave asking_server).2)
    (id_of 1) \/
  exists run, seen_run (id_of 1) run
      (sv_shared (deliver Queue.open (id_of 1) (id_of 9) demo_answer Leave asking_server).2) /\
    ask_state (sr_events run) (id_of 9) = AskAnswered /\
    forall spec st a, harness (fold spec (sr_events run)) <> WaitingForMessage st a (id_of 9).
Proof.
  destruct (ok_pair (deliver Queue.open (id_of 1) (id_of 9) demo_answer Leave asking_server))
    as (b & w' & E); [vm_compute; reflexivity|].
  assert (b = true) as -> by
    (assert (Ok (E := string) b = Ok true) as [= ->]; [|done];
     etrans; [symmetry; apply (f_equal fst E)|]; vm_compute; reflexivity).
  rewrite E. refine (deliver_settles_the_ask Queue.open (with_key_ok "gol:runs") asking_server
    (id_of 1) (id_of 9) demo_answer w' _ _ _ _ E).
  - intros n s Hg. reflexivity.
  - apply asking_good.
  - vm_compute. by eexists.
  - reflexivity.
Defined.

Lemma capped_keeps_characters_witness :
  exists k, string_bytes (capped "ab") = concat (take k [string_bytes "a"; string_bytes "b"]) /\
    (length (concat (take k [string_bytes "a"; string_bytes "b"])) <= MAX_MESSAGE_BYTES)%nat.
Proof.
  destruct (capped_keeps_characters "ab" [string_bytes "a"; string_bytes "b"]) as (k & Hk & Hl & _).
  - repeat constructor.
  - reflexivity.
  - exists k. split; [exact Hk|exact Hl].
Defined.
