(* ===== verification/Fires.v ===== *)
(** * Firing triggers ([server/triggers.rs])

    A fire stores its trigger's run pending, reads the trigger again, and
    pushes the run once or holds it.  The theorems: a held run is cancelled
    and never pushed; a tick fired twice is one run; the run remembers its
    trigger and generation, so the sweep gates it as its fire would have;
    firing follows the rules of the queue. *)

From S2P Require Import Prelude Protocol Uuids MemoryOwner SpecBuilder Reduce Authorizer.
From S2P Require Import DriverTurns Store StoreProofs StoreTriggers StoreMessages StoreStops.
From S2P Require Import Queue QueueProofs Driver Server ServerLogic Spawner.
From Stdlib Require Import DecimalString DecimalN DecimalZ.

(** ** Numbers as text *)

(** [to_string] of a [u64] and of an [i64]. *)
Definition show_u64 (n : N) : string := NilZero.string_of_uint (N.to_uint n).
Definition show_i64 (z : Z) : string := NilZero.string_of_int (Z.to_int z).

(** [parse::<u64>()]: an optional [+], digits, and no overflow. *)
Definition parse_u64 (s : string) : option N :=
  let digits := match s with
                | String c rest => if Ascii.eqb c (Ascii.ascii_of_N 43) then rest else s
                | EmptyString => s
                end in
  d ← NilZero.uint_of_string digits;
  let n := N.of_uint d in
  if (n <=? u64_max)%N then Some n else None.

(** The two's complement bytes of an [i64], little-endian. *)
Definition i64_bytes (z : Z) : list byte := le_bytes 8 (Z.to_N (z mod 2 ^ 64)).

(** ** Data *)

Definition TRIGGER_KEY : string := "gol.trigger".
Definition GENERATION_KEY : string := "gol.generation".
Definition TICK_KEY : string := "gol.tick".
Definition EVENT_KEY : string := "gol.event".

Definition EVENT_RUN_NAMESPACE : Uuid := from_u128 0x7d3a19c4e2b84a569f013c6e8b24d5a7%N.
Definition TICK_RUN_NAMESPACE : Uuid := from_u128 0x2c1e7a905b3d4f618e2a6d0c9b4713f5%N.

Definition MIN_WEBHOOK_KEY_BYTES : nat := 32.
Definition MAX_TRIGGERS : nat := 100.

Inductive Fired := FRun (run : RunId) | FPaused | FNotFound | FAgentNotFound | FMoved.

Inductive FireError := NotStored (text : string) | MaybeStored (run : RunId) (text : string).

Inductive Key :=
| KTick (run : RunId) (at_ms : Z)
| KEvent (run : RunId) (event body : string).

Inductive Hooked := Started (run : RunId) | Duplicate (run : RunId) | Refused | HAgentNotFound | HNotFound.

Inductive Replay := ReplayWaiting | ReplayRefused | ReplayDuplicate.

Definition is_cancelled (p : EventPayload) : bool :=
  match p with RunCancelled => true | _ => false end.

Definition replay_of (events : list Event) : Replay :=
  if still_waiting events then ReplayWaiting
  else if existsb (fun event => is_cancelled (payload event)) events &&
          negb (existsb (fun event => is_scheduled (payload event)) events)
  then ReplayRefused
  else ReplayDuplicate.

Section Fires.
Context `{UuidCrate} {R X : Type} `{Redis R} (enqueue_debug : EnqueueError → string).

Local Open Scope rust_scope.

Definition trigger_thread (id : TriggerId) : string := "trigger-" +:+ id_display id.

(** [run_of]: the run a fire starts, given the id [RunId::new()] draws.
    [None], a failed [expect] of the builder, does not arise ([run_of_some]). *)
Definition run_of (fresh : RunId) (t : StoredTrigger) (version : string) (caps : list Capability)
    : option RunSpec :=
  let md : gmap string string :=
    <[SESSION_ID := trigger_thread (tg_id t)]>
      (<[TRIGGER_KEY := id_display (tg_id t)]>
         (<[GENERATION_KEY := show_u64 (tg_generation t)]> ∅)) in
  let b := with_owner SpecBuilder.builder (tg_owner t) in
  let b := with_agent b (tg_agent_id t) version in
  let b := with_input b (tg_input t) in
  let b := with_placement b (tg_placement t) in
  let b := with_work_model b (tg_work_model t) in
  let b := with_capabilities b caps in
  let b := with_limits b (default (mkLimits 8 4) (tg_limits t)) in
  build fresh (with_metadata b md).

(** The spec of the run, with the id, the input and the metadata a key sets. *)
Definition keyed (spec : RunSpec) (key : option Key) : RunSpec :=
  let set id text k v :=
    mkRunSpec id (owner spec) (agent_id spec) (agent_version spec) text (placement spec)
      (work_model spec) (capabilities spec) (limits spec) (<[k := v]> (metadata spec))
      (lineage spec) in
  match key with
  | Some (KTick run at_ms) => set run (input spec) TICK_KEY (show_i64 at_ms)
  | Some (KEvent run event body) =>
      let newline := String (Ascii.ascii_of_N 10) EmptyString in
      set run (input spec +:+ newline +:+ newline +:+ body) EVENT_KEY event
  | None => spec
  end.

(** [gate_of]: the cell says why the run is held. *)
Definition gate_of (o : Owner) (id : TriggerId) (generation : N)
    : @M R (option Fired * X) Gate :=
  let! found := do_trigger o id in
  match found with
  | Ok (Some t) =>
      if tg_enabled t && (tg_generation t =? generation)%N then ret GateOpen
      else
        let! _ := set_cell (Some (if tg_enabled t then FMoved else FPaused)) in
        ret GateShut
  | Ok None =>
      let! _ := set_cell (Some FNotFound) in
      ret GateShut
  | Err error =>
      ret (GateUnknown ("the trigger could not be read again, so the run was not pushed: " +:+
                        MemoryOwner.message error))
  end.

Definition fire_error (run : RunId) (error : EnqueueError) : FireError :=
  match error with
  | EQueue text => NotStored text
  | EPush text | EHeld text => MaybeStored run text
  | EStore error => MaybeStored run (MemoryOwner.message error)
  end.

Definition fire_answer (run : RunId) (fired : Fire) (held : option Fired) : Fired * bool :=
  match fired, held with
  | FireHeld, Some why => (why, false)
  | fired, _ => (FRun run, match fired with FirePushed => true | _ => false end)
  end.

Definition unread (error : StoreError) : FireError := NotStored (MemoryOwner.message error).

(** Whether a tick the fire was asked for is no longer the trigger's next. *)
Definition tick_moved (t : StoredTrigger) (key : option Key) : bool :=
  match key with
  | Some (KTick _ at_ms) => negb (bool_decide (tg_next_fire_ms t = Some at_ms))
  | _ => false
  end.

Definition fire (q : RunQueue) (o : Owner) (id : TriggerId) (key : option Key)
    : @M R X (result (Fired * bool) FireError) :=
  let!? found := do_trigger o id else unread in
  match found with
  | None => ret (Ok (FNotFound, false))
  | Some t =>
      if negb (tg_enabled t) then ret (Ok (FPaused, false))
      else if tick_moved t key then ret (Ok (FMoved, false))
      else
        let!? agent := do_agent (tg_agent_id t) else unread in
        match agent with
        | None => ret (Ok (FAgentNotFound, false))
        | Some agent =>
            if negb (owner_is (sa_owner agent) (tg_owner t)) then ret (Ok (FAgentNotFound, false))
            else
              let! fresh := random in
              match run_of (id_of fresh) t (am_version (sa_manifest agent))
                      (am_required_capabilities (sa_manifest agent)) with
              | None => ret (Err (NotStored "expected to be recorded"))
              | Some spec =>
                  let spec := keyed spec key in
                  let! settled :=
                    with_cell None (enqueue_fire q spec (gate_of o id (tg_generation t))) in
                  match settled with
                  | (Err error, _) => ret (Err (fire_error (run_id spec) error))
                  | (Ok fired, held) => ret (Ok (fire_answer (run_id spec) fired held))
                  end
              end
        end
  end.

(** The first of a fire's two answers. *)
Definition fired_only (m : @M R X (result (Fired * bool) FireError))
    : @M R X (result Fired FireError) :=
  let!? answer := m in ret (Ok answer.1).

Definition fire_trigger (q : RunQueue) (o : Owner) (id : TriggerId) : @M R X (result Fired FireError) :=
  fired_only (fire q o id None).

(** The run of a trigger's tick. *)
Definition tick_run (id : TriggerId) (tick_ms : Z) : RunId :=
  from_uuid (uuid_v5 TICK_RUN_NAMESPACE (uuid_bytes (as_uuid id) ++ i64_bytes tick_ms)).

Definition fire_trigger_at (q : RunQueue) (o : Owner) (id : TriggerId) (tick_ms : Z)
    : @M R X (result Fired FireError) :=
  fired_only (fire q o id (Some (KTick (tick_run id tick_ms) tick_ms))).

(** [enqueue_debug] is [{error:?}], the text the derived [Debug] prints. *)
Definition settle_fired_run (q : RunQueue) (spec : RunSpec) : @M R X (result Fire string) :=
  let id : option TriggerId := text ← metadata spec !! TRIGGER_KEY; id_parse text in
  let generation := text ← metadata spec !! GENERATION_KEY; parse_u64 text in
  match id, generation with
  | Some id, Some generation =>
      let! settled := with_cell None (settle_fire q spec (gate_of (owner spec) id generation)) in
      ret (match settled.1 with Ok fired => Ok fired | Err error => Err (enqueue_debug error) end)
  | _, _ =>
      let! settled := settle_fire q spec (ret GateShut) in
      ret (match settled with Ok fired => Ok fired | Err error => Err (enqueue_debug error) end)
  end.

Definition replay_now (run : RunId) : @M R X (result Replay FireError) :=
  let!? found := do_run run else (fun error => MaybeStored run (MemoryOwner.message error)) in
  ret (Ok (replay_of (match found with Some stored => sr_events stored | None => [] end))).

(** The run of a webhook trigger's event. *)
Definition event_run (id : TriggerId) (event : string) : RunId :=
  from_uuid (uuid_v5 EVENT_RUN_NAMESPACE (uuid_bytes (as_uuid id) ++ string_bytes event)).

Definition fire_webhook (q : RunQueue) (t : StoredTrigger) (event body : string)
    : @M R X (result Hooked FireError) :=
  let run := event_run (tg_id t) event in
  let!? stored := do_run run else unread in
  match stored with
  | Some stored =>
      match replay_of (sr_events stored) with
      | ReplayRefused => ret (Ok Refused)
      | ReplayDuplicate => ret (Ok (Duplicate run))
      | ReplayWaiting =>
          let! settled := settle_fired_run q (sr_spec stored) in
          match settled with
          | Ok FirePushed => ret (Ok (Started run))
          | Ok FireFound =>
              let!? replay := replay_now run in
              ret (Ok (match replay with
                       | ReplayRefused => Refused
                       | ReplayWaiting | ReplayDuplicate => Duplicate run
                       end))
          | Ok FireHeld => ret (Ok Refused)
          | Err text => ret (Err (MaybeStored run text))
          end
      end
  | None =>
      let!? answer := fire q (tg_owner t) (tg_id t) (Some (KEvent run event body)) in
      match answer with
      | (FRun run, true) => ret (Ok (Started run))
      | (FRun run, false) =>
          let!? replay := replay_now run in
          ret (Ok (match replay with
                   | ReplayWaiting => Started run
                   | ReplayRefused => Refused
                   | ReplayDuplicate => Duplicate run
                   end))
      | ((FPaused | FMoved), _) => ret (Ok Refused)
      | (FAgentNotFound, _) => ret (Ok HAgentNotFound)
      | (FNotFound, _) => ret (Ok HNotFound)
      end
  end.

End Fires.

(** ** Numbers and names *)

Lemma parse_show_u64 n : (n <= u64_max)%N -> parse_u64 (show_u64 n) = Some n.
Proof.
  intros Hn. unfold parse_u64, show_u64.
  assert (exists c rest, NilZero.string_of_uint (N.to_uint n) = String c rest /\
    Ascii.eqb c (Ascii.ascii_of_N 43) = false) as (c & rest & E & Hc).
  { destruct (N.to_uint n); simpl; eauto. }
  rewrite E, Hc, <-E, NilZero.usu; simpl.
  - rewrite DecimalN.Unsigned.of_to. by apply N.leb_le in Hn as ->.
  - intros Hnil. pose proof (DecimalN.Unsigned.of_to n) as Hz. rewrite Hnil in Hz. simpl in Hz. by subst n.
Qed.

(** The name a tick's run id is made of. *)
Lemma tick_name_inj `{UuidCrate} (id id' : TriggerId) tick tick' :
  (- 2 ^ 63 <= tick < 2 ^ 63)%Z -> (- 2 ^ 63 <= tick' < 2 ^ 63)%Z ->
  uuid_bytes (as_uuid id) ++ i64_bytes tick = uuid_bytes (as_uuid id') ++ i64_bytes tick' ->
  id = id' /\ tick = tick'.
Proof.
  intros Ht Ht' E. apply uuid_bytes_app_inj in E as [E Eb]. split; [by apply id_uuid_inj|].
  apply (f_equal le_value) in Eb. unfold i64_bytes in Eb. rewrite !le_value_bytes in Eb.
  assert (forall z : Z, Z.to_N (z mod 2 ^ 64) mod 256 ^ N.of_nat 8 = Z.to_N (z mod 2 ^ 64))%N as Hm.
  { intros z. apply N.mod_small. apply N2Z.inj_lt. rewrite Z2N.id by (apply Z.mod_pos_bound; lia).
    change (Z.of_N (256 ^ N.of_nat 8)) with (2 ^ 64)%Z. apply Z.mod_pos_bound. lia. }
  rewrite !Hm in Eb. apply Z2N.inj in Eb; [|apply Z.mod_pos_bound; lia..].
  assert ((tick - tick') mod 2 ^ 64 = 0)%Z as Hz.
  { rewrite Zminus_mod, Eb, Z.sub_diag. done. }
  apply Z.mod_divide in Hz as [k Hk]; [|lia]. lia.
Qed.

(** ** The run of a fire *)

Section Runs.
Context `{UuidCrate}.

Lemma run_of_some fresh t version caps :
  exists spec, run_of fresh t version caps = Some spec /\
    run_id spec = fresh /\ owner spec = tg_owner t /\
    metadata spec = <[SESSION_ID := trigger_thread (tg_id t)]>
      (<[TRIGGER_KEY := id_display (tg_id t)]> (<[GENERATION_KEY := show_u64 (tg_generation t)]> ∅)).
Proof. by eexists. Qed.

(** The run id a key gives. *)
Definition key_run (fresh : RunId) (key : option Key) : RunId :=
  match key with Some (KTick run _ | KEvent run _ _) => run | None => fresh end.

Lemma keyed_spec spec key :
  run_id (keyed spec key) = key_run (run_id spec) key /\ owner (keyed spec key) = owner spec /\
  forall name, name <> TICK_KEY -> name <> EVENT_KEY ->
    metadata (keyed spec key) !! name = metadata spec !! name.
Proof.
  destruct key as [[run at_ms|run event body]|]; simpl; split_and!; try done;
    intros name H1 H2; by rewrite lookup_insert_ne.
Qed.

Lemma fired_trigger fresh t version caps spec key :
  run_of fresh t version caps = Some spec ->
  owner (keyed spec key) = tg_owner t /\
  metadata (keyed spec key) !! TRIGGER_KEY = Some (id_display (tg_id t)) /\
  metadata (keyed spec key) !! GENERATION_KEY = Some (show_u64 (tg_generation t)).
Proof.
  destruct (run_of_some fresh t version caps) as (spec' & -> & _ & Ho & Hm). intros [= <-].
  destruct (keyed_spec spec' key) as (_ & -> & Hk). rewrite !Hk by done. rewrite Hm.
  split_and!; [done|..]; rewrite !lookup_insert_ne by done; apply lookup_insert_eq.
Qed.

End Runs.

(** ** What a fire keeps *)

Section Proofs.
Context `{UuidCrate} {R X : Type} `{Redis R} `{!RedisLaws R} (q : RunQueue) (Hq : keys_ok q).
Context (enqueue_debug : EnqueueError → string).

Section Gate.
Context (G : Shared R -> Shared R -> Prop) `{!Discipline q G}.

Lemma triple_gate_of o id generation :
  triple (X := option Fired * X) q G (fun _ => True) (gate_of o id generation) (fun _ _ => True).
Proof.
  eapply (triple_bind q G); [apply (triple_read q G); by intros s s'|].
  intros [[t|]|error]; [destruct (_ && _)| |]; try (by apply (triple_done q G));
    (eapply (triple_bind q G); [apply (triple_set_cell q G)|]; intros []; by apply (triple_done q G)).
Qed.

Lemma triple_settle_fired_run spec :
  triple (X := X) q G (fun s => is_Some (stored_run s (run_id spec)))
    (settle_fired_run enqueue_debug q spec)
    (fire_ok q (run_id spec)).
Proof.
  unfold settle_fired_run.
  destruct (metadata spec !! TRIGGER_KEY ≫= fun text => id_parse (k := KTrigger) text) as [id|],
    (metadata spec !! GENERATION_KEY ≫= fun text => parse_u64 text) as [generation|].
  2-4: eapply (triple_bind q G);
    [apply (triple_settle_fire q Hq G); by apply (triple_done q G)|];
    intros [fired|e]; apply (triple_done q G); by intros s _ Hs.
  eapply (triple_bind q G).
  { apply (triple_with_cell q G), (triple_settle_fire q Hq G), triple_gate_of. }
  intros [[fired|e] held]; apply (triple_done q G); by intros s _ Hs.
Qed.

Lemma triple_replay_now run :
  triple (X := X) q G (fun _ => True) (replay_now run) (fun _ _ => True).
Proof.
  eapply (triple_try_with q G); [apply (triple_read q G); by intros s s'| |done].
  intros found. by apply (triple_done q G).
Qed.

End Gate.

(** What a fire's answer says of the shared state: the run it names is stored. *)
Definition fired_ok (key : option Key) (r : result (Fired * bool) FireError) (s : Shared R) : Prop :=
  match r with
  | Ok (FRun run, _) => is_Some (stored_run s run) /\ (is_Some key -> run = key_run run key)
  | _ => True
  end.

Lemma triple_enqueue_stored {Y} spec (gate : M Gate) :
  triple (X := Y) q (prompt q) (fun _ => True) gate (fun _ _ => True) ->
  triple (X := Y) q (prompt q) (fun _ => True) (enqueue_fire q spec gate)
    (fun r s => match r with
                | Ok fired => is_Some (stored_run s (run_id spec)) /\
                    (fired = FireHeld -> closed s (run_id spec))
                | Err _ => True
                end).
Proof.
  intros Hgate. eapply (triple_try_with q (prompt q)); [by apply triple_pend| |done]. intros [].
  eapply (triple_bind q (prompt q)); [apply (triple_draws q (prompt q)), draws_queued_events|].
  intros events. apply (triple_pure q (prompt q)). intros Hlog.
  eapply (triple_try_with q (prompt q)); [by apply triple_put_queued| |done]. intros put.
  apply (triple_pre q (prompt q) (fun s => is_Some (stored_run s (run_id spec)) /\
    is_Some (stored_run s (run_id spec)))).
  - eapply (triple_post q (prompt q)).
    + apply (triple_frame q (prompt q)); [apply stable_stored, _|].
      by apply (triple_settle_fire q Hq (prompt q)).
    + intros [[]|e] s _ [? ?]; try done; by split.
  - intros s _ [_ Hs]. destruct put; [destruct Hs as (run & -> & _)|destruct Hs as [run ->]];
      by split; eexists.
Qed.

(** The cell of a gate never names a run. *)
Definition why_ok (why : option Fired) : Prop := forall run, why <> Some (FRun run).

Lemma gate_cell o id generation :
  rest_inv (fun cx => why_ok cx.1) (gate_of o id generation : @M R (option Fired * X) _).
Proof.
  apply rest_bind; [apply rest_call|].
  intros [[t|]|error]; [destruct (_ && _)| |]; try apply rest_ret;
    (apply rest_bind; [intros w _|intros; apply rest_ret]); [destruct (tg_enabled t)|]; by intros run.
Qed.

Lemma settle_fire_rest {Y} I spec (gate : @M R Y Gate) :
  rest_inv I gate -> rest_inv I (settle_fire q spec gate).
Proof.
  intros Hgate. apply rest_try_with; [apply rest_call|]. intros found. cbv beta zeta.
  destruct (negb (still_waiting _)); [apply rest_try_with; [apply rest_call|auto with rest]|].
  apply rest_bind; [done|]. intros [| |reason]; [| |apply rest_ret].
  - apply rest_try_with; [apply rest_call|auto with rest].
  - apply rest_bind; [apply rest_recorded|]. intros e.
    apply rest_bind; [apply rest_bind; [apply rest_now|intros; apply rest_call]|].
    intros [[]|]; try apply rest_ret; (apply rest_bind; [apply rest_call|auto with rest]).
Qed.

Lemma enqueue_fire_rest {Y} I spec (gate : @M R Y Gate) :
  rest_inv I gate -> rest_inv I (enqueue_fire q spec gate).
Proof.
  intros Hgate. apply rest_try_with; [apply rest_call|]. intros [].
  apply rest_bind; [unfold queued_events, system_event, user_message_event; auto 10 with rest|].
  intros events. apply rest_try_with; [apply rest_bind; [apply rest_now|intros; apply rest_call]|].
  intros put. by apply settle_fire_rest.
Qed.

Lemma with_cell_inv {C A} (I : C -> Prop) (c : C) (m : @M R (C * X) A) w :
  rest_inv (fun cx => I cx.1) m -> I c -> I (with_cell c m w).1.2.
Proof.
  intros Hm Hc. unfold with_cell. set (w0 := mkServer _ (c, _) _ _ _). specialize (Hm w0 Hc).
  by destruct (m w0).
Qed.

Lemma triple_fire o id key :
  triple (X := X) q (prompt q) (fun _ => True) (fire q o id key) (fired_ok key).
Proof.
  assert (stable q (prompt q) (fun _ : Shared R => True)) as Htrue by (by intros s s').
  eapply (triple_try_with q (prompt q)); [by apply (triple_read q (prompt q))| |done].
  intros [t|]; [|by apply (triple_done q (prompt q))].
  destruct (negb (tg_enabled t)); [by apply (triple_done q (prompt q))|].
  destruct (tick_moved t key); [by apply (triple_done q (prompt q))|].
  eapply (triple_try_with q (prompt q)); [by apply (triple_read q (prompt q))| |done].
  intros [agent|]; [|by apply (triple_done q (prompt q))].
  destruct (negb (owner_is _ _)); [by apply (triple_done q (prompt q))|].
  eapply (triple_bind q (prompt q)); [apply (triple_draws q (prompt q)), draws_random|].
  intros n. apply (triple_pure q (prompt q)). intros _.
  destruct (run_of_some (id_of n) t (am_version (sa_manifest agent))
    (am_required_capabilities (sa_manifest agent))) as (spec & -> & Hid & _).
  eapply (triple_bind q (prompt q)).
  { eapply (triple_value q (prompt q)) with (φ := fun ac => why_ok ac.2).
    - apply (triple_with_cell q (prompt q)), triple_enqueue_stored, (triple_gate_of (prompt q)).
    - intros w. apply with_cell_inv; [apply enqueue_fire_rest, gate_cell|done]. }
  destruct (keyed_spec spec key) as (Hk & _).
  intros [[fired|e] held]; [|by apply (triple_done q (prompt q))].
  apply (triple_done q (prompt q)). simpl. intros s _ [[Hs _] Hwhy].
  assert (is_Some key -> run_id (keyed spec key) = key_run (run_id (keyed spec key)) key) as Hkey.
  { rewrite Hk. by intros [[] ->]. }
  destruct fired, held as [[]|]; simpl; try done. by destruct (Hwhy run).
Qed.

Lemma triple_fire_webhook t event body :
  triple (X := X) q (prompt q) (fun _ => True) (fire_webhook enqueue_debug q t event body)
    (fun _ _ => True).
Proof.
  assert (stable q (prompt q) (fun _ : Shared R => True)) as Htrue by (by intros s s').
  unfold fire_webhook. set (run := event_run _ _).
  assert (forall f : Replay -> Hooked, triple (X := X) q (prompt q) (fun _ => True)
    (try (replay_now run) (fun replay => ret (Ok (f replay)))) (fun _ _ => True)) as Hreplay.
  { intros f. eapply (triple_try q (prompt q)); [apply (triple_replay_now (prompt q))| |done].
    intros replay. by apply (triple_done q (prompt q)). }
  eapply (triple_try_with q (prompt q)); [by apply (triple_run q (prompt q))| |done].
  intros [stored|].
  - destruct (replay_of _); try (by apply (triple_done q (prompt q))).
    eapply (triple_bind q (prompt q)).
    { eapply (triple_pre q (prompt q)); [apply (triple_settle_fired_run (prompt q))|].
      intros s Hg [_ Hs]. simpl. rewrite (seen_run_id q _ _ _ Hg Hs).
      destruct Hs as (run' & -> & _). by eexists. }
    intros [[]|e]; try (by apply (triple_done q (prompt q))).
    apply (triple_pre q (prompt q) (fun _ => True)); [apply Hreplay|done].
  - apply (triple_pre q (prompt q) (fun _ => True)); [|done].
    eapply (triple_try q (prompt q)); [apply triple_fire| |done].
    intros [[run'| | | |] []]; try (by apply (triple_done q (prompt q))).
    eapply (triple_try q (prompt q)); [|by intros replay; apply (triple_done q (prompt q))|done].
    apply (triple_pre q (prompt q) (fun _ => True)); [apply (triple_replay_now (prompt q))|done].
Qed.

(** ** What a fire pushes *)

(** The lists of the queue are as they were. *)
Definition unpushed (s s' : Shared R) : Prop :=
  waiting q (sh_queue s') = waiting q (sh_queue s) /\
  claimed q (sh_queue s') = claimed q (sh_queue s).

Lemma only_unpushed_script {Y A} (f : R -> A * R) :
  (forall r, waiting q (f r).2 = waiting q r /\ claimed q (f r).2 = claimed q r) ->
  only unpushed (queue_call f : @M R Y _).
Proof.
  intros Hf. apply only_call; [done|]. intros s. specialize (Hf (sh_queue s)).
  by destruct (f (sh_queue s)).
Qed.

Lemma only_unpushed_pend {Y} id : only unpushed (do_pend q id : @M R Y _).
Proof. apply only_unpushed_script. intros r. by destruct (pend_view q r (id_display id)). Qed.

Lemma only_unpushed_unpend {Y} id : only unpushed (do_unpend q id : @M R Y _).
Proof.
  apply only_unpushed_script. intros r.
  by destruct (view_zrem q _ _ _ _ _ _ (view_self q r) (id_display id)).
Qed.

Lemma only_unpushed_runs {Y A} (f : Timestamp -> RunsStore -> Outcome A) :
  only unpushed (bind now (fun t => store_call (on_runs (f t))) : @M R Y _).
Proof.
  apply only_bind; [eapply only_draws, draws_now|]. intros t. apply only_call; [done|].
  intros s. unfold on_runs. by destruct (f t _).
Qed.

Definition not_pushed (r : result Fire EnqueueError) : Prop := exists f, r = Ok f /\ f <> FirePushed.

Lemma settle_fire_unpushed {Y} spec (gate : @M R Y Gate) :
  only unpushed gate -> only_when not_pushed unpushed (settle_fire q spec gate).
Proof.
  intros Hgate. apply only_when_try_with; [by apply only_reads|]. intros found. cbv beta zeta.
  destruct (negb (still_waiting _)).
  { apply only_when_only, only_try_with; [apply only_unpushed_unpend|]. intros []. apply only_ret. }
  apply only_when_bind; [done|]. intros [| |reason].
  - intros w (f & Ef & Hf). unfold try_with, bind in *.
    destruct (call_step "redis is unavailable" (fun s => let '(a, r) := push_once q (sh_queue s) (id_display (run_id spec)) in
              (Ok a, mkShared (sh_store s) (sh_messages s) (sh_triggers s) r)) w)
      as (s & s' & Hs & _ & Hok).
    unfold do_push_once, queue_call in *. destruct (call _ _ w) as [[b|e] w1]; simpl in *; [|done].
    destruct b; [congruence|]. specialize (Hok false eq_refl).
    destruct (push_once q (sh_queue s) _) as [b r] eqn:Ep. injection Hok as -> <-.
    apply (push_once_view q Hq) in Ep as [[Hw Hc _ _ _] _].
    exists [(s, mkShared (sh_store s) (sh_messages s) (sh_triggers s) r)].
    split; [done|]. by repeat constructor.
  - apply only_when_only, only_bind; [eapply only_draws, draws_recorded|]. intros e.
    apply only_bind;
      [apply (only_unpushed_runs (fun t s => append_events s (run_id spec) [e] t))|].
    intros [[]|e']; try apply only_ret; (apply only_bind; [apply only_unpushed_unpend|]; intros; apply only_ret).
  - apply only_when_only, only_ret.
Qed.

Lemma enqueue_fire_unpushed {Y} spec (gate : @M R Y Gate) :
  only unpushed gate -> only_when not_pushed unpushed (enqueue_fire q spec gate).
Proof.
  intros Hgate. apply only_when_try_with; [apply only_unpushed_pend|]. intros [].
  apply only_when_bind; [eapply only_draws, draws_queued_events|]. intros events.
  apply only_when_try_with; [apply (only_unpushed_runs (fun t s => put_run s _ t))|].
  intros put. by apply settle_fire_unpushed.
Qed.

Lemma gate_of_unpushed o id generation :
  only unpushed (gate_of o id generation : @M R (option Fired * X) _).
Proof.
  apply only_bind; [by apply only_reads|].
  intros [[t|]|error]; [destruct (_ && _)| |]; try apply only_ret;
    (apply only_bind; [intros w; by exists []|intros; apply only_ret]).
Qed.

Lemma fire_unpushed o id key :
  only_when (fun r => exists why, r = Ok (why, false)) unpushed (fire q o id key : @M R X _).
Proof.
  apply only_when_try_with; [by apply only_reads|]. intros [t|]; [|apply only_when_only, only_ret].
  destruct (negb (tg_enabled t)); [apply only_when_only, only_ret|].
  destruct (tick_moved t key); [apply only_when_only, only_ret|].
  apply only_when_try_with; [by apply only_reads|]. intros [agent|]; [|apply only_when_only, only_ret].
  destruct (negb (owner_is _ _)); [apply only_when_only, only_ret|].
  apply only_when_bind; [eapply only_draws, draws_random|]. intros n.
  destruct (run_of _ _ _ _) as [spec|]; [|apply only_when_only, only_ret].
  intros w Hw. pose proof (only_when_with_cell _ _ None _
    (enqueue_fire_unpushed (keyed spec key) _ (gate_of_unpushed o id (tg_generation t))) w) as Hc.
  unfold bind in *. destruct (with_cell _ _ w) as [[r held] w1]. simpl in *.
  destruct r as [fired|e]; [|by destruct Hw]. apply Hc. exists fired. split; [done|]. intros ->.
  by destruct held, Hw.
Qed.

(** A fire changes no trigger and no message. *)
Lemma enqueue_fire_only {Y} Φ spec (gate : @M R Y Gate) :
  (forall s s', on_runs_and_queue s s' -> Φ s s') -> only Φ gate ->
  only Φ (enqueue_fire q spec gate).
Proof.
  intros HΦ Hgate. apply only_try_with; [by apply only_queue_call|]. intros [].
  apply only_bind; [eapply only_draws, draws_queued_events|]. intros events.
  apply only_try_with; [by apply (only_runs_call Φ HΦ (fun t s => put_run s _ t))|]. intros put.
  apply only_try_with; [by apply only_read|]. intros found. cbv beta zeta.
  destruct (negb (still_waiting _)).
  { apply only_try_with; [by apply only_queue_call|]. intros []. apply only_ret. }
  apply only_bind; [done|]. intros [| |reason]; [| |apply only_ret].
  - apply only_try_with; [by apply only_queue_call|]. intros pushed. apply only_ret.
  - apply only_bind; [eapply only_draws, draws_recorded|]. intros e.
    apply only_bind; [apply (only_runs_call Φ HΦ (fun t s => append_events s (run_id spec) [e] t))|].
    intros [[]|e']; try apply only_ret;
      (apply only_bind; [by apply only_queue_call|]; intros; apply only_ret).
Qed.

Lemma fire_only Φ o id key :
  (forall s s', on_runs_and_queue s s' -> Φ s s') -> only Φ (fire q o id key : @M R X _).
Proof.
  intros HΦ. apply only_try_with; [by apply only_read|]. intros [t|]; [|apply only_ret].
  destruct (negb (tg_enabled t)); [apply only_ret|]. destruct (tick_moved t key); [apply only_ret|].
  apply only_try_with; [by apply only_read|]. intros [agent|]; [|apply only_ret].
  destruct (negb (owner_is _ _)); [apply only_ret|].
  apply only_bind; [eapply only_draws, draws_random|]. intros n.
  destruct (run_of _ _ _ _) as [spec|]; [|apply only_ret].
  apply only_bind; [|intros [[]]; apply only_ret].
  apply only_with_cell, enqueue_fire_only; [done|].
  apply only_bind; [by apply only_read|].
  intros [[t'|]|error]; [destruct (_ && _)| |]; try apply only_ret;
    (apply only_bind; [apply only_set_cell|intros; apply only_ret]).
Qed.

(** ** The properties *)

(** A held run never reaches a worker: when the gate of a fire (its trigger
    read again, once the run is stored) is shut, by a pause, a resume or a
    delete in between, and the fire reports the run held, the run's log has
    ended and no step of the fire put anything on the lists of the queue. *)
Theorem held_run_is_never_pushed (w : Server R X) spec o id generation why w' :
  respectful q (prompt q) w -> Good q (sv_shared w) ->
  with_cell None (enqueue_fire q spec (gate_of o id generation)) w = (Ok FireHeld, why, w') ->
  closed (sv_shared w') (run_id spec) /\
  exists own, sv_steps w' = own ++ sv_steps w /\ Forall (fun step => unpushed step.1 step.2) own.
Proof.
  intros Hr Hg E. split.
  - destruct (triple_with_cell q (prompt q) _ None _ _
      (triple_enqueue_stored spec _ (triple_gate_of (prompt q) o id generation)) w Hr Hg I) as [_ Hp].
    rewrite E in Hp. by apply Hp.
  - pose proof (only_when_with_cell _ _ None _
      (enqueue_fire_unpushed spec _ (gate_of_unpushed o id generation)) w) as Hf.
    rewrite E in Hf. apply Hf. by exists FireHeld.
Qed.

(** A tick is one run: a scheduled fire that reports a run reports the one
    named after the trigger and the tick, and that run is stored; a fire that
    reports no push put nothing on the lists of the queue; and another tick, or
    another trigger, has another name, for every tick an [i64] holds. *)
Theorem tick_is_one_run (w : Server R X) o id tick why pushed w' :
  respectful q (prompt q) w -> Good q (sv_shared w) -> (- 2 ^ 63 <= tick < 2 ^ 63)%Z ->
  fire q o id (Some (KTick (tick_run id tick) tick)) w = (Ok (why, pushed), w') ->
  (forall run, why = FRun run -> run = tick_run id tick /\ is_Some (stored_run (sv_shared w') run)) /\
  (pushed = false -> exists own, sv_steps w' = own ++ sv_steps w /\
     Forall (fun step => unpushed step.1 step.2) own) /\
  forall id' tick', (- 2 ^ 63 <= tick' < 2 ^ 63)%Z ->
    uuid_bytes (as_uuid id) ++ i64_bytes tick = uuid_bytes (as_uuid id') ++ i64_bytes tick' ->
    id = id' /\ tick = tick'.
Proof.
  intros Hr Hg Ht E. split_and!.
  - intros run ->. destruct (triple_fire o id (Some (KTick (tick_run id tick) tick)) w Hr Hg I) as [_ Hf].
    rewrite E in Hf. destruct Hf as [Hs Hk]. split; [|done]. apply Hk. by eexists.
  - intros ->. pose proof (fire_unpushed o id (Some (KTick (tick_run id tick) tick)) w) as Hf.
    rewrite E in Hf. apply Hf. by exists why.
  - intros id' tick' Ht'. by apply tick_name_inj.
Qed.

(** The sweep gates a run as its fire would have: the spec of a fire's run,
    with a tick, an event or neither, gives back the trigger and the generation
    the fire read, through the text of its metadata, so settling it later is
    settling it past the fire's own gate, whatever the world. *)
Theorem sweep_gates_as_the_fire fresh t version caps spec key (w : Server R X) :
  (tg_generation t <= u64_max)%N ->
  run_of fresh t version caps = Some spec ->
  settle_fired_run enqueue_debug q (keyed spec key) w =
    (let '(r, _, w') :=
       with_cell None (settle_fire q (keyed spec key)
         (gate_of (tg_owner t) (tg_id t) (tg_generation t))) w in
     (match r with Ok fired => Ok fired | Err error => Err (enqueue_debug error) end, w')).
Proof.
  intros Hu E. destruct (fired_trigger fresh t version caps spec key E) as (Ho & Hid & Hgen).
  unfold settle_fired_run. rewrite Hid, Hgen, Ho. simpl. rewrite id_parse_display, parse_show_u64 by done.
  unfold bind. by destruct (with_cell _ _ w) as [[[]] ?].
Qed.

(** Firing strands nothing: a fire (manual, of a tick, or of a webhook's
    event with its replays), among any other processes that follow the rules,
    with any call failing and the process dying at any point, keeps the rules
    at every step. *)
Theorem fires_strand_nothing (w : Server R X) o id key t event body :
  respectful q (prompt q) w -> Good q (sv_shared w) ->
  keeps q (prompt q) w (fire q o id key w).2 /\
  keeps q (prompt q) w (fire_webhook enqueue_debug q t event body w).2.
Proof.
  intros Hr Hg. split.
  - by eapply triple_keeps; [apply _|apply triple_fire|..].
  - by eapply triple_keeps; [apply _|apply triple_fire_webhook|..].
Qed.

End Proofs.

(** ** Concrete fires *)

#[local] Instance demo_uuids : UuidCrate := hyphenated.

Definition demo_trigger : StoredTrigger :=
  mkStoredTrigger (id_of 30) (owner sample_spec) (id_of 2) (Schedule "* * * * *" "UTC") "work"
    Local (work_model sample_spec) None Skip true (Some 5%Z) 0 3.

Definition firing_shared : Shared Db :=
  mkShared (sh_store demo_shared) (sh_messages demo_shared)
    (put_trigger triggers_default demo_trigger MAX_TRIGGERS).2 (sh_queue demo_shared).

Definition firing_server : Server Db unit := mkServer firing_shared tt calm 0 [].

Lemma firing_good : Good Queue.open firing_shared.
Proof.
  refine (ev_good _ demo_shared _ (prompt_evolves _ _ _ _) (demo_good _)).
  by apply frame_prompt.
Qed.

Abbreviation demo_tick :=
  (fire (X := unit) Queue.open (owner sample_spec) (id_of 30)
     (Some (KTick (tick_run (id_of 30) 5) 5)) firing_server).

Example demo_tick_fires : demo_tick.1 = Ok (FRun (tick_run (id_of 30) 5), true).
Proof. vm_compute. reflexivity. Qed.

(** A run already under way, whose pending entry Redis does not take off: the
    fire reports that nothing was stored. *)
Example moved_on_is_reported_unstored :
  let later (n : nat) := mkMoment (fun s => s) (match n with 13 => FailsBefore | _ => NoFault end) in
  let shared :=
    with_runs firing_shared
      (put_run demo_store (mkStoredRun
         (mkRunSpec (tick_run (id_of 30) 5) (owner sample_spec) (id_of 2) "1" "work" Local
            (work_model sample_spec) [] (mkLimits 8 4) ∅ Lineage_default)
         (sample_event <$> [RunCreated; RunQueued; RunScheduled])) 5%Z).2 in
  let w := mkServer shared tt (mkFuture later (fu_time calm) (fu_id calm)) 0 [] in
  let '(r, w') := fire Queue.open (owner sample_spec) (id_of 30)
    (Some (KTick (tick_run (id_of 30) 5) 5)) w in
  r = Err (NotStored "redis is unavailable") /\
  is_Some (stored_run (sv_shared w') (tick_run (id_of 30) 5)).
Proof. vm_compute. split; [reflexivity|by eexists]. Qed.

Abbreviation demo_held :=
  (with_cell None (enqueue_fire Queue.open sample_spec (gate_of (owner sample_spec) (id_of 30) 3))
     (demo_server tt)).

(** The trigger is gone when the gate reads it. *)
Lemma held_run_is_never_pushed_witness :
  demo_held.1.1 = Ok FireHeld /\ closed (sv_shared demo_held.2) (run_id sample_spec).
Proof.
  destruct (ok_pair demo_held.1) as (fired & why & E1); [vm_compute; reflexivity|].
  assert (fired = FireHeld) as ->.
  { assert (Ok (E := EnqueueError) fired = Ok FireHeld) as [= ->]; [|done].
    etrans; [symmetry; apply (f_equal fst E1)|]. vm_compute. reflexivity. }
  split; [by rewrite E1|].
  refine (proj1 (held_run_is_never_pushed Queue.open (with_key_ok "gol:runs") (demo_server tt)
    sample_spec (owner sample_spec) (id_of 30) 3 why demo_held.2 _ _ _)).
  - apply calm_respectful. reflexivity.
  - apply demo_good.
  - rewrite <-E1. apply surjective_pairing.
Defined.

Lemma tick_is_one_run_witness :
  is_Some (stored_run (sv_shared demo_tick.2) (tick_run (id_of 30) 5)).
Proof.
  refine (proj2 (proj1 (tick_is_one_run Queue.open (with_key_ok "gol:runs") firing_server
    (owner sample_spec) (id_of 30) 5 (FRun (tick_run (id_of 30) 5)) true demo_tick.2 _ _ _ _) _ _)).
  - apply calm_respectful. reflexivity.
  - apply firing_good.
  - lia.
  - rewrite <-demo_tick_fires. apply surjective_pairing.
  - reflexivity.
Defined.

Definition demo_fired : RunSpec := default sample_spec (run_of (id_of 1) demo_trigger "1" []).

Lemma sweep_gates_as_the_fire_witness :
  (settle_fired_run (fun _ => "") Queue.open demo_fired firing_server).1 = Ok FirePushed.
Proof.
  pose proof (sweep_gates_as_the_fire Queue.open (fun _ => "") (id_of 1) demo_trigger "1" []
    demo_fired None firing_server) as E.
  change (keyed ?s None) with s in E. rewrite E; [vm_compute; reflexivity| |reflexivity].
  vm_compute. intros [=].
Defined.

Lemma fires_strand_nothing_witness :
  keeps Queue.open (prompt Queue.open) firing_server demo_tick.2.
Proof.
  refine (proj1 (fires_strand_nothing Queue.open (with_key_ok "gol:runs") (fun _ => "") firing_server
    (owner sample_spec) (id_of 30) (Some (KTick (tick_run (id_of 30) 5) 5)) demo_trigger "" "" _ _)).
  - apply calm_respectful. reflexivity.
  - apply firing_good.
Defined.
