(* ===== verification/Webhook.v ===== *)
(** * A webhook request's check ([server/webhook.rs])

    The headers a sender on the network writes are parsed strictly, and the
    signature binds the event id, the timestamp and the body.  The theorems:
    a signature reads back, in its one form; the signed message splits in one
    way; a request is accepted exactly when it is well formed, fresh and
    signed. *)

From S2P Require Import Prelude Protocol Uuids StoreTriggers Fires Text.

Definition MAX_SKEW_S : Z := 300.
Definition MAX_EVENT_ID : nat := 128.

Definition dot : byte := Ascii.ascii_of_N 46.

(** ** The parsers *)

Definition hex_digit (digit : byte) : option N :=
  if between 48 57 digit then Some (code digit - 48)%N
  else if between 97 102 digit then Some (code digit - 97 + 10)%N
  else if between 65 70 digit then Some (code digit - 65 + 10)%N
  else None.

(** The loop over [as_chunks::<2>()], a byte for every two digits. *)
Fixpoint hex_pairs (hex : list byte) : option (list byte) :=
  match hex with
  | high :: low :: rest =>
      h ← hex_digit high;
      l ← hex_digit low;
      tag ← hex_pairs rest;
      Some (Ascii.ascii_of_N (N.lor (N.shiftl h 4 mod 256) l) :: tag)
  | _ => Some []
  end.

Definition V1 : list byte := string_bytes "v1=".

Definition parse_signature (header : string) : option (list byte) :=
  hex ← strip_prefix V1 (string_bytes header);
  if negb (length hex =? 64)%nat then None else hex_pairs hex.

(** [parse::<i64>()] of digits. *)
Definition digits_value (digits : list byte) : Z :=
  fold_left (fun n d => (10 * n + (Z.of_N (code d) - 48))%Z) digits 0%Z.

Definition parse_i64_digits (digits : list byte) : option Z :=
  if (digits_value digits <=? i64_max)%Z then Some (digits_value digits) else None.

Definition parse_timestamp (header : string) : option Z :=
  let bytes := string_bytes header in
  if (length bytes =? 0)%nat || (12 <? length bytes)%nat || negb (forallb is_ascii_digit bytes)
  then None else parse_i64_digits bytes.

Definition is_event_id (header : string) : bool :=
  let bytes := string_bytes header in
  negb (length bytes =? 0)%nat && (length bytes <=? MAX_EVENT_ID)%nat &&
  forallb (fun b => is_ascii_graphic b && negb (bool_decide (b = dot))) bytes.

Definition plausible (timestamp signature : string) (now_s : Z) : bool :=
  match parse_signature signature with
  | Some _ =>
      match parse_timestamp timestamp with
      | Some t => (wrap_i64 (Z.abs (wrap_i64 (now_s - t))) <=? MAX_SKEW_S)%Z
      | None => false
      end
  | None => false
  end.

(** ** The check *)

Record Request : Type := mkRequest {
  rq_event : string;
  rq_timestamp : string;
  rq_signature : string;
  rq_body : list byte;
}.

Definition signed_message (event timestamp : string) (body : list byte) : list byte :=
  string_bytes event ++ [dot] ++ string_bytes timestamp ++ [dot] ++ body.

(** Lowercase hex, [{byte:02x}] of each byte. *)
Definition hex_lower (bytes : list byte) : list byte :=
  flat_map (fun b => [Uuids.hex_digit (code b / 16); Uuids.hex_digit (code b mod 16)]) bytes.

(** The text whose tag is a trigger's secret. *)
Definition secret_text `{UuidCrate} (id : TriggerId) (rotation : N) : string :=
  "gol-webhook-v1:" +:+ id_display id +:+ ":" +:+ show_u64 rotation.

(** [ring::hmac] with HMAC-SHA256: its tag of a message under a key, and
    [verify], which compares tags. *)
Section Check.
Context (hmac : list byte → list byte → list byte).

Definition verify (secret : string) (request : Request) (now_s : Z) : bool :=
  match parse_signature (rq_signature request) with
  | None => false
  | Some tag =>
      if negb (is_event_id (rq_event request)) ||
         negb (plausible (rq_timestamp request) (rq_signature request) now_s)
      then false
      else
        bool_decide (hmac (string_bytes secret)
          (signed_message (rq_event request) (rq_timestamp request) (rq_body request)) = tag)
  end.

(** [webhook_secret] of [triggers.rs]. *)
Definition webhook_secret `{UuidCrate} (key : list byte) (t : StoredTrigger) : option string :=
  match tg_kind t with
  | Webhook rotation =>
      Some (bytes_string (hex_lower (hmac key (string_bytes (secret_text (tg_id t) rotation)))))
  | Schedule _ _ => None
  end.

End Check.

(** ** Signatures *)

Lemma hex_digit_lower b : hex_digit b = unhex_digit (to_ascii_lowercase b).
Proof. by destruct b as [[] [] [] [] [] [] [] []]. Qed.

Lemma hex_digit_iff b d :
  hex_digit b = Some d <-> (d < 16)%N /\ to_ascii_lowercase b = Uuids.hex_digit d.
Proof.
  split.
  - destruct b as [[] [] [] [] [] [] [] []]; intros E; vm_compute in E; try discriminate E;
      injection E as <-; by split.
  - intros [Hd E]. by rewrite hex_digit_lower, E, unhex_hex_digit.
Qed.

Lemma code_bounded b : (code b < 256)%N.
Proof. apply Ascii.N_ascii_bounded. Qed.

(** A byte is its two digits. *)
Lemma join_digits h l x :
  (h < 16)%N -> (l < 16)%N ->
  Ascii.ascii_of_N (N.lor (N.shiftl h 4 mod 256) l) = x <->
    h = (code x / 16)%N /\ l = (code x mod 16)%N.
Proof.
  intros Hh Hl.
  assert (N.lor (N.shiftl h 4 mod 256) l = 16 * h + l)%N as ->.
  { rewrite N.shiftl_mul_pow2, N.mod_small by (change (2 ^ 4)%N with 16%N; lia).
    rewrite <-(N.shiftl_mul_pow2 h 4), <-N.lxor_lor, <-N.add_nocarry_lxor;
      [rewrite N.shiftl_mul_pow2; change (2 ^ 4)%N with 16%N; lia|..];
      (apply N.bits_inj_0; intros n; rewrite N.land_spec;
       destruct (N.ltb_spec n 4) as [?|?];
       [by rewrite N.shiftl_spec_low|
        rewrite (N.bits_above_log2 l), andb_false_r; [done|];
        destruct (decide (l = 0%N)) as [->|]; [simpl; lia|];
        apply N.log2_lt_pow2; [lia|]; eapply N.lt_le_trans; [exact Hl|];
        change 16%N with (2 ^ 4)%N; by apply N.pow_le_mono_r]). }
  split.
  - intros <-. unfold code. rewrite Ascii.N_ascii_embedding by lia.
    split; [apply N.div_unique with l|apply N.mod_unique with h]; lia.
  - intros [-> ->]. rewrite <-N.div_mod' . apply Ascii.ascii_N_embedding.
Qed.

Lemma hex_pairs_iff n hex tag :
  length hex = (2 * n)%nat -> hex_pairs hex = Some tag <-> to_ascii_lowercase <$> hex = hex_lower tag.
Proof.
  revert hex tag. induction n as [|n IH]; intros hex tag Hl.
  { destruct hex; [|done]. destruct tag; simpl; split; congruence. }
  destruct hex as [|h [|l rest]]; [done|simpl in Hl; lia|]. simpl.
  destruct tag as [|x tag].
  { split; [|done]. destruct (hex_digit h), (hex_digit l), (hex_pairs rest); simpl; congruence. }
  specialize (IH rest tag ltac:(simpl in Hl; lia)).
  change (hex_lower (x :: tag)) with
    (Uuids.hex_digit (code x / 16) :: Uuids.hex_digit (code x mod 16) :: hex_lower tag).
  assert (code x / 16 < 16)%N as Hq by (apply N.Div0.div_lt_upper_bound; apply code_bounded).
  assert (code x mod 16 < 16)%N as Hr by (by apply N.mod_upper_bound).
  split.
  - intros E. apply bind_Some in E as (dh & Eh & E). apply bind_Some in E as (dl & El & E).
    apply bind_Some in E as (tag' & Et & [= Ex <-]).
    apply hex_digit_iff in Eh as [Hh ->], El as [Hll ->]. apply IH in Et.
    apply join_digits in Ex as [-> ->]; [|done..]. f_equal. f_equal. exact Et.
  - intros E. injection E as Eh El Et.
    rewrite (proj2 (hex_digit_iff h _) (conj Hq Eh)), (proj2 (hex_digit_iff l _) (conj Hr El)).
    simpl. apply IH in Et as ->. simpl. f_equal. f_equal. by apply join_digits.
Qed.

Lemma length_hex_lower tag : length (hex_lower tag) = (2 * length tag)%nat.
Proof. unfold hex_lower. induction tag as [|x tag IH]; [done|]. simpl. rewrite IH. lia. Qed.

Lemma hex_lower_lowered tag : to_ascii_lowercase <$> hex_lower tag = hex_lower tag.
Proof.
  unfold hex_lower. induction tag as [|x tag IH]; [done|].
  destruct x as [[] [] [] [] [] [] [] []]; simpl; do 2 f_equal; exact IH.
Qed.

(** A signature header is read in its form and no other, and reads back: it
    gives a tag exactly when it is [v1=] and 64 characters that in lower case
    are the tag's hex digits; so what is printed of a tag is read as that tag,
    and a header with anything else is refused. *)
Theorem signature_reads_back header tag :
  (parse_signature header = Some tag <->
     exists hex, string_bytes header = V1 ++ hex /\ length hex = 64%nat /\
       to_ascii_lowercase <$> hex = hex_lower tag) /\
  (length tag = 32%nat ->
     parse_signature (bytes_string (V1 ++ hex_lower tag)) = Some tag).
Proof.
  assert (forall h t, parse_signature h = Some t <->
     exists hex, string_bytes h = V1 ++ hex /\ length hex = 64%nat /\
       to_ascii_lowercase <$> hex = hex_lower t) as Hiff.
  { intros h t. unfold parse_signature. rewrite bind_Some. split.
    - intros (hex & Hs & E). apply strip_prefix_Some in Hs.
      destruct (length hex =? 64)%nat eqn:El; [|done]. apply Nat.eqb_eq in El.
      exists hex. split_and!; [done|done|]. by apply (hex_pairs_iff 32).
    - intros (hex & Hs & El & E). exists hex. split; [by apply strip_prefix_Some|].
      rewrite El. by apply (hex_pairs_iff 32). }
  split; [apply Hiff|]. intros Hl. apply Hiff. exists (hex_lower tag).
  rewrite string_bytes_string, length_hex_lower, Hl, hex_lower_lowered. done.
Qed.

(** ** Timestamps *)

Lemma digits_value_app digits d :
  digits_value (digits ++ [d]) = (10 * digits_value digits + (Z.of_N (code d) - 48))%Z.
Proof. unfold digits_value. by rewrite fold_left_app. Qed.

Lemma digits_value_bound digits :
  Forall (fun b => is_ascii_digit b = true) digits ->
  (0 <= digits_value digits < 10 ^ Z.of_nat (length digits))%Z.
Proof.
  induction digits as [|d digits IH] using rev_ind; [done|]. rewrite Forall_app, Forall_singleton.
  intros [Hds Hd]. specialize (IH Hds). rewrite digits_value_app, length_app, Nat2Z.inj_add.
  unfold is_ascii_digit, between in Hd. bool_to_prop.
  rewrite Z.pow_add_r by lia. simpl (10 ^ Z.of_nat (length [d]))%Z. lia.
Qed.

Lemma parse_timestamp_iff header t :
  parse_timestamp header = Some t <->
    let bytes := string_bytes header in
    (1 <= length bytes <= 12)%nat /\ Forall (fun b => is_ascii_digit b = true) bytes /\
    t = digits_value bytes.
Proof.
  unfold parse_timestamp. set (bytes := string_bytes header). cbv zeta.
  destruct (length bytes =? 0)%nat eqn:E0; simpl; bool_to_prop; [split; [done|lia]|].
  destruct (12 <? length bytes)%nat eqn:E12; simpl; bool_to_prop; [split; [done|lia]|].
  destruct (forallb is_ascii_digit bytes) eqn:Ed; simpl.
  - assert (Forall (fun b => is_ascii_digit b = true) bytes) as Hds.
    { apply List.Forall_forall. by apply forallb_forall. }
    pose proof (digits_value_bound bytes Hds) as Hb.
    assert (10 ^ Z.of_nat (length bytes) <= 10 ^ 12)%Z as Hp by (apply Z.pow_le_mono_r; lia).
    unfold parse_i64_digits. rewrite (proj2 (Z.leb_le _ _)) by (unfold i64_max; lia).
    split; [intros [= <-]; split_and!; (lia || done)|by intros (_ & _ & ->)].
  - split; [done|]. intros (_ & Hds & _).
    assert (forallb is_ascii_digit bytes = true) as Ht; [|congruence].
    apply forallb_forall. by apply List.Forall_forall.
Qed.

Lemma plausible_iff timestamp signature now_s :
  (0 <= now_s < 2 ^ 63)%Z ->
  plausible timestamp signature now_s = true <->
    is_Some (parse_signature signature) /\
    exists t, parse_timestamp timestamp = Some t /\ (Z.abs (now_s - t) <= MAX_SKEW_S)%Z.
Proof.
  intros Hn. unfold plausible. destruct (parse_signature signature); [|split; [done|by intros [[] _]]].
  destruct (parse_timestamp timestamp) as [t|] eqn:E; [|split; [done|by intros (_ & t & ? & _)]].
  pose proof E as (Hl & Hd & ->)%parse_timestamp_iff.
  set (v := digits_value (string_bytes timestamp)) in *.
  assert (0 <= v < 2 ^ 63)%Z as Hv.
  { pose proof (digits_value_bound _ Hd) as Hb. change (digits_value (string_bytes timestamp)) with v in Hb.
    assert (10 ^ Z.of_nat (length (string_bytes timestamp)) <= 10 ^ 12)%Z by (apply Z.pow_le_mono_r; lia).
    lia. }
  rewrite !wrap_i64_id by (rewrite ?wrap_i64_id; lia). rewrite Z.leb_le. split.
  - intros Hs. split; [by eexists|]. by exists v.
  - by intros (_ & t & [= <-] & Hs).
Qed.

(** ** The signed message *)

Lemma split_dot (l l' k k' : list byte) :
  dot ∉ l -> dot ∉ l' -> l ++ dot :: k = l' ++ dot :: k' -> l = l' /\ k = k'.
Proof.
  revert l'. induction l as [|x l IH]; intros [|y l'] Hl Hl' E; simplify_eq/=; try set_solver.
  - destruct (IH l') as [-> ->]; set_solver.
Qed.

Lemma event_id_no_dot event : is_event_id event = true -> dot ∉ string_bytes event.
Proof.
  unfold is_event_id. intros [_ Hf]%andb_true_iff Hin. rewrite forallb_forall in Hf.
  apply list_elem_of_In in Hin. by specialize (Hf _ Hin).
Qed.

Lemma timestamp_no_dot timestamp t : parse_timestamp timestamp = Some t -> dot ∉ string_bytes timestamp.
Proof.
  intros (_ & Hf & _)%parse_timestamp_iff Hin. rewrite Forall_forall in Hf.
  by specialize (Hf _ Hin).
Qed.

Section Verify.
Context (hmac : list byte → list byte → list byte).

Lemma verify_iff secret rq now_s :
  (0 <= now_s < 2 ^ 63)%Z ->
  verify hmac secret rq now_s = true <->
    is_event_id (rq_event rq) = true /\
    (exists t, parse_timestamp (rq_timestamp rq) = Some t /\ (Z.abs (now_s - t) <= MAX_SKEW_S)%Z) /\
    parse_signature (rq_signature rq) =
      Some (hmac (string_bytes secret)
        (signed_message (rq_event rq) (rq_timestamp rq) (rq_body rq))).
Proof.
  intros Hn. unfold verify. pose proof (plausible_iff (rq_timestamp rq) (rq_signature rq) now_s Hn) as Hp.
  destruct (parse_signature (rq_signature rq)) as [tag|] eqn:Es; [|split; [done|by intros (_ & _ & [=])]].
  destruct (is_event_id _); simpl; [|split; [done|by intros []]].
  destruct (plausible _ _ _); simpl; rewrite ?bool_decide_eq_true.
  - destruct Hp as [Hp _]. destruct (Hp eq_refl) as [_ ?]. split; [by intros <-|by intros (_ & _ & [= ->])].
  - split; [done|]. intros (_ & Ht & _). apply Hp. by split; [eexists|].
Qed.

(** C22. A request is accepted exactly when it is signed, well formed and fresh:
    its event id is 1 to 128 visible characters without a dot, its timestamp is
    1 to 12 digits within the skew of now, either side, and its signature is
    the tag of its event id, timestamp and body, each as sent, under the
    trigger's secret.  No clock of the server and no header overflows. *)
Theorem accepted_iff_signed secret rq now_s :
  (0 <= now_s < 2 ^ 63)%Z ->
  verify hmac secret rq now_s = true <->
    (let e := string_bytes (rq_event rq) in
     (1 <= length e <= MAX_EVENT_ID)%nat /\
     Forall (fun b => is_ascii_graphic b = true /\ b <> dot) e) /\
    (let t := string_bytes (rq_timestamp rq) in
     (1 <= length t <= 12)%nat /\ Forall (fun b => is_ascii_digit b = true) t /\
     (now_s - MAX_SKEW_S <= digits_value t <= now_s + MAX_SKEW_S)%Z) /\
    parse_signature (rq_signature rq) =
      Some (hmac (string_bytes secret)
        (signed_message (rq_event rq) (rq_timestamp rq) (rq_body rq))).
Proof.
  intros Hn. rewrite verify_iff by done. cbv zeta.
  assert (forall P P' Q Q' S : Prop, (P <-> P') -> (Q <-> Q') -> P /\ Q /\ S <-> P' /\ Q' /\ S) as Hand
    by tauto.
  apply Hand.
  - unfold is_event_id. rewrite !andb_true_iff, negb_true_iff, Nat.eqb_neq, Nat.leb_le, forallb_forall.
    rewrite List.Forall_forall. split; intros [? Hf]; (split; [lia|]); intros b Hb; specialize (Hf b Hb).
    + apply andb_true_iff in Hf as [Hg Hd]. split; [done|]. by apply negb_true_iff, bool_decide_eq_false in Hd.
    + apply andb_true_iff. destruct Hf. split; [done|]. by apply negb_true_iff, bool_decide_eq_false.
  - setoid_rewrite parse_timestamp_iff. split.
    + intros (t & (? & ? & ->) & ?). split_and!; (lia || done).
    + intros (Hl & Hd & Hs). eexists. split; [split; [exact Hl|by split]|lia].
Qed.

(** A signature signs one request: two requests that are accepted, each
    under any secret and at any time, with the same signed bytes have the same
    event id, the same timestamp and the same body, so a captured request
    cannot be split again as another event. *)
Theorem signed_bytes_split_once secret secret' rq rq' now_s now_s' :
  (0 <= now_s < 2 ^ 63)%Z -> (0 <= now_s' < 2 ^ 63)%Z ->
  verify hmac secret rq now_s = true -> verify hmac secret' rq' now_s' = true ->
  signed_message (rq_event rq) (rq_timestamp rq) (rq_body rq) =
    signed_message (rq_event rq') (rq_timestamp rq') (rq_body rq') ->
  rq_event rq = rq_event rq' /\ rq_timestamp rq = rq_timestamp rq' /\ rq_body rq = rq_body rq'.
Proof.
  intros Hn Hn' (He & (t & Ht & _) & _)%verify_iff (He' & (t' & Ht' & _) & _)%verify_iff E; [|done..].
  unfold signed_message in E. simpl in E.
  apply split_dot in E as [Ee E]; [|by apply event_id_no_dot..].
  apply split_dot in E as [Et Eb]; [|by eapply timestamp_no_dot..].
  split_and!; [by apply (inj string_bytes)..|done].
Qed.

End Verify.

(** A rotation, and another trigger, have another secret text. *)
Lemma secret_text_inj `{UuidCrate} (id id' : TriggerId) rotation rotation' :
  (rotation <= u64_max)%N -> (rotation' <= u64_max)%N ->
  secret_text id rotation = secret_text id' rotation' -> id = id' /\ rotation = rotation'.
Proof.
  intros Hr Hr' E. unfold secret_text in E. apply (f_equal string_bytes) in E.
  rewrite !string_bytes_app in E. apply app_inj_length in E as [_ E]; [|done].
  apply app_inj_length in E as [Ei E].
  2: { unfold id_display. by rewrite !length_string_bytes, !uuid_display_length. }
  apply app_inj_length in E as [_ E]; [|done]. split; [by apply (inj string_bytes), id_display_inj in Ei|].
  apply (inj string_bytes) in E. apply (f_equal parse_u64) in E. rewrite !parse_show_u64 in E by done. congruence.
Qed.

(** ** Concrete requests *)

(** A stand-in for HMAC: a tag of 32 bytes that depends on the message's
    length alone. *)
Definition demo_hmac (key text : list byte) : list byte :=
  repeat (Ascii.ascii_of_nat (length key + length text)) 32.

Definition demo_sign (event timestamp : string) (body : list byte) : Request :=
  mkRequest event timestamp
    (bytes_string (V1 ++ hex_lower (demo_hmac (string_bytes "secret")
                                      (signed_message event timestamp body)))) body.

Example demo_accepted :
  verify demo_hmac "secret" (demo_sign "evt-1" "1000" []) 1300 = true /\
  verify demo_hmac "secret" (demo_sign "evt-1" "1000" []) 1301 = false /\
  verify demo_hmac "secret" (demo_sign "evt.1" "1000" []) 1000 = false.
Proof. vm_compute. split_and!; reflexivity. Qed.

Lemma signature_reads_back_witness :
  parse_signature (bytes_string (V1 ++ hex_lower (demo_hmac [] []))) = Some (demo_hmac [] []).
Proof. apply (proj2 (signature_reads_back "" (demo_hmac [] []))). reflexivity. Defined.

Lemma accepted_iff_signed_witness :
  is_ascii_digit (Ascii.ascii_of_nat 49) = true /\
  (700 <= digits_value (string_bytes "1000") <= 1300)%Z.
Proof.
  split; [reflexivity|].
  refine (proj2 (proj2 (proj1 (proj2 (proj1 (accepted_iff_signed demo_hmac "secret"
    (demo_sign "evt-1" "1000" []) 1000 _) _))))).
  - lia.
  - vm_compute. reflexivity.
Defined.

Lemma signed_bytes_split_once_witness : rq_event (demo_sign "a" "1000" []) = "a".
Proof.
  refine (proj1 (signed_bytes_split_once demo_hmac "secret" "secret" (demo_sign "a" "1000" [])
    (demo_sign "a" "1000" []) 1000 1000 _ _ _ _ _)); try lia; reflexivity.
Defined.
