(* ===== verification/Scheduler.v ===== *)
(** * The scheduler ([server/scheduler.rs])

    [next_tick] finds the next tick of a schedule across the changes of the
    clocks; a pass gives new schedules their first tick, fires the due
    triggers and moves them on.  The theorems: the next tick is later and is
    one the pattern names; its loops end; a missed tick that is skipped fires
    nothing and the trigger only moves on; a pass follows the rules of the
    queue. *)

From S2P Require Import Prelude Protocol Uuids MemoryOwner Reduce DriverTurns Store StoreProofs.
From S2P Require Import StoreTriggers StoreMessages StoreStops Queue QueueProofs Driver Server.
From S2P Require Import ServerLogic Spawner Fires.

Definition MISSED_AFTER_MS : Z := 60000.
Definition PASS_LIMIT : nat := 100.
Definition MAX_CANDIDATES : nat := 1000.
Definition DRAIN_PASSES : nat := 10.

(** ** The crates: croner, chrono and chrono-tz *)

Inductive LocalResult := LocalNone | LocalSingle (t : Z) | LocalAmbiguous (first second : Z).

(** An instant is its Unix milliseconds, a wall-clock time the milliseconds it
    would be in UTC.  Times in chrono's range are far from the ends of [i64]. *)
Class Clocks : Type := {
  Cron : Type;
  Tz : Type;
  parse_cron : string -> result Cron string;
  parse_tz : string -> option Tz;
  in_range : Z -> bool;
  find_next_occurrence : Cron -> Tz -> Z -> result Z string;
  is_time_matching : Cron -> Z -> result bool string;
  local_minus_utc : Tz -> Z -> Z;
  from_local_datetime : Tz -> Z -> LocalResult;
  find_next_later c z after t : find_next_occurrence c z after = Ok t -> (after < t)%Z;
}.

Definition MINUTE : Z := 60000.
Definition STEP : Z := (60 * MINUTE)%Z.

Section Ticks.
Context `{Clocks}.

(** The offset in milliseconds; [unwrap_or_default] is the epoch. *)
Definition offset (zone : Tz) (ms : Z) : Z :=
  (local_minus_utc zone (if in_range ms then ms else 0) * 1000)%Z.

Definition naive_local (zone : Tz) (t : Z) : Z := (t + local_minus_utc zone t * 1000)%Z.

(** [while high - low > MINUTE]: [high] at the end. *)
Fixpoint bisect (fuel : nat) (zone : Tz) (old low high : Z) : option Z :=
  match fuel with
  | O => None
  | S fuel =>
      if (MINUTE <? high - low)%Z then
        let middle := (low + (high - low) / 2)%Z in
        if (old <? offset zone middle)%Z then bisect fuel zone old low middle
        else bisect fuel zone old middle high
      else Some high
  end.

(** [while skipped < until]: whether the pattern names a skipped minute. *)
Fixpoint names_skipped (fuel : nat) (cron : Cron) (skipped until : Z) : option (result bool string) :=
  match fuel with
  | O => None
  | S fuel =>
      if (skipped <? until)%Z then
        match is_time_matching cron (if in_range skipped then skipped else 0) with
        | Err e => Some (Err e)
        | Ok true => Some (Ok true)
        | Ok false => names_skipped fuel cron (skipped + MINUTE) until
        end
      else Some (Ok false)
  end.

(** The loops' fuel: a window of at most [STEP] halves down to [MINUTE], and a
    gap has a minute for each of its minutes. *)
Definition BISECT_FUEL : nat := 7.
Definition skip_fuel (width : Z) : nat := S (Z.to_nat (width / MINUTE + 1)).

(** Where the clocks resume in the window [from, to], by the minute. *)
Definition resume_at (zone : Tz) (old from to : Z) : option Z :=
  high ← bisect BISECT_FUEL zone old from to;
  let resume := (high - high mod MINUTE)%Z in
  Some (if (old <? offset zone resume)%Z then resume else (resume + MINUTE)%Z).

(** The body of the loop over the windows. *)
Definition gap_window (cron : Cron) (zone : Tz) (after_ms before_ms from to : Z)
    : option (result (option Z) string) :=
  let old := offset zone from in
  let new := offset zone to in
  if (old <? new)%Z then
    resume ← resume_at zone old from to;
    if (after_ms <? resume)%Z && (resume <? before_ms)%Z then
      named ← names_skipped (skip_fuel (new - old)) cron (resume + old) (resume + new);
      Some (match named with
            | Err e => Err e
            | Ok true => Ok (Some resume)
            | Ok false => Ok None
            end)
    else Some (Ok None)
  else Some (Ok None).

Fixpoint gap_loop (fuel : nat) (cron : Cron) (zone : Tz) (after_ms before_ms from : Z)
    : option (result (option Z) string) :=
  match fuel with
  | O => None
  | S fuel =>
      if (from <? before_ms)%Z then
        let to := Z.min (from + STEP) before_ms in
        found ← gap_window cron zone after_ms before_ms from to;
        match found with
        | Err e => Some (Err e)
        | Ok (Some tick) => Some (Ok (Some tick))
        | Ok None => gap_loop fuel cron zone after_ms before_ms to
        end
      else Some (Ok None)
  end.

Definition gap_fuel (after_ms before_ms : Z) : nat := S (S (Z.to_nat ((before_ms - after_ms) / STEP))).

Definition gap_tick (cron : Cron) (zone : Tz) (after_ms before_ms : Z)
    : option (result (option Z) string) :=
  gap_loop (gap_fuel after_ms before_ms) cron zone after_ms before_ms after_ms.

(** The skipped minutes before a candidate, at most three hours of them. *)
Fixpoint names_before (n : nat) (cron : Cron) (zone : Tz) (skipped : Z) : result bool string :=
  match n with
  | O => Ok false
  | S n =>
      match from_local_datetime zone skipped with
      | LocalNone =>
          match is_time_matching cron skipped with
          | Err e => Err e
          | Ok true => Ok true
          | Ok false => names_before n cron zone (skipped - MINUTE)
          end
      | _ => Ok false
      end
  end.

(** A wall-clock time the clocks go back over, the second time. *)
Definition repeated (zone : Tz) (candidate : Z) : bool :=
  match from_local_datetime zone (naive_local zone candidate) with
  | LocalAmbiguous first _ => negb (candidate =? first)%Z
  | LocalNone | LocalSingle _ => false
  end.

Definition is_tick (cron : Cron) (zone : Tz) (candidate : Z) : result bool string :=
  let wall := naive_local zone candidate in
  if repeated zone candidate then Ok false
  else
    match is_time_matching cron wall with
    | Err e => Err e
    | Ok true => Ok true
    | Ok false => names_before 180 cron zone (wall - MINUTE)
    end.

(** The loop over croner's candidates.  [gap_tick] has fuel enough
    ([gap_tick_ends]). *)
Fixpoint candidates (n : nat) (cron : Cron) (zone : Tz) (after_ms after : Z) : result Z string :=
  match n with
  | O => Err "no next tick"
  | S n =>
      match find_next_occurrence cron zone after with
      | Err error => Err ("no next tick: " +:+ error)
      | Ok candidate =>
          match is_tick cron zone candidate with
          | Err e => Err e
          | Ok true =>
              match gap_tick cron zone after_ms candidate with
              | Some (Ok gap) => Ok (default candidate gap)
              | Some (Err e) => Err e
              | None => Err "out of fuel"
              end
          | Ok false => candidates n cron zone after_ms candidate
          end
      end
  end.

Definition next_tick (cron time_zone : string) (after_ms : Z) : result Z string :=
  match parse_cron cron with
  | Err error => Err ("not a cron expression: " +:+ error)
  | Ok cron =>
      match parse_tz time_zone with
      | None => Err ("not a known time zone: " +:+ time_zone)
      | Some zone =>
          if in_range after_ms then candidates MAX_CANDIDATES cron zone after_ms after_ms
          else Err "a time out of range"
      end
  end.

(** ** The loops end *)

Lemma bisect_spec k fuel zone old low high :
  (k < fuel)%nat -> (low < high)%Z -> (high - low <= MINUTE * 2 ^ Z.of_nat k)%Z ->
  exists h, bisect fuel zone old low high = Some h /\ (low < h <= high)%Z /\
    ((old < offset zone high)%Z -> (old < offset zone h)%Z).
Proof.
  revert k low high. induction fuel as [|fuel IH]; intros k low high Hk Hlh Hw; [lia|]. simpl.
  destruct (MINUTE <? high - low)%Z eqn:E; bool_to_prop.
  2: { exists high. split_and!; [done|lia|lia|done]. }
  destruct k as [|k]; [simpl in Hw; lia|].
  rewrite Nat2Z.inj_succ, Z.pow_succ_r in Hw by lia.
  assert (MINUTE = 60000)%Z as HM by done.
  pose proof (Z.div_mod (high - low) 2 ltac:(lia)). pose proof (Z.mod_pos_bound (high - low) 2 ltac:(lia)).
  set (half := ((high - low) / 2)%Z) in *.
  destruct (old <? offset zone (low + half))%Z eqn:Eo; bool_to_prop.
  - destruct (IH k low (low + half)%Z) as (h & Hh & Hb & Ho); [lia|lia|lia|].
    exists h. split_and!; [done|lia|lia|auto].
  - destruct (IH k (low + half)%Z high) as (h & Hh & Hb & Ho); [lia|lia|lia|].
    exists h. split_and!; [done|lia|lia|auto].
Qed.

Lemma names_skipped_spec f cron skipped until :
  (until - skipped <= MINUTE * Z.of_nat f)%Z ->
  exists r, names_skipped (S f) cron skipped until = Some r /\
    (r = Ok true -> exists wall, (skipped <= wall < until)%Z /\
       is_time_matching cron (if in_range wall then wall else 0) = Ok true).
Proof.
  assert (MINUTE = 60000)%Z as HM by done.
  revert skipped. induction f as [|f IH]; intros skipped Hl;
    (set (rest := names_skipped _) in IH || idtac); simpl;
    (destruct (skipped <? until)%Z eqn:E; bool_to_prop; [|by eexists]); [lia|].
  destruct (is_time_matching _ _) as [[]|e] eqn:Em; [| |by eexists].
  - eexists. split; [done|]. intros _. exists skipped. split; [lia|done].
  - destruct (IH (skipped + MINUTE)%Z) as (r & Hr & Hw); [lia|]. exists r. split; [exact Hr|].
    intros ->. destruct (Hw eq_refl) as (wall & Hb & Hm). exists wall. split; [lia|done].
Qed.

(** A tick where the clocks resume after a gap that skipped a time the pattern
    names. *)
Definition resumes_named (cron : Cron) (zone : Tz) (t : Z) : Prop :=
  exists from to wall, (from < to)%Z /\ (offset zone from < offset zone to)%Z /\
    (from - MINUTE < t <= to + MINUTE)%Z /\
    (t + offset zone from <= wall < t + offset zone to)%Z /\
    is_time_matching cron (if in_range wall then wall else 0) = Ok true.

Lemma resume_at_spec zone old from to :
  (from < to <= from + STEP)%Z ->
  exists r, resume_at zone old from to = Some r /\ (from - MINUTE < r <= to + MINUTE)%Z.
Proof.
  intros Hft. unfold resume_at.
  destruct (bisect_spec 6 BISECT_FUEL zone old from to) as (h & -> & Hh & _);
    [unfold BISECT_FUEL; lia|lia|unfold STEP, MINUTE in *; lia|].
  simpl. eexists. split; [done|]. assert (MINUTE = 60000)%Z as HM by done.
  pose proof (Z.mod_pos_bound h MINUTE ltac:(lia)). destruct (old <? _)%Z; lia.
Qed.

Lemma gap_window_spec cron zone after_ms before_ms from to :
  (from < to <= from + STEP)%Z ->
  exists r, gap_window cron zone after_ms before_ms from to = Some r /\
    forall t, r = Ok (Some t) -> (after_ms < t < before_ms)%Z /\ resumes_named cron zone t.
Proof.
  intros Hft. unfold gap_window. destruct (_ <? _)%Z eqn:Eo; bool_to_prop; [|by eexists].
  destruct (resume_at_spec zone (offset zone from) from to Hft) as (resume & -> & Hr).
  cbn [mbind option_bind].
  destruct (_ && _) eqn:Eb; [|by eexists]. bool_to_prop.
  destruct (names_skipped_spec (Z.to_nat ((offset zone to - offset zone from) / MINUTE + 1)) cron
    (resume + offset zone from) (resume + offset zone to)) as (named & Hn & Hw).
  { assert (MINUTE = 60000)%Z as HM by done.
    set (width := (offset zone to - offset zone from)%Z) in *.
    pose proof (Z.div_mod width MINUTE ltac:(lia)). pose proof (Z.mod_pos_bound width MINUTE ltac:(lia)).
    rewrite Z2Nat.id by (assert (0 <= width / MINUTE)%Z by (apply Z.div_pos; lia); lia). lia. }
  unfold skip_fuel. rewrite Hn. cbn [mbind option_bind]. eexists. split; [done|]. intros t Ht.
  destruct named as [[]|]; simplify_eq/=. split; [lia|].
  destruct (Hw eq_refl) as (wall & Hb & Hm). exists from, to, wall. split_and!; (lia || done).
Qed.

Lemma gap_loop_spec f cron zone after_ms before_ms from :
  (before_ms - from <= STEP * Z.of_nat f)%Z ->
  exists r, gap_loop (S f) cron zone after_ms before_ms from = Some r /\
    forall t, r = Ok (Some t) -> (after_ms < t < before_ms)%Z /\ resumes_named cron zone t.
Proof.
  assert (STEP = 3600000)%Z as HM by done.
  revert from. induction f as [|f IH]; intros from Hl; simpl;
    (destruct (from <? before_ms)%Z eqn:E; bool_to_prop; [|by eexists]); [lia|].
  destruct (gap_window_spec cron zone after_ms before_ms from (Z.min (from + STEP) before_ms))
    as (r & -> & Hr); [lia|]. simpl.
  destruct r as [[t|]|e]; [by eexists| |by eexists].
  apply IH. lia.
Qed.

(** The search for a gap ends: whatever the zone's rules and the pattern,
    however far apart the two instants are, the fuel of its three loops (the
    windows, the bisection of a window and the skipped minutes of a gap) is
    enough, so [next_tick] never runs out of it. *)
Theorem gap_tick_ends cron zone after_ms before_ms :
  exists r, gap_tick cron zone after_ms before_ms = Some r.
Proof.
  unfold gap_tick, gap_fuel.
  destruct (gap_loop_spec (S (Z.to_nat ((before_ms - after_ms) / STEP))) cron zone after_ms before_ms
    after_ms) as (r & -> & _); [|by exists r].
  assert (STEP = 3600000)%Z as HM by done. set (width := (before_ms - after_ms)%Z).
  pose proof (Z.div_mod width STEP ltac:(lia)). pose proof (Z.mod_pos_bound width STEP ltac:(lia)).
  destruct (decide (0 <= width)%Z); [|lia].
  rewrite Nat2Z.inj_succ, Z2Nat.id by (apply Z.div_pos; lia). lia.
Qed.

(** ** What a tick is *)

(** Not the repeat of an earlier time, and named by the pattern itself or by a
    minute just before it, within three hours, that never happened. *)
Definition named_tick (cron : Cron) (zone : Tz) (t : Z) : Prop :=
  repeated zone t = false /\
  exists n, (n <= 180)%nat /\
    is_time_matching cron (naive_local zone t - Z.of_nat n * MINUTE) = Ok true /\
    forall k, (1 <= k <= n)%nat ->
      from_local_datetime zone (naive_local zone t - Z.of_nat k * MINUTE) = LocalNone.

Lemma names_before_true m cron zone wall :
  names_before m cron zone (wall - MINUTE) = Ok true ->
  exists n, (1 <= n <= m)%nat /\ is_time_matching cron (wall - Z.of_nat n * MINUTE) = Ok true /\
    forall k, (1 <= k <= n)%nat -> from_local_datetime zone (wall - Z.of_nat k * MINUTE) = LocalNone.
Proof.
  revert wall. induction m as [|m IH]; intros wall; simpl; [done|].
  destruct (from_local_datetime _ _) eqn:El; [|done..].
  destruct (is_time_matching _ _) as [[]|] eqn:Em; [| |done].
  - intros _. exists 1%nat. rewrite Z.mul_1_l. split_and!; [lia|lia|done|].
    intros k Hk. assert (k = 1)%nat as -> by lia. by rewrite Z.mul_1_l.
  - intros (n & Hn & Hm & Hs)%IH. exists (S n). split_and!; [lia|lia| |].
    + rewrite <-Hm. f_equal. lia.
    + intros k Hk. destruct (decide (k = 1)%nat) as [->|]; [by rewrite Z.mul_1_l|].
      rewrite <-(Hs (k - 1)%nat) by lia. f_equal. lia.
Qed.

Lemma is_tick_true cron zone t : is_tick cron zone t = Ok true -> named_tick cron zone t.
Proof.
  unfold is_tick, named_tick. destruct (repeated zone t); [done|].
  destruct (is_time_matching _ _) as [[]|] eqn:Em; [| |done].
  - intros _. split; [done|]. exists 0%nat. split_and!; [lia| |lia].
    by rewrite Z.mul_0_l, Z.sub_0_r.
  - intros (n & Hn & Hm & Hs)%names_before_true. split; [done|]. exists n. split_and!; [lia|done|done].
Qed.

Lemma candidates_spec n cron zone after_ms after t :
  (after_ms <= after)%Z -> candidates n cron zone after_ms after = Ok t ->
  (after_ms < t)%Z /\ (named_tick cron zone t \/ resumes_named cron zone t).
Proof.
  revert after. induction n as [|n IH]; intros after Hle; simpl; [done|].
  destruct (find_next_occurrence _ _ _) as [c|] eqn:Ef; [|done].
  apply find_next_later in Ef. destruct (is_tick _ _ _) as [[]|] eqn:Et; [| |done].
  - unfold gap_tick, gap_fuel.
    destruct (gap_loop_spec (S (Z.to_nat ((c - after_ms) / STEP))) cron zone after_ms c after_ms)
      as (r & -> & Hr).
    { assert (STEP = 3600000)%Z as HM by done. set (width := (c - after_ms)%Z) in *.
      pose proof (Z.div_mod width STEP ltac:(lia)). pose proof (Z.mod_pos_bound width STEP ltac:(lia)).
      rewrite Nat2Z.inj_succ, Z2Nat.id by (apply Z.div_pos; lia). lia. }
    destruct r as [[gap|]|]; [| |done]; intros [= <-]; simpl.
    + destruct (Hr gap eq_refl) as [? ?]. split; [lia|by right].
    + split; [lia|]. left. by apply is_tick_true.
  - apply IH. lia.
Qed.

Lemma next_tick_found cron time_zone after_ms t :
  next_tick cron time_zone after_ms = Ok t ->
  exists c z, parse_cron cron = Ok c /\ parse_tz time_zone = Some z /\
    candidates MAX_CANDIDATES c z after_ms after_ms = Ok t.
Proof.
  unfold next_tick. destruct (parse_cron cron) as [c|]; [|done].
  destruct (parse_tz time_zone) as [z|]; [|done]. destruct (in_range after_ms); [|done].
  by exists c, z.
Qed.

Lemma next_tick_later cron time_zone after_ms t :
  next_tick cron time_zone after_ms = Ok t -> (after_ms < t)%Z.
Proof. intros (c & z & _ & _ & [Hl _]%candidates_spec)%next_tick_found; lia. Qed.

(** The next tick is later, and one the pattern names: [next_tick] gives an
    instant strictly after the one asked about, which is not the second time of
    a wall-clock time the clocks repeat and whose own time, or a time skipped
    just before it, the pattern names; or it is where the clocks resume after
    they jumped over a time the pattern names. *)
Theorem next_tick_is_named cron time_zone after_ms t :
  next_tick cron time_zone after_ms = Ok t ->
  (after_ms < t)%Z /\ exists c z, parse_cron cron = Ok c /\ parse_tz time_zone = Some z /\
    (named_tick c z t \/ resumes_named c z t).
Proof.
  intros (c & z & Hc & Hz & [Hl Ht]%candidates_spec)%next_tick_found; [|lia].
  split; [done|]. by exists c, z.
Qed.

End Ticks.

(** ** A pass *)

Section Passes.
Context `{UuidCrate} `{Clocks} {R X : Type} `{Redis R} (q : RunQueue).
Context (fire_debug : FireError → string).

Local Open Scope rust_scope.

(** A [for] loop whose body may leave with [?]. *)
Fixpoint try_each {T E} (l : list T) (body : T -> @M R X (result unit E)) : @M R X (result unit E) :=
  match l with
  | [] => ret (Ok tt)
  | x :: l => let!? _ := body x in try_each l body
  end.

(** [fire_due_trigger]; [fire_debug] is [{error:?}]. *)
Definition fire_due_trigger (t : StoredTrigger) (now_ms : Z) : @M R X (result (option RunId) string) :=
  match tg_kind t, tg_next_fire_ms t with
  | Schedule cron time_zone, Some due =>
      let missed := (MISSED_AFTER_MS <? wrap_i64 (now_ms - due))%Z in
      let!? run :=
        if missed && match tg_missed t with Skip => true | RunOnceLate => false end then ret (Ok None)
        else
          let!? fired := fire_trigger_at q (tg_owner t) (tg_id t) due else fire_debug in
          ret (Ok (match fired with FRun run => Some run | _ => None end)) in
      let next := match next_tick cron time_zone now_ms with Ok next => Some next | Err _ => None end in
      let!? _ := do_advance_trigger (tg_id t) (Some due) next else MemoryOwner.message in
      ret (Ok run)
  | _, _ => ret (Ok None)
  end.

(** A schedule made before the scheduler gets its first tick, or is paused. *)
Definition first_tick (now_ms : Z) (t : StoredTrigger) : @M R X (result unit string) :=
  match tg_kind t with
  | Schedule cron time_zone =>
      match next_tick cron time_zone now_ms with
      | Ok first =>
          let!? _ := do_advance_trigger (tg_id t) None (Some first) else MemoryOwner.message in
          ret (Ok tt)
      | Err _ =>
          let!? _ := do_set_enabled (tg_owner t) (tg_id t) false else MemoryOwner.message in
          ret (Ok tt)
      end
  | Webhook _ => ret (Ok tt)
  end.

Definition pass (now_ms : Z) : @M R X (result (list RunId * bool) string) :=
  let!? unscheduled := do_unscheduled_triggers PASS_LIMIT else MemoryOwner.message in
  let!? _ := try_each unscheduled (first_tick now_ms) in
  let!? due := do_due_triggers now_ms PASS_LIMIT else MemoryOwner.message in
  let! fired :=
    for_each due
      (fun fired t =>
         let! r := fire_due_trigger t now_ms in
         ret (match r with Ok (Some run) => fired ++ [run] | Ok None | Err _ => fired end)) [] in
  ret (Ok (fired, (length due =? PASS_LIMIT)%nat)).

Definition schedule_due (now_ms : Z) : @M R X (result (list RunId) string) :=
  let!? answer := pass now_ms in ret (Ok answer.1).

(** The passes [schedule_forever] runs back to back; the loop around them
    sleeps and runs them again. *)
Fixpoint drain (passes : nat) : @M R X unit :=
  match passes with
  | O => ret tt
  | S passes =>
      let! outcome := let!? now := do_now_ms in pass now in
      match outcome with
      | Ok (_, true) => drain passes
      | Ok (_, false) | Err _ => ret tt
      end
  end.

End Passes.

(** ** What a pass does *)

Section Proofs.
Context `{UuidCrate} `{Clocks} {R X : Type} `{Redis R} `{!RedisLaws R} (q : RunQueue) (Hq : keys_ok q).
Context (fire_debug : FireError → string).

Lemma triple_fire_due t now_ms :
  triple (X := X) q (prompt q) (fun _ => True) (fire_due_trigger q fire_debug t now_ms) (fun _ _ => True).
Proof.
  assert (stable q (prompt q) (fun _ : Shared R => True)) as Htrue by (by intros s s').
  unfold fire_due_trigger. destruct (tg_kind t); [|by apply (triple_done q (prompt q))].
  destruct (tg_next_fire_ms t) as [due|]; [|by apply (triple_done q (prompt q))].
  eapply (triple_try q (prompt q)) with (Q := fun _ _ => True); [| |done].
  - destruct (_ && _); [by apply (triple_done q (prompt q))|].
    eapply (triple_try_with q (prompt q)) with (Q := fun _ _ => True); [| |done].
    + eapply (triple_try q (prompt q)); [by apply triple_fire| |done].
      intros answer. by apply (triple_done q (prompt q)).
    + intros fired. by apply (triple_done q (prompt q)).
  - intros run. eapply (triple_try_with q (prompt q)) with (Q := fun _ _ => True); [| |done].
    + eapply (triple_post q (prompt q)).
      * apply (triple_triggers q (prompt q) _ _ (fun _ _ => True)); [done|].
        intros s _ _. by case_match.
      * done.
    + intros ?. by apply (triple_done q (prompt q)).
Qed.

Lemma triple_first_tick now_ms t :
  triple (X := X) q (prompt q) (fun _ => True) (first_tick now_ms t) (fun _ _ => True).
Proof.
  assert (stable q (prompt q) (fun _ : Shared R => True)) as Htrue by (by intros s s').
  unfold first_tick. destruct (tg_kind t); [|by apply (triple_done q (prompt q))].
  destruct (next_tick _ _ _);
    (eapply (triple_try_with q (prompt q)) with (Q := fun _ _ => True); [| |done];
     [eapply (triple_post q (prompt q)); [|done];
      apply (triple_triggers q (prompt q) _ _ (fun _ _ => True)); [done|]; intros s _ _; by case_match
     |intros ?; by apply (triple_done q (prompt q))]).
Qed.

Lemma triple_try_each {T E} (l : list T) (body : T -> @M R X (result unit E)) :
  (forall x, triple q (prompt q) (fun _ => True) (body x) (fun _ _ => True)) ->
  triple q (prompt q) (fun _ => True) (try_each l body) (fun _ _ => True).
Proof.
  intros Hb. induction l as [|x l IH]; simpl; [by apply (triple_done q (prompt q))|].
  eapply (triple_try q (prompt q)); [apply Hb|by intros []|done].
Qed.

Lemma triple_pass now_ms :
  triple (X := X) q (prompt q) (fun _ => True) (pass q fire_debug now_ms) (fun _ _ => True).
Proof.
  assert (stable q (prompt q) (fun _ : Shared R => True)) as Htrue by (by intros s s').
  eapply (triple_try_with q (prompt q)); [by apply (triple_read q (prompt q))| |done].
  intros unscheduled. eapply (triple_try q (prompt q)); [| |done].
  { apply triple_try_each. intros t. apply triple_first_tick. }
  intros []. eapply (triple_try_with q (prompt q)); [by apply (triple_read q (prompt q))| |done].
  intros due. eapply (triple_bind q (prompt q)).
  - apply (triple_for_each q (prompt q) due _ (fun _ _ => True)). intros fired t _.
    eapply (triple_bind q (prompt q)); [apply triple_fire_due|].
    intros r. by apply (triple_done q (prompt q)).
  - intros fired. by apply (triple_done q (prompt q)).
Qed.

Lemma triple_drain passes :
  triple (X := X) q (prompt q) (fun _ => True) (drain q fire_debug passes) (fun _ _ => True).
Proof.
  induction passes as [|passes IH]; simpl; [by apply (triple_done q (prompt q))|].
  eapply (triple_bind q (prompt q)) with (Q := fun _ _ => True).
  - eapply (triple_try q (prompt q)) with (Q := fun _ _ => True); [| |done].
    + eapply (triple_post q (prompt q)).
      * by apply (triple_queue_read q (prompt q) _ _ (fun _ _ => True)).
      * done.
    + intros t. apply triple_pass.
  - intros [[fired []]|e]; [exact IH|by apply (triple_done q (prompt q))..].
Qed.

(** The steps that move trigger [id] on from its tick [due]: it is given a tick
    after [now_ms], or none, and only if [due] is still its tick. *)
Definition moves_on (id : TriggerId) (due now_ms : Z) (s s' : Shared R) : Prop :=
  sh_triggers s' = sh_triggers s \/
  exists next, (forall t, next = Some t -> (now_ms < t)%Z) /\
    sh_triggers s' = (advance_trigger (sh_triggers s) id (Some due) next).2.

(** The steps that change nothing but triggers. *)
Definition only_triggers (s s' : Shared R) : Prop :=
  sh_store s' = sh_store s /\ sh_messages s' = sh_messages s /\ sh_queue s' = sh_queue s.

Lemma advance_only Φ id due next :
  (forall s, Φ s s) ->
  (forall s, only_triggers s (on_triggers (fun ts => advance_trigger ts id (Some due) next) s).2 ->
     sh_triggers (on_triggers (fun ts => advance_trigger ts id (Some due) next) s).2 =
       (advance_trigger (sh_triggers s) id (Some due) next).2 ->
     Φ s (on_triggers (fun ts => advance_trigger ts id (Some due) next) s).2) ->
  only Φ (do_advance_trigger id (Some due) next : @M R X _).
Proof.
  intros Hid HΦ. apply only_call; [done|]. intros s.
  apply HΦ; unfold on_triggers; by destruct (advance_trigger _ _ _ _).
Qed.

(** A due trigger is only moved on: whatever happens meanwhile, firing a due
    trigger changes triggers only by giving this one a tick after now, or none,
    and only while it still has the tick that was read; and a tick missed by
    more than a minute of a trigger that skips missed ticks fires nothing: no
    step touches the runs, the messages or the queue, and no run is reported. *)
Theorem due_trigger_moves_on (w : Server R X) t due now_ms :
  tg_next_fire_ms t = Some due ->
  let r := fire_due_trigger q fire_debug t now_ms w in
  (exists own, sv_steps r.2 = own ++ sv_steps w /\
     Forall (fun step => moves_on (tg_id t) due now_ms step.1 step.2) own) /\
  (tg_missed t = Skip -> (MISSED_AFTER_MS < wrap_i64 (now_ms - due))%Z ->
     (forall run, r.1 <> Ok (Some run)) /\
     exists own, sv_steps r.2 = own ++ sv_steps w /\
       Forall (fun step => only_triggers step.1 step.2) own).
Proof.
  intros Hdue r. unfold r. clear r. unfold fire_due_trigger. rewrite Hdue.
  destruct (tg_kind t) as [cron zone|rotation].
  2: { split; [by exists []|]. intros _ _. split; [done|by exists []]. }
  set (next := match next_tick cron zone now_ms with Ok n => Some n | Err _ => None end).
  assert (forall n, next = Some n -> (now_ms < n)%Z) as Hnext.
  { unfold next. intros n. destruct (next_tick _ _ _) eqn:E; intros [= <-].
    by eapply next_tick_later. }
  split.
  - apply (only_try_with (moves_on (tg_id t) due now_ms) (fun e => e)).
    + destruct (_ && _); [apply only_ret|]. apply only_try_with; [|intros; apply only_ret].
      apply (only_try_with _ (fun e => e)); [|intros; apply only_ret].
      apply fire_only. intros s s' [Ht _]. by left.
    + intros run. apply only_try_with; [|intros; apply only_ret].
      apply advance_only; [by left|]. intros s _ Hs. right. by exists next.
  - intros Hskip Hm%Z.ltb_lt. rewrite Hskip, Hm. simpl. split.
    + intros run. unfold try, try_with, bind, ret. by destruct (do_advance_trigger _ _ _ w) as [[]].
    + apply (only_try_with only_triggers (fun e => e)); [apply only_ret|]. intros run.
      apply only_try_with; [|intros; apply only_ret]. by apply advance_only.
Qed.

(** The scheduler strands nothing: a pass, and the passes run back to back,
    among other schedulers and processes that follow the rules, with any call
    failing and the process dying at any point, keep the rules at every step. *)
Theorem scheduler_strands_nothing (w : Server R X) now_ms :
  respectful q (prompt q) w -> Good q (sv_shared w) ->
  keeps q (prompt q) w (pass q fire_debug now_ms w).2 /\
  keeps q (prompt q) w (drain q fire_debug DRAIN_PASSES w).2.
Proof.
  intros Hr Hg. split.
  - by eapply triple_keeps; [apply _|apply triple_pass|..].
  - by eapply triple_keeps; [apply _|apply triple_drain|..].
Qed.

End Proofs.

(** ** Concrete clocks *)

(** A pattern names one minute of the day; a zone jumps forward from 2:00 to
    3:00 on the first day. *)
Definition DAY : Z := (24 * STEP)%Z.
Definition JUMP : Z := (2 * STEP)%Z.

Definition demo_next (minute after : Z) : Z :=
  let wall := (if after <? JUMP then after else after + STEP)%Z in
  let today := (wall - wall mod DAY + minute * MINUTE)%Z in
  let w := (if wall <? today then today else today + DAY)%Z in
  if (w <? JUMP)%Z then w else if (w <? JUMP + STEP)%Z then JUMP else (w - STEP)%Z.

#[refine, local] Instance demo_clocks : Clocks := {|
  Cron := Z;
  Tz := unit;
  parse_cron s := if bool_decide (s = "30 2 * * *") then Ok 150%Z
                  else if bool_decide (s = "0 1 * * *") then Ok 60%Z else Err "not one of two";
  parse_tz s := if bool_decide (s = "Demo/Zone") then Some tt else None;
  in_range _ := true;
  find_next_occurrence minute _ after :=
    if (after <? demo_next minute after)%Z then Ok (demo_next minute after) else Err "none";
  is_time_matching minute wall := Ok (wall mod DAY =? minute * MINUTE)%Z;
  local_minus_utc _ t := if (t <? JUMP)%Z then 0%Z else 3600%Z;
  from_local_datetime _ wall :=
    if (wall <? JUMP)%Z then LocalSingle wall
    else if (wall <? JUMP + STEP)%Z then LocalNone else LocalSingle (wall - STEP);
|}.
Proof. intros minute _ after t. destruct (after <? _)%Z eqn:E; intros [= <-]. by bool_to_prop. Defined.

Example demo_ticks :
  next_tick "0 1 * * *" "Demo/Zone" 0 = Ok STEP /\
  next_tick "30 2 * * *" "Demo/Zone" 0 = Ok JUMP /\
  next_tick "30 2 * * *" "Demo/Zone" JUMP = Ok (DAY + STEP + 30 * MINUTE)%Z /\
  is_ok (next_tick "30 2 * * *" "UTC" 0) = false.
Proof. vm_compute. split_and!; reflexivity. Qed.

#[local] Instance demo_uuids : UuidCrate := hyphenated.

Definition demo_schedule : StoredTrigger := set_kind demo_trigger (Schedule "0 1 * * *" "Demo/Zone").

Definition demo_due :=
  fire_due_trigger Queue.open (fun _ => "") demo_schedule 120000 (mkServer firing_shared tt calm 0 []).

Lemma next_tick_is_named_witness :
  (0 < STEP)%Z /\ exists c z, parse_cron "0 1 * * *" = Ok c /\ parse_tz "Demo/Zone" = Some z /\
    (named_tick c z STEP \/ resumes_named c z STEP).
Proof. apply (next_tick_is_named "0 1 * * *" "Demo/Zone" 0 STEP). vm_compute. reflexivity. Defined.

Lemma due_trigger_moves_on_witness :
  tg_next_fire_ms demo_schedule = Some 5%Z /\ demo_due.1 <> Ok (Some (tick_run (id_of 30) 5)).
Proof.
  split; [reflexivity|].
  refine (proj1 (proj2 (due_trigger_moves_on Queue.open (fun _ => "")
    (mkServer firing_shared tt calm 0 []) demo_schedule 5 120000 _) _ _) _); reflexivity.
Defined.

Lemma scheduler_strands_nothing_witness :
  keeps Queue.open (prompt Queue.open) (mkServer firing_shared tt calm 0 [])
    (pass Queue.open (fun _ => "") 30 (mkServer firing_shared tt calm 0 [])).2.
Proof.
  refine (proj1 (scheduler_strands_nothing Queue.open (with_key_ok "gol:runs") (fun _ => "")
    (mkServer firing_shared tt calm 0 []) 30 _ _)).
  - apply calm_respectful. reflexivity.
  - apply firing_good.
Defined.
