(* ===== verification/Sandbox.v ===== *)
(** * Sandboxes ([server/inference.rs])

    The names of a Box turn's sandboxes and of its workspace, the trait of the
    host that keeps them, and its two implementations: in memory, and through
    the [docker] command.  A sandbox's name gives back its run, whichever
    attempt it is of, and the host in memory has the laws the turns rely on. *)

From S2P Require Import Prelude Protocol Uuids Fires Text Deliverer.

(** ** Names *)

Section Names.
Context `{UuidCrate}.

Definition box_container_name (run : RunId) : string := "gol-box-" +:+ id_display run.

Definition box_attempt_name (run : RunId) (attempt : N) : string :=
  "gol-box-" +:+ id_display run +:+ "-" +:+ show_u64 attempt.

(** [split_at_checked], on the bytes of a text. *)
Definition split_at_checked (n : nat) (bytes : list byte) : option (list byte * list byte) :=
  if (n <=? length bytes)%nat && is_char_boundary bytes n
  then Some (take n bytes, drop n bytes) else None.

Definition is_attempt (attempt : list byte) : bool :=
  match attempt with
  | [] => true
  | _ =>
      match strip_prefix (string_bytes "-") attempt with
      | Some digits => negb (length digits =? 0)%nat && forallb is_ascii_digit digits
      | None => false
      end
  end.

Definition box_run_of (name : string) : option RunId :=
  rest ← strip_prefix (string_bytes "gol-box-") (string_bytes name);
  '(run, attempt) ← split_at_checked 36 rest;
  if existsb is_ascii_uppercase run then None
  else if negb (is_attempt attempt) then None
  else id_parse (bytes_string run).

Definition box_workspace_volume (run : RunId) : string := "gol-workspace-" +:+ id_display run.

Definition workspace_run_of (name : string) : option RunId :=
  run ← strip_prefix (string_bytes "gol-workspace-") (string_bytes name);
  if negb (length run =? 36)%nat || existsb is_ascii_uppercase run then None
  else id_parse (bytes_string run).

(** [{run}:/workspace], of a run or of any other text. *)
Definition workspace_mount (run : string) : string := "gol-workspace-" +:+ run +:+ ":/workspace".

(** ** The computer of a turn *)

Record ComputerPlan : Type := mkComputerPlan {
  cp_image : string;
  cp_started_by : string;
  cp_command : string;
  cp_started : bool;
  cp_name : string;
}.

Definition box_command (name : string) (run : RunId) : string :=
  "docker create --name " +:+ name +:+ " -v " +:+ workspace_mount (id_display run) +:+
  " --entrypoint /bin/sh gol-agent:production -c true && docker start -a " +:+ name +:+
  " && docker rm -f " +:+ name.

Definition computer_for (placement : ExecutionPlacement) (run : RunId) (started : bool) : ComputerPlan :=
  match placement with
  | PBox =>
      let name := box_container_name run in
      mkComputerPlan "gol-agent:production" "server" (box_command name run) started name
  | Local | Reverse =>
      mkComputerPlan "gol-agent:local" "desktop"
        ("docker run --rm -d --name gol-agent-local -v " +:+ workspace_mount (id_display run) +:+
         " gol-agent:local") false "gol-agent-local"
  end.

Definition computer_plan (placement : ExecutionPlacement) (run : RunId) : ComputerPlan :=
  computer_for placement run false.

End Names.

(** ** The host *)

Inductive SandboxError := Host (text : string).

Class SandboxHost (X : Type) : Type := {
  provision : string -> X -> result unit SandboxError * X;
  destroy : string -> X -> result unit SandboxError * X;
  absent : string -> X -> result bool SandboxError * X;
  list_sandboxes : X -> result (list string) SandboxError * X;
  list_volumes : X -> result (list string) SandboxError * X;
  remove_volume : string -> X -> result unit SandboxError * X;
  launches_docker : bool;
}.

(** What the turns rely on: the names a host has up ([live]) only grow by the
    one that is provisioned, a sandbox is gone once the host says so, only what
    was asked for is removed, and listing and volumes leave them. *)
Class SandboxLaws (X : Type) `{SandboxHost X} : Type := {
  live : X -> gset string;
  provision_live name x : live (provision name x).2 ⊆ {[name]} ∪ live x;
  destroy_live name x : live (destroy name x).2 ⊆ live x;
  destroy_gone name x x' : destroy name x = (Ok tt, x') -> name ∉ live x';
  absent_live name x : live (absent name x).2 = live x;
  absent_gone name x x' : absent name x = (Ok true, x') -> name ∉ live x';
  destroy_other name x : live x ⊆ {[name]} ∪ live (destroy name x).2;
  list_live x : live (list_sandboxes x).2 = live x;
  volumes_live x : live (list_volumes x).2 = live x;
  volume_live name x : live (remove_volume name x).2 = live x;
}.

(** ** In memory *)

Record MemorySandbox : Type := mkMemorySandbox {
  ms_live : gset string;
  ms_provisioned : list string;
  ms_volumes : gset string;
}.

(** [sort()] of texts, by their bytes. *)
Fixpoint bytes_leb (a b : list byte) : bool :=
  match a, b with
  | [], _ => true
  | _, [] => false
  | x :: a, y :: b => (code x <? code y)%N || ((code x =? code y)%N && bytes_leb a b)
  end.

Definition text_leb (a b : string) : bool := bytes_leb (string_bytes a) (string_bytes b).

Definition refuses_name (name : string) : bool :=
  bool_decide (name = "") || bool_decide (name = "gol-agent-box").

Section Memory.
Context `{UuidCrate}.

Definition memory_provision (name : string) (x : MemorySandbox) : result unit SandboxError * MemorySandbox :=
  if refuses_name name then (Err (Host ("refusing sandbox name " +:+ name)), x)
  else if bool_decide (name ∈ ms_live x) then
    (Err (Host ("sandbox " +:+ name +:+ " is already in use")), x)
  else
    let volumes :=
      match box_run_of name with
      | Some run => {[box_workspace_volume run]} ∪ ms_volumes x
      | None => ms_volumes x
      end in
    (Ok tt, mkMemorySandbox ({[name]} ∪ ms_live x) (ms_provisioned x ++ [name]) volumes).

Definition memory_destroy (name : string) (x : MemorySandbox) : result unit SandboxError * MemorySandbox :=
  if bool_decide (name ∈ ms_live x) then
    (Ok tt, mkMemorySandbox (ms_live x ∖ {[name]}) (ms_provisioned x) (ms_volumes x))
  else (Err (Host ("sandbox " +:+ name +:+ " is not running")), x).

Definition memory_exists (name : string) (x : MemorySandbox) : bool := bool_decide (name ∈ ms_live x).

Definition memory_list (x : MemorySandbox) : list string :=
  sort_by text_leb (List.filter (starts_with "gol-box-") (elements (ms_live x))).

(** Refused while a sandbox of the volume's run is up. *)
Definition memory_remove_volume (name : string) (x : MemorySandbox)
    : result unit SandboxError * MemorySandbox :=
  let run := workspace_run_of name in
  if existsb (fun sandbox => bool_decide (is_Some run) && bool_decide (box_run_of sandbox = run))
       (elements (ms_live x))
  then (Err (Host ("volume " +:+ name +:+ " is in use")), x)
  else if bool_decide (name ∈ ms_volumes x) then
    (Ok tt, mkMemorySandbox (ms_live x) (ms_provisioned x) (ms_volumes x ∖ {[name]}))
  else (Err (Host ("no such volume: " +:+ name)), x).

#[export] Instance memory_sandbox : SandboxHost MemorySandbox := {|
  provision := memory_provision;
  destroy := memory_destroy;
  absent name x := (Ok (negb (memory_exists name x)), x);
  list_sandboxes x := (Ok (memory_list x), x);
  list_volumes x := (Ok (sort_by text_leb (elements (ms_volumes x))), x);
  remove_volume := memory_remove_volume;
  launches_docker := false;
|}.

End Memory.

(** ** Through Docker *)

Definition MAX_DOCKER_ERROR : nat := 512.

Definition last_line (text : string) : string :=
  let line :=
    default "" (last (List.filter (fun line => negb (bool_decide (line = ""))) (trim <$> lines text))) in
  if (chars_count line <=? MAX_DOCKER_ERROR)%nat then line
  else bytes_string (take_chars MAX_DOCKER_ERROR (string_bytes line)) +:+ "…".

(** The [docker] command: its standard output, or why it failed. *)
Class Docker (X : Type) : Type := { docker_output : list string -> X -> result string string * X }.

Section DockerSandbox.
Context `{UuidCrate} {X : Type} `{Docker X}.

Definition docker (args : list string) (x : X) : result unit string * X :=
  let '(r, x) := docker_output args x in
  (match r with Ok _ => Ok tt | Err e => Err e end, x).

Definition docker_command (args : list string) (x : X) : result unit SandboxError * X :=
  let '(r, x) := docker args x in
  (match r with Ok _ => Ok tt | Err text => Err (Host (last_line text)) end, x).

Definition docker_provision (name : string) (x : X) : result unit SandboxError * X :=
  if refuses_name name then (Err (Host ("refusing sandbox name " +:+ name)), x)
  else
    let mount :=
      match box_run_of name with
      | Some run => workspace_mount (id_display run)
      | None =>
          workspace_mount
            (default name (bytes_string <$> strip_prefix (string_bytes "gol-box-") (string_bytes name)))
      end in
    match docker_command ["create"; "--name"; name; "-v"; mount; "--entrypoint"; "/bin/sh";
                          "gol-agent:production"; "-c"; "true"] x with
    | (Err error, x) => (Err error, x)
    | (Ok _, x) =>
        match docker_command ["start"; "-a"; name] x with
        | (Ok _, x) => (Ok tt, x)
        | (Err error, x) =>
            let '(_, x) := docker_command ["rm"; "-f"; name] x in (Err error, x)
        end
    end.

Definition docker_absent (name : string) (x : X) : result bool SandboxError * X :=
  match docker ["inspect"; "--type"; "container"; name] x with
  | (Ok _, x) => (Ok false, x)
  | (Err text, x) =>
      if contains "No such container" text then (Ok true, x) else (Err (Host (last_line text)), x)
  end.

(** The lines of a listing that start with [prefix]. *)
Definition docker_names (args : list string) (prefix : string) (x : X)
    : result (list string) SandboxError * X :=
  match docker_output args x with
  | (Ok listed, x) => (Ok (List.filter (starts_with prefix) (trim <$> lines listed)), x)
  | (Err text, x) => (Err (Host (last_line text)), x)
  end.

#[local] Instance docker_sandbox : SandboxHost X := {|
  provision := docker_provision;
  destroy name := docker_command ["rm"; "-f"; name];
  absent := docker_absent;
  list_sandboxes :=
    docker_names ["ps"; "--all"; "--filter"; "name=gol-box-"; "--format"; "{{.Names}}"] "gol-box-";
  list_volumes :=
    docker_names ["volume"; "ls"; "--filter"; "name=gol-workspace-"; "--format"; "{{.Name}}"]
      "gol-workspace-";
  remove_volume name := docker_command ["volume"; "rm"; name];
  launches_docker := true;
|}.

End DockerSandbox.

(** ** A host that others use too

    Every server's workers use one host: between two of a process's calls the
    other workers, the deliveries of other attempts and the sweeps provision
    and remove what they want.  [ho_others n] is what they do before the
    process's call [n]; [ho_absent] records, for each name the host confirmed
    absent to the process, the host as it was then. *)

Record Hosted (X : Type) : Type := mkHosted {
  ho_host : X;
  ho_others : nat -> X -> X;
  ho_calls : nat;
  ho_absent : list (string * X);
}.
Arguments mkHosted {X} _ _ _ _.
Arguments ho_host {X} _.
Arguments ho_others {X} _ _ _.
Arguments ho_calls {X} _.
Arguments ho_absent {X} _.

Section Hosted.
Context {X : Type} `{SandboxHost X}.

(** The host the process's next call finds. *)
Definition ho_found (v : Hosted X) : X := ho_others v (ho_calls v) (ho_host v).

Definition hosted {A} (f : X -> A * X) (v : Hosted X) : A * Hosted X :=
  let '(a, x) := f (ho_found v) in (a, mkHosted x (ho_others v) (S (ho_calls v)) (ho_absent v)).

Definition hosted_absent (name : string) (v : Hosted X) : result bool SandboxError * Hosted X :=
  let '(r, v') := hosted (absent name) v in
  (r, match r with
      | Ok true =>
          mkHosted (ho_host v') (ho_others v') (ho_calls v') ((name, ho_found v) :: ho_absent v')
      | _ => v'
      end).

#[export] Instance hosted_sandbox : SandboxHost (Hosted X) := {|
  provision name := hosted (provision name);
  destroy name := hosted (destroy name);
  absent := hosted_absent;
  list_sandboxes := hosted list_sandboxes;
  list_volumes := hosted list_volumes;
  remove_volume name := hosted (remove_volume name);
  launches_docker := launches_docker (X := X);
|}.

End Hosted.

(** ** The laws, in memory *)

#[export] Instance memory_sandbox_laws `{UuidCrate} : SandboxLaws MemorySandbox.
Proof.
  refine {| live := ms_live |}.
  - intros name x. simpl. unfold memory_provision.
    destruct (refuses_name name); [set_solver|]. case_bool_decide; simpl; set_solver.
  - intros name x. simpl. unfold memory_destroy. case_bool_decide; simpl; set_solver.
  - intros name x x'. simpl. unfold memory_destroy. case_bool_decide; intros [= <-]; simpl. set_solver.
  - done.
  - intros name x x'. simpl. unfold memory_exists. case_bool_decide; intros [= <-]; done.
  - intros name x. simpl. unfold memory_destroy. case_bool_decide; simpl; [|set_solver].
    intros name' Hn. destruct (decide (name' = name)); set_solver.
  - done.
  - done.
  - intros name x. simpl. unfold memory_remove_volume. destruct (existsb _ _); [done|].
    by case_bool_decide.
Defined.

(** ** Names read back *)

Lemma show_u64_digits n :
  string_bytes (show_u64 n) <> [] /\ forallb is_ascii_digit (string_bytes (show_u64 n)) = true.
Proof.
  unfold show_u64. generalize (N.to_uint n). intros d.
  assert (forall d, forallb is_ascii_digit
    (string_bytes (DecimalString.NilEmpty.string_of_uint d)) = true) as Hd.
  { induction d0; simpl; done. }
  destruct d; (split; [done|]); simpl; try done; apply Hd.
Qed.

Section Proofs.
Context `{UuidCrate}.

Lemma length_display {k} (i : Id k) : length (string_bytes (id_display i)) = 36%nat.
Proof. unfold id_display. by rewrite length_string_bytes, uuid_display_length. Qed.

Lemma run_of_attempt (run : RunId) attempt :
  is_attempt attempt = true -> (forall b, head attempt = Some b -> is_continuation b = false) ->
  box_run_of (bytes_string (string_bytes "gol-box-" ++ string_bytes (id_display run) ++ attempt)) = Some run.
Proof.
  intros Ha Hb. unfold box_run_of. rewrite string_bytes_string.
  rewrite (proj2 (strip_prefix_Some _ _ _) eq_refl). cbn [mbind option_bind].
  unfold split_at_checked.
  rewrite (proj2 (Nat.leb_le _ _)) by (rewrite length_app, length_display; lia).
  assert (is_char_boundary (string_bytes (id_display run) ++ attempt) 36 = true) as ->.
  { unfold is_char_boundary. rewrite lookup_app_r by (rewrite length_display; lia).
    rewrite length_display. destruct attempt as [|b rest]; simpl.
    - rewrite app_nil_r, length_display. done.
    - rewrite Hb by done. done. }
  simpl. rewrite <-(length_display run), take_app_length, drop_app_length.
  unfold id_display at 1. rewrite uuid_display_lower, Ha. simpl.
  by rewrite bytes_string_bytes, id_parse_display.
Qed.

Lemma run_of_container run : box_run_of (box_container_name run) = Some run.
Proof.
  rewrite <-(bytes_string_bytes (box_container_name run)). unfold box_container_name.
  rewrite string_bytes_app. rewrite <-(app_nil_r (string_bytes (id_display run))).
  by apply run_of_attempt.
Qed.

Lemma run_of_box_attempt run attempt : box_run_of (box_attempt_name run attempt) = Some run.
Proof.
  rewrite <-(bytes_string_bytes (box_attempt_name run attempt)). unfold box_attempt_name.
  rewrite !string_bytes_app. destruct (show_u64_digits attempt) as [Hne Hd].
  apply run_of_attempt; [|by intros b [= <-]].
  unfold is_attempt. rewrite (proj2 (strip_prefix_Some (string_bytes "-") _ _) eq_refl), Hd, andb_true_r.
  by destruct (string_bytes (show_u64 attempt)).
Qed.

(** A sandbox's name gives back its run: the name of a turn's sandbox, of
    any attempt's, and of a run's workspace are each read back as that run, so
    the sweep knows every sandbox and volume it made; and no two attempts of
    any runs share a name. *)
Theorem sandbox_names_read_back (run run' : RunId) (attempt attempt' : N) :
  box_run_of (box_container_name run) = Some run /\
  box_run_of (box_attempt_name run attempt) = Some run /\
  workspace_run_of (box_workspace_volume run) = Some run /\
  box_container_name run <> box_attempt_name run' attempt' /\
  ((attempt <= u64_max)%N -> (attempt' <= u64_max)%N ->
   box_attempt_name run attempt = box_attempt_name run' attempt' ->
   run = run' /\ attempt = attempt').
Proof.
  split_and!.
  - apply run_of_container.
  - apply run_of_box_attempt.
  - unfold workspace_run_of, box_workspace_volume. rewrite string_bytes_app.
    rewrite (proj2 (strip_prefix_Some _ _ _) eq_refl). cbn [mbind option_bind].
    rewrite length_display. unfold id_display at 1. rewrite uuid_display_lower. simpl.
    by rewrite bytes_string_bytes, id_parse_display.
  - intros E. apply (f_equal (fun s => length (string_bytes s))) in E.
    unfold box_container_name, box_attempt_name in E.
    rewrite !string_bytes_app, !length_app, !length_display in E. simpl in E. lia.
  - intros Ha Ha' E. assert (run = run') as <-.
    { apply (f_equal box_run_of) in E. rewrite !run_of_box_attempt in E. congruence. }
    split; [done|]. apply (f_equal string_bytes) in E. unfold box_attempt_name in E.
    rewrite !string_bytes_app in E. apply app_inv_head, app_inv_head, app_inv_head in E.
    apply (inj string_bytes), (f_equal parse_u64) in E.
    rewrite !parse_show_u64 in E by done. congruence.
Qed.

End Proofs.

Lemma sandbox_names_read_back_witness :
  (3 : N) = 3%N /\ box_run_of (H := hyphenated) (box_attempt_name (H := hyphenated) (id_of 1) 3) = Some (id_of 1).
Proof.
  split; [|apply (sandbox_names_read_back (H := hyphenated) (id_of 1) (id_of 1) 3 3)].
  apply (sandbox_names_read_back (H := hyphenated) (id_of 1) (id_of 1) 3 3); [done|done|reflexivity].
Defined.
