(* ===== verification/Turns.v ===== *)
(** * Coworker turns ([server/inference.rs])

    A turn is a run without a harness loop: one call of the gateway, in a
    sandbox when it is placed in a Box, and its completion or failure.  The
    theorems: no turn ends while its sandbox is up, unless others start it; a turn that is not open is
    left as it is; the turns follow the rules of the queue. *)

From S2P Require Import Prelude Text Protocol Uuids MemoryOwner SpecBuilder Reduce DriverTurns.
From S2P Require Import Store StoreProofs StoreTriggers StoreMessages StoreStops Queue.
From S2P Require Import QueueProofs Driver Server ServerLogic Sandbox.

(** ** Data *)

Record GatewayCall : Type := mkGatewayCall {
  gc_run_id : RunId;
  gc_input : string;
  gc_model_name : string;
  gc_placement : ExecutionPlacement;
}.

(** The trait of the gateway's poster. *)
Class GatewayPoster (X : Type) : Type := { complete : GatewayCall -> X -> result string string * X }.

(** The guard of [HttpGatewayPoster]: the proxy is local. *)
Fixpoint refused_host (hosts : list string) (lower : string) : result unit string :=
  match hosts with
  | [] => Ok tt
  | host :: hosts =>
      if contains host lower then
        Err ("refusing to call " +:+ host +:+ "; the fixture proxy is local")
      else refused_host hosts lower
  end.

Definition ensure_fixture_proxy (url : string) : result unit string :=
  refused_host ["anthropic.com"; "openai.com"; "chatgpt.com"; "x.ai"; "grok.com"]
    (string_lowercase url).

Record TurnOutcome : Type := mkTurnOutcome {
  to_spec : RunSpec;
  to_events : list Event;
  to_completion : option string;
  to_credential_mode : string;
  to_computer : ComputerPlan;
}.

Inductive TurnError :=
| TProxy (text : string)
| TSandbox (text : string)
| TStore (text : string)
| TNotFound
| TConflict (text : string)
| TBadRequest (text : string).

Definition TURN_KEY : string := "gol.turn".

Definition is_turn (spec : RunSpec) : bool := bool_decide (is_Some (metadata spec !! TURN_KEY)).

Definition is_box (spec : RunSpec) : bool := bool_decide (placement spec = PBox).

Definition is_gateway (spec : RunSpec) : bool :=
  match wm_credential (work_model spec) with PlatformGateway => true | BringYourOwn _ => false end.

Definition gateway_call (spec : RunSpec) : GatewayCall :=
  mkGatewayCall (run_id spec) (input spec) (wm_model_name (work_model spec)) (placement spec).

Definition store_error (error : StoreError) : TurnError := TStore (MemoryOwner.message error).

Definition sandbox_error (error : SandboxError) : TurnError :=
  match error with Host text => TSandbox text end.

Definition is_user_message (p : EventPayload) : bool :=
  match p with UserMessage _ => true | _ => false end.

Definition check_open_turn (stored : StoredRun) : result unit TurnError :=
  if existsb (fun event => is_terminal (payload event)) (sr_events stored) then
    Err (TConflict "turn already completed")
  else
    match harness (fold (sr_spec stored) (sr_events stored)) with
    | Running _ _ false =>
        if existsb (fun event => is_user_message (payload event)) (sr_events stored) then Ok tt
        else Err (TConflict "user message is not recorded")
    | _ => Err (TConflict "turn is not open")
    end.

(** ** Turns *)

Section Turns.
Context `{UuidCrate} {R X : Type} `{SandboxHost X} `{GatewayPoster X}.

Local Open Scope rust_scope.

(** A call of the sandbox host or of the gateway: the rest of the process. *)
Definition external {A} (f : X -> A * X) : @M R X A :=
  fun w => let '(a, x) := f (sv_rest w) in (a, set_rest w x).

(** [end_failed]: a store that refuses is only reported. *)
Definition end_failed (spec : RunSpec) (class : FailureClass) (text : string) : @M R X unit :=
  let! failed := run_failed_event spec class text in
  let! _ := do_append_events (run_id spec) [failed] in
  ret tt.

Definition record_completion (id : RunId) (events : list Event) : @M R X (result unit TurnError) :=
  let!? append := do_append_events id events else store_error in
  ret (match append with
       | Appended => Ok tt
       | Terminal => Err (TConflict "turn already completed")
       | Missing => Err TNotFound
       | Moved => Err (TStore "the run log moved")
       end).

(** The gateway's answer, if the server calls it, or the turn's failure. *)
Definition turn_completion (spec : RunSpec) (name : string) : @M R X (result (option string) TurnError) :=
  if is_gateway spec then
    let! answer := external (complete (gateway_call spec)) in
    match answer with
    | Ok text => ret (Ok (Some text))
    | Err text =>
        let! removed :=
          if negb (is_box spec) then ret true
          else let! r := external (destroy name) in ret (is_ok r) in
        let! _ :=
          if removed : bool then end_failed spec FcDependency ("proxy: " +:+ text) else ret tt in
        ret (Err (TProxy text))
    end
  else ret (Ok None).

Definition finish_turn (spec : RunSpec) (events : list Event) : @M R X (result TurnOutcome TurnError) :=
  let name := box_container_name (run_id spec) in
  let! provisioned := if is_box spec then external (provision name) else ret (Ok tt) in
  match provisioned with
  | Err (Host text) =>
      let! gone := external (absent name) in
      let! _ :=
        match gone with
        | Ok true => end_failed spec FcEnvironment ("provision: " +:+ text)
        | _ => ret tt
        end in
      ret (Err (TSandbox text))
  | Ok _ =>
      let!? completion := turn_completion spec name in
      let mode := if is_gateway spec then "gateway" else "subscription" in
      let computer :=
        computer_for (placement spec) (run_id spec) (is_box spec && launches_docker (X := X)) in
      match completion with
      | Some text =>
          let!? _ :=
            if is_box spec then external (destroy name) else ret (Ok tt) else sandbox_error in
          let! appended := completion_events spec text in
          let!? _ := record_completion (run_id spec) appended in
          ret (Ok (mkTurnOutcome spec (events ++ appended) completion mode computer))
      | None => ret (Ok (mkTurnOutcome spec events completion mode computer))
      end
  end.

Definition open_turn (spec : RunSpec) : @M R X (result TurnOutcome TurnError) :=
  let! created := recorded spec ActorSystem RunCreated in
  let! started := recorded spec ActorSystem RunStarted in
  let! text := recorded spec ActorSystem (UserMessage (input spec)) in
  let events := [created; started; text] in
  let!? _ := do_put_run (mkStoredRun spec events) else store_error in
  finish_turn spec events.

(** A stored turn the desktop completes or fails itself. *)
Definition subscription_turn (id : RunId) (conflict : string) : @M R X (result StoredRun TurnError) :=
  let!? found := do_run id else store_error in
  ret (match found with
       | None => Err TNotFound
       | Some stored =>
           if is_gateway (sr_spec stored) then Err (TConflict conflict)
           else match check_open_turn stored with Ok _ => Ok stored | Err e => Err e end
       end).

Definition accept_subscription_completion (id : RunId) (text : string)
    : @M R X (result TurnOutcome TurnError) :=
  let text := trim text in
  if bool_decide (text = "") then ret (Err (TBadRequest "completion text is empty"))
  else
    let!? stored := subscription_turn id "gateway completions come from the server" in
    let spec := sr_spec stored in
    let name := box_container_name (run_id spec) in
    let!? gone :=
      if is_box spec then external (absent name) else ret (Ok false) else sandbox_error in
    if gone : bool then ret (Err (TSandbox "box sandbox is gone before the turn completed"))
    else
      let!? _ := if is_box spec then external (destroy name) else ret (Ok tt) else sandbox_error in
      let! appended := completion_events spec text in
      let!? _ := record_completion (run_id spec) appended in
      ret (Ok (mkTurnOutcome spec (sr_events stored ++ appended) (Some text) "subscription"
                 (computer_plan (placement spec) (run_id spec)))).

Definition fail_turn (id : RunId) (text : string) : @M R X (result TurnOutcome TurnError) :=
  let text := trim text in
  if bool_decide (text = "") then ret (Err (TBadRequest "failure message is empty"))
  else
    let!? stored := subscription_turn id "gateway turns end on the server" in
    let spec := sr_spec stored in
    let name := box_container_name (run_id spec) in
    let!? gone :=
      if is_box spec then external (absent name) else ret (Ok true) else sandbox_error in
    let!? _ := if gone : bool then ret (Ok tt) else external (destroy name) else sandbox_error in
    let! failed := run_failed_event spec FcDependency text in
    let!? _ := record_completion id [failed] in
    ret (Ok (mkTurnOutcome spec (sr_events stored ++ [failed]) None "subscription"
               (computer_plan (placement spec) (run_id spec)))).

End Turns.

(** ** No turn ends with its sandbox up *)

Section Clean.
Context `{UuidCrate} {R X : Type} `{SandboxLaws X} `{GatewayPoster X}.

Context (id : RunId) (name : string).

Definition gone (x : X) : Prop := name ∉ live x.

(** A step that does not end run [id]. *)
Definition not_ended (s s' : Shared R) : Prop := closed s' id -> closed s id.

(** What ends run [id] leaves no sandbox. *)
Definition clean {A} (m : @M R X A) : Prop :=
  forall w, (exists own, sv_steps (m w).2 = own ++ sv_steps w /\
       Forall (fun step => not_ended step.1 step.2) own) \/ gone (sv_rest (m w).2).

Lemma clean_quiet {A} (m : @M R X A) : only not_ended m -> clean m.
Proof. intros Hm w. by left. Qed.

Lemma clean_ret {A} (a : A) : clean (ret a).
Proof. apply clean_quiet, only_ret. Qed.

Lemma clean_bind {A B} (m : @M R X A) (k : A -> M B) :
  only not_ended m ->
  (forall w, gone (sv_rest (m w).2) /\ rest_inv gone (k (m w).1) \/ clean (k (m w).1)) ->
  clean (bind m k).
Proof.
  intros Hm Hk w. unfold bind. destruct (Hm w) as (own & Ho & Hf). specialize (Hk w).
  destruct (m w) as [a w1]. simpl in *. destruct Hk as [[Hg Hr]|Hc]; [right; by apply Hr|].
  destruct (Hc w1) as [(own' & Ho' & Hf')|Hg]; [left|by right].
  exists (own' ++ own). rewrite Ho', Ho, app_assoc. split; [done|]. by apply Forall_app.
Qed.

Lemma clean_ext {A} (m m' : @M R X A) : (forall w, m' w = m w) -> clean m -> clean m'.
Proof. intros E Hm w. rewrite E. apply Hm. Qed.

(** The same whatever [m] answers. *)
Lemma clean_then {A B} (m : @M R X A) (k : A -> M B) :
  only not_ended m -> (forall a, clean (k a)) -> clean (bind m k).
Proof. intros Hm Hk. apply clean_bind; [done|]. intros w. by right. Qed.

Lemma clean_try_with {A B E F} (f : E -> F) (m : @M R X (result A E)) (k : A -> M (result B F)) :
  only not_ended m -> (forall a, clean (k a)) -> clean (try_with f m k).
Proof. intros Hm Hk. apply clean_then; [done|]. intros [a|e]; [apply Hk|apply clean_ret]. Qed.

Lemma only_external {A} Φ (f : X -> A * X) : only Φ (external f : @M R X A).
Proof. intros w. exists []. unfold external. by destruct (f (sv_rest w)). Qed.

Lemma only_read_quiet {A} (f : Shared R -> A) : only not_ended (store_call (reads f) : @M R X _).
Proof. apply only_reads. by intros s Hc. Qed.

Lemma end_failed_rest I spec class text : rest_inv (X := X) I (end_failed (R := R) spec class text).
Proof.
  apply rest_bind; [apply rest_recorded|]. intros e. apply rest_bind; [|auto with rest].
  apply rest_bind; [apply rest_now|intros; apply rest_call].
Qed.

Lemma record_completion_rest I run events : rest_inv (X := X) I (record_completion (R := R) run events).
Proof.
  apply rest_try_with; [apply rest_bind; [apply rest_now|intros; apply rest_call]|auto with rest].
Qed.

Lemma completion_rest I spec text : rest_inv (X := X) I (completion_events (R := R) spec text).
Proof. apply rest_bind; [apply rest_recorded|]. intros e. apply rest_bind; [apply rest_recorded|auto with rest]. Qed.

(** A sandbox that was removed, or that a host confirms is not there. *)
Lemma destroyed (w : Server R X) :
  is_ok (external (destroy name) w).1 = true -> gone (sv_rest (external (destroy name) w).2).
Proof.
  unfold external. destruct (destroy name (sv_rest w)) as [[[]|e] x] eqn:E; [|done].
  intros _. by eapply destroy_gone.
Qed.

Lemma confirmed (w : Server R X) :
  (external (absent name) w).1 = Ok true -> gone (sv_rest (external (absent name) w).2).
Proof.
  unfold external. destruct (absent name (sv_rest w)) as [r x] eqn:E. simpl. intros ->.
  by eapply absent_gone.
Qed.

Lemma destroy_then_clean {B} (k : unit -> @M R X (result B TurnError)) :
  rest_inv gone (k tt) -> clean (try_with sandbox_error (external (destroy name)) k).
Proof.
  intros Hk. apply clean_bind; [apply only_external|]. intros w. pose proof (destroyed w) as Hd.
  destruct (external (destroy name) w) as [[[]|e] w1]; simpl in *; [left; auto|].
  right. apply clean_ret.
Qed.

End Clean.

Section Safety.
Context `{UuidCrate} {R X : Type} `{SandboxLaws X} `{GatewayPoster X}.
Lemma clean_completion spec :
  is_box spec = true ->
  forall k : option string -> @M R X (result TurnOutcome TurnError),
  (forall text, clean (run_id spec) (box_container_name (run_id spec)) (k (Some text))) ->
  clean (run_id spec) (box_container_name (run_id spec)) (k None) ->
  clean (run_id spec) (box_container_name (run_id spec))
    (try (turn_completion spec (box_container_name (run_id spec))) k).
Proof.
  intros Hb k Hsome Hnone. unfold turn_completion. rewrite Hb. simpl.
  destruct (is_gateway spec); [|exact Hnone].
  assert (forall e, clean (run_id spec) (box_container_name (run_id spec))
    (ret (Err e) : @M R X (result TurnOutcome TurnError))) as Herr by (intros e; apply clean_ret).
  eapply clean_ext; [intros w; apply bind_assoc|].
  apply clean_then; [apply only_external|]. intros [text|text].
  { eapply clean_ext; [|apply (Hsome text)]. done. }
  eapply clean_ext; [intros w; etrans; [apply bind_assoc|apply bind_assoc]|].
  apply clean_bind; [apply only_external|]. intros w.
  pose proof (destroyed (box_container_name (run_id spec)) w) as Hd.
  destruct (external (destroy _) w) as [[[]|e] w1]; simpl in *.
  - left. split; [by apply Hd|]. intros w2 Hg.
    pose proof (end_failed_rest (gone (box_container_name (run_id spec))) spec FcDependency
      ("proxy: " +:+ text) w2 Hg) as Hr.
    unfold bind at 1 2 3. simpl. by destruct (end_failed _ _ _ w2).
  - right. apply (Herr (TProxy text)).
Qed.

Lemma clean_finish spec events :
  is_box spec = true ->
  clean (run_id spec) (box_container_name (run_id spec)) (finish_turn spec events : @M R X _).
Proof.
  intros Hb. set (id := run_id spec). set (name := box_container_name id).
  unfold finish_turn. rewrite Hb. cbv zeta. fold id name.
  apply clean_then; [apply only_external|]. intros [[]|[text]].
  - apply clean_completion; [done| |apply clean_ret]. intros text. simpl.
    apply destroy_then_clean. apply rest_bind; [apply completion_rest|]. intros appended.
    apply rest_try_with; [apply record_completion_rest|auto with rest].
  - apply clean_bind; [apply only_external|]. intros w. pose proof (confirmed name w) as Hc.
    destruct (external (absent name) w) as [[[]|e] w1]; simpl in *.
    + left. split; [by apply Hc|]. apply rest_bind; [apply end_failed_rest|auto with rest].
    + right. apply clean_then; [apply only_ret|]. intros []. apply clean_ret.
    + right. apply clean_then; [apply only_ret|]. intros []. apply clean_ret.
Qed.

(** The rest of a subscription turn, once its stored run is known. *)
Lemma clean_subscription {A} id conflict (k : StoredRun -> @M R X (result A TurnError)) stored w :
  (do_run id w).1 = Ok (Some stored) ->
  (forall name, clean id name (k stored) ->
   (exists own, sv_steps (try (subscription_turn id conflict) k w).2 = own ++ sv_steps w /\
      Forall (fun step => not_ended id step.1 step.2) own) \/
   gone name (sv_rest (try (subscription_turn id conflict) k w).2)).
Proof.
  intros Hrun name Hk. pose proof (only_read_quiet id (fun s : Shared R => stored_run s id) w) as Hq.
  unfold subscription_turn, try, try_with, bind. fold (do_run (R := R) (X := X) id) in Hq.
  destruct (do_run id w) as [r w1]. simpl in *. subst r. destruct Hq as (own & Ho & Hf).
  destruct (is_gateway (sr_spec stored)); [left; by exists own|].
  destruct (check_open_turn stored); [|left; by exists own]. simpl.
  destruct (Hk w1) as [(own' & Ho' & Hf')|Hg]; [left|by right].
  exists (own' ++ own). rewrite Ho', Ho, app_assoc. split; [done|]. by apply Forall_app.
Qed.

(** No turn ends while its sandbox is up, on a host whose other users leave
    that sandbox alone: whatever the gateway answers, whichever call of the
    store or of the host fails, and whatever the other processes do to the
    store and the queue, finishing a Box turn, taking its completion from the desktop
    and failing it either leave the run as open as it was, or end with its
    sandbox gone from the host. *)
Theorem turn_ends_without_its_sandbox (w : Server R X) spec events id text stored :
  is_box spec = true ->
  (do_run id w).1 = Ok (Some stored) -> run_id (sr_spec stored) = id -> is_box (sr_spec stored) = true ->
  let ends_clean {A} run (r : A * Server R X) :=
    (exists own, sv_steps r.2 = own ++ sv_steps w /\
       Forall (fun step => closed step.2 run -> closed step.1 run) own) \/
    box_container_name run ∉ live (sv_rest r.2) in
  ends_clean (run_id spec) (finish_turn spec events w) /\
  ends_clean id (accept_subscription_completion id text w) /\
  ends_clean id (fail_turn id text w).
Proof.
  intros Hb Hrun Hid Hbox ends_clean. unfold ends_clean. split_and!.
  - by apply (clean_finish spec events).
  - unfold accept_subscription_completion. case_bool_decide; [left; by exists []|].
    apply (clean_subscription id _ _ stored w Hrun). cbv beta zeta. rewrite Hbox, Hid.
    apply clean_try_with; [apply only_external|]. intros [|]; [apply clean_ret|].
    apply destroy_then_clean. apply rest_bind; [apply completion_rest|]. intros appended.
    apply rest_try_with; [apply record_completion_rest|auto with rest].
  - unfold fail_turn. case_bool_decide; [left; by exists []|].
    apply (clean_subscription id _ _ stored w Hrun). cbv beta zeta. rewrite Hbox, Hid.
    set (name := box_container_name id).
    assert (rest_inv (gone name) (let! failed := run_failed_event (sr_spec stored) FcDependency (trim text) in
      let!? _ := record_completion id [failed] in
      ret (Ok (mkTurnOutcome (sr_spec stored) (sr_events stored ++ [failed]) None "subscription"
                 (computer_plan (placement (sr_spec stored)) id))) : @M R X _)%rust) as Hend.
    { apply rest_bind; [apply rest_recorded|]. intros e.
      apply rest_try_with; [apply record_completion_rest|auto with rest]. }
    apply clean_bind; [apply only_external|]. intros w1. pose proof (confirmed name w1) as Hc.
    destruct (external (absent name) w1) as [[[]|e] w2]; simpl in *.
    + left. split; [by apply Hc|]. apply rest_try_with; [auto with rest|]. intros []. exact Hend.
    + right. apply destroy_then_clean. exact Hend.
    + right. apply clean_ret.
Qed.

End Safety.

(** ** What the turns keep *)

Section Proofs.
Context `{UuidCrate} {R X : Type} `{Redis R} `{!RedisLaws R} (q : RunQueue) (Hq : keys_ok q).
Context `{SandboxHost X} `{GatewayPoster X}.
Context (G : Shared R -> Shared R -> Prop) `{!Discipline q G}.

Lemma triple_external {A} P (f : X -> A * X) : triple q G P (external f) (fun _ => P).
Proof.
  intros w _ _ HP. unfold external. destruct (f (sv_rest w)) as [a x]. split; [|done].
  split_and!; [done|reflexivity|by exists []].
Qed.

Lemma triple_end_failed P spec class text :
  stable q G P -> triple (X := X) q G P (end_failed spec class text) (fun _ => P).
Proof.
  intros HP. eapply (triple_bind q G); [apply (triple_draws q G), draws_recorded|]. intros e.
  apply (triple_pure q G). intros [He _].
  eapply (triple_bind q G).
  - apply (triple_ending q G P); [done|]. unfold has_terminal. simpl. by rewrite He.
  - intros r. apply (triple_done q G). by intros s _ [? _].
Qed.

Lemma draws_completion spec text :
  draws (completion_events spec text : @M R X _)
    (fun es => payload <$> es = [ModelResponded (mkModelMessage RoleAssistant text) None; RunCompleted text]).
Proof.
  eapply draws_bind; [apply draws_recorded|]. intros e1 [P1 _].
  eapply draws_bind; [apply draws_recorded|]. intros e2 [P2 _]. apply draws_ret.
  simpl. by rewrite ?P1, ?P2.
Qed.

(** What a turn's end leaves: it ended, or it had, or it is not stored. *)
Definition turn_settled {A} (P : Shared R -> Prop) (ended : Prop) (id : RunId) (r : result A TurnError) (s : Shared R) : Prop :=
  match r with
  | Ok _ => ended -> closed s id
  | Err (TConflict _) => closed s id
  | Err TNotFound => exists s0, P s0 /\ stored_run s0 id = None
  | Err _ => True
  end.

Lemma triple_record_completion P id es :
  stable q G P -> has_terminal es = true ->
  triple (X := X) q G P (record_completion id es) (fun r s => P s /\ turn_settled P True id r s).
Proof.
  intros HP Ht. eapply (triple_try_with q G); [by apply (triple_ending q G)| |by intros e s [? _]].
  intros append. apply (triple_done q G). intros s _ [Hp He]. split; [done|]. destruct append; simpl; auto.
Qed.

Lemma completion_ends text es :
  payload <$> es = [ModelResponded (mkModelMessage RoleAssistant text) None; RunCompleted text] ->
  has_terminal es = true.
Proof.
  destruct es as [|e1 [|e2 []]]; intros E; try discriminate E. injection E as P1 P2.
  unfold has_terminal. simpl. by rewrite ?P1, ?P2.
Qed.

Lemma triple_complete_turn P spec text (k : list Event -> TurnOutcome) :
  stable q G P ->
  triple (X := X) q G P
    (let! appended := completion_events spec text in
     let!? _ := record_completion (run_id spec) appended in ret (Ok (k appended)))%rust
    (fun r s => P s /\ turn_settled P True (run_id spec) r s).
Proof.
  intros HP. eapply (triple_bind q G); [apply (triple_draws q G), draws_completion|]. intros es.
  apply (triple_pure q G). intros Ht%completion_ends.
  eapply (triple_try q G); [by apply triple_record_completion| |by intros e s].
  intros []. apply (triple_done q G). by intros s _ [? ?].
Qed.

Lemma triple_turn_completion P spec name :
  stable q G P ->
  triple (X := X) q G P (turn_completion spec name)
    (fun r s => P s /\ match r with
       | Ok completion => is_Some completion <-> is_gateway spec = true
       | Err e => exists text, e = TProxy text
       end).
Proof.
  intros HP. unfold turn_completion. destruct (is_gateway spec).
  2: { apply (triple_done q G). intros s _ Hp. split; [done|]. by split; [intros [? [=]]|]. }
  eapply (triple_bind q G); [apply triple_external|]. intros [text|text].
  { apply (triple_done q G). intros s _ Hp. split; [done|]. by split; [|eexists]. }
  eapply (triple_bind q G) with (Q := fun _ => P).
  - destruct (negb (is_box spec)); [by apply (triple_done q G)|].
    eapply (triple_bind q G); [apply triple_external|]. intros r. by apply (triple_done q G).
  - intros removed. eapply (triple_bind q G) with (Q := fun _ => P).
    + destruct removed; [by apply triple_end_failed|by apply (triple_done q G)].
    + intros []. apply (triple_done q G). intros s _ Hp. split; [done|]. by eexists.
Qed.

Lemma triple_finish_turn P spec events :
  stable q G P ->
  triple (X := X) q G P (finish_turn spec events)
    (fun r s => P s /\ turn_settled P (is_gateway spec = true) (run_id spec) r s).
Proof.
  intros HP. unfold finish_turn. eapply (triple_bind q G) with (Q := fun _ => P).
  { destruct (is_box spec); [apply triple_external|by apply (triple_done q G)]. }
  intros [[]|[text]].
  - eapply (triple_try q G); [by apply triple_turn_completion| |].
    2: { intros e s [Hp [text ->]]. done. }
    intros [text|].
    2: { apply (triple_done q G). intros s _ [Hp Hg]. split; [done|]. intros Hgw. by apply Hg in Hgw as []. }
    apply (triple_pre q G P); [|by intros s _ []].
    eapply (triple_try_with q G) with (Q := fun _ => P).
    + destruct (is_box spec); [apply triple_external|by apply (triple_done q G)].
    + intros []. eapply (triple_post q G); [by apply triple_complete_turn|].
      intros [|[]] s _ [? Hs]; try done. split; [done|]. intros _. by apply Hs.
    + intros [text'] s Hp. done.
  - eapply (triple_bind q G); [apply triple_external|]. intros gone.
    eapply (triple_bind q G) with (Q := fun _ => P).
    + destruct gone as [[]|]; [by apply triple_end_failed|by apply (triple_done q G)..].
    + intros []. by apply (triple_done q G).
Qed.

Lemma triple_subscription id conflict :
  triple (X := X) q G (fun _ => True) (subscription_turn id conflict) (fun _ _ => True).
Proof.
  eapply (triple_try_with q G); [apply (triple_read q G); by intros s s'| |done].
  intros found. by apply (triple_done q G).
Qed.

Lemma triple_accept id text :
  triple (X := X) q G (fun _ => True) (accept_subscription_completion id text) (fun _ _ => True).
Proof.
  unfold accept_subscription_completion. case_bool_decide; [by apply (triple_done q G)|].
  eapply (triple_try q G); [apply triple_subscription| |done]. intros stored. cbv zeta.
  eapply (triple_try_with q G) with (Q := fun _ _ => True); [| |done].
  { destruct (is_box _); [apply triple_external|by apply (triple_done q G)]. }
  intros [|]; [by apply (triple_done q G)|].
  eapply (triple_try_with q G) with (Q := fun _ _ => True); [| |done].
  { destruct (is_box _); [apply triple_external|by apply (triple_done q G)]. }
  intros []. eapply (triple_post q G); [by apply (triple_complete_turn (fun _ => True))|done].
Qed.

Lemma triple_fail_turn id text :
  triple (X := X) q G (fun _ => True) (fail_turn id text) (fun _ _ => True).
Proof.
  unfold fail_turn. case_bool_decide; [by apply (triple_done q G)|].
  eapply (triple_try q G); [apply triple_subscription| |done]. intros stored. cbv zeta.
  eapply (triple_try_with q G) with (Q := fun _ _ => True); [| |done].
  { destruct (is_box _); [apply triple_external|by apply (triple_done q G)]. }
  intros gone. eapply (triple_try_with q G) with (Q := fun _ _ => True); [| |done].
  { destruct gone; [by apply (triple_done q G)|apply triple_external]. }
  intros []. eapply (triple_bind q G); [apply (triple_draws q G), draws_recorded|]. intros e.
  apply (triple_pure q G). intros [He _]. eapply (triple_try q G); [| |done].
  - apply (triple_record_completion (fun _ => True)); [by intros s s'|unfold has_terminal].
    simpl. by rewrite He.
  - intros []. by apply (triple_done q G).
Qed.

Lemma triple_open_turn spec :
  triple (X := X) q G (fun _ => True) (open_turn spec) (fun _ _ => True).
Proof.
  unfold open_turn.
  eapply (triple_bind q G); [apply (triple_draws q G), draws_recorded|]. intros e1.
  apply (triple_pure q G). intros [P1 _].
  eapply (triple_bind q G); [apply (triple_draws q G), draws_recorded|]. intros e2.
  apply (triple_pure q G). intros [P2 _].
  eapply (triple_bind q G); [apply (triple_draws q G), draws_recorded|]. intros e3.
  apply (triple_pure q G). intros [P3 _]. cbv zeta.
  eapply (triple_try_with q G).
  - apply (triple_put_run q G (fun _ => True)); [by intros s s'|].
    intros s _ _ _ _ Hw. exfalso. unfold was_queued in Hw. simpl in Hw. by rewrite P1, P2, P3 in Hw.
  - intros put. eapply (triple_conseq q G); [by apply (triple_finish_turn (fun _ => True))|done|done].
  - done.
Qed.

(** Turns strand nothing: opening a turn, taking its completion and failing
    it, among any other processes that follow the rules, with any call failing
    and the process dying at any point, keep the rules at every step. *)
Theorem turns_strand_nothing (w : Server R X) spec id text :
  respectful q G w -> Good q (sv_shared w) ->
  keeps q G w (open_turn spec w).2 /\
  keeps q G w (accept_subscription_completion id text w).2 /\
  keeps q G w (fail_turn id text w).2.
Proof.
  intros Hr Hg. split_and!.
  - by eapply triple_keeps; [apply _|apply triple_open_turn|..].
  - by eapply triple_keeps; [apply _|apply triple_accept|..].
  - by eapply triple_keeps; [apply _|apply triple_fail_turn|..].
Qed.

End Proofs.

(** ** A turn that is not open *)

Lemma check_open_turn_ok stored :
  check_open_turn stored = Ok tt <->
    has_terminal (sr_events stored) = false /\
    (exists step attempt, harness (fold (sr_spec stored) (sr_events stored)) = Running step attempt false) /\
    exists event, event ∈ sr_events stored /\ is_user_message (payload event) = true.
Proof.
  unfold check_open_turn. change (existsb _ (sr_events stored)) with (has_terminal (sr_events stored)) at 1.
  destruct (has_terminal _); [split; [done|by intros []]|].
  destruct (harness _) as [|step attempt []| | | | |];
    try (split; [done|by intros (_ & (? & ? & ?) & _)]).
  destruct (existsb _ _) eqn:E.
  - split; [|done]. intros _. split_and!; [done|by eexists _, _|].
    apply existsb_exists in E as (event & He & Hu). exists event. by rewrite list_elem_of_In.
  - split; [done|]. intros (_ & _ & event & He & Hu). rewrite list_elem_of_In in He.
    assert (existsb (fun event => is_user_message (payload event)) (sr_events stored) = true); [|congruence].
    apply existsb_exists. by exists event.
Qed.

(** Why a subscription turn is not the desktop's to end. *)
Definition refusal (conflict : string) (found : result (option StoredRun) StoreError) : option TurnError :=
  match found with
  | Err error => Some (store_error error)
  | Ok None => Some TNotFound
  | Ok (Some stored) =>
      if is_gateway (sr_spec stored) then Some (TConflict conflict)
      else match check_open_turn stored with Ok _ => None | Err error => Some error end
  end.

(** A turn that is not the desktop's to end is left as it is: a completion
    or a failure without a text, of a run that is not stored or not read, of a
    gateway turn, of a turn that has ended, waits for nothing or holds no user
    message, is refused with its own error, and neither the store nor the
    sandbox host is touched; and a turn is open exactly when it has not ended,
    runs unanswered, and its user's message is recorded. *)
Theorem closed_turn_is_refused `{UuidCrate} {R X} `{SandboxHost X} (w : Server R X) id text :
  (trim text = "" ->
     accept_subscription_completion id text w = (Err (TBadRequest "completion text is empty"), w) /\
     fail_turn id text w = (Err (TBadRequest "failure message is empty"), w)) /\
  (trim text <> "" -> forall error,
     (refusal "gateway completions come from the server" (do_run id w).1 = Some error ->
        accept_subscription_completion id text w = (Err error, (do_run id w).2)) /\
     (refusal "gateway turns end on the server" (do_run id w).1 = Some error ->
        fail_turn id text w = (Err error, (do_run id w).2))) /\
  (forall stored, check_open_turn stored = Ok tt <->
    has_terminal (sr_events stored) = false /\
    (exists step attempt, harness (fold (sr_spec stored) (sr_events stored)) = Running step attempt false) /\
    exists event, event ∈ sr_events stored /\ is_user_message (payload event) = true).
Proof.
  split_and!.
  - intros E. unfold accept_subscription_completion, fail_turn. by rewrite E.
  - intros Hne error. unfold accept_subscription_completion, fail_turn. rewrite bool_decide_false by done.
    unfold subscription_turn, try, try_with, bind.
    destruct (do_run id w) as [[[stored|]|e] w1]; simpl; [|by split; intros [= <-]..].
    destruct (is_gateway _); [by split; intros [= <-]|].
    destruct (check_open_turn stored) as [[]|e]; [done|by split; intros [= <-]].
  - apply check_open_turn_ok.
Qed.

(** ** Concrete turns *)

#[local] Instance demo_uuids : UuidCrate := hyphenated.

(** A gateway that answers, beside a host in memory. *)
#[local] Instance demo_gateway : GatewayPoster MemorySandbox :=
  {| complete _ x := (Ok "the answer", x) |}.

Definition no_sandboxes : MemorySandbox := mkMemorySandbox ∅ [] ∅.

Definition box_spec (credential : CredentialSource) : RunSpec :=
  mkRunSpec (run_id sample_spec) (owner sample_spec) (agent_id sample_spec) "1" "hello" PBox
    (mkWorkModel OpenAI "gpt-test" credential) [] (limits sample_spec) ∅ Lineage_default.

Definition demo_gateway_turn := open_turn (box_spec PlatformGateway) (demo_server no_sandboxes).

Definition demo_desktop_turn := open_turn (box_spec (BringYourOwn "key")) (demo_server no_sandboxes).

Example turns_run :
  is_ok demo_gateway_turn.1 = true /\ elements (ms_live (sv_rest demo_gateway_turn.2)) = [] /\
  is_ok demo_desktop_turn.1 = true /\
  elements (ms_live (sv_rest demo_desktop_turn.2)) = [box_container_name (id_of 1)] /\
  is_ok (accept_subscription_completion (id_of 1) " hi " demo_desktop_turn.2).1 = true /\
  is_ok (accept_subscription_completion (id_of 1) " hi " demo_gateway_turn.2).1 = false.
Proof. vm_compute. split_and!; reflexivity. Qed.

Lemma turn_ends_without_its_sandbox_witness :
  exists stored, (do_run (id_of 1) demo_desktop_turn.2).1 = Ok (Some stored) /\
    ((exists own, sv_steps (fail_turn (id_of 1) "no" demo_desktop_turn.2).2 = own ++ sv_steps demo_desktop_turn.2 /\
       Forall (fun step => closed step.2 (id_of 1) -> closed step.1 (id_of 1)) own) \/
     box_container_name (id_of 1) ∉ live (sv_rest (fail_turn (id_of 1) "no" demo_desktop_turn.2).2)).
Proof.
  destruct (stored_run (sv_shared demo_desktop_turn.2) (id_of 1)) as [stored|] eqn:E.
  - exists stored.
    assert ((do_run (id_of 1) demo_desktop_turn.2).1 = Ok (Some stored)) as Hd.
    { rewrite <-E. vm_compute. reflexivity. }
    split; [exact Hd|].
    assert (sr_spec stored = box_spec (BringYourOwn "key")) as Hs.
    { assert (Some (sr_spec stored) = Some (box_spec (BringYourOwn "key"))) as [= Hs]; [|exact Hs].
      change (Some (sr_spec stored)) with (sr_spec <$> Some stored). rewrite <-E. vm_compute. reflexivity. }
    refine (proj2 (proj2 (turn_ends_without_its_sandbox demo_desktop_turn.2
      (box_spec PlatformGateway) [] (id_of 1) "no" stored _ Hd _ _))); rewrite ?Hs; reflexivity.
  - exfalso. apply (f_equal (fun o => bool_decide (is_Some o))) in E. vm_compute in E. discriminate E.
Defined.

Lemma turns_strand_nothing_witness :
  keeps Queue.open (prompt Queue.open) (demo_server no_sandboxes) demo_gateway_turn.2.
Proof.
  refine (proj1 (turns_strand_nothing Queue.open (prompt Queue.open) (demo_server no_sandboxes)
    (box_spec PlatformGateway) (id_of 1) "" _ _)).
  - apply calm_respectful. reflexivity.
  - apply demo_good.
Defined.

Lemma closed_turn_is_refused_witness :
  accept_subscription_completion (id_of 1) "  " demo_desktop_turn.2 =
    (Err (TBadRequest "completion text is empty"), demo_desktop_turn.2).
Proof.
  apply (proj1 (closed_turn_is_refused demo_desktop_turn.2 (id_of 1) "  ")). vm_compute. reflexivity.
Defined.
