(* ===== verification/DriverWorld.v ===== *)
(** * What a driver does to its world

    A driver touches the world only through what it calls.  A relation that
    each of its collaborators keeps is kept by the whole run; the loop's
    boundary is the only other thing that can change the world, and an
    invariant of the two holds where the loop returns.  A driver that delivers
    no message and asks no user never waits for an answer.  These are the
    lemmas a host of the driver builds on. *)

From S2P Require Import Prelude Protocol Uuids MemoryOwner Reduce Authorizer Driver DriverTurns.
From S2P Require Import DriverProofs.

Section World.
Context `{UuidCrate} {W : Type} `{World W} `{Memory W}.
Context (Rel : W -> W -> Prop) `{!PreOrder Rel}.
Implicit Types (d : Driver W) (w : W).

Abbreviation log d := (payload <$> d_events d).

(** The clock, the ids and the memory. *)
Hypothesis Hstamp : forall w, Rel w (w_stamp w).2.
Hypothesis Hid : forall w, Rel w (w_message_id w).2.
Hypothesis Hwrite : forall w owner key value, Rel w (mem_write w owner key value).2.

(** The spawner and the deliverer a driver is configured with. *)
Definition collaborators_ok d : Prop :=
  (forall spawner request w, d_spawner d = Some spawner -> Rel w (spawner request w).2) /\
  (forall deliverer request w, d_deliverer d = Some deliverer -> Rel w (deliverer request w).2).

Lemma appended_ok d d' ps : appended d d' ps -> collaborators_ok d -> collaborators_ok d'.
Proof. intros (new & -> & _). done. Qed.

Lemma push_world d w p a : Rel w (push d w p a).2.
Proof. unfold push. specialize (Hstamp w). by destruct (w_stamp w) as [[t e] w1]. Qed.

(** A push as the last step. *)
Lemma then_push d w w1 p a : Rel w w1 -> Rel w (push d w1 p a).2.
Proof. intros ->. apply push_world. Qed.

Lemma advance_world d w : Rel w (advance_answered_step d w).2.
Proof.
  unfold advance_answered_step. destruct (harness (state d)) as [|? ? []| | | | |]; try done.
  destruct (_ <=? _)%N; [done|]. apply push_world.
Qed.

Lemma authorize_world d w h effect tools : Rel w (authorize_decided d w h effect tools).2.2.
Proof.
  unfold authorize_decided. destruct (authorize _ _ _); try apply push_world.
  destruct (negb _); [apply push_world|].
  pose proof (push_world d w (EffectAuthorized effect) ActorPolicy) as Hp.
  destruct (push d w (EffectAuthorized effect) ActorPolicy) as [d1 w1]. simpl in Hp.
  assert (Rel w (match effect, harness (state d1) with
    | EComplete outcome, Completed _ => push d1 w1 (RunCompleted outcome) ActorSystem
    | _, _ => (d1, w1)
    end).2) as Hq.
  { destruct effect; try done. destruct (harness (state d1)); try done. by apply then_push. }
  by destruct (match effect, harness (state d1) with
    | EComplete outcome, Completed _ => push d1 w1 (RunCompleted outcome) ActorSystem
    | _, _ => (d1, w1)
    end).
Qed.

Lemma delegate_world d w agent inp : collaborators_ok d -> Rel w (delegate d w agent inp).2.
Proof.
  intros [Hs _]. unfold delegate. destruct (carve d (state d)) as [given|reason].
  - destruct (d_spawner d) as [spawner|] eqn:E; [|apply push_world].
    specialize (Hs spawner (mkChildRequest (d_spec d)
      (match harness (state d) with Running step _ _ => step | _ => 0%N end) agent inp given) w eq_refl).
    destruct (spawner _ w) as [[child|reason] w1]; by apply then_push.
  - apply push_world.
Qed.

Lemma ask_user_world d w prompt : Rel w (ask_user d w prompt).2.
Proof.
  unfold ask_user. destruct (d_user_questions d); [|apply push_world].
  specialize (Hid w). destruct (w_message_id w). by apply then_push.
Qed.

Lemma send_message_world d w to body er rt timeout :
  collaborators_ok d -> Rel w (send_message d w to body er rt timeout).2.
Proof.
  intros [_ Hd]. unfold send_message.
  set (budget := if negb (is_running _) then _ else _).
  set (sent := match budget with Err _ => _ | Ok _ => _ end).
  assert (Rel w sent.2) as Hs.
  { unfold sent. destruct budget as [l|]; [|done].
    destruct (d_deliverer d) as [deliverer|] eqn:E; [|done]. by apply Hd. }
  destruct sent as [[s|reason] w1]; [|by apply then_push].
  destruct (sm_task s) as [task|]; [|by apply then_push].
  pose proof (push_world d w1 (ChildStarted (sc_run_id task) to (sc_limits task)) ActorSystem) as Hp.
  destruct (push d w1 _ _) as [d2 w2]. apply then_push. by etrans.
Qed.

(** A driver rebuilt from a log has no collaborators yet. *)
Definition bare d : Prop := d_spawner d = None /\ d_deliverer d = None.

Lemma resume_world spec es w :
  Rel w (resume spec es w).2 /\
  match (resume spec es w).1 with Ok d => bare d | Err _ => True end.
Proof.
  assert (forall d p a, bare d ->
    Rel w (let '(d1, w1) := push d w p a in (Ok (E := ResumeError) d1, w1)).2 /\
    match (let '(d1, w1) := push d w p a in (Ok (E := ResumeError) d1, w1)).1 with
    | Ok d1 => bare d1 | Err _ => True end) as Hpush.
  { intros d p a Hb. pose proof (push_world d w p a) as Hw. destruct (push d w p a) as [d1 w1] eqn:E.
    apply push_appended in E as (new & -> & _). done. }
  unfold resume. destruct (existsb _ es); [done|].
  destruct (negb _); [destruct (dispatch _); try done; by apply Hpush|].
  destruct (harness (state _)); try (by apply Hpush); try done;
    simpl; destruct (payload <$> last es) as [[]|]; done.
Qed.

Section Calls.
Context (tools : list (Tool W)) (models : ModelCompletion W).
Hypothesis Htools : forall tool input w, tool ∈ tools -> Rel w (call tool input w).2.
Hypothesis Hmodels : forall request w, Rel w (models request w).2.

Lemma perform_one_world d w effect :
  collaborators_ok d -> Rel w (perform_one d w effect tools models).2.2.
Proof.
  intros Hd. destruct effect; simpl; try reflexivity.
  - specialize (Hmodels (mkModelRequest (wm_provider (work_model (d_spec d)))
      (wm_model_name (work_model (d_spec d))) prompt) w).
    destruct (models _ w) as [[[text usage]|text] w1]; by apply then_push.
  - destruct (harness (state d)); simpl; try reflexivity. destruct (_ || _); simpl; [reflexivity|].
    destruct (List.find _ tools) as [tool|] eqn:E; [|apply push_world].
    apply List.find_some in E as [Hin _]. apply list_elem_of_In in Hin.
    specialize (Htools tool input w Hin). destruct (call tool input w) as [[output|text] w1];
      [|by apply then_push].
    unfold deliver_tool_result. destruct (harness (state d)); try exact Htools.
    destruct (_ || _); [exact Htools|]. by apply then_push.
  - destruct (memory_key d scope); [|apply push_world].
    destruct (mem_read _ _ _); apply push_world.
  - destruct (memory_key d scope) as [own|]; [|apply push_world].
    specialize (Hwrite w own key value). destruct (mem_write w own key value) as [[|] w1];
      by apply then_push.
  - by apply delegate_world.
  - by apply send_message_world.
  - apply ask_user_world.
Qed.

(** At most one effect is pending when effects are performed. *)
Lemma perform_single_world d w effects :
  collaborators_ok d -> (length effects <= 1)%nat -> Rel w (perform d w effects tools models).2.
Proof.
  intros Hd Hl. destruct effects as [|effect [|]]; simpl in Hl; [reflexivity| |lia]. simpl.
  pose proof (perform_one_world d w effect Hd) as Hp.
  by destruct (perform_one d w effect tools models) as [[] [d1 w1]].
Qed.

(** The rest of the step the log was cut in. *)
Lemma run_first_world d w :
  first_ok d -> collaborators_ok d -> Rel w (run_first tools models d w).2.
Proof.
  intros Hf Hd. unfold run_first.
  assert (forall d1 w1 effects, Rel w w1 -> collaborators_ok d1 -> (length effects <= 1)%nat ->
    Rel w (let '(d2, w2) := perform d1 w1 effects tools models in advance_answered_step d2 w2).2) as Hrest.
  { intros d1 w1 effects Hw Hd1 Hl. pose proof (perform_single_world d1 w1 effects Hd1 Hl) as Hp.
    destruct (perform d1 w1 effects tools models) as [d2 w2]. simpl in *.
    etrans; [exact Hw|]. etrans; [exact Hp|]. apply advance_world. }
  destruct Hf as [Hp Hu Hr|before eff Hu Hr Hl Ha|before eff Hp Hu Hr Hl Ha Hap Hc].
  - rewrite Hp, Hu. destruct (d_resumed d); [|reflexivity]. apply Hrest; [reflexivity|exact Hd|simpl; lia].
  - rewrite Hu, Hr. set (d0 := set_first d [] None false).
    pose proof (authorize_world d0 w (harness (state d)) eff (descriptor <$> tools)) as Hw.
    change (harness (state d)) with (harness (state d0)) in *.
    destruct (authorize_decided d0 w _ eff _) as [effs [d1 w1]] eqn:Ed. simpl in Hw.
    apply authorize_decided_settles in Ed as [(-> & ps & Ha1 & _)|(-> & Ha1 & _)];
      (apply Hrest; [exact Hw|by eapply appended_ok|simpl; lia]).
  - rewrite Hp, Hu, Hr. apply Hrest; [reflexivity|exact Hd|simpl; lia].
Qed.

Context (decider : Decider W).
Hypothesis Hdecider : forall view w, Rel w (decider view w).2.

Lemma decide_world d w : Rel w (driver_decide d w decider (descriptor <$> tools)).2.2.
Proof.
  unfold driver_decide, decide_with_skills. destruct (harness_is_terminal _); [reflexivity|].
  specialize (Hdecider (decision_view d (descriptor <$> tools) (d_skills d)) w).
  destruct (decider _ w) as [[effect|e] w1]; [|exact Hdecider]. simpl in Hdecider.
  destruct (over_budget _ _ _).
  { etrans; [exact Hdecider|]. apply push_world. }
  pose proof (push_world d w1 (EffectDecided effect) ActorAgent) as Hp.
  destruct (push d w1 _ _) as [d2 w2]. simpl in Hp.
  pose proof (authorize_world d2 w2 (harness (state d)) effect (descriptor <$> tools)) as Ha.
  destruct (authorize_decided _ _ _ _ _) as [effects [d3 w3]]. simpl in *. by do 2 (etrans; [done|]).
Qed.

(** ** The loop *)

Context (at_boundary : Driver W -> W -> Boundary * W).

(** What holds of the driver and its world at every boundary, and is kept by
    its own steps and by a boundary that goes on. *)
Context (P : Driver W -> W -> Prop).
Hypothesis Hsteps : forall d w ps d1 w1, P d w -> appended d d1 ps -> Rel w w1 -> P d1 w1.
Hypothesis Hgo : forall d w w1,
  P d w -> alive (d_spec d) (log d) -> at_boundary d w = (Continue, w1) -> P d w1.

(** How a run comes back: by itself, at a boundary that paused it, or
    cancelled at one. *)
Inductive returned (r : result unit DeciderError) d' w' : Prop :=
| returned_itself :
    P d' w' ->
    match r with
    | Ok _ => harness_is_terminal (harness (state d')) = true \/ ended (log d') = true \/
        exists st a m, harness (state d') = WaitingForMessage st a m
    | Err _ => alive (d_spec d') (log d') /\
        forall st a m, harness (state d') <> WaitingForMessage st a m
    end -> returned r d' w'
| returned_paused w0 :
    r = Ok tt -> P d' w0 -> alive (d_spec d') (log d') -> at_boundary d' w0 = (Pause, w') ->
    returned r d' w'
| returned_cancelled d0 w0 w1 :
    r = Ok tt -> P d0 w0 -> alive (d_spec d0) (log d0) -> at_boundary d0 w0 = (Cancel, w1) ->
    appended d0 d' [RunCancelled] -> Rel w1 w' -> returned r d' w'.

Lemma run_loop_returns fuel d w r d' w' :
  collaborators_ok d -> P d w ->
  run_loop decider tools models at_boundary fuel d w = Some (r, (d', w')) -> returned r d' w'.
Proof.
  revert d w; induction fuel as [|fuel IH]; intros d w Hd HP; simpl; [done|].
  destruct (harness_is_terminal (harness (state d)) || log_ended d) eqn:Ealive.
  { intros [= <- <- <-]. apply returned_itself; [done|]. bool_to_prop. rewrite log_ended_log in Ealive. tauto. }
  bool_to_prop. assert (alive (d_spec d) (log d)) as Halive
    by (unfold alive; by rewrite <-harness_folded, <-log_ended_log).
  destruct (at_boundary d w) as [[| |] w1] eqn:Eb.
  2: { intros [= <- Hp]. pose proof (push_world d w1 RunCancelled ActorSystem) as Hw.
       unfold cancel in Hp. rewrite Hp in Hw. apply push_appended in Hp. by eapply returned_cancelled. }
  2: { intros [= <- <- <-]. by eapply returned_paused. }
  pose proof (Hgo _ _ _ HP Halive Eb) as HP1.
  assert (forall k : option (result unit DeciderError * (Driver W * W)),
    match harness (state d) with
    | WaitingForMessage _ _ _ => Some (Ok tt, (d, w1))
    | _ => k end = Some (r, (d', w')) ->
    (exists st a m, harness (state d) = WaitingForMessage st a m /\ (Ok tt, (d, w1)) = (r, (d', w'))) \/
    ((forall st a m, harness (state d) <> WaitingForMessage st a m) /\ k = Some (r, (d', w')))) as Hwait.
  { intros k E. destruct (harness (state d)) eqn:Eh; try (by right). left. eexists _, _, _. split; [done|]. congruence. }
  intros [(st & a & m & Eh & [= <- <- <-])|[Hnw E]]%Hwait.
  { apply returned_itself; [done|]. right. right. by eexists _, _, _. }
  pose proof (decide_world d w1) as Hw2.
  destruct (driver_decide d w1 decider (descriptor <$> tools)) as [res [d1 w2]] eqn:Ed.
  apply driver_decide_turn in Ed; [|done]. simpl in Hw2. destruct res as [[|eff effs]|err].
  - destruct Ed as (ps & Ha & Hturn). assert (P d1 w2) as HP2 by (by eapply Hsteps).
    destruct (harness_is_terminal (harness (state d1))) eqn:Et.
    + injection E as <- <- <-. apply returned_itself; [done|]. by left.
    + eapply IH; [by eapply appended_ok|done|done].
  - destruct Ed as (eff' & [= -> ->] & Hb & Ha & Hal & Hap & Hc & Hr).
    assert (collaborators_ok d1) as Hd1 by (by eapply appended_ok).
    assert (Rel w2 (perform d1 w2 [eff'] tools models).2) as Hw3.
    { simpl. pose proof (perform_one_world d1 w2 eff' Hd1) as Hp.
      by destruct (perform_one d1 w2 eff' tools models) as [[] [d5 w5]]. }
    destruct (perform d1 w2 [eff'] tools models) as [d2 w3] eqn:Ep.
    pose proof (advance_world d2 w3) as Hw4.
    destruct (advance_answered_step d2 w3) as [d3 w4] eqn:Eadv. simpl in *.
    edestruct performed_turn as (ps & Hps & Hturn); [by eauto..|].
    eapply IH; [by eapply appended_ok| |exact E]. eapply Hsteps; [exact HP1|exact Hps|].
    by do 2 (etrans; [done|]).
  - injection E as <- <- <-. subst. apply returned_itself; [|done]. eapply Hsteps; [exact HP1|apply appended_refl|done].
Qed.

(** A driver resumed from a log kept the invariant when it comes back; and
    where it ended by itself, its log has ended, or it waits. *)
Lemma run_until_returned spec es d w fuel r d' w' :
  rebuilt spec es d -> collaborators_ok d ->
  P (set_first d [] None false) w ->
  run_until decider tools models at_boundary fuel d w = Some (r, (d', w')) ->
  returned r d' w' /\ agrees spec (log d') /\ d_spec d' = spec.
Proof.
  intros (Hs & Hf & new & He & _ & Hop) Hd HP Hr.
  pose proof (run_until_refines _ _ _ _ _ _ _ _ _ _ Hf Hr) as (ps0 & qs0 & Ha0 & Hrec & Hruns).
  pose proof (appended_log _ _ _ Ha0) as Hl. simpl in Hl.
  rewrite app_assoc in Hl. rewrite <-Hl in Hruns. rewrite Hs, He, fmap_app in Hrec, Hruns.
  unfold run_until in Hr. pose proof (run_first_world d w Hf Hd) as Hw.
  destruct (run_first tools models d w) as [d1 w1] eqn:E1.
  apply run_first_recovers in E1 as (ps' & Ha1 & _); [|done]. simpl in Hw. split_and!.
  - eapply run_loop_returns; [|exact (Hsteps _ _ _ _ _ HP Ha1 Hw)|exact Hr].
    eapply appended_ok; [exact Ha1|]. exact Hd.
  - eapply runs_agrees; [exact Hruns|]. apply agrees_app; [by apply opening_agrees|].
    by eapply recovery_ends_with.
  - by rewrite (appended_spec _ _ _ Ha0).
Qed.

End Calls.
End World.

(** ** Who cannot wait *)

(** The events a run waits for an answer after. *)
Definition asks (p : EventPayload) : bool :=
  match p with MessageSent _ _ expects_reply => expects_reply | UserAsked _ _ => true | _ => false end.

Lemma asked_waits spec es st a m :
  harness (fold spec es) = WaitingForMessage st a m -> existsb (fun e => asks (payload e)) es = true.
Proof.
  induction es as [|e es IH] using rev_ind; [done|].
  rewrite fold_harness_snoc, existsb_app, orb_true_iff. simpl. rewrite orb_false_r.
  set (h := harness (fold spec es)) in *. intros E.
  destruct (asks (payload e)) eqn:Ha; [by right|]. left. apply IH. revert E Ha.
  unfold reduce, on_authorized, answer_ask. destruct (harness_is_terminal h); [done|].
  destruct (payload e); simpl; try done; destruct h; simpl; try done;
    repeat (split_match; simpl in *; try done; try congruence).
Qed.

Section Quiet.
Context `{UuidCrate} {W : Type} `{World W} `{Memory W}.
Implicit Types (d : Driver W) (w : W).

(** A driver that delivers no message and asks no user, on a log without
    asks. *)
Record quiet d : Prop := mkQuiet {
  qu_deliverer : d_deliverer d = None;
  qu_questions : d_user_questions d = false;
  qu_log : existsb (fun e => asks (payload e)) (d_events d) = false;
}.

Lemma push_quiet d w p a : asks p = false -> quiet d -> quiet (push d w p a).1.
Proof.
  intros Hp [Hd Hq Hl]. unfold push. destruct (w_stamp w) as [[t e] w1]. split; [done|done|].
  simpl. by rewrite existsb_app, Hl; simpl; rewrite Hp.
Qed.

Lemma advance_quiet d w : quiet d -> quiet (advance_answered_step d w).1.
Proof.
  intros Hd. unfold advance_answered_step. destruct (harness (state d)) as [|? ? []| | | | |]; try done.
  destruct (_ <=? _)%N; [done|]. by apply push_quiet.
Qed.

Lemma authorize_quiet d w h effect tools : quiet d -> quiet (authorize_decided d w h effect tools).2.1.
Proof.
  intros Hd. unfold authorize_decided. destruct (authorize _ _ _); try by apply push_quiet.
  destruct (negb _); [by apply push_quiet|].
  pose proof (push_quiet d w (EffectAuthorized effect) ActorPolicy eq_refl Hd) as Hp.
  destruct (push d w (EffectAuthorized effect) ActorPolicy) as [d1 w1]. simpl in Hp.
  destruct effect; try exact Hp. destruct (harness (state d1)); try exact Hp.
  pose proof (push_quiet d1 w1 (RunCompleted outcome) ActorSystem eq_refl Hp) as Hq.
  by destruct (push d1 w1 _ _).
Qed.

Lemma perform_one_quiet d w effect tools models :
  quiet d -> quiet (perform_one d w effect tools models).2.1.
Proof.
  intros Hd. destruct effect; simpl; try done.
  - destruct (models _ w) as [[[text usage]|text] w1]; by apply push_quiet.
  - destruct (harness (state d)); simpl; try done. destruct (_ || _); [done|].
    destruct (List.find _ tools) as [tool|]; [|by apply push_quiet].
    destruct (call tool input w) as [[output|text] w1]; [|by apply push_quiet].
    unfold deliver_tool_result. destruct (harness (state d)); try done.
    destruct (_ || _); [done|]. by apply push_quiet.
  - destruct (memory_key d scope); [|by apply push_quiet].
    destruct (mem_read _ _ _); by apply push_quiet.
  - destruct (memory_key d scope) as [own|]; [|by apply push_quiet].
    destruct (mem_write w own key value) as [[|] w1]; by apply push_quiet.
  - unfold delegate. destruct (match carve _ _ with Ok _ => _ | Err _ => _ end) as [[child|reason] w1];
      by apply push_quiet.
  - unfold send_message. rewrite (qu_deliverer d Hd). rewrite (bool_decide_false (is_Some None)) by (by intros []).
    destruct (negb _); simpl; by apply push_quiet.
  - unfold ask_user. rewrite (qu_questions d Hd). by apply push_quiet.
Qed.

Lemma perform_quiet effects d w tools models : quiet d -> quiet (perform d w effects tools models).1.
Proof.
  revert d w; induction effects as [|effect effects IH]; intros d w Hd; simpl; [done|].
  pose proof (perform_one_quiet d w effect tools models Hd) as Hp.
  destruct (perform_one d w effect tools models) as [[] [d1 w1]]; [by apply IH|done].
Qed.

Lemma decide_quiet d w decider tools : quiet d -> quiet (driver_decide d w decider tools).2.1.
Proof.
  intros Hd. unfold driver_decide, decide_with_skills. destruct (harness_is_terminal _); [done|].
  destruct (decider _ w) as [[effect|e] w1]; [|done].
  destruct (over_budget _ _ _); [by apply push_quiet|].
  pose proof (push_quiet d w1 (EffectDecided effect) ActorAgent eq_refl Hd) as Hp.
  destruct (push d w1 _ _) as [d2 w2]. simpl in Hp.
  pose proof (authorize_quiet d2 w2 (harness (state d)) effect tools Hp) as Ha.
  by destruct (authorize_decided _ _ _ _ _) as [effects [d3 w3]].
Qed.

Context (decider : Decider W) (tools : list (Tool W)) (models : ModelCompletion W).
Context (at_boundary : Driver W -> W -> Boundary * W).

Lemma run_loop_quiet fuel d w r d' w' :
  quiet d -> run_loop decider tools models at_boundary fuel d w = Some (r, (d', w')) -> quiet d'.
Proof.
  revert d w; induction fuel as [|fuel IH]; intros d w Hd; simpl; [done|].
  destruct (_ || _); [by intros [= <- <- <-]|].
  destruct (at_boundary d w) as [[| |] w1].
  - assert (match driver_decide d w1 decider (descriptor <$> tools) with
      | (Err e, dw) => Some (Err e, dw)
      | (Ok [], (d, w)) =>
          if harness_is_terminal (harness (state d)) then Some (Ok tt, (d, w))
          else run_loop decider tools models at_boundary fuel d w
      | (Ok effects, (d, w)) =>
          let '(d, w) := perform d w effects tools models in
          let '(d, w) := advance_answered_step d w in
          run_loop decider tools models at_boundary fuel d w
      end = Some (r, (d', w')) -> quiet d') as Hgo.
    { pose proof (decide_quiet d w1 decider (descriptor <$> tools) Hd) as Hq.
      destruct (driver_decide d w1 decider (descriptor <$> tools)) as [[[|effect effects]|e] [d1 w2]];
        simpl in Hq.
      - destruct (harness_is_terminal _); [by intros [= <- <- <-]|by apply IH].
      - pose proof (perform_quiet (effect :: effects) d1 w2 tools models Hq) as Hp.
        destruct (perform d1 w2 _ tools models) as [d2 w3]. simpl in Hp.
        pose proof (advance_quiet d2 w3 Hp) as Ha.
        destruct (advance_answered_step d2 w3) as [d3 w4]. by apply IH.
      - by intros [= <- <- <-]. }
    destruct (harness (state d)); try exact Hgo. by intros [= <- <- <-].
  - intros [= <- Hp]. pose proof (push_quiet d w1 RunCancelled ActorSystem eq_refl Hd) as Hq.
    unfold cancel in Hp. by rewrite Hp in Hq.
  - by intros [= <- <- <-].
Qed.

Lemma run_until_quiet fuel d w r d' w' :
  quiet d -> run_until decider tools models at_boundary fuel d w = Some (r, (d', w')) -> quiet d'.
Proof.
  intros Hd. unfold run_until, run_first. set (d0 := set_first d [] None false).
  assert (quiet d0) as Hd0 by (by destruct Hd).
  assert (exists pending d1 w1, quiet d1 /\
    (match d_undecided d with
     | Some (h, effect) => authorize_decided d0 w h effect (descriptor <$> tools)
     | None => (d_pending d, (d0, w))
     end) = (pending, (d1, w1))) as (pending & d1 & w1 & Hd1 & ->).
  { destruct (d_undecided d) as [[h effect]|]; [|by eexists _, _, _].
    pose proof (authorize_quiet d0 w h effect (descriptor <$> tools) Hd0) as Ha.
    destruct (authorize_decided _ _ _ _ _) as [pending [d1 w1]]. by eexists _, _, _. }
  destruct (d_resumed d); [|by apply run_loop_quiet].
  pose proof (perform_quiet pending d1 w1 tools models Hd1) as Hp.
  destruct (perform d1 w1 pending tools models) as [d2 w2]. simpl in Hp.
  pose proof (advance_quiet d2 w2 Hp) as Ha.
  destruct (advance_answered_step d2 w2) as [d3 w3]. by apply run_loop_quiet.
Qed.

End Quiet.
