(* ===== verification/Worker.v ===== *)
(** * Queue workers ([server/worker.rs])

    A worker claims a run, runs it from its log, stores it as it goes and
    acknowledges it.  [WorkerProofs] states what it keeps.  The decider, the
    models, the catalog's tools, the gateway and the sandbox host are outside:
    functions over the rest [X] of the process.  The heartbeat is a thread of
    its own, and so one of the others. *)

From S2P Require Import Prelude Text Protocol Uuids MemoryOwner SpecBuilder Reduce Authorizer.
From S2P Require Import DriverTurns Store StoreTriggers StoreMessages StoreStops Queue Driver.
From S2P Require Import DriverProofs Server Spawner Deliverer Sandbox Turns.

(** ** Timing *)

(** [idle_wait] doubled for each failure in a row, at most [max_backoff]:
    [saturating_pow] and [saturating_mul] of a power of at most [2 ^ 16]. *)
Definition backoff (timing : QueueTiming) (failures : N) : N :=
  let factor := N.min (2 ^ N.min (sat_sub32 failures 1) 16) u32_max in
  N.min (idle_wait timing * factor) (max_backoff timing).

(** ** Data *)

Record Claim : Type := mkClaim { cl_run : RunId; cl_token : string }.

(** A run whose log is terminal, that is not stored, that moved, or that waits
    on an ask. *)
Record Done : Type := mkDone {
  dn_claim : Claim;
  dn_recorded : option Append;
  dn_waiting : option MessageId;
}.

Inductive Outcome := Stored (append : Append) | Waiting (ask : MessageId).

Record Open : Type := mkOpen { op_claim : Claim; op_stored : StoredRun; op_attempt : N }.

Inductive Prepared := PreparedOpen (open : Open) | PreparedDone (done : Done).

Record Executed : Type := mkExecuted {
  ex_claim : Claim;
  ex_events : list Event;
  ex_stored : option (result Outcome string);
}.

Definition RELOADS : nat := 3.

(** [Stopped], and its [Store], [LostLease] and [Waiting]. *)
Inductive Stopped := StoppedStore (append : Append) | LostLease | StoppedWaiting (ask : MessageId).

Definition is_box_turn (spec : RunSpec) : bool := is_turn spec && is_box spec.

(** What the closure of [run_until]'s boundary captures: how much of the log
    is stored, and why it paused. *)
Record RunCell : Type := mkRunCell {
  rc_seen : nat;
  rc_refused : option (result Stopped string);
}.

(** ** A worker *)

Record Worker (X : Type) : Type := mkWorker {
  wk_queue : RunQueue;
  wk_timing : QueueTiming;
  wk_messages : bool;
  wk_jev : result (DecisionView -> X -> result Effect DeciderError * X) string;
  wk_models : RunSpec -> ModelCompletion X;
  wk_catalog : option (X -> result (list (Tool X)) string * X);
}.
Arguments mkWorker {X} _ _ _ _ _ _.
Arguments wk_queue {X} _.
Arguments wk_timing {X} _.
Arguments wk_messages {X} _.
Arguments wk_jev {X} _.
Arguments wk_models {X} _.
Arguments wk_catalog {X} _.

Section Worker.
Context `{UuidCrate} {R X : Type} `{Redis R} `{Memory X} `{SandboxHost X} `{GatewayPoster X}.
Context (resume_debug : ResumeError → string) (turn_debug : TurnError → string).
Context (wk : Worker X).

Local Open Scope rust_scope.

Let q : RunQueue := wk_queue wk.

Implicit Types (spec : RunSpec) (c : Claim) (events : list Event).

(** ** The lease and the stops *)

(** [holds]: a Redis error keeps going, as the heartbeat does. *)
Definition holds c : @M R X bool :=
  let! renewed := do_renew q (cl_run c) (cl_token c) (lease_time (wk_timing wk)) in
  ret (match renewed with Ok false => false | _ => true end).

(** [Worker::stopped]: a store that cannot say is taken as no stop. *)
Definition worker_stopped (run : RunId) : @M R X bool :=
  let! answer := do_stopped run in
  ret (match answer with Ok stop => stop | Err _ => false end).

(** The closure [append] of [run_from]: every write first checks the lease. *)
Definition append c (seen : nat) (new : list Event) : @M R X (result Stopped string) :=
  let! held := holds c in
  if negb held then ret (Ok LostLease)
  else
    let!? stored := do_append_events_after (cl_run c) seen new else MemoryOwner.message in
    ret (Ok (StoppedStore stored)).

(** ** Box turns *)

Definition drop_own (name : string) : @M R X unit :=
  let! _ := external (destroy name) in ret tt.

(** The attempts [from], [from + 1], .., [n] of them. *)
Fixpoint clean_from (run : RunId) (from : N) (n : nat) : @M R X (result unit string) :=
  match n with
  | O => ret (Ok tt)
  | S n =>
      let name := box_attempt_name run from in
      let! there := external (absent name) in
      match there with
      | Ok true => clean_from run (from + 1) n
      | _ =>
          let! removed := external (destroy name) in
          match removed with
          | Err (Host text) => ret (Err ("sandbox " +:+ name +:+ " was not removed: " +:+ text))
          | Ok _ =>
              let! after := external (absent name) in
              match after with
              | Ok true => clean_from run (from + 1) n
              | _ => ret (Err ("sandbox " +:+ name +:+ " is not confirmed gone"))
              end
          end
      end
  end.

Definition clean_box (run : RunId) (attempts : N) : @M R X (result unit string) :=
  clean_from run 1 (N.to_nat attempts).

Definition end_box c spec (attempt : N) (last : list Event) : @M R X (result Stopped string) :=
  let!? _ := clean_box (run_id spec) attempt else
    (fun error => "run " +:+ id_display (run_id spec) +:+ ": " +:+ error +:+
                  "; it is retried once its lease expires") in
  let! held := holds c in
  if negb held then ret (Ok LostLease)
  else
    let!? stored := do_append_events (run_id spec) last else MemoryOwner.message in
    ret (Ok (StoppedStore stored)).

(** A run that ends here: cancelled, or failed. *)
Definition end_run_here c spec (attempt : N) (seen : nat) (event : @M R X Event)
    : @M R X (result Stopped string) :=
  let! last := event in
  if is_box_turn spec then end_box c spec attempt [last] else append c seen [last].

(** A Box turn on the process's host.  [X] says what the host does between
    two calls: [WorkerBox] takes one that other workers and later attempts
    provision on and remove from meanwhile. *)
Definition run_box_turn c spec (attempt : N) : @M R X (result Stopped string) :=
  let name := box_attempt_name (run_id spec) attempt in
  let! held := holds c in
  if negb held then ret (Ok LostLease)
  else
    let! provisioned := external (provision name) in
    match provisioned with
    | Err (Host text) =>
        let! last := run_failed_event spec FcEnvironment ("provision: " +:+ text) in
        end_box c spec attempt [last]
    | Ok _ =>
        let! held := holds c in
        if negb held then let! _ := drop_own name in ret (Ok LostLease)
        else
          let! stop := worker_stopped (run_id spec) in
          if stop : bool then
            let! last := run_cancelled_event spec in end_box c spec attempt [last]
          else
            let! answer := external (complete (gateway_call spec)) in
            let! held := holds c in
            if negb held then let! _ := drop_own name in ret (Ok LostLease)
            else
              let! last :=
                match answer with
                | Ok text => completion_events spec text
                | Err text =>
                    let! failed := run_failed_event spec FcDependency ("proxy: " +:+ text) in
                    ret [failed]
                end in
              end_box c spec attempt last
    end.

Definition ended_now (found : option StoredRun) : bool :=
  match found with Some run => has_terminal (sr_events run) | None => false end.

(** The gateway call of a turn that is not in a Box. *)
Definition finish_quick_turn spec events : @M R X (result Stopped string) :=
  let! finished := finish_turn spec events in
  match finished with
  | Ok _ => ret (Ok (StoppedStore Appended))
  | Err (TConflict _) => ret (Ok (StoppedStore Terminal))
  | Err TNotFound => ret (Ok (StoppedStore Missing))
  | Err error =>
      let! found := do_run (run_id spec) in
      ret (match found with
           | Ok found => if ended_now found then Ok (StoppedStore Appended)
                         else Err ("turn left open: " +:+ turn_debug error)
           | Err _ => Err ("turn left open: " +:+ turn_debug error)
           end)
  end.

(** The rest of [run_turn] once the turn has started. *)
Definition run_started_turn c spec events (seen : nat) (attempt : N) : @M R X (result Stopped string) :=
  let! stop := worker_stopped (run_id spec) in
  if stop : bool then end_run_here c spec attempt seen (run_cancelled_event spec)
  else
    let! held := holds c in
    if negb held then ret (Ok LostLease)
    else
      let!? found := do_run (run_id spec) else MemoryOwner.message in
      match found with
      | None => ret (Ok (StoppedStore Missing))
      | Some run =>
          if has_terminal (sr_events run) then ret (Ok (StoppedStore Terminal))
          else if is_box_turn spec then run_box_turn c spec attempt
          else finish_quick_turn spec events
      end.

(** The continuation of an append that has to be stored to go on. *)
Definition if_appended (stored : @M R X (result Stopped string)) (k : @M R X (result Stopped string))
    : @M R X (result Stopped string) :=
  let!? stopped := stored in
  match stopped with
  | StoppedStore Appended => k
  | refused => ret (Ok refused)
  end.

Definition run_turn c spec events (seen : nat) (attempt : N) : @M R X (result Stopped string) :=
  if negb (is_gateway spec) then
    end_run_here c spec attempt seen
      (run_failed_event spec FcInfrastructure "only a gateway turn runs in the background")
  else if existsb (fun event => is_run_started (payload event)) events then
    run_started_turn c spec events seen attempt
  else
    let! begun := system_event spec RunStarted in
    if_appended (append c seen [begun])
      (run_started_turn c spec (events ++ [begun]) (seen + 1) attempt).

(** ** The driver's world

    The driver runs over the process with the boundary's cell and the run's
    own memory. *)

Definition W : Type := Server R (RunCell * RunMemory X).

(** A handler of the worker, beside the cell and the run's memory. *)
Definition in_run {A} (m : @M R X A) : @M R (RunCell * RunMemory X) A :=
  fun w =>
    let '(a, w') :=
      m (mkServer (sv_shared w) (rm_shared (sv_rest w).2) (sv_future w) (sv_drawn w) (sv_steps w)) in
    (a, mkServer (sv_shared w') ((sv_rest w).1, mkRunMemory (sv_rest w') (rm_own (sv_rest w).2))
          (sv_future w') (sv_drawn w') (sv_steps w')).

(** Runs [m] with a cell and a memory of its own. *)
Definition with_run {A} (cell : RunCell) (m : @M R (RunCell * RunMemory X) A) : @M R X A :=
  fun w =>
    let '(a, w') :=
      m (mkServer (sv_shared w) (cell, run_memory_new (sv_rest w)) (sv_future w) (sv_drawn w)
           (sv_steps w)) in
    (a, mkServer (sv_shared w') (rm_shared (sv_rest w').2) (sv_future w') (sv_drawn w') (sv_steps w')).

Definition lift_tool (t : Tool X) : Tool W :=
  mkTool (descriptor t) (fun input => in_run (external (Driver.call t input))).

(** ** The tools of a run ([tools.rs]) *)

Definition ECHO : string := "echo".

(** [RunTools::load]. *)
Definition load_tools (dir : option (X -> result (list (Tool X)) string * X)) (named : list string)
    : @M R X (result (option (list (Tool X))) string) :=
  match dir with
  | Some load =>
      if existsb (fun name => negb (bool_decide (name = ECHO))) named then
        let! loaded := external load in
        ret (match loaded with
             | Ok catalog => Ok (Some catalog)
             | Err error => Err ("the catalog did not load: " +:+ error)
             end)
      else ret (Ok None)
  | None => ret (Ok None)
  end.

(** [RunTools::tools]. *)
Definition run_tools (named : list string) (catalog : option (list (Tool X))) : list (Tool X) :=
  EchoTool ::
  match catalog with
  | Some catalog =>
      List.filter
        (fun tool => let name := tool_name (descriptor tool) in
                     negb (bool_decide (name = ECHO)) && bool_decide (name ∈ named)) catalog
  | None => []
  end.

(** The names of the tools a run's manifest lists, when there is a catalog. *)
Definition named_tools spec : @M R X (result (list string) string) :=
  match wk_catalog wk with
  | None => ret (Ok [])
  | Some _ =>
      let id := id_display (run_id spec) in
      let!? found := do_agent (agent_id spec) else
        (fun error => "run " +:+ id +:+ ": its agent: " +:+ MemoryOwner.message error) in
      ret (match found with
           | Some agent =>
               if owner_is (sa_owner agent) (owner spec) then Ok (am_tools (sa_manifest agent))
               else Err ("run " +:+ id +:+ ": its agent is unavailable; it is retried once its lease expires")
           | None =>
               Err ("run " +:+ id +:+ ": its agent is unavailable; it is retried once its lease expires")
           end)
  end.

(** ** Running a run from its log *)

(** The targets [delegation] offers: a store that cannot list them offers
    none. *)
Definition delegation spec : @M R X (list DelegateTarget) :=
  let reaches name := bool_decide (mkCapability name ∈ capabilities spec) in
  if negb (reaches AGENT_DELEGATE) && negb (reaches AGENT_MESSAGE) then ret []
  else
    let! found := do_agents_of (owner spec) in
    ret (match found with
         | Ok agents =>
             (fun agent => mkDelegateTarget (am_id (sa_manifest agent)) (am_name (sa_manifest agent))
                             (am_description (sa_manifest agent))) <$> agents
         | Err _ => []
         end).

(** The driver with the collaborators a worker gives it. *)
Definition equip (d : Driver W) (targets : list DelegateTarget) : Driver W :=
  let spawner : AgentSpawner W := fun request => in_run (start (mkOwnedSpawner (Some q)) request) in
  let d := with_user_questions (with_spawner d spawner targets) in
  if wk_messages wk then
    with_deliverer d (fun request => in_run (send (mkOwnedDeliverer q) request))
  else d.

(** The boundary [run_until] is given. *)
Definition at_boundary c (d : Driver W) : @M R (RunCell * RunMemory X) Boundary :=
  let! stop := in_run (worker_stopped (cl_run c)) in
  if stop : bool then ret Cancel
  else
    let! cell := get_cell in
    let new := drop (rc_seen cell) (d_events d) in
    match new with
    | [] => ret Continue
    | _ =>
        let! stored := in_run (append c (rc_seen cell) new) in
        match stored with
        | Ok (StoppedStore Appended) =>
            let! _ := set_cell (mkRunCell (length (d_events d)) (rc_refused cell)) in
            ret Continue
        | other =>
            let! _ := set_cell (mkRunCell (rc_seen cell) (Some other)) in
            ret Pause
        end
    end.

(** [run_until], with fuel enough ([run_until_terminates]). *)
Definition drive c spec (jev : DecisionView -> X -> result Effect DeciderError * X)
    (tools : list (Tool X)) (d : Driver W)
    : @M R (RunCell * RunMemory X) (option (result unit DeciderError * Driver W)) :=
  fun w =>
    match run_until (fun view => in_run (external (jev view))) (lift_tool <$> tools)
            (fun request => in_run (external (wk_models wk spec request))) (at_boundary c)
            (enough spec) d w with
    | Some (r, (d, w)) => (Some (r, d), w)
    | None => (None, w)
    end.

(** What is left to store once the driver came back. *)
Definition store_tail c spec (outcome : result unit DeciderError) (d : Driver W) (seen : nat)
    : @M R (RunCell * RunMemory X) (result Stopped string) :=
  let tail := drop seen (d_events d) in
  let! tail :=
    match outcome with
    | Ok _ => ret tail
    | Err error =>
        let! failed := run_failed_event spec FcDependency ("decider: " +:+ de_message error) in
        ret (tail ++ [failed])
    end in
  let!? stopped :=
    match tail with
    | [] => ret (Ok (StoppedStore Appended))
    | _ => in_run (append c seen tail)
    end in
  ret (Ok (match stopped, harness (state d) with
           | StoppedStore Appended, WaitingForMessage _ _ ask => StoppedWaiting ask
           | _, _ => stopped
           end)).

Definition finish_drive c spec (outcome : result unit DeciderError) (d : Driver W)
    : @M R (RunCell * RunMemory X) (result Stopped string) :=
  let! cell := get_cell in
  match rc_refused cell with
  | Some refused => ret refused
  | None => store_tail c spec outcome d (rc_seen cell)
  end.

Definition run_driver c spec events : @M R (RunCell * RunMemory X) (result Stopped string) :=
  let seen := length events in
  let! resumed := resume spec events in
  match resumed with
  | Err error =>
      let! failed := run_failed_event spec FcInfrastructure ("cannot resume: " +:+ resume_debug error) in
      in_run (append c seen [failed])
  | Ok d =>
      let! held := in_run (holds c) in
      if negb held then ret (Ok LostLease)
      else
        let! targets := in_run (delegation spec) in
        let d := equip d targets in
        match wk_jev wk with
        | Err text =>
            let tail := drop seen (d_events d) in
            let! failed := run_failed_event spec FcDependency ("decider: " +:+ text) in
            in_run (append c seen (tail ++ [failed]))
        | Ok jev =>
            let!? named := in_run (named_tools spec) in
            let!? catalog := in_run (load_tools (wk_catalog wk) named) else
              (fun error => "run " +:+ id_display (run_id spec) +:+ ": " +:+ error) in
            let! came_back := drive c spec jev (run_tools named catalog) d in
            match came_back with
            | None => ret (Err "out of fuel")
            | Some (outcome, d) => finish_drive c spec outcome d
            end
        end
  end.

(** What runs the run once it is scheduled. *)
Definition run_scheduled c spec events (attempt : N) : @M R X (result Stopped string) :=
  if is_turn spec then run_turn c spec events (length events) attempt
  else with_run (mkRunCell (length events) None) (run_driver c spec events).

Definition run_from c spec events (attempt : N) : @M R X (result Stopped string) :=
  if has_terminal events then ret (Ok (StoppedStore Terminal))
  else
    let seen := length events in
    let! stop := worker_stopped (run_id spec) in
    if stop : bool then end_run_here c spec attempt seen (run_cancelled_event spec)
    else
      match dispatch (fold spec events) with
      | DQueued =>
          let! ladder := dispatch_events spec in
          if_appended (append c seen ladder) (run_scheduled c spec (events ++ ladder) attempt)
      | _ => run_scheduled c spec events attempt
      end.

(** The loop over reloads: [reloads] are left. *)
Fixpoint store_from (reloads : nat) c spec events (attempt : N) : @M R X (result Outcome string) :=
  let reload (k : list Event -> @M R X (result Outcome string)) :=
    let!? found := do_run (run_id spec) else MemoryOwner.message in
    match found with
    | Some run => k (sr_events run)
    | None => ret (Ok (Stored Missing))
    end in
  let!? stopped := run_from c spec events attempt in
  match stopped with
  | StoppedStore Moved =>
      match reloads with
      | O => ret (Ok (Stored Moved))
      | S reloads => reload (fun events => store_from reloads c spec events attempt)
      end
  | StoppedStore other => ret (Ok (Stored other))
  | LostLease => ret (Ok (Stored Moved))
  | StoppedWaiting ask => ret (Ok (Waiting ask))
  end.

(** The lease is that of the stored spec's run, under the claim's token. *)
Definition store_as_it_goes (stored : StoredRun) (token : string) (attempt : N)
    : @M R X (result Outcome string) :=
  let spec := sr_spec stored in
  store_from RELOADS (mkClaim (run_id spec) token) spec (sr_events stored) attempt.

(** ** A claim *)

Definition claim_one : @M R X (result (option Claim) string) :=
  let! n := random in
  let token := uuid_display (from_u128 n) in
  let!? claimed := do_claim q token (lease_time (wk_timing wk)) in
  ret (Ok ((fun id => mkClaim id token) <$> claimed)).

(** The run cannot be loaded or started: it is handed straight back. *)
Definition hand_back c (what error : string) : @M R X (result Prepared string) :=
  let! _ := do_release q (cl_run c) (cl_token c) in
  ret (Err (what +:+ " run " +:+ id_display (cl_run c) +:+ ": " +:+ error)).

Definition record (e : Executed) : @M R X (result Done string) :=
  match ex_stored e with
  | Some stored =>
      ret (match stored with
           | Ok (Stored append) => Ok (mkDone (ex_claim e) (Some append) None)
           | Ok (Waiting ask) => Ok (mkDone (ex_claim e) None (Some ask))
           | Err error => Err error
           end)
  | None =>
      let!? append := do_append_events (cl_run (ex_claim e)) (ex_events e) else MemoryOwner.message in
      ret (Ok (mkDone (ex_claim e) (Some append) None))
  end.

(** A run started too often: a Box turn once its sandboxes are gone. *)
Definition fail_overdue c (stored : StoredRun) (starts : N) : @M R X (result Prepared string) :=
  let spec := sr_spec stored in
  let!? held :=
    if is_box_turn spec then
      let!? _ := clean_box (cl_run c) (N.min starts (max_deliveries (wk_timing wk))) else
        (fun error => "run " +:+ id_display (cl_run c) +:+ ": " +:+ error +:+
                      "; it is retried once its lease expires") in
      let! held := holds c in ret (Ok held)
    else ret (Ok true) in
  if negb held then ret (Ok (PreparedDone (mkDone c (Some Moved) None)))
  else
    let before := (starts - 1)%N in
    let! failed :=
      run_failed_event spec FcInfrastructure
        ("started " +:+ pretty before +:+ " time" +:+ (if (before =? 1)%N then "" else "s") +:+
         " without ending") in
    let!? done := record (mkExecuted c [failed] None) in
    ret (Ok (PreparedDone done)).

Definition prepare c : @M R X (result Prepared string) :=
  let! loaded := do_run (cl_run c) in
  match loaded with
  | Err error => hand_back c "load" (MemoryOwner.message error)
  | Ok None => ret (Ok (PreparedDone (mkDone c None None)))
  | Ok (Some stored) =>
      if has_terminal (sr_events stored) then ret (Ok (PreparedDone (mkDone c None None)))
      else
        let! started := do_start q (cl_run c) in
        match started with
        | Err error => hand_back c "start" error
        | Ok starts =>
            if (max_deliveries (wk_timing wk) <? starts)%N then fail_overdue c stored starts
            else ret (Ok (PreparedOpen (mkOpen c stored starts)))
        end
  end.

(** [answer_ask]: a delivery that fails is left to the sweep. *)
Definition answer_ask spec : @M R X unit :=
  if negb (wk_messages wk) then ret tt
  else
    let! _ :=
      let!? found := do_ask_of_task (run_id spec) else MemoryOwner.message in
      match found with
      | None => ret (Ok false)
      | Some ask =>
          let!? found := do_run (run_id spec) else MemoryOwner.message in
          match found with
          | None => ret (Ok false)
          | Some task =>
              let! answer := task_answer (run_id spec) (agent_id spec) (ms_id ask) (sr_events task) in
              match answer with
              | Some answer => deliver q (ms_from_run ask) (ms_id ask) answer Leave
              | None => ret (Ok false)
              end
          end
      end in
    ret tt.

Definition execute (o : Open) : @M R X Executed :=
  let spec := sr_spec (op_stored o) in
  let! outcome := store_as_it_goes (op_stored o) (cl_token (op_claim o)) (op_attempt o) in
  let! _ := match outcome with Ok (Stored Appended) => answer_ask spec | _ => ret tt end in
  ret (mkExecuted (op_claim o) [] (Some outcome)).

(** [Done::ack]. *)
Definition ack_done (d : Done) : @M R X (result RunId string) :=
  let run := cl_run (dn_claim d) in
  let token := cl_token (dn_claim d) in
  match dn_waiting d with
  | Some ask =>
      let!? parked := do_park q run token ask in
      if parked : bool then
        let!? found := do_run run else MemoryOwner.message in
        let events := match found with Some run => sr_events run | None => [] end in
        let! wakes :=
          if negb (bool_decide (ask_state events ask = AskOpen)) then ret true else worker_stopped run in
        if wakes : bool then let!? _ := do_wake q run ask in ret (Ok run) else ret (Ok run)
      else ret (Ok run)
  | None =>
      match dn_recorded d with
      | Some Moved => let!? _ := do_release q run token in ret (Ok run)
      | _ => let!? _ := do_ack q run token in ret (Ok run)
      end
  end.

Definition work_one : @M R X (result (option RunId) string) :=
  let!? claimed := claim_one in
  match claimed with
  | None => ret (Ok None)
  | Some c =>
      let!? prepared := prepare c in
      let!? done :=
        match prepared with
        | PreparedOpen open => let! executed := execute open in record executed
        | PreparedDone done => ret (Ok done)
        end in
      let!? run := ack_done done in
      ret (Ok (Some run))
  end.

End Worker.
