(* ===== verification/WorkerProofs.v ===== *)
(** * What a worker keeps

    A claimed run is in the queue or has ended ([held]), whatever the others
    do.  From there every handler of the worker follows the rules, and what it
    reports of the run's log is so: a run reported as ended has ended.  The
    driver runs inside the worker through [DriverWorld]. *)

From S2P Require Import Prelude Text Protocol Uuids MemoryOwner SpecBuilder Reduce Authorizer.
From S2P Require Import DriverTurns Store StoreProofs StoreTriggers StoreMessages StoreStops.
From S2P Require Import Queue QueueProofs Driver DriverProofs Server ServerLogic Spawner.
From S2P Require Import Deliverer Sandbox Turns DriverWorld Worker.

(** ** The worker's writes *)

Section Writes.
Context `{UuidCrate} {R X : Type} `{Redis R} `{!RedisLaws R} `{Memory X} `{SandboxHost X}
  `{GatewayPoster X}.
Context (resume_debug : ResumeError → string) (turn_debug : TurnError → string).
Context (wk : Worker X) (Hq : keys_ok (wk_queue wk)).

Let q : RunQueue := wk_queue wk.

Context (G : Shared R -> Shared R -> Prop) `{!Discipline q G}.
Implicit Types (P : Shared R -> Prop) (c : Claim).

Abbreviation triple := (triple (X := X) q G).
Abbreviation stable := (stable q G).

(** What a write reports is so: [ends] when the log took it, its end when it
    had ended, and a run that is held is stored. *)
Definition reports (ends : Prop) (id : RunId) (r : result Stopped string) (s : Shared R) : Prop :=
  match r with
  | Ok (StoppedStore Appended) => ends -> closed s id
  | Ok (StoppedStore Terminal) => closed s id
  | Ok (StoppedStore Missing) => False
  | _ => True
  end.

Abbreviation settles := (reports True).

Lemma stable_reports ends id r : stable (reports ends id r).
Proof.
  intros s s' Hg HG. destruct r as [[[]| |]|]; simpl; try done.
  - intros Hc He. eapply (stable_closed q G); eauto.
  - by apply (stable_closed q G).
Qed.

Lemma reports_weaken (ends ends' : Prop) id r s :
  (ends' -> ends) -> reports ends id r s -> reports ends' id r s.
Proof. destruct r as [[[]| |]|]; simpl; auto. Qed.

(** A script that neither pushes nor acknowledges. *)
Lemma triple_script {A} P (op : QueueOp) (f : R -> A * R) :
  stable P -> (forall r, (f r).2 = (queue_step q r op).2) ->
  (forall s, allowed q s op /\ unpends_stored s op) ->
  triple P (queue_call f) (fun _ => P).
Proof.
  intros HP Hf Ha. eapply (triple_post q G).
  - apply (triple_queue_op q Hq G P op f (fun _ _ => True)); auto.
  - by intros a s _ [? _].
Qed.

Lemma triple_holds P c : stable P -> triple P (holds wk c) (fun _ => P).
Proof.
  intros HP. eapply (triple_bind q G).
  - apply (triple_script P (QRenew (id_display (cl_run c)) (cl_token c) (lease_time (wk_timing wk)))); done.
  - intros r. by apply (triple_done q G).
Qed.

Lemma triple_worker_stopped P run : stable P -> triple P (worker_stopped run) (fun _ => P).
Proof.
  intros HP. eapply (triple_bind q G); [by apply (triple_read q G)|]. intros r. by apply (triple_done q G).
Qed.

Lemma held_in_queue id s run : held q id s -> open_run s id run -> in_queue q s id.
Proof. intros [_ [|Hc]] Ho; [done|]. by destruct (open_not_closed _ _ _ Ho Hc). Qed.

Lemma held_stored id s : held q id s -> stored_run s id <> None.
Proof. by intros [[run ->] _]. Qed.

(** A held run is found. *)
Lemma triple_run_held id :
  triple (held q id) (do_run id)
    (fun r s => held q id s /\ match r with
       | Ok (Some run) => seen_run id run s | Ok None => False | Err _ => True end).
Proof.
  eapply (triple_post q G).
  - apply (triple_store_read q G _ _ (fun o s => match o with
      | Some run => seen_run id run s | None => False end)); [apply (stable_held q G)|].
    intros s _ Hh. destruct (stored_run s id) as [run|] eqn:E; [by exists run|].
    by destruct (held_stored _ _ Hh).
  - by intros [[run|]|] s _ [? ?].
Qed.

Lemma triple_append_held id seen es :
  triple (held q id)
    (bind now (fun t => store_call (on_runs (fun st => append_checked st id seen es t))))
    (fun r s => held q id s /\
       match r with
       | Ok append => reports (has_terminal es = true) id (Ok (StoppedStore append)) s
       | Err _ => True
       end).
Proof.
  eapply (triple_post q G).
  - apply (triple_append_any q G); [apply (stable_held q G)|].
    intros s run _ Hh Ho _. left. by eapply held_in_queue.
  - intros [[]|] s _ [Hh Hpost]; split; try done; simpl.
    + destruct Hpost as (s0 & run & _ & _ & _ & _ & Hseen). intros Ht.
      eapply seen_closed; [exact Hseen|]. unfold has_terminal in *. simpl.
      by rewrite existsb_app, Ht, orb_true_r.
    + destruct Hpost as (s0 & Hs0 & Hn). by eapply held_stored.
Qed.

Lemma triple_worker_append c seen new :
  triple (held q (cl_run c)) (append wk c seen new)
    (fun r s => held q (cl_run c) s /\ reports (has_terminal new = true) (cl_run c) r s).
Proof.
  unfold append. eapply (triple_bind q G); [apply triple_holds, (stable_held q G)|]. intros [].
  - eapply (triple_try_with q G); [apply triple_append_held| |by intros e s [? _]].
    intros r. by apply (triple_done q G).
  - apply (triple_done q G). by split.
Qed.

(** ** Box turns *)

Lemma triple_clean_from P run from n : triple P (clean_from run from n) (fun _ => P).
Proof.
  revert from. induction n as [|n IH]; intros from; simpl; [by apply (triple_done q G)|].
  eapply (triple_bind q G); [apply (triple_external q G)|].
  assert (triple P
    (bind (external (destroy (box_attempt_name run from))) (fun removed =>
      match removed with
      | Err (Host text) => ret (Err ("sandbox " +:+ box_attempt_name run from +:+ " was not removed: " +:+ text))
      | Ok _ =>
          bind (external (absent (box_attempt_name run from))) (fun after =>
            match after with
            | Ok true => clean_from run (from + 1) n
            | _ => ret (Err ("sandbox " +:+ box_attempt_name run from +:+ " is not confirmed gone"))
            end)
      end)) (fun _ => P)) as Hgo.
  { eapply (triple_bind q G); [apply (triple_external q G)|]. intros [u|[text]]; [|by apply (triple_done q G)].
    eapply (triple_bind q G); [apply (triple_external q G)|].
    intros [[]|e]; [apply IH|by apply (triple_done q G)..]. }
  intros [[]|e]; [apply IH|exact Hgo..].
Qed.

Lemma triple_end_box c spec attempt last :
  run_id spec = cl_run c -> has_terminal last = true ->
  triple (held q (cl_run c)) (end_box wk c spec attempt last)
    (fun r s => held q (cl_run c) s /\ settles (cl_run c) r s).
Proof.
  intros Hid Ht. unfold end_box. rewrite Hid.
  eapply (triple_try_with q G); [apply triple_clean_from| |by intros e s].
  intros u. eapply (triple_bind q G); [apply triple_holds, (stable_held q G)|]. intros [].
  - eapply (triple_try_with q G); [apply triple_append_held| |by intros e s [? _]].
    intros r. apply (triple_done q G). intros s _ [Hh Hr]. split; [done|].
    by eapply reports_weaken; [|exact Hr].
  - apply (triple_done q G). by split.
Qed.

Lemma triple_end_run_here c spec attempt seen p m :
  run_id spec = cl_run c -> is_terminal p = true -> draws m (says spec p) ->
  triple (held q (cl_run c)) (end_run_here wk c spec attempt seen m)
    (fun r s => held q (cl_run c) s /\ settles (cl_run c) r s).
Proof.
  intros Hid Hp Hm. unfold end_run_here.
  eapply (triple_bind q G); [by apply (triple_draws q G)|]. intros e. apply (triple_pure q G). intros [He _].
  assert (has_terminal [e] = true) as Ht by (unfold has_terminal; simpl; by rewrite He, Hp).
  destruct (is_box_turn spec); [by apply triple_end_box|].
  eapply (triple_post q G); [apply triple_worker_append|]. intros r s _ [Hh Hr]. split; [done|].
  by eapply reports_weaken; [|exact Hr].
Qed.

(** What a handler of the claimed run [c] keeps and reports. *)
Abbreviation runs_well c m :=
  (triple (held q (cl_run c)) m
     (fun r s => held q (cl_run c) s /\ settles (cl_run c) r s)).

Lemma says_ends spec p e : says spec p e -> is_terminal p = true -> has_terminal [e] = true.
Proof. intros [He _] Hp. unfold has_terminal. simpl. by rewrite He, Hp. Qed.

(** A failure of the run, written where its sandboxes are gone. *)
Lemma triple_box_failed c spec attempt class text :
  run_id spec = cl_run c ->
  runs_well c
    (bind (run_failed_event spec class text) (fun last => end_box wk c spec attempt [last])).
Proof.
  intros Hid. eapply (triple_bind q G); [apply (triple_draws q G), draws_recorded|]. intros e.
  apply (triple_pure q G). intros He. apply triple_end_box; [done|by eapply says_ends].
Qed.

Lemma triple_drop_own P name : triple P (drop_own name) (fun _ => P).
Proof.
  eapply (triple_bind q G); [apply (triple_external q G)|]. intros r. by apply (triple_done q G).
Qed.

(** The lease was lost, and the turn's own sandbox is dropped. *)
Lemma triple_lost c name :
  runs_well c (bind (drop_own name) (fun _ => ret (Ok LostLease))).
Proof. eapply (triple_bind q G); [apply triple_drop_own|]. intros []. apply (triple_done q G). by split. Qed.

Lemma triple_lease c (m : @M R X (result Stopped string)) (lost : @M R X (result Stopped string)) :
  runs_well c m -> runs_well c lost ->
  runs_well c (bind (holds wk c) (fun held => if negb held then lost else m)).
Proof.
  intros Hm Hl. eapply (triple_bind q G); [apply triple_holds, (stable_held q G)|]. by intros [].
Qed.

Lemma triple_lost_now c : runs_well c (ret (Ok LostLease)).
Proof. apply (triple_done q G). by split. Qed.

Lemma triple_run_box_turn c spec attempt :
  run_id spec = cl_run c -> runs_well c (run_box_turn wk c spec attempt).
Proof.
  intros Hid. unfold run_box_turn. apply triple_lease; [|apply triple_lost_now].
  eapply (triple_bind q G); [apply (triple_external q G)|]. intros [u|[text]].
  2: { by apply triple_box_failed. }
  apply triple_lease; [|apply triple_lost].
  eapply (triple_bind q G); [apply triple_worker_stopped, (stable_held q G)|]. intros [].
  { eapply (triple_bind q G); [apply (triple_draws q G), draws_recorded|]. intros e.
    apply (triple_pure q G). intros He. apply triple_end_box; [done|by eapply says_ends]. }
  eapply (triple_bind q G); [apply (triple_external q G)|]. intros answer.
  apply triple_lease; [|apply triple_lost].
  eapply (triple_bind q G) with (Q := fun last s => has_terminal last = true /\ held q (cl_run c) s).
  - destruct answer as [text|text].
    + eapply (triple_post q G); [apply (triple_draws q G), draws_completion|].
      intros es s _ [He%completion_ends Hh]. done.
    + eapply (triple_bind q G); [apply (triple_draws q G), draws_recorded|]. intros e.
      apply (triple_pure q G). intros He. apply (triple_done q G). intros s _ Hh.
      split; [by eapply says_ends|done].
  - intros last. apply (triple_pure q G). intros Ht. by apply triple_end_box.
Qed.

Lemma triple_finish_quick c spec events :
  run_id spec = cl_run c -> is_gateway spec = true ->
  runs_well c (finish_quick_turn turn_debug spec events).
Proof.
  intros Hid Hgw. unfold finish_quick_turn.
  eapply (triple_bind q G); [by apply (triple_finish_turn q G), (stable_held q G)|]. rewrite Hid.
  assert (forall error, runs_well c
    (let! found := do_run (cl_run c) in
      ret (match found with
           | Ok found => if ended_now found then Ok (StoppedStore Appended)
                         else Err ("turn left open: " +:+ turn_debug error)
           | Err _ => Err ("turn left open: " +:+ turn_debug error)
           end))%rust) as Hopen.
  { intros error. eapply (triple_bind q G); [apply (triple_run q G), (stable_held q G)|].
    intros found. apply (triple_done q G). intros s _ [Hh Hf]. split; [done|].
    destruct found as [[run|]|]; simpl; [|done..]. destruct (has_terminal _) eqn:Ht; simpl; [|done].
    intros _. by eapply seen_closed. }
  intros [o|[| | | |text|]];
    try (apply (triple_pre q G (held q (cl_run c))); [apply Hopen|by intros s _ [? _]]).
  - apply (triple_done q G). intros s _ [Hh Hs]. split; [done|]. intros _. by apply Hs.
  - apply (triple_done q G). intros s _ [Hh (s0 & Hs0 & Hn)]. by destruct (held_stored _ _ Hs0).
  - apply (triple_done q G). by intros s _ [? ?].
Qed.

Lemma triple_run_started_turn c spec events seen attempt :
  run_id spec = cl_run c -> is_gateway spec = true ->
  runs_well c (run_started_turn turn_debug wk c spec events seen attempt).
Proof.
  intros Hid Hgw. unfold run_started_turn.
  eapply (triple_bind q G); [apply triple_worker_stopped, (stable_held q G)|]. intros [].
  { by apply (triple_end_run_here c spec attempt seen RunCancelled); [..|apply draws_recorded]. }
  apply triple_lease; [|apply triple_lost_now]. rewrite Hid.
  eapply (triple_try_with q G); [apply triple_run_held| |].
  - intros [run|]; [|by apply (triple_done q G); intros s _ [_ []]].
    destruct (has_terminal (sr_events run)) eqn:Ht.
    + apply (triple_done q G). intros s _ [Hh Hs]. split; [done|]. by eapply seen_closed.
    + apply (triple_pre q G (held q (cl_run c))); [|by intros s _ [? _]].
      destruct (is_box_turn spec); [by apply triple_run_box_turn|by apply triple_finish_quick].
  - by intros e s [? _].
Qed.

Lemma triple_if_appended c seen new k :
  runs_well c k -> runs_well c (if_appended (append wk c seen new) k).
Proof.
  intros Hk. eapply (triple_try q G); [apply triple_worker_append| |by intros e s].
  intros stopped. apply (triple_pre q G (fun s => held q (cl_run c) s /\
    (stopped = StoppedStore Appended \/ settles (cl_run c) (Ok stopped) s))).
  - destruct stopped as [[]| |];
      try (apply (triple_done q G); intros s _ [Hh [?|Hs]]; [done|by split]).
    by apply (triple_pre q G (held q (cl_run c))); [|intros s _ []].
  - intros s _ [Hh Hr]. split; [done|]. destruct stopped as [[]| |]; simpl; auto.
Qed.

Lemma triple_run_turn c spec events seen attempt :
  run_id spec = cl_run c -> runs_well c (run_turn turn_debug wk c spec events seen attempt).
Proof.
  intros Hid. unfold run_turn. destruct (is_gateway spec) eqn:Hgw; simpl.
  - destruct (existsb _ events); [by apply triple_run_started_turn|].
    eapply (triple_bind q G); [apply (triple_draws q G), draws_recorded|]. intros e.
    apply (triple_pure q G). intros _. apply triple_if_appended. by apply triple_run_started_turn.
  - by eapply (triple_end_run_here c spec attempt seen (RunFailed _ _)); [..|apply draws_recorded].
Qed.

End Writes.

(** ** The driver inside the worker *)

Section Drive.
Context `{UuidCrate} {R X : Type} `{Redis R} `{!RedisLaws R} `{Memory X} `{SandboxHost X}
  `{GatewayPoster X}.
Context (resume_debug : ResumeError → string) (turn_debug : TurnError → string).
Context (wk : Worker X) (Hq : keys_ok (wk_queue wk)).

Let q : RunQueue := wk_queue wk.

Implicit Types (P : Shared R -> Prop) (c : Claim).

Abbreviation RW := (W (R := R) (X := X)).
Abbreviation respectful := (respectful (R := R) q (prompt q)).
Abbreviation moves := (moves (R := R) (prompt q)).
Abbreviation cell w := (sv_rest w).1.

Lemma triple_in_run {A} P (m : @M R X A) Q :
  triple q (prompt q) P m Q -> triple (X := RunCell * RunMemory X) q (prompt q) P (in_run m) Q.
Proof.
  intros Hm w Hr Hg HP. unfold in_run. set (w0 := mkServer _ (rm_shared _) _ _ _).
  destruct (Hm w0 Hr Hg HP) as [(Hf & HG & own & Ho & Hs) HQ].
  destruct (m w0) as [a w1]. simpl in *. split; [|done]. split_and!; [done|done|]. by exists own.
Qed.

Lemma in_run_cell {A} (m : @M R X A) (w : RW) : cell (in_run m w).2 = cell w.
Proof. unfold in_run. by destruct (m _). Qed.

Lemma triple_with_run {A} P rc (m : @M R (RunCell * RunMemory X) A) Q :
  (forall w, cell w = rc -> respectful w -> Good q (sv_shared w) -> P (sv_shared w) ->
     moves w (m w).2 /\ Q (m w).1 (sv_shared (m w).2)) ->
  triple (X := X) q (prompt q) P (with_run rc m) Q.
Proof.
  intros Hm w Hr Hg HP. unfold with_run. set (w0 := mkServer _ (rc, _) _ _ _).
  destruct (Hm w0) as [(Hf & HG & own & Ho & Hs) HQ]; [done..|].
  destruct (m w0) as [a w1]. simpl in *. split; [|done]. split_and!; [done|done|]. by exists own.
Qed.

(** A step of the run [id]'s driver: it follows the rules while the run is
    held, and leaves the boundary's cell. *)
Definition keeps_cell id (w w' : RW) : Prop :=
  (respectful w -> Good q (sv_shared w) -> held q id (sv_shared w) -> moves w w') /\
  cell w' = cell w.

#[local] Instance keeps_cell_preorder id : PreOrder (keeps_cell id).
Proof.
  split; [by intros w|]. intros w1 w2 w3 [H12 C12] [H23 C23]. split; [|congruence].
  intros Hr Hg Hh. pose proof (H12 Hr Hg Hh) as Hm. etrans; [exact Hm|]. apply H23.
  - by eapply (moves_respectful q (prompt q)).
  - by eapply (moves_good q (prompt q)).
  - destruct Hm as (_ & HG & _). by eapply (stable_held q (prompt q)).
Qed.

Lemma keeps_in_run {A} id (m : @M R X A) Q w :
  triple q (prompt q) (held q id) m Q -> keeps_cell id w (in_run m w).2.
Proof.
  intros Hm. split; [|apply in_run_cell]. intros Hr Hg Hh.
  by destruct (triple_in_run _ _ _ Hm w Hr Hg Hh).
Qed.

(** The same of a handler that needs nothing of the run. *)
Lemma keeps_in_run_free {A} id (m : @M R X A) Q w :
  triple q (prompt q) (fun _ => True) m Q -> keeps_cell id w (in_run m w).2.
Proof. intros Hm. apply (keeps_in_run id m Q). by eapply (triple_pre q (prompt q)). Qed.

(** What only draws, or changes the rest of the process. *)
Lemma keeps_quiet id (w w' : RW) :
  sv_future w' = sv_future w -> sv_shared w' = sv_shared w -> sv_steps w' = sv_steps w ->
  cell w' = cell w -> keeps_cell id w w'.
Proof.
  intros Hf Hs Ho Hc. split; [|done]. intros _ _ _. split_and!; [done|by rewrite Hs|]. by exists [].
Qed.

Lemma keeps_stamp id (w : RW) : keeps_cell id w (w_stamp w).2.
Proof. by apply keeps_quiet. Qed.

Lemma keeps_message_id id (w : RW) : keeps_cell id w (w_message_id w).2.
Proof. by apply keeps_quiet. Qed.

Lemma keeps_write id (w : RW) owner key value : keeps_cell id w (mem_write w owner key value).2.
Proof.
  simpl. destruct (run_memory_write _ _ _ _) as [r m]. by apply keeps_quiet.
Qed.

Lemma keeps_external {A} id (f : X -> A * X) w : keeps_cell id w (in_run (external f) w).2.
Proof. eapply keeps_in_run_free, (triple_external q (prompt q)). Qed.

(** The spawner and the deliverer the worker equips the driver with. *)
Lemma equip_ok id (d : Driver RW) targets :
  bare d -> collaborators_ok (keeps_cell id) (equip wk d targets).
Proof.
  intros [Hs Hd]. unfold equip. split.
  - intros spawner request w E.
    assert (spawner = fun request => in_run (start (mkOwnedSpawner (Some q)) request)) as ->
      by (destruct (wk_messages wk); by injection E as <-).
    eapply keeps_in_run_free, (triple_start q Hq).
  - intros deliverer request w E. destruct (wk_messages wk); simpl in E; [|congruence].
    injection E as <-. eapply keeps_in_run_free, (triple_send q Hq).
Qed.

(** The log the worker has not stored yet holds the run's end. *)
Record synced (wb : RW) (d : Driver RW) (w : RW) : Prop := mkSynced {
  sy_moves : moves wb w;
  sy_refused : rc_refused (cell w) = None;
  sy_seen : (rc_seen (cell w) <= length (d_events d))%nat;
  sy_stored : has_terminal (take (rc_seen (cell w)) (d_events d)) = false;
}.

Section Boundary.
Context (c : Claim) (wb : RW).
Hypothesis Hrespects : respectful wb.
Hypothesis Hgood : Good q (sv_shared wb).
Hypothesis Hheld : held q (cl_run c) (sv_shared wb).

(** What holds at the base holds later. *)
Lemma moved_on w :
  moves wb w -> respectful w /\ Good q (sv_shared w) /\ held q (cl_run c) (sv_shared w).
Proof.
  intros Hm. split_and!.
  - by eapply (moves_respectful q (prompt q)).
  - by eapply (moves_good q (prompt q)).
  - destruct Hm as (_ & HG & _). by eapply (stable_held q (prompt q)).
Qed.

Lemma synced_step d w ps d1 w1 :
  synced wb d w -> appended d d1 ps -> keeps_cell (cl_run c) w w1 -> synced wb d1 w1.
Proof.
  intros [Hm Hr Hl Hs] (new & -> & _) [Hw Hc].
  destruct (moved_on w Hm) as (? & ? & ?). specialize (Hw ltac:(done) ltac:(done) ltac:(done)).
  split; rewrite ?Hc; simpl; [by etrans|done|rewrite length_app; lia|]. by rewrite take_app_le.
Qed.

(** What the boundary leaves. *)
Lemma at_boundary_leaves d w b w1 :
  synced wb d w -> at_boundary wk c d w = (b, w1) ->
  moves wb w1 /\
  match b with
  | Continue => rc_refused (cell w1) = None /\
      (cell w1 = cell w \/ rc_seen (cell w1) = length (d_events d))
  | Cancel => cell w1 = cell w
  | Pause => exists r, rc_refused (cell w1) = Some r /\ reports True (cl_run c) r (sv_shared w1)
  end.
Proof.
  intros [Hm Hr Hl Hs] E. unfold at_boundary, bind in E.
  destruct (moved_on w Hm) as (Hr0 & Hg0 & Hh0).
  pose proof (in_run_cell (worker_stopped (cl_run c)) w) as C1.
  destruct (triple_in_run _ _ _ (triple_worker_stopped wk (prompt q) _ (cl_run c)
    (stable_held q (prompt q) (cl_run c))) w) as [M1 K1]; [done..|].
  destruct (in_run (worker_stopped (cl_run c)) w) as [[] w2]; cbn [fst snd] in *.
  { injection E as <- <-. split; [by etrans|done]. }
  assert (moves wb w2) as Hm2 by (by etrans). unfold get_cell in E. rewrite C1 in E.
  destruct (drop _ (d_events d)) as [|e new] eqn:En.
  { injection E as <- <-. split; [done|]. rewrite C1. by split; [|left]. }
  destruct (moved_on w2 Hm2) as (Hr2 & Hg2 & Hh2). cbn [fst snd] in E.
  destruct (triple_in_run _ _ _ (triple_worker_append wk Hq (prompt q) c (rc_seen (cell w)) (e :: new)) w2)
    as [M2 [K2 Hrep]]; [done..|].
  pose proof (in_run_cell (append wk c (rc_seen (cell w)) (e :: new)) w2) as C2. rewrite C1 in C2.
  destruct (in_run (append wk c (rc_seen (cell w)) (e :: new)) w2) as [r w3]; cbn [fst snd] in *.
  assert (moves wb w3) as Hm3 by (by etrans).
  assert (forall rc, moves wb (set_cell rc w3).2) as Hm4 by (intros rc; done).
  destruct r as [[[]| |]|]; injection E as <- <-; (split; [apply Hm4|]); simpl;
    try (eexists; split; [reflexivity|done]).
  by split; [|right].
Qed.

Lemma boundary_goes_on d w w1 :
  synced wb d w -> alive (d_spec d) (payload <$> d_events d) ->
  at_boundary wk c d w = (Continue, w1) -> synced wb d w1.
Proof.
  intros Hsy [_ Ha] E. destruct (at_boundary_leaves d w _ _ Hsy E) as [Hm [Hr Hc]].
  rewrite <-has_terminal_ended in Ha. split; [done|done|..];
    (destruct Hc as [-> | ->]; [apply Hsy|]); [done|by rewrite firstn_all].
Qed.

(** How the driver comes back: paused, with why in the cell, or with what is
    left to store. *)
Definition came_back spec (outcome : result unit DeciderError) (d : Driver RW) (w : RW) : Prop :=
  moves wb w /\
  ((exists r, rc_refused (cell w) = Some r /\ reports True (cl_run c) r (sv_shared w)) \/
   rc_refused (cell w) = None /\
   has_terminal (take (rc_seen (cell w)) (d_events d)) = false /\
   (outcome = Ok tt -> has_terminal (d_events d) = true \/
      exists st a m, harness (fold spec (d_events d)) = WaitingForMessage st a m)).

Lemma returned_came_back spec r d w :
  returned (keeps_cell (cl_run c)) (at_boundary wk c) (synced wb) r d w ->
  agrees spec (payload <$> d_events d) -> d_spec d = spec -> came_back spec r d w.
Proof.
  intros Hret Hag Hs.
  assert (forall w0, synced wb d w0 -> moves wb w0 /\ rc_refused (cell w0) = None /\
    has_terminal (take (rc_seen (cell w0)) (d_events d)) = false) as Hsync by (by intros w0 []).
  destruct Hret as [Hsy Hr|w0 -> Hsy Ha Eb|d0 w0 w1 -> Hsy Ha Eb Happ Hk].
  - destruct (Hsync w Hsy) as (Hm & Href & Hst). split; [done|]. right. split_and!; [done|done|].
    intros ->. rewrite has_terminal_ended. destruct Hr as [Hr|[Hr|Hr]]; [|by left|].
    + left. apply Hag. rewrite <-Hs. by rewrite <-harness_folded.
    + right. destruct Hr as (st & a & m & Hr). exists st, a, m. rewrite <-Hs. exact Hr.
  - destruct (at_boundary_leaves d w0 _ _ Hsy Eb) as [Hm Hp]. split; [done|]. by left.
  - destruct (at_boundary_leaves d0 w0 _ _ Hsy Eb) as [Hm Hc].
    assert (synced wb d0 w1) as Hsy1 by (split; rewrite ?Hc; [done|apply Hsy..]).
    pose proof (synced_step _ _ _ _ _ Hsy1 Happ Hk) as [Hm' Href _ Hst].
    split; [done|]. right. split_and!; [done|done|]. intros _. left.
    rewrite has_terminal_ended, (appended_log _ _ _ Happ). unfold ended.
    by rewrite existsb_app, orb_true_r.
Qed.

End Boundary.

(** A handler that leaves the cell as it is. *)
Lemma triple_store_tail c spec outcome (d : Driver RW) seen :
  d_spec d = spec -> has_terminal (take seen (d_events d)) = false ->
  (outcome = Ok tt -> has_terminal (d_events d) = true \/
     exists st a m, harness (fold spec (d_events d)) = WaitingForMessage st a m) ->
  triple (X := RunCell * RunMemory X) q (prompt q) (held q (cl_run c))
    (store_tail wk c spec outcome d seen)
    (fun r s => held q (cl_run c) s /\ reports True (cl_run c) r s).
Proof.
  intros Hs Hst Hok. unfold store_tail.
  set (new := drop seen (d_events d)).
  assert (has_terminal (d_events d) = has_terminal new) as Hnew.
  { rewrite <-(take_drop seen (d_events d)) at 1. unfold has_terminal in *.
    by rewrite existsb_app, Hst. }
  eapply (triple_bind q (prompt q)) with (Q := fun tail s =>
    (has_terminal tail = true \/ exists st a m, harness (state d) = WaitingForMessage st a m) /\
    held q (cl_run c) s).
  - destruct outcome as [[]|error].
    + apply (triple_done q (prompt q)). intros s _ Hh. split; [|done]. rewrite <-Hnew.
      destruct (Hok eq_refl) as [|(st & a & m & Hw)]; [by left|right]. exists st, a, m.
      unfold state. by rewrite Hs.
    + eapply (triple_bind q (prompt q)); [apply (triple_draws q (prompt q)), draws_recorded|].
      intros e. apply (triple_pure q (prompt q)). intros [He _].
      apply (triple_done q (prompt q)). intros s _ Hh. split; [|done]. left.
      unfold has_terminal. rewrite existsb_app. simpl. by rewrite He, !orb_true_r.
  - intros tail. apply (triple_pure q (prompt q)). intros Htail.
    apply (triple_try q (prompt q)) with (Q := fun r s => held q (cl_run c) s /\
      reports (has_terminal tail = true) (cl_run c) r s).
    + destruct tail as [|e tail].
      * apply (triple_done q (prompt q)). by intros s _ Hh.
      * apply triple_in_run, (triple_worker_append wk Hq (prompt q)).
    + intros stopped. apply (triple_done q (prompt q)). intros s _ [Hh Hr]. split; [done|].
      destruct stopped as [[]| |]; simpl in *; try done.
      destruct (harness (state d)) eqn:Eh; simpl; try done; intros _; apply Hr;
        destruct Htail as [|(? & ? & ? & ?)]; done.
    + by intros e s.
Qed.

Lemma triple_delegation P spec :
  stable q (prompt q) P -> triple (X := X) q (prompt q) P (delegation spec) (fun _ => P).
Proof.
  intros HP. unfold delegation. destruct (_ && _); [by apply (triple_done q (prompt q))|].
  eapply (triple_bind q (prompt q)); [by apply (triple_read q (prompt q))|].
  intros found. by apply (triple_done q (prompt q)).
Qed.

Lemma triple_named_tools P spec :
  stable q (prompt q) P -> triple (X := X) q (prompt q) P (named_tools wk spec) (fun _ => P).
Proof.
  intros HP. unfold named_tools. destruct (wk_catalog wk); [|by apply (triple_done q (prompt q))].
  eapply (triple_try_with q (prompt q)); [by apply (triple_read q (prompt q))| |done].
  intros found. by apply (triple_done q (prompt q)).
Qed.

Lemma triple_load_tools P named :
  triple (X := X) q (prompt q) P (load_tools (wk_catalog wk) named) (fun _ => P).
Proof.
  unfold load_tools. destruct (wk_catalog wk) as [load|]; [|by apply (triple_done q (prompt q))].
  destruct (existsb _ named); [|by apply (triple_done q (prompt q))].
  eapply (triple_bind q (prompt q)); [apply (triple_external q (prompt q))|].
  intros loaded. by apply (triple_done q (prompt q)).
Qed.

(** ** The whole run of a driver *)

Lemma bind_run {A B} (m : @M R (RunCell * RunMemory X) A) (k : A -> M B) (w : RW) a w1 :
  m w = (a, w1) -> bind m k w = k a w1.
Proof. unfold bind. by intros ->. Qed.

Section Driven.
Context (c : Claim) (wb : RW).
Hypothesis Hrespects : respectful wb.
Hypothesis Hgood : Good q (sv_shared wb).
Hypothesis Hheld : held q (cl_run c) (sv_shared wb).

(** From a point of the base's future where the cell is [rc]. *)
Definition fine (rc : RunCell) (m : @M R (RunCell * RunMemory X) (result Stopped string)) : Prop :=
  forall w, moves wb w -> cell w = rc ->
    moves wb (m w).2 /\ reports True (cl_run c) (m w).1 (sv_shared (m w).2).

Lemma fine_triple rc m :
  triple (X := RunCell * RunMemory X) q (prompt q) (held q (cl_run c)) m
    (fun r s => held q (cl_run c) s /\ reports True (cl_run c) r s) ->
  fine rc m.
Proof.
  intros Hm w Hmv _. destruct (moved_on c wb Hrespects Hgood Hheld w Hmv) as (Hr & Hg & Hh).
  destruct (Hm w Hr Hg Hh) as [Hm1 [_ Hs]]. split; [by etrans|done].
Qed.

Lemma fine_ret rc r : (forall s : Shared R, reports True (cl_run c) r s) -> fine rc (ret r).
Proof. by intros Hr w Hm _. Qed.

Lemma fine_bind {A} rc (m : @M R X A) k :
  triple (X := X) q (prompt q) (held q (cl_run c)) m (fun _ => held q (cl_run c)) ->
  (forall a, fine rc (k a)) -> fine rc (bind (in_run m) k).
Proof.
  intros Hm Hk w Hmv Hc. unfold bind.
  destruct (moved_on c wb Hrespects Hgood Hheld w Hmv) as (Hr & Hg & Hh).
  destruct (triple_in_run _ _ _ Hm w Hr Hg Hh) as [Hm1 _]. pose proof (in_run_cell m w) as Hc1.
  destruct (in_run m w) as [a w1]. simpl in *. apply Hk; [by etrans|congruence].
Qed.

(** A failure that is all that is written. *)
Lemma fine_fail rc spec seen tail class text :
  fine rc (bind (run_failed_event spec class text)
             (fun failed => in_run (append wk c seen (tail ++ [failed])))).
Proof.
  apply fine_triple. eapply (triple_bind q (prompt q)); [apply (triple_draws q (prompt q)), draws_recorded|].
  intros e. apply (triple_pure q (prompt q)). intros [He _].
  eapply (triple_post q (prompt q)); [apply triple_in_run, (triple_worker_append wk Hq (prompt q))|].
  intros r s _ [Hh Hr]. split; [done|]. eapply reports_weaken; [|exact Hr]. intros _.
  unfold has_terminal. rewrite existsb_app. simpl. by rewrite He, !orb_true_r.
Qed.

Lemma came_back_finishes spec outcome d w :
  d_spec d = spec -> came_back c wb spec outcome d w ->
  moves wb (finish_drive wk c spec outcome d w).2 /\
  reports True (cl_run c) (finish_drive wk c spec outcome d w).1
    (sv_shared (finish_drive wk c spec outcome d w).2).
Proof.
  intros Hs [Hm Hback]. unfold finish_drive, bind, get_cell.
  destruct Hback as [(r & -> & Hr)|(-> & Hst & Hok)]; [done|].
  pose proof (triple_store_tail c spec outcome d _ Hs Hst Hok) as Ht%(fine_triple (cell w)). by apply Ht.
Qed.

Lemma fine_drive spec events jev named catalog (d : Driver RW) :
  rebuilt spec events d -> collaborators_ok (keeps_cell (cl_run c)) d ->
  has_terminal events = false ->
  fine (mkRunCell (length events) None)
    (bind (drive wk c spec jev (run_tools named catalog) d)
       (fun came_back => match came_back with
          | None => ret (Err "out of fuel")
          | Some (outcome, d) => finish_drive wk c spec outcome d
          end)).
Proof.
  intros Hre Hco Hev w Hm Hc. unfold bind at 1 2 3, drive. cbv beta.
  match goal with |- context [run_until ?a ?b ?m ?bd ?f d w] =>
    destruct (run_until a b m bd f d w) as [[r [d' w']]|] eqn:E end; [|done].
  assert (synced wb (set_first d [] None false) w) as Hsy.
  { pose proof Hre as (_ & _ & new & He & _). split; rewrite ?Hc; simpl; rewrite ?He; [done|done|..].
    - rewrite length_app. lia.
    - by rewrite take_app_length. }
  eapply (run_until_returned (keeps_cell (cl_run c))) in E as (Hret & Hag & Hs);
    [|apply keeps_stamp|apply keeps_message_id|intros; apply keeps_write| | | |
      |by eapply boundary_goes_on|exact Hre|exact Hco|exact Hsy].
  - apply came_back_finishes; [done|]. by apply returned_came_back.
  - intros tool input w0 (t & -> & _)%list_elem_of_fmap. apply keeps_external.
  - intros request w0. apply keeps_external.
  - intros view w0. apply keeps_external.
  - intros d0 w0 ps d1 w1 Hsy0 Hap Hk. by eapply (synced_step c wb).
Qed.

End Driven.

Lemma triple_run_driver c spec events :
  has_terminal events = false ->
  triple (X := X) q (prompt q) (held q (cl_run c))
    (with_run (mkRunCell (length events) None) (run_driver resume_debug wk c spec events))
    (fun r s => held q (cl_run c) s /\ reports True (cl_run c) r s).
Proof.
  intros Hev. apply triple_with_run. intros w Hc Hr Hg Hh.
  assert (forall p : result Stopped string * RW,
    moves w p.2 /\ reports True (cl_run c) p.1 (sv_shared p.2) ->
    moves w p.2 /\ held q (cl_run c) (sv_shared p.2) /\ reports True (cl_run c) p.1 (sv_shared p.2)) as Hheld.
  { intros p [Hm Hrep]. split_and!; [done| |done]. by destruct (moved_on c w Hr Hg Hh p.2 Hm) as (_ & _ & ?). }
  apply Hheld. clear Hheld. unfold run_driver.
  pose proof (resume_world (keeps_cell (cl_run c)) (keeps_stamp _) spec events w) as [[Hk Hc1] Hb].
  specialize (Hk Hr Hg Hh). unfold W in *. destruct (resume spec events w) as [res w1] eqn:E. cbn [fst snd] in Hk, Hc1, Hb.
  rewrite (bind_run _ _ _ _ _ E).
  rewrite Hc in Hc1. destruct res as [d|error].
  2: { exact (fine_fail c w Hr Hg Hh _ spec (length events) [] _ _ w1 Hk Hc1). }
  apply resume_rebuilt in E as Hre.
  pose proof (stable_held q (prompt q) (cl_run c)) as Hst.
  match goal with |- moves w (?m w1).2 /\ _ => enough (fine c w (mkRunCell (length events) None) m) as Hm
    by (by apply Hm) end.
  apply fine_bind; [done..|by apply (triple_holds wk Hq (prompt q))|]. intros [].
  2: { by apply fine_ret. }
  simpl. apply fine_bind; [done..|by apply triple_delegation|]. intros targets.
  assert (rebuilt spec events (equip wk d targets)) as Hre'.
  { destruct Hre as (Hs & Hf & Hn). unfold equip. destruct (wk_messages wk);
      (split_and!; [done|by eapply configured_first_ok; [|exact Hf]|done]). }
  destruct (wk_jev wk) as [jev|text]; [|by apply fine_fail].
  apply fine_bind; [done..|by apply triple_named_tools|]. intros [named|e]; [|by apply fine_ret].
  apply fine_bind; [done..|by apply triple_load_tools|]. intros [catalog|e]; [|by apply fine_ret].
  apply fine_drive; [done..| |done]. by apply equip_ok.
Qed.

End Drive.

(** ** A claim, from the queue to its acknowledgement *)

Section Work.
Context `{UuidCrate} {R X : Type} `{Redis R} `{!RedisLaws R} `{Memory X} `{SandboxHost X}
  `{GatewayPoster X}.
Context (resume_debug : ResumeError → string) (turn_debug : TurnError → string).
Context (wk : Worker X) (Hq : keys_ok (wk_queue wk)).

Let q : RunQueue := wk_queue wk.

Implicit Types (P : Shared R -> Prop) (c : Claim) (id : RunId).

Abbreviation triple := (triple (X := X) q (prompt q)).
Abbreviation stable := (stable q (prompt q)).

Abbreviation runs_well c m :=
  (triple (held q (cl_run c)) m
     (fun r s => held q (cl_run c) s /\ reports True (cl_run c) r s)).

Lemma triple_run_scheduled c spec events attempt :
  run_id spec = cl_run c -> has_terminal events = false ->
  runs_well c (run_scheduled resume_debug turn_debug wk c spec events attempt).
Proof.
  intros Hid Ht. unfold run_scheduled. destruct (is_turn spec).
  - by apply (triple_run_turn turn_debug wk Hq (prompt q)).
  - by apply triple_run_driver.
Qed.

Lemma draws_dispatch spec :
  draws (dispatch_events spec : @M R X _) (fun es => has_terminal es = false).
Proof.
  unfold dispatch_events, system_event.
  eapply draws_bind; [apply draws_recorded|]. intros e1 [P1 _].
  eapply draws_bind; [apply draws_recorded|]. intros e2 [P2 _].
  eapply draws_bind; [apply draws_recorded|]. intros e3 [P3 _].
  apply draws_ret. unfold has_terminal. simpl. by rewrite P1, P2, P3.
Qed.

Lemma triple_run_from c spec events attempt :
  run_id spec = cl_run c ->
  triple (fun s => held q (cl_run c) s /\ (has_terminal events = true -> closed s (cl_run c)))
    (run_from resume_debug turn_debug wk c spec events attempt)
    (fun r s => held q (cl_run c) s /\ reports True (cl_run c) r s).
Proof.
  intros Hid. unfold run_from. destruct (has_terminal events) eqn:Ht.
  { apply (triple_done q (prompt q)). intros s _ [Hh Hc]. split; [done|]. by apply Hc. }
  apply (triple_pre q (prompt q) (held q (cl_run c))); [|by intros s _ [? _]].
  eapply (triple_bind q (prompt q)); [apply (triple_worker_stopped wk (prompt q)), (stable_held q (prompt q))|].
  intros [].
  { by apply (triple_end_run_here wk Hq (prompt q) c spec attempt (length events) RunCancelled);
      [..|apply draws_recorded]. }
  destruct (dispatch _); try by apply triple_run_scheduled.
  eapply (triple_bind q (prompt q)); [apply (triple_draws q (prompt q)), draws_dispatch|].
  intros ladder. apply (triple_pure q (prompt q)). intros Hl.
  apply (triple_if_appended wk Hq (prompt q)), triple_run_scheduled; [done|].
  unfold has_terminal in *. by rewrite existsb_app, Ht.
Qed.

(** A loop over reloads reports the run as ended only where it ended. *)
Definition outcome_ok id (r : result Outcome string) (s : Shared R) : Prop :=
  match r with
  | Ok (Stored append) => reports True id (Ok (StoppedStore append)) s
  | _ => True
  end.

Lemma triple_store_from reloads c spec events attempt :
  run_id spec = cl_run c ->
  triple (fun s => held q (cl_run c) s /\ (has_terminal events = true -> closed s (cl_run c)))
    (store_from resume_debug turn_debug wk reloads c spec events attempt)
    (fun r s => held q (cl_run c) s /\ outcome_ok (cl_run c) r s).
Proof.
  intros Hid. revert events. induction reloads as [|reloads IH]; intros events; simpl;
    (eapply (triple_try q (prompt q)); [by apply triple_run_from| |by intros e s [? _]]);
    intros [[]| |ask]; try (apply (triple_done q (prompt q)); by intros s _ [? ?]).
  rewrite Hid. apply (triple_pre q (prompt q) (held q (cl_run c))); [|by intros s _ [? _]].
  eapply (triple_try_with q (prompt q)); [apply (triple_run_held wk (prompt q))| |by intros e s [? _]].
  intros [run|]; [|by apply (triple_done q (prompt q)); intros s _ [_ []]].
  eapply (triple_pre q (prompt q)); [apply IH|]. intros s _ [Hh Hs]. split; [done|].
  intros Ht. by eapply seen_closed.
Qed.

(** What is claimed is in the queue, and a run of the store. *)
Lemma claimed_held s token ms text id :
  Good q s -> (claim q (sh_queue s) token ms).1 = Some text -> id_parse text = Some id ->
  held q id (with_queue s (claim q (sh_queue s) token ms).2).
Proof.
  intros Hg Hc Hid. pose proof (queue_op_prompt q Hq s (QClaim token ms) Hg I) as [He _]; [done|].
  apply (ev_good q _ _ He) in Hg. simpl in Hg.
  destruct (claim q (sh_queue s) token ms) as [c r'] eqn:E. simpl in *. subst c.
  apply (claim_view q Hq) in E as [[? _]|(l & text' & _ & [[? _]|([= <-] & _ & Hv)])]; [done..|].
  assert (kept q r' text) as Hk.
  { right. left. destruct Hv as [_ -> _ _ _]. set_solver. }
  assert (text = id_display id) as -> by (by apply (good_texts q _ Hg); [left|]).
  split; [by apply (good_listed q _ Hg); left|by left].
Qed.

Lemma triple_claim token ms :
  triple (fun _ => True) (do_claim q token ms)
    (fun r s => match r with Ok (Some id) => held q id s | _ => True end).
Proof.
  eapply (triple_try q (prompt q)); [| |done].
  - apply (triple_queue_op q Hq (prompt q) _ (QClaim token ms) _ (fun o s =>
      forall text id, o = Some text -> id_parse text = Some id -> held q id s)); try done.
    intros s Hg _ text id. by apply claimed_held.
  - intros [text|]; [|by apply (triple_done q (prompt q))].
    destruct (id_parse text) as [id|] eqn:Hid.
    + apply (triple_done q (prompt q)). intros s _ [_ Hk]. by apply (Hk text).
    + apply (triple_try q (prompt q)) with (Q := fun _ _ => True); [|by intros u; apply (triple_done q (prompt q))|done].
      apply (triple_pre q (prompt q) (fun _ => True)); [|done].
      apply (triple_queue_silent q Hq (prompt q) _ (QAck text token)); [by intros s s'|done|].
      intros s _ _. split; [|done]. intros id run -> _. by rewrite id_parse_display in Hid.
Qed.

Lemma triple_claim_one :
  triple (fun _ => True) (claim_one wk)
    (fun r s => match r with Ok (Some c) => held q (cl_run c) s | _ => True end).
Proof.
  eapply (triple_bind q (prompt q)); [apply (triple_draws q (prompt q)), draws_random|].
  intros n. apply (triple_pure q (prompt q)). intros _. cbv zeta.
  eapply (triple_try q (prompt q)); [apply triple_claim| |done].
  intros [id|]; by apply (triple_done q (prompt q)).
Qed.

(** What may be acknowledged. *)
Definition done_ok c (d : Done) (s : Shared R) : Prop :=
  dn_claim d = c /\
  (dn_waiting d = None -> dn_recorded d <> Some Moved -> closed s (cl_run c)).

Definition done_or_failed c (r : result Done string) (s : Shared R) : Prop :=
  match r with Ok d => done_ok c d s | Err _ => True end.

Lemma triple_record e :
  (ex_stored e = None -> has_terminal (ex_events e) = true) ->
  let c := ex_claim e in
  triple (fun s => held q (cl_run c) s /\
      match ex_stored e with Some r => outcome_ok (cl_run c) r s | None => True end)
    (record e) (fun r s => held q (cl_run c) s /\ done_or_failed c r s).
Proof.
  intros He c. unfold record. fold c. destruct (ex_stored e) as [[[append|ask]|error]|] eqn:Es.
  - apply (triple_done q (prompt q)). intros s _ [Hh Hs]. split; [done|]. split; [done|].
    simpl. intros _ Hm. destruct append; simpl in Hs; [by apply Hs|done|done|by destruct Hm].
  - apply (triple_done q (prompt q)). by intros s _ [Hh _].
  - apply (triple_done q (prompt q)). by intros s _ [Hh _].
  - apply (triple_pre q (prompt q) (held q (cl_run c))); [|by intros s _ [? _]].
    eapply (triple_try_with q (prompt q));
      [by apply (triple_ending q (prompt q)); [apply (stable_held q (prompt q))|apply He]| |by intros e' s [? _]].
    intros append. apply (triple_done q (prompt q)). intros s _ [Hh Hs]. split; [done|]. split; [done|].
    simpl. intros _ _. destruct append; simpl in Hs; try done.
    destruct Hs as (s0 & Hs0 & Hn). by destruct (held_stored wk _ _ Hs0).
Qed.

(** A claim that is handed back keeps its place. *)
Lemma triple_release P id token : stable P -> triple P (do_release q id token) (fun _ => P).
Proof. intros HP. by apply (triple_queue_silent q Hq (prompt q) P (QRelease (id_display id) token)). Qed.

Definition prepared_ok c (r : result Prepared string) (s : Shared R) : Prop :=
  match r with
  | Ok (PreparedOpen o) => op_claim o = c /\ seen_run (cl_run c) (op_stored o) s /\
      run_id (sr_spec (op_stored o)) = cl_run c
  | Ok (PreparedDone d) => done_ok c d s
  | Err _ => True
  end.

Lemma triple_give_up c stored starts :
  triple (held q (cl_run c)) (fail_overdue wk c stored starts)
    (fun r s => held q (cl_run c) s /\ prepared_ok c r s).
Proof.
  pose proof (stable_held q (prompt q) (cl_run c)) as Hst. unfold fail_overdue.
  apply (triple_try q (prompt q)) with (Q := fun _ => held q (cl_run c)); [| |by intros e s].
  - destruct (is_box_turn _); [|by apply (triple_done q (prompt q))].
    eapply (triple_try_with q (prompt q)); [apply (triple_clean_from wk (prompt q))| |done].
    intros u. eapply (triple_bind q (prompt q)); [by apply (triple_holds wk Hq (prompt q))|].
    intros b. by apply (triple_done q (prompt q)).
  - intros []; simpl.
    2: { apply (triple_done q (prompt q)). intros s _ Hh. split; [done|]. split; [done|]. simpl. by intros _ []. }
    eapply (triple_bind q (prompt q)); [apply (triple_draws q (prompt q)), draws_recorded|].
    intros e. apply (triple_pure q (prompt q)). intros [He _].
    eapply (triple_try q (prompt q)).
    + eapply (triple_pre q (prompt q)).
      * apply (triple_record (mkExecuted c [e] None)). intros _. unfold has_terminal. simpl. by rewrite He.
      * by intros s _ Hh.
    + intros d. by apply (triple_done q (prompt q)).
    + by intros e' s [? _].
Qed.

Lemma triple_prepare c :
  triple (held q (cl_run c)) (prepare wk c) (fun r s => held q (cl_run c) s /\ prepared_ok c r s).
Proof.
  pose proof (stable_held q (prompt q) (cl_run c)) as Hst.
  assert (forall what error, triple (held q (cl_run c)) (hand_back wk c what error)
    (fun r s => held q (cl_run c) s /\ prepared_ok c r s)) as Hback.
  { intros what error. eapply (triple_bind q (prompt q)); [by apply triple_release|].
    intros r. by apply (triple_done q (prompt q)). }
  unfold prepare. eapply (triple_bind q (prompt q)); [apply (triple_run_held wk (prompt q))|].
  intros [[stored|]|error].
  - destruct (has_terminal (sr_events stored)) eqn:Ht.
    + apply (triple_done q (prompt q)). intros s _ [Hh Hs]. split; [done|]. split; [done|].
      intros _ _. by eapply seen_closed.
    + set (P s := held q (cl_run c) s /\ seen_run (cl_run c) stored s).
      assert (stable P) as HP by (apply (stable_and q (prompt q)); [done|apply stable_seen, _]).
      eapply (triple_bind q (prompt q)).
      { by apply (triple_script wk Hq (prompt q) P (QStart (id_display (cl_run c)))). }
      intros [starts|error].
      * destruct (_ <? starts)%N.
        -- apply (triple_pre q (prompt q) (held q (cl_run c))); [apply triple_give_up|by intros s _ [? _]].
        -- apply (triple_done q (prompt q)). intros s Hg [Hh Hs]. split; [done|]. split; [done|].
           split; [done|]. by eapply seen_run_id.
      * apply (triple_pre q (prompt q) (held q (cl_run c))); [apply Hback|by intros s _ [? _]].
  - apply (triple_done q (prompt q)). by intros s _ [_ []].
  - apply (triple_pre q (prompt q) (held q (cl_run c))); [apply Hback|by intros s _ [? _]].
Qed.

Lemma triple_answer_ask P spec : stable P -> triple P (answer_ask wk spec) (fun _ => P).
Proof.
  intros HP. unfold answer_ask. destruct (negb _); [by apply (triple_done q (prompt q))|].
  eapply (triple_bind q (prompt q)) with (Q := fun _ => P); [|by intros r; apply (triple_done q (prompt q))].
  eapply (triple_try_with q (prompt q)); [by apply (triple_read q (prompt q))| |done].
  intros [ask|]; [|by apply (triple_done q (prompt q))].
  eapply (triple_try_with q (prompt q)); [by apply (triple_read q (prompt q))| |done].
  intros [task|]; [|by apply (triple_done q (prompt q))].
  eapply (triple_bind q (prompt q)); [apply (triple_draws q (prompt q)), draws_task_answer|].
  intros [answer|]; apply (triple_pure q (prompt q)); intros Ha; [|by apply (triple_done q (prompt q))].
  apply (triple_delivered q Hq (prompt q)); [done|]. by eapply answers_is.
Qed.

Lemma triple_execute c o :
  op_claim o = c -> run_id (sr_spec (op_stored o)) = cl_run c ->
  triple (fun s => held q (cl_run c) s /\ seen_run (cl_run c) (op_stored o) s)
    (execute resume_debug turn_debug wk o)
    (fun e s => (ex_claim e = c /\ is_Some (ex_stored e)) /\ held q (cl_run c) s /\
       match ex_stored e with Some r => outcome_ok (cl_run c) r s | None => True end).
Proof.
  intros Hc Hid. unfold execute, store_as_it_goes. subst c.
  set (run := cl_run (op_claim o)) in *.
  apply (triple_bind q (prompt q)) with (Q := fun r s => held q run s /\ outcome_ok run r s).
  - rewrite <-Hid. apply (triple_pre q (prompt q) (fun s => held q (run_id (sr_spec (op_stored o))) s /\
      (has_terminal (sr_events (op_stored o)) = true -> closed s (run_id (sr_spec (op_stored o)))))).
    + by apply (triple_store_from RELOADS (mkClaim (run_id (sr_spec (op_stored o))) (cl_token (op_claim o)))).
    + intros s _ [Hh Hs]. split; [done|]. intros Ht. by eapply seen_closed.
  - intros r. set (P s := held q run s /\ outcome_ok run r s).
    assert (stable P) as HP.
    { apply (stable_and q (prompt q)); [apply (stable_held q (prompt q))|].
      intros s s' Hg HG. destruct r as [[append|]|]; [|done..].
      by apply (stable_reports wk (prompt q) True run (Ok (StoppedStore append))). }
    eapply (triple_bind q (prompt q)) with (Q := fun _ => P).
    + destruct r as [[[]|]|]; try (by apply (triple_done q (prompt q))). by apply triple_answer_ask.
    + intros []. apply (triple_done q (prompt q)). intros s _ [Hh Ho]. split_and!; [done|by eexists|done..].
Qed.

Lemma triple_ack_done c d :
  triple (fun s => held q (cl_run c) s /\ done_ok c d s) (ack_done wk d)
    (fun r s => match r with Ok run => held q run s | Err _ => True end).
Proof.
  apply (triple_pre q (prompt q) (fun s => dn_claim d = c /\ (held q (cl_run c) s /\
    (dn_waiting d = None -> dn_recorded d <> Some Moved -> closed s (cl_run c)))));
    [|intros s _ (Hh & Hd & Hc); tauto].
  apply (triple_pure q (prompt q)). intros Hd. unfold ack_done. rewrite Hd.
  set (id := cl_run c). pose proof (stable_held q (prompt q) id) as Hst.
  assert (forall A (m : @M R X (result A string)), triple (held q id) m (fun _ => held q id) ->
    triple (held q id) (try m (fun _ => ret (Ok id)))
      (fun r s => match r with Ok run => held q run s | Err _ => True end)) as Hthen.
  { intros A m Hm. eapply (triple_try q (prompt q)); [exact Hm| |done].
    intros u. by apply (triple_done q (prompt q)). }
  destruct (dn_waiting d) as [ask|].
  - apply (triple_pre q (prompt q) (held q id)); [|by intros s _ [? _]].
    eapply (triple_try q (prompt q)).
    { by apply (triple_script wk Hq (prompt q) _ (QPark (id_display id) (cl_token c) (id_display ask))). }
    2: done.
    intros []; [|by apply (triple_done q (prompt q))].
    eapply (triple_try_with q (prompt q)); [by apply (triple_read q (prompt q))| |done].
    intros found. cbv zeta. eapply (triple_bind q (prompt q)) with (Q := fun _ => held q id).
    + destruct (negb _); [by apply (triple_done q (prompt q))|by apply (triple_worker_stopped wk (prompt q))].
    + intros []; [|by apply (triple_done q (prompt q))]. apply Hthen.
      by apply (triple_script wk Hq (prompt q) _ (QWake (id_display id) (id_display ask))).
  - set (P s := held q id s /\ (None = None -> dn_recorded d <> Some Moved -> closed s id)).
    assert (dn_recorded d <> Some Moved ->
      triple P (let!? _ := do_ack q id (cl_token c) in ret (Ok id))
        (fun r s => match r with Ok run => held q run s | Err _ => True end))%rust as Hack.
    { intros Hm. apply (triple_pre q (prompt q) (fun s => held q id s /\ closed s id));
        [|by intros s _ [? Hc]; split; [|apply Hc]].
      eapply (triple_try q (prompt q)); [| |done].
      * apply (triple_queue_silent q Hq (prompt q) _ (QAck (id_display id) (cl_token c)));
          [apply (stable_and q (prompt q)); [done|apply (stable_closed q (prompt q))]|done|].
        intros s _ [_ Hc]. split; [|done]. intros id' run <-%id_display_inj Ho.
        by apply (open_not_closed _ _ _ Ho).
      * intros u. apply (triple_done q (prompt q)). by intros s _ [? _]. }
    destruct (dn_recorded d) as [[]|]; try (by apply Hack).
    apply (triple_pre q (prompt q) (held q id)); [|by intros s _ [? _]]. by apply Hthen, triple_release.
Qed.

Lemma triple_work_one :
  triple (fun _ => True) (work_one resume_debug turn_debug wk)
    (fun r s => match r with Ok (Some run) => held q run s | _ => True end).
Proof.
  unfold work_one. eapply (triple_try q (prompt q)); [apply triple_claim_one| |done].
  intros [c|]; [|by apply (triple_done q (prompt q))].
  eapply (triple_try q (prompt q)); [apply triple_prepare| |done]. intros prepared.
  apply (triple_try q (prompt q)) with (Q := fun r s => held q (cl_run c) s /\ done_or_failed c r s).
  - destruct prepared as [o|d]; [|by apply (triple_done q (prompt q))].
    apply (triple_pre q (prompt q) (fun s => (op_claim o = c /\ run_id (sr_spec (op_stored o)) = cl_run c) /\
      held q (cl_run c) s /\ seen_run (cl_run c) (op_stored o) s)); [|by intros s _ (? & ? & ? & ?)].
    apply (triple_pure q (prompt q)). intros [Hc Hid].
    eapply (triple_bind q (prompt q)); [by apply triple_execute|]. intros e.
    apply (triple_pure q (prompt q)). intros [<- [r Hr]]. apply triple_record. by rewrite Hr.
  - intros d. eapply (triple_try q (prompt q)); [apply triple_ack_done| |done].
    intros run. by apply (triple_done q (prompt q)).
  - done.
Qed.

(** C2. A worker strands nothing: claiming a run, preparing it, running it from
    its log (a coworker turn, or the driver with its children, messages, tools
    and models), recording how it ended and acknowledging it, among any other
    processes that follow the rules, with any call of the store or of Redis
    failing, any answer from outside and the process dying at any point, keeps
    the rules at every step; and a run that was worked is afterwards still in
    the queue, or has ended. *)
Theorem worker_strands_nothing (w : Server R X) :
  respectful q (prompt q) w -> Good q (sv_shared w) ->
  keeps q (prompt q) w (work_one resume_debug turn_debug wk w).2 /\
  forall run, (work_one resume_debug turn_debug wk w).1 = Ok (Some run) ->
    held q run (sv_shared (work_one resume_debug turn_debug wk w).2).
Proof.
  intros Hr Hg. split; [by eapply triple_keeps; [apply _|apply triple_work_one|..]|].
  intros run E. destruct (triple_work_one w Hr Hg I) as [_ Hpost]. by rewrite E in Hpost.
Qed.

(** C3. A run a worker reports as ended has ended: when the loop over the log's
    reloads answers that the log took its events or was terminal, whatever ran
    it (the driver to its end, to a pause at a boundary or to a decider that
    failed, or a turn) and whatever was refused meanwhile, the stored log holds
    the run's end; and a run that is in the queue is never reported as not
    stored. *)
Theorem reported_end_is_so (w : Server R X) stored token attempt outcome w' :
  let id := run_id (sr_spec stored) in
  respectful q (prompt q) w -> Good q (sv_shared w) -> held q id (sv_shared w) ->
  seen_run id stored (sv_shared w) ->
  store_as_it_goes resume_debug turn_debug wk stored token attempt w = (Ok (Stored outcome), w') ->
  match outcome with
  | Appended | Terminal => closed (sv_shared w') id
  | Moved => True
  | Missing => False
  end.
Proof.
  intros id Hr Hg Hh Hs E.
  destruct (triple_store_from RELOADS (mkClaim id token) (sr_spec stored) (sr_events stored) attempt
    eq_refl w Hr Hg) as [_ [_ Hpost]].
  { split; [done|]. intros Ht. by eapply seen_closed. }
  unfold store_as_it_goes in E. fold id in E. rewrite E in Hpost. simpl in Hpost.
  destruct outcome; [by apply Hpost|done..].
Qed.

End Work.

(** The wait after failures is bounded: [backoff] is at most
    [max_backoff], never shrinks as failures go on, is [idle_wait] after the
    first one (capped), and doubles with each of the next sixteen failures
    until it is capped. *)
Theorem backoff_doubles_up_to_its_cap timing failures :
  (backoff timing failures <= max_backoff timing)%N /\
  (backoff timing failures <= backoff timing (failures + 1))%N /\
  backoff timing 1 = N.min (idle_wait timing) (max_backoff timing) /\
  ((1 <= failures)%N -> (failures <= 16)%N ->
   backoff timing (failures + 1) = N.min (2 * (2 ^ (failures - 1) * idle_wait timing)) (max_backoff timing)).
Proof.
  assert (forall n, (2 ^ N.min n 16 <= u32_max)%N) as Hcap.
  { intros n. etrans; [apply (N.pow_le_mono_r 2 _ 16); lia|]. by vm_compute. }
  assert (forall n, backoff timing n =
    N.min (idle_wait timing * 2 ^ N.min (sat_sub32 n 1) 16) (max_backoff timing))%N as Hb.
  { intros n. unfold backoff. by rewrite (N.min_l _ u32_max) by apply Hcap. }
  rewrite !Hb. unfold sat_sub32. split_and!.
  - apply N.le_min_r.
  - apply N.min_le_compat_r, N.mul_le_mono_l, N.pow_le_mono_r; lia.
  - change (2 ^ N.min (1 - 1) 16)%N with 1%N. by rewrite N.mul_1_r.
  - intros H1 H16. f_equal. rewrite N.min_l by lia.
    replace (failures + 1 - 1)%N with (N.succ (failures - 1)) by lia. rewrite N.pow_succ_r'. lia.
Qed.

(** ** A concrete worker *)

#[local] Instance demo_uuids : UuidCrate := hyphenated.

#[local] Instance demo_poster : GatewayPoster MemorySandbox :=
  {| complete _ x := (Ok "the answer", x) |}.

(** No shared memory. *)
#[local] Instance demo_no_memory : Memory MemorySandbox :=
  {| mem_read _ _ _ := Ok None; mem_write x _ _ _ := (Err (mkStoreError "no memory"), x) |}.

(** A decider that completes at once. *)
Definition demo_worker : Worker MemorySandbox :=
  mkWorker Queue.open QueueTiming_default true (Ok (fun _ x => (Ok (EComplete "done"), x)))
    (fun _ _ x => (Err "no model", x)) None.

(** The sample run, enqueued. *)
Definition queued_server : Server Db MemorySandbox :=
  (enqueue Queue.open sample_spec End (demo_server no_sandboxes)).2.

Abbreviation demo_work :=
  (work_one (fun _ => "resume") (fun _ => "turn") demo_worker queued_server).

Example demo_works :
  demo_work.1 = Ok (Some (id_of 1)) /\
  (payload <$> from_option sr_events [] (stored_run (sv_shared demo_work.2) (id_of 1))) =
    [RunCreated; RunQueued; UserMessage "hello"; RunScheduled; RunProvisioning; RunStarting; RunStarted;
     EffectDecided (EComplete "done"); EffectAuthorized (EComplete "done"); RunCompleted "done"] /\
  claimed Queue.open (sh_queue (sv_shared demo_work.2)) = [].
Proof. vm_compute. split_and!; reflexivity. Qed.

Lemma queued_moves : keeps Queue.open (prompt Queue.open) (demo_server no_sandboxes) queued_server.
Proof.
  eapply triple_keeps; [apply _|by apply (triple_enqueue Queue.open gol_ok)| |apply demo_good|done].
  by apply calm_respectful.
Qed.

Lemma queued_respectful : respectful Queue.open (prompt Queue.open) queued_server.
Proof. apply calm_respectful. vm_compute. reflexivity. Qed.

Lemma worker_strands_nothing_witness :
  keeps Queue.open (prompt Queue.open) queued_server demo_work.2 /\
  held Queue.open (id_of 1) (sv_shared demo_work.2).
Proof.
  destruct (worker_strands_nothing (fun _ => "resume") (fun _ => "turn") demo_worker gol_ok
    queued_server queued_respectful (proj2 queued_moves)) as [Hk Hh].
  split; [exact Hk|]. apply Hh. vm_compute. reflexivity.
Defined.

(** The same, claimed. *)
Definition claimed_server : Server Db MemorySandbox :=
  (do_claim Queue.open "t" 30000 queued_server).2.

Lemma claimed_held_now :
  respectful Queue.open (prompt Queue.open) claimed_server /\
  Good Queue.open (sv_shared claimed_server) /\ held Queue.open (id_of 1) (sv_shared claimed_server).
Proof.
  pose proof (triple_claim demo_worker gol_ok "t" 30000 queued_server queued_respectful
    (proj2 queued_moves) I) as [Hm Hh]. split_and!.
  - by eapply (moves_respectful Queue.open (prompt Queue.open)), queued_respectful.
  - by eapply (moves_good Queue.open (prompt Queue.open)), queued_moves.
  - revert Hh.
    assert ((do_claim (wk_queue demo_worker) "t" 30000 queued_server).1 = Ok (Some (id_of 1))) as ->
      by (vm_compute; reflexivity). done.
Qed.

Lemma claimed_stored :
  exists stored, stored_run (sv_shared claimed_server) (id_of 1) = Some stored /\
    run_id (sr_spec stored) = id_of 1 /\
    (store_as_it_goes (fun _ => "resume") (fun _ => "turn") demo_worker stored "t" 1 claimed_server).1 =
      Ok (Stored Appended).
Proof.
  assert (match stored_run (sv_shared claimed_server) (id_of 1) with
    | Some stored => run_id (sr_spec stored) = id_of 1 /\
        (store_as_it_goes (fun _ => "resume") (fun _ => "turn") demo_worker stored "t" 1 claimed_server).1 =
          Ok (Stored Appended)
    | None => False end) as Hs by (vm_compute; split; reflexivity).
  destruct (stored_run _ _) as [stored|]; [|done]. by exists stored.
Qed.

Lemma reported_end_is_so_witness :
  exists stored, closed (sv_shared (store_as_it_goes (fun _ => "resume") (fun _ => "turn") demo_worker
    stored "t" 1 claimed_server).2) (id_of 1).
Proof.
  destruct claimed_stored as (stored & Hs & Hid & Hr). destruct claimed_held_now as (Hresp & Hg & Hh).
  exists stored. destruct (store_as_it_goes _ _ demo_worker stored "t" 1 claimed_server) as [r w'] eqn:E.
  simpl in Hr. subst r. rewrite <-Hid in *.
  refine (reported_end_is_so (fun _ => "resume") (fun _ => "turn") demo_worker gol_ok claimed_server
    stored "t" 1 Appended w' Hresp Hg Hh _ E).
  by exists stored.
Defined.

Lemma backoff_doubles_up_to_its_cap_witness :
  backoff QueueTiming_default 4 = 4000%N /\ (backoff QueueTiming_default 40 <= 30000)%N.
Proof.
  split.
  - destruct (backoff_doubles_up_to_its_cap QueueTiming_default 3) as (_ & _ & _ & Hd).
    refine (eq_trans (Hd _ _) _); [lia|lia|reflexivity].
  - apply (backoff_doubles_up_to_its_cap QueueTiming_default 40).
Defined.
