(* ===== verification/WorkerBox.v ===== *)
(** * Box turns end clean

    A Box turn that a worker runs may have started in several sandboxes, one
    for each time the run was started, on a host that the other workers, the
    later attempts and the sweeps use meanwhile ([Sandbox.Hosted]).  No handler
    of the worker ends it before the host confirmed, to that handler, that
    each attempt's sandbox up to its own is gone; the later attempts' are left
    to the sweep. *)

From S2P Require Import Prelude Text Protocol Uuids MemoryOwner SpecBuilder Reduce Store.
From S2P Require Import StoreProofs StoreTriggers StoreMessages StoreStops Queue QueueProofs.
From S2P Require Import Driver Server ServerLogic Sandbox Turns Worker.

Section Box.
Context `{UuidCrate} {R X : Type} `{Redis R} `{SandboxLaws X} `{GatewayPoster X}.

(** The gateway call, with the others on the host while it lasts. *)
#[export] Instance hosted_poster : GatewayPoster (Hosted X) :=
  {| complete call := hosted (complete call) |}.

Context (wk : Worker (Hosted X)).

Implicit Types (c : Claim) (run : RunId) (v : Hosted X) (w : Server R (Hosted X)).

(** ** What the host told the worker *)

(** [v'] comes after [v]: the same others, and no answer forgotten. *)
Definition later v v' : Prop :=
  ho_others v' = ho_others v /\ ho_absent v `suffix_of` ho_absent v'.

(** Between [v] and [v'] the host confirmed that [name] is not there, and it
    was not. *)
Definition confirmed_since v v' (name : string) : Prop :=
  exists new x, ho_absent v' = new ++ ho_absent v /\ (name, x) ∈ new /\ name ∉ live x.

(** The others do not start [name]. *)
Definition leaves (name : string) v : Prop :=
  forall n x, name ∉ live x -> name ∉ live (ho_others v n x).

Lemma later_refl v : later v v.
Proof. by split. Qed.

Lemma later_trans v1 v2 v3 : later v1 v2 -> later v2 v3 -> later v1 v3.
Proof. intros [? ?] [? ?]. split; [congruence|by etrans]. Qed.

Lemma later_confirmed v1 v2 v3 name :
  later v1 v2 -> confirmed_since v2 v3 name -> confirmed_since v1 v3 name.
Proof.
  intros [_ [l Hl]] (new & x & Hn & Hin & Hg). exists (new ++ l), x.
  rewrite Hn, Hl, app_assoc. split_and!; [done| |done]. rewrite elem_of_app. by left.
Qed.

Lemma confirmed_later v1 v2 v3 name :
  confirmed_since v1 v2 name -> later v2 v3 -> confirmed_since v1 v3 name.
Proof.
  intros (new & x & Hn & Hin & Hg) [_ [l Hl]]. exists (l ++ new), x.
  rewrite Hl, Hn, app_assoc. split_and!; [done| |done]. rewrite elem_of_app. by right.
Qed.

Lemma later_hosted {A} (f : X -> A * X) v : later v (hosted f v).2.
Proof. unfold hosted. by destruct (f (ho_found v)). Qed.

Lemma later_absent name v : later v (hosted_absent name v).2.
Proof.
  unfold hosted_absent, hosted. destruct (absent name (ho_found v)) as [[[]|] x]; try done.
  split; [done|]. by exists [(name, ho_found v)].
Qed.

(** A host that was asked and says the sandbox is not there. *)
Lemma absent_confirms name v v' :
  hosted_absent name v = (Ok true, v') -> confirmed_since v v' name /\ name ∉ live (ho_host v').
Proof.
  unfold hosted_absent, hosted.
  pose proof (absent_live name (ho_found v)) as Hl.
  destruct (absent name (ho_found v)) as [[[]|] x] eqn:E; intros [= <-]. simpl in *.
  apply absent_gone in E. split; [|done]. exists [(name, ho_found v)], (ho_found v). simpl.
  split_and!; [done|by left|by rewrite <-Hl].
Qed.

(** A sandbox that is gone and that the others leave alone. *)
Definition stays_gone (name : string) v : Prop := leaves name v /\ name ∉ live (ho_host v).

Lemma stays_gone_destroy name name' v :
  stays_gone name v -> stays_gone name (hosted (destroy name') v).2.
Proof.
  intros [Hl Hg]. unfold hosted. pose proof (destroy_live name' (ho_found v)) as Hd.
  destruct (destroy name' (ho_found v)) as [r x]. split; [done|]. simpl in *.
  pose proof (Hl (ho_calls v) _ Hg). unfold ho_found in Hd. set_solver.
Qed.

Lemma stays_gone_absent name name' v :
  stays_gone name v -> stays_gone name (hosted_absent name' v).2.
Proof.
  intros [Hl Hg]. unfold hosted_absent, hosted. pose proof (absent_live name' (ho_found v)) as Hd.
  destruct (absent name' (ho_found v)) as [r x]. simpl in *.
  assert (name ∉ live x) by (rewrite Hd; by apply Hl). by destruct r as [[]|].
Qed.

(** ** Cleaning the attempts *)

Lemma rest_external {A} (I : Hosted X -> Prop) (f : Hosted X -> A * Hosted X) :
  (forall v, I v -> I (f v).2) -> rest_inv (R := R) I (external f).
Proof. intros Hf w HI. unfold external. specialize (Hf _ HI). by destruct (f (sv_rest w)). Qed.

Lemma rest_clean_from (I : Hosted X -> Prop) run from n :
  (forall name v, I v -> I (hosted (destroy name) v).2) ->
  (forall name v, I v -> I (hosted_absent name v).2) ->
  rest_inv (R := R) I (clean_from run from n).
Proof.
  intros Hd Ha. revert from. induction n as [|n IH]; intros from; simpl; [apply rest_ret|].
  apply rest_bind; [apply rest_external, Ha|].
  intros [[]|]; [apply IH|..]; (apply rest_bind; [apply rest_external, Hd|]);
    intros [u|[text]]; try apply rest_ret; (apply rest_bind; [apply rest_external, Ha|]);
    intros [[]|]; try apply rest_ret; apply IH.
Qed.

Lemma later_clean_from v run from n : rest_inv (R := R) (later v) (clean_from run from n).
Proof.
  apply rest_clean_from; intros name v' Hl; eapply later_trans, later_hosted ||
    eapply later_trans, later_absent; exact Hl.
Qed.

(** One attempt cleaned, then the others of the call. *)
Lemma clean_from_one run from n w w' :
  clean_from run from (S n) w = (Ok tt, w') ->
  exists w1, later (sv_rest w) (sv_rest w1) /\
    confirmed_since (sv_rest w) (sv_rest w1) (box_attempt_name run from) /\
    (box_attempt_name run from ∉ live (ho_host (sv_rest w1))) /\
    clean_from run (from + 1) n w1 = (Ok tt, w').
Proof.
  simpl. unfold bind, external. set (name := box_attempt_name run from).
  pose proof (later_absent name (sv_rest w)) as L1.
  destruct (hosted_absent name (sv_rest w)) as [there v1] eqn:E1. simpl in L1.
  destruct there as [[]|].
  { intros Hc. apply absent_confirms in E1 as [Hc1 Hg]. by exists (set_rest w v1). }
  all: pose proof (later_hosted (destroy name) v1) as L2; simpl;
    destruct (hosted (destroy name) v1) as [[u|[text]] v2] eqn:E2; [simpl in L2|done];
    pose proof (later_absent name v2) as L3;
    change (sv_rest (set_rest (set_rest w v1) v2)) with v2;
    destruct (hosted_absent name v2) as [[[]|] v3] eqn:E3; simpl; try done; simpl in L3;
    intros Hc; apply absent_confirms in E3 as [Hc3 Hg]; exists (set_rest (set_rest (set_rest w v1) v2) v3);
    (split_and!; [by eapply later_trans, later_trans| |done|done]);
    eapply later_confirmed; [by eapply later_trans|done].
Qed.

(** The attempts that were cleaned were confirmed gone, and are gone unless
    others started them again. *)
Lemma clean_from_confirms run k n from w w' :
  clean_from run from n w = (Ok tt, w') -> (from <= k < from + N.of_nat n)%N ->
  confirmed_since (sv_rest w) (sv_rest w') (box_attempt_name run k) /\
  (leaves (box_attempt_name run k) (sv_rest w) ->
   box_attempt_name run k ∉ live (ho_host (sv_rest w'))).
Proof.
  revert from w. induction n as [|n IH]; intros from w; [lia|]. intros Hc Hk.
  apply clean_from_one in Hc as (w1 & L1 & Hc1 & Hg & Hc). destruct (decide (k = from)) as [->|].
  - pose proof (later_clean_from (sv_rest w1) run (from + 1) n w1 (later_refl _)) as L2.
    pose proof (rest_clean_from (stays_gone (box_attempt_name run from)) run (from + 1) n
      (stays_gone_destroy _) (stays_gone_absent _) w1) as Hs.
    rewrite Hc in L2, Hs. simpl in *. split; [by eapply confirmed_later|].
    intros Hl. apply Hs. split; [|done]. intros m x. destruct L1 as [-> _]. apply Hl.
  - destruct (IH (from + 1)%N w1 Hc) as [Hc' Hg']; [lia|]. split; [by eapply later_confirmed|].
    intros Hl. apply Hg'. intros m x. destruct L1 as [-> _]. apply Hl.
Qed.

(** ** Handlers that clean before they end the run *)

(** From [w] to [w'] run [run] was not ended by the process; or it was, after
    [clean_box] had found every attempt up to [attempts] gone ([w1]): nothing
    before that ended the run, and the host was not called after it. *)
Definition ends_cleaned run (attempts : N) w w' : Prop :=
  (exists own, sv_steps w' = own ++ sv_steps w /\
     Forall (fun step => not_ended run step.1 step.2) own) \/
  exists w0 w1 early late,
    clean_box run attempts w0 = (Ok tt, w1) /\ later (sv_rest w) (sv_rest w0) /\
    sv_steps w1 = early ++ sv_steps w /\ Forall (fun step => not_ended run step.1 step.2) early /\
    sv_steps w' = late ++ sv_steps w1 /\ sv_rest w' = sv_rest w1.

Definition cleans run (attempts : N) {A} (m : @M R (Hosted X) A) : Prop :=
  forall w, ends_cleaned run attempts w (m w).2.

Definition remembers {A} (m : @M R (Hosted X) A) : Prop := forall v, rest_inv (later v) m.

Lemma remembers_external {A} (f : X -> A * X) : remembers (external (hosted f)).
Proof. intros v. apply rest_external. intros v' Hl. eapply later_trans; [done|apply later_hosted]. Qed.

Section Run.
Context (run : RunId) (attempts : N).
Abbreviation cleans := (cleans run attempts).

Lemma cleans_quiet {A} (m : @M R (Hosted X) A) : only (not_ended run) m -> cleans m.
Proof. intros Hm w. by left. Qed.

Lemma cleans_ret {A} (a : A) : cleans (ret a).
Proof. apply cleans_quiet, only_ret. Qed.

Lemma cleans_then {A B} (m : @M R (Hosted X) A) (k : A -> M B) :
  only (not_ended run) m -> remembers m -> (forall a, cleans (k a)) -> cleans (bind m k).
Proof.
  intros Hm Hr Hk w. unfold bind. destruct (Hm w) as (own & Ho & Hf).
  specialize (Hr (sv_rest w) w (later_refl _)). destruct (m w) as [a w1]. simpl in *.
  destruct (Hk a w1) as [(own' & Ho' & Hf')|(v0 & v1 & early & late & Hc & Hl & He & Hfe & Hs & Hrest)].
  - left. exists (own' ++ own). rewrite Ho', Ho, app_assoc. split; [done|]. by apply Forall_app.
  - right. exists v0, v1, (early ++ own), late. split_and!;
      [done|by eapply later_trans|by rewrite He, Ho, app_assoc|by apply Forall_app|done|done].
Qed.

Lemma only_clean_from Φ run' from n : only (X := Hosted X) (R := R) Φ (clean_from run' from n).
Proof.
  revert from. induction n as [|n IH]; intros from; simpl; [apply only_ret|].
  apply only_bind; [apply only_external|].
  intros [[]|]; [apply IH|..]; (apply only_bind; [apply only_external|]);
    intros [u|[text]]; try apply only_ret; (apply only_bind; [apply only_external|]);
    intros [[]|]; try apply only_ret; apply IH.
Qed.

(** Once every attempt was cleaned, what follows may end the run. *)
Lemma clean_then_end {B} (k : result unit string -> @M R (Hosted X) B) :
  (forall v, rest_inv (eq v) (k (Ok tt))) -> only (fun _ _ => True) (k (Ok tt)) ->
  (forall e, only (not_ended run) (k (Err e))) ->
  cleans (bind (clean_box run attempts) k).
Proof.
  intros Hm Ho He w. unfold bind, clean_box.
  destruct (only_clean_from (not_ended run) run 1 (N.to_nat attempts) w) as (own & Hs & Hf).
  destruct (clean_from run 1 (N.to_nat attempts) w) as [[[]|e] w1] eqn:Ec; simpl in *.
  - right. destruct (Ho w1) as (late & Hl & _). exists w, w1, own, late.
    split_and!; [exact Ec|apply later_refl|done|done|done|]. symmetry. by apply Hm.
  - left. destruct (He e w1) as (own' & Hs' & Hf'). exists (own' ++ own).
    rewrite Hs', Hs, app_assoc. split; [done|]. by apply Forall_app.
Qed.

End Run.

Section Handlers.
Context (run : RunId) (attempts : N).
Abbreviation cleans := (cleans run attempts).

Lemma only_queue_quiet {A} (f : R -> A * R) : only (not_ended run) (queue_call f : @M R (Hosted X) _).
Proof. apply only_call; intros s Hc; [done|]. by destruct (f (sh_queue s)). Qed.

Lemma holds_quiet c : only (not_ended run) (holds wk c : @M R (Hosted X) bool).
Proof. apply only_bind; [apply only_queue_quiet|]. intros r. apply only_ret. Qed.

Lemma holds_remembers c : remembers (holds wk c : @M R (Hosted X) bool).
Proof. intros v. apply rest_bind; [apply rest_call|auto with rest]. Qed.

Lemma recorded_quiet spec a p : only (not_ended run) (recorded spec a p : @M R (Hosted X) Event).
Proof. eapply only_draws, draws_recorded. Qed.

Lemma recorded_remembers spec a p : remembers (recorded spec a p : @M R (Hosted X) Event).
Proof. intros v. apply rest_recorded. Qed.

Lemma only_all_call {A E} (e : E) (f : Shared R -> result A E * Shared R) :
  only (fun _ _ => True) (call e f : @M R (Hosted X) _).
Proof. by apply only_call. Qed.

Lemma only_all_append id es :
  only (fun _ _ => True) (do_append_events id es : @M R (Hosted X) _).
Proof. apply only_bind; [eapply only_draws, draws_now|]. intros t. apply only_all_call. Qed.

Lemma cleans_end_box c spec last :
  run_id spec = run -> cleans (end_box wk c spec attempts last).
Proof.
  intros Hid. unfold end_box. rewrite Hid. apply clean_then_end; [| |intros; apply only_ret].
  - intros v. apply rest_bind.
    + apply rest_bind; [apply rest_call|auto with rest].
    + intros []; simpl; [|apply rest_ret].
      apply rest_try_with; [apply rest_bind; [apply rest_now|intros; apply rest_call]|auto with rest].
  - apply only_bind; [apply only_bind; [apply only_all_call|intros; apply only_ret]|].
    intros []; simpl; [|apply only_ret].
    apply only_try_with; [apply only_all_append|intros; apply only_ret].
Qed.

(** A handler that gives the turn up once its lease is lost. *)
Lemma cleans_lease c (m lost : @M R (Hosted X) (result Stopped string)) :
  cleans m -> cleans lost ->
  cleans (bind (holds wk c) (fun held => if negb held then lost else m)).
Proof.
  intros Hm Hl. apply cleans_then; [apply holds_quiet|apply holds_remembers|]. by intros [].
Qed.

Lemma cleans_lost own :
  cleans (bind (drop_own own) (fun _ => ret (Ok LostLease)) : @M R (Hosted X) (result Stopped string)).
Proof.
  apply cleans_quiet, only_bind; [|intros; apply only_ret].
  apply only_bind; [apply only_external|intros; apply only_ret].
Qed.

Lemma cleans_run_box_turn c spec :
  run_id spec = run -> cleans (run_box_turn wk c spec attempts).
Proof.
  intros Hid. unfold run_box_turn. apply cleans_lease; [|apply cleans_ret].
  apply cleans_then; [apply only_external|apply remembers_external|]. intros [u|[text]].
  2: { apply cleans_then; [apply recorded_quiet|apply recorded_remembers|].
       intros e. by apply cleans_end_box. }
  apply cleans_lease; [|apply cleans_lost].
  apply cleans_then.
  { apply only_bind; [apply only_read_quiet|intros; apply only_ret]. }
  { intros v. apply rest_bind; [apply rest_call|auto with rest]. }
  intros [].
  { apply cleans_then; [apply recorded_quiet|apply recorded_remembers|].
    intros e. by apply cleans_end_box. }
  apply cleans_then; [apply only_external|apply remembers_external|]. intros answer.
  apply cleans_lease; [|apply cleans_lost].
  apply cleans_then; [| |by intros last; apply cleans_end_box].
  - destruct answer as [text|text]; [eapply only_draws, draws_completion|].
    apply only_bind; [apply recorded_quiet|intros; apply only_ret].
  - intros v. destruct answer as [text|text]; [apply completion_rest|].
    apply rest_bind; [apply rest_recorded|auto with rest].
Qed.

Lemma cleans_end_run_here c spec seen m :
  run_id spec = run -> is_box_turn spec = true -> only (not_ended run) m -> remembers m ->
  cleans (end_run_here wk c spec attempts seen m).
Proof.
  intros Hid Hb Hm Hr. unfold end_run_here. rewrite Hb. apply cleans_then; [done..|].
  intros last. by apply cleans_end_box.
Qed.

End Handlers.

(** A run given up is cleaned of the sandboxes it can have. *)
Lemma cleans_give_up c stored starts :
  is_box_turn (sr_spec stored) = true ->
  cleans (cl_run c) (N.min starts (max_deliveries (wk_timing wk)))
    (fail_overdue wk c stored starts : @M R (Hosted X) _).
Proof.
  intros Hb. unfold fail_overdue. rewrite Hb. intros w. unfold try, try_with at 1.
  rewrite bind_assoc. revert w. apply clean_then_end; [| |intros; apply only_ret].
  - intros v. apply rest_bind.
    { apply rest_bind; [apply rest_bind; [apply rest_call|auto with rest]|auto with rest]. }
    intros [[]|e]; simpl; [|auto with rest..]. apply rest_bind; [apply rest_recorded|]. intros e.
    apply rest_try; [|auto with rest]. unfold record. simpl.
    apply rest_try_with; [apply rest_bind; [apply rest_now|intros; apply rest_call]|auto with rest].
  - apply only_bind.
    { apply only_bind; [apply only_bind; [apply only_all_call|intros; apply only_ret]|].
      intros held. apply only_ret. }
    intros [[]|e]; simpl; [|apply only_ret..].
    apply only_bind; [eapply only_draws, draws_recorded|]. intros e.
    apply only_try_with; [|intros; apply only_ret]. unfold record. simpl.
    apply only_try_with; [apply only_all_append|intros; apply only_ret].
Qed.

(** C10. A Box turn is ended on a clean host: whichever call of the store, of
    Redis or of the sandbox host fails, whatever the gateway answers, and
    whatever the other workers, the later attempts and the sweeps do to the
    store, the queue and the host meanwhile, running the turn, cancelling it
    and giving it up either leave the run as open as it was, or end it after
    the host confirmed to this worker, during this call, that the sandbox of
    each attempt up to this one is gone (of a run that is given up, up to the
    deliveries it can have had), each at a moment at which it was: nothing
    before the last confirmation ends the run, and nothing after it calls the
    host.  Such a sandbox is then up only if another process started it again;
    the sandboxes of later attempts are left to the sweep. *)
Theorem box_turn_ends_without_its_sandboxes (w : Server R (Hosted X)) c spec attempt seen stored
    starts :
  is_box_turn spec = true -> is_box_turn (sr_spec stored) = true ->
  let ends_clean {A} run attempts (r : A * Server R (Hosted X)) :=
    (exists own, sv_steps r.2 = own ++ sv_steps w /\
       Forall (fun step => closed step.2 run -> closed step.1 run) own) \/
    exists w0 w1 early late,
      clean_box run attempts w0 = (Ok tt, w1) /\
      sv_steps w1 = early ++ sv_steps w /\
      Forall (fun step => closed step.2 run -> closed step.1 run) early /\
      sv_steps r.2 = late ++ sv_steps w1 /\ sv_rest r.2 = sv_rest w1 /\
      forall k, (1 <= k <= attempts)%N ->
        confirmed_since (sv_rest w) (sv_rest r.2) (box_attempt_name run k) /\
        (leaves (box_attempt_name run k) (sv_rest w) ->
         box_attempt_name run k ∉ live (ho_host (sv_rest r.2))) in
  ends_clean (run_id spec) attempt (run_box_turn wk c spec attempt w) /\
  ends_clean (run_id spec) attempt
    (end_run_here wk c spec attempt seen (run_cancelled_event spec) w) /\
  ends_clean (cl_run c) (N.min starts (max_deliveries (wk_timing wk)))
    (fail_overdue wk c stored starts w).
Proof.
  intros Hb Hb' ends_clean.
  assert (forall A run attempts (r : A * Server R (Hosted X)),
    ends_cleaned run attempts w r.2 -> ends_clean A run attempts r) as Hends.
  { intros A run attempts r [Hq|(w0 & w1 & early & late & Hc & Hl & He & Hf & Hs & Hr)]; [by left|].
    right. exists w0, w1, early, late. split_and!; [done..|]. intros k Hk. rewrite Hr.
    destruct (clean_from_confirms run k _ _ _ _ Hc) as [Hk1 Hk2]; [lia|].
    split; [by eapply later_confirmed|]. intros Hlv. apply Hk2. intros n x. destruct Hl as [-> _].
    apply Hlv. }
  split_and!; apply Hends.
  - by apply cleans_run_box_turn.
  - apply cleans_end_run_here; [done..|apply recorded_quiet|apply recorded_remembers].
  - by apply cleans_give_up.
Qed.

End Box.

(** ** A concrete turn *)

#[local] Instance demo_uuids : UuidCrate := hyphenated.

#[local] Instance demo_poster : GatewayPoster MemorySandbox :=
  {| complete _ x := (Ok "the answer", x) |}.

Definition box_worker : Worker (Hosted MemorySandbox) :=
  mkWorker Queue.open QueueTiming_default true (Err "no decider") (fun _ _ x => (Err "no model", x)) None.

Definition box_turn_spec : RunSpec :=
  mkRunSpec (id_of 1) (owner sample_spec) (agent_id sample_spec) "1" "hello" PBox
    (work_model sample_spec) [] (limits sample_spec) {[TURN_KEY := "1"]} Lineage_default.

Definition box_claim : Claim := mkClaim (id_of 1) "t".

(** While the worker's second attempt calls the gateway, a third starts. *)
Definition third_starts (n : nat) (x : MemorySandbox) : MemorySandbox :=
  if (n =? 1)%nat then (provision (box_attempt_name (id_of 1) 3) x).2 else x.

(** A started turn, claimed, with the sandbox of its first start left up. *)
Definition box_server : Server Db (Hosted MemorySandbox) :=
  let stored := mkStoredRun box_turn_spec (sample_event <$> [RunCreated; RunStarted]) in
  let x := mkMemorySandbox {[box_attempt_name (id_of 1) 1]} [] ∅ in
  let w := (do_put_run stored (demo_server (mkHosted x third_starts 0 []))).2 in
  let w := (do_push Queue.open (id_of 1) w).2 in
  (do_claim Queue.open "t" 30000 w).2.

Definition box_live (w : Server Db (Hosted MemorySandbox)) : list string :=
  elements (ms_live (ho_host (sv_rest w))).

(** The turn ends with the sandboxes of its two attempts gone, and leaves the
    third's up. *)
Example box_turn_runs :
  let '(r, w) := run_box_turn box_worker box_claim box_turn_spec 2 box_server in
  r = Ok (StoppedStore Appended) /\ box_live w = [box_attempt_name (id_of 1) 3] /\
  box_live box_server = [box_attempt_name (id_of 1) 1] /\
  (ho_absent (sv_rest w)).*1 = [box_attempt_name (id_of 1) 2; box_attempt_name (id_of 1) 1].
Proof. vm_compute. split_and!; reflexivity. Qed.

Lemma box_turn_ends_without_its_sandboxes_witness :
  let r := run_box_turn box_worker box_claim box_turn_spec 2 box_server in
  (exists own, sv_steps r.2 = own ++ sv_steps box_server /\
     Forall (fun step => closed step.2 (id_of 1) -> closed step.1 (id_of 1)) own) \/
  exists w0 w1 early late,
    clean_box (id_of 1) 2 w0 = (Ok tt, w1) /\
    sv_steps w1 = early ++ sv_steps box_server /\
    Forall (fun step => closed step.2 (id_of 1) -> closed step.1 (id_of 1)) early /\
    sv_steps r.2 = late ++ sv_steps w1 /\ sv_rest r.2 = sv_rest w1 /\
    forall k, (1 <= k <= 2)%N ->
      confirmed_since (sv_rest box_server) (sv_rest r.2) (box_attempt_name (id_of 1) k) /\
      (leaves (box_attempt_name (id_of 1) k) (sv_rest box_server) ->
       box_attempt_name (id_of 1) k ∉ live (ho_host (sv_rest r.2))).
Proof.
  refine (proj1 (box_turn_ends_without_its_sandboxes box_worker box_server box_claim box_turn_spec 2 0
    (mkStoredRun box_turn_spec []) 2 _ _)); reflexivity.
Defined.
