(* ===== verification/Sweeps.v ===== *)
(** * The sweeps ([server/worker.rs])

    What a reaper and a sandbox sweep finish after processes that died: runs
    stored and never pushed, asks whose answer was lost, outbox entries too
    old, and the sandboxes and volumes of ended runs.  The loops that repeat
    them every few seconds are left out; a panic of one pass is caught there. *)

From S2P Require Import Prelude Text Protocol Uuids MemoryOwner SpecBuilder Reduce DriverTurns.
From S2P Require Import Store StoreProofs StoreTriggers StoreMessages StoreStops Queue.
From S2P Require Import QueueProofs Driver Server ServerLogic Spawner Deliverer Fires Sandbox.
From S2P Require Import Turns Worker.

(** ** The queue and the asks *)

Definition OUTBOX_RETENTION : Z := 604800000.

Section Sweeps.
Context `{UuidCrate} {R X : Type} `{Redis R}.
Context (enqueue_debug : EnqueueError → string) (q : RunQueue).

Local Open Scope rust_scope.

Definition waiting (run : StoredRun) : bool := still_waiting (sr_events run).

(** A run taken off pending. *)
Definition sweep_off (pushed : list RunId) (id : RunId) : @M R X (list RunId) :=
  let! _ := do_unpend q id in ret pushed.

(** The loop's body over a run pending long enough: its arms for a run the
    store has. *)
Definition sweep_loaded (pushed : list RunId) (id : RunId) (run : StoredRun) : @M R X (list RunId) :=
  if waiting run && bool_decide (is_Some (metadata (sr_spec run) !! TRIGGER_KEY)) then
    let! settled := settle_fired_run enqueue_debug q (sr_spec run) in
    ret (match settled with Ok FirePushed => pushed ++ [id] | _ => pushed end)
  else if waiting run then
    let! done := do_push q id in
    ret (match done with Ok _ => pushed ++ [id] | Err _ => pushed end)
  else sweep_off pushed id.

Definition sweep_one (forgotten pushed : list RunId) (id : RunId) : @M R X (list RunId) :=
  let! found := do_run id in
  match found with
  | Ok (Some run) => sweep_loaded pushed id run
  | Ok None => if negb (bool_decide (id ∈ forgotten)) then ret pushed else sweep_off pushed id
  | Err _ => ret pushed
  end.

Definition sweep (after forget_after : N) : @M R X (result (list RunId) string) :=
  let!? forgotten := do_pending_for q forget_after in
  let!? pending := do_pending_for q after in
  let! pushed := for_each pending (sweep_one forgotten) [] in
  ret (Ok pushed).

Definition open (ask : StoredMessage) : @M R X (result bool string) :=
  match ms_task_run ask with
  | None => ret (Ok false)
  | Some task =>
      let!? found := do_ask_of_task task else MemoryOwner.message in
      ret (Ok (match found with Some open => bool_decide (ms_id open = ms_id ask) | None => false end))
  end.

Definition task_end (ask : StoredMessage) : @M R X (result (option EventPayload) string) :=
  match ms_task_run ask with
  | None => ret (Ok None)
  | Some task =>
      let!? found := do_run task else MemoryOwner.message in
      match found with
      | None => ret (Ok None)
      | Some run =>
          let! answer :=
            task_answer (run_id (sr_spec run)) (agent_id (sr_spec run)) (ms_id ask) (sr_events run) in
          ret (Ok answer)
      end
  end.

(** What a parked run's ask is answered with now. *)
Definition parked_answer (ask : MessageId) : @M R X (option EventPayload) :=
  let! found := do_message ask in
  match found with
  | Ok (Some row) =>
      let! ended := task_end row in
      match ended with
      | Ok (Some answer) => ret (Some answer)
      | Ok None =>
          let! still := open row in
          ret (match still with Ok false => Some (AskTimedOut ask) | _ => None end)
      | Err _ => ret None
      end
  | Ok None => ret (Some (AskTimedOut ask))
  | Err _ => ret None
  end.

(** The first loop's body: [None] is its [continue]. *)
Definition sweep_parked_run (id : RunId) (ask : MessageId) (found : option StoredRun)
    : @M R X (option (result bool string)) :=
  let waits :=
    match found with
    | Some run => bool_decide (ask_state (sr_events run) ask = AskOpen) &&
        negb (has_terminal (sr_events run))
    | None => false
    end in
  let question := match found with Some run => is_user_question (sr_events run) ask | None => false end in
  let wake_it :=
    let! woken := do_wake q id ask in
    ret (Some (match woken with Ok _ => Ok true | Err e => Err e end)) in
  if negb waits then wake_it
  else if question then
    let! stop := do_stopped id in
    match stop with
    | Ok true => wake_it
    | _ => ret None
    end
  else
    let! answer := parked_answer ask in
    match answer with
    | Some answer => let! r := deliver q id ask answer Close in ret (Some r)
    | None => ret None
    end.

Definition sweep_parked (swept : list RunId) (entry : RunId * MessageId) : @M R X (list RunId) :=
  let '(id, ask) := entry in
  let! loaded := do_run id in
  match loaded with
  | Err _ => ret swept
  | Ok found =>
      let! result := sweep_parked_run id ask found in
      ret (match result with Some (Ok true) => swept ++ [id] | _ => swept end)
  end.

(** The second loop's body. *)
Definition sweep_due (swept : list RunId) (ask : StoredMessage) : @M R X (list RunId) :=
  let! ended := task_end ask in
  match ended with
  | Err _ => ret swept
  | Ok answer =>
      let answer := default (AskTimedOut (ms_id ask)) answer in
      let! r := deliver q (ms_from_run ask) (ms_id ask) answer Close in
      ret (match r with Ok true => swept ++ [ms_from_run ask] | _ => swept end)
  end.

Definition sweep_asks (t : Timestamp) : @M R X (result (list RunId) string) :=
  let!? parked := do_parked q in
  let! swept := for_each parked sweep_parked [] in
  let!? due := do_open_asks_due t else MemoryOwner.message in
  let! swept := for_each due sweep_due swept in
  ret (Ok swept).

(** One pass of [reap_forever]. *)
Definition reap_pass (messages outbox : bool) (timing : QueueTiming) : @M R X unit :=
  let! _ := do_reap q in
  let! _ := sweep (sweep_after timing) (forget_after timing) in
  let! _ :=
    if messages then let! t := now in let! _ := sweep_asks t in ret tt else ret tt in
  if outbox then
    let! t := now in
    let before := Z.max (- 2 ^ 63) (t - OUTBOX_RETENTION) in
    let! _ := do_prune_outbox before in ret tt
  else ret tt.

End Sweeps.

(** ** The sandboxes *)

Section Sandboxes.
Context `{UuidCrate} {R X : Type} `{SandboxHost X}.

Local Open Scope rust_scope.

Definition stored_ended (run : RunId) : @M R X (option StoredRun) :=
  let! found := do_run run in
  ret (match found with
       | Ok (Some stored) =>
           if existsb (fun event => is_terminal (payload event)) (sr_events stored) then Some stored
           else None
       | _ => None
       end).

Definition has_ended (run : RunId) : @M R X bool :=
  let! ended := stored_ended run in ret (bool_decide (is_Some ended)).

Definition ended_box (run : RunId) : @M R X bool :=
  let! ended := stored_ended run in
  ret (match ended with Some stored => is_box (sr_spec stored) | None => false end).

(** The loops' bodies, over what was removed and the runs that were left. *)
Definition sweep_sandbox (acc : list string * list RunId) (name : string)
    : @M R X (list string * list RunId) :=
  let '(removed, kept_runs) := acc in
  match box_run_of name with
  | None => ret acc
  | Some run =>
      let! ended := has_ended run in
      if negb ended then ret (removed, kept_runs ++ [run])
      else
        let! gone := external (destroy name) in
        ret (match gone with
             | Ok _ => (removed ++ [name], kept_runs)
             | Err _ => (removed, kept_runs ++ [run])
             end)
  end.

Definition sweep_volume (kept_runs : list RunId) (removed : list string) (name : string)
    : @M R X (list string) :=
  match workspace_run_of name with
  | None => ret removed
  | Some run =>
      let! keep :=
        if bool_decide (run ∈ kept_runs) then ret true
        else let! ended := ended_box run in ret (negb ended) in
      if keep : bool then ret removed
      else
        let! gone := external (remove_volume name) in
        ret (match gone with Ok _ => removed ++ [name] | Err _ => removed end)
  end.

Definition sweep_sandboxes : @M R X (result (list string) string) :=
  let!? listed := external list_sandboxes else (fun error => match error with Host text => text end) in
  let! acc := for_each listed sweep_sandbox ([], []) in
  let '(removed, kept_runs) := acc in
  let! volumes := external list_volumes in
  match volumes with
  | Err _ => ret (Ok removed)
  | Ok volumes =>
      let! removed := for_each volumes (sweep_volume kept_runs) removed in
      ret (Ok removed)
  end.

End Sandboxes.

(** ** The queue's settings *)

Record QueueSettings : Type := mkQueueSettings { redis_url : string; workers : N }.

(** A variable that is set and not empty. *)
Definition env_set (env : gmap string string) (name : string) : option string :=
  value ← env !! name; if bool_decide (value = "") then None else Some value.

(** [str_debug] is [{count:?}]. *)
Definition queue_from_env (str_debug : string → string) (env : gmap string string) : result (option QueueSettings) string :=
  match env_set env "GOL_REDIS_URL" with
  | None => Ok None
  | Some redis_url =>
      match env_set env "GOL_DATABASE_URL" with
      | None =>
          Err ("GOL_REDIS_URL needs GOL_DATABASE_URL: queued run ids outlive the process, and a run " +:+
               "kept in memory would not")
      | Some _ =>
          match env_set env "GOL_WORKERS" with
          | None => Ok (Some (mkQueueSettings redis_url 2))
          | Some count =>
              match parse_u64 count with
              | Some n =>
                  if (1 <=? n)%N && (n <=? 256)%N then Ok (Some (mkQueueSettings redis_url n))
                  else Err ("GOL_WORKERS must be a count from 1 to 256, not " +:+ str_debug count)
              | None => Err ("GOL_WORKERS must be a count from 1 to 256, not " +:+ str_debug count)
              end
          end
      end
  end.

(** ** The sweeps follow the rules *)

Section Proofs.
Context `{UuidCrate} {R X : Type} `{Redis R} `{!RedisLaws R} (q : RunQueue) (Hq : keys_ok q).
Context (G : Shared R -> Shared R -> Prop) `{!Discipline q G}.
Implicit Types (P : Shared R -> Prop) (id : RunId).

Abbreviation triple := (triple (X := X) q G).
Abbreviation stable := (stable q G).

Lemma triple_pending_for P age : stable P -> triple P (do_pending_for q age) (fun _ => P).
Proof.
  intros HP. eapply (triple_try q G).
  { apply (triple_queue_read q G P _ (fun _ _ => True)); done. }
  2: by intros e s [? _].
  intros values. eapply (triple_bind q G) with (Q := fun _ => P).
  - apply (triple_pre q G P); [|by intros s _ [? _]].
    apply (triple_for_each q G _ _ (fun _ => P)). intros ids text _.
    destruct (id_parse (k := KRun) text) as [id|] eqn:E; [by apply (triple_done q G)|].
    eapply (triple_bind q G) with (Q := fun _ => P); [|intros r; by apply (triple_done q G)].
    apply (triple_queue_silent q Hq G P (QUnpend text)); [done|done|]. intros s _ _. split.
    + intros id run -> _. by rewrite id_parse_display in E.
    + intros id [= ->]. by rewrite id_parse_display in E.
  - intros ids. by apply (triple_done q G).
Qed.

(** A push of a stored run, and what it leaves. *)
Lemma triple_push_held P id :
  stable P -> (forall s, P s -> is_Some (stored_run s id)) ->
  triple P (do_push q id) (fun r s => P s /\ match r with Ok _ => held q id s | Err _ => True end).
Proof.
  intros HP Hs. apply (triple_queue_op q Hq G P (QPush (id_display id)) _ (fun _ => held q id));
    [done|done|..]; intros s Hg Hp.
  - split; [exists id; split; [done|by apply Hs]|done].
  - split; [exact (Hs s Hp)|]. left. apply (pushed_kept q Hq). by left.
Qed.

(** Every run that was pushed is held. *)
Definition all_held (ids : list RunId) (s : Shared R) : Prop := Forall (fun id => held q id s) ids.

Lemma stable_all_held ids : stable (all_held ids).
Proof.
  intros s s' Hg HG Hall. unfold all_held in *. eapply Forall_impl; [exact Hall|].
  intros id Hh. by eapply (stable_held q G).
Qed.

Lemma all_held_snoc ids id s : all_held ids s -> held q id s -> all_held (ids ++ [id]) s.
Proof. intros Hall Hh. apply Forall_app. split; [done|by constructor]. Qed.

(** What the sweep does for a run it loads. *)
Lemma triple_sweep_loaded enqueue_debug pushed id run :
  triple (fun s => (run_id (sr_spec run) = id) /\ all_held pushed s /\ seen_run id run s)
    (sweep_loaded enqueue_debug q pushed id run) all_held.
Proof.
  apply (triple_pure q G). intros Hid. unfold sweep_loaded.
  assert (stable (fun s => all_held pushed s /\ seen_run id run s)) as Hst.
  { apply (stable_and q G); [apply stable_all_held|apply stable_seen, _]. }
  destruct (waiting run && _).
  { eapply (triple_bind q G).
    - apply (triple_pre q G (fun s => is_Some (stored_run s id) /\ all_held pushed s)).
      + apply (triple_frame q G); [apply stable_all_held|]. rewrite <-Hid.
        by eapply triple_settle_fired_run.
      + intros s _ [Hall (run' & -> & _)]. split; [by eexists|done].
    - intros settled. apply (triple_done q G). rewrite Hid. intros s _ [Hf Hall].
      destruct settled as [[]|]; try done. by apply all_held_snoc. }
  destruct (waiting run) eqn:Hw.
  - eapply (triple_bind q G); [apply triple_push_held; [exact Hst|]|].
    + intros s [_ (run' & -> & _)]. by eexists.
    + intros r. apply (triple_done q G). intros s _ [[Hall _] Hh].
      destruct r; [by apply all_held_snoc|done].
  - eapply (triple_bind q G).
    + apply (triple_unpend q Hq G); [exact Hst|]. intros s Hg [_ Hs]. by eapply seen_not_waiting.
    + intros r. apply (triple_done q G). by intros s _ [? _].
Qed.

(** ** Asks *)

Lemma triple_task_end P ask :
  stable P -> triple P (task_end ask)
    (fun r s => match r with Ok (Some p) => is_answer p | _ => True end /\ P s).
Proof.
  intros HP. unfold task_end. destruct (ms_task_run ask); [|by apply (triple_done q G)].
  eapply (triple_try_with q G); [by apply (triple_read q G)| |done].
  intros [run|]; [|by apply (triple_done q G)].
  eapply (triple_bind q G); [apply (triple_draws q G), draws_task_answer|]. intros answer.
  apply (triple_pure q G). intros Ha. apply (triple_done q G). intros s _ Hp. split; [|done].
  destruct answer; [by eapply answers_is|done].
Qed.

Lemma timed_out_is ask : is_answer (AskTimedOut ask).
Proof. by exists ask. Qed.

Lemma triple_parked_answer P ask :
  stable P ->
  triple P (parked_answer ask)
    (fun r s => match r with Some p => is_answer p | None => True end /\ P s).
Proof.
  intros HP. unfold parked_answer.
  eapply (triple_bind q G); [by apply (triple_read q G)|].
  intros [[row|]|]; [| |by apply (triple_done q G)].
  2: { apply (triple_done q G). intros s _ Hp. split; [apply timed_out_is|done]. }
  eapply (triple_bind q G); [by apply triple_task_end|].
  intros [[answer|]|]; [by apply (triple_done q G)| |apply (triple_done q G); by intros s _ [_ ?]].
  apply (triple_pre q G P); [|by intros s _ [_ ?]].
  eapply (triple_bind q G) with (Q := fun _ => P).
  - unfold open. destruct (ms_task_run row); [|by apply (triple_done q G)].
    eapply (triple_try_with q G); [by apply (triple_read q G)| |done].
    intros found. by apply (triple_done q G).
  - intros still. apply (triple_done q G). intros s _ Hp. split; [|done].
    destruct still as [[]|]; [done|apply timed_out_is|done].
Qed.

Lemma triple_wake P id ask : stable P -> triple P (do_wake q id ask) (fun _ => P).
Proof.
  intros HP. eapply (triple_post q G).
  - by apply (triple_queue_op q Hq G P (QWake (id_display id) (id_display ask)) _ (fun _ _ => True)).
  - by intros r s _ [? _].
Qed.

Lemma triple_sweep_parked P swept entry :
  stable P -> triple P (sweep_parked q swept entry) (fun _ => P).
Proof.
  intros HP. destruct entry as [id ask]. unfold sweep_parked.
  eapply (triple_bind q G); [by apply (triple_read q G)|].
  intros [found|]; [|by apply (triple_done q G)].
  eapply (triple_bind q G) with (Q := fun _ => P); [|intros r; by apply (triple_done q G)].
  assert (triple P (let! woken := do_wake q id ask in
    ret (Some (match woken with Ok _ => Ok true | Err e => Err e end)))%rust (fun _ => P)) as Hwake.
  { eapply (triple_bind q G); [by apply triple_wake|]. intros r. by apply (triple_done q G). }
  unfold sweep_parked_run. destruct (negb _); [exact Hwake|].
  destruct (match found with Some run => _ | None => false end).
  - eapply (triple_bind q G); [by apply (triple_read q G)|].
    intros [[]|]; [exact Hwake|by apply (triple_done q G)..].
  - eapply (triple_bind q G); [by apply triple_parked_answer|].
    intros [answer|]; apply (triple_pure q G); intros Ha; [|by apply (triple_done q G)].
    eapply (triple_bind q G); [by apply (triple_delivered q Hq G)|]. intros r. by apply (triple_done q G).
Qed.

Lemma triple_sweep_due P swept ask :
  stable P -> triple P (sweep_due q swept ask) (fun _ => P).
Proof.
  intros HP. eapply (triple_bind q G); [by apply triple_task_end|].
  intros [answer|]; [|apply (triple_done q G); by intros s _ [_ ?]].
  apply (triple_pure q G). intros Ha. eapply (triple_bind q G).
  - apply (triple_delivered q Hq G); [done|]. destruct answer; [done|apply timed_out_is].
  - intros r. by apply (triple_done q G).
Qed.

Lemma triple_sweep_asks P t : stable P -> triple P (sweep_asks q t) (fun _ => P).
Proof.
  intros HP. eapply (triple_try q G).
  { apply (triple_queue_read q G P _ (fun _ _ => True)); done. }
  2: by intros e s [? _].
  intros parked. apply (triple_pre q G P); [|by intros s _ [? _]].
  eapply (triple_bind q G).
  { apply (triple_for_each q G _ _ (fun _ => P)). intros a x _. by apply triple_sweep_parked. }
  intros swept. eapply (triple_try_with q G); [by apply (triple_read q G)| |done].
  intros due. eapply (triple_bind q G).
  { apply (triple_for_each q G _ _ (fun _ => P)). intros a x _. by apply triple_sweep_due. }
  intros r. by apply (triple_done q G).
Qed.

(** ** The reaper's other steps *)

Lemma triple_reap P : stable P -> triple P (do_reap q) (fun _ => P).
Proof.
  intros HP. eapply (triple_post q G).
  - apply (triple_queue_op q Hq G P QReap _ (fun _ _ => True)); try done.
    intros s _ _. unfold reap_runs. simpl. by destruct (reap q (sh_queue s)).
  - by intros r s _ [? _].
Qed.

Lemma triple_prune P t : stable P -> triple P (do_prune_outbox t) (fun _ => P).
Proof.
  intros HP. apply (triple_call q G); [done|auto|]. intros s Hg Hp. unfold on_runs.
  destruct (prune_outbox (runs_store s) t) as [r st] eqn:E. simpl.
  assert (prompt q s (with_runs s st)) as Hpr.
  { apply prune_outbox_cases in E as [-> | ->]; apply frame_prompt; try done.
    intros [Hruns Hout Hord]. split; [done|by apply pruned_wf|done]. }
  apply prompt_G in Hpr. split; [done|]. split; by eapply HP.
Qed.

End Proofs.

(** ** A pass of the reaper *)

Section Late.
Context `{UuidCrate} {R X : Type} `{Redis R} `{!RedisLaws R} (q : RunQueue) (Hq : keys_ok q).
Context (enqueue_debug : EnqueueError → string).

(** A run that was pending for [forget_after] is not stored any more: its
    producer died. *)
Definition no_late_put (forgotten : list RunId) (w : Server R X) : Prop :=
  forall n s id, Good q s -> id ∈ forgotten -> stored_run s id = None ->
    stored_run (others (fu_moment (sv_future w) n) s) id = None.

(** What a sweep that goes by [forgotten] keeps. *)
Definition late_triple {A} (forgotten : list RunId) P (m : @M R X A) (Q : A -> Shared R -> Prop) : Prop :=
  forall w, respectful q (evolves q) w -> Good q (sv_shared w) -> no_late_put forgotten w ->
    P (sv_shared w) -> moves (evolves q) w (m w).2 /\ Q (m w).1 (sv_shared (m w).2).

Lemma late_bind {A B} forgotten P (m : @M R X A) Q (k : A -> M B) T :
  late_triple forgotten P m Q -> (forall a, late_triple forgotten (Q a) (k a) T) ->
  late_triple forgotten P (bind m k) T.
Proof.
  intros Hm Hk w Hr Hg Hl HP. destruct (Hm w Hr Hg Hl HP) as [Hmv HQ]. unfold bind.
  destruct (m w) as [a w1]. simpl in *.
  destruct (Hk a w1) as [Hmv' HT]; [| | |done|split; [by etrans|done]].
  - by eapply (moves_respectful q (evolves q)).
  - by eapply (moves_good q (evolves q)).
  - destruct Hmv as (Hf & _). unfold no_late_put. by rewrite Hf.
Qed.

Lemma late_of {A} forgotten P (m : @M R X A) Q :
  triple q (evolves q) P m Q -> late_triple forgotten P m Q.
Proof. intros Hm w Hr Hg _. by apply Hm. Qed.

Lemma late_for_each {A T} forgotten (l : list T) (body : A -> T -> @M R X A)
    (I : A -> Shared R -> Prop) a :
  (forall a x, late_triple forgotten (I a) (body a x) I) -> late_triple forgotten (I a) (for_each l body a) I.
Proof.
  intros Hb. revert a. induction l as [|x l IH]; intros a; simpl.
  - apply late_of, (triple_ret q (evolves q)).
  - by eapply late_bind.
Qed.

(** A pending run that is forgotten. *)
Lemma late_forget forgotten pushed id :
  id ∈ forgotten ->
  late_triple forgotten (fun s => all_held q pushed s /\ stored_run s id = None)
    (sweep_off q pushed id) (all_held q).
Proof.
  intros Hid. apply (late_bind _ _ _ (fun _ => all_held q pushed));
    [|intros r; apply late_of, (triple_ret q (evolves q))].
  intros w Hr Hg Hl [Hall Hn]. unfold do_unpend, queue_call, call.
  set (m := fu_moment (sv_future w) (sv_drawn w)). set (s := others m (sv_shared w)).
  pose proof (Hr (sv_drawn w) _ Hg) as Ho. fold m in Ho. change (others m (sv_shared w)) with s in Ho.
  assert (Good q s) as Hgs by (by apply (ev_good q _ _ Ho)).
  assert (all_held q pushed s) as Hall'
    by exact (stable_all_held q (evolves q) pushed _ _ Hg Ho Hall).
  assert (stored_run s id = None) as Hn' by (by apply Hl).
  assert (evolves q s (with_queue s (unpend q (sh_queue s) (id_display id)))) as Hstep.
  { apply (queue_op_evolves q Hq s (QUnpend (id_display id)) Hgs).
    intros id' run <-%id_display_inj [Hs _]. congruence. }
  pose proof (stable_all_held q (evolves q) pushed _ _ Hgs Hstep Hall') as Hall''.
  destruct (fault m); simpl; (split; [split_and!; [done|by etrans|]|done]);
    eexists [_]; (split; [done|]); by constructor.
Qed.

Lemma late_sweep_one forgotten pushed id :
  late_triple forgotten (all_held q pushed) (sweep_one enqueue_debug q forgotten pushed id) (all_held q).
Proof.
  apply (late_bind _ _ _ (fun r s => all_held q pushed s /\
    match r with
    | Ok (Some run) => run_id (sr_spec run) = id /\ seen_run id run s
    | Ok None => stored_run s id = None
    | Err _ => True
    end)).
  - apply late_of. eapply (triple_post q (evolves q)).
    + apply (triple_store_read q (evolves q) _ _ (fun o s => match o with
        | Some run => seen_run id run s | None => stored_run s id = None end)).
      * apply (stable_all_held q (evolves q)).
      * intros s _ _. destruct (stored_run s id) as [run|] eqn:E; [by exists run|done].
    + intros [[run|]|] s Hg [Hall Hs]; split; try done. split; [by eapply seen_run_id|done].
  - intros [[run|]|]; [| |apply late_of, (triple_done q (evolves q)); by intros s _ []].
    + apply late_of. eapply (triple_pre q (evolves q)); [by apply (triple_sweep_loaded q Hq (evolves q))|].
      intros s _ (Hall & Hid & Hs). by split_and!.
    + destruct (decide (id ∈ forgotten)) as [Hin|Hin].
      * rewrite bool_decide_true by done. by apply late_forget.
      * rewrite bool_decide_false by done. apply late_of, (triple_done q (evolves q)). by intros s _ [].
Qed.

(** The runs a sweep starting in [w] takes for forgotten. *)
Definition forgotten_by (forget_after : N) (w : Server R X) : list RunId :=
  match (do_pending_for q forget_after w).1 with Ok ids => ids | Err _ => [] end.

(** The part of a sweep after its first call. *)
Lemma late_sweep_rest forgotten after :
  late_triple forgotten (fun _ => True)
    (let!? pending := do_pending_for q after in
     let! pushed := for_each pending (sweep_one enqueue_debug q forgotten) [] in
     ret (Ok pushed))%rust
    (fun r s => match r with Ok pushed => all_held q pushed s | Err _ => True end).
Proof.
  apply (late_bind _ _ _ (fun _ _ => True)); [by apply late_of, (triple_pending_for q Hq (evolves q))|].
  intros [pending|e]; [|by apply late_of, (triple_done q (evolves q))].
  apply (late_bind _ _ _ (fun pushed => all_held q pushed)).
  - intros w Hr Hg Hl _.
    apply (late_for_each forgotten pending _ (all_held q) [] (late_sweep_one forgotten)); [done..|].
    by constructor.
  - intros pushed. by apply late_of, (triple_done q (evolves q)).
Qed.

(** The sweep of pending runs. *)
Lemma sweep_moves (w : Server R X) after forget_after :
  respectful q (evolves q) w -> Good q (sv_shared w) -> no_late_put (forgotten_by forget_after w) w ->
  moves (evolves q) w (sweep enqueue_debug q after forget_after w).2 /\
  match (sweep enqueue_debug q after forget_after w).1 with
  | Ok pushed => all_held q pushed (sv_shared (sweep enqueue_debug q after forget_after w).2)
  | Err _ => True
  end.
Proof.
  intros Hr Hg Hl.
  assert (stable q (evolves q) (fun _ : Shared R => True)) as Htrue by (by intros s s').
  unfold sweep, try at 1 3 5, bind at 1 3 5. unfold forgotten_by in Hl.
  destruct (triple_pending_for q Hq (evolves q) (fun _ => True) forget_after Htrue w Hr Hg I) as [Hm _].
  destruct (do_pending_for q forget_after w) as [[forgotten|e] w1]; [|done]. simpl in *.
  destruct (late_sweep_rest forgotten after w1) as [Hm1 Hq1]; [..|done|split; [by etrans|exact Hq1]].
  - by eapply (moves_respectful q (evolves q)).
  - by eapply (moves_good q (evolves q)).
  - destruct Hm as (Hf & _). unfold no_late_put. by rewrite Hf.
Qed.

(** A pass of the reaper. *)
Lemma reap_pass_keeps (w : Server R X) messages outbox timing :
  respectful q (evolves q) w -> Good q (sv_shared w) ->
  no_late_put (forgotten_by (forget_after timing) (do_reap q w).2) (do_reap q w).2 ->
  keeps q (evolves q) w (reap_pass enqueue_debug q messages outbox timing w).2.
Proof.
  intros Hr Hg Hl. assert (stable q (evolves q) (fun _ : Shared R => True)) as Htrue by (by intros s s').
  destruct (triple_reap q Hq (evolves q) (fun _ => True) Htrue w Hr Hg I) as [Hm _].
  unfold reap_pass, bind at 1. destruct (do_reap q w) as [r w1]. cbn [snd] in *.
  assert (respectful q (evolves q) w1) as Hr1 by (by eapply (moves_respectful q (evolves q))).
  assert (Good q (sv_shared w1)) as Hg1 by (by eapply (moves_good q (evolves q))).
  destruct (sweep_moves w1 (sweep_after timing) (forget_after timing) Hr1 Hg1 Hl) as [Hm1 _].
  unfold bind at 1. destruct (sweep enqueue_debug q (sweep_after timing) (forget_after timing) w1) as [swept w2]. cbn [fst snd] in *.
  assert (respectful q (evolves q) w2) as Hr2 by (by eapply (moves_respectful q (evolves q))).
  assert (Good q (sv_shared w2)) as Hg2 by (by eapply (moves_good q (evolves q))).
  assert (triple (X := X) q (evolves q) (fun _ => True) (let! _ :=
    if messages then let! t := now in let! _ := sweep_asks q t in ret tt else ret tt in
    if outbox then let! t := now in let! _ := do_prune_outbox (Z.max (- 2 ^ 63) (t - OUTBOX_RETENTION)) in ret tt else ret tt)%rust
    (fun _ _ => True)) as Hrest.
  { assert (forall P, triple (X := X) q (evolves q) P (ret tt) (fun _ => P)) as Hret
      by (intros P; apply (triple_ret q (evolves q) tt (fun _ => P))).
    apply (triple_bind q (evolves q)) with (Q := fun _ _ => True).
    - destruct messages; [|apply Hret]. eapply (triple_bind q (evolves q)); [by apply (triple_draws q (evolves q)), draws_now|].
      intros t. eapply (triple_bind q (evolves q)); [|intros; by apply (triple_done q (evolves q))].
      eapply (triple_pre q (evolves q)); [by apply (triple_sweep_asks q Hq (evolves q))|done].
    - intros _. destruct outbox; [|apply Hret]. eapply (triple_bind q (evolves q)); [by apply (triple_draws q (evolves q)), draws_now|].
      intros t. eapply (triple_bind q (evolves q)); [|intros; by apply (triple_done q (evolves q))].
      eapply (triple_pre q (evolves q)); [by apply (triple_prune q (evolves q))|done]. }
  destruct (Hrest w2 Hr2 Hg2 I) as [Hm2 _]. split; [by do 2 (etrans; [eassumption|])|].
  by eapply (moves_good q (evolves q)).
Qed.

(** C8. The sweeps strand nothing, and what the queue's sweep pushed is safe:
    run among any other processes that follow the rules, with any call failing
    and the process dying at any point, a pass of the reaper keeps the rules at
    every step (the sweep of pending runs, provided no put of a run that was
    pending for [forget_after] without being stored is still to come; the sweep
    of asks, handing back and pruning, always), and each run the sweep reports
    as pushed is in the queue or has ended. *)
Theorem sweeps_strand_nothing (w : Server R X) after forget_after t before :
  respectful q (evolves q) w -> Good q (sv_shared w) ->
  no_late_put (forgotten_by forget_after w) w ->
  keeps q (evolves q) w (sweep enqueue_debug q after forget_after w).2 /\
  (forall pushed, (sweep enqueue_debug q after forget_after w).1 = Ok pushed ->
     all_held q pushed (sv_shared (sweep enqueue_debug q after forget_after w).2)) /\
  keeps q (evolves q) w (sweep_asks q t w).2 /\
  keeps q (evolves q) w (do_reap q w).2 /\
  keeps q (evolves q) w (do_prune_outbox before w).2.
Proof.
  intros Hr Hg Hl.
  assert (stable q (evolves q) (fun _ : Shared R => True)) as Htrue by (by intros s s').
  destruct (sweep_moves w after forget_after Hr Hg Hl) as [Hm Hp].
  split_and!.
  - split; [done|]. by eapply (moves_good q (evolves q)).
  - intros pushed E. by rewrite E in Hp.
  - by eapply triple_keeps; [apply _|by apply (triple_sweep_asks q Hq (evolves q))|..].
  - by eapply triple_keeps; [apply _|by apply (triple_reap q Hq (evolves q))|..].
  - by eapply triple_keeps; [apply _|by apply (triple_prune q (evolves q))|..].
Qed.

End Late.

(** ** What a sandbox sweep removes *)

Section Removed.
Context `{UuidCrate} {R X : Type} `{Redis R} `{!RedisLaws R} `{SandboxLaws X} (q : RunQueue).
Implicit Types (w : Server R X).

(** A sandbox or a workspace volume of an ended run. *)
Definition ended_name (s : Shared R) (name : string) : Prop :=
  exists run, (box_run_of name = Some run \/ workspace_run_of name = Some run) /\ closed s run.

(** From [w] to [w']: the others follow the rules, and every sandbox that went
    was that of an ended run. *)
Definition spares w w' : Prop :=
  respectful q (evolves q) w -> Good q (sv_shared w) ->
  moves (evolves q) w w' /\
  forall name, name ∈ live (sv_rest w) -> name ∉ live (sv_rest w') ->
    exists run, box_run_of name = Some run /\ closed (sv_shared w') run.

#[local] Instance spares_preorder : PreOrder spares.
Proof.
  split.
  - intros w _ _. split; [done|]. intros name Hin Hn. by destruct Hn.
  - intros w1 w2 w3 H12 H23 Hr Hg. destruct (H12 Hr Hg) as [M12 S12].
    destruct H23 as [M23 S23]; [by eapply (moves_respectful q (evolves q))|by eapply (moves_good q (evolves q))|].
    split; [by etrans|]. intros name Hin Hn. destruct (decide (name ∈ live (sv_rest w2))) as [Hin2|Hin2].
    + by apply S23.
    + destruct (S12 name Hin Hin2) as (run & Hb & Hc). exists run. split; [done|].
      destruct M23 as (_ & Hev & _). by eapply closed_evolves.
Qed.

(** A handler that leaves the sandboxes. *)
Lemma spares_quiet {A} (m : @M R X A) w Q :
  triple q (evolves q) (fun _ => True) m Q ->
  (live (sv_rest (m w).2) = live (sv_rest w)) -> spares w (m w).2.
Proof.
  intros Hm Hl Hr Hg. destruct (Hm w Hr Hg I) as [Hmv _]. split; [done|]. rewrite Hl. by intros name ? [].
Qed.

Lemma spares_external {A} (f : X -> A * X) w :
  live (f (sv_rest w)).2 = live (sv_rest w) -> spares w (external f w).2.
Proof.
  intros Hl. eapply spares_quiet; [apply (triple_external q (evolves q))|].
  unfold external. by destruct (f (sv_rest w)).
Qed.

(** A run that is found ended has ended. *)
Lemma triple_stored_ended run :
  triple (X := X) q (evolves q) (fun _ => True) (stored_ended run)
    (fun r s => is_Some r -> closed s run).
Proof.
  eapply (triple_bind q (evolves q)); [by apply (triple_run q (evolves q))|].
  intros [[stored|]|]; try (apply (triple_done q (evolves q)); by intros s _ _ []).
  apply (triple_done q (evolves q)). intros s _ [_ Hs].
  destruct (existsb _ _) eqn:Ht; [|by intros []]. intros _. by eapply seen_closed.
Qed.

Lemma stored_ended_rest run w : sv_rest (stored_ended run w).2 = sv_rest w.
Proof.
  unfold stored_ended, bind, do_run, store_call, call. set (m := fu_moment _ _). by destruct (fault m).
Qed.

Lemma has_ended_spares run w :
  spares w (has_ended run w).2 /\
  (respectful q (evolves q) w -> Good q (sv_shared w) -> (has_ended run w).1 = true ->
     closed (sv_shared (has_ended run w).2) run).
Proof.
  pose proof (triple_stored_ended run) as Ht. pose proof (stored_ended_rest run w) as Hrest.
  unfold has_ended, bind. split.
  - pose proof (spares_quiet (stored_ended run) w _ Ht) as Hs. rewrite Hrest in Hs. specialize (Hs eq_refl).
    by destruct (stored_ended run w).
  - intros Hr Hg. destruct (Ht w Hr Hg I) as [_ Hc]. destruct (stored_ended run w) as [r w1]. simpl in *.
    intros Hb. bool_to_prop. by apply Hc.
Qed.

Lemma ended_box_spares run w :
  spares w (ended_box run w).2 /\
  (respectful q (evolves q) w -> Good q (sv_shared w) -> (ended_box run w).1 = true ->
     closed (sv_shared (ended_box run w).2) run).
Proof.
  pose proof (triple_stored_ended run) as Ht. pose proof (stored_ended_rest run w) as Hrest.
  unfold ended_box, bind. split.
  - pose proof (spares_quiet (stored_ended run) w _ Ht) as Hs. rewrite Hrest in Hs. specialize (Hs eq_refl).
    by destruct (stored_ended run w).
  - intros Hr Hg. destruct (Ht w Hr Hg I) as [_ Hc]. destruct (stored_ended run w) as [r w1]. simpl in *.
    destruct r; [|done]. intros _. apply Hc. by eexists.
Qed.

(** What was removed so far. *)
Definition removed_ok (removed : list string) w : Prop := Forall (ended_name (sv_shared w)) removed.

Lemma removed_later removed w w' : moves (evolves q) w w' -> removed_ok removed w -> removed_ok removed w'.
Proof.
  intros (_ & Hev & _) Hall. eapply Forall_impl; [exact Hall|]. intros name (run & Hn & Hc).
  exists run. split; [done|]. by eapply closed_evolves.
Qed.

Definition sweeping w w' (removed removed' : list string) : Prop :=
  spares w w' /\
  (respectful q (evolves q) w -> Good q (sv_shared w) -> removed_ok removed w -> removed_ok removed' w').

Lemma sweeping_refl w removed : sweeping w w removed removed.
Proof. split; [reflexivity|done]. Qed.

Lemma sweeping_trans w1 w2 w3 r1 r2 r3 :
  sweeping w1 w2 r1 r2 -> sweeping w2 w3 r2 r3 -> sweeping w1 w3 r1 r3.
Proof.
  intros [S12 R12] [S23 R23]. split; [by etrans|]. intros Hr Hg Hok. destruct (S12 Hr Hg) as [Hm _].
  apply R23; [by eapply (moves_respectful q (evolves q))|by eapply (moves_good q (evolves q))|by apply R12].
Qed.

(** A sweep's loop, with its list of removed names somewhere in what it carries. *)
Lemma sweeping_for_each {A T} (l : list T) (body : A -> T -> @M R X A) (names : A -> list string) a w :
  (forall a x w, x ∈ l -> sweeping w (body a x w).2 (names a) (names (body a x w).1)) ->
  sweeping w (for_each l body a w).2 (names a) (names (for_each l body a w).1).
Proof.
  revert a w. induction l as [|x l IH]; intros a w Hb; simpl; [apply sweeping_refl|].
  specialize (Hb a x w ltac:(set_solver)) as Hx. unfold bind. destruct (body a x w) as [a1 w1]. simpl in *.
  eapply sweeping_trans; [exact Hx|]. apply IH. intros ? ? ? ?. apply Hb. set_solver.
Qed.

Lemma sweep_sandbox_sweeps acc name w :
  sweeping w (sweep_sandbox acc name w).2 acc.1 (sweep_sandbox acc name w).1.1.
Proof.
  destruct acc as [removed kept_runs]. unfold sweep_sandbox.
  destruct (box_run_of name) as [run|] eqn:En; [|apply sweeping_refl].
  unfold bind at 1 3. pose proof (has_ended_spares run w) as [Hs Hc].
  destruct (has_ended run w) as [ended w1]. simpl in *.
  assert (sweeping w w1 removed removed) as Hfirst.
  { split; [done|]. intros Hr Hg. destruct (Hs Hr Hg) as [Hm _]. by apply removed_later. }
  destruct ended; simpl; [|exact Hfirst].
  unfold bind, external. pose proof (destroy_live name (sv_rest w1)) as Hd.
  pose proof (destroy_other name (sv_rest w1)) as Ho.
  destruct (destroy name (sv_rest w1)) as [gone x] eqn:Ed. simpl in *.
  assert (moves (evolves q) w1 (set_rest w1 x)) as Hm1 by (split_and!; [done|reflexivity|by exists []]).
  split.
  - intros Hr Hg. destruct (Hs Hr Hg) as [Hm Hsp]. split; [by etrans; [exact Hm|destruct gone]|].
    intros name' Hin Hn. destruct (decide (name' ∈ live (sv_rest w1))) as [Hin1|Hin1].
    + exists run. assert (name' = name) as -> by (destruct gone; simpl in Hn; set_solver).
      split; [done|]. destruct gone; by apply Hc.
    + destruct (Hsp name' Hin Hin1) as (run' & Hb & Hcl). exists run'. by destruct gone.
  - intros Hr Hg Hok. destruct (Hs Hr Hg) as [Hm _]. pose proof (removed_later _ _ _ Hm Hok) as Hok1.
    destruct gone; simpl; [|exact Hok1]. apply Forall_app. split; [exact Hok1|]. constructor; [|done].
    exists run. split; [by left|]. by apply Hc.
Qed.

Lemma sweep_volume_sweeps kept_runs removed name w :
  sweeping w (sweep_volume kept_runs removed name w).2 removed (sweep_volume kept_runs removed name w).1.
Proof.
  unfold sweep_volume. destruct (workspace_run_of name) as [run|] eqn:En; [|apply sweeping_refl].
  set (keep := if bool_decide (run ∈ kept_runs) then ret true
               else bind (ended_box run) (fun ended => ret (negb ended))).
  assert (spares w (keep w).2 /\ (respectful q (evolves q) w -> Good q (sv_shared w) ->
    (keep w).1 = false -> closed (sv_shared (keep w).2) run)) as [Hs Hc].
  { unfold keep. case_bool_decide; [by split|]. pose proof (ended_box_spares run w) as [Hs Hc].
    unfold bind. destruct (ended_box run w) as [ended w1]. simpl in *. split; [done|].
    intros Hr Hg Hn. apply Hc; [done|done|]. by destruct ended. }
  unfold bind at 1 3. destruct (keep w) as [b w1]. simpl in *.
  assert (sweeping w w1 removed removed) as Hfirst.
  { split; [done|]. intros Hr Hg. destruct (Hs Hr Hg) as [Hm _]. by apply removed_later. }
  destruct b; [exact Hfirst|].
  pose proof (spares_external (remove_volume name) w1 (volume_live name (sv_rest w1))) as Hx.
  unfold bind, external in *. destruct (remove_volume name (sv_rest w1)) as [gone x]. simpl in *.
  split; [etrans; [exact Hs|by destruct gone]|].
  intros Hr Hg Hok. destruct (Hs Hr Hg) as [Hm _]. pose proof (removed_later _ _ _ Hm Hok) as Hok1.
  destruct gone; simpl; [|exact Hok1]. apply Forall_app. split; [exact Hok1|]. constructor; [|done].
  exists run. split; [by right|]. by apply Hc.
Qed.

Lemma sweep_sandboxes_sweeps w r w' : sweep_sandboxes w = (r, w') ->
  sweeping w w' [] (match r with Ok removed => removed | Err _ => [] end).
Proof.
  intros E. unfold sweep_sandboxes, try_with, bind at 1 in E.
  pose proof (spares_external list_sandboxes w (list_live (sv_rest w))) as Hlist.
  destruct (external list_sandboxes w) as [listed w1]. simpl in Hlist.
  assert (sweeping w w1 [] []) as H01 by (split; [done|]; intros _ _ _; by constructor).
  destruct listed as [listed|[text]]; [|by injection E as <- <-].
  eapply sweeping_trans; [exact H01|]. unfold bind at 1 in E.
  pose proof (sweeping_for_each listed sweep_sandbox fst ([], []) w1
    (fun a x w0 _ => sweep_sandbox_sweeps a x w0)) as H12.
  destruct (for_each listed sweep_sandbox ([], []) w1) as [[removed kept_runs] w2]. simpl in H12.
  eapply sweeping_trans; [exact H12|]. unfold bind at 1 in E.
  pose proof (spares_external list_volumes w2 (volumes_live (sv_rest w2))) as Hvol.
  destruct (external list_volumes w2) as [volumes w3]. simpl in Hvol.
  assert (sweeping w2 w3 removed removed) as H23.
  { split; [done|]. intros Hr2 Hg2. destruct (Hvol Hr2 Hg2) as [Hm _]. by apply removed_later. }
  destruct volumes as [volumes|e]; [|by injection E as <- <-].
  eapply sweeping_trans; [exact H23|]. unfold bind in E.
  pose proof (sweeping_for_each volumes (sweep_volume kept_runs) id removed w3
    (fun a x w0 _ => sweep_volume_sweeps kept_runs a x w0)) as H34.
  destruct (for_each volumes (sweep_volume kept_runs) removed w3) as [removed' w4].
  by injection E as <- <-.
Qed.

(** A sweep takes nothing from an open turn: whichever call of the store or
    of the sandbox host fails, and whatever the other processes do meanwhile,
    each sandbox that a sweep of the host removes, and each name it reports (of
    a sandbox or of a workspace volume), is that of a run that is stored and
    whose log has ended; what belongs to an open run, or to no run, is left. *)
Theorem sandbox_sweep_spares_open_turns w r w' :
  respectful q (evolves q) w -> Good q (sv_shared w) -> sweep_sandboxes w = (r, w') ->
  (forall name, name ∈ live (sv_rest w) -> name ∉ live (sv_rest w') ->
     exists run, box_run_of name = Some run /\ closed (sv_shared w') run) /\
  (forall removed name, r = Ok removed -> name ∈ removed ->
     exists run, (box_run_of name = Some run \/ workspace_run_of name = Some run) /\
       closed (sv_shared w') run).
Proof.
  intros Hr Hg E.
  destruct (sweep_sandboxes_sweeps w r w' E) as [Hs Hok].
  destruct (Hs Hr Hg) as [Hm Hsp]. split; [exact Hsp|].
  intros removed name -> Hin. assert (removed_ok removed w') as Hall by (apply Hok; [done|done|by constructor]).
  unfold removed_ok in Hall. rewrite Forall_forall in Hall. by apply Hall.
Qed.


End Removed.

(** ** Concrete sweeps *)

#[local] Instance demo_uuids : UuidCrate := hyphenated.

(** Redis does not answer the push of the enqueued sample run. *)
Definition lost_push : Future Db :=
  mkFuture (fun n => mkMoment (fun s => s) (match n with 9 => FailsBefore | _ => NoFault end))
    (fu_time calm) (fu_id calm).

Definition stranded_server : Server Db MemorySandbox :=
  (enqueue Queue.open sample_spec LeaveToSweep
     (mkServer demo_shared (mkMemorySandbox {[box_container_name (id_of 1); "other"]} [] ∅) lost_push 0 [])).2.

Example stranded_is_swept :
  QueueProofs.waiting Queue.open (sh_queue (sv_shared stranded_server)) = [] /\
  let '(r, w) := sweep (fun _ => "error") Queue.open 0 1000 stranded_server in
  r = Ok [id_of 1] /\
  QueueProofs.waiting Queue.open (sh_queue (sv_shared w)) = [id_display (id_of 1 : RunId)].
Proof. vm_compute. split_and!; reflexivity. Qed.

Lemma stranded_quiet n : others (fu_moment (sv_future stranded_server) n) = fun s => s.
Proof.
  assert (sv_future stranded_server = lost_push) as -> by (vm_compute; reflexivity). done.
Qed.

Lemma stranded_respectful : respectful Queue.open (evolves Queue.open) stranded_server.
Proof. intros n s _. rewrite stranded_quiet. reflexivity. Qed.

Lemma stranded_good : Good Queue.open (sv_shared stranded_server).
Proof.
  set (w := mkServer demo_shared (mkMemorySandbox {[box_container_name (id_of 1); "other"]} [] ∅) lost_push 0 []).
  assert (keeps Queue.open (prompt Queue.open) w stranded_server) as [_ Hg]; [|exact Hg].
  eapply triple_keeps; [apply _|by apply (triple_enqueue Queue.open gol_ok)| |apply demo_good|done].
  intros n s _. simpl. reflexivity.
Qed.

Lemma sweeps_strand_nothing_witness :
  all_held Queue.open [id_of 1]
    (sv_shared (sweep (fun _ => "error") Queue.open 0 1000 stranded_server).2).
Proof.
  refine (proj1 (proj2 (sweeps_strand_nothing Queue.open gol_ok (fun _ => "error") stranded_server
    0 1000 0%Z 0%Z stranded_respectful stranded_good _)) [id_of 1] _).
  - intros n s id _ _ Hn. rewrite stranded_quiet. exact Hn.
  - vm_compute. reflexivity.
Defined.

(** Its sandbox stays while it is open, and goes once it was stopped. *)
Definition cancelled_server : Server Db MemorySandbox :=
  (do_append_events (id_of 1) [sample_event RunCancelled] stranded_server).2.

Example open_sandbox_is_left :
  (sweep_sandboxes stranded_server).1 = Ok [] /\
  (sweep_sandboxes cancelled_server).1 = Ok [box_container_name (id_of 1)].
Proof. vm_compute. split; reflexivity. Qed.

Lemma cancelled_keeps :
  keeps Queue.open (evolves Queue.open) stranded_server cancelled_server.
Proof.
  pose proof (triple_ending (X := MemorySandbox) Queue.open (evolves Queue.open) (fun _ => True) (id_of 1)
    [sample_event RunCancelled] (fun s s' _ _ p => p) eq_refl) as Ht.
  exact (triple_keeps Queue.open (evolves Queue.open) _ _ _ stranded_server Ht stranded_respectful
    stranded_good I).
Qed.

Lemma sandbox_sweep_spares_open_turns_witness :
  exists run, box_run_of (box_container_name (id_of 1)) = Some run /\
    closed (sv_shared (sweep_sandboxes cancelled_server).2) run.
Proof.
  destruct cancelled_keeps as [Hm Hg].
  destruct (sweep_sandboxes cancelled_server) as [r w'] eqn:E.
  refine (proj1 (sandbox_sweep_spares_open_turns Queue.open cancelled_server r w'
    (moves_respectful _ _ _ _ Hm stranded_respectful) Hg E) (box_container_name (id_of 1)) _ _).
  - vm_compute. reflexivity.
  - apply (f_equal (fun p => bool_decide (box_container_name (id_of 1) ∈ ms_live (sv_rest p.2)))) in E.
    vm_compute in E. symmetry in E. exact (proj1 (bool_decide_eq_false _) E).
Defined.
