(* ===== verification/Http.v ===== *)
(** * The HTTP handlers ([server/http.rs])

    Each handler is a function over the server's state, from what axum took
    from the request (a body, a path, a query, the headers) to its answer or an
    [ApiError]; [serve] is the router.  JSON answers are records.  A task that
    runs off the async workers runs to its end, so a handler is the calls it
    makes in order.  The authenticator, the decider's client, the models, the
    catalog, axum's rejections and HMAC are outside.  [HttpProofs] and
    [HttpIsolation] have the theorems. *)

From S2P Require Import Prelude Text Protocol Uuids MemoryOwner SpecBuilder Auth Reduce Authorizer.
From S2P Require Import DriverTurns Store StoreTriggers StoreMessages StoreStops StoreThreads.
From S2P Require Import Surface Stream Queue Driver DriverProofs Server Spawner Deliverer Fires.
From S2P Require Import Webhook Scheduler Sandbox Turns Worker.

Definition owner_of (p : Caller) : Owner := mkOwner (ca_issuer p) (ca_subject p) (ca_tenant p).

(** A header's first value by its name in lower case, as text: [Some None] is
    a value that is no visible ASCII. *)
Definition HeaderMap := string -> option (option string).

Definition header_value (headers : HeaderMap) (name : string) : option string :=
  value ← headers name;
  text ← value;
  let text := trim text in
  if bool_decide (text = "") then None else Some text.

Definition strip_text (prefix s : string) : option string :=
  bytes_string <$> strip_prefix (string_bytes prefix) (string_bytes s).

Definition bearer (headers : HeaderMap) : option string :=
  value ← header_value headers "authorization";
  token ← match strip_text "Bearer " value with
          | Some token => Some token
          | None => strip_text "bearer " value
          end;
  let token := trim token in
  if bool_decide (token = "") then None else Some token.

(** ** Errors *)

(** A task of a thread that waits on its user. *)
Record WaitingTask : Type := mkWaitingTask {
  wt_label : nat;
  wt_run_id : RunId;
  wt_question_id : MessageId;
  wt_question : string;
}.

(** axum's [JsonRejection]: whether it is a data or a syntax error, its text,
    and the status it answers with. *)
Class Rejection (J : Type) : Type := {
  is_body_error : J -> bool;
  body_text : J -> string;
  rejection_status : J -> N;
}.

Inductive ApiError (J : Type) : Type :=
| ApiUnsupported (placement : ExecutionPlacement)
| ApiDecider (text : string)
| ApiNotFound
| ApiAgentNotFound
| ApiStore (text : string)
| ApiProxy (text : string)
| ApiSandbox (text : string)
| ApiConflict (text : string)
| ApiBadRequest (text : string)
| ApiInvalidBody (text : string)
| ApiRejected (rejection : J)
| ApiUnauthorized
| ApiAuthUnavailable (text : string)
| ApiTooManyStreams
| ApiUnavailable (text : string)
| ApiTooLarge (text : string)
| ApiWhichTask (waiting : list WaitingTask)
| ApiThreadNotFound
| ApiTriggerNotFound
| ApiNoTriggers
| ApiNoThreads
| ApiNoStops
| ApiNoStreams.
Arguments ApiUnsupported {J} _.
Arguments ApiDecider {J} _.
Arguments ApiNotFound {J}.
Arguments ApiAgentNotFound {J}.
Arguments ApiStore {J} _.
Arguments ApiProxy {J} _.
Arguments ApiSandbox {J} _.
Arguments ApiConflict {J} _.
Arguments ApiBadRequest {J} _.
Arguments ApiInvalidBody {J} _.
Arguments ApiRejected {J} _.
Arguments ApiUnauthorized {J}.
Arguments ApiAuthUnavailable {J} _.
Arguments ApiTooManyStreams {J}.
Arguments ApiUnavailable {J} _.
Arguments ApiTooLarge {J} _.
Arguments ApiWhichTask {J} _.
Arguments ApiThreadNotFound {J}.
Arguments ApiTriggerNotFound {J}.
Arguments ApiNoTriggers {J}.
Arguments ApiNoThreads {J}.
Arguments ApiNoStops {J}.
Arguments ApiNoStreams {J}.

Definition show_nat (n : nat) : string := show_u64 (N.of_nat n).

(** A task's label: ["T1"]. *)
Definition task_label (n : nat) : string := "T" +:+ show_nat n.

(** What an error answers: [JError] is [{"error": ..}], with what else it
    holds. *)
Inductive ErrorBody :=
| JError (text : string)
| JPlacement (text : string) (placement : ExecutionPlacement)
| JWaiting (text : string) (waiting : list (string * RunId * MessageId * string))
| JText (text : string).

Record Response : Type := mkResponse { rp_status : N; rp_body : ErrorBody }.

Section Errors.
Context `{Rejection J}.

Definition api_store_error (error : StoreError) : ApiError J := ApiStore (MemoryOwner.message error).

Definition api_turn_error (error : TurnError) : ApiError J :=
  match error with
  | TStore text => ApiStore text
  | TProxy text => ApiProxy text
  | TSandbox text => ApiSandbox text
  | TNotFound => ApiNotFound
  | TConflict text => ApiConflict text
  | TBadRequest text => ApiBadRequest text
  end.

(** What [enqueue]'s error is to a caller. *)
Definition api_enqueue_error (error : EnqueueError) : ApiError J :=
  match error with
  | EQueue text => ApiDecider ("queue unavailable: " +:+ text)
  | EStore error => api_store_error error
  | EPush text | EHeld text => ApiDecider text
  end.

Definition body_rejection (rejection : J) : ApiError J :=
  if is_body_error rejection then ApiInvalidBody (body_text rejection) else ApiRejected rejection.

Definition into_response (error : ApiError J) : Response :=
  match error with
  | ApiUnsupported p => mkResponse 422 (JPlacement "unsupported placement" p)
  | ApiDecider text => mkResponse 502 (JError text)
  | ApiNotFound => mkResponse 404 (JError "run not found")
  | ApiNoStreams => mkResponse 404 (JError "streams are not available")
  | ApiNoStops => mkResponse 404 (JError "stops are not available")
  | ApiNoThreads => mkResponse 404 (JError "threads are not available")
  | ApiNoTriggers => mkResponse 404 (JError "triggers are not available")
  | ApiTriggerNotFound => mkResponse 404 (JError "trigger not found")
  | ApiThreadNotFound => mkResponse 404 (JError "thread not found")
  | ApiUnavailable text => mkResponse 503 (JError text)
  | ApiTooLarge text => mkResponse 413 (JError text)
  | ApiWhichTask waiting =>
      mkResponse 409
        (JWaiting "which task?"
           ((fun t => (task_label (wt_label t), wt_run_id t, wt_question_id t, wt_question t))
              <$> waiting))
  | ApiTooManyStreams => mkResponse 429 (JError "too many open streams")
  | ApiStore _ => mkResponse 503 (JError "store unavailable")
  | ApiAgentNotFound => mkResponse 404 (JError "agent not found")
  | ApiProxy text => mkResponse 502 (JError text)
  | ApiSandbox text => mkResponse 502 (JError text)
  | ApiConflict text => mkResponse 409 (JError text)
  | ApiBadRequest text => mkResponse 400 (JError text)
  | ApiInvalidBody text => mkResponse 400 (JError text)
  | ApiRejected rejection => mkResponse (rejection_status rejection) (JText (body_text rejection))
  | ApiUnauthorized => mkResponse 401 (JError "unauthorized")
  | ApiAuthUnavailable _ => mkResponse 503 (JError "identity provider unavailable")
  end.

End Errors.

(** ** Requests *)

Record RunBody : Type := mkRunBody {
  rb_agent_id : AgentId;
  rb_agent_version : string;
  rb_input : string;
  rb_placement : ExecutionPlacement;
  rb_work_model : WorkModel;
  rb_limits : option Limits;
  rb_metadata : gmap string string;
}.

Record TurnRequest : Type := mkTurnRequest {
  tr_agent_id : AgentId;
  tr_agent_version : string;
  tr_input : string;
  tr_placement : ExecutionPlacement;
  tr_work_model : WorkModel;
  tr_capabilities : list Capability;
  tr_limits : option Limits;
  tr_metadata : gmap string string;
  tr_background : bool;
}.

(** The fields a run and a coworker turn share. *)
Record SpecCore : Type := mkSpecCore {
  sp_agent_id : AgentId;
  sp_agent_version : string;
  sp_input : string;
  sp_placement : ExecutionPlacement;
  sp_work_model : WorkModel;
  sp_limits : option Limits;
  sp_metadata : gmap string string;
}.

Definition run_core (body : RunBody) : SpecCore :=
  mkSpecCore (rb_agent_id body) (rb_agent_version body) (rb_input body) (rb_placement body)
    (rb_work_model body) (rb_limits body) (rb_metadata body).

Definition turn_core (body : TurnRequest) : SpecCore :=
  mkSpecCore (tr_agent_id body) (tr_agent_version body) (tr_input body) (tr_placement body)
    (tr_work_model body) (tr_limits body) (tr_metadata body).

Record EventsQuery : Type := mkEventsQuery { eq_after : nat; eq_limit : option nat }.

Record FollowUpBody : Type := mkFollowUpBody { fb_input : string; fb_limits : option Limits }.

Record ReplyBody : Type := mkReplyBody { rl_text : string; rl_question_id : option MessageId }.

Record ThreadsQuery : Type := mkThreadsQuery { tq_after : option nat; tq_limit : option nat }.

Inductive CardState :=
| CardQueued | CardRunning | CardWaiting | CardCompleted | CardFailed | CardCancelled | CardExpired.

#[export] Instance CardState_eq_dec : EqDecision CardState.
Proof. solve_decision. Defined.

Record BoardQuery : Type := mkBoardQuery {
  bq_after : option nat;
  bq_limit : option nat;
  bq_state : option CardState;
}.

Inductive KindBody := KbSchedule (cron time_zone : string) | KbWebhook.

Record TriggerBody : Type := mkTriggerBody {
  tb_agent_id : AgentId;
  tb_kind : KindBody;
  tb_input : string;
  tb_placement : ExecutionPlacement;
  tb_work_model : WorkModel;
  tb_limits : option Limits;
  tb_missed : option Missed;
}.

(** ** Bounds and parsers *)

Definition MAX_LIMIT : N := 64.
Definition EVENTS_PAGE_MAX : nat := 500.
Definition BOARD_RUNS : nat := 1000.
Definition PAGE_MAX : nat := 50.

(** [(1..=MAX_LIMIT).contains] of both limits. *)
Definition limits_bounded (l : Limits) : bool :=
  (1 <=? max_steps l)%N && (max_steps l <=? MAX_LIMIT)%N &&
  (1 <=? max_model_calls l)%N && (max_model_calls l <=? MAX_LIMIT)%N.

Definition page_bounds {J} (after limit : option nat) : result (nat * nat) (ApiError J) :=
  let limit := default PAGE_MAX limit in
  if (limit =? 0)%nat || (PAGE_MAX <? limit)%nat
  then Err (ApiBadRequest "limit must be between 1 and 50")
  else Ok (default 0%nat after, limit).

(** Where a stream resumes; [None] is a query axum refused. *)
Definition resume {J} (headers : HeaderMap) (query : option (option N))
    : result (option N) (ApiError J) :=
  match query with
  | None => Err (ApiBadRequest "after must be a count")
  | Some after =>
      match headers "last-event-id" with
      | Some value =>
          match text ← value; parse_u64 (trim text) with
          | Some at_ => Ok (Some at_)
          | None => Err (ApiBadRequest "Last-Event-ID must be a count")
          end
      | None => Ok after
      end
  end.

Definition nul : byte := Ascii.zero.

(** [contains('\0')]. *)
Definition has_nul (s : string) : bool := existsb (fun b => bool_decide (b = nul)) (string_bytes s).

Definition usable_webhook_key (key : list byte) : option (list byte) :=
  if (length key <? MIN_WEBHOOK_KEY_BYTES)%nat then None else Some key.

(** [GOL_WEBHOOK_KEY], when it is set and long enough. *)
Definition webhook_key_from_env (var : option string) : option (list byte) :=
  key ← var; usable_webhook_key (string_bytes key).

Fixpoint take_while (p : byte -> bool) (l : list byte) : list byte :=
  match l with
  | [] => []
  | b :: l => if p b then b :: take_while p l else []
  end.

(** A message addressed to a task. *)
Definition addressed (input : string) : option (nat * string) :=
  let rest := trim_start input in
  rest ← match strip_text "T" rest with Some rest => Some rest | None => strip_text "t" rest end;
  let bytes := string_bytes rest in
  let digits := length (take_while is_ascii_digit bytes) in
  if (digits =? 0)%nat || (9 <? digits)%nat then None
  else
    let number := bytes_string (take digits bytes) in
    text ← strip_text ":" (bytes_string (drop digits bytes));
    number ← parse_u64 number;
    if (1 <=? number)%N then Some (N.to_nat number, trim text) else None.

(** The tasks among a thread's runs that wait on the user, labelled by their
    place. *)
Definition waiting_on_user (runs : list StoredRun) : list WaitingTask :=
  omap
    (fun at_run : nat * StoredRun =>
       let '(place, run) := at_run in
       q ← open_question (sr_spec run) (sr_events run);
       Some (mkWaitingTask (place + 1) (run_id (sr_spec run)) q.1 q.2))
    (zip (seq 0 (length runs)) runs).

(** ** Cards *)

(** [CardState::of]. *)
Definition card_state_of (state : RunState) : CardState :=
  match dispatch state with
  | DCreated | DQueued => CardQueued
  | DCompleted _ => CardCompleted
  | DFailed _ _ => CardFailed
  | DCancelled => CardCancelled
  | DExpired => CardExpired
  | DWaiting _ | DAwaitingApproval _ | DPaused => CardWaiting
  | _ =>
      match harness state with
      | WaitingForMessage _ _ _ => CardWaiting
      | _ => CardRunning
      end
  end.

Record Card : Type := mkCard {
  cd_label : string;
  cd_question_id : option MessageId;
  cd_question : option string;
  cd_run_id : RunId;
  cd_agent_id : AgentId;
  cd_parent : option RunId;
  cd_children : list RunId;
  cd_state : CardState;
  cd_outcome : option string;
  cd_steps : N;
  cd_model_calls : N;
  cd_created_at : option Timestamp;
  cd_started_at : option Timestamp;
  cd_ended_at : option Timestamp;
}.

(** The children a log started, once each, in order. *)
Definition card_children (events : list Event) : list RunId :=
  fold_left
    (fun children event =>
       match payload event with
       | ChildStarted id _ _ =>
           if existsb (fun child => bool_decide (child = id)) children then children
           else children ++ [id]
       | _ => children
       end) events [].

(** The time of the first event that is [wanted]. *)
Definition first_at (wanted : EventPayload -> bool) (events : list Event) : option Timestamp :=
  (fun event => at_ (envelope event)) <$> List.find (fun event => wanted (payload event)) events.

Definition card (label : nat) (run : StoredRun) : CardState * Card :=
  let state := fold (sr_spec run) (sr_events run) in
  let card_state := card_state_of state in
  let question := open_question (sr_spec run) (sr_events run) in
  (card_state,
   mkCard (task_label label) (fst <$> question) (snd <$> question) (run_id (sr_spec run))
     (agent_id (sr_spec run)) (parent (lineage (sr_spec run))) (card_children (sr_events run))
     card_state
     (match dispatch state with DCompleted outcome => Some outcome | _ => None end)
     (steps state) (model_calls state)
     ((fun event => at_ (envelope event)) <$> head (sr_events run))
     (first_at is_run_started (sr_events run)) (first_at is_terminal (sr_events run))).

Record Board : Type := mkBoard { bd_cards : list Card; bd_truncated : bool }.

(** The cards of a page of a thread's runs, of one state if [wanted]. *)
Definition board_cards (runs : list StoredRun) (wanted : option CardState) (after limit : nat)
    : list Card :=
  let numbered := zip (seq 1 (length runs)) runs in
  match wanted with
  | None => (fun r => (card r.1 r.2).2) <$> take limit (drop after numbered)
  | Some wanted =>
      snd <$>
        take limit
          (drop after
             (List.filter (fun c => bool_decide (c.1 = wanted)) ((fun r => card r.1 r.2) <$> numbered)))
  end.

(** [runs] is one run longer than a board when it is truncated. *)
Definition board_of (runs : list StoredRun) (wanted : option CardState) (after limit : nat) : Board :=
  mkBoard (board_cards (take BOARD_RUNS runs) wanted after limit) (BOARD_RUNS <? length runs)%nat.

(** The outcome [get_ui] shows of a run. *)
Definition ui_outcome (state : RunState) : string :=
  match harness state, dispatch state with
  | Completed outcome, _ => outcome
  | _, DCompleted outcome => outcome
  | Failed _ text, _ => text
  | _, DFailed _ text => text
  | Cancelled, _ | _, DCancelled => "cancelled"
  | _, DExpired => "expired"
  | _, _ => "running"
  end.

(** ** Answers *)

Record ComputerBody : Type := mkComputerBody {
  cb_image : string;
  cb_started_by : string;
  cb_command : string;
  cb_started : bool;
  cb_name : string;
}.

Record TurnBody : Type := mkTurnBody {
  bo_run_id : RunId;
  bo_placement : ExecutionPlacement;
  bo_credential_mode : string;
  bo_user_message : string;
  bo_completion : option string;
  bo_computer : ComputerBody;
}.

(** [ComputerBody::from_plan]. *)
Definition computer_body (plan : ComputerPlan) : ComputerBody :=
  mkComputerBody (cp_image plan) (cp_started_by plan) (cp_command plan) (cp_started plan)
    (cp_name plan).

Definition user_text (p : EventPayload) : option string :=
  match p with UserMessage text => Some text | _ => None end.

(** [TurnBody::from_outcome]. *)
Definition turn_body (outcome : TurnOutcome) : TurnBody :=
  mkTurnBody (run_id (to_spec outcome)) (placement (to_spec outcome)) (to_credential_mode outcome)
    (default (input (to_spec outcome))
       (find_map (fun event => user_text (payload event)) (to_events outcome)))
    (to_completion outcome) (computer_body (to_computer outcome)).

(** A finished turn, or one queued for a worker (202). *)
Inductive TurnAnswer := TurnDone (body : TurnBody) | TurnQueued (run : RunId) (placement : ExecutionPlacement).

Inductive FollowUp :=
| Answered (thread_id label : string) (run : RunId)
| Followed (thread_id : string) (run : RunState).

Record TriggerView : Type := mkTriggerView {
  tv_id : TriggerId;
  tv_agent_id : AgentId;
  tv_kind : TriggerKind;
  tv_input : string;
  tv_placement : ExecutionPlacement;
  tv_work_model : WorkModel;
  tv_limits : option Limits;
  tv_missed : Missed;
  tv_enabled : bool;
  tv_thread_id : string;
  tv_next_fire_at : option Z;
  tv_created_at : Z;
}.

Definition trigger_view `{UuidCrate} (t : StoredTrigger) : TriggerView :=
  mkTriggerView (tg_id t) (tg_agent_id t) (tg_kind t) (tg_input t) (tg_placement t)
    (tg_work_model t) (tg_limits t) (tg_missed t) (tg_enabled t) (trigger_thread (tg_id t))
    (tg_next_fire_ms t) (tg_created_ms t).

(** A trigger with its secret, if it has one.  Such an answer is not cached. *)
Record SecretView : Type := mkSecretView { sv_view : TriggerView; sv_secret : option string }.

(** A live stream, as its handler starts it. *)
Inductive LiveStream :=
| OutboxStream (o : Owner) (cursor : option N) (slot : Store.Principal)
| RunStream (o : Owner) (run : RunId) (cursor : N) (slot : Store.Principal)
| NoContent.

Inductive HookAnswer := HookStarted (run : RunId) | HookDuplicate (run : RunId).

(** ** Errors of an inline run *)

Inductive RunStartError :=
| RsUnsupported (placement : ExecutionPlacement)
| RsDecider (text : string)
| RsStore (error : StoreError).

(** ** The application's state *)

(** What the store keeps beside runs and agents: the in-memory store and the
    Postgres store keep it all. *)
Record Facets : Type := mkFacets {
  keeps_outbox : bool;
  keeps_threads : bool;
  keeps_stops : bool;
  keeps_triggers : bool;
}.

Record App (X : Type) : Type := mkApp {
  app_queue : option RunQueue;
  app_jev : result (DecisionView -> X -> result Effect DeciderError * X) string;
  app_models : RunSpec -> ModelCompletion X;
  app_catalog : option (X -> result (list (Tool X)) string * X);
  app_webhook_key : option (list byte);
  app_keeps : Facets;
}.
Arguments mkApp {X} _ _ _ _ _ _.
Arguments app_queue {X} _.
Arguments app_jev {X} _.
Arguments app_models {X} _.
Arguments app_catalog {X} _.
Arguments app_webhook_key {X} _.
Arguments app_keeps {X} _.

(** ** More calls of the store *)

Section Calls.
Context {R X : Type}.

Definition do_put_agent (agent : StoredAgent) : @M R X (result PutAgent StoreError) :=
  store_call (on_runs (fun s => put_agent s agent)).

Definition do_run_page (id : RunId) (after limit : nat) : @M R X (result (option StoredRun) StoreError) :=
  store_call (reads (fun s => run_page (runs_store s) id after limit)).

Definition do_thread_root (o : Owner) (thread : string) : @M R X (result (option RunSpec) StoreError) :=
  store_call (reads (fun s => thread_root (runs_store s) o thread)).

Definition do_runs_of_thread (o : Owner) (thread : string) (limit : nat)
    : @M R X (result (list StoredRun) StoreError) :=
  store_call (reads (fun s => runs_of_thread (runs_store s) o thread limit)).

Definition do_threads_of (o : Owner) (after limit : nat) : @M R X (result (list ThreadSummary) StoreError) :=
  store_call (reads (fun s => threads_of (runs_store s) o after limit)).

(** A stop is a step of the store and its stops. *)
Definition on_stops {A} (f : StopsStore -> result A StoreError * StopsStore) (s : Shared R)
    : result A StoreError * Shared R :=
  let '(r, st) := f (sh_store s) in (r, with_store s st).

Definition do_put_stop `{UuidCrate} (o : Owner) (scope : StopScope) : @M R X (result unit StoreError) :=
  store_call (on_stops (fun s => put_stop s o scope)).

(** The walks have the fuel [open_runs_under_iff] shows is enough. *)
Definition do_open_runs_under (o : Owner) (scope : StopScope)
    : @M R X (result (list StoredRun) StoreError) :=
  store_call
    (reads (fun s => open_runs_under (under_fuel (runs_store s)) (sh_store s) o scope)).

Definition do_put_trigger (t : StoredTrigger) (most : nat) : @M R X (result bool StoreError) :=
  store_call (on_triggers (fun ts => put_trigger ts t most)).

Definition do_triggers_of (o : Owner) : @M R X (result (list StoredTrigger) StoreError) :=
  store_call (reads (fun s => triggers_of (sh_triggers s) o)).

Definition do_pause_triggers (o : Owner) : @M R X (result nat StoreError) :=
  store_call (on_triggers (fun ts => pause_triggers ts o)).

Definition do_resume_trigger (o : Owner) (id : TriggerId) (next : option Z)
    : @M R X (result (option StoredTrigger) StoreError) :=
  store_call (on_triggers (fun ts => StoreTriggers.resume_trigger ts o id next)).

Definition do_rotate_webhook (o : Owner) (id : TriggerId)
    : @M R X (result (option StoredTrigger) StoreError) :=
  store_call (on_triggers (fun ts => rotate_webhook ts o id)).

Definition do_delete_trigger (o : Owner) (id : TriggerId) : @M R X (result bool StoreError) :=
  store_call (on_triggers (fun ts => StoreTriggers.delete_trigger ts o id)).

End Calls.

(** ** The handlers *)

Section Handlers.
Context `{UuidCrate} `{Clocks} {R X J : Type} `{Redis R} `{Memory X} `{SandboxHost X}
  `{GatewayPoster X} `{Authenticator X} `{Rejection J}.
Context (hmac : list byte → list byte → list byte) (enqueue_debug : EnqueueError → string).
Context (app : App X).

Local Open Scope rust_scope.

Abbreviation Handler A := (@M R X (result A (ApiError J))).

Implicit Types (p : Caller) (o : Owner).

(** [Authenticated]'s extractor. *)
Definition authenticated (headers : HeaderMap) : Handler Caller :=
  match bearer headers with
  | None => ret (Err ApiUnauthorized)
  | Some token =>
      let! checked := external (authenticate token) in
      ret (match checked with
           | Ok p => Ok p
           | Err BadToken => Err ApiUnauthorized
           | Err (Unavailable text) => Err (ApiAuthUnavailable text)
           end)
  end.

(** [owned]: what [read] finds, if the caller owns it. *)
Definition owned p (read : @M R X (result (option StoredRun) StoreError)) : Handler StoredRun :=
  let!? found := read else api_store_error in
  ret (match found with
       | Some run => if owner_is (owner (sr_spec run)) (owner_of p) then Ok run else Err ApiNotFound
       | None => Err ApiNotFound
       end).

Definition owned_run (id : RunId) p : Handler StoredRun := owned p (do_run id).

Definition owned_run_page (id : RunId) p (after limit : nat) : Handler StoredRun :=
  owned p (do_run_page id after limit).

Definition create_agent p (agent : AgentManifest) : Handler AgentManifest :=
  let!? put := do_put_agent (mkStoredAgent agent (owner_of p)) else api_store_error in
  ret (match put with
       | AgentStored => Ok agent
       | OwnedByOther => Err (ApiConflict "agent belongs to another principal")
       end).

(** *** Starting a run *)

(** The spec of a run a caller asks for.  [None] of [build], a failed [expect],
    does not arise ([build_spec_ok]). *)
Definition build_spec o (core : SpecCore) (caps : list Capability) : Handler RunSpec :=
  let limits := default (mkLimits 8 4) (sp_limits core) in
  if negb (limits_bounded limits) then ret (Err (ApiBadRequest "limits must be between 1 and 64"))
  else if bool_decide (is_Some (sp_metadata core !! TURN_KEY)) then
    ret (Err (ApiBadRequest "gol.turn is set by the server"))
  else if bool_decide (is_Some (sp_metadata core !! TRIGGER_KEY)) then
    ret (Err (ApiBadRequest "gol.trigger is set by the server"))
  else if existsb (fun kv => starts_with "gol." kv.1) (map_to_list (sp_metadata core)) then
    ret (Err (ApiBadRequest "gol. metadata is set by the server"))
  else
    let! fresh := random in
    let b := with_owner SpecBuilder.builder o in
    let b := with_agent b (sp_agent_id core) (sp_agent_version core) in
    let b := with_input b (sp_input core) in
    let b := with_placement b (sp_placement core) in
    let b := with_work_model b (sp_work_model core) in
    let b := with_capabilities b caps in
    let b := with_limits b limits in
    ret (match build (id_of fresh) (with_metadata b (sp_metadata core)) with
         | Some spec => Ok spec
         | None => Err (ApiDecider "expected to be recorded")
         end).

(** [run_with_jev]: the events recorded, and how the run ended. *)
Definition run_with_jev (spec : RunSpec)
    (delegation : option (AgentSpawner (W (R := R) (X := X)) * list DelegateTarget))
    (tools : list (Tool X))
    : @M R (RunCell * RunMemory X) (list Event * result unit RunStartError) :=
  let! booted := Driver.boot spec in
  match booted with
  | Err (BootUnsupportedPlacement p) => ret ([], Err (RsUnsupported p))
  | Ok d =>
      let d := match delegation with
               | Some (spawner, targets) => with_spawner d spawner targets
               | None => d
               end in
      match app_jev app with
      | Err text => ret ([], Err (RsDecider text))
      | Ok jev =>
          fun w =>
            match run_to_completion (fun view => in_run (external (jev view))) (lift_tool <$> tools)
                    (fun request => in_run (external (app_models app spec request)))
                    (enough spec) d w with
            | Some (r, (d, w)) =>
                ((d_events d,
                  match r with Ok _ => Ok tt | Err error => Err (RsDecider (de_message error)) end), w)
            | None => (([], Err (RsDecider "out of fuel")), w)
            end
      end
  end.

Definition placement_debug (p : ExecutionPlacement) : string :=
  match p with Local => "Local" | Reverse => "Reverse" | PBox => "Box" end.

(** Why a run that could not finish failed. *)
Definition start_failure (error : RunStartError) : FailureClass * string :=
  match error with
  | RsUnsupported p => (FcEnvironment, "unsupported placement: " +:+ placement_debug p)
  | RsDecider text => (FcDependency, "decider: " +:+ text)
  | RsStore _ => (FcInfrastructure, "store unavailable")
  end.

Definition harness_events (spec : RunSpec)
    (delegation : option (AgentSpawner (W (R := R) (X := X)) * list DelegateTarget))
    (tools : list (Tool X))
    : @M R (RunCell * RunMemory X) (list Event * result unit RunStartError) :=
  let! (events, outcome) := run_with_jev spec delegation tools in
  match outcome with
  | Ok _ => ret (events, outcome)
  | Err error =>
      let '(class, text) := start_failure error in
      let! failed := run_failed_event spec class text in
      ret (events ++ [failed], outcome)
  end.

(** The blocking task of a run carried out inside its request. *)
Definition run_inline (spec : RunSpec) (named : list string) : @M R X (result StoredRun RunStartError) :=
  let! text := user_message_event spec in
  let!? _ := do_put_run (mkStoredRun spec [text]) else RsStore in
  let! loaded := load_tools (app_catalog app) named in
  let! (events, outcome) :=
    match loaded with
    | Ok catalog => with_run (mkRunCell 0 None) (harness_events spec None (run_tools named catalog))
    | Err _ =>
        let reason := "the tool catalog did not load" in
        let! failed := run_failed_event spec FcEnvironment reason in
        ret ([failed], Err (RsDecider reason))
    end in
  let!? _ := do_append_events (run_id spec) events else RsStore in
  match outcome with
  | Err error => ret (Err error)
  | Ok _ =>
      let!? stored := do_run (run_id spec) else RsStore in
      ret (match stored with Some run => Ok run | None => Err (RsDecider "run is not stored") end)
  end.

Definition api_start_error (error : RunStartError) : ApiError J :=
  match error with
  | RsUnsupported p => ApiUnsupported p
  | RsDecider text => ApiDecider text
  | RsStore error => api_store_error error
  end.

Definition start_run o (body : RunBody) : Handler RunState :=
  let!? found := do_agent (rb_agent_id body) else api_store_error in
  match found with
  | None => ret (Err ApiAgentNotFound)
  | Some agent =>
      if negb (owner_is (sa_owner agent) o) then ret (Err ApiAgentNotFound)
      else if negb (bool_decide (am_version (sa_manifest agent) = rb_agent_version body)) then
        ret (Err (ApiConflict "agent_version does not match the stored manifest"))
      else
        let named := am_tools (sa_manifest agent) in
        let!? spec := build_spec o (run_core body) (am_required_capabilities (sa_manifest agent)) in
        match app_queue app with
        | Some q =>
            let! queued := queued_events spec in
            let!? _ := enqueue q spec End else api_enqueue_error in
            ret (Ok (fold spec queued))
        | None =>
            let!? stored := run_inline spec named else api_start_error in
            ret (Ok (fold (sr_spec stored) (sr_events stored)))
        end
  end.

(** A JSON body axum may have refused. *)
Definition with_body {B A} (body : result B J) (k : B -> Handler A) : Handler A :=
  match body with Ok body => k body | Err rejection => ret (Err (body_rejection rejection)) end.

Definition create_run p (body : result RunBody J) : Handler RunState :=
  with_body body (fun body => start_run (owner_of p) body).

(** *** Coworker turns *)

(** The spec with another entry of metadata. *)
Definition marked (spec : RunSpec) (k v : string) : RunSpec :=
  mkRunSpec (run_id spec) (owner spec) (agent_id spec) (agent_version spec) (input spec)
    (placement spec) (work_model spec) (capabilities spec) (limits spec) (<[k := v]> (metadata spec))
    (lineage spec).

Definition background_turn p (body : TurnRequest) : Handler TurnAnswer :=
  match wm_credential (tr_work_model body) with
  | BringYourOwn _ => ret (Err (ApiBadRequest "a subscription turn cannot run in the background"))
  | PlatformGateway =>
      let!? spec := build_spec (owner_of p) (turn_core body) (tr_capabilities body) in
      match app_queue app with
      | None => ret (Err (ApiUnavailable "background turns are not available"))
      | Some q =>
          let spec := marked spec TURN_KEY "1" in
          let!? _ := enqueue q spec End else api_enqueue_error in
          ret (Ok (TurnQueued (run_id spec) (placement spec)))
      end
  end.

Definition create_coworker_turn p (body : TurnRequest) : Handler TurnAnswer :=
  if tr_background body then background_turn p body
  else
    let!? spec := build_spec (owner_of p) (turn_core body) (tr_capabilities body) in
    let!? outcome := open_turn spec else api_turn_error in
    ret (Ok (TurnDone (turn_body outcome))).

Definition complete_coworker_turn p (id : RunId) (text : string) : Handler TurnBody :=
  let!? _ := owned_run id p in
  let!? outcome := accept_subscription_completion id text else api_turn_error in
  ret (Ok (turn_body outcome)).

Definition fail_coworker_turn p (id : RunId) (text : string) : Handler TurnBody :=
  let!? _ := owned_run id p in
  let!? outcome := fail_turn id text else api_turn_error in
  ret (Ok (turn_body outcome)).

(** *** Reading a run *)

Definition get_run_state p (id : RunId) : Handler RunState :=
  let!? stored := owned_run id p in
  ret (Ok (fold (sr_spec stored) (sr_events stored))).

Definition get_events p (id : RunId) (query : option EventsQuery) : Handler (list Event) :=
  match query with
  | None => ret (Err (ApiBadRequest "after and limit must be counts"))
  | Some query =>
      let limit := default EVENTS_PAGE_MAX (eq_limit query) in
      if (limit =? 0)%nat || (EVENTS_PAGE_MAX <? limit)%nat then
        ret (Err (ApiBadRequest "limit must be between 1 and 500"))
      else
        let!? stored := owned_run_page id p (eq_after query) limit in
        ret (Ok (sr_events stored))
  end.

Definition get_ag_ui p (id : RunId) : Handler (list AgUi) :=
  let!? stored := owned_run id p in
  ret (Ok (ag_ui_events (run_id (sr_spec stored)) (sr_events stored))).

Definition get_ui p (id : RunId) : Handler RenderSpec :=
  let!? stored := owned_run id p in
  let folded := fold (sr_spec stored) (sr_events stored) in
  ret (Ok (json_render_spec (input (sr_spec stored)) (ui_outcome folded))).

(** *** Streams *)

(** [streams.take]: the process's slots are the cell of the handler. *)
Definition take_stream o : @M R (Streams * X) (result Store.Principal (ApiError J)) :=
  let! streams := get_cell in
  let '(slot, streams) := take_slot streams o in
  let! _ := set_cell streams in
  ret (match slot with Some slot => Ok slot | None => Err ApiTooManyStreams end).

Definition get_stream p (headers : HeaderMap) (query : option (option N))
    : @M R (Streams * X) (result LiveStream (ApiError J)) :=
  match resume headers query with
  | Err error => ret (Err error)
  | Ok cursor =>
      if negb (keeps_outbox (app_keeps app)) then ret (Err ApiNoStreams)
      else
        let o := owner_of p in
        let!? slot := take_stream o in
        ret (Ok (OutboxStream o cursor slot))
  end.

Definition get_run_stream p (id : RunId) (headers : HeaderMap) (query : option (option N))
    : @M R (Streams * X) (result LiveStream (ApiError J)) :=
  match resume headers query with
  | Err error => ret (Err error)
  | Ok cursor =>
      let cursor := default 0%N cursor in
      let!? at_ := beside_cell (owned_run_page id p (N.to_nat (cursor - 1)) 1) in
      let go :=
        let o := owner_of p in
        let!? slot := take_stream o in
        ret (Ok (RunStream o id cursor slot)) in
      match head (sr_events at_) with
      | Some event =>
          if (0 <? cursor)%N && is_terminal (payload event) then ret (Ok NoContent) else go
      | None =>
          if (0 <? cursor)%N then ret (Err (ApiBadRequest "the cursor is past the run's log")) else go
      end
  end.

(** *** Threads *)

(** The body in the session [thread]. *)
Definition with_session (body : RunBody) (thread : string) : RunBody :=
  mkRunBody (rb_agent_id body) (rb_agent_version body) (rb_input body) (rb_placement body)
    (rb_work_model body) (rb_limits body) (<[SESSION_ID := thread]> (rb_metadata body)).

Definition create_thread p (body : result RunBody J) : Handler (string * RunState) :=
  with_body body (fun body =>
    if bool_decide (is_Some (rb_metadata body !! SESSION_ID)) then
      ret (Err (ApiBadRequest "a thread's session is the server's to choose"))
    else
      let! fresh := random in
      let thread := uuid_display (from_u128 fresh) in
      let!? run := start_run (owner_of p) (with_session body thread) in
      ret (Ok (thread, run))).

(** Appends the user's answer, onto the log it read, and wakes the run:
    [tries] are left. *)
Fixpoint answer_tries (tries : nat) (run : RunId) (text : string) (asked : option MessageId)
    : Handler unit :=
  match tries with
  | O => ret (Err (ApiStore "the task kept changing while it was answered"))
  | S tries =>
      let!? found := do_run run else api_store_error in
      match found with
      | None => ret (Err ApiNotFound)
      | Some stored =>
          match open_question (sr_spec stored) (sr_events stored) with
          | None => ret (Err (ApiConflict "the task is not waiting for you"))
          | Some (question, _) =>
              if negb (bool_decide (default question asked = question)) then
                ret (Err (ApiConflict "the task is waiting on another question"))
              else
                let! answer := system_event (sr_spec stored) (UserAnswered question text) in
                let!? append :=
                  do_append_events_after run (length (sr_events stored)) [answer] else api_store_error in
                match append with
                | Appended =>
                    match app_queue app with
                    | Some q => let! _ := do_wake q run question in ret (Ok tt)
                    | None => ret (Ok tt)
                    end
                | Moved => answer_tries tries run text (Some question)
                | Missing => ret (Err ApiNotFound)
                | Terminal => ret (Err (ApiConflict "the task is not waiting for you"))
                end
          end
      end
  end.

Definition ANSWER_TRIES : nat := 3.

Definition answer_question (run : RunId) (text : string) (asked : option MessageId) : Handler unit :=
  let text := trim text in
  if bool_decide (text = "") then ret (Err (ApiBadRequest "the answer is empty"))
  else if (MAX_MESSAGE_BYTES <? String.length text)%nat then
    ret (Err (ApiTooLarge "the answer is too long"))
  else answer_tries ANSWER_TRIES run text asked.

(** The task a message answers, and its text. *)
Definition which_task (waiting : list WaitingTask) (text : string)
    : result (WaitingTask * string) (ApiError J) :=
  match addressed text with
  | Some (label, text) =>
      match List.find (fun task => (wt_label task =? label)%nat) waiting with
      | Some task => Ok (task, text)
      | None => Err (ApiWhichTask waiting)
      end
  | None =>
      match waiting with
      | [task] => Ok (task, text)
      | _ => Err (ApiWhichTask waiting)
      end
  end.

(** The metadata a follow-up keeps: the markers are the server's. *)
Definition unmarked (md : gmap string string) : gmap string string :=
  filter (fun kv => starts_with "gol." kv.1 = false) md.

Definition follow_up p (thread : string) (body : result FollowUpBody J) : Handler FollowUp :=
  with_body body (fun body =>
    let o := owner_of p in
    if negb (keeps_threads (app_keeps app)) then ret (Err ApiNoThreads)
    else
      let!? found := do_thread_root o thread else api_store_error in
      match found with
      | None => ret (Err ApiThreadNotFound)
      | Some root =>
          let!? agent := do_agent (agent_id root) else api_store_error in
          let!? runs := do_runs_of_thread o thread BOARD_RUNS else api_store_error in
          match waiting_on_user runs with
          | _ :: _ as waiting =>
              match which_task waiting (fb_input body) with
              | Err error => ret (Err error)
              | Ok (task, text) =>
                  if bool_decide (is_Some (fb_limits body)) then
                    ret (Err (ApiBadRequest "an answer takes no limits: they are for a follow-up"))
                  else
                    let!? _ := answer_question (wt_run_id task) text (Some (wt_question_id task)) in
                    ret (Ok (Answered thread (task_label (wt_label task)) (wt_run_id task)))
              end
          | [] =>
              match agent with
              | None => ret (Err ApiAgentNotFound)
              | Some agent =>
                  if negb (owner_is (sa_owner agent) o) then ret (Err ApiAgentNotFound)
                  else
                    let!? run :=
                      start_run o
                        (mkRunBody (agent_id root) (am_version (sa_manifest agent)) (fb_input body)
                           (placement root) (work_model root)
                           (Some (default (limits root) (fb_limits body))) (unmarked (metadata root))) in
                    ret (Ok (Followed thread run))
              end
          end
      end).

Definition reply_run p (id : RunId) (body : result ReplyBody J) : Handler RunId :=
  with_body body (fun body =>
    let!? _ := owned_run_page id p 0 1 in
    let!? _ := answer_question id (rl_text body) (rl_question_id body) in
    ret (Ok id)).

Definition list_threads p (query : option ThreadsQuery) : Handler (list ThreadSummary) :=
  match query with
  | None => ret (Err (ApiBadRequest "after and limit must be counts"))
  | Some query =>
      match page_bounds (tq_after query) (tq_limit query) with
      | Err error => ret (Err error)
      | Ok (after, limit) =>
          if negb (keeps_threads (app_keeps app)) then ret (Err ApiNoThreads)
          else
            let!? threads := do_threads_of (owner_of p) after limit else api_store_error in
            ret (Ok threads)
      end
  end.

Definition get_board p (thread : string) (query : option BoardQuery) : Handler Board :=
  match query with
  | None => ret (Err (ApiBadRequest "after and limit must be counts, and state a card state"))
  | Some query =>
      match page_bounds (bq_after query) (bq_limit query) with
      | Err error => ret (Err error)
      | Ok (after, limit) =>
          if negb (keeps_threads (app_keeps app)) then ret (Err ApiNoThreads)
          else
            let!? runs := do_runs_of_thread (owner_of p) thread (BOARD_RUNS + 1) else api_store_error in
            match runs with
            | [] => ret (Err ApiThreadNotFound)
            | _ => ret (Ok (board_of runs (bq_state query) after limit))
            end
      end
  end.

(** *** Stops *)

(** One turn of [stop]'s loop: the runs cancelled, and whether one could not
    be. *)
Definition stop_one (q : RunQueue) (parked : list (RunId * MessageId))
    (acc : list RunId * bool) (run : StoredRun) : @M R X (list RunId * bool) :=
  let '(cancelled, failed) := acc in
  let id := run_id (sr_spec run) in
  let ask := snd <$> List.find (fun entry => bool_decide (entry.1 = id)) parked in
  let queued :=
    match dispatch (fold (sr_spec run) (sr_events run)) with
    | DCreated | DQueued => true
    | _ => false
    end in
  if negb queued && bool_decide (ask = None) then ret acc
  else
    let! covered := do_stopped id in
    match covered with
    | Ok false => ret acc
    | Err _ => ret (cancelled, true)
    | Ok true =>
        let! event := run_cancelled_event (sr_spec run) in
        let! appended := do_append_events_after id (length (sr_events run)) [event] in
        match appended with
        | Ok Appended =>
            let cancelled := cancelled ++ [id] in
            match ask with
            | None => ret (cancelled, failed)
            | Some ask =>
                let! woken := do_wake q id ask in
                ret (cancelled, failed || negb (is_ok woken))
            end
        | Ok _ => ret acc
        | Err _ => ret (cancelled, true)
        end
    end.

Definition stop o (scope : StopScope) : Handler (list RunId) :=
  if negb (keeps_stops (app_keeps app)) then ret (Err ApiNoStops)
  else
    let!? _ := do_put_stop o scope else api_store_error in
    match app_queue app with
    | None => ret (Ok [])
    | Some q =>
        let! parked := do_parked q in
        let '(parked, failed) := match parked with Ok parked => (parked, false) | Err _ => ([], true) end in
        let!? runs := do_open_runs_under o scope else api_store_error in
        let! (cancelled, failed) := for_each runs (stop_one q parked) ([], failed) in
        ret (if failed : bool then Err (ApiStore "a stop could not cancel every run") else Ok cancelled)
    end.

Definition stop_run p (id : RunId) : Handler (list RunId) :=
  let!? _ := owned_run_page id p 0 1 in
  stop (owner_of p) (StopRun id).

Definition stop_thread p (thread : string) : Handler (list RunId) :=
  let o := owner_of p in
  if negb (keeps_threads (app_keeps app)) then ret (Err ApiNoThreads)
  else
    let!? root := do_thread_root o thread else api_store_error in
    let!? found :=
      match root with
      | Some _ => ret (Ok true)
      | None =>
          if keeps_stops (app_keeps app) then
            let!? open := do_open_runs_under o (StopThread thread) else api_store_error in
            ret (Ok (match open with [] => false | _ => true end))
          else ret (Ok false)
      end in
    if found : bool then stop o (StopThread thread) else ret (Err ApiThreadNotFound).

(** The runs cancelled, and how many triggers were paused. *)
Definition stop_owner p : Handler (list RunId * nat) :=
  let o := owner_of p in
  let! paused :=
    if keeps_triggers (app_keeps app) then do_pause_triggers o else ret (Ok 0%nat) in
  let!? cancelled := stop o StopOwner in
  match paused with
  | Ok paused => ret (Ok (cancelled, paused))
  | Err error => ret (Err (api_store_error error))
  end.

(** *** Triggers *)

(** [with_secret]. *)
Definition with_secret (t : StoredTrigger) : SecretView :=
  mkSecretView (trigger_view t) (key ← app_webhook_key app; webhook_secret hmac key t).

Definition with_triggers {A} (work : Handler A) : Handler A :=
  if negb (keeps_triggers (app_keeps app)) then ret (Err ApiNoTriggers) else work.

(** A text of a schedule: not blank, not long and without a NUL. *)
Definition shaped (text : string) (most : nat) : bool :=
  negb (bool_decide (trim text = "")) && (String.length text <=? most)%nat && negb (has_nul text).

(** A trigger's first tick after now: none for a webhook. *)
Definition first_tick (kind : TriggerKind) : Handler (option Z) :=
  match kind with
  | Schedule cron time_zone =>
      let! t := now in
      ret (match next_tick cron time_zone t with
           | Ok tick => Ok (Some tick)
           | Err _ => Err (ApiBadRequest "the schedule has no next tick")
           end)
  | Webhook _ => ret (Ok None)
  end.

(** The kind of a new trigger. *)
Definition kind_of (kind : KindBody) : result TriggerKind (ApiError J) :=
  match kind with
  | KbSchedule cron time_zone =>
      if negb (shaped cron 256) || negb (shaped time_zone 64) || negb (is_ok (next_tick cron time_zone 0))
      then Err (ApiBadRequest "a schedule needs a cron expression and a known time zone")
      else Ok (Schedule cron time_zone)
  | KbWebhook =>
      match app_webhook_key app with
      | None => Err (ApiUnavailable "webhooks are not available")
      | Some _ => Ok (Webhook 0)
      end
  end.

(** Why a new trigger is refused before it is built. *)
Definition trigger_refusal (body : TriggerBody) : option (ApiError J) :=
  if match tb_limits body with Some limits => negb (limits_bounded limits) | None => false end then
    Some (ApiBadRequest "limits must be between 1 and 64")
  else if has_nul (tb_input body) then Some (ApiBadRequest "the input holds a NUL character")
  else if (MAX_MESSAGE_BYTES <? String.length (tb_input body))%nat then
    Some (ApiTooLarge "the input is over 32 KiB")
  else
    match app_queue app with
    | None => Some (ApiUnavailable "triggers need the run queue")
    | Some _ => None
    end.

Definition create_trigger p (body : result TriggerBody J) : Handler SecretView :=
  with_body body (fun body =>
    match kind_of (tb_kind body) with
    | Err error => ret (Err error)
    | Ok kind =>
        match trigger_refusal body with
        | Some error => ret (Err error)
        | None =>
            let! fresh := random in
            let!? next := first_tick kind in
            let! created := now in
            let t :=
              mkStoredTrigger (id_of fresh) (owner_of p) (tb_agent_id body) kind (tb_input body)
                (tb_placement body) (tb_work_model body) (tb_limits body)
                (default RunOnceLate (tb_missed body)) true next created 0 in
            let!? _ :=
              with_triggers
                (let!? agent := do_agent (tg_agent_id t) else api_store_error in
                 match agent with
                 | None => ret (Err ApiAgentNotFound)
                 | Some agent =>
                     if negb (owner_is (sa_owner agent) (tg_owner t)) then ret (Err ApiAgentNotFound)
                     else
                       let!? put := do_put_trigger t MAX_TRIGGERS else api_store_error in
                       ret (if put : bool then Ok tt
                            else Err (ApiConflict "a principal keeps at most 100 triggers"))
                 end) in
            ret (Ok (with_secret t))
        end
    end).

Definition list_triggers p : Handler (list TriggerView) :=
  let!? triggers :=
    with_triggers
      (let!? triggers := do_triggers_of (owner_of p) else api_store_error in ret (Ok triggers)) in
  ret (Ok (trigger_view <$> triggers)).

(** A trigger that is not there. *)
Definition or_not_found {A} (found : option A) (error : ApiError J) : result A (ApiError J) :=
  match found with Some a => Ok a | None => Err error end.

Definition set_trigger_enabled p (id : TriggerId) (enabled : bool) : Handler TriggerView :=
  let!? t :=
    with_triggers
      (let!? found := do_set_enabled (owner_of p) id enabled else api_store_error in
       ret (or_not_found found ApiTriggerNotFound)) in
  ret (Ok (trigger_view t)).

Definition pause_trigger p (id : TriggerId) : Handler TriggerView := set_trigger_enabled p id false.

Definition resume_trigger p (id : TriggerId) : Handler TriggerView :=
  let o := owner_of p in
  let!? t :=
    with_triggers
      (let!? found := do_trigger o id else api_store_error in
       match found with
       | None => ret (Err ApiTriggerNotFound)
       | Some t =>
           if tg_enabled t then ret (Ok t)
           else
             let!? next := first_tick (tg_kind t) in
             let!? resumed := do_resume_trigger o id next else api_store_error in
             ret (or_not_found resumed ApiTriggerNotFound)
       end) in
  ret (Ok (trigger_view t)).

Definition rotate_trigger p (id : TriggerId) : Handler SecretView :=
  match app_webhook_key app with
  | None => ret (Err (ApiUnavailable "webhooks are not available"))
  | Some _ =>
      let o := owner_of p in
      let!? t :=
        with_triggers
          (let!? found := do_trigger o id else api_store_error in
           match found with
           | None => ret (Err ApiTriggerNotFound)
           | Some t =>
               if is_webhook t then
                 let!? rotated := do_rotate_webhook o id else api_store_error in
                 ret (or_not_found rotated (ApiConflict "the secret cannot be rotated again"))
               else ret (Err (ApiConflict "only a webhook trigger has a secret"))
           end) in
      ret (Ok (with_secret t))
  end.

Definition delete_trigger p (id : TriggerId) : Handler unit :=
  let!? deleted :=
    with_triggers
      (let!? deleted := do_delete_trigger (owner_of p) id else api_store_error in ret (Ok deleted)) in
  ret (if deleted : bool then Ok tt else Err ApiTriggerNotFound).

(** *** Webhooks *)

(** What can be checked of a hook before its trigger is looked up. *)
Definition hook_request (headers : HeaderMap) (body : list byte) : option Webhook.Request :=
  event ← header_value headers "x-gol-event";
  timestamp ← header_value headers "x-gol-timestamp";
  signature ← header_value headers "x-gol-signature";
  Some (Webhook.mkRequest event timestamp signature body).

(** [now_s]: a division that truncates. *)
Definition seconds (ms : Z) : Z := Z.quot ms 1000.

(** Whether the request is signed for the trigger. *)
Definition hook_signed (key : list byte) (t : StoredTrigger) (request : Webhook.Request) (now_s : Z) : bool :=
  match webhook_secret hmac key t with
  | Some secret => verify hmac secret request now_s
  | None => false
  end.

(** The hook's blocking task. *)
Definition hook_fire (q : RunQueue) (key : list byte) (id : TriggerId) (request : Webhook.Request)
    (now_s : Z) : Handler (result Hooked FireError) :=
  if negb (keeps_triggers (app_keeps app)) then ret (Err ApiNoTriggers)
  else
    let!? found := do_webhook_trigger id else api_store_error in
    match found with
    | None => ret (Err ApiUnauthorized)
    | Some t =>
        if negb (hook_signed key t request now_s) then ret (Err ApiUnauthorized)
        else if (MAX_MESSAGE_BYTES <? String.length (tg_input t) + 2 + length (rq_body request))%nat then
          ret (Err (ApiTooLarge "the body, after the trigger's input, is over 32 KiB"))
        else if negb (utf8 (rq_body request)) || has_nul (bytes_string (rq_body request)) then
          ret (Err (ApiBadRequest "the body is not UTF-8, or has a NUL"))
        else
          let! fired := fire_webhook enqueue_debug q t (rq_event request) (bytes_string (rq_body request)) in
          ret (Ok fired)
    end.

Definition hook_answer (fired : result Hooked FireError) : result HookAnswer (ApiError J) :=
  match fired with
  | Ok (Started run) => Ok (HookStarted run)
  | Ok (Duplicate run) => Ok (HookDuplicate run)
  | Ok Refused => Err (ApiConflict "the trigger is paused, or was when this event came")
  | Ok HAgentNotFound => Err ApiAgentNotFound
  | Ok HNotFound => Err ApiUnauthorized
  | Err (NotStored text) | Err (MaybeStored _ text) => Err (ApiStore text)
  end.

Definition webhook_hook (id : string) (headers : HeaderMap) (body : list byte) : Handler HookAnswer :=
  match app_webhook_key app, app_queue app with
  | Some key, Some q =>
      if (MAX_MESSAGE_BYTES <? length body)%nat then ret (Err (ApiTooLarge "the body is over 32 KiB"))
      else
        match id_parse id, hook_request headers body with
        | Some id, Some request =>
            let! t := now in
            let now_s := seconds t in
            if negb (is_event_id (rq_event request)) ||
               negb (plausible (rq_timestamp request) (rq_signature request) now_s)
            then ret (Err ApiUnauthorized)
            else
              let!? fired := hook_fire q key id request now_s in
              ret (hook_answer fired)
        | _, _ => ret (Err ApiUnauthorized)
        end
  | _, _ => ret (Err (ApiUnavailable "webhooks are not available"))
  end.

End Handlers.

(** ** The router *)

(** A route with what axum takes from its request: parsed path segments, a
    query ([None] when axum refuses it), a body. *)
Inductive Endpoint (J : Type) : Type :=
| PostAgents (agent : AgentManifest)
| PostRuns (body : result RunBody J)
| GetRun (id : RunId)
| GetEvents (id : RunId) (query : option EventsQuery)
| GetAgUi (id : RunId)
| GetUi (id : RunId)
| GetRunStream (id : RunId) (query : option (option N))
| GetStream (query : option (option N))
| PostThreads (body : result RunBody J)
| GetThreads (query : option ThreadsQuery)
| PostThreadMessages (thread : string) (body : result FollowUpBody J)
| GetBoard (thread : string) (query : option BoardQuery)
| PostRunStop (id : RunId)
| PostRunReply (id : RunId) (body : result ReplyBody J)
| PostThreadStop (thread : string)
| PostStop
| PostTriggers (body : result TriggerBody J)
| GetTriggers
| DeleteTrigger (id : TriggerId)
| PostTriggerPause (id : TriggerId)
| PostTriggerResume (id : TriggerId)
| PostTriggerRotate (id : TriggerId)
| PostTurns (body : TurnRequest)
| PostTurnCompletion (id : RunId) (text : string)
| PostTurnFail (id : RunId) (text : string).
Arguments PostAgents {J} _.
Arguments PostRuns {J} _.
Arguments GetRun {J} _.
Arguments GetEvents {J} _ _.
Arguments GetAgUi {J} _.
Arguments GetUi {J} _.
Arguments GetRunStream {J} _ _.
Arguments GetStream {J} _.
Arguments PostThreads {J} _.
Arguments GetThreads {J} _.
Arguments PostThreadMessages {J} _ _.
Arguments GetBoard {J} _ _.
Arguments PostRunStop {J} _.
Arguments PostRunReply {J} _ _.
Arguments PostThreadStop {J} _.
Arguments PostStop {J}.
Arguments PostTriggers {J} _.
Arguments GetTriggers {J}.
Arguments DeleteTrigger {J} _.
Arguments PostTriggerPause {J} _.
Arguments PostTriggerResume {J} _.
Arguments PostTriggerRotate {J} _.
Arguments PostTurns {J} _.
Arguments PostTurnCompletion {J} _ _.
Arguments PostTurnFail {J} _ _.

Inductive Answer :=
| AnAgent (agent : AgentManifest)
| AnRun (run : RunState)
| AnEvents (events : list Event)
| AnAgUi (events : list AgUi)
| AnUi (spec : RenderSpec)
| AnStream (live : LiveStream)
| AnThread (thread : string) (run : RunState)
| AnThreads (threads : list ThreadSummary)
| AnFollowUp (answer : FollowUp)
| AnBoard (board : Board)
| AnCancelled (runs : list RunId) (paused : option nat)
| AnReply (run : RunId)
| AnTrigger (view : TriggerView)
| AnSecret (view : SecretView)
| AnTriggers (views : list TriggerView)
| AnNoContent
| AnTurn (answer : TurnAnswer)
| AnTurnBody (body : TurnBody).

Section Router.
Context `{UuidCrate} `{Clocks} {R X J : Type} `{Redis R} `{Memory X} `{SandboxHost X}
  `{GatewayPoster X} `{Authenticator X} `{Rejection J}.
Context (hmac : list byte → list byte → list byte) (app : App X).

Local Open Scope rust_scope.

(** A handler beside the process's slots, its answer wrapped. *)
Definition answers {A} (wrap : A -> Answer) (m : @M R X (result A (ApiError J)))
    : @M R (Streams * X) (result Answer (ApiError J)) :=
  let!? a := beside_cell m in ret (Ok (wrap a)).

(** What the route does for an authenticated caller. *)
Definition handle (p : Caller) (headers : HeaderMap) (endpoint : Endpoint J)
    : @M R (Streams * X) (result Answer (ApiError J)) :=
  match endpoint with
  | PostAgents agent => answers AnAgent (create_agent p agent)
  | PostRuns body => answers AnRun (create_run app p body)
  | GetRun id => answers AnRun (get_run_state p id)
  | GetEvents id query => answers AnEvents (get_events p id query)
  | GetAgUi id => answers AnAgUi (get_ag_ui p id)
  | GetUi id => answers AnUi (get_ui p id)
  | GetRunStream id query =>
      let!? live := get_run_stream p id headers query in ret (Ok (AnStream live))
  | GetStream query => let!? live := get_stream app p headers query in ret (Ok (AnStream live))
  | PostThreads body => answers (fun a => AnThread a.1 a.2) (create_thread app p body)
  | GetThreads query => answers AnThreads (list_threads app p query)
  | PostThreadMessages thread body => answers AnFollowUp (follow_up app p thread body)
  | GetBoard thread query => answers AnBoard (get_board app p thread query)
  | PostRunStop id => answers (fun runs => AnCancelled runs None) (stop_run app p id)
  | PostRunReply id body => answers AnReply (reply_run app p id body)
  | PostThreadStop thread => answers (fun runs => AnCancelled runs None) (stop_thread app p thread)
  | PostStop => answers (fun a => AnCancelled a.1 (Some a.2)) (stop_owner app p)
  | PostTriggers body => answers AnSecret (create_trigger hmac app p body)
  | GetTriggers => answers AnTriggers (list_triggers app p)
  | DeleteTrigger id => answers (fun _ => AnNoContent) (delete_trigger app p id)
  | PostTriggerPause id => answers AnTrigger (pause_trigger app p id)
  | PostTriggerResume id => answers AnTrigger (resume_trigger app p id)
  | PostTriggerRotate id => answers AnSecret (rotate_trigger hmac app p id)
  | PostTurns body => answers AnTurn (create_coworker_turn app p body)
  | PostTurnCompletion id text => answers AnTurnBody (complete_coworker_turn p id text)
  | PostTurnFail id text => answers AnTurnBody (fail_coworker_turn p id text)
  end.

(** Every route but the hooks' first checks the caller's token. *)
Definition serve (headers : HeaderMap) (endpoint : Endpoint J)
    : @M R (Streams * X) (result Answer (ApiError J)) :=
  let!? p := beside_cell (authenticated headers) in handle p headers endpoint.

End Router.
