(* ===== verification/HttpProofs.v ===== *)
(** * What the HTTP handlers keep

    Every route keeps the rules of the server at each of its steps, whatever
    the other processes do and whichever call fails ([http_strands_nothing]);
    a run carried out inside its request has ended when it is answered; and
    what a caller asks for is bounded and unmarked. *)

From S2P Require Import Prelude Text Protocol Uuids MemoryOwner SpecBuilder Auth Reduce Authorizer.
From S2P Require Import DriverTurns Store StoreProofs StoreTriggers StoreMessages StoreStops.
From S2P Require Import StoreThreads Surface Stream Queue QueueProofs Driver DriverProofs Server.
From S2P Require Import ServerLogic Traces Spawner Deliverer Fires Webhook Scheduler Sandbox Turns.
From S2P Require Import DriverWorld Worker WorkerProofs Http.

(** ** A run inside its request *)

Section Inline.
Context `{UuidCrate} {R X : Type} `{Redis R} `{Memory X} `{SandboxHost X} `{GatewayPoster X}.
Context (app : App X).

Abbreviation RW := (W (R := R) (X := X)).

(** What leaves the shared state, the future and the steps alone. *)
Definition untouched (w w' : RW) : Prop :=
  sv_shared w' = sv_shared w /\ sv_future w' = sv_future w /\ sv_steps w' = sv_steps w.

#[local] Instance untouched_preorder : PreOrder untouched.
Proof. split; [done|]. intros w1 w2 w3 (? & ? & ?) (? & ? & ?). split_and!; congruence. Qed.

Lemma external_untouched {A} (f : X -> A * X) (w : RW) : untouched w (in_run (external f) w).2.
Proof. unfold in_run, external. by destruct (f _). Qed.

Lemma booted_quiet spec (w : RW) d w' : Driver.boot spec w = (Ok d, w') ->
  quiet d /\ bare d /\ untouched w w'.
Proof. unfold Driver.boot, push. by intros [= <- <-]. Qed.

(** The driver comes back with the run's end, unless its decider failed. *)
Lemma run_with_jev_ends spec tools :
  draws (run_with_jev (R := R) app spec None tools)
    (fun p => p.2 = Ok tt -> has_terminal p.1 = true).
Proof.
  intros w. unfold run_with_jev, bind.
  destruct (Driver.boot spec w) as [[d|[]] w1] eqn:Eb; [|unfold Driver.boot in Eb; by destruct (push _ _ _ _)].
  apply booted_quiet in Eb as Hq. destruct Hq as (Hquiet & Hbare & Hs1 & Hf1 & Ho1).
  destruct (app_jev app) as [jev|text]; [|by split_and!].
  unfold run_to_completion.
  match goal with |- context [run_until ?a ?b ?m ?bd ?f d w1] =>
    destruct (run_until a b m bd f d w1) as [[r [d' w']]|] eqn:E end; [|by split_and!].
  pose proof (run_until_quiet _ _ _ _ _ _ _ _ _ _ Hquiet E) as Hq'.
  apply boot_rebuilt in Eb.
  eapply (run_until_returned untouched) with (P := fun _ w => untouched w1 w) in E
    as (Hret & Hag & Hs); [|by intros w2|by intros w2| | | | |by intros d0 w2 ps d2 w3 ? _ ?; etrans
      |by intros d0 w2 w3 ? _ [= <-]|exact Eb| |done].
  - assert (untouched w1 w' /\ (r = Ok tt -> has_terminal (d_events d') = true)) as [(Hs2 & Hf2 & Ho2) Hend].
    { destruct Hret as [Hw Hr|w0 _ _ _ [=]|d0 w0 w2 _ _ _ [=]].
      split; [done|]. intros ->. rewrite has_terminal_ended.
      destruct Hr as [Hr|[Hr|(st & a & m & Hr)]]; [|done|].
      - apply Hag. rewrite <-Hs. by rewrite <-harness_folded.
      - exfalso. apply asked_waits in Hr. by rewrite (qu_log _ Hq') in Hr. }
    simpl. split_and!; [congruence..|]. destruct r as [[]|]; [auto|done].
  - intros w2 own key value. simpl. by destruct (run_memory_write _ _ _ _).
  - intros tool input w2 (t & -> & _)%list_elem_of_fmap. apply external_untouched.
  - intros request w2. apply external_untouched.
  - intros view w2. apply external_untouched.
  - destruct Hbare as [Hb1 Hb2]. split; intros ? ? ? Hc; [rewrite Hb1 in Hc|rewrite Hb2 in Hc]; done.
Qed.

Lemma harness_events_end spec tools :
  draws (harness_events (R := R) app spec None tools) (fun p => has_terminal p.1 = true).
Proof.
  eapply draws_bind; [apply run_with_jev_ends|]. intros [events [[]|error]] Hend.
  - apply draws_ret. by apply Hend.
  - destruct (start_failure error) as [class text].
    eapply draws_bind; [apply draws_recorded|]. intros e [He _]. apply draws_ret.
    unfold has_terminal. simpl. rewrite existsb_app. simpl. by rewrite He, !orb_true_r.
Qed.

Lemma draws_with_run {A} rc (m : @M R (RunCell * RunMemory X) A) (φ : A -> Prop) :
  draws m φ -> draws (with_run rc m) φ.
Proof.
  intros Hm w. unfold with_run. set (w0 := mkServer _ (rc, _) _ _ _).
  destruct (Hm w0) as (Hs & Hf & Ho & Hφ). by destruct (m w0).
Qed.

End Inline.

(** ** Every route keeps the rules *)

(** The queue an application pushes to, if it has one. *)
Definition pushes_to {X} (app : App X) (q : RunQueue) : Prop :=
  forall q', app_queue app = Some q' -> q' = q.

Section Safe.
Context `{UuidCrate} `{Clocks} {R X J : Type} `{Redis R} `{!RedisLaws R} `{Memory X}
  `{SandboxHost X} `{GatewayPoster X} `{Authenticator X} `{Rejection J}.
Context (q : RunQueue) (Hq : keys_ok q).
Context (hmac : list byte → list byte → list byte) (enqueue_debug : EnqueueError → string).
Context (app : App X) (Happ : pushes_to app q).

Abbreviation any := (fun _ : Shared R => True).
Abbreviation stable := (stable q (prompt q)).

(** A handler that keeps the rules from any state. *)
Definition safe {Y A} (m : @M R Y A) : Prop := triple q (prompt q) any m (fun _ _ => True).

Lemma stable_any : stable any.
Proof. by intros s s'. Qed.

Lemma safe_triple {Y A} (m : @M R Y A) Q : triple q (prompt q) any m Q -> safe m.
Proof. intros Hm. by eapply (triple_post q (prompt q)). Qed.

Lemma safe_ret {Y A} (a : A) : safe (ret a : @M R Y A).
Proof. by apply (triple_done q (prompt q)). Qed.

Lemma safe_bind {Y A B} (m : @M R Y A) (k : A -> M B) : safe m -> (forall a, safe (k a)) -> safe (bind m k).
Proof. intros Hm Hk. by eapply (triple_bind q (prompt q)). Qed.

Lemma safe_try_with {Y A B E F} (f : E -> F) (m : @M R Y (result A E)) (k : A -> M (result B F)) :
  safe m -> (forall a, safe (k a)) -> safe (try_with f m k).
Proof. intros Hm Hk. apply safe_bind; [done|]. intros [a|e]; [apply Hk|apply safe_ret]. Qed.

Lemma safe_try {Y A B E} (m : @M R Y (result A E)) (k : A -> M (result B E)) :
  safe m -> (forall a, safe (k a)) -> safe (try m k).
Proof. apply (safe_try_with (fun e => e)). Qed.

Lemma safe_draws {Y A} (m : @M R Y A) φ : draws m φ -> safe m.
Proof. intros Hd. eapply safe_triple. by apply (triple_draws q (prompt q)). Qed.

Lemma safe_read {Y A} (f : Shared R -> A) : safe (store_call (reads f) : @M R Y _).
Proof. eapply safe_triple. by apply (triple_read q (prompt q)). Qed.

Lemma safe_triggers {Y A} (f : Triggers -> result A StoreError * Triggers) :
  safe (store_call (on_triggers f) : @M R Y _).
Proof.
  eapply safe_triple. apply (triple_triggers q (prompt q) any f (fun _ _ => True)); [done|].
  intros s _ _. by destruct (f (sh_triggers s)).1.
Qed.

Lemma safe_external {A} (f : X -> A * X) : safe (external f : @M R X A).
Proof. eapply safe_triple, (triple_external q (prompt q)). Qed.

Lemma safe_for_each {Y A T} (l : list T) (body : A -> T -> @M R Y A) a :
  (forall a x, x ∈ l -> safe (body a x)) -> safe (for_each l body a).
Proof. intros Hb. by apply (triple_for_each q (prompt q) l body (fun _ => any)). Qed.

(** A step of the store alone that leaves its runs and its agents. *)
Lemma safe_store {Y A} (f : Shared R -> result A StoreError * Shared R) :
  (forall s, Good q s -> prompt q s (f s).2) -> safe (store_call f : @M R Y _).
Proof. intros Hf. apply (triple_call q (prompt q)); [done|done|]. intros s Hg _. auto. Qed.

Lemma safe_put_agent {Y} agent : safe (do_put_agent agent : @M R Y _).
Proof.
  apply safe_store. intros s _. unfold on_runs.
  pose proof (put_agent_frame (runs_store s) agent) as Hf.
  destruct (put_agent (runs_store s) agent) as [r st] eqn:E. simpl in Hf.
  apply store_prompt; [|by apply store_wf_frame| |done].
  - intros id. unfold stored_run, get_run, runs_store. simpl. by destruct Hf as [-> _].
  - intros id kept. unfold put_agent, lock_write in E. simpl.
    destruct (poisoned (agents (runs_store s))); [injection E as <- <-; by left|].
    assert (st = runs_store s \/
      st = set_agents (runs_store s) (<[am_id (sa_manifest agent) := agent]> (guarded (agents (runs_store s)))))
      as [-> | ->] by (destruct (guarded _ !! _); [destruct (negb _)|]; injection E as <- <-; auto);
      [by left|].
    unfold get_agent, lock_read. simpl.
    destruct (decide (am_id (sa_manifest agent) = id)) as [<-|Hne].
    + rewrite lookup_insert_eq. intros [= <-]. by right.
    + rewrite lookup_insert_ne by done. by left.
Qed.

Lemma safe_put_stop {Y} o scope : safe (do_put_stop o scope : @M R Y _).
Proof.
  apply safe_store. intros s _. unfold on_stops.
  assert (forall r st, put_stop (sh_store s) o scope = (r, st) ->
    runs (ss_store st) = runs (runs_store s) /\ agents (ss_store st) = agents (runs_store s) /\
    outbox (ss_store st) = outbox (runs_store s) /\ stored (ss_store st) = stored (runs_store s)) as Hf.
  { intros r st. unfold put_stop. destruct (lock_write _ _); by intros [= <- <-]. }
  destruct (put_stop (sh_store s) o scope) as [r st]. destruct (Hf r st eq_refl) as (Hr & Ha & Ho & Hst).
  apply frame_prompt; [| | |done].
  - intros id. unfold stored_run, get_run, runs_store. simpl. by rewrite Hr.
  - intros agent. unfold get_agent, runs_store. simpl. by rewrite Ha.
  - by apply store_wf_frame.
Qed.

(** A script that neither pushes nor acknowledges. *)
Lemma safe_script {Y A} (op : QueueOp) (f : R -> A * R) :
  (forall r, (f r).2 = (queue_step q r op).2) ->
  (forall s, allowed q s op /\ unpends_stored s op) -> safe (queue_call f : @M R Y _).
Proof.
  intros Hf Ha. eapply safe_triple.
  by apply (triple_queue_op q Hq (prompt q) any op f (fun _ _ => True)); auto.
Qed.

Lemma safe_wake {Y} id ask : safe (do_wake q id ask : @M R Y _).
Proof. by apply (safe_script (QWake (id_display id) (id_display ask))). Qed.

Lemma safe_parked {Y} : safe (do_parked q : @M R Y _).
Proof. eapply safe_triple. by apply (triple_queue_read q (prompt q) any _ (fun _ _ => True)). Qed.

(** What ends a run may be appended to any log. *)
Lemma safe_ending {Y} id seen es :
  has_terminal es = true -> safe (bind now (fun t => store_call (on_runs (fun st =>
    append_checked st id seen es t))) : @M R Y _).
Proof. intros Ht. eapply safe_triple. by apply (triple_ending_any q (prompt q)). Qed.

Lemma recorded_safe {Y} spec a p : safe (recorded spec a p : @M R Y _).
Proof. eapply safe_draws, draws_recorded. Qed.

Ltac safe_step :=
  match goal with
  | |- safe (ret _) => apply safe_ret
  | |- safe (try_with _ _ _) => apply safe_try_with; [|intros ?]
  | |- safe (try _ _) => apply safe_try; [|intros ?]
  | |- safe (bind _ _) => apply safe_bind; [|intros ?]
  | |- safe (match ?x with _ => _ end) => destruct x eqn:?
  | |- safe (external _) => apply safe_external
  | |- safe now => eapply safe_draws, draws_now
  | |- safe random => eapply safe_draws, draws_random
  | |- safe (recorded _ _ _) => apply recorded_safe
  | |- safe (queued_events _) => eapply safe_draws, draws_queued_events
  | |- safe _ => first [solve [eauto 3 with safe] | apply safe_read | apply safe_triggers]
  end.

Ltac safely := intros; cbv zeta; repeat (safe_step; cbv zeta).

Create HintDb safe.
#[local] Hint Resolve safe_put_agent safe_put_stop safe_parked : safe.
#[local] Hint Extern 1 (safe (do_wake _ _ _)) => apply safe_wake : safe.

(** *** Starting a run *)

Lemma safe_build_spec o core caps : safe (build_spec (J := J) o core caps : @M R X _).
Proof. unfold build_spec. safely. Qed.

Lemma safe_enqueue q' spec on :
  app_queue app = Some q' -> safe (enqueue q' spec on : @M R X _).
Proof. intros ->%Happ. eapply safe_triple, (triple_enqueue q Hq). Qed.

Lemma safe_load_tools named : safe (load_tools (app_catalog app) named : @M R X _).
Proof. unfold load_tools. safely. Qed.

(** A run carried out inside its request: its log holds no queueing, and it is
    only appended its end. *)
Lemma safe_run_inline spec named : safe (run_inline app spec named : @M R X _).
Proof.
  unfold run_inline, user_message_event.
  eapply (triple_bind q (prompt q)); [apply (triple_draws q (prompt q)), draws_recorded|]. intros text.
  apply (triple_pure q (prompt q)). intros [Ht _].
  apply safe_try_with; [|intros put].
  { eapply safe_triple. apply (triple_put_run q (prompt q) any); [done|].
    intros s _ _ _ _ Hw. exfalso. unfold was_queued in Hw. simpl in Hw. by rewrite Ht in Hw. }
  apply safe_bind; [apply safe_load_tools|]. intros loaded.
  eapply (triple_bind q (prompt q)) with (Q := fun p _ => has_terminal p.1 = true).
  - destruct loaded as [catalog|error].
    + eapply (triple_post q (prompt q)); [apply (triple_draws q (prompt q)), draws_with_run, harness_events_end|].
      by intros p s _ [? _].
    + eapply (triple_bind q (prompt q)); [apply (triple_draws q (prompt q)), draws_recorded|]. intros e.
      apply (triple_pure q (prompt q)). intros [He _]. apply (triple_done q (prompt q)).
      intros s _ _. unfold has_terminal. simpl. by rewrite He.
  - intros [events outcome].
    eapply (triple_pre q (prompt q)) with (P := fun s => has_terminal events = true /\ any s); [|done].
    apply (triple_pure q (prompt q)). intros He.
    apply safe_try_with; [by apply safe_ending|]. intros append. safely.
Qed.

#[local] Hint Resolve safe_build_spec safe_enqueue safe_run_inline : safe.

Lemma safe_start_run o body : safe (start_run app o body : @M R X (result _ (ApiError J))).
Proof. unfold start_run. safely. Qed.

#[local] Hint Resolve safe_start_run : safe.

Lemma safe_owned p (read : @M R X (result (option StoredRun) StoreError)) :
  safe read -> safe (owned (J := J) p read).
Proof. intros Hr. unfold owned. safely. Qed.

Lemma safe_owned_run id p : safe (owned_run id p : @M R X (result _ (ApiError J))).
Proof. apply safe_owned, safe_read. Qed.

Lemma safe_owned_run_page id p after limit :
  safe (owned_run_page id p after limit : @M R X (result _ (ApiError J))).
Proof. apply safe_owned, safe_read. Qed.

#[local] Hint Resolve safe_owned_run safe_owned_run_page : safe.

(** *** Answers *)

(** A log that asks its user has been scheduled. *)
Lemma question_not_waiting spec es question :
  open_question spec es = Some question -> still_waiting es = false.
Proof.
  unfold open_question. destruct (has_terminal es); [done|].
  destruct (harness (fold spec es)) eqn:Eh; try done. intros _.
  apply not_true_iff_false. intros Hw. apply asked_waits, existsb_exists in Eh as (e & Hin & Ha).
  unfold still_waiting in Hw. rewrite forallb_forall in Hw. apply Hw in Hin. by destruct (payload e).
Qed.

Lemma grows_same run run' :
  grows run run' -> length (sr_events run) = length (sr_events run') -> run' = run.
Proof.
  intros (Hs & [more Hm] & _) Hl. destruct run as [spec es], run' as [spec' es']. simpl in *. subst.
  rewrite length_app in Hl. destruct more; [by rewrite app_nil_r|simpl in Hl; lia].
Qed.

Lemma safe_answer_tries tries run text asked :
  safe (answer_tries app tries run text asked : @M R X (result _ (ApiError J))).
Proof.
  revert asked. induction tries as [|tries IH]; intros asked; simpl; [apply safe_ret|].
  eapply (triple_try_with q (prompt q)); [by apply (triple_run q (prompt q) any)| |done].
  intros [stored|]; [|by apply (triple_done q (prompt q))].
  apply (triple_pre q (prompt q)) with (P := seen_run run stored); [|by intros s _ [_ ?]].
  destruct (open_question (sr_spec stored) (sr_events stored)) as [[question text0]|] eqn:Eq;
    [|by apply (triple_done q (prompt q))].
  destruct (negb _); [by apply (triple_done q (prompt q))|].
  eapply (triple_bind q (prompt q)); [apply (triple_draws q (prompt q)), draws_recorded|]. intros answer.
  apply (triple_pure q (prompt q)). intros [Ha _].
  eapply (triple_try_with q (prompt q)) with (Q := fun _ => any); [| |done].
  - eapply (triple_post q (prompt q)); [apply (triple_append_any q (prompt q) (seen_run run stored) run
      (Some (length (sr_events stored)))); [by apply stable_seen, _|]|done].
    intros s now Hg (now' & Hr & Hgrow) [Hr' Ho] Hw. rewrite Hr in Hr'. injection Hr' as ->. left.
    destruct (good_kept q s Hg run now) as [|[Hstill _]]; [done| |done|].
    + unfold was_queued in *. rewrite existsb_app in Hw. simpl in Hw. rewrite Ha, orb_false_r in Hw.
      by destruct (existsb _ (sr_events now)).
    + exfalso. eapply still_waiting_prefix in Hstill; [|apply Hgrow].
      by rewrite (question_not_waiting _ _ _ Eq) in Hstill.
  - intros append. destruct append; [|apply safe_ret|apply safe_ret|apply IH].
    destruct (app_queue app) as [q'|] eqn:Hq'; [|apply safe_ret].
    apply Happ in Hq' as ->. apply safe_bind; [apply safe_wake|]. intros. apply safe_ret.
Qed.

Lemma safe_answer_question run text asked :
  safe (answer_question app run text asked : @M R X (result _ (ApiError J))).
Proof. unfold answer_question. cbv zeta. repeat safe_step. apply safe_answer_tries. Qed.

#[local] Hint Resolve safe_answer_question : safe.

Lemma safe_with_body {B A} (body : result B J) (k : B -> @M R X (result A (ApiError J))) :
  (forall b, safe (k b)) -> safe (with_body body k).
Proof. intros Hk. destruct body; [apply Hk|apply safe_ret]. Qed.

Lemma safe_follow_up p thread body :
  safe (follow_up app p thread body : @M R X (result _ (ApiError J))).
Proof. apply safe_with_body. intros b. safely. Qed.

(** *** Stops *)

Lemma cancelled_ends spec : draws (run_cancelled_event spec : @M R X _)
  (fun e => has_terminal [e] = true).
Proof.
  intros w. destruct (draws_recorded (X := X) (R := R) spec ActorSystem RunCancelled w)
    as (Hs & Hf & Ho & He). split_and!; [done..|]. by eapply says_ends.
Qed.

Lemma safe_stop_one parked acc run : safe (stop_one q parked acc run : @M R X _).
Proof.
  unfold stop_one. destruct acc as [cancelled failed]. cbv zeta.
  destruct (negb _ && _); [apply safe_ret|]. apply safe_bind; [apply safe_read|].
  intros [[]|error]; [|apply safe_ret..].
  eapply (triple_bind q (prompt q)); [apply (triple_draws q (prompt q)), cancelled_ends|]. intros e.
  apply (triple_pure q (prompt q)). intros He. apply safe_bind; [by apply safe_ending|].
  intros. safely.
Qed.

Lemma safe_stop o scope : safe (stop app o scope : @M R X (result _ (ApiError J))).
Proof.
  unfold stop. destruct (negb _); [apply safe_ret|]. apply safe_try_with; [apply safe_put_stop|]. intros [].
  destruct (app_queue app) as [q'|] eqn:E; [|apply safe_ret]. apply Happ in E as ->.
  apply safe_bind; [apply safe_parked|]. intros parked. cbv zeta.
  set (start := match parked with Ok parked => (parked, false) | Err _ => ([], true) end).
  destruct start as [found failed]. apply safe_try_with; [apply safe_read|]. intros runs.
  apply safe_bind; [|intros [cancelled failed']; apply safe_ret].
  apply safe_for_each. intros acc run _. apply safe_stop_one.
Qed.

#[local] Hint Resolve safe_stop : safe.

Lemma safe_stop_thread p thread : safe (stop_thread app p thread : @M R X (result _ (ApiError J))).
Proof. unfold stop_thread. safely. Qed.

(** *** Triggers and hooks *)

Lemma safe_first_tick kind : safe (first_tick kind : @M R X (result _ (ApiError J))).
Proof. unfold first_tick. safely. Qed.

#[local] Hint Resolve safe_first_tick : safe.

Lemma safe_with_triggers {A} (m : @M R X (result A (ApiError J))) :
  safe m -> safe (with_triggers app m).
Proof. intros Hm. unfold with_triggers. by destruct (negb _); [apply safe_ret|]. Qed.

Lemma safe_create_trigger p body :
  safe (create_trigger hmac app p body : @M R X (result _ (ApiError J))).
Proof.
  apply safe_with_body. intros b. destruct (kind_of _ _); [|apply safe_ret].
  destruct (trigger_refusal _ _); [apply safe_ret|]. repeat safe_step. cbv zeta.
  apply safe_try; [apply safe_with_triggers; safely|safely].
Qed.

Lemma safe_trigger_route {A B} (m : @M R X (result A (ApiError J))) (k : A -> result B (ApiError J)) :
  safe m -> safe (try (with_triggers app m) (fun a => ret (k a))).
Proof. intros Hm. apply safe_try; [by apply safe_with_triggers|]. intros a. apply safe_ret. Qed.

Lemma safe_resume_trigger p id : safe (resume_trigger app p id : @M R X (result _ (ApiError J))).
Proof. apply safe_trigger_route. safely. Qed.

Lemma safe_rotate_trigger p id : safe (rotate_trigger hmac app p id : @M R X (result _ (ApiError J))).
Proof. unfold rotate_trigger. destruct (app_webhook_key app); [|apply safe_ret]. apply safe_trigger_route. safely. Qed.

Lemma safe_webhook_hook id headers body :
  safe (webhook_hook hmac enqueue_debug app id headers body : @M R X (result _ (ApiError J))).
Proof.
  unfold webhook_hook. destruct (app_webhook_key app) as [key|]; [|apply safe_ret].
  destruct (app_queue app) as [q'|] eqn:E; [|apply safe_ret]. apply Happ in E as ->.
  destruct (_ <? _)%nat; [apply safe_ret|]. destruct (id_parse id) as [t|]; [|apply safe_ret].
  destruct (hook_request headers body) as [request|]; [|apply safe_ret].
  apply safe_bind; [eapply safe_draws, draws_now|]. intros ms. cbv zeta.
  destruct (_ || _); [apply safe_ret|]. apply safe_try; [|intros fired; apply safe_ret].
  unfold hook_fire. destruct (negb _); [apply safe_ret|]. apply safe_try_with; [apply safe_read|].
  intros [tg|]; [|apply safe_ret]. destruct (negb _); [apply safe_ret|].
  destruct (_ <? _)%nat; [apply safe_ret|]. destruct (_ || _); [apply safe_ret|].
  apply safe_bind; [|intros fired; apply safe_ret]. eapply safe_triple, (triple_fire_webhook q Hq).
Qed.

(** *** Turns *)

Lemma safe_open_turn spec : safe (open_turn spec : @M R X _).
Proof. eapply safe_triple, (triple_open_turn q (prompt q)). Qed.

Lemma safe_accept id text : safe (accept_subscription_completion id text : @M R X _).
Proof. eapply safe_triple, (triple_accept q (prompt q)). Qed.

Lemma safe_fail_turn id text : safe (fail_turn id text : @M R X _).
Proof. eapply safe_triple, (triple_fail_turn q (prompt q)). Qed.

#[local] Hint Resolve safe_open_turn safe_accept safe_fail_turn : safe.

Lemma safe_create_turn p body : safe (create_coworker_turn app p body : @M R X (result _ (ApiError J))).
Proof. unfold create_coworker_turn, background_turn. safely. Qed.

(** What [run_inline] answers with has ended. *)
Lemma triple_run_inline spec named :
  triple q (prompt q) any (run_inline app spec named : @M R X _) (fun r s =>
    match r with
    | Ok stored => has_terminal (sr_events stored) = true /\ seen_run (run_id spec) stored s
    | Err _ => True
    end).
Proof.
  set (is_stored := fun s : Shared R => is_Some (stored_run s (run_id spec))).
  assert (stable is_stored) as Hst by apply stable_stored, _.
  unfold run_inline, user_message_event.
  eapply (triple_bind q (prompt q)); [apply (triple_draws q (prompt q)), draws_recorded|]. intros text.
  apply (triple_pure q (prompt q)). intros [Ht _].
  eapply (triple_try_with q (prompt q)) with (Q := fun r s => match r with Ok _ => is_stored s | Err _ => True end);
    [| |done].
  { eapply (triple_post q (prompt q)); [apply (triple_put_run q (prompt q) any); [done|]|].
    - intros s _ _ _ _ Hw. exfalso. unfold was_queued in Hw. simpl in Hw. by rewrite Ht in Hw.
    - intros [[]|] s _ [_ Hp]; [destruct Hp as (run & Hr & _); by eexists|done|done]. }
  intros put. eapply (triple_bind q (prompt q)) with (Q := fun _ => is_stored).
  { unfold load_tools. destruct (app_catalog app); [destruct (existsb _ _)|];
      [|by apply (triple_done q (prompt q))..].
    eapply (triple_bind q (prompt q)); [apply (triple_external q (prompt q))|]. intros loaded.
    by apply (triple_done q (prompt q)). }
  intros loaded. eapply (triple_bind q (prompt q)) with (Q := fun p s => has_terminal p.1 = true /\ is_stored s).
  { destruct loaded as [catalog|error].
    - apply (triple_draws q (prompt q)), draws_with_run, harness_events_end.
    - eapply (triple_bind q (prompt q)); [apply (triple_draws q (prompt q)), draws_recorded|]. intros e.
      apply (triple_pure q (prompt q)). intros He. apply says_ends in He; [|done].
      by apply (triple_done q (prompt q)). }
  intros [events outcome]. apply (triple_pure q (prompt q)). intros He.
  eapply (triple_try_with q (prompt q)) with (Q := fun r s => match r with
    | Ok _ => closed s (run_id spec) | Err _ => True end); [| |done].
  { eapply (triple_post q (prompt q)); [by apply (triple_ending q (prompt q))|].
    intros [[]|] s _ [_ Hend]; simpl in Hend; try done.
    destruct Hend as (s0 & [run Hr] & Hn). congruence. }
  intros append. destruct outcome as [[]|error]; [|by apply (triple_done q (prompt q))].
  eapply (triple_try_with q (prompt q)) with (Q := fun r s => match r with
    | Ok (Some run) => has_terminal (sr_events run) = true /\ seen_run (run_id spec) run s
    | _ => True end); [| |done].
  - eapply (triple_post q (prompt q)); [apply (triple_store_read q (prompt q) _ _ (fun o s =>
      match o with
      | Some run => has_terminal (sr_events run) = true /\ seen_run (run_id spec) run s
      | None => True end)); [apply (stable_closed q (prompt q))|]|].
    + intros s _ (run & Hr & Hend). rewrite Hr. split; [done|]. by exists run.
    + by intros [[run|]|] s _ [_ ?].
  - intros [run|]; by apply (triple_done q (prompt q)).
Qed.

(** *** The router *)

Lemma safe_beside {C A} (m : @M R X A) : safe m -> safe (beside_cell m : @M R (C * X) A).
Proof. intros Hm. by apply triple_beside_cell. Qed.

Lemma safe_answers {A} (wrap : A -> Answer) (m : @M R X (result A (ApiError J))) :
  safe m -> safe (answers wrap m).
Proof. intros Hm. apply safe_try; [by apply safe_beside|]. intros a. apply safe_ret. Qed.

Lemma safe_take_stream o : safe (take_stream o : @M R (Streams * X) (result _ (ApiError J))).
Proof.
  apply safe_bind; [eapply safe_triple, (triple_get_cell q (prompt q))|].
  intros streams. destruct (take_slot streams o) as [slot streams'].
  apply safe_bind; [eapply safe_triple, (triple_set_cell q (prompt q))|]. intros []. apply safe_ret.
Qed.

#[local] Hint Resolve safe_take_stream safe_beside : safe.

Lemma safe_handle p headers endpoint : safe (handle hmac app p headers endpoint).
Proof.
  destruct endpoint; simpl; try apply safe_answers.
  - unfold create_agent. safely.
  - apply safe_with_body. auto with safe.
  - unfold get_run_state. safely.
  - unfold get_events. safely.
  - unfold get_ag_ui. safely.
  - unfold get_ui. safely.
  - unfold get_run_stream. safely.
  - unfold get_stream. safely.
  - apply safe_with_body. intros b. safely.
  - unfold list_threads. safely.
  - apply safe_follow_up.
  - unfold get_board. safely.
  - unfold stop_run. safely.
  - apply safe_with_body. intros b. safely.
  - apply safe_stop_thread.
  - unfold stop_owner. safely.
  - apply safe_create_trigger.
  - apply safe_trigger_route. safely.
  - apply safe_try; [apply safe_with_triggers; safely|safely].
  - apply safe_trigger_route. safely.
  - apply safe_resume_trigger.
  - apply safe_rotate_trigger.
  - apply safe_create_turn.
  - unfold complete_coworker_turn. safely.
  - unfold fail_coworker_turn. safely.
Qed.

Lemma safe_serve headers endpoint : safe (serve hmac app headers endpoint).
Proof.
  apply safe_try; [|intros p; apply safe_handle]. apply safe_beside. unfold authenticated. safely.
Qed.

(** C12. Requests strand nothing: whatever route a request takes, with whatever
    headers and body, among any other processes that follow the rules, with any
    call failing and the process dying at any point, every step of its handler
    keeps the rules: logs only grow and end once, a run that is queued and open
    stays queued, claimed, parked or pending, and a run the handler stores to be
    queued is pending first.  The same holds of the hooks, which no token
    guards. *)
Theorem http_strands_nothing (w : Server R (Streams * X)) (v : Server R X) headers endpoint
    id hook_headers body :
  respectful q (prompt q) w -> Good q (sv_shared w) ->
  respectful q (prompt q) v -> Good q (sv_shared v) ->
  keeps q (prompt q) w (serve hmac app headers endpoint w).2 /\
  keeps q (prompt q) v (webhook_hook (J := J) hmac enqueue_debug app id hook_headers body v).2.
Proof.
  intros Hrw Hgw Hrv Hgv. split.
  - by eapply triple_keeps; [apply _|apply safe_serve|..].
  - by eapply triple_keeps; [apply _|apply safe_webhook_hook|..].
Qed.

(** A run carried out inside its request has ended when the request is
    answered: whatever its decider, its models and its tools do, whatever other
    processes append meanwhile, the run [start_run] answers with is stored and
    its log has its end. *)
Theorem inline_run_has_ended spec named (w : Server R X) stored w' :
  respectful q (prompt q) w -> Good q (sv_shared w) ->
  run_inline app spec named w = (Ok stored, w') ->
  has_terminal (sr_events stored) = true /\ seen_run (run_id spec) stored (sv_shared w').
Proof.
  intros Hr Hg E.
  destruct (triple_run_inline spec named w Hr Hg I) as [_ Hq']. by rewrite E in Hq'.
Qed.

End Safe.

(** ** A concrete service *)

#[local] Existing Instance demo_uuids.
#[local] Existing Instance demo_poster.
#[local] Existing Instance demo_no_memory.
#[local] Existing Instance demo_clocks.

(** The sample run's owner. *)
Definition demo_caller : Caller :=
  let o := owner sample_spec in mkCaller (issuer o) (subject o) (tenant o).

(** One token, the demo caller's; the service keeps no body it refused. *)
#[export] Instance demo_auth : Authenticator MemorySandbox :=
  {| authenticate token x :=
       (if bool_decide (token = "token") then Ok demo_caller else Err BadToken, x) |}.

#[export] Instance demo_rejection : Rejection unit :=
  {| is_body_error _ := true; body_text _ := "no body"; rejection_status _ := 400%N |}.

Definition demo_headers : HeaderMap := fun name =>
  if bool_decide (name = "authorization") then Some (Some "Bearer token") else None.

(** An application on [queue] whose decider completes at once. *)
Definition demo_app (queue : option RunQueue) : App MemorySandbox :=
  mkApp queue (Ok (fun _ x => (Ok (EComplete "done"), x))) (fun _ _ x => (Err "no model", x)) None
    (Some (string_bytes "0123456789abcdef0123456789abcdef")) (mkFacets true true true true).

Definition demo_body : RunBody :=
  mkRunBody (id_of 2) "1" "hello" Local (work_model sample_spec) None ∅.

Definition no_hmac (key message : list byte) : list byte := message.

Definition demo_http : Server Db (Streams * MemorySandbox) := demo_server ((∅ : Streams), no_sandboxes).

Example demo_serves :
  match (serve (J := unit) no_hmac (demo_app None) demo_headers (PostRuns (Ok demo_body)) demo_http).1 with
  | Ok (AnRun state) => dispatch state = DCompleted "done"
  | _ => False
  end.
Proof. vm_compute. reflexivity. Qed.

Lemma http_strands_nothing_witness :
  keeps Queue.open (prompt Queue.open) demo_http
    (serve (J := unit) no_hmac (demo_app (Some Queue.open)) demo_headers (PostRuns (Ok demo_body)) demo_http).2.
Proof.
  refine (proj1 (http_strands_nothing (J := unit) Queue.open gol_ok no_hmac (fun _ => "")
    (demo_app (Some Queue.open)) _ demo_http (demo_server no_sandboxes) demo_headers
    (PostRuns (Ok demo_body)) "" demo_headers [] _ _ _ _)).
  - intros q'. simpl. congruence.
  - apply calm_respectful. reflexivity.
  - apply demo_good.
  - apply calm_respectful. reflexivity.
  - apply demo_good.
Defined.

Lemma inline_run_has_ended_witness :
  exists stored, has_terminal (sr_events stored) = true /\
    seen_run (run_id sample_spec) stored
      (sv_shared (run_inline (demo_app None) sample_spec [] (demo_server no_sandboxes)).2).
Proof.
  destruct (run_inline (demo_app None) sample_spec [] (demo_server no_sandboxes)) as [r w'] eqn:E.
  assert (exists stored, r = Ok stored) as [stored Hr].
  { apply (f_equal fst) in E. vm_compute in E. simpl in E. eexists. symmetry. exact E. }
  exists stored.
  refine (inline_run_has_ended Queue.open (demo_app None) sample_spec []
    (demo_server no_sandboxes) stored w' _ _ _).
  - apply calm_respectful. reflexivity.
  - apply demo_good.
  - rewrite <-Hr. exact E.
Defined.
