(* ===== verification/HttpIsolation.v ===== *)
(** * What a caller can ask for and can learn

    The specs a body makes, the runs of other principals, and the hooks nobody
    signed. *)

From S2P Require Import Prelude Text Protocol Uuids MemoryOwner SpecBuilder Auth Reduce Authorizer.
From S2P Require Import DriverTurns Store StoreProofs StoreTriggers StoreMessages StoreStops.
From S2P Require Import StoreThreads Surface Stream Queue QueueProofs Driver DriverProofs Server.
From S2P Require Import ServerLogic Traces Spawner Deliverer Fires Webhook Scheduler Sandbox Turns.
From S2P Require Import DriverWorld Worker WorkerProofs Http HttpProofs.

(** ** The specs a caller can make *)

Section Specs.
Context `{UuidCrate} {R X J : Type}.

Definition gol_free (md : gmap string string) : Prop :=
  forall key, is_Some (md !! key) -> starts_with "gol." key = false.

(** What [build_spec] accepts. *)
Definition acceptable (core : SpecCore) : Prop :=
  let limits := default (mkLimits 8 4) (sp_limits core) in
  (1 <= max_steps limits <= 64)%N /\ (1 <= max_model_calls limits <= 64)%N /\
  gol_free (sp_metadata core).

Lemma limits_bounded_iff l :
  limits_bounded l = true <-> (1 <= max_steps l <= 64)%N /\ (1 <= max_model_calls l <= 64)%N.
Proof. unfold limits_bounded, MAX_LIMIT. rewrite !andb_true_iff, !N.leb_le. tauto. Qed.

Lemma gol_free_iff md :
  gol_free md <-> existsb (fun kv : string * string => starts_with "gol." kv.1) (map_to_list md) = false.
Proof.
  rewrite <-not_true_iff_false, existsb_exists. split.
  - intros Hf ([k v] & Hin%list_elem_of_In%elem_of_map_to_list & Hs). rewrite Hf in Hs; [done|by eexists].
  - intros Hn key [v Hv%elem_of_map_to_list%list_elem_of_In]. apply not_true_iff_false.
    intros Hs. apply Hn. by exists (key, v).
Qed.

Lemma gol_free_key md key : gol_free md -> starts_with "gol." key = true -> md !! key = None.
Proof. intros Hf Hk. destruct (md !! key) eqn:E; [|done]. rewrite Hf in Hk; [done|by eexists]. Qed.

Lemma acceptable_iff core :
  acceptable core <->
  limits_bounded (default (mkLimits 8 4) (sp_limits core)) = true /\
  existsb (fun kv : string * string => starts_with "gol." kv.1) (map_to_list (sp_metadata core)) = false.
Proof. unfold acceptable. rewrite limits_bounded_iff, <-gol_free_iff. tauto. Qed.

(** A caller's body makes a run only of the shape the server allows: it is
    built exactly when both limits are between 1 and 64 (8 steps and 4 model
    calls when it gives none) and no metadata key starts with [gol.]; the spec
    then has the caller as its owner, a fresh id and a root's lineage, and none
    of the server's marks, so it is no turn and no trigger's run; anything else
    is a bad request, before an id is drawn. *)
Theorem specs_are_bounded_and_unmarked o core caps (w : Server R X) :
  (acceptable core ->
   exists spec,
     build_spec (J := J) o core caps w = (Ok spec, (random w).2) /\
     spec = mkRunSpec (id_of (random w).1) o (sp_agent_id core) (sp_agent_version core)
              (sp_input core) (sp_placement core) (sp_work_model core) caps
              (default (mkLimits 8 4) (sp_limits core)) (sp_metadata core) Lineage_default /\
     is_turn spec = false /\ metadata spec !! TRIGGER_KEY = None) /\
  (~ acceptable core ->
   exists text, build_spec (J := J) o core caps w = (Err (ApiBadRequest text), w)).
Proof.
  rewrite acceptable_iff.
  unfold build_spec. destruct (limits_bounded _) eqn:El; simpl; [|split; [by intros []|by eexists]].
  split.
  - intros [_ Hf]. apply gol_free_iff in Hf as Hg. rewrite Hf.
    rewrite (gol_free_key _ TURN_KEY Hg), (gol_free_key _ TRIGGER_KEY Hg) by reflexivity.
    eexists. split; [reflexivity|]. split; [reflexivity|]. unfold is_turn. simpl.
    by rewrite (gol_free_key _ TURN_KEY Hg), (gol_free_key _ TRIGGER_KEY Hg) by reflexivity.
  - intros Hn. case_bool_decide; [by eexists|]. case_bool_decide; [by eexists|].
    destruct (existsb _ _); [by eexists|]. by destruct Hn.
Qed.

End Specs.

#[local] Existing Instance demo_uuids.
#[local] Existing Instance demo_poster.
#[local] Existing Instance demo_no_memory.
#[local] Existing Instance demo_clocks.

(** A body that would pass for a turn. *)
Definition marked_core : SpecCore :=
  mkSpecCore (id_of 2) "1" "hello" Local (work_model sample_spec) None {[TURN_KEY := "1"]}.

Lemma specs_are_bounded_and_unmarked_witness :
  (exists spec, (build_spec (J := unit) (owner_of demo_caller) (run_core demo_body) []
     (demo_server no_sandboxes)).1 = Ok spec /\ is_turn spec = false) /\
  exists text, build_spec (J := unit) (owner_of demo_caller) marked_core [] (demo_server no_sandboxes) =
    (Err (ApiBadRequest text), demo_server no_sandboxes).
Proof.
  split.
  - destruct (proj1 (specs_are_bounded_and_unmarked (J := unit) (owner_of demo_caller)
      (run_core demo_body) [] (demo_server no_sandboxes))) as (spec & E & _ & Ht & _).
    + split; [simpl; lia|]. split; [simpl; lia|]. intros key [v Hv]. discriminate Hv.
    + exists spec. rewrite E. exact (conj eq_refl Ht).
  - apply (proj2 (specs_are_bounded_and_unmarked (J := unit) (owner_of demo_caller)
      marked_core [] (demo_server no_sandboxes))).
    intros (_ & _ & Hf). specialize (Hf TURN_KEY (ex_intro _ "1" eq_refl)). discriminate Hf.
Defined.

(** ** Another principal's run *)

Section Foreign.
Context `{UuidCrate} `{Clocks} {R X J : Type} `{Redis R} `{Memory X} `{SandboxHost X}
  `{GatewayPoster X} `{Authenticator X} `{Rejection J}.
Context (hmac : list byte → list byte → list byte) (app : App X).

(** What the next call finds. *)
Definition found {Y} (w : Server R Y) : Shared R :=
  others (fu_moment (sv_future w) (sv_drawn w)) (sv_shared w).

(** The server after one call that changed nothing. *)
Definition after_read {Y} (w : Server R Y) : Server R Y :=
  mkServer (found w) (sv_rest w) (sv_future w) (S (sv_drawn w)) ((found w, found w) :: sv_steps w).

(** The caller has no such run. *)
Definition not_theirs (p : Caller) (id : RunId) (s : Shared R) : Prop :=
  forall run, stored_run s id = Some run -> principal (owner (sr_spec run)) <> principal (owner_of p).

(** The run a route names. *)
Definition run_named (endpoint : Endpoint J) : option RunId :=
  match endpoint with
  | GetRun id | GetEvents id _ | GetAgUi id | GetUi id | GetRunStream id _ | PostRunStop id
  | PostRunReply id _ | PostTurnCompletion id _ | PostTurnFail id _ => Some id
  | _ => None
  end.

(** What is wrong with the request whatever the store holds. *)
Definition malformed (headers : HeaderMap) (endpoint : Endpoint J) : option (ApiError J) :=
  match endpoint with
  | GetEvents _ None => Some (ApiBadRequest "after and limit must be counts")
  | GetEvents _ (Some query) =>
      let limit := default 500%nat (eq_limit query) in
      if (limit =? 0)%nat || (500 <? limit)%nat
      then Some (ApiBadRequest "limit must be between 1 and 500") else None
  | GetRunStream _ query =>
      match resume headers query with Ok _ => None | Err error => Some error end
  | PostRunReply _ (Err rejection) => Some (body_rejection rejection)
  | _ => None
  end.

(** How a call of the store that finds nothing is refused. *)
Definition refusal (m : Moment R) : ApiError J :=
  match fault m with NoFault => ApiNotFound | _ => api_store_error unavailable end.

Lemma read_fails {Y A} (f : Shared R -> A) (w : Server R Y) :
  store_call (reads f) w =
    (match fault (fu_moment (sv_future w) (sv_drawn w)) with
     | NoFault => Ok (f (found w))
     | _ => Err unavailable
     end, after_read w).
Proof. unfold store_call, call, reads, after_read, found. by destruct (fault _). Qed.

Lemma owned_refuses p (f : Shared R -> option StoredRun) (w : Server R X) :
  (forall run, f (found w) = Some run -> principal (owner (sr_spec run)) <> principal (owner_of p)) ->
  owned (J := J) p (store_call (reads f)) w =
    (Err (refusal (fu_moment (sv_future w) (sv_drawn w))), after_read w).
Proof.
  intros Hf. unfold owned, try_with, bind. rewrite read_fails. unfold refusal.
  destruct (fault _); [|done..]. unfold ret. destruct (f (found w)) as [run|] eqn:E; [|done].
  destruct (owner_is _ _) eqn:Ho; [|done]. apply owner_is_principal in Ho. by destruct (Hf run).
Qed.

Lemma owned_run_refuses p id (w : Server R X) :
  not_theirs p id (found w) ->
  owned_run (J := J) id p w = (Err (refusal (fu_moment (sv_future w) (sv_drawn w))), after_read w).
Proof. intros Hn. by apply owned_refuses. Qed.

Lemma owned_page_refuses p id after limit (w : Server R X) :
  not_theirs p id (found w) ->
  owned_run_page (J := J) id p after limit w =
    (Err (refusal (fu_moment (sv_future w) (sv_drawn w))), after_read w).
Proof.
  intros Hn. apply owned_refuses. intros run Hr. unfold run_page in Hr.
  apply fmap_Some in Hr as (stored & Hs & ->). exact (Hn stored Hs).
Qed.

(** A handler that starts with a call that refuses is refused. *)
Lemma refused {Y A B E} (m : @M R Y (result A E)) (k : A -> M (result B E)) w e w' :
  m w = (Err e, w') -> try m k w = (Err e, w').
Proof. intros Hm. unfold try, try_with, bind. by rewrite Hm. Qed.

Lemma answers_refused {A} (wrap : A -> Answer) (m : @M R X (result A (ApiError J))) (w : Server R (Streams * X)) e :
  let inner := mkServer (sv_shared w) (sv_rest w).2 (sv_future w) (sv_drawn w) (sv_steps w) in
  m inner = (Err e, after_read inner) -> answers wrap m w = (Err e, after_read w).
Proof.
  cbv zeta. intros Hm. unfold answers. apply refused. unfold beside_cell. rewrite Hm.
  unfold after_read, found. destruct w as [s [c x] f d l]. done.
Qed.

(** C13. Another principal's run is a missing run: on every route that names a run,
    reading its state, its events, its views or its stream, stopping it,
    answering it, finishing or failing its turn, a caller who owns no run under
    that id is told exactly what a caller naming no run is told (not found, or
    that the store is unavailable when the call fails), and the handler does
    nothing but that one read: no step changes the state, no stream is counted
    and no sandbox is touched.  A malformed request is refused before any call. *)
Theorem foreign_run_is_missing (p : Caller) (headers : HeaderMap) (endpoint : Endpoint J) (id : RunId) (w : Server R (Streams * X)) :
  run_named endpoint = Some id -> not_theirs p id (found w) ->
  handle hmac app p headers endpoint w =
    match malformed headers endpoint with
    | Some error => (Err error, w)
    | None => (Err (refusal (fu_moment (sv_future w) (sv_drawn w))), after_read w)
    end.
Proof.
  intros Hn Hf. destruct endpoint; try discriminate; injection Hn as ->; simpl.
  - apply answers_refused. unfold get_run_state. by apply refused, owned_run_refuses.
  - unfold get_events. destruct query as [query|]; [|by destruct w as [? [] ? ? ?]].
    unfold EVENTS_PAGE_MAX. destruct (_ || _); [by destruct w as [? [] ? ? ?]|].
    apply answers_refused. by apply refused, owned_page_refuses.
  - apply answers_refused. unfold get_ag_ui. by apply refused, owned_run_refuses.
  - apply answers_refused. unfold get_ui. by apply refused, owned_run_refuses.
  - unfold get_run_stream. destruct (resume headers query) as [cursor|error]; [|done].
    apply refused, refused. unfold beside_cell. rewrite owned_page_refuses by done.
    unfold after_read, found. by destruct w as [s [c x] f d l].
  - apply answers_refused. unfold stop_run. by apply refused, owned_page_refuses.
  - unfold reply_run. destruct body as [body|rejection]; [|by destruct w as [? [] ? ? ?]].
    apply answers_refused. by apply refused, owned_page_refuses.
  - apply answers_refused. unfold complete_coworker_turn. by apply refused, owned_run_refuses.
  - apply answers_refused. unfold fail_coworker_turn. by apply refused, owned_run_refuses.
Qed.

End Foreign.

(** ** Hooks *)

Section Hooks.
Context `{UuidCrate} `{Clocks} {R X J : Type} `{Redis R} `{Memory X} `{SandboxHost X}
  `{GatewayPoster X} `{Authenticator X} `{Rejection J}.
Context (hmac : list byte → list byte → list byte) (enqueue_debug : EnqueueError → string).
Context (app : App X) (id : string) (headers : HeaderMap) (body : list byte).

(** The trigger that the hook's call finds, if any, has not signed the
    request. *)
Definition unsigned (w : Server R X) : Prop :=
  forall key t request trigger,
    app_webhook_key app = Some key -> id_parse id = Some t ->
    hook_request headers body = Some request ->
    webhook_trigger (sh_triggers (found (now w).2)) t = Some trigger ->
    hook_signed hmac key trigger request (seconds (now w).1) = false.

(** What a hook nobody signed is told. *)
Definition hook_refusal (w : Server R X) : ApiError J :=
  match app_webhook_key app, app_queue app with
  | Some _, Some _ =>
      if (MAX_MESSAGE_BYTES <? length body)%nat then ApiTooLarge "the body is over 32 KiB"
      else
        match id_parse (k := KTrigger) id, hook_request headers body with
        | Some _, Some request =>
            if negb (is_event_id (rq_event request)) ||
               negb (plausible (rq_timestamp request) (rq_signature request) (seconds (now w).1))
            then ApiUnauthorized
            else if negb (keeps_triggers (app_keeps app)) then ApiNoTriggers
            else
              match fault (fu_moment (sv_future w) (S (sv_drawn w))) with
              | NoFault => ApiUnauthorized
              | _ => api_store_error unavailable
              end
        | _, _ => ApiUnauthorized
        end
  | _, _ => ApiUnavailable "webhooks are not available"
  end.

(** A server that did at most one read. *)
Definition only_read (w w' : Server R X) : Prop :=
  exists own, sv_steps w' = own ++ sv_steps w /\ all_steps eq own /\ (length own <= 1)%nat.

Lemma only_read_none w w' : sv_steps w' = sv_steps w -> only_read w w'.
Proof. intros Hs. exists []. split_and!; [done|constructor|simpl; lia]. Qed.

Lemma only_read_once w w' : sv_steps w' = sv_steps w -> only_read w (after_read w').
Proof.
  intros Hs. eexists [_]. simpl. rewrite Hs. split_and!; [done|by repeat constructor|lia].
Qed.

Lemma unsigned_not_fired q key t request now_s (w : Server R X) :
  (forall trigger, webhook_trigger (sh_triggers (found w)) t = Some trigger ->
     hook_signed hmac key trigger request now_s = false) ->
  hook_fire (J := J) hmac enqueue_debug app q key t request now_s w =
    if keeps_triggers (app_keeps app)
    then (Err (match fault (fu_moment (sv_future w) (sv_drawn w)) with
               | NoFault => ApiUnauthorized
               | _ => api_store_error unavailable
               end), after_read w)
    else (Err ApiNoTriggers, w).
Proof.
  intros Hn. unfold hook_fire. destruct (keeps_triggers _); simpl; [|done].
  unfold try_with at 1, bind at 1. unfold do_webhook_trigger. rewrite read_fails.
  destruct (fault _); [|done..].
  destruct (webhook_trigger _ _) as [trigger|] eqn:E; [|done]. by rewrite (Hn _ eq_refl).
Qed.

Lemma unsigned_refused (w : Server R X) r w' :
  unsigned w -> webhook_hook (J := J) hmac enqueue_debug app id headers body w = (r, w') ->
  r = Err (hook_refusal w) /\ only_read w w'.
Proof.
  intros Hn E. unfold unsigned in Hn. revert E. unfold webhook_hook, hook_refusal.
  destruct (app_webhook_key app) as [key|]; [|intros [= <- <-]; split; [done|by apply only_read_none]].
  destruct (app_queue app) as [q|]; [|intros [= <- <-]; split; [done|by apply only_read_none]].
  destruct (_ <? _)%nat; [intros [= <- <-]; split; [done|by apply only_read_none]|].
  destruct (id_parse id) as [t|] eqn:Et; [|intros [= <- <-]; split; [done|by apply only_read_none]].
  destruct (hook_request headers body) as [request|];
    [|intros [= <- <-]; split; [done|by apply only_read_none]].
  specialize (Hn key t request). unfold bind at 1. destruct (now w) as [ms w1] eqn:Ew.
  assert (w1 = (now w).2) as Hw1 by by rewrite Ew. simpl in Hn |- *.
  destruct (_ || _); [intros [= <- <-]; split; [done|apply only_read_none; by rewrite Hw1]|].
  cbv [try try_with bind]. rewrite unsigned_not_fired by auto. rewrite Hw1. destruct (keeps_triggers _); simpl; intros [= <- <-].
  - split; [done|]. by apply (only_read_once w (drew w)).
  - split; [done|]. by apply only_read_none.
Qed.

(** C16. A hook nobody signed learns nothing and does nothing: whatever the two
    servers hold, whether or not the trigger exists, is paused, or is another
    principal's, a request no found trigger signed is refused with the same
    answer, and the handler does at most one read, which changes no state. *)
Theorem unsigned_hook_learns_nothing (w1 w2 : Server R X) r1 r2 w1' w2' :
  unsigned w1 -> unsigned w2 -> sv_future w1 = sv_future w2 -> sv_drawn w1 = sv_drawn w2 ->
  webhook_hook (J := J) hmac enqueue_debug app id headers body w1 = (r1, w1') ->
  webhook_hook (J := J) hmac enqueue_debug app id headers body w2 = (r2, w2') ->
  r1 = r2 /\ is_ok r1 = false /\ only_read w1 w1' /\ only_read w2 w2'.
Proof.
  intros Hn1 Hn2 Hf Hd E1 E2.
  apply unsigned_refused in E1 as [-> H1']; [|done]. apply unsigned_refused in E2 as [-> H2']; [|done].
  split_and!; [|done..]. unfold hook_refusal, now. simpl. by rewrite Hf, Hd.
Qed.

End Hooks.

(** ** Labels *)

Lemma take_while_app p l b rest :
  forallb p l = true -> p b = false -> take_while p (l ++ b :: rest) = l.
Proof.
  intros Hl Hb. induction l as [|a l IH]; simpl in *; [by rewrite Hb|].
  apply andb_prop in Hl as [-> Hl]. by rewrite IH.
Qed.

Lemma ascii_of_codes (l : list byte) : Ascii.ascii_of_N <$> (code <$> l) = l.
Proof. induction l as [|b l IH]; [done|]. rewrite !fmap_cons, IH. unfold code. by rewrite Ascii.ascii_N_embedding. Qed.

Lemma trim_start_T s : trim_start ("T" +:+ s) = "T" +:+ s.
Proof.
  unfold trim_start. change (string_bytes ("T" +:+ s)) with (Ascii.ascii_of_N 84 :: string_bytes s).
  rewrite fmap_cons. change (code (Ascii.ascii_of_N 84)) with 84%N.
  assert (forall l, trim_front (84%N :: l) = 84%N :: l) as -> by reflexivity.
  rewrite fmap_cons, ascii_of_codes. exact (f_equal (String _) (bytes_string_bytes s)).
Qed.

Lemma strip_text_app prefix s : strip_text prefix (prefix +:+ s) = Some s.
Proof.
  unfold strip_text. rewrite string_bytes_app, (proj2 (strip_prefix_Some _ _ _) eq_refl). simpl.
  by rewrite bytes_string_bytes.
Qed.

(** The labels of a board have at most four digits. *)
Lemma label_digits n : (n <= BOARD_RUNS)%nat -> (length (string_bytes (show_nat n)) <= 9)%nat.
Proof.
  intros Hn.
  assert (forallb (fun n => length (string_bytes (show_nat n)) <=? 9)%nat (seq 0 1001) = true) as Hall
    by (vm_compute; reflexivity).
  rewrite forallb_forall in Hall. apply Nat.leb_le, Hall, in_seq. unfold BOARD_RUNS in Hn. lia.
Qed.

(** A message addressed to a label is read back as that label, and its text. *)
Lemma addressed_reads_back n text :
  (1 <= n <= BOARD_RUNS)%nat -> addressed (task_label n +:+ ":" +:+ text) = Some (n, trim text).
Proof.
  intros Hn. unfold addressed, task_label. change (("T" +:+ show_nat n) +:+ ":" +:+ text) with
    ("T" +:+ (show_nat n +:+ ":" +:+ text)).
  rewrite trim_start_T, strip_text_app. cbn [mbind option_bind].
  destruct (show_u64_digits (N.of_nat n)) as [Hne Hd].
  rewrite !string_bytes_app. change (string_bytes ":" ++ string_bytes text) with (Ascii.ascii_of_N 58 :: string_bytes text).
  rewrite take_while_app by done. fold (show_nat n) in *.
  rewrite take_app_length, drop_app_length, bytes_string_bytes.
  pose proof (label_digits n) as H9. destruct (string_bytes (show_nat n)) as [|b l] eqn:E; [done|].
  assert ((length (b :: l) =? 0)%nat || (9 <? length (b :: l))%nat = false) as ->.
  { apply orb_false_iff. split; [done|]. apply Nat.ltb_ge. lia. }
  change (strip_text ":" _) with (strip_text ":" (":" +:+ bytes_string (string_bytes text))).
  rewrite strip_text_app, bytes_string_bytes.
  cbn [mbind option_bind]. unfold show_nat. rewrite parse_show_u64 by (unfold u64_max, BOARD_RUNS in *; lia).
  cbn [mbind option_bind]. destruct (N.leb_spec 1 (N.of_nat n)); [|lia]. by rewrite Nat2N.id.
Qed.

Lemma task_label_inj n m :
  (1 <= n <= BOARD_RUNS)%nat -> (1 <= m <= BOARD_RUNS)%nat -> task_label n = task_label m -> n = m.
Proof.
  intros Hn Hm E. pose proof (addressed_reads_back n "" Hn) as Ha. rewrite E, addressed_reads_back in Ha; [|done].
  by injection Ha.
Qed.

Lemma waiting_spec runs task :
  task ∈ waiting_on_user runs <->
  exists place run question, runs !! place = Some run /\
    open_question (sr_spec run) (sr_events run) = Some question /\
    task = mkWaitingTask (place + 1) (run_id (sr_spec run)) question.1 question.2.
Proof.
  unfold waiting_on_user. rewrite list_elem_of_omap. split.
  - intros ([place run] & (i & Hi)%list_elem_of_lookup_1 & Ht).
    apply lookup_zip_Some in Hi as [[-> _]%lookup_seq Hr].
    destruct (open_question _ _) as [question|] eqn:Eq; [|done]. injection Ht as <-.
    by exists i, run, question.
  - intros (place & run & question & Hr & Hq & ->). exists (place, run). split; [|by rewrite Hq].
    apply (list_elem_of_lookup_2 _ place), lookup_zip_Some. split; [|done].
    apply lookup_seq. split; [done|by apply lookup_lt_Some in Hr].
Qed.

(** A label is one task's. *)
Lemma waiting_label runs task task' :
  task ∈ waiting_on_user runs -> task' ∈ waiting_on_user runs -> wt_label task = wt_label task' ->
  task = task'.
Proof.
  intros (p1 & r1 & q1 & H1 & Hq1 & ->)%waiting_spec (p2 & r2 & q2 & H2 & Hq2 & ->)%waiting_spec. simpl.
  intros E. assert (p1 = p2) as <- by lia. congruence.
Qed.

(** A label names the task its card shows: when several tasks of a thread wait
    on their user, a message that starts with the label one of them has on the
    thread's board is taken as the answer to exactly that task's open question,
    with the rest of the message, trimmed, as its text; the card with that
    label is that run's and shows that question; and a label no waiting task
    has asks which task is meant, listing them. *)
Theorem label_names_its_task {J} runs task n text :
  (length runs <= BOARD_RUNS)%nat -> task ∈ waiting_on_user runs -> (1 <= n <= BOARD_RUNS)%nat ->
  which_task (J := J) (waiting_on_user runs) (task_label (wt_label task) +:+ ":" +:+ text) =
    Ok (task, trim text) /\
  (forall card, card ∈ board_cards runs None 0 (length runs) ->
     cd_label card = task_label (wt_label task) ->
     cd_run_id card = wt_run_id task /\ cd_question_id card = Some (wt_question_id task) /\
     cd_question card = Some (wt_question task)) /\
  ((forall other, other ∈ waiting_on_user runs -> wt_label other <> n) ->
   which_task (J := J) (waiting_on_user runs) (task_label n +:+ ":" +:+ text) =
     Err (ApiWhichTask (waiting_on_user runs))).
Proof.
  intros Hl Ht Hn. pose proof Ht as (place & run & question & Hr & Hq & E)%waiting_spec.
  assert (wt_label task = place + 1)%nat as El by by rewrite E.
  pose proof (lookup_lt_Some _ _ _ Hr) as Hp. unfold which_task.
  rewrite !addressed_reads_back by lia. split_and!.
  - destruct (List.find _ _) as [other|] eqn:Ef.
    + apply List.find_some in Ef as [Ho%list_elem_of_In Heq%Nat.eqb_eq].
      by rewrite (waiting_label runs other task).
    + apply list_elem_of_In in Ht. eapply List.find_none in Ef; [|done].
      by rewrite Nat.eqb_refl in Ef.
  - intros c Hc Hcl. unfold board_cards in Hc. rewrite drop_0 in Hc.
    apply list_elem_of_fmap in Hc as ([k run'] & -> & Hc).
    apply elem_of_take in Hc as (i & Hi & Hlt).
    apply lookup_zip_Some in Hi as [[-> _]%lookup_seq Hr']. simpl in Hcl.
    apply task_label_inj in Hcl; [|lia..]. assert (i = place) as -> by lia. rewrite Hr in Hr'.
    injection Hr' as <-. rewrite E. simpl. by rewrite Hq.
  - intros Hno. destruct (List.find _ _) as [other|] eqn:Ef; [|done].
    apply List.find_some in Ef as [Ho%list_elem_of_In Heq%Nat.eqb_eq]. by destruct (Hno other).
Qed.

(** ** Concrete refusals *)

Definition other_caller : Caller := mkCaller "https://issuer.test" "user-2" "tenant-1".

(** The sample run, enqueued beside the process's slots. *)
Definition queued_http : Server Db (Streams * MemorySandbox) :=
  (enqueue Queue.open sample_spec End demo_http).2.

Lemma foreign_run_is_missing_witness :
  handle no_hmac (demo_app (Some Queue.open)) other_caller demo_headers (GetRun (J := unit) (id_of 1))
    queued_http = (Err ApiNotFound, after_read queued_http) /\
  is_ok (handle no_hmac (demo_app (Some Queue.open)) demo_caller demo_headers
    (GetRun (J := unit) (id_of 1)) queued_http).1 = true.
Proof.
  split; [|vm_compute; reflexivity].
  refine (foreign_run_is_missing no_hmac (demo_app (Some Queue.open)) other_caller demo_headers
    (GetRun (J := unit) (id_of 1)) (id_of 1) queued_http eq_refl _).
  assert (match stored_run (found queued_http) (id_of 1) with
          | Some run => bool_decide (principal (owner (sr_spec run)) = principal (owner_of other_caller))
          | None => false
          end = false) as Hb by (vm_compute; reflexivity).
  intros run Hr. rewrite Hr in Hb. exact (proj1 (bool_decide_eq_false _) Hb).
Defined.

(** The demo trigger as a webhook, and a request signed with another secret. *)
Definition hook_shared : Shared Db :=
  mkShared (sh_store demo_shared) (sh_messages demo_shared)
    (put_trigger triggers_default (set_kind demo_trigger (Webhook 0)) MAX_TRIGGERS).2
    (sh_queue demo_shared).

Definition hook_server : Server Db MemorySandbox := mkServer hook_shared no_sandboxes calm 0 [].

Definition forged_headers : HeaderMap := fun name =>
  let forged := demo_sign "evt-1" "1" [] in
  if bool_decide (name = "x-gol-event") then Some (Some (rq_event forged))
  else if bool_decide (name = "x-gol-timestamp") then Some (Some (rq_timestamp forged))
  else if bool_decide (name = "x-gol-signature") then Some (Some (rq_signature forged))
  else None.

Abbreviation forged_hook :=
  (webhook_hook (J := unit) demo_hmac (fun _ => "") (demo_app (Some Queue.open)) (id_display (id_of (k := KTrigger) 30))
    forged_headers []).

Lemma unsigned_hook_learns_nothing_witness :
  (forged_hook hook_server).1 = Err ApiUnauthorized /\
  (forged_hook hook_server).1 = (forged_hook (demo_server no_sandboxes)).1.
Proof.
  split; [vm_compute; reflexivity|].
  destruct (forged_hook hook_server) as [r1 w1] eqn:E1.
  destruct (forged_hook (demo_server no_sandboxes)) as [r2 w2] eqn:E2.
  refine (proj1 (unsigned_hook_learns_nothing (J := unit) demo_hmac (fun _ => "")
    (demo_app (Some Queue.open)) (id_display (id_of (k := KTrigger) 30)) forged_headers [] hook_server
    (demo_server no_sandboxes) r1 r2 w1 w2 _ _ _ _ E1 E2)).
  - intros key t request trigger [= <-] Ht Hr Hf.
    destruct (List.find_some _ _ Hf) as [[<-|[]] _]. injection Hr as <-. vm_compute. reflexivity.
  - intros key t request trigger _ _ _ Hf. discriminate Hf.
  - reflexivity.
  - reflexivity.
Defined.

(** Two tasks of a thread, each waiting on its user. *)
Definition asked_log (question : MessageId) : list Event :=
  sample_event <$> [RunCreated; RunQueued; UserMessage "hello"; RunScheduled; RunProvisioning;
    RunStarting; RunStarted; UserAsked question "which one?"].

Definition asked_runs : list StoredRun :=
  [mkStoredRun sample_spec (asked_log (id_of 9)); mkStoredRun sample_spec (asked_log (id_of 10))].

Lemma label_names_its_task_witness :
  which_task (J := unit) (waiting_on_user asked_runs) ("T2" +:+ ":" +:+ " the first ") =
    Ok (mkWaitingTask 2 (id_of 1) (id_of 10) "which one?", trim " the first ").
Proof.
  refine (proj1 (label_names_its_task (J := unit) asked_runs
    (mkWaitingTask 2 (id_of 1) (id_of 10) "which one?") 2 " the first " _ _ _)).
  - apply Nat.leb_le. vm_compute. reflexivity.
  - vm_compute. apply list_elem_of_further, list_elem_of_here.
  - split; apply Nat.leb_le; vm_compute; reflexivity.
Defined.
