(* ===== verification/HttpAnswers.v ===== *)
(** * Answers and stops, step by step

    What a reply changes, and what a stop ends. *)

From S2P Require Import Prelude Text Protocol Uuids MemoryOwner SpecBuilder Auth Reduce Authorizer.
From S2P Require Import DriverTurns Store StoreProofs StoreTriggers StoreMessages StoreStops.
From S2P Require Import StoreThreads Surface Stream Queue QueueProofs Driver DriverProofs Server.
From S2P Require Import ServerLogic Traces Spawner Deliverer Fires Webhook Scheduler Sandbox Turns.
From S2P Require Import DriverWorld Worker WorkerProofs Http HttpProofs.

Section Answers.
Context `{UuidCrate} `{Clocks} {R X J : Type} `{Redis R} `{!RedisLaws R} `{Memory X}
  `{SandboxHost X} `{GatewayPoster X} `{Authenticator X} `{Rejection J}.
Context (q : RunQueue) (Hq : keys_ok q) (app : App X) (Happ : pushes_to app q).

Abbreviation any := (fun _ : Shared R => True).
Abbreviation traced := (traced q (prompt q)).

(** A step that leaves every run as it is. *)
Definition runs_same (s s' : Shared R) : Prop := forall id, stored_run s' id = stored_run s id.

(** A step that appends [es] to the log of an open run, [seen] events long when
    that is given, and leaves the other runs. *)
Definition appends (id : RunId) (seen : option nat) (es : list Event) (s s' : Shared R) : Prop :=
  exists run, open_run s id run /\ (forall n, seen = Some n -> n = length (sr_events run)) /\
    stored_run s' id = Some (mkStoredRun (sr_spec run) (sr_events run ++ es)) /\
    (forall other, other <> id -> stored_run s' other = stored_run s other).

Lemma runs_same_refl s : runs_same s s.
Proof. done. Qed.

Lemma only_same_read {A} (f : Shared R -> A) : only runs_same (store_call (reads f) : @M R X _).
Proof. by apply only_call. Qed.

Lemma only_same_queue {A} (f : R -> A * R) : only runs_same (queue_call f : @M R X _).
Proof. apply only_call; intros s; [done|]. by destruct (f (sh_queue s)). Qed.

(** The one step of an append. *)
Definition append_left P id seen es (r : result Append StoreError) (own : list (Step R)) (s : Shared R) : Prop :=
  exists s0, own = [(s0, s)] /\ P s0 /\ P s /\
    match r with
    | Ok Appended => appends id seen es s0 s
    | Ok Terminal => closed s id /\ runs_same s0 s
    | Ok Missing => stored_run s id = None /\ runs_same s0 s
    | Ok Moved =>
        (exists run, stored_run s id = Some run /\ seen <> Some (length (sr_events run))) /\
        runs_same s0 s
    | Err _ => appends id seen es s0 s \/ runs_same s0 s
    end.

Lemma append_moved_on st id seen es t st' :
  append_checked st id seen es t = (Ok Moved, st') ->
  exists run, get_run st id = Some run /\ seen <> Some (length (sr_events run)).
Proof.
  unfold append_checked, get_run. destruct (check_one_terminal es); [|done].
  unfold lock_write. destruct (poisoned (runs st)); [done|].
  change (guarded (runs st)) with (lock_read (runs st)).
  destruct (lock_read (runs st) !! id) as [run|]; [|done].
  destruct (has_terminal (sr_events run)); [done|].
  destruct seen as [n|]; [|by destruct (number _ _ _ _ _ _)].
  destruct (negb _) eqn:En; [|by destruct (number _ _ _ _ _ _)].
  intros _. exists run. split; [done|]. intros [= ->]. by rewrite Nat.eqb_refl in En.
Qed.

Lemma append_traced P id seen es :
  stable q (prompt q) P ->
  (forall s run, Good q s -> P s -> open_run s id run -> was_queued (sr_events run ++ es) = true ->
     in_queue q s id \/ has_terminal es = true) ->
  traced P (bind now (fun t => store_call (on_runs (fun st => append_checked st id seen es t))) : @M R X _)
    (append_left P id seen es).
Proof.
  intros HP Hin. eapply (traced_bind q (prompt q)); [apply (traced_draws q (prompt q)), draws_now|].
  intros t own. apply (traced_pre q (prompt q)) with (P := fun s => own = [] /\ P s);
    [|by intros s _ (-> & _ & ?)].
  apply (traced_pure q (prompt q)). intros ->.
  apply (traced_post q (prompt q)) with (Q := append_left P id seen es);
    [|intros r own s _ Hp; by rewrite app_nil_r].
  apply (traced_call q (prompt q)); [done| |].
  - intros s Hg Hp. exists s. split_and!; try done. by right.
  - intros s Hg Hp. unfold on_runs.
    destruct (append_checked (runs_store s) id seen es t) as [r st] eqn:E. cbn [fst snd].
    change (with_store s _) with (with_runs s st).
    destruct (append_step q s id seen es t r st Hg ltac:(eauto) E) as [Hpr _].
    assert (P (with_runs s st)) as HP' by (by eapply HP).
    pose proof E as [[-> Hr]|(run & Hrun & -> & He & Hseen & _ & Est)]%append_checked_cases.
    + assert (with_runs s (runs_store s) = s) as Es by (destruct s as [[] ? ? ?]; done).
      rewrite Es in *. split; [done|]. split; exists s; split_and!; try done; [|by right].
      destruct r as [[]|]; try done; [..|by right]; (split; [|done]).
      * apply append_terminal in E as (run & Hrun & Ht & _). by exists run.
      * by apply append_missing in E.
      * by apply append_moved_on in E.
    + assert (appends id seen es s (with_runs s st)) as Happ'.
      { exists run. split_and!; [by split; rewrite ?has_terminal_ended|done|..];
          rewrite Est; [|intros other Hne]; (etrans; [apply get_run_set_runs|]).
        - by rewrite bool_decide_true.
        - rewrite bool_decide_false by congruence. done. }
      split; [done|]. split; exists s; split_and!; auto.
Qed.

(** A step that appends the answer to the question the run has open, which is
    the one the caller meant, if the caller named one. *)
Definition answers_open (run : RunId) (text : string) (asked : option MessageId) (s s' : Shared R) : Prop :=
  exists stored question asking event,
    stored_run s run = Some stored /\
    open_question (sr_spec stored) (sr_events stored) = Some (question, asking) /\
    default question asked = question /\ payload event = UserAnswered question text /\
    stored_run s' run = Some (mkStoredRun (sr_spec stored) (sr_events stored ++ [event])) /\
    forall other, other <> run -> stored_run s' other = stored_run s other.

(** What the steps of an answer are. *)
Definition answer_left run text asked (r : result unit (ApiError J)) (own : list (Step R)) : Prop :=
  match r with
  | Ok _ => one_step runs_same (answers_open run text asked) own
  | Err (ApiStore _) =>
      all_steps runs_same own \/ one_step runs_same (answers_open run text asked) own
  | Err _ => all_steps runs_same own
  end.

Lemma answer_left_before run text asked r own own' :
  answer_left run text asked r own' -> all_steps runs_same own ->
  answer_left run text asked r (own' ++ own).
Proof.
  intros Ha Ho. destruct r as [[]|[]]; simpl in *; try (by apply all_steps_app);
    try (by apply one_step_before).
  destruct Ha as [Ha|Ha]; [left; by apply all_steps_app|right; by apply one_step_before].
Qed.

Lemma answer_left_weaken run text asked asked' r own :
  (forall question, default question asked' = question -> default question asked = question) ->
  answer_left run text asked' r own -> answer_left run text asked r own.
Proof.
  intros Hw.
  assert (one_step runs_same (answers_open run text asked') own ->
    one_step runs_same (answers_open run text asked) own) as Hone.
  { intros (later & s & s' & earlier & Hl & Hq1 & (st & question & asking & ev & ? & ? & ? & ? & ? & ?) & Hq2).
    exists later, s, s', earlier. split_and!; try done. exists st, question, asking, ev. split_and!; auto. }
  destruct r as [[]|[]]; simpl; tauto.
Qed.

(** The append of an answer onto the log that was read. *)
Lemma answer_append run text asked stored question asking event :
  open_question (sr_spec stored) (sr_events stored) = Some (question, asking) ->
  default question asked = question -> payload event = UserAnswered question text ->
  traced (seen_run run stored)
    (do_append_events_after run (length (sr_events stored)) [event] : @M R X _)
    (fun r own s => exists s0 s1, own = [(s0, s1)] /\ seen_run run stored s /\
       match r with
       | Ok Appended => answers_open run text asked s0 s1
       | Ok _ => runs_same s0 s1
       | Err _ => answers_open run text asked s0 s1 \/ runs_same s0 s1
       end).
Proof.
  intros Ho Hd He.
  assert (forall s0 s1, seen_run run stored s0 ->
    appends run (Some (length (sr_events stored))) [event] s0 s1 -> answers_open run text asked s0 s1) as Happ'.
  { intros s0 s1 (now & Hr & Hgrow) (run' & [Hr' _] & Hseen & Hs1 & Hothers).
    rewrite Hr in Hr'. injection Hr' as <-. specialize (Hseen _ eq_refl).
    apply grows_same in Hgrow; [|done]. subst now. by exists stored, question, asking, event. }
  eapply (traced_post q (prompt q)); [apply (append_traced (seen_run run stored))|].
  - by apply stable_seen, _.
  - intros s now Hg (now' & Hr & Hgrow) [Hr' Hopen] Hw. rewrite Hr in Hr'. injection Hr' as ->. left.
    destruct (good_kept q s Hg run now) as [|[Hstill _]]; [done| |done|].
    + unfold was_queued in *. rewrite existsb_app in Hw. simpl in Hw. rewrite He, orb_false_r in Hw.
      by destruct (existsb _ (sr_events now)).
    + exfalso. eapply still_waiting_prefix in Hstill; [|apply Hgrow].
      by rewrite (question_not_waiting _ _ _ Ho) in Hstill.
  - intros r own s _ (s0 & -> & Hs0 & Hs & Hr). exists s0, s. split; [done|].
    split; [done|]. destruct r as [[]|]; [by apply Happ'|by destruct Hr..|].
    destruct Hr as [Hr|Hr]; [left; by apply Happ'|by right].
Qed.

Lemma wake_traced P run question :
  stable q (prompt q) P ->
  traced P (do_wake q run question : @M R X _) (fun _ own s => all_steps runs_same own /\ P s).
Proof.
  intros HP. eapply (traced_post q (prompt q));
    [apply (traced_triple q (prompt q)) with (Φ := runs_same)|].
  - eapply (triple_post q (prompt q)).
    + apply (triple_queue_op q Hq (prompt q) P (QWake (id_display run) (id_display question)) _
        (fun _ _ => True)); [done|by intros s|by intros s|done].
    + intros r s _ [Hp _]. exact Hp.
  - apply only_same_queue.
  - by intros r own s _ [? ?].
Qed.

Lemma answer_tries_traced tries run text asked :
  traced any (answer_tries app tries run text asked : @M R X (result _ (ApiError J)))
    (fun r own _ => answer_left run text asked r own).
Proof.
  revert asked. induction tries as [|tries IH]; intros asked; simpl.
  { apply (traced_done q (prompt q)). intros _ _ _. left. constructor. }
  eapply (traced_try_with q (prompt q)).
  - eapply (traced_triple q (prompt q)); [by apply (triple_run q (prompt q) any)|apply only_same_read].
  - intros [stored|] own; [|apply (traced_done q (prompt q)); by intros s _ [_ ?]].
    apply (traced_pre q (prompt q)) with
      (P := fun s => all_steps runs_same own /\ seen_run run stored s); [|by intros s _ [[_ ?] ?]].
    apply (traced_pure q (prompt q)). intros Hown.
    apply (traced_post q (prompt q)) with (Q := fun r own' _ => answer_left run text asked r own');
      [|intros r own' s _ Ha; by apply answer_left_before].
    destruct (open_question (sr_spec stored) (sr_events stored)) as [[question asking]|] eqn:Eq;
      [|apply (traced_done q (prompt q)); intros s _ _; constructor].
    case_bool_decide as Hd; simpl; [|apply (traced_done q (prompt q)); intros s _ _; constructor].
    eapply (traced_bind q (prompt q)); [apply (traced_draws q (prompt q)), draws_recorded|].
    intros event own1. apply (traced_pre q (prompt q)) with
      (P := fun s => (own1 = [] /\ payload event = UserAnswered question text) /\ seen_run run stored s);
      [|by intros s _ (-> & [He _] & ?)].
    apply (traced_pure q (prompt q)). intros [-> He].
    apply (traced_post q (prompt q)) with (Q := fun r own' _ => answer_left run text asked r own');
      [|intros r own' s _ Ha; by rewrite app_nil_r].
    eapply (traced_try_with q (prompt q)); [by apply (answer_append run text asked stored question asking)| |].
    + intros append own2.
      apply (traced_pre q (prompt q)) with (P := fun s => (exists s0 s1, own2 = [(s0, s1)] /\
        match append with
        | Appended => answers_open run text asked s0 s1
        | _ => runs_same s0 s1
        end) /\ seen_run run stored s);
        [|intros s _ (s0 & s1 & -> & Hs & Hr); split; [|done]; exists s0, s1; split; [done|];
          by destruct append].
      apply (traced_pure q (prompt q)). intros (s0 & s1 & -> & Hr).
      assert (append <> Appended -> all_steps runs_same [(s0, s1)]) as Hsame.
      { intros Hne. constructor; [by destruct append|constructor]. }
      destruct append.
      * destruct (app_queue app) as [q'|] eqn:Eqq; [|apply (traced_done q (prompt q)); intros s _ _;
          by apply one_step_now].
        apply Happ in Eqq as ->.
        eapply (traced_bind q (prompt q)); [apply wake_traced; by apply stable_seen, _|].
        intros woken own3. apply (traced_done q (prompt q)). intros s _ [Hw _].
        apply one_step_after; [done|]. by apply one_step_now.
      * apply (traced_done q (prompt q)). intros s _ _. by apply Hsame.
      * apply (traced_done q (prompt q)). intros s _ _. by apply Hsame.
      * eapply (traced_post q (prompt q)); [eapply (traced_pre q (prompt q)); [apply (IH (Some question))|done]|].
        intros r own3 s _ Ha. apply answer_left_before; [|by apply Hsame].
        eapply answer_left_weaken; [|exact Ha]. simpl. by intros ? <-.
    + intros error own2 s _ (s0 & s1 & -> & _ & [Hr|Hr]); simpl.
      * right. by apply one_step_now.
      * left. constructor; [done|constructor].
  - intros error own s _ [_ Ho]. by left.
Qed.

(** C14. An answer lands once, on the question it answers: whatever the other
    processes do meanwhile and whichever call fails, a reply that is accepted
    has taken exactly one step that changed a run, which appended the user's
    trimmed text as the answer to the question the run then had open, which is
    the question the caller named if it named one; when the store failed, at
    most that one step was taken; and a reply refused for any other reason (it
    was empty or too long, the run was missing or not waiting, or waits on
    another question) changed no run. *)
Theorem an_answer_lands_once run text asked (w : Server R X) r w' :
  respectful q (prompt q) w -> Good q (sv_shared w) ->
  answer_question (J := J) app run text asked w = (r, w') ->
  exists own, sv_steps w' = own ++ sv_steps w /\
    match r with
    | Ok _ => one_step runs_same (answers_open run (trim text) asked) own
    | Err (ApiStore _) =>
        all_steps runs_same own \/ one_step runs_same (answers_open run (trim text) asked) own
    | Err _ => all_steps runs_same own
    end.
Proof.
  intros Hr Hg. unfold answer_question. cbv zeta.
  case_bool_decide; [intros [= <- <-]; exists []; split; [done|constructor]|].
  destruct (_ <? _)%nat; [intros [= <- <-]; exists []; split; [done|constructor]|]. intros E.
  destruct (answer_tries_traced ANSWER_TRIES run (trim text) asked w Hr Hg I) as [_ Ht].
  rewrite E in Ht. exact Ht.
Qed.

End Answers.

(** ** Stops *)

Section Stops.
Context `{UuidCrate} `{Clocks} {R X J : Type} `{Redis R} `{!RedisLaws R} `{Memory X}
  `{SandboxHost X} `{GatewayPoster X} `{Authenticator X} `{Rejection J}.
Context (q : RunQueue) (Hq : keys_ok q) (app : App X) (Happ : pushes_to app q).
Implicit Types (o : Owner) (cancelled : list RunId).

Abbreviation any := (fun _ : Shared R => True).
Abbreviation traced := (traced q (prompt q)).














(** The turn of an open run of the principal. *)
Section Turn.
Context (ok : Prop) (o : Owner) (parked : list (RunId * MessageId)) (run : StoredRun).
Context (Hmine : owner_is (owner (sr_spec run)) o = true) (Hopen : has_terminal (sr_events run) = false).

Let id : RunId := run_id (sr_spec run).





End Turn.









End Stops.

(** ** A concrete answer *)

#[local] Existing Instance demo_uuids.
#[local] Existing Instance demo_poster.
#[local] Existing Instance demo_no_memory.
#[local] Existing Instance demo_clocks.

(** The claimed sample run, asking its user. *)
Definition asked_server : Server Db MemorySandbox :=
  (do_append_events (id_of 1)
     (sample_event <$> [RunScheduled; RunProvisioning; RunStarting; RunStarted; UserAsked (id_of 9) "which?"])
     claimed_server).2.

Lemma asked_server_good :
  respectful Queue.open (prompt Queue.open) asked_server /\ Good Queue.open (sv_shared asked_server).
Proof.
  destruct claimed_held_now as (Hr & Hg & Hh).
  assert (keeps Queue.open (prompt Queue.open) claimed_server asked_server) as [Hm Hg'].
  { eapply triple_keeps; [apply _| |exact Hr|exact Hg|exact Hh].
    apply (triple_append Queue.open (prompt Queue.open) (held Queue.open (id_of 1))); [by apply stable_held, _|done|].
    intros s run _ Hheld Ho _. left. by apply (held_in_queue demo_worker _ s run). }
  split; [by eapply (moves_respectful Queue.open (prompt Queue.open))|exact Hg'].
Qed.

Example demo_answer :
  (answer_question (J := unit) (demo_app (Some Queue.open)) (id_of 1) " this " None asked_server).1 = Ok tt /\
  (answer_question (J := unit) (demo_app (Some Queue.open)) (id_of 1) " this " (Some (id_of 8))
     asked_server).1 = Err (ApiConflict "the task is waiting on another question").
Proof. vm_compute. split; reflexivity. Qed.

Lemma an_answer_lands_once_witness :
  exists own, sv_steps (answer_question (J := unit) (demo_app (Some Queue.open)) (id_of 1) " this " None
      asked_server).2 = own ++ sv_steps asked_server /\
    one_step runs_same (answers_open (id_of 1) (trim " this ") None) own.
Proof.
  destruct (answer_question (J := unit) (demo_app (Some Queue.open)) (id_of 1) " this " None
    asked_server) as [r w'] eqn:E.
  assert (r = Ok tt) as Hr.
  { apply (f_equal fst) in E. rewrite (proj1 demo_answer) in E. symmetry. exact E. }
  subst r.
  destruct (an_answer_lands_once (J := unit) Queue.open gol_ok (demo_app (Some Queue.open))
    (fun q' (H : Some Queue.open = Some q') => eq_sym (f_equal (default Queue.open) H)) (id_of 1) " this " None asked_server (Ok tt) w'
    (proj1 asked_server_good) (proj2 asked_server_good) E) as (own & Ho & Hl).
  exists own. exact (conj Ho Hl).
Defined.


