(* ===== verification/Workflow.v ===== *)
(** * Workflow programs ([crates/workflow-core])

    The recorded history of a workflow run ([driver.rs]), the commands a
    workflow issues ([step.rs]), the names of its effects ([id.rs]) and the
    evaluation of a program over a history ([program.rs]), and the state a
    workflow run is in ([harness-core/reduce.rs]).

    [walk] re-reads the whole program on every replay, with a cursor into the
    records.  Its specification is [script], a relation that runs the program
    forwards and knows nothing of cursors; [evaluate_iff_script] relates the
    two on every history, and [workflow_terminates] bounds how many commands a
    program issues. *)

From S2P Require Import Prelude.

(** ** Commands (step.rs) *)

Record ToolSpec : Type := mkToolSpec { ts_name : string; ts_input : string }.
Record AgentSpec : Type := mkAgentSpec { as_agent : string; as_input : string }.

Inductive WorkflowCommand :=
| ExecuteTool (tool : ToolSpec)
| CompleteWorkflow
| FailWorkflow
| SpawnAgent (agent : AgentSpec).

Inductive WaitCondition := NoWait.

Record WorkflowStep : Type := mkWorkflowStep {
  commands : list WorkflowCommand;
  wait : WaitCondition;
}.

#[export] Instance ToolSpec_eq_dec : EqDecision ToolSpec.
Proof. solve_decision. Defined.
#[export] Instance AgentSpec_eq_dec : EqDecision AgentSpec.
Proof. solve_decision. Defined.
#[export] Instance WorkflowCommand_eq_dec : EqDecision WorkflowCommand.
Proof. solve_decision. Defined.
#[export] Instance WaitCondition_eq_dec : EqDecision WaitCondition.
Proof. solve_decision. Defined.

(** ** Histories (driver.rs) *)

(** [Record] and [History], oldest record first. *)
Inductive HistoryRecord :=
| ToolRecord (name output : string)
| AgentSpawned (agent : string).

#[export] Instance HistoryRecord_eq_dec : EqDecision HistoryRecord.
Proof. solve_decision. Defined.

Abbreviation History := (list HistoryRecord).

(** [Record::counter]: the value in decimal. *)
Definition counter_record (value : Z) : HistoryRecord := ToolRecord "counter" (pretty value).

Definition counter_output (record : HistoryRecord) : option string :=
  match record with
  | ToolRecord name output => if bool_decide (name = "counter") then Some output else None
  | AgentSpawned _ => None
  end.

(** [iter().find_map(f)]. *)
Fixpoint find_map {A B} (f : A -> option B) (l : list A) : option B :=
  match l with
  | [] => None
  | x :: l => match f x with Some y => Some y | None => find_map f l end
  end.

(** The output of the last [counter] record. *)
Definition counter_in (records : list HistoryRecord) : option string :=
  find_map counter_output (rev records).

(** [WorkflowDriver::evaluate]: a total function of the history; [None] is a
    panic. *)
Definition WorkflowDriver := History -> option WorkflowStep.

(** ** Effect identifiers (id.rs) *)

Inductive Path := Unrecorded | Zero | Nonzero.

Definition path (counter : option string) : Path :=
  match counter with
  | None => Unrecorded
  | Some output => if bool_decide (output = "0") then Zero else Nonzero
  end.

Record EffectId : Type := mkEffectId {
  ei_workflow : string;
  ei_path : Path;
  ei_sequence : N;
}.

Definition effect_id (workflow : string) (history : History) (sequence : N) : EffectId :=
  mkEffectId workflow (path (counter_in history)) sequence.

(** ** Programs (program.rs) *)

(** [Decision]. *)
#[warnings="-register-all"]
Inductive WorkDecision :=
| DTool (name input : string)
| DSpawnAgent (agent input : string)
| DSeq (decisions : list WorkDecision)
| DComplete
| DFail
| DOnCounter (missing zero other : WorkDecision).

Definition WorkflowProgram := WorkDecision.

Definition counter_program : WorkflowProgram :=
  DOnCounter (DTool "counter" "") DComplete DFail.

Inductive Walk :=
| Next (command : WorkflowCommand)
| Done (cursor : nat).

(** [&records[..cursor]], which panics past the end. *)
Definition slice_to {A} (l : list A) (cursor : nat) : option (list A) :=
  if (cursor <=? length l)%nat then Some (take cursor l) else None.

(** [recorded]: which of the arms the records before the cursor select. *)
Definition recorded {A} (zero other : A) (history : History) (cursor : nat) :
    option (option A) :=
  match slice_to history cursor with
  | None => None
  | Some before =>
      Some match path (counter_in before) with
           | Unrecorded => None
           | Zero => Some zero
           | Nonzero => Some other
           end
  end.

(** [for decision in decisions], for a given walk of one decision. *)
Fixpoint walk_seq (walk1 : WorkDecision -> nat -> option Walk) (decisions : list WorkDecision)
    (cursor : nat) : option Walk :=
  match decisions with
  | [] => Some (Done cursor)
  | decision :: decisions =>
      match walk1 decision cursor with
      | Some (Done next) => walk_seq walk1 decisions next
      | stop => stop
      end
  end.

(** [walk]; [None] is a panic of the slice in [recorded].  The arm [recorded]
    selects is the walk of that arm, waiting for its cursor. *)
Fixpoint walk (decision : WorkDecision) (history : History) (cursor : nat) : option Walk :=
  match decision with
  | DTool name input =>
      match history !! cursor with
      | None => Some (Next (ExecuteTool (mkToolSpec name input)))
      | Some (ToolRecord recorded _) =>
          if bool_decide (recorded = name) then Some (Done (cursor + 1))
          else Some (Next FailWorkflow)
      | Some _ => Some (Next FailWorkflow)
      end
  | DSpawnAgent agent input =>
      match history !! cursor with
      | None => Some (Next (SpawnAgent (mkAgentSpec agent input)))
      | Some (AgentSpawned recorded) =>
          if bool_decide (recorded = agent) then Some (Done (cursor + 1))
          else Some (Next FailWorkflow)
      | Some _ => Some (Next FailWorkflow)
      end
  | DSeq decisions => walk_seq (fun d cursor => walk d history cursor) decisions cursor
  | DComplete => Some (Next CompleteWorkflow)
  | DFail => Some (Next FailWorkflow)
  | DOnCounter missing zero other =>
      let arm_at := recorded (fun cursor => walk zero history cursor)
                      (fun cursor => walk other history cursor) history in
      match arm_at cursor with
      | None => None
      | Some (Some arm) => arm cursor
      | Some None =>
          match walk missing history cursor with
          | Some (Done after) =>
              match arm_at after with
              | None => None
              | Some (Some arm) => arm after
              | Some None => Some (Done after)
              end
          | next => next
          end
      end
  end.

Definition evaluate_program (program : WorkflowProgram) (history : History) :
    option WorkflowStep :=
  match walk program history 0 with
  | None => None
  | Some (Next command) => Some (mkWorkflowStep [command] NoWait)
  | Some (Done _) => Some (mkWorkflowStep [FailWorkflow] NoWait)
  end.

(** [CounterBranch::evaluate]. *)
Definition CounterBranch : WorkflowDriver := evaluate_program counter_program.

Record Handle : Type := mkHandle { h_sequence : N; h_command : WorkflowCommand }.

Definition spawn (sequence : N) (command : WorkflowCommand) : Handle :=
  mkHandle sequence command.

(** [JoinBranch::evaluate]. *)
Definition JoinBranch : WorkflowDriver := fun _ =>
  Some (mkWorkflowStep
    [ExecuteTool (mkToolSpec "counter" ""); ExecuteTool (mkToolSpec "counter" "")] NoWait).

(** ** Workflow runs (harness-core/reduce.rs) *)

Inductive WorkflowRun := WorkflowOpen | WorkflowCompleted | WorkflowFailed | WorkflowInvalid.

(** [transition]; [None] is a panic of the driver. *)
Definition transition (driver : WorkflowDriver) (history : History) :
    option (WorkflowRun * list WorkflowCommand) :=
  match driver history with
  | None => None
  | Some (mkWorkflowStep commands NoWait) =>
      let next :=
        match commands with
        | [] => WorkflowInvalid
        | [(ExecuteTool _ | SpawnAgent _)] => WorkflowOpen
        | [CompleteWorkflow] => WorkflowCompleted
        | [FailWorkflow] => WorkflowFailed
        | joined =>
            if forallb (fun c => match c with ExecuteTool _ => true | _ => false end) joined
            then WorkflowOpen else WorkflowInvalid
        end in
      Some (next, commands)
  end.

(** ** Reading a program forwards *)

(** A tool call or a spawn waits for a record; the other commands end the
    workflow. *)
Definition is_call (c : WorkflowCommand) : bool :=
  match c with
  | ExecuteTool _ | SpawnAgent _ => true
  | CompleteWorkflow | FailWorkflow => false
  end.

(** The record that says a call was carried out. *)
Definition answers (c : WorkflowCommand) (r : HistoryRecord) : bool :=
  match c, r with
  | ExecuteTool tool, ToolRecord name _ => bool_decide (name = ts_name tool)
  | SpawnAgent spec, AgentSpawned agent => bool_decide (agent = as_agent spec)
  | _, _ => false
  end.

(** The call of a decision that is one. *)
Definition call_of (d : WorkDecision) : option WorkflowCommand :=
  match d with
  | DTool name input => Some (ExecuteTool (mkToolSpec name input))
  | DSpawnAgent agent input => Some (SpawnAgent (mkAgentSpec agent input))
  | _ => None
  end.

(** The arm a recorded counter selects. *)
Definition arm_of {A} (zero other : A) (counter : option string) : option A :=
  match path counter with
  | Unrecorded => None
  | Zero => Some zero
  | Nonzero => Some other
  end.

Inductive said := Finished | Issues (c : WorkflowCommand).

(** [script d before own s]: decision [d], reached when [before] is recorded,
    has had its calls answered by [own], and now says [s]. *)
Inductive script : WorkDecision -> History -> History -> said -> Prop :=
| script_call d c before :
    call_of d = Some c -> script d before [] (Issues c)
| script_answered d c before r :
    call_of d = Some c -> answers c r = true -> script d before [r] Finished
| script_complete before : script DComplete before [] (Issues CompleteWorkflow)
| script_fail before : script DFail before [] (Issues FailWorkflow)
| script_nil before : script (DSeq []) before [] Finished
| script_stop d ds before own c :
    script d before own (Issues c) -> script (DSeq (d :: ds)) before own (Issues c)
| script_next d ds before own own' s :
    script d before own Finished ->
    script (DSeq ds) (before ++ own) own' s ->
    script (DSeq (d :: ds)) before (own ++ own') s
| script_arm missing zero other arm before own s :
    arm_of zero other (counter_in before) = Some arm ->
    script arm before own s ->
    script (DOnCounter missing zero other) before own s
| script_missing missing zero other before own c :
    counter_in before = None ->
    script missing before own (Issues c) ->
    script (DOnCounter missing zero other) before own (Issues c)
| script_uncounted missing zero other before own :
    counter_in before = None ->
    script missing before own Finished ->
    counter_in (before ++ own) = None ->
    script (DOnCounter missing zero other) before own Finished
| script_counted missing zero other arm before own own' s :
    counter_in before = None ->
    script missing before own Finished ->
    arm_of zero other (counter_in (before ++ own)) = Some arm ->
    script arm (before ++ own) own' s ->
    script (DOnCounter missing zero other) before (own ++ own') s.

(** What a replay does with command [c] when [rest] is recorded after it: an
    unanswered call is issued, a call whose record is another's is a failure,
    an answered call is past; an end is issued whatever is recorded. *)
Definition due (c : WorkflowCommand) (rest : History) : option WorkflowCommand :=
  if is_call c then
    match rest with
    | [] => Some c
    | r :: _ => if answers c r then None else Some FailWorkflow
    end
  else Some c.

(** The most calls a program has answered. *)
Fixpoint calls (d : WorkDecision) : nat :=
  match d with
  | DTool _ _ | DSpawnAgent _ _ => 1
  | DSeq ds => list_sum (map calls ds)
  | DComplete | DFail => 0
  | DOnCounter missing zero other => calls missing + Nat.max (calls zero) (calls other)
  end.

(** Driving a program to its end: evaluate, have the environment [env] answer
    the call, record the answer, and again. *)
Fixpoint drive (fuel : nat) (program : WorkflowProgram)
    (env : WorkflowCommand -> History -> HistoryRecord) (history : History) :
    option (WorkflowCommand * History) :=
  match fuel with
  | O => None
  | S fuel =>
      match evaluate_program program history with
      | Some (mkWorkflowStep [c] NoWait) =>
          if is_call c then drive fuel program env (history ++ [env c history])
          else Some (c, history)
      | _ => None
      end
  end.

(** ** Lemmas *)

Lemma WorkDecision_nested_ind (P : WorkDecision -> Prop) :
  (forall name input, P (DTool name input)) ->
  (forall agent input, P (DSpawnAgent agent input)) ->
  (forall ds, Forall P ds -> P (DSeq ds)) ->
  P DComplete -> P DFail ->
  (forall missing zero other, P missing -> P zero -> P other -> P (DOnCounter missing zero other)) ->
  forall d, P d.
Proof.
  intros Ht Ha Hs Hc Hf Ho. fix IH 1. intros [n i|a i|ds| | |m z o].
  - apply Ht.
  - apply Ha.
  - apply Hs. induction ds as [|d ds IHds]; constructor; [apply IH|apply IHds].
  - apply Hc.
  - apply Hf.
  - apply Ho; apply IH.
Qed.

Lemma slice_to_app {A} (before rest : list A) :
  slice_to (before ++ rest) (length before) = Some before.
Proof.
  unfold slice_to. rewrite length_app, take_app_length.
  destruct (Nat.leb_spec (length before) (length before + length rest)); [done|lia].
Qed.

Lemma recorded_app {A} (zero other : A) before rest :
  recorded zero other (before ++ rest) (length before) =
  Some (arm_of zero other (counter_in before)).
Proof. unfold recorded. by rewrite slice_to_app. Qed.

Lemma arm_of_fmap {A B} (f : A -> B) zero other counter :
  arm_of (f zero) (f other) counter = f <$> arm_of zero other counter.
Proof. unfold arm_of. by destruct (path counter). Qed.

Lemma arm_of_None {A} (zero other : A) counter :
  arm_of zero other counter = None <-> counter = None.
Proof. unfold arm_of, path. destruct counter; [case_bool_decide|]; done. Qed.

(** [walk] on [OnCounter], the arms read off the records. *)
Lemma walk_on_counter missing zero other history cursor :
  walk (DOnCounter missing zero other) history cursor =
  match recorded (walk zero history) (walk other history) history cursor with
  | None => None
  | Some (Some arm) => arm cursor
  | Some None =>
      match walk missing history cursor with
      | Some (Done after) =>
          match recorded (walk zero history) (walk other history) history after with
          | None => None
          | Some (Some arm) => arm after
          | Some None => Some (Done after)
          end
      | next => next
      end
  end.
Proof. done. Qed.

Lemma walk_call d c before rest :
  call_of d = Some c ->
  walk d (before ++ rest) (length before) =
  Some match rest with
       | [] => Next c
       | r :: _ => if answers c r then Done (length before + 1) else Next FailWorkflow
       end.
Proof.
  intros Hc. assert ((before ++ rest) !! length before = rest !! 0) as Hat.
  { by rewrite lookup_app_r, Nat.sub_diag by lia. }
  destruct d; simplify_eq/=; rewrite Hat; destruct rest as [|[] rest]; simpl; try done;
    by case_bool_decide.
Qed.

(** A call of the script is at its first record or before it. *)
Lemma due_call c rest c' :
  is_call c' = true -> due c rest = Some c' -> c = c' /\ rest = [].
Proof.
  unfold due. intros Hc'. destruct (is_call c) eqn:E.
  - destruct rest as [|r rest]; [by intros [= ->]|]. destruct (answers c r); [done|].
    intros [= <-]. done.
  - intros [= ->]. congruence.
Qed.

(** What a walk over [before ++ rest] from the end of [before] may return. *)
Definition walk_ok (d : WorkDecision) (before rest : History) (w : option Walk) : Prop :=
  match w with
  | None => False
  | Some (Done n) => exists own rest',
      rest = own ++ rest' /\ n = length (before ++ own) /\ script d before own Finished
  | Some (Next c) => exists own rest' c',
      rest = own ++ rest' /\ script d before own (Issues c') /\ due c' rest' = Some c
  end.

Lemma walk_call_ok d c before rest :
  call_of d = Some c -> walk_ok d before rest (walk d (before ++ rest) (length before)).
Proof.
  intros Hc. rewrite (walk_call _ _ _ _ Hc).
  assert (is_call c = true) as Hcall by (by destruct d; simplify_eq/=).
  destruct rest as [|r rest]; [|destruct (answers c r) eqn:E]; simpl.
  - exists [], [], c. unfold due. rewrite Hcall. eauto using script_call.
  - exists [r], rest. rewrite length_app. eauto using script_answered.
  - exists [], (r :: rest), c. unfold due. rewrite Hcall, E. eauto using script_call.
Qed.

(** A walk continued after [own]: the specification of the rest is that of
    the whole. *)
Lemma walk_ok_after d d' before own rest w :
  (forall own' s, script d' (before ++ own) own' s -> script d before (own ++ own') s) ->
  walk_ok d' (before ++ own) rest w -> walk_ok d before (own ++ rest) w.
Proof.
  intros Hs. destruct w as [[c|n]|]; simpl; [| |done].
  - intros (own' & rest' & c' & -> & H & Hdue). exists (own ++ own'), rest', c'.
    rewrite <-app_assoc. eauto.
  - intros (own' & rest' & -> & -> & H). exists (own ++ own'), rest'.
    rewrite <-!app_assoc. eauto.
Qed.

Lemma walk_seq_ok ds before rest :
  Forall (fun d => forall before rest,
    walk_ok d before rest (walk d (before ++ rest) (length before))) ds ->
  walk_ok (DSeq ds) before rest (walk (DSeq ds) (before ++ rest) (length before)).
Proof.
  intros Hds. revert before rest. induction Hds as [|d ds Hd _ IH]; intros before rest.
  { simpl. exists [], rest. rewrite app_nil_r. eauto using script_nil. }
  specialize (Hd before rest). simpl.
  destruct (walk d (before ++ rest) (length before)) as [[c|n]|]; simpl in *; [| |done].
  - destruct Hd as (own & rest' & c' & -> & H & Hdue). eauto 10 using script_stop.
  - destruct Hd as (own & rest' & -> & -> & H). rewrite app_assoc.
    eapply walk_ok_after; [intros own' s; by apply script_next|]. apply IH.
Qed.

Lemma arm_ok missing zero other arm before rest :
  (forall before rest, walk_ok zero before rest (walk zero (before ++ rest) (length before))) ->
  (forall before rest, walk_ok other before rest (walk other (before ++ rest) (length before))) ->
  arm_of zero other (counter_in before) = Some arm ->
  walk_ok (DOnCounter missing zero other) before rest (walk arm (before ++ rest) (length before)).
Proof.
  intros Hz Ho Harm. change rest with ([] ++ rest) at 1.
  eapply (walk_ok_after _ arm).
  - intros own' s. rewrite app_nil_r. by apply script_arm.
  - rewrite app_nil_r. unfold arm_of in Harm. destruct (path _); simplify_eq; auto.
Qed.

(** A walk from the end of a prefix never panics, and does what the script
    says. *)
Lemma walk_script d before rest :
  walk_ok d before rest (walk d (before ++ rest) (length before)).
Proof.
  revert before rest.
  induction d as [name input|agent input|ds IH| | |missing zero other IHm IHz IHo]
    using WorkDecision_nested_ind; intros before rest.
  - by eapply walk_call_ok.
  - by eapply walk_call_ok.
  - by apply walk_seq_ok.
  - exists [], rest, CompleteWorkflow. eauto using script_complete.
  - exists [], rest, FailWorkflow. eauto using script_fail.
  - rewrite walk_on_counter, recorded_app, (arm_of_fmap (fun d => walk d (before ++ rest))).
    destruct (arm_of zero other (counter_in before)) as [arm|] eqn:Harm; simpl.
    { by apply arm_ok. }
    apply arm_of_None in Harm. specialize (IHm before rest).
    destruct (walk missing _ _) as [[c|n]|]; simpl in IHm; [| |done].
    + destruct IHm as (own & rest' & c' & -> & H & Hdue). simpl. eauto 10 using script_missing.
    + destruct IHm as (own & rest' & -> & -> & H).
      rewrite app_assoc, recorded_app, (arm_of_fmap (fun d => walk d ((before ++ own) ++ rest'))).
      destruct (arm_of zero other (counter_in (before ++ own))) as [arm|] eqn:Harm'; simpl.
      * eapply (walk_ok_after _ arm).
        -- intros own' s. by apply script_counted.
        -- unfold arm_of in Harm'. destruct (path _); simplify_eq; auto.
      * apply arm_of_None in Harm'. exists own, rest'. eauto using script_uncounted.
Qed.

(** The walk the script asks for, with [rest] recorded after its own
    records. *)
Definition said_walk (before own rest : History) (s : said) (w : option Walk) : Prop :=
  match s with
  | Finished => w = Some (Done (length (before ++ own)))
  | Issues c => forall c', due c rest = Some c' -> w = Some (Next c')
  end.

Lemma said_walk_app before own own' rest s w :
  said_walk (before ++ own) own' rest s w -> said_walk before (own ++ own') rest s w.
Proof. destruct s; simpl; [|done]. by rewrite <-!app_assoc. Qed.

Lemma script_walk d before own s :
  script d before own s ->
  forall rest, said_walk before own rest s (walk d (before ++ own ++ rest) (length before)).
Proof.
  induction 1 as [d c before Hc|d c before r Hc Hr|before|before|before
    |d ds before own c _ IH|d ds before own own' s _ IH1 _ IH2
    |missing zero other arm before own s Harm _ IH
    |missing zero other before own c Hnone _ IH
    |missing zero other before own Hnone _ IH Hnone'
    |missing zero other arm before own own' s Hnone _ IH1 Harm _ IH2]; intros rest.
  - simpl. intros c'. rewrite (walk_call _ _ _ _ Hc). unfold due.
    assert (is_call c = true) as -> by (by destruct d; simplify_eq/=).
    destruct rest as [|r rest]; [by intros [= ->]|]. destruct (answers c r); [done|].
    by intros [= ->].
  - simpl. rewrite (walk_call _ _ _ _ Hc). simpl. by rewrite Hr, length_app.
  - by intros c' [= <-].
  - by intros c' [= <-].
  - simpl. by rewrite app_nil_r.
  - intros c' Hdue. simpl. by rewrite (IH rest c' Hdue).
  - apply said_walk_app. specialize (IH1 (own' ++ rest)). specialize (IH2 rest).
    simpl in IH1. simpl. rewrite <-!app_assoc in *. rewrite IH1. exact IH2.
  - rewrite walk_on_counter, recorded_app, (arm_of_fmap (fun d => walk d _)), Harm. apply IH.
  - intros c' Hdue. rewrite walk_on_counter, recorded_app.
    rewrite (proj2 (arm_of_None _ _ _) Hnone), (IH rest c' Hdue). done.
  - specialize (IH rest). unfold said_walk in *. rewrite walk_on_counter, recorded_app.
    rewrite (proj2 (arm_of_None _ _ _) Hnone), IH.
    by rewrite app_assoc, recorded_app, (proj2 (arm_of_None _ _ _) Hnone').
  - apply said_walk_app. specialize (IH1 (own' ++ rest)). simpl in IH1.
    rewrite <-app_assoc, walk_on_counter, recorded_app, (proj2 (arm_of_None _ _ _) Hnone), IH1.
    rewrite app_assoc, recorded_app, (arm_of_fmap (fun d => walk d _)), Harm. apply IH2.
Qed.

(** A script answers at most [calls] calls, and fewer while one is open. *)
Lemma script_bounded d before own s :
  script d before own s ->
  (length own + match s with Issues c => if is_call c then 1 else 0 | Finished => 0 end
   <= calls d)%nat.
Proof.
  assert (forall zero other counter arm, arm_of zero other counter = Some arm ->
    calls arm <= Nat.max (calls zero) (calls other)) as Harms.
  { intros zero other counter arm. unfold arm_of. destruct (path counter); intros [= <-]; lia. }
  induction 1; simpl in *; rewrite ?length_app; repeat match goal with
    | H : arm_of _ _ _ = Some _ |- _ => apply Harms in H
    | H : call_of ?d = Some _ |- _ => destruct d; simplify_eq/=
    end; simpl in *; lia.
Qed.

(** ** Claims *)

(** C38. On every history, replaying a workflow program issues exactly what
    reading the program forwards over the recorded answers prescribes: it
    never panics, issues one command, and that command is [c] just when the
    program, its calls answered by a prefix of the history, either stands at a
    command that is due as [c] with the rest of the records (an unanswered
    call is issued, a record that is not the call's is a failure, an end is
    issued), or has run out without completing, and [c] is a failure. *)
Theorem evaluate_iff_script program history :
  (exists c, evaluate_program program history = Some (mkWorkflowStep [c] NoWait)) /\
  forall c,
    evaluate_program program history = Some (mkWorkflowStep [c] NoWait) <->
    exists own rest, history = own ++ rest /\
      ((exists c', script program [] own (Issues c') /\ due c' rest = Some c) \/
       (script program [] own Finished /\ c = FailWorkflow)).
Proof.
  pose proof (walk_script program [] history) as Hok. unfold evaluate_program. simpl in Hok.
  split.
  { destruct (walk program history 0) as [[]|]; [eauto|eauto|done]. }
  intros c. split.
  - destruct (walk program history 0) as [[c'|n]|]; simpl in Hok; [| |done]; intros [= <-].
    + destruct Hok as (own & rest & d & -> & H & Hdue). eauto 8.
    + destruct Hok as (own & rest & -> & _ & H). eauto 8.
  - intros (own & rest & -> & [(c' & H & Hdue)|[H ->]]);
      pose proof (script_walk _ _ _ _ H rest) as Hw; simpl in Hw.
    + by rewrite (Hw c Hdue).
    + by rewrite Hw.
Qed.

(** Helper: a command that is due as a call leaves no record after it. *)
Lemma evaluate_call program history c :
  is_call c = true ->
  walk program history 0 = Some (Next c) -> script program [] history (Issues c).
Proof.
  intros Hc Hw. pose proof (walk_script program [] history) as Hok. simpl in Hok.
  rewrite Hw in Hok. destruct Hok as (own & rest & c' & -> & H & Hdue).
  apply due_call in Hdue as [-> ->]; [|done]. by rewrite app_nil_r.
Qed.

Lemma drive_ends fuel program env history :
  (length history <= calls program)%nat ->
  (calls program < length history + fuel)%nat ->
  exists c history', drive fuel program env history = Some (c, history') /\
    is_call c = false /\ (length history' <= calls program)%nat /\ history `prefix_of` history'.
Proof.
  revert history; induction fuel as [|fuel IH]; intros history Hle Hlt; [lia|].
  simpl. unfold evaluate_program. pose proof (walk_script program [] history) as Hok. simpl in Hok.
  destruct (walk program history 0) as [[c|n]|] eqn:Hw; [| |done].
  - destruct (is_call c) eqn:Hc; [|by eexists _, _].
    pose proof (script_bounded _ _ _ _ (evaluate_call _ _ _ Hc Hw)) as Hb. simpl in Hb.
    rewrite Hc in Hb.
    destruct (IH (history ++ [env c history])) as (c' & h' & Hd & He & Hl & Hp).
    + rewrite length_app; simpl; lia.
    + rewrite length_app; simpl; lia.
    + exists c', h'. split_and!; auto. by eapply prefix_app_l.
  - simpl. by eexists _, _.
Qed.

(** The state a workflow run is in is that of the command it stands at: a
    program's run is never [Invalid], and it is open just while a call is
    outstanding. *)
Lemma transition_program program history :
  exists c, transition (evaluate_program program) history =
    Some (match c with
          | ExecuteTool _ | SpawnAgent _ => WorkflowOpen
          | CompleteWorkflow => WorkflowCompleted
          | FailWorkflow => WorkflowFailed
          end, [c]).
Proof.
  unfold transition, evaluate_program.
  pose proof (walk_script program [] history) as Hok. simpl in Hok.
  destruct (walk program history 0) as [[c|n]|]; [|by exists FailWorkflow|done].
  exists c. by destruct c.
Qed.

(** Every workflow program terminates: whatever the environment records
    for the calls it is given, a program is evaluated at most once more than
    the number of calls on its longest path before it issues [Complete] or
    [Fail], and it records at most that many results. *)
Theorem workflow_terminates program env :
  exists c history,
    drive (S (calls program)) program env [] = Some (c, history) /\
    (c = CompleteWorkflow \/ c = FailWorkflow) /\
    (length history <= calls program)%nat.
Proof.
  destruct (drive_ends (S (calls program)) program env []) as (c & h & Hd & Hc & Hl & _);
    simpl; [lia|lia|].
  exists c, h. split_and!; auto. destruct c; simplify_eq/=; auto.
Qed.

(** A counter that reads zero completes the counter program, whatever else it
    reads fails it. *)
Example counter_branch_runs :
  drive 2 counter_program (fun _ _ => counter_record 0) [] =
    Some (CompleteWorkflow, [counter_record 0]) /\
  drive 2 counter_program (fun _ _ => counter_record (-3)) [] =
    Some (FailWorkflow, [counter_record (-3)]).
Proof. vm_compute. done. Qed.
