(* ===== verification/Bend.v ===== *)
(** * The line of a Bend workflow ([workflow-bend/lib.rs])

    Bend prints a program as one line of tokens in postfix, which
    [parse_encoding] reads back over a stack.  [encode_line] is the printer the
    source keeps as its reference.  [parse_encoding_iff] says that the parser
    accepts exactly the lines of programs within its limits, and gives back
    the program printed; so a line has one reading and a program one line. *)

From S2P Require Import Prelude Text Uuids Workflow.

Inductive FrontendError :=
| FeSetup (message : string)
| FeVersion (message : string)
| FeProof (message : string)
| FeEncoding (message : string)
| FeTimeout
| FeOutputLimit.

Definition MAX_TOKENS : nat := 2048.
Definition MAX_NAME_BYTES : nat := 128.
Definition MAX_INPUT_BYTES : nat := (64 * 1024)%nat.

(** ** The parser *)

(** A value on the stack: a decision, or the items of a sequence still being
    built. *)
Inductive Item := IDecision (d : WorkDecision) | IItems (items : list WorkDecision).

Definition into_decision (item : Item) : WorkDecision :=
  match item with IDecision d => d | IItems items => DSeq items end.

Definition encoding (message : string) : FrontendError := FeEncoding message.

Definition pop_decision (stack : list Item) (token : string) : result (WorkDecision * list Item) FrontendError :=
  match stack with
  | item :: stack => Ok (into_decision item, stack)
  | [] => Err (FeEncoding (token +:+ " is missing a decision"))
  end.

Definition digit (b : byte) : option N :=
  if between 48 57 b then Some (code b - 48)%N
  else if between 97 102 b then Some (code b - 97 + 10)%N
  else None.

(** The bytes of pairs of digits. *)
Fixpoint hex_chunks (hex : list byte) : option (list byte) :=
  match hex with
  | high :: low :: rest =>
      h ← digit high; l ← digit low; bytes ← hex_chunks rest;
      Some (Ascii.ascii_of_N (N.lor (N.shiftl h 4 mod 256) l) :: bytes)
  | _ => Some []
  end.

Definition unhex (hex : list byte) : result string FrontendError :=
  if negb (Nat.even (length hex)) then Err (encoding "hex text must have an even length")
  else
    match hex_chunks hex with
    | None => Err (encoding "hex text must be lowercase hex digits")
    | Some bytes =>
        if utf8 bytes then Ok (bytes_string bytes) else Err (encoding "hex text must be UTF-8")
    end.

Definition dot : byte := Ascii.ascii_of_N 46.
Definition space : byte := Ascii.ascii_of_N 32.
Definition quote : byte := Ascii.ascii_of_N 34.
Definition backslash : byte := Ascii.ascii_of_N 92.

(** [split_once]. *)
Fixpoint split_once (sep : byte) (bytes : list byte) : option (list byte * list byte) :=
  match bytes with
  | [] => None
  | b :: rest =>
      if bool_decide (b = sep) then Some ([], rest)
      else '(before, after) ← split_once sep rest; Some (b :: before, after)
  end.

Definition texts_of (texts : list byte) : result (string * string) FrontendError :=
  match split_once dot texts with
  | None => Err (encoding "a tool or spawn token needs a name and an input")
  | Some (name, input) =>
      match unhex name with
      | Err error => Err error
      | Ok name =>
          match unhex input with
          | Err error => Err error
          | Ok input =>
              if bool_decide (name = "") || (MAX_NAME_BYTES <? String.length name)%nat ||
                 (MAX_INPUT_BYTES <? String.length input)%nat
              then Err (encoding "a tool or spawn name or input is out of bounds")
              else Ok (name, input)
          end
      end
  end.

(** One token: the item it pushes, and the stack it leaves below. *)
Definition parse_token (token : list byte) (stack : list Item) : result (Item * list Item) FrontendError :=
  if bool_decide (token = string_bytes "complete") then Ok (IDecision DComplete, stack)
  else if bool_decide (token = string_bytes "fail") then Ok (IDecision DFail, stack)
  else if bool_decide (token = string_bytes "end") then Ok (IItems [], stack)
  else if bool_decide (token = string_bytes "seq") then
    match stack with
    | IItems items :: stack =>
        match pop_decision stack "seq" with
        | Ok (head, stack) => Ok (IItems (head :: items), stack)
        | Err error => Err error
        end
    | _ => Err (encoding "seq must follow a sequence")
    end
  else if bool_decide (token = string_bytes "on_counter") then
    match pop_decision stack "on_counter" with
    | Err error => Err error
    | Ok (other, stack) =>
        match pop_decision stack "on_counter" with
        | Err error => Err error
        | Ok (zero, stack) =>
            match pop_decision stack "on_counter" with
            | Err error => Err error
            | Ok (missing, stack) => Ok (IDecision (DOnCounter missing zero other), stack)
            end
        end
    end
  else
    match strip_prefix (string_bytes "tool.") token with
    | Some texts =>
        match texts_of texts with
        | Ok (name, input) => Ok (IDecision (DTool name input), stack)
        | Err error => Err error
        end
    | None =>
        match strip_prefix (string_bytes "spawn.") token with
        | Some texts =>
            match texts_of texts with
            | Ok (agent, input) => Ok (IDecision (DSpawnAgent agent input), stack)
            | Err error => Err error
            end
        | None => Err (FeEncoding ("unknown token " +:+ bytes_string token))
        end
    end.

Fixpoint parse_tokens (count : nat) (tokens : list (list byte)) (stack : list Item)
    : result (list Item) FrontendError :=
  match tokens with
  | [] => Ok stack
  | token :: tokens =>
      if (MAX_TOKENS <=? count)%nat then Err (encoding "bend encoding has too many tokens")
      else
        match parse_token token stack with
        | Ok (item, stack) => parse_tokens (S count) tokens (item :: stack)
        | Err error => Err error
        end
  end.

(** [strip_suffix] of a byte. *)
Definition strip_last (b : byte) (bytes : list byte) : option (list byte) :=
  match rev bytes with
  | b' :: rest => if bool_decide (b' = b) then Some (rev rest) else None
  | [] => None
  end.

Definition parse_encoding (stdout : string) : result WorkflowProgram FrontendError :=
  match strip_last newline (string_bytes stdout) with
  | None => Err (encoding "bend encoding is missing its trailing newline")
  | Some line =>
      if bool_decide (newline ∈ line) then Err (encoding "bend encoding must be one line")
      else
        match text ← strip_prefix [quote] line; strip_last quote text with
        | None => Err (encoding "bend encoding must be a quoted token line")
        | Some inner =>
            if negb (forallb (fun b => is_ascii_graphic b || bool_decide (b = space)) inner) ||
               existsb (fun b => bool_decide (b = backslash) || bool_decide (b = quote)) inner
            then Err (encoding "bend encoding has an unsupported character")
            else
              match split_bytes space inner with
              | first :: tokens =>
                  if negb (bool_decide (first = string_bytes "v2")) then
                    Err (encoding "expected a v2 token line")
                  else
                    match parse_tokens 0 tokens [] with
                    | Err error => Err error
                    | Ok [root] => Ok (into_decision root)
                    | Ok _ => Err (encoding "bend encoding must leave exactly one program")
                    end
              | [] => Err (encoding "expected a v2 token line")
              end
        end
  end.

(** [BendDriver]: the loaded program, evaluated as any other. *)
Definition BendDriver (program : WorkflowProgram) : WorkflowDriver := evaluate_program program.

(** ** The printer the source tests the parser against *)

(** [{byte:02x}] of each byte. *)
Definition hex (text : string) : list byte :=
  flat_map (fun b => [Uuids.hex_digit (code b / 16); Uuids.hex_digit (code b mod 16)]) (string_bytes text).

Definition call_token (kind : string) (name input : string) : list byte :=
  string_bytes kind ++ dot :: hex name ++ dot :: hex input.

Fixpoint decision_tokens (d : WorkDecision) : list (list byte) :=
  match d with
  | DTool name input => [call_token "tool" name input]
  | DSpawnAgent agent input => [call_token "spawn" agent input]
  | DComplete => [string_bytes "complete"]
  | DFail => [string_bytes "fail"]
  | DOnCounter missing zero other =>
      decision_tokens missing ++ decision_tokens zero ++ decision_tokens other ++ [string_bytes "on_counter"]
  | DSeq decisions =>
      (fix sequence (decisions : list WorkDecision) : list (list byte) :=
         match decisions with
         | [] => [string_bytes "end"]
         | head :: rest => decision_tokens head ++ sequence rest ++ [string_bytes "seq"]
         end) decisions
  end.

Definition encode_line (program : WorkflowProgram) : string :=
  bytes_string ([quote] ++ join_bytes space (string_bytes "v2" :: decision_tokens program) ++ [quote; newline]).

(** ** Texts *)

Lemma digit_unhex b : digit b = Uuids.unhex_digit b.
Proof. by destruct b as [[] [] [] [] [] [] [] []]. Qed.

Lemma digit_iff b d : digit b = Some d <-> (d < 16)%N /\ b = Uuids.hex_digit d.
Proof.
  rewrite digit_unhex. split; [|intros [Hd ->]; by apply unhex_hex_digit].
  destruct b as [[] [] [] [] [] [] [] []]; vm_compute; intros [= <-]; by split.
Qed.

Lemma code_256 b : (code b < 256)%N.
Proof. by destruct b as [[] [] [] [] [] [] [] []]. Qed.

(** The byte of two digits, and its digits. *)
Lemma pair_byte b : Ascii.ascii_of_N (N.lor (N.shiftl (code b / 16) 4 mod 256) (code b mod 16)) = b.
Proof. by destruct b as [[] [] [] [] [] [] [] []]. Qed.

Lemma byte_pair h l : (h < 16)%N -> (l < 16)%N ->
  let b := Ascii.ascii_of_N (N.lor (N.shiftl h 4 mod 256) l) in (code b / 16 = h /\ code b mod 16 = l)%N.
Proof.
  intros Hh Hl. assert (forall n, (n < 16)%N -> n ∈ N.of_nat <$> seq 0 16) as Hin.
  { intros n Hn. apply list_elem_of_fmap. exists (N.to_nat n). split; [by rewrite N2Nat.id|].
    apply elem_of_seq. lia. }
  apply Hin in Hh, Hl. clear Hin. revert l Hl. simpl in Hh.
  repeat (apply elem_of_cons in Hh as [->|Hh];
    [intros l Hl; simpl in Hl; repeat (apply elem_of_cons in Hl as [->|Hl]; [by vm_compute|]);
     by apply not_elem_of_nil in Hl|]).
  by apply not_elem_of_nil in Hh.
Qed.

Lemma hex_chunks_hex bytes rest :
  hex_chunks (hex (bytes_string bytes) ++ rest) = (fun tail => bytes ++ tail) <$> hex_chunks rest.
Proof.
  unfold hex. rewrite string_bytes_string. induction bytes as [|b bytes IH]; simpl; [by destruct (hex_chunks rest)|].
  assert (digit (Uuids.hex_digit (code b / 16)) = Some (code b / 16)%N) as ->.
  { apply digit_iff. split; [|done]. apply N.Div0.div_lt_upper_bound, code_256. }
  assert (digit (Uuids.hex_digit (code b mod 16)) = Some (code b mod 16)%N) as ->.
  { apply digit_iff. split; [by apply N.mod_upper_bound|done]. }
  simpl. rewrite IH. destruct (hex_chunks rest); simpl; [|done]. by rewrite pair_byte.
Qed.

Lemma hex_chunks_Some n h bytes : length h = (2 * n)%nat -> hex_chunks h = Some bytes ->
  h = hex (bytes_string bytes).
Proof.
  unfold hex. rewrite string_bytes_string. revert h bytes. induction n as [|n IH]; intros h bytes Hl.
  { destruct h; [|done]. by intros [= <-]. }
  destruct h as [|high [|low rest]]; [done|simpl in Hl; lia|]. simpl.
  destruct (digit high) as [x|] eqn:Eh; [|done]. destruct (digit low) as [y|] eqn:El; [|done].
  apply digit_iff in Eh as [Hx ->], El as [Hy ->]. simpl.
  destruct (hex_chunks rest) as [bs|] eqn:Er; [|done]. intros [= <-]. simpl.
  destruct (byte_pair x y Hx Hy) as [E1 E2]. rewrite E1, E2.
  by rewrite <-(IH rest bs ltac:(simpl in Hl; lia) Er).
Qed.

Lemma even_hex text : Nat.even (length (hex text)) = true.
Proof. unfold hex. by induction (string_bytes text). Qed.

Lemma unhex_iff h text : unhex h = Ok text <-> h = hex text /\ utf8 (string_bytes text) = true.
Proof.
  unfold unhex. split.
  - destruct (Nat.even (length h)) eqn:E; [|done]. simpl. destruct (hex_chunks h) as [bytes|] eqn:Eh; [|done].
    destruct (utf8 bytes) eqn:Eu; [|done]. intros [= <-]. rewrite string_bytes_string. split; [|done].
    apply Nat.even_spec in E as [n En]. by apply (hex_chunks_Some n).
  - intros [-> Hu]. rewrite even_hex. simpl. pose proof (hex_chunks_hex (string_bytes text) []) as Hc.
    rewrite bytes_string_bytes, app_nil_r in Hc. rewrite Hc. simpl. rewrite app_nil_r, Hu. by rewrite bytes_string_bytes.
Qed.

(** A byte of a token: visible, and none of the marks of the line. *)
Definition plain (b : byte) : bool :=
  is_ascii_graphic b && negb (bool_decide (b = backslash)) && negb (bool_decide (b = quote)).

Lemma hex_byte text b : b ∈ hex text -> plain b = true /\ b <> dot.
Proof.
  unfold hex. intros Hb. apply list_elem_of_In, in_flat_map in Hb as (c & _ & Hb).
  assert (exists d, (d < 16)%N /\ b = Uuids.hex_digit d) as (d & Hd & ->).
  { destruct Hb as [<-|[<-|[]]]; eexists; (split; [|reflexivity]);
      [apply N.Div0.div_lt_upper_bound, code_256|by apply N.mod_upper_bound]. }
  assert (d ∈ N.of_nat <$> seq 0 16) as Hin.
  { apply list_elem_of_fmap. exists (N.to_nat d). split; [by rewrite N2Nat.id|]. apply elem_of_seq. lia. }
  simpl in Hin. repeat (apply elem_of_cons in Hin as [->|Hin]; [by vm_compute|]). by apply not_elem_of_nil in Hin.
Qed.

Lemma split_once_Some sep bytes before after :
  split_once sep bytes = Some (before, after) -> bytes = before ++ sep :: after.
Proof.
  revert before. induction bytes as [|b bytes IH]; intros before; simpl; [done|].
  case_bool_decide as Hb; [by intros [= <- <-]; subst b|].
  destruct (split_once sep bytes) as [[x y]|]; simpl; [|done]. intros [= <- <-]. by rewrite (IH x).
Qed.

Lemma split_once_app sep before after : sep ∉ before -> split_once sep (before ++ sep :: after) = Some (before, after).
Proof.
  induction before as [|b before IH]; simpl; intros Hn; [by rewrite bool_decide_eq_true_2|].
  apply not_elem_of_cons in Hn as [Hb Hn]. rewrite bool_decide_eq_false_2 by congruence. by rewrite IH.
Qed.

(** A name and an input the parser takes. *)
Definition text_bounds (name input : string) : bool :=
  negb (bool_decide (name = "")) && (String.length name <=? MAX_NAME_BYTES)%nat &&
  (String.length input <=? MAX_INPUT_BYTES)%nat &&
  utf8 (string_bytes name) && utf8 (string_bytes input).

Lemma texts_of_iff texts name input :
  texts_of texts = Ok (name, input) <->
  texts = hex name ++ dot :: hex input /\ text_bounds name input = true.
Proof.
  unfold texts_of, text_bounds. split.
  - destruct (split_once dot texts) as [[n i]|] eqn:Es; [|done]. apply split_once_Some in Es as ->.
    destruct (unhex n) as [name'|] eqn:En; [|done]. destruct (unhex i) as [input'|] eqn:Ei; [|done].
    apply unhex_iff in En as [-> Hn], Ei as [-> Hi].
    destruct (bool_decide (name' = "")) eqn:E1; [done|].
    destruct (Nat.ltb_spec MAX_NAME_BYTES (String.length name')); [done|].
    destruct (Nat.ltb_spec MAX_INPUT_BYTES (String.length input')); [done|]. simpl. intros [= <- <-].
    split; [done|]. rewrite E1, Hn, Hi. simpl. rewrite !andb_true_iff, !Nat.leb_le. auto.
  - intros [-> Hb]. rewrite !andb_true_iff, negb_true_iff, !Nat.leb_le in Hb.
    destruct Hb as ((((Hn & Hl) & Hli) & Hu) & Hui).
    rewrite split_once_app; [|intros Hd; by apply hex_byte in Hd as [_ Hd]].
    rewrite (proj2 (unhex_iff (hex name) name)) by done. rewrite (proj2 (unhex_iff (hex input) input)) by done.
    rewrite Hn. destruct (Nat.ltb_spec MAX_NAME_BYTES (String.length name)); [lia|].
    destruct (Nat.ltb_spec MAX_INPUT_BYTES (String.length input)); [lia|]. done.
Qed.

(** ** Programs and stacks *)

(** A program within the parser's limits on texts. *)
Fixpoint texts_bounded (d : WorkDecision) : bool :=
  match d with
  | DTool name input | DSpawnAgent name input => text_bounds name input
  | DSeq decisions => forallb texts_bounded decisions
  | DComplete | DFail => true
  | DOnCounter missing zero other => texts_bounded missing && texts_bounded zero && texts_bounded other
  end.

Definition item_of (d : WorkDecision) : Item :=
  match d with DSeq items => IItems items | _ => IDecision d end.

(** A decision on the stack is not a sequence: those are items. *)
Definition item_ok (item : Item) : bool :=
  texts_bounded (into_decision item) &&
  match item with IDecision (DSeq _) => false | _ => true end.

Definition item_tokens (item : Item) : list (list byte) := decision_tokens (into_decision item).

(** The tokens that made a stack, the top last. *)
Fixpoint stack_tokens (stack : list Item) : list (list byte) :=
  match stack with
  | [] => []
  | item :: stack => stack_tokens stack ++ item_tokens item
  end.

Lemma item_of_into item : item_ok item = true -> item_of (into_decision item) = item.
Proof. destruct item as [[]|]; try done. by intros [_ ?]%andb_prop. Qed.

Lemma into_item_of d : into_decision (item_of d) = d.
Proof. by destruct d. Qed.

Lemma seq_tokens head rest :
  decision_tokens (DSeq (head :: rest)) =
  decision_tokens head ++ decision_tokens (DSeq rest) ++ [string_bytes "seq"].
Proof. reflexivity. Qed.

Lemma pop_decision_Ok stack token d below :
  pop_decision stack token = Ok (d, below) -> exists item, stack = item :: below /\ d = into_decision item.
Proof. destruct stack as [|item stack]; [done|]. intros [= <- <-]. by exists item. Qed.

Lemma tool_token texts name input : texts = hex name ++ dot :: hex input ->
  string_bytes "tool." ++ texts = call_token "tool" name input.
Proof. by intros ->. Qed.

(** A token read leaves the stack's tokens and its own. *)
Lemma parse_token_sound token stack item below :
  parse_token token stack = Ok (item, below) -> Forall (fun item => item_ok item = true) stack ->
  stack_tokens stack ++ [token] = stack_tokens (item :: below) /\
  Forall (fun item => item_ok item = true) (item :: below).
Proof.
  unfold parse_token. intros H Hs.
  case_bool_decide as E1; [injection H as <- <-; subst token; split; [done|by constructor]|].
  case_bool_decide as E2; [injection H as <- <-; subst token; split; [done|by constructor]|].
  case_bool_decide as E3; [injection H as <- <-; subst token; split; [done|by constructor]|].
  case_bool_decide as E4.
  { subst token. destruct stack as [|[d|items] stack]; try done.
    destruct (pop_decision stack "seq") as [[head below']|] eqn:Ep; [|done]. injection H as <- <-.
    apply pop_decision_Ok in Ep as (i & -> & ->). apply Forall_cons in Hs as [Hitems [Hi Hs]%Forall_cons].
    split; [|constructor; [|done]].
    - simpl. unfold item_tokens. simpl into_decision. rewrite seq_tokens. by rewrite !app_assoc.
    - unfold item_ok in *. simpl in *. apply andb_prop in Hi as [-> _]. by apply andb_prop in Hitems as [-> _]. }
  case_bool_decide as E5.
  { subst token. destruct (pop_decision stack "on_counter") as [[o s1]|] eqn:P1; [|done].
    apply pop_decision_Ok in P1 as (i1 & -> & ->). apply Forall_cons in Hs as [H1 Hs].
    destruct (pop_decision s1 "on_counter") as [[z s2]|] eqn:P2; [|done].
    apply pop_decision_Ok in P2 as (i2 & -> & ->). apply Forall_cons in Hs as [H2 Hs].
    destruct (pop_decision s2 "on_counter") as [[m s3]|] eqn:P3; [|done].
    apply pop_decision_Ok in P3 as (i3 & -> & ->). apply Forall_cons in Hs as [H3 Hs].
    injection H as <- <-. split; [|constructor; [|done]].
    - simpl. unfold item_tokens. simpl. by rewrite !app_assoc.
    - unfold item_ok in *. simpl. apply andb_prop in H1 as [-> _], H2 as [-> _], H3 as [-> _]. done. }
  destruct (strip_prefix (string_bytes "tool.") token) as [texts|] eqn:Et.
  { apply strip_prefix_Some in Et as ->. destruct (texts_of texts) as [[name input]|] eqn:Ex; [|done].
    apply texts_of_iff in Ex as [-> Hb]. injection H as <- <-. split; [done|constructor; [|done]].
    unfold item_ok. simpl. by rewrite Hb. }
  destruct (strip_prefix (string_bytes "spawn.") token) as [texts|] eqn:Ep; [|done].
  apply strip_prefix_Some in Ep as ->. destruct (texts_of texts) as [[name input]|] eqn:Ex; [|done].
  apply texts_of_iff in Ex as [-> Hb]. injection H as <- <-. split; [done|constructor; [|done]].
  unfold item_ok. simpl. by rewrite Hb.
Qed.

Lemma parse_tokens_sound count tokens stack stack' :
  parse_tokens count tokens stack = Ok stack' -> Forall (fun item => item_ok item = true) stack ->
  (count <= MAX_TOKENS)%nat ->
  stack_tokens stack ++ tokens = stack_tokens stack' /\ Forall (fun item => item_ok item = true) stack' /\
  (count + length tokens <= MAX_TOKENS)%nat.
Proof.
  revert count stack. induction tokens as [|token tokens IH]; intros count stack; cbn [parse_tokens length].
  - intros [= <-] Hs Hc. rewrite app_nil_r. split_and!; [done|done|lia].
  - destruct (Nat.leb_spec MAX_TOKENS count); [done|].
    destruct (parse_token token stack) as [[item below]|] eqn:Et; [|done]. intros H1 Hs Hc.
    destruct (parse_token_sound token stack item below Et Hs) as [E Hok].
    destruct (IH (S count) (item :: below) H1 Hok) as (E' & Hok' & Hl); [lia|].
    rewrite <-E', <-E, <-app_assoc. split_and!; [done|done|lia].
Qed.

Lemma parse_tokens_cons count token tokens stack item below :
  (count < MAX_TOKENS)%nat -> parse_token token stack = Ok (item, below) ->
  parse_tokens count (token :: tokens) stack = parse_tokens (S count) tokens (item :: below).
Proof. intros Hc Ht. cbn [parse_tokens]. destruct (Nat.leb_spec MAX_TOKENS count); [lia|]. by rewrite Ht. Qed.

Lemma parse_tokens_nil count stack : parse_tokens count [] stack = Ok stack.
Proof. reflexivity. Qed.

#[local] Arguments parse_tokens : simpl never.

Lemma call_token_parsed name input stack : text_bounds name input = true ->
  parse_token (call_token "tool" name input) stack = Ok (IDecision (DTool name input), stack) /\
  parse_token (call_token "spawn" name input) stack = Ok (IDecision (DSpawnAgent name input), stack).
Proof.
  intros Hb. assert (texts_of (hex name ++ dot :: hex input) = Ok (name, input)) as Ht by (by apply texts_of_iff).
  split; unfold parse_token; rewrite !bool_decide_eq_false_2 by discriminate.
  - rewrite (proj2 (strip_prefix_Some (string_bytes "tool.") _ (hex name ++ dot :: hex input))) by done.
    by rewrite Ht.
  - destruct (strip_prefix (string_bytes "tool.") _) eqn:E; [by apply strip_prefix_Some in E|].
    rewrite (proj2 (strip_prefix_Some (string_bytes "spawn.") _ (hex name ++ dot :: hex input))) by done.
    by rewrite Ht.
Qed.

Lemma parse_token_seq head items below item :
  item_ok item = true -> into_decision item = head ->
  parse_token (string_bytes "seq") (IItems items :: item :: below) = Ok (IItems (head :: items), below).
Proof. by intros _ <-. Qed.

(** A program's tokens push it. *)
Lemma parse_tokens_complete d : texts_bounded d = true -> forall count rest stack,
  (count + length (decision_tokens d) <= MAX_TOKENS)%nat ->
  parse_tokens count (decision_tokens d ++ rest) stack =
  parse_tokens (count + length (decision_tokens d)) rest (item_of d :: stack).
Proof.
  induction d as [name input|agent input|ds IH| | |m z o IHm IHz IHo] using WorkDecision_nested_ind;
    intros Hb count rest stack Hc.
  - simpl in Hc |- *. rewrite Nat.add_1_r. apply parse_tokens_cons; [lia|]. by apply call_token_parsed.
  - simpl in Hc |- *. rewrite Nat.add_1_r. apply parse_tokens_cons; [lia|]. by apply call_token_parsed.
  - simpl item_of. revert count rest stack Hc. induction IH as [|d ds Hd _ IHds]; intros count rest stack Hc.
    + simpl in Hc |- *. rewrite Nat.add_1_r. by apply parse_tokens_cons; [lia|].
    + simpl in Hb. apply andb_prop in Hb as [Hbd Hbs]. rewrite seq_tokens in Hc |- *.
      rewrite !length_app in Hc |- *. cbn [length] in Hc |- *. rewrite <-app_assoc, Hd by (try done; lia).
      rewrite <-app_assoc, IHds by (try done; lia). cbn [app].
      rewrite (parse_tokens_cons _ _ _ _ (IItems (into_decision (item_of d) :: ds)) stack); [|lia|done].
      rewrite into_item_of. f_equal. lia.
  - simpl in Hc |- *. rewrite Nat.add_1_r. by apply parse_tokens_cons; [lia|].
  - simpl in Hc |- *. rewrite Nat.add_1_r. by apply parse_tokens_cons; [lia|].
  - simpl in Hb. apply andb_prop in Hb as [[Hm Hz]%andb_prop Ho]. simpl decision_tokens in Hc |- *.
    rewrite !length_app in Hc |- *. simpl in Hc |- *. rewrite <-!app_assoc.
    rewrite IHm by (try done; lia). rewrite IHz by (try done; lia). rewrite IHo by (try done; lia). simpl.
    rewrite (parse_tokens_cons _ _ _ _ (IDecision (DOnCounter m z o)) stack); [f_equal; lia|lia|].
    unfold parse_token. simpl. by rewrite !into_item_of.
Qed.

(** ** The line *)

Lemma plain_not_marks b : plain b = true ->
  b <> space /\ b <> newline /\ b <> quote /\ b <> backslash /\ is_ascii_graphic b = true.
Proof.
  unfold plain. rewrite !andb_true_iff, !negb_true_iff, !bool_decide_eq_false. intros [[Hg Hb] Hq].
  split_and!; try done; intros ->; by vm_compute in Hg.
Qed.

Lemma plain_text s : forallb plain (string_bytes s) = true -> forall b, b ∈ string_bytes s -> plain b = true.
Proof. rewrite forallb_forall. intros H b Hb%list_elem_of_In. auto. Qed.

Lemma call_token_plain kind name input : forallb plain (string_bytes kind) = true ->
  forall b, b ∈ call_token kind name input -> plain b = true.
Proof.
  intros Hk b. unfold call_token. rewrite elem_of_app, elem_of_cons, elem_of_app, elem_of_cons.
  intros [Hb|[->|[Hb|[->|Hb]]]]; try done; [by eapply plain_text|by apply hex_byte in Hb as [? _]..].
Qed.

Lemma tokens_plain d : Forall (fun token => forall b, b ∈ token -> plain b = true) (decision_tokens d).
Proof.
  induction d as [name input|agent input|ds IH| | |m z o IHm IHz IHo] using WorkDecision_nested_ind.
  - constructor; [|done]. by apply call_token_plain.
  - constructor; [|done]. by apply call_token_plain.
  - induction IH as [|d ds Hd _ IHds]; [constructor; [by apply plain_text|done]|]. rewrite seq_tokens.
    apply Forall_app. split; [done|]. apply Forall_app. split; [done|].
    constructor; [by apply plain_text|done].
  - constructor; [by apply plain_text|done].
  - constructor; [by apply plain_text|done].
  - cbn [decision_tokens]. repeat (apply Forall_app; split; [done|]). constructor; [by apply plain_text|done].
Qed.

Lemma join_bytes_in sep parts b : b ∈ join_bytes sep parts -> b = sep \/ exists part, part ∈ parts /\ b ∈ part.
Proof.
  induction parts as [|part parts IH]; simpl; [by intros ?%not_elem_of_nil|].
  destruct parts as [|p2 ps]; [intros Hb; right; exists part; split; [apply list_elem_of_here|done]|].
  rewrite elem_of_app, elem_of_cons. intros [Hb|[->|Hb]]; [|by left|].
  - right. exists part. split; [apply list_elem_of_here|done].
  - destruct (IH Hb) as [->|(p & Hp & Hb')]; [by left|]. right. exists p. split; [by apply list_elem_of_further|done].
Qed.

Lemma strip_last_Some b bytes rest : strip_last b bytes = Some rest <-> bytes = rest ++ [b].
Proof.
  unfold strip_last. split.
  - destruct (rev bytes) as [|b' r] eqn:E; [done|]. case_bool_decide as Hb; [|done]. intros [= <-]. subst b'.
    rewrite <-(rev_involutive bytes), E. done.
  - intros ->. rewrite rev_app_distr. simpl. rewrite bool_decide_eq_true_2 by done. by rewrite rev_involutive.
Qed.

(** The line of a program has only plain bytes and spaces between its quotes. *)
Lemma line_bytes p b : b ∈ join_bytes space (string_bytes "v2" :: decision_tokens p) -> b = space \/ plain b = true.
Proof.
  intros Hb. apply join_bytes_in in Hb as [->|(part & Hp & Hb)]; [by left|]. right.
  apply elem_of_cons in Hp as [->|Hp]; [by apply (plain_text "v2")|].
  pose proof (tokens_plain p) as H. rewrite Forall_forall in H. by apply (H part).
Qed.

Lemma line_split p : split_bytes space (join_bytes space (string_bytes "v2" :: decision_tokens p)) =
  string_bytes "v2" :: decision_tokens p.
Proof.
  apply split_join; [done|]. constructor.
  - intros Hs. apply (plain_text "v2") in Hs; [|done]. by vm_compute in Hs.
  - eapply Forall_impl; [apply tokens_plain|]. intros token H Hs. apply H in Hs. by vm_compute in Hs.
Qed.

(** C39. The parser and the printer are inverse: [parse_encoding] accepts exactly
    the lines [encode_line] prints for the programs whose names have 1 to 128
    bytes, whose inputs have at most 65536, all of them UTF-8, and which have
    at most 2048 tokens; and the program it gives is the one that was printed.
    So no two lines mean one program, and a line that was altered is refused or
    is another program's. *)
Theorem parse_encoding_iff stdout p :
  parse_encoding stdout = Ok p <->
  stdout = encode_line p /\ texts_bounded p = true /\ (length (decision_tokens p) <= MAX_TOKENS)%nat.
Proof.
  unfold parse_encoding, encode_line. split.
  - destruct (strip_last newline (string_bytes stdout)) as [line|] eqn:E1; [|done].
    apply strip_last_Some in E1. case_bool_decide; [done|].
    destruct (strip_prefix [quote] line) as [text|] eqn:E2; simpl; [|done]. apply strip_prefix_Some in E2 as ->.
    destruct (strip_last quote text) as [inner|] eqn:E3; [|done]. apply strip_last_Some in E3 as ->.
    destruct (_ || _); [done|]. pose proof (join_split space inner) as Hj.
    destruct (split_bytes space inner) as [|first tokens]; [done|].
    case_bool_decide as Hv; [|done]. subst first. simpl.
    destruct (parse_tokens 0 tokens []) as [stack|] eqn:Ep; [|done].
    destruct stack as [|root [|]]; try done. intros [= <-].
    destruct (parse_tokens_sound 0 tokens [] [root] Ep) as (Ht & Hok & Hl); [done|lia|].
    simpl in Ht. unfold item_tokens in Ht. apply Forall_cons in Hok as [Hok _].
    apply andb_prop in Hok as [Hb _]. split_and!; [|done|by rewrite <-Ht].
    rewrite <-(bytes_string_bytes stdout), E1, <-Hj, Ht, <-!app_assoc. reflexivity.
  - intros (-> & Hb & Hl). rewrite string_bytes_string. set (inner := join_bytes _ _).
    rewrite (proj2 (strip_last_Some newline _ ([quote] ++ inner ++ [quote]))) by (by rewrite <-!app_assoc).
    assert (forall b, b ∈ inner -> b = space \/ plain b = true) as Hin by apply line_bytes.
    rewrite bool_decide_eq_false_2.
    2:{ rewrite !elem_of_app, !list_elem_of_singleton. intros [Hn|[Hn|Hn]]; try done.
        apply Hin in Hn as [Hn|Hn]; [done|by vm_compute in Hn]. }
    rewrite (proj2 (strip_prefix_Some [quote] _ (inner ++ [quote]))) by done. simpl.
    rewrite (proj2 (strip_last_Some quote _ inner)) by done.
    assert (forallb (fun b => is_ascii_graphic b || bool_decide (b = space)) inner = true) as ->.
    { apply forallb_forall. intros b Hb'%list_elem_of_In. apply Hin in Hb' as [->|Hp]; [done|].
      by apply plain_not_marks in Hp as (_ & _ & _ & _ & ->). }
    assert (existsb (fun b => bool_decide (b = backslash) || bool_decide (b = quote)) inner = false) as ->.
    { apply not_true_iff_false. rewrite existsb_exists. intros (b & Hb'%list_elem_of_In & Hm).
      apply Hin in Hb' as [->|Hp]; [done|]. apply plain_not_marks in Hp as (_ & _ & Hq & Hs & _).
      rewrite orb_true_iff, !bool_decide_eq_true in Hm. by destruct Hm. }
    unfold inner. rewrite line_split. rewrite bool_decide_eq_true_2 by done. simpl.
    rewrite <-(app_nil_r (decision_tokens p)), parse_tokens_complete by done.
    rewrite parse_tokens_nil. by rewrite into_item_of.
Qed.

(** How deep [evaluate_program] recurses. *)
Fixpoint depth (d : WorkDecision) : nat :=
  match d with
  | DTool _ _ | DSpawnAgent _ _ | DComplete | DFail => 1
  | DSeq decisions => S (list_max (map depth decisions))
  | DOnCounter missing zero other => S (Nat.max (depth missing) (Nat.max (depth zero) (depth other)))
  end.

Lemma depth_tokens d : (depth d <= length (decision_tokens d))%nat.
Proof.
  induction d as [| |ds IH| | |m z o IHm IHz IHo] using WorkDecision_nested_ind; try done.
  - induction IH as [|d ds Hd _ IHds]; [done|]. rewrite seq_tokens, !length_app.
    change (S (list_max (map depth ds)) <= length (decision_tokens (DSeq ds)))%nat in IHds.
    change (depth (DSeq (d :: ds))) with (S (Nat.max (depth d) (list_max (map depth ds)))). cbn [length]. lia.
  - cbn [depth decision_tokens]. rewrite !length_app. simpl. lia.
Qed.

(** The bound on tokens bounds the nesting, as its comment says. *)
Corollary parsed_depth_bounded stdout p :
  parse_encoding stdout = Ok p -> (depth p <= MAX_TOKENS)%nat.
Proof. intros (_ & _ & Hl)%parse_encoding_iff. pose proof (depth_tokens p). lia. Qed.
