(* ===== verification/BendGuard.v ===== *)
(** * The guard on a Bend source ([workflow-bend/boundary.rs])

    Before Bend runs a file, its text is scanned for the one [def main] it may
    have, which must return a String: an IO main would be executed.  A scan
    works on what is left of the text, [src[i..]], a list of bytes; taking it
    as text panics if it begins inside a character.  Loops have fuel, and
    running out of it is a panic too, so that a theorem that none panics says
    they end.

    [defines] is a grammar of the sources that counts their mains;
    [main_guard_iff] says the guard accepts exactly the sources that define
    one main, of a String, and [main_guard_returns] that it answers on every
    text. *)

From S2P Require Import Prelude Text Uuids Workflow Bend.

(** ** The scan *)

(** [None] is a panic. *)
Definition scan (A : Type) : Type := option (result A FrontendError).

Definition scan_ret {A} (x : A) : scan A := Some (Ok x).
Definition scan_bind {A B} (m : scan A) (f : A -> scan B) : scan B :=
  match m with None => None | Some (Err error) => Some (Err error) | Some (Ok x) => f x end.

Declare Scope scan_scope.
Open Scope scan_scope.

Notation "'let*' x ':=' m 'in' k" := (scan_bind m (fun x => k))
  (at level 10, x pattern, k at level 200, right associativity) : scan_scope.

Definition main_must_be_string {A} : scan A :=
  Some (Err (FeEncoding "main must return String; IO is not executed")).

Definition hash : byte := Ascii.ascii_of_N 35.
Definition apostrophe : byte := Ascii.ascii_of_N 39.
Definition brace_open : byte := Ascii.ascii_of_N 123.
Definition brace_close : byte := Ascii.ascii_of_N 125.
Definition letter_u : byte := Ascii.ascii_of_N 117.
Definition question : byte := Ascii.ascii_of_N 63.

(** [&src[i..]]. *)
Definition text_at (rest : list byte) : scan (list byte) :=
  match rest with
  | b :: _ => if is_continuation_byte b then None else scan_ret rest
  | [] => scan_ret rest
  end.

Definition is_blank (b : byte) : bool :=
  bool_decide (b = space) || bool_decide (b = newline) || bool_decide (b = carriage_return) ||
  bool_decide (b = Ascii.ascii_of_N 9).

(** [skip]; [comment] is whether the inner loop runs. *)
Fixpoint skip_from (comment : bool) (rest : list byte) : list byte :=
  match rest with
  | [] => []
  | b :: tail =>
      if comment then skip_from (negb (bool_decide (b = newline))) tail
      else if is_blank b then skip_from false tail
      else if bool_decide (b = hash) then skip_from true tail
      else rest
  end.

Definition skip (rest : list byte) : list byte := skip_from false rest.

Definition at_byte (b : byte) (rest : list byte) : bool :=
  match rest with b' :: _ => bool_decide (b' = b) | [] => false end.

Definition is_ascii_alphabetic (b : byte) : bool := between 65 90 b || between 97 122 b.
Definition is_ascii_alphanumeric (b : byte) : bool := is_ascii_alphabetic b || is_ascii_digit b.

Definition underscore : byte := Ascii.ascii_of_N 95.

Definition name_head (b : byte) : bool := is_ascii_alphabetic b || bool_decide (b = underscore).
Definition name_byte (b : byte) : bool :=
  is_ascii_alphanumeric b || bool_decide (b = underscore) || bool_decide (b = dot).

Definition starts (word rest : list byte) : bool := bool_decide (is_Some (strip_prefix word rest)).

Definition at_word (word rest : list byte) : scan bool :=
  let* rest := text_at rest in
  if starts word rest then
    let* after := text_at (drop (length word) rest) in
    scan_ret (negb (match after with b :: _ => name_byte b | [] => false end))
  else scan_ret false.

Fixpoint digits (rest : list byte) : nat :=
  match rest with b :: rest => if is_ascii_digit b then S (digits rest) else 0 | [] => 0 end.

(** [None] is [false]. *)
Definition skip_number (rest : list byte) : option (list byte) :=
  let n := digits rest in
  if (n =? 0)%nat then None
  else
    let rest := drop n rest in
    match rest with
    | b :: tail =>
        if bool_decide (b = Ascii.ascii_of_N 110) then Some tail
        else if bool_decide (b = dot) && (0 <? digits tail)%nat then
          let rest := drop (digits tail) tail in
          match rest with
          | e :: tail =>
              if bool_decide (e = Ascii.ascii_of_N 101) || bool_decide (e = Ascii.ascii_of_N 69) then
                let sign :=
                  match tail with
                  | s :: _ => if bool_decide (s = Ascii.ascii_of_N 43) || bool_decide (s = Ascii.ascii_of_N 45)
                              then 1%nat else 0%nat
                  | [] => 0%nat
                  end in
                let exponent := digits (drop sign tail) in
                if (0 <? exponent)%nat then Some (drop (sign + exponent) tail) else Some rest
              else Some rest
          | [] => Some rest
          end
        else Some rest
    | [] => Some rest
    end.

(** [take]: what is left, if it starts with the text. *)
Definition take_text (text rest : list byte) : scan (option (list byte)) :=
  let* rest := text_at rest in scan_ret (strip_prefix text rest).

Definition bump_char (rest : list byte) : scan (list byte) :=
  let* rest := text_at rest in
  match rest with
  | [] => main_must_be_string
  | b :: _ => scan_ret (drop (char_len b) rest)
  end.

(** [take_while] of the bytes of a name. *)
Fixpoint name_len (rest : list byte) : nat :=
  match rest with b :: rest => if name_byte b then S (name_len rest) else 0 | [] => 0 end.

Definition read_name (rest : list byte) : scan (option (list byte) * list byte) :=
  let* rest := text_at rest in
  match rest with
  | b :: tail =>
      if name_head b then
        let size := S (name_len tail) in
        let* _ := text_at (drop size rest) in
        scan_ret (Some (take size rest), drop size rest)
      else scan_ret (None, rest)
  | [] => scan_ret (None, rest)
  end.

Definition def_name_is_main (rest : list byte) : scan (bool * list byte) :=
  let* (name, rest) := read_name (skip rest) in
  scan_ret (bool_decide (name = Some (string_bytes "main")), rest).

(** *** Literals *)

Fixpoint hexdigits (window : list byte) : nat :=
  match window with
  | b :: window =>
      if is_ascii_digit b || between 65 70 b || between 97 102 b then S (hexdigits window) else 0
  | [] => 0
  end.

Definition take_unicode_escape (rest : list byte) : option (list byte) :=
  match take 11 rest with
  | u :: brace :: window =>
      if (length window <? 2)%nat || negb (bool_decide (to_ascii_lowercase u = letter_u)) ||
         negb (bool_decide (brace = brace_open))
      then None
      else
        let n := hexdigits window in
        if (n =? 0)%nat || negb (at_byte (brace_close) (drop n window)) then None
        else Some (drop (n + 3) rest)
  | _ => None
  end.

Definition escapes : list byte := string_bytes "ntr0\'" ++ [quote].

Definition take_char_body (rest : list byte) : scan (list byte) :=
  match rest with
  | [] => main_must_be_string
  | b :: tail =>
      if negb (bool_decide (b = backslash)) then bump_char rest
      else
        match take_unicode_escape tail with
        | Some rest => scan_ret rest
        | None =>
            let* tail := text_at tail in
            match tail with
            | [] => main_must_be_string
            | c :: rest => if bool_decide (c ∈ escapes) then scan_ret rest else main_must_be_string
            end
        end
  end.

Fixpoint string_loop (fuel : nat) (rest : list byte) : scan (list byte) :=
  match fuel with
  | O => None
  | S fuel =>
      let* taken := take_text [quote] rest in
      match taken with
      | Some rest => scan_ret rest
      | None =>
          match rest with
          | [] => main_must_be_string
          | _ => let* rest := take_char_body rest in string_loop fuel rest
          end
      end
  end.

Definition skip_string (rest : list byte) : scan (list byte) :=
  let* taken := take_text [quote] rest in
  match taken with
  | None => main_must_be_string
  | Some rest => string_loop (S (length rest)) rest
  end.

Definition skip_char_lit (rest : list byte) : scan (list byte) :=
  let* taken := take_text [apostrophe] rest in
  match taken with
  | None => main_must_be_string
  | Some rest =>
      let* rest := take_char_body rest in
      let* taken := take_text [apostrophe] rest in
      match taken with Some rest => scan_ret rest | None => main_must_be_string end
  end.

(** [skip_balanced]; the depth is a [u32]. *)
Fixpoint balanced_loop (open close : byte) (fuel : nat) (depth : N) (rest : list byte) : scan (list byte) :=
  match fuel with
  | O => None
  | S fuel =>
      if negb (0 <? depth)%N then scan_ret rest
      else
        let rest := skip rest in
        match rest with
        | [] => main_must_be_string
        | b :: tail =>
            if at_byte quote rest then let* rest := skip_string rest in balanced_loop open close fuel depth rest
            else if at_byte apostrophe rest then
              let* rest := skip_char_lit rest in balanced_loop open close fuel depth rest
            else if bool_decide (b = open) then
              if (depth <? u32_max)%N then balanced_loop open close fuel (depth + 1) tail else None
            else if bool_decide (b = close) then balanced_loop open close fuel (depth - 1) tail
            else let* rest := bump_char rest in balanced_loop open close fuel depth rest
        end
  end.

Definition skip_balanced (open close : byte) (rest : list byte) : scan (list byte) :=
  balanced_loop open close (S (S (length rest))) 1 rest.

Definition paren_open : byte := Ascii.ascii_of_N 40.
Definition paren_close : byte := Ascii.ascii_of_N 41.

Definition main_returns_string (rest : list byte) : scan (bool * list byte) :=
  let rest := skip rest in
  let rest := if at_byte (question) rest then drop 1 rest else rest in
  let rest := skip rest in
  let* taken := take_text [paren_open] rest in
  match taken with
  | None => scan_ret (false, rest)
  | Some rest =>
      let* rest := skip_balanced paren_open paren_close rest in
      let rest := skip rest in
      let* taken := take_text (string_bytes "->") rest in
      match taken with
      | None => scan_ret (false, rest)
      | Some rest =>
          let rest := skip rest in
          let* word := at_word (string_bytes "String") rest in
          if negb word then scan_ret (false, rest)
          else
            let rest := skip (drop (String.length "String") rest) in
            let* taken := take_text (string_bytes ":") rest in
            match taken with Some rest => scan_ret (true, rest) | None => scan_ret (false, rest) end
      end
  end.

(** *** The guard *)

Fixpoint guard_loop (fuel : nat) (mains : nat) (rest : list byte) : scan nat :=
  match fuel with
  | O => None
  | S fuel =>
      match rest with
      | [] => scan_ret mains
      | _ =>
          let rest := skip rest in
          match rest with
          | [] => scan_ret mains
          | _ =>
              let* def := at_word (string_bytes "def") rest in
              if def then
                let* (main, rest) := def_name_is_main (drop 3 rest) in
                if main then
                  let* (ok, rest) := main_returns_string rest in
                  if negb ok then main_must_be_string else guard_loop fuel (S mains) rest
                else guard_loop fuel mains rest
              else if at_byte quote rest then let* rest := skip_string rest in guard_loop fuel mains rest
              else if at_byte apostrophe rest then let* rest := skip_char_lit rest in guard_loop fuel mains rest
              else
                let* (name, rest) := read_name rest in
                match name with
                | Some _ => guard_loop fuel mains rest
                | None =>
                    match skip_number rest with
                    | Some rest => guard_loop fuel mains rest
                    | None => let* rest := bump_char rest in guard_loop fuel mains rest
                    end
                end
          end
      end
  end.

Definition assert_string_main (source : list byte) : scan unit :=
  let* mains := guard_loop (S (length source)) 0 source in
  if negb (mains =? 1)%nat then Some (Err (FeEncoding "needs one def main() -> String:"))
  else scan_ret tt.

(** ** The grammar

    A relation between what is left before a phrase and what is left after
    it. *)

Definition stops (rest : list byte) : Prop :=
  match rest with [] => True | b :: _ => is_blank b = false /\ b <> hash end.

(** White space and comments, all of them. *)
Inductive blanks : list byte -> list byte -> Prop :=
| blanks_stop rest : stops rest -> blanks rest rest
| blanks_blank b rest rest' : is_blank b = true -> blanks rest rest' -> blanks (b :: rest) rest'
| blanks_comment text rest rest' :
    newline ∉ text -> blanks rest rest' -> blanks (hash :: text ++ newline :: rest) rest'
| blanks_last text : newline ∉ text -> blanks (hash :: text) [].

(** A name, up to its last byte. *)
Inductive name_at (name rest rest' : list byte) : Prop :=
| name_is b tail :
    name = b :: tail -> name_head b = true -> Forall (fun c => name_byte c = true) tail ->
    rest = name ++ rest' ->
    (match rest' with c :: _ => name_byte c = false | [] => True end) -> name_at name rest rest'.

Definition no_digit (rest : list byte) : Prop :=
  match rest with b :: _ => is_ascii_digit b = false | [] => True end.

(** At least one digit, and every digit there is. *)
Inductive digits_at (rest rest' : list byte) : Prop :=
| digits_are ds :
    ds <> [] -> Forall (fun b => is_ascii_digit b = true) ds -> rest = ds ++ rest' -> no_digit rest' ->
    digits_at rest rest'.

Definition letter_n : byte := Ascii.ascii_of_N 110.
Definition is_e (b : byte) : bool := bool_decide (b = Ascii.ascii_of_N 101) || bool_decide (b = Ascii.ascii_of_N 69).
Definition is_sign (b : byte) : bool := bool_decide (b = Ascii.ascii_of_N 43) || bool_decide (b = Ascii.ascii_of_N 45).

(** [[eE][+-]?\d+]. *)
Inductive exponent_at : list byte -> list byte -> Prop :=
| exponent_unsigned e rest rest' : is_e e = true -> digits_at rest rest' -> exponent_at (e :: rest) rest'
| exponent_signed e s rest rest' :
    is_e e = true -> is_sign s = true -> digits_at rest rest' -> exponent_at (e :: s :: rest) rest'.

(** [\d+(n|\.\d+([eE][+-]?\d+)?)?], the longest. *)
Inductive number_at : list byte -> list byte -> Prop :=
| number_nat rest rest' : digits_at rest (letter_n :: rest') -> number_at rest rest'
| number_int rest rest' :
    digits_at rest rest' ->
    (forall tail, rest' <> letter_n :: tail) -> (forall tail after, rest' = dot :: tail -> ~ digits_at tail after) ->
    number_at rest rest'
| number_float rest tail rest' :
    digits_at rest (dot :: tail) -> digits_at tail rest' -> (forall after, ~ exponent_at rest' after) ->
    number_at rest rest'
| number_exponent rest tail mid rest' :
    digits_at rest (dot :: tail) -> digits_at tail mid -> exponent_at mid rest' -> number_at rest rest'.

Definition is_hexdigit (b : byte) : bool := is_ascii_digit b || between 65 70 b || between 97 102 b.

(** A character of a literal. *)
Inductive char_at : list byte -> list byte -> Prop :=
| char_plain b tail : b <> backslash -> char_at (b :: tail) (drop (char_len b) (b :: tail))
| char_escape c rest : c ∈ escapes -> char_at (backslash :: c :: rest) rest
| char_unicode u hexs rest :
    to_ascii_lowercase u = letter_u -> (1 <= length hexs <= 8)%nat ->
    Forall (fun b => is_hexdigit b = true) hexs ->
    char_at (backslash :: u :: brace_open :: hexs ++ brace_close :: rest) rest.

(** A string's characters and its closing quote. *)
Inductive string_tail : list byte -> list byte -> Prop :=
| string_end rest : string_tail (quote :: rest) rest
| string_char rest mid rest' :
    at_byte quote rest = false -> char_at rest mid -> string_tail mid rest' -> string_tail rest rest'.

Inductive string_at : list byte -> list byte -> Prop :=
| string_is rest rest' : string_tail rest rest' -> string_at (quote :: rest) rest'.

Inductive char_lit_at : list byte -> list byte -> Prop :=
| char_lit_is rest rest' : char_at rest (apostrophe :: rest') -> char_lit_at (apostrophe :: rest) rest'.

(** A byte that begins no literal. *)
Definition unquoted (b : byte) : Prop := b <> quote /\ b <> apostrophe.

(** What is between parentheses, and the one that closes. *)
Inductive inside : list byte -> list byte -> Prop :=
| inside_close rest rest' : blanks rest (paren_close :: rest') -> inside rest rest'
| inside_string rest mid after rest' :
    blanks rest mid -> string_at mid after -> inside after rest' -> inside rest rest'
| inside_char rest mid after rest' :
    blanks rest mid -> char_lit_at mid after -> inside after rest' -> inside rest rest'
| inside_open rest mid after rest' :
    blanks rest (paren_open :: mid) -> inside mid after -> inside after rest' -> inside rest rest'
| inside_other rest b tail rest' :
    blanks rest (b :: tail) -> unquoted b -> b <> paren_open -> b <> paren_close ->
    inside (drop (char_len b) (b :: tail)) rest' -> inside rest rest'.

Inductive optional_mark : list byte -> list byte -> Prop :=
| mark rest : optional_mark (question :: rest) rest
| no_mark rest : at_byte (question) rest = false -> optional_mark rest rest.

(** [?] ( ... ) -> String: *)
Inductive string_signature (rest rest' : list byte) : Prop :=
| signature r1 r2 r3 r4 r5 r6 r7 :
    blanks rest r1 -> optional_mark r1 r2 -> blanks r2 (paren_open :: r3) -> inside r3 r4 ->
    blanks r4 (string_bytes "->" ++ r5) -> blanks r5 r6 ->
    name_at (string_bytes "String") r6 r7 -> blanks r7 (string_bytes ":" ++ rest') ->
    string_signature rest rest'.

(** The definition after [def] is not of [main]. *)
Inductive other_name : list byte -> list byte -> Prop :=
| named name rest rest' : name_at name rest rest' -> name <> string_bytes "main" -> other_name rest rest'
| unnamed rest : (forall name rest', ~ name_at name rest rest') -> other_name rest rest.

(** The source defines so many mains, all of a String. *)
Inductive defines : list byte -> nat -> Prop :=
| defines_end rest : blanks rest [] -> defines rest 0
| defines_main rest r1 r2 r3 r4 r5 n :
    blanks rest r1 -> name_at (string_bytes "def") r1 r2 -> blanks r2 r3 ->
    name_at (string_bytes "main") r3 r4 -> string_signature r4 r5 -> defines r5 n -> defines rest (S n)
| defines_other rest r1 r2 r3 r4 n :
    blanks rest r1 -> name_at (string_bytes "def") r1 r2 -> blanks r2 r3 ->
    other_name r3 r4 -> defines r4 n -> defines rest n
| defines_string rest r1 r2 n : blanks rest r1 -> string_at r1 r2 -> defines r2 n -> defines rest n
| defines_char rest r1 r2 n : blanks rest r1 -> char_lit_at r1 r2 -> defines r2 n -> defines rest n
| defines_name rest r1 name r2 n :
    blanks rest r1 -> name_at name r1 r2 -> name <> string_bytes "def" -> defines r2 n -> defines rest n
| defines_number rest r1 r2 n : blanks rest r1 -> number_at r1 r2 -> defines r2 n -> defines rest n
| defines_byte rest b tail n :
    blanks rest (b :: tail) -> unquoted b -> name_head b = false -> is_ascii_digit b = false ->
    defines (drop (char_len b) (b :: tail)) n -> defines rest n.

(** ** The scan answers what the grammar says *)

(** The scan does not panic, and what it answers has [P]. *)
Definition returns {A} (P : A -> Prop) (m : scan A) : Prop :=
  match m with None => False | Some (Ok x) => P x | Some (Err _) => True end.

Lemma returns_bind {A B} (P : A -> Prop) (Q : B -> Prop) (m : scan A) (f : A -> scan B) :
  returns P m -> (forall x, P x -> returns Q (f x)) -> returns Q (scan_bind m f).
Proof. destruct m as [[x|error]|]; simpl; auto. Qed.

Lemma returns_fail {A} (P : A -> Prop) : returns P main_must_be_string.
Proof. exact I. Qed.

#[local] Hint Resolve returns_fail : core.

Lemma is_blank_ascii b : is_blank b = true -> (code b < 128)%N.
Proof. unfold is_blank. rewrite !orb_true_iff, !bool_decide_eq_true. intros [[[->| ->]| ->]| ->]; by vm_compute. Qed.

Lemma between_ascii low high b : (high < 128)%N -> between low high b = true -> (code b < 128)%N.
Proof. unfold between. intros Hh [_ H]%andb_prop. apply N.leb_le in H. lia. Qed.

Lemma name_byte_ascii b : name_byte b = true -> (code b < 128)%N.
Proof.
  unfold name_byte, is_ascii_alphanumeric, is_ascii_alphabetic, is_ascii_digit.
  rewrite !orb_true_iff, !bool_decide_eq_true.
  intros [[[[H|H]|H]| ->]| ->]; try (by vm_compute); eapply between_ascii; [|exact H| |exact H| |exact H]; lia.
Qed.

Lemma name_head_byte b : name_head b = true -> name_byte b = true.
Proof. unfold name_head, name_byte, is_ascii_alphanumeric. rewrite !orb_true_iff. tauto. Qed.

Lemma digit_ascii b : is_ascii_digit b = true -> (code b < 128)%N.
Proof. apply between_ascii. lia. Qed.

Lemma utf8_ascii_app text rest : Forall (fun b => (code b < 128)%N) text -> utf8 (text ++ rest) = utf8 rest.
Proof. induction 1 as [|b text Hb _ IH]; [done|]. simpl. by rewrite utf8_ascii. Qed.

Lemma text_at_utf8 rest : utf8 rest = true -> text_at rest = scan_ret rest.
Proof.
  destruct rest as [|b rest]; [done|]. intros (_ & _ & _ & _ & _ & Hb & _)%utf8_cons. simpl. by rewrite Hb.
Qed.

Lemma take_text_utf8 text rest : utf8 rest = true -> take_text text rest = scan_ret (strip_prefix text rest).
Proof. intros Hu. unfold take_text. by rewrite text_at_utf8. Qed.

(** *** White space *)

Lemma first_newline l : newline ∉ l \/ exists text rest, l = text ++ newline :: rest /\ newline ∉ text.
Proof.
  induction l as [|b l IH]; [left; by apply not_elem_of_nil|].
  destruct (decide (b = newline)) as [->|Hb]; [right; exists [], l; split; [done|by apply not_elem_of_nil]|].
  destruct IH as [Hl|(text & rest & -> & Ht)].
  - left. rewrite not_elem_of_cons. by split.
  - right. exists (b :: text), rest. rewrite not_elem_of_cons. by split.
Qed.

Lemma skip_comment text rest : newline ∉ text -> skip_from true (text ++ newline :: rest) = skip rest.
Proof.
  induction text as [|b text IH]; simpl; [by intros _|]. intros [Hb Ht]%not_elem_of_cons.
  rewrite bool_decide_eq_false_2 by congruence. simpl. by apply IH.
Qed.

Lemma skip_last text : newline ∉ text -> skip_from true text = [].
Proof.
  induction text as [|b text IH]; simpl; [done|]. intros [Hb Ht]%not_elem_of_cons.
  rewrite bool_decide_eq_false_2 by congruence. simpl. by apply IH.
Qed.

Lemma blanks_skip rest rest' : blanks rest rest' -> skip rest = rest'.
Proof.
  induction 1 as [rest Hs|b rest rest' Hb _ IH|text rest rest' Ht _ IH|text Ht]; unfold skip in *; simpl.
  - destruct rest as [|b rest]; [done|]. simpl in Hs |- *. destruct Hs as [-> Hh].
    by rewrite bool_decide_eq_false_2.
  - by rewrite Hb.
  - by rewrite skip_comment.
  - by rewrite skip_last.
Qed.

Lemma skip_blanks rest : blanks rest (skip rest).
Proof.
  remember (length rest) as n eqn:En. revert rest En. induction n as [n IH] using lt_wf_ind. intros rest ->.
  destruct rest as [|b rest]; [by apply blanks_stop|]. unfold skip. simpl.
  destruct (is_blank b) eqn:Hb; [apply blanks_blank; [done|]; apply (IH (length rest)); simpl; [lia|done]|].
  case_bool_decide as Hh; [|by apply blanks_stop]. subst b.
  destruct (first_newline rest) as [Hn|(text & more & -> & Ht)].
  - rewrite skip_last by done. by apply blanks_last.
  - rewrite skip_comment by done. apply blanks_comment; [done|].
    apply (IH (length more)); [|done]. simpl. rewrite length_app. simpl. lia.
Qed.

Lemma blanks_keep rest rest' : blanks rest rest' ->
  utf8 rest = true -> utf8 rest' = true /\ (length rest' <= length rest)%nat /\ stops rest'.
Proof.
  induction 1 as [rest Hs|b rest rest' Hb _ IH|text rest rest' Ht _ IH|text Ht]; intros Hu.
  - by split_and!.
  - rewrite utf8_ascii in Hu by (by apply is_blank_ascii). destruct (IH Hu) as (? & ? & ?).
    split_and!; [done|simpl; lia|done].
  - destruct IH as (? & ? & ?).
    { rewrite <-(utf8_ascii newline) by done. by apply (utf8_suffix (hash :: text)). }
    split_and!; [done|simpl; rewrite length_app; simpl; lia|done].
  - split_and!; [done|simpl; lia|done].
Qed.

Lemma skip_keep rest : utf8 rest = true ->
  utf8 (skip rest) = true /\ (length (skip rest) <= length rest)%nat /\ stops (skip rest).
Proof. apply blanks_keep, skip_blanks. Qed.

(** *** Names *)

Lemma name_len_spec rest :
  Forall (fun b => name_byte b = true) (take (name_len rest) rest) /\
  match drop (name_len rest) rest with b :: _ => name_byte b = false | [] => True end.
Proof.
  induction rest as [|b rest IH]; simpl; [by split|]. destruct (name_byte b) eqn:Hb; simpl; [|by rewrite Hb].
  destruct IH. split; [by constructor|done].
Qed.

Lemma name_len_app tail rest : Forall (fun b => name_byte b = true) tail ->
  match rest with b :: _ => name_byte b = false | [] => True end -> name_len (tail ++ rest) = length tail.
Proof.
  induction 1 as [|b tail Hb _ IH]; simpl; [destruct rest as [|c rest]; [done|]; simpl; by intros ->|].
  intros Hr. by rewrite Hb, IH.
Qed.

Lemma name_at_ascii name rest rest' : name_at name rest rest' -> Forall (fun b => (code b < 128)%N) name.
Proof.
  intros [b tail -> Hb Ht _ _]. constructor; [by apply name_byte_ascii, name_head_byte|].
  eapply Forall_impl; [exact Ht|]. intros c. apply name_byte_ascii.
Qed.

Lemma name_at_keep name rest rest' : name_at name rest rest' -> utf8 rest = true ->
  utf8 rest' = true /\ (length rest' < length rest)%nat.
Proof.
  intros Hn Hu. pose proof (name_at_ascii _ _ _ Hn) as Ha. destruct Hn as [b tail -> _ _ -> _].
  rewrite utf8_ascii_app in Hu by done. split; [done|]. rewrite length_app. simpl. lia.
Qed.

Lemma read_name_at name rest rest' : name_at name rest rest' -> utf8 rest = true ->
  read_name rest = scan_ret (Some name, rest').
Proof.
  intros Hn Hu. destruct (name_at_keep _ _ _ Hn Hu) as [Hu' _]. destruct Hn as [b tail -> Hb Ht -> Hr].
  unfold read_name. rewrite text_at_utf8 by done. simpl. rewrite Hb, name_len_app by done.
  rewrite drop_app_length, take_app_length, text_at_utf8 by done. done.
Qed.

Lemma name_head_at b tail : name_head b = true ->
  name_at (b :: take (name_len tail) tail) (b :: tail) (drop (name_len tail) tail).
Proof.
  intros Hb. destruct (name_len_spec tail) as [Ht Hr].
  econstructor; [done|done|exact Ht| |exact Hr]. simpl. by rewrite take_drop.
Qed.

Lemma no_name rest : utf8 rest = true -> (forall name rest', ~ name_at name rest rest') ->
  read_name rest = scan_ret (None, rest).
Proof.
  intros Hu Hno. destruct rest as [|b tail]; [done|]. destruct (name_head b) eqn:Hb.
  - by destruct (Hno _ _ (name_head_at b tail Hb)).
  - unfold read_name. rewrite text_at_utf8 by done. cbn [scan_bind scan_ret]. by rewrite Hb.
Qed.

Lemma read_name_returns rest : utf8 rest = true ->
  returns (fun '(name, rest') =>
    match name with
    | Some name => name_at name rest rest'
    | None => rest' = rest /\ match rest with b :: _ => name_head b = false | [] => True end
    end) (read_name rest).
Proof.
  intros Hu. destruct rest as [|b tail]; [by split|].
  destruct (name_head b) eqn:Hb.
  - pose proof (name_head_at b tail Hb) as Hn. by rewrite (read_name_at _ _ _ Hn Hu).
  - unfold read_name. rewrite text_at_utf8 by done. simpl. by rewrite Hb.
Qed.

Lemma name_at_head name rest rest' : name_at name rest rest' ->
  match rest with b :: _ => name_head b = true | [] => False end.
Proof. by intros [b tail -> Hb _ -> _]. Qed.

(** [at_word] finds a word that is a name. *)
Lemma at_word_name word rest : utf8 rest = true ->
  match word with b :: tail => name_head b = true /\ Forall (fun c => name_byte c = true) tail | [] => False end ->
  at_word word rest = scan_ret true /\ name_at word rest (drop (length word) rest) \/
  at_word word rest = scan_ret false /\ forall rest', ~ name_at word rest rest'.
Proof.
  intros Hu Hw. unfold at_word, starts. rewrite text_at_utf8 by done. simpl.
  destruct (strip_prefix word rest) as [after|] eqn:E.
  2:{ right. rewrite bool_decide_eq_false_2 by (by intros []). split; [done|]. intros rest' [b tail _ _ _ -> _].
      by rewrite (proj2 (strip_prefix_Some word _ rest')) in E. }
  apply strip_prefix_Some in E as ->. rewrite bool_decide_eq_true_2, drop_app_length by (by eexists).
  destruct word as [|b tail]; [done|]. destruct Hw as [Hb Ht].
  assert (Forall (fun c => (code c < 128)%N) (b :: tail)) as Ha.
  { constructor; [by apply name_byte_ascii, name_head_byte|]. eapply Forall_impl; [exact Ht|].
    intros c. apply name_byte_ascii. }
  rewrite utf8_ascii_app in Hu by done. rewrite text_at_utf8 by done. simpl.
  destruct after as [|c after]; [left; split; [done|]; by econstructor|].
  destruct (name_byte c) eqn:Hc; simpl.
  - right. split; [done|]. intros rest' [b' tail' [= <- <-] _ _ E Hr]. apply (app_inv_head (b :: tail)) in E.
    subst rest'. congruence.
  - left. split; [done|]. by econstructor.
Qed.

(** *** Numbers *)

Lemma digits_spec rest :
  Forall (fun b => is_ascii_digit b = true) (take (digits rest) rest) /\ no_digit (drop (digits rest) rest).
Proof.
  induction rest as [|b rest IH]; simpl; [by split|]. destruct (is_ascii_digit b) eqn:Hb; simpl; [|by rewrite Hb].
  destruct IH. split; [by constructor|done].
Qed.

Lemma digits_app ds rest : Forall (fun b => is_ascii_digit b = true) ds -> no_digit rest ->
  digits (ds ++ rest) = length ds.
Proof.
  induction 1 as [|b ds Hb _ IH]; simpl; [destruct rest as [|c rest]; [done|]; simpl; by intros ->|].
  intros Hr. by rewrite Hb, IH.
Qed.

(** [digits] counts what [digits_at] reads. *)
Lemma digits_at_iff rest rest' :
  digits_at rest rest' <-> digits rest <> 0%nat /\ drop (digits rest) rest = rest'.
Proof.
  split.
  - intros [ds Hn Hd -> Hr]. rewrite digits_app by done. rewrite drop_app_length. split; [by destruct ds|done].
  - intros [Hn <-]. destruct (digits_spec rest) as [Hd Hr]. econstructor; [|exact Hd|by rewrite take_drop|done].
    destruct rest as [|b rest]; [done|]. destruct (digits (b :: rest)) eqn:E; [done|]. done.
Qed.

Lemma digits_at_keep rest rest' : digits_at rest rest' -> utf8 rest = true ->
  utf8 rest' = true /\ (length rest' < length rest)%nat.
Proof.
  intros [ds Hn Hd -> _] Hu. rewrite utf8_ascii_app in Hu.
  - split; [done|]. rewrite length_app. destruct ds; [done|]. simpl. lia.
  - eapply Forall_impl; [exact Hd|]. intros b. apply digit_ascii.
Qed.

Lemma no_digits rest rest' : digits rest = 0%nat -> ~ digits_at rest rest'.
Proof. intros H [Hd _]%digits_at_iff. done. Qed.

Lemma sign_not_digit s : is_sign s = true -> is_ascii_digit s = false.
Proof. unfold is_sign. rewrite orb_true_iff, !bool_decide_eq_true. by intros [-> | ->]. Qed.

(** What [skip_number] does after the fraction. *)
Lemma exponent_iff rest rest' : exponent_at rest rest' <->
  match rest with
  | e :: tail =>
      is_e e = true /\
      let sign := match tail with s :: _ => if is_sign s then 1%nat else 0%nat | [] => 0%nat end in
      digits_at (drop sign tail) rest'
  | [] => False
  end.
Proof.
  split.
  - intros [e tail r He Hd|e s tail r He Hs Hd]; split; try done; simpl; [|by rewrite Hs].
    destruct tail as [|s tail]; [done|]. destruct (is_sign s) eqn:Hs; [|done].
    apply sign_not_digit in Hs. apply digits_at_iff in Hd as [Hd _]. simpl in Hd. by rewrite Hs in Hd.
  - destruct rest as [|e tail]; [done|]. intros [He Hd]. destruct tail as [|s tail]; [by apply exponent_unsigned|].
    simpl in Hd. destruct (is_sign s) eqn:Hs; [by apply exponent_signed|by apply exponent_unsigned].
Qed.

Lemma exponent_keep rest rest' : exponent_at rest rest' -> utf8 rest = true ->
  utf8 rest' = true /\ (length rest' < length rest)%nat.
Proof.
  assert (forall e, is_e e = true -> (code e < 128)%N) as He.
  { intros e. unfold is_e. rewrite orb_true_iff, !bool_decide_eq_true. by intros [-> | ->]. }
  assert (forall s, is_sign s = true -> (code s < 128)%N) as Hs.
  { intros s. unfold is_sign. rewrite orb_true_iff, !bool_decide_eq_true. by intros [-> | ->]. }
  intros [e tail r Ee Hd|e s tail r Ee Es Hd]; rewrite !utf8_ascii by auto; intros Hu;
    destruct (digits_at_keep _ _ Hd Hu); (split; [done|simpl; lia]).
Qed.

Lemma number_at_keep rest rest' : number_at rest rest' -> utf8 rest = true ->
  utf8 rest' = true /\ (length rest' < length rest)%nat.
Proof.
  intros [r r' Hd|r r' Hd _ _|r t r' H1 H2 _|r t m r' H1 H2 H3] Hu.
  - destruct (digits_at_keep _ _ Hd Hu) as [Hu' Hl]. rewrite utf8_ascii in Hu' by done. split; [done|simpl in Hl; lia].
  - by apply digits_at_keep.
  - destruct (digits_at_keep _ _ H1 Hu) as [Hu1 L1]. rewrite utf8_ascii in Hu1 by done.
    destruct (digits_at_keep _ _ H2 Hu1) as [Hu2 L2]. split; [done|simpl in L1; lia].
  - destruct (digits_at_keep _ _ H1 Hu) as [Hu1 L1]. rewrite utf8_ascii in Hu1 by done.
    destruct (digits_at_keep _ _ H2 Hu1) as [Hu2 L2]. destruct (exponent_keep _ _ H3 Hu2) as [Hu3 L3].
    split; [done|simpl in L1; lia].
Qed.

Lemma drop_drop' {A} (l : list A) n m : drop n (drop m l) = drop (m + n) l.
Proof. by rewrite drop_drop. Qed.

Lemma number_cases rest rest' : number_at rest rest' ->
  digits_at rest (letter_n :: rest') \/
  (digits_at rest rest' /\ (forall tail, rest' <> letter_n :: tail) /\
   (forall tail after, rest' = dot :: tail -> ~ digits_at tail after)) \/
  exists tail mid, digits_at rest (dot :: tail) /\ digits_at tail mid /\
    ((rest' = mid /\ forall after, ~ exponent_at mid after) \/ exponent_at mid rest').
Proof.
  intros [r r' Hd|r r' Hd H1 H2|r t r' H1 H2 H3|r t m r' H1 H2 H3]; [by left|right; by left|right; right..].
  - exists t, r'. split_and!; [done|done|]. by left.
  - exists t, m. split_and!; [done|done|]. by right.
Qed.

(** [skip_number] reads the longest number, if there is one. *)
Lemma skip_number_iff rest rest' : skip_number rest = Some rest' <-> number_at rest rest'.
Proof.
  assert (dot <> letter_n) as Hdn by done.
  unfold skip_number. destruct (Nat.eqb_spec (digits rest) 0) as [H0|H0].
  { split; [done|]. intros [Hd|[(Hd & _)|(t & m & Hd & _)]]%number_cases; by apply no_digits in Hd. }
  assert (digits_at rest (drop (digits rest) rest)) as Hd by (by apply digits_at_iff).
  assert (forall r, digits_at rest r -> r = drop (digits rest) rest) as Hdet by (by intros r [_ <-]%digits_at_iff).
  set (after := drop (digits rest) rest) in *. clearbody after.
  destruct after as [|b tail].
  { split; [intros [= <-]; by apply number_int|].
    intros [Hx|[(Hx & _)|(t & m & Hx & _)]]%number_cases; apply Hdet in Hx; congruence. }
  case_bool_decide as Hn.
  { change (b = letter_n) in Hn. subst b. split; [intros [= <-]; by apply number_nat|].
    intros [Hx|[(Hx & Hno & _)|(t & m & Hx & _)]]%number_cases; apply Hdet in Hx; congruence. }
  change (b <> letter_n) in Hn. case_bool_decide as Hdot; [subst b|].
  2:{ simpl. split; [intros [= <-]; apply number_int; [done|congruence|congruence]|].
      intros [Hx|[(Hx & _)|(t & m & Hx & _)]]%number_cases; apply Hdet in Hx; congruence. }
  destruct (Nat.ltb_spec 0 (digits tail)) as [Ht|Ht]; cbn [andb].
  2:{ split.
      - intros [= <-]. apply number_int; [done|congruence|]. intros t a [= <-] [Hx _]%digits_at_iff. lia.
      - intros [Hx|[(Hx & _)|(t & m & Hx & Hy & _)]]%number_cases; apply Hdet in Hx; try congruence.
        injection Hx as ->. apply digits_at_iff in Hy as [Hy _]. lia. }
  assert (digits_at tail (drop (digits tail) tail)) as Hd2 by (apply digits_at_iff; split; [lia|done]).
  assert (forall r, digits_at tail r -> r = drop (digits tail) tail) as Hdet2 by (by intros r [_ <-]%digits_at_iff).
  set (frac := drop (digits tail) tail) in *. clearbody frac.
  assert (number_at rest rest' <-> (rest' = frac /\ (forall a, ~ exponent_at frac a)) \/ exponent_at frac rest') as ->.
  { split.
    - intros [Hx|[(Hx & _ & Hno)|(t & m & Hx & Hy & He)]]%number_cases; apply Hdet in Hx; try congruence.
      + by destruct (Hno tail frac).
      + injection Hx as ->. by apply Hdet2 in Hy as ->.
    - intros [[-> He]|He]; [by eapply number_float|by eapply number_exponent]. }
  clear. destruct frac as [|e t].
  { split; [intros [= <-]; left; split; [done|]; by intros a ?%exponent_iff|].
    intros [[-> _]|He%exponent_iff]; done. }
  fold (is_e e). destruct (is_e e) eqn:Ee.
  2:{ split; [intros [= <-]; left; split; [done|]; intros a [He _]%exponent_iff; congruence|].
      intros [[-> _]|[He _]%exponent_iff]; [done|congruence]. }
  set (sign := match t with s :: _ => if _ || _ then 1%nat else 0%nat | [] => 0%nat end).
  assert (forall a, exponent_at (e :: t) a <-> digits_at (drop sign t) a) as Hiff.
  { intros a. rewrite exponent_iff. split; [by intros [_ ?]|by split]. }
  destruct (Nat.ltb_spec 0 (digits (drop sign t))) as [Hx|Hx].
  - rewrite Hiff, digits_at_iff, drop_drop'. split.
    + intros [= <-]. right. split; [lia|done].
    + intros [[-> Hno]|[_ <-]]; [|done]. exfalso. apply (Hno (drop (digits (drop sign t)) (drop sign t))).
      apply Hiff, digits_at_iff. split; [lia|done].
  - split.
    + intros [= <-]. left. split; [done|]. intros a [Ha _]%Hiff%digits_at_iff. lia.
    + intros [[-> _]|[Ha _]%Hiff%digits_at_iff]; [done|lia].
Qed.

(** *** Literals *)

Lemma hexdigit_ascii b : is_hexdigit b = true -> (code b < 128)%N.
Proof.
  unfold is_hexdigit, is_ascii_digit. rewrite !orb_true_iff.
  intros [[H|H]|H]; (eapply between_ascii; [|exact H]; lia).
Qed.

Lemma hexdigits_spec rest :
  Forall (fun b => is_hexdigit b = true) (take (hexdigits rest) rest) /\ (hexdigits rest <= length rest)%nat.
Proof.
  induction rest as [|b rest [IH Hl]]; simpl; [by split|]. fold (is_hexdigit b).
  destruct (is_hexdigit b) eqn:Hb; simpl; [split; [by constructor|lia]|split; [done|lia]].
Qed.

Lemma hexdigits_app hexs b rest : Forall (fun b => is_hexdigit b = true) hexs -> is_hexdigit b = false ->
  hexdigits (hexs ++ b :: rest) = length hexs.
Proof.
  intros Hh Hb. induction Hh as [|c hexs Hc _ IH]; simpl; fold (is_hexdigit b); [by rewrite Hb|].
  fold (is_hexdigit c). by rewrite Hc, IH.
Qed.

(** An escape of up to eight digits. *)
Lemma unicode_escape_iff tail rest :
  take_unicode_escape tail = Some rest <->
  exists u hexs, tail = u :: brace_open :: hexs ++ brace_close :: rest /\
    to_ascii_lowercase u = letter_u /\ (1 <= length hexs <= 8)%nat /\
    Forall (fun b => is_hexdigit b = true) hexs.
Proof.
  unfold take_unicode_escape. destruct tail as [|u [|brace tail]]; cbn [take];
    try (split; [done|]; by intros (? & ? & ? & _)).
  split.
  - destruct (length (take 9 tail) <? 2)%nat; [done|]. cbn [orb]. case_bool_decide as Hu; [|done].
    case_bool_decide as Hbr; [|done]. cbn [negb orb]. destruct (hexdigits_spec (take 9 tail)) as [Hh Hl].
    set (n := hexdigits (take 9 tail)) in *. clearbody n.
    destruct (Nat.eqb_spec n 0); [done|]. cbn [orb]. destruct (drop n (take 9 tail)) as [|c more] eqn:Ed; [done|].
    unfold at_byte. case_bool_decide as Hc; [|done]. intros [= <-]. subst brace c.
    assert (take 9 tail = take n (take 9 tail) ++ brace_close :: more) as E by (by rewrite <-Ed, take_drop).
    assert (length (take 9 tail) <= 9)%nat as Hlen by (rewrite length_take; lia).
    assert (length (take n (take 9 tail)) = n) as Hn by (rewrite length_take; lia).
    set (hexs := take n (take 9 tail)) in *. clearbody hexs. set (w := take 9 tail) in *.
    assert (tail = hexs ++ brace_close :: more ++ drop 9 tail) as Et.
    { rewrite <-(take_drop 9 tail) at 1. fold w. rewrite E. by rewrite <-app_assoc. }
    clearbody w. set (d := drop 9 tail) in *. clearbody d. subst tail. exists u, hexs. split_and!; [|done|lia| |done].
    + replace (n + 3)%nat with (S (S (length hexs + 1))) by lia. cbn [drop]. do 2 f_equal.
      by rewrite drop_app_add.
    + rewrite E, length_app in Hlen. simpl in Hlen. lia.
  - intros (u' & hexs & [= <- -> ->] & Hu & Hl & Hh).
    assert (take 9 (hexs ++ brace_close :: rest) = hexs ++ brace_close :: take (8 - length hexs) rest)
      as Ht.
    { rewrite take_app_ge by lia. f_equal. by replace (9 - length hexs)%nat with (S (8 - length hexs)) by lia. }
    rewrite Ht, hexdigits_app by done. rewrite !length_app. cbn [length].
    destruct (Nat.ltb_spec (length hexs + S (length (take (8 - length hexs) rest))) 2); [lia|].
    rewrite !bool_decide_eq_true_2 by done. destruct (Nat.eqb_spec (length hexs) 0); [lia|]. cbn [negb orb].
    rewrite drop_app_length. unfold at_byte. rewrite bool_decide_eq_true_2 by done. cbn [negb].
    do 2 f_equal. replace (length hexs + 3)%nat with (S (S (length hexs + 1))) by lia. cbn [drop].
    by rewrite drop_app_add.
Qed.

Lemma escapes_ascii c : c ∈ escapes -> (code c < 128)%N /\ to_ascii_lowercase c <> letter_u.
Proof.
  unfold escapes. simpl. intros Hc. repeat (apply elem_of_cons in Hc as [->|Hc]; [by vm_compute|]).
  by apply not_elem_of_nil in Hc.
Qed.

Lemma drop_char b tail : utf8 (b :: tail) = true ->
  utf8 (drop (char_len b) (b :: tail)) = true /\ (length (drop (char_len b) (b :: tail)) < length (b :: tail))%nat.
Proof.
  intros (conts & rest & -> & El & _ & _ & Hr)%utf8_cons. rewrite <-El. cbn [drop].
  rewrite drop_app_length. split; [done|]. simpl. rewrite length_app. lia.
Qed.

Lemma bump_char_cons b tail : utf8 (b :: tail) = true ->
  bump_char (b :: tail) = scan_ret (drop (char_len b) (b :: tail)).
Proof. intros Hu. unfold bump_char. by rewrite text_at_utf8. Qed.

Lemma lowercase_u_ascii u : to_ascii_lowercase u = letter_u -> (code u < 128)%N.
Proof.
  unfold to_ascii_lowercase, is_ascii_uppercase. destruct (between 65 90 u) eqn:E.
  - intros _. eapply between_ascii; [|exact E]. lia.
  - by intros ->.
Qed.

Lemma char_at_keep rest rest' : char_at rest rest' -> utf8 rest = true ->
  utf8 rest' = true /\ (length rest' < length rest)%nat.
Proof.
  intros [b tail Hb|c r Hc|u hexs r Hu Hl Hh].
  - apply drop_char.
  - apply escapes_ascii in Hc as [Hc _]. rewrite !utf8_ascii by done. intros ->. split; [done|simpl; lia].
  - apply lowercase_u_ascii in Hu. assert (Forall (fun b => (code b < 128)%N) hexs) as Ha.
    { eapply Forall_impl; [exact Hh|]. intros b. apply hexdigit_ascii. }
    rewrite !utf8_ascii, utf8_ascii_app, utf8_ascii by done. intros ->. split; [done|]. simpl. rewrite length_app. simpl. lia.
Qed.

Lemma take_char_body_at rest rest' : char_at rest rest' -> utf8 rest = true ->
  take_char_body rest = scan_ret rest'.
Proof.
  intros [b tail Hb|c r Hc|u hexs r Hu Hl Hh] H; unfold take_char_body.
  - rewrite bool_decide_eq_false_2 by done. cbn [negb]. by apply bump_char_cons.
  - rewrite bool_decide_eq_true_2 by done. cbn [negb].
    destruct (escapes_ascii c Hc) as [Ha Hne]. rewrite utf8_ascii in H by done.
    destruct (take_unicode_escape (c :: r)) as [x|] eqn:E.
    { apply unicode_escape_iff in E as (u & hexs & [= -> _] & Hu & _). done. }
    rewrite text_at_utf8 by done. cbn. by rewrite bool_decide_eq_true_2.
  - rewrite bool_decide_eq_true_2 by done. cbn [negb].
    by rewrite (proj2 (unicode_escape_iff _ r)) by (by exists u, hexs).
Qed.

Lemma take_char_body_returns rest : utf8 rest = true -> returns (char_at rest) (take_char_body rest).
Proof.
  intros Hu. destruct rest as [|b tail]; [done|]. simpl.
  case_bool_decide as Hb; cbn [negb]; [|rewrite bump_char_cons by done; by apply char_plain].
  subst b. destruct (take_unicode_escape tail) as [r|] eqn:E.
  - apply unicode_escape_iff in E as (u & hexs & -> & Hl & Hn & Hh). by apply char_unicode.
  - rewrite utf8_ascii in Hu by done. rewrite text_at_utf8 by done. cbn.
    destruct tail as [|c r]; [done|]. case_bool_decide; [|done]. by apply char_escape.
Qed.

Lemma strip_one b rest :
  strip_prefix [b] rest = match rest with c :: r => if bool_decide (c = b) then Some r else None | [] => None end.
Proof.
  destruct rest as [|c r]; [done|]. case_bool_decide as Hc.
  - subst c. by apply strip_prefix_Some.
  - destruct (strip_prefix [b] (c :: r)) as [x|] eqn:E; [|done]. apply strip_prefix_Some in E. simpl in E. congruence.
Qed.

Lemma string_loop_returns fuel rest : utf8 rest = true -> (length rest < fuel)%nat ->
  returns (string_tail rest) (string_loop fuel rest).
Proof.
  revert rest. induction fuel as [|fuel IH]; intros rest Hu Hf; [lia|]. cbn [string_loop].
  rewrite take_text_utf8, strip_one by done. cbn [scan_bind scan_ret].
  destruct rest as [|b tail]; [done|]. case_bool_decide as Hb; [subst b; by apply string_end|].
  eapply returns_bind; [by apply take_char_body_returns|]. intros mid Hc.
  destruct (char_at_keep _ _ Hc Hu) as [Hu' Hl].
  pose proof (IH mid Hu' ltac:(lia)) as Hr. destruct (string_loop fuel mid) as [[r|]|]; try done.
  apply (string_char _ mid); [by apply bool_decide_eq_false|done|done].
Qed.

Lemma string_tail_loop rest rest' : string_tail rest rest' -> forall fuel, utf8 rest = true ->
  (length rest < fuel)%nat -> string_loop fuel rest = scan_ret rest'.
Proof.
  induction 1 as [rest|rest mid rest' Hq Hc _ IH]; intros fuel Hu Hf; destruct fuel as [|fuel]; try lia;
    cbn [string_loop]; rewrite take_text_utf8, strip_one by done; cbn [scan_bind scan_ret].
  - by rewrite bool_decide_eq_true_2.
  - destruct (char_at_keep _ _ Hc Hu) as [Hu' Hl].
    destruct rest as [|b tail]; [by inversion Hc|]. simpl in Hq. rewrite Hq.
    rewrite (take_char_body_at _ _ Hc Hu). cbn [scan_bind scan_ret]. apply IH; [done|lia].
Qed.

Lemma string_tail_keep rest rest' : string_tail rest rest' -> utf8 rest = true ->
  utf8 rest' = true /\ (length rest' < length rest)%nat.
Proof.
  induction 1 as [rest|rest mid rest' _ Hc _ IH]; intros Hu.
  - rewrite utf8_ascii in Hu by done. split; [done|simpl; lia].
  - destruct (char_at_keep _ _ Hc Hu) as [Hu' Hl]. destruct (IH Hu'). split; [done|lia].
Qed.

Lemma string_at_keep rest rest' : string_at rest rest' -> utf8 rest = true ->
  utf8 rest' = true /\ (length rest' < length rest)%nat.
Proof.
  intros [r r' Ht] Hu. rewrite utf8_ascii in Hu by done. destruct (string_tail_keep _ _ Ht Hu).
  split; [done|simpl; lia].
Qed.

Lemma char_lit_keep rest rest' : char_lit_at rest rest' -> utf8 rest = true ->
  utf8 rest' = true /\ (length rest' < length rest)%nat.
Proof.
  intros [r r' Hc] Hu. rewrite utf8_ascii in Hu by done. destruct (char_at_keep _ _ Hc Hu) as [Hu' Hl].
  rewrite utf8_ascii in Hu' by done. split; [done|simpl in Hl |- *; lia].
Qed.

Lemma skip_string_returns tail : utf8 (quote :: tail) = true ->
  returns (string_at (quote :: tail)) (skip_string (quote :: tail)).
Proof.
  intros Hu. unfold skip_string. rewrite take_text_utf8, strip_one, bool_decide_eq_true_2 by done.
  cbn [scan_bind scan_ret]. rewrite utf8_ascii in Hu by done.
  pose proof (string_loop_returns (S (length tail)) tail Hu ltac:(lia)) as Hr.
  destruct (string_loop _ tail) as [[r|]|]; [by apply string_is|done|done].
Qed.

Lemma skip_string_at rest rest' : string_at rest rest' -> utf8 rest = true -> skip_string rest = scan_ret rest'.
Proof.
  intros [r r' Ht] Hu. unfold skip_string. rewrite take_text_utf8, strip_one, bool_decide_eq_true_2 by done.
  cbn [scan_bind scan_ret]. rewrite utf8_ascii in Hu by done. apply (string_tail_loop _ _ Ht); [done|lia].
Qed.

Lemma skip_char_lit_returns tail : utf8 (apostrophe :: tail) = true ->
  returns (char_lit_at (apostrophe :: tail)) (skip_char_lit (apostrophe :: tail)).
Proof.
  intros Hu. unfold skip_char_lit. rewrite take_text_utf8, strip_one, bool_decide_eq_true_2 by done.
  cbn [scan_bind scan_ret]. rewrite utf8_ascii in Hu by done.
  eapply returns_bind; [by apply take_char_body_returns|]. intros mid Hc.
  destruct (char_at_keep _ _ Hc Hu) as [Hu' _]. rewrite take_text_utf8, strip_one by done. cbn [scan_bind scan_ret].
  destruct mid as [|c r]; [done|]. case_bool_decide; [subst c|done]. by apply char_lit_is.
Qed.

Lemma skip_char_lit_at rest rest' : char_lit_at rest rest' -> utf8 rest = true ->
  skip_char_lit rest = scan_ret rest'.
Proof.
  intros [r r' Hc] Hu. unfold skip_char_lit. rewrite take_text_utf8, strip_one, bool_decide_eq_true_2 by done.
  cbn [scan_bind scan_ret]. rewrite utf8_ascii in Hu by done. rewrite (take_char_body_at _ _ Hc Hu).
  destruct (char_at_keep _ _ Hc Hu) as [Hu' _]. cbn [scan_bind scan_ret].
  rewrite take_text_utf8, strip_one, bool_decide_eq_true_2 by done. done.
Qed.

(** *** Parentheses *)

(** [d] levels are closed. *)
Fixpoint closed (d : nat) (rest rest' : list byte) : Prop :=
  match d with
  | O => rest' = rest
  | S d => exists mid, inside rest mid /\ closed d mid rest'
  end.

Lemma blanks_cons_keep rest b tail : blanks rest (b :: tail) -> utf8 rest = true ->
  utf8 (b :: tail) = true /\ (S (length tail) <= length rest)%nat.
Proof. intros Hb Hu. destruct (blanks_keep _ _ Hb Hu) as (? & ? & _). by split. Qed.

Lemma inside_keep rest rest' : inside rest rest' -> utf8 rest = true ->
  utf8 rest' = true /\ (length rest' < length rest)%nat.
Proof.
  induction 1 as [rest rest' Hb|rest mid after rest' Hb Hs _ IH|rest mid after rest' Hb Hc _ IH
    |rest mid after rest' Hb _ IH1 _ IH2|rest b tail rest' Hb _ _ _ _ IH]; intros Hu.
  - destruct (blanks_cons_keep _ _ _ Hb Hu) as [Hu' Hl]. rewrite utf8_ascii in Hu' by done. split; [done|lia].
  - destruct (blanks_keep _ _ Hb Hu) as (Hu1 & L1 & _). destruct (string_at_keep _ _ Hs Hu1) as [Hu2 L2].
    destruct (IH Hu2). split; [done|lia].
  - destruct (blanks_keep _ _ Hb Hu) as (Hu1 & L1 & _). destruct (char_lit_keep _ _ Hc Hu1) as [Hu2 L2].
    destruct (IH Hu2). split; [done|lia].
  - destruct (blanks_cons_keep _ _ _ Hb Hu) as [Hu1 L1]. rewrite utf8_ascii in Hu1 by done.
    destruct (IH1 Hu1) as [Hu2 L2]. destruct (IH2 Hu2). split; [done|lia].
  - destruct (blanks_cons_keep _ _ _ Hb Hu) as [Hu1 L1]. destruct (drop_char _ _ Hu1) as [Hu2 L2].
    destruct (IH Hu2). split; [done|simpl in L2; lia].
Qed.

Abbreviation balanced := (balanced_loop paren_open paren_close).

Lemma balanced_returns fuel d rest : utf8 rest = true -> (length rest + 1 < fuel)%nat ->
  (N.of_nat (d + length rest) <= u32_max)%N -> returns (closed d rest) (balanced fuel (N.of_nat d) rest).
Proof.
  revert d rest. induction fuel as [|fuel IH]; intros d rest Hu Hf Hd; [lia|]. cbn [balanced_loop].
  destruct d as [|d]; [done|]. destruct (N.ltb_spec 0 (N.of_nat (S d))); [|lia]. cbn [negb].
  pose proof (skip_blanks rest) as Hb. destruct (skip_keep rest Hu) as (Hu1 & L1 & _).
  destruct (skip rest) as [|b tail]; [done|]. cbn [at_byte].
  case_bool_decide as Hq.
  { subst b. eapply returns_bind; [by apply skip_string_returns|]. intros after Hs.
    destruct (string_at_keep _ _ Hs Hu1) as [Hu2 L2].
    pose proof (IH (S d) after Hu2 ltac:(lia) ltac:(lia)) as Hr.
    destruct (balanced fuel _ after) as [[r|]|]; try done.
    destruct Hr as (m & Hi & Hr). exists m. split; [by eapply inside_string|done]. }
  case_bool_decide as Ha.
  { subst b. eapply returns_bind; [by apply skip_char_lit_returns|]. intros after Hs.
    destruct (char_lit_keep _ _ Hs Hu1) as [Hu2 L2].
    pose proof (IH (S d) after Hu2 ltac:(lia) ltac:(lia)) as Hr.
    destruct (balanced fuel _ after) as [[r|]|]; try done.
    destruct Hr as (m & Hi & Hr). exists m. split; [by eapply inside_char|done]. }
  simpl in L1. case_bool_decide as Ho.
  { subst b. destruct (N.ltb_spec (N.of_nat (S d)) u32_max); [|lia]. rewrite utf8_ascii in Hu1 by done.
    replace (N.of_nat (S d) + 1)%N with (N.of_nat (S (S d))) by lia.
    pose proof (IH (S (S d)) tail Hu1 ltac:(lia) ltac:(lia)) as Hr.
    destruct (balanced fuel _ tail) as [[r|]|]; try done.
    destruct Hr as (m1 & Hi1 & m2 & Hi2 & Hr). exists m2. split; [by eapply inside_open|done]. }
  case_bool_decide as Hc.
  { subst b. rewrite utf8_ascii in Hu1 by done. replace (N.of_nat (S d) - 1)%N with (N.of_nat d) by lia.
    pose proof (IH d tail Hu1 ltac:(lia) ltac:(lia)) as Hr. destruct (balanced fuel _ tail) as [[r|]|]; try done.
    exists tail. split; [by apply inside_close|done]. }
  rewrite bump_char_cons by done. cbn [scan_bind scan_ret]. destruct (drop_char _ _ Hu1) as [Hu2 L2].
  simpl in L2. set (after := drop (char_len b) (b :: tail)) in *.
  pose proof (IH (S d) after Hu2 ltac:(lia) ltac:(lia)) as Hr.
  destruct (balanced fuel _ after) as [[r|]|]; try done.
  destruct Hr as (m & Hi & Hr). exists m. split; [by eapply inside_other|done].
Qed.

(** The loop goes through what is inside, one level down. *)
Lemma inside_balanced rest mid : inside rest mid -> utf8 rest = true -> forall d fuel r,
  (length rest + 1 < fuel)%nat -> (N.of_nat (S d + length rest) <= u32_max)%N ->
  (forall fuel', (length mid + 1 < fuel')%nat -> balanced fuel' (N.of_nat d) mid = scan_ret r) ->
  balanced fuel (N.of_nat (S d)) rest = scan_ret r.
Proof.
  induction 1 as [rest rest' Hb|rest mid after rest' Hb Hs _ IH|rest mid after rest' Hb Hc _ IH
    |rest mid after rest' Hb Hi1 IH1 _ IH2|rest b tail rest' Hb [Hq Ha] Ho Hc _ IH];
    intros Hu d fuel r Hf Hd Hk; (destruct fuel as [|fuel]; [lia|]); cbn [balanced_loop];
    (destruct (N.ltb_spec 0 (N.of_nat (S d))); [|lia]); cbn [negb]; rewrite (blanks_skip _ _ Hb).
  - destruct (blanks_cons_keep _ _ _ Hb Hu) as [Hu1 L1]. cbn [at_byte].
    do 3 rewrite bool_decide_eq_false_2 by discriminate. rewrite bool_decide_eq_true_2 by reflexivity.
    replace (N.of_nat (S d) - 1)%N with (N.of_nat d) by lia. apply Hk. lia.
  - destruct (blanks_keep _ _ Hb Hu) as (Hu1 & L1 & _). destruct (string_at_keep _ _ Hs Hu1) as [Hu2 L2].
    destruct mid as [|b tail]; [by inversion Hs|]. assert (b = quote) as -> by (by inversion Hs).
    cbn [at_byte]. rewrite bool_decide_eq_true_2 by done. rewrite (skip_string_at _ _ Hs Hu1).
    cbn [scan_bind scan_ret]. apply IH; [done|lia|lia|exact Hk].
  - destruct (blanks_keep _ _ Hb Hu) as (Hu1 & L1 & _). destruct (char_lit_keep _ _ Hc Hu1) as [Hu2 L2].
    destruct mid as [|b tail]; [by inversion Hc|]. assert (b = apostrophe) as -> by (by inversion Hc).
    cbn [at_byte]. rewrite bool_decide_eq_false_2, bool_decide_eq_true_2 by done.
    rewrite (skip_char_lit_at _ _ Hc Hu1). cbn [scan_bind scan_ret]. apply IH; [done|lia|lia|exact Hk].
  - destruct (blanks_cons_keep _ _ _ Hb Hu) as [Hu1 L1]. rewrite utf8_ascii in Hu1 by done. cbn [at_byte].
    do 2 rewrite bool_decide_eq_false_2 by discriminate. rewrite bool_decide_eq_true_2 by reflexivity.
    destruct (N.ltb_spec (N.of_nat (S d)) u32_max); [|lia].
    replace (N.of_nat (S d) + 1)%N with (N.of_nat (S (S d))) by lia.
    destruct (inside_keep _ _ Hi1 Hu1) as [Hu2 L2]. apply IH1; [done|lia|lia|].
    intros fuel' Hf'. apply IH2; [done|lia|lia|exact Hk].
  - destruct (blanks_cons_keep _ _ _ Hb Hu) as [Hu1 L1]. destruct (drop_char _ _ Hu1) as [Hu2 L2].
    simpl in L2. cbn [at_byte]. do 4 rewrite bool_decide_eq_false_2 by assumption.
    rewrite bump_char_cons by done. cbn [scan_bind scan_ret]. apply IH; [done|lia|lia|exact Hk].
Qed.

Lemma skip_balanced_returns rest : utf8 rest = true -> (N.of_nat (S (length rest)) <= u32_max)%N ->
  returns (inside rest) (skip_balanced paren_open paren_close rest).
Proof.
  intros Hu Hl. pose proof (balanced_returns (S (S (length rest))) 1 rest Hu ltac:(lia) Hl) as Hr.
  unfold skip_balanced. destruct (balanced _ _ rest) as [[r|]|]; try done. by destruct Hr as (m & Hi & ->).
Qed.

Lemma skip_balanced_inside rest rest' : inside rest rest' -> utf8 rest = true ->
  (N.of_nat (S (length rest)) <= u32_max)%N -> skip_balanced paren_open paren_close rest = scan_ret rest'.
Proof.
  intros Hi Hu Hl. apply (inside_balanced _ _ Hi Hu 0); [lia|done|]. intros [|fuel] Hf; [lia|done].
Qed.

(** *** The signature and the guard *)

Lemma optional_mark_keep rest rest' : optional_mark rest rest' -> utf8 rest = true ->
  utf8 rest' = true /\ (length rest' <= length rest)%nat.
Proof. intros [r|r _]; [rewrite utf8_ascii by done|]; intros ->; (split; [done|simpl; lia]). Qed.

Lemma optional_mark_iff rest rest' :
  optional_mark rest rest' <-> rest' = if at_byte question rest then drop 1 rest else rest.
Proof.
  split; [intros [r|r Hr]; [done|by rewrite Hr]|].
  destruct (at_byte question rest) eqn:E; intros ->; [|by apply no_mark].
  destruct rest as [|b rest]; [done|]. apply bool_decide_eq_true in E as ->. apply mark.
Qed.

Lemma signature_keep rest rest' : string_signature rest rest' -> utf8 rest = true ->
  utf8 rest' = true /\ (length rest' < length rest)%nat.
Proof.
  intros [r1 r2 r3 r4 r5 r6 r7 B1 Hm B2 Hi B3 B4 Hn B5] Hu.
  destruct (blanks_keep _ _ B1 Hu) as (U1 & L1 & _). destruct (optional_mark_keep _ _ Hm U1) as [U2 L2].
  destruct (blanks_cons_keep _ _ _ B2 U2) as [U3 L3]. rewrite utf8_ascii in U3 by done.
  destruct (inside_keep _ _ Hi U3) as [U4 L4]. destruct (blanks_keep _ _ B3 U4) as (U5 & L5 & _).
  rewrite utf8_ascii_app in U5 by (repeat constructor). rewrite length_app in L5.
  destruct (blanks_keep _ _ B4 U5) as (U6 & L6 & _). destruct (name_at_keep _ _ _ Hn U6) as [U7 L7].
  destruct (blanks_keep _ _ B5 U7) as (U8 & L8 & _). rewrite utf8_ascii_app in U8 by (repeat constructor).
  rewrite length_app in L8. split; [done|lia].
Qed.

Lemma word_string rest : utf8 rest = true ->
  at_word (string_bytes "String") rest = scan_ret true /\
    name_at (string_bytes "String") rest (drop (String.length "String") rest) \/
  at_word (string_bytes "String") rest = scan_ret false /\
    forall rest', ~ name_at (string_bytes "String") rest rest'.
Proof. intros Hu. apply at_word_name; [done|]. split; [done|by repeat constructor]. Qed.

Lemma word_def rest : utf8 rest = true ->
  at_word (string_bytes "def") rest = scan_ret true /\ name_at (string_bytes "def") rest (drop 3 rest) \/
  at_word (string_bytes "def") rest = scan_ret false /\ forall rest', ~ name_at (string_bytes "def") rest rest'.
Proof. intros Hu. apply at_word_name; [done|]. split; [done|by repeat constructor]. Qed.

Lemma name_at_rest name rest rest' : name_at name rest rest' -> rest' = drop (length name) rest.
Proof. intros [b tail _ _ _ -> _]. by rewrite drop_app_length. Qed.

Lemma main_returns_string_returns rest : utf8 rest = true -> (N.of_nat (length rest) <= u32_max)%N ->
  returns (fun '(ok, rest') => ok = true -> string_signature rest rest') (main_returns_string rest).
Proof.
  intros Hu Hl. unfold main_returns_string. pose proof (skip_blanks rest) as B1.
  destruct (skip_keep rest Hu) as (U1 & L1 & _). set (r1 := skip rest) in *. clearbody r1.
  set (r2 := if at_byte question r1 then drop 1 r1 else r1).
  assert (optional_mark r1 r2) as Hm by (by apply optional_mark_iff). clearbody r2.
  destruct (optional_mark_keep _ _ Hm U1) as [U2 L2]. pose proof (skip_blanks r2) as B2.
  destruct (skip_keep r2 U2) as (U3 & L3 & _). set (r3 := skip r2) in *. clearbody r3.
  rewrite take_text_utf8, strip_one by done. cbn [scan_bind scan_ret].
  destruct r3 as [|b r3]; [done|]. case_bool_decide; [subst b|done]. rewrite utf8_ascii in U3 by done.
  simpl in L3. eapply returns_bind; [apply skip_balanced_returns; [done|lia]|]. intros r4 Hi.
  destruct (inside_keep _ _ Hi U3) as [U4 L4]. pose proof (skip_blanks r4) as B3.
  destruct (skip_keep r4 U4) as (U5 & L5 & _). set (r5 := skip r4) in *. clearbody r5.
  rewrite take_text_utf8 by done. cbn [scan_bind scan_ret].
  destruct (strip_prefix (string_bytes "->") r5) as [r6|] eqn:E1; [|done]. apply strip_prefix_Some in E1 as ->.
  rewrite utf8_ascii_app in U5 by (repeat constructor). pose proof (skip_blanks r6) as B4.
  destruct (skip_keep r6 U5) as (U6 & L6 & _). set (r7 := skip r6) in *. clearbody r7.
  destruct (word_string r7 U6) as [[-> Hn]|[-> _]]; [|done]. cbn [scan_bind scan_ret negb].
  destruct (name_at_keep _ _ _ Hn U6) as [U7 L7]. set (r8 := drop _ r7) in *. clearbody r8.
  pose proof (skip_blanks r8) as B5. destruct (skip_keep r8 U7) as (U8 & L8 & _). set (r9 := skip r8) in *.
  clearbody r9. rewrite take_text_utf8 by done. cbn [scan_bind scan_ret].
  destruct (strip_prefix (string_bytes ":") r9) as [r10|] eqn:E2; [|done]. apply strip_prefix_Some in E2 as ->.
  intros _. by econstructor.
Qed.

Lemma main_returns_string_at rest rest' : string_signature rest rest' -> utf8 rest = true ->
  (N.of_nat (length rest) <= u32_max)%N -> main_returns_string rest = scan_ret (true, rest').
Proof.
  intros [r1 r2 r3 r4 r5 r6 r7 B1 Hm B2 Hi B3 B4 Hn B5] Hu Hl. unfold main_returns_string.
  destruct (blanks_keep _ _ B1 Hu) as (U1 & L1 & _). rewrite (blanks_skip _ _ B1).
  destruct (optional_mark_keep _ _ Hm U1) as [U2 L2]. apply optional_mark_iff in Hm. rewrite <-Hm.
  destruct (blanks_cons_keep _ _ _ B2 U2) as [U3 L3]. rewrite (blanks_skip _ _ B2).
  rewrite take_text_utf8, strip_one, bool_decide_eq_true_2 by done. cbn [scan_bind scan_ret].
  rewrite utf8_ascii in U3 by done. rewrite (skip_balanced_inside _ _ Hi U3) by lia. cbn [scan_bind scan_ret].
  destruct (inside_keep _ _ Hi U3) as [U4 L4]. destruct (blanks_keep _ _ B3 U4) as (U5 & L5 & _).
  rewrite (blanks_skip _ _ B3), take_text_utf8, (proj2 (strip_prefix_Some _ _ r5)) by done.
  cbn [scan_bind scan_ret]. rewrite utf8_ascii_app in U5 by (repeat constructor).
  destruct (blanks_keep _ _ B4 U5) as (U6 & L6 & _). rewrite (blanks_skip _ _ B4).
  destruct (word_string r6 U6) as [[-> _]|[_ Hno]]; [|by destruct (Hno r7)]. cbn [scan_bind scan_ret negb].
  destruct (name_at_keep _ _ _ Hn U6) as [U7 L7]. apply name_at_rest in Hn.
  change (length (string_bytes "String")) with (String.length "String") in Hn. rewrite <-Hn.
  destruct (blanks_keep _ _ B5 U7) as (U8 & L8 & _).
  by rewrite (blanks_skip _ _ B5), take_text_utf8, (proj2 (strip_prefix_Some _ _ rest')).
Qed.

(** The name after [def]. *)
Lemma def_name_returns rest : utf8 rest = true ->
  returns (fun '(main, rest') => exists r, blanks rest r /\ utf8 rest' = true /\ (length rest' <= length rest)%nat /\
    if (main : bool) then name_at (string_bytes "main") r rest' else other_name r rest') (def_name_is_main rest).
Proof.
  intros Hu. unfold def_name_is_main. destruct (skip_keep rest Hu) as (Hu1 & L1 & _).
  pose proof (read_name_returns (skip rest) Hu1) as Hr. pose proof (skip_blanks rest) as Hb.
  destruct (read_name (skip rest)) as [[[name r]|]|]; try done. cbn [scan_bind scan_ret returns] in Hr |- *.
  exists (skip rest). split; [done|]. destruct name as [name|].
  - destruct (name_at_keep _ _ _ Hr Hu1) as [Hu2 L2]. split; [done|]. split; [lia|].
    case_bool_decide as Hm; [by injection Hm as ->|]. apply (named name); [done|congruence].
  - destruct Hr as [-> Hr]. split_and!; [done|done|]. apply unnamed. intros name r' Hn%name_at_head.
    by destruct (skip rest) as [|b tail]; [|rewrite Hr in Hn].
Qed.

Lemma def_name_at rest r rest' : blanks rest r -> utf8 rest = true ->
  (name_at (string_bytes "main") r rest' -> def_name_is_main rest = scan_ret (true, rest')) /\
  (other_name r rest' -> def_name_is_main rest = scan_ret (false, rest')).
Proof.
  intros Hb Hu. unfold def_name_is_main. rewrite (blanks_skip _ _ Hb).
  destruct (blanks_keep _ _ Hb Hu) as (Hu1 & _ & _). split.
  - intros Hn. rewrite (read_name_at _ _ _ Hn Hu1). cbn [scan_bind scan_ret]. by rewrite bool_decide_eq_true_2.
  - intros Ho. inversion Ho as [name r1 r2 Hn Hne E1 E2|r1 Hno E1 E2]; subst r1.
    + rewrite (read_name_at _ _ _ Hn Hu1). cbn [scan_bind scan_ret]. subst r2.
      by rewrite bool_decide_eq_false_2 by congruence.
    + subst r. rewrite (no_name rest' Hu1 Hno). cbn [scan_bind scan_ret]. by rewrite bool_decide_eq_false_2.
Qed.

(** What begins a token begins no other. *)
Lemma head_apart b : name_head b = true \/ is_ascii_digit b = true -> b <> quote /\ b <> apostrophe.
Proof. intros H. split; intros ->; by destruct H. Qed.

Lemma digit_not_name b : is_ascii_digit b = true -> name_head b = false.
Proof.
  unfold is_ascii_digit, name_head, is_ascii_alphabetic, between. intros H.
  apply andb_prop in H as [H1 H2]. apply N.leb_le in H1, H2.
  assert (code b <> 95)%N by lia. rewrite bool_decide_eq_false_2 by (by intros ->). rewrite orb_false_r.
  apply orb_false_iff. split; apply andb_false_iff; left; apply N.leb_gt; lia.
Qed.

Lemma no_name_head b tail : name_head b = false -> forall name rest', ~ name_at name (b :: tail) rest'.
Proof. intros Hb name rest' Hn%name_at_head. congruence. Qed.

Lemma number_head rest rest' : number_at rest rest' -> match rest with b :: _ => is_ascii_digit b = true | [] => False end.
Proof.
  assert (forall r, digits_at rest r -> match rest with b :: _ => is_ascii_digit b = true | [] => False end) as Hd.
  { intros r [[|b ds] Hn Hds E _]; [done|]. apply Forall_cons in Hds as [Hb _]. by rewrite E. }
  intros [H|[[H _]|(t & m & H & _)]]%number_cases; by eapply Hd.
Qed.

Lemma skip_number_none b tail : is_ascii_digit b = false -> skip_number (b :: tail) = None.
Proof.
  intros Hb. destruct (skip_number (b :: tail)) as [r|] eqn:E; [|done].
  apply skip_number_iff, number_head in E. congruence.
Qed.

Lemma name_at_same name name' rest r r' : utf8 rest = true ->
  name_at name rest r -> name_at name' rest r' -> name = name'.
Proof.
  intros Hu H1 H2. apply read_name_at in H1, H2; [|done..]. rewrite H1 in H2. by injection H2.
Qed.

Lemma guard_returns fuel mains rest : utf8 rest = true -> (length rest < fuel)%nat ->
  (N.of_nat (length rest) <= u32_max)%N ->
  returns (fun m => exists n, m = (mains + n)%nat /\ defines rest n) (guard_loop fuel mains rest).
Proof.
  revert mains rest. induction fuel as [|fuel IH]; intros mains rest Hu Hf Hl; [lia|].
  assert (forall k more, utf8 more = true -> (length more < length rest)%nat ->
    (forall n, defines more n -> defines rest (k + n)) ->
    returns (fun m => exists n, m = (mains + n)%nat /\ defines rest n) (guard_loop fuel (k + mains) more)) as Hgo.
  { intros k more Hum Hlm Hd. pose proof (IH (k + mains)%nat more Hum ltac:(lia) ltac:(lia)) as Hr.
    destruct (guard_loop fuel _ more) as [[m|]|]; try done. destruct Hr as (n & -> & Hn).
    exists (k + n)%nat. split; [lia|auto]. }
  clear IH. cbn [guard_loop]. destruct rest as [|b0 rest0]; [exists 0%nat; split; [lia|by apply defines_end, blanks_stop]|].
  set (rest := b0 :: rest0) in *. clearbody rest. pose proof (skip_blanks rest) as Hb.
  destruct (skip_keep rest Hu) as (U1 & L1 & _).
  destruct (skip rest) as [|b tail]; [exists 0%nat; split; [lia|by apply defines_end]|].
  destruct (word_def (b :: tail) U1) as [[-> Hn]|[-> Hno]]; cbn [scan_bind scan_ret].
  - destruct (name_at_keep _ _ _ Hn U1) as [U2 L2]. set (r2 := drop 3 _) in *. clearbody r2.
    eapply returns_bind; [by apply def_name_returns|]. intros [main r4] (r3 & B3 & U4 & L4 & Hm).
    destruct main.
    + eapply returns_bind; [apply main_returns_string_returns; [done|lia]|]. intros [[] r5] Hs; [|done].
      specialize (Hs eq_refl). destruct (signature_keep _ _ Hs U4) as [U5 L5]. cbn [negb].
      apply (Hgo 1%nat); [done|lia|]. intros n Hd. by eapply defines_main.
    + apply (Hgo 0%nat); [done|lia|]. intros n Hd. by eapply defines_other.
  - cbn [at_byte]. case_bool_decide as Hq.
    { subst b. eapply returns_bind; [by apply skip_string_returns|]. intros r2 Hs.
      destruct (string_at_keep _ _ Hs U1) as [U2 L2]. apply (Hgo 0%nat); [done|lia|].
      intros n Hd. by eapply defines_string. }
    case_bool_decide as Ha.
    { subst b. eapply returns_bind; [by apply skip_char_lit_returns|]. intros r2 Hs.
      destruct (char_lit_keep _ _ Hs U1) as [U2 L2]. apply (Hgo 0%nat); [done|lia|].
      intros n Hd. by eapply defines_char. }
    eapply returns_bind; [by apply read_name_returns|]. intros [[name|] r2] Hr; cbn beta iota in Hr.
    { destruct (name_at_keep _ _ _ Hr U1) as [U2 L2]. apply (Hgo 0%nat); [done|lia|].
      intros n Hd. eapply defines_name; [done|exact Hr| |done]. intros ->. by apply Hno in Hr. }
    destruct Hr as [-> Hnh]. destruct (skip_number (b :: tail)) as [r3|] eqn:Es.
    { apply skip_number_iff in Es. destruct (number_at_keep _ _ Es U1) as [U2 L2].
      apply (Hgo 0%nat); [done|lia|]. intros n Hd. by eapply defines_number. }
    rewrite bump_char_cons by done. cbn [scan_bind scan_ret]. destruct (drop_char _ _ U1) as [U2 L2].
    apply (Hgo 0%nat); [done|lia|]. intros n Hd. eapply defines_byte; [done|done|done| |done].
    apply not_true_iff_false. intros Hdig. unfold skip_number in Es. simpl in Es. rewrite Hdig in Es. simpl in Es.
    by repeat case_match.
Qed.

(** The guard at the token [b :: tail], after the blanks before it. *)
Ltac at_token Hb :=
  let E := fresh "E" in
  pose proof (blanks_skip _ _ Hb) as E;
  match type of E with skip ?rest = _ => destruct rest as [|x0 xs0]; [discriminate E|]; cbn [guard_loop]; rewrite E end.

Lemma defines_guard rest n : defines rest n -> utf8 rest = true -> (N.of_nat (length rest) <= u32_max)%N ->
  forall fuel mains, (length rest < fuel)%nat -> guard_loop fuel mains rest = scan_ret (mains + n)%nat.
Proof.
  induction 1 as [rest Hb|rest r1 r2 r3 r4 r5 n Hb Hdef Hb2 Hmain Hs _ IH|rest r1 r2 r3 r4 n Hb Hdef Hb2 Ho _ IH
    |rest r1 r2 n Hb Hs _ IH|rest r1 r2 n Hb Hc _ IH|rest r1 name r2 n Hb Hn Hne _ IH|rest r1 r2 n Hb Hn _ IH
    |rest b tail n Hb [Hq Ha] Hh Hd _ IH]; intros Hu Hl [|fuel] mains Hf; try lia.
  - pose proof (blanks_skip _ _ Hb) as E. destruct rest as [|x xs]; cbn [guard_loop]; [by rewrite Nat.add_0_r|].
    rewrite E. by rewrite Nat.add_0_r.
  - destruct (blanks_keep _ _ Hb Hu) as (U1 & L1 & _). destruct (name_at_keep _ _ _ Hdef U1) as [U2 L2].
    destruct r1 as [|b t]; [by apply name_at_head in Hdef|]. at_token Hb.
    destruct (word_def _ U1) as [[-> _]|[_ Hno]]; [|by destruct (Hno r2)]. cbn [scan_bind scan_ret].
    rewrite <-(name_at_rest _ _ _ Hdef : r2 = drop 3 (b :: t)).
    rewrite (proj1 (def_name_at _ _ r4 Hb2 U2) Hmain). cbn [scan_bind scan_ret].
    destruct (blanks_keep _ _ Hb2 U2) as (U3 & L3 & _). destruct (name_at_keep _ _ _ Hmain U3) as [U4 L4].
    rewrite (main_returns_string_at _ _ Hs U4) by lia. destruct (signature_keep _ _ Hs U4) as [U5 L5].
    cbn [scan_bind scan_ret negb]. rewrite IH; [by rewrite Nat.add_succ_r|done|lia..].
  - destruct (blanks_keep _ _ Hb Hu) as (U1 & L1 & _). destruct (name_at_keep _ _ _ Hdef U1) as [U2 L2].
    destruct r1 as [|b t]; [by apply name_at_head in Hdef|]. at_token Hb.
    destruct (word_def _ U1) as [[-> _]|[_ Hno]]; [|by destruct (Hno r2)]. cbn [scan_bind scan_ret].
    rewrite <-(name_at_rest _ _ _ Hdef : r2 = drop 3 (b :: t)).
    pose proof (def_name_returns r2 U2) as Hr. rewrite (proj2 (def_name_at _ _ r4 Hb2 U2) Ho) in Hr |- *.
    cbn [scan_bind scan_ret returns] in Hr |- *. destruct Hr as (_ & _ & U4 & L4 & _).
    apply IH; [done|lia..].
  - destruct (blanks_keep _ _ Hb Hu) as (U1 & L1 & _). destruct (string_at_keep _ _ Hs U1) as [U2 L2].
    destruct r1 as [|b t]; [by inversion Hs|]. assert (b = quote) as -> by (by inversion Hs). at_token Hb.
    destruct (word_def _ U1) as [[_ Hw]|[-> _]]; [by apply name_at_head in Hw|].
    cbn [scan_bind scan_ret at_byte]. rewrite bool_decide_eq_true_2, (skip_string_at _ _ Hs U1) by done.
    cbn [scan_bind scan_ret]. apply IH; [done|lia..].
  - destruct (blanks_keep _ _ Hb Hu) as (U1 & L1 & _). destruct (char_lit_keep _ _ Hc U1) as [U2 L2].
    destruct r1 as [|b t]; [by inversion Hc|]. assert (b = apostrophe) as -> by (by inversion Hc). at_token Hb.
    destruct (word_def _ U1) as [[_ Hw]|[-> _]]; [by apply name_at_head in Hw|].
    cbn [scan_bind scan_ret at_byte]. rewrite bool_decide_eq_false_2, bool_decide_eq_true_2 by done.
    rewrite (skip_char_lit_at _ _ Hc U1). cbn [scan_bind scan_ret]. apply IH; [done|lia..].
  - destruct (blanks_keep _ _ Hb Hu) as (U1 & L1 & _). destruct (name_at_keep _ _ _ Hn U1) as [U2 L2].
    destruct r1 as [|b t]; [by apply name_at_head in Hn|]. at_token Hb.
    destruct (word_def _ U1) as [[_ Hw]|[-> _]]; [by destruct Hne; exact (name_at_same _ _ _ _ _ U1 Hn Hw)|].
    destruct (head_apart b) as [Hq Ha]; [left; by apply name_at_head in Hn|].
    cbn [scan_bind scan_ret at_byte]. do 2 rewrite bool_decide_eq_false_2 by done.
    rewrite (read_name_at _ _ _ Hn U1). cbn [scan_bind scan_ret]. apply IH; [done|lia..].
  - destruct (blanks_keep _ _ Hb Hu) as (U1 & L1 & _). destruct (number_at_keep _ _ Hn U1) as [U2 L2].
    pose proof (number_head _ _ Hn) as Hd. destruct r1 as [|b t]; [done|]. at_token Hb.
    pose proof (no_name_head b t (digit_not_name b Hd)) as Hnn.
    destruct (word_def _ U1) as [[_ Hw]|[-> _]]; [by apply Hnn in Hw|].
    destruct (head_apart b) as [Hq Ha]; [by right|].
    cbn [scan_bind scan_ret at_byte]. do 2 rewrite bool_decide_eq_false_2 by done.
    rewrite (no_name _ U1 Hnn). cbn [scan_bind scan_ret].
    rewrite (proj2 (skip_number_iff _ _) Hn). apply IH; [done|lia..].
  - destruct (blanks_keep _ _ Hb Hu) as (U1 & L1 & _). destruct (drop_char _ _ U1) as [U2 L2]. at_token Hb.
    pose proof (no_name_head b tail Hh) as Hnn.
    destruct (word_def _ U1) as [[_ Hw]|[-> _]]; [by apply Hnn in Hw|].
    cbn [scan_bind scan_ret at_byte]. do 2 rewrite bool_decide_eq_false_2 by done.
    rewrite (no_name _ U1 Hnn). cbn [scan_bind scan_ret]. rewrite (skip_number_none b tail Hd).
    rewrite bump_char_cons by done. cbn [scan_bind scan_ret]. apply IH; [done|lia..].
Qed.

(** C40. The guard accepts a source exactly when it defines one [main] and that
    [main] returns a String, reading comments, strings, characters, names and
    numbers as the grammar does: a definition hidden behind a carriage return,
    in a string or after a float is seen or is none just as the grammar says.
    It answers on every text, without a panic and without running on. *)
Theorem main_guard_iff source :
  utf8 source = true -> (N.of_nat (length source) <= u32_max)%N ->
  is_Some (assert_string_main source) /\
  (assert_string_main source = Some (Ok tt) <-> defines source 1).
Proof.
  intros Hu Hl. pose proof (guard_returns (S (length source)) 0 source Hu ltac:(lia) Hl) as Hr.
  assert (forall n, defines source n -> guard_loop (S (length source)) 0 source = scan_ret n) as Hd.
  { intros n Hn. apply (defines_guard source n Hn Hu Hl). lia. }
  unfold assert_string_main. destruct (guard_loop _ 0 source) as [[m|error]|]; cbn [scan_bind]; [| |done].
  - destruct Hr as (n & -> & Hn). simpl. split; [by destruct (n =? 1)%nat|].
    destruct (Nat.eqb_spec n 1) as [->|Hne]; [done|]. split; [done|]. intros H1%Hd. by injection H1.
  - split; [done|]. split; [done|]. by intros H1%Hd.
Qed.

Definition source_of (lines : list string) : list byte :=
  join_bytes newline (string_bytes <$> lines) ++ [newline].

Definition main_v1 : list string := ["def main() -> String:"; "  \v1\"].

(** The lines of [main_v1] with quotes for backslashes. *)
Definition quoted (lines : list string) : list byte :=
  (fun b => if bool_decide (b = backslash) then quote else b) <$> source_of lines.

Lemma main_guard_iff_witness : defines (quoted main_v1) 1.
Proof.
  assert (utf8 (quoted main_v1) = true) as Hu by (vm_compute; reflexivity).
  assert (N.of_nat (length (quoted main_v1)) <= u32_max)%N as Hl by (vm_compute; discriminate).
  apply (main_guard_iff (quoted main_v1) Hu Hl). vm_compute. reflexivity.
Defined.

(** Longer names that end or begin with [def] are no definitions; a
    definition in a string or a comment is none; one right after a float is. *)
Example guard_on_lookalikes :
  assert_string_main (quoted (main_v1 ++ ["xdef main() -> IO(u24):"; "defmain() -> IO(u24):"])) = Some (Ok tt) /\
  assert_string_main (quoted (main_v1 ++ ["def s() -> String:"; "  \def main() -> IO(u24):\"; "# def main() -> IO:"]))
    = Some (Ok tt) /\
  assert_string_main (quoted (main_v1 ++ ["def f() -> F32:"; "  1.5def main() -> IO(u24):"])) = main_must_be_string.
Proof. vm_compute. split_and!; reflexivity. Qed.
