(* ===== verification/BendRun.v ===== *)
(** * Running Bend ([workflow-bend/boundary.rs], [workflow-bend/lib.rs])

    [compile] stages a workflow's files in a private directory, checks Bend's
    version, has the proof checked and reads the program off Bend's output.
    Every process runs under [unshare], without the host's network, with its
    output capped and its time bounded.

    The operating system is the class [Os]: what it says of paths and files,
    and how a process behaves once spawned ([Behaviour]: what each read of its
    two pipes gives, and what each poll of it sees).  The state also lists the
    files written and the commands spawned with what was captured, which the code does not keep; the
    theorems read them. *)

From S2P Require Import Prelude Text Uuids Workflow Bend BendGuard.

Definition BEND_VERSION : string := "bend 2.0.28".
Definition SOURCE_LIMIT : nat := (64 * 1024)%nat.
Definition STDOUT_LIMIT : nat := (64 * 1024)%nat.
Definition STDERR_LIMIT : nat := (16 * 1024)%nat.

(** Times are in milliseconds. *)
Definition TIMEOUT : Z := 30000.
Definition STAGE_ATTEMPTS : nat := 8.
Definition STAGED_FILES : list string := ["workflow.bend"; "evals.bend"; "LAWS.bend"; "PROOF.bend"].
Definition RUN_FILES : list string := ["workflow.bend"; "evals.bend"].

Record Limits : Type := mkLimits { li_timeout : Z; li_stdout : nat; li_stderr : nat }.
Definition default_limits : Limits := mkLimits TIMEOUT STDOUT_LIMIT STDERR_LIMIT.

(** An exit status: whether it is a success, and its text. *)
Record ExitStatus : Type := mkStatus { es_success : bool; es_text : string }.

Record Captured : Type := mkCaptured { cp_status : ExitStatus; cp_stdout : string; cp_stderr : string }.

(** ** Processes *)

Record Command : Type := mkCommand {
  cm_program : string;
  cm_args : list string;
  cm_dir : string;
  cm_env : list (string * string);
}.

(** What a read of a pipe gives; no bytes is the end. *)
Inductive ReadResult := Bytes (b : list byte) | Interrupted | ReadError.

Inductive Waited := Exited (status : ExitStatus) | Running | WaitError (error : string).

(** What one turn of the loop sees: the flag a reader raises, the process, and
    the time. *)
Record Poll : Type := mkPoll { po_flag : bool; po_wait : Waited; po_now : Z }.

(** How a process behaves: its pipes' reads, the polls, and when the deadline
    is set. *)
Record Behaviour : Type := mkBehaviour {
  be_stdout : list ReadResult;
  be_stderr : list ReadResult;
  be_started : Z;
  be_polls : list Poll;
}.

Record Capped : Type := mkCapped { ca_bytes : list byte; ca_overflow : bool }.

(** [read_capped]; the end of the reads is the end of the pipe. *)
Fixpoint read_capped (limit : nat) (bytes : list byte) (reads : list ReadResult) : Capped :=
  match reads with
  | [] => mkCapped bytes false
  | Bytes [] :: _ => mkCapped bytes false
  | Bytes b :: reads =>
      let room := (limit - length bytes)%nat in
      if (room <? length b)%nat then mkCapped (bytes ++ take room b) true
      else read_capped limit (bytes ++ b) reads
  | Interrupted :: reads => read_capped limit bytes reads
  | ReadError :: _ => mkCapped bytes false
  end.

(** The loop that waits; [None] is a loop that has not ended by the last
    poll. *)
Fixpoint wait_loop (io_error : string -> FrontendError) (deadline : Z) (polls : list Poll)
    : option (result ExitStatus FrontendError) :=
  match polls with
  | [] => None
  | p :: polls =>
      if po_flag p then Some (Err FeOutputLimit)
      else
        match po_wait p with
        | Exited status => Some (Ok status)
        | Running => if (deadline <=? po_now p)%Z then Some (Err FeTimeout) else wait_loop io_error deadline polls
        | WaitError error => Some (Err (io_error error))
        end
  end.

Definition bytes_to_string (b : list byte) : result string FrontendError :=
  if utf8 b then Ok (bytes_string b) else Err (FeEncoding "bend output was not utf-8").

(** From the spawned process to what was captured. *)
Definition supervise (io_error : string -> FrontendError) (limits : Limits) (b : Behaviour)
    : option (result Captured FrontendError) :=
  match wait_loop io_error (be_started b + li_timeout limits) (be_polls b) with
  | None => None
  | Some (Err error) => Some (Err error)
  | Some (Ok status) =>
      let stdout := read_capped (li_stdout limits) [] (be_stdout b) in
      let stderr := read_capped (li_stderr limits) [] (be_stderr b) in
      if ca_overflow stdout || ca_overflow stderr then Some (Err FeOutputLimit)
      else
        match bytes_to_string (ca_bytes stdout) with
        | Err error => Some (Err error)
        | Ok stdout =>
            match bytes_to_string (ca_bytes stderr) with
            | Err error => Some (Err error)
            | Ok stderr => Some (Ok (mkCaptured status stdout stderr))
            end
        end
  end.

Definition failure_text (captured : Captured) : string :=
  if negb (bool_decide (cp_stderr captured = "")) then trim (cp_stderr captured)
  else if negb (bool_decide (cp_stdout captured = "")) then trim (cp_stdout captured)
  else "bend exited " +:+ es_text (cp_status captured).

(** ** The operating system *)

Inductive MakeError := AlreadyExists | OtherError (error : string).

(** What [symlink_metadata] says: whether it is a regular file, and its length. *)
Record Metadata : Type := mkMetadata { me_file : bool; me_len : N }.

Class Os (W : Type) : Type := {
  env_var : string -> W -> option string;
  is_file : string -> W -> bool;
  temp_dir : W -> string;
  process_id : W -> N;
  random_u64 : W -> result N string * W;
  make_dir : string -> W -> result unit MakeError * W;
  metadata : string -> W -> result Metadata string;
  open_read : string -> W -> result (list byte) string;
  create_file : string -> list byte -> W -> result unit string * W;
  remove_dir : string -> W -> W;
  probe : Command -> W -> result bool string * W;
  spawn : Command -> W -> result Behaviour string * W;
}.

Section Boundary.
Context {W : Type} `{Os W} (debug : string -> string).

(** [ARGS] is the static; the lists are the latest first. *)
Record Boundary : Type := mkBoundary {
  bo_world : W;
  bo_args : option (result (list string) string);
  bo_written : list (string * list byte);
  bo_spawned : list (Command * result Captured FrontendError);
}.

Definition run (A : Type) : Type := Boundary -> A * Boundary.

Definition run_ret {A} (x : A) : run A := fun b => (x, b).
Definition run_bind {A B} (m : run (result A FrontendError)) (f : A -> run (result B FrontendError))
    : run (result B FrontendError) :=
  fun b => match m b with (Ok x, b) => f x b | (Err error, b) => (Err error, b) end.

#[local] Notation "'let?' x ':=' m 'in' k" := (run_bind m (fun x => k))
  (at level 10, x pattern, k at level 200, right associativity).

Definition os {A} (f : W -> A * W) : run A :=
  fun b => let '(x, w) := f (bo_world b) in (x, mkBoundary w (bo_args b) (bo_written b) (bo_spawned b)).

Definition io_error (action path error : string) : FrontendError :=
  FeSetup (action +:+ " " +:+ path +:+ ": " +:+ error).

Definition search_path (name : string) (w : W) : option string :=
  path ← env_var "PATH" w;
  List.find (fun candidate => is_file candidate w)
    ((fun dir => path_join (bytes_string dir) name) <$> split_bytes (Ascii.ascii_of_N 58) (string_bytes path)).

Definition bend_program : run (result string FrontendError) := fun b =>
  let w := bo_world b in
  let home :=
    match env_var "HOME" w with
    | Some home =>
        let candidate := path_join home ".bend/bin/bend" in
        if is_file candidate w then Ok candidate
        else Err (FeSetup "bend 2.0.28 is not installed; run ./scripts/install-bend.sh")
    | None => Err (FeSetup "bend 2.0.28 is not installed; run ./scripts/install-bend.sh")
    end in
  let searched := match search_path "bend" w with Some path => Ok path | None => home end in
  (match env_var "BEND" w with
   | Some path => if bool_decide (path = "") then searched else Ok path
   | None => searched
   end, b).

Definition unshare_program : run (result string FrontendError) := fun b =>
  let w := bo_world b in
  (if is_file "/usr/bin/unshare" w then Ok "/usr/bin/unshare"
   else match search_path "unshare" w with
        | Some path => Ok path
        | None => Err (FeSetup "unshare is required to run bend without network")
        end, b).

Definition unshare_ok (unshare : string) (args : list string) : run bool := fun b =>
  match os (probe (mkCommand unshare (args ++ ["--"; "/bin/true"]) "" [])) b with
  | (Ok success, b) => (success, b)
  | (Err _, b) => (false, b)
  end.

Definition NO_NAMESPACE : string :=
  "unshare cannot create a network namespace (writing /proc/self/uid_map failed and unshare -n was rejected)".

Definition network_unshare_args (unshare : string) : run (result (list string) FrontendError) := fun b =>
  let '(args, b) :=
    match bo_args b with
    | Some args => (args, b)
    | None =>
        let '(ok, b) := unshare_ok unshare ["-r"; "-n"] b in
        let '(args, b) :=
          if ok then (Ok ["-r"; "-n"], b)
          else
            let '(ok, b) := unshare_ok unshare ["-n"] b in
            if ok then (Ok ["-n"], b) else (Err NO_NAMESPACE, b) in
        (args, mkBoundary (bo_world b) (Some args) (bo_written b) (bo_spawned b))
    end in
  (match args with Ok args => Ok args | Err message => Err (FeSetup message) end, b).

(** [run_sandboxed]; a process that outlives the polls has no answer, and is
    taken as timed out ([wait_ends] says the polls are enough). *)
Definition run_sandboxed (program : string) (args : list string) (dir : string) (limits : Limits)
    : run (result Captured FrontendError) :=
  let? unshare := unshare_program in
  let? flags := network_unshare_args unshare in
  fun b =>
    let command := mkCommand unshare (flags ++ "--" :: program :: args) dir [("BEND_NO_TELEMETRY", "1")] in
    match os (spawn command) b with
    | (Err error, b) => (Err (io_error "spawn" program error), b)
    | (Ok behaviour, b) =>
        let r :=
          match supervise (io_error "wait" program) limits behaviour with
          | Some captured => captured
          | None => Err FeTimeout
          end in
        (r, mkBoundary (bo_world b) (bo_args b) (bo_written b) ((command, r) :: bo_spawned b))
    end.

Definition check_version (bend dir : string) : run (result unit FrontendError) :=
  let? captured := run_sandboxed bend ["version"] dir default_limits in
  run_ret
    (if negb (es_success (cp_status captured)) then Err (FeVersion (failure_text captured))
     else if negb (bool_decide (cp_stdout captured = BEND_VERSION +:+ bytes_string [newline])) ||
             negb (bool_decide (cp_stderr captured = ""))
     then Err (FeVersion ("expected " +:+ BEND_VERSION +:+ ", found " +:+ trim (cp_stdout captured)))
     else Ok tt).

(** ** Staging *)

(** [Path::components] of a name, as far as it is asked: whether there is one,
    a normal one.  Empty parts and later dots are dropped. *)
Definition one_component (name : string) : bool :=
  match split_bytes (Ascii.ascii_of_N 47) (string_bytes name) with
  | [] => false
  | first :: rest =>
      let normal part := negb (bool_decide (part = [])) && negb (bool_decide (part = string_bytes ".")) in
      if bool_decide (first = []) || bool_decide (first = string_bytes ".") then false
      else negb (bool_decide (first = string_bytes "..")) && negb (existsb normal rest)
  end.

Fixpoint create_private_dir (tries : nat) (parent : string) (name : run (result string FrontendError))
    : run (result string FrontendError) :=
  match tries with
  | O => run_ret (Err (FeSetup ("no free staging directory in " +:+ parent +:+ " after " +:+
                                pretty STAGE_ATTEMPTS +:+ " tries")))
  | S tries =>
      let? name' := name in
      if negb (one_component name') then
        run_ret (Err (FeSetup ("staging name " +:+ debug name' +:+ " is not one path component")))
      else
        fun b =>
          let dir := path_join parent name' in
          match os (make_dir dir) b with
          | (Ok _, b) => (Ok dir, b)
          | (Err AlreadyExists, b) => create_private_dir tries parent name b
          | (Err (OtherError error), b) => (Err (io_error "create" dir error), b)
          end
  end.

Definition write_new (path : string) (bytes : list byte) : run (result unit FrontendError) := fun b =>
  match os (create_file path bytes) b with
  | (Ok _, b) => (Ok tt, mkBoundary (bo_world b) (bo_args b) ((path, bytes) :: bo_written b) (bo_spawned b))
  | (Err error, b) => (Err (io_error "write" path error), b)
  end.

Definition read_source (path : string) : run (result (list byte) FrontendError) := fun b =>
  let w := bo_world b in
  (match metadata path w with
   | Err error => Err (io_error "read" path error)
   | Ok meta =>
       if negb (me_file meta) then Err (FeSetup (path +:+ " must be a regular file"))
       else if (N.of_nat SOURCE_LIMIT <? me_len meta)%N then Err FeOutputLimit
       else
         match open_read path w with
         | Err error => Err (io_error "read" path error)
         | Ok bytes =>
             if (SOURCE_LIMIT <? length bytes)%nat then Err FeOutputLimit
             else if utf8 bytes then Ok bytes
             else Err (FeEncoding (path +:+ " is not utf-8"))
         end
   end, b).

Definition hex16 (n : N) : string := bytes_string (hex_list 16 n).

Definition staging_name : run (result string FrontendError) := fun b =>
  match os random_u64 b with
  | (Ok suffix, b) => (Ok ("gol-bend-" +:+ pretty (process_id (bo_world b)) +:+ "-" +:+ hex16 suffix), b)
  | (Err error, b) => (Err (FeSetup ("no random staging name: " +:+ error)), b)
  end.

(** One file: read, guarded if its main is run, and written as it was read;
    [None] is a panic of the guard. *)
Definition stage_file (source dir name : string) : run (option (result unit FrontendError)) := fun b =>
  match read_source (path_join source name) b with
  | (Err error, b) => (Some (Err error), b)
  | (Ok text, b) =>
      let guarded :=
        if bool_decide (name ∈ RUN_FILES) then
          match assert_string_main text with
          | Some (Err (FeEncoding message)) => Some (Err (FeEncoding (name +:+ " " +:+ message)))
          | other => other
          end
        else Some (Ok tt) in
      match guarded with
      | None => (None, b)
      | Some (Err error) => (Some (Err error), b)
      | Some (Ok _) => let '(r, b) := write_new (path_join dir name) text b in (Some r, b)
      end
  end.

(** The files in order, until one fails. *)
Fixpoint stage_files (source dir : string) (names : list string) : run (option (result unit FrontendError)) :=
  match names with
  | [] => run_ret (Some (Ok tt))
  | name :: names => fun b =>
      match stage_file source dir name b with
      | (Some (Ok _), b) => stage_files source dir names b
      | other => other
      end
  end.

(** [Staged] is its directory; dropping it removes the directory. *)
Definition drop_staged (dir : string) : run unit := os (fun w => (tt, remove_dir dir w)).

Definition stage (source : string) : run (option (result string FrontendError)) := fun b =>
  match create_private_dir STAGE_ATTEMPTS (temp_dir (bo_world b)) staging_name b with
  | (Err error, b) => (Some (Err error), b)
  | (Ok dir, b) =>
      match stage_files source dir STAGED_FILES b with
      | (Some (Ok _), b) => (Some (Ok dir), b)
      | (Some (Err error), b) => let '(_, b) := drop_staged dir b in (Some (Err error), b)
      | (None, b) => let '(_, b) := drop_staged dir b in (None, b)
      end
  end.

(** ** [compile] *)

(** What is done with the staged directory [dir]. *)
Definition compile_staged (bend dir : string) : run (result WorkflowProgram FrontendError) :=
  let? _ := check_version bend dir in
  let? proof := run_sandboxed bend ["PROOF.bend"; "--check-only"] dir default_limits in
  if negb (es_success (cp_status proof)) then run_ret (Err (FeProof (failure_text proof)))
  else if negb (bool_decide (cp_stdout proof = "All terms check." +:+ bytes_string [newline])) ||
          negb (bool_decide (cp_stderr proof = ""))
  then run_ret (Err (FeProof "proof check did not report All terms check."))
  else
    let? encoded := run_sandboxed bend ["workflow.bend"] dir default_limits in
    run_ret
      (if negb (es_success (cp_status encoded)) then Err (FeEncoding (failure_text encoded))
       else if negb (bool_decide (cp_stderr encoded = "")) then Err (FeEncoding (trim (cp_stderr encoded)))
       else parse_encoding (cp_stdout encoded)).

Definition compile (source : string) : run (option (result WorkflowProgram FrontendError)) := fun b =>
  match bend_program b with
  | (Err error, b) => (Some (Err error), b)
  | (Ok bend, b) =>
      match stage source b with
      | (None, b) => (None, b)
      | (Some (Err error), b) => (Some (Err error), b)
      | (Some (Ok dir), b) =>
          let '(r, b) := compile_staged bend dir b in
          let '(_, b) := drop_staged dir b in
          (Some r, b)
      end
  end.

End Boundary.

(** ** What is captured *)

(** All that a pipe gave before it ended. *)
Fixpoint pipe_bytes (reads : list ReadResult) : list byte :=
  match reads with
  | [] | Bytes [] :: _ | ReadError :: _ => []
  | Bytes b :: reads => b ++ pipe_bytes reads
  | Interrupted :: reads => pipe_bytes reads
  end.

Lemma read_capped_whole limit bytes reads : (length bytes <= limit)%nat ->
  let c := read_capped limit bytes reads in
  (length (ca_bytes c) <= limit)%nat /\
  (if ca_overflow c then (limit < length (bytes ++ pipe_bytes reads))%nat
   else ca_bytes c = bytes ++ pipe_bytes reads).
Proof.
  revert bytes. induction reads as [|[[|x b]| |] reads IH]; intros bytes Hl; cbn [read_capped pipe_bytes];
    try (simpl; by rewrite app_nil_r); [|by apply IH].
  assert (exists data, data = x :: b) as [data E] by (by eexists). rewrite <-E.
  destruct (Nat.ltb_spec (limit - length bytes) (length data)); cbn [ca_bytes ca_overflow].
  - rewrite !length_app, length_take. split; lia.
  - rewrite app_assoc. apply IH. rewrite length_app. lia.
Qed.

(** The loop ends: at the latest at a poll past the deadline. *)
Lemma wait_ends f deadline polls : Exists (fun p => (deadline <= po_now p)%Z) polls ->
  is_Some (wait_loop f deadline polls).
Proof.
  induction 1 as [p polls Hp|p polls _ IH]; simpl; destruct (po_flag p); try done; destruct (po_wait p); try done.
  - destruct (Z.leb_spec deadline (po_now p)); [done|lia].
  - by destruct (deadline <=? po_now p)%Z.
Qed.

Lemma wait_exited f deadline polls status : wait_loop f deadline polls = Some (Ok status) ->
  exists before p after, polls = before ++ p :: after /\ po_wait p = Exited status /\
    Forall (fun p => po_flag p = false /\ po_wait p = Running /\ (po_now p < deadline)%Z) before.
Proof.
  induction polls as [|p polls IH]; simpl; [done|]. destruct (po_flag p) eqn:Ef; [done|].
  destruct (po_wait p) as [s| |] eqn:Ew; [|destruct (Z.leb_spec deadline (po_now p)); [done|]|done].
  - intros [= ->]. exists [], p, polls. split_and!; [done|done|by constructor].
  - intros (before & q & after & -> & Hq & Hb)%IH. exists (p :: before), q, after.
    split_and!; [done|done|by constructor].
Qed.

(** What is captured is whole: if a process is reported to have exited, its two
    outputs are everything its pipes gave, each within its limit, and it had not
    exited only before the deadline; more output than the limit is never cut
    and taken for whole.  And the loop ends, by the first poll past the
    deadline. *)
Theorem captured_is_whole f limits b :
  (forall c, supervise f limits b = Some (Ok c) ->
     string_bytes (cp_stdout c) = pipe_bytes (be_stdout b) /\
     string_bytes (cp_stderr c) = pipe_bytes (be_stderr b) /\
     (String.length (cp_stdout c) <= li_stdout limits)%nat /\
     (String.length (cp_stderr c) <= li_stderr limits)%nat /\
     exists before p after, be_polls b = before ++ p :: after /\ po_wait p = Exited (cp_status c) /\
       Forall (fun p => (po_now p < be_started b + li_timeout limits)%Z) before) /\
  ((li_stdout limits < length (pipe_bytes (be_stdout b)) \/
    li_stderr limits < length (pipe_bytes (be_stderr b)))%nat ->
   forall c, supervise f limits b <> Some (Ok c)) /\
  (Exists (fun p => (be_started b + li_timeout limits <= po_now p)%Z) (be_polls b) ->
   is_Some (supervise f limits b)).
Proof.
  pose proof (read_capped_whole (li_stdout limits) [] (be_stdout b) ltac:(simpl; lia)) as [Ho Eo].
  pose proof (read_capped_whole (li_stderr limits) [] (be_stderr b) ltac:(simpl; lia)) as [He Ee].
  unfold supervise. split_and!.
  - intros c. destruct (wait_loop _ _ _) as [[status|]|] eqn:Ew; try done.
    apply wait_exited in Ew as (before & p & after & Hp & Hw & Hb). simpl in Eo, Ee |- *.
    destruct (ca_overflow (read_capped _ _ (be_stdout b))); [done|].
    destruct (ca_overflow (read_capped _ _ (be_stderr b))); [done|]. simpl.
    unfold bytes_to_string. destruct (utf8 (ca_bytes (read_capped _ _ (be_stdout b)))); [|done].
    destruct (utf8 _); [|done]. intros [= <-]. simpl. rewrite !string_bytes_string.
    assert (forall l, String.length (bytes_string l) = length l) as Hlen.
    { intros l. unfold bytes_string. by induction l as [|x l IH]; simpl; [|rewrite IH]. }
    rewrite !Hlen. split_and!; try done. exists before, p, after. split_and!; try done.
    eapply Forall_impl; [exact Hb|]. intros q (_ & _ & Hq). exact Hq.
  - intros Hover c. destruct (wait_loop _ _ _) as [[status|]|]; try done. simpl in Eo, Ee.
    destruct (ca_overflow (read_capped _ _ (be_stdout b))); [done|].
    destruct (ca_overflow (read_capped _ _ (be_stderr b))); [done|].
    exfalso. rewrite Eo in Ho. rewrite Ee in He. simpl in Ho, He. lia.
  - intros Hex%(wait_ends f). destruct Hex as [[status|error] ->]; [|done].
    destruct (_ || _); [done|]. destruct (bytes_to_string _); [|done]. by destruct (bytes_to_string _).
Qed.

(** ** What [compile] runs *)

Section Compiled.
Context {W : Type} `{Os W} (debug : string -> string).

(** The flags that leave the host's network. *)
Definition namespaced (flags : list string) : Prop := flags = ["-r"; "-n"] \/ flags = ["-n"].

(** A command that runs [program] in [dir], without the host's network and
    environment. *)
Definition isolated (program dir : string) (args : list string) (c : Command) : Prop :=
  exists flags, namespaced flags /\ cm_args c = flags ++ "--" :: program :: args /\
    cm_dir c = dir /\ cm_env c = [("BEND_NO_TELEMETRY", "1")].

Implicit Types b : (@Boundary W).

Definition args_known (b : @Boundary W) : Prop := forall flags, bo_args b = Some (Ok flags) -> namespaced flags.

(** What an operation leaves of the lists and of the static. *)
Record leaves (b b' : @Boundary W) : Prop := {
  lv_args : args_known b -> args_known b';
  lv_written : bo_written b' = bo_written b;
  lv_spawned : bo_spawned b' = bo_spawned b;
}.

Lemma leaves_refl b : leaves b b.
Proof. done. Qed.

Lemma leaves_trans b1 b2 b3 : leaves b1 b2 -> leaves b2 b3 -> leaves b1 b3.
Proof. intros [A1 W1 S1] [A2 W2 S2]. split; [auto|congruence|congruence]. Qed.

Lemma os_leaves {A} (f : W -> A * W) b : leaves b (os f b).2.
Proof. unfold os. destruct (f (bo_world b)). by split. Qed.

Lemma network_args_leave unshare b r b' : network_unshare_args unshare b = (r, b') ->
  leaves b b' /\ forall flags, args_known b -> r = Ok flags -> namespaced flags.
Proof.
  unfold network_unshare_args, unshare_ok. destruct (bo_args b) as [args|] eqn:Ea.
  { intros [= <- <-]. split; [apply leaves_refl|]. intros flags Hk. destruct args as [a|]; [|done].
    intros [= <-]. by apply Hk. }
  pose proof (os_leaves (probe (mkCommand unshare (["-r"; "-n"] ++ ["--"; "/bin/true"]) "" [])) b) as L1.
  destruct (os _ b) as [[[]|e] b1]; simpl in L1.
  { intros [= <- <-]. split; [|intros flags _ [= <-]; by left]. split; [intros _ flags [= <-]; by left|apply L1..]. }
  all: pose proof (os_leaves (probe (mkCommand unshare (["-n"] ++ ["--"; "/bin/true"]) "" [])) b1) as L2;
    pose proof (leaves_trans _ _ _ L1 L2) as L3; destruct (os _ b1) as [[[]|e2] b2]; simpl in L2, L3;
    intros [= <- <-]; (split; [split; [|apply L3..]|]);
    [intros _ flags [= <-]; by right|intros flags _ [= <-]; by right|intros _ flags [=]|by intros|intros _ flags [=]|by intros].
Qed.

(** A run either fails before anything is spawned, or has spawned one isolated
    command and answers what it captured. *)
Lemma run_sandboxed_spawns program args dir limits b r b' :
  run_sandboxed program args dir limits b = (r, b') -> args_known b ->
  args_known b' /\ bo_written b' = bo_written b /\
  ((exists error, r = Err error /\ bo_spawned b' = bo_spawned b) \/
   exists c, isolated program dir args c /\ bo_spawned b' = (c, r) :: bo_spawned b).
Proof.
  unfold run_sandboxed, run_bind. intros Hr Hk.
  destruct (unshare_program b) as [[unshare|e] b1] eqn:Eu.
  2:{ injection Hr as <- <-. unfold unshare_program in Eu. injection Eu as _ <-. split_and!; [done|done|eauto]. }
  assert (b1 = b) as -> by (unfold unshare_program in Eu; congruence).
  destruct (network_unshare_args unshare b) as [[flags|e] b2] eqn:En; apply network_args_leave in En as [L2 Hf].
  2:{ injection Hr as <- <-. split_and!; [by apply L2|by apply L2|]. left. exists e. split; [done|by apply L2]. }
  set (command := mkCommand _ _ _ _) in Hr. pose proof (os_leaves (spawn command) b2) as L3.
  destruct (os (spawn command) b2) as [[behaviour|e] b3]; simpl in L3; injection Hr as <- <-;
    pose proof (leaves_trans _ _ _ L2 L3) as [A3 W3 S3].
  - split_and!; [exact (A3 Hk)|done|]. right. exists command. simpl. rewrite S3. split; [|done].
    exists flags. split_and!; try done. by apply Hf.
  - split_and!; [exact (A3 Hk)|done|]. left. eauto.
Qed.

(** *** Staging *)

Lemma staging_name_leaves b : leaves b (staging_name b).2.
Proof.
  unfold staging_name. pose proof (os_leaves random_u64 b) as L. by destruct (os random_u64 b) as [[s|e] b1].
Qed.

(** The directory is one that [make_dir] made, named by one component. *)
Lemma create_private_dir_leaves tries parent b r b' :
  create_private_dir debug tries parent staging_name b = (r, b') ->
  leaves b b' /\ forall dir, r = Ok dir ->
    exists name w w', one_component name = true /\ dir = path_join parent name /\ make_dir dir w = (Ok tt, w').
Proof.
  revert b. induction tries as [|tries IH]; intros b; cbn [create_private_dir];
    [intros [= <- <-]; by split|]. unfold run_bind. pose proof (staging_name_leaves b) as L1.
  destruct (staging_name b) as [[name|e] b1]; simpl in L1; [|intros [= <- <-]; by split].
  destruct (one_component name) eqn:Eo; [|intros [= <- <-]; by split]. simpl.
  pose proof (os_leaves (make_dir (path_join parent name)) b1) as L2. unfold os in L2 |- *.
  destruct (make_dir (path_join parent name) (bo_world b1)) as [[[]|[|e]] w'] eqn:Em; simpl in L2.
  - intros [= <- <-]. split; [by eapply leaves_trans|]. intros dir [= <-].
    by exists name, (bo_world b1), w'.
  - intros Hr. destruct (IH _ Hr) as [L3 Hd]. split; [|done].
    eapply leaves_trans; [exact L1|]. by eapply leaves_trans.
  - intros [= <- <-]. split; [by eapply leaves_trans|done].
Qed.

(** The text of a file was written, and passed the guard if its main is run. *)
Definition staged_text (dir name : string) (written : list (string * list byte)) : Prop :=
  exists text, (path_join dir name, text) ∈ written /\ (name ∈ RUN_FILES -> defines text 1).

Lemma read_source_text path b text b' : read_source path b = (Ok text, b') ->
  b' = b /\ utf8 text = true /\ (length text <= SOURCE_LIMIT)%nat.
Proof.
  unfold read_source. intros [= Hr ->]. split; [done|].
  destruct (metadata path (bo_world b')) as [meta|]; [|done]. destruct (me_file meta); [|done]. simpl in Hr.
  destruct (_ <? _)%N; [done|]. destruct (open_read path (bo_world b')) as [bytes|]; [|done].
  destruct (Nat.ltb_spec SOURCE_LIMIT (length bytes)) as [|Hl]; [done|]. destruct (utf8 bytes) eqn:Eu; [|done].
  injection Hr as <-. split; [done|exact Hl].
Qed.

Lemma source_fits (text : list byte) : (length text <= SOURCE_LIMIT)%nat -> (N.of_nat (length text) <= u32_max)%N.
Proof.
  intros Hl. apply (N.le_trans _ (N.of_nat SOURCE_LIMIT)); [lia|].
  change (N.of_nat SOURCE_LIMIT) with (N.of_nat (64 * 1024)). rewrite Nat2N.inj_mul. by vm_compute.
Qed.

Lemma stage_file_text source dir name b r b' : stage_file source dir name b = (r, b') ->
  (args_known b -> args_known b') /\ bo_spawned b' = bo_spawned b /\
  (exists more, bo_written b' = more ++ bo_written b) /\ is_Some r /\
  (r = Some (Ok tt) -> staged_text dir name (bo_written b')).
Proof.
  unfold stage_file. destruct (read_source (path_join source name) b) as [[text|e] b1] eqn:Er.
  2:{ unfold read_source in Er. injection Er as _ <-. intros [= <- <-]. split_and!; try done. by exists []. }
  apply read_source_text in Er as (-> & Hu & Hl). apply source_fits in Hl.
  destruct (main_guard_iff text Hu Hl) as [[guard Hg] Hiff].
  assert (forall r b', (let '(r, b) := write_new (path_join dir name) text b in (Some r, b)) = (r, b') ->
    (name ∈ RUN_FILES -> defines text 1) ->
    (args_known b -> args_known b') /\ bo_spawned b' = bo_spawned b /\
    (exists more, bo_written b' = more ++ bo_written b) /\ is_Some r /\
    (r = Some (Ok tt) -> staged_text dir name (bo_written b'))) as Hwrite.
  { intros r1 b1 Hw Hd. unfold write_new in Hw.
    pose proof (os_leaves (create_file (path_join dir name) text) b) as [L1 L2 L3].
    destruct (os _ b) as [[[]|e] b2]; simpl in L1, L2, L3; injection Hw as <- <-; simpl; rewrite L2, L3;
      (split_and!; [exact L1|done| |done|]); [by exists [(path_join dir name, text)]| |by exists []|done].
    intros _. exists text. split; [apply list_elem_of_here|done]. }
  case_bool_decide as Hrun.
  - rewrite Hg in Hiff |- *. destruct guard as [[]|error].
    + intros Hr. apply Hwrite; [exact Hr|]. intros _. by apply Hiff.
    + intros Hr. assert (exists error', (Some (Err error'), b) = (r, b')) as (error' & [= <- <-]).
      { destruct error; by eexists. }
      split_and!; try done. by exists [].
  - intros Hr. by apply Hwrite.
Qed.

Lemma staged_text_more dir name more written :
  staged_text dir name written -> staged_text dir name (more ++ written).
Proof. intros (text & Hin & Hd). exists text. split; [apply elem_of_app; by right|done]. Qed.

Lemma stage_files_text source dir names b r b' : stage_files source dir names b = (r, b') ->
  (args_known b -> args_known b') /\ bo_spawned b' = bo_spawned b /\
  (exists more, bo_written b' = more ++ bo_written b) /\ is_Some r /\
  (r = Some (Ok tt) -> forall name, name ∈ names -> staged_text dir name (bo_written b')).
Proof.
  revert b. induction names as [|name names IH]; intros b; cbn [stage_files].
  { intros [= <- <-]. split_and!; try done; [by exists []|]. intros _ name Hn. by apply not_elem_of_nil in Hn. }
  destruct (stage_file source dir name b) as [r1 b1] eqn:E1.
  destruct (stage_file_text _ _ _ _ _ _ E1) as (A1 & S1 & (m1 & W1) & R1 & T1).
  destruct r1 as [[[]|e]|]; [|intros [= <- <-]; split_and!; try done; by exists m1|by destruct R1].
  intros Hr. destruct (IH b1 Hr) as (A2 & S2 & (m2 & W2) & R2 & T2). split_and!.
  - auto.
  - congruence.
  - exists (m2 ++ m1). by rewrite W2, W1, app_assoc.
  - done.
  - intros Hok n [->|Hn]%elem_of_cons; [|by apply T2]. rewrite W2. by apply staged_text_more, T1.
Qed.

Lemma drop_staged_leaves dir b : leaves b (drop_staged dir b).2.
Proof. apply os_leaves. Qed.

Lemma stage_text source b r b' : stage debug source b = (r, b') ->
  (args_known b -> args_known b') /\ bo_spawned b' = bo_spawned b /\ is_Some r /\
  forall dir, r = Some (Ok dir) ->
    (exists name w w', one_component name = true /\ dir = path_join (temp_dir (bo_world b)) name /\
       make_dir dir w = (Ok tt, w')) /\
    forall name, name ∈ STAGED_FILES -> staged_text dir name (bo_written b').
Proof.
  unfold stage. destruct (create_private_dir _ _ _ _ b) as [[dir|e] b1] eqn:Ec;
    apply create_private_dir_leaves in Ec as [[A1 W1 S1] Hd]; [|intros [= <- <-]; by split_and!].
  destruct (stage_files source dir STAGED_FILES b1) as [r2 b2] eqn:Es.
  destruct (stage_files_text _ _ _ _ _ _ Es) as (A2 & S2 & _ & R2 & T2).
  destruct r2 as [[[]|e]|]; [| |by destruct R2].
  - intros [= <- <-]. split_and!; [auto|congruence|done|]. intros dir' [= <-]. split; [by apply Hd|by apply T2].
  - pose proof (drop_staged_leaves dir b2) as [A3 W3 S3]. destruct (drop_staged dir b2) as [x b3]. simpl in *.
    intros [= <- <-]. split_and!; [auto|congruence|done|done].
Qed.

(** *** [compile] *)

(** The runs of [compile_staged], the latest first, as far as they went. *)
Definition compile_args : list (list string) := [["workflow.bend"]; ["PROOF.bend"; "--check-only"]; ["version"]].

(** A program read off: what each of the three runs gave. *)
Record compiled (p : WorkflowProgram) (runs : list (result Captured FrontendError)) : Prop := {
  cp_runs : exists version proof encoded, runs = [Ok encoded; Ok proof; Ok version] /\
    cp_stdout version = BEND_VERSION +:+ bytes_string [newline] /\
    es_success (cp_status proof) = true /\
    cp_stdout proof = "All terms check." +:+ bytes_string [newline] /\ cp_stderr proof = "" /\
    es_success (cp_status encoded) = true /\ cp_stderr encoded = "" /\
    cp_stdout encoded = encode_line p;
  cp_bounded : texts_bounded p = true /\ (length (decision_tokens p) <= MAX_TOKENS)%nat /\ (depth p <= MAX_TOKENS)%nat;
}.

Definition Runs : Type := list (Command * result Captured FrontendError).

(** Nothing is written, only isolated commands are spawned, and what is
    answered and what they gave have [P]. *)
Definition goes {A} (bend dir : string) (P : result A FrontendError -> Runs -> Prop)
    (m : run (result A FrontendError)) : Prop :=
  forall b r b', m b = (r, b') -> args_known b -> args_known b' /\ bo_written b' = bo_written b /\
    exists runs, bo_spawned b' = runs ++ bo_spawned b /\
      Forall (fun run => exists args, args ∈ compile_args /\ isolated bend dir args run.1) runs /\ P r runs.

Lemma goes_ret {A} bend dir (P : result A FrontendError -> Runs -> Prop) x : P x [] -> goes bend dir P (run_ret x).
Proof. intros Hx b r b' [= <- <-] Hk. split_and!; [done|done|]. by exists []. Qed.

Lemma goes_bind {A B} bend dir (P : result A FrontendError -> Runs -> Prop)
    (Q : result B FrontendError -> Runs -> Prop) m f :
  goes bend dir P m -> (forall error runs, Q (Err error) runs) ->
  (forall x runs, P (Ok x) runs -> goes bend dir (fun r more => Q r (more ++ runs)) (f x)) ->
  goes bend dir Q (run_bind m f).
Proof.
  intros Hm He Hf b r b' Hr Hk. unfold run_bind in Hr. destruct (m b) as [[x|e] b1] eqn:Em;
    destruct (Hm _ _ _ Em Hk) as (K1 & W1 & runs & S1 & F1 & H1).
  - destruct (Hf x runs H1 _ _ _ Hr K1) as (K2 & W2 & more & S2 & F2 & H2). split_and!; [done|congruence|].
    exists (more ++ runs). rewrite S2, S1, app_assoc. split_and!; [done|by apply Forall_app|done].
  - injection Hr as <- <-. split_and!; [done|done|]. by exists runs.
Qed.

Lemma goes_run bend dir args limits : args ∈ compile_args ->
  goes bend dir (fun r runs => forall c, r = Ok c -> snd <$> runs = [Ok c]) (run_sandboxed bend args dir limits).
Proof.
  intros Ha b r b' Hr Hk.
  destruct (run_sandboxed_spawns _ _ _ _ _ _ _ Hr Hk) as (K1 & W1 & [(e & -> & S1)|(c & I1 & S1)]);
    (split_and!; [done|done|]); [by exists []|].
  exists [(c, r)]. split_and!; [done| |by intros c' ->]. constructor; [by exists args|done].
Qed.

Lemma compile_staged_goes bend dir :
  goes bend dir (fun r runs => forall p, r = Ok p -> compiled p (snd <$> runs)) (compile_staged bend dir).
Proof.
  assert (forall (args : list string) n, compile_args !! n = Some args -> args ∈ compile_args) as Hin.
  { intros args n Hn. by eapply list_elem_of_lookup_2. }
  unfold compile_staged.
  apply (goes_bind bend dir (fun r runs => r = Ok tt -> exists v, snd <$> runs = [Ok v] /\
    cp_stdout v = BEND_VERSION +:+ bytes_string [newline])); [|done|].
  { unfold check_version. eapply goes_bind; [by apply goes_run, (Hin _ 2%nat)|done|]. intros v runs Hv.
    apply goes_ret. simpl. destruct (negb (es_success _)); [done|]. case_bool_decide as Ho; [|done]. simpl.
    case_bool_decide; [|done]. intros _. exists v. split; [by apply Hv|done]. }
  intros [] r1 H1. destruct (H1 eq_refl) as (v & Ev & Hv). clear H1.
  eapply goes_bind; [by apply goes_run, (Hin _ 1%nat)|done|]. intros pr r2 Hpr. specialize (Hpr pr eq_refl).
  destruct (es_success (cp_status pr)) eqn:P1; simpl; [|by apply goes_ret].
  case_bool_decide as P2; simpl; [|by apply goes_ret]. case_bool_decide as P3; simpl; [|by apply goes_ret].
  eapply goes_bind; [by apply goes_run, (Hin _ 0%nat)|done|]. intros en r3 Hen. specialize (Hen en eq_refl).
  apply goes_ret. intros p. simpl. destruct (es_success (cp_status en)) eqn:N1; simpl; [|done].
  case_bool_decide as N2; simpl; [|done]. intros Hp. pose proof (parsed_depth_bounded _ _ Hp) as Hdep.
  apply parse_encoding_iff in Hp as (Hp & Hb & Hl). split; [|done].
  exists v, pr, en. rewrite !fmap_app, Hen, Hpr, Ev. by split_and!.
Qed.

(** Nothing is run that was not checked.  Whatever the files, the machine and
    Bend do, [compile] answers; every process it starts after staging runs in a
    directory it made itself, under [unshare] in a network namespace of its own
    and without the host's environment, and only once each of the four files
    was written there and the two whose mains are run define one main, of a
    String.  A program it returns was printed whole by the last of three runs,
    after the pinned version answered and the proof was checked, and is within
    the limits on texts, tokens and nesting. *)
Theorem compile_runs_checked source b r b' :
  compile debug source b = (r, b') -> args_known b ->
  is_Some r /\
  exists runs : Runs, bo_spawned b' = runs ++ bo_spawned b /\
    (runs <> [] -> exists bend dir,
       (exists name w w', one_component name = true /\ dir = path_join (temp_dir (bo_world b)) name /\
          make_dir dir w = (Ok tt, w')) /\
       (forall name, name ∈ STAGED_FILES -> staged_text dir name (bo_written b')) /\
       Forall (fun run => exists args, args ∈ compile_args /\ isolated bend dir args run.1) runs) /\
    (forall p, r = Some (Ok p) -> compiled p (snd <$> runs)).
Proof.
  unfold compile. intros Hr Hk. destruct (bend_program b) as [[bend|e] b0] eqn:Eb;
    (assert (b0 = b) as -> by (unfold bend_program in Eb; congruence)).
  2:{ injection Hr as <- <-. split; [done|]. by exists []. }
  destruct (stage debug source b) as [[[dir|e]|] b1] eqn:Es;
    destruct (stage_text _ _ _ _ Es) as (A1 & S1 & [x Hx] & Hst); try done.
  2:{ injection Hr as <- <-. split; [done|]. by exists []. }
  destruct (Hst dir eq_refl) as [Hdir Htext].
  destruct (compile_staged bend dir b1) as [r2 b2] eqn:Ec.
  destruct (compile_staged_goes bend dir b1 r2 b2 Ec (A1 Hk)) as (K2 & W2 & runs & S2 & F2 & H2).
  pose proof (drop_staged_leaves dir b2) as [_ W3 S3]. destruct (drop_staged dir b2) as [u b3]. simpl in W3, S3.
  injection Hr as <- <-. split; [done|]. exists runs. split_and!.
  - congruence.
  - intros _. exists bend, dir. split; [done|]. split; [|done]. intros name Hn. rewrite W3, W2. by apply Htext.
  - intros p [= ->]. by apply H2.
Qed.

End Compiled.

(** ** An example *)

Definition demo_bend (args : list string) : string :=
  if bool_decide (last args = Some "version") then BEND_VERSION +:+ bytes_string [newline]
  else if bool_decide (last args = Some "--check-only") then "All terms check." +:+ bytes_string [newline]
  else encode_line counter_program.

(** A machine with Bend and [unshare], whose files are [main_v1]. *)
#[export] Instance demo_os : Os unit := {|
  env_var name _ := if bool_decide (name = "BEND") then Some "/bend" else None;
  is_file path _ := bool_decide (path = "/usr/bin/unshare");
  temp_dir _ := "/tmp";
  process_id _ := 42%N;
  random_u64 w := (Ok 7%N, w);
  make_dir _ w := (Ok tt, w);
  metadata _ _ := Ok (mkMetadata true 30);
  open_read _ _ := Ok (quoted main_v1);
  create_file _ _ w := (Ok tt, w);
  remove_dir _ w := w;
  probe _ w := (Ok true, w);
  spawn command w :=
    (Ok (mkBehaviour [Bytes (string_bytes (demo_bend (cm_args command)))] [] 0
           [mkPoll false Running 5; mkPoll false (Exited (mkStatus true "exit status: 0")) 10]), w);
|}.

Definition demo_boundary : @Boundary unit := mkBoundary tt None [] [].

Lemma compile_runs_checked_witness :
  (compile id "flow" demo_boundary).1 = Some (Ok counter_program) /\
  exists runs : Runs, compiled counter_program (snd <$> runs).
Proof.
  assert ((compile id "flow" demo_boundary).1 = Some (Ok counter_program)) as E by (vm_compute; reflexivity).
  assert (args_known demo_boundary) as Hk by (intros flags Hf; discriminate Hf).
  split; [exact E|].
  destruct (compile_runs_checked id "flow" demo_boundary _ _ (surjective_pairing _) Hk) as (_ & runs & _ & _ & Hc).
  exists runs. apply Hc. exact E.
Defined.

Example staged_in_tmp :
  fst <$> bo_written (compile id "flow" demo_boundary).2 =
  (fun name => "/tmp/gol-bend-42-0000000000000007/" +:+ name) <$> rev STAGED_FILES.
Proof. vm_compute. reflexivity. Qed.

Example names_of_one_component :
  one_component <$> ["gol-bend-1"; "../x"; "a/b"; "/abs"; ".."; ""; "a/."] =
  [true; false; false; false; false; false; true].
Proof. vm_compute. reflexivity. Qed.
