(* ===== verification/Journal.v ===== *)
(** * The workflow journal ([runtime-tokio/journal.rs])

    A journal is one file of framed records: a frame is
    [[len u32][kind u8][payload][crc32]], little-endian, and the file starts
    with a [Start] frame.  The file is its bytes; a call of the operating
    system that fails is a field of [AppendFaults] or [OpenFaults], so every
    branch of [append] and [open] is here.  [crc32fast::hash] is a parameter,
    a [u32] of the bytes, and nothing else is relied on of it.

    [journal_decode_iff] says which files [decode] reads and as what;
    [journal_recovers] says what is left of a journal whose process was killed,
    or whose disk refused a write, at any byte. *)

From S2P Require Import Prelude Text Workflow.

Local Open Scope rust_scope.

(** ** Errors *)

Inductive ErrorKind := InvalidData | InvalidInput | OtherError.

Record IoError : Type := mkIoError { io_kind : ErrorKind; io_message : string }.

Definition invalid (message : string) : IoError := mkIoError InvalidData message.
Definition too_long : IoError := mkIoError InvalidInput "record longer than a frame holds".

(** ** Slices *)

(** [bytes.split_at_checked(n)]. *)
Definition split_at_checked (n : nat) (b : list byte) : option (list byte * list byte) :=
  if (n <=? length b)%nat then Some (take n b, drop n b) else None.

(** [bytes.starts_with(prefix)]. *)
Definition starts_with (b prefix : list byte) : bool :=
  bool_decide (take (length prefix) b = prefix).

(** ** The checksum *)

Class Crc32 : Type := {
  crc32 : list byte -> N;
  crc32_u32 b : (crc32 b <= u32_max)%N;
}.

Definition MAGIC : list byte := string_bytes "gol-journal".
Definition VERSION : N := 1.
Definition START : N := 0.
Definition TOOL_RESULT : N := 1.
Definition AGENT_SPAWNED : N := 2.
Definition MAX_LEN : N := 16777216.

(** The payload length as a [u32], for [u32::try_from]. *)
Definition len_u32 (b : list byte) : N := N.of_nat (length b).

Definition put_string (payload : list byte) (text : string) : result (list byte) IoError :=
  let bytes := string_bytes text in
  if (len_u32 bytes <=? u32_max)%N then Ok (payload ++ le_bytes 4 (len_u32 bytes) ++ bytes)
  else Err too_long.

Definition take_u32 (b : list byte) : option (N * list byte) :=
  match split_at_checked 4 b with
  | Some (head, rest) => Some (le_value head, rest)
  | None => None
  end.

Definition take_string (b : list byte) : result (string * list byte) IoError :=
  match take_u32 b with
  | None => Err (invalid "record payload")
  | Some (len, rest) =>
      match split_at_checked (N.to_nat len) rest with
      | None => Err (invalid "record payload")
      | Some (text, rest) =>
          if utf8 text then Ok (bytes_string text, rest) else Err (invalid "record payload")
      end
  end.

(** [record]: a frame's record, from its kind and payload. *)
Definition record (kind : N) (payload : list byte) : result HistoryRecord IoError :=
  let? (record, rest) :=
    (if (kind =? TOOL_RESULT)%N then
       let? (name, rest) := take_string payload in
       let? (output, rest) := take_string rest in
       Ok (ToolRecord name output, rest)
     else if (kind =? AGENT_SPAWNED)%N then
       let? (agent, rest) := take_string payload in
       Ok (AgentSpawned agent, rest)
     else Err (invalid "record kind")) in
  match rest with
  | [] => Ok record
  | _ => Err (invalid "record payload")
  end.

Record Decoded : Type := mkDecoded {
  dec_records : list HistoryRecord;
  dec_whole : nat;
}.

(** The failures of the calls [append] makes: [metadata], [write_all] with the
    number of bytes it had written, [metadata] again and [set_len]. *)
Record AppendFaults : Type := mkAppendFaults {
  on_metadata : option IoError;
  on_write : option (nat * IoError);
  on_metadata_after : option IoError;
  on_set_len : option IoError;
}.

Definition no_append_faults : AppendFaults := mkAppendFaults None None None None.

(** [Journal::append], on the file's bytes. *)
Definition append (faults : AppendFaults) (file frame : list byte) :
    list byte * result unit IoError :=
  match on_metadata faults with
  | Some e => (file, Err e)
  | None =>
      let end_ := length file in
      match on_write faults with
      | None => (file ++ frame, Ok tt)
      | Some (n, error) =>
          let file := file ++ take n frame in
          match on_metadata_after faults with
          | Some e => (file, Err e)
          | None =>
              if (length file =? end_)%nat then (file, Err error)
              else
                match on_set_len faults with
                | Some e => (file, Err e)
                | None => (take end_ file, Err error)
                end
          end
      end
  end.

(** The failures of the calls [open] makes. *)
Record OpenFaults : Type := mkOpenFaults {
  on_open : option IoError;
  on_read : option IoError;
  on_truncate : option IoError;
  on_append : AppendFaults;
}.

Definition no_open_faults : OpenFaults := mkOpenFaults None None None no_append_faults.

Section Journal.
Context `{Crc32}.

Definition framed (kind : N) (payload : list byte) : list byte :=
  let len := ((1 + N.of_nat (length payload)) mod 4294967296)%N in
  let frame := le_bytes 4 len ++ [Ascii.ascii_of_N kind] ++ payload in
  frame ++ le_bytes 4 (crc32 frame).

Definition frame (record : HistoryRecord) : result (list byte) IoError :=
  let? (payload, kind) :=
    match record with
    | ToolRecord name output =>
        let? payload := put_string [] name in
        let? payload := put_string payload output in
        Ok (payload, TOOL_RESULT)
    | AgentSpawned agent =>
        let? payload := put_string [] agent in
        Ok (payload, AGENT_SPAWNED)
    end in
  if (MAX_LEN <? 1 + N.of_nat (length payload))%N then Err too_long
  else Ok (framed kind payload).

Definition start_frame : list byte := framed START (MAGIC ++ le_bytes 4 VERSION).

(** [next_frame]; [None] is a panic of [body[4]]. *)
Definition next_frame (b : list byte) : option (result (option (HistoryRecord * nat)) IoError) :=
  match take_u32 b with
  | None => Some (Ok None)
  | Some (len, _) =>
      if ((len =? 0) || (MAX_LEN <? len))%N then Some (Err (invalid "record length"))
      else
        match split_at_checked (4 + N.to_nat len) b with
        | None => Some (Ok None)
        | Some (body, rest) =>
            match take_u32 rest with
            | None => Some (Ok None)
            | Some (crc, _) =>
                if negb (crc32 body =? crc)%N then Some (Err (invalid "record checksum"))
                else
                  match body !! 4 with
                  | None => None
                  | Some kind =>
                      Some (let? r := record (Ascii.N_of_ascii kind) (drop 5 body) in
                            Ok (Some (r, length body + 4)))
                  end
            end
        end
  end.

(** The [while let] of [decode], which reads a frame of at least nine bytes
    per turn; [None] is a panic of the slice or of [next_frame], or the fuel
    running out. *)
Fixpoint decode_frames (fuel : nat) (b : list byte) (records : list HistoryRecord) (whole : nat) :
    option (result Decoded IoError) :=
  match fuel with
  | O => None
  | S fuel =>
      match split_at_checked whole b with
      | None => None
      | Some (_, rest) =>
          match next_frame rest with
          | None => None
          | Some (Err e) => Some (Err e)
          | Some (Ok None) => Some (Ok (mkDecoded records whole))
          | Some (Ok (Some (record, size))) =>
              decode_frames fuel b (records ++ [record]) (whole + size)
          end
      end
  end.

Definition decode (b : list byte) : option (result Decoded IoError) :=
  let start := start_frame in
  if (length b <? length start)%nat && starts_with start b then Some (Ok (mkDecoded [] 0))
  else if negb (starts_with b start) then Some (Err (invalid "not a gol-journal v1 file"))
  else decode_frames (S (length b)) b [] (length start).

(** [Journal::commit]. *)
Definition commit (faults : AppendFaults) (file : list byte) (record : HistoryRecord) :
    list byte * result unit IoError :=
  match frame record with
  | Err e => (file, Err e)
  | Ok f => append faults file f
  end.

(** [Journal::history], with the failure of its [seek] or read. *)
Definition history (fault : option IoError) (file : list byte) :
    option (result History IoError) :=
  match fault with
  | Some e => Some (Err e)
  | None =>
      match decode file with
      | None => None
      | Some (Err e) => Some (Err e)
      | Some (Ok d) => Some (Ok (dec_records d))
      end
  end.

(** [Journal::open] of the file at a path, absent as [None]; the file it
    leaves and whether it opened. *)
Definition open (faults : OpenFaults) (disk : option (list byte)) :
    option (option (list byte) * result unit IoError) :=
  match on_open faults with
  | Some e => Some (disk, Err e)
  | None =>
      let file := default [] disk in
      match on_read faults with
      | Some e => Some (Some file, Err e)
      | None =>
          match decode file with
          | None => None
          | Some (Err e) => Some (Some file, Err e)
          | Some (Ok d) =>
              let whole := dec_whole d in
              let cut :=
                if (whole <? length file)%nat then
                  match on_truncate faults with
                  | Some e => Err e
                  | None => Ok (take whole file)
                  end
                else Ok file in
              match cut with
              | Err e => Some (Some file, Err e)
              | Ok file =>
                  if (whole =? 0)%nat then
                    let (file, r) := append (on_append faults) file start_frame in
                    Some (Some file, r)
                  else Some (Some file, Ok tt)
              end
          end
      end
  end.

(** ** What a file of frames is *)

Definition text_bytes (s : string) : list byte :=
  le_bytes 4 (len_u32 (string_bytes s)) ++ string_bytes s.

Definition kind_of (r : HistoryRecord) : N :=
  match r with ToolRecord _ _ => TOOL_RESULT | AgentSpawned _ => AGENT_SPAWNED end.

Definition payload_of (r : HistoryRecord) : list byte :=
  match r with
  | ToolRecord name output => text_bytes name ++ text_bytes output
  | AgentSpawned agent => text_bytes agent
  end.

(** A Rust [String] is valid UTF-8. *)
Definition record_utf8 (r : HistoryRecord) : bool :=
  match r with
  | ToolRecord name output => utf8 (string_bytes name) && utf8 (string_bytes output)
  | AgentSpawned agent => utf8 (string_bytes agent)
  end.

(** The bytes of a list of records, each written by [frame]. *)
Inductive frames_of : list HistoryRecord -> list byte -> Prop :=
| frames_nil : frames_of [] []
| frames_cons r f rs b :
    record_utf8 r = true -> frame r = Ok f -> frames_of rs b -> frames_of (r :: rs) (f ++ b).

(** Bytes that hold less than the frame they announce. *)
Definition torn (b : list byte) : Prop :=
  (length b < 4)%nat \/
  let len := le_value (take 4 b) in
  (0 < len /\ len <= MAX_LEN)%N /\ (length b < 4 + N.to_nat len + 4)%nat.

(** ** Reading numbers and strings *)

Lemma le_bytes_value b : le_bytes (length b) (le_value b) = b.
Proof.
  induction b as [|c b IH]; [done|]. cbn [le_value le_bytes length].
  pose proof (Ascii.N_ascii_bounded c) as Hc.
  rewrite (N.mul_comm 256), N.Div0.mod_add, N.mod_small, N.div_add, N.div_small by lia.
  by rewrite Ascii.ascii_N_embedding, N.add_0_l, IH.
Qed.

Lemma split_at_checked_app a b : split_at_checked (length a) (a ++ b) = Some (a, b).
Proof.
  unfold split_at_checked. rewrite length_app, take_app_length, drop_app_length.
  by rewrite (proj2 (Nat.leb_le _ _)) by lia.
Qed.

Lemma split_at_checked_Some n b x y :
  split_at_checked n b = Some (x, y) <-> b = x ++ y /\ length x = n.
Proof.
  split.
  - unfold split_at_checked. destruct (Nat.leb_spec n (length b)) as [Hn|]; [|done].
    intros [= <- <-]. by rewrite take_drop, length_take_le.
  - intros [-> <-]. apply split_at_checked_app.
Qed.

Lemma split_at_checked_None n b : split_at_checked n b = None <-> (length b < n)%nat.
Proof. unfold split_at_checked. destruct (Nat.leb_spec n (length b)); split; (lia || done). Qed.

Lemma take_u32_Some b x rest :
  take_u32 b = Some (x, rest) <-> b = le_bytes 4 x ++ rest /\ (x <= u32_max)%N.
Proof.
  unfold take_u32. split.
  - destruct (split_at_checked 4 b) as [[h t]|] eqn:E; [|done]. intros [= <- <-].
    apply split_at_checked_Some in E as [-> Hl].
    pose proof (le_bytes_value h) as Hv. rewrite Hl in Hv. rewrite Hv. split; [done|].
    pose proof (le_value_bound h) as Hb. rewrite Hl in Hb. unfold u32_max. simpl in Hb. lia.
  - intros [-> Hx]. rewrite <-(length_le_bytes 4 x) at 1.
    by rewrite split_at_checked_app, le_value_u32.
Qed.

Lemma take_u32_None b : take_u32 b = None <-> (length b < 4)%nat.
Proof.
  rewrite <-split_at_checked_None. unfold take_u32.
  by destruct (split_at_checked 4 b) as [[]|].
Qed.

Lemma take_u32_app x rest : (x <= u32_max)%N -> take_u32 (le_bytes 4 x ++ rest) = Some (x, rest).
Proof. intros Hx. by apply take_u32_Some. Qed.

(** A string that [put_string] writes and [take_string] reads. *)
Definition text_ok (s : string) : Prop :=
  (len_u32 (string_bytes s) <= u32_max)%N /\ utf8 (string_bytes s) = true.

Lemma take_string_Ok b s rest :
  take_string b = Ok (s, rest) <-> b = text_bytes s ++ rest /\ text_ok s.
Proof.
  unfold take_string, text_bytes, text_ok. split.
  - destruct (take_u32 b) as [[len t]|] eqn:E; [|done]. apply take_u32_Some in E as [-> Hlen].
    destruct (split_at_checked (N.to_nat len) t) as [[x y]|] eqn:E; [|done].
    apply split_at_checked_Some in E as [-> Hx]. destruct (utf8 x) eqn:Hu; [|done].
    intros [= <- <-]. rewrite string_bytes_string. unfold len_u32.
    rewrite Hx, N2Nat.id, <-app_assoc. done.
  - intros [-> [Hlen Hu]]. rewrite <-app_assoc, take_u32_app by done. unfold len_u32.
    by rewrite Nat2N.id, split_at_checked_app, Hu, bytes_string_bytes.
Qed.

Lemma put_string_Ok payload s q :
  put_string payload s = Ok q <->
  q = payload ++ text_bytes s /\ (len_u32 (string_bytes s) <= u32_max)%N.
Proof.
  unfold put_string, text_bytes. destruct (N.leb_spec (len_u32 (string_bytes s)) u32_max).
  - naive_solver.
  - split; [done|]. intros [_ ?]. lia.
Qed.

(** ** Reading frames *)

Lemma record_Ok kind payload r :
  record kind payload = Ok r <->
  kind = kind_of r /\ payload = payload_of r /\
  match r with
  | ToolRecord name output => text_ok name /\ text_ok output
  | AgentSpawned agent => text_ok agent
  end.
Proof.
  unfold record. split.
  - destruct (N.eqb_spec kind TOOL_RESULT) as [->|_];
      [|destruct (N.eqb_spec kind AGENT_SPAWNED) as [->|_]; [|done]].
    + destruct (take_string payload) as [[name rest]|] eqn:E1; [|done].
      apply take_string_Ok in E1 as [-> H1].
      destruct (take_string rest) as [[output rest']|] eqn:E2; [|done].
      apply take_string_Ok in E2 as [-> H2]. destruct rest'; [|done]. intros [= <-].
      by rewrite app_nil_r.
    + destruct (take_string payload) as [[agent rest]|] eqn:E1; [|done].
      apply take_string_Ok in E1 as [-> H1]. destruct rest; [|done]. intros [= <-].
      by rewrite app_nil_r.
  - intros (-> & -> & Hok). destruct r as [name output|agent]; simpl.
    + destruct Hok as [H1 H2]. rewrite (proj2 (take_string_Ok _ name (text_bytes output))) by done.
      by rewrite (proj2 (take_string_Ok _ output [])) by (by rewrite app_nil_r).
    + by rewrite (proj2 (take_string_Ok _ agent [])) by (by rewrite app_nil_r).
Qed.

Lemma length_text_bytes s : length (text_bytes s) = (4 + length (string_bytes s))%nat.
Proof. unfold text_bytes. by rewrite length_app, length_le_bytes. Qed.

(** A record fits when its payload does; its strings are then shorter than a
    [u32] counts. *)
Lemma frame_Ok r f :
  frame r = Ok f <->
  f = framed (kind_of r) (payload_of r) /\ (1 + N.of_nat (length (payload_of r)) <= MAX_LEN)%N.
Proof.
  assert (forall s, (1 + N.of_nat (length (text_bytes s)) <= MAX_LEN)%N ->
    (len_u32 (string_bytes s) <= u32_max)%N) as Hu.
  { intros s. unfold len_u32, MAX_LEN, u32_max. rewrite length_text_bytes. lia. }
  unfold frame. split.
  - destruct r as [name output|agent]; simpl.
    + destruct (put_string [] name) as [p|] eqn:E1; [|done].
      apply put_string_Ok in E1 as [-> H1]. simpl.
      destruct (put_string (text_bytes name) output) as [p|] eqn:E2; [|done].
      apply put_string_Ok in E2 as [-> H2].
      destruct (N.ltb_spec MAX_LEN (1 + N.of_nat (length (text_bytes name ++ text_bytes output))));
        [done|]. by intros [= <-].
    + destruct (put_string [] agent) as [p|] eqn:E1; [|done].
      apply put_string_Ok in E1 as [-> H1]. rewrite app_nil_l.
      destruct (N.ltb_spec MAX_LEN (1 + N.of_nat (length (text_bytes agent)))); [done|].
      by intros [= <-].
  - intros [-> Hlen]. destruct r as [name output|agent]; cbn [payload_of kind_of] in *.
    + rewrite length_app in Hlen.
      rewrite (proj2 (put_string_Ok [] name (text_bytes name))) by (split; [done|apply Hu; lia]).
      rewrite (proj2 (put_string_Ok (text_bytes name) output _)) by (split; [done|apply Hu; lia]).
      by rewrite (proj2 (N.ltb_ge _ _)) by (rewrite length_app; lia).
    + rewrite (proj2 (put_string_Ok [] agent (text_bytes agent))) by (split; [done|apply Hu; lia]).
      by rewrite (proj2 (N.ltb_ge _ _)) by lia.
Qed.

Lemma payload_text_ok r :
  (1 + N.of_nat (length (payload_of r)) <= MAX_LEN)%N -> record_utf8 r = true ->
  match r with
  | ToolRecord name output => text_ok name /\ text_ok output
  | AgentSpawned agent => text_ok agent
  end.
Proof.
  unfold text_ok, len_u32, MAX_LEN, u32_max.
  destruct r as [name output|agent]; simpl; rewrite ?length_app, ?length_text_bytes; intros;
    bool_to_prop; split_and?; (done || lia).
Qed.

Lemma text_ok_utf8 r :
  match r with
  | ToolRecord name output => text_ok name /\ text_ok output
  | AgentSpawned agent => text_ok agent
  end -> record_utf8 r = true.
Proof. destruct r as [name output|agent]; simpl; [intros [[_ ->] [_ ->]]|intros [_ ->]]; done. Qed.

Lemma length_framed kind payload : length (framed kind payload) = (9 + length payload)%nat.
Proof.
  unfold framed. rewrite !length_app, !length_le_bytes. simpl length. lia.
Qed.

(** A frame of a length that fits, spelt out. *)
Lemma framed_eq kind payload :
  (1 + N.of_nat (length payload) <= MAX_LEN)%N ->
  framed kind payload =
  let body := le_bytes 4 (1 + N.of_nat (length payload)) ++ [Ascii.ascii_of_N kind] ++ payload in
  body ++ le_bytes 4 (crc32 body).
Proof.
  intros Hlen. unfold framed. rewrite N.mod_small; [done|]. unfold MAX_LEN in Hlen. lia.
Qed.

Lemma next_frame_framed kind payload rest :
  (1 + N.of_nat (length payload) <= MAX_LEN)%N -> (kind < 256)%N ->
  next_frame (framed kind payload ++ rest) =
  Some (let? r := record kind payload in Ok (Some (r, length (framed kind payload)))).
Proof.
  intros Hlen Hkind. rewrite length_framed, (framed_eq _ _ Hlen). cbv zeta.
  set (len := (1 + N.of_nat (length payload))%N) in *.
  set (body := le_bytes 4 len ++ [Ascii.ascii_of_N kind] ++ payload).
  assert (length body = 4 + N.to_nat len)%nat as Hbody.
  { unfold body, len. rewrite !length_app, length_le_bytes. simpl length. lia. }
  unfold next_frame. rewrite <-app_assoc. unfold body at 1. rewrite <-app_assoc, take_u32_app.
  2:{ unfold MAX_LEN, u32_max in *. lia. }
  replace ((len =? 0) || (MAX_LEN <? len))%N with false.
  2:{ symmetry. apply orb_false_iff. rewrite N.eqb_neq, N.ltb_ge. lia. }
  rewrite <-Hbody, split_at_checked_app, take_u32_app by apply crc32_u32.
  rewrite N.eqb_refl. simpl negb. cbv iota.
  replace (body !! 4) with (Some (Ascii.ascii_of_N kind)) by (by unfold body).
  rewrite Ascii.N_ascii_embedding by done.
  replace (drop 5 body) with payload by (by unfold body).
  replace (length body + 4)%nat with (9 + length payload)%nat by lia. done.
Qed.

Lemma next_frame_frame r f rest :
  record_utf8 r = true -> frame r = Ok f ->
  next_frame (f ++ rest) = Some (Ok (Some (r, length f))).
Proof.
  intros Hu [-> Hlen]%frame_Ok. rewrite next_frame_framed; [|done|by destruct r].
  rewrite (proj2 (record_Ok _ _ r)); [done|]. split_and!; [done..|]. by apply payload_text_ok.
Qed.

(** [body[4]] is there: [len] counts the kind byte. *)
Lemma next_frame_Some b r n :
  next_frame b = Some (Ok (Some (r, n))) ->
  exists f rest, record_utf8 r = true /\ frame r = Ok f /\ b = f ++ rest /\ n = length f.
Proof.
  intros E. destruct (take_u32 b) as [[len t]|] eqn:Et; unfold next_frame in E;
    rewrite Et in E; [|done].
  apply take_u32_Some in Et as [Hb Hlen].
  destruct ((len =? 0) || (MAX_LEN <? len))%N eqn:Hrange; [done|]. bool_to_prop.
  destruct (split_at_checked _ b) as [[body rest]|] eqn:Es; [|done].
  apply split_at_checked_Some in Es as [-> Hbody].
  destruct (take_u32 rest) as [[crc rest']|] eqn:Ec; [|done].
  apply take_u32_Some in Ec as [-> Hcrc].
  destruct (N.eqb_spec (crc32 body) crc) as [<-|]; [|done]. simpl in E.
  (* the body is the length, the kind and the payload *)
  assert (body = le_bytes 4 len ++ drop 4 body) as Hsplit.
  { rewrite <-(take_drop 4 body) at 1. f_equal.
    apply (f_equal (take 4)) in Hb. rewrite take_app_le in Hb by lia.
    rewrite Hb, take_app_le by (by rewrite length_le_bytes).
    by rewrite take_ge by (by rewrite length_le_bytes). }
  destruct (drop 4 body) as [|kind payload] eqn:Ed.
  { apply (f_equal length) in Ed. rewrite length_drop in Ed. simpl in Ed. lia. }
  assert (len = 1 + N.of_nat (length payload))%N as Hl.
  { apply (f_equal length) in Ed. rewrite length_drop in Ed. simpl in Ed. lia. }
  replace (body !! 4) with (Some kind) in E by (by rewrite Hsplit).
  replace (drop 5 body) with payload in E by (by rewrite Hsplit).
  destruct (record (Ascii.N_of_ascii kind) payload) as [r'|] eqn:Er; [|done].
  injection E as -> <-. apply record_Ok in Er as (Hk & -> & Hok).
  exists (framed (kind_of r) (payload_of r)), rest'. split_and!.
  - by apply text_ok_utf8.
  - apply frame_Ok. split; [done|]. rewrite <-Hl. lia.
  - rewrite framed_eq by (rewrite <-Hl; lia). cbv zeta.
    rewrite <-Hl, <-Hk, Ascii.ascii_N_embedding.
    change ([kind] ++ payload_of r) with (kind :: payload_of r).
    by rewrite <-Hsplit, <-app_assoc.
  - rewrite length_framed. lia.
Qed.

Lemma next_frame_total b : next_frame b <> None.
Proof.
  unfold next_frame. destruct (take_u32 b) as [[len t]|]; [|done].
  destruct ((len =? 0) || (MAX_LEN <? len))%N eqn:Hrange; [done|]. bool_to_prop.
  destruct (split_at_checked _ b) as [[body rest]|] eqn:Es; [|done].
  apply split_at_checked_Some in Es as [-> Hbody].
  destruct (take_u32 rest) as [[crc rest']|]; [|done].
  destruct (negb _); [done|]. destruct (body !! 4) eqn:E; [done|].
  apply lookup_ge_None in E. lia.
Qed.

Lemma next_frame_None b : next_frame b = Some (Ok None) <-> torn b.
Proof.
  unfold next_frame, torn.
  destruct (take_u32 b) as [[len t]|] eqn:Et.
  2:{ apply take_u32_None in Et. naive_solver. }
  assert (le_value (take 4 b) = len) as ->.
  { apply take_u32_Some in Et as [-> Hl]. rewrite take_app_le by (by rewrite length_le_bytes).
    rewrite take_ge by (by rewrite length_le_bytes). by apply le_value_u32. }
  assert (4 <= length b)%nat as Hb.
  { apply take_u32_Some in Et as [-> _]. rewrite length_app, length_le_bytes. lia. }
  destruct ((len =? 0) || (MAX_LEN <? len))%N eqn:Hrange.
  { split; [done|]. intros [?|[? ?]]; [lia|]. apply orb_true_iff in Hrange.
    rewrite N.eqb_eq, N.ltb_lt in Hrange. lia. }
  bool_to_prop. destruct (split_at_checked _ b) as [[body rest]|] eqn:Es.
  2:{ apply split_at_checked_None in Es. split; [|done]. intros _. right. lia. }
  apply split_at_checked_Some in Es as [-> Hbody]. rewrite length_app in *.
  destruct (take_u32 rest) as [[crc rest']|] eqn:Ec.
  - apply take_u32_Some in Ec as [-> _]. rewrite length_app, length_le_bytes in *.
    split; [|lia]. destruct (negb _); [done|].
    destruct (body !! 4); [|done]. by destruct (record _ _).
  - apply take_u32_None in Ec. split; [|done]. intros _. right. lia.
Qed.

(** A frame that was cut short reads as a torn tail. *)
Lemma torn_prefix r f t :
  frame r = Ok f -> t `prefix_of` f -> (length t < length f)%nat -> torn t.
Proof.
  intros [-> Hlen]%frame_Ok [k Hk] Hlt. unfold torn.
  destruct (decide (length t < 4)%nat); [by left|right].
  rewrite length_framed in Hlt. rewrite framed_eq in Hk by done. cbv zeta in Hk.
  assert (take 4 t = le_bytes 4 (1 + N.of_nat (length (payload_of r)))) as ->.
  { apply (f_equal (take 4)) in Hk. rewrite <-!app_assoc in Hk.
    rewrite (take_app_le t) in Hk by lia. rewrite <-Hk.
    rewrite take_app_le by (by rewrite length_le_bytes).
    by rewrite take_ge by (by rewrite length_le_bytes). }
  rewrite le_value_u32 by (unfold MAX_LEN, u32_max in *; lia). split; [lia|].
  unfold MAX_LEN in *. lia.
Qed.

Lemma length_frame r f : frame r = Ok f -> (9 <= length f)%nat.
Proof. intros [-> _]%frame_Ok. rewrite length_framed. lia. Qed.

Lemma frames_of_app rs b rs' b' :
  frames_of rs b -> frames_of rs' b' -> frames_of (rs ++ rs') (b ++ b').
Proof.
  induction 1 as [|r f rs b Hu Hf _ IH]; intros H'; [done|]. simpl. rewrite <-app_assoc.
  apply frames_cons; auto.
Qed.

(** Reading on from a whole number of frames. *)
Lemma decode_frames_sound fuel pre rest recs :
  (length rest < fuel)%nat ->
  exists res, decode_frames fuel (pre ++ rest) recs (length pre) = Some res /\
    forall d, res = Ok d ->
      exists rs b tail, rest = b ++ tail /\ frames_of rs b /\ torn tail /\
        d = mkDecoded (recs ++ rs) (length (pre ++ b)).
Proof.
  revert pre rest recs; induction fuel as [|fuel IH]; intros pre rest recs Hfuel; [lia|].
  simpl. rewrite split_at_checked_app.
  destruct (next_frame rest) as [[[[r n]|]|e]|] eqn:E.
  - apply next_frame_Some in E as (f & rest' & Hu & Hf & -> & ->).
    pose proof (length_frame _ _ Hf). rewrite length_app in Hfuel.
    rewrite app_assoc, <-length_app.
    destruct (IH (pre ++ f) rest' (recs ++ [r])) as (res & -> & Hres); [lia|].
    exists res. split; [done|]. intros d Hd.
    destruct (Hres d Hd) as (rs & b & tail & -> & Hb & Ht & ->).
    exists (r :: rs), (f ++ b), tail. rewrite <-!app_assoc. eauto using frames_cons.
  - eexists. split; [done|]. intros d [= <-]. apply next_frame_None in E.
    exists [], [], rest. rewrite !app_nil_r. eauto using frames_nil.
  - eexists. by split.
  - by apply next_frame_total in E.
Qed.

Lemma decode_frames_complete rs b :
  frames_of rs b -> forall fuel pre tail recs,
  torn tail -> (length (b ++ tail) < fuel)%nat ->
  decode_frames fuel (pre ++ b ++ tail) recs (length pre) =
  Some (Ok (mkDecoded (recs ++ rs) (length (pre ++ b)))).
Proof.
  induction 1 as [|r f rs b Hu Hf _ IH]; intros fuel pre tail recs Ht Hfuel;
    (destruct fuel as [|fuel]; [lia|]); simpl; rewrite split_at_checked_app.
  - rewrite (proj2 (next_frame_None tail) Ht). by rewrite !app_nil_r.
  - rewrite <-app_assoc, (next_frame_frame r f) by done.
    pose proof (length_frame _ _ Hf). rewrite !length_app in Hfuel. simpl.
    rewrite (app_assoc pre), <-length_app, IH; [|done|rewrite length_app; lia].
    by rewrite <-!app_assoc.
Qed.

Lemma starts_with_iff b p : starts_with b p = true <-> p `prefix_of` b.
Proof.
  unfold starts_with. rewrite bool_decide_eq_true. split.
  - intros <-. apply prefix_take.
  - intros [k ->]. by rewrite take_app_length.
Qed.

Lemma decode_start b :
  decode (start_frame ++ b) = decode_frames (S (length (start_frame ++ b))) (start_frame ++ b) []
                                (length start_frame).
Proof.
  unfold decode. rewrite length_app at 1.
  replace (length start_frame + length b <? length start_frame)%nat with false
    by (symmetry; apply Nat.ltb_ge; lia). cbn [andb].
  by rewrite (proj2 (starts_with_iff (start_frame ++ b) start_frame)) by apply prefix_app_r, reflexivity.
Qed.

Lemma decode_whole rs b tail :
  frames_of rs b -> torn tail ->
  decode (start_frame ++ b ++ tail) = Some (Ok (mkDecoded rs (length (start_frame ++ b)))).
Proof.
  intros Hb Ht. rewrite decode_start.
  apply (decode_frames_complete rs b Hb _ _ _ []); [done|]. rewrite (length_app start_frame). lia.
Qed.

Lemma torn_nil : torn [].
Proof. left. simpl. lia. Qed.

Lemma history_whole rs b : frames_of rs b -> history None (start_frame ++ b) = Some (Ok rs).
Proof.
  intros Hb. unfold history. pose proof (decode_whole rs b [] Hb torn_nil) as E.
  rewrite app_nil_r in E. by rewrite E.
Qed.

(** Opening a journal keeps its whole frames and cuts the rest off. *)
Lemma open_whole rs b tail :
  frames_of rs b -> torn tail ->
  open no_open_faults (Some (start_frame ++ b ++ tail)) = Some (Some (start_frame ++ b), Ok tt).
Proof.
  intros Hb Ht. unfold open. cbn [on_open on_read on_truncate on_append no_open_faults].
  unfold from_option, id. rewrite (decode_whole _ _ _ Hb Ht). cbn [dec_whole].
  rewrite (app_assoc start_frame), take_app_length.
  assert (0 < length (start_frame ++ b))%nat as Hpos.
  { rewrite length_app. unfold start_frame. rewrite length_framed. lia. }
  rewrite (proj2 (Nat.eqb_neq (length (start_frame ++ b)) 0)) by lia.
  rewrite (length_app (start_frame ++ b)).
  destruct (Nat.ltb_spec (length (start_frame ++ b)) (length (start_frame ++ b) + length tail)) as [Hlt|Hge].
  - done.
  - destruct tail; [|simpl in Hge; lia]. by rewrite app_nil_r.
Qed.

(** [decode] reads every file without panicking and ends; it accepts
    just the files that are a strict prefix of the start frame, read as an
    empty journal, and those that are the start frame, the frames of a list of
    records and a torn tail, read as those records with the tail left out. *)
Theorem journal_decode_iff b d :
  (exists res, decode b = Some res) /\
  (decode b = Some (Ok d) <->
   (d = mkDecoded [] 0 /\ b `prefix_of` start_frame /\ b <> start_frame) \/
   (exists frames tail,
      b = start_frame ++ frames ++ tail /\ frames_of (dec_records d) frames /\ torn tail /\
      dec_whole d = length (start_frame ++ frames))).
Proof.
  destruct (starts_with b start_frame) eqn:Es.
  - apply starts_with_iff in Es as [rest ->]. rewrite decode_start.
    destruct (decode_frames_sound (S (length (start_frame ++ rest))) start_frame rest [])
      as (res & Hres & Hd); [rewrite length_app; lia|].
    split; [eauto|]. split.
    + rewrite Hres. intros [= ->]. destruct (Hd d eq_refl) as (rs & f & tail & -> & Hf & Ht & ->).
      right. eauto 10.
    + intros [(_ & Hp & Hne)|(f & tail & E & Hf & Ht & Hw)].
      * destruct Hne. apply prefix_length in Hp as Hl. rewrite length_app in Hl.
        destruct rest; [by rewrite app_nil_r|simpl in Hl; lia].
      * apply app_inv_head in E as ->. rewrite <-decode_start, (decode_whole _ _ _ Hf Ht), <-Hw.
        by destruct d.
  - unfold decode. rewrite Es. simpl negb. cbv iota.
    destruct (Nat.ltb_spec (length b) (length start_frame)) as [Hlt|Hge]; cbn [andb];
      [destruct (starts_with start_frame b) eqn:Ep|]; (split; [eauto|]); split.
    + intros [= <-]. left. split; [done|]. split; [by apply starts_with_iff|].
      intros ->. lia.
    + intros [(-> & _)|(f & tail & -> & _)]; [done|].
      rewrite length_app in Hlt. lia.
    + done.
    + intros [(_ & Hp%starts_with_iff & _)|(f & tail & -> & _)]; [congruence|].
      rewrite length_app in Hlt. lia.
    + done.
    + intros [(_ & Hp & Hne)|(f & tail & -> & _)].
      * destruct Hp as [k Hk]. rewrite Hk, length_app in Hge.
        destruct k; [|simpl in Hge; lia]. rewrite app_nil_r in Hk. by destruct Hne.
      * by rewrite (proj2 (starts_with_iff _ _)) in Es by apply prefix_app_r, reflexivity.
Qed.

(** What a commit leaves of the file: a whole frame when it succeeds, and
    otherwise at most a part of one. *)
Lemma commit_leaves faults file r file' res :
  commit faults file r = (file', res) ->
  exists t, file' = file ++ t /\
    match res with
    | Ok _ => frame r = Ok t
    | Err _ => t = [] \/ exists f, frame r = Ok f /\ t `prefix_of` f
    end.
Proof.
  unfold commit, append. destruct (frame r) as [f|e].
  2:{ intros [= <- <-]. exists []. rewrite app_nil_r. auto. }
  destruct (on_metadata faults).
  { intros [= <- <-]. exists []. rewrite app_nil_r. auto. }
  destruct (on_write faults) as [[n e]|]; [|intros [= <- <-]; by exists f].
  assert (exists t, file ++ take n f = file ++ t /\
    (t = [] \/ exists g, Ok f = @Ok _ IoError g /\ t `prefix_of` g)) as Hpart.
  { exists (take n f). split; [done|]. right. eauto using prefix_take. }
  destruct (on_metadata_after faults); [intros [= <- <-]; exact Hpart|].
  destruct (_ =? _)%nat; [intros [= <- <-]; exact Hpart|].
  destruct (on_set_len faults); [intros [= <- <-]; exact Hpart|].
  intros [= <- <-]. exists []. rewrite take_app_length, app_nil_r. auto.
Qed.

(** A journal reopened with part of one more frame at its end. *)
Lemma reopen_part rs frames r f t :
  frames_of rs frames -> record_utf8 r = true -> frame r = Ok f -> t `prefix_of` f ->
  exists rs' frames',
    rs' = (if bool_decide (length t < length f)%nat then rs else rs ++ [r]) /\
    frames_of rs' frames' /\
    open no_open_faults (Some (start_frame ++ frames ++ t)) =
      Some (Some (start_frame ++ frames'), Ok tt).
Proof.
  intros Hfr Hu Hf Ht. case_bool_decide as Hlt.
  - exists rs, frames. split_and!; [done..|]. apply (open_whole rs); [done|].
    by eapply torn_prefix.
  - assert (t = f) as ->.
    { destruct Ht as [k ->]. rewrite length_app in Hlt. destruct k; [by rewrite app_nil_r|].
      simpl in Hlt. lia. }
    exists (rs ++ [r]), (frames ++ f). split; [done|].
    assert (frames_of (rs ++ [r]) (frames ++ f)) as Hfr'.
    { apply frames_of_app; [done|]. rewrite <-(app_nil_r f). eauto using frames_of. }
    split; [done|]. rewrite <-(app_nil_r f) at 1. rewrite (app_assoc frames).
    apply (open_whole (rs ++ [r])); [done|apply torn_nil].
Qed.

(** C37. A commit is atomic, whatever fails during it and wherever the process
    is killed.  Starting from a whole journal, let a commit return, or be cut
    off at any byte at or after the journal's old end; opening what is left
    gives back a whole journal that holds the old records or the old records
    and the new one: the new one if the commit returned [Ok] and its bytes are
    all there, only the old ones if the write was cut short. *)
Theorem journal_commit_atomic rs frames faults r file' res n :
  frames_of rs frames -> record_utf8 r = true ->
  commit faults (start_frame ++ frames) r = (file', res) ->
  (length (start_frame ++ frames) <= n)%nat ->
  exists rs' frames',
    open no_open_faults (Some (take n file')) = Some (Some (start_frame ++ frames'), Ok tt) /\
    frames_of rs' frames' /\
    history None (start_frame ++ frames') = Some (Ok rs') /\
    (rs' = rs \/ rs' = rs ++ [r]) /\
    (res = Ok tt -> (length file' <= n)%nat -> rs' = rs ++ [r]) /\
    (forall f, frame r = Ok f -> (length (take n file') < length (start_frame ++ frames ++ f))%nat ->
       rs' = rs).
Proof.
  intros Hfr Hu Hc Hn. apply commit_leaves in Hc as (t & -> & Ht).
  rewrite take_app_ge by done.
  set (t' := take (n - length (start_frame ++ frames)) t).
  assert (t' `prefix_of` t) as Ht' by apply prefix_take.
  rewrite <-app_assoc.
  destruct (frame r) as [f|e] eqn:Hf.
  - assert (t' `prefix_of` f) as Hpf.
    { etrans; [exact Ht'|]. destruct res; [by injection Ht as ->|].
      destruct Ht as [->|(g & [= <-] & ?)]; [apply prefix_nil|done]. }
    destruct (reopen_part rs frames r f t' Hfr Hu Hf Hpf) as (rs' & frames' & -> & Hfr' & Ho).
    eexists _, frames'. split_and!; [done..|by apply history_whole| | |].
    + case_bool_decide; auto.
    + intros -> Hle. injection Ht as ->. rewrite bool_decide_eq_false_2; [done|].
      rewrite !length_app in Hle. unfold t'. rewrite length_take, length_app. lia.
    + intros f' [= <-]. rewrite !length_app. intros Hlt. rewrite bool_decide_eq_true_2; [done|]. lia.
  - assert (t = []) as -> by (by destruct res; [done|destruct Ht as [->|(? & ? & _)]]).
    assert (t' = []) as -> by (unfold t'; by rewrite take_nil).
    exists rs, frames. split_and!; auto using history_whole.
    + apply (open_whole rs); [done|apply torn_nil].
    + by intros ->.
Qed.

End Journal.

(** ** A concrete checksum *)

(** One bit of the reflected CRC-32 of polynomial [0xEDB88320]. *)
Definition crc_bit (c : N) : N :=
  if N.odd c then N.lxor (N.shiftr c 1) 3988292384 else N.shiftr c 1.

Definition crc_byte (c : N) (b : byte) : N :=
  Nat.iter 8 crc_bit (N.lxor c (Ascii.N_of_ascii b)).

#[export] Program Instance crc32_ieee : Crc32 := {|
  crc32 b := N.land (N.lxor (fold_left crc_byte b u32_max) u32_max) u32_max;
|}.
Next Obligation.
  intros b. generalize (N.lxor (fold_left crc_byte b u32_max) u32_max). intros c.
  change u32_max with (N.ones 32). rewrite N.land_ones.
  apply N.lt_succ_r. by apply N.mod_upper_bound.
Qed.

(** The check value of the CRC-32 of ["123456789"]. *)
Example crc32_check : crc32 (string_bytes "123456789") = 3421780262%N.
Proof. vm_compute. done. Qed.

Definition sample_record : HistoryRecord := counter_record 7.

Definition sample_frame : list byte :=
  match frame sample_record with Ok f => f | Err _ => [] end.

(** Two records, the second torn after its fifth byte. *)
Lemma journal_decode_iff_witness :
  (exists res, decode (start_frame ++ sample_frame ++ take 5 sample_frame) = Some res) /\
  decode (start_frame ++ sample_frame ++ take 5 sample_frame) =
    Some (Ok (mkDecoded [sample_record] (length (start_frame ++ sample_frame)))).
Proof.
  pose proof (journal_decode_iff (start_frame ++ sample_frame ++ take 5 sample_frame)
    (mkDecoded [sample_record] (length (start_frame ++ sample_frame)))) as [Hres Hiff].
  split; [exact Hres|]. apply Hiff. right. exists sample_frame, (take 5 sample_frame).
  split; [done|]. split.
  { change sample_frame with (sample_frame ++ []). eapply frames_cons; [by vm_compute| |constructor].
    by vm_compute. }
  split; [|done]. right. split; [by split; vm_compute|]. apply Nat.ltb_lt. by vm_compute.
Defined.

(** A write that fails after five bytes and a roll back that fails too. *)
Lemma journal_commit_atomic_witness :
  exists rs' frames',
    open no_open_faults (Some (take 100 (start_frame ++ take 5 sample_frame))) =
      Some (Some (start_frame ++ frames'), Ok tt) /\
    frames_of rs' frames' /\ history None (start_frame ++ frames') = Some (Ok rs').
Proof.
  edestruct (journal_commit_atomic [] []
    (mkAppendFaults None (Some (5, mkIoError OtherError "disk")) None
       (Some (mkIoError OtherError "disk"))) sample_record
    (start_frame ++ take 5 sample_frame) (Err (mkIoError OtherError "disk")) 100)
    as (rs' & frames' & Ho & Hf & Hh & _).
  - constructor.
  - by vm_compute.
  - by vm_compute.
  - apply Nat.leb_le. by vm_compute.
  - exists rs', frames'. by split_and!.
Defined.
