(* ===== verification/Host.v ===== *)
(** * The workflow host ([runtime-tokio/host.rs])

    [replay] evaluates a workflow over its journal and carries out one command;
    [join_all] runs two counter calls and records both.  The journal is the
    bytes of its file, the failures of its calls are arguments, and the spawner
    and the stand-in tool thread the state [W] of everything outside.  [None]
    is a panic of the workflow's [evaluate] or of the journal's reader. *)

From S2P Require Import Prelude Text Protocol Uuids Reduce Driver Workflow Journal.

Section Host.
Context `{Crc32} `{UuidCrate} {W : Type}.

(** [Spawned]. *)
Definition Spawned := result StartedChild string.

(** [start_child]. *)
Definition start_child (parent : RunSpec) (spawner : AgentSpawner W) (history : History)
    (agent : AgentSpec) (w : W) : Spawned * W :=
  match id_parse (as_agent agent) with
  | None => (Err "no such agent", w)
  | Some agent_id =>
      let step := N.of_nat (length history) in
      if (step <=? u32_max)%N then
        spawner (mkChildRequest parent step agent_id (as_input agent) (limits parent)) w
      else (Err "the workflow journal is too long", w)
  end.

(** [replay], with the failures of reading the journal and of the commit. *)
Definition replay (driver : WorkflowDriver) (read : option IoError) (write : AppendFaults)
    (journal : list byte) (parent : RunSpec) (spawner : AgentSpawner W)
    (stand_in : W -> Z * W) (w : W) :
    option (list byte * W * result (WorkflowStep * option Spawned) IoError) :=
  match Journal.history read journal with
  | None => None
  | Some (Err e) => Some (journal, w, Err e)
  | Some (Ok history) =>
      match driver history with
      | None => None
      | Some step =>
          let '(journal, w, spawned) :=
            match commands step with
            | [SpawnAgent agent] =>
                let (started, w) := start_child parent spawner history agent w in
                match started with
                | Ok _ =>
                    match commit write journal (AgentSpawned (as_agent agent)) with
                    | (journal, Ok _) => (journal, w, Ok (Some started))
                    | (journal, Err e) => (journal, w, Err e)
                    end
                | Err _ => (journal, w, Ok (Some started))
                end
            | _ => (journal, w, Ok None)
            end in
          match spawned with
          | Err e => Some (journal, w, Err e)
          | Ok spawned =>
              match commands step with
              | [ExecuteTool tool] =>
                  if bool_decide (ts_name tool = "counter") then
                    let (value, w) := stand_in w in
                    match commit write journal (counter_record value) with
                    | (journal, Ok _) => Some (journal, w, Ok (step, spawned))
                    | (journal, Err e) => Some (journal, w, Err e)
                    end
                  else Some (journal, w, Ok (step, spawned))
              | _ => Some (journal, w, Ok (step, spawned))
              end
          end
      end
  end.

(** [join_all], with the failures of reading the journal and of the two
    commits. *)
Definition join_all (driver : WorkflowDriver) (read : option IoError)
    (write1 write2 : AppendFaults) (journal : list byte) (stand_in : N -> W -> Z * W) (w : W) :
    option (list byte * W * result unit IoError) :=
  match driver [] with
  | None => None
  | Some step =>
      if negb (bool_decide (wait step = NoWait)) then
        Some (journal, w, Err (mkIoError InvalidInput "wait"))
      else
        match commands step with
        | [ExecuteTool a as first_command; ExecuteTool b as second_command] =>
            if bool_decide (ts_name a = "counter") && bool_decide (ts_name b = "counter") then
              let first := spawn 0 first_command in
              let second := spawn 1 second_command in
              match Journal.history read journal with
              | None => None
              | Some (Err e) => Some (journal, w, Err e)
              | Some (Ok records) =>
                  match length records with
                  | 0 =>
                      let (value, w) := stand_in (h_sequence first) w in
                      match commit write1 journal (counter_record value) with
                      | (journal, Err e) => Some (journal, w, Err e)
                      | (journal, Ok _) =>
                          let (value, w) := stand_in (h_sequence second) w in
                          let (journal, r) := commit write2 journal (counter_record value) in
                          Some (journal, w, r)
                      end
                  | 1 =>
                      let (value, w) := stand_in (h_sequence second) w in
                      let (journal, r) := commit write1 journal (counter_record value) in
                      Some (journal, w, r)
                  | 2 => Some (journal, w, Ok tt)
                  | _ => Some (journal, w, Err (mkIoError InvalidData "journal length"))
                  end
              end
            else Some (journal, w, Err (mkIoError InvalidInput "command"))
        | _ => Some (journal, w, Err (mkIoError InvalidInput "command"))
        end
  end.

(** ** Counter records fit a frame *)

Definition i64 (v : Z) : Prop := (-9223372036854775808 <= v < 9223372036854775808)%Z.

Definition ascii_only (s : string) : Prop :=
  Forall (fun c => (Ascii.N_of_ascii c <= 127)%N) (string_bytes s).

Lemma ascii_only_utf8 s : ascii_only s -> utf8 (string_bytes s) = true.
Proof.
  unfold ascii_only, utf8. induction 1 as [|c b Hc _ IH]; [done|]. simpl.
  by rewrite (proj2 (N.leb_le _ _) Hc).
Qed.

Lemma pretty_N_char_ascii x : (Ascii.N_of_ascii (pretty_N_char x) <= 127)%N.
Proof. unfold pretty_N_char. by repeat case_match. Qed.

Lemma pretty_N_go_bound k x s :
  (x < 10 ^ N.of_nat k)%N -> ascii_only s ->
  ascii_only (pretty_N_go x s) /\ (String.length (pretty_N_go x s) <= k + String.length s)%nat.
Proof.
  revert x s; induction k as [|k IH]; intros x s Hx Hs.
  { assert (x = 0%N) as -> by (simpl in Hx; lia). rewrite pretty_N_go_0. simpl. auto. }
  destruct (decide (x = 0%N)) as [->|Hpos]; [rewrite pretty_N_go_0; split; [done|lia]|].
  rewrite pretty_N_go_step by lia.
  destruct (IH (x / 10)%N (String (pretty_N_char (x mod 10)) s)) as [Ha Hl].
  - apply N.Div0.div_lt_upper_bound. rewrite Nat2N.inj_succ, N.pow_succ_r' in Hx. lia.
  - constructor; [apply pretty_N_char_ascii|done].
  - split; [done|]. simpl in Hl. lia.
Qed.

Lemma pretty_i64 v :
  i64 v -> ascii_only (pretty v) /\ (String.length (pretty v) <= 20)%nat.
Proof.
  intros Hv. assert (forall x s, (x < 10 ^ 19)%N -> ascii_only s ->
    (String.length s <= 1)%nat ->
    ascii_only (pretty_N_go x s) /\ (String.length (pretty_N_go x s) <= 20)%nat) as Hgo.
  { intros x s Hx Hs Hl. destruct (pretty_N_go_bound 19 x s Hx Hs). split; [done|lia]. }
  assert (forall x, (x < 10 ^ 19)%N ->
    ascii_only (pretty x) /\ (String.length (pretty x) <= 19)%nat) as HN.
  { intros x Hx. unfold pretty, pretty_N. case_decide.
    - split; [by repeat constructor|simpl; lia].
    - apply (pretty_N_go_bound 19 x ""); [done|constructor]. }
  unfold i64 in Hv. destruct v as [|p|p].
  - split; [by repeat constructor|]. apply Nat.leb_le. by vm_compute.
  - change (pretty (Z.pos p)) with (pretty (N.pos p)).
    destruct (HN (N.pos p)) as [? ?]; [change (10 ^ 19)%N with 10000000000000000000%N; lia|].
    split; [done|lia].
  - change (pretty (Z.neg p)) with ("-" +:+ pretty (N.pos p)).
    destruct (HN (N.pos p)) as [? ?]; [change (10 ^ 19)%N with 10000000000000000000%N; lia|].
    split; [by constructor|]. change (S (String.length (pretty (N.pos p))) <= 20)%nat. lia.
Qed.

Lemma counter_frame v :
  i64 v -> record_utf8 (counter_record v) = true /\ exists f, frame (counter_record v) = Ok f.
Proof.
  intros [Ha Hl]%pretty_i64. split.
  { simpl. by rewrite ascii_only_utf8. }
  eexists. apply frame_Ok. split; [done|]. cbn [counter_record payload_of].
  rewrite length_app, !length_text_bytes, !length_string_bytes. unfold MAX_LEN.
  change (String.length "counter") with 7. lia.
Qed.

(** ** Interrupted joins *)

(** Any prefix of a list of frames is the frames of some of the records and a
    torn tail. *)
Lemma frames_prefix rs b t :
  frames_of rs b -> t `prefix_of` b ->
  exists k b' tail, frames_of (take k rs) b' /\ t = b' ++ tail /\ torn tail.
Proof.
  intros Hb. revert t. induction Hb as [|r f rs b Hu Hf Hb IH]; intros t Ht.
  { apply prefix_nil_inv in Ht as ->. exists 0, [], []. split_and!; auto using frames_nil, torn_nil. }
  destruct (decide (length t < length f)%nat) as [Hlt|Hge].
  - exists 0, [], t. split_and!; [constructor|done|]. eapply torn_prefix; [done| |done].
    destruct Ht as [k Hk]. exists (drop (length t) f).
    apply (f_equal (take (length t))) in Hk. rewrite take_app_length in Hk.
    rewrite take_app_le in Hk by lia. rewrite <-(take_drop (length t) f) at 1. by rewrite Hk.
  - destruct Ht as [k Hk].
    assert (exists t', t = f ++ t') as [t' ->].
    { exists (drop (length f) t). apply (f_equal (take (length f))) in Hk.
      rewrite take_app_length, take_app_le in Hk by lia. rewrite <-(take_drop (length f) t) at 1. by rewrite <-Hk. }
    rewrite <-app_assoc in Hk. apply app_inv_head in Hk as ->.
    destruct (IH t') as (j & b' & tail & Hb' & -> & Htail); [by exists k|].
    exists (S j), (f ++ b'), tail. rewrite <-app_assoc. split_and!; auto.
    by apply frames_cons.
Qed.

Lemma commit_counter faults file v :
  i64 v ->
  exists f t res, commit faults file (counter_record v) = (file ++ t, res) /\
    frames_of [counter_record v] f /\ t `prefix_of` f /\
    (forall u, res = Ok u -> t = f) /\ (faults = no_append_faults -> res = Ok tt).
Proof.
  intros Hv. destruct (counter_frame v Hv) as [Hu [f Hf]].
  destruct (commit faults file (counter_record v)) as [file' res] eqn:E.
  pose proof (commit_leaves _ _ _ _ _ E) as (t & -> & Ht). exists f, t, res.
  split_and!; [done| | | |].
  - rewrite <-(app_nil_r f). eauto using frames_of.
  - rewrite Hf in Ht. destruct res as [u|e].
    + by injection Ht as ->.
    + destruct Ht as [->|(g & [= <-] & ?)]; [apply prefix_nil|done].
  - intros u ->. congruence.
  - intros ->. unfold commit in E. rewrite Hf in E. cbn in E. by injection E as _ <-.
Qed.

(** What a join leaves: the counter records still missing, or a part of
    them. *)
Lemma join_all_leaves rs frames read write1 write2 stand_in w :
  frames_of rs frames -> (length rs <= 2)%nat ->
  (forall sequence w, i64 (stand_in sequence w).1) ->
  exists w' res l b t,
    join_all JoinBranch read write1 write2 (start_frame ++ frames) stand_in w =
      Some (start_frame ++ frames ++ t, w', res) /\
    frames_of l b /\ (length rs + length l <= 2)%nat /\ t `prefix_of` b /\
    (read = None -> write1 = no_append_faults -> write2 = no_append_faults ->
     t = b /\ length rs + length l = 2 /\ res = Ok tt)%nat.
Proof.
  intros Hfr Hlen Hv. unfold join_all. cbn [JoinBranch wait commands ts_name].
  rewrite !bool_decide_eq_true_2 by done. cbn [negb andb spawn h_sequence].
  unfold Journal.history. destruct read as [e|].
  { exists w, (Err e), [], [], []. rewrite !app_nil_r.
    split_and!; auto using frames_nil; simpl; [lia|done]. }
  pose proof (decode_whole rs frames [] Hfr torn_nil) as Ed. rewrite app_nil_r in Ed.
  rewrite Ed. cbn [dec_records].
  destruct rs as [|r1 [|r2 [|]]]; simpl length in *; [| | |lia].
  - pose proof (Hv 0%N w) as Hv0. destruct (stand_in 0%N w) as [v0 w1]. simpl in Hv0.
    destruct (commit_counter write1 (start_frame ++ frames) v0 Hv0)
      as (f & t & res & -> & Hf & Ht & Hok & Hnf).
    destruct res as [[]|e].
    2:{ eexists w1, (Err e), [counter_record v0], f, t. rewrite <-app_assoc.
        split_and!; [done|done|simpl; lia|done|]. intros _ E. by apply Hnf in E. }
    rewrite (Hok tt eq_refl). clear t Ht Hok Hnf.
    pose proof (Hv 1%N w1) as Hv1. destruct (stand_in 1%N w1) as [v1 w2]. simpl in Hv1.
    destruct (commit_counter write2 ((start_frame ++ frames) ++ f) v1 Hv1)
      as (f' & t & res & -> & Hf' & Ht & Hok & Hnf).
    exists w2, res, [counter_record v0; counter_record v1], (f ++ f'), (f ++ t).
    rewrite <-!app_assoc. split_and!; [done| |simpl; lia|by apply prefix_app|].
    + by apply (frames_of_app [_] f [_]).
    + intros _ _ E. apply Hnf in E as ->. by rewrite (Hok tt eq_refl).
  - pose proof (Hv 1%N w) as Hv1. destruct (stand_in 1%N w) as [v1 w1]. simpl in Hv1.
    destruct (commit_counter write1 (start_frame ++ frames) v1 Hv1)
      as (f & t & res & -> & Hf & Ht & Hok & Hnf).
    eexists w1, res, [counter_record v1], f, t. rewrite <-app_assoc.
    split_and!; [done|done|simpl; lia|done|]. intros _ E _. apply Hnf in E as ->.
    by rewrite (Hok tt eq_refl).
  - exists w, (Ok tt), [], [], []. rewrite !app_nil_r.
    split_and!; auto using frames_nil.
Qed.

(** A join that was interrupted is finished by running it again: start
    from a journal with at most two records, let [join_all] run with any
    failures of the journal's file, let the process be killed after any byte
    past the old end, reopen the journal and run [join_all] again.  The
    second run succeeds and the journal then holds exactly two records, the
    old ones first. *)
Theorem join_all_resumes rs frames read write1 write2 stand_in w n :
  frames_of rs frames -> (length rs <= 2)%nat ->
  (forall sequence w, i64 (stand_in sequence w).1) ->
  (length (start_frame ++ frames) <= n)%nat ->
  exists left w1 res1 file,
    join_all JoinBranch read write1 write2 (start_frame ++ frames) stand_in w =
      Some (left, w1, res1) /\
    open no_open_faults (Some (take n left)) = Some (Some file, Ok tt) /\
    exists w2 rs' frames',
      join_all JoinBranch None no_append_faults no_append_faults file stand_in w1 =
        Some (start_frame ++ frames', w2, Ok tt) /\
      frames_of rs' frames' /\ length rs' = 2 /\ rs `prefix_of` rs'.
Proof.
  intros Hfr Hlen Hv Hn.
  destruct (join_all_leaves rs frames read write1 write2 stand_in w Hfr Hlen Hv)
    as (w1 & res1 & l & b & t & -> & Hb & Hl & Ht & _).
  set (t' := take (n - length (start_frame ++ frames)) t).
  destruct (frames_prefix l b t') as (k & b' & tail & Hb' & Ht' & Htail); [done| |].
  { etrans; [apply prefix_take|done]. }
  assert (length (take k l) <= length l)%nat as Hk by (rewrite length_take; lia).
  exists (start_frame ++ frames ++ t), w1, res1, (start_frame ++ frames ++ b').
  split; [done|]. split.
  { rewrite app_assoc, take_app_ge by done. fold t'. rewrite Ht', <-app_assoc, (app_assoc frames).
    apply (open_whole (rs ++ take k l)); [by apply frames_of_app|done]. }
  destruct (join_all_leaves (rs ++ take k l) (frames ++ b') None no_append_faults no_append_faults
    stand_in w1) as (w2 & res2 & l2 & b2 & t2 & -> & Hb2 & _ & _ & Hdone);
    [by apply frames_of_app|rewrite length_app; lia|done|].
  destruct (Hdone eq_refl eq_refl eq_refl) as (-> & Hl2 & ->).
  exists w2, ((rs ++ take k l) ++ l2), ((frames ++ b') ++ b2). split_and!.
  - done.
  - apply frames_of_app; [by apply frames_of_app|done].
  - rewrite length_app. lia.
  - rewrite <-app_assoc. by apply prefix_app_r.
Qed.

(** A commit cut off anywhere, and the journal reopened. *)
Lemma commit_reopen rs frames write r left res n :
  frames_of rs frames -> record_utf8 r = true ->
  commit write (start_frame ++ frames) r = (left, res) ->
  (length (start_frame ++ frames) <= n)%nat ->
  exists rs' frames',
    open no_open_faults (Some (take n left)) = Some (Some (start_frame ++ frames'), Ok tt) /\
    frames_of rs' frames' /\ (rs' = rs \/ rs' = rs ++ [r]).
Proof.
  intros Hfr Hu Hc Hn. apply commit_leaves in Hc as (t & -> & Ht).
  rewrite take_app_ge, <-app_assoc by done.
  set (t' := take _ t). assert (t' `prefix_of` t) as Ht' by apply prefix_take.
  destruct (frame r) as [f|e] eqn:Hf.
  - destruct (reopen_part rs frames r f t' Hfr Hu Hf) as (rs' & frames' & -> & Hfr' & Ho).
    { etrans; [exact Ht'|]. destruct res; [by injection Ht as ->|].
      destruct Ht as [->|(g & [= <-] & ?)]; [apply prefix_nil|done]. }
    eexists _, _. split_and!; [done..|]. case_bool_decide; auto.
  - assert (t = []) as -> by (by destruct res; [done|destruct Ht as [->|(? & ? & _)]]).
    exists rs, frames. unfold t'. rewrite take_nil. split_and!; auto.
    by apply (open_whole rs), torn_nil.
Qed.

(** One replay whose command is a spawn. *)
Lemma replay_spawn driver write rs frames parent spawner stand_in agent agent_id w :
  frames_of rs frames ->
  driver rs = Some (mkWorkflowStep [SpawnAgent agent] NoWait) ->
  id_parse (as_agent agent) = Some agent_id -> (N.of_nat (length rs) <= u32_max)%N ->
  let q := mkChildRequest parent (N.of_nat (length rs)) agent_id (as_input agent) (limits parent) in
  exists left res,
    replay driver None write (start_frame ++ frames) parent spawner stand_in w =
      Some (left, (spawner q w).2, res) /\
    (is_ok (spawner q w).1 = true ->
     exists r, commit write (start_frame ++ frames) (AgentSpawned (as_agent agent)) = (left, r)) /\
    (is_ok (spawner q w).1 = false -> left = start_frame ++ frames).
Proof.
  intros Hfr Hd Hid Hlen q. unfold replay. rewrite (history_whole rs) by done. rewrite Hd.
  cbn [commands]. unfold start_child. rewrite Hid, (proj2 (N.leb_le _ _) Hlen). fold q.
  destruct (spawner q w) as [[child|reason] w1]; simpl.
  - destruct (commit write _ _) as [left [[]|e]] eqn:E;
      eexists _, _; (split_and!; [done|eauto|done]).
  - eexists _, _. by split_and!.
Qed.

(** A workflow never loses a child it started, and never asks for a
    second one.  When the command is a spawn, [replay] asks the spawner for the
    child numbered by the journal's length; killed at any byte of the commit
    that follows, or with any failure of it, the journal reopens whole and
    either records the spawn, which the spawner had then granted, or is as it
    was, and then every later replay asks for the very same child. *)
Theorem replay_asks_for_the_same_child driver write rs frames parent spawner stand_in agent agent_id w n :
  frames_of rs frames -> record_utf8 (AgentSpawned (as_agent agent)) = true ->
  driver rs = Some (mkWorkflowStep [SpawnAgent agent] NoWait) ->
  id_parse (as_agent agent) = Some agent_id -> (N.of_nat (length rs) <= u32_max)%N ->
  (length (start_frame ++ frames) <= n)%nat ->
  let q := mkChildRequest parent (N.of_nat (length rs)) agent_id (as_input agent) (limits parent) in
  exists left res frames' rs',
    replay driver None write (start_frame ++ frames) parent spawner stand_in w =
      Some (left, (spawner q w).2, res) /\
    open no_open_faults (Some (take n left)) = Some (Some (start_frame ++ frames'), Ok tt) /\
    frames_of rs' frames' /\
    ((rs' = rs ++ [AgentSpawned (as_agent agent)] /\ is_ok (spawner q w).1 = true) \/
     (rs' = rs /\ forall write' w', exists left' res',
        replay driver None write' (start_frame ++ frames') parent spawner stand_in w' =
          Some (left', (spawner q w').2, res'))).
Proof.
  intros Hfr Hu Hd Hid Hlen Hn q.
  destruct (replay_spawn driver write rs frames parent spawner stand_in agent agent_id w
    Hfr Hd Hid Hlen) as (left & res & Hr & Hok & Hno). fold q in Hr, Hok, Hno.
  assert (exists rs' frames',
    open no_open_faults (Some (take n left)) = Some (Some (start_frame ++ frames'), Ok tt) /\
    frames_of rs' frames' /\
    ((rs' = rs ++ [AgentSpawned (as_agent agent)] /\ is_ok (spawner q w).1 = true) \/ rs' = rs))
    as (rs' & frames' & Ho & Hfr' & Hcase).
  { destruct (is_ok (spawner q w).1).
    - destruct (Hok eq_refl) as [r Hc].
      destruct (commit_reopen _ _ _ _ _ _ _ Hfr Hu Hc Hn) as (rs' & frames' & ? & ? & [-> | ->]);
        eauto 10.
    - rewrite (Hno eq_refl), take_ge by done. exists rs, frames. split_and!; auto.
      rewrite <-(app_nil_r frames) at 1. by apply (open_whole rs), torn_nil. }
  exists left, res, frames', rs'. split_and!; [done..|].
  destruct Hcase as [?| ->]; [auto|right]. split; [done|]. intros write' w'.
  destruct (replay_spawn driver write' rs frames' parent spawner stand_in agent agent_id w'
    Hfr' Hd Hid Hlen) as (left' & res' & Hr' & _). eauto.
Qed.

End Host.

(** ** Witnesses *)

#[local] Existing Instance hyphenated.

(** The tool returns its sequence number; the outside world is unit. *)
Definition sample_stand_in (sequence : N) (w : unit) : Z * unit := (Z.min (Z.of_N sequence) 5, w).

Lemma join_all_resumes_witness :
  exists left w1 res1 file,
    join_all JoinBranch None no_append_faults
      (mkAppendFaults None (Some (3, mkIoError OtherError "disk")) None
        (Some (mkIoError OtherError "disk"))) (start_frame ++ []) sample_stand_in tt =
      Some (left, w1, res1) /\
    open no_open_faults (Some (take 60 left)) = Some (Some file, Ok tt) /\
    exists w2 rs' frames',
      join_all JoinBranch None no_append_faults no_append_faults file sample_stand_in w1 =
        Some (start_frame ++ frames', w2, Ok tt) /\
      frames_of rs' frames' /\ length rs' = 2 /\ [] `prefix_of` rs'.
Proof.
  apply join_all_resumes.
  - constructor.
  - simpl. lia.
  - intros sequence w. unfold i64, sample_stand_in. simpl. lia.
  - apply Nat.leb_le. by vm_compute.
Defined.

Definition sample_agent : AgentSpec :=
  mkAgentSpec (uuid_display (as_uuid (id_of (k := KAgent) 5))) "go".

(** A spawner that starts run 9, whose first commit fails after two bytes. *)
Lemma replay_asks_for_the_same_child_witness :
  let spawner : AgentSpawner nat :=
    fun q w => (Ok (mkStartedChild (id_of 9) (cr_limits q)), S w) in
  let driver := evaluate_program (DSpawnAgent (as_agent sample_agent) "go") in
  let write := mkAppendFaults None (Some (2, mkIoError OtherError "disk")) None
                 (Some (mkIoError OtherError "disk")) in
  exists left w1 res frames',
    replay driver None write (start_frame ++ []) sample_spec spawner (fun w => (0%Z, w)) 0 =
      Some (left, w1, res) /\
    open no_open_faults (Some (take 60 left)) = Some (Some (start_frame ++ frames'), Ok tt).
Proof.
  intros spawner driver write.
  destruct (replay_asks_for_the_same_child driver write [] [] sample_spec spawner
    (fun w => (0%Z, w)) sample_agent (id_of 5) 0 60) as (left & res & frames' & rs' & Hr & Ho & _).
  - constructor.
  - by vm_compute.
  - by vm_compute.
  - by vm_compute.
  - by vm_compute.
  - apply Nat.leb_le. by vm_compute.
  - eauto 8.
Defined.
