(* ===== verification/Mcp.v ===== *)
(** * Tool servers ([harness/catalog.rs])

    A catalog tool is answered by a server that speaks MCP over its standard
    input and output: requests are lines of JSON, a response is the line with
    the request's id.  A thread forwards the server's lines; a session reads
    them until its deadline.  The session is started by the first call and
    dropped when it can no longer be trusted.

    What the operating system and the server do is given as data: what each
    write to the server says and when it returns ([se_writes]), and what each
    wait for a line gives and when it began ([se_lines]).  JSON's text is the
    class [Json]. *)

From S2P Require Import Prelude Text Protocol Uuids Driver.

(** ** JSON ([serde_json]) *)

Inductive Number := JInt (z : Z) | JOther (text : string).

#[warnings="-register-all"]
Inductive Value :=
| JNull
| JBool (b : bool)
| JNumber (n : Number)
| JString (s : string)
| JArray (items : list Value)
| JObject (fields : list (string * Value)).

Class Json : Type := {
  from_slice : list byte -> result Value string;
  json_text : Value -> string;
}.

(** [get] of a member, and the other readers the source uses. *)
Definition member (key : string) (v : Value) : option Value :=
  match v with
  | JObject fields => snd <$> List.find (fun f => bool_decide (f.1 = key)) fields
  | _ => None
  end.

Definition as_i64 (v : Value) : option Z :=
  match v with
  | JNumber (JInt z) => if ((- i64_max - 1 <=? z) && (z <=? i64_max))%Z then Some z else None
  | _ => None
  end.

Definition as_str (v : Value) : option string := match v with JString s => Some s | _ => None end.
Definition as_bool (v : Value) : option bool := match v with JBool b => Some b | _ => None end.
Definition as_array (v : Value) : option (list Value) := match v with JArray l => Some l | _ => None end.

(** [pointer("/content/0/text")]. *)
Definition content_text (v : Value) : option Value :=
  content ← member "content" v;
  first ← match content with JArray (first :: _) => Some first | JObject _ => member "0" content | _ => None end;
  match first with JObject _ => member "text" first | _ => None end.

(** ** Frames *)

Definition MAX_LINE : nat := (1024 * 1024)%nat.
Definition DEFAULT_TIMEOUT_MS : N := 30000.
Definition DEFAULT_INPUT_SCHEMA : string := "{" +:+ quoted "type" +:+ ":" +:+ quoted "object" +:+ "}".
Definition MAX_TOOL_PAGES : nat := 16.
Definition BASE_ENV : list string := ["PATH"; "HOME"; "LANG"; "TMPDIR"].

Inductive Frame := Response (v : Value) | Skip | Invalid (message : string).

(** [u8::is_ascii_whitespace]. *)
Definition is_ascii_whitespace (b : byte) : bool :=
  bool_decide (code b ∈ [32; 9; 10; 12; 13]%N).

Section Frames.
Context `{Json}.

Definition parse_frame (line : list byte) (id : Z) : Frame :=
  if forallb is_ascii_whitespace line then Skip
  else
    match from_slice line with
    | Err err => Invalid err
    | Ok (JObject fields as value) =>
        if bool_decide (is_Some (member "method" value)) then Skip
        else
          match id' ← member "id" value; as_i64 id' with
          | Some found => if (found =? id)%Z then Response value else Skip
          | None => Skip
          end
    | Ok _ => Invalid "not a JSON object"
    end.

(** ** Lines *)

(** What the reader has yet to give: the chunk in its buffer and those of the
    reads to come; an empty chunk, or none, is the end. *)
Definition Reader : Type := list (result (list byte) string).

(** [consume]. *)
Definition consume (n : nat) (chunk : list byte) (reader : Reader) : Reader :=
  match drop n chunk with [] => reader | rest => Ok rest :: reader end.

Definition size (bytes : nat) : string :=
  let MIB := (1024 * 1024)%nat in
  if (MIB <=? bytes)%nat && (bytes mod MIB =? 0)%nat then pretty (bytes / MIB)%nat +:+ " MiB"
  else pretty bytes +:+ " bytes".

(** The place of the first newline. *)
Fixpoint newline_at (bytes : list byte) : option nat :=
  match bytes with
  | [] => None
  | b :: bytes => if bool_decide (b = newline) then Some 0%nat else S <$> newline_at bytes
  end.

Fixpoint read_capped_line (cap : nat) (line : list byte) (reader : Reader)
    : result (option (list byte)) string * Reader :=
  match reader with
  | [] | Ok [] :: _ => (Ok (match line with [] => None | _ => Some line end), reader)
  | Err err :: reader => (Err err, reader)
  | Ok available :: more =>
      match newline_at available with
      | Some stop =>
          if (cap <? length line + stop)%nat then (Err ("line over " +:+ size cap), reader)
          else (Ok (Some (line ++ take stop available)), consume (stop + 1) available more)
      | None =>
          if (cap <? length line + length available)%nat then (Err ("line over " +:+ size cap), reader)
          else read_capped_line cap (line ++ available) more
      end
  end.

(** The messages [forward_lines] sends, if the session keeps listening; each
    line takes at least a byte of the reader, so [fuel] is its bytes and one. *)
Fixpoint forward_lines (fuel : nat) (reader : Reader) : list (result (list byte) string) :=
  match fuel with
  | O => []
  | S fuel =>
      match read_capped_line MAX_LINE [] reader with
      | (Ok (Some line), reader) => Ok line :: forward_lines fuel reader
      | (Ok None, _) => [Err "server closed stdout"]
      | (Err err, _) => [Err err]
      end
  end.

(** ** Waiting for a response *)

(** Why a call failed: the server answered so, or no usable answer came. *)
Inductive McpFailure := Answered (message : string) | Transport (message : string).

Definition failure_message (f : McpFailure) : string := match f with Answered m | Transport m => m end.

Definition within (request : string) (f : McpFailure) : McpFailure :=
  match f with
  | Answered m => Answered (request +:+ ": " +:+ m)
  | Transport m => Transport (request +:+ ": " +:+ m)
  end.

(** What [recv_timeout] gives. *)
Inductive Received :=
| Line (line : list byte)
| Failed (message : string)
| TimedOut
| Disconnected.

(** The waits to come: when each begins, in milliseconds, and what it gives.
    After the last the channel is disconnected. *)
Definition Lines : Type := list (Z * Received).

Fixpoint await_response (id : Z) (deadline : Z) (timeout : N) (lines : Lines)
    : result Value McpFailure * Lines :=
  match lines with
  | [] => (Err (Transport "server closed stdout"), [])
  | (now, received) :: lines =>
      if (deadline <=? now)%Z then
        (Err (Transport ("timed out after " +:+ pretty timeout +:+ " ms")), (now, received) :: lines)
      else
        match received with
        | Failed message => (Err (Transport message), lines)
        | TimedOut => await_response id deadline timeout lines
        | Disconnected => (Err (Transport "server closed stdout"), lines)
        | Line line =>
            match parse_frame line id with
            | Response value => (Ok value, lines)
            | Skip => await_response id deadline timeout lines
            | Invalid message => (Err (Transport ("malformed message: " +:+ message)), lines)
            end
        end
  end.

(** ** Sessions *)

(** The writes to come: what each says, and the time it returns. *)
Definition Writes : Type := list (result unit string * Z).

Record McpSession : Type := mkSession {
  se_writes : Writes;
  se_lines : Lines;
  se_sent : list Value;
  se_next_id : Z;
  se_timeout : N;
  se_listed : list string;
}.

Definition session_op (A : Type) : Type := McpSession -> result A McpFailure * McpSession.

Definition session_bind {A B} (m : session_op A) (f : A -> session_op B) : session_op B :=
  fun s => match m s with (Ok x, s) => f x s | (Err e, s) => (Err e, s) end.

#[local] Notation "'let?' x ':=' m 'in' k" := (session_bind m (fun x => k))
  (at level 10, x pattern, k at level 200, right associativity).

(** [writeln!] and [flush]; a session that is written to more often than its
    writes say has a broken pipe.  [se_sent] is what was written, the latest
    first. *)
Definition send (message : Value) : session_op Z := fun s =>
  match se_writes s with
  | [] => (Err (Transport "broken pipe"), s)
  | (Err err, _) :: writes =>
      (Err (Transport err),
       mkSession writes (se_lines s) (se_sent s) (se_next_id s) (se_timeout s) (se_listed s))
  | (Ok _, now) :: writes =>
      (Ok now,
       mkSession writes (se_lines s) (message :: se_sent s) (se_next_id s) (se_timeout s) (se_listed s))
  end.

Definition request_message (id : Z) (method : string) (params : Value) : Value :=
  JObject [("jsonrpc", JString "2.0"); ("id", JNumber (JInt id)); ("method", JString method); ("params", params)].

(** From the response to its result. *)
Definition response_result (value : Value) : result Value McpFailure :=
  match member "error" value with
  | Some error =>
      let message :=
        match message ← member "message" error; as_str message with
        | Some message => message
        | None => json_text error
        end in
      Err (Answered
        (match member "code" error with
         | Some code => message +:+ " (code " +:+ json_text code +:+ ")"
         | None => message
         end))
  | None =>
      match member "result" value with
      | Some result => Ok result
      | None => Err (Answered "response missing result")
      end
  end.

Definition request (method : string) (params : Value) : session_op Value := fun s =>
  let id := se_next_id s in
  let s := mkSession (se_writes s) (se_lines s) (se_sent s) (id + 1) (se_timeout s) (se_listed s) in
  match send (request_message id method params) s with
  | (Err failure, s) => (Err failure, s)
  | (Ok now, s) =>
      let deadline := (now + Z.of_N (se_timeout s))%Z in
      let '(answer, lines) := await_response id deadline (se_timeout s) (se_lines s) in
      let s := mkSession (se_writes s) lines (se_sent s) (se_next_id s) (se_timeout s) (se_listed s) in
      (match answer with Ok value => response_result value | Err failure => Err failure end, s)
  end.

Definition notify (method : string) (params : Value) : session_op Z :=
  send (JObject [("jsonrpc", JString "2.0"); ("method", JString method); ("params", params)]).

Definition malformed : McpFailure := Transport "tools/list: malformed result".

(** The names of a page; [None] if one is missing. *)
Fixpoint tool_names (tools : list Value) : option (list string) :=
  match tools with
  | [] => Some []
  | tool :: tools =>
      name ← member "name" tool; name ← as_str name; names ← tool_names tools; Some (name :: names)
  end.

Fixpoint list_pages (pages : nat) (names : list string) (cursor : option string) : session_op (list string) :=
  match pages with
  | O => fun s => (Err (Transport ("tools/list: more than " +:+ pretty MAX_TOOL_PAGES +:+ " pages")), s)
  | S pages => fun s =>
      let params := match cursor with Some cursor => JObject [("cursor", JString cursor)] | None => JObject [] end in
      match request "tools/list" params s with
      | (Err failure, s) => (Err (within "tools/list" failure), s)
      | (Ok page, s) =>
          match tools ← member "tools" page; tools ← as_array tools; tool_names tools with
          | None => (Err malformed, s)
          | Some more =>
              match next ← member "nextCursor" page; as_str next with
              | Some next => list_pages pages (names ++ more) (Some next) s
              | None => (Ok (names ++ more), s)
              end
          end
      end
  end.

Definition list_tools : session_op (list string) := list_pages MAX_TOOL_PAGES [] None.

Definition session_call (name input : string) : session_op string := fun s =>
  match request "tools/call" (JObject [("name", JString name); ("arguments", JObject [("input", JString input)])]) s with
  | (Err failure, s) => (Err failure, s)
  | (Ok result, s) =>
      (match text ← content_text result; as_str text with
       | None => Err (Answered "tools/call missing text")
       | Some text =>
           match error ← member "isError" result; as_bool error with
           | Some true => Err (Answered text)
           | _ => Ok text
           end
       end, s)
  end.

(** ** A server and its calls *)

(** How a server behaves once started. *)
Record Server : Type := mkServer { sv_writes : Writes; sv_lines : Lines }.

(** What is started: the program, its arguments, its whole environment (it is
    cleared first) and its directory. *)
Record ServerCommand : Type := mkServerCommand {
  sc_program : string;
  sc_args : list string;
  sc_envs : list (string * string);
  sc_dir : string;
}.

Definition Start : Type := ServerCommand -> result Server string.

(** [PendingMcp]: [pm_starts] is what the starts to come give. *)
Record PendingMcp : Type := mkPending {
  pm_dir : string;
  pm_server_name : string;
  pm_command : string;
  pm_args : list string;
  pm_env : list string;
  pm_timeout : N;
  pm_live : option McpSession;
  pm_starts : list Start;
}.

Definition with_live (p : PendingMcp) (live : option McpSession) (starts : list Start) : PendingMcp :=
  mkPending (pm_dir p) (pm_server_name p) (pm_command p) (pm_args p) (pm_env p) (pm_timeout p) live starts.

Definition client_info : Value :=
  JObject [("protocolVersion", JString "2024-11-05"); ("capabilities", JObject []);
           ("clientInfo", JObject [("name", JString "gol"); ("version", JString "0.1.0")])].

(** The handshake of a new session. *)
Definition handshake : session_op (list string) :=
  let? _ := request "initialize" client_info in
  let? _ := notify "notifications/initialized" (JObject []) in
  list_tools.

(** [var] is [std::env::var_os]. *)
Context (var : string -> option string).

(** The environment a server is given. *)
Definition given_env (env : list string) : list (string * string) :=
  omap (fun key => pair key <$> var key) (BASE_ENV ++ env).

Definition server_command (p : PendingMcp) : ServerCommand :=
  mkServerCommand (pm_command p) (pm_args p) (given_env (pm_env p)) (pm_dir p).

(** [McpSession::spawn]. *)
Definition spawn_session (p : PendingMcp) : result McpSession McpFailure * list Start :=
  match pm_starts p with
  | [] => (Err (Transport ("spawn " +:+ pm_command p +:+ " for " +:+ pm_server_name p +:+ ": no such file")), [])
  | start :: starts =>
      (match start (server_command p) with
       | Err err => Err (Transport ("spawn " +:+ pm_command p +:+ " for " +:+ pm_server_name p +:+ ": " +:+ err))
       | Ok server =>
           match handshake (mkSession (sv_writes server) (sv_lines server) [] 1 (pm_timeout p) []) with
           | (Ok listed, s) =>
               Ok (mkSession (se_writes s) (se_lines s) (se_sent s) (se_next_id s) (se_timeout s) listed)
           | (Err failure, _) => Err failure
           end
       end, starts)
  end.

Definition pending_call (name input : string) (p : PendingMcp) : result string string * PendingMcp :=
  let '(live, p) :=
    match pm_live p with
    | Some session => (Ok session, p)
    | None =>
        match spawn_session p with
        | (Ok session, starts) => (Ok session, with_live p (Some session) starts)
        | (Err failure, starts) => (Err (failure_message failure), with_live p None starts)
        end
    end in
  match live with
  | Err message => (Err message, p)
  | Ok session =>
      if negb (existsb (fun listed => bool_decide (listed = name)) (se_listed session)) then
        (Err "not listed by the server", p)
      else
        match session_call name input session with
        | (Ok text, session) => (Ok text, with_live p (Some session) (pm_starts p))
        | (Err (Answered message), session) => (Err message, with_live p (Some session) (pm_starts p))
        | (Err (Transport message), _) => (Err message, with_live p None (pm_starts p))
        end
  end.

End Frames.
