(* ===== verification/McpProofs.v ===== *)
(** * What a tool server's client promises *)

From S2P Require Import Prelude Text Protocol Uuids Driver Mcp.

(** ** Lines *)

(** The messages of a text, by its parts between newlines: each line is sent
    unless it is too long, which ends it, as the end of the text does. *)
Fixpoint line_messages (cap : nat) (parts : list (list byte)) : list (result (list byte) string) :=
  let too_long := Err ("line over " +:+ size cap) in
  match parts with
  | [] => [Err "server closed stdout"]
  | [last] =>
      if (cap <? length last)%nat then [too_long]
      else match last with [] => [Err "server closed stdout"] | _ => [Ok last; Err "server closed stdout"] end
  | part :: parts => if (cap <? length part)%nat then [too_long] else Ok part :: line_messages cap parts
  end.

Lemma newline_at_split bytes :
  split_bytes newline bytes =
  match newline_at bytes with
  | Some n => take n bytes :: split_bytes newline (drop (n + 1) bytes)
  | None => [bytes]
  end.
Proof.
  induction bytes as [|b bytes IH]; simpl; [done|]. case_bool_decide as Hb; [done|].
  rewrite IH. by destruct (newline_at bytes).
Qed.

Lemma newline_at_lt bytes n : newline_at bytes = Some n -> (n < length bytes)%nat.
Proof.
  revert n. induction bytes as [|b bytes IH]; simpl; intros n; [done|]. case_bool_decide; [intros [= <-]; lia|].
  destruct (newline_at bytes) as [m|]; [|done]. intros [= <-]. specialize (IH m eq_refl). lia.
Qed.

Lemma newline_at_app l1 l2 : newline_at (l1 ++ l2) =
  match newline_at l1 with Some n => Some n | None => (fun n => length l1 + n)%nat <$> newline_at l2 end.
Proof.
  induction l1 as [|b l1 IH]; simpl; [by destruct (newline_at l2)|]. case_bool_decide; [done|].
  rewrite IH. destruct (newline_at l1); [done|]. by destruct (newline_at l2).
Qed.

(** Chunks as the reads of a pipe give them. *)
Definition chunks_of (chunks : list (list byte)) : Reader := Ok <$> chunks.

(** A line read is the text's first, however the text was cut. *)
Lemma read_line_of_text cap line chunks :
  Forall (fun c => c <> []) chunks -> (length line <= cap)%nat ->
  match newline_at (concat chunks) with
  | Some n =>
      if (cap <? length line + n)%nat then
        exists r, read_capped_line cap line (chunks_of chunks) = (Err ("line over " +:+ size cap), r)
      else
        exists more, Forall (fun c => c <> []) more /\ concat more = drop (n + 1) (concat chunks) /\
          read_capped_line cap line (chunks_of chunks) =
            (Ok (Some (line ++ take n (concat chunks))), chunks_of more)
  | None =>
      let all := line ++ concat chunks in
      if (cap <? length all)%nat then
        exists r, read_capped_line cap line (chunks_of chunks) = (Err ("line over " +:+ size cap), r)
      else
        read_capped_line cap line (chunks_of chunks) = (Ok (match all with [] => None | _ => Some all end), [])
  end.
Proof.
  intros Hc. revert line. induction Hc as [|chunk chunks Hne Hall IH]; intros line Hl.
  { cbn [concat newline_at]. cbv zeta. rewrite app_nil_r. destruct (Nat.ltb_spec cap (length line)); [lia|].
    by destruct line. }
  cbn [concat]. rewrite newline_at_app.
  assert (exists x xs, chunk = x :: xs) as (x & xs & Hx) by (destruct chunk as [|x xs]; [done|by exists x, xs]).
  assert (read_capped_line cap line (chunks_of (chunk :: chunks)) =
    match newline_at chunk with
    | Some stop =>
        if (cap <? length line + stop)%nat then (Err ("line over " +:+ size cap), chunks_of (chunk :: chunks))
        else (Ok (Some (line ++ take stop chunk)), consume (stop + 1) chunk (chunks_of chunks))
    | None =>
        if (cap <? length line + length chunk)%nat then (Err ("line over " +:+ size cap), chunks_of (chunk :: chunks))
        else read_capped_line cap (line ++ chunk) (chunks_of chunks)
    end) as -> by (by subst chunk).
  destruct (newline_at chunk) as [n|] eqn:En.
  - pose proof (newline_at_lt _ _ En) as Hn. destruct (cap <? length line + n)%nat; [by eexists|].
    rewrite take_app_le by lia. rewrite drop_app_le by lia. unfold consume.
    destruct (drop (n + 1) chunk) as [|y rest]; [by exists chunks|].
    exists ((y :: rest) :: chunks). split_and!; [by constructor|done|done].
  - destruct (Nat.ltb_spec cap (length line + length chunk)) as [Hover|Hfit].
    + destruct (newline_at (concat chunks)) as [n|]; cbn [fmap option_fmap option_map].
      * destruct (Nat.ltb_spec cap (length line + (length chunk + n))); [by eexists|lia].
      * rewrite !length_app. destruct (Nat.ltb_spec cap (length line + (length chunk + length (concat chunks))));
          [by eexists|lia].
    + specialize (IH (line ++ chunk)). rewrite length_app in IH. specialize (IH ltac:(lia)).
      destruct (newline_at (concat chunks)) as [n|]; cbn [fmap option_fmap option_map].
      * rewrite Nat.add_assoc. destruct (cap <? length line + length chunk + n)%nat; [done|].
        destruct IH as (more & Hm & Em & ->). exists more.
        rewrite take_app_add, <-(Nat.add_assoc (length chunk)), drop_app_add, app_assoc. done.
      * rewrite <-app_assoc in IH. exact IH.
Qed.

Lemma forward_of_text fuel chunks :
  Forall (fun c => c <> []) chunks -> (length (concat chunks) + 1 < fuel)%nat ->
  forward_lines fuel (chunks_of chunks) = line_messages MAX_LINE (split_bytes newline (concat chunks)).
Proof.
  assert (exists cap, cap = MAX_LINE) as [cap Ecap] by (by eexists).
  assert (forall fuel r, forward_lines (S fuel) r =
    match read_capped_line cap [] r with
    | (Ok (Some line), reader) => Ok line :: forward_lines fuel reader
    | (Ok None, _) => [Err "server closed stdout"]
    | (Err err, _) => [Err err]
    end) as Hstep by (by subst cap).
  rewrite <-Ecap. clear Ecap. revert chunks. induction fuel as [|fuel IH]; intros chunks Hc Hf; [lia|].
  rewrite Hstep. pose proof (read_line_of_text cap [] chunks Hc ltac:(simpl; lia)) as Hr. simpl in Hr.
  rewrite newline_at_split. destruct (newline_at (concat chunks)) as [n|] eqn:En.
  - pose proof (newline_at_lt _ _ En) as Hn.
    assert (length (take n (concat chunks)) = n) as Hlen by (rewrite length_take; lia).
    pose proof (split_bytes_nonempty newline (drop (n + 1) (concat chunks))) as Hne.
    destruct (split_bytes newline (drop (n + 1) (concat chunks))) as [|part parts] eqn:Es; [done|].
    cbn [line_messages]. rewrite Hlen. destruct (cap <? n)%nat; [by destruct Hr as [r ->]|].
    destruct Hr as (more & Hm & Em & ->). rewrite IH; [by rewrite Em, Es|done|].
    rewrite Em, length_drop. lia.
  - cbn [line_messages]. destruct (Nat.ltb_spec cap (length (concat chunks))); [by destruct Hr as [r ->]|].
    rewrite Hr. destruct (concat chunks) as [|b bs]; [done|]. destruct fuel as [|fuel]; [simpl in Hf; lia|].
    by rewrite Hstep.
Qed.

(** The lines a session reads are the server's, however its output was cut
    into reads: each line up to the limit is one message, whole and in order,
    the last one too if the output ends without a newline, and nothing is sent
    after a line over the limit or after the end.  The steps of the thread are
    at most the bytes of the output and two. *)
Theorem lines_are_the_servers chunks fuel :
  Forall (fun c => c <> []) chunks -> (length (concat chunks) + 1 < fuel)%nat ->
  forward_lines fuel (chunks_of chunks) = line_messages MAX_LINE (split_bytes newline (concat chunks)) /\
  Forall (fun m => match m with Ok line => (length line <= MAX_LINE)%nat /\ newline ∉ line | Err _ => True end)
    (forward_lines fuel (chunks_of chunks)).
Proof.
  intros Hc Hf. rewrite forward_of_text by done. split; [done|]. clear.
  assert (exists cap, cap = MAX_LINE) as [cap <-] by (by eexists).
  assert (Forall (fun part => newline ∉ part) (split_bytes newline (concat chunks))) as Hs.
  { induction (concat chunks) as [|b bs IH]; simpl; [constructor; [by apply not_elem_of_nil|done]|].
    case_bool_decide as Hb; [constructor; [by apply not_elem_of_nil|done]|].
    destruct (split_bytes newline bs) as [|p ps]; [by constructor; [apply not_elem_of_cons; split; [congruence|by apply not_elem_of_nil]|]|].
    apply Forall_cons in IH as [Hp Hps]. constructor; [apply not_elem_of_cons; split; [congruence|done]|done]. }
  induction Hs as [|part parts Hp _ IH]; cbn [line_messages]; [by constructor|].
  destruct parts as [|p2 ps].
  - destruct (Nat.ltb_spec cap (length part)); [by constructor|]. destruct part; by repeat constructor.
  - destruct (Nat.ltb_spec cap (length part)); [by constructor|]. by constructor.
Qed.

(** ** Responses *)

Section Sessions.
Context `{Json} (var : string -> option string).

(** A frame is a response only to its own id, and never a request of the
    server's own. *)
Lemma response_is_its_own line id value : parse_frame line id = Response value ->
  from_slice line = Ok value /\ member "method" value = None /\
  (id' ← member "id" value; as_i64 id') = Some id.
Proof.
  unfold parse_frame. destruct (forallb _ line); [done|]. destruct (from_slice line) as [v|]; [|done].
  destruct v as [| | | | |fields]; try done. case_bool_decide as Hm; [done|].
  destruct (id' ← member "id" (JObject fields); as_i64 id') as [found|] eqn:E; [|done].
  destruct (Z.eqb_spec found id) as [->|]; [|done]. intros [= <-]. split_and!; [done| |done].
  destruct (member "method" (JObject fields)); [|done]. by destruct Hm.
Qed.

(** The waits [before] a response, none past the deadline, gave nothing or a
    frame that is skipped; the next gave the response. *)
Definition answered_in (id deadline : Z) (lines : Lines) (value : Value) (rest : Lines) : Prop :=
  exists before now line,
    lines = before ++ (now, Line line) :: rest /\ parse_frame line id = Response value /\ (now < deadline)%Z /\
    Forall (fun wait => (wait.1 < deadline)%Z /\
      (wait.2 = TimedOut \/ exists l, wait.2 = Line l /\ parse_frame l id = Skip)) before.

Lemma await_Ok id deadline timeout lines value rest :
  await_response id deadline timeout lines = (Ok value, rest) <-> answered_in id deadline lines value rest.
Proof.
  split.
  - induction lines as [|[now r] lines IH]; simpl; [done|]. destruct (Z.leb_spec deadline now); [done|].
    assert (forall before now' line, lines = before ++ (now', Line line) :: rest ->
      parse_frame line id = Response value -> (now' < deadline)%Z ->
      Forall (fun wait => (wait.1 < deadline)%Z /\
        (wait.2 = TimedOut \/ exists l, wait.2 = Line l /\ parse_frame l id = Skip)) before ->
      (r = TimedOut \/ exists l, r = Line l /\ parse_frame l id = Skip) ->
      answered_in id deadline ((now, r) :: lines) value rest) as Hcons.
    { intros before now' line -> Hp Hn Hb Hr. exists ((now, r) :: before), now', line. by split_and!; [..|constructor]. }
    destruct r as [line|m| |]; try done.
    + destruct (parse_frame line id) as [v| |m] eqn:Ep; [| |done].
      * intros [= <- <-]. by exists [], now, line.
      * intros (before & now' & l & H1 & H2 & H3 & H4)%IH. eapply Hcons; try done. right. by exists line.
    + intros (before & now' & l & H1 & H2 & H3 & H4)%IH. eapply Hcons; try done. by left.
  - intros (before & now & line & -> & Hp & Hn & Hb). induction Hb as [|[t r] before [Ht Hr] _ IH]; simpl in *.
    + destruct (Z.leb_spec deadline now); [lia|]. by rewrite Hp.
    + destruct (Z.leb_spec deadline t); [lia|]. destruct Hr as [->|(l & -> & Hl)]; [done|]. by rewrite Hl.
Qed.

(** ** Sessions that can be trusted *)

Definition request_id (message : Value) : option Z :=
  match member "id" message with Some (JNumber (JInt id)) => Some id | _ => None end.

(** What was exchanged with a server whose writes and waits were to be [writes]
    and [lines]: the messages sent so far, the latest first, the next id, and
    the writes and waits left.  Each request took the next id and the next
    write, which returned at [asked], and was answered within [timeout] of it,
    by the waits that came right after the previous answer; nothing else was
    read. *)
Inductive exchanged (timeout : N) (writes : Writes) (lines : Lines)
    : list Value -> Z -> Writes -> Lines -> Prop :=
| exchanged_nothing : exchanged timeout writes lines [] 1 writes lines
| exchanged_request sent id asked writes' lines' method params value rest :
    exchanged timeout writes lines sent id ((Ok tt, asked) :: writes') lines' ->
    answered_in id (asked + Z.of_N timeout) lines' value rest ->
    exchanged timeout writes lines (request_message id method params :: sent) (id + 1) writes' rest
| exchanged_notice sent id now writes' lines' message :
    exchanged timeout writes lines sent id ((Ok tt, now) :: writes') lines' ->
    request_id message = None ->
    exchanged timeout writes lines (message :: sent) id writes' lines'.

Lemma request_id_request id method params : request_id (request_message id method params) = Some id.
Proof. done. Qed.

(** No id is used twice. *)
Lemma exchanged_fresh timeout writes lines sent next writes' lines' :
  exchanged timeout writes lines sent next writes' lines' -> next ∉ omap request_id sent.
Proof.
  intros He. enough (forall id, id ∈ omap request_id sent -> (id < next)%Z) as Hl
    by (intros Hin; specialize (Hl next Hin); lia).
  induction He as [|? ? ? ? ? ? ? ? ? ? IH|? ? ? ? ? ? ? IH Hn]; intros i.
  - intros Hi. by apply not_elem_of_nil in Hi.
  - cbn [omap list_omap]. rewrite request_id_request. intros [->|Hi]%elem_of_cons; [lia|].
    specialize (IH i Hi). lia.
  - cbn [omap list_omap]. rewrite Hn. apply IH.
Qed.

(** A session with [server], whose every request was answered in time. *)
Definition session_ok (server : Server) (timeout : N) (s : McpSession) : Prop :=
  se_timeout s = timeout /\
  exchanged timeout (sv_writes server) (sv_lines server)
    (se_sent s) (se_next_id s) (se_writes s) (se_lines s).

(** An operation leaves the session so unless it failed in transport. *)
Definition keeps {A} (m : session_op A) : Prop :=
  forall server timeout s, session_ok server timeout s ->
    match m s with (Err (Transport _), _) => True | (_, s') => session_ok server timeout s' end.

Lemma keeps_bind {A B} (m : session_op A) (f : A -> session_op B) :
  keeps m -> (forall x, keeps (f x)) -> keeps (session_bind m f).
Proof.
  intros Hm Hf server timeout s Hs. unfold session_bind. specialize (Hm server timeout s Hs).
  destruct (m s) as [[x|[e|e]] s1]; [by apply Hf|done|done].
Qed.

(** The request of [s], answered in time: [s'] is the session after it. *)
Definition request_answered (method : string) (params : Value) (s s' : McpSession) (value : Value) : Prop :=
  exists asked,
    se_writes s = (Ok tt, asked) :: se_writes s' /\
    answered_in (se_next_id s) (asked + Z.of_N (se_timeout s)) (se_lines s) value (se_lines s') /\
    se_sent s' = request_message (se_next_id s) method params :: se_sent s /\
    se_next_id s' = (se_next_id s + 1)%Z /\ se_timeout s' = se_timeout s /\ se_listed s' = se_listed s.

Lemma await_fails id deadline timeout lines m rest :
  await_response id deadline timeout lines <> (Err (Answered m), rest).
Proof.
  induction lines as [|[t r] ls IH]; simpl; [done|]. destruct (_ <=? t)%Z; [done|].
  destruct r as [line| | |]; try done. by destruct (parse_frame line _).
Qed.

(** A request is answered in time, or is lost in transport: the server has no
    answer to it in time. *)
Lemma request_done method params s answer s' :
  request method params s = (answer, s') ->
  (exists value, request_answered method params s s' value /\ answer = response_result value) \/
  (exists message, answer = Err (Transport message)) /\
  forall asked writes value rest, se_writes s = (Ok tt, asked) :: writes ->
    ~ answered_in (se_next_id s) (asked + Z.of_N (se_timeout s)) (se_lines s) value rest.
Proof.
  unfold request, send. cbn [se_writes se_timeout se_lines se_sent se_next_id se_listed].
  destruct (se_writes s) as [|[[[]|err] now] writes] eqn:Ew.
  - intros [= <- <-]. right. split; [by eexists|done].
  - cbn [se_writes se_timeout se_lines se_sent se_next_id se_listed].
    destruct (await_response _ _ _ _) as [a lines] eqn:E. destruct a as [value|[m|m]].
    + intros [= <- <-]. left. exists value. split; [|done]. exists now. apply await_Ok in E.
      by split_and!.
    + by apply await_fails in E.
    + intros [= <- <-]. right. split; [by exists m|]. intros asked writes' value rest [= <- <-] Ha.
      eapply await_Ok in Ha. rewrite E in Ha. discriminate Ha.
  - intros [= <- <-]. right. split; [by eexists|]. by intros.
Qed.

Lemma request_answered_ok server timeout method params s s' value :
  session_ok server timeout s -> request_answered method params s s' value ->
  session_ok server timeout s'.
Proof.
  intros [Ht He] (asked & Hw & Ha & Hsent & Hn & Ht' & _). split; [congruence|].
  rewrite Hsent, Hn. rewrite Hw in He. rewrite Ht in Ha. by eapply exchanged_request.
Qed.

Lemma keeps_request method params : keeps (request method params).
Proof.
  intros server timeout s Hs. destruct (request method params s) as [answer s'] eqn:E.
  destruct (request_done _ _ _ _ _ E) as [(value & Ha & ->)|[[m ->] _]]; [|done].
  assert (session_ok server timeout s') as Hok by (by eapply request_answered_ok).
  by destruct (response_result value) as [|[]].
Qed.

Lemma keeps_notify method params : keeps (notify method params).
Proof.
  intros server timeout s [Ht He]. unfold notify, send.
  destruct (se_writes s) as [|[[[]|err] now] writes] eqn:Ew; [done| |done].
  split; [done|]. simpl. by eapply exchanged_notice.
Qed.

Lemma keeps_list_pages pages names cursor : keeps (list_pages pages names cursor).
Proof.
  revert names cursor. induction pages as [|pages IH]; intros names cursor server timeout s Hs;
    cbn [list_pages]; [done|].
  set (params := match cursor with Some _ => _ | None => _ end).
  pose proof (keeps_request "tools/list" params server timeout s Hs) as Hr.
  destruct (request "tools/list" params s) as [[page|[e|e]] s1]; [|exact Hr|done].
  destruct (tools ← _; _) as [more|]; [|done].
  destruct (next ← _; _) as [next|]; [by apply IH|exact Hr].
Qed.

Lemma keeps_handshake : keeps handshake.
Proof.
  apply keeps_bind; [apply keeps_request|]. intros _.
  apply keeps_bind; [apply keeps_notify|]. intros _. apply keeps_list_pages.
Qed.

(** ** A server's tool *)

(** [server] is what the live session talks to, or what the next start gives. *)
Definition talks_to (server : Server) (p : PendingMcp) : Prop :=
  match pm_live p with
  | Some s => session_ok server (pm_timeout p) s
  | None => forall start starts server', pm_starts p = start :: starts ->
      start (server_command var p) = Ok server' -> server' = server
  end.

Lemma spawn_session_ok server p s starts :
  pm_live p = None -> talks_to server p -> spawn_session var p = (Ok s, starts) ->
  session_ok server (pm_timeout p) s.
Proof.
  unfold talks_to. intros -> Ht. unfold spawn_session.
  destruct (pm_starts p) as [|start more]; [done|]. specialize (Ht start more).
  destruct (start (server_command var p)) as [server'|err]; [|done].
  rewrite (Ht server' eq_refl eq_refl).
  set (s0 := mkSession (sv_writes server) (sv_lines server) [] 1 (pm_timeout p) []).
  assert (session_ok server (pm_timeout p) s0) as H0 by (split; [done|constructor]).
  pose proof (keeps_handshake server (pm_timeout p) s0 H0) as Hk.
  destruct (handshake s0) as [[listed|] s1]; [|done]. by intros [= <- _].
Qed.

(** The session a call uses: the live one or a new one. *)
Definition session_of (p : PendingMcp) : option McpSession :=
  match pm_live p with
  | Some s => Some s
  | None => match spawn_session var p with (Ok s, _) => Some s | (Err _, _) => None end
  end.

Lemma session_of_ok server p s :
  talks_to server p -> session_of p = Some s -> session_ok server (pm_timeout p) s.
Proof.
  unfold session_of. destruct (pm_live p) as [live|] eqn:El.
  - unfold talks_to. rewrite El. by intros Hok [= <-].
  - intros Ht. destruct (spawn_session var p) as [[s1|] starts] eqn:E; [|done]. intros [= <-].
    by eapply spawn_session_ok.
Qed.

Lemma pending_call_via name input p :
  exists starts,
    pending_call var name input p =
    match session_of p with
    | None => (match spawn_session var p with (Err e, _) => Err (failure_message e) | _ => Err "" end, with_live p None starts)
    | Some s =>
        if negb (existsb (fun listed => bool_decide (listed = name)) (se_listed s)) then
          (Err "not listed by the server", with_live p (Some s) starts)
        else
          match session_call name input s with
          | (Ok text, s') => (Ok text, with_live p (Some s') starts)
          | (Err (Answered message), s') => (Err message, with_live p (Some s') starts)
          | (Err (Transport message), _) => (Err message, with_live p None starts)
          end
    end.
Proof.
  unfold pending_call, session_of. destruct (pm_live p) as [live|] eqn:El.
  - exists (pm_starts p). destruct (negb _); [|done]. unfold with_live. rewrite <-El. by destruct p.
  - destruct (spawn_session var p) as [[s|e] starts]; by exists starts.
Qed.

Definition call_params (name input : string) : Value :=
  JObject [("name", JString name); ("arguments", JObject [("input", JString input)])].

(** What the response to a call says: a text that is not an error. *)
Definition gives_text (value : Value) (text : string) : Prop :=
  exists result, response_result value = Ok result /\
    (text' ← content_text result; as_str text') = Some text /\
    (error ← member "isError" result; as_bool error) <> Some true.

Lemma session_call_done name input s answer s' :
  session_call name input s = (answer, s') ->
  (exists value, request_answered "tools/call" (call_params name input) s s' value /\
     (forall text, answer = Ok text <-> gives_text value text) /\
     (forall message, answer <> Err (Transport message))) \/
  (exists message, answer = Err (Transport message)) /\
  forall asked writes value rest, se_writes s = (Ok tt, asked) :: writes ->
    ~ answered_in (se_next_id s) (asked + Z.of_N (se_timeout s)) (se_lines s) value rest.
Proof.
  unfold session_call. change (JObject [("name", _); _]) with (call_params name input).
  destruct (request "tools/call" (call_params name input) s) as [r s1] eqn:Er.
  destruct (request_done _ _ _ _ _ Er) as [(value & Ha & ->)|[[m ->] Hn]];
    [|intros [= <- <-]; right; split; [by eexists|done]].
  assert (forall e, response_result value = Err e -> exists m, e = Answered m) as Hans.
  { unfold response_result. intros e. destruct (member "error" value); [intros [= <-]; eauto|].
    destruct (member "result" value); [done|]. intros [= <-]. eauto. }
  intros E. left. exists value. unfold gives_text.
  destruct (response_result value) as [result|e] eqn:Ev.
  - injection E as <- <-. split; [done|].
    destruct (text' ← _; _) as [text'|] eqn:E1.
    + destruct (member "isError" result ≫= _) as [[]|] eqn:E2; (split; [|intros m [=]]); intros text; split;
        first [intros [= <-]; exists result; split_and!; congruence
              |intros (r & [= <-] & Ht & He); congruence].
    + simpl. split; [|intros m [=]]. intros text. split; [discriminate|].
      intros (r & [= <-] & Ht & He). congruence.
  - injection E as <- <-. destruct (Hans e eq_refl) as [m ->]. split; [done|].
    split; [|intros m' [=]]. intros text. split; [discriminate|]. by intros (r & [=] & _).
Qed.

(** C25. A call of a server's tool, on the session that is live or the one it
    starts, when [server] says what each write gives, and when it returns, and
    what each wait for a line gives, and when it begins.  A server that does
    not start a session, or does not list the tool, is not asked.  Otherwise
    either the server has the response in time: a line with the id of this very
    request, an id no earlier request had, in a wait begun within the timeout
    of the moment the request was written, after waits that gave nothing or
    frames that are none; then the text is the answer exactly if that response
    is a text and no error, and the session, with all that was read gone, is
    kept.  Or it has no such response, and then the call fails and the session
    is dropped.  A session that is kept is in step: all it exchanged with the
    server are requests numbered from 1, each answered in time by the lines
    right after the answer before it, so no line of an earlier request is ever
    taken for a later one's. *)
Theorem mcp_call_answers server name input p answer p' :
  talks_to server p -> pending_call var name input p = (answer, p') ->
  pm_timeout p' = pm_timeout p /\
  (forall s', pm_live p' = Some s' -> session_ok server (pm_timeout p) s') /\
  match session_of p with
  | None => pm_live p' = None /\ is_ok answer = false
  | Some s =>
      if bool_decide (name ∈ se_listed s) then
        (se_next_id s ∉ omap request_id (se_sent s)) /\
        ((exists s' asked value,
            pm_live p' = Some s' /\
            se_sent s' = request_message (se_next_id s) "tools/call" (call_params name input)
                         :: se_sent s /\
            se_writes s = (Ok tt, asked) :: se_writes s' /\
            answered_in (se_next_id s) (asked + Z.of_N (pm_timeout p)) (se_lines s) value
              (se_lines s') /\
            forall text, answer = Ok text <-> gives_text value text) \/
         pm_live p' = None /\ is_ok answer = false /\
         forall asked writes value rest, se_writes s = (Ok tt, asked) :: writes ->
           ~ answered_in (se_next_id s) (asked + Z.of_N (pm_timeout p)) (se_lines s) value rest)
      else answer = Err "not listed by the server" /\ pm_live p' = Some s
  end.
Proof.
  intros Hp. destruct (pending_call_via name input p) as [starts ->].
  destruct (session_of p) as [s|] eqn:Es;
    [|by intros [= <- <-]; destruct (spawn_session var p) as [[]]].
  pose proof (session_of_ok server p s Hp Es) as Hs.
  assert (existsb (fun listed => bool_decide (listed = name)) (se_listed s) =
    bool_decide (name ∈ se_listed s)) as ->.
  { apply eq_true_iff_eq. rewrite existsb_exists, bool_decide_eq_true.
    setoid_rewrite bool_decide_eq_true. setoid_rewrite <-list_elem_of_In.
    split; [by intros (x & Hx & <-)|by exists name]. }
  destruct (bool_decide (name ∈ se_listed s)); cbn [negb].
  2:{ intros [= <- <-]. split_and!; [done| |done|done]. by intros s' [= <-]. }
  pose proof Hs as [Ht He]. apply exchanged_fresh in He.
  destruct (session_call name input s) as [r s1] eqn:Ec.
  destruct (session_call_done _ _ _ _ _ Ec) as [(value & Ha & Htext & Hno)|[[m ->] Hn]].
  - pose proof (request_answered_ok _ _ _ _ _ _ _ Hs Ha) as Hs1.
    destruct Ha as (asked & Hw & Ha & Hsent & _). rewrite Ht in Ha. intros E.
    assert (p' = with_live p (Some s1) starts /\ forall text, answer = Ok text <-> r = Ok text)
      as [-> Hr].
    { destruct r as [text|[m|m]]; [| |by destruct (Hno m)];
        injection E as <- <-; (split; [done|]); intros text'; split; congruence. }
    split_and!; [done|by intros s' [= <-]|done|]. left. exists s1, asked, value.
    split_and!; try done. intros text. by rewrite Hr.
  - intros [= <- <-]. rewrite Ht in Hn. split_and!; [done..|]. by right.
Qed.

End Sessions.

(** ** Demonstration *)

Definition chunk (text : string) : list byte := string_bytes text.

(** Two lines over three reads, and an empty line, then the last. *)
Lemma lines_are_the_servers_witness :
  let chunks := [chunk "ab"; chunk ("c" +:+ String newline "d"); String.list_ascii_of_string (String newline (String newline "e"))] in
  forward_lines 20 (chunks_of chunks) = [Ok (chunk "abc"); Ok (chunk "d"); Ok []; Ok (chunk "e"); Err "server closed stdout"] /\
  forward_lines 20 (chunks_of chunks) = line_messages MAX_LINE (split_bytes newline (concat chunks)).
Proof.
  intros chunks. split; [vm_compute; reflexivity|].
  apply (lines_are_the_servers chunks 20); [repeat constructor; discriminate|vm_compute; lia].
Defined.

Section Demo.

(** A server whose lines are named by a letter. *)
Definition demo_response (id : Z) (result : Value) : Value :=
  JObject [("jsonrpc", JString "2.0"); ("id", JNumber (JInt id)); ("result", result)].

Definition demo_from_slice (line : list byte) : result Value string :=
  if bool_decide (line = string_bytes "i") then Ok (demo_response 1 (JObject []))
  else if bool_decide (line = string_bytes "n") then Ok (JObject [("method", JString "notifications/progress")])
  else if bool_decide (line = string_bytes "l") then
    Ok (demo_response 2 (JObject [("tools", JArray [JObject [("name", JString "ping")]])]))
  else if bool_decide (line = string_bytes "c") then
    Ok (demo_response 3 (JObject [("content", JArray [JObject [("text", JString "pong")]])]))
  else Err "expected value".

#[local] Instance demo_json : Json := { from_slice := demo_from_slice; json_text := fun _ => "" }.

Definition demo_line (at_ : Z) (name : string) : Z * Received := (at_, Line (string_bytes name)).

(** The answer to the first request arrives twice and is not taken for that to
    the call. *)
Definition demo_server : Server :=
  mkServer [(Ok tt, 0%Z); (Ok tt, 1%Z); (Ok tt, 2%Z); (Ok tt, 10%Z)]
    [demo_line 0 "i"; demo_line 3 "n"; demo_line 4 "l"; demo_line 11 "i"; (12%Z, TimedOut); demo_line 13 "c"].

Definition demo_pending : PendingMcp := mkPending "/c" "local" "server" [] [] 100 None [fun _ => Ok demo_server].

Lemma mcp_call_answers_witness :
  let p' := (pending_call (fun _ => None) "ping" "hi" demo_pending).2 in
  (pending_call (fun _ => None) "ping" "hi" demo_pending).1 = Ok "pong" /\
  exists s', pm_live p' = Some s' /\ session_ok demo_server 100 s'.
Proof.
  intros p'. split; [vm_compute; reflexivity|].
  assert (is_Some (pm_live p')) as [s' Hs'] by (vm_compute; by eexists).
  exists s'. split; [exact Hs'|].
  refine (proj1 (proj2 (mcp_call_answers (fun _ => None) demo_server "ping" "hi" demo_pending _ _ _
    (surjective_pairing _))) s' Hs').
  intros start starts server' [= <- <-]. by intros [= <-].
Defined.

(** An answer that comes 101 ms after the call was written is not waited for. *)
Definition demo_late : Server :=
  mkServer (sv_writes demo_server)
    [demo_line 0 "i"; demo_line 3 "n"; demo_line 4 "l"; (11%Z, TimedOut); demo_line 111 "c"].

Example late_answer_drops :
  let '(answer, p') := pending_call (fun _ => None) "ping" "hi"
    (mkPending "/c" "local" "server" [] [] 100 None [fun _ => Ok demo_late]) in
  answer = Err "timed out after 100 ms" /\ pm_live p' = None.
Proof. vm_compute. split; reflexivity. Qed.

End Demo.
