(* ===== verification/Catalog.v ===== *)
(** * Catalogs ([harness/catalog.rs])

    [load_catalog] reads [harness.toml] and turns it into tools and skills:
    the built-in tool, a tool for each declared by a server of [Mcp], and the
    texts of skills, which must lie in the catalog's directory.  The tools
    step in the servers they share, a [Pool].  Files and TOML are the class
    [Disk].

    The theorem [catalog_is_sound] is below; those of the servers are in
    [McpProofs]. *)

From S2P Require Import Prelude Text Protocol Uuids Driver Mcp.

Inductive LoadError :=
| LoadIo (message : string)
| LoadParse (message : string)
| LoadMcp (message : string)
| UnknownTool (name : string)
| DuplicateTool (name : string).

(** [Display]. *)
Definition load_error_text (e : LoadError) : string :=
  match e with
  | LoadIo message | LoadParse message | LoadMcp message => message
  | UnknownTool name => "unknown tool: " +:+ name
  | DuplicateTool name => "two catalog tools are named " +:+ name
  end.

Record McpToolDecl : Type := mkDecl {
  mt_name : string;
  mt_description : string;
  mt_input_schema : option string;
}.

Record McpServer : Type := mkMcpServer {
  ms_name : string;
  ms_command : string;
  ms_args : list string;
  ms_timeout_ms : option N;
  ms_env : list string;
  ms_tools : list McpToolDecl;
}.

Record CatalogFile : Type := mkCatalogFile {
  cf_tools : list string;
  cf_skills : list string;
  cf_mcp : list McpServer;
}.

(** [debug] is the text of [{:?}]. *)
Class Disk : Type := {
  read_to_string : string -> result string string;
  canonicalize : string -> result string string;
  toml : string -> result CatalogFile string;
  debug : string -> string;
}.

(** The servers, and whether the lock of each is poisoned. *)
Abbreviation Pool := (list (PendingMcp * bool)).

Record LoadedCatalog : Type := mkLoaded {
  lc_tools : list (Tool Pool);
  lc_skills : list Skill;
}.

Definition descriptors (c : LoadedCatalog) : list ToolDescriptor := descriptor <$> lc_tools c.
Definition into_parts (c : LoadedCatalog) : list (Tool Pool) * list Skill := (lc_tools c, lc_skills c).

Section Catalog.
Context `{Json} `{Disk} (var : string -> option string).

(** [McpTool]: the tool [name] of the server at [index]. *)
Definition McpTool (id : ToolId) (server name description input_schema capability : string) (index : nat)
    : Tool Pool :=
  mkTool
    (mkToolDescriptor id name description input_schema
       ("{" +:+ quoted "type" +:+ ":" +:+ quoted "string" +:+ "}") (mkCapability capability))
    (fun input pool =>
       let failed err := "mcp " +:+ server +:+ "." +:+ name +:+ ": " +:+ err in
       match pool !! index with
       | Some (pending, false) =>
           let '(answer, pending) := pending_call var name input pending in
           (match answer with Ok text => Ok text | Err err => Err (failed err) end, <[index := (pending, false)]> pool)
       | _ => (Err (failed "session lock poisoned"), pool)
       end).

(** [new_id] gives the ids of [ToolId::new], by the tool's place, and [starts]
    what the starts of a server give, by the server's. *)
Context (new_id : nat -> ToolId) (starts : nat -> list Start).

Fixpoint builtin_tools (names : list string) : result (list (Tool Pool)) LoadError :=
  match names with
  | [] => Ok []
  | name :: names =>
      if bool_decide (name = "echo") then
        match builtin_tools names with Ok tools => Ok (EchoTool :: tools) | Err error => Err error end
      else Err (UnknownTool name)
  end.

Definition not_a_variable (key : string) : bool :=
  bool_decide (key = "") || bool_decide (Ascii.ascii_of_N 61 ∈ string_bytes key) ||
  bool_decide (Ascii.ascii_of_N 0 ∈ string_bytes key).

Definition server_tools (server : McpServer) (made index : nat) : list (Tool Pool) :=
  imap (fun i declared =>
          McpTool (new_id (made + i)) (ms_name server) (mt_name declared) (mt_description declared)
            (default DEFAULT_INPUT_SCHEMA (mt_input_schema declared))
            ("mcp." +:+ ms_name server +:+ "." +:+ mt_name declared) index)
    (ms_tools server).

(** One server: its refusal, or its tools and its place in the pool. *)
Definition load_server (dir : string) (server : McpServer) (made index : nat)
    : result (list (Tool Pool) * PendingMcp) LoadError :=
  if bool_decide (ms_timeout_ms server = Some 0%N) then
    Err (LoadMcp (ms_name server +:+ ": timeout_ms must be at least 1"))
  else
    match List.find not_a_variable (ms_env server) with
    | Some bad =>
        Err (LoadParse (ms_name server +:+ ": env names variables, and " +:+ debug bad +:+ " is not a variable name"))
    | None =>
        if bool_decide (ms_tools server = []) then
          Err (LoadMcp (ms_name server +:+ ": declare tools in the catalog; loading does not start "
                          +:+ ms_command server))
        else
          Ok (server_tools server made index,
              mkPending dir (ms_name server) (ms_command server) (ms_args server) (ms_env server)
                (default DEFAULT_TIMEOUT_MS (ms_timeout_ms server)) None (starts index))
    end.

Fixpoint load_servers (dir : string) (servers : list McpServer) (tools : list (Tool Pool)) (pool : Pool)
    : result (list (Tool Pool) * Pool) LoadError :=
  match servers with
  | [] => Ok (tools, pool)
  | server :: servers =>
      match load_server dir server (length tools) (length pool) with
      | Err error => Err error
      | Ok (more, pending) => load_servers dir servers (tools ++ more) (pool ++ [(pending, false)])
      end
  end.

(** The first name that was seen before. *)
Fixpoint duplicate (seen names : list string) : option string :=
  match names with
  | [] => None
  | name :: names => if bool_decide (name ∈ seen) then Some name else duplicate (name :: seen) names
  end.

Definition load_skill (dir catalog_dir relative : string) : result Skill LoadError :=
  if is_absolute relative then Err (LoadIo ("skill path is absolute: " +:+ relative))
  else if bool_decide ([full_stop; full_stop] ∈ path_parts relative) then
    Err (LoadIo ("skill path contains ..: " +:+ relative))
  else
    match canonicalize (path_join dir relative) with
    | Err err => Err (LoadIo err)
    | Ok canonical =>
        if negb (path_starts_with canonical catalog_dir) then
          Err (LoadIo ("skill path is outside the catalog: " +:+ relative))
        else
          match read_to_string canonical with
          | Err err => Err (LoadIo err)
          | Ok body => Ok (mkSkill (default relative (file_stem relative)) body)
          end
    end.

Fixpoint load_skills (dir catalog_dir : string) (skills : list string) : result (list Skill) LoadError :=
  match skills with
  | [] => Ok []
  | relative :: skills =>
      match load_skill dir catalog_dir relative with
      | Err error => Err error
      | Ok skill =>
          match load_skills dir catalog_dir skills with
          | Err error => Err error
          | Ok skills => Ok (skill :: skills)
          end
      end
  end.

Definition load_catalog (dir : string) : result (LoadedCatalog * Pool) LoadError :=
  match read_to_string (path_join dir "harness.toml") with
  | Err err => Err (LoadIo err)
  | Ok raw =>
      match toml raw with
      | Err err => Err (LoadParse err)
      | Ok file =>
          match builtin_tools (cf_tools file) with
          | Err error => Err error
          | Ok tools =>
              match load_servers dir (cf_mcp file) tools [] with
              | Err error => Err error
              | Ok (tools, pool) =>
                  match duplicate [] ((fun tool => tool_name (descriptor tool)) <$> tools) with
                  | Some name => Err (DuplicateTool name)
                  | None =>
                      match canonicalize dir with
                      | Err err => Err (LoadIo err)
                      | Ok catalog_dir =>
                          match load_skills dir catalog_dir (cf_skills file) with
                          | Err error => Err error
                          | Ok skills => Ok (mkLoaded tools skills, pool)
                          end
                      end
                  end
              end
          end
      end
  end.

(** ** What a loaded catalog holds *)

(** The tool declared at a server, and the server's entry in the pool. *)
Definition declared_tool (dir : string) (file : CatalogFile) (pool : Pool) (tool : Tool Pool) : Prop :=
  exists index server declared id pending,
    cf_mcp file !! index = Some server /\ declared ∈ ms_tools server /\
    ms_timeout_ms server <> Some 0%N /\ forallb (fun key => negb (not_a_variable key)) (ms_env server) = true /\
    tool = McpTool id (ms_name server) (mt_name declared) (mt_description declared)
             (default DEFAULT_INPUT_SCHEMA (mt_input_schema declared))
             ("mcp." +:+ ms_name server +:+ "." +:+ mt_name declared) index /\
    pool !! index = Some (pending, false) /\ pm_server_name pending = ms_name server /\
    pm_command pending = ms_command server /\ pm_dir pending = dir /\ pm_live pending = None /\ (0 < pm_timeout pending)%N.

Lemma load_server_Ok dir server made index tools pending :
  load_server dir server made index = Ok (tools, pending) ->
  tools = server_tools server made index /\ ms_timeout_ms server <> Some 0%N /\
  forallb (fun key => negb (not_a_variable key)) (ms_env server) = true /\
  pm_server_name pending = ms_name server /\ pm_command pending = ms_command server /\
  pm_dir pending = dir /\ pm_live pending = None /\ (0 < pm_timeout pending)%N.
Proof.
  unfold load_server. case_bool_decide as Ht; [done|].
  destruct (List.find not_a_variable (ms_env server)) as [bad|] eqn:Ef; [done|]. case_bool_decide; [done|].
  intros [= <- <-]. split_and!; try done.
  - apply forallb_forall. intros key Hk. by rewrite (find_none _ _ Ef key Hk).
  - simpl. destruct (ms_timeout_ms server) as [t|]; simpl; [|done]. assert (t <> 0%N) by congruence. lia.
Qed.

Lemma load_servers_Ok dir file before servers tools pool tools' pool' :
  cf_mcp file = before ++ servers -> length pool = length before ->
  load_servers dir servers tools pool = Ok (tools', pool') ->
  (forall tool, tool ∈ tools -> tool = EchoTool \/ declared_tool dir file pool tool) ->
  forall tool, tool ∈ tools' -> tool = EchoTool \/ declared_tool dir file pool' tool.
Proof.
  revert before tools pool. induction servers as [|server servers IH]; intros before tools pool Hf Hl; cbn [load_servers];
    [by intros [= <- <-]|].
  destruct (load_server dir server (length tools) (length pool)) as [[more pending]|] eqn:El; [|done].
  apply load_server_Ok in El as (-> & Ht & He & Hn & Hc & Hdir & Hlive & Hp). intros Hr Hall.
  apply (IH (before ++ [server]) (tools ++ server_tools server (length tools) (length pool))
    (pool ++ [(pending, false)])); [by rewrite <-app_assoc|rewrite !length_app; simpl; lia|exact Hr|].
  intros tool [Hin|Hin]%elem_of_app.
  - destruct (Hall tool Hin) as [->|(i & s & d & id & p & H1 & H2 & H3 & H4 & H5 & H6 & H7)]; [by left|right].
    exists i, s, d, id, p. refine (conj H1 (conj H2 (conj H3 (conj H4 (conj H5 (conj _ H7)))))).
    rewrite lookup_app_l; [exact H6|]. by apply lookup_lt_Some in H6.
  - right. unfold server_tools in Hin. apply elem_of_lookup_imap in Hin as (i & declared & -> & Hd).
    exists (length pool), server, declared, (new_id (length tools + i)), pending.
    split; [by rewrite Hf, list_lookup_middle|]. split; [by eapply list_elem_of_lookup_2|].
    split; [exact Ht|]. split; [exact He|]. split; [reflexivity|]. split; [by rewrite list_lookup_middle|]. auto.
Qed.

Lemma builtin_tools_Ok names tools : builtin_tools names = Ok tools ->
  Forall (fun tool => tool = EchoTool) tools.
Proof.
  revert tools. induction names as [|name names IH]; simpl; [by intros tools [= <-]|].
  case_bool_decide; [|done]. destruct (builtin_tools names) as [more|]; [|done]. intros tools [= <-].
  constructor; [done|auto].
Qed.

Lemma duplicate_none seen names : duplicate seen names = None ->
  NoDup names /\ forall name, name ∈ names -> name ∉ seen.
Proof.
  revert seen. induction names as [|name names IH]; intros seen; simpl.
  - intros _. split; [constructor|]. intros name Hn. by apply not_elem_of_nil in Hn.
  - case_bool_decide as Hs; [done|]. intros (Hd & Hnot)%IH. split.
    + constructor; [|done]. intros Hin. apply (Hnot name Hin), list_elem_of_here.
    + intros n [->|Hin]%elem_of_cons; [done|]. intros Hseen. by apply (Hnot n Hin), list_elem_of_further.
Qed.

Lemma load_skills_Ok dir root relatives skills : load_skills dir root relatives = Ok skills ->
  forall skill, skill ∈ skills -> exists relative canonical,
    relative ∈ relatives /\ ([full_stop; full_stop] ∉ path_parts relative) /\
    canonicalize (path_join dir relative) = Ok canonical /\ path_starts_with canonical root = true /\
    read_to_string canonical = Ok (skill_body skill) /\ skill_name skill = default relative (file_stem relative).
Proof.
  revert skills. induction relatives as [|relative relatives IH]; intros skills; simpl.
  { intros [= <-] skill Hs. by apply not_elem_of_nil in Hs. }
  destruct (load_skill dir root relative) as [skill|] eqn:E; [|done].
  destruct (load_skills dir root relatives) as [more|]; [|done]. intros [= <-] s [->|Hs]%elem_of_cons.
  - unfold load_skill in E. destruct (is_absolute relative); [done|]. case_bool_decide as Hdots; [done|].
    destruct (canonicalize (path_join dir relative)) as [canonical|] eqn:Ec; [|done].
    destruct (path_starts_with canonical root) eqn:Ep; [|done]. simpl in E.
    destruct (read_to_string canonical) as [body|] eqn:Eb; [|done]. injection E as <-.
    exists relative, canonical. split_and!; try done. apply list_elem_of_here.
  - destruct (IH more eq_refl s Hs) as (r & c & Hr & H'). exists r, c. split; [by apply list_elem_of_further|done].
Qed.

(** C21. A catalog that loads means what it says: no two of its tools share a name;
    a tool is the echo tool or one a server declares, requires the capability
    of that server and that tool, and is answered by that server and no other,
    which has a time limit and is not started yet; and a skill is the text of a
    file the catalog names, below the catalog's own directory whatever links it
    goes through. *)
Theorem catalog_is_sound dir c pool : load_catalog dir = Ok (c, pool) ->
  exists raw file root,
    read_to_string (path_join dir "harness.toml") = Ok raw /\ toml raw = Ok file /\ canonicalize dir = Ok root /\
    NoDup (tool_name <$> descriptors c) /\
    (forall tool, tool ∈ lc_tools c -> tool = EchoTool \/ declared_tool dir file pool tool) /\
    (forall skill, skill ∈ lc_skills c -> exists relative canonical,
       relative ∈ cf_skills file /\ ([full_stop; full_stop] ∉ path_parts relative) /\
       canonicalize (path_join dir relative) = Ok canonical /\ path_starts_with canonical root = true /\
       read_to_string canonical = Ok (skill_body skill) /\ skill_name skill = default relative (file_stem relative)).
Proof.
  unfold load_catalog. destruct (read_to_string _) as [raw|] eqn:E1; [|done].
  destruct (toml raw) as [file|] eqn:E2; [|done]. destruct (builtin_tools (cf_tools file)) as [tools|] eqn:E3; [|done].
  destruct (load_servers dir (cf_mcp file) tools []) as [[tools' pool']|] eqn:E4; [|done].
  destruct (duplicate _ _) as [|] eqn:E5; [done|]. destruct (canonicalize dir) as [root|] eqn:E6; [|done].
  destruct (load_skills dir root (cf_skills file)) as [skills|] eqn:E7; [|done]. intros [= <- <-].
  exists raw, file, root. apply builtin_tools_Ok in E3. rewrite Forall_forall in E3.
  apply duplicate_none in E5 as [Hd _]. split_and!; try done.
  - unfold descriptors. by rewrite <-list_fmap_compose.
  - apply (load_servers_Ok dir file [] (cf_mcp file) tools [] tools' pool' eq_refl eq_refl E4). auto.
  - by apply (load_skills_Ok dir root).
Qed.

End Catalog.

(** ** Demonstration *)

Section Demo.

#[local] Instance demo_no_json : Json := { from_slice := fun _ => Err ""; json_text := fun _ => "" }.

Definition demo_file : CatalogFile :=
  mkCatalogFile ["echo"] ["skills/a.md"]
    [mkMcpServer "local" "server" [] None ["TOKEN"] [mkDecl "ping" "answers" None]].

#[local] Instance demo_disk : Disk := {
  read_to_string := fun path =>
    if bool_decide (path = "/c/harness.toml") then Ok "file"
    else if bool_decide (path = "/c/skills/a.md") then Ok "be kind" else Err "no such file";
  canonicalize := fun path => Ok path;
  toml := fun _ => Ok demo_file;
  debug := quoted;
}.

Lemma catalog_is_sound_witness :
  match load_catalog (fun _ => None) (fun _ => from_uuid (from_u128 7)) (fun _ => []) "/c" with
  | Ok (c, pool) =>
      tool_name <$> descriptors c = ["echo"; "ping"] /\ lc_skills c = [mkSkill "a" "be kind"] /\
      length pool = 1%nat /\ NoDup (tool_name <$> descriptors c)
  | Err _ => False
  end.
Proof.
  destruct (load_catalog (fun _ => None) (fun _ => from_uuid (from_u128 7)) (fun _ => []) "/c") as [[c pool]|] eqn:E; [|discriminate E].
  destruct (catalog_is_sound _ _ _ _ _ _ E) as (raw & file & root & _ & _ & _ & Hd & _).
  revert Hd. injection E as <- <-. intros Hd. split_and!; [vm_compute; reflexivity..|exact Hd].
Defined.

End Demo.
