(* ===== verification/Postgres.v ===== *)
(** * The Postgres store ([server/postgres.rs]): agents, runs and the outbox

    A database is its tables, and the numbers its sequence has given.  Calls
    run in sessions of their own, one statement at a time, and between two
    statements of a call any statement of the others may come.  A statement
    that needs a row another transaction has locked waits.  What a transaction
    wrote is seen by the others once it commits, so its writes are kept with
    its call ([Pc]) until then.  A call can fail at each statement; one that
    fails while it commits may have committed.

    A [jsonb] column that the server writes and reads back is the value it is
    of.  The owner, thread, parent, date and number of a run's row may be null:
    a row an older server stored.  The theorems are in [PostgresProofs]. *)

From S2P Require Import Prelude Protocol Uuids MemoryOwner Reduce Store StoreProofs StoreStops.

(** ** The tables *)

Record RunRow : Type := mkRunRow {
  rr_spec : RunSpec;
  rr_owner_issuer : option string;
  rr_owner_subject : option string;
  rr_thread_id : option string;
  rr_parent_run : option RunId;
  rr_created_ms : option Z;
  rr_stored_seq : option N;
}.

Record EventRow : Type := mkEventRow {
  ev_run_id : RunId;
  ev_seq : N;
  ev_body : Event;
  ev_terminal : bool;
}.

Record CounterRow : Type := mkCounterRow { co_last : N; co_pruned : N }.

(** [t_stops] is keyed by principal, kind and key; [gol_order] is the last
    number the sequence gave. *)
Record Tables : Type := mkTables {
  t_agents : gmap AgentId StoredAgent;
  t_runs : gmap RunId RunRow;
  t_run_events : list EventRow;
  t_counters : gmap Principal CounterRow;
  t_outbox : list OutboxRow;
  t_artifacts : gmap ArtifactId StoredArtifact;
  t_stops : gmap (Principal * (string * string)) N;
  gol_order : N;
}.

Definition no_tables : Tables := mkTables ∅ ∅ [] ∅ [] ∅ ∅ 0.

(** [coalesce(owner_issuer, spec->'owner'->>'issuer')] and the subject. *)
Definition row_owner (row : RunRow) : Principal :=
  (default (issuer (owner (rr_spec row))) (rr_owner_issuer row),
   default (subject (owner (rr_spec row))) (rr_owner_subject row)).

Definition events_of (t : Tables) (id : RunId) : list EventRow :=
  filter (fun e => ev_run_id e = id) (t_run_events t).

Definition seq_leb (a b : EventRow) : bool := (ev_seq a <=? ev_seq b)%N.

(** [limit], at most [i64::MAX], as [i64::try_from(limit).unwrap_or(i64::MAX)]
    makes it. *)
Definition clamp_i64 (n : N) : N := N.min n (Z.to_N i64_max).

Definition sql_limit {A} (limit : N) (l : list A) : list A :=
  if (N.of_nat (length l) <=? clamp_i64 limit)%N then l else take (N.to_nat (clamp_i64 limit)) l.

(** ** Events as rows ([EventRows]) *)

Definition EventRows : Type := list (Event * bool).

Definition event_rows (events : list Event) : result EventRows StoreError :=
  match check_one_terminal events with
  | Err e => Err e
  | Ok _ => Ok ((fun event => (event, is_terminal (payload event))) <$> events)
  end.

(** [with ordinality]: the rows numbered after [last]. *)
Definition number_rows (id : RunId) (last : N) (rows : EventRows) : list EventRow :=
  imap (fun i row => mkEventRow id (last + N.of_nat i + 1) row.1 row.2) rows.

(** The primary key of [run_events] and the index [run_events_one_terminal]. *)
Definition keys_hold (rows : list EventRow) : bool :=
  bool_decide (NoDup ((fun e => (ev_run_id e, ev_seq e)) <$> rows)) &&
  bool_decide (NoDup (ev_run_id <$> List.filter ev_terminal rows)).

(** ** The statements of an append *)

Definition ended (t : Tables) (id : RunId) : bool := existsb ev_terminal (events_of t id).

(** [order by seq desc limit 1], or 0. *)
Definition last_seq (t : Tables) (id : RunId) : N :=
  fold_left N.max (ev_seq <$> events_of t id) 0%N.

(** [i64::try_from(seen) != Ok(last)]. *)
Definition moved (seen : option nat) (last : N) : bool :=
  match seen with
  | Some seen => negb ((Z.of_nat seen <=? i64_max)%Z && (N.of_nat seen =? last)%N)
  | None => false
  end.

(** What a transaction is to write: the run's row, if the run is new, and its
    events after [w_last]. *)
Record Write : Type := mkWrite {
  w_row : option RunRow;
  w_id : RunId;
  w_rows : EventRows;
  w_principal : Principal;
  w_last : N;
}.

(** What a [bigint] column takes. *)
Definition in_bigint (n : N) : bool := (Z.of_N n <=? i64_max)%Z.

(** [insert into run_events] fails where a key would be broken or a number is
    too large. *)
Definition insert_fails (t : Tables) (w : Write) : bool :=
  negb (keys_hold (t_run_events t ++ number_rows (w_id w) (w_last w) (w_rows w)) &&
        in_bigint (w_last w + N.of_nat (length (w_rows w)))).

(** The counter's number after the write, as its upsert returns it. *)
Definition counter_after (t : Tables) (w : Write) : N :=
  (match t_counters t !! w_principal w with Some c => co_last c | None => 0%N end +
   N.of_nat (length (w_rows w)))%N.

(** The outbox's rows of a write whose last number is [top]. *)
Definition outbox_rows (w : Write) (top : N) (now : Timestamp) : list OutboxRow :=
  let count := length (w_rows w) in
  (fun n => mkOutboxRow (w_principal w) (top - N.of_nat count + N.of_nat n + 1) (w_id w)
              (w_last w + N.of_nat n + 1) now) <$> seq 0 count.

Definition commit_events (t : Tables) (w : Write) : Tables :=
  mkTables (t_agents t)
    (match w_row w with Some row => <[w_id w := row]> (t_runs t) | None => t_runs t end)
    (t_run_events t ++ number_rows (w_id w) (w_last w) (w_rows w))
    (t_counters t) (t_outbox t) (t_artifacts t) (t_stops t) (gol_order t).

(** [numbered]: the counter's number, and the time of the rows. *)
Definition commit_numbers (t : Tables) (w : Write) (numbered : option (N * Timestamp)) : Tables :=
  match numbered with
  | None => t
  | Some (top, now) =>
      let p := w_principal w in
      mkTables (t_agents t) (t_runs t) (t_run_events t)
        (<[p := mkCounterRow top (match t_counters t !! p with Some c => co_pruned c | None => 0%N end)]>
           (t_counters t))
        (t_outbox t ++ outbox_rows w top now) (t_artifacts t) (t_stops t) (gol_order t)
  end.

Definition commit (t : Tables) (w : Write) (numbered : option (N * Timestamp)) : Tables :=
  commit_numbers (commit_events t w) w numbered.

(** The row of a new run. *)
Definition run_row (run : StoredRun) (now : Timestamp) (number : N) : RunRow :=
  let spec := sr_spec run in
  mkRunRow spec (Some (issuer (owner spec))) (Some (subject (owner spec))) (thread_of spec)
    (parent (lineage spec))
    (Some (match sr_events run with [] => now | _ => created_ms run end)) (Some number).

(** [nextval('gol_order')]. *)
Definition nextval (t : Tables) : N * Tables :=
  let n := (gol_order t + 1)%N in
  (n, mkTables (t_agents t) (t_runs t) (t_run_events t) (t_counters t) (t_outbox t) (t_artifacts t)
        (t_stops t) n).

(** ** Statements of their own *)

Definition set_t_agents (t : Tables) m : Tables :=
  mkTables m (t_runs t) (t_run_events t) (t_counters t) (t_outbox t) (t_artifacts t) (t_stops t)
    (gol_order t).
Definition set_t_artifacts (t : Tables) m : Tables :=
  mkTables (t_agents t) (t_runs t) (t_run_events t) (t_counters t) (t_outbox t) m (t_stops t)
    (gol_order t).
Definition set_t_stops (t : Tables) m : Tables :=
  mkTables (t_agents t) (t_runs t) (t_run_events t) (t_counters t) (t_outbox t) (t_artifacts t) m
    (gol_order t).

(** [on conflict (id) do update ... where] the principal is the same. *)
Definition upsert_agent (t : Tables) (agent : StoredAgent) : PutAgent * Tables :=
  let id := am_id (sa_manifest agent) in
  match t_agents t !! id with
  | None => (AgentStored, set_t_agents t (<[id := agent]> (t_agents t)))
  | Some kept =>
      if bool_decide (principal (sa_owner kept) = principal (sa_owner agent)) then
        (AgentStored,
         set_t_agents t
           (<[id := mkStoredAgent (sa_manifest agent)
                      (mkOwner (issuer (sa_owner kept)) (subject (sa_owner kept))
                         (tenant (sa_owner agent)))]> (t_agents t)))
      else (OwnedByOther, t)
  end.

Definition upsert_artifact (t : Tables) (a : StoredArtifact) : Tables :=
  set_t_artifacts t (<[art_id a := a]> (t_artifacts t)).

(** [prune_outbox]'s [cut], from the statement's snapshot. *)
Definition cut (t : Tables) (before : Timestamp) : gmap Principal N :=
  fold_left
    (fun through row =>
       if (row_stored_ms row <? before)%Z then
         <[row_principal row := N.max (default 0%N (through !! row_principal row)) (row_seq row)]> through
       else through)
    (t_outbox t) ∅.

(** A row a statement locks until its transaction ends: a principal's counter,
    or an entry of the outbox. *)
Inductive RowLock := LCounter (p : Principal) | LEntry (p : Principal) (seq : N).

#[export] Instance RowLock_eq_dec : EqDecision RowLock.
Proof. solve_decision. Defined.

(** Whether [row] is one the cut deletes. *)
Definition in_cut (through : gmap Principal N) (row : OutboxRow) : bool :=
  match through !! row_principal row with Some n => (row_seq row <=? n)%N | None => false end.

(** The rows of the statement's snapshot that [gone] deletes and [marked]
    updates. *)
Definition cut_rows (t : Tables) (through : gmap Principal N) : list RowLock :=
  ((fun row => LEntry (row_principal row) (row_seq row)) <$> List.filter (in_cut through) (t_outbox t)) ++
  (LCounter <$> List.filter (fun p => bool_decide (is_Some (t_counters t !! p))) (map_to_list through).*1).

(** A row the statement comes to may be gone: another prune deleted it. *)
Definition row_there (t : Tables) (lock : RowLock) : bool :=
  match lock with
  | LCounter p => bool_decide (is_Some (t_counters t !! p))
  | LEntry p n => existsb (fun row => bool_decide (row_principal row = p) && (row_seq row =? n)%N) (t_outbox t)
  end.

(** [gone] and [marked], of the rows the statement has locked: how many rows
    went, and the tables. *)
Definition delete_held (t : Tables) (through : gmap Principal N) (held : list RowLock) : N * Tables :=
  let rows :=
    List.filter (fun row => negb (bool_decide (LEntry (row_principal row) (row_seq row) ∈ held))) (t_outbox t) in
  (N.of_nat (length (t_outbox t) - length rows),
   mkTables (t_agents t) (t_runs t) (t_run_events t)
     (map_imap (fun p c => Some (match through !! p with
                                 | Some n =>
                                     if bool_decide (LCounter p ∈ held)
                                     then mkCounterRow (co_last c) (N.max (co_pruned c) n) else c
                                 | None => c
                                 end)) (t_counters t))
     rows (t_artifacts t) (t_stops t) (gol_order t)).

Section Store.
Context `{UuidCrate}.

(** [put_stop] once its first number is drawn: a stop of the same scope takes
    another. *)
Definition upsert_stop (t : Tables) (o : Owner) (scope : StopScope) (drawn : N) : Tables :=
  let key := (principal o, kind_and_key scope) in
  match t_stops t !! key with
  | None => set_t_stops t (<[key := drawn]> (t_stops t))
  | Some _ => let '(n, t) := nextval t in set_t_stops t (<[key := n]> (t_stops t))
  end.

(** ** Reads, each of one snapshot *)

Definition select_run_page (t : Tables) (id : RunId) (after limit : N) : option StoredRun :=
  row ← t_runs t !! id;
  let rows := List.filter (fun e => clamp_i64 after <? ev_seq e)%N (events_of t id) in
  Some (mkStoredRun (rr_spec row) (ev_body <$> sql_limit limit (sort_by seq_leb rows))).

Definition usize_max : N := 18446744073709551615.

Definition select_run (t : Tables) (id : RunId) : option StoredRun := select_run_page t id 0 usize_max.

Definition select_agent (t : Tables) (id : AgentId) : option StoredAgent := t_agents t !! id.

Definition select_artifact (t : Tables) (id : ArtifactId) : option StoredArtifact := t_artifacts t !! id.

Definition number_leb (a b : OutboxRow) : bool := (row_seq a <=? row_seq b)%N.

(** [left join run_events]. *)
Definition outbox_entry (t : Tables) (row : OutboxRow) : result OutboxEntry StoreError :=
  match List.find (fun e => bool_decide (ev_run_id e = row_run_id row) && (ev_seq e =? row_run_seq row)%N)
          (t_run_events t) with
  | Some e => Ok (mkOutboxEntry (row_seq row) (row_run_id row) (row_run_seq row) (ev_body e))
  | None => Err (mkStoreError ("outbox entry " +:+ pretty (row_seq row) +:+ " has no event"))
  end.

Definition select_outbox (t : Tables) (o : Owner) (after limit : N) : result OutboxPage StoreError :=
  let p := principal o in
  let '(pruned, last) :=
    match t_counters t !! p with Some c => (co_pruned c, co_last c) | None => (0, 0)%N end in
  let rows :=
    List.filter (fun row => bool_decide (row_principal row = p) && (clamp_i64 after <? row_seq row)%N)
      (t_outbox t) in
  match collect (outbox_entry t) (sql_limit limit (sort_by number_leb rows)) with
  | Ok entries => Ok (mkOutboxPage entries pruned last)
  | Err e => Err e
  end.

(** ** Calls *)

Inductive Query :=
| QRun (id : RunId)
| QPage (id : RunId) (after limit : N)
| QAgent (id : AgentId)
| QArtifact (id : ArtifactId)
| QOutbox (o : Owner) (after limit : N).

Inductive Call :=
| CAppend (id : RunId) (seen : option nat) (events : list Event)
| CPutRun (run : StoredRun)
| CPutAgent (agent : StoredAgent)
| CPutArtifact (artifact : StoredArtifact)
| CPrune (before : Timestamp)
| CPutStop (o : Owner) (scope : StopScope)
| CQuery (q : Query).

Inductive Reply :=
| RAppend (r : Append)
| RPutRun (r : PutRun)
| RAgent (r : PutAgent)
| RUnit
| RPruned (n : N)
| RRunRead (r : option StoredRun)
| RAgentRead (r : option StoredAgent)
| RArtifactRead (r : option StoredArtifact)
| RPage (r : OutboxPage).

Definition select (t : Tables) (q : Query) : result Reply StoreError :=
  match q with
  | QRun id => Ok (RRunRead (select_run t id))
  | QPage id after limit => Ok (RRunRead (select_run_page t id after limit))
  | QAgent id => Ok (RAgentRead (select_agent t id))
  | QArtifact id => Ok (RArtifactRead (select_artifact t id))
  | QOutbox o after limit =>
      match select_outbox t o after limit with Ok page => Ok (RPage page) | Err e => Err e end
  end.

(** Where a call is: what its next statement is, and what it has locked and
    written.

    - [Begin]: nothing done;
    - [Locked]: an append has its run's row, [for update];
    - [Unended]: and found no event that ends the run;
    - [Drawn]: an insert has its number, and waits for the key;
    - [Insert], [Number], [Commit]: the run's row is locked or inserted; the
      events are to be inserted, to be numbered, to be committed;
    - [Existing]: the run was there, and the transaction is to be committed;
    - [Cutting]: the pruner's statement has its cut, locks the rows it found one
      after another, those [held] so far, and deletes and updates them last;
    - [Notify]: committed, and the streams are to be told. *)
Inductive Pc :=
| Begin
| Locked (rows : EventRows) (p : Principal)
| Unended (rows : EventRows) (p : Principal)
| Drawn (number : N) (now : Timestamp) (rows : EventRows)
| Insert (w : Write)
| Number (w : Write)
| Commit (w : Write) (numbered : option (N * Timestamp))
| Existing
| Cutting (through : gmap Principal N) (todo held : list RowLock)
| Notify (p : Principal) (r : Reply)
| Finished (r : result Reply StoreError).

(** The sessions' calls, and what the process sent to its own streams, the
    latest first. *)
Record Cluster : Type := mkCluster {
  cl_tables : Tables;
  cl_sessions : gmap nat (Call * Pc);
  cl_hints : list N;
}.

(** The run whose row, or key, a call has until its transaction ends. *)
Definition has_run (s : Call * Pc) : option RunId :=
  match s.2, s.1 with
  | (Locked _ _ | Unended _ _), CAppend id _ _ => Some id
  | (Insert w | Number w | Commit w _), _ => Some (w_id w)
  | _, _ => None
  end.

(** The counters and the outbox rows it has locked. *)
Definition has_rows (s : Call * Pc) : list RowLock :=
  match s.2 with
  | Commit w (Some _) => [LCounter (w_principal w)]
  | Cutting _ _ held => held
  | _ => []
  end.

(** Whether another session than [i] has what [p] says. *)
Definition other (i : nat) (c : Cluster) (p : Call * Pc -> bool) : bool :=
  existsb (fun s => negb (s.1 =? i)%nat && p s.2) (map_to_list (cl_sessions c)).

Definition run_taken (i : nat) (c : Cluster) (id : RunId) : bool :=
  other i c (fun s => bool_decide (has_run s = Some id)).

Definition row_taken (i : nat) (c : Cluster) (lock : RowLock) : bool :=
  other i c (fun s => bool_decide (lock ∈ has_rows s)).

(** How a statement goes: it is done, it fails, or it fails and may have been
    done. *)
Inductive Fate := Goes | Fails (e : StoreError) | Unsure (e : StoreError).

Definition goto (i : nat) (c : Cluster) (t : Tables) (call : Call) (pc : Pc) : Cluster :=
  mkCluster t (<[i := (call, pc)]> (cl_sessions c)) (cl_hints c).

(** What Postgres says of a broken key or a number out of range; and the order
    in which a session's prune comes to the rows it found, which is the
    database's to choose. *)
Context (insert_error : StoreError) (scan : nat -> list RowLock -> list RowLock).

(** A statement outside a transaction. *)
Definition single (i : nat) (c : Cluster) (call : Call) (fate : Fate) (r : Reply) (t : Tables) : Cluster :=
  match fate with
  | Goes => goto i c t call (Finished (Ok r))
  | Unsure e => goto i c t call (Finished (Err e))
  | Fails e => goto i c (cl_tables c) call (Finished (Err e))
  end.

(** The call's first statement. *)
Definition begin (i : nat) (fate : Fate) (now : Timestamp) (c : Cluster) (call : Call) : option Cluster :=
  let t := cl_tables c in
  let next pc := Some (goto i c t call pc) in
  match call with
  | CAppend id _ events =>
      match event_rows events with
      | Err e => next (Finished (Err e))
      | Ok rows =>
          match fate with
          | Fails e | Unsure e => next (Finished (Err e))
          | Goes =>
              match t_runs t !! id with
              | None => next (Finished (Ok (RAppend Missing)))
              | Some row => if run_taken i c id then None else next (Locked rows (row_owner row))
              end
          end
      end
  | CPutRun run =>
      match event_rows (sr_events run) with
      | Err e => next (Finished (Err e))
      | Ok rows =>
          match fate with
          | Fails e | Unsure e => next (Finished (Err e))
          | Goes => let '(n, t) := nextval t in Some (goto i c t call (Drawn n now rows))
          end
      end
  | CPutStop _ _ =>
      match fate with
      | Fails e | Unsure e => next (Finished (Err e))
      | Goes => let '(n, t) := nextval t in Some (goto i c t call (Drawn n now []))
      end
  | CPutAgent agent => let '(r, t) := upsert_agent t agent in Some (single i c call fate (RAgent r) t)
  | CPutArtifact a => Some (single i c call fate RUnit (upsert_artifact t a))
  | CPrune before =>
      match fate with
      | Fails e | Unsure e => next (Finished (Err e))
      | Goes => let through := cut t before in next (Cutting through (scan i (cut_rows t through)) [])
      end
  | CQuery q =>
      match fate with
      | Fails e | Unsure e => next (Finished (Err e))
      | Goes => next (Finished (select t q))
      end
  end.

(** The next statement of session [i]'s call, [None] if it waits or has
    finished.  A statement that waits can fail: so Postgres ends a transaction
    it finds in a deadlock.  A prune is one statement of several steps; a
    client lost during it is told so when it ends. *)
Definition step (i : nat) (fate : Fate) (now : Timestamp) (c : Cluster) : option Cluster :=
  '(call, pc) ← cl_sessions c !! i;
  let t := cl_tables c in
  let next pc := Some (goto i c t call pc) in
  let or_fail k := match fate with Goes => k | Fails e | Unsure e => next (Finished (Err e)) end in
  match pc, call with
  | Begin, _ => begin i fate now c call
  | Locked rows p, CAppend id _ _ =>
      or_fail (if ended t id then next (Finished (Ok (RAppend Terminal))) else next (Unended rows p))
  | Unended rows p, CAppend id seen _ =>
      or_fail
        (let last := last_seq t id in
         if moved seen last then next (Finished (Ok (RAppend Moved)))
         else next (Insert (mkWrite None id rows p last)))
  | Drawn n stamp rows, CPutRun run =>
      let id := run_id (sr_spec run) in
      or_fail
        (match t_runs t !! id with
         | Some _ => next Existing
         | None =>
             if run_taken i c id then None
             else next (Insert (mkWrite (Some (run_row run stamp n)) id rows (principal (owner (sr_spec run))) 0))
         end)
  | Drawn n _ _, CPutStop o scope => Some (single i c call fate RUnit (upsert_stop t o scope n))
  | Insert w, _ =>
      or_fail
        (if insert_fails t w then next (Finished (Err insert_error))
         else if (length (w_rows w) =? 0)%nat then next (Commit w None) else next (Number w))
  | Number w, _ =>
      or_fail
        (if row_taken i c (LCounter (w_principal w)) then None
         else if negb (in_bigint (counter_after t w)) then next (Finished (Err insert_error))
         else next (Commit w (Some (counter_after t w, now))))
  | Commit w numbered, _ =>
      let r := match w_row w with Some _ => RPutRun RunStored | None => RAppend Appended end in
      match fate with
      | Goes =>
          Some (goto i c (commit t w numbered) call
                  (match w_row w, w_rows w with
                   | Some _, [] => Finished (Ok r)
                   | _, _ => Notify (w_principal w) r
                   end))
      | Unsure e => Some (goto i c (commit t w numbered) call (Finished (Err e)))
      | Fails e => next (Finished (Err e))
      end
  | Existing, _ => or_fail (next (Finished (Ok (RPutRun RunExisted))))
  | Cutting through (lock :: todo) held, _ =>
      or_fail
        (if row_taken i c lock then None
         else next (Cutting through todo (if row_there t lock then lock :: held else held)))
  | Cutting through [] held, _ =>
      let '(n, t) := delete_held t through held in Some (single i c call fate (RPruned n) t)
  | Notify p r, _ =>
      Some (mkCluster t (<[i := (call, Finished (Ok r))]> (cl_sessions c))
              (principal_hint_of p.1 p.2 :: cl_hints c))
  | _, _ => None
  end.

(** The steps of a schedule: whose statement is next, how it goes, and when. *)
Definition Steps : Type := list (nat * Fate * Timestamp).

Fixpoint run_steps (steps : Steps) (c : Cluster) : option Cluster :=
  match steps with
  | [] => Some c
  | (i, fate, now) :: steps => c ← step i fate now c; run_steps steps c
  end.

End Store.
