(* ===== verification/PostgresProofs.v ===== *)
(** * The Postgres store is the in-memory store

    [contents] is the in-memory store a database's tables stand for.  Stores
    are the same ([same]) up to their hints, their order and the counts of
    principals without events.  Whatever the interleaving of the sessions'
    statements, the database does what the in-memory store does when each call
    is one step, taken at a moment within the call
    ([postgres_refines_memory]). *)

From S2P Require Import Prelude Protocol Uuids MemoryOwner Reduce Store StoreProofs StoreStops Postgres.

(** ** The store the tables stand for *)

Definition free {A} (a : A) : Lock A := mkLock a false.

Definition run_of (t : Tables) (id : RunId) (row : RunRow) : StoredRun :=
  mkStoredRun (rr_spec row) (ev_body <$> events_of t id).

Definition contents (t : Tables) : RunsStore :=
  mkRunsStore (free (t_agents t)) (free (map_imap (fun id row => Some (run_of t id row)) (t_runs t)))
    (free (t_artifacts t)) (free (mkOutbox (co_last <$> t_counters t) (co_pruned <$> t_counters t) (t_outbox t)))
    (gol_order t) (free (omap rr_stored_seq (t_runs t))) [].

(** What a caller can tell of the runs, agents, artifacts and outbox, and the
    order's numbers. *)
Record same (s s' : RunsStore) : Prop := mkSame {
  sm_agents : agents s = agents s';
  sm_runs : runs s = runs s';
  sm_artifacts : artifacts s = artifacts s';
  sm_poisoned : poisoned (outbox s) = poisoned (outbox s');
  sm_rows : ob_rows (lock_read (outbox s)) = ob_rows (lock_read (outbox s'));
  sm_count p : count_of (lock_read (outbox s)) p = count_of (lock_read (outbox s')) p;
  sm_pruned p : pruned_of (lock_read (outbox s)) p = pruned_of (lock_read (outbox s')) p;
  sm_stored : stored s = stored s';
  sm_order : order s = order s';
}.

#[export] Instance same_equivalence : Equivalence same.
Proof.
  split.
  - intros s. by split.
  - intros s s' []. by split.
  - intros s1 s2 s3 [] []. split; try congruence; intros p; by etrans.
Qed.

(** ** The in-memory store's calls

    The in-memory store draws the numbers of its order by a step of its own
    ([fetch_add]).  So does the specification: [MDraw] gives a number, and the
    insert of a run or of a stop is the call with the number it drew. *)

Inductive RunOp :=
| MDraw
| MAppend (id : RunId) (seen : option nat) (events : list Event) (now : Timestamp)
| MPutRun (run : StoredRun) (now : Timestamp) (number : N)
| MPutAgent (agent : StoredAgent)
| MPutArtifact (artifact : StoredArtifact)
| MCut (before : Timestamp)
| MPruneTo (through : gmap Principal N)
| MQuery (q : Query).

Inductive MemOp := MRuns (op : RunOp) | MPutStop (o : Owner) (scope : StopScope) (number : N).

Inductive MemReply := MReply (r : Reply) | MDrawn (n : N) | MCutReply (through : gmap Principal N).

(** The pruning of [Store.prune_outbox] up to given numbers. *)
Definition prune_to (through : gmap Principal N) (s : RunsStore) : N * RunsStore :=
  let ob := lock_read (outbox s) in
  let rows := filter (fun row => Is_true (kept_row through row)) (ob_rows ob) in
  (N.of_nat (length (ob_rows ob) - length rows),
   set_outbox s (mkOutbox (ob_counts ob) (union_with (fun a b => Some (N.max a b)) (ob_pruned ob) through) rows) []).

(** The two halves of a prune are the in-memory one's. *)
Lemma prune_in_two_steps s before : poisoned (outbox s) = false ->
  prune_outbox s before =
    let '(n, s') := prune_to (prune_through (ob_rows (lock_read (outbox s))) before) s in (Ok n, s').
Proof. unfold prune_outbox, lock_write. by intros ->. Qed.

Definition mem_query (s : RunsStore) (q : Query) : result Reply StoreError :=
  match q with
  | QRun id => Ok (RRunRead (get_run s id))
  | QPage id after limit => Ok (RRunRead (run_page s id (N.to_nat after) (N.to_nat limit)))
  | QAgent id => Ok (RAgentRead (get_agent s id))
  | QArtifact id => Ok (RArtifactRead (get_artifact s id))
  | QOutbox o after limit =>
      match outbox_after s o after (N.to_nat limit) with Ok page => Ok (RPage page) | Err e => Err e end
  end.

Definition in_reply {A} (f : A -> Reply) (x : result A StoreError * RunsStore)
    : result MemReply StoreError * RunsStore :=
  (match x.1 with Ok a => Ok (MReply (f a)) | Err e => Err e end, x.2).

(** A call that draws [number]. *)
Definition drawing {A} (number : N) (s : RunsStore) (f : RunsStore -> A * RunsStore) : A * RunsStore :=
  let '(a, s') := f (set_order s (number - 1)) in (a, set_order s' (order s)).

Definition mem_runs (s : RunsStore) (op : RunOp) : result MemReply StoreError * RunsStore :=
  match op with
  | MDraw => (Ok (MDrawn (order s + 1)), set_order s (order s + 1))
  | MAppend id seen events now => in_reply RAppend (Store.append_checked s id seen events now)
  | MPutRun run now number => in_reply RPutRun (drawing number s (fun s => put_run s run now))
  | MPutAgent agent => in_reply RAgent (put_agent s agent)
  | MPutArtifact a => in_reply (fun _ => RUnit) (put_artifact s a)
  | MCut before => (Ok (MCutReply (prune_through (ob_rows (lock_read (outbox s))) before)), s)
  | MPruneTo through => let '(n, s) := prune_to through s in (Ok (MReply (RPruned n)), s)
  | MQuery q => in_reply id (mem_query s q, s)
  end.

Definition mem (s : StopsStore) (op : MemOp) : result MemReply StoreError * StopsStore :=
  match op with
  | MRuns op => let '(r, st) := mem_runs (ss_store s) op in (r, mkStopsStore st (ss_stops s))
  | MPutStop o scope number =>
      let '(r, s') := put_stop (mkStopsStore (set_order (ss_store s) (number - 1)) (ss_stops s)) o scope in
      (match r with Ok _ => Ok (MReply RUnit) | Err e => Err e end,
       mkStopsStore (set_order (ss_store s') (order (ss_store s))) (ss_stops s'))
  end.

(** ** Same stores answer alike *)

Definition alike {A} (x y : result A StoreError * RunsStore) : Prop := x.1 = y.1 /\ same x.2 y.2.

Lemma number_same s s' o run len count now : same s s' ->
  match number s o run len count now, number s' o run len count now with
  | Ok u, Ok u' => same u u' /\ runs u = runs s /\ runs u' = runs s'
  | Err e, Err e' => e = e'
  | _, _ => False
  end.
Proof.
  intros Hs. unfold number, lock_write. rewrite <-(sm_poisoned _ _ Hs).
  destruct (poisoned (outbox s)) eqn:Hp; [done|]. split; [|done].
  pose proof (sm_count _ _ Hs) as Hc. pose proof (sm_rows _ _ Hs) as Hr.
  destruct Hs as [H1 H2 H3 H4 _ _ H7 H8 H9]. unfold lock_read in *.
  split; cbn; try done.
  - by rewrite Hr, Hc.
  - intros p. unfold count_of in *. cbn.
    destruct (decide (principal o = p)) as [<-|]; [by rewrite !lookup_insert_eq, Hc|].
    by rewrite !lookup_insert_ne.
Qed.

Lemma same_set_runs s s' m : same s s' -> same (set_runs s m) (set_runs s' m).
Proof. intros []. split; try done. cbn. unfold lock_set. congruence. Qed.

Lemma append_same s s' id seen events now : same s s' ->
  alike (Store.append_checked s id seen events now) (Store.append_checked s' id seen events now).
Proof.
  intros Hs. unfold Store.append_checked. destruct (check_one_terminal events); [|by split].
  unfold lock_write. rewrite <-(sm_runs _ _ Hs). destruct (poisoned (runs s)); [by split|].
  destruct (guarded (runs s) !! id) as [run|]; [|by split]. destruct (has_terminal _); [by split|].
  destruct (match seen with Some n => _ | None => _ end); [by split|].
  pose proof (number_same s s' (owner (sr_spec run)) id (length (sr_events run)) (length events) now Hs) as Hn.
  destruct (number s _ _ _ _ _) as [u|e], (number s' _ _ _ _ _) as [u'|e']; try done.
  - destruct Hn as (Hu & _). split; [done|]. by apply same_set_runs.
  - subst. by split.
Qed.

Lemma same_set_order s s' n : same s s' -> same (set_order s n) (set_order s' n).
Proof. by intros []. Qed.

Lemma put_run_same s s' run now : same s s' -> alike (put_run s run now) (put_run s' run now).
Proof.
  intros Hs. unfold put_run. destruct (check_one_terminal _); [|by split].
  unfold lock_write at 1 3. rewrite <-(sm_runs _ _ Hs). destruct (poisoned (runs s)); [by split|].
  destruct (guarded (runs s) !! _) as [kept|]; [by split|].
  pose proof (number_same s s' (owner (sr_spec run)) (run_id (sr_spec run)) 0 (length (sr_events run)) now Hs) as Hn.
  destruct (number s _ _ _ _ _) as [u|e], (number s' _ _ _ _ _) as [u'|e']; try done; [|by subst; split].
  destruct Hn as (Hu & _ & _). unfold lock_write. cbn [stored set_order].
  rewrite <-(sm_stored _ _ Hu), <-(sm_order _ _ Hu).
  destruct (poisoned (stored u)); (split; [done|]); [|apply same_set_runs]; destruct Hu; split; try done;
    cbn; unfold lock_set; congruence.
Qed.

Lemma outbox_after_same s s' o after limit : same s s' ->
  outbox_after s o after limit = outbox_after s' o after limit.
Proof.
  intros Hs. unfold outbox_after, page_rows.
  by rewrite (sm_rows _ _ Hs), (sm_runs _ _ Hs), (sm_count _ _ Hs), (sm_pruned _ _ Hs).
Qed.

Lemma mem_query_same s s' q : same s s' -> mem_query s q = mem_query s' q.
Proof.
  intros Hs. destruct q; simpl; unfold run_page, get_run, get_agent, get_artifact;
    rewrite ?(sm_runs _ _ Hs), ?(sm_agents _ _ Hs), ?(sm_artifacts _ _ Hs); try done.
  by rewrite (outbox_after_same s s').
Qed.

Lemma prune_to_same s s' through : same s s' ->
  (prune_to through s).1 = (prune_to through s').1 /\ same (prune_to through s).2 (prune_to through s').2.
Proof.
  intros Hs. pose proof (sm_rows _ _ Hs) as Hr. pose proof (sm_pruned _ _ Hs) as Hpr. unfold prune_to.
  cbn [fst snd]. rewrite Hr. split; [done|]. destruct Hs. split; try done. intros p. specialize (Hpr p).
  revert Hpr. unfold pruned_of. cbn. rewrite !lookup_union_with.
  destruct (ob_pruned _ !! p), (ob_pruned _ !! p), (through !! p); simpl; intros; subst; done || lia.
Qed.

Lemma alike_in_reply {A} (f : A -> Reply) x y : alike x y -> alike (in_reply f x) (in_reply f y).
Proof. intros [H1 H2]. split; [|done]. unfold in_reply. simpl. by rewrite H1. Qed.

Lemma mem_same s s' op : same s s' -> alike (mem_runs s op) (mem_runs s' op).
Proof.
  intros Hs. destruct op; cbn [mem_runs].
  - rewrite (sm_order _ _ Hs). split; [done|]. by apply same_set_order.
  - by apply alike_in_reply, append_same.
  - apply alike_in_reply. unfold drawing.
    destruct (put_run_same _ _ run now (same_set_order s s' (number - 1) Hs)) as [H1 H2].
    destruct (put_run (set_order s _) _ _), (put_run (set_order s' _) _ _). simpl in *. subst.
    split; [done|]. rewrite (sm_order _ _ Hs). by apply same_set_order.
  - apply alike_in_reply. unfold put_agent, lock_write. rewrite <-(sm_agents _ _ Hs).
    repeat case_match; split; try done; destruct Hs; split; try done; cbn; unfold lock_set; congruence.
  - apply alike_in_reply. unfold put_artifact, lock_write. rewrite <-(sm_artifacts _ _ Hs).
    repeat case_match; split; try done; destruct Hs; split; try done; cbn; unfold lock_set; congruence.
  - split; simpl; [|done]. by rewrite (sm_rows _ _ Hs).
  - pose proof (prune_to_same s s' through Hs) as [H1 H2]. destruct (prune_to _ s), (prune_to _ s'); simpl in *.
    subst. by split.
  - apply alike_in_reply. split; [by apply mem_query_same|done].
Qed.

(** ** Lists *)

Lemma sort_by_id {A} (leb : A -> A -> bool) l :
  StronglySorted (fun x y => leb x y = true) l -> sort_by leb l = l.
Proof.
  induction 1 as [|x l _ IH Hx]; simpl; [done|]. rewrite IH. destruct l as [|y l]; simpl; [done|].
  by apply Forall_cons in Hx as [-> _].
Qed.

Lemma sql_limit_take {A} limit (l : list A) : (Z.of_nat (length l) <= i64_max)%Z ->
  sql_limit limit l = take (N.to_nat limit) l.
Proof.
  intros Hl. unfold sql_limit. destruct (N.leb_spec (N.of_nat (length l)) (clamp_i64 limit)) as [Hle|Hgt].
  - rewrite take_ge; [done|]. unfold clamp_i64 in Hle. lia.
  - f_equal. unfold clamp_i64 in *. assert (0 <= i64_max)%Z by done. lia.
Qed.

(** Rows numbered [1, 2, ...] after a number are the rows past its place. *)
Lemma numbered_after {A} (key : A -> N) (b : N) (a : N) (l : list A) :
  key <$> l = nums (b + 1) (length l) ->
  List.filter (fun x => a <? key x)%N l = drop (N.to_nat (a - b)) l.
Proof.
  revert b. induction l as [|x l IH]; intros b; [by rewrite drop_nil|]. cbn [fmap list_fmap length].
  rewrite nums_S. intros [= Hx Hl]. cbn [List.filter]. rewrite Hx. specialize (IH (b + 1)%N Hl).
  destruct (N.ltb_spec a (b + 1)) as [Hlt|Hge].
  - rewrite IH. replace (N.to_nat (a - (b + 1))) with 0 by lia. by replace (N.to_nat (a - b)) with 0 by lia.
  - rewrite IH. by replace (N.to_nat (a - b)) with (S (N.to_nat (a - (b + 1)))) by lia.
Qed.

Lemma numbered_sorted {A} (key : A -> N) (b : N) (l : list A) :
  key <$> l = nums b (length l) -> StronglySorted (fun x y => (key x < key y)%N) l /\
  Forall (fun x => (b <= key x)%N) l.
Proof.
  revert b. induction l as [|x l IH]; intros b; [by split; constructor|]. cbn [fmap list_fmap length].
  rewrite nums_S. intros [= Hx Hl]. destruct (IH _ Hl) as [Hs Hb]. split; constructor; try done.
  - eapply Forall_impl; [exact Hb|]. simpl. lia.
  - lia.
  - eapply Forall_impl; [exact Hb|]. simpl. lia.
Qed.

Lemma numbered_lookup {A} (key : A -> N) (l : list A) n :
  key <$> l = nums 1 (length l) -> (1 <= n)%N ->
  List.find (fun x => (key x =? n)%N) l = l !! (N.to_nat n - 1)%nat.
Proof.
  enough (forall b, key <$> l = nums b (length l) -> (b <= n)%N ->
    List.find (fun x => (key x =? n)%N) l = l !! N.to_nat (n - b)) as Hg.
  { intros Hl Hn. rewrite (Hg 1%N Hl Hn). f_equal. lia. }
  induction l as [|x l IH]; intros b; [done|]. cbn [fmap list_fmap length]. rewrite nums_S.
  intros [= Hx Hl] Hn. cbn [List.find]. rewrite Hx. destruct (N.eqb_spec b n) as [->|Hne].
  - by rewrite N.sub_diag.
  - rewrite (IH (b + 1)%N) by (done || lia). by replace (N.to_nat (n - b)) with (S (N.to_nat (n - (b + 1)))) by lia.
Qed.

Lemma filter_bool {A} (f : A -> bool) (P : A -> Prop) `{!forall x, Decision (P x)} l :
  (forall x, x ∈ l -> f x = true <-> P x) -> List.filter f l = filter P l.
Proof.
  induction l as [|x l IH]; intros Hf; [done|]. cbn [List.filter]. rewrite filter_cons.
  rewrite IH by (intros y Hy; apply Hf; by apply list_elem_of_further).
  specialize (Hf x (list_elem_of_here _ _)). case_decide; destruct (f x); naive_solver.
Qed.

Lemma sorted_filter_by {A} (R : A -> A -> Prop) (P : A -> Prop) `{!forall x, Decision (P x)} l :
  StronglySorted R l -> StronglySorted R (filter P l).
Proof.
  induction 1 as [|x l _ IH Hx]; [constructor|]. rewrite filter_cons. case_decide; [|done].
  constructor; [done|]. rewrite Forall_forall in *. intros y [_ Hy]%list_elem_of_filter. by apply Hx.
Qed.

Lemma sorted_length {A} (key : A -> N) (lo hi : N) l :
  StronglySorted (fun x y => (key x < key y)%N) l -> Forall (fun x => (lo <= key x <= hi)%N) l ->
  (N.of_nat (length l) <= hi + 1 - lo)%N.
Proof.
  intros Hs. revert lo. induction Hs as [|x l _ IH Hx]; intros lo; [simpl; lia|].
  intros [Hb Hl]%Forall_cons. simpl. assert (N.of_nat (length l) <= hi + 1 - (key x + 1))%N; [|lia].
  apply IH. rewrite Forall_forall in *. intros y Hy. specialize (Hx y Hy). specialize (Hl y Hy). simpl in *. lia.
Qed.

(** ** What holds of the tables *)

Record tables_ok (t : Tables) : Prop := mkTablesOk {
  to_owner id row : t_runs t !! id = Some row -> row_owner row = principal (owner (rr_spec row));
  to_seqs id : ev_seq <$> events_of t id = nums 1 (length (events_of t id));
  to_events id : (Z.of_nat (length (events_of t id)) <= i64_max)%Z;
  to_terminal e : e ∈ t_run_events t -> ev_terminal e = is_terminal (payload (ev_body e));
  to_orphans id : t_runs t !! id = None -> events_of t id = [];
  to_sorted p : StronglySorted (fun a b => (row_seq a < row_seq b)%N)
    (filter (fun row => row_principal row = p) (t_outbox t));
  to_counted row : row ∈ t_outbox t -> (1 <= row_seq row)%N /\ (1 <= row_run_seq row)%N /\
    exists c, t_counters t !! row_principal row = Some c /\ (row_seq row <= co_last c)%N;
  to_bigint p c : t_counters t !! p = Some c -> (Z.of_N (co_last c) <= i64_max)%Z;
}.

Lemma no_tables_ok : tables_ok no_tables.
Proof.
  split; try done; [| |]; intros x; [|constructor|]; intros Hx; by apply not_elem_of_nil in Hx.
Qed.

Lemma get_run_contents t id : get_run (contents t) id = run_of t id <$> t_runs t !! id.
Proof. unfold get_run, lock_read. simpl. rewrite map_lookup_imap. by destruct (t_runs t !! id). Qed.

Lemma ended_iff t id row : tables_ok t -> ended t id = has_terminal (sr_events (run_of t id row)).
Proof.
  intros Hok. unfold ended, has_terminal, run_of. cbn [sr_events].
  assert (Forall (fun e => ev_terminal e = is_terminal (payload (ev_body e))) (events_of t id)) as Ht.
  { apply Forall_forall. intros e [_ He]%list_elem_of_filter. by apply (to_terminal t Hok). }
  induction Ht as [|e l He _ IH]; [done|]. cbn. by rewrite He, IH.
Qed.

Lemma fold_max_nums b n : fold_left N.max (nums (b + 1) n) b = (b + N.of_nat n)%N.
Proof.
  revert b. induction n as [|n IH]; intros b; [simpl; lia|]. rewrite nums_S. cbn [fold_left].
  replace (N.max b (b + 1)) with (b + 1)%N by lia. rewrite IH. lia.
Qed.

Lemma last_seq_length t id : tables_ok t -> last_seq t id = N.of_nat (length (events_of t id)).
Proof. intros Hok. unfold last_seq. rewrite (to_seqs t Hok id). apply (fold_max_nums 0). Qed.

(** ** Reads *)

Lemma select_run_page_ok t id after limit : tables_ok t ->
  select_run_page t id after limit = run_page (contents t) id (N.to_nat after) (N.to_nat limit).
Proof.
  intros Hok. unfold select_run_page, run_page. rewrite get_run_contents.
  destruct (t_runs t !! id) as [row|] eqn:Hrow; [|done]. cbn. f_equal. f_equal.
  pose proof (to_seqs t Hok id) as Hs. pose proof (to_events t Hok id) as Hl.
  rewrite (numbered_after ev_seq 0 (clamp_i64 after) (events_of t id) Hs), N.sub_0_r.
  assert (drop (N.to_nat (clamp_i64 after)) (events_of t id) = drop (N.to_nat after) (events_of t id)) as ->.
  { unfold clamp_i64. destruct (N.leb_spec after (Z.to_N i64_max)) as [Hle|Hgt].
    - by rewrite N.min_l.
    - rewrite !drop_ge by lia. done. }
  rewrite sort_by_id.
  - rewrite sql_limit_take by (rewrite length_drop; lia). by rewrite fmap_take, fmap_drop.
  - assert (StronglySorted (fun x y => (ev_seq x < ev_seq y)%N) (drop (N.to_nat after) (events_of t id))) as Hd.
    { apply (numbered_sorted ev_seq (1 + after) (drop (N.to_nat after) (events_of t id))).
      rewrite fmap_drop, Hs, drop_nums, length_drop. f_equal; lia. }
    unfold seq_leb. induction Hd as [|x l _ IH Hx]; [constructor|]. constructor; [done|].
    eapply Forall_impl; [exact Hx|]. intros y Hy. apply N.leb_le. simpl in *. lia.
Qed.

Lemma select_run_ok t id : tables_ok t -> select_run t id = get_run (contents t) id.
Proof.
  intros Hok. unfold select_run. rewrite select_run_page_ok by done. unfold run_page.
  rewrite get_run_contents. destruct (t_runs t !! id) as [row|]; [|done]. cbn. f_equal.
  unfold run_of. f_equal. rewrite drop_0. apply take_ge. rewrite length_fmap.
  pose proof (to_events t Hok id). unfold usize_max. assert (i64_max <= 18446744073709551615)%Z by done. lia.
Qed.

Lemma outbox_entry_ok t row : tables_ok t -> row ∈ t_outbox t ->
  outbox_entry t row = row_entry (lock_read (runs (contents t))) row.
Proof.
  intros Hok Hrow. unfold outbox_entry, row_entry.
  change (lock_read (runs (contents t)) !! row_run_id row) with (get_run (contents t) (row_run_id row)).
  rewrite get_run_contents.
  assert (List.find (fun e => bool_decide (ev_run_id e = row_run_id row) && (ev_seq e =? row_run_seq row)%N) (t_run_events t)
    = events_of t (row_run_id row) !! (N.to_nat (row_run_seq row) - 1)%nat) as ->.
  { rewrite <-(numbered_lookup ev_seq) by (apply (to_seqs t Hok) || by apply (to_counted t Hok)).
    unfold events_of. induction (t_run_events t) as [|e l IH]; [done|]. cbn [List.find]. rewrite filter_cons.
    case_decide as He.
    - rewrite bool_decide_true by done. cbn [List.find andb]. by destruct (ev_seq e =? row_run_seq row)%N.
    - by rewrite bool_decide_false. }
  destruct (t_runs t !! row_run_id row) as [r|] eqn:Hr.
  - cbn. rewrite list_lookup_fmap. by destruct (events_of t _ !! _).
  - by rewrite (to_orphans t Hok _ Hr), lookup_nil.
Qed.

Lemma collect_ext {A B E} (f g : A -> result B E) l : (forall x, x ∈ l -> f x = g x) -> collect f l = collect g l.
Proof.
  induction l as [|x l IH]; intros Hf; [done|]. cbn [collect]. rewrite Hf by apply list_elem_of_here.
  rewrite IH by (intros y Hy; apply Hf; by apply list_elem_of_further). done.
Qed.

Lemma select_outbox_ok t o after limit : tables_ok t ->
  select_outbox t o after limit = outbox_after (contents t) o after (N.to_nat limit).
Proof.
  intros Hok. unfold select_outbox, outbox_after, page_rows, count_of, pruned_of, lock_read. cbn.
  rewrite !lookup_fmap. set (p := principal o). set (rows := List.filter _ _).
  assert (rows = filter (fun row => row_principal row = p /\ (after < row_seq row)%N) (t_outbox t)) as Er.
  { apply filter_bool. intros row Hrow. rewrite andb_true_iff, bool_decide_eq_true, N.ltb_lt.
    destruct (to_counted t Hok row Hrow) as (_ & _ & c & Hc & Hle).
    pose proof (to_bigint t Hok _ c Hc). unfold clamp_i64. split; intros [? ?]; split; try done; lia. }
  assert (rows = filter (fun row => (after < row_seq row)%N) (filter (fun row => row_principal row = p) (t_outbox t))) as Er2.
  { rewrite Er, list_filter_filter. apply list_filter_iff. intros row. naive_solver. }
  assert (StronglySorted (fun a b => (row_seq a < row_seq b)%N) rows) as Hsorted.
  { rewrite Er2. apply sorted_filter_by, (to_sorted t Hok). }
  assert (Forall (fun row => row ∈ t_outbox t) rows) as Hin.
  { apply Forall_forall. rewrite Er. by intros row [_ Hrow]%list_elem_of_filter. }
  rewrite sort_by_id.
  2:{ unfold number_leb. clear -Hsorted. induction Hsorted as [|x l _ IH Hx]; [constructor|]. constructor; [done|].
      eapply Forall_impl; [exact Hx|]. intros y Hy. apply N.leb_le. simpl in *. lia. }
  rewrite sql_limit_take.
  2:{ destruct (t_counters t !! p) as [c|] eqn:Hc.
      - pose proof (to_bigint t Hok p c Hc). assert (N.of_nat (length rows) <= co_last c + 1 - 1)%N; [|lia].
        apply (sorted_length row_seq); [done|]. rewrite Er. apply Forall_forall.
        intros row [[Hp _] Hrow]%list_elem_of_filter. destruct (to_counted t Hok row Hrow) as (? & _ & c' & Hc' & ?).
        rewrite Hp, Hc in Hc'. injection Hc' as <-. lia.
      - assert (rows = []) as ->; [|done]. destruct rows as [|row rows']; [done|]. exfalso.
        assert (row ∈ row :: rows') as Hrow by apply list_elem_of_here. rewrite Er in Hrow.
        apply list_elem_of_filter in Hrow as [[Hp _] Hrow]. destruct (to_counted t Hok row Hrow) as (_ & _ & c & Hc' & _).
        by rewrite Hp, Hc in Hc'. }
  rewrite <-Er. erewrite collect_ext.
  2:{ intros row Hrow. apply (outbox_entry_ok t row Hok). rewrite Forall_forall in Hin. apply Hin.
      by apply elem_of_take in Hrow as (i & Hrow%list_elem_of_lookup_2 & _). }
  unfold lock_read. cbn. by destruct (collect _ _), (t_counters t !! p).
Qed.

Lemma select_ok t q : tables_ok t -> select t q = mem_query (contents t) q.
Proof.
  intros Hok. destruct q; simpl.
  - by rewrite select_run_ok.
  - by rewrite select_run_page_ok.
  - done.
  - done.
  - by rewrite select_outbox_ok.
Qed.

(** ** Commits *)

Lemma event_rows_Ok events rows : event_rows events = Ok rows ->
  check_one_terminal events = Ok tt /\ rows.*1 = events /\ length rows = length events /\
  Forall (fun row => row.2 = is_terminal (payload row.1)) rows.
Proof.
  unfold event_rows. destruct (check_one_terminal events) as [[]|]; [|done]. intros [= <-].
  split; [done|]. rewrite length_fmap, <-list_fmap_compose. split; [by rewrite list_fmap_id|].
  split; [done|]. apply Forall_fmap, Forall_forall. done.
Qed.

Lemma number_rows_cons id last row rows :
  number_rows id last (row :: rows) = mkEventRow id (last + 1) row.1 row.2 :: number_rows id (last + 1) rows.
Proof.
  unfold number_rows. cbn [imap]. f_equal; [f_equal; lia|].
  apply imap_ext. intros i x _. cbn. f_equal. lia.
Qed.

Lemma number_rows_spec id last rows :
  ev_seq <$> number_rows id last rows = nums (last + 1) (length rows) /\
  ev_body <$> number_rows id last rows = rows.*1 /\
  Forall (fun e => ev_run_id e = id) (number_rows id last rows) /\
  length (number_rows id last rows) = length rows.
Proof.
  revert last. induction rows as [|row rows IH]; intros last; [done|]. rewrite number_rows_cons.
  destruct (IH (last + 1)%N) as (H1 & H2 & H3 & H4). cbn [fmap list_fmap length ev_seq ev_body]. rewrite nums_S, H1, H2, H4.
  split_and!; try done. by constructor.
Qed.

Lemma number_rows_terminal id last rows e :
  Forall (fun row => row.2 = is_terminal (payload row.1)) rows -> e ∈ number_rows id last rows ->
  ev_terminal e = is_terminal (payload (ev_body e)).
Proof.
  intros Hr. revert last. induction Hr as [|row rows Hrow _ IH]; intros last.
  { intros He. by apply not_elem_of_nil in He. }
  rewrite number_rows_cons. intros [->|He]%elem_of_cons; [done|by eapply IH].
Qed.

Lemma events_of_app t k id : filter (fun e => ev_run_id e = id) (t_run_events t ++ k) =
  events_of t id ++ filter (fun e => ev_run_id e = id) k.
Proof. apply filter_app. Qed.

Lemma events_of_commit t w numbered id :
  events_of (commit t w numbered) id =
  events_of t id ++ if decide (w_id w = id) then number_rows (w_id w) (w_last w) (w_rows w) else [].
Proof.
  assert (events_of (commit t w numbered) id =
    filter (fun e => ev_run_id e = id) (t_run_events t ++ number_rows (w_id w) (w_last w) (w_rows w))) as ->
    by (by destruct numbered as [[]|]).
  rewrite events_of_app. f_equal. destruct (number_rows_spec (w_id w) (w_last w) (w_rows w)) as (_ & _ & Hid & _).
  case_decide as Hd.
  - apply filter_all. eapply Forall_impl; [exact Hid|]. simpl. congruence.
  - apply filter_none. eapply Forall_impl; [exact Hid|]. simpl. congruence.
Qed.

Definition numbered_ok (t : Tables) (w : Write) (numbered : option (N * Timestamp)) : Prop :=
  match numbered with
  | None => w_rows w = []
  | Some (top, _) => top = counter_after t w /\ in_bigint top = true
  end.

Record write_ok (t : Tables) (w : Write) : Prop := mkWriteOk {
  wo_row : match w_row w with
           | Some row => t_runs t !! w_id w = None /\ row_owner row = principal (owner (rr_spec row))
           | None => is_Some (t_runs t !! w_id w)
           end;
  wo_last : w_last w = N.of_nat (length (events_of t (w_id w)));
  wo_terminal : Forall (fun row => row.2 = is_terminal (payload row.1)) (w_rows w);
}.

Definition fits (w : Write) : Prop := in_bigint (w_last w + N.of_nat (length (w_rows w))) = true.

Definition last_of (t : Tables) (p : Principal) : N :=
  match t_counters t !! p with Some c => co_last c | None => 0%N end.

Lemma outbox_rows_elem w top now row : row ∈ outbox_rows w top now ->
  row_principal row = w_principal w /\ (top - N.of_nat (length (w_rows w)) < row_seq row)%N /\
  (1 <= row_run_seq row)%N /\
  (N.of_nat (length (w_rows w)) <= top -> row_seq row <= top)%N.
Proof.
  unfold outbox_rows. intros (n & -> & Hn%elem_of_seq)%list_elem_of_fmap. cbn. split; [done|]. lia.
Qed.

Lemma outbox_rows_sorted w top now :
  StronglySorted (fun a b => (row_seq a < row_seq b)%N) (outbox_rows w top now).
Proof.
  unfold outbox_rows. cbv zeta. generalize (top - N.of_nat (length (w_rows w)))%N as base. intros base.
  generalize 0. induction (length (w_rows w)) as [|k IH]; intros s; cbn; [constructor|].
  constructor; [apply IH|]. apply Forall_fmap, Forall_forall. intros n Hn%elem_of_seq. cbn. lia.
Qed.

Lemma sorted_app {A} (R : A -> A -> Prop) l k :
  StronglySorted R l -> StronglySorted R k -> (forall x y, x ∈ l -> y ∈ k -> R x y) -> StronglySorted R (l ++ k).
Proof.
  induction 1 as [|x l _ IH Hx]; intros Hk Hlk; [done|]. cbn. constructor.
  - apply IH; [done|]. intros y z Hy. apply Hlk. by apply list_elem_of_further.
  - apply Forall_app. split; [done|]. apply Forall_forall. intros y Hy. apply Hlk; [apply list_elem_of_here|done].
Qed.

Lemma commit_ok t w numbered :
  tables_ok t -> write_ok t w -> fits w -> numbered_ok t w numbered -> tables_ok (commit t w numbered).
Proof.
  intros Hok Hw Hf Hn. unfold fits, in_bigint in Hf. apply Z.leb_le in Hf.
  assert (t_runs (commit t w numbered) = match w_row w with Some row => <[w_id w := row]> (t_runs t) | None => t_runs t end)
    as Hruns by (by destruct numbered as [[]|]).
  assert (t_run_events (commit t w numbered) = t_run_events t ++ number_rows (w_id w) (w_last w) (w_rows w)) as Hev
    by (by destruct numbered as [[]|]).
  destruct (number_rows_spec (w_id w) (w_last w) (w_rows w)) as (Hseq & _ & _ & Hlen).
  pose proof (wo_last t w Hw) as Hl.
  assert (forall p c, t_counters (commit t w numbered) !! p = Some c ->
    (Z.of_N (co_last c) <= i64_max)%Z /\ (last_of t p <= co_last c)%N) as Hc1.
  { intros p c. unfold last_of. destruct numbered as [[top now]|]; cbn.
    - destruct Hn as [-> Hb]. apply Z.leb_le in Hb. destruct (decide (w_principal w = p)) as [<-|].
      + rewrite lookup_insert_eq. intros [= <-]. cbn. split; [done|]. unfold counter_after. lia.
      + rewrite lookup_insert_ne by done. intros Hp. rewrite Hp. split; [by apply (to_bigint t Hok p)|done].
    - intros Hp. rewrite Hp. split; [by apply (to_bigint t Hok p)|done]. }
  assert (forall p, is_Some (t_counters t !! p) -> is_Some (t_counters (commit t w numbered) !! p)) as Hc2.
  { intros p Hp. destruct numbered as [[top now]|]; [|done]. cbn.
    destruct (decide (w_principal w = p)) as [<-|]; [by rewrite lookup_insert_eq|by rewrite lookup_insert_ne]. }
  split.
  - intros id row. rewrite Hruns. pose proof (wo_row t w Hw) as Hrow. destruct (w_row w) as [new|]; [|apply (to_owner t Hok)].
    destruct (decide (w_id w = id)) as [<-|]; [rewrite lookup_insert_eq; intros [= <-]; by apply Hrow|].
    rewrite lookup_insert_ne by done. apply (to_owner t Hok).
  - intros id. rewrite events_of_commit, fmap_app, length_app, (to_seqs t Hok id). case_decide as Hd; [|by rewrite app_nil_r, Nat.add_0_r].
    subst id. rewrite Hseq, Hlen, nums_app, Hl. f_equal. f_equal. lia.
  - intros id. rewrite events_of_commit, length_app. case_decide as Hd; [|cbn; pose proof (to_events t Hok id); lia].
    subst id. rewrite Hlen. lia.
  - intros e. rewrite Hev. intros [He|He]%elem_of_app; [by apply (to_terminal t Hok)|].
    eapply number_rows_terminal; [|exact He]. apply (wo_terminal t w Hw).
  - intros id. rewrite Hruns, events_of_commit. pose proof (wo_row t w Hw) as Hrow.
    destruct (w_row w) as [new|].
    + destruct (decide (w_id w = id)) as [<-|]; [by rewrite lookup_insert_eq|]. rewrite lookup_insert_ne by done.
      intros Hnone. by rewrite (to_orphans t Hok id Hnone).
    + intros Hnone. rewrite decide_False; [by rewrite (to_orphans t Hok id Hnone)|]. intros <-. by destruct Hrow; congruence.
  - intros p. destruct numbered as [[top now]|]; [|apply (to_sorted t Hok)]. cbn. rewrite filter_app.
    destruct Hn as [-> _]. apply sorted_app; [apply (to_sorted t Hok)|apply sorted_filter_by, outbox_rows_sorted|].
    intros x y [Hx Hxt]%list_elem_of_filter [Hy (Hyp & Hys & _)%outbox_rows_elem]%list_elem_of_filter.
    destruct (to_counted t Hok x Hxt) as (_ & _ & c & Hc & Hle).
    assert (row_principal x = w_principal w) as Hxw by congruence. rewrite Hxw in Hc.
    unfold counter_after in Hys. rewrite Hc in Hys. lia.
  - intros row. destruct numbered as [[top now]|].
    + cbn [commit commit_numbers t_outbox]. intros [Hrow|Hrow]%elem_of_app.
      * destruct (to_counted t Hok row Hrow) as (H1 & H2 & c & Hc & Hle). split; [done|]. split; [done|].
        destruct (Hc2 _ (mk_is_Some _ _ Hc)) as [c' Hc']. exists c'. split; [exact Hc'|].
        apply Hc1 in Hc' as [_ Hle']. unfold last_of in Hle'. rewrite Hc in Hle'. lia.
      * destruct Hn as [-> _]. destruct (outbox_rows_elem _ _ _ _ Hrow) as (Hp & Hs & Hr & Ht).
        split; [lia|]. split; [done|]. rewrite Hp. cbn [commit commit_numbers t_counters]. rewrite lookup_insert_eq. eexists. split; [done|]. cbn. apply Ht.
        unfold counter_after. lia.
    + exact (to_counted t Hok row).
  - intros p c Hc. by eapply Hc1.
Qed.

(** What a commit does is what the in-memory write does. *)
Lemma same_commit t w numbered s' run :
  tables_ok t -> write_ok t w -> numbered_ok t w numbered ->
  get_run (contents (commit t w numbered)) (w_id w) = Some run ->
  agents s' = free (t_agents t) ->
  runs s' = free (<[w_id w := run]> (guarded (runs (contents t)))) ->
  artifacts s' = free (t_artifacts t) -> poisoned (outbox s') = false ->
  stored s' = stored (contents (commit t w numbered)) -> order s' = gol_order t ->
  ob_rows (lock_read (outbox s')) =
    t_outbox t ++ new_rows (w_principal w) (w_id w) (last_of t (w_principal w) + 1)
      (length (events_of t (w_id w))) (length (w_rows w)) (from_option snd 0%Z numbered) ->
  (forall p, count_of (lock_read (outbox s')) p =
     if decide (w_principal w = p) then (last_of t p + N.of_nat (length (w_rows w)))%N else last_of t p) ->
  (forall p, pruned_of (lock_read (outbox s')) p = pruned_of (lock_read (outbox (contents t))) p) ->
  same s' (contents (commit t w numbered)).
Proof.
  intros Hok Hw Hn Hrun Ha Hr Har Hp Hst Hord Hrows Hc Hpr. split.
  - rewrite Ha. by destruct numbered as [[]|].
  - rewrite Hr. cbn. f_equal. apply map_eq. intros id.
    assert (guarded (runs (contents (commit t w numbered))) !! id = get_run (contents (commit t w numbered)) id) as E by done.
    cbn in E. rewrite E. destruct (decide (w_id w = id)) as [<-|Hne]; [by rewrite lookup_insert_eq|].
    rewrite lookup_insert_ne by done. rewrite get_run_contents.
    change (map_imap _ (t_runs t) !! id) with (get_run (contents t) id). rewrite get_run_contents.
    assert (t_runs (commit t w numbered) !! id = t_runs t !! id) as ->.
    { assert (t_runs (commit t w numbered) = match w_row w with Some row => <[w_id w := row]> (t_runs t) | None => t_runs t end)
        as -> by (by destruct numbered as [[]|]). destruct (w_row w); [by rewrite lookup_insert_ne|done]. }
    destruct (t_runs t !! id); [|done]. cbn. unfold run_of. rewrite events_of_commit, decide_False by done.
    by rewrite app_nil_r.
  - rewrite Har. by destruct numbered as [[]|].
  - done.
  - rewrite Hrows. destruct numbered as [[top now]|]; cbn in *.
    + f_equal. unfold new_rows, outbox_rows. apply list_fmap_ext. intros i n _. destruct Hn as [-> _].
      unfold counter_after, last_of. f_equal; [lia|]. rewrite (wo_last t w Hw). lia.
    + rewrite Hn. cbn. by rewrite app_nil_r.
  - intros p. rewrite Hc. unfold count_of, last_of. cbn. destruct numbered as [[top now]|]; cbn in *.
    + destruct Hn as [-> _]. rewrite lookup_fmap. case_decide as Hd.
      * subst p. rewrite lookup_insert_eq. done.
      * rewrite lookup_insert_ne by done. by destruct (t_counters t !! p).
    + rewrite Hn, lookup_fmap. cbn. case_decide; [rewrite N.add_0_r|]; by destruct (t_counters t !! p).
  - intros p. rewrite Hpr. unfold pruned_of. cbn. destruct numbered as [[top now]|]; cbn; [|done].
    rewrite !lookup_fmap. destruct (decide (w_principal w = p)) as [<-|].
    + rewrite lookup_insert_eq. by destruct (t_counters t !! w_principal w).
    + by rewrite lookup_insert_ne.
  - exact Hst.
  - rewrite Hord. by destruct numbered as [[]|].
Qed.

Lemma append_commits t id seen events row w numbered :
  tables_ok t -> t_runs t !! id = Some row -> event_rows events = Ok (w_rows w) ->
  w = mkWrite None id (w_rows w) (row_owner row) (last_seq t id) ->
  ended t id = false -> moved seen (last_seq t id) = false -> numbered_ok t w numbered ->
  exists s', mem_runs (contents t) (MAppend id seen events (from_option snd 0%Z numbered)) = (Ok (MReply (RAppend Appended)), s') /\
    same s' (contents (commit t w numbered)).
Proof.
  intros Hok Hrow Hev Ew He Hm Hn. destruct (event_rows_Ok _ _ Hev) as (Hone & Hbodies & Hlen & Hterm).
  assert (write_ok t w) as Hw.
  { rewrite Ew. split; cbn; [by eexists|by apply last_seq_length|]. by rewrite Ew in Hterm. }
  cbn [mem_runs]. unfold Store.append_checked. rewrite Hone. unfold lock_write. cbn [runs contents poisoned free].
  assert (guarded (runs (contents t)) !! id = Some (run_of t id row)) as Hg.
  { change (get_run (contents t) id = Some (run_of t id row)). by rewrite get_run_contents, Hrow. }
  unfold contents in Hg at 1. cbn in Hg. cbn [guarded free]. rewrite Hg.
  rewrite <-(ended_iff t id row Hok), He.
  assert (match seen with Some n => negb (n =? length (sr_events (run_of t id row)))%nat | None => false end = false) as ->.
  { revert Hm. unfold moved. destruct seen as [n|]; [|done]. rewrite negb_false_iff, andb_true_iff, N.eqb_eq.
    rewrite last_seq_length by done. intros [_ Hnl]. apply negb_false_iff, Nat.eqb_eq. cbn. rewrite length_fmap. lia. }
  unfold number, lock_write. cbn. eexists. split; [reflexivity|].
  assert (w_id w = id) as Hid by (by rewrite Ew). assert (w_principal w = row_owner row) as Hp by (by rewrite Ew).
  assert (principal (owner (rr_spec row)) = w_principal w) as Ho by (by rewrite Hp, (to_owner t Hok id row Hrow)).
  apply (same_commit t w numbered _ (mkStoredRun (rr_spec row) ((ev_body <$> events_of t id) ++ events))); try done.
  - rewrite Hid, get_run_contents.
    assert (t_runs (commit t w numbered) = t_runs t) as -> by (rewrite Ew; by destruct numbered as [[]|]).
    rewrite Hrow. cbn. unfold run_of. rewrite events_of_commit, Hid, decide_True, fmap_app by done.
    destruct (number_rows_spec id (w_last w) (w_rows w)) as (_ & -> & _). by rewrite Hbodies.
  - cbn. rewrite Hid. done.
  - rewrite Ew. by destruct numbered as [[]|].
  - cbn. rewrite Ho, Hid, Hlen, length_fmap. unfold count_of, last_of. cbn. rewrite lookup_fmap.
    by destruct (t_counters t !! _).
  - intros p. cbn. unfold count_of. cbn. rewrite Ho, Hlen. unfold last_of. case_decide as Hd.
    + subst p. rewrite lookup_insert_eq, lookup_fmap. cbn. destruct (t_counters t !! _); cbn; lia.
    + rewrite lookup_insert_ne, lookup_fmap by done. by destruct (t_counters t !! p).
Qed.

Lemma put_run_commits t run row w n numbered :
  tables_ok t -> t_runs t !! run_id (sr_spec run) = None -> event_rows (sr_events run) = Ok (w_rows w) ->
  w = mkWrite (Some row) (run_id (sr_spec run)) (w_rows w) (principal (owner (sr_spec run))) 0 ->
  rr_spec row = sr_spec run -> row_owner row = principal (owner (sr_spec run)) ->
  rr_stored_seq row = Some n -> (1 <= n)%N -> numbered_ok t w numbered ->
  exists s', mem_runs (contents t) (MPutRun run (from_option snd 0%Z numbered) n) = (Ok (MReply (RPutRun RunStored)), s') /\
    same s' (contents (commit t w numbered)).
Proof.
  intros Hok Hrow Hev Ew Hspec Howner Hseq Hpos Hn. destruct (event_rows_Ok _ _ Hev) as (Hone & Hbodies & Hlen & Hterm).
  set (id := run_id (sr_spec run)) in *. pose proof (to_orphans t Hok id Hrow) as Hnone.
  assert (w_id w = id) as Hid by (by rewrite Ew).
  assert (w_principal w = principal (owner (sr_spec run))) as Hp by (by rewrite Ew).
  assert (write_ok t w) as Hw.
  { rewrite Ew. split; cbn; [by rewrite Howner, Hspec|by rewrite Hnone|]. by rewrite Ew in Hterm. }
  cbn [mem_runs]. unfold drawing, put_run. rewrite Hone. unfold lock_write at 1.
  cbn [runs contents poisoned free set_order].
  assert (guarded (runs (contents t)) !! id = None) as Hg.
  { change (get_run (contents t) id = None). by rewrite get_run_contents, Hrow. }
  unfold contents in Hg at 1. cbn in Hg. cbn [guarded free]. fold id. rewrite Hg.
  unfold number, lock_write. cbn. eexists. split; [reflexivity|].
  apply (same_commit t w numbered _ run); try done.
  - rewrite Hid, get_run_contents.
    assert (t_runs (commit t w numbered) = <[id := row]> (t_runs t)) as -> by (rewrite Ew; by destruct numbered as [[]|]).
    rewrite lookup_insert_eq. cbn. unfold run_of. rewrite events_of_commit, Hid, decide_True, Hnone by done. cbn.
    destruct (number_rows_spec id (w_last w) (w_rows w)) as (_ & -> & _). rewrite Hbodies, Hspec. by destruct run.
  - cbn. rewrite Hid. done.
  - change (free (<[id := (n - 1 + 1)%N]> (omap rr_stored_seq (t_runs t))) =
      free (omap rr_stored_seq (t_runs (commit t w numbered)))).
    assert (t_runs (commit t w numbered) = <[id := row]> (t_runs t)) as -> by (rewrite Ew; by destruct numbered as [[]|]).
    rewrite omap_insert_Some with (y := n) by done. by rewrite N.sub_add.
  - cbn. rewrite Hp, Hid, Hlen, Hnone. unfold count_of, last_of. cbn. rewrite lookup_fmap. by destruct (t_counters t !! _).
  - intros p. cbn. unfold count_of. cbn. rewrite Hp, Hlen. unfold last_of. case_decide as Hd.
    + subst p. rewrite lookup_insert_eq, lookup_fmap. cbn. destruct (t_counters t !! _); cbn; lia.
    + rewrite lookup_insert_ne, lookup_fmap by done. by destruct (t_counters t !! p).
Qed.

(** ** Statements of their own *)

(** What a prune does at its end: all the cut says goes. *)
Definition delete_through (t : Tables) (through : gmap Principal N) : N * Tables :=
  let rows := List.filter (fun row => negb (in_cut through row)) (t_outbox t) in
  (N.of_nat (length (t_outbox t) - length rows),
   mkTables (t_agents t) (t_runs t) (t_run_events t)
     (map_imap (fun p c => Some (match through !! p with
                                 | Some n => mkCounterRow (co_last c) (N.max (co_pruned c) n)
                                 | None => c
                                 end)) (t_counters t))
     rows (t_artifacts t) (t_stops t) (gol_order t)).

(** Every principal of the cut has a counter, which is past the cut. *)
Definition cut_ok (t : Tables) (through : gmap Principal N) : Prop :=
  forall p n, through !! p = Some n -> is_Some (t_counters t !! p) /\ (n <= last_of t p)%N.

Lemma cut_is_prune_through t before : cut t before = prune_through (t_outbox t) before.
Proof. done. Qed.

Lemma cut_has_counters t before : tables_ok t -> cut_ok t (cut t before).
Proof.
  intros Hok p n Hp. rewrite cut_is_prune_through in Hp.
  apply prune_through_row in Hp as (row & Hrow & <- & <-).
  destruct (to_counted t Hok row Hrow) as (_ & _ & c & Hc & Hl). unfold last_of. rewrite Hc. by split; [eexists|].
Qed.

(** The rows the cut names are locked, or to be, and no others are. *)
Record cutting_ok (t : Tables) (through : gmap Principal N) (locks : list RowLock) : Prop := mkCuttingOk {
  cu_cut : cut_ok t through;
  cu_counters p : is_Some (through !! p) -> LCounter p ∈ locks;
  cu_rows row : row ∈ t_outbox t -> in_cut through row = true -> LEntry (row_principal row) (row_seq row) ∈ locks;
  cu_named p n : LEntry p n ∈ locks -> exists m, through !! p = Some m /\ (n <= m)%N;
}.

Lemma cut_rows_ok t before : tables_ok t -> cutting_ok t (cut t before) (cut_rows t (cut t before)).
Proof.
  intros Hok. pose proof (cut_has_counters t before Hok) as Hc. set (through := cut t before) in *. split; [done|..].
  - intros p [n Hp]. apply elem_of_app. right. apply list_elem_of_fmap. exists p. split; [done|].
    apply list_elem_of_In, List.filter_In. rewrite <-list_elem_of_In. destruct (Hc p n Hp) as [Hco _].
    split; [|by apply bool_decide_eq_true]. apply list_elem_of_fmap. exists (p, n). split; [done|].
    by apply elem_of_map_to_list.
  - intros row Hrow Hin. apply elem_of_app. left. apply list_elem_of_fmap. exists row. split; [done|].
    apply list_elem_of_In, List.filter_In. by rewrite <-list_elem_of_In.
  - intros p n [Hp|Hp]%elem_of_app; apply list_elem_of_fmap in Hp as (x & Hx & Hin); [|done].
    apply list_elem_of_In, List.filter_In in Hin as [_ Hin]. injection Hx as -> ->. revert Hin. unfold in_cut.
    destruct (through !! row_principal x) as [m|]; [|done]. intros Hle%N.leb_le. by exists m.
Qed.

Lemma cutting_perm t through locks locks' :
  locks' ≡ₚ locks -> cutting_ok t through locks -> cutting_ok t through locks'.
Proof. intros E [H1 H2 H3 H4]. split; [done|..]; intros *; rewrite E; auto. Qed.

(** With every row locked, the deletions of the cut are those of the locks. *)
Lemma delete_held_through t through held :
  cutting_ok t through held -> delete_held t through held = delete_through t through.
Proof.
  intros [Hcut Hc Hr Hn]. unfold delete_held, delete_through.
  assert (List.filter (fun row => negb (bool_decide (LEntry (row_principal row) (row_seq row) ∈ held))) (t_outbox t) =
    List.filter (fun row => negb (in_cut through row)) (t_outbox t)) as ->.
  { apply List.filter_ext_in. intros row Hrow%list_elem_of_In. f_equal. apply eq_true_iff_eq. rewrite bool_decide_eq_true.
    split; [|by apply Hr]. intros (m & Hm & Hle)%Hn. unfold in_cut. rewrite Hm. by apply N.leb_le. }
  f_equal. f_equal. apply map_eq. intros p. rewrite !map_lookup_imap.
  destruct (t_counters t !! p) as [c|]; [|done]. cbn. destruct (through !! p) as [n|] eqn:E; [|done].
  rewrite bool_decide_true; [done|]. apply Hc. by eexists.
Qed.

(** A row a prune's statement finds gone is one it need not lock. *)
Lemma cutting_locks t through lock todo held :
  cutting_ok t through ((lock :: todo) ++ held) ->
  cutting_ok t through (todo ++ if row_there t lock then lock :: held else held).
Proof.
  intros [Hcut Hc Hr Hn]. split; [done|..].
  - intros p Hp. specialize (Hc p Hp). destruct (row_there t lock) eqn:E; [set_solver|].
    assert (lock <> LCounter p) as Hne; [|set_solver].
    intros ->. simpl in E. apply bool_decide_eq_false in E. destruct Hp as [n Hp]. by destruct (Hcut p n Hp).
  - intros row Hrow Hin. specialize (Hr row Hrow Hin). destruct (row_there t lock) eqn:E; [set_solver|].
    assert (lock <> LEntry (row_principal row) (row_seq row)) as Hne; [|set_solver].
    intros ->. simpl in E. apply existsb_false_Forall in E. rewrite Forall_forall in E. specialize (E row Hrow).
    simpl in E. by rewrite bool_decide_true, N.eqb_refl in E.
  - intros p n Hin. apply Hn. destruct (row_there t lock); set_solver.
Qed.

Lemma delete_through_ok t through : tables_ok t -> cut_ok t through ->
  exists s', prune_to through (contents t) = ((delete_through t through).1, s') /\
    same s' (contents (delete_through t through).2) /\ tables_ok (delete_through t through).2.
Proof.
  intros Hok Hcut. unfold prune_to, delete_through. cbn [fst snd].
  set (rows := List.filter _ (t_outbox t)).
  assert (rows = filter (fun row => Is_true (kept_row through row)) (t_outbox t)) as Er.
  { apply filter_bool. intros row _. unfold kept_row, in_cut. destruct (through !! row_principal row); [|done].
    by rewrite Is_true_true, N.ltb_antisym. }
  cbn [contents outbox lock_read guarded free ob_rows ob_counts ob_pruned]. rewrite <-Er.
  eexists. split; [reflexivity|]. split.
  - split; try done; intros p; unfold count_of, pruned_of; cbn.
    + rewrite !lookup_fmap, map_lookup_imap. destruct (t_counters t !! p), (through !! p); done.
    + rewrite lookup_union_with, !lookup_fmap, map_lookup_imap.
      destruct (through !! p) as [n|] eqn:Ht.
      * destruct (Hcut p n Ht) as [[c Hc] _]. rewrite Hc. cbn. by rewrite ?Ht.
      * destruct (t_counters t !! p); cbn; by rewrite ?Ht.
  - destruct Hok as [H1 H2 H3 H4 H5 H6 H7 H8]. split; try done.
    + intros p. cbn. rewrite Er, list_filter_filter.
      assert (forall k : list OutboxRow,
        filter (fun row => row_principal row = p /\ Is_true (kept_row through row)) k =
        filter (fun row => Is_true (kept_row through row)) (filter (fun row => row_principal row = p) k)) as ->
        by (intros k; rewrite list_filter_filter; apply list_filter_iff; naive_solver).
      apply sorted_filter_by, H6.
    + intros row. cbn. rewrite Er. intros [_ Hrow]%list_elem_of_filter. destruct (H7 row Hrow) as (? & ? & c & Hc & Hle).
      split; [done|]. split; [done|]. rewrite map_lookup_imap, Hc. cbn. destruct (through !! _); by eexists.
    + intros p c. cbn. rewrite map_lookup_imap. destruct (t_counters t !! p) as [c'|] eqn:Hc; [|done]. cbn.
      intros [= <-]. destruct (through !! p); cbn; by eapply H8.
Qed.

(** Tables that differ in what [tables_ok] does not read. *)
Lemma tables_ok_frame t t' :
  t_runs t' = t_runs t -> t_run_events t' = t_run_events t -> t_counters t' = t_counters t ->
  t_outbox t' = t_outbox t -> tables_ok t -> tables_ok t'.
Proof.
  intros Hr He Hc Ho [H1 H2 H3 H4 H5 H6 H7 H8]. split; unfold events_of in *; rewrite ?Hr, ?He, ?Hc, ?Ho; done.
Qed.

Lemma upsert_agent_ok t agent :
  exists s', put_agent (contents t) agent = (Ok (upsert_agent t agent).1, s') /\
    same s' (contents (upsert_agent t agent).2).
Proof.
  unfold put_agent, upsert_agent, lock_write. cbn.
  destruct (t_agents t !! am_id (sa_manifest agent)) as [kept|]; [|by eexists].
  case_bool_decide as Hp.
  - apply owner_is_principal in Hp as Hi. rewrite Hi. cbn. eexists. split; [reflexivity|]. split; try done. cbn.
    f_equal. f_equal. unfold principal in Hp. injection Hp as -> ->. by destruct agent as [m []].
  - destruct (owner_is (sa_owner kept) (sa_owner agent)) eqn:Hi; [by apply owner_is_principal in Hi|]. by eexists.
Qed.

(** ** Stops, and the whole store *)

Section Stands.
Context `{UuidCrate}.

(** The rows of [stops] are the stops: one for each principal and scope. *)
Record stops_are (t : Tables) (stops : Stops) : Prop := mkStopsAre {
  sa_stop p scope n : (p, scope, n) ∈ lock_read stops <-> t_stops t !! (p, kind_and_key scope) = Some n;
  sa_scope key n : t_stops t !! key = Some n -> exists p scope, key = (p, kind_and_key scope);
}.

Lemma kind_and_key_inj a b : kind_and_key a = kind_and_key b -> a = b.
Proof.
  destruct a, b; simpl; intros E; try discriminate E; [| |done]; injection E; intros Hk; [|by subst].
  f_equal. by apply id_display_inj.
Qed.

(** A stop put in place of one of its scope. *)
Lemma stops_are_insert t t' stops o scope n b :
  stops_are t stops -> t_stops t' = <[(principal o, kind_and_key scope) := n]> (t_stops t) ->
  stops_are t'
    (mkLock (List.filter (fun e => negb (bool_decide (e.1.1 = principal o) && bool_decide (e.1.2 = scope)))
               (lock_read stops) ++ [(principal o, scope, n)]) b).
Proof.
  intros Hs Et. set (key := (principal o, kind_and_key scope)) in *. split; rewrite Et.
  - intros p scope' m. unfold lock_read at 1. cbn [guarded]. rewrite elem_of_app, list_elem_of_singleton, list_elem_of_In, List.filter_In,
      <-list_elem_of_In. cbn [fst snd]. rewrite negb_true_iff, andb_false_iff, !bool_decide_eq_false, (sa_stop t stops Hs).
    destruct (decide (key = (p, kind_and_key scope'))) as [E|E].
    + rewrite <-E, lookup_insert_eq. injection E as Hp Hk. apply kind_and_key_inj in Hk. subst p scope'. naive_solver.
    + rewrite lookup_insert_ne by done. split; [intros [[? _]|[= -> -> ->]]; [done|by destruct E]|].
      intros Hm. left. split; [done|]. destruct (decide (p = principal o)) as [->|]; [right|by left]. intros ->. by destruct E.
  - intros key' m. destruct (decide (key = key')) as [<-|E]; [intros _; by exists (principal o), scope|].
    rewrite lookup_insert_ne by done. apply (sa_scope t stops Hs).
Qed.

(** [s] is an in-memory store the tables stand for. *)
Record stands (s : StopsStore) (t : Tables) : Prop := mkStands {
  sd_runs : same (ss_store s) (contents t);
  sd_stops : stops_are t (ss_stops s);
  sd_open : poisoned (ss_stops s) = false;
}.

(** The in-memory store is called one call at a time, and answers so. *)
Fixpoint replays (s : StopsStore) (did : list (MemOp * MemReply)) (s' : StopsStore) : Prop :=
  match did with
  | [] => s' = s
  | (op, r) :: did => exists s1, mem s op = (Ok r, s1) /\ replays s1 did s'
  end.

Lemma replays_app s did1 s1 did2 s2 : replays s did1 s1 -> replays s1 did2 s2 -> replays s (did1 ++ did2) s2.
Proof.
  revert s. induction did1 as [|[op r] did1 IH]; simpl; intros s; [by intros ->|].
  intros (u & Hm & Hu) H2. exists u. split; [done|]. by apply IH.
Qed.

(** The calls take a store [t] stands for to one [t'] stands for. *)
Definition leads (t : Tables) (did : list (MemOp * MemReply)) (t' : Tables) : Prop :=
  forall s, stands s t -> exists s', replays s did s' /\ stands s' t'.

Lemma stops_are_frame t t' stops : t_stops t' = t_stops t -> stops_are t stops -> stops_are t' stops.
Proof. intros E []. split; by rewrite E. Qed.

Lemma leads_nil t t' : same (contents t) (contents t') -> t_stops t' = t_stops t -> leads t [] t'.
Proof. intros Hs E s [H1 H2 H3]. exists s. split; [done|]. split; [by etrans|by eapply stops_are_frame|done]. Qed.

Lemma leads_one t op r s1 t' :
  mem_runs (contents t) op = (Ok r, s1) -> same s1 (contents t') -> t_stops t' = t_stops t ->
  leads t [(MRuns op, r)] t'.
Proof.
  intros Hm Hs E s [H1 H2 H3]. pose proof (mem_same _ _ op H1) as [Hr Hu]. rewrite Hm in Hr, Hu. simpl in Hr, Hu.
  destruct (mem_runs (ss_store s) op) as [r' u] eqn:Eu. simpl in *. subst r'.
  exists (mkStopsStore u (ss_stops s)). split.
  - exists (mkStopsStore u (ss_stops s)). by rewrite Eu.
  - split; simpl; [by etrans|by eapply stops_are_frame|done].
Qed.

Lemma leads_app t did t1 did' t' : leads t did t1 -> leads t1 did' t' -> leads t (did ++ did') t'.
Proof.
  intros H1 H2 s (s1 & Hr1 & (s' & Hr2 & Hs)%H2)%H1. exists s'. split; [by eapply replays_app|done].
Qed.

Lemma leads_draw t : leads t [(MRuns MDraw, MDrawn (nextval t).1)] (nextval t).2.
Proof. by eapply leads_one. Qed.

Lemma leads_stop t o scope n : (1 <= n)%N ->
  leads t [(MPutStop o scope n, MReply RUnit)]
    (set_t_stops t (<[(principal o, kind_and_key scope) := n]> (t_stops t))).
Proof.
  intros Hn s [H1 H2 H3]. cbn [replays mem]. unfold put_stop, lock_write. cbn [ss_stops]. rewrite H3.
  cbn [ss_store order set_order]. rewrite N.sub_add by done. eexists. split; [by eexists|].
  split; [by destruct H1| |done]. by apply (stops_are_insert t).
Qed.

(** [put_stop]'s statement, once its number is drawn. *)
Lemma leads_upsert_stop t o scope n : (1 <= n)%N ->
  exists draws m, leads t (draws ++ [(MPutStop o scope m, MReply RUnit)]) (upsert_stop t o scope n) /\
    (draws = [] /\ m = n \/ draws = [(MRuns MDraw, MDrawn m)]).
Proof.
  intros Hn. unfold upsert_stop. destruct (t_stops t !! _) eqn:E.
  - exists [(MRuns MDraw, MDrawn (nextval t).1)], (nextval t).1. split; [|by right].
    eapply leads_app; [apply leads_draw|]. apply leads_stop. simpl. lia.
  - exists [], n. split; [|by left]. by apply leads_stop.
Qed.

(** ** What holds of a call under way *)

(** The append's transaction has the row of a run that has not ended. *)
Definition append_ready (t : Tables) (id : RunId) (seen : option nat) (events : list Event) (w : Write) : Prop :=
  exists row, t_runs t !! id = Some row /\ event_rows events = Ok (w_rows w) /\ ended t id = false /\
    moved seen (last_seq t id) = false /\ w = mkWrite None id (w_rows w) (row_owner row) (last_seq t id).

(** The insert's transaction has the key of a run that is not stored. *)
Definition put_ready (t : Tables) (run : StoredRun) (w : Write) : Prop :=
  exists row, t_runs t !! run_id (sr_spec run) = None /\ event_rows (sr_events run) = Ok (w_rows w) /\
    rr_spec row = sr_spec run /\ row_owner row = principal (owner (sr_spec run)) /\
    (exists n, rr_stored_seq row = Some n /\ (1 <= n)%N) /\
    w = mkWrite (Some row) (run_id (sr_spec run)) (w_rows w) (principal (owner (sr_spec run))) 0.

Definition ready (t : Tables) (call : Call) (w : Write) : Prop :=
  match call with
  | CAppend id seen events => append_ready t id seen events w
  | CPutRun run => put_ready t run w
  | _ => False
  end.

Definition pc_ok (t : Tables) (s : Call * Pc) : Prop :=
  let '(call, pc) := s in
  match pc with
  | Begin => True
  | Locked rows p =>
      match call with
      | CAppend id _ events =>
          event_rows events = Ok rows /\ exists row, t_runs t !! id = Some row /\ p = row_owner row
      | _ => False
      end
  | Unended rows p =>
      match call with
      | CAppend id _ events =>
          event_rows events = Ok rows /\ ended t id = false /\ exists row, t_runs t !! id = Some row /\ p = row_owner row
      | _ => False
      end
  | Drawn n _ rows =>
      (1 <= n)%N /\
      match call with
      | CPutRun run => event_rows (sr_events run) = Ok rows
      | CPutStop _ _ => True
      | _ => False
      end
  | Insert w => ready t call w
  | Number w => ready t call w /\ fits w
  | Commit w numbered => ready t call w /\ fits w /\ numbered_ok t w numbered
  | Existing => match call with CPutRun _ => True | _ => False end
  | Cutting through todo held => match call with CPrune _ => cutting_ok t through (todo ++ held) | _ => False end
  | Notify _ _ | Finished _ => True
  end.

(** What other sessions may do to what a call has. *)
Definition untouched (t t' : Tables) (s : Call * Pc) : Prop :=
  (forall id, has_run s = Some id -> t_runs t' !! id = t_runs t !! id /\ events_of t' id = events_of t id) /\
  (forall p, LCounter p ∈ has_rows s -> last_of t' p = last_of t p) /\
  (forall p, is_Some (t_counters t !! p) -> is_Some (t_counters t' !! p)) /\
  (forall p, (last_of t p <= last_of t' p)%N) /\
  (forall row, row ∈ t_outbox t' -> row ∈ t_outbox t \/ (last_of t (row_principal row) < row_seq row)%N).

Lemma ready_untouched t t' call w :
  t_runs t' !! w_id w = t_runs t !! w_id w -> events_of t' (w_id w) = events_of t (w_id w) ->
  ready t call w -> ready t' call w.
Proof.
  intros Hr He. destruct call; try done; simpl.
  - intros (row & H1 & H2 & H3 & H4 & H5). assert (w_id w = id) as Hid by (by rewrite H5). rewrite Hid in *.
    exists row. unfold append_ready, ended, last_seq in *. rewrite Hr, He. by split_and!.
  - intros (row & H1 & H2 & H3 & H4 & Hn & H5). assert (w_id w = run_id (sr_spec run)) as Hid by (by rewrite H5).
    rewrite Hid in *. exists row. rewrite Hr. by split_and!.
Qed.

Lemma pc_ok_untouched t t' s : untouched t t' s -> pc_ok t s -> pc_ok t' s.
Proof.
  destruct s as [call pc]. intros (Hr & Hc & Hcount & Hlast & Hnew). destruct pc; try done; simpl.
  - destruct call; try done. destruct (Hr id eq_refl) as [-> _]. done.
  - destruct call; try done. destruct (Hr id eq_refl) as [-> He]. unfold ended. by rewrite He.
  - destruct (Hr (w_id w) eq_refl). by apply ready_untouched.
  - destruct (Hr (w_id w) eq_refl). intros [? ?]. split; [by eapply ready_untouched|done].
  - destruct (Hr (w_id w) eq_refl). intros (? & ? & Hn). split; [by eapply ready_untouched|]. split; [done|].
    destruct numbered as [[top now]|]; [|done]. simpl in *. unfold counter_after in *.
    specialize (Hc (w_principal w) ltac:(by left)). unfold last_of in Hc. by rewrite Hc.
  - destruct call; try done. intros [Hcut Hk Hrows Hn]. split; [|done| |done].
    + intros p n Hp. destruct (Hcut p n Hp) as [? ?]. split; [by apply Hcount|]. by etrans.
    + intros row Hrow Hin. destruct (Hnew row Hrow) as [Hold|Hlt]; [by apply Hrows|]. exfalso. revert Hin.
      unfold in_cut. destruct (through !! row_principal row) as [n|] eqn:E; [|done]. intros Hle%N.leb_le.
      destruct (Hcut _ _ E) as [_ ?]. lia.
Qed.

Lemma ready_write t call w : tables_ok t -> ready t call w -> write_ok t w.
Proof.
  intros Hok. destruct call; try done; simpl.
  - intros (row & H1 & H2 & H3 & H4 & H5). destruct (event_rows_Ok _ _ H2) as (_ & _ & _ & Ht).
    rewrite H5. split; cbn; [by eexists|by apply last_seq_length|done].
  - intros (row & H1 & H2 & H3 & H4 & Hn & H5). destruct (event_rows_Ok _ _ H2) as (_ & _ & _ & Ht).
    rewrite H5. split; cbn; [by rewrite H4, H3|by rewrite (to_orphans t Hok _ H1)|done].
Qed.

(** ** What a call's replies say it did *)

(** The in-memory calls of a call that answers [r]: a number is drawn before
    the insert it is for, and drawn again for a stop of a scope that has one. *)
Definition complete (call : Call) (r : Reply) (did : list (MemOp * MemReply)) : Prop :=
  match call with
  | CAppend id seen events => exists now, did = [(MRuns (MAppend id seen events now), MReply r)]
  | CPutRun run => exists now n, did = [(MRuns MDraw, MDrawn n); (MRuns (MPutRun run now n), MReply r)]
  | CPutAgent agent => did = [(MRuns (MPutAgent agent), MReply r)]
  | CPutArtifact a => did = [(MRuns (MPutArtifact a), MReply r)]
  | CPrune before =>
      exists through, did = [(MRuns (MCut before), MCutReply through); (MRuns (MPruneTo through), MReply r)]
  | CPutStop o scope =>
      exists n, did = [(MRuns MDraw, MDrawn n); (MPutStop o scope n, MReply r)] \/
        exists m, did = [(MRuns MDraw, MDrawn n); (MRuns MDraw, MDrawn m); (MPutStop o scope m, MReply r)]
  | CQuery q => did = [(MRuns (MQuery q), MReply r)]
  end.

(** Those of a call that failed: the first of them, or all. *)
Definition partial (call : Call) (did : list (MemOp * MemReply)) : Prop :=
  exists r whole, complete call r whole /\ did `prefix_of` whole.

(** What the call's statements so far did. *)
Definition told (call : Call) (pc : Pc) (did : list (MemOp * MemReply)) : Prop :=
  match pc with
  | Drawn n _ _ =>
      match call with CPutRun _ | CPutStop _ _ => did = [(MRuns MDraw, MDrawn n)] | _ => False end
  | Insert w | Number w | Commit w _ =>
      match call with
      | CPutRun _ => exists n, (w_row w ≫= rr_stored_seq) = Some n /\ did = [(MRuns MDraw, MDrawn n)]
      | _ => did = []
      end
  | Existing => complete call (RPutRun RunExisted) did
  | Cutting through _ _ =>
      match call with CPrune before => did = [(MRuns (MCut before), MCutReply through)] | _ => False end
  | Notify _ r => complete call r did
  | Finished (Ok r) => complete call r did
  | Finished (Err _) => partial call did
  | _ => did = []
  end.

Lemma partial_of_complete call r did : complete call r did -> partial call did.
Proof. intros Hc. by exists r, did. Qed.

Lemma partial_nil call : partial call [].
Proof.
  assert (exists r whole, complete call r whole) as (r & whole & Hw).
  { exists RUnit. destruct call; eexists; simpl; try (by exists 0%Z); try (by exists ∅); try (by exists 0%Z, 0%N); try done.
    exists 0%N. by left. }
  exists r, whole. split; [done|apply prefix_nil].
Qed.

(** A number was drawn for an insert that did not come about. *)
Lemma partial_drawn call n : match call with CPutRun _ | CPutStop _ _ => True | _ => False end ->
  partial call [(MRuns MDraw, MDrawn n)].
Proof.
  destruct call; try done; intros _; exists RUnit; eexists; (split; [|by eapply prefix_app_r]).
  - by exists 0%Z, n.
  - exists n. by left.
Qed.

Lemma told_partial call pc did : told call pc did -> partial call did.
Proof.
  destruct pc as [| | |n stamp rows|w|w|w numbered| |through todo held|p r|[r|e]]; simpl;
    try (intros ->; apply partial_nil); try done; try apply partial_of_complete.
  - destruct call; try done; intros ->; by apply partial_drawn.
  - destruct call; try (intros ->; apply partial_nil). intros (n & _ & ->). by apply partial_drawn.
  - destruct call; try (intros ->; apply partial_nil). intros (n & _ & ->). by apply partial_drawn.
  - destruct call; try (intros ->; apply partial_nil). intros (n & _ & ->). by apply partial_drawn.
  - destruct call; try done. intros ->.
    exists RUnit, [(MRuns (MCut before), MCutReply through); (MRuns (MPruneTo through), MReply RUnit)].
    split; [by eexists|]. by exists [(MRuns (MPruneTo through), MReply RUnit)].
Qed.

End Stands.

(** ** What a step does *)

Section Steps.
Context `{UuidCrate} (insert_error : StoreError) (scan : nat -> list RowLock -> list RowLock).
Hypothesis scan_visits : forall i locks, scan i locks ≡ₚ locks.

(** Session [i] goes to [pc'] and the tables to [t'], doing [did]. *)
Record effect (i : nat) (c : Cluster) (call : Call) (pc : Pc) (t' : Tables) (pc' : Pc)
    (did : list (MemOp * MemReply)) : Prop := mkEffect {
  ef_did : leads (cl_tables c) did t';
  ef_tables : tables_ok t';
  ef_pc : pc_ok t' (call, pc');
  ef_told past : told call pc past -> told call pc' (past ++ did);
  ef_run id : has_run (call, pc') = Some id -> has_run (call, pc) = Some id \/ run_taken i c id = false;
  ef_rows l : l ∈ has_rows (call, pc') -> l ∈ has_rows (call, pc) \/ row_taken i c l = false;
  ef_others s : (forall id, has_run s = Some id -> has_run (call, pc) <> Some id) ->
    (forall l, l ∈ has_rows s -> l ∉ has_rows (call, pc)) -> untouched (cl_tables c) t' s;
}.

(** Only rows, numbers and what no call has differ. *)
Lemma untouched_frame t t' s :
  t_runs t' = t_runs t -> t_run_events t' = t_run_events t -> t_counters t' = t_counters t ->
  t_outbox t' = t_outbox t -> untouched t t' s.
Proof.
  intros Hr He Hc Ho. unfold untouched, last_of, events_of. rewrite Hr, He, Hc, Ho. split_and!; try done. by left.
Qed.

Lemma untouched_refl t s : untouched t t s.
Proof. by apply untouched_frame. Qed.

(** A statement that writes nothing. *)
Lemma effect_read i c call pc pc' did :
  tables_ok (cl_tables c) -> leads (cl_tables c) did (cl_tables c) ->
  pc_ok (cl_tables c) (call, pc') -> (forall past, told call pc past -> told call pc' (past ++ did)) ->
  (forall id, has_run (call, pc') = Some id -> has_run (call, pc) = Some id \/ run_taken i c id = false) ->
  (forall l, l ∈ has_rows (call, pc') -> l ∈ has_rows (call, pc) \/ row_taken i c l = false) ->
  effect i c call pc (cl_tables c) pc' did.
Proof. intros. split; try done. intros s _ _. apply untouched_refl. Qed.

(** A call that fails, its transaction undone. *)
Lemma effect_fail i c call pc e : tables_ok (cl_tables c) ->
  effect i c call pc (cl_tables c) (Finished (Err e)) [].
Proof.
  intros Hok. apply effect_read; try done.
  - by apply leads_nil.
  - intros past Ht. rewrite app_nil_r. by eapply told_partial.
  - intros l Hl. by apply not_elem_of_nil in Hl.
Qed.

(** A call whose in-memory calls answer. *)
Lemma leads_read t op r : mem_runs (contents t) op = (Ok r, contents t) -> leads t [(MRuns op, r)] t.
Proof. intros Hm. by eapply leads_one. Qed.

Lemma mem_append_missing t id seen events now : check_one_terminal events = Ok tt -> t_runs t !! id = None ->
  mem_runs (contents t) (MAppend id seen events now) = (Ok (MReply (RAppend Missing)), contents t).
Proof.
  intros Hone Hrow. cbn [mem_runs]. unfold Store.append_checked, lock_write. rewrite Hone.
  cbn [runs contents free poisoned guarded]. rewrite map_lookup_imap, Hrow. done.
Qed.

Lemma mem_append_terminal t id seen events now row : tables_ok t -> check_one_terminal events = Ok tt ->
  t_runs t !! id = Some row -> ended t id = true ->
  mem_runs (contents t) (MAppend id seen events now) = (Ok (MReply (RAppend Terminal)), contents t).
Proof.
  intros Hok Hone Hrow He. cbn [mem_runs]. unfold Store.append_checked, lock_write. rewrite Hone.
  cbn [runs contents free poisoned guarded]. rewrite map_lookup_imap, Hrow. cbn [mbind option_bind].
  by rewrite <-(ended_iff t id row Hok), He.
Qed.

Lemma mem_append_moved t id seen events now row : tables_ok t -> check_one_terminal events = Ok tt ->
  t_runs t !! id = Some row -> ended t id = false -> moved seen (last_seq t id) = true ->
  mem_runs (contents t) (MAppend id seen events now) = (Ok (MReply (RAppend Moved)), contents t).
Proof.
  intros Hok Hone Hrow He Hm. cbn [mem_runs]. unfold Store.append_checked, lock_write. rewrite Hone.
  cbn [runs contents free poisoned guarded]. rewrite map_lookup_imap, Hrow. cbn [mbind option_bind].
  rewrite <-(ended_iff t id row Hok), He. revert Hm. unfold moved. destruct seen as [n|]; [|done].
  rewrite negb_true_iff, andb_false_iff, last_seq_length by done. intros Hm.
  assert ((n =? length (sr_events (run_of t id row)))%nat = false) as ->; [|done].
  cbn. rewrite length_fmap. apply Nat.eqb_neq. pose proof (to_events t Hok id) as Hl.
  destruct Hm as [Hm|Hm]; [apply Z.leb_gt in Hm; lia|apply N.eqb_neq in Hm; lia].
Qed.

Lemma put_run_existed t run now n row : check_one_terminal (sr_events run) = Ok tt ->
  t_runs t !! run_id (sr_spec run) = Some row ->
  mem_runs (contents t) (MPutRun run now n) = (Ok (MReply (RPutRun RunExisted)), contents t).
Proof.
  intros Hone Hrow. cbn [mem_runs]. unfold drawing, put_run, lock_write. rewrite Hone.
  cbn [runs contents free poisoned guarded set_order]. rewrite map_lookup_imap, Hrow. done.
Qed.

(** A call's step: the session's new place, and what it did. *)
Definition stepped (i : nat) (c : Cluster) (call : Call) (pc : Pc) (c' : Cluster) : Prop :=
  exists t' pc' did hints, c' = mkCluster t' (<[i := (call, pc')]> (cl_sessions c)) hints /\
    effect i c call pc t' pc' did.

Lemma stepped_goto i c call pc t' pc' did : effect i c call pc t' pc' did -> stepped i c call pc (goto i c t' call pc').
Proof. intros He. by exists t', pc', did, (cl_hints c). Qed.

Lemma stepped_fail i c call pc e : tables_ok (cl_tables c) ->
  stepped i c call pc (goto i c (cl_tables c) call (Finished (Err e))).
Proof. intros Hok. by eapply stepped_goto, effect_fail. Qed.

(** A call with nothing locked that is done in one in-memory call. *)
Lemma stepped_read i c call pc op r pc' :
  tables_ok (cl_tables c) -> mem_runs (contents (cl_tables c)) op = (Ok (MReply r), contents (cl_tables c)) ->
  (forall past, told call pc past -> told call pc' (past ++ [(MRuns op, MReply r)])) ->
  pc_ok (cl_tables c) (call, pc') -> has_run (call, pc') = None -> has_rows (call, pc') = [] ->
  stepped i c call pc (goto i c (cl_tables c) call pc').
Proof.
  intros Hok Hm Ht Hpc Hr Hc. eapply stepped_goto, effect_read; try done.
  - by apply leads_read.
  - intros id. by rewrite Hr.
  - intros l. rewrite Hc. intros Hl. by apply not_elem_of_nil in Hl.
Qed.

(** A statement of its own, which changes no row another call has. *)
Lemma stepped_single i c call pc fate did r t' :
  tables_ok (cl_tables c) -> tables_ok t' -> (forall s, untouched (cl_tables c) t' s) ->
  leads (cl_tables c) did t' ->
  (forall past, told call pc past -> complete call r (past ++ did)) ->
  stepped i c call pc (single i c call fate r t').
Proof.
  intros Hok Hok' Hu Hl Ht.
  assert (forall l pc', has_rows (call, Finished pc') = [] /\ (l ∈ has_rows (call, Finished pc') ->
    l ∈ has_rows (call, pc) \/ row_taken i c l = false)) as Hnone
    by (intros l pc'; split; [done|]; intros Hin; by apply not_elem_of_nil in Hin).
  destruct fate as [|e|e]; [| |]; simpl.
  - eapply stepped_goto. split; try done. intros l. apply Hnone.
  - by apply stepped_fail.
  - eapply stepped_goto. split; try done; [|intros l; apply Hnone].
    intros past Hp. eapply partial_of_complete. by apply Ht.
Qed.

(** A statement that has no row's lock after it. *)
Lemma effect_quiet i c call pc t' pc' did :
  tables_ok t' -> leads (cl_tables c) did t' -> pc_ok t' (call, pc') ->
  (forall past, told call pc past -> told call pc' (past ++ did)) ->
  (forall id, has_run (call, pc') = Some id -> has_run (call, pc) = Some id \/ run_taken i c id = false) ->
  has_rows (call, pc') = [] -> (forall s, untouched (cl_tables c) t' s) ->
  effect i c call pc t' pc' did.
Proof.
  intros H1 H2 H3 H4 H5 Hrows H6. split; try done. intros l. rewrite Hrows. intros Hl. by apply not_elem_of_nil in Hl.
Qed.

(** One the in-memory store does not see. *)
Lemma effect_silent i c call pc pc' :
  tables_ok (cl_tables c) -> pc_ok (cl_tables c) (call, pc') ->
  (forall past, told call pc past -> told call pc' past) ->
  (forall id, has_run (call, pc') = Some id -> has_run (call, pc) = Some id \/ run_taken i c id = false) ->
  (forall l, l ∈ has_rows (call, pc') -> l ∈ has_rows (call, pc) \/ row_taken i c l = false) ->
  effect i c call pc (cl_tables c) pc' [].
Proof.
  intros H1 H2 H3 H4 H5. apply effect_read; try done; [by apply leads_nil|]. intros past Hp. rewrite app_nil_r. auto.
Qed.

Lemma nextval_ok t : tables_ok t -> tables_ok (nextval t).2.
Proof. by apply tables_ok_frame. Qed.

Lemma upsert_stop_frame t o scope n :
  tables_ok t -> tables_ok (upsert_stop t o scope n) /\ forall s, untouched t (upsert_stop t o scope n) s.
Proof.
  intros Hok. unfold upsert_stop.
  destruct (t_stops t !! _); simpl; (split; [revert Hok; by apply tables_ok_frame|]); intros s; by apply untouched_frame.
Qed.

Lemma begin_stepped i fate now c call c' :
  tables_ok (cl_tables c) -> begin scan i fate now c call = Some c' -> stepped i c call Begin c'.
Proof.
  intros Hok. unfold begin. destruct call as [id seen events|run|agent|a|before|o scope|q].
  - destruct (event_rows events) as [rows|e] eqn:Hev; [|intros [= <-]; by apply stepped_fail].
    destruct fate as [|e|e]; [|intros [= <-]; by apply stepped_fail|intros [= <-]; by apply stepped_fail].
    destruct (event_rows_Ok _ _ Hev) as (Hone & _). destruct (t_runs (cl_tables c) !! id) as [row|] eqn:Hrow.
    + destruct (run_taken i c id) eqn:Ht; [done|]. intros [= <-]. eapply stepped_goto, effect_silent; try done.
      * simpl. eauto.
      * simpl. intros ? [= <-]. by right.
      * by left.
    + intros [= <-]. eapply (stepped_read _ _ _ _ (MAppend id seen events 0%Z) (RAppend Missing)); try done; [by apply mem_append_missing|].
      intros past ->. by exists 0%Z.
  - destruct (event_rows (sr_events run)) as [rows|e] eqn:Hev; [|intros [= <-]; by apply stepped_fail].
    destruct fate as [|e|e]; [|intros [= <-]; by apply stepped_fail|intros [= <-]; by apply stepped_fail].
    intros [= <-]. eapply stepped_goto, effect_quiet; [by apply nextval_ok|apply leads_draw|..]; try done.
    + simpl. split; [lia|done].
    + by intros past ->.
    + intros s. by apply untouched_frame.
  - destruct (upsert_agent (cl_tables c) agent) as [r t'] eqn:Eu. intros [= <-].
    pose proof (upsert_agent_ok (cl_tables c) agent) as (s' & Hm & Hs). rewrite Eu in Hm, Hs. simpl in Hm, Hs.
    assert (t' = set_t_agents (cl_tables c) (t_agents t') \/ t' = cl_tables c) as Ht'.
    { unfold upsert_agent in Eu. repeat case_match; injection Eu as <- <-; auto. }
    eapply (stepped_single _ _ _ _ _ [(MRuns (MPutAgent agent), MReply (RAgent r))]); try done.
    + destruct Ht' as [-> | ->]; [|done]. revert Hok. by apply tables_ok_frame.
    + intros s. destruct Ht' as [-> | ->]; by apply untouched_frame.
    + eapply leads_one; [cbn [mem_runs]; by rewrite Hm|done|]. by destruct Ht' as [-> | ->].
    + by intros past ->.
  - intros [= <-]. eapply (stepped_single _ _ _ _ _ [(MRuns (MPutArtifact a), MReply RUnit)]); try done.
    + revert Hok. by apply tables_ok_frame.
    + intros s. by apply untouched_frame.
    + by eapply leads_one.
    + by intros past ->.
  - destruct fate as [|e|e]; [|intros [= <-]; by apply stepped_fail|intros [= <-]; by apply stepped_fail].
    intros [= <-]. eapply stepped_goto, (effect_read _ _ _ _ _ [(MRuns (MCut before), MCutReply (cut (cl_tables c) before))]); try done.
    + by apply leads_read.
    + simpl. rewrite app_nil_r. by apply cutting_perm with (cut_rows (cl_tables c) (cut (cl_tables c) before)), cut_rows_ok.
    + by intros past ->.
    + intros l Hl. by apply not_elem_of_nil in Hl.
  - destruct fate as [|e|e]; [|intros [= <-]; by apply stepped_fail|intros [= <-]; by apply stepped_fail].
    intros [= <-]. eapply stepped_goto, effect_quiet; [by apply nextval_ok|apply leads_draw|..]; try done.
    + simpl. split; [lia|done].
    + by intros past ->.
    + intros s. by apply untouched_frame.
  - destruct fate as [|e|e]; [|intros [= <-]; by apply stepped_fail|intros [= <-]; by apply stepped_fail].
    rewrite select_ok by done. destruct (mem_query (contents (cl_tables c)) q) as [r|e] eqn:Eq; intros [= <-]; [|by apply stepped_fail].
    eapply (stepped_read _ _ _ _ (MQuery q) r); try done.
    + cbn [mem_runs]. unfold in_reply. by rewrite Eq.
    + by intros past ->.
Qed.

Lemma commit_untouched t w numbered s :
  tables_ok t -> numbered_ok t w numbered ->
  (forall id, has_run s = Some id -> w_id w <> id) ->
  (forall p, LCounter p ∈ has_rows s -> is_Some numbered -> w_principal w <> p) ->
  untouched t (commit t w numbered) s.
Proof.
  intros Hok Hn Hr Hc. split_and!.
  - intros id Hid. specialize (Hr id Hid). split.
    + destruct numbered as [[]|]; cbn; destruct (w_row w); by rewrite ?lookup_insert_ne.
    + by rewrite events_of_commit, decide_False, app_nil_r.
  - intros p Hp. destruct numbered as [[top now]|]; [|done]. specialize (Hc p Hp (mk_is_Some _ _ eq_refl)).
    unfold last_of. cbn. by rewrite lookup_insert_ne.
  - intros p Hp. destruct numbered as [[top now]|]; [|done]. cbn.
    destruct (decide (w_principal w = p)) as [<-|]; [by rewrite lookup_insert_eq|by rewrite lookup_insert_ne].
  - intros p. destruct numbered as [[top now]|]; [|done]. destruct Hn as [-> _]. unfold last_of, counter_after. cbn.
    destruct (decide (w_principal w = p)) as [<-|]; [rewrite lookup_insert_eq; cbn; lia|by rewrite lookup_insert_ne].
  - intros row. destruct numbered as [[top now]|]; [|by left]. cbn. intros [Hrow|Hrow]%elem_of_app; [by left|right].
    destruct Hn as [-> _]. destruct (outbox_rows_elem _ _ _ _ Hrow) as (-> & Hs & _). unfold counter_after, last_of in *.
    lia.
Qed.

(** A commit, however it is reported. *)
Lemma commit_effect i c call w numbered pc' r :
  tables_ok (cl_tables c) -> ready (cl_tables c) call w -> fits w -> numbered_ok (cl_tables c) w numbered ->
  r = match w_row w with Some _ => RPutRun RunStored | None => RAppend Appended end ->
  pc' = Notify (w_principal w) r \/ pc' = Finished (Ok r) \/ (exists e, pc' = Finished (Err e)) ->
  exists did, effect i c call (Commit w numbered) (commit (cl_tables c) w numbered) pc' did.
Proof.
  intros Hok Hready Hf Hn Hr Hpc. pose proof (ready_write _ _ _ Hok Hready) as Hw.
  assert (exists op s', mem_runs (contents (cl_tables c)) op = (Ok (MReply r), s') /\
    same s' (contents (commit (cl_tables c) w numbered)) /\
    forall past, told call (Commit w numbered) past -> complete call r (past ++ [(MRuns op, MReply r)]))
    as (op & s' & Hm & Hs & Hc).
  { destruct call as [id seen events|run| | | | |]; try done; simpl in Hready.
    - destruct Hready as (row & H1 & H2 & H3 & H4 & H5).
      destruct (append_commits _ id seen events row w numbered Hok H1 H2 H5 H3 H4 Hn) as (s' & Hm & Hs).
      rewrite H5 in Hr. simpl in Hr. subst r. do 2 eexists. split; [exact Hm|]. split; [exact Hs|].
      intros past ->. by eexists.
    - destruct Hready as (row & H1 & H2 & H3 & H4 & (n & Hseq & Hpos) & H5).
      destruct (put_run_commits _ run row w n numbered Hok H1 H2 H5 H3 H4 Hseq Hpos Hn) as (s' & Hm & Hs).
      rewrite H5 in Hr. simpl in Hr. subst r. do 2 eexists. split; [exact Hm|]. split; [exact Hs|].
      intros past (n' & Hn' & ->). rewrite H5 in Hn'. cbn in Hn'. rewrite Hseq in Hn'. injection Hn' as <-.
      by eexists _, n. }
  exists [(MRuns op, MReply r)]. split.
  - eapply leads_one; [exact Hm|exact Hs|]. by destruct numbered as [[]|].
  - by apply commit_ok.
  - by destruct Hpc as [->|[->|[e ->]]].
  - intros past Hp%Hc. destruct Hpc as [->|[->|[e ->]]]; try done. by eapply partial_of_complete.
  - by destruct Hpc as [->|[->|[e ->]]].
  - intros l Hl. exfalso. destruct Hpc as [->|[->|[e ->]]]; by apply not_elem_of_nil in Hl.
  - intros s Hrun Hcount. apply commit_untouched; [done|done| |].
    + intros id Hid He. apply (Hrun id Hid). by rewrite <-He.
    + intros p Hp [x Hx] He. apply (Hcount _ Hp). rewrite Hx, <-He. by left.
Qed.

(** A step of a prune's statement. *)
Lemma cutting_stepped i fate c before through todo held c' :
  tables_ok (cl_tables c) -> cutting_ok (cl_tables c) through (todo ++ held) ->
  match todo with
  | lock :: todo' =>
      match fate with
      | Goes =>
          if row_taken i c lock then None
          else Some (goto i c (cl_tables c) (CPrune before)
                       (Cutting through todo' (if row_there (cl_tables c) lock then lock :: held else held)))
      | Fails e | Unsure e => Some (goto i c (cl_tables c) (CPrune before) (Finished (Err e)))
      end
  | [] =>
      let '(n, t) := delete_held (cl_tables c) through held in
      Some (single i c (CPrune before) fate (RPruned n) t)
  end = Some c' ->
  stepped i c (CPrune before) (Cutting through todo held) c'.
Proof.
  intros Hok Hcut. destruct todo as [|lock todo].
  - rewrite delete_held_through by done. pose proof (cu_cut _ _ _ Hcut) as Hc.
    destruct (delete_through_ok _ _ Hok Hc) as (s' & Hm & Hs & Hok').
    assert (forall s, untouched (cl_tables c) (delete_through (cl_tables c) through).2 s) as Hu.
    { intros s.
      assert (forall p, last_of (delete_through (cl_tables c) through).2 p = last_of (cl_tables c) p) as Hl.
      { intros p. unfold last_of. cbn. rewrite map_lookup_imap. destruct (t_counters _ !! p); [|done]. cbn.
        by destruct (through !! p). }
      split_and!; try done.
      - intros p [x Hx]. cbn. rewrite map_lookup_imap, Hx. by eexists.
      - intros p. by rewrite Hl.
      - intros row Hrow. left. cbn in Hrow. apply list_elem_of_In, List.filter_In in Hrow as [Hrow _].
        by apply list_elem_of_In. }
    destruct (delete_through (cl_tables c) through) as [k t'] eqn:Ed. simpl in *. intros [= <-].
    eapply (stepped_single _ _ _ _ _ [(MRuns (MPruneTo through), MReply (RPruned k))]); try done.
    + eapply leads_one; [cbn [mem_runs]; by rewrite Hm|done|]. injection Ed as _ <-. done.
    + intros past ->. by eexists.
  - destruct fate as [|e|e]; [|intros [= <-]; by apply stepped_fail|intros [= <-]; by apply stepped_fail].
    destruct (row_taken i c lock) eqn:Ht; [done|]. intros [= <-]. eapply stepped_goto, effect_silent; try done.
    + simpl. by apply cutting_locks.
    + intros l. simpl. destruct (row_there (cl_tables c) lock); [|by left].
      intros [->|Hl]%elem_of_cons; [by right|by left].
Qed.

Lemma step_stepped i fate now c call pc c' :
  tables_ok (cl_tables c) -> cl_sessions c !! i = Some (call, pc) -> pc_ok (cl_tables c) (call, pc) ->
  step insert_error scan i fate now c = Some c' -> stepped i c call pc c'.
Proof.
  intros Hok Hi Hpc. unfold step. rewrite Hi. cbn [mbind option_bind].
  destruct pc as [|rows p|rows p|n stamp rows|w|w|w numbered| |through todo held|p r|r].
  - by apply begin_stepped.
  - destruct call as [id seen events| | | | | |]; try done. destruct Hpc as (Hev & row & Hrow & ->).
    destruct (event_rows_Ok _ _ Hev) as (Hone & _).
    destruct fate; [|intros [= <-]; by apply stepped_fail|intros [= <-]; by apply stepped_fail].
    destruct (ended (cl_tables c) id) eqn:He; intros [= <-].
    + eapply (stepped_read _ _ _ _ (MAppend id seen events 0%Z) (RAppend Terminal)); try done.
      * by eapply mem_append_terminal.
      * intros past ->. by exists 0%Z.
    + eapply stepped_goto, effect_silent; try done; try (by left). simpl. eauto 6.
  - destruct call as [id seen events| | | | | |]; try done. destruct Hpc as (Hev & He & row & Hrow & ->).
    destruct (event_rows_Ok _ _ Hev) as (Hone & _).
    destruct fate; [|intros [= <-]; by apply stepped_fail|intros [= <-]; by apply stepped_fail].
    destruct (moved seen (last_seq (cl_tables c) id)) eqn:Hm; intros [= <-].
    + eapply (stepped_read _ _ _ _ (MAppend id seen events 0%Z) (RAppend Moved)); try done.
      * by eapply mem_append_moved.
      * intros past ->. by exists 0%Z.
    + eapply stepped_goto, effect_silent; try done; try (by left). simpl. by exists row.
  - destruct Hpc as [Hpos Hpc]. destruct call as [|run| | | |o scope|]; try done.
    + destruct fate; [|intros [= <-]; by apply stepped_fail|intros [= <-]; by apply stepped_fail].
      destruct (event_rows_Ok _ _ Hpc) as (Hone & _).
      destruct (t_runs (cl_tables c) !! run_id (sr_spec run)) as [row|] eqn:Hrow.
      * intros [= <-]. eapply (stepped_read _ _ _ _ (MPutRun run 0%Z n) (RPutRun RunExisted)); try done.
        -- by eapply put_run_existed.
        -- intros past ->. by exists 0%Z, n.
      * destruct (run_taken i c _) eqn:Ht; [done|]. intros [= <-]. eapply stepped_goto, effect_silent; try done.
        -- simpl. exists (run_row run stamp n). split_and!; try done. by exists n.
        -- intros past ->. by exists n.
        -- simpl. intros ? [= <-]. by right.
        -- by left.
    + intros [= <-]. destruct (upsert_stop_frame (cl_tables c) o scope n Hok) as (Hok' & Hu).
      destruct (leads_upsert_stop (cl_tables c) o scope n Hpos) as (draws & m & Hl & Hd).
      eapply stepped_single; try done. intros past ->.
      destruct Hd as [[-> ->]| ->]; [exists n; by left|exists n; right; by exists m].
  - destruct fate; [|intros [= <-]; by apply stepped_fail|intros [= <-]; by apply stepped_fail].
    destruct (insert_fails (cl_tables c) w) eqn:Hfail; [intros [= <-]; by apply stepped_fail|].
    apply negb_false_iff, andb_true_iff in Hfail as [_ Hfit].
    destruct (Nat.eqb_spec (length (w_rows w)) 0) as [Hl|_]; intros [= <-]; eapply stepped_goto, effect_silent;
      try done; try by left.
    simpl. split_and!; try done. by apply nil_length_inv.
  - destruct Hpc as [Hready Hfit].
    destruct fate; [|intros [= <-]; by apply stepped_fail|intros [= <-]; by apply stepped_fail].
    destruct (row_taken i c _) eqn:Ht; [done|].
    destruct (in_bigint (counter_after (cl_tables c) w)) eqn:Hb; intros [= <-]; [|by apply stepped_fail].
    eapply stepped_goto, effect_silent; try done; try by left.
    intros l [->|Hl]%elem_of_cons; [by right|by apply not_elem_of_nil in Hl].
  - destruct Hpc as (Hready & Hfit & Hn). set (r := match w_row w with Some _ => RPutRun RunStored | None => RAppend Appended end).
    assert (forall pc', pc' = Notify (w_principal w) r \/ pc' = Finished (Ok r) \/ (exists e, pc' = Finished (Err e)) ->
      stepped i c call (Commit w numbered) (goto i c (commit (cl_tables c) w numbered) call pc')) as Hgo.
    { intros pc' Hpc'. destruct (commit_effect i c call w numbered pc' r Hok Hready Hfit Hn eq_refl Hpc') as [did He].
      by eapply stepped_goto. }
    destruct fate; intros [= <-].
    + apply Hgo. destruct (w_row w), (w_rows w); auto.
    + by apply stepped_fail.
    + apply Hgo. eauto.
  - destruct fate; intros [= <-]; try by apply stepped_fail.
    eapply stepped_goto, effect_silent; try done. by left.
  - destruct call as [| | | |before| |]; try done. intros Hs.
    apply (cutting_stepped i fate c before through todo held); [done|exact Hpc|].
    rewrite <-Hs. destruct todo; [|by destruct fate]. by destruct (delete_held (cl_tables c) through held).
  - intros [= <-]. exists (cl_tables c), (Finished (Ok r)), [], (principal_hint_of p.1 p.2 :: cl_hints c). split; [done|].
    apply effect_silent; try done. by left.
  - done.
Qed.

(** ** Every interleaving *)

Lemma other_false i c (f : Call * Pc -> bool) j s :
  other i c f = false -> j <> i -> cl_sessions c !! j = Some s -> f s = false.
Proof.
  unfold other. intros Ho Hj Hs. apply existsb_false_Forall in Ho. rewrite Forall_forall in Ho.
  specialize (Ho (j, s) ltac:(by apply elem_of_map_to_list)). simpl in Ho.
  apply andb_false_iff in Ho as [Ho|Ho]; [|done]. by apply negb_false_iff, Nat.eqb_eq in Ho.
Qed.

(** What session [i] did, of all that was done. *)
Definition told_by (i : nat) (done : list (nat * (MemOp * MemReply))) : list (MemOp * MemReply) :=
  snd <$> filter (fun x => x.1 = i) done.

Lemma told_by_app i done did j : told_by i (done ++ (pair j <$> did)) = told_by i done ++ if decide (j = i) then did else [].
Proof.
  unfold told_by. rewrite filter_app, fmap_app. f_equal. case_decide as Hj.
  - rewrite filter_all; [by rewrite <-list_fmap_compose, list_fmap_id|]. by apply Forall_fmap, Forall_forall.
  - rewrite filter_none; [done|]. by apply Forall_fmap, Forall_forall.
Qed.

Record cluster_ok (s0 : StopsStore) (c : Cluster) (done : list (nat * (MemOp * MemReply))) : Prop := mkClusterOk {
  ck_replays : exists s, replays s0 done.*2 s /\ stands s (cl_tables c);
  ck_tables : tables_ok (cl_tables c);
  ck_sessions i call pc : cl_sessions c !! i = Some (call, pc) ->
    pc_ok (cl_tables c) (call, pc) /\ told call pc (told_by i done);
  ck_runs i j s s' id : i <> j -> cl_sessions c !! i = Some s -> cl_sessions c !! j = Some s' ->
    has_run s = Some id -> has_run s' <> Some id;
  ck_rows i j s s' l : i <> j -> cl_sessions c !! i = Some s -> cl_sessions c !! j = Some s' ->
    l ∈ has_rows s -> l ∉ has_rows s';
}.

(** What a session takes, no other has. *)
Lemma exclusive_insert {K} (c : Cluster) (has : Call * Pc -> K -> Prop) i s s' :
  cl_sessions c !! i = Some s ->
  (forall j k sj sk x, j <> k -> cl_sessions c !! j = Some sj -> cl_sessions c !! k = Some sk -> has sj x -> ~ has sk x) ->
  (forall x, has s' x -> has s x \/ forall j sj, j <> i -> cl_sessions c !! j = Some sj -> ~ has sj x) ->
  forall j k sj sk x, j <> k -> <[i := s']> (cl_sessions c) !! j = Some sj ->
    <[i := s']> (cl_sessions c) !! k = Some sk -> has sj x -> ~ has sk x.
Proof.
  intros Hi Hex Hnew.
  assert (forall j sj x, j <> i -> cl_sessions c !! j = Some sj -> has s' x -> ~ has sj x) as Hfree.
  { intros j sj x Hne Hj [Hold|Hf]%Hnew Hs; [by apply (Hex j i sj s x)|by apply (Hf j sj)]. }
  intros j k sj sk x Hne Hj Hk Hsj Hsk. destruct (decide (i = j)) as [<-|Hij], (decide (i = k)) as [<-|Hik];
    rewrite ?lookup_insert_eq in *; rewrite ?lookup_insert_ne in * by done; simplify_eq.
  - by apply (Hfree k sk x).
  - by apply (Hfree j sj x).
  - by apply (Hex j k sj sk x).
Qed.

Lemma step_cluster_ok s0 c done i fate now c' :
  cluster_ok s0 c done -> step insert_error scan i fate now c = Some c' ->
  exists did, cluster_ok s0 c' (done ++ (pair i <$> did)).
Proof.
  intros Hck Hstep. assert (exists call pc, cl_sessions c !! i = Some (call, pc)) as (call & pc & Hi).
  { unfold step in Hstep. destruct (cl_sessions c !! i) as [[call pc]|] eqn:E; [by exists call, pc|done]. }
  destruct (ck_sessions _ _ _ Hck i call pc Hi) as [Hpc Htold].
  destruct (step_stepped i fate now c call pc c' (ck_tables _ _ _ Hck) Hi Hpc Hstep) as (t' & pc' & did & hints & -> & He).
  exists did. split; cbn [cl_tables cl_sessions].
  - assert ((pair i <$> did).*2 = did) as Hdid by (rewrite <-list_fmap_compose; apply list_fmap_id).
    rewrite fmap_app, Hdid. destruct (ck_replays _ _ _ Hck) as (s & Hr & Hs).
    destruct (ef_did _ _ _ _ _ _ _ He s Hs) as (s' & Hr' & Hs'). exists s'. split; [by eapply replays_app|done].
  - apply (ef_tables _ _ _ _ _ _ _ He).
  - intros j call' pc'' Hj. rewrite told_by_app. destruct (decide (i = j)) as [<-|Hne].
    + rewrite lookup_insert_eq in Hj. injection Hj as <- <-.
      split; [apply (ef_pc _ _ _ _ _ _ _ He)|]. by apply (ef_told _ _ _ _ _ _ _ He).
    + rewrite lookup_insert_ne in Hj by done. rewrite app_nil_r. destruct (ck_sessions _ _ _ Hck j call' pc'' Hj) as [Hpc' ?].
      split; [|done]. eapply pc_ok_untouched; [|exact Hpc']. apply (ef_others _ _ _ _ _ _ _ He).
      * intros id. apply (ck_runs _ _ _ Hck j i _ _ id); done.
      * intros l. apply (ck_rows _ _ _ Hck j i _ _ l); done.
  - apply (exclusive_insert c (fun s id => has_run s = Some id) i (call, pc)); [done|apply (ck_runs _ _ _ Hck)|].
    intros id [Hold|Hfree]%(ef_run _ _ _ _ _ _ _ He); [by left|right]. intros j s Hj Hs Hid.
    pose proof (other_false _ _ _ j s Hfree Hj Hs) as Hf. cbn in Hf. by rewrite Hid, bool_decide_true in Hf.
  - apply (exclusive_insert c (fun s l => l ∈ has_rows s) i (call, pc)); [done|apply (ck_rows _ _ _ Hck)|].
    intros l [Hold|Hfree]%(ef_rows _ _ _ _ _ _ _ He); [by left|right]. intros j s Hj Hs Hl.
    pose proof (other_false _ _ _ j s Hfree Hj Hs) as Hf. cbn in Hf. by rewrite bool_decide_true in Hf.
Qed.

(** Sessions whose calls are not begun. *)
Definition fresh (c : Cluster) : Prop := forall i s, cl_sessions c !! i = Some s -> s.2 = Begin.

Lemma fresh_ok s0 c : fresh c -> tables_ok (cl_tables c) -> stands s0 (cl_tables c) -> cluster_ok s0 c [].
Proof.
  intros Hf Hok Hs. split; try done.
  - by exists s0.
  - intros i call pc Hi. apply Hf in Hi. simpl in Hi. by subst pc.
  - intros i j [call pc] s' id _ Hi _. apply Hf in Hi. simpl in Hi. by subst pc.
  - intros i j [call pc] s' l _ Hi _. apply Hf in Hi. simpl in Hi. subst pc. intros Hl. by apply not_elem_of_nil in Hl.
Qed.

(** What the steps of a schedule did, each step's in-memory calls in its
    place. *)
Definition done_by (steps : Steps) (dids : list (list (MemOp * MemReply))) : list (nat * (MemOp * MemReply)) :=
  concat (zip_with (fun (step : nat * Fate * Timestamp) did => pair step.1.1 <$> did) steps dids).

Lemma run_steps_ok s0 steps c done c' :
  cluster_ok s0 c done -> run_steps insert_error scan steps c = Some c' ->
  exists dids, length dids = length steps /\ cluster_ok s0 c' (done ++ done_by steps dids).
Proof.
  revert c done. induction steps as [|[[i fate] now] steps IH]; intros c done Hc; cbn [run_steps].
  - intros [= <-]. exists []. by rewrite app_nil_r.
  - destruct (step insert_error scan i fate now c) as [c1|] eqn:Hs; [|done]. cbn [mbind option_bind]. intros Hrun.
    destruct (step_cluster_ok _ _ _ _ _ _ _ Hc Hs) as [did Hc1].
    destruct (IH c1 _ Hc1 Hrun) as (dids & Hl & Hc'). exists (did :: dids). split; [simpl; lia|].
    unfold done_by in *. cbn. by rewrite <-app_assoc in Hc'.
Qed.

(** C26. The Postgres store does what the in-memory store does.  Any number of
    sessions run their calls (appends, inserts of runs, agents and artifacts,
    prunes, stops, reads), their statements in any order, whichever of them
    fail and whatever a failed commit left; a prune's statement locks the rows
    it found one after another, in the database's order.  Then there are calls
    of the in-memory store, each made at one statement of the session it is
    for, that take an in-memory store the tables stood for ([s0]: the same
    agents, runs, artifacts, outbox, stops and numbers) to one they stand for
    and give the very replies.  A call that answered made its own: an append, a
    read, an agent's or an artifact's insert its one call; a prune two, what to
    cut, then the cut; a run's insert two, the number it draws from the order
    and the insert with that number; a stop likewise, with a second number if
    its scope has a stop.  A call that failed made the first of them, or all,
    each once at most. *)
Theorem postgres_refines_memory s0 c steps c' :
  fresh c -> tables_ok (cl_tables c) -> stands s0 (cl_tables c) ->
  run_steps insert_error scan steps c = Some c' ->
  exists dids s',
    length dids = length steps /\
    replays s0 (done_by steps dids).*2 s' /\ stands s' (cl_tables c') /\
    forall i call r, cl_sessions c' !! i = Some (call, Finished r) ->
      match r with
      | Ok r => complete call r (told_by i (done_by steps dids))
      | Err _ => partial call (told_by i (done_by steps dids))
      end.
Proof.
  intros Hf Hok Hs Hrun. destruct (run_steps_ok _ _ _ _ _ (fresh_ok s0 c Hf Hok Hs) Hrun) as (dids & Hl & Hc).
  destruct (ck_replays _ _ _ Hc) as (s' & Hr & Hs'). exists dids, s'. split_and!; [done..|]. intros i call r Hi.
  destruct (ck_sessions _ _ _ Hc i _ _ Hi) as [_ Ht]. by destruct r.
Qed.

End Steps.


(** ** Demonstration *)

Section Demo.

#[local] Instance demo_uuids : UuidCrate := hyphenated.

Definition demo_calls : gmap nat (Call * Pc) :=
  <[0 := (CPutRun sample_run, Begin)]>
  (<[1 := (CAppend (id_of 1) (Some 1) [sample_event RunStarted], Begin)]>
  (<[2 := (CAppend (id_of 1) (Some 1) [sample_event RunCancelled], Begin)]>
  (<[3 := (CPrune 6%Z, Begin)]> (<[4 := (CQuery (QOutbox (owner sample_spec) 0 10), Begin)]>
  (<[5 := (CPutStop (owner sample_spec) StopOwner, Begin)]>
  (<[6 := (CPutStop (owner sample_spec) StopOwner, Begin)]> ∅)))))).

Definition demo_cluster : Cluster := mkCluster no_tables demo_calls [].

(** Sessions of an even number find a prune's rows in the order of the cut. *)
Definition demo_scan (i : nat) (locks : list RowLock) : list RowLock :=
  if Nat.even i then locks else reverse locks.

Lemma demo_scan_visits i locks : demo_scan i locks ≡ₚ locks.
Proof. unfold demo_scan. destruct (Nat.even i); [done|apply reverse_Permutation]. Qed.

(** The run is inserted and the first stop put; the appends race for the run's
    row; the pruner takes its cut before the first of them is committed, and the
    principal's counter once that is. *)
Definition demo_steps : Steps :=
  (fun s : nat * Timestamp => (s.1, Goes, s.2)) <$>
  [(0, 5%Z); (0, 5%Z); (5, 5%Z); (0, 5%Z); (0, 5%Z); (0, 5%Z); (0, 5%Z);
   (1, 6%Z); (1, 6%Z); (5, 6%Z); (1, 6%Z); (1, 6%Z); (3, 6%Z); (1, 6%Z); (1, 7%Z); (2, 7%Z); (1, 7%Z);
   (3, 7%Z); (6, 7%Z); (2, 8%Z); (3, 8%Z); (6, 8%Z); (2, 8%Z); (3, 9%Z); (4, 9%Z)].

Lemma demo_fresh : fresh demo_cluster.
Proof.
  intros i s Hi. unfold demo_cluster, demo_calls in Hi. cbn in Hi.
  repeat (apply lookup_insert_Some in Hi as [[_ <-]|[_ Hi]]; [done|]). by rewrite lookup_empty in Hi.
Qed.

Definition demo_run : Steps -> Cluster -> option Cluster := run_steps (mkStoreError "duplicate key") demo_scan.

Definition demo_end : option Cluster := demo_run demo_steps demo_cluster.

Definition demo_start : StopsStore := mkStopsStore (contents no_tables) (mkLock [] false).

Lemma demo_stands : stands demo_start no_tables.
Proof. split; [done| |done]. split; [|done]. intros p scope n. split; [intros Hin; by apply not_elem_of_nil in Hin|done]. Qed.

Lemma postgres_refines_memory_witness :
  (fun c => (fun s => s.2) <$> cl_sessions c) <$> demo_end =
    Some (<[0 := Finished (Ok (RPutRun RunStored))]> (<[1 := Finished (Ok (RAppend Appended))]>
         (<[2 := Finished (Ok (RAppend Moved))]> (<[3 := Finished (Ok (RPruned 1))]>
         (<[4 := Finished (Ok (RPage (mkOutboxPage [mkOutboxEntry 2 (id_of 1) 2 (sample_event RunStarted)] 1 2)))]>
         (<[5 := Finished (Ok RUnit)]> (<[6 := Finished (Ok RUnit)]> ∅))))))) /\
  (fun c => map_to_list (t_stops (cl_tables c))) <$> demo_end =
    Some [((principal (owner sample_spec), kind_and_key StopOwner), 4%N)] /\
  match demo_end with
  | Some c =>
      exists dids s', length dids = length demo_steps /\
        replays demo_start (done_by demo_steps dids).*2 s' /\ stands s' (cl_tables c)
  | None => False
  end.
Proof.
  split; [vm_compute; reflexivity|]. split; [vm_compute; reflexivity|].
  assert (bool_decide (is_Some demo_end) = true) as Hsome by (vm_compute; reflexivity).
  destruct demo_end as [c|] eqn:E; [|discriminate Hsome]. unfold demo_end, demo_run in E.
  destruct (postgres_refines_memory (mkStoreError "duplicate key") demo_scan demo_scan_visits demo_start demo_cluster
    demo_steps c demo_fresh no_tables_ok demo_stands E) as (dids & s' & Hl & Hr & Hs & _).
  exists dids, s'. exact (conj Hl (conj Hr Hs)).
Defined.

End Demo.
