(* ===== verification/PostgresLocks.v ===== *)
(** * No call of the Postgres store waits for ever

    A statement waits for the run's row or key, the counter or the outbox row
    that another transaction has.  Who waits for whom ([waits_for]) may be a
    cycle: two pruners may come to their rows in different orders.  Postgres
    ends one transaction of a cycle it finds.  Only pruners are ever in one, and
    so every call comes to its end ([postgres_calls_finish]). *)

From S2P Require Import Prelude Protocol Uuids MemoryOwner Reduce Store StoreProofs StoreStops Postgres PostgresProofs.

(** ** Who waits for whom *)

Inductive Need := NeedRun (id : RunId) | NeedRow (lock : RowLock).

(** What a session's next statement is to take, if it comes to that. *)
Definition needs (t : Tables) (s : Call * Pc) : option Need :=
  match s.2, s.1 with
  | Begin, CAppend id _ events =>
      match event_rows events, t_runs t !! id with Ok _, Some _ => Some (NeedRun id) | _, _ => None end
  | Drawn _ _ _, CPutRun run =>
      let id := run_id (sr_spec run) in
      match t_runs t !! id with None => Some (NeedRun id) | Some _ => None end
  | Number w, _ => Some (NeedRow (LCounter (w_principal w)))
  | Cutting _ (lock :: _) _, _ => Some (NeedRow lock)
  | _, _ => None
  end.

Definition has_need (s : Call * Pc) (n : Need) : Prop :=
  match n with NeedRun id => has_run s = Some id | NeedRow lock => lock ∈ has_rows s end.

Definition waits_for (c : Cluster) (i j : nat) : Prop :=
  i <> j /\ exists s s' n, cl_sessions c !! i = Some s /\ cl_sessions c !! j = Some s' /\
    needs (cl_tables c) s = Some n /\ has_need s' n.

(** A session that waits for itself, through the others. *)
Definition deadlocked (c : Cluster) (i : nat) : Prop := tc (waits_for c) i i.

Definition finished (s : Call * Pc) : Prop := exists r, s.2 = Finished r.

Definition pruning (s : Call * Pc) : Prop :=
  exists before through todo held, s = (CPrune before, Cutting through todo held).

(** ** Cycles *)

(** Who waits in a cycle is waited for in it. *)
Lemma tc_cycle_pred {A} (R : A -> A -> Prop) i : tc R i i -> exists j, R j i /\ tc R j j.
Proof.
  intros H. assert (forall x z, tc R x z -> R x z \/ exists y, tc R x y /\ R y z) as Hlast.
  { induction 1 as [x z Hr|x y z Hr _ IH]; [by left|right]. destruct IH as [IH|(u & Hu & Hz)].
    - exists y. split; [by apply tc_once|done].
    - exists u. split; [by eapply tc_l|done]. }
  destruct (Hlast i i H) as [Hr|(j & Hj & Hr)]; [by exists i|]. exists j. split; [done|]. by eapply tc_l.
Qed.

Lemma tc_cycle_succ {A} (R : A -> A -> Prop) i : tc R i i -> exists j, R i j.
Proof. intros H. inversion H; eauto. Qed.

(** In a finite set where each element has a successor, some element leads to
    itself. *)
Lemma cycle_from (R : nat -> nat -> Prop) (todo seen : gset nat) i :
  (forall j, j ∈ todo ∪ seen -> exists k, k ∈ todo ∪ seen /\ R j k) ->
  i ∈ todo -> i ∉ seen -> (forall j, j ∈ seen -> tc R j i) ->
  exists j, tc R j j.
Proof.
  revert seen i. induction (set_wf todo) as [todo _ IH]. intros seen i Hsucc Hi Hseen Hpast.
  destruct (Hsucc i ltac:(set_solver)) as (k & Hk & Hr).
  destruct (decide (k ∈ {[i]} ∪ seen)) as [[->%elem_of_singleton|Hin]%elem_of_union|Hout].
  - exists i. by apply tc_once.
  - exists k. eapply tc_r; [by apply Hpast|done].
  - assert ((todo ∖ {[i]}) ∪ ({[i]} ∪ seen) = todo ∪ seen) as Hall.
    { apply set_eq. intros x. destruct (decide (x = i)); set_solver. }
    apply (IH (todo ∖ {[i]}) ltac:(set_solver) ({[i]} ∪ seen) k); rewrite ?Hall; [done|set_solver|done|].
    intros j [->%elem_of_singleton|Hj]%elem_of_union; [by apply tc_once|]. eapply tc_r; [by apply Hpast|done].
Qed.

(** ** Only pruners deadlock *)

(** A session that has what another waits for, and waits, is about to number
    its events or prunes. *)
Lemma waiter_has t s n m : needs t s = Some n -> has_need s m ->
  (exists w, s.2 = Number w /\ has_rows s = []) \/ (exists through lock todo held, s.2 = Cutting through (lock :: todo) held).
Proof.
  destruct s as [call pc]. unfold needs, has_need, has_run, has_rows. cbn [fst snd].
  destruct pc as [|rows p|rows p|k stamp rows|w|w|w numbered| |through [|lock todo] held|p r|r]; try done;
    try (intros _ _; by eauto 8); destruct m; intros Hn Hm; repeat case_match; try discriminate Hn;
    try discriminate Hm; by apply not_elem_of_nil in Hm.
Qed.

(** What a session that waits for a run has, no one waits for. *)
Lemma run_waiter_has_none t s id m : needs t s = Some (NeedRun id) -> ~ has_need s m.
Proof.
  intros Hn Hm. destruct (waiter_has t s _ m Hn Hm) as [(w & Hs & _)|(through & lock & todo & held & Hs)];
    unfold needs in Hn; by rewrite Hs in Hn.
Qed.

Lemma deadlocked_prunes c i :
  (forall i s, cl_sessions c !! i = Some s -> pc_ok (cl_tables c) s) -> deadlocked c i ->
  exists s, cl_sessions c !! i = Some s /\ pruning s.
Proof.
  intros Hok Hd. destruct (tc_cycle_succ _ _ Hd) as (k & _ & s & _ & n & Hi & _ & Hn & _).
  destruct (tc_cycle_pred _ _ Hd) as (j & (_ & sj & si & m & Hj & Hi' & Hm & Hhas) & Hdj).
  simplify_eq. exists s. split; [done|].
  destruct (waiter_has _ _ _ _ Hn Hhas) as [(w & Hs & Hnone)|(through & lock & todo & held & Hs)].
  - exfalso. destruct m as [id|lock]; [|simpl in Hhas; rewrite Hnone in Hhas; by apply not_elem_of_nil in Hhas].
    destruct (tc_cycle_pred _ _ Hdj) as (k' & (_ & sk & sj' & m' & _ & Hj' & _ & Hhas') & _). simplify_eq.
    by eapply run_waiter_has_none.
  - destruct s as [call pc]. simpl in Hs. subst pc. pose proof (Hok i _ Hi) as Hpc.
    destruct call; try done. by repeat eexists.
Qed.

Section Steps.
Context `{UuidCrate} (insert_error : StoreError) (scan : nat -> list RowLock -> list RowLock).
Hypothesis scan_visits : forall i locks, scan i locks ≡ₚ locks.

Lemma other_iff i c (f : Call * Pc -> bool) : other i c f = true <->
  exists j s, j <> i /\ cl_sessions c !! j = Some s /\ f s = true.
Proof.
  unfold other. rewrite existsb_exists. split.
  - intros ([j s] & Hin & [Hj Hf]%andb_true_iff). exists j, s. apply negb_true_iff, Nat.eqb_neq in Hj.
    split; [done|]. split; [|done]. apply list_elem_of_In in Hin. by apply elem_of_map_to_list in Hin.
  - intros (j & s & Hj & Hs & Hf). exists (j, s). rewrite <-list_elem_of_In, elem_of_map_to_list. split; [done|].
    simpl. rewrite Hf, andb_true_r. by apply negb_true_iff, Nat.eqb_neq.
Qed.

(** Whether another session has what [i] needs. *)
Definition taken (i : nat) (c : Cluster) (n : Need) : bool :=
  match n with NeedRun id => run_taken i c id | NeedRow lock => row_taken i c lock end.

Lemma taken_iff i c s n : cl_sessions c !! i = Some s -> needs (cl_tables c) s = Some n ->
  taken i c n = true <-> exists j, waits_for c i j.
Proof.
  intros Hi Hn. assert (taken i c n = true <-> exists j s', j <> i /\ cl_sessions c !! j = Some s' /\ has_need s' n) as ->.
  { destruct n; unfold taken, run_taken, row_taken; rewrite other_iff; by setoid_rewrite bool_decide_eq_true. }
  unfold waits_for. split.
  - intros (j & s' & Hne & Hj & Hh). exists j. eauto 10.
  - intros (j & Hne & s1 & s' & m & Hs & Hj & Hm & Hh). simplify_eq. eauto 10.
Qed.

(** A statement that waits for no one is done. *)
Lemma step_goes i now c call pc :
  cl_sessions c !! i = Some (call, pc) -> pc_ok (cl_tables c) (call, pc) -> ~ finished (call, pc) ->
  (forall n, needs (cl_tables c) (call, pc) = Some n -> taken i c n = false) ->
  is_Some (step insert_error scan i Goes now c).
Proof.
  intros Hi Hpc Hf. unfold step, needs. rewrite Hi. cbn [mbind option_bind fst snd].
  destruct pc as [|rows p|rows p|n stamp rows|w|w|w numbered| |through [|lock todo] held|p r|r];
    unfold begin; cbn [fst snd].
  all: destruct call; try done; repeat case_match; try done; intros Ht;
    try (specialize (Ht _ eq_refl); simpl in Ht; congruence); try (by destruct Hpc).
  all: exfalso; apply Hf; by eexists.
Qed.

(** And one that waits for another is not. *)
Lemma step_waits i j now c : waits_for c i j -> step insert_error scan i Goes now c = None.
Proof.
  intros Hw. destruct Hw as (Hne & [call pc] & s' & n & Hi & Hj & Hn & Hh).
  assert (taken i c n = true) as Ht by (eapply taken_iff; [done..|]; exists j; split; [done|]; by eauto 10).
  revert Hn. unfold step, needs. rewrite Hi. cbn [mbind option_bind fst snd].
  destruct pc as [|rows p|rows p|k stamp rows|w|w|w numbered| |through [|lock todo] held|p r|r];
    unfold begin; destruct call; try done; repeat case_match; try done; intros [= <-]; simpl in Ht; congruence.
Qed.

(** ** How many statements are left *)

(** The outbox rows a call may yet add. *)
Definition rows_to_come (s : Call * Pc) : nat :=
  match s.2 with
  | Begin => match s.1 with CAppend _ _ events => length events | CPutRun run => length (sr_events run) | _ => 0 end
  | Locked rows _ | Unended rows _ | Drawn _ _ rows => length rows
  | Insert w | Number w | Commit w _ => length (w_rows w)
  | _ => 0
  end.

(** How many statements, and locks of a prune, a call has left if the outbox
    holds [n] rows at most: a prune locks its rows and their counters. *)
Definition statements_left (n : nat) (s : Call * Pc) : nat :=
  match s.2 with
  | Begin => match s.1 with CPrune _ => 2 * n + 2 | _ => 7 end
  | Locked _ _ => 6 | Drawn _ _ _ => 6 | Unended _ _ => 5 | Insert _ => 4 | Number _ => 3
  | Commit _ _ => 2 | Cutting _ todo _ => S (length todo) | Existing => 1 | Notify _ _ => 1 | Finished _ => 0
  end.

Definition total (f : Call * Pc -> nat) (c : Cluster) : nat :=
  map_fold (fun _ s n => f s + n)%nat 0%nat (cl_sessions c).

Lemma total_insert f c i s s' t h : cl_sessions c !! i = Some s ->
  (total f (mkCluster t (<[i := s']> (cl_sessions c)) h) + f s = total f c + f s')%nat.
Proof.
  intros Hi. unfold total. cbn [cl_sessions].
  rewrite <-(insert_delete_id (cl_sessions c) i s Hi) at 2. rewrite <-insert_delete_eq.
  rewrite !map_fold_insert_L by (rewrite ?lookup_delete_eq; done || (intros; lia)). lia.
Qed.

(** The outbox is never longer than this. *)
Definition rows_bound (c : Cluster) : nat := length (t_outbox (cl_tables c)) + total rows_to_come c.

Lemma cut_size t before : (size (cut t before) <= length (t_outbox t))%nat.
Proof.
  unfold cut. assert (forall l (m : gmap Principal N),
    (size (fold_left (fun through row =>
       if (row_stored_ms row <? before)%Z then
         <[row_principal row := N.max (default 0%N (through !! row_principal row)) (row_seq row)]> through
       else through) l m) <= size m + length l)%nat) as Hg.
  { induction l as [|row l IH]; intros m; simpl; [lia|]. destruct (row_stored_ms row <? before)%Z.
    - etrans; [apply IH|]. destruct (decide (is_Some (m !! row_principal row))) as [Hs|Hs].
      + rewrite map_size_insert_Some by done. lia.
      + rewrite map_size_insert_None by (by apply eq_None_not_Some). lia.
    - etrans; [apply IH|]. lia. }
  etrans; [apply Hg|]. by rewrite map_size_empty.
Qed.

Lemma filter_shorter {A} (f : A -> bool) l : (length (List.filter f l) <= length l)%nat.
Proof. induction l as [|x l IH]; simpl; [done|]. destruct (f x); simpl; lia. Qed.

Lemma cut_rows_length t before : (length (cut_rows t (cut t before)) <= 2 * length (t_outbox t))%nat.
Proof.
  unfold cut_rows. rewrite length_app, !length_fmap.
  pose proof (filter_shorter (in_cut (cut t before)) (t_outbox t)).
  pose proof (filter_shorter (fun p => bool_decide (is_Some (t_counters t !! p))) (map_to_list (cut t before)).*1) as Hl.
  rewrite length_fmap, length_map_to_list in Hl. pose proof (cut_size t before). lia.
Qed.

(** A step's session has fewer statements left, and adds no more rows than it
    was to. *)
Definition shrinks (n : nat) (t : Tables) (s : Call * Pc) (t' : Tables) (s' : Call * Pc) : Prop :=
  (length (t_outbox t') + rows_to_come s' <= length (t_outbox t) + rows_to_come s)%nat /\
  (statements_left n s' < statements_left n s)%nat.

Lemma single_shrinks n i c call pc fate r t : (0 < statements_left n (call, pc))%nat ->
  (length (t_outbox t) <= length (t_outbox (cl_tables c)))%nat ->
  exists t' pc', single i c call fate r t = goto i c t' call pc' /\
    shrinks n (cl_tables c) (call, pc) t' (call, pc').
Proof.
  intros Hp Hl. destruct fate; simpl; do 2 eexists; (split; [done|]);
    (split; [simpl; unfold rows_to_come; simpl; lia|exact Hp]).
Qed.

Lemma commit_length t w numbered : (length (t_outbox (commit t w numbered)) <= length (t_outbox t) + length (w_rows w))%nat.
Proof.
  destruct numbered as [[top now]|]; simpl; [|lia]. unfold outbox_rows. rewrite length_app, length_fmap, length_seq. lia.
Qed.

Ltac shrinking :=
  repeat match goal with E : nextval _ = _ |- _ => injection E as <- <- end;
  do 2 eexists; split; [done|]; split; unfold rows_to_come, statements_left; simpl; lia.

Lemma begin_shrinks n i fate now c call c' :
  (length (t_outbox (cl_tables c)) <= n)%nat -> begin scan i fate now c call = Some c' ->
  exists t' pc', c' = goto i c t' call pc' /\ shrinks n (cl_tables c) (call, Begin) t' (call, pc').
Proof.
  intros Hn. unfold begin.
  destruct call as [id seen events|run|agent|a|before|o scope|q].
  - destruct (event_rows events) as [rows|e] eqn:E;
      [apply event_rows_Ok in E as (_ & _ & E & _)|]; repeat case_match; intros Hc; simplify_eq;
      shrinking.
  - destruct (event_rows (sr_events run)) as [rows|e] eqn:E;
      [apply event_rows_Ok in E as (_ & _ & E & _)|]; repeat case_match; intros Hc; simplify_eq;
      shrinking.
  - destruct (upsert_agent (cl_tables c) agent) as [r t'] eqn:E. intros [= <-]. apply single_shrinks; [unfold statements_left; simpl; lia|].
    unfold upsert_agent in E. repeat case_match; simplify_eq; simpl; lia.
  - intros [= <-]. apply single_shrinks; unfold statements_left; simpl; lia.
  - pose proof (cut_rows_length (cl_tables c) before) as Hc.
    rewrite <-(Permutation_length (scan_visits i (cut_rows (cl_tables c) (cut (cl_tables c) before)))) in Hc.
    destruct fate; intros [= <-]; shrinking.
  - repeat case_match; intros Hc; simplify_eq; shrinking.
  - repeat case_match; intros Hc; simplify_eq; shrinking.
Qed.

Lemma step_shrinks n i fate now c call pc c' :
  (length (t_outbox (cl_tables c)) <= n)%nat -> cl_sessions c !! i = Some (call, pc) ->
  step insert_error scan i fate now c = Some c' ->
  exists t' pc' h, c' = mkCluster t' (<[i := (call, pc')]> (cl_sessions c)) h /\
    shrinks n (cl_tables c) (call, pc) t' (call, pc').
Proof.
  intros Hn Hi. unfold step. rewrite Hi. cbn [mbind option_bind].
  assert (forall c', (exists t' pc', c' = goto i c t' call pc' /\ shrinks n (cl_tables c) (call, pc) t' (call, pc')) ->
    exists t' pc' h, c' = mkCluster t' (<[i := (call, pc')]> (cl_sessions c)) h /\
    shrinks n (cl_tables c) (call, pc) t' (call, pc')) as Hgo
    by (intros c1 (t' & pc' & -> & Hs); by exists t', pc', (cl_hints c)).
  destruct pc as [|rows p|rows p|k stamp rows|w|w|w numbered| |through [|lock todo] held|p r|r].
  1: intros Hs; eapply Hgo, begin_shrinks; done.
  - repeat case_match; intros Hc; simplify_eq; apply Hgo; shrinking.
  - repeat case_match; intros Hc; simplify_eq; apply Hgo; shrinking.
  - destruct call as [|run| | | |o scope|]; try done.
    + repeat case_match; intros Hc; simplify_eq; apply Hgo; shrinking.
    + intros [= <-]. apply Hgo, single_shrinks; [unfold statements_left; simpl; lia|].
      unfold upsert_stop. by destruct (t_stops (cl_tables c) !! _).
  - repeat case_match; intros Hc; simplify_eq; apply Hgo; shrinking.
  - repeat case_match; intros Hc; simplify_eq; apply Hgo; shrinking.
  - pose proof (commit_length (cl_tables c) w numbered) as Hl.
    destruct fate, (w_row w), (w_rows w) eqn:E; intros [= <-]; apply Hgo; do 2 eexists; (split; [done|]); split;
      unfold rows_to_come, statements_left; cbn [fst snd]; rewrite ?E; cbn [length] in *; lia.
  - destruct fate; intros [= <-]; apply Hgo; shrinking.
  - destruct (delete_held (cl_tables c) through held) as [k t] eqn:E. intros [= <-].
    apply Hgo, single_shrinks; [unfold statements_left; simpl; lia|]. injection E as _ <-. apply filter_shorter.
  - repeat case_match; intros Hc; simplify_eq; apply Hgo; shrinking.
  - intros [= <-]. exists (cl_tables c), (Finished (Ok r)), (principal_hint_of p.1 p.2 :: cl_hints c).
    split; [done|]. split; unfold rows_to_come, statements_left; simpl; lia.
  - done.
Qed.

Lemma step_session i fate now c c' : step insert_error scan i fate now c = Some c' -> is_Some (cl_sessions c !! i).
Proof. unfold step. by destruct (cl_sessions c !! i). Qed.

Lemma step_left n i fate now c c' :
  step insert_error scan i fate now c = Some c' -> (rows_bound c <= n)%nat ->
  (rows_bound c' <= n)%nat /\ (total (statements_left n) c' < total (statements_left n) c)%nat.
Proof.
  intros Hs Hn. destruct (step_session _ _ _ _ _ Hs) as [[call pc] Hi]. unfold rows_bound in *.
  destruct (step_shrinks n i fate now c call pc c' ltac:(lia) Hi Hs) as (t' & pc' & h & -> & H1 & H2).
  pose proof (total_insert rows_to_come c i _ (call, pc') t' h Hi) as Hr.
  pose proof (total_insert (statements_left n) c i _ (call, pc') t' h Hi) as Hl. cbn [cl_tables]. lia.
Qed.

Lemma run_steps_left n steps c c' : run_steps insert_error scan steps c = Some c' -> (rows_bound c <= n)%nat ->
  (rows_bound c' <= n)%nat /\
  (length steps + total (statements_left n) c' <= total (statements_left n) c)%nat.
Proof.
  revert c. induction steps as [|[[i fate] now] steps IH]; intros c; cbn [run_steps]; [intros [= <-]; simpl; lia|].
  destruct (step insert_error scan i fate now c) as [c1|] eqn:Hs; [|done]. cbn [mbind option_bind]. intros Hrun Hn.
  destruct (step_left n _ _ _ _ _ Hs Hn) as [Hn1 Hlt]. destruct (IH c1 Hrun Hn1). simpl. lia.
Qed.

(** ** Every call finishes *)

(** Steps that are done, but for those Postgres fails with [e] to end a
    deadlock its session is in. *)
Inductive resolves (e : StoreError) : Cluster -> Steps -> Cluster -> Prop :=
| resolves_end c : resolves e c [] c
| resolves_goes c i now c1 more c2 :
    step insert_error scan i Goes now c = Some c1 -> resolves e c1 more c2 ->
    resolves e c ((i, Goes, now) :: more) c2
| resolves_deadlock c i now c1 more c2 :
    deadlocked c i -> step insert_error scan i (Fails e) now c = Some c1 -> resolves e c1 more c2 ->
    resolves e c ((i, Fails e, now) :: more) c2.

(** A session that has finished has nothing. *)
Lemma finished_has_none s n : finished s -> ~ has_need s n.
Proof.
  destruct s as [call pc]. intros [r Hr]. simpl in Hr. subst pc. destruct n; simpl; [done|]. apply not_elem_of_nil.
Qed.

Lemma cluster_pcs s0 c done i s : cluster_ok s0 c done -> cl_sessions c !! i = Some s -> pc_ok (cl_tables c) s.
Proof. intros Hck Hi. destruct s as [call pc]. by destruct (ck_sessions _ _ _ Hck i call pc Hi). Qed.

(** Some session goes on, unless some are in a deadlock. *)
Lemma goes_or_deadlock s0 c done i s now :
  cluster_ok s0 c done -> cl_sessions c !! i = Some s -> ~ finished s ->
  (exists j, is_Some (step insert_error scan j Goes now c)) \/ exists j, deadlocked c j.
Proof.
  intros Hck Hi Hf.
  destruct (decide (map_Exists (fun j _ => is_Some (step insert_error scan j Goes now c)) (cl_sessions c)))
    as [(j & _ & _ & Hg)|Hno]; [left; by exists j|right].
  set (todo := dom (filter (fun x : nat * (Call * Pc) => statements_left 0 x.2 <> 0%nat) (cl_sessions c))).
  assert (forall s, statements_left 0 s <> 0%nat <-> ~ finished s) as Hleft.
  { intros [call pc]. unfold finished, statements_left. cbn [fst snd]. split.
    - intros Hz [r Hr]. by rewrite Hr in Hz.
    - intros Hnf. destruct pc; try done; [destruct call; done|]. exfalso. apply Hnf. by eexists. }
  apply (cycle_from (waits_for c) todo ∅ i); [|apply elem_of_dom; exists s; apply map_lookup_filter_Some; by rewrite Hleft|set_solver|set_solver].
  rewrite union_empty_r_L. intros j [[call pc] [Hj Hnf%Hleft]%map_lookup_filter_Some]%elem_of_dom.
  pose proof (cluster_pcs _ _ _ _ _ Hck Hj) as Hpc.
  destruct (needs (cl_tables c) (call, pc)) as [n|] eqn:Hn.
  - destruct (taken j c n) eqn:Ht.
    + apply (taken_iff j c _ n Hj Hn) in Ht as [k Hw]. exists k. split; [|done].
      destruct Hw as (_ & _ & sk & m & _ & Hk & _ & Hh). apply elem_of_dom. exists sk. apply map_lookup_filter_Some.
      split; [done|]. apply Hleft. intros Hfin. by eapply finished_has_none.
    + exfalso. apply Hno. exists j, (call, pc). split; [done|]. eapply step_goes; [done..|].
      intros m. by rewrite Hn; intros [= <-].
  - exfalso. apply Hno. exists j, (call, pc). split; [done|]. eapply step_goes; [done..|].
    intros m. by rewrite Hn.
Qed.

Lemma resolves_left e n c : (rows_bound c <= n)%nat -> forall (now : Timestamp) s0 done, cluster_ok s0 c done ->
  exists more c', resolves e c more c' /\ forall i s, cl_sessions c' !! i = Some s -> finished s.
Proof.
  intros Hn now s0. remember (total (statements_left n) c) as m eqn:Hm.
  revert c Hn Hm. induction (lt_wf m) as [m _ IH]. intros c Hn Hm done Hck.
  assert (forall j fate c1, step insert_error scan j fate now c = Some c1 ->
    exists more c', resolves e c1 more c' /\ forall i s, cl_sessions c' !! i = Some s -> finished s) as Hnext.
  { intros j fate c1 Hs. destruct (step_left n _ _ _ _ _ Hs Hn) as [Hn1 Hlt].
    destruct (step_cluster_ok insert_error scan scan_visits _ _ _ _ _ _ _ Hck Hs) as [did Hck1].
    eapply (IH _ ltac:(subst m; exact Hlt) c1 Hn1 eq_refl _ Hck1). }
  destruct (decide (map_Exists (fun _ s => statements_left n s <> 0%nat) (cl_sessions c))) as [(i & s & Hi & Hs)|Hno].
  - assert (~ finished s) as Hf by (intros [r Hr]; unfold statements_left in Hs; by rewrite Hr in Hs).
    destruct (goes_or_deadlock _ _ _ i s now Hck Hi Hf) as [[j [c1 Hj]]|[j Hd]].
    + destruct (Hnext _ _ _ Hj) as (more & c' & Hr & Hfin). exists ((j, Goes, now) :: more), c'.
      split; [by eapply resolves_goes|done].
    + destruct (deadlocked_prunes c j) as (sj & Hj & before & through & todo & held & ->); [|done|].
      { intros k sk. by apply cluster_pcs with s0 done. }
      assert (is_Some (step insert_error scan j (Fails e) now c)) as [c1 Hs1].
      { unfold step. rewrite Hj. cbn [mbind option_bind]. destruct todo; [|by eexists].
        by destruct (delete_held (cl_tables c) through held); eexists. }
      destruct (Hnext _ _ _ Hs1) as (more & c' & Hr & Hfin). exists ((j, Fails e, now) :: more), c'.
      split; [by eapply resolves_deadlock|done].
  - exists [], c. split; [constructor|]. intros i [call pc] Hi. destruct (decide (statements_left n (call, pc) = 0%nat)) as [Hz|Hz].
    + unfold statements_left in Hz. destruct pc; try done; [destruct call; simpl in Hz; lia|by eexists].
    + exfalso. apply Hno. by exists i, (call, pc).
Qed.

(** C27. No call waits for ever.  Any number of sessions run their calls, their
    statements in any order, whichever of them fail.  A schedule is no longer
    than seven statements for each call and, for a prune, the rows it locks,
    which are two for each row the outbox can come to hold at most.  A session
    that is in a deadlock, waiting for itself through the sessions it waits
    for, is a prune that locks its rows (two servers' pruners may come to them
    in different orders): an append, an insert, a stop or a read never is.
    And wherever a schedule has come, a call that has not finished means that some
    session's next statement is done or some are in a deadlock; so if Postgres
    fails a statement of a session in a deadlock, and nothing else fails, every
    call finishes. *)
Theorem postgres_calls_finish s0 c steps c' (e : StoreError) :
  fresh c -> tables_ok (cl_tables c) -> stands s0 (cl_tables c) ->
  run_steps insert_error scan steps c = Some c' ->
  (length steps <= total (statements_left (rows_bound c)) c)%nat /\
  (forall i, deadlocked c' i -> exists s, cl_sessions c' !! i = Some s /\ pruning s) /\
  (forall i s now, cl_sessions c' !! i = Some s -> ~ finished s ->
    (exists j, is_Some (step insert_error scan j Goes now c')) \/ exists j, deadlocked c' j) /\
  exists more c'', resolves e c' more c'' /\ forall i s, cl_sessions c'' !! i = Some s -> finished s.
Proof.
  intros Hf Hok Hs Hrun. destruct (run_steps_left (rows_bound c) _ _ _ Hrun ltac:(done)) as [Hn Hlen].
  destruct (run_steps_ok _ _ scan_visits _ _ _ _ _ (fresh_ok s0 c Hf Hok Hs) Hrun) as (dids & _ & Hck).
  split_and!; [lia| |by intros; eapply goes_or_deadlock|by apply (resolves_left e _ _ Hn 0%Z _ _ Hck)].
  intros i. apply deadlocked_prunes. intros k s. by eapply cluster_pcs.
Qed.

End Steps.

(** ** Demonstration *)

Section Demo.

#[local] Existing Instance demo_uuids.

(** A run is inserted, with one event; then two servers' pruners come to its
    outbox row and its owner's counter in opposite orders. *)
Definition cycle_cluster : Cluster :=
  mkCluster no_tables
    (<[0 := (CPutRun sample_run, Begin)]> (<[1 := (CPrune 6%Z, Begin)]> (<[2 := (CPrune 6%Z, Begin)]> ∅))) [].

Definition cycle_steps : Steps :=
  (fun i => (i, Goes, 5%Z)) <$> [0; 0; 0; 0; 0; 0; 1; 2; 1; 2].

Lemma cycle_fresh : fresh cycle_cluster.
Proof.
  intros i s Hi. unfold cycle_cluster in Hi. cbn in Hi.
  repeat (apply lookup_insert_Some in Hi as [[_ <-]|[_ Hi]]; [done|]). by rewrite lookup_empty in Hi.
Qed.

Definition cycle_end : option Cluster := run_steps (mkStoreError "duplicate key") demo_scan cycle_steps cycle_cluster.

Definition cycle_key : Principal := principal (owner sample_spec).

(** Each has what the other needs. *)
Lemma cycle_sessions :
  (fun c => cl_sessions c !! 1) <$> cycle_end =
    Some (Some (CPrune 6%Z, Cutting {[cycle_key := 1%N]} [LEntry cycle_key 1] [LCounter cycle_key])) /\
  (fun c => cl_sessions c !! 2) <$> cycle_end =
    Some (Some (CPrune 6%Z, Cutting {[cycle_key := 1%N]} [LCounter cycle_key] [LEntry cycle_key 1])).
Proof. split; vm_compute; reflexivity. Qed.

Lemma cycle_deadlocked c : cycle_end = Some c -> deadlocked c 1.
Proof.
  pose proof cycle_sessions as [H1 H2]. intros E. rewrite E in H1, H2. injection H1 as H1. injection H2 as H2.
  apply tc_l with 2; [|apply tc_once]; (split; [done|]); do 3 eexists; (split_and!; [eassumption..|done|]);
    apply list_elem_of_here.
Qed.

Lemma postgres_calls_finish_witness :
  match cycle_end with
  | Some c =>
      (length cycle_steps <= 15)%nat /\ deadlocked c 1 /\
      exists more c', resolves (mkStoreError "duplicate key") demo_scan (mkStoreError "deadlock detected") c more c' /\
        forall i s, cl_sessions c' !! i = Some s -> finished s
  | None => False
  end.
Proof.
  assert (bool_decide (is_Some cycle_end) = true) as Hsome by (vm_compute; reflexivity).
  destruct cycle_end as [c|] eqn:E; [|discriminate Hsome].
  destruct (postgres_calls_finish (mkStoreError "duplicate key") demo_scan demo_scan_visits demo_start cycle_cluster
    cycle_steps c (mkStoreError "deadlock detected") cycle_fresh no_tables_ok demo_stands E) as (Hlen & _ & _ & Hmore).
  split; [etrans; [exact Hlen|vm_compute; lia]|]. split; [by apply cycle_deadlocked|exact Hmore].
Defined.

End Demo.
