(* ===== verification/PostgresLists.v ===== *)
(** * The Postgres store's lists ([server/postgres.rs]): agents, threads, stops

    The queries over a principal's runs, each of one snapshot.  A recursive
    query ends where it finds no more rows; its fuel is the number of turns it
    may take, and the theorems say how many are enough.  [backfill] is what a
    connect does for rows an older server stored.

    [stopped] answers as the in-memory store does
    ([pg_stopped_iff_covered]). *)

From S2P Require Import Prelude Protocol Uuids MemoryOwner Reduce DriverTurns Store StoreProofs StoreStops StoreThreads Postgres PostgresProofs.

(** ** Rows an older server stored *)

(** [nullif(spec->'metadata'->>'session_id', '')] is [thread_of].  A run with no
    first event is dated now. *)
Definition backfill_row (t : Tables) (now : Timestamp) (id : RunId) (row : RunRow) : RunRow :=
  match rr_owner_issuer row with
  | Some _ => row
  | None =>
      let spec := rr_spec row in
      mkRunRow spec (Some (issuer (owner spec))) (Some (subject (owner spec))) (thread_of spec)
        (parent (lineage spec))
        (Some (match List.find (fun e => ev_seq e =? 1)%N (events_of t id) with
               | Some e => at_ (envelope (ev_body e))
               | None => now
               end))
        (rr_stored_seq row)
  end.

Definition backfill (now : Timestamp) (t : Tables) : Tables :=
  mkTables (t_agents t) (map_imap (fun id row => Some (backfill_row t now id row)) (t_runs t)) (t_run_events t)
    (t_counters t) (t_outbox t) (t_artifacts t) (t_stops t) (gol_order t).

(** A row whose columns its server wrote, from its spec. *)
Definition filled (row : RunRow) : Prop :=
  rr_owner_issuer row = Some (issuer (owner (rr_spec row))) /\
  rr_owner_subject row = Some (subject (owner (rr_spec row))) /\
  rr_thread_id row = thread_of (rr_spec row) /\ rr_parent_run row = parent (lineage (rr_spec row)) /\
  is_Some (rr_created_ms row).

(** A row an older server stored, without them. *)
Definition unfilled (row : RunRow) : Prop :=
  rr_owner_issuer row = None /\ rr_owner_subject row = None /\ rr_thread_id row = None /\
  rr_parent_run row = None /\ rr_created_ms row = None.

Definition columns_ok (t : Tables) : Prop :=
  forall id row, t_runs t !! id = Some row -> run_id (rr_spec row) = id /\ (filled row \/ unfilled row).

(** ** Agents *)

Definition select_agents_of (t : Tables) (o : Owner) : list StoredAgent :=
  sort_by agent_leb
    (List.filter (fun a => bool_decide (principal (sa_owner a) = principal o)) (map_to_list (t_agents t)).*2).

(** ** Stops *)

(** A row of [chain]. *)
Record ChainRow : Type := mkChainRow {
  ch_id : RunId;
  ch_thread : option string;
  ch_stored_seq : option N;
  ch_parent : option RunId;
  ch_owner : Principal;
}.

Definition or_else {A} (a b : option A) : option A := match a with Some _ => a | None => b end.

Definition chain_row (id : RunId) (row : RunRow) : ChainRow :=
  mkChainRow id (or_else (rr_thread_id row) (thread_of (rr_spec row))) (rr_stored_seq row)
    (or_else (rr_parent_run row) (parent (lineage (rr_spec row)))) (row_owner row).

(** [with recursive chain]; [None]: the fuel ran out. *)
Fixpoint chain (fuel : nat) (t : Tables) (next : option RunId) : option (list ChainRow) :=
  match next with
  | None => Some []
  | Some id =>
      match t_runs t !! id with
      | None => Some []
      | Some row =>
          match fuel with
          | O => None
          | S fuel => rows ← chain fuel t (ch_parent (chain_row id row)); Some (chain_row id row :: rows)
          end
      end
  end.

Section Stops.
Context `{UuidCrate}.

(** The join's condition: [stops.kind] and [stops.key] name the row. *)
Definition stop_covers (row : ChainRow) (stop : Principal * (string * string) * N) : bool :=
  let '(p, (kind, key), requested_seq) := stop in
  bool_decide (p = ch_owner row) &&
  (bool_decide (kind = "run") && bool_decide (key = id_display (ch_id row)) ||
   (default 0%N (ch_stored_seq row) <? requested_seq)%N &&
   (bool_decide (kind = "thread") && bool_decide (ch_thread row = Some key) || bool_decide (kind = "owner"))).

Definition select_stopped (fuel : nat) (t : Tables) (id : RunId) : option bool :=
  rows ← chain fuel t (Some id);
  Some (existsb (fun row => existsb (stop_covers row) (map_to_list (t_stops t))) rows).

End Stops.

(** [owner_issuer = $1 and owner_subject = $2] *)
Definition owner_columns (o : Owner) (row : RunRow) : bool :=
  bool_decide (rr_owner_issuer row = Some (issuer o)) && bool_decide (rr_owner_subject row = Some (subject o)).

Definition unfilled_mine (o : Owner) (row : RunRow) : bool :=
  bool_decide (rr_owner_issuer row = None) && bool_decide (principal (owner (rr_spec row)) = principal o).

Definition mine (o : Owner) (row : RunRow) : bool := owner_columns o row || unfilled_mine o row.

Definition is_open (t : Tables) (id : RunId) : bool := negb (ended t id).

(** The rows under those of [level], and so on, [None] if the fuel ran out. *)
Fixpoint tree (fuel : nat) (t : Tables) (level : list RunId) : option (list RunId) :=
  match level with
  | [] => Some []
  | _ =>
      match fuel with
      | O => None
      | S fuel =>
          let under :=
            (fun x => x.1) <$>
            List.filter (fun x : RunId * RunRow =>
                existsb (fun above => bool_decide (rr_parent_run x.2 = Some above) ||
                           bool_decide (rr_owner_issuer x.2 = None) &&
                           bool_decide (parent (lineage (rr_spec x.2)) = Some above)) level)
              (map_to_list (t_runs t)) in
          more ← tree fuel t under; Some (level ++ more)
      end
  end.

Definition open_rows (fuel : nat) (t : Tables) (o : Owner) (scope : StopScope) : option (list (RunId * RunRow)) :=
  let rows := map_to_list (t_runs t) in
  match scope with
  | StopRun run =>
      ids ← tree fuel t (match t_runs t !! run with Some row => if mine o row then [run] else [] | None => [] end);
      Some (List.filter (fun x => bool_decide (x.1 ∈ ids) && mine o x.2 && is_open t x.1) rows)
  | StopThread thread =>
      Some (List.filter (fun x => owner_columns o x.2 && bool_decide (rr_thread_id x.2 = Some thread) && is_open t x.1) rows ++
            List.filter (fun x => unfilled_mine o x.2 &&
              bool_decide (metadata (rr_spec x.2) !! SESSION_ID = Some thread) && is_open t x.1) rows)
  | StopOwner =>
      Some (List.filter (fun x => owner_columns o x.2 && is_open t x.1) rows ++
            List.filter (fun x => unfilled_mine o x.2 && is_open t x.1) rows)
  end.

(** [runs_with_events]: the runs of the rows, with their events by [seq]. *)
Definition runs_with_events (t : Tables) (rows : list (RunId * RunRow)) : list StoredRun :=
  (fun x => mkStoredRun (rr_spec x.2) (ev_body <$> sort_by seq_leb (events_of t x.1))) <$> rows.

Definition select_open_runs_under (fuel : nat) (t : Tables) (o : Owner) (scope : StopScope) : option (list StoredRun) :=
  runs_with_events t <$> open_rows fuel t o scope.

(** ** Threads *)

(** [order by created_ms, id]: no date is last. *)
Definition dated_leb (a b : option Z) : bool :=
  match a, b with
  | Some a, Some b => (a <=? b)%Z
  | _, None => true
  | None, Some _ => false
  end.

Definition id_leb (a b : RunId) : bool := (uuid_N (as_uuid a) <=? uuid_N (as_uuid b))%N.

Definition row_leb (a b : RunId * RunRow) : bool :=
  if bool_decide (rr_created_ms a.2 = rr_created_ms b.2) then id_leb a.1 b.1
  else dated_leb (rr_created_ms a.2) (rr_created_ms b.2).

Definition number_order (a b : option N) : bool :=
  match a, b with
  | Some a, Some b => (a <=? b)%N
  | _, None => true
  | None, Some _ => false
  end.

(** [order by created_ms, stored_seq, id]. *)
Definition stored_row_leb (a b : RunId * RunRow) : bool :=
  if bool_decide (rr_created_ms a.2 = rr_created_ms b.2) then
    if bool_decide (rr_stored_seq a.2 = rr_stored_seq b.2) then id_leb a.1 b.1
    else number_order (rr_stored_seq a.2) (rr_stored_seq b.2)
  else dated_leb (rr_created_ms a.2) (rr_created_ms b.2).

Definition thread_rows (t : Tables) (o : Owner) (thread : string) : list (RunId * RunRow) :=
  List.filter (fun x => owner_columns o x.2 && bool_decide (rr_thread_id x.2 = Some thread)) (map_to_list (t_runs t)).

Definition no_parent (x : RunId * RunRow) : bool := bool_decide (rr_parent_run x.2 = None).

(** [min]: nulls do not count. *)
Definition sql_min (l : list (option Z)) : option Z :=
  foldr (fun a m => match a, m with
                    | Some a, Some m => Some (Z.min a m)
                    | Some a, None => Some a
                    | None, m => m
                    end) None l.

(** A group's row: the thread, its count, its agent and its start. *)
Definition group_row (thread : string) (rows : list (RunId * RunRow)) : string * N * option AgentId * option Z :=
  let roots := List.filter no_parent rows in
  let agent rows := (fun x => agent_id (rr_spec x.2)) <$> head (sort_by row_leb rows) in
  let started rows := sql_min ((fun x => rr_created_ms x.2) <$> rows) in
  (thread, N.of_nat (length rows), or_else (agent roots) (agent rows), or_else (started roots) (started rows)).

Definition group_ids (t : Tables) (o : Owner) : list string :=
  remove_dups (omap (fun x => if owner_columns o x.2 then rr_thread_id x.2 else None) (map_to_list (t_runs t))).

Section Threads.

(** The order of [text] in the database, and what is said of a null that is
    read as a value. *)
Context (text_leb : string -> string -> bool) (null_error : StoreError).

(** [order by started desc, thread_id]: a null start is first. *)
Definition group_leb (a b : string * N * option AgentId * option Z) : bool :=
  if bool_decide (a.2 = b.2) then text_leb a.1.1.1 b.1.1.1 else dated_leb b.2 a.2.

Definition group_summary (g : string * N * option AgentId * option Z) : result ThreadSummary StoreError :=
  match g with
  | (thread, runs, Some agent, Some started) => Ok (mkThreadSummary thread agent started runs)
  | _ => Err null_error
  end.

Definition select_threads (t : Tables) (o : Owner) (after limit : N) : result (list ThreadSummary) StoreError :=
  let groups := (fun thread => group_row thread (thread_rows t o thread)) <$> group_ids t o in
  collect group_summary (sql_limit limit (drop (N.to_nat (clamp_i64 after)) (sort_by group_leb groups))).

End Threads.

Definition select_runs_of_thread (t : Tables) (o : Owner) (thread : string) (limit : N) : list StoredRun :=
  runs_with_events t (sql_limit limit (sort_by stored_row_leb (thread_rows t o thread))).

Definition select_thread_root (t : Tables) (o : Owner) (thread : string) : option RunSpec :=
  (fun x => rr_spec x.2) <$> head (sort_by row_leb (List.filter no_parent (thread_rows t o thread))).

(** ** What the queries find *)

Lemma backfill_columns t now : columns_ok t -> columns_ok (backfill now t).
Proof.
  intros Hc id row. unfold backfill. cbn. rewrite map_lookup_imap.
  destruct (t_runs t !! id) as [old|] eqn:Ho; [|done]. cbn. intros [= <-]. destruct (Hc id old Ho) as [Hid Hf].
  unfold backfill_row. destruct (rr_owner_issuer old) as [i|] eqn:Ei; [done|]. split; [done|]. left. by split_and!.
Qed.

(** After it no row is left without its columns. *)
Lemma backfill_filled t now id row : columns_ok t -> t_runs (backfill now t) !! id = Some row -> filled row.
Proof.
  intros Hc. unfold backfill. cbn. rewrite map_lookup_imap.
  destruct (t_runs t !! id) as [old|] eqn:Ho; [|done]. cbn. intros [= <-]. destruct (Hc id old Ho) as [Hid Hf].
  unfold backfill_row. destruct (rr_owner_issuer old) as [i|] eqn:Ei.
  - destruct Hf as [Hf|(Hn & _)]; [done|congruence].
  - by split_and!.
Qed.

Lemma select_agents_of_ok t o : select_agents_of t o = agents_of (contents t) o.
Proof.
  unfold select_agents_of, agents_of. f_equal. unfold map_values. cbn. apply List.filter_ext. intros a.
  apply eq_true_iff_eq. by rewrite bool_decide_eq_true, owner_is_principal.
Qed.

Lemma chain_row_columns t id row : columns_ok t -> t_runs t !! id = Some row ->
  ch_thread (chain_row id row) = thread_of (rr_spec row) /\
  ch_parent (chain_row id row) = parent (lineage (rr_spec row)) /\
  ch_owner (chain_row id row) = principal (owner (rr_spec row)).
Proof.
  intros Hc Hr. destruct (Hc id row Hr) as [_ Hf]. unfold chain_row, row_owner. cbn [ch_thread ch_parent ch_owner].
  destruct Hf as [(H1 & H2 & H3 & H4 & _)|(H1 & H2 & H3 & H4 & _)]; rewrite H1, H2, H3, H4; cbn; [|done].
  by destruct (thread_of _), (parent _).
Qed.

Section StopProofs.
Context `{UuidCrate}.

Lemma stop_covers_names t id row p scope n : columns_ok t -> t_runs t !! id = Some row ->
  stop_covers (chain_row id row) (p, kind_and_key scope, n) =
  bool_decide (p = principal (owner (rr_spec row))) &&
  stop_names scope n (run_of t id row) (default 0%N (rr_stored_seq row)).
Proof.
  intros Hc Hr. destruct (chain_row_columns t id row Hc Hr) as (Ht & _ & Ho). destruct (Hc id row Hr) as [Hid _].
  unfold stop_covers. rewrite Ht, Ho. cbn [ch_stored_seq chain_row ch_id].
  destruct scope as [run|thread|]; cbn [kind_and_key stop_names sr_spec run_of]; f_equal; rewrite ?Hid.
  - cbn. rewrite andb_false_r, orb_false_r. apply bool_decide_ext. split; [by intros ->%id_display_inj|by intros ->].
  - cbn. by rewrite orb_false_r.
  - cbn. by rewrite andb_true_r.
Qed.

Lemma covers_here t stops id row : columns_ok t -> stops_are t stops -> t_runs t !! id = Some row ->
  existsb (stop_covers (chain_row id row)) (map_to_list (t_stops t)) =
  stop_here (mkStopsStore (contents t) stops) id (run_of t id row).
Proof.
  intros Hc Hs Hr.
  assert (number_of (contents t) id = default 0%N (rr_stored_seq row)) as Hn.
  { unfold number_of, lock_read. cbn. by rewrite lookup_omap, Hr. }
  apply eq_true_iff_eq. rewrite stop_here_spec, existsb_exists. cbn [ss_store ss_stops sr_spec run_of]. rewrite Hn. split.
  - intros ([[p key] n] & Hin%list_elem_of_In%elem_of_map_to_list & Hcov).
    destruct (sa_scope t stops Hs _ _ Hin) as (p' & scope & [= -> ->]).
    rewrite (stop_covers_names t) in Hcov by done. apply andb_true_iff in Hcov as [Hp%bool_decide_eq_true Hcov].
    exists (p', scope, n). by apply (sa_stop t stops Hs) in Hin.
  - intros ([[p scope] n] & Hin%(sa_stop t stops Hs) & Hp & Hcov). simpl in *.
    exists (p, kind_and_key scope, n). split; [by apply list_elem_of_In, elem_of_map_to_list|].
    rewrite (stop_covers_names t) by done. by rewrite bool_decide_true.
Qed.

Lemma chain_covered t stops fuel id : columns_ok t -> stops_are t stops -> lineage_ok (contents t) ->
  (walk_fuel (contents t) id <= fuel)%nat ->
  exists rows, chain fuel t (Some id) = Some rows /\
    (existsb (fun row => existsb (stop_covers row) (map_to_list (t_stops t))) rows = true <->
     covered (mkStopsStore (contents t) stops) id).
Proof.
  intros Hc Hs Hok. revert id. induction fuel as [|fuel IH]; intros id Hf.
  { unfold walk_fuel in Hf. destruct (get_run _ _); lia. }
  cbn [chain]. unfold walk_fuel in Hf. pose proof (get_run_contents t id) as Hg.
  destruct (t_runs t !! id) as [row|] eqn:Hr.
  2:{ exists []. split; [done|]. split; [done|]. intros Hcov. simpl in Hg.
      inversion Hcov as [? ? Hg'|? ? ? Hg']; simpl in Hg'; congruence. }
  simpl in Hg. rewrite Hg in Hf. simpl in Hf. destruct (chain_row_columns t id row Hc Hr) as (_ & Hp & _). rewrite Hp.
  assert (exists rows, chain fuel t (parent (lineage (rr_spec row))) = Some rows /\
    (existsb (fun row => existsb (stop_covers row) (map_to_list (t_stops t))) rows = true <->
     exists p, parent (lineage (rr_spec row)) = Some p /\ covered (mkStopsStore (contents t) stops) p)) as (rows & -> & Hrows).
  { destruct (parent (lineage (rr_spec row))) as [p|] eqn:Ep.
    - destruct (IH p) as (rows & Hch & Hcov).
      { unfold walk_fuel. destruct (get_run (contents t) p) as [above|] eqn:Ha; [|lia].
        specialize (Hok id (run_of t id row) p above Hg Ep Ha). simpl in Hok. lia. }
      exists rows. split; [done|]. rewrite Hcov. split; [by exists p|]. by intros (? & [= <-] & ?).
    - exists []. split; [by destruct fuel|]. split; [done|]. by intros (? & ? & _). }
  cbn [mbind option_bind]. eexists. split; [reflexivity|]. cbn [existsb].
  rewrite (covers_here t stops id row Hc Hs Hr), orb_true_iff, Hrows. split.
  - intros [Hh|(p & Hp' & Hcov)]; [by eapply covered_here|by eapply covered_above].
  - intros Hcov. inversion Hcov as [? ? Hg' Hh|? ? p Hg' Hp' Hcov']; simpl in Hg'; rewrite Hg in Hg';
      injection Hg' as <-; [by left|right; by exists p].
Qed.

(** [put_stop]'s row is the stop: it has a number of its own, after those drawn
    before, and replaces a stop of the same scope. *)
Lemma upsert_stop_are t stops o scope : stops_are t stops ->
  exists n, (gol_order t < n)%N /\
    stops_are (upsert_stop (nextval t).2 o scope (nextval t).1)
      (mkLock (List.filter (fun e => negb (bool_decide (e.1.1 = principal o) && bool_decide (e.1.2 = scope)))
                 (lock_read stops) ++ [(principal o, scope, n)]) (poisoned stops)).
Proof.
  intros Hs. set (key := (principal o, kind_and_key scope)).
  assert (exists n, (gol_order t < n)%N /\
    t_stops (upsert_stop (nextval t).2 o scope (nextval t).1) = <[key := n]> (t_stops t)) as (n & Hn & Et).
  { unfold upsert_stop. cbn. fold key. destruct (t_stops t !! key); cbn; eexists; (split; [|reflexivity]); lia. }
  exists n. split; [done|]. by eapply stops_are_insert.
Qed.

(** C28. Postgres tells what a stop covers as the in-memory store does.  On tables
    whose runs lie below their parents, whether their rows were stored by this
    server or, without their columns, by an older one, the recursive query ends
    within the run's hops and two turns, and says true exactly when a stop of
    the run's own principal names it or a run above it.  And once a stop is put,
    it says so of every run of the scope whose number was drawn before, be its
    insert committed since. *)
Theorem pg_stopped_iff_covered t stops id fuel :
  columns_ok t -> stops_are t stops -> lineage_ok (contents t) -> (walk_fuel (contents t) id <= fuel)%nat ->
  (exists b, select_stopped fuel t id = Some b /\ (b = true <-> covered (mkStopsStore (contents t) stops) id)) /\
  forall o scope row,
    t_runs t !! id = Some row -> in_scope o scope id (run_of t id row) ->
    (default 0%N (rr_stored_seq row) <= gol_order t)%N ->
    select_stopped fuel (upsert_stop (nextval t).2 o scope (nextval t).1) id = Some true.
Proof.
  intros Hc Hs Hok Hf. split.
  - destruct (chain_covered t stops fuel id Hc Hs Hok Hf) as (rows & Hch & Hcov). unfold select_stopped. rewrite Hch.
    by eexists.
  - intros o scope row Hr [Ho Hscope] Hseq. destruct (upsert_stop_are t stops o scope Hs) as (n & Hn & Hs').
    set (t' := upsert_stop _ o scope _) in *.
    assert (t_runs t' = t_runs t) as Hruns.
    { unfold t', upsert_stop. cbn. by destruct (t_stops t !! _). }
    assert (get_run (contents t') = get_run (contents t)) as Hget.
    { unfold t', upsert_stop. cbn. by destruct (t_stops t !! _). }
    assert (columns_ok t') as Hc' by (unfold columns_ok; by rewrite Hruns).
    assert (lineage_ok (contents t')) as Hok' by (unfold lineage_ok; by rewrite Hget).
    assert (walk_fuel (contents t') id <= fuel)%nat as Hf' by (unfold walk_fuel; by rewrite Hget).
    assert (run_of t' id row = run_of t id row) as Hrun.
    { pose proof (get_run_contents t' id) as E1. pose proof (get_run_contents t id) as E2.
      rewrite Hruns, Hget, E2, Hr in E1. cbn in E1. apply (inj Some). by symmetry. }
    destruct (chain_covered t' _ fuel id Hc' Hs' Hok' Hf') as (rows & Hch & Hcov). unfold select_stopped. rewrite Hch.
    cbn. f_equal. apply Hcov. eapply (covered_here _ id (run_of t' id row)).
    + cbn [ss_store]. by rewrite Hget, get_run_contents, Hr, Hrun.
    + apply stop_here_spec. exists (principal o, scope, n). cbn [ss_stops ss_store]. unfold lock_read at 1. cbn [guarded].
      split; [apply elem_of_app; right; apply list_elem_of_here|]. rewrite Hrun. split; [by rewrite Ho|]. cbn [fst snd].
      assert (number_of (contents t') id = default 0%N (rr_stored_seq row)) as ->.
      { unfold number_of, lock_read. cbn. by rewrite Hruns, lookup_omap, Hr. }
      destruct scope as [r|thread|]; simpl in *.
      * by rewrite bool_decide_true.
      * rewrite bool_decide_true by done. rewrite andb_true_r. apply N.ltb_lt. lia.
      * apply N.ltb_lt. lia.
Qed.

End StopProofs.

(** ** Demonstration *)

Section Demo.

#[local] Instance demo_uuids : UuidCrate := hyphenated.

(** A run of this server, number 1, and one an older server stored under it. *)
Definition demo_child : RunRow := mkRunRow child_spec None None None None None (Some 2%N).

Definition demo_tables : Tables :=
  mkTables ∅ (<[id_of 5 := demo_child]> {[id_of 1 := run_row sample_run 5%Z 1]}) [] ∅ [] ∅ ∅ 2.

Lemma demo_rows id row : t_runs demo_tables !! id = Some row ->
  (id = id_of 5 /\ row = demo_child) \/ (id = id_of 1 /\ row = run_row sample_run 5%Z 1).
Proof.
  cbn. intros [[<- <-]|[_ [<- <-]%lookup_singleton_Some]]%lookup_insert_Some; [by left|by right].
Qed.

Lemma demo_columns : columns_ok demo_tables.
Proof.
  intros id row [[-> ->]|[-> ->]]%demo_rows; (split; [reflexivity|]); [right; by split_and!|left].
  split_and!; try reflexivity. by eexists.
Qed.

Lemma demo_stops : stops_are demo_tables (mkLock [] false).
Proof.
  split.
  - intros p scope n. cbn. rewrite lookup_empty. split; [|done]. intros Hin. by apply not_elem_of_nil in Hin.
  - intros key n. cbn. by rewrite lookup_empty.
Qed.

Lemma demo_lineage : lineage_ok (contents demo_tables).
Proof.
  intros id run p above. rewrite !get_run_contents. intros Hr Hp Ha.
  destruct (t_runs demo_tables !! id) as [row|] eqn:Er; [|discriminate Hr]. injection Hr as <-.
  destruct (t_runs demo_tables !! p) as [row'|] eqn:Er'; [|discriminate Ha]. injection Ha as <-.
  apply demo_rows in Er as [[-> ->]|[-> ->]]; apply demo_rows in Er' as [[-> ->]|[-> ->]]; try discriminate Hp; done.
Qed.

(** A stop of the run covers the older server's run under it. *)
Lemma pg_stopped_iff_covered_witness :
  select_stopped 3 demo_tables (id_of 5) = Some false /\
  select_stopped 3 (upsert_stop (nextval demo_tables).2 (owner sample_spec) StopOwner (nextval demo_tables).1)
    (id_of 5) = Some true.
Proof.
  destruct (pg_stopped_iff_covered demo_tables (mkLock [] false) (id_of 5) 3 demo_columns demo_stops demo_lineage)
    as [(b & Hb & _) Hafter]; [vm_compute; lia|]. split; [vm_compute; reflexivity|].
  apply (Hafter (owner sample_spec) StopOwner demo_child); [reflexivity|split; [reflexivity|exact I]|vm_compute; discriminate].
Defined.

End Demo.
