(* ===== verification/PostgresTriggers.v ===== *)
(** * Triggers in the Postgres store ([server/postgres.rs])

    A table of triggers: each row is a trigger's JSON and the columns that its
    copies of never override.  Every call is one statement, but for
    [put_trigger], a transaction under its principal's advisory lock, and
    [resume_trigger], which reads the trigger it did not change.

    Call for call the table answers what the in-memory list answers
    ([pg_triggers_are_triggers]).  Generations and rotations stay far under the
    range of a [bigint], whose overflow is left out.  [unscheduled_triggers],
    whose rows come in no order, is not one of the calls compared. *)

From stdpp Require Import sorting.
From S2P Require Import Prelude Protocol MemoryOwner Store StoreTriggers StoreThreads Postgres PostgresProofs.

(** ** The table *)

(** A [body] column as it is read: a trigger, or one of a kind a newer server
    stored. *)
Inductive TriggerBody := Readable (t : StoredTrigger) | Unreadable (error : StoreError).

Record TriggerRow : Type := mkTriggerRow {
  tr_issuer : string;
  tr_subject : string;
  tr_body : TriggerBody;
  tr_enabled : bool;
  tr_next_fire_ms : option Z;
  tr_created_ms : Z;
}.

Abbreviation TriggerTable := (gmap TriggerId TriggerRow).

(** [trigger_row]. *)
Definition trigger_row (row : TriggerRow) : result StoredTrigger StoreError :=
  match tr_body row with
  | Readable t => Ok (set_next_fire (set_enabled_to t (tr_enabled row)) (tr_next_fire_ms row))
  | Unreadable e => Err e
  end.

Definition readable_triggers (rows : list TriggerRow) : list StoredTrigger :=
  omap (fun row => match trigger_row row with Ok t => Some t | Err _ => None end) rows.

(** [row.as_ref().map(trigger_row).transpose()]. *)
Definition read_row (row : option TriggerRow) : result (option StoredTrigger) StoreError :=
  match row with
  | None => Ok None
  | Some row => match trigger_row row with Ok t => Ok (Some t) | Err e => Err e end
  end.

(** [owner_issuer = $ and owner_subject = $]. *)
Definition row_mine (o : Owner) (row : TriggerRow) : bool :=
  bool_decide (tr_issuer row = issuer o) && bool_decide (tr_subject row = subject o).

(** [body->'kind' ? 'webhook'] and the rotation, and [? 'schedule']. *)
Definition row_rotation (row : TriggerRow) : option N :=
  match tr_body row with
  | Readable t => match tg_kind t with Webhook rotation => Some rotation | Schedule _ _ => None end
  | Unreadable _ => None
  end.

Definition row_schedule (row : TriggerRow) : bool :=
  match tr_body row with
  | Readable t => match tg_kind t with Schedule _ _ => true | Webhook _ => false end
  | Unreadable _ => false
  end.

(** ** Updates *)

Definition row_enabled (row : TriggerRow) (enabled : bool) : TriggerRow :=
  mkTriggerRow (tr_issuer row) (tr_subject row) (tr_body row) enabled (tr_next_fire_ms row) (tr_created_ms row).

Definition row_next_fire (row : TriggerRow) (next : option Z) : TriggerRow :=
  mkTriggerRow (tr_issuer row) (tr_subject row) (tr_body row) (tr_enabled row) next (tr_created_ms row).

Definition row_body (row : TriggerRow) (body : TriggerBody) : TriggerRow :=
  mkTriggerRow (tr_issuer row) (tr_subject row) body (tr_enabled row) (tr_next_fire_ms row) (tr_created_ms row).

(** [jsonb_set(body, '{kind,webhook,rotation}', ...)]. *)
Definition rotated (row : TriggerRow) : TriggerRow :=
  match tr_body row, row_rotation row with
  | Readable t, Some rotation => row_body row (Readable (set_kind t (Webhook (rotation + 1))))
  | _, _ => row
  end.

(** [jsonb_set(body, '{generation}', ...)]. *)
Definition next_generation (row : TriggerRow) : TriggerRow :=
  match tr_body row with
  | Readable t =>
      row_body row
        (Readable (mkStoredTrigger (tg_id t) (tg_owner t) (tg_agent_id t) (tg_kind t) (tg_input t) (tg_placement t)
                     (tg_work_model t) (tg_limits t) (tg_missed t) (tg_enabled t) (tg_next_fire_ms t)
                     (tg_created_ms t) (tg_generation t + 1)))
  | Unreadable _ => row
  end.

(** [update triggers set ... where id = $1 and ... returning]. *)
Definition update_row (m : TriggerTable) (id : TriggerId) (cond : TriggerRow -> bool) (set : TriggerRow -> TriggerRow)
    : option TriggerRow * TriggerTable :=
  match m !! id with
  | Some row => if cond row then (Some (set row), <[id := set row]> m) else (None, m)
  | None => (None, m)
  end.

Definition update_set_enabled (m : TriggerTable) (o : Owner) (id : TriggerId) (enabled : bool)
    : result (option StoredTrigger) StoreError * TriggerTable :=
  let '(row, m) := update_row m id (row_mine o) (fun row => row_enabled row enabled) in (read_row row, m).

Definition update_rotate (m : TriggerTable) (o : Owner) (id : TriggerId)
    : result (option StoredTrigger) StoreError * TriggerTable :=
  let '(row, m) :=
    update_row m id
      (fun row => row_mine o row &&
         match row_rotation row with Some rotation => (rotation <? u32_max)%N | None => false end) rotated in
  (read_row row, m).

Definition update_resume (m : TriggerTable) (o : Owner) (id : TriggerId) (next : option Z)
    : option TriggerRow * TriggerTable :=
  update_row m id (fun row => row_mine o row && negb (tr_enabled row))
    (fun row => next_generation (row_next_fire (row_enabled row true) next)).

Definition update_advance (m : TriggerTable) (id : TriggerId) (due next : option Z) : bool * TriggerTable :=
  let '(row, m) := update_row m id (fun row => bool_decide (tr_next_fire_ms row = due))
                     (fun row => row_next_fire row next) in
  (bool_decide (is_Some row), m).

Definition update_pause_all (m : TriggerTable) (o : Owner) : nat * TriggerTable :=
  let pausing row := row_mine o row && tr_enabled row in
  (length (List.filter pausing (map_to_list m).*2),
   (fun row => if pausing row then row_enabled row false else row) <$> m).

Definition delete_row (m : TriggerTable) (o : Owner) (id : TriggerId) : bool * TriggerTable :=
  match m !! id with
  | Some row => if row_mine o row then (true, delete id m) else (false, m)
  | None => (false, m)
  end.

(** ** Reads *)

Definition row_id (x : TriggerId * TriggerRow) : N := uuid_N (as_uuid x.1).

(** [order by created_ms, id]. *)
Definition created_row_leb (a b : TriggerId * TriggerRow) : bool :=
  (tr_created_ms a.2 <? tr_created_ms b.2)%Z ||
  ((tr_created_ms a.2 =? tr_created_ms b.2)%Z && (row_id a <=? row_id b)%N).

(** [order by next_fire_ms, id], of rows that have one. *)
Definition next_row_leb (a b : TriggerId * TriggerRow) : bool :=
  if bool_decide (tr_next_fire_ms a.2 = tr_next_fire_ms b.2) then (row_id a <=? row_id b)%N
  else option_leb (tr_next_fire_ms a.2) (tr_next_fire_ms b.2).

Definition select_trigger (m : TriggerTable) (o : Owner) (id : TriggerId) : result (option StoredTrigger) StoreError :=
  read_row (row ← m !! id; if row_mine o row then Some row else None).

Definition select_triggers_of (m : TriggerTable) (o : Owner) : result (list StoredTrigger) StoreError :=
  collect trigger_row (sort_by created_row_leb (List.filter (fun x => row_mine o x.2) (map_to_list m))).*2.

(** [enabled and next_fire_ms <= $1]. *)
Definition row_due (now : Z) (row : TriggerRow) : bool :=
  tr_enabled row && match tr_next_fire_ms row with Some next => (next <=? now)%Z | None => false end.

Definition select_due (m : TriggerTable) (now : Z) (limit : N) : list StoredTrigger :=
  readable_triggers (sql_limit limit (sort_by next_row_leb (List.filter (fun x => row_due now x.2) (map_to_list m)))).*2.

Definition select_webhook (m : TriggerTable) (id : TriggerId) : result (option StoredTrigger) StoreError :=
  read_row (row ← m !! id; if bool_decide (is_Some (row_rotation row)) then Some row else None).

(** The rows come in an order of the database's own: that of the map, here. *)
Definition select_unscheduled (m : TriggerTable) (limit : N) : list StoredTrigger :=
  let unscheduled row := tr_enabled row && bool_decide (tr_next_fire_ms row = None) && row_schedule row in
  readable_triggers (sql_limit limit (List.filter unscheduled (map_to_list m).*2)).

(** ** [put_trigger] and [resume_trigger] *)

Definition count_mine (m : TriggerTable) (o : Owner) : nat :=
  length (List.filter (row_mine o) (map_to_list m).*2).

Definition new_row (t : StoredTrigger) : TriggerRow :=
  mkTriggerRow (issuer (tg_owner t)) (subject (tg_owner t)) (Readable t) (tg_enabled t) (tg_next_fire_ms t)
    (tg_created_ms t).

(** [insert into triggers], [None] where the key is taken. *)
Definition insert_trigger (m : TriggerTable) (t : StoredTrigger) : option TriggerTable :=
  match m !! tg_id t with Some _ => None | None => Some (<[tg_id t := new_row t]> m) end.

(** [kept >= most]. *)
Definition at_cap (m : TriggerTable) (o : Owner) (most : N) : bool :=
  (clamp_i64 most <=? N.of_nat (count_mine m o))%N.

Section Put.
Context (key_error : StoreError).

Definition pg_put_trigger (m : TriggerTable) (t : StoredTrigger) (most : N) : result bool StoreError * TriggerTable :=
  if at_cap m (tg_owner t) most then (Ok false, m)
  else match insert_trigger m t with Some m => (Ok true, m) | None => (Err key_error, m) end.

End Put.

Definition pg_resume_trigger (m : TriggerTable) (o : Owner) (id : TriggerId) (next : option Z)
    : result (option StoredTrigger) StoreError * TriggerTable :=
  match update_resume m o id next with
  | (Some row, m) => (read_row (Some row), m)
  | (None, m) => (select_trigger m o id, m)
  end.

(** ** The list the table stands for *)

(** A row its server can read, whose columns are its trigger's. *)
Definition row_ok (id : TriggerId) (row : TriggerRow) : Prop :=
  exists t, tr_body row = Readable t /\ tg_id t = id /\ tr_issuer row = issuer (tg_owner t) /\
    tr_subject row = subject (tg_owner t) /\ tr_created_ms row = tg_created_ms t.

Definition listed (m : TriggerTable) : list StoredTrigger := readable_triggers (map_to_list m).*2.

Definition table_is (m : TriggerTable) (ts : list StoredTrigger) : Prop :=
  (forall id row, m !! id = Some row -> row_ok id row) /\ ts ≡ₚ listed m.

Lemma row_ok_read id row : row_ok id row -> exists t, trigger_row row = Ok t /\ tg_id t = id /\
  tg_created_ms t = tr_created_ms row /\ tg_enabled t = tr_enabled row /\ tg_next_fire_ms t = tr_next_fire_ms row /\
  forall o, owner_is (tg_owner t) o = row_mine o row.
Proof.
  intros (t & Hb & Hid & Hi & Hs & Hc). unfold trigger_row. rewrite Hb. eexists. split; [done|]. cbn.
  split_and!; try done. intros o. unfold row_mine. by rewrite Hi, Hs.
Qed.

Lemma listed_insert m id row t : m !! id = None -> trigger_row row = Ok t ->
  listed (<[id := row]> m) ≡ₚ t :: listed m.
Proof.
  intros Hn Hr. unfold listed, readable_triggers. rewrite map_to_list_insert by done. cbn. by rewrite Hr.
Qed.

Lemma listed_lookup m id row t : m !! id = Some row -> trigger_row row = Ok t ->
  listed m ≡ₚ t :: listed (delete id m).
Proof.
  intros Hm Hr. rewrite <-(insert_delete_id m id row Hm) at 1. apply listed_insert; [by rewrite lookup_delete_eq|done].
Qed.

Lemma listed_elem m t : (forall id row, m !! id = Some row -> row_ok id row) ->
  t ∈ listed m <-> exists row, m !! tg_id t = Some row /\ trigger_row row = Ok t.
Proof.
  intros Hok. unfold listed, readable_triggers. rewrite list_elem_of_omap. split.
  - intros (row & ([id row'] & -> & Hin)%list_elem_of_fmap & Ht). apply elem_of_map_to_list in Hin. simpl in *.
    destruct (row_ok_read id row' (Hok id row' Hin)) as (t' & Hr & Hid & _). rewrite Hr in Ht. injection Ht as <-.
    exists row'. by rewrite Hid.
  - intros (row & Hm & Hr). exists row. rewrite Hr. split; [|done]. apply list_elem_of_fmap.
    exists (tg_id t, row). split; [done|]. by apply elem_of_map_to_list.
Qed.

Lemma table_is_elem m ts t : table_is m ts -> t ∈ ts <-> exists row, m !! tg_id t = Some row /\ trigger_row row = Ok t.
Proof. intros [Hok Hp]. rewrite Hp. by apply listed_elem. Qed.

(** An update of one row is an update of one trigger. *)
Lemma update_is m ts id cond set p g :
  table_is m ts -> (forall t, p t = true -> tg_id t = id) ->
  (forall row t, m !! id = Some row -> row_ok id row -> trigger_row row = Ok t -> p t = cond row /\
     (cond row = true -> row_ok id (set row) /\ trigger_row (set row) = Ok (g t))) ->
  match update_row m id cond set, update_first p g ts with
  | (Some row, m'), Some (t, ts') => trigger_row row = Ok t /\ table_is m' ts'
  | (None, m'), None => m' = m
  | _, _ => False
  end.
Proof.
  intros Ht Hp Hrow. unfold update_row. destruct (update_first p g ts) as [[t' ts']|] eqn:Eu.
  - apply update_first_Some in Eu as (a & x & b & Ets & Ets' & Ht' & Hx & _). specialize (Hp x Hx).
    assert (x ∈ ts) as Hin by (rewrite Ets; set_solver). apply (table_is_elem m ts x Ht) in Hin as (row & Hm & Hr).
    rewrite Hp in Hm. rewrite Hm. pose proof (proj1 Ht id row Hm) as Hok.
    destruct (Hrow row x Hm Hok Hr) as [Hpc Hset]. rewrite <-Hpc, Hx. destruct Hset as [Hok' Hr']; [congruence|].
    subst t'. split; [done|]. split.
    + intros id' row'. destruct (decide (id = id')) as [<-|]; [rewrite lookup_insert_eq; by intros [= <-]|].
      rewrite lookup_insert_ne by done. apply Ht.
    + rewrite Ets', (listed_lookup (<[id := set row]> m) id (set row) (g x)) by (by rewrite ?lookup_insert_eq).
      rewrite delete_insert_eq. rewrite <-Permutation_middle. apply perm_skip.
      apply (Permutation_cons_inv (a := x)). rewrite <-(listed_lookup m id row x Hm Hr), <-(proj2 Ht), Ets.
      by rewrite Permutation_middle.
  - destruct (m !! id) as [row|] eqn:Hm; [|done]. destruct (row_ok_read id row (proj1 Ht id row Hm)) as (t & Hr & Hid & _).
    destruct (Hrow row t eq_refl (proj1 Ht id row Hm) Hr) as [Hpc _]. destruct (cond row) eqn:Ec; [|done].
    apply update_first_None in Eu. rewrite Forall_forall in Eu. rewrite (Eu t) in Hpc; [congruence|].
    apply (table_is_elem m ts t Ht). exists row. by rewrite Hid.
Qed.

(** ** Lists of rows and of triggers *)

(** A row of the table and the trigger it is read as. *)
Definition reads_as (x : TriggerId * TriggerRow) (t : StoredTrigger) : Prop :=
  row_ok x.1 x.2 /\ trigger_row x.2 = Ok t.

Lemma reads_as_ok x t : reads_as x t ->
  tg_id t = x.1 /\ tg_created_ms t = tr_created_ms x.2 /\ tg_enabled t = tr_enabled x.2 /\
  tg_next_fire_ms t = tr_next_fire_ms x.2 /\ forall o, owner_is (tg_owner t) o = row_mine o x.2.
Proof.
  intros [Hok Hr]. destruct (row_ok_read _ _ Hok) as (t' & Hr' & H'). rewrite Hr in Hr'. by injection Hr' as <-.
Qed.

#[local] Instance filter_permutation {A} (f : A -> bool) : Proper ((≡ₚ) ==> (≡ₚ)) (List.filter f).
Proof. intros l k. apply filter_perm. Qed.

Lemma reads_readable l k : Forall2 reads_as l k -> readable_triggers l.*2 = k.
Proof.
  unfold readable_triggers. induction 1 as [|x t l k [_ Hr] _ IH]; [done|]. cbn. by rewrite Hr, IH.
Qed.

Lemma reads_collect l k : Forall2 reads_as l k -> collect trigger_row l.*2 = Ok k.
Proof. induction 1 as [|x t l k [_ Hr] _ IH]; [done|]. cbn. by rewrite Hr, IH. Qed.

Lemma table_reads m ts : table_is m ts -> Forall2 reads_as (map_to_list m) (listed m).
Proof.
  intros [Hok _].
  assert (exists k, Forall2 reads_as (map_to_list m) k) as [k Hk].
  { assert (Forall (fun x => row_ok x.1 x.2) (map_to_list m)) as Hall.
    { apply Forall_forall. intros [id row] Hin%elem_of_map_to_list. by apply Hok. }
    induction Hall as [|x l Hx _ [k Hk]]; [by exists []|]. destruct (row_ok_read _ _ Hx) as (t & Hr & _).
    exists (t :: k). by constructor. }
  unfold listed. by rewrite (reads_readable _ k Hk).
Qed.

(** Sorts of the same triggers are one list. *)
Lemma sort_by_perm_eq {A} (leb : A -> A -> bool) l k : total_leb leb ->
  (forall x y, x ∈ l -> y ∈ l -> leb x y = true -> leb y x = true -> x = y) -> l ≡ₚ k -> sort_by leb l = sort_by leb k.
Proof.
  intros Ht Ha Hp. apply (StronglySorted_unique_strong (fun x y => leb x y = true)).
  - intros x y Hx Hy. rewrite sort_by_perm in Hx, Hy. rewrite <-Hp in Hy. by apply Ha.
  - by apply sort_by_sorted.
  - by apply sort_by_sorted.
  - by rewrite !sort_by_perm.
Qed.

Lemma table_ids m ts x y : table_is m ts -> x ∈ ts -> y ∈ ts -> tg_id x = tg_id y -> x = y.
Proof.
  intros Ht (row & Hm & Hr)%(table_is_elem m ts x Ht) (row' & Hm' & Hr')%(table_is_elem m ts y Ht) Hid. congruence.
Qed.

Lemma id_order (a b : TriggerId) : (uuid_N (as_uuid a) <= uuid_N (as_uuid b))%N -> (uuid_N (as_uuid b) <= uuid_N (as_uuid a))%N ->
  a = b.
Proof.
  intros H1 H2. assert (uuid_N (as_uuid a) = uuid_N (as_uuid b)) as E%(inj uuid_N) by lia.
  destruct a, b. simpl in E. congruence.
Qed.

Lemma created_leb_total : total_leb created_leb.
Proof.
  unfold total_leb, created_leb. split.
  - intros x y. rewrite !orb_true_iff, !andb_true_iff, !Z.ltb_lt, !Z.eqb_eq, !N.leb_le. lia.
  - intros x y z. rewrite !orb_true_iff, !andb_true_iff, !Z.ltb_lt, !Z.eqb_eq, !N.leb_le. lia.
Qed.

Lemma next_leb_total : total_leb next_leb.
Proof.
  unfold total_leb, next_leb. split.
  - intros x y. destruct (tg_next_fire_ms x) as [a|], (tg_next_fire_ms y) as [b|];
      repeat case_bool_decide; simplify_eq; try done; cbn; rewrite ?N.leb_le, ?Z.leb_le; auto; lia.
  - intros x y z. destruct (tg_next_fire_ms x) as [a|], (tg_next_fire_ms y) as [b|], (tg_next_fire_ms z) as [c|];
      repeat case_bool_decide; cbn; rewrite ?N.leb_le, ?Z.leb_le; intros; simplify_eq; try done; try lia;
      repeat match goal with Hne : Some ?u <> Some ?v |- _ => assert (u <> v) by congruence; clear Hne end; lia.
Qed.

(** ** A call does what the in-memory store does *)

Inductive TriggerCall :=
| TPut (t : StoredTrigger) (most : N)
| TSetEnabled (o : Owner) (id : TriggerId) (enabled : bool)
| TRotate (o : Owner) (id : TriggerId)
| TDelete (o : Owner) (id : TriggerId)
| TResume (o : Owner) (id : TriggerId) (next : option Z)
| TAdvance (id : TriggerId) (due next : option Z)
| TPauseAll (o : Owner)
| TGet (o : Owner) (id : TriggerId)
| TOf (o : Owner)
| TDue (now : Z) (limit : N)
| TWebhook (id : TriggerId).

Inductive TriggerReply := TBool (b : bool) | TOne (t : option StoredTrigger) | TMany (l : list StoredTrigger) | TNat (n : nat).

Definition replied {A B} (f : A -> TriggerReply) (x : result A StoreError * B) : result TriggerReply StoreError * B :=
  (match x.1 with Ok a => Ok (f a) | Err e => Err e end, x.2).

Section Calls.
Context (key_error : StoreError).

Definition pg_call (m : TriggerTable) (call : TriggerCall) : result TriggerReply StoreError * TriggerTable :=
  match call with
  | TPut t most => replied TBool (pg_put_trigger key_error m t most)
  | TSetEnabled o id enabled => replied TOne (update_set_enabled m o id enabled)
  | TRotate o id => replied TOne (update_rotate m o id)
  | TDelete o id => let '(b, m) := delete_row m o id in (Ok (TBool b), m)
  | TResume o id next => replied TOne (pg_resume_trigger m o id next)
  | TAdvance id due next => let '(b, m) := update_advance m id due next in (Ok (TBool b), m)
  | TPauseAll o => let '(n, m) := update_pause_all m o in (Ok (TNat n), m)
  | TGet o id => replied TOne (select_trigger m o id, m)
  | TOf o => replied TMany (select_triggers_of m o, m)
  | TDue now limit => (Ok (TMany (select_due m now limit)), m)
  | TWebhook id => replied TOne (select_webhook m id, m)
  end.

Definition mem_call (l : Triggers) (call : TriggerCall) : result TriggerReply StoreError * Triggers :=
  match call with
  | TPut t most => replied TBool (put_trigger l t (N.to_nat most))
  | TSetEnabled o id enabled => replied TOne (set_enabled l o id enabled)
  | TRotate o id => replied TOne (rotate_webhook l o id)
  | TDelete o id => replied TBool (delete_trigger l o id)
  | TResume o id next => replied TOne (resume_trigger l o id next)
  | TAdvance id due next => replied TBool (advance_trigger l id due next)
  | TPauseAll o => replied TNat (pause_triggers l o)
  | TGet o id => (Ok (TOne (trigger l o id)), l)
  | TOf o => (Ok (TMany (triggers_of l o)), l)
  | TDue now limit => (Ok (TMany (due_triggers l now (N.to_nat limit))), l)
  | TWebhook id => (Ok (TOne (webhook_trigger l id)), l)
  end.

(** The table has room, and a put's id is new. *)
Definition call_fits (m : TriggerTable) (ts : list StoredTrigger) (call : TriggerCall) : Prop :=
  (Z.of_nat (length ts) < i64_max)%Z /\ match call with TPut t _ => m !! tg_id t = None | _ => True end.

Definition answers_alike (x : result TriggerReply StoreError * TriggerTable) (y : result TriggerReply StoreError * Triggers) : Prop :=
  x.1 = y.1 /\ exists ts, y.2 = mkLock ts false /\ table_is x.2 ts.

(** An update that returns the row, and the in-memory one. *)
Lemma update_found_is m ts id cond set p g :
  table_is m ts -> (forall t, p t = true -> tg_id t = id) ->
  (forall row t, m !! id = Some row -> row_ok id row -> trigger_row row = Ok t -> p t = cond row /\
     (cond row = true -> row_ok id (set row) /\ trigger_row (set row) = Ok (g t))) ->
  exists found ts',
    update_found (mkLock ts false) p g = (Ok found, mkLock ts' false) /\
    read_row (update_row m id cond set).1 = Ok found /\ table_is (update_row m id cond set).2 ts' /\
    (found = None <-> (update_row m id cond set).1 = None).
Proof.
  intros Ht Hp Hrow. pose proof (update_is m ts id cond set p g Ht Hp Hrow) as Hu. unfold update_found, lock_write. cbn.
  destruct (update_row m id cond set) as [[row|] m'], (update_first p g ts) as [[t ts']|]; try done; cbn.
  - destruct Hu as [Hr Ht']. rewrite Hr. exists (Some t), ts'. by split_and!.
  - subst m'. exists None, ts. by split_and!.
Qed.

Lemma names_row o id row t : row_ok id row -> trigger_row row = Ok t -> names o id t = row_mine o row.
Proof.
  intros Hok Hr. destruct (reads_as_ok (id, row) t (conj Hok Hr)) as (Hid & _ & _ & _ & Ho). unfold names.
  by rewrite Ho, bool_decide_true.
Qed.

Lemma names_id o id t : names o id t = true -> tg_id t = id.
Proof. unfold names. by intros [H _]%andb_true_iff; apply bool_decide_eq_true in H. Qed.

Lemma row_enabled_ok id row t enabled : row_ok id row -> trigger_row row = Ok t ->
  row_ok id (row_enabled row enabled) /\ trigger_row (row_enabled row enabled) = Ok (set_enabled_to t enabled).
Proof.
  intros (b & Hb & H') Hr. split; [by exists b|]. unfold trigger_row in *. cbn. rewrite Hb in *. by injection Hr as <-.
Qed.

Lemma set_enabled_is m ts o id enabled : table_is m ts ->
  answers_alike (pg_call m (TSetEnabled o id enabled)) (mem_call (mkLock ts false) (TSetEnabled o id enabled)).
Proof.
  intros Ht. destruct (update_found_is m ts id (row_mine o) (fun row => row_enabled row enabled) (names o id)
    (fun t => set_enabled_to t enabled) Ht) as (found & ts' & Hm & Hr & Ht' & _).
  - apply names_id.
  - intros row t _ Hok Hr. split; [by apply (names_row o id)|]. intros _. by apply row_enabled_ok.
  - unfold answers_alike. cbn [pg_call mem_call]. unfold replied, set_enabled, update_set_enabled. rewrite Hm.
    destruct (update_row _ _ _ _). cbn in *. rewrite Hr. split; [done|by exists ts'].
Qed.

Lemma advance_is m ts id due next : table_is m ts ->
  answers_alike (pg_call m (TAdvance id due next)) (mem_call (mkLock ts false) (TAdvance id due next)).
Proof.
  intros Ht. destruct (update_found_is m ts id (fun row => bool_decide (tr_next_fire_ms row = due)) (fun row => row_next_fire row next)
    (fun t => bool_decide (tg_id t = id) && bool_decide (tg_next_fire_ms t = due)) (fun t => set_next_fire t next) Ht)
    as (found & ts' & Hm & Hr & Ht' & Hnone).
  - by intros t [Hid%bool_decide_eq_true _]%andb_true_iff.
  - intros row t _ Hok Hr. destruct (reads_as_ok (id, row) t (conj Hok Hr)) as (Hid & _ & _ & Hn & _). simpl in Hid, Hn.
    rewrite Hid, Hn, bool_decide_true by done. split; [done|]. intros _. destruct Hok as (b & Hb & H').
    split; [by exists b|]. unfold trigger_row in *. cbn. rewrite Hb in *. by injection Hr as <-.
  - unfold answers_alike. cbn [pg_call mem_call]. unfold replied, advance_trigger, update_advance. rewrite Hm.
    destruct (update_row _ _ _ _) as [row m']. cbn in *. split; [|by exists ts']. do 2 f_equal.
    destruct row, found; try done; naive_solver.
Qed.

(** The row of a trigger that is named. *)
Lemma find_named m ts o id : table_is m ts ->
  match List.find (names o id) ts with
  | Some t => exists row, m !! id = Some row /\ reads_as (id, row) t /\ row_mine o row = true
  | None => forall row, m !! id = Some row -> row_mine o row = false
  end.
Proof.
  intros Ht. destruct (List.find (names o id) ts) as [t|] eqn:Ef.
  - apply List.find_some in Ef as [Hin%list_elem_of_In Hn]. pose proof (names_id _ _ _ Hn) as Hid.
    apply (table_is_elem m ts t Ht) in Hin as (row & Hm & Hr). rewrite Hid in Hm.
    exists row. pose proof (proj1 Ht id row Hm) as Hok. split; [done|]. split; [done|]. by rewrite <-(names_row o id row t).
  - intros row Hm. pose proof (proj1 Ht id row Hm) as Hok. destruct (row_ok_read id row Hok) as (t & Hr & Hid & _).
    rewrite <-(names_row o id row t) by done. apply (List.find_none _ _ Ef), list_elem_of_In.
    apply (table_is_elem m ts t Ht). exists row. by rewrite Hid.
Qed.

Lemma row_rotation_reads id row t : reads_as (id, row) t ->
  row_rotation row = match tg_kind t with Webhook r => Some r | Schedule _ _ => None end.
Proof.
  intros [_ Hr]. unfold row_rotation. unfold trigger_row in Hr. simpl in Hr. destruct (tr_body row); [|done].
  by injection Hr as <-.
Qed.

Lemma rotate_is m ts o id : table_is m ts ->
  answers_alike (pg_call m (TRotate o id)) (mem_call (mkLock ts false) (TRotate o id)).
Proof.
  intros Ht. pose proof (find_named m ts o id Ht) as Hf. unfold answers_alike. cbn [pg_call mem_call].
  unfold replied, rotate_webhook, update_rotate, lock_write. cbn [poisoned guarded].
  set (cond := fun row => row_mine o row && _).
  assert ((forall row, m !! id = Some row -> cond row = false) -> update_row m id cond rotated = (None, m)) as Hno.
  { intros Hc. unfold update_row. destruct (m !! id) as [row|]; [|done]. by rewrite Hc. }
  destruct (List.find (names o id) ts) as [t|].
  2:{ rewrite Hno; [split; [done|by exists ts]|]. intros row Hm. unfold cond. by rewrite Hf. }
  destruct Hf as (row & Hm & Hreads & Hmine). pose proof (row_rotation_reads id row t Hreads) as Hrot.
  destruct (tg_kind t) as [|rotation] eqn:Ek.
  { rewrite Hno; [split; [done|by exists ts]|]. intros row' Hm'. rewrite Hm in Hm'. injection Hm' as <-.
    unfold cond. by rewrite Hrot, andb_false_r. }
  destruct (rotation <? u32_max)%N eqn:El.
  2:{ rewrite Hno; [split; [done|by exists ts]|]. intros row' Hm'. rewrite Hm in Hm'. injection Hm' as <-.
      unfold cond. by rewrite Hrot, El, andb_false_r. }
  destruct (update_found_is m ts id cond rotated (names o id) (fun t => set_kind t (Webhook (rotation + 1))) Ht)
    as (found & ts' & Hmem & Hread & Ht' & _).
  - apply names_id.
  - intros row' t' Hm' Hok' Hr'. rewrite Hm in Hm'. injection Hm' as <-. destruct Hreads as [_ Hr].
    simpl in Hr. rewrite Hr in Hr'. injection Hr' as <-. rewrite (names_row o id row t) by done. split.
    + unfold cond. by rewrite Hrot, El, andb_true_r.
    + intros _. destruct Hok' as (b & Hb & Hid & Hi & Hs & Hc). unfold rotated. rewrite Hb, Hrot.
      split; [by eexists|]. unfold trigger_row in *. cbn. rewrite Hb in Hr. by injection Hr as <-.
  - rewrite Hmem. destruct (update_row _ _ _ _). cbn in *. rewrite Hread. split; [done|by exists ts'].
Qed.

Lemma resume_is m ts o id next : table_is m ts ->
  answers_alike (pg_call m (TResume o id next)) (mem_call (mkLock ts false) (TResume o id next)).
Proof.
  intros Ht. pose proof (find_named m ts o id Ht) as Hf. unfold answers_alike. cbn [pg_call mem_call].
  unfold replied, resume_trigger, pg_resume_trigger, update_resume, update_found, lock_write. cbn [poisoned guarded].
  set (cond := fun row => row_mine o row && negb (tr_enabled row)).
  set (set := fun row => next_generation _). set (g := fun t => if tg_enabled t then t else _).
  destruct (List.find (names o id) ts) as [t|] eqn:Ef.
  - destruct Hf as (row & Hm & Hreads & Hmine). destruct (reads_as_ok _ _ Hreads) as (_ & _ & Hen & _). simpl in Hen.
    destruct (tr_enabled row) eqn:Een.
    + assert (update_row m id cond set = (None, m)) as ->.
      { unfold update_row. rewrite Hm. unfold cond. by rewrite Een, andb_false_r. }
      cbn [fst snd]. unfold select_trigger. rewrite Hm. cbn. rewrite Hmine. cbn. destruct Hreads as [_ Hr]. simpl in Hr. rewrite Hr.
      pose proof (update_is m ts id (row_mine o) (fun row => row) (names o id) g Ht (names_id o id)) as Hu.
      unfold update_row in Hu. rewrite Hm, Hmine, insert_id in Hu by done.
      assert (forall row' t', Some row = Some row' -> row_ok id row' -> trigger_row row' = Ok t' ->
        names o id t' = row_mine o row' /\ (row_mine o row' = true -> row_ok id row' /\ trigger_row row' = Ok (g t'))) as Hg.
      { intros row' t' [= <-] Hok' Hr'. split; [by apply (names_row o id)|]. intros _. split; [done|].
        rewrite Hr in Hr'. injection Hr' as <-. unfold g. by rewrite Hen. }
      specialize (Hu Hg). destruct (update_first (names o id) g ts) as [[t' ts']|]; [|done].
      destruct Hu as [Hr' Ht']. rewrite Hr in Hr'. injection Hr' as <-. split; [done|by exists ts'].
    + pose proof (update_is m ts id cond set (names o id) g Ht (names_id o id)) as Hu.
      assert (update_row m id cond set = (Some (set row), <[id := set row]> m)) as Eu.
      { unfold update_row. rewrite Hm. unfold cond. by rewrite Hmine, Een. }
      rewrite Eu in *. assert (forall row' t', m !! id = Some row' -> row_ok id row' -> trigger_row row' = Ok t' ->
        names o id t' = cond row' /\ (cond row' = true -> row_ok id (set row') /\ trigger_row (set row') = Ok (g t'))) as Hg.
      { intros row' t' Hm' Hok' Hr'. rewrite Hm in Hm'. injection Hm' as <-. rewrite (names_row o id row t') by done.
        unfold cond. rewrite Een, andb_true_r. split; [done|]. intros _.
        destruct Hok' as (b & Hb & Hid & Hi & Hs & Hc). unfold set, next_generation. cbn. rewrite Hb.
        split; [by eexists|]. unfold trigger_row in *. cbn. rewrite Hb in Hr'. injection Hr' as <-. unfold g. cbn. by rewrite Een. }
      specialize (Hu Hg). destruct (update_first (names o id) g ts) as [[t' ts']|]; [|done].
      destruct Hu as [Hr' Ht']. cbn. rewrite Hr'. split; [done|by exists ts'].
  - assert (update_row m id cond set = (None, m)) as ->.
    { unfold update_row. destruct (m !! id) as [row|] eqn:Hm; [|done]. unfold cond. by rewrite (Hf row). }
    assert (update_first (names o id) g ts = None) as ->.
    { apply update_first_None, Forall_forall. intros t Hin. apply list_elem_of_In in Hin. by apply (List.find_none _ _ Ef). }
    cbn [fst snd]. unfold select_trigger. split; [|by exists ts]. destruct (m !! id) as [row|] eqn:Hm; [|done].
    cbn. by rewrite (Hf row).
Qed.

(** The rows of the table, in the order of the list. *)
Lemma table_rows m ts : table_is m ts -> exists rows, map_to_list m ≡ₚ rows /\ Forall2 reads_as rows ts.
Proof.
  intros Ht. pose proof (table_reads m ts Ht) as Hf. apply Forall2_flip in Hf.
  destruct (Permutation_Forall2 (symmetry (proj2 Ht)) Hf) as (rows & Hp & Hr). exists rows. split; [done|].
  by apply Forall2_flip.
Qed.

(** A count of rows is the count of their triggers. *)
Lemma table_count m ts (f : TriggerRow -> bool) (g : StoredTrigger -> bool) : table_is m ts ->
  (forall x t, reads_as x t -> f x.2 = g t) -> length (List.filter f (map_to_list m).*2) = length (List.filter g ts).
Proof.
  intros Ht Hfg. destruct (table_rows m ts Ht) as (rows & Hp & Hr). rewrite Hp.
  clear Hp Ht. induction Hr as [|x t rows ts Hx _ IH]; [done|]. cbn. rewrite (Hfg x t Hx). destruct (g t); cbn; auto.
Qed.

Lemma table_size m ts : table_is m ts -> size m = length ts.
Proof.
  intros Ht. destruct (table_rows m ts Ht) as (rows & Hp & Hr).
  rewrite <-length_map_to_list. by rewrite Hp, (Forall2_length _ _ _ Hr).
Qed.

Lemma mine_reads o x t : reads_as x t -> row_mine o x.2 = owner_is (tg_owner t) o.
Proof. intros Hr. by destruct (reads_as_ok x t Hr) as (_ & _ & _ & _ & ->). Qed.

Lemma put_is m ts t most : table_is m ts -> call_fits m ts (TPut t most) ->
  answers_alike (pg_call m (TPut t most)) (mem_call (mkLock ts false) (TPut t most)).
Proof.
  intros Ht [Hlen Hnew]. unfold answers_alike. cbn [pg_call mem_call]. unfold replied, pg_put_trigger, put_trigger, lock_write.
  cbn [poisoned guarded]. unfold at_cap, count_mine, insert_trigger. rewrite Hnew.
  rewrite (table_count m ts _ (fun kept => owner_is (tg_owner kept) (tg_owner t)) Ht) by (intros x y; apply mine_reads).
  set (kept := length _). assert (kept <= length ts) as Hk by (unfold kept; rewrite List.filter_length_le; lia).
  assert ((clamp_i64 most <=? N.of_nat kept)%N = (N.to_nat most <=? kept)%nat) as ->.
  { unfold clamp_i64. apply eq_true_iff_eq. rewrite N.leb_le, Nat.leb_le. lia. }
  destruct (N.to_nat most <=? kept)%nat; cbn; split; try done; [by exists ts|].
  exists (ts ++ [t]). split; [done|].
  assert (row_ok (tg_id t) (new_row t)) as Hok by (by exists t). split.
  - intros id row. destruct (decide (tg_id t = id)) as [<-|]; [rewrite lookup_insert_eq; by intros [= <-]|].
    rewrite lookup_insert_ne by done. apply Ht.
  - rewrite (listed_insert m (tg_id t) (new_row t) t Hnew) by (by destruct t). rewrite <-Permutation_cons_append.
    by apply perm_skip, Ht.
Qed.

Lemma delete_is m ts o id : table_is m ts ->
  answers_alike (pg_call m (TDelete o id)) (mem_call (mkLock ts false) (TDelete o id)).
Proof.
  intros Ht. pose proof (find_named m ts o id Ht) as Hf. unfold answers_alike. cbn [pg_call mem_call].
  unfold replied, delete_trigger, lock_write, delete_row. cbn [poisoned guarded].
  assert (forall l, (forall t, t ∈ l -> names o id t = false) -> List.filter (fun t => negb (names o id t)) l = l) as Hall.
  { clear. induction l as [|t l IH]; [done|]. intros Hl. cbn. rewrite Hl by set_solver. cbn. f_equal. apply IH. set_solver. }
  destruct (List.find (names o id) ts) as [t|] eqn:Ef.
  - destruct Hf as (row & Hm & [Hok Hr] & Hmine). simpl in Hok, Hr. rewrite Hm, Hmine.
    pose proof (listed_lookup m id row t Hm Hr) as Hl.
    assert (List.filter (fun t => negb (names o id t)) ts ≡ₚ listed (delete id m)) as Hk.
    { rewrite (proj2 Ht), Hl. cbn. rewrite (names_row o id row t Hok Hr), Hmine. cbn.
      rewrite Hall; [done|]. intros t' Hin. apply listed_elem in Hin.
      - destruct Hin as (row' & Hm' & _). apply lookup_delete_Some in Hm' as [Hne _]. unfold names.
        by rewrite bool_decide_false by congruence.
      - intros id' row' [_ Hm']%lookup_delete_Some. by apply Ht. }
    cbn. split.
    + do 2 f_equal. symmetry. apply Nat.ltb_lt. rewrite (Permutation_length (proj2 Ht)), Hk, Hl. cbn. lia.
    + eexists. split; [done|]. split; [|by symmetry]. intros id' row' [_ Hm']%lookup_delete_Some. by apply Ht.
  - rewrite Hall by (intros t Hin%list_elem_of_In; by apply (List.find_none _ _ Ef)).
    rewrite Nat.ltb_irrefl. destruct (m !! id) as [row|] eqn:Hm; [rewrite (Hf row eq_refl)|];
      (split; [done|by exists ts]).
Qed.

Lemma pause_all_is m ts o : table_is m ts ->
  answers_alike (pg_call m (TPauseAll o)) (mem_call (mkLock ts false) (TPauseAll o)).
Proof.
  intros Ht. unfold answers_alike. cbn [pg_call mem_call]. unfold replied, pause_triggers, lock_write, update_pause_all.
  cbn [poisoned guarded]. set (f := fun row => row_mine o row && tr_enabled row).
  set (g := fun t => owner_is (tg_owner t) o && tg_enabled t).
  assert (forall x t, reads_as x t -> f x.2 = g t) as Hfg.
  { intros x t Hr. unfold f, g. rewrite (mine_reads o x t Hr). by destruct (reads_as_ok x t Hr) as (_ & _ & -> & _). }
  split; [cbn; by rewrite (table_count m ts f g Ht Hfg)|]. eexists. split; [done|]. cbn [fst snd]. split.
  - intros id row. rewrite lookup_fmap_Some. intros (row' & <- & Hm). pose proof (proj1 Ht id row' Hm) as Hok.
    destruct (row_mine o row' && tr_enabled row'); [|done]. destruct (row_ok_read id row' Hok) as (t & Hr & _). by eapply row_enabled_ok.
  - unfold listed, readable_triggers. rewrite map_to_list_fmap. destruct (table_rows m ts Ht) as (rows & Hp & Hr).
    rewrite Hp. match goal with |- ?l ≡ₚ ?k => enough (k = l) as -> by done end. apply reads_readable, Forall2_fmap_2.
    eapply Forall2_impl; [exact Hr|]. intros [id row] t Hx. pose proof Hx as [Hok Hrow]. specialize (Hfg _ _ Hx).
    unfold f, g in Hfg. simpl in Hfg, Hok, Hrow. rewrite <-Hfg. cbn. unfold reads_as. cbn.
    destruct (row_mine o row && tr_enabled row); [|done]. by apply row_enabled_ok.
Qed.

Lemma get_is m ts o id : table_is m ts ->
  answers_alike (pg_call m (TGet o id)) (mem_call (mkLock ts false) (TGet o id)).
Proof.
  intros Ht. pose proof (find_named m ts o id Ht) as Hf. unfold answers_alike. cbn [pg_call mem_call]. split; [|by exists ts].
  unfold replied, trigger, select_trigger, lock_read. cbn [guarded fst]. destruct (List.find (names o id) ts) as [t|].
  - destruct Hf as (row & Hm & [_ Hr] & Hmine). rewrite Hm. cbn. rewrite Hmine. cbn. simpl in Hr. by rewrite Hr.
  - destruct (m !! id) as [row|]; [|done]. cbn. by rewrite (Hf row).
Qed.

(** Sorted, the rows and the triggers are in one order. *)
Lemma sorted_rows m ts f g leb leb' : table_is m ts -> total_leb leb' ->
  (forall x t, reads_as x t -> f x = g t) ->
  (forall x t x' t', reads_as x t -> reads_as x' t' -> leb x x' = leb' t t') ->
  (forall s t, leb' s t = true -> leb' t s = true -> tg_id s = tg_id t) ->
  Forall2 reads_as (sort_by leb (List.filter f (map_to_list m))) (sort_by leb' (List.filter g ts)).
Proof.
  intros Ht Htotal Hfg Hleb Hid.
  assert (sort_by leb' (List.filter g ts) = sort_by leb' (List.filter g (listed m))) as ->.
  { apply sort_by_perm_eq; [done| |by rewrite (proj2 Ht)].
    intros s t [Hs _]%list_elem_of_In%List.filter_In [Hin _]%list_elem_of_In%List.filter_In H1 H2.
    apply (table_ids m ts); [done|by apply list_elem_of_In..|by apply Hid]. }
  apply Forall2_sort_by; [done|]. apply Forall2_list_filter; [done|]. by eapply table_reads.
Qed.

Lemma row_id_reads x t : reads_as x t -> row_id x = uuid_N (as_uuid (tg_id t)).
Proof. intros Hr. unfold row_id. by destruct (reads_as_ok x t Hr) as (-> & _). Qed.

Lemma of_is m ts o : table_is m ts -> answers_alike (pg_call m (TOf o)) (mem_call (mkLock ts false) (TOf o)).
Proof.
  intros Ht. unfold answers_alike. cbn [pg_call mem_call]. split; [|by exists ts]. unfold replied. cbn [fst].
  unfold select_triggers_of, triggers_of, lock_read. cbn [guarded].
  erewrite reads_collect; [done|]. apply sorted_rows; [done|apply created_leb_total|by intros; apply mine_reads| |].
  - intros x t x' t' Hx Hx'. unfold created_row_leb, created_leb. rewrite (row_id_reads x t Hx), (row_id_reads x' t' Hx').
    by destruct (reads_as_ok x t Hx) as (_ & -> & _), (reads_as_ok x' t' Hx') as (_ & -> & _).
  - intros s t. unfold created_leb. rewrite !orb_true_iff, !andb_true_iff, !Z.ltb_lt, !Z.eqb_eq, !N.leb_le.
    intros. apply id_order; lia.
Qed.

Lemma due_is m ts now limit : table_is m ts -> call_fits m ts (TDue now limit) ->
  answers_alike (pg_call m (TDue now limit)) (mem_call (mkLock ts false) (TDue now limit)).
Proof.
  intros Ht [Hlen _]. unfold answers_alike. cbn [pg_call mem_call fst snd]. split; [|by exists ts].
  unfold select_due, due_triggers, lock_read. cbn [guarded].
  assert (Forall2 reads_as (sort_by next_row_leb (List.filter (fun x => row_due now x.2) (map_to_list m)))
            (sort_by next_leb (List.filter (is_due now) ts))) as Hf.
  { apply sorted_rows; [done|apply next_leb_total| | |].
    - intros x t Hr. unfold row_due, is_due. by destruct (reads_as_ok x t Hr) as (_ & _ & -> & -> & _).
    - intros x t x' t' Hx Hx'. unfold next_row_leb, next_leb. rewrite (row_id_reads x t Hx), (row_id_reads x' t' Hx').
      by destruct (reads_as_ok x t Hx) as (_ & _ & _ & -> & _), (reads_as_ok x' t' Hx') as (_ & _ & _ & -> & _).
    - intros s t. unfold next_leb. destruct (tg_next_fire_ms s) as [a|], (tg_next_fire_ms t) as [b|];
        repeat case_bool_decide; simplify_eq; rewrite ?N.leb_le; try done; try (intros; apply id_order; lia).
      cbn. rewrite !Z.leb_le. intros. assert (a = b) by lia. congruence. }
  rewrite sql_limit_take.
  - do 2 f_equal. apply reads_readable. by apply Forall2_take.
  - rewrite (Forall2_length _ _ _ Hf), sort_by_perm. pose proof (List.filter_length_le (is_due now) ts). lia.
Qed.

Lemma webhook_is m ts id : table_is m ts ->
  answers_alike (pg_call m (TWebhook id)) (mem_call (mkLock ts false) (TWebhook id)).
Proof.
  intros Ht. unfold answers_alike. cbn [pg_call mem_call]. split; [|by exists ts]. unfold replied. cbn [fst].
  unfold select_webhook, webhook_trigger, lock_read. cbn [guarded].
  assert (forall row t, reads_as (id, row) t -> bool_decide (is_Some (row_rotation row)) = is_webhook t) as Hw.
  { intros row t Hr. rewrite (row_rotation_reads id row t Hr). unfold is_webhook. by destruct (tg_kind t). }
  destruct (List.find _ ts) as [t|] eqn:Ef.
  - apply List.find_some in Ef as [Hin%list_elem_of_In [Hid%bool_decide_eq_true Hk]%andb_true_iff].
    apply (table_is_elem m ts t Ht) in Hin as (row & Hm & Hr). rewrite Hid in Hm. rewrite Hm. cbn.
    rewrite (Hw row t), Hk by (split; [by apply Ht|done]). cbn. by rewrite Hr.
  - destruct (m !! id) as [row|] eqn:Hm; [|done]. cbn. destruct (row_ok_read id row (proj1 Ht id row Hm)) as (t & Hr & Hid & _).
    rewrite (Hw row t) by (split; [by apply Ht|done]). assert (t ∈ ts) as Hin%list_elem_of_In.
    { apply (table_is_elem m ts t Ht). exists row. by rewrite Hid. }
    pose proof (List.find_none _ _ Ef t Hin) as Hf. cbn in Hf. rewrite bool_decide_true in Hf by done. simpl in Hf.
    by rewrite Hf.
Qed.

Lemma call_is m ts call : table_is m ts -> call_fits m ts call ->
  answers_alike (pg_call m call) (mem_call (mkLock ts false) call).
Proof.
  intros Ht Hfit. destruct call; auto using put_is, set_enabled_is, rotate_is, delete_is, resume_is, advance_is,
    pause_all_is, get_is, of_is, due_is, webhook_is.
Qed.

(** ** Calls in turn *)

Fixpoint pg_calls (m : TriggerTable) (calls : list TriggerCall) : list (result TriggerReply StoreError) :=
  match calls with
  | [] => []
  | call :: calls => let '(reply, m) := pg_call m call in reply :: pg_calls m calls
  end.

Fixpoint mem_calls (l : Triggers) (calls : list TriggerCall) : list (result TriggerReply StoreError) :=
  match calls with
  | [] => []
  | call :: calls => let '(reply, l) := mem_call l call in reply :: mem_calls l calls
  end.

Definition put_id (call : TriggerCall) : option TriggerId :=
  match call with TPut t _ => Some (tg_id t) | _ => None end.

Lemma update_row_dom m id cond set : dom (update_row m id cond set).2 = dom m.
Proof.
  unfold update_row. destruct (m !! id) as [row|] eqn:Hm; [|done]. destruct (cond row); [|done].
  by apply dom_insert_lookup_L.
Qed.

(** A call adds no key but a put's. *)
Lemma pg_call_dom m call : dom (pg_call m call).2 ⊆ dom m ∪ from_option singleton ∅ (put_id call).
Proof.
  destruct call as [t most|o id enabled|o id|o id|o id next|id due next|o|o id|o|now limit|id]; cbn [pg_call put_id from_option];
    unfold replied; cbn [snd]; try set_solver.
  - unfold pg_put_trigger, insert_trigger. destruct (at_cap _ _ _); [set_solver|].
    destruct (m !! tg_id t); cbn; set_solver.
  - unfold update_set_enabled. pose proof (update_row_dom m id (row_mine o) (fun row => row_enabled row enabled)) as Hd.
    destruct (update_row _ _ _ _). cbn in *. set_solver.
  - unfold update_rotate. match goal with |- context[update_row m id ?c ?s] => pose proof (update_row_dom m id c s) as Hd end.
    destruct (update_row _ _ _ _). cbn in *. set_solver.
  - unfold delete_row. destruct (m !! id) as [row|]; [destruct (row_mine o row)|]; cbn; set_solver.
  - unfold pg_resume_trigger, update_resume.
    match goal with |- context[update_row m id ?c ?s] => pose proof (update_row_dom m id c s) as Hd end.
    destruct (update_row _ _ _ _) as [[]]; cbn in *; set_solver.
  - unfold update_advance. match goal with |- context[update_row m id ?c ?s] => pose proof (update_row_dom m id c s) as Hd end.
    destruct (update_row _ _ _ _). cbn in *. set_solver.
Qed.

Lemma calls_are calls : forall m ts, table_is m ts -> NoDup (omap put_id calls) ->
  (forall id, id ∈ omap put_id calls -> m !! id = None) -> (Z.of_nat (length ts + length calls) < i64_max)%Z ->
  pg_calls m calls = mem_calls (mkLock ts false) calls.
Proof.
  induction calls as [|call calls IH]; intros m ts Ht Hnd Hnew Hlen; [done|]. cbn [pg_calls mem_calls].
  assert (call_fits m ts call) as Hfit.
  { split; [cbn in Hlen; lia|]. destruct call; try done. apply Hnew. cbn. set_solver. }
  pose proof (call_is m ts call Ht Hfit) as [Hr (ts' & Hl & Ht')]. pose proof (pg_call_dom m call) as Hdom.
  destruct (pg_call m call) as [reply m'], (mem_call (mkLock ts false) call) as [reply' l']. cbn in *. subst l' reply'.
  f_equal. apply IH; [done| | |].
  - by destruct (put_id call); [apply NoDup_cons in Hnd as [_ ?]|].
  - intros id Hin. apply not_elem_of_dom. intros Hd%Hdom%elem_of_union. destruct Hd as [Hd|Hd].
    + apply elem_of_dom in Hd as [row Hm]. rewrite Hnew in Hm; [done|]. destruct (put_id call); set_solver.
    + destruct (put_id call) as [id'|]; cbn in Hd; [|set_solver]. apply elem_of_singleton in Hd as ->.
      by apply NoDup_cons in Hnd as [? _].
  - apply (table_size m') in Ht' as <-. apply (table_size m) in Ht as Hs. apply subseteq_size in Hdom.
    rewrite size_union_alt, !size_dom in Hdom.
    assert (size (from_option singleton ∅ (put_id call) ∖ dom m : gset TriggerId) <= 1).
    { transitivity (size (from_option singleton ∅ (put_id call) : gset TriggerId)); [apply subseteq_size; set_solver|].
      destruct (put_id call); cbn; [by rewrite size_singleton|by rewrite size_empty; lia]. }
    lia.
Qed.

(** Call for call, the table of triggers answers what the in-memory list of triggers answers: any calls in
    turn (puts, pauses, rotations, resumes, deletes, moved ticks and reads), from an empty store. *)
Theorem pg_triggers_are_triggers calls : NoDup (omap put_id calls) -> (Z.of_nat (length calls) < i64_max)%Z ->
  pg_calls ∅ calls = mem_calls triggers_default calls.
Proof.
  intros Hnd Hlen. apply calls_are; [|done|by intros id _; rewrite lookup_empty|done].
  split; [by intros id row; rewrite lookup_empty|]. done.
Qed.

End Calls.

(** ** At concrete inputs *)

Definition demo_trigger_calls : list TriggerCall :=
  [TPut (sample_trigger 1 "user-1") 1; TPut (sample_trigger 2 "user-1") 1; TPut (sample_trigger 3 "user-2") 1;
   TSetEnabled sample_owner (id_of 1) false; TResume sample_owner (id_of 1) (Some 9%Z); TDue 9%Z 5;
   TAdvance (id_of 1) (Some 9%Z) None; TRotate sample_owner (id_of 1); TPauseAll sample_owner; TOf sample_owner;
   TDelete sample_owner (id_of 1); TGet sample_owner (id_of 1); TWebhook (id_of 3)].

Lemma pg_triggers_are_triggers_witness :
  pg_calls (mkStoreError "duplicate key") ∅ demo_trigger_calls = mem_calls triggers_default demo_trigger_calls /\
  nth_error (pg_calls (mkStoreError "duplicate key") ∅ demo_trigger_calls) 1 = Some (Ok (TBool false)) /\
  nth_error (pg_calls (mkStoreError "duplicate key") ∅ demo_trigger_calls) 6 = Some (Ok (TBool true)).
Proof.
  split; [|split; vm_compute; reflexivity]. apply (pg_triggers_are_triggers (mkStoreError "duplicate key") demo_trigger_calls).
  - apply (bool_decide_eq_true_1 _). vm_compute. reflexivity.
  - vm_compute. reflexivity.
Defined.
