(* ===== verification/PostgresPuts.v ===== *)
(** * Puts of triggers side by side in the Postgres store ([server/postgres.rs])

    [put_trigger] is a transaction: it takes its principal's advisory lock,
    counts the principal's triggers, inserts the row and commits.  Here its
    statements interleave with those of other puts and with the other calls,
    each of one statement; a statement may fail, or be lost.  The theorem: a
    principal never has more triggers than its cap ([pg_triggers_capped]). *)

From S2P Require Import Prelude Protocol MemoryOwner Store StoreTriggers StoreThreads Postgres PostgresTriggers.

(** ** The transaction *)

(** A put's place: nothing done; the advisory lock taken; the cap not
    reached; the row inserted and not committed; ended. *)
Inductive PutPc := PutBegin | PutLocked | PutCounted | PutInserted | PutEnded (r : result bool StoreError).

Record Put : Type := mkPut { put_trigger_row : StoredTrigger; put_cap : N; put_pc : PutPc }.

Record PutCluster : Type := mkPutCluster { pl_table : TriggerTable; pl_puts : gmap nat Put }.

(** ['gol.triggers:' || $1 || chr(31) || $2]. *)
Definition lock_text (o : Owner) : string :=
  ("gol.triggers:" +:+ issuer o +:+ String (Ascii.ascii_of_nat 31) (subject o))%string.

Definition holds_lock (put : Put) : bool :=
  match put_pc put with PutLocked | PutCounted | PutInserted => true | PutBegin | PutEnded _ => false end.

Definition has_inserted (put : Put) : bool := match put_pc put with PutInserted => true | _ => false end.

Definition other_put (i : nat) (c : PutCluster) (p : Put -> bool) : bool :=
  existsb (fun s => negb (s.1 =? i)%nat && p s.2) (map_to_list (pl_puts c)).

Definition put_goto (i : nat) (c : PutCluster) (m : TriggerTable) (put : Put) (pc : PutPc) : PutCluster :=
  mkPutCluster m (<[i := mkPut (put_trigger_row put) (put_cap put) pc]> (pl_puts c)).

Section Puts.
(** [hashtextextended(_, 0)] of Postgres. *)
Context (key_error : StoreError) (hashtext : string -> Z).

Definition lock_key (o : Owner) : Z := hashtext (lock_text o).

(** The next statement of put [i], [None] if it waits or has ended.  A
    transaction that ends without its commit is rolled back. *)
Definition put_step (i : nat) (fate : Fate) (c : PutCluster) : option PutCluster :=
  put ← pl_puts c !! i;
  let t := put_trigger_row put in
  let m := pl_table c in
  let next pc := Some (put_goto i c m put pc) in
  let or_fail k := match fate with Goes => k | Fails e | Unsure e => next (PutEnded (Err e)) end in
  match put_pc put with
  | PutBegin =>
      or_fail
        (if other_put i c (fun p => holds_lock p && (lock_key (tg_owner (put_trigger_row p)) =? lock_key (tg_owner t))%Z)
         then None else next PutLocked)
  | PutLocked => or_fail (next (if at_cap m (tg_owner t) (put_cap put) then PutEnded (Ok false) else PutCounted))
  | PutCounted =>
      or_fail
        (match insert_trigger m t with
         | None => next (PutEnded (Err key_error))
         | Some _ =>
             if other_put i c (fun p => has_inserted p && bool_decide (tg_id (put_trigger_row p) = tg_id t))
             then None else next PutInserted
         end)
  | PutInserted =>
      let inserted := <[tg_id t := new_row t]> m in
      match fate with
      | Goes => Some (put_goto i c inserted put (PutEnded (Ok true)))
      | Unsure e => Some (put_goto i c inserted put (PutEnded (Err e)))
      | Fails e => next (PutEnded (Err e))
      end
  | PutEnded _ => None
  end.

(** A statement of a put, or another call, of one statement. *)
Inductive TriggerStatement := SPut (i : nat) (fate : Fate) | SCall (call : TriggerCall).

Definition statement (s : TriggerStatement) (c : PutCluster) : option PutCluster :=
  match s with
  | SPut i fate => put_step i fate c
  | SCall (TPut _ _) => None
  | SCall call => Some (mkPutCluster (pg_call key_error (pl_table c) call).2 (pl_puts c))
  end.

Fixpoint statements (l : list TriggerStatement) (c : PutCluster) : option PutCluster :=
  match l with
  | [] => Some c
  | s :: l => c ← statement s c; statements l c
  end.

End Puts.

(** ** Counts *)

Lemma count_insert m id row o : m !! id = None ->
  count_mine (<[id := row]> m) o = (if row_mine o row then 1 else 0) + count_mine m o.
Proof.
  intros Hm. unfold count_mine.
  rewrite (Permutation_length (filter_perm _ _ _ (fmap_Permutation snd _ _ (map_to_list_insert m id row Hm)))).
  cbn. by destruct (row_mine o row).
Qed.

Lemma count_lookup m id row o : m !! id = Some row ->
  count_mine m o = (if row_mine o row then 1 else 0) + count_mine (delete id m) o.
Proof. intros Hm. rewrite <-(insert_delete_id m id row Hm) at 1. by rewrite count_insert by apply lookup_delete_eq. Qed.

Lemma count_replace m id row o :
  count_mine (<[id := row]> m) o = (if row_mine o row then 1 else 0) + count_mine (delete id m) o.
Proof. rewrite <-insert_delete_eq. apply count_insert, lookup_delete_eq. Qed.

Lemma count_delete m id o : count_mine (delete id m) o <= count_mine m o.
Proof.
  destruct (m !! id) as [row|] eqn:Hm; [rewrite (count_lookup m id row o Hm); lia|by rewrite delete_id].
Qed.

Lemma count_update m id cond set o : (forall row, row_mine o (set row) = row_mine o row) ->
  count_mine (update_row m id cond set).2 o = count_mine m o.
Proof.
  intros Hset. unfold update_row. destruct (m !! id) as [row|] eqn:Hm; [|done]. destruct (cond row); [|done].
  cbn. by rewrite count_replace, Hset, (count_lookup m id row o Hm).
Qed.

Lemma count_fmap (f : TriggerRow -> TriggerRow) (m : TriggerTable) o :
  (forall row, row_mine o (f row) = row_mine o row) -> count_mine (f <$> m) o = count_mine m o.
Proof.
  intros Hf. unfold count_mine. rewrite map_to_list_fmap, <-list_fmap_compose.
  induction (map_to_list m) as [|[id row] l IH]; [done|]. cbn. rewrite Hf. destruct (row_mine o row); cbn; [by f_equal|done].
Qed.

(** No call but a put adds a row. *)
Lemma count_call key_error m call o : put_id call = None ->
  count_mine (pg_call key_error m call).2 o <= count_mine m o.
Proof.
  intros Hp. assert (forall row, row_mine o (rotated row) = row_mine o row) as Hrot.
  { intros row. unfold rotated. by destruct (tr_body row), (row_rotation row). }
  assert (forall row, row_mine o (next_generation row) = row_mine o row) as Hgen.
  { intros row. unfold next_generation. by destruct (tr_body row). }
  destruct call as [t most|o' id enabled|o' id|o' id|o' id next|id due next|o'|o' id|o'|now limit|id]; cbn [pg_call];
    unfold replied; cbn [snd]; try done.
  - unfold update_set_enabled. pose proof (count_update m id (row_mine o') (fun row => row_enabled row enabled) o) as Hc.
    destruct (update_row _ _ _ _). cbn in *. by rewrite Hc.
  - unfold update_rotate. match goal with |- context[update_row m id ?f ?s] => pose proof (count_update m id f s o) as Hc end.
    destruct (update_row _ _ _ _). cbn in *. by rewrite Hc.
  - unfold delete_row. destruct (m !! id) as [row|]; [destruct (row_mine o' row)|]; cbn; auto using count_delete.
  - unfold pg_resume_trigger, update_resume.
    match goal with |- context[update_row m id ?f ?s] => pose proof (count_update m id f s o) as Hc end.
    destruct (update_row _ _ _ _) as [[]]; cbn in *; by rewrite Hc by (intros; by rewrite Hgen).
  - unfold update_advance. match goal with |- context[update_row m id ?f ?s] => pose proof (count_update m id f s o) as Hc end.
    destruct (update_row _ _ _ _). cbn in *. by rewrite Hc.
  - cbn. rewrite count_fmap; [done|]. intros row. by destruct (_ && _).
Qed.

(** ** The cap *)

Section Capped.
Context (key_error : StoreError) (hashtext : string -> Z).

Definition counted (put : Put) : bool := match put_pc put with PutCounted | PutInserted => true | _ => false end.

Definition put_owner (put : Put) : Owner := tg_owner (put_trigger_row put).

(** One put holds a lock, and one that has counted is under its cap. *)
Definition puts_ok (c : PutCluster) : Prop :=
  (forall i j p q, pl_puts c !! i = Some p -> pl_puts c !! j = Some q -> holds_lock p = true -> holds_lock q = true ->
     lock_key hashtext (put_owner p) = lock_key hashtext (put_owner q) -> i = j) /\
  (forall i p, pl_puts c !! i = Some p -> counted p = true ->
     (N.of_nat (count_mine (pl_table c) (put_owner p)) < clamp_i64 (put_cap p))%N).

Lemma counted_holds p : counted p = true -> holds_lock p = true.
Proof. unfold counted, holds_lock. by destruct (put_pc p). Qed.

Lemma other_put_false i c p j q : other_put i c p = false -> pl_puts c !! j = Some q -> j <> i -> p q = false.
Proof.
  unfold other_put. intros Ho Hj Hne. destruct (p q) eqn:Ep; [|done]. rewrite <-not_true_iff_false, List.existsb_exists in Ho.
  destruct Ho. exists (j, q). split; [by apply list_elem_of_In, elem_of_map_to_list|]. cbn. rewrite Ep, andb_true_r.
  by apply negb_true_iff, Nat.eqb_neq.
Qed.

Lemma goto_ok i c m p pc : puts_ok c -> pl_puts c !! i = Some p ->
  let p' := mkPut (put_trigger_row p) (put_cap p) pc in
  (holds_lock p' = true -> holds_lock p = false -> forall j q, pl_puts c !! j = Some q -> j <> i ->
     holds_lock q = true -> lock_key hashtext (put_owner q) <> lock_key hashtext (put_owner p)) ->
  (counted p' = true -> (N.of_nat (count_mine m (put_owner p)) < clamp_i64 (put_cap p))%N) ->
  (forall j q, pl_puts c !! j = Some q -> j <> i -> counted q = true ->
     count_mine m (put_owner q) <= count_mine (pl_table c) (put_owner q)) ->
  puts_ok (put_goto i c m p pc).
Proof.
  intros [H1 H2] Hi p' Hlock Hcount Hothers. unfold put_goto. fold p'. split; cbn.
  - assert (forall j q, pl_puts c !! j = Some q -> j <> i -> holds_lock p' = true -> holds_lock q = true ->
      lock_key hashtext (put_owner q) <> lock_key hashtext (put_owner p)) as Hno.
    { intros j q Hj Hne Hp Hq Hk. destruct (holds_lock p) eqn:Eh; [|by apply (Hlock Hp eq_refl j q)].
      by apply Hne, (H1 j i q p). }
    intros j k q r [[<- <-]|[Hji Hj]]%lookup_insert_Some [[<- <-]|[Hki Hk]]%lookup_insert_Some Hq Hr Hkey; try done.
    + destruct (Hno k r Hk); [congruence|done|done|by symmetry].
    + by destruct (Hno j q Hj); [congruence|..].
    + by apply (H1 j k q r).
  - intros j q [[<- <-]|[Hne Hj]]%lookup_insert_Some Hq; [by apply Hcount|].
    specialize (H2 j q Hj Hq). specialize (Hothers j q Hj (not_eq_sym Hne) Hq). lia.
Qed.

(** A principal's rows are one count, under one lock. *)
Lemma mine_same o t : row_mine o (new_row t) = true ->
  lock_text (tg_owner t) = lock_text o /\ forall m, count_mine m (tg_owner t) = count_mine m o.
Proof.
  unfold row_mine. cbn. rewrite andb_true_iff, !bool_decide_eq_true. intros [Hi Hs]. unfold lock_text, count_mine, row_mine.
  by rewrite Hi, Hs.
Qed.

Lemma put_commit_ok i c p pc : puts_ok c -> pl_puts c !! i = Some p -> put_pc p = PutInserted ->
  counted (mkPut (put_trigger_row p) (put_cap p) pc) = false ->
  holds_lock (mkPut (put_trigger_row p) (put_cap p) pc) = false ->
  puts_ok (put_goto i c (<[tg_id (put_trigger_row p) := new_row (put_trigger_row p)]> (pl_table c)) p pc).
Proof.
  intros Hok Hi Hpc Hc Hl. apply goto_ok; [done|done|by rewrite Hl|by rewrite Hc|].
  intros j q Hj Hne Hq. rewrite count_replace. destruct (row_mine _ _) eqn:Em; [|apply count_delete].
  destruct Hne. apply (proj1 Hok j i q p); [done|done|by apply counted_holds|unfold holds_lock; by rewrite Hpc|].
  apply mine_same in Em as [Em _]. unfold lock_key, put_owner in *. by rewrite Em.
Qed.

Lemma put_step_ok i fate c c' : puts_ok c -> put_step key_error hashtext i fate c = Some c' -> puts_ok c'.
Proof.
  intros Hok Hs. unfold put_step in Hs. destruct (pl_puts c !! i) as [p|] eqn:Hi; [|done]. cbn in Hs.
  assert (forall pc, holds_lock (mkPut (put_trigger_row p) (put_cap p) pc) = false -> puts_ok (put_goto i c (pl_table c) p pc)) as Hend.
  { intros pc Hl. apply goto_ok; [done|done|by rewrite Hl| |done].
    intros Hc%counted_holds. congruence. }
  destruct (put_pc p) eqn:Ep; destruct fate; try done; try (injection Hs as <-; by apply Hend);
    try (injection Hs as <-; by apply put_commit_ok).
  - destruct (other_put _ _ _) eqn:Eo; [done|]. injection Hs as <-. apply goto_ok; try done.
    intros _ _ j q Hj Hne Hq Hk. pose proof (other_put_false _ _ _ j q Eo Hj Hne) as Hf. cbn in Hf.
    rewrite Hq in Hf. unfold put_owner in Hk. by rewrite Hk, Z.eqb_refl in Hf.
  - injection Hs as <-. destruct (at_cap _ _ _) eqn:Ea; [by apply Hend|]. apply goto_ok; try done.
    + intros _ Hl. unfold holds_lock in Hl. by rewrite Ep in Hl.
    + intros _. unfold at_cap in Ea. by apply N.leb_gt in Ea.
  - destruct (insert_trigger _ _); [|injection Hs as <-; by apply Hend].
    destruct (other_put _ _ _); [done|]. injection Hs as <-. apply goto_ok; try done.
    + intros _ Hl. unfold holds_lock in Hl. by rewrite Ep in Hl.
    + intros _. apply (proj2 Hok i p Hi). unfold counted. by rewrite Ep.
Qed.

(** The cap of a principal's puts is kept by a statement. *)
Lemma statement_ok s c c' o cap : puts_ok c -> statement key_error hashtext s c = Some c' ->
  (forall i p, pl_puts c !! i = Some p -> owner_is (put_owner p) o = true -> (put_cap p <= cap)%N) ->
  (N.of_nat (count_mine (pl_table c) o) <= cap)%N ->
  puts_ok c' /\ (N.of_nat (count_mine (pl_table c') o) <= cap)%N /\
  forall i p, pl_puts c' !! i = Some p -> owner_is (put_owner p) o = true -> (put_cap p <= cap)%N.
Proof.
  intros Hok Hs Hcap Hcount. destruct s as [i fate|call].
  - simpl in Hs. split; [by eapply put_step_ok|]. unfold put_step in Hs.
    destruct (pl_puts c !! i) as [p|] eqn:Hi; [|done]. cbn in Hs.
    assert (forall m pc, (N.of_nat (count_mine m o) <= cap)%N ->
      (N.of_nat (count_mine (pl_table (put_goto i c m p pc)) o) <= cap)%N /\
      forall j q, pl_puts (put_goto i c m p pc) !! j = Some q -> owner_is (put_owner q) o = true -> (put_cap q <= cap)%N) as Hgo.
    { intros m pc Hm. split; [done|]. cbn. intros j q [[<- <-]|[_ Hj]]%lookup_insert_Some; [by apply (Hcap i p)|by apply (Hcap j q)]. }
    assert (put_pc p = PutInserted -> (N.of_nat (count_mine (<[tg_id (put_trigger_row p) := new_row (put_trigger_row p)]> (pl_table c)) o) <= cap)%N) as Hins.
    { intros Ep. rewrite count_replace. pose proof (count_delete (pl_table c) (tg_id (put_trigger_row p)) o) as Hd.
      destruct (row_mine o (new_row (put_trigger_row p))) eqn:Em; [|lia].
      assert (owner_is (put_owner p) o = true) as Ho by done. specialize (Hcap i p Hi Ho).
      apply mine_same in Em as [_ Em]. pose proof (proj2 Hok i p Hi) as Hc. unfold counted in Hc. rewrite Ep in Hc.
      specialize (Hc eq_refl). unfold put_owner in Hc. rewrite Em in Hc. unfold clamp_i64 in Hc. lia. }
    repeat (case_match; try done); simplify_eq; auto.
  - assert (put_id call = None) as Hp by (by destruct call).
    assert (c' = mkPutCluster (pg_call key_error (pl_table c) call).2 (pl_puts c)) as -> by
      (destruct call; cbn [statement] in Hs; [done|by injection Hs as <-..]).
    pose proof (count_call key_error (pl_table c) call) as Hle. split_and!; cbn; [|specialize (Hle o Hp); lia|done].
    split; [apply Hok|]. cbn. intros i p Hi Hc. pose proof (proj2 Hok i p Hi Hc). specialize (Hle (put_owner p) Hp). lia.
Qed.

(** However the statements of concurrent puts interleave, with each other and with other calls, and whichever
    fail or are unsure, a principal never has more triggers than the cap its puts carry. *)
Theorem pg_triggers_capped l c c' o cap :
  (forall i p, pl_puts c !! i = Some p -> put_pc p = PutBegin) ->
  (forall i p, pl_puts c !! i = Some p -> owner_is (put_owner p) o = true -> (put_cap p <= cap)%N) ->
  (N.of_nat (count_mine (pl_table c) o) <= cap)%N ->
  statements key_error hashtext l c = Some c' -> (N.of_nat (count_mine (pl_table c') o) <= cap)%N.
Proof.
  intros Hbegin. assert (puts_ok c) as Hok.
  { split; [intros i j p q Hp _ Hh|intros i p Hp Hh]; unfold holds_lock, counted in Hh; by rewrite (Hbegin _ _ Hp) in Hh. }
  clear Hbegin. revert c Hok. induction l as [|s l IH]; intros c Hok Hcap Hcount Hl; [by injection Hl as <-|].
  simpl in Hl. destruct (statement key_error hashtext s c) as [c1|] eqn:Es; [|done]. simpl in Hl.
  destruct (statement_ok s c c1 o cap Hok Es Hcap Hcount) as (Hok1 & Hc1 & Hcap1). by apply (IH c1).
Qed.

End Capped.

(** ** At concrete inputs *)

(** Two puts of one principal, with a cap of one: the second waits for the
    first's commit. *)
Definition demo_puts : PutCluster :=
  mkPutCluster ∅ (<[0 := mkPut (sample_trigger 1 "user-1") 1 PutBegin]>
                 (<[1 := mkPut (sample_trigger 2 "user-1") 1 PutBegin]> ∅)).

Definition demo_statements : list TriggerStatement :=
  (fun i => SPut i Goes) <$> [0; 0; 0; 0; 1; 1].

Definition demo_put_end : option PutCluster :=
  statements (mkStoreError "duplicate key") (fun s => Z.of_nat (String.length s)) demo_statements demo_puts.

Lemma pg_triggers_capped_witness :
  (c ← statements (mkStoreError "") (fun s => Z.of_nat (String.length s)) (take 1 demo_statements) demo_puts;
   put_step (mkStoreError "") (fun s => Z.of_nat (String.length s)) 1 Goes c) = None /\
  (fun c => put_pc <$> pl_puts c) <$> demo_put_end = Some (<[0 := PutEnded (Ok true)]> (<[1 := PutEnded (Ok false)]> ∅)) /\
  match demo_put_end with
  | Some c => (N.of_nat (count_mine (pl_table c) (tg_owner (sample_trigger 1 "user-1"))) <= 1)%N
  | None => False
  end.
Proof.
  split; [vm_compute; reflexivity|]. split; [vm_compute; reflexivity|].
  assert (bool_decide (is_Some demo_put_end) = true) as Hsome by (vm_compute; reflexivity).
  destruct demo_put_end as [c|] eqn:E; [|discriminate Hsome]. unfold demo_put_end in E.
  apply (pg_triggers_capped (mkStoreError "duplicate key") (fun s => Z.of_nat (String.length s)) demo_statements demo_puts c
    (tg_owner (sample_trigger 1 "user-1")) 1); [| | |exact E].
  - intros i p Hi. cbn in Hi. repeat (apply lookup_insert_Some in Hi as [[_ <-]|[_ Hi]]; [done|]). by rewrite lookup_empty in Hi.
  - intros i p Hi _. cbn in Hi. repeat (apply lookup_insert_Some in Hi as [[_ <-]|[_ Hi]]; [done|]). by rewrite lookup_empty in Hi.
  - vm_compute. discriminate.
Defined.
