(* ===== verification/PostgresMessages.v ===== *)
(** * Messages in the Postgres store ([server/postgres.rs])

    A table of messages, keyed by id and unique per sending run and decision.
    [put_message] is an insert and, where the key was taken, a read of the row
    that has it; every other call is one statement.  The statements of many
    sessions interleave, and each may fail or be lost.  The theorem: the calls
    take effect one at a time, each between its start and its end, as those of
    the in-memory store do ([pg_messages_are_messages]). *)

From S2P Require Import Prelude Protocol MemoryOwner Store StoreTriggers StoreMessages Postgres.

(** ** The table *)

Record MessageRow : Type := mkMessageRow {
  mr_from_run : RunId;
  mr_decision : N;
  mr_task_run : option RunId;
  mr_expects_reply : bool;
  mr_deadline_ms : option Z;
  mr_answered : bool;
  mr_body : StoredMessage;
}.

Abbreviation MessageTable := (gmap MessageId MessageRow).

Definition message_row (m : StoredMessage) : MessageRow :=
  mkMessageRow (ms_from_run m) (ms_decision m) (ms_task_run m) (ms_expects_reply m) (ms_deadline m) false m.

Definition row_answered (row : MessageRow) : MessageRow :=
  mkMessageRow (mr_from_run row) (mr_decision row) (mr_task_run row) (mr_expects_reply row) (mr_deadline_ms row) true
    (mr_body row).

Definition message_rows (m : MessageTable) : list MessageRow := (map_to_list m).*2.

(** [from_run = $1 and decision = $2]. *)
Definition row_sent_by (run : RunId) (decision : N) (row : MessageRow) : bool :=
  bool_decide (mr_from_run row = run) && (mr_decision row =? decision)%N.

(** [expects_reply and not answered]. *)
Definition row_open (row : MessageRow) : bool := negb (mr_answered row) && mr_expects_reply row.

(** [deadline_ms <= $1] of an open ask. *)
Definition row_overdue (now : Timestamp) (row : MessageRow) : bool :=
  row_open row && match mr_deadline_ms row with Some d => (d <=? now)%Z | None => false end.

Definition message_row_leb (a b : MessageId * MessageRow) : bool := (uuid_N (as_uuid a.1) <=? uuid_N (as_uuid b.1))%N.

(** ** Calls *)

Inductive MessageCall :=
| MPut (m : StoredMessage)
| MRead (id : MessageId)
| MAskOf (task : RunId)
| MAnswer (ask : MessageId)
| MDue (now : Timestamp).

Inductive MessageAnswer :=
| AnPut (r : PutMessage)
| AnOne (m : option StoredMessage)
| AnBool (b : bool)
| AnMany (l : list StoredMessage).

(** A session's place: nothing done; its insert found the key taken; ended. *)
Inductive MessagePc := MsgBegin | MsgConflict | MsgEnded (r : result MessageAnswer StoreError).

Record MessageCluster : Type := mkMessageCluster {
  mc_table : MessageTable;
  mc_sessions : gmap nat (MessageCall * MessagePc);
}.

Section Messages.
(** What Postgres says of a taken id, and of more rows than were asked for. *)
Context (key_error rows_error : StoreError).

(** [query_opt] and [query_one]. *)
Definition query_opt {A} (rows : list A) : result (option A) StoreError :=
  match rows with [] => Ok None | [row] => Ok (Some row) | _ => Err rows_error end.

Definition query_one {A} (rows : list A) : result A StoreError :=
  match rows with [row] => Ok row | _ => Err rows_error end.

(** [insert ... on conflict (from_run, decision) do nothing]: the table, or no
    row inserted, or a broken key. *)
Definition insert_message (t : MessageTable) (m : StoredMessage) : result (option MessageTable) StoreError :=
  if existsb (row_sent_by (ms_from_run m) (ms_decision m)) (message_rows t) then Ok None
  else match t !! ms_id m with
       | Some _ => Err key_error
       | None => Ok (Some (<[ms_id m := message_row m]> t))
       end.

Definition select_sent (t : MessageTable) (m : StoredMessage) : result MessageAnswer StoreError :=
  match query_one (List.filter (row_sent_by (ms_from_run m) (ms_decision m)) (message_rows t)) with
  | Ok row => Ok (AnPut (MessageExisted (mr_body row)))
  | Err e => Err e
  end.

Definition select_message (t : MessageTable) (id : MessageId) : option StoredMessage := mr_body <$> t !! id.

Definition select_ask_of (t : MessageTable) (task : RunId) : result MessageAnswer StoreError :=
  match query_opt (List.filter (fun row => bool_decide (mr_task_run row = Some task) && row_open row) (message_rows t)) with
  | Ok row => Ok (AnOne (mr_body <$> row))
  | Err e => Err e
  end.

Definition update_answered (t : MessageTable) (ask : MessageId) : bool * MessageTable :=
  match t !! ask with
  | Some row => if mr_answered row then (false, t) else (true, <[ask := row_answered row]> t)
  | None => (false, t)
  end.

Definition select_asks_due (t : MessageTable) (now : Timestamp) : list StoredMessage :=
  (fun x => mr_body x.2) <$> sort_by message_row_leb (List.filter (fun x => row_overdue now x.2) (map_to_list t)).

Definition message_goto (i : nat) (c : MessageCluster) (t : MessageTable) (call : MessageCall) (pc : MessagePc) : MessageCluster :=
  mkMessageCluster t (<[i := (call, pc)]> (mc_sessions c)).

(** A statement that ends its call, and writes [t]. *)
Definition message_ends (i : nat) (fate : Fate) (c : MessageCluster) (call : MessageCall) (t : MessageTable)
    (r : result MessageAnswer StoreError) : MessageCluster :=
  match fate with
  | Goes => message_goto i c t call (MsgEnded r)
  | Unsure e => message_goto i c t call (MsgEnded (Err e))
  | Fails e => message_goto i c (mc_table c) call (MsgEnded (Err e))
  end.

(** The next statement of session [i], [None] if its call has ended. *)
Definition message_step (i : nat) (fate : Fate) (c : MessageCluster) : option MessageCluster :=
  '(call, pc) ← mc_sessions c !! i;
  let t := mc_table c in
  match pc, call with
  | MsgEnded _, _ => None
  | MsgConflict, MPut m => Some (message_ends i fate c call t (select_sent t m))
  | MsgConflict, _ => None
  | MsgBegin, MPut m =>
      match insert_message t m with
      | Ok (Some t) => Some (message_ends i fate c call t (Ok (AnPut MessageStored)))
      | Err e => Some (message_ends i fate c call t (Err e))
      | Ok None =>
          match fate with
          | Goes => Some (message_goto i c t call MsgConflict)
          | Fails e | Unsure e => Some (message_goto i c t call (MsgEnded (Err e)))
          end
      end
  | MsgBegin, MRead id => Some (message_ends i fate c call t (Ok (AnOne (select_message t id))))
  | MsgBegin, MAskOf task => Some (message_ends i fate c call t (select_ask_of t task))
  | MsgBegin, MAnswer ask =>
      let '(changed, t) := update_answered t ask in Some (message_ends i fate c call t (Ok (AnBool changed)))
  | MsgBegin, MDue now => Some (message_ends i fate c call t (Ok (AnMany (select_asks_due t now))))
  end.

Fixpoint message_steps (l : list (nat * Fate)) (c : MessageCluster) : option MessageCluster :=
  match l with
  | [] => Some c
  | (i, fate) :: l => c ← message_step i fate c; message_steps l c
  end.

End Messages.

(** ** What a call is of the in-memory messages *)

Definition mem_message_call (l : Messages) (call : MessageCall) : result MessageAnswer StoreError * Messages :=
  match call with
  | MPut m => match put_message l m with (Ok r, l) => (Ok (AnPut r), l) | (Err e, l) => (Err e, l) end
  | MRead id => (Ok (AnOne (message l id)), l)
  | MAskOf task => (Ok (AnOne (ask_of_task l task)), l)
  | MAnswer ask => match answer l ask with (Ok b, l) => (Ok (AnBool b), l) | (Err e, l) => (Err e, l) end
  | MDue now => (Ok (AnMany (open_asks_due l now)), l)
  end.

(** The messages a table stands for. *)
Definition message_contents (t : MessageTable) : Messages :=
  mkLock ((fun row => (mr_body row, mr_answered row)) <$> t) false.

(** The rows' columns are their messages', and no two are of one decision. *)
Record messages_ok (t : MessageTable) : Prop := mkMessagesOk {
  mo_row id row : t !! id = Some row ->
    ms_id (mr_body row) = id /\ mr_from_run row = ms_from_run (mr_body row) /\
    mr_decision row = ms_decision (mr_body row) /\ mr_task_run row = ms_task_run (mr_body row) /\
    mr_expects_reply row = ms_expects_reply (mr_body row) /\ mr_deadline_ms row = ms_deadline (mr_body row);
  mo_once id id' row row' : t !! id = Some row -> t !! id' = Some row' ->
    mr_from_run row = mr_from_run row' -> mr_decision row = mr_decision row' -> id = id';
}.

(** ** Rows and messages in one order *)

Definition keeps (x : MessageId * MessageRow) (s : StoredMessage * bool) : Prop :=
  ms_id (mr_body x.2) = x.1 /\ s = (mr_body x.2, mr_answered x.2) /\ mr_from_run x.2 = ms_from_run s.1 /\
  mr_decision x.2 = ms_decision s.1 /\ mr_task_run x.2 = ms_task_run s.1 /\
  mr_expects_reply x.2 = ms_expects_reply s.1 /\ mr_deadline_ms x.2 = ms_deadline s.1.

Lemma table_keeps t : messages_ok t -> Forall2 keeps (map_to_list t) (message_values (lock_read (message_contents t))).
Proof.
  intros Hok. unfold message_values, message_contents, lock_read. cbn [guarded]. rewrite map_to_list_fmap, <-list_fmap_compose.
  apply Forall2_fmap_r. apply Forall_Forall2_diag, Forall_forall. intros [id row] Hin%elem_of_map_to_list.
  destruct (mo_row t Hok id row Hin) as (H1 & H2 & H3 & H4 & H5 & H6). by split_and!.
Qed.

Lemma filter_keeps (f : MessageRow -> bool) (g : StoredMessage * bool -> bool) t : messages_ok t ->
  (forall x s, keeps x s -> f x.2 = g s) ->
  (fun row => (mr_body row, mr_answered row)) <$> List.filter f (message_rows t) =
    List.filter g (message_values (lock_read (message_contents t))).
Proof.
  intros Hok Hfg. unfold message_rows. pose proof (table_keeps t Hok) as Hk.
  induction Hk as [|x s l k Hx _ IH]; [done|]. cbn. rewrite (Hfg x s Hx). pose proof Hx as (_ & -> & _).
  destruct (g _); cbn; [by f_equal|done].
Qed.

Lemma keeps_sent run decision x s : keeps x s -> row_sent_by run decision x.2 = sent_by run decision s.1.
Proof. intros (_ & _ & Hr & Hd & _). unfold row_sent_by, sent_by. by rewrite Hr, Hd. Qed.

Lemma keeps_open x s : keeps x s -> row_open x.2 = open_ask s.
Proof. intros (_ & Hs & _ & _ & _ & He & _). unfold row_open, open_ask. rewrite He. by subst s. Qed.

Lemma filter_snd {A B} (f : B -> bool) (l : list (A * B)) :
  List.filter f l.*2 = (List.filter (fun x => f x.2) l).*2.
Proof. induction l as [|x l IH]; [done|]. cbn. destruct (f x.2); cbn; [by f_equal|done]. Qed.

Lemma list_one {A} (l : list A) : (forall x y, x ∈ l -> y ∈ l -> x = y) -> NoDup l -> l = [] \/ exists x, l = [x].
Proof.
  intros Heq Hnd. destruct l as [|x [|y l]]; [by left|right; by exists x|]. apply NoDup_cons in Hnd as [Hn _].
  destruct Hn. rewrite (Heq x y); set_solver.
Qed.

(** A decision's row is one. *)
Lemma sent_rows t run decision : messages_ok t ->
  List.filter (row_sent_by run decision) (message_rows t) = [] \/
  exists row, List.filter (row_sent_by run decision) (message_rows t) = [row].
Proof.
  intros Hok. unfold message_rows. rewrite filter_snd. set (l := List.filter _ _).
  destruct (list_one l) as [->|(x & ->)]; [| |by left|right; by exists x.2].
  - intros [id row] [id' row'] Hx Hy. unfold l in Hx, Hy. rewrite list_elem_of_In, List.filter_In, <-list_elem_of_In in Hx, Hy.
    unfold row_sent_by in Hx, Hy. rewrite elem_of_map_to_list, andb_true_iff, bool_decide_eq_true, N.eqb_eq in Hx, Hy.
    destruct Hx as (Hx & Hxr & Hxd), Hy as (Hy & Hyr & Hyd). cbn in *.
    assert (id = id') as <- by (apply (mo_once t Hok id id' row row'); congruence). congruence.
  - apply NoDup_ListNoDup, List.NoDup_filter, NoDup_ListNoDup, NoDup_map_to_list.
Qed.

(** ** A statement does what the in-memory call does *)

(** A row of the decision is there. *)
Definition decision_taken (t : MessageTable) (m : StoredMessage) : bool :=
  existsb (row_sent_by (ms_from_run m) (ms_decision m)) (message_rows t).

Lemma taken_row t m : decision_taken t m = true <->
  exists id row, t !! id = Some row /\ row_sent_by (ms_from_run m) (ms_decision m) row = true.
Proof.
  unfold decision_taken, message_rows. rewrite existsb_exists. split.
  - intros (row & Hin%list_elem_of_In & Hs). apply list_elem_of_fmap in Hin as ([id row'] & -> & Hin%elem_of_map_to_list).
    by exists id, row'.
  - intros (id & row & Hm & Hs). exists row. split; [|done]. apply list_elem_of_In, list_elem_of_fmap. exists (id, row).
    split; [done|]. by apply elem_of_map_to_list.
Qed.

Lemma find_sent t m : messages_ok t ->
  List.find (fun s => sent_by (ms_from_run m) (ms_decision m) s.1) (message_values (lock_read (message_contents t))) =
  (fun row => (mr_body row, mr_answered row)) <$> head (List.filter (row_sent_by (ms_from_run m) (ms_decision m)) (message_rows t)).
Proof.
  intros Hok. rewrite find_head, <-(filter_keeps (row_sent_by (ms_from_run m) (ms_decision m))); [|done|].
  - by destruct (List.filter _ _).
  - intros x s. apply keeps_sent.
Qed.

Section Statements.
Context (key_error rows_error : StoreError).

Lemma filter_existsb {A} (f : A -> bool) l : existsb f l = negb (bool_decide (List.filter f l = [])).
Proof. induction l as [|x l IH]; [done|]. cbn. by destruct (f x). Qed.

(** A put that is not taken is stored. *)
Lemma insert_stored t m t' : messages_ok t -> insert_message key_error t m = Ok (Some t') ->
  put_message (message_contents t) m = (Ok MessageStored, message_contents t') /\ messages_ok t'.
Proof.
  intros Hok. unfold insert_message. fold (decision_taken t m). destruct (decision_taken t m) eqn:Et; [done|].
  destruct (t !! ms_id m) as [row|] eqn:Hm; [done|]. intros [= <-].
  assert (forall id row, t !! id = Some row -> row_sent_by (ms_from_run m) (ms_decision m) row = false) as Hfree.
  { intros id row Hr. apply not_true_iff_false. intros Hs. rewrite <-not_true_iff_false, taken_row in Et. by apply Et; exists id, row. }
  split.
  - unfold put_message, lock_write. cbn [poisoned message_contents].
    change (guarded (message_contents t)) with (lock_read (message_contents t)). rewrite find_sent by done.
    unfold decision_taken in Et. rewrite filter_existsb in Et. apply negb_false_iff, bool_decide_eq_true in Et. rewrite Et. cbn.
    unfold message_contents, lock_set. cbn. by rewrite fmap_insert.
  - split.
    + intros id row [[<- <-]|[_ Hr]]%lookup_insert_Some; [by split_and!|by apply Hok].
    + intros id id' row row' [[<- <-]|[Hne Hr]]%lookup_insert_Some [[<- <-]|[Hne' Hr']]%lookup_insert_Some H1 H2; try done.
      * specialize (Hfree id' row' Hr'). unfold row_sent_by in Hfree. cbn in H1, H2. by rewrite <-H1, <-H2, bool_decide_true, N.eqb_refl in Hfree.
      * specialize (Hfree id row Hr). unfold row_sent_by in Hfree. cbn in H1, H2. by rewrite H1, H2, bool_decide_true, N.eqb_refl in Hfree.
      * by apply (mo_once t Hok id id' row row').
Qed.

Lemma insert_taken t m : insert_message key_error t m = Ok None -> decision_taken t m = true.
Proof.
  unfold insert_message. fold (decision_taken t m). destruct (decision_taken t m); [done|]. by destruct (t !! ms_id m).
Qed.

(** One that is reads the row that has its decision. *)
Lemma select_sent_existed t m : messages_ok t -> decision_taken t m = true ->
  exists r, select_sent rows_error t m = Ok (AnPut r) /\ put_message (message_contents t) m = (Ok r, message_contents t).
Proof.
  intros Hok Ht. unfold decision_taken in Ht. rewrite filter_existsb in Ht. apply negb_true_iff, bool_decide_eq_false in Ht.
  destruct (sent_rows t (ms_from_run m) (ms_decision m) Hok) as [|(row & Hrow)]; [done|]. exists (MessageExisted (mr_body row)).
  unfold select_sent, query_one. rewrite Hrow. split; [done|]. unfold put_message, lock_write. cbn [poisoned message_contents].
  change (guarded (message_contents t)) with (lock_read (message_contents t)). rewrite find_sent by done. by rewrite Hrow.
Qed.

Lemma ask_of_is t task r : messages_ok t -> select_ask_of rows_error t task = Ok r ->
  r = AnOne (ask_of_task (message_contents t) task).
Proof.
  intros Hok. unfold select_ask_of, ask_of_task. rewrite find_head.
  rewrite <-(filter_keeps (fun row => bool_decide (mr_task_run row = Some task) && row_open row)); [|done|].
  - destruct (List.filter _ _) as [|row [|row' l]]; cbn; [by intros [= <-]..|done].
  - intros x s Hx. rewrite andb_comm, (keeps_open x s Hx). by destruct Hx as (_ & _ & _ & _ & -> & _).
Qed.

Lemma answer_is t ask : messages_ok t -> 
  answer (message_contents t) ask = (Ok (update_answered t ask).1, message_contents (update_answered t ask).2) /\
  messages_ok (update_answered t ask).2.
Proof.
  intros Hok. unfold answer, lock_write, update_answered. cbn [poisoned message_contents guarded]. rewrite lookup_fmap.
  destruct (t !! ask) as [row|] eqn:Hm; [|done]. cbn. destruct (mr_answered row) eqn:Ea; [done|]. cbn [fst snd]. split.
  - unfold message_contents, lock_set. cbn. by rewrite fmap_insert.
  - split.
    + intros id row' [[<- <-]|[_ Hr]]%lookup_insert_Some; [exact (mo_row t Hok ask row Hm)|exact (mo_row t Hok id row' Hr)].
    + intros id id' row1 row2 [[<- <-]|[Hne Hr]]%lookup_insert_Some [[<- <-]|[Hne' Hr']]%lookup_insert_Some H1 H2; try done.
      * by apply (mo_once t Hok ask id' row row2).
      * by apply (mo_once t Hok id ask row1 row).
      * by apply (mo_once t Hok id id' row1 row2).
Qed.

Lemma due_asks_are t now : messages_ok t -> select_asks_due t now = open_asks_due (message_contents t) now.
Proof.
  intros Hok. unfold select_asks_due, open_asks_due.
  assert (Forall2 keeps (List.filter (fun x => row_overdue now x.2) (map_to_list t))
            (List.filter (ask_due now) (message_values (lock_read (message_contents t))))) as Hf.
  { apply Forall2_list_filter; [|by apply table_keeps]. intros x s Hx. unfold row_overdue, ask_due.
    rewrite (keeps_open x s Hx). by destruct Hx as (_ & _ & _ & _ & _ & _ & ->). }
  assert (Forall2 (fun x m => ms_id (mr_body x.2) = x.1 /\ m = mr_body x.2) (List.filter (fun x => row_overdue now x.2) (map_to_list t))
            (fst <$> List.filter (ask_due now) (message_values (lock_read (message_contents t))))) as Hg.
  { apply Forall2_fmap_r. eapply Forall2_impl; [exact Hf|]. intros x s (Hid & -> & _). done. }
  apply (Forall2_sort_by _ message_row_leb message_leb) in Hg.
  - induction Hg as [|x m l k [_ ->] _ IH]; [done|]. cbn. by f_equal.
  - intros x y x' y' [Hx ->] [Hx' ->]. unfold message_row_leb, message_leb. by rewrite Hx, Hx'.
Qed.

End Statements.

(** ** Steps *)

(** What took effect: by whom, its call, and its answer. *)
Definition MsgEffect : Type := nat * MessageCall * MessageAnswer.

(** The effects in turn, each as its call in memory. *)
Inductive takes : Messages -> list MsgEffect -> Messages -> Prop :=
| takes_nil l : takes l [] l
| takes_cons i call a l l1 l2 effects :
    mem_message_call l call = (Ok a, l1) -> takes l1 effects l2 -> takes l ((i, call, a) :: effects) l2.

Lemma takes_one i call a l l1 : mem_message_call l call = (Ok a, l1) -> takes l [(i, call, a)] l1.
Proof. intros Hm. eapply takes_cons; [done|constructor]. Qed.

Lemma takes_app l l1 l2 es es' : takes l es l1 -> takes l1 es' l2 -> takes l (es ++ es') l2.
Proof. induction 1; [done|]. intros. eapply takes_cons; eauto. Qed.

Section Refines.
Context (key_error rows_error : StoreError).

(** A put that found its decision taken, is. *)
Definition message_ok (c : MessageCluster) : Prop :=
  messages_ok (mc_table c) /\
  forall i call, mc_sessions c !! i = Some (call, MsgConflict) ->
    match call with MPut m => decision_taken (mc_table c) m = true | _ => False end.

Definition msg_ended (pc : MessagePc) : bool := match pc with MsgEnded _ => true | _ => false end.

(** Where a session may be, in a table. *)
Definition pc_fits (t : MessageTable) (call : MessageCall) (pc : MessagePc) : Prop :=
  match pc with MsgConflict => match call with MPut m => decision_taken t m = true | _ => False end | _ => True end.

(** No row goes, and none changes its decision. *)
Definition grows (t t' : MessageTable) : Prop :=
  forall id row, t !! id = Some row -> exists row', t' !! id = Some row' /\
    mr_from_run row' = mr_from_run row /\ mr_decision row' = mr_decision row.

Lemma grows_refl t : grows t t.
Proof. intros id row Hr. by exists row. Qed.

Lemma grows_insert t m t' : insert_message key_error t m = Ok (Some t') -> grows t t'.
Proof.
  unfold insert_message. destruct (existsb _ _); [done|]. destruct (t !! ms_id m) eqn:Hm; [done|]. intros [= <-] id row Hr.
  exists row. by rewrite lookup_insert_ne by congruence.
Qed.

Lemma grows_answered t ask : grows t (update_answered t ask).2.
Proof.
  unfold update_answered. destruct (t !! ask) as [row|] eqn:Hm; [|apply grows_refl].
  destruct (mr_answered row); [apply grows_refl|]. cbn. intros id row' Hr. destruct (decide (ask = id)) as [<-|].
  - exists (row_answered row). rewrite lookup_insert_eq. split; [done|]. rewrite Hm in Hr. by injection Hr as <-.
  - exists row'. by rewrite lookup_insert_ne.
Qed.

Lemma grows_taken t t' m : grows t t' -> decision_taken t m = true -> decision_taken t' m = true.
Proof.
  intros Hg (id & row & Hr & Hs)%taken_row. apply taken_row. destruct (Hg id row Hr) as (row' & Hr' & H1 & H2).
  exists id, row'. split; [done|]. unfold row_sent_by. by rewrite H1, H2.
Qed.

(** A statement of [i]'s [call]: the effects it had. *)
Record stepped (i : nat) (c c' : MessageCluster) (call : MessageCall) (pc pc' : MessagePc) (d : list MsgEffect) : Prop := mkStepped {
  sp_before : mc_sessions c !! i = Some (call, pc);
  sp_going : msg_ended pc = false;
  sp_after : mc_sessions c' = <[i := (call, pc')]> (mc_sessions c);
  sp_takes : takes (message_contents (mc_table c)) d (message_contents (mc_table c'));
  sp_effects : d = [] \/ msg_ended pc' = true /\ exists a, d = [(i, call, a)];
  sp_told r : pc' = MsgEnded (Ok r) -> d = [(i, call, r)];
}.

Definition steps_well (i : nat) (c c' : MessageCluster) : Prop :=
  messages_ok (mc_table c') /\ grows (mc_table c) (mc_table c') /\
  exists call pc pc' d, stepped i c c' call pc pc' d /\ pc_fits (mc_table c') call pc'.

(** A statement that ends its call. *)
Lemma ends_well i fate c call pc t r a : mc_sessions c !! i = Some (call, pc) -> msg_ended pc = false ->
  messages_ok (mc_table c) -> messages_ok t -> grows (mc_table c) t ->
  mem_message_call (message_contents (mc_table c)) call = (Ok a, message_contents t) -> (forall r', r = Ok r' -> r' = a) ->
  steps_well i c (message_ends i fate c call t r).
Proof.
  intros Hi Hp Hok Hok' Hg Hm Hr. pose proof (grows_refl (mc_table c)).
  destruct fate as [|e|e]; (split; [done|split; [done|]]).
  - exists call, pc, (MsgEnded r), [(i, call, a)]. split; [|done]. split; try done; [by apply takes_one|right; eauto|].
    intros r' [= ->]. by rewrite (Hr r').
  - exists call, pc, (MsgEnded (Err e)), []. split; [|done]. split; try done; [constructor|by left].
  - exists call, pc, (MsgEnded (Err e)), [(i, call, a)]. split; [|done]. split; try done; [by apply takes_one|right; eauto].
Qed.

(** One that leaves the table as it is, and does not answer. *)
Lemma silent_well i c call pc pc' : mc_sessions c !! i = Some (call, pc) -> msg_ended pc = false ->
  messages_ok (mc_table c) -> pc_fits (mc_table c) call pc' -> (forall r, pc' <> MsgEnded (Ok r)) ->
  steps_well i c (message_goto i c (mc_table c) call pc').
Proof.
  intros Hi Hp Hok Hf Hr. split; [done|]. split; [apply grows_refl|]. exists call, pc, pc', []. split; [|done].
  split; try done; [constructor|by left|]. intros r ->. by destruct (Hr r).
Qed.

Lemma put_well i fate c c' m : message_ok c -> mc_sessions c !! i = Some (MPut m, MsgBegin) ->
  message_step key_error rows_error i fate c = Some c' -> steps_well i c c'.
Proof.
  intros [Hok _] Hi Hs. unfold message_step in Hs. rewrite Hi in Hs. cbn in Hs.
  destruct (insert_message key_error (mc_table c) m) as [[t|]|e] eqn:Ei.
  - injection Hs as <-. destruct (insert_stored key_error _ m t Hok Ei) as [Hm Hok'].
    apply (ends_well i fate c _ MsgBegin t _ (AnPut MessageStored)); try done; [by eapply grows_insert| |by intros r' [= ->]].
    unfold mem_message_call. by rewrite Hm.
  - pose proof (insert_taken _ _ _ Ei) as Ht. destruct fate; injection Hs as <-; by apply (silent_well i c _ MsgBegin).
  - destruct fate; injection Hs as <-; by apply (silent_well i c _ MsgBegin).
Qed.

Lemma message_step_well i fate c c' : message_ok c -> message_step key_error rows_error i fate c = Some c' ->
  steps_well i c c'.
Proof.
  intros Hc Hs. pose proof Hs as Hstep. destruct Hc as [Hok Hconf]. unfold message_step in Hs.
  destruct (mc_sessions c !! i) as [[call pc]|] eqn:Hi; [|done]. cbn in Hs. destruct pc as [| |r]; [| |done].
  - destruct call as [m|id|task|ask|now]; [by eapply put_well| | | |].
    + injection Hs as <-. apply (ends_well i fate c _ MsgBegin _ _ (AnOne (select_message (mc_table c) id))); try done;
        [apply grows_refl| |by intros r' [= ->]].
      unfold mem_message_call, message, select_message, lock_read. cbn. rewrite lookup_fmap. by destruct (mc_table c !! id).
    + injection Hs as <-. apply (ends_well i fate c _ MsgBegin _ _ (AnOne (ask_of_task (message_contents (mc_table c)) task))); try done; [apply grows_refl|].
      intros r'. by apply ask_of_is.
    + destruct (answer_is (mc_table c) ask Hok) as [Ha Hok']. pose proof (grows_answered (mc_table c) ask) as Hg.
      destruct (update_answered (mc_table c) ask) as [changed t].
      injection Hs as <-. apply (ends_well i fate c _ MsgBegin t _ (AnBool changed)); try done; [|by intros r' [= ->]].
      unfold mem_message_call. by rewrite Ha.
    + injection Hs as <-. apply (ends_well i fate c _ MsgBegin _ _ (AnMany (select_asks_due (mc_table c) now))); try done;
        [apply grows_refl| |by intros r' [= ->]].
      unfold mem_message_call. by rewrite due_asks_are.
  - pose proof (Hconf i call Hi) as Ht. destruct call as [m| | | |]; try done. injection Hs as <-.
    destruct (select_sent_existed rows_error _ m Hok Ht) as (r & Hsel & Hput). rewrite Hsel.
    apply (ends_well i fate c _ MsgConflict _ _ (AnPut r)); try done; [apply grows_refl| |by intros r' [= ->]].
    unfold mem_message_call. by rewrite Hput.
Qed.

Lemma message_step_ok i fate c c' : message_ok c -> message_step key_error rows_error i fate c = Some c' ->
  message_ok c' /\ steps_well i c c'.
Proof.
  intros Hc Hs. pose proof (message_step_well i fate c c' Hc Hs) as Hw. split; [|done]. destruct Hc as [_ Hconf].
  destruct Hw as (Hok & Hg & call & pc & pc' & d & Hst & Hfit). split; [done|]. intros j call' Hj.
  rewrite (sp_after _ _ _ _ _ _ _ Hst) in Hj. apply lookup_insert_Some in Hj as [[_ [= <- ->]]|[_ Hj]]; [done|].
  specialize (Hconf j call' Hj). destruct call'; try done. by eapply grows_taken.
Qed.

(** [d] is what the statements [l] did, each its own session's. *)
Definition did (l : list (nat * Fate)) (ds : list (list MsgEffect)) : Prop :=
  Forall2 (fun s d => length d <= 1 /\ Forall (fun e : MsgEffect => e.1.1 = s.1) d) l ds.

Lemma message_steps_ok l : forall c c', message_ok c -> message_steps key_error rows_error l c = Some c' ->
  exists ds, did l ds /\ takes (message_contents (mc_table c)) (concat ds) (message_contents (mc_table c')) /\
    (forall i call r, mc_sessions c' !! i = Some (call, MsgEnded (Ok r)) ->
       mc_sessions c !! i = Some (call, MsgEnded (Ok r)) \/ (i, call, r) ∈ concat ds) /\
    NoDup (concat ds).*1.*1 /\
    (forall i call a, (i, call, a) ∈ concat ds -> exists pc, mc_sessions c !! i = Some (call, pc) /\ msg_ended pc = false).
Proof.
  induction l as [|[i fate] l IH]; intros c c' Hok Hl.
  { injection Hl as <-. exists []. split_and!; [constructor|constructor|by left|constructor|]. intros i call a Hin. by apply not_elem_of_nil in Hin. }
  simpl in Hl. destruct (message_step key_error rows_error i fate c) as [c1|] eqn:Es; [|done]. simpl in Hl.
  destruct (message_step_ok i fate c c1 Hok Es) as [Hok1 (_ & _ & call & pc & pc' & d & Hst & _)].
  destruct (IH c1 c' Hok1 Hl) as (ds & Hdid & Htakes & Htold & Hnd & Hwho). destruct Hst as [Hbefore Hgoing Hafter Ht He Hown].
  exists (d :: ds). cbn [concat]. split_and!.
  - constructor; [|done]. destruct He as [->|[_ (a & ->)]]; [by split; [cbn; lia|]|]. split; [done|]. by repeat constructor.
  - by eapply takes_app.
  - intros j call' r Hj. rewrite elem_of_app. destruct (Htold j call' r Hj) as [Hj1|]; [|by auto].
    rewrite Hafter in Hj1. apply lookup_insert_Some in Hj1 as [[<- [= <- ->]]|[_ Hj1]]; [|by auto].
    right. left. rewrite (Hown r) by done. apply list_elem_of_here.
  - destruct He as [->|[Hend (a & ->)]]; [done|]. cbn. apply NoDup_cons. split; [|done]. intros Hin.
    apply list_elem_of_fmap in Hin as ([j call'] & Hj & Hin). cbn in Hj. subst j.
    apply list_elem_of_fmap in Hin as ([[j call''] a'] & [= -> ->] & Hin). destruct (Hwho j call'' a' Hin) as (pc'' & Hpc & Hg).
    rewrite Hafter, lookup_insert_eq in Hpc. congruence.
  - intros j call' a Hin. apply elem_of_app in Hin as [Hin|Hin].
    + destruct He as [->|[_ (a' & ->)]]; [by apply not_elem_of_nil in Hin|]. apply list_elem_of_singleton in Hin as [= -> -> ->]. by exists pc.
    + destruct (Hwho j call' a Hin) as (pc'' & Hpc & Hg). rewrite Hafter in Hpc.
      apply lookup_insert_Some in Hpc as [[<- [= <- ->]]|[_ Hpc]]; [by exists pc|by exists pc''].
Qed.

(** However the statements of concurrent calls interleave, and whichever fail or are unsure, the calls that answer
    took effect once each, one at a time and each at a statement of its own, and answered as the in-memory messages
    answer in that order; the table ends as those messages do. *)
Theorem pg_messages_are_messages l c c' : messages_ok (mc_table c) ->
  (forall i s, mc_sessions c !! i = Some s -> s.2 = MsgBegin) -> message_steps key_error rows_error l c = Some c' ->
  exists ds, did l ds /\ takes (message_contents (mc_table c)) (concat ds) (message_contents (mc_table c')) /\
    NoDup (concat ds).*1.*1 /\
    (forall i call r, mc_sessions c' !! i = Some (call, MsgEnded (Ok r)) -> (i, call, r) ∈ concat ds).
Proof.
  intros Hok Hbegin Hl. destruct (message_steps_ok l c c') as (ds & Hdid & Ht & Htold & Hnd & _); [|done|].
  - split; [done|]. intros i call Hi. by specialize (Hbegin _ _ Hi).
  - exists ds. split_and!; try done. intros i call r Hi. destruct (Htold i call r Hi) as [Hi'|]; [|done].
    by specialize (Hbegin _ _ Hi').
Qed.

End Refines.

(** ** At concrete inputs *)

(** Two puts of one decision and two answers of it: the second put finds the
    first's row. *)
Definition demo_messages : MessageCluster :=
  mkMessageCluster ∅
    (<[0 := (MPut (sample_message 1 (id_of 10)), MsgBegin)]> (<[1 := (MPut (sample_message 1 (id_of 11)), MsgBegin)]>
    (<[2 := (MAnswer (id_of 10), MsgBegin)]> (<[3 := (MAnswer (id_of 10), MsgBegin)]> ∅)))).

Definition demo_message_steps : list (nat * Fate) := (fun i => (i, Goes)) <$> [0; 1; 2; 1; 3].

Definition demo_message_end : option MessageCluster :=
  message_steps (mkStoreError "duplicate key") (mkStoreError "rows") demo_message_steps demo_messages.

Lemma pg_messages_are_messages_witness :
  (fun c => (fun s => s.2) <$> mc_sessions c) <$> demo_message_end =
    Some (<[0 := MsgEnded (Ok (AnPut MessageStored))]>
         (<[1 := MsgEnded (Ok (AnPut (MessageExisted (sample_message 1 (id_of 10)))))]>
         (<[2 := MsgEnded (Ok (AnBool true))]> (<[3 := MsgEnded (Ok (AnBool false))]> ∅)))) /\
  match demo_message_end with
  | Some c => exists ds, did demo_message_steps ds /\
      takes (message_contents ∅) (concat ds) (message_contents (mc_table c))
  | None => False
  end.
Proof.
  split; [vm_compute; reflexivity|].
  assert (bool_decide (is_Some demo_message_end) = true) as Hsome by (vm_compute; reflexivity).
  destruct demo_message_end as [c|] eqn:E; [|discriminate Hsome]. unfold demo_message_end in E.
  destruct (pg_messages_are_messages (mkStoreError "duplicate key") (mkStoreError "rows") demo_message_steps demo_messages c)
    as (ds & Hd & Ht & _); [| |exact E|exists ds; exact (conj Hd Ht)].
  - split; cbn; intros *; rewrite lookup_empty; discriminate.
  - intros i s Hi. cbn in Hi. repeat (apply lookup_insert_Some in Hi as [[_ <-]|[_ Hi]]; [reflexivity|]).
    rewrite lookup_empty in Hi. discriminate Hi.
Defined.
