(* ===== verification/Gateway.v ===== *)
(** * The model gateway ([gateway/src], [server/models.rs])

    A work model's call: [GatewayClient], whose type says which of its parts
    are set, checks the request and the credential, posts one body to the
    provider and reads its answer.  [ModelsConfig] holds the platform's keys
    and base URLs, from the environment, and makes the client of a run.  The
    HTTP agent ([ureq]) and the URL parser are parameters; JSON is [Mcp]'s
    [Value].  The theorems are in [GatewayProofs]. *)

From S2P Require Import Prelude Text Protocol Auth Mcp Fires SpecBuilder Driver.

#[export] Instance ModelProvider_eq_dec : EqDecision ModelProvider.
Proof. solve_decision. Defined.

#[export] Instance ModelProvider_countable : Countable ModelProvider.
Proof.
  refine (inj_countable' (fun p => match p with OpenAI => 0%N | Anthropic => 1%N | Gemini => 2%N | SystemOne => 3%N end)
    (fun n => match n with 0%N => OpenAI | 1%N => Anthropic | 2%N => Gemini | _ => SystemOne end) _).
  by intros [].
Defined.

(** [{provider:?}]. *)
Definition provider_debug (p : ModelProvider) : string :=
  match p with OpenAI => "OpenAI" | Anthropic => "Anthropic" | Gemini => "Gemini" | SystemOne => "SystemOne" end.

(** ** Errors ([error.rs]) *)

Inductive GatewayError :=
| UnsupportedProvider (p : ModelProvider)
| NotConfigured (p : ModelProvider)
| ByoCredential
| InvalidModelName (name : string)
| GwTransport (message : string)
| GwMalformed (message : string).

(** [Display]; [name:?] is what the formatter makes of it. *)
Definition gateway_error_text (name_debug : string -> string) (e : GatewayError) : string :=
  match e with
  | UnsupportedProvider p => "provider is not implemented in this slice: " +:+ provider_debug p
  | NotConfigured p => "no platform key or base URL is configured for " +:+ provider_debug p
  | InvalidModelName name => "not a model id: " +:+ name_debug name
  | ByoCredential => "bring-your-own credentials are not supported for server runs"
  | GwTransport message | GwMalformed message => message
  end.

(** ** Answers ([providers.rs], [openai.rs]) *)

Record Completion : Type := mkCompletion { cp_message : ModelMessage; cp_usage : option Usage }.

(** [get(n)] of an index. *)
Definition item (n : nat) (v : Value) : option Value :=
  match v with JArray items => items !! n | _ => None end.

Definition as_u64 (v : Value) : option N :=
  match v with
  | JNumber (JInt z) => if ((0 <=? z) && (z <=? Z.of_N u64_max))%Z then Some (Z.to_N z) else None
  | _ => None
  end.

Definition tokens (counts : Value) (input output : string) : option Usage :=
  i ← member input counts; i ← as_u64 i; o ← member output counts; o ← as_u64 o; Some (mkUsage i o).

Definition user_message (prompt : string) : Value :=
  JObject [("role", JString "user"); ("content", JString prompt)].

Definition chat_body (model_name prompt : string) : Value :=
  JObject [("model", JString model_name); ("messages", JArray [user_message prompt])].

Definition chat_usage (body : Value) : option Usage :=
  usage ← member "usage" body; tokens usage "prompt_tokens" "completion_tokens".

(** [choices[0].message], and its members that are texts. *)
Definition chat_message (body : Value) : option Value :=
  choices ← member "choices" body; choice ← item 0 choices; member "message" choice.

Definition text_member (key : string) (v : Value) : option string := text ← member key v; as_str text.

Definition parse_chat_completion (body : Value) : result Completion GatewayError :=
  match chat_message body with
  | None => Err (GwMalformed "missing choices[0].message")
  | Some message =>
      match text_member "content" message with
      | None => Err (GwMalformed "missing message content")
      | Some text =>
          let answer r := Ok (mkCompletion (mkModelMessage r text) (chat_usage body)) in
          match text_member "role" message with
          | Some "assistant" => answer RoleAssistant
          | Some "system" => answer RoleSystem
          | Some "user" => answer RoleUser
          | _ => Err (GwMalformed "missing message role")
          end
      end
  end%string.

Definition anthropic_body (model_name prompt : string) : Value :=
  JObject [("model", JString model_name); ("max_tokens", JNumber (JInt 1024)); ("messages", JArray [user_message prompt])].

(** [content[0].text]. *)
Definition anthropic_text (body : Value) : option string :=
  content ← member "content" body; block ← item 0 content; text_member "text" block.

Definition parse_anthropic (body : Value) : result Completion GatewayError :=
  match anthropic_text body with
  | None => Err (GwMalformed "missing content[0].text")
  | Some text =>
      Ok (mkCompletion (mkModelMessage RoleAssistant text)
            (usage ← member "usage" body; tokens usage "input_tokens" "output_tokens"))
  end.

Definition gemini_body (prompt : string) : Value :=
  JObject [("contents", JArray [JObject [("role", JString "user"); ("parts", JArray [JObject [("text", JString prompt)]])]])].

(** [candidates[0].content.parts[0].text]. *)
Definition gemini_text (body : Value) : option string :=
  candidates ← member "candidates" body; candidate ← item 0 candidates; content ← member "content" candidate;
  parts ← member "parts" content; part ← item 0 parts; text_member "text" part.

Definition parse_gemini (body : Value) : result Completion GatewayError :=
  match gemini_text body with
  | None => Err (GwMalformed "missing candidates[0].content.parts[0].text")
  | Some text =>
      Ok (mkCompletion (mkModelMessage RoleAssistant text)
            (usage ← member "usageMetadata" body; tokens usage "promptTokenCount" "candidatesTokenCount"))
  end.

Definition system_one_body (model_name prompt : string) : Value := chat_body model_name prompt.

Definition parse (p : ModelProvider) (body : Value) : result Completion GatewayError :=
  match p with
  | OpenAI | SystemOne => parse_chat_completion body
  | Anthropic => parse_anthropic body
  | Gemini => parse_gemini body
  end.

(** ** The transport ([transport.rs]) *)

Definition ERROR_BODY_CHARS : nat := 300.

Definition DEFAULT_TIMEOUT_SECS : N := 60.

Record HttpPost : Type := mkHttpPost { po_url : string; po_headers : list (string * string); po_body : Value }.

(** [from_utf8_lossy]: each longest start of a character that does not go on is
    the replacement character. *)
Definition replacement : list byte := Ascii.ascii_of_N <$> [239; 191; 189]%N.

(** How many bytes such a start has, of a text that is not a character. *)
Definition broken_len (bytes : list N) : nat :=
  match bytes with
  | c :: c1 :: rest =>
      if ((224 <=? c) && (c <=? 239) && (if c =? 224 then 160 <=? c1 else 128 <=? c1) &&
          (if c =? 237 then c1 <=? 159 else c1 <=? 191))%N then 2
      else if ((240 <=? c) && (c <=? 244) && (if c =? 240 then 144 <=? c1 else 128 <=? c1) &&
               (if c =? 244 then c1 <=? 143 else c1 <=? 191))%N then
        match rest with c2 :: _ => if continuation c2 then 3 else 2 | [] => 2 end
      else 1
  | _ => 1
  end.

Fixpoint lossy (fuel : nat) (bytes : list byte) : list byte :=
  match fuel, bytes with
  | S fuel, b :: _ =>
      let n := char_len b in
      if (n <=? length bytes)%nat && utf8 (take n bytes) then take n bytes ++ lossy fuel (drop n bytes)
      else replacement ++ lossy fuel (drop (broken_len (code <$> bytes)) bytes)
  | _, _ => []
  end.

Definition from_utf8_lossy (bytes : list byte) : string := bytes_string (lossy (length bytes) bytes).

(** What [ureq] makes of a call: a response, with what reading it as JSON
    gives; a status of 400 or more; or a failure. *)
Inductive UreqReply :=
| UreqResponse (status : N) (json : result Value string) (body : list byte)
| UreqStatus (status : N) (body : list byte)
| UreqFailed (text : string).

Definition status_error (url : string) (status : N) (body : list byte) : GatewayError :=
  let head := take (ERROR_BODY_CHARS * 4) body in
  let detail := bytes_string (take_chars ERROR_BODY_CHARS (string_bytes (from_utf8_lossy head))) in
  GwTransport (url +:+ ": status code " +:+ show_u64 status +:+ ": " +:+ detail).

Section Transport.
Context {W : Type}.

Definition HttpTransport : Type := HttpPost -> W -> result Value GatewayError * W.

(** [UreqTransport], over an agent. *)
Definition ureq_transport (agent : HttpPost -> W -> UreqReply * W) : HttpTransport :=
  fun post w =>
    match agent post w with
    | (UreqStatus status body, w) => (Err (status_error (po_url post) status body), w)
    | (UreqFailed text, w) => (Err (GwTransport text), w)
    | (UreqResponse status json body, w) =>
        if negb ((200 <=? status) && (status <? 300))%N then (Err (status_error (po_url post) status body), w)
        else (match json with Ok v => Ok v | Err e => Err (GwMalformed e) end, w)
    end.

End Transport.
Arguments HttpTransport W : clear implicits.

(** ** The client ([client.rs]) *)

Definition default_base_url (p : ModelProvider) : string :=
  match p with
  | OpenAI => "https://api.openai.com"
  | Anthropic => "https://api.anthropic.com"
  | Gemini => "https://generativelanguage.googleapis.com"
  | SystemOne => ""
  end.

(** [is_ascii_alphanumeric] or one of [.], [_], [-], and [:] but for Gemini. *)
Definition model_char (p : ModelProvider) (b : byte) : bool :=
  is_ascii_digit b || is_ascii_uppercase b || between 97 122 b || between 45 46 b || between 95 95 b ||
  (between 58 58 b && negb (bool_decide (p = Gemini))).

Definition is_model_id (p : ModelProvider) (name : string) : bool :=
  negb (bool_decide (name = "")) && (String.length name <=? 128)%nat && forallb (model_char p) (string_bytes name).

(** The tags say whether the provider and the credential are set. *)
Record GatewayClient (P C : Tag) (T : Type) : Type := mkGatewayClient {
  gc_provider : option ModelProvider;
  gc_credential : option CredentialSource;
  gc_api_key : option string;
  gc_base_url : string;
  gc_transport : T;
}.
Arguments mkGatewayClient {P C T}.
Arguments gc_provider {P C T}.
Arguments gc_credential {P C T}.
Arguments gc_api_key {P C T}.
Arguments gc_base_url {P C T}.
Arguments gc_transport {P C T}.

Definition client_with_transport {T} (transport : T) : GatewayClient Missing Missing T :=
  mkGatewayClient None None None (default_base_url OpenAI) transport.

Definition client_base_url {P C T} (c : GatewayClient P C T) (url : string) : GatewayClient P C T :=
  mkGatewayClient (gc_provider c) (gc_credential c) (gc_api_key c) url (gc_transport c).

Definition client_api_key {P C T} (c : GatewayClient P C T) (key : string) : GatewayClient P C T :=
  mkGatewayClient (gc_provider c) (gc_credential c) (Some key) (gc_base_url c) (gc_transport c).

Definition client_provider {C T} (c : GatewayClient Missing C T) (p : ModelProvider) : GatewayClient IsSet C T :=
  mkGatewayClient (Some p) (gc_credential c) (gc_api_key c) (default_base_url p) (gc_transport c).

Definition client_credential {P T} (c : GatewayClient P Missing T) (credential : CredentialSource) : GatewayClient P IsSet T :=
  mkGatewayClient (gc_provider c) (Some credential) (gc_api_key c) (gc_base_url c) (gc_transport c).

(** [trim_end_matches('/')]. *)
Fixpoint drop_slashes (reversed : list byte) : list byte :=
  match reversed with
  | b :: rest => if bool_decide (b = slash) then drop_slashes rest else reversed
  | [] => []
  end.

Definition trim_slashes (url : string) : string := bytes_string (rev (drop_slashes (rev (string_bytes url)))).

(** The platform's key, if it is one to send. *)
Definition usable_key (key : option string) : option string :=
  key ← key; if negb (bool_decide (key = "")) && forallb is_ascii_graphic (string_bytes key) then Some key else None.

Definition the_post (p : ModelProvider) (base key : string) (request : ModelRequest) : HttpPost :=
  let json := ("content-type", "application/json") in
  match p with
  | OpenAI | SystemOne =>
      mkHttpPost (base +:+ "/v1/chat/completions") [json; ("authorization", "Bearer " +:+ key)]
        (match p with
         | SystemOne => system_one_body (mr_model_name request) (mr_prompt request)
         | _ => chat_body (mr_model_name request) (mr_prompt request)
         end)
  | Anthropic =>
      mkHttpPost (base +:+ "/v1/messages") [json; ("x-api-key", key); ("anthropic-version", "2023-06-01")]
        (anthropic_body (mr_model_name request) (mr_prompt request))
  | Gemini =>
      mkHttpPost (base +:+ "/v1beta/models/" +:+ mr_model_name request +:+ ":generateContent")
        [json; ("x-goog-api-key", key)] (gemini_body (mr_prompt request))
  end%string.

(** [send]; [None]: it panics. *)
Definition client_send {W} (c : GatewayClient IsSet IsSet (HttpTransport W)) (request : ModelRequest) (w : W)
    : option (result Completion GatewayError * W) :=
  match gc_provider c, gc_credential c with
  | Some p, Some credential =>
      Some
        (if negb (bool_decide (mr_provider request = p)) then (Err (UnsupportedProvider (mr_provider request)), w)
         else if negb (is_model_id p (mr_model_name request)) then (Err (InvalidModelName (mr_model_name request)), w)
         else
           match credential with
           | BringYourOwn _ => (Err ByoCredential, w)
           | PlatformGateway =>
               match usable_key (gc_api_key c) with
               | None => (Err (NotConfigured p), w)
               | Some key =>
                   let base := trim_slashes (gc_base_url c) in
                   if bool_decide (base = "") then (Err (NotConfigured p), w)
                   else
                     match gc_transport c (the_post p base key request) w with
                     | (Ok response, w) => (parse p response, w)
                     | (Err e, w) => (Err e, w)
                     end
               end
           end)
  | _, _ => None
  end.

(** ** The platform's models ([server/models.rs]) *)

Definition MAX_TIMEOUT_SECS : N := 600.

Record ModelsConfig : Type := mkModelsConfig {
  mo_keys : gmap ModelProvider string;
  mo_base_urls : gmap ModelProvider string;
  mo_timeout_secs : N;
}.

Definition models_default : ModelsConfig := mkModelsConfig ∅ ∅ DEFAULT_TIMEOUT_SECS.

Definition PROVIDERS : list (ModelProvider * string) :=
  [(OpenAI, "OPENAI"); (Anthropic, "ANTHROPIC"); (Gemini, "GEMINI"); (SystemOne, "SYSTEMONE")].

Definition with_key (c : ModelsConfig) (p : ModelProvider) (key : string) : ModelsConfig :=
  mkModelsConfig (<[p := key]> (mo_keys c)) (mo_base_urls c) (mo_timeout_secs c).

Definition with_base_url (c : ModelsConfig) (p : ModelProvider) (url : string) : ModelsConfig :=
  mkModelsConfig (mo_keys c) (<[p := url]> (mo_base_urls c)) (mo_timeout_secs c).

(** [set]: trimmed, and not empty. *)
Definition env_trimmed (env : gmap string string) (name : string) : option string :=
  value ← env !! name; let value := trim value in if bool_decide (value = "") then None else Some value.

Section Models.
Context `{UrlCrate}.

Fixpoint load_providers (env : gmap string string) (providers : list (ModelProvider * string)) (c : ModelsConfig)
    : result ModelsConfig string :=
  match providers with
  | [] => Ok c
  | (p, name) :: providers =>
      let c := match env_trimmed env ("GOL_" +:+ name +:+ "_API_KEY") with Some key => with_key c p key | None => c end in
      match env_trimmed env ("GOL_" +:+ name +:+ "_BASE_URL") with
      | None => load_providers env providers c
      | Some url =>
          if is_safe_endpoint url then load_providers env providers (with_base_url c p url)
          else Err ("GOL_" +:+ name +:+ "_BASE_URL must be https://, or http:// to a local host, not " +:+ url_debug url)
      end
  end.

Definition models_from_env (env : gmap string string) : result ModelsConfig string :=
  match load_providers env PROVIDERS models_default with
  | Err e => Err e
  | Ok c =>
      match env_trimmed env "GOL_MODEL_TIMEOUT_SECS" with
      | None => Ok c
      | Some seconds =>
          match parse_u64 seconds with
          | Some n =>
              if ((1 <=? n) && (n <=? MAX_TIMEOUT_SECS))%N then Ok (mkModelsConfig (mo_keys c) (mo_base_urls c) n)
              else Err ("GOL_MODEL_TIMEOUT_SECS must be whole seconds from 1 to 600, not " +:+ url_debug seconds)
          | None => Err ("GOL_MODEL_TIMEOUT_SECS must be whole seconds from 1 to 600, not " +:+ url_debug seconds)
          end
      end
  end.

End Models.

Record GatewayModel (W : Type) : Type := mkGatewayModel {
  gm_provider : ModelProvider;
  gm_client : GatewayClient IsSet IsSet (HttpTransport W);
}.
Arguments mkGatewayModel {W}.
Arguments gm_provider {W}.
Arguments gm_client {W}.

(** [model_for]; [transport] makes one of a timeout in seconds. *)
Definition model_for {W} (transport : N -> HttpTransport W) (c : ModelsConfig) (spec : RunSpec) : GatewayModel W :=
  let p := wm_provider (work_model spec) in
  let client := client_credential (client_provider (client_with_transport (transport (mo_timeout_secs c))) p)
                  (wm_credential (work_model spec)) in
  let client := match mo_keys c !! p with Some key => client_api_key client key | None => client end in
  let client := match mo_base_urls c !! p with Some url => client_base_url client url | None => client end in
  mkGatewayModel p client.

Definition run_log_reason (name_debug : string -> string) (p : ModelProvider) (e : GatewayError) : string :=
  match e with
  | NotConfigured _ | ByoCredential | UnsupportedProvider _ => gateway_error_text name_debug e
  | InvalidModelName _ => "the model name is not a model id"
  | GwTransport _ | GwMalformed _ => "model call to " +:+ provider_debug p +:+ " failed"
  end.

(** [complete_with_usage]; [None]: it panics. *)
Definition gateway_complete {W} (name_debug : string -> string) (m : GatewayModel W) (request : ModelRequest) (w : W)
    : option (result (ModelMessage * option Usage) string * W) :=
  match client_send (gm_client m) request w with
  | Some (Ok c, w) => Some (Ok (cp_message c, cp_usage c), w)
  | Some (Err e, w) => Some (Err (run_log_reason name_debug (gm_provider m) e), w)
  | None => None
  end.
