(* ===== verification/GatewayProofs.v ===== *)
(** * Theorems about the model gateway

    What a model call sends, and to whom: the platform's key goes in one
    header of one post, to the provider of the run's own model, at the base
    URL the environment gives it or at the provider's host
    ([platform_key_stays]).  What the run's log says of a call that failed
    does not depend on what came back ([run_log_learns_nothing]). *)

From S2P Require Import Prelude Text Protocol Auth Mcp Fires SpecBuilder Driver Gateway.

(** ** The environment's configuration *)

Section Config.
Context `{UrlCrate}.

(** Keys are not empty, and base URLs are safe. *)
Record config_ok (c : ModelsConfig) : Prop := mkConfigOk {
  cf_key p key : mo_keys c !! p = Some key -> key <> "";
  cf_url p url : mo_base_urls c !! p = Some url -> is_safe_endpoint url = true;
  cf_timeout : (1 <= mo_timeout_secs c <= MAX_TIMEOUT_SECS)%N;
}.

Lemma env_trimmed_full env name value : env_trimmed env name = Some value -> value <> "".
Proof.
  unfold env_trimmed. destruct (env !! name) as [v|]; [|done]. cbn. case_bool_decide; [done|]. by intros [= <-].
Qed.

Lemma load_providers_ok env providers c c' : config_ok c -> load_providers env providers c = Ok c' -> config_ok c'.
Proof.
  revert c. induction providers as [|[p name] providers IH]; intros c Hc; cbn [load_providers]; [by intros [= <-]|].
  set (c1 := match env_trimmed _ _ with Some key => _ | None => c end). assert (config_ok c1) as Hc1.
  { unfold c1. destruct (env_trimmed env ("GOL_" +:+ name +:+ "_API_KEY")) as [key|] eqn:Ek; [|done]. split; try apply Hc.
    intros q key'. cbn. intros [[<- <-]|[_ Hq]]%lookup_insert_Some; [by eapply env_trimmed_full|by eapply (cf_key c)]. }
  destruct (env_trimmed env ("GOL_" +:+ name +:+ "_BASE_URL")) as [url|]; [|by apply IH].
  destruct (is_safe_endpoint url) eqn:Es; [|done]. apply IH. split; try apply Hc1.
  intros q url'. cbn. intros [[<- <-]|[_ Hq]]%lookup_insert_Some; [done|by eapply (cf_url c1)].
Qed.

Lemma models_from_env_ok env c : models_from_env env = Ok c -> config_ok c.
Proof.
  unfold models_from_env. destruct (load_providers env PROVIDERS models_default) as [c0|] eqn:El; [|done].
  apply load_providers_ok in El; [|by split; cbn; intros *; rewrite ?lookup_empty].
  destruct (env_trimmed env "GOL_MODEL_TIMEOUT_SECS") as [s|]; [|by intros [= <-]].
  destruct (parse_u64 s) as [n|]; [|done]. destruct ((1 <=? n)%N && (n <=? MAX_TIMEOUT_SECS)%N) eqn:En; [|done].
  intros [= <-]. bool_to_prop. split; [apply El|apply El|done].
Qed.

End Config.

(** ** What is posted *)

(** A transport that also keeps what it was given. *)
Definition recording {W} (t : HttpTransport W) : HttpTransport (list HttpPost * W) :=
  fun post w => let '(r, w') := t post w.2 in (r, (w.1 ++ [post], w')).

(** A visible character, no separator of a URL. *)
Definition segment_byte (b : byte) : bool :=
  is_ascii_graphic b && negb (bool_decide (b ∈ string_bytes "/?#%@\")).

Lemma model_char_segment p b : model_char p b = true -> segment_byte b = true.
Proof.
  unfold model_char. destruct b as [[] [] [] [] [] [] [] []], p; vm_compute; first [reflexivity|discriminate].
Qed.

(** A model's name is a segment of a path. *)
Lemma model_id_segment p name : is_model_id p name = true -> forallb segment_byte (string_bytes name) = true.
Proof.
  unfold is_model_id. intros [_ Hn]%andb_true_iff. rewrite forallb_forall in *. eauto using model_char_segment.
Qed.

(** The header that carries the key. *)
Definition key_header (p : ModelProvider) (key : string) : string * string :=
  match p with
  | OpenAI | SystemOne => ("authorization", "Bearer " +:+ key)
  | Anthropic => ("x-api-key", key)
  | Gemini => ("x-goog-api-key", key)
  end%string.

(** The path a provider's calls are posted to. *)
Definition call_path (p : ModelProvider) (name : string) : string :=
  match p with
  | OpenAI | SystemOne => "/v1/chat/completions"
  | Anthropic => "/v1/messages"
  | Gemini => "/v1beta/models/" +:+ name +:+ ":generateContent"
  end%string.

(** A post of the platform's key for [spec]'s provider. *)
Record keyed_post `{UrlCrate} (config : ModelsConfig) (spec : RunSpec) (request : ModelRequest) (post : HttpPost) : Prop := mkKeyedPost {
  kp_credential : wm_credential (work_model spec) = PlatformGateway;
  kp_provider : mr_provider request = wm_provider (work_model spec);
  kp_name : forallb segment_byte (string_bytes (mr_model_name request)) = true;
  kp_post : exists key base,
    mo_keys config !! wm_provider (work_model spec) = Some key /\
    forallb is_ascii_graphic (string_bytes key) = true /\
    match mo_base_urls config !! wm_provider (work_model spec) with
    | Some url => is_safe_endpoint url = true /\ base = trim_slashes url
    | None => base = default_base_url (wm_provider (work_model spec))
    end /\ base <> "" /\
    po_url post = base +:+ call_path (wm_provider (work_model spec)) (mr_model_name request) /\
    key_header (wm_provider (work_model spec)) key ∈ po_headers post /\
    (forall h, h ∈ po_headers post -> h = key_header (wm_provider (work_model spec)) key \/
       h ∈ [("content-type", "application/json"); ("anthropic-version", "2023-06-01")]%string) /\
    po_body post = match wm_provider (work_model spec) with
                   | OpenAI | SystemOne => chat_body (mr_model_name request) (mr_prompt request)
                   | Anthropic => anthropic_body (mr_model_name request) (mr_prompt request)
                   | Gemini => gemini_body (mr_prompt request)
                   end;
}.

Lemma the_post_parts p base key request :
  po_url (the_post p base key request) = base +:+ call_path p (mr_model_name request) /\
  key_header p key ∈ po_headers (the_post p base key request) /\
  (forall h, h ∈ po_headers (the_post p base key request) -> h = key_header p key \/
     h ∈ [("content-type", "application/json"); ("anthropic-version", "2023-06-01")]%string) /\
  po_body (the_post p base key request) =
    match p with
    | OpenAI | SystemOne => chat_body (mr_model_name request) (mr_prompt request)
    | Anthropic => anthropic_body (mr_model_name request) (mr_prompt request)
    | Gemini => gemini_body (mr_prompt request)
    end.
Proof. destruct p; cbn; split_and!; try done; set_solver. Qed.

Section Client.
Context {W : Type}.

(** The client of a run. *)
Lemma model_for_client (transport : N -> HttpTransport W) config spec :
  let p := wm_provider (work_model spec) in
  let m := model_for transport config spec in
  gm_provider m = p /\ gc_provider (gm_client m) = Some p /\
  gc_credential (gm_client m) = Some (wm_credential (work_model spec)) /\
  gc_api_key (gm_client m) = mo_keys config !! p /\
  gc_base_url (gm_client m) = default (default_base_url p) (mo_base_urls config !! p) /\
  gc_transport (gm_client m) = transport (mo_timeout_secs config).
Proof. unfold model_for. cbn. by destruct (mo_keys config !! _), (mo_base_urls config !! _). Qed.

(** What stops a call before it is posted, or the post. *)
Definition refusal (config : ModelsConfig) (spec : RunSpec) (request : ModelRequest) : result HttpPost GatewayError :=
  let p := wm_provider (work_model spec) in
  if negb (bool_decide (mr_provider request = p)) then Err (UnsupportedProvider (mr_provider request))
  else if negb (is_model_id p (mr_model_name request)) then Err (InvalidModelName (mr_model_name request))
  else
    match wm_credential (work_model spec) with
    | BringYourOwn _ => Err ByoCredential
    | PlatformGateway =>
        match usable_key (mo_keys config !! p) with
        | None => Err (NotConfigured p)
        | Some key =>
            let base := trim_slashes (default (default_base_url p) (mo_base_urls config !! p)) in
            if bool_decide (base = "") then Err (NotConfigured p) else Ok (the_post p base key request)
        end
    end.

(** A call is its refusal, or one post and what is read from its response. *)
Lemma send_is (transport : N -> HttpTransport W) config spec request w :
  client_send (gm_client (model_for transport config spec)) request w =
  Some (match refusal config spec request with
        | Err e => (Err e, w)
        | Ok post =>
            match transport (mo_timeout_secs config) post w with
            | (Ok response, w) => (parse (wm_provider (work_model spec)) response, w)
            | (Err e, w) => (Err e, w)
            end
        end).
Proof.
  destruct (model_for_client transport config spec) as (_ & Hp & Hc & Hk & Hu & Ht). unfold client_send, refusal.
  rewrite Hp, Hc, Hk, Hu, Ht. f_equal. destruct (negb (bool_decide _)); [done|]. destruct (negb (is_model_id _ _)); [done|].
  destruct (wm_credential (work_model spec)); [done|]. destruct (usable_key _); [|done]. by case_bool_decide.
Qed.

End Client.

Lemma usable_key_spec o key : usable_key o = Some key -> o = Some key /\ forallb is_ascii_graphic (string_bytes key) = true.
Proof.
  unfold usable_key. destruct o as [k|]; [|done]. cbn. destruct (negb _ && _) eqn:E; [|done]. intros [= <-].
  by apply andb_true_iff in E as [_ E].
Qed.

Lemma trim_default p : trim_slashes (default_base_url p) = default_base_url p.
Proof. by destruct p; vm_compute. Qed.

Section Posts.
Context `{UrlCrate}.

Lemma refusal_post config spec request post : config_ok config -> refusal config spec request = Ok post ->
  keyed_post config spec request post.
Proof.
  intros Hc. unfold refusal. destruct (negb (bool_decide _)) eqn:Ep; [done|]. destruct (negb (is_model_id _ _)) eqn:En; [done|].
  destruct (wm_credential (work_model spec)) eqn:Ecr; [done|]. destruct (usable_key _) as [key|] eqn:Ek; [|done].
  apply negb_false_iff, bool_decide_eq_true in Ep. apply negb_false_iff in En.
  case_bool_decide as Hb; [done|]. intros [= <-]. apply usable_key_spec in Ek as [Ek Hg].
  split; [done|done|by eapply model_id_segment|]. eexists key, _. split; [done|]. split; [done|].
  pose proof (the_post_parts (wm_provider (work_model spec)) (trim_slashes (default (default_base_url (wm_provider (work_model spec))) (mo_base_urls config !! wm_provider (work_model spec)))) key request) as Hpost.
  split; [|split; [exact Hb|exact Hpost]].
  destruct (mo_base_urls config !! _) as [url|] eqn:Eu; cbn; [|apply trim_default]. split; [by eapply cf_url|done].
Qed.

(** C31. The platform's key goes nowhere but to the provider of the run's own model.  A call of a model made from
    the server's environment does not panic; it posts nothing, and fails, or it posts once: for a run that uses
    the platform's credential and a request to the same provider, to the provider's path at the base URL the
    environment gives that provider (an endpoint that is safe) or at the provider's own host, with that
    provider's key, all visible characters, in its one header and in no other, and with a model name that adds
    no part to the URL. *)
Theorem platform_key_stays {W} env config name_debug (transport : N -> HttpTransport W) spec request posts w :
  models_from_env env = Ok config ->
  exists r posts' w',
    gateway_complete name_debug (model_for (fun secs => recording (transport secs)) config spec) request (posts, w) =
      Some (r, (posts', w')) /\
    ((posts' = posts /\ w' = w /\ is_ok r = false) \/
     exists post, posts' = posts ++ [post] /\ keyed_post config spec request post).
Proof.
  intros Henv%models_from_env_ok. unfold gateway_complete. rewrite send_is.
  destruct (refusal config spec request) as [post|e] eqn:Er.
  2:{ eexists _, posts, w. split; [done|]. by left. }
  apply refusal_post in Er; [|done]. unfold recording at 1. cbn [fst snd].
  destruct (transport (mo_timeout_secs config) post w) as [[response|e] w'].
  - destruct (parse _ response) as [c|e]; (eexists _, _, w'; split; [done|right; by exists post]).
  - eexists _, _, w'. split; [done|right; by exists post].
Qed.

End Posts.

(** ** What the run's log says *)

Definition outward (e : GatewayError) : bool := match e with GwTransport _ | GwMalformed _ => true | _ => false end.

Lemma parse_error p body e : parse p body = Err e -> outward e = true.
Proof.
  destruct p; cbn; unfold parse_chat_completion, parse_anthropic, parse_gemini; intros He; repeat case_match; by simplify_eq.
Qed.

Lemma ureq_error {W} (agent : HttpPost -> W -> UreqReply * W) post w e w' :
  ureq_transport agent post w = (Err e, w') -> outward e = true.
Proof.
  unfold ureq_transport, status_error. destruct (agent post w) as [[status json body|status body|text] w1];
    intros He; repeat case_match; by simplify_eq.
Qed.

(** What a call that was posted and failed leaves. *)
Lemma posted_error {W} name_debug (agent : N -> HttpPost -> W -> UreqReply * W) config spec request post w e w' :
  refusal config spec request = Ok post ->
  gateway_complete name_debug (model_for (fun secs => ureq_transport (agent secs)) config spec) request w = Some (Err e, w') ->
  e = "model call to " +:+ provider_debug (wm_provider (work_model spec)) +:+ " failed".
Proof.
  intros Hr. unfold gateway_complete. rewrite send_is, Hr.
  assert (forall x, outward x = true -> run_log_reason name_debug (wm_provider (work_model spec)) x =
    "model call to " +:+ provider_debug (wm_provider (work_model spec)) +:+ " failed") as Hout by (by intros []).
  destruct (ureq_transport _ _ _) as [[response|x] w1] eqn:Et.
  - destruct (parse _ response) as [c|x] eqn:Ep; [done|]. intros [= <- _]. by apply Hout, (parse_error _ _ _ Ep).
  - intros [= <- _]. by apply Hout, (ureq_error _ _ _ _ _ Et).
Qed.

(** What a failed model call leaves in the run's log tells nothing of what came back: whatever the worlds,
    the agents and the responses, two calls of the same model with the same request that fail leave the same
    words. *)
Theorem run_log_learns_nothing {W1 W2} name_debug (agent1 : N -> HttpPost -> W1 -> UreqReply * W1)
    (agent2 : N -> HttpPost -> W2 -> UreqReply * W2) config spec request w1 w2 e1 e2 w1' w2' :
  gateway_complete name_debug (model_for (fun secs => ureq_transport (agent1 secs)) config spec) request w1 = Some (Err e1, w1') ->
  gateway_complete name_debug (model_for (fun secs => ureq_transport (agent2 secs)) config spec) request w2 = Some (Err e2, w2') ->
  e1 = e2.
Proof.
  destruct (refusal config spec request) as [post|e] eqn:Er.
  - intros H1 H2. by rewrite (posted_error _ _ _ _ _ _ _ _ _ Er H1), (posted_error _ _ _ _ _ _ _ _ _ Er H2).
  - unfold gateway_complete. rewrite !send_is, Er. intros [= <- _] [= <- _]. done.
Qed.

(** ** Texts of errors *)

(** An error keeps at most the bound's characters of a body. *)
Lemma status_error_bounded url status body : exists detail,
  status_error url status body = GwTransport (url +:+ ": status code " +:+ show_u64 status +:+ ": " +:+ detail) /\
  chars_count detail <= ERROR_BODY_CHARS.
Proof. eexists. split; [done|apply take_chars_count]. Qed.

(** ** At concrete inputs *)

(** A crate that parses two URLs. *)
Definition demo_urls : UrlCrate := {|
  url_parse url :=
    if bool_decide (url = "https://models.test/") then Some (mkUrl "https" (Some (Domain "models.test")) "" None)
    else if bool_decide (url = "http://models.test/") then Some (mkUrl "http" (Some (Domain "models.test")) "" None)
    else None;
  url_debug url := url;
|}.

Definition demo_env (url : string) : gmap string string :=
  <["GOL_OPENAI_API_KEY" := " sk-test "]> (<["GOL_OPENAI_BASE_URL" := url]> (<["GOL_MODEL_TIMEOUT_SECS" := "30"]> ∅)).

Definition demo_request : ModelRequest := mkModelRequest OpenAI "gpt-test" "hi".

Definition demo_answer : Value :=
  JObject [("choices", JArray [JObject [("message", JObject [("role", JString "assistant"); ("content", JString "hello")])]]);
           ("usage", JObject [("prompt_tokens", JNumber (JInt 3)); ("completion_tokens", JNumber (JInt 5))])].

Definition demo_agent (status : N) (_ : HttpPost) (w : unit) : UreqReply * unit := (UreqResponse status (Ok demo_answer) [], w).

Definition demo_config (url : string) : result ModelsConfig string := models_from_env (H := demo_urls) (demo_env url).

Definition demo_call (status : N) (config : ModelsConfig) :=
  gateway_complete (fun s => s) (model_for (fun _ => recording (ureq_transport (demo_agent status))) config sample_spec)
    demo_request ([], tt).

(** The call posts once; over plain HTTP the server does not start. *)
Lemma platform_key_stays_witness :
  is_ok (demo_config "http://models.test/") = false /\
  match demo_config "https://models.test/" with
  | Ok config =>
      demo_call 200 config =
        Some (Ok (mkModelMessage RoleAssistant "hello", Some (mkUsage 3 5)),
              ([mkHttpPost "https://models.test/v1/chat/completions"
                  [("content-type", "application/json"); ("authorization", "Bearer sk-test")] (chat_body "gpt-test" "hi")], tt)) /\
      exists r posts' w',
        demo_call 200 config = Some (r, (posts', w')) /\
        ((posts' = [] /\ w' = tt /\ is_ok r = false) \/
         exists post, posts' = [post] /\ keyed_post (H := demo_urls) config sample_spec demo_request post)
  | Err _ => False
  end.
Proof.
  split; [vm_compute; reflexivity|]. assert (is_ok (demo_config "https://models.test/") = true) as Hok by (vm_compute; reflexivity).
  destruct (demo_config "https://models.test/") as [config|e] eqn:E; [|discriminate Hok].
  split; [|exact (platform_key_stays (H := demo_urls) (demo_env "https://models.test/") config (fun s => s)
                    (fun _ => ureq_transport (demo_agent 200)) sample_spec demo_request [] tt E)].
  vm_compute in E. injection E as <-. vm_compute. reflexivity.
Defined.

(** A status the provider answers and a transport that fails leave the same. *)
Lemma run_log_learns_nothing_witness :
  let m := mkModelsConfig {[OpenAI := "sk-test"]} ∅ 60 in
  let refused (_ : N) (_ : HttpPost) (w : unit) := (UreqStatus 401 (string_bytes "bad key sk-test"), w) in
  let failed (_ : N) (_ : HttpPost) (w : unit) := (UreqFailed "dns", w) in
  exists e,
    gateway_complete (fun s => s) (model_for (fun secs => ureq_transport (refused secs)) m sample_spec) demo_request tt = Some (Err e, tt) /\
    gateway_complete (fun s => s) (model_for (fun secs => ureq_transport (failed secs)) m sample_spec) demo_request tt = Some (Err e, tt) /\
    e = "model call to OpenAI failed"%string.
Proof.
  intros m refused failed.
  assert (exists e, gateway_complete (fun s => s) (model_for (fun secs => ureq_transport (refused secs)) m sample_spec) demo_request tt = Some (Err e, tt)) as [e1 E1].
  { eexists. vm_compute. reflexivity. }
  assert (exists e, gateway_complete (fun s => s) (model_for (fun secs => ureq_transport (failed secs)) m sample_spec) demo_request tt = Some (Err e, tt) /\
    e = "model call to OpenAI failed"%string) as (e2 & E2 & He).
  { eexists. split; vm_compute; reflexivity. }
  exists e2. rewrite (run_log_learns_nothing (fun s => s) refused failed m sample_spec demo_request tt tt e1 e2 tt tt E1 E2) in E1.
  exact (conj E1 (conj E2 He)).
Defined.
