(* ===== verification/RedisSlot.v ===== *)
(** * The queue's connections to Redis ([server/queue.rs]: [with_connection])

    Callers share a [Slot] of idle connections under a lock they hold only to
    take a connection or to give one back.  A step is one of those moments, or
    a caller that dies, or a poisoned lock; between two of a caller's steps any
    of the others' come.  What Redis answers and when is given by the steps.
    A connection is a number.

    The theorems: no two callers share a connection, four are kept at most,
    and none is refused for a probe that nobody makes ([redis_slot_sound]);
    while Redis is down, however many callers there are, connects begin
    [REDIS_TIMEOUT] apart ([redis_probes_are_spaced]). *)

From S2P Require Import Prelude Protocol MemoryOwner Store.

(** In milliseconds. *)
Definition REDIS_TIMEOUT : Z := 5000.

Definition IDLE_CONNECTIONS : nat := 4.

Record Slot : Type := mkSlot { sl_idle : list nat; sl_failed_at : option Z; sl_probing : bool }.

Definition slot_default : Slot := mkSlot [] None false.

(** [lock_slot]: a poisoned lock is cleared, and its connections dropped. *)
Definition lock_slot (l : Lock Slot) : Slot :=
  if poisoned l then mkSlot [] (sl_failed_at (guarded l)) false else guarded l.

(** A caller: about to take a connection, connecting, with a connection, or
    answered ([None]: it died). *)
Inductive CallerPc := Calling | Connecting | Working (c : nat) | Answered (r : option (result unit string)).

Record Callers : Type := mkCallers {
  ca_slot : Lock Slot;
  ca_callers : gmap nat CallerPc;
  ca_next : nat;
}.

(** What is next: a caller takes the lock; its connect ends; its command ends;
    it dies; the lock is poisoned. *)
Inductive SlotEvent :=
| Takes (i : nat)
| Connected (i : nat)
| ConnectFailed (i : nat) (text : string)
| CommandDone (i : nat)
| CommandFailed (i : nat) (text : string)
| Dies (i : nat)
| Poisons.

Definition caller_goes (s : Callers) (slot : Slot) (i : nat) (pc : CallerPc) : Callers :=
  mkCallers (mkLock slot false) (<[i := pc]> (ca_callers s)) (ca_next s).

(** [failed.elapsed() < REDIS_TIMEOUT]. *)
Definition failed_lately (slot : Slot) (now : Z) : bool :=
  match sl_failed_at slot with Some failed => (Z.max 0 (now - failed) <? REDIS_TIMEOUT)%Z | None => false end.

(** [idle.pop()]: the last, and the others. *)
Definition pop_idle (idle : list nat) : option (nat * list nat) :=
  match rev idle with c :: rest => Some (c, rev rest) | [] => None end.

Definition take_connection (s : Callers) (i : nat) (now : Z) : Callers :=
  let slot := lock_slot (ca_slot s) in
  match pop_idle (sl_idle slot) with
  | Some (c, idle) => caller_goes s (mkSlot idle (sl_failed_at slot) (sl_probing slot)) i (Working c)
  | None =>
      if sl_probing slot then
        caller_goes s slot i (Answered (Some (Err "redis is unavailable: a connect is being retried")))
      else if failed_lately slot now then
        caller_goes s slot i (Answered (Some (Err "redis is unavailable: a connect failed moments ago")))
      else caller_goes s (mkSlot (sl_idle slot) (sl_failed_at slot) (bool_decide (is_Some (sl_failed_at slot)))) i Connecting
  end.

Definition slot_step (e : SlotEvent) (now : Z) (s : Callers) : option Callers :=
  let slot := lock_slot (ca_slot s) in
  let at_ i := ca_callers s !! i in
  match e with
  | Takes i => match at_ i with Some Calling => Some (take_connection s i now) | _ => None end
  | Connected i =>
      match at_ i with
      | Some Connecting =>
          let s := caller_goes s (mkSlot (sl_idle slot) None false) i (Working (ca_next s)) in
          Some (mkCallers (ca_slot s) (ca_callers s) (S (ca_next s)))
      | _ => None
      end
  | ConnectFailed i text =>
      match at_ i with
      | Some Connecting => Some (caller_goes s (mkSlot (sl_idle slot) (Some now) false) i (Answered (Some (Err text))))
      | _ => None
      end
  | CommandDone i =>
      match at_ i with
      | Some (Working c) =>
          let idle := if (length (sl_idle slot) <? IDLE_CONNECTIONS)%nat then sl_idle slot ++ [c] else sl_idle slot in
          Some (caller_goes s (mkSlot idle None (sl_probing slot)) i (Answered (Some (Ok tt))))
      | _ => None
      end
  | CommandFailed i text =>
      match at_ i with
      | Some (Working _) => Some (mkCallers (ca_slot s) (<[i := Answered (Some (Err text))]> (ca_callers s)) (ca_next s))
      | _ => None
      end
  | Dies i =>
      match at_ i with
      | Some (Working _) => Some (mkCallers (ca_slot s) (<[i := Answered None]> (ca_callers s)) (ca_next s))
      | _ => None
      end
  | Poisons => Some (mkCallers (mkLock (guarded (ca_slot s)) true) (ca_callers s) (ca_next s))
  end.

Fixpoint slot_steps (l : list (SlotEvent * Z)) (s : Callers) : option Callers :=
  match l with
  | [] => Some s
  | (e, now) :: l => s ← slot_step e now s; slot_steps l s
  end.

(** The callers [callers], of a new queue. *)
Definition queue_callers (callers : gset nat) : Callers :=
  mkCallers (mkLock slot_default false) (gset_to_gmap Calling callers) 0.

(** ** Connections *)

(** A connection is in one place, and has been made. *)
Record slot_ok (s : Callers) : Prop := mkSlotOk {
  so_idle : NoDup (sl_idle (guarded (ca_slot s)));
  so_kept : length (sl_idle (guarded (ca_slot s))) <= IDLE_CONNECTIONS;
  so_made c : c ∈ sl_idle (guarded (ca_slot s)) -> c < ca_next s;
  so_used i c : ca_callers s !! i = Some (Working c) -> c < ca_next s /\ c ∉ sl_idle (guarded (ca_slot s));
  so_own i j c : ca_callers s !! i = Some (Working c) -> ca_callers s !! j = Some (Working c) -> i = j;
  so_probe : sl_probing (guarded (ca_slot s)) = true -> exists i, ca_callers s !! i = Some Connecting;
}.

Lemma pop_idle_Some idle c rest : pop_idle idle = Some (c, rest) -> idle = rest ++ [c].
Proof.
  unfold pop_idle. destruct (rev idle) as [|x l] eqn:E; [done|]. intros [= <- <-].
  by rewrite <-(rev_involutive idle), E.
Qed.

(** The lock taken. *)
Lemma lock_slot_ok s : slot_ok s -> slot_ok (mkCallers (mkLock (lock_slot (ca_slot s)) false) (ca_callers s) (ca_next s)).
Proof.
  intros [H1 H2 H3 H4 H5 H6]. unfold lock_slot. destruct (poisoned (ca_slot s)); [|by split].
  split; cbn; try done; [constructor|lia|intros c Hc; by apply not_elem_of_nil in Hc|].
  intros i c Hi. split; [by apply (H4 i)|apply not_elem_of_nil].
Qed.

(** A caller that goes on without a connection. *)
Lemma goes_ok s i pc slot : slot_ok s -> (forall c, pc <> Working c) -> sl_idle slot = sl_idle (guarded (ca_slot s)) ->
  (sl_probing slot = true -> pc = Connecting \/ exists j, j <> i /\ ca_callers s !! j = Some Connecting) ->
  slot_ok (caller_goes s slot i pc).
Proof.
  intros [H1 H2 H3 H4 H5 H6] Hpc Hidle Hprobe. split; cbn; rewrite ?Hidle; try done.
  - intros j c [[_ E]|[_ Hj]]%lookup_insert_Some; [by apply Hpc in E|by apply (H4 j)].
  - intros j k c [[_ E]|[_ Hj]]%lookup_insert_Some; [by apply Hpc in E|].
    intros [[_ E]|[_ Hk]]%lookup_insert_Some; [by apply Hpc in E|by apply (H5 j k c)].
  - intros [->|(j & Hne & Hj)]%Hprobe; [exists i; by rewrite lookup_insert_eq|exists j; by rewrite lookup_insert_ne].
Qed.

(** One that has a connection of its own. *)
Lemma works_ok s i c slot next : slot_ok s -> ca_next s <= next -> c < next -> c ∉ sl_idle slot ->
  NoDup (sl_idle slot) -> sl_idle slot ⊆ sl_idle (guarded (ca_slot s)) ->
  length (sl_idle slot) <= IDLE_CONNECTIONS ->
  (forall j, ca_callers s !! j = Some (Working c) -> j = i) ->
  (sl_probing slot = true -> exists j, j <> i /\ ca_callers s !! j = Some Connecting) ->
  slot_ok (mkCallers (mkLock slot false) (<[i := Working c]> (ca_callers s)) next).
Proof.
  intros [H1 H2 H3 H4 H5 H6] Hnext Hc Hfree Hnd Hsub Hlen Hown Hprobe. split; cbn; try done.
  - intros c' Hc'. specialize (H3 c' (Hsub c' Hc')). lia.
  - intros j c' [[_ [= <-]]|[_ Hj]]%lookup_insert_Some; [done|]. destruct (H4 j c' Hj) as [Hlt Hn]. split; [lia|].
    intros Hin. by apply Hn, Hsub.
  - intros j k c' [[<- [= <-]]|[Hne Hj]]%lookup_insert_Some [[<- E]|[Hne' Hk]]%lookup_insert_Some; try done.
    + by apply symmetry, Hown.
    + injection E as <-. by apply Hown.
    + by apply (H5 j k c').
  - intros (j & Hne & Hj)%Hprobe. exists j. by rewrite lookup_insert_ne.
Qed.

Lemma take_ok s i now : slot_ok s -> ca_callers s !! i = Some Calling -> slot_ok (take_connection s i now).
Proof.
  intros Hok Hi. apply lock_slot_ok in Hok. unfold take_connection.
  set (slot := lock_slot (ca_slot s)) in *. set (s0 := mkCallers (mkLock slot false) (ca_callers s) (ca_next s)) in *.
  assert (forall j, ca_callers s !! j = Some Connecting -> j <> i) as Hother by (intros j Hj ->; congruence).
  destruct (pop_idle (sl_idle slot)) as [[c rest]|] eqn:Ep.
  - apply pop_idle_Some in Ep. pose proof (so_idle s0 Hok) as Hnd. cbn in Hnd. rewrite Ep in Hnd.
    apply NoDup_app in Hnd as (Hnd & Hfree & _).
    apply (works_ok s0 i c (mkSlot rest _ _) (ca_next s)); try done; cbn.
    + apply (so_made s0 Hok). cbn. rewrite Ep. set_solver.
    + intros Hin. apply (Hfree c Hin). set_solver.
    + rewrite Ep. set_solver.
    + pose proof (so_kept s0 Hok) as Hk. cbn in Hk. rewrite Ep, length_app in Hk. cbn in Hk. lia.
    + intros j Hj. destruct (so_used s0 Hok j c Hj) as [_ Hn]. destruct Hn. cbn. rewrite Ep. set_solver.
    + intros (j & Hj)%(so_probe s0 Hok). exists j. auto.
  - destruct (sl_probing slot) eqn:Epr; [|destruct (failed_lately slot now)].
    + apply (goes_ok s0); try done. intros (j & Hj)%(so_probe s0 Hok). right. exists j. auto.
    + apply (goes_ok s0); try done. cbn. congruence.
    + apply (goes_ok s0); try done. by left.
Qed.

(** A caller that leaves its connection, or dies, without the lock. *)
Lemma leaves_ok s i r : slot_ok s -> (forall c, ca_callers s !! i = Some (Working c) ->
  slot_ok (mkCallers (ca_slot s) (<[i := Answered r]> (ca_callers s)) (ca_next s))).
Proof.
  intros [H1 H2 H3 H4 H5 H6] c Hi. split; cbn; try done.
  - intros j c' [[_ E]|[_ Hj]]%lookup_insert_Some; [done|by apply (H4 j)].
  - intros j k c' [[_ E]|[_ Hj]]%lookup_insert_Some; [done|]. intros [[_ E]|[_ Hk]]%lookup_insert_Some; [done|by apply (H5 j k c')].
  - intros (j & Hj)%H6. exists j. rewrite lookup_insert_ne; [done|]. intros ->. congruence.
Qed.

(** One that gives it back. *)
Lemma gives_back_ok s i c : slot_ok s -> ca_callers s !! i = Some (Working c) ->
  let slot := guarded (ca_slot s) in
  let idle := if (length (sl_idle slot) <? IDLE_CONNECTIONS)%nat then sl_idle slot ++ [c] else sl_idle slot in
  slot_ok (caller_goes s (mkSlot idle None (sl_probing slot)) i (Answered (Some (Ok tt)))).
Proof.
  intros [H1 H2 H3 H4 H5 H6] Hi slot idle. destruct (H4 i c Hi) as [Hlt Hfree].
  assert (forall j c', j <> i -> ca_callers s !! j = Some (Working c') -> c' <> c) as Hown.
  { intros j c' Hne Hj ->. by apply Hne, (H5 j i c). }
  unfold idle, slot. destruct (Nat.ltb_spec (length (sl_idle (guarded (ca_slot s)))) IDLE_CONNECTIONS); split; cbn; try done.
  - apply NoDup_app. split_and!; [done| |apply NoDup_singleton]. intros x Hx ->%list_elem_of_singleton. done.
  - rewrite length_app. cbn. lia.
  - intros x [Hx| ->%list_elem_of_singleton]%elem_of_app; [by apply H3|done].
  - intros j c' [[_ E]|[Hne Hj]]%lookup_insert_Some; [done|]. split; [by apply (H4 j)|].
    rewrite elem_of_app, list_elem_of_singleton. intros [Hx| ->]; [by apply (H4 j c' Hj)|by apply (Hown j c)].
  - intros j k c' [[_ E]|[_ Hj]]%lookup_insert_Some; [done|]. intros [[_ E]|[_ Hk]]%lookup_insert_Some; [done|by apply (H5 j k c')].
  - intros (j & Hj)%H6. exists j. rewrite lookup_insert_ne; [done|]. intros ->. congruence.
  - intros j c' [[_ E]|[_ Hj]]%lookup_insert_Some; [done|by apply (H4 j)].
  - intros j k c' [[_ E]|[_ Hj]]%lookup_insert_Some; [done|]. intros [[_ E]|[_ Hk]]%lookup_insert_Some; [done|by apply (H5 j k c')].
  - intros (j & Hj)%H6. exists j. rewrite lookup_insert_ne; [done|]. intros ->. congruence.
Qed.

Lemma slot_step_ok e now s s' : slot_ok s -> slot_step e now s = Some s' -> slot_ok s'.
Proof.
  intros Hok Hs. pose proof (lock_slot_ok s Hok) as Hok0. unfold slot_step in Hs.
  destruct e as [i|i|i text|i|i text|i|]; [destruct (ca_callers s !! i) as [[]|] eqn:Hi; try done; injection Hs as <-..|injection Hs as <-].
  - by apply take_ok.
  - cbn. apply (works_ok (mkCallers (mkLock (lock_slot (ca_slot s)) false) (ca_callers s) (ca_next s))); cbn; try lia; try done.
    + intros Hin%(so_made _ Hok0). cbn in Hin. lia.
    + apply (so_idle _ Hok0).
    + apply (so_kept _ Hok0).
    + intros j Hj. destruct (so_used _ Hok0 j _ Hj) as [Hlt _]. cbn in Hlt. lia.
  - apply (goes_ok (mkCallers (mkLock (lock_slot (ca_slot s)) false) (ca_callers s) (ca_next s))); done.
  - by apply (gives_back_ok (mkCallers (mkLock (lock_slot (ca_slot s)) false) (ca_callers s) (ca_next s))).
  - by eapply leaves_ok.
  - by eapply leaves_ok.
  - destruct Hok as [H1 H2 H3 H4 H5 H6]. by split.
Qed.

(** C32. However the queue's callers interleave, whatever Redis does and whoever dies, no two callers have one
    connection and none has an idle one, at most [IDLE_CONNECTIONS] are kept, and a caller is told that a connect
    is being retried only while some caller is connecting. *)
Theorem redis_slot_sound callers l s : slot_steps l (queue_callers callers) = Some s ->
  (forall i j c, ca_callers s !! i = Some (Working c) -> ca_callers s !! j = Some (Working c) -> i = j) /\
  (forall i c, ca_callers s !! i = Some (Working c) -> c ∉ sl_idle (guarded (ca_slot s))) /\
  NoDup (sl_idle (guarded (ca_slot s))) /\ length (sl_idle (guarded (ca_slot s))) <= IDLE_CONNECTIONS /\
  (sl_probing (guarded (ca_slot s)) = true -> exists i, ca_callers s !! i = Some Connecting).
Proof.
  assert (slot_ok (queue_callers callers)) as Hok.
  { split; cbn; try done; [constructor|lia|intros c Hc; by apply not_elem_of_nil in Hc| |];
      intros *; rewrite lookup_gset_to_gmap_Some; by intros []. }
  revert Hok. generalize (queue_callers callers). induction l as [|[e now] l IH]; intros s0 Hok Hl.
  - injection Hl as <-. split_and!; [apply Hok|intros i c Hi; by apply (so_used s0 Hok i)|apply Hok|apply Hok|apply Hok].
  - simpl in Hl. destruct (slot_step e now s0) as [s1|] eqn:Es; [|done]. by eapply IH, Hl; eapply slot_step_ok.
Qed.

(** ** While Redis is down *)

Definition is_connecting (pc : option CallerPc) : bool := match pc with Some Connecting => true | _ => false end.

(** When the connects of a schedule began. *)
Fixpoint connect_times (l : list (SlotEvent * Z)) (s : Callers) : list Z :=
  match l with
  | [] => []
  | (e, now) :: l =>
      match slot_step e now s with
      | None => []
      | Some s' =>
          match e with
          | Takes i => if is_connecting (ca_callers s' !! i) then now :: connect_times l s' else connect_times l s'
          | _ => connect_times l s'
          end
      end
  end.

(** Each at least the timeout after the one before, the first after [t]. *)
Fixpoint spaced_from (t : Z) (times : list Z) : Prop :=
  match times with [] => True | u :: times => (t + REDIS_TIMEOUT <= u)%Z /\ spaced_from u times end.

(** Nothing works, and no lock is poisoned. *)
Definition all_fails (e : SlotEvent) : Prop := match e with Connected _ | CommandDone _ | Poisons => False | _ => True end.

(** A connect failed after the last began, at [t], or that one is a probe. *)
Definition down_since (t : Z) (s : Callers) : Prop :=
  poisoned (ca_slot s) = false /\
  exists failed, sl_failed_at (guarded (ca_slot s)) = Some failed /\ (sl_probing (guarded (ca_slot s)) = true \/ (t <= failed)%Z).

Lemma take_down s i now t : down_since t s -> (t <= now)%Z ->
  is_connecting (ca_callers (take_connection s i now) !! i) = true /\ (t + REDIS_TIMEOUT <= now)%Z /\
    down_since now (take_connection s i now) \/
  is_connecting (ca_callers (take_connection s i now) !! i) = false /\ down_since t (take_connection s i now).
Proof.
  intros (Hpo & failed & Hf & Hp) Hnow. unfold take_connection, lock_slot. rewrite Hpo.
  destruct (pop_idle _) as [[c rest]|]; [|destruct (sl_probing _) eqn:Epr; [|destruct (failed_lately _ _) eqn:El]].
  - right. cbn. rewrite lookup_insert_eq. split; [done|]. split; [done|]. cbn. by exists failed.
  - right. cbn. rewrite lookup_insert_eq. split; [done|]. split; [done|]. cbn. by exists failed; auto.
  - right. cbn. rewrite lookup_insert_eq. split; [done|]. split; [done|]. cbn. exists failed. split; [done|]. naive_solver.
  - left. cbn. rewrite lookup_insert_eq. split; [done|]. unfold failed_lately in El. rewrite Hf in El. apply Z.ltb_ge in El.
    destruct Hp as [Hp|Hp]; [congruence|]. unfold REDIS_TIMEOUT in *. split; [lia|]. split; [done|].
    cbn. rewrite Hf. exists failed. split; [done|]. by left.
Qed.

Lemma step_down e now s s' t : down_since t s -> (t <= now)%Z -> all_fails e -> (forall i, e <> Takes i) ->
  slot_step e now s = Some s' -> down_since t s'.
Proof.
  intros (Hpo & failed & Hf & Hp) Hnow He Hne Hs. unfold slot_step in Hs.
  destruct e as [i|i|i text|i|i text|i|]; try done; [by destruct (Hne i)|..];
    destruct (ca_callers s !! i) as [[]|]; try done; injection Hs as <-; split; try done; cbn; [|by exists failed..].
  exists now. split; [done|by right].
Qed.

(** While Redis is down, however many callers there are, connects begin at least [REDIS_TIMEOUT] apart: from a
    connect that failed, and as long as none works and no command does, the first begins that long after it and each
    that long after the one before. *)
Theorem redis_probes_are_spaced l s s' failed :
  poisoned (ca_slot s) = false -> sl_failed_at (guarded (ca_slot s)) = Some failed -> sl_probing (guarded (ca_slot s)) = false ->
  Forall (fun x => all_fails x.1) l -> Sorted Z.le (failed :: l.*2) -> slot_steps l s = Some s' ->
  spaced_from failed (connect_times l s).
Proof.
  intros Hpo Hf Hpr Hall Hsorted Hl. assert (down_since failed s) as Hdown by (split; [done|]; exists failed; split; [done|right; lia]).
  assert (Forall (Z.le failed) l.*2 /\ StronglySorted Z.le l.*2) as [Hle Hss].
  { apply Sorted_StronglySorted in Hsorted; [|intros ???; lia]. by inversion Hsorted. }
  clear Hpo Hf Hpr Hsorted. revert s failed Hdown Hle Hl.
  induction l as [|[e now] l IH]; intros s t Hdown Hle Hl; [done|]. cbn [connect_times]. simpl in Hl.
  destruct (slot_step e now s) as [s1|] eqn:Es; [|done]. simpl in Hl.
  apply Forall_cons in Hall as [He Hall]. cbn in Hss, Hle. apply Forall_cons in Hle as [Hnow Hle].
  assert (Forall (Z.le now) l.*2 /\ StronglySorted Z.le l.*2) as [Hle' Hss'] by (by inversion Hss).
  destruct (match e with Takes _ => true | _ => false end) eqn:Etakes.
  - destruct e as [i| | | | | |]; try done. unfold slot_step in Es. destruct (ca_callers s !! i) as [[]|]; try done. injection Es as <-.
    destruct (take_down s i now t Hdown Hnow) as [(Hc & Hs & Hd)|(Hc & Hd)]; rewrite Hc.
    + split; [done|]. by apply (IH Hall Hss' _ now).
    + by apply (IH Hall Hss' _ t).
  - assert (down_since t s1) as Hd by (eapply (step_down e now s); try done; by intros i ->).
    pose proof (IH Hall Hss' s1 t Hd Hle Hl) as Hspaced. by destruct e.
Qed.

(** ** At concrete inputs *)

(** Of three callers one connects, and fails; later one probes, and is told
    nothing by the others. *)
Definition demo_schedule : list (SlotEvent * Z) :=
  [(Takes 0, 0%Z); (ConnectFailed 0 "refused", 10%Z); (Takes 1, 20%Z); (Takes 2, 5010%Z); (Takes 3, 5011%Z);
   (ConnectFailed 2 "refused", 9000%Z); (Takes 4, 13999%Z); (Takes 5, 14000%Z)].

Definition demo_queue : Callers := queue_callers (list_to_set (seq 0 6)).

Lemma redis_slot_sound_witness :
  match slot_steps [(Takes 0, 0%Z); (Takes 1, 0%Z); (Connected 1, 5%Z); (Connected 0, 6%Z); (CommandDone 1, 7%Z); (Takes 2, 8%Z)] demo_queue with
  | Some s =>
      ca_callers s !! 2 = Some (Working 0) /\ ca_callers s !! 0 = Some (Working 1) /\
      forall i c, ca_callers s !! i = Some (Working c) -> c ∉ sl_idle (guarded (ca_slot s))
  | None => False
  end.
Proof.
  destruct (slot_steps _ demo_queue) as [s|] eqn:E; [|vm_compute in E; discriminate E].
  destruct (redis_slot_sound (list_to_set (seq 0 6)) _ s E) as (_ & Hfree & _).
  vm_compute in E. injection E as <-. split; [reflexivity|]. split; [reflexivity|exact Hfree].
Defined.

Lemma redis_probes_are_spaced_witness :
  match slot_steps (take 2 demo_schedule) demo_queue with
  | Some s => connect_times (drop 2 demo_schedule) s = [5010; 14000]%Z /\ spaced_from 10 (connect_times (drop 2 demo_schedule) s)
  | None => False
  end.
Proof.
  destruct (slot_steps (take 2 demo_schedule) demo_queue) as [s|] eqn:E; [|vm_compute in E; discriminate E].
  vm_compute in E. injection E as <-. split; [vm_compute; reflexivity|].
  destruct (slot_steps (drop 2 demo_schedule) (mkCallers (mkLock (mkSlot [] (Some 10%Z) false) false)
    (<[0 := Answered (Some (Err "refused"%string))]> (ca_callers demo_queue)) 0)) as [s'|] eqn:E'; [|vm_compute in E'; discriminate E'].
  refine (redis_probes_are_spaced (drop 2 demo_schedule) _ s' 10 _ _ _ _ _ E').
  - reflexivity.
  - reflexivity.
  - reflexivity.
  - repeat constructor.
  - repeat constructor; discriminate.
Defined.
