(* ===== verification/PostgresMemory.v ===== *)
(** * Memory in Postgres ([memory/src/lib.rs])

    A table of values, over one connection that every run shares under a lock.
    A call that fails drops the connection and the next connects again; a
    caller that panics poisons the lock, and the next drops what it left.  What
    the database does at a call is given with the call ([Turn]).

    The theorems: the calls that answer, answer as the memory of a process does
    to the writes that took effect ([pg_memory_is_memory]), and nothing that
    went wrong before keeps a call from answering ([pg_memory_recovers]). *)

From S2P Require Import Prelude Protocol MemoryOwner Store.

(** ** The table *)

(** [serde_json::to_string(&scope)]. *)
Definition scope_name (scope : MemoryScope) : string :=
  let quoted s := String (Ascii.ascii_of_nat 34) (s +:+ String (Ascii.ascii_of_nat 34) EmptyString) in
  quoted
    match scope with
    | ScopeStep => "Step" | ScopeRun => "Run" | ScopeSession => "Session" | ScopeAgent => "Agent"
    | ScopeWorkspace => "Workspace" | ScopeUser => "User" | ScopeOrganization => "Organization" | ScopeGlobal => "Global"
    end%string.

(** The rows by scope, owner and key. *)
Abbreviation MemoryRows := (gmap (string * string * string) string).

Definition memory_column (owner : MemoryKey) (key : string) : string * string * string :=
  (scope_name (mk_scope owner), mk_owner_id owner, key).

Definition select_value (rows : MemoryRows) (owner : MemoryKey) (key : string) : option string :=
  rows !! memory_column owner key.

Definition upsert_value (rows : MemoryRows) (owner : MemoryKey) (key value : string) : MemoryRows :=
  <[memory_column owner key := value]> rows.

(** ** The connection *)

(** A connection, and whether it is closed. *)
Record PgMemory : Type := mkPgMemory { pm_rows : MemoryRows; pm_client : Lock (option bool) }.

(** How a statement goes: it is done; it fails; it fails and may have been done;
    its caller panics before or after it was. *)
Inductive StatementFate := SGoes | SFails (e : StoreError) | SUnsure (e : StoreError) | SPanics (done_ : bool).

(** What a call meets: what became of the connection since the last, what a
    connect gives (a panic of it is an error), and how the statement goes. *)
Record Turn : Type := mkTurn { tu_closes : bool; tu_connect : result unit StoreError; tu_fate : StatementFate }.

(** The slot as a caller finds it: a poisoned lock is cleared, and the
    connection dropped. *)
Definition client_slot (m : PgMemory) (turn : Turn) : option bool :=
  if poisoned (pm_client m) then None else (fun closed => closed || tu_closes turn) <$> guarded (pm_client m).

(** [with_client]: [None] where the caller panicked; else what the statement
    [op] gave, and what is left. *)
Definition with_client {A} (m : PgMemory) (turn : Turn) (op : MemoryRows -> A * MemoryRows)
    : option (result A StoreError) * PgMemory :=
  let slot := client_slot m turn in
  let connected := match slot with Some false => Ok tt | _ => tu_connect turn end in
  match connected with
  | Err e => (Some (Err e), mkPgMemory (pm_rows m) (mkLock None false))
  | Ok _ =>
      let '(a, rows) := op (pm_rows m) in
      match tu_fate turn with
      | SGoes => (Some (Ok a), mkPgMemory rows (mkLock (Some false) false))
      | SFails e => (Some (Err e), mkPgMemory (pm_rows m) (mkLock None false))
      | SUnsure e => (Some (Err e), mkPgMemory rows (mkLock None false))
      | SPanics done_ => (None, mkPgMemory (if done_ then rows else pm_rows m) (mkLock (Some false) true))
      end
  end.

Definition pg_memory_read (m : PgMemory) (turn : Turn) (owner : MemoryKey) (key : string)
    : option (result (option string) StoreError) * PgMemory :=
  with_client m turn (fun rows => (select_value rows owner key, rows)).

Definition pg_memory_write (m : PgMemory) (turn : Turn) (owner : MemoryKey) (key value : string)
    : option (result unit StoreError) * PgMemory :=
  with_client m turn (fun rows => (tt, upsert_value rows owner key value)).

(** [connect]: the first connection. *)
Definition pg_memory_connect (rows : MemoryRows) (connected : result unit StoreError) : result PgMemory StoreError :=
  match connected with Ok _ => Ok (mkPgMemory rows (mkLock (Some false) false)) | Err e => Err e end.

(** ** Calls in turn *)

Inductive MemoryCall := MemRead (owner : MemoryKey) (key : string) | MemWrite (owner : MemoryKey) (key value : string).

Inductive MemoryAnswer := AnValue (v : option string) | AnWritten.

Definition pg_memory_call (m : PgMemory) (turn : Turn) (call : MemoryCall) : option (result MemoryAnswer StoreError) * PgMemory :=
  match call with
  | MemRead owner key =>
      let '(r, m) := pg_memory_read m turn owner key in
      ((fun r => match r with Ok v => Ok (AnValue v) | Err e => Err e end) <$> r, m)
  | MemWrite owner key value =>
      let '(r, m) := pg_memory_write m turn owner key value in
      ((fun r => match r with Ok _ => Ok AnWritten | Err e => Err e end) <$> r, m)
  end.

Fixpoint pg_memory_calls (m : PgMemory) (calls : list (Turn * MemoryCall)) : list (option (result MemoryAnswer StoreError)) * PgMemory :=
  match calls with
  | [] => ([], m)
  | (turn, call) :: calls =>
      let '(r, m) := pg_memory_call m turn call in let '(rs, m) := pg_memory_calls m calls in (r :: rs, m)
  end.

(** The same call of [InMemory]. *)
Definition mem_call (s : InMemory) (call : MemoryCall) : result MemoryAnswer StoreError * InMemory :=
  match call with
  | MemRead owner key => (match in_memory_read s owner key with Ok v => Ok (AnValue v) | Err e => Err e end, s)
  | MemWrite owner key value =>
      let '(r, s) := in_memory_write s owner key value in (match r with Ok _ => Ok AnWritten | Err e => Err e end, s)
  end.

(** Of the calls, those that took effect. *)
Fixpoint mem_calls_taken (s : InMemory) (calls : list (MemoryCall * bool)) : list (result MemoryAnswer StoreError) * InMemory :=
  match calls with
  | [] => ([], s)
  | (call, took) :: calls =>
      let '(r, s') := mem_call s call in
      let '(rs, s) := mem_calls_taken (if took then s' else s) calls in (r :: rs, s)
  end.

(** ** Theorems *)

Lemma scope_name_inj a b : scope_name a = scope_name b -> a = b.
Proof. destruct a, b; vm_compute; intros E; first [reflexivity|discriminate E]. Qed.

Lemma memory_column_inj o k o' k' : memory_column o k = memory_column o' k' -> o = o' /\ k = k'.
Proof.
  intros E. pose proof (f_equal (fun x => x.1.1) E) as Es. pose proof (f_equal (fun x => x.1.2) E) as Eo.
  pose proof (f_equal snd E) as Ek. cbn in Eo, Ek. apply scope_name_inj in Es. split; [|done]. destruct o, o'. cbn in *. congruence.
Qed.

(** The table holds the values of [s]. *)
Definition holds (rows : MemoryRows) (s : InMemory) : Prop :=
  mem_poisoned s = false /\ forall owner key, select_value rows owner key = mem_values s !! (owner, key).

Lemma upsert_holds rows s owner key value : holds rows s ->
  holds (upsert_value rows owner key value) (mkInMemory (<[(owner, key) := value]> (mem_values s)) false).
Proof.
  intros [Hp Hv]. split; [done|]. intros o k. unfold select_value, upsert_value. cbn.
  destruct (decide ((owner, key) = (o, k))) as [[= -> ->]|Hne]; [by rewrite !lookup_insert_eq|].
  rewrite !lookup_insert_ne; [apply Hv|done|]. intros [-> ->]%memory_column_inj. by apply Hne.
Qed.

(** A statement takes effect, or leaves the rows as they are; it answers only
    if it did. *)
Lemma with_client_takes {A} (m : PgMemory) (turn : Turn) (op : MemoryRows -> A * MemoryRows) r (m' : PgMemory) : with_client m turn op = (r, m') ->
  exists took : bool, pm_rows m' = (if took then (op (pm_rows m)).2 else pm_rows m) /\
    forall a, r = Some (Ok a) -> took = true /\ a = (op (pm_rows m)).1.
Proof.
  unfold with_client. destruct (match client_slot m turn with Some false => Ok tt | _ => tu_connect turn end) as [u|e].
  2:{ intros [= <- <-]. exists false. split; [done|]. by intros a Ha. }
  destruct (op (pm_rows m)) as [a rows]. destruct (tu_fate turn) as [|e|e|[]]; intros [= <- <-]; cbn.
  - exists true. split; [done|]. by intros b [= <-].
  - exists false. split; [done|]. by intros b Hb.
  - exists true. split; [done|]. by intros b Hb.
  - exists true. split; [done|]. by intros b Hb.
  - exists false. split; [done|]. by intros b Hb.
Qed.

(** So does a call. *)
Lemma pg_memory_call_holds m s turn call r m' : holds (pm_rows m) s -> pg_memory_call m turn call = (r, m') ->
  exists took : bool, holds (pm_rows m') (if took then (mem_call s call).2 else s) /\
    forall a, r = Some (Ok a) -> took = true /\ (mem_call s call).1 = Ok a.
Proof.
  intros Hh. pose proof Hh as [Hp Hv]. destruct call as [owner key|owner key value]; cbn [pg_memory_call].
  - unfold pg_memory_read. destruct (with_client _ _ _) as [o m1] eqn:Ew. intros [= <- <-].
    destruct (with_client_takes _ _ _ _ _ Ew) as (took & Hrows & Ha). exists took. split.
    + by destruct took; rewrite Hrows.
    + intros a Ho. destruct o as [[v|e]|]; try done. injection Ho as <-. destruct (Ha v eq_refl) as [-> ->].
      split; [done|]. cbn. unfold in_memory_read. by rewrite <-Hv.
  - unfold pg_memory_write. destruct (with_client _ _ _) as [o m1] eqn:Ew. intros [= <- <-].
    destruct (with_client_takes _ _ _ _ _ Ew) as (took & Hrows & Ha). exists took. cbn. unfold in_memory_write. rewrite Hp. split.
    + destruct took; rewrite Hrows; [by apply upsert_holds|done].
    + intros a Ho. destruct o as [[v|e]|]; try done. injection Ho as <-. by destruct (Ha v eq_refl) as [-> _].
Qed.

(** C33. Whatever fails, is lost, panics or loses its connection, the calls that answer have taken effect and answer
    what a process's own memory answers to the calls that took effect, in their order; the table ends with its
    values. *)
Theorem pg_memory_is_memory calls m s rs m' : holds (pm_rows m) s -> pg_memory_calls m calls = (rs, m') ->
  exists tooks, length tooks = length calls /\
    holds (pm_rows m') (mem_calls_taken s (zip calls.*2 tooks)).2 /\
    forall i a, rs !! i = Some (Some (Ok a)) ->
      tooks !! i = Some true /\ (mem_calls_taken s (zip calls.*2 tooks)).1 !! i = Some (Ok a).
Proof.
  revert m s rs. induction calls as [|[turn call] calls IH]; intros m s rs Hh; cbn [pg_memory_calls].
  { intros [= <- <-]. exists []. split_and!; [done|done|]. intros i a. by rewrite lookup_nil. }
  destruct (pg_memory_call m turn call) as [r m1] eqn:Ec, (pg_memory_calls m1 calls) as [rs1 m2] eqn:Er. intros [= <- <-].
  destruct (pg_memory_call_holds m s turn call r m1 Hh Ec) as (took & Hh1 & Hr).
  destruct (IH m1 _ rs1 Hh1 Er) as (tooks & Hlen & Hh2 & Hrs). exists (took :: tooks). cbn.
  destruct (mem_call s call) as [r' s'] eqn:Em. cbn in Hh2, Hrs, Hr.
  destruct (mem_calls_taken (if took then s' else s) (zip calls.*2 tooks)) as [rs2 s2]. cbn in *.
  split_and!; [by f_equal|done|]. intros [|i] a; cbn; [|apply Hrs]. intros [= ->]. destruct (Hr a eq_refl) as [-> ->]. done.
Qed.

(** Nothing that happened before keeps a call from answering: with a database that can be reached and does the
    statement, the call answers, whatever connection and whatever lock it finds. *)
Theorem pg_memory_recovers m turn call : tu_connect turn = Ok tt -> tu_fate turn = SGoes ->
  exists a, (pg_memory_call m turn call).1 = Some (Ok a) /\ poisoned (pm_client (pg_memory_call m turn call).2) = false.
Proof.
  intros Hc Hf. destruct call; cbn [pg_memory_call]; unfold pg_memory_read, pg_memory_write, with_client; rewrite Hc, Hf;
    destruct (client_slot m turn) as [[]|]; by eexists.
Qed.

(** ** At concrete inputs *)

Definition well : Turn := mkTurn false (Ok tt) SGoes.

(** A write that is lost and done, a caller that panics, and then both values. *)
Definition demo_memory_calls : list (Turn * MemoryCall) :=
  [(well, MemWrite sample_key "a" "1"); (mkTurn false (Ok tt) (SUnsure (mkStoreError "closed")), MemWrite sample_key "b" "2");
   (mkTurn false (Err (mkStoreError "refused")) SGoes, MemRead sample_key "a");
   (mkTurn false (Ok tt) (SPanics false), MemWrite sample_key "a" "3"); (well, MemRead sample_key "a"); (well, MemRead sample_key "b")].

Definition demo_memory : PgMemory := mkPgMemory ∅ (mkLock (Some false) false).

Lemma pg_memory_is_memory_witness :
  (pg_memory_calls demo_memory demo_memory_calls).1 =
    [Some (Ok AnWritten); Some (Err (mkStoreError "closed")); Some (Err (mkStoreError "refused")); None;
     Some (Ok (AnValue (Some "1"%string))); Some (Ok (AnValue (Some "2"%string)))] /\
  exists tooks, length tooks = length demo_memory_calls /\
    holds (pm_rows (pg_memory_calls demo_memory demo_memory_calls).2) (mem_calls_taken in_memory_default (zip demo_memory_calls.*2 tooks)).2.
Proof.
  split; [vm_compute; reflexivity|].
  destruct (pg_memory_is_memory demo_memory_calls demo_memory in_memory_default _ _ ltac:(split; [reflexivity|intros *; unfold select_value; cbn; by rewrite !lookup_empty])
    (surjective_pairing (pg_memory_calls demo_memory demo_memory_calls))) as (tooks & Hlen & Hh & _).
  exists tooks. exact (conj Hlen Hh).
Defined.

Lemma pg_memory_recovers_witness :
  exists a, (pg_memory_call (mkPgMemory ∅ (mkLock (Some false) true)) well (MemWrite sample_key "a" "1")).1 = Some (Ok a) /\
    poisoned (pm_client (pg_memory_call (mkPgMemory ∅ (mkLock (Some false) true)) well (MemWrite sample_key "a" "1")).2) = false.
Proof. apply pg_memory_recovers; reflexivity. Defined.
