(* ===== verification/Jev.v ===== *)
(** * The external decider ([harness/src/jev.rs])

    Jev is asked to choose among labelled effects.  [jev_choices] is what it is
    offered, [jev_state] what it is told, and [jev_decide] makes the effect of
    the label it answers.  The service, the fresh ids and the serialized form
    of an event's payload and of a harness state are parameters; JSON is
    [Mcp]'s [Value].  The theorems are in [JevProofs]. *)

From S2P Require Import Prelude Text Protocol Uuids MemoryOwner Reduce Authorizer Driver.
From S2P Require Import Mcp Deliverer.

Definition RECENT_EVENTS : nat := 16.

Definition MAX_EVENT_TEXT : nat := 2048.

Definition MODEL : string := "model".
Definition COMPLETE : string := "complete".
Definition DELEGATE : string := "delegate:".
Definition TELL : string := "tell:".
Definition ASK : string := "ask:".
Definition ASK_USER : string := "ask_user".

Definition JEV_ASK_TIMEOUT_SECS : N := 3600.

(** ** What Jev is told *)

Definition capped_text (s : string) : string :=
  let length := chars_count s in
  if (length <=? MAX_EVENT_TEXT)%nat then s
  else
    bytes_string (take_chars MAX_EVENT_TEXT (string_bytes s)) +:+ "… [truncated " +:+
      pretty (length - MAX_EVENT_TEXT)%nat +:+ " chars]".

Fixpoint capped_value (value : Value) : Value :=
  match value with
  | JString s => JString (capped_text s)
  | JArray items => JArray (capped_value <$> items)
  | JObject fields => JObject ((fun '(key, field) => (key, capped_value field)) <$> fields)
  | other => other
  end.

Definition json_u32 (n : N) : Value := JNumber (JInt (Z.of_N n)).

Section State.
Context (payload_json : EventPayload -> Value) (harness_json : HarnessState -> Value).

(** The last [RECENT_EVENTS]. *)
Definition recent_events (events : list Event) : list Event := drop (length events - RECENT_EVENTS) events.

Definition jev_state (view : DecisionView) : Value :=
  let l := limits (dv_spec view) in
  let st := dv_state view in
  JObject
    [("input", JString (input (dv_spec view)));
     ("run", JObject
        [("harness", harness_json (harness st));
         ("steps", json_u32 (steps st)); ("max_steps", json_u32 (max_steps l));
         ("model_calls", json_u32 (model_calls st)); ("max_model_calls", json_u32 (max_model_calls l));
         ("steps_exhausted", JBool (dv_steps_exhausted view));
         ("model_calls_exhausted", JBool (dv_model_calls_exhausted view))]);
     ("recent_events", JArray ((fun event => capped_value (payload_json (payload event))) <$> recent_events (dv_events view)));
     ("tools", JArray ((fun tool => JObject
        [("name", JString (tool_name tool)); ("description", JString (description tool));
         ("input_schema", JString (input_schema tool))]) <$> dv_tools view));
     ("skills", JArray ((fun skill => JObject
        [("name", JString (skill_name skill)); ("body", JString (skill_body skill))]) <$> dv_skills view))].

End State.

(** ** What it is offered *)

Section Choices.
Context `{UuidCrate}.

(** [max.saturating_sub(used.saturating_add(given))]. *)
Definition left_to_give (max used given : N) : N := sat_sub32 max (sat_add32 used given).

Definition starts_task (view : DecisionView) (capability : string) : bool :=
  let spec := dv_spec view in
  let st := dv_state view in
  let steps_left := left_to_give (max_steps (limits spec)) (steps st) (given_steps st) in
  let model_calls_left := left_to_give (max_model_calls (limits spec)) (model_calls st) (given_model_calls st) in
  is_running (harness st) &&
  existsb (fun held => bool_decide (held = mkCapability capability)) (capabilities spec) &&
  (hop (lineage spec) <? MAX_DELEGATION_HOPS)%N && (children st <? MAX_CHILDREN)%N &&
  (2 <? steps_left)%N && (2 <=? model_calls_left)%N.

(** The name of a target: its id, if it has none. *)
Definition named (target : DelegateTarget) : string :=
  if bool_decide (target_name target = "") then id_display (target_agent_id target) else target_name target.

(** [&id[..8]]. *)
Definition id_head (id : AgentId) : string := bytes_string (take 8 (string_bytes (id_display id))).

Definition target_label (prefix : string) (targets : list DelegateTarget) (target : DelegateTarget) : string :=
  let shared := (1 <? length (List.filter (fun other => bool_decide (named other = named target)) targets))%nat in
  if shared then prefix +:+ named target +:+ "-" +:+ id_head (target_agent_id target) else prefix +:+ named target.

Definition target_choices (view : DecisionView) (prefix : string) (describe : string -> string -> string)
    : list (string * string * AgentId) :=
  let targets := List.filter (fun target => negb (bool_decide (target_agent_id target = agent_id (dv_spec view)))) (dv_agents view) in
  let choices := (fun target => (target_label prefix targets target,
                                 describe (named target) (target_description target),
                                 target_agent_id target)) <$> targets in
  List.filter (fun choice => (length (List.filter (fun other => bool_decide (other.1.1 = choice.1.1)) choices) =? 1)%nat) choices.

Definition delegate_choices (view : DecisionView) : list (string * string * AgentId) :=
  if negb (starts_task view "agent.delegate") then []
  else target_choices view DELEGATE
         (fun named description =>
            if bool_decide (description = "") then "Hand the input to agent " +:+ named +:+ "." else description)%string.

(** [described]. *)
Definition described (verb description : string) : string :=
  if bool_decide (description = "") then verb +:+ "." else verb +:+ ": " +:+ description.

Definition message_choices (view : DecisionView) : list (string * string * AgentId * bool) :=
  if negb (dv_messaging view) || (MAX_MESSAGE_BYTES <? String.length (input (dv_spec view)))%nat ||
     negb (starts_task view "agent.message") then []
  else
    let tells := target_choices view TELL
      (fun named => described ("Tell agent " +:+ named +:+ " the input, without waiting")) in
    let asks := target_choices view ASK
      (fun named => described ("Ask agent " +:+ named +:+ " about the input, and wait for its answer")) in
    ((fun choice => (choice, false)) <$> tells) ++ ((fun choice => (choice, true)) <$> asks).

Definition asks_user (view : DecisionView) : bool :=
  dv_asking view &&
  existsb (fun held => bool_decide (held = mkCapability "user.ask")) (capabilities (dv_spec view)) &&
  match harness (dv_state view) with Running _ _ false => true | _ => false end.

(** Whether a tool's name is no other choice's label. *)
Definition offered (tool : ToolDescriptor) : bool :=
  let name := tool_name tool in
  negb (bool_decide (name = MODEL)) && negb (bool_decide (name = COMPLETE)) && negb (bool_decide (name = ASK_USER)) &&
  negb (existsb (fun prefix => starts_with prefix name) [DELEGATE; TELL; ASK]).

Definition jev_choices (view : DecisionView) : list (string * option string) :=
  let complete := (COMPLETE, Some "Finish the run."%string) in
  if dv_steps_exhausted view then [complete]
  else
    ((fun tool => (tool_name tool, Some (description tool))) <$> List.filter offered (dv_tools view)) ++
    ((fun '(label, description, _) => (label, Some description)) <$> delegate_choices view) ++
    ((fun '(label, description, _, _) => (label, Some description)) <$> message_choices view) ++
    (if asks_user view then [(ASK_USER, Some "Ask the user a question, and wait for the answer."%string)] else []) ++
    (if negb (dv_model_calls_exhausted view) then [(MODEL, Some "Ask the work model about the input."%string)] else []) ++
    [complete].

(** ** What it decides *)

(** The last of the assistant's texts that is not blank, or the input, cut at
    a character. *)
Definition question (view : DecisionView) : string :=
  let text := default (input (dv_spec view)) (rfind_map (fun event => assistant_text (payload event)) (dv_events view)) in
  let bytes := string_bytes text in
  bytes_string (take (boundary_at bytes (Nat.min (length bytes) MAX_MESSAGE_BYTES)) bytes).

(** The effect of a label; an invocation is drawn for a tool only. *)
Definition chosen_effect {W} (new_invocation : W -> InvocationId * W) (view : DecisionView) (choice : string) (w : W) : Effect * W :=
  match List.find (fun '(label, _, _) => bool_decide (label = choice)) (delegate_choices view) with
  | Some (_, _, agent) => (EDelegate agent (input (dv_spec view)), w)
  | None =>
      match List.find (fun '(label, _, _, _) => bool_decide (label = choice)) (message_choices view) with
      | Some (_, _, to, asks) =>
          (ESendMessage to (input (dv_spec view)) asks None (if asks then Some JEV_ASK_TIMEOUT_SECS else None), w)
      | None =>
          if bool_decide (choice = ASK_USER) then (EAskUser (question view), w)
          else if bool_decide (choice = MODEL) then (EModelCall (input (dv_spec view)), w)
          else if bool_decide (choice = COMPLETE) then (EComplete "done", w)
          else let '(invocation, w) := new_invocation w in (EToolCall choice (input (dv_spec view)) invocation, w)
      end
  end.

Section Decide.
Context {W : Type} (payload_json : EventPayload -> Value) (harness_json : HarnessState -> Value)
  (new_invocation : W -> InvocationId * W).

(** The client: what it is told, the question's choices; the choice in the
    response, or why there is none. *)
Context (system_one : Value -> list (string * option string) -> W -> result (result string string) string * W).

Definition jev_decide : Decider W := fun view w =>
  let choices := jev_choices view in
  match system_one (jev_state payload_json harness_json view) choices w with
  | (Err message, w) | (Ok (Err message), w) => (Err (mkDeciderError message), w)
  | (Ok (Ok choice), w) =>
      if negb (existsb (fun '(label, _) => bool_decide (label = choice)) choices) then
        (Err (mkDeciderError ("unknown effect choice: " +:+ choice)), w)
      else let '(effect, w) := chosen_effect new_invocation view choice w in (Ok effect, w)
  end.

End Decide.
End Choices.
