(* ===== verification/JevProofs.v ===== *)
(** * Theorems about the external decider

    What Jev decides can be done: it never ends a run for its budget, and a
    task it starts is authorized and has something to give
    ([jev_decides_what_can_be_done]).  Each label means one effect
    ([jev_labels_are_unique]), and what it is told of an event is bounded. *)

From S2P Require Import Prelude Text Protocol Uuids MemoryOwner Reduce Authorizer Driver.
From S2P Require Import Mcp Deliverer Jev.

Section Choices.
Context `{UuidCrate}.

(** ** Starting a task *)

Lemma holds_existsb spec name :
  existsb (fun held => bool_decide (held = mkCapability name)) (capabilities spec) = true <-> holds spec name.
Proof.
  unfold holds. rewrite existsb_exists. split.
  - intros (c & Hc%list_elem_of_In & E). bool_to_prop. by subst.
  - intros Hin. exists (mkCapability name). split; [by apply list_elem_of_In|]. by apply bool_decide_eq_true_2.
Qed.

Lemma starts_task_spec view capability : starts_task view capability = true ->
  let spec := dv_spec view in let st := dv_state view in
  is_running (harness st) = true /\ holds spec capability /\ below_hop_cap spec /\ (children st < MAX_CHILDREN)%N /\
  (2 < left_of (max_steps (limits spec)) (steps st) (given_steps st))%N /\
  (2 <= left_of (max_model_calls (limits spec)) (model_calls st) (given_model_calls st))%N.
Proof.
  unfold starts_task, below_hop_cap. intros Hs. rewrite !andb_true_iff, holds_existsb in Hs.
  destruct Hs as (((((H1 & H2) & H3) & H4) & H5) & H6). bool_to_prop. done.
Qed.

(** The state once the effect of a task is decided and authorized. *)
Lemma fold_task spec events eff e1 e2 :
  match eff with EDelegate _ _ | ESendMessage _ _ _ _ _ => True | _ => False end ->
  payload e1 = EffectDecided eff -> payload e2 = EffectAuthorized eff ->
  is_running (harness (fold spec events)) = true ->
  let st := fold spec events in let st' := fold spec (events ++ [e1; e2]) in
  harness st' = harness st /\ steps st' = wrap_add32 (steps st) 1 /\ model_calls st' = model_calls st /\
  children st' = children st /\ given_steps st' = given_steps st /\ given_model_calls st' = given_model_calls st.
Proof.
  intros He H1 H2 Hr. cbn zeta. unfold fold in *. rewrite fold_events_app.
  destruct (fold_events spec events) as [h p st mc ch gs gm started]. cbn in Hr. destruct h; try done.
  cbn. unfold fold_step. rewrite H1, H2. unfold reduce. rewrite H1, H2.
  destruct eff; try done; cbn; unfold on_authorized; cbn; try done; by split_match.
Qed.

(** A step more leaves what [starts_task] asked for. *)
Lemma left_after max used given : (max <= u32_max)%N -> (2 < left_of max used given)%N ->
  (2 <= left_of max (wrap_add32 used 1) given)%N.
Proof.
  unfold left_of, sat_sub32, sat_add32, wrap_add32, u32_max. intros Hm Hl.
  rewrite N.mod_small by lia. lia.
Qed.

Lemma half_at_least n : (2 <= n)%N -> (1 <= n / 2)%N.
Proof. intros Hn. by apply N.div_le_lower_bound; lia. Qed.

(** So a task can be given something. *)
Lemma carve_after (W : Type) (d : Driver W) view eff e1 e2 capability :
  dv_spec view = d_spec d -> dv_state view = state d -> (max_steps (limits (d_spec d)) <= u32_max)%N ->
  starts_task view capability = true ->
  match eff with EDelegate _ _ | ESendMessage _ _ _ _ _ => True | _ => False end ->
  payload e1 = EffectDecided eff -> payload e2 = EffectAuthorized eff ->
  exists l, carve d (fold (d_spec d) (d_events d ++ [e1; e2])) = Ok l /\
    (1 <= max_steps l)%N /\ (1 <= max_model_calls l)%N.
Proof.
  intros Hspec Hst Hmax Hs He H1 H2. apply starts_task_spec in Hs. rewrite Hspec, Hst in Hs.
  destruct Hs as (Hr & _ & _ & Hch & Hsteps & Hcalls).
  destruct (fold_task (d_spec d) (d_events d) eff e1 e2 He H1 H2 Hr) as (Eh & Es & Em & Ec & Eg & Egm).
  unfold carve. rewrite Eh, Es, Em, Ec, Eg, Egm. unfold state in *. rewrite Hr. cbn [negb].
  rewrite (proj2 (N.leb_gt _ _) Hch). apply left_after in Hsteps; [|done].
  rewrite (proj2 (N.ltb_ge _ _) Hsteps), (proj2 (N.ltb_ge _ _) Hcalls). cbn.
  eexists. split; [done|]. cbn. split; by apply half_at_least.
Qed.

(** ** The targets *)

Lemma target_choices_spec view prefix describe label text agent :
  (label, text, agent) ∈ target_choices view prefix describe ->
  agent <> agent_id (dv_spec view) /\ (exists target : DelegateTarget, target ∈ dv_agents view /\ target_agent_id target = agent) /\
  exists rest, label = prefix +:+ rest.
Proof.
  unfold target_choices. rewrite list_elem_of_In, List.filter_In, <-list_elem_of_In.
  intros [Hin _]. apply list_elem_of_fmap in Hin as (target & [= -> -> ->] & Hin).
  rewrite list_elem_of_In, List.filter_In, <-list_elem_of_In in Hin. destruct Hin as [Hin Hne]. bool_to_prop.
  split_and!; [done|by exists target|]. unfold target_label. case_match; by eexists.
Qed.

Lemma filter_keeps_sublist {A} (g : A -> bool) (k l : list A) :
  k `sublist_of` l -> List.filter g k `sublist_of` List.filter g l.
Proof.
  induction 1 as [|x k l _ IH|x k l _ IH]; cbn; [done| |]; destruct (g x); try done; [by apply sublist_skip|by apply sublist_cons].
Qed.

(** The elements whose key is theirs alone have different keys. *)
Lemma once_nodup {A} (f : A -> string) (l : list A) :
  NoDup (f <$> List.filter (fun x => (length (List.filter (fun y => bool_decide (f y = f x)) l) =? 1)%nat) l).
Proof.
  assert (forall k, k `sublist_of` l -> NoDup (f <$> List.filter (fun x => (length (List.filter (fun y => bool_decide (f y = f x)) l) =? 1)%nat) k)) as Hk;
    [|by apply Hk].
  induction k as [|x k IH]; intros Hsub; cbn; [constructor|].
  assert (k `sublist_of` l) as Hsub' by (etrans; [|exact Hsub]; by apply sublist_cons).
  destruct (_ =? 1)%nat eqn:E; [|by apply IH]. cbn. constructor; [|by apply IH]. apply Nat.eqb_eq in E.
  intros (y & Hy & Hin)%list_elem_of_fmap. rewrite list_elem_of_In, List.filter_In, <-list_elem_of_In in Hin. destruct Hin as [Hin _].
  assert ([x; y] `sublist_of` l) as Hxy.
  { etrans; [|exact Hsub]. apply sublist_skip. by apply singleton_sublist_l. }
  pose proof (sublist_length _ _ (filter_keeps_sublist (fun y => bool_decide (f y = f x)) _ _ Hxy)) as Hle. rewrite E in Hle.
  cbn in Hle. rewrite <-Hy, !bool_decide_true in Hle by done. cbn in Hle. lia.
Qed.

Lemma target_choices_nodup view prefix describe :
  NoDup ((fun choice => choice.1.1) <$> target_choices view prefix describe).
Proof. apply once_nodup. Qed.

(** ** What it asks a user *)

Lemma question_short view : (String.length (question view) <= MAX_MESSAGE_BYTES)%nat.
Proof.
  unfold question. set (bytes := string_bytes _).
  destruct (boundary_at_spec bytes (Nat.min (length bytes) MAX_MESSAGE_BYTES)) as (_ & Hle & _).
  rewrite <-length_string_bytes, string_bytes_string, length_take. lia.
Qed.

(** ** What it decides *)

(** The effect [eff] in the place of [d]: what makes it go on. *)
Definition can_be_done {W : Type} (d : Driver W) (tools : list ToolDescriptor) (eff : Effect) : Prop :=
  let spec := d_spec d in
  let has_room := forall e1 e2, payload e1 = EffectDecided eff -> payload e2 = EffectAuthorized eff ->
    exists l, carve d (fold spec (d_events d ++ [e1; e2])) = Ok l /\ (1 <= max_steps l)%N /\ (1 <= max_model_calls l)%N in
  let another agent := agent <> agent_id spec /\ exists target, target ∈ d_targets d /\ target_agent_id target = agent in
  match eff with
  | EDelegate agent inp =>
      inp = input spec /\ another agent /\ has_room /\ authorize spec eff tools = Allow /\ applicable (harness (state d)) eff spec = true
  | ESendMessage to body asks reply_to _ =>
      body = input spec /\ reply_to = None /\ is_Some (d_deliverer d) /\ another to /\ has_room /\
      authorize spec eff tools = Allow /\ applicable (harness (state d)) eff spec = true
  | EAskUser prompt =>
      d_user_questions d = true /\ (blank prompt = false -> authorize spec eff tools = Allow) /\
      applicable (harness (state d)) eff spec = true
  | EModelCall prompt => prompt = input spec
  | EToolCall name inp _ => inp = input spec /\ name ∈ (tool_name <$> tools)
  | EComplete _ => authorize spec eff tools = Allow
  | _ => False
  end.

Lemma find_Some_in {A} (f : A -> bool) l x : List.find f l = Some x -> x ∈ l /\ f x = true.
Proof. intros [Hin Hf]%find_some. split; [by apply list_elem_of_In|done]. Qed.

Lemma delegate_choice view label text agent : (label, text, agent) ∈ delegate_choices view ->
  starts_task view AGENT_DELEGATE = true /\ agent <> agent_id (dv_spec view) /\
  (exists target : DelegateTarget, target ∈ dv_agents view /\ target_agent_id target = agent) /\ exists rest, label = DELEGATE +:+ rest.
Proof.
  unfold delegate_choices. destruct (starts_task _ _) eqn:Es; cbn [negb]; [|by intros Hin%not_elem_of_nil].
  intros Hin%target_choices_spec. done.
Qed.

Lemma message_choice (view : DecisionView) (label text : string) (agent : AgentId) (asks : bool) : (label, text, agent, asks) ∈ message_choices view ->
  dv_messaging view = true /\ (String.length (input (dv_spec view)) <= MAX_MESSAGE_BYTES)%nat /\
  starts_task view AGENT_MESSAGE = true /\ agent <> agent_id (dv_spec view) /\
  (exists target : DelegateTarget, target ∈ dv_agents view /\ target_agent_id target = agent) /\
  exists rest, label = (if asks then ASK else TELL) +:+ rest.
Proof.
  unfold message_choices. destruct (dv_messaging view); [|by intros Hin%not_elem_of_nil].
  destruct (_ <? _)%nat eqn:El; [by intros Hin%not_elem_of_nil|]. destruct (starts_task _ _) eqn:Es; [|by intros Hin%not_elem_of_nil].
  cbn [negb orb]. bool_to_prop. rewrite elem_of_app, !list_elem_of_fmap.
  intros [([[l t] a] & [= -> -> -> ->] & Hin)|([[l t] a] & [= -> -> -> ->] & Hin)]; apply target_choices_spec in Hin as (H1 & H2 & H3); by split_and!.
Qed.

(** The labels it is offered. *)
Lemma offered_label view choice : existsb (fun '(label, _) => bool_decide (label = choice)) (jev_choices view) = true ->
  choice = COMPLETE \/ dv_steps_exhausted view = false /\
    ((exists tool, tool ∈ dv_tools view /\ offered tool = true /\ tool_name tool = choice) \/
     (exists text agent, (choice, text, agent) ∈ delegate_choices view) \/
     (exists text agent asks, (choice, text, agent, asks) ∈ message_choices view) \/
     choice = ASK_USER /\ asks_user view = true \/
     choice = MODEL /\ dv_model_calls_exhausted view = false).
Proof.
  intros ([l t] & Hin%list_elem_of_In & E)%existsb_exists. bool_to_prop. subst l. unfold jev_choices in Hin.
  destruct (dv_steps_exhausted view); [apply list_elem_of_singleton in Hin as [= -> _]; by left|].
  rewrite !elem_of_app in Hin. destruct Hin as [Hin|[Hin|[Hin|[Hin|[Hin|Hin]]]]].
  - apply list_elem_of_fmap in Hin as (tool & [= -> ->] & Hin). rewrite list_elem_of_In, List.filter_In, <-list_elem_of_In in Hin.
    right. split; [done|]. left. exists tool. naive_solver.
  - apply list_elem_of_fmap in Hin as ([[l d] a] & [= -> _] & Hin). right. split; [done|]. right. left. eauto.
  - apply list_elem_of_fmap in Hin as ([[[l d] a] b] & [= -> _] & Hin). right. split; [done|]. do 2 right. left. eauto.
  - destruct (asks_user view); [|by apply not_elem_of_nil in Hin]. apply list_elem_of_singleton in Hin as [= -> _]. naive_solver.
  - destruct (dv_model_calls_exhausted view); [by apply not_elem_of_nil in Hin|]. apply list_elem_of_singleton in Hin as [= -> _]. naive_solver.
  - apply list_elem_of_singleton in Hin as [= -> _]. by left.
Qed.

(** What [starts_task] asked for is what the authorizer asks for. *)
Lemma delegate_allowed spec agent inp tools : holds spec AGENT_DELEGATE -> below_hop_cap spec ->
  authorize spec (EDelegate agent inp) tools = Allow.
Proof. intros. apply authorize_permitted. by constructor. Qed.

Lemma message_allowed spec to body asks tools : holds spec AGENT_MESSAGE -> below_hop_cap spec ->
  (String.length body <= MAX_MESSAGE_BYTES)%nat ->
  authorize spec (ESendMessage to body asks None (if asks then Some JEV_ASK_TIMEOUT_SECS else None)) tools = Allow.
Proof.
  intros. apply authorize_permitted. constructor; try done. intros t Ht. destruct asks; [|done]. injection Ht as <-.
  split; [done|]. unfold JEV_ASK_TIMEOUT_SECS, MAX_ASK_TIMEOUT_SECS. lia.
Qed.

Section Decided.
Context {W : Type} (payload_json : EventPayload -> Value) (harness_json : HarnessState -> Value)
  (new_invocation : W -> InvocationId * W)
  (system_one : Value -> list (string * option string) -> W -> result (result string string) string * W).
Context (d : Driver W) (tools : list ToolDescriptor) (skills : list Skill).
Let view := decision_view d tools skills.
Hypothesis (Hmax : (max_steps (limits (d_spec d)) <= u32_max)%N).
Hypothesis (Hrun : exists step attempt, harness (state d) = Running step attempt false).

Lemma delegates_well text agent choice : (choice, text, agent) ∈ delegate_choices view ->
  can_be_done d tools (EDelegate agent (input (d_spec d))).
Proof.
  intros (Hs & Hne & Ht & _)%delegate_choice. pose proof (starts_task_spec _ _ Hs) as (_ & Hh & Hb & _).
  cbv beta iota zeta delta [can_be_done]. split_and!; [done|done|done| |by apply delegate_allowed|by destruct Hrun as (? & ? & ->)].
  intros e1 e2 H1 H2. exact (carve_after W d view (EDelegate agent (input (d_spec d))) e1 e2 _ eq_refl eq_refl Hmax Hs I H1 H2).
Qed.

Lemma messages_well text agent asks choice : (choice, text, agent, asks) ∈ message_choices view ->
  can_be_done d tools
    (ESendMessage agent (input (d_spec d)) asks None (if asks then Some JEV_ASK_TIMEOUT_SECS else None)).
Proof.
  intros (Hm & Hl & Hs & Hne & Ht & _)%message_choice. pose proof (starts_task_spec _ _ Hs) as (_ & Hh & Hb & _).
  cbv beta iota zeta delta [can_be_done]. split_and!; [done|done| |done|done| |by apply message_allowed|].
  - cbn in Hm. by bool_to_prop.
  - intros e1 e2 H1 H2. exact (carve_after W d view (ESendMessage _ _ _ _ _) e1 e2 _ eq_refl eq_refl Hmax Hs I H1 H2).
  - destruct Hrun as (? & ? & ->). by destruct asks.
Qed.

Lemma asks_well : asks_user view = true -> can_be_done d tools (EAskUser (question view)).
Proof.
  unfold asks_user. intros Ha. rewrite !andb_true_iff in Ha. destruct Ha as [[Hq Hh] Hr].
  cbv beta iota zeta delta [can_be_done]. split_and!; [done| |by destruct Hrun as (? & ? & ->)]. intros Hb. apply authorize_permitted. constructor; [|done|apply question_short].
  by apply holds_existsb in Hh.
Qed.
(** A choice that is not exhausted is within the budget. *)
Lemma within_budget eff : dv_steps_exhausted view = false ->
  (match eff with EModelCall _ => dv_model_calls_exhausted view = false | _ => True end) ->
  over_budget (d_spec d) (state d) eff = false.
Proof.
  cbn. intros Hs Hm. destruct eff; cbn; try done; [by rewrite Hs, Hm|by destruct Hrun as (? & ? & ->)].
Qed.

Lemma chosen_well choice w eff w' :
  existsb (fun '(label, _) => bool_decide (label = choice)) (jev_choices view) = true ->
  chosen_effect new_invocation view choice w = (eff, w') ->
  over_budget (d_spec d) (state d) eff = false /\ can_be_done d tools eff.
Proof.
  intros Hl%offered_label. unfold chosen_effect.
  destruct (List.find _ (delegate_choices view)) as [[[l t] a]|] eqn:Ed.
  { apply find_Some_in in Ed as [Hin E]. bool_to_prop. subst l. intros [= <- _].
    split; [|by eapply delegates_well]. apply delegate_choice in Hin as (_ & _ & _ & rest & ->).
    destruct Hl as [Hl|[Hs _]]; [done|by apply within_budget]. }
  destruct (List.find _ (message_choices view)) as [[[[l t] a] asks]|] eqn:Em.
  { apply find_Some_in in Em as [Hin E]. bool_to_prop. subst l. intros [= <- _].
    split; [|by eapply messages_well]. apply message_choice in Hin as (_ & _ & _ & _ & _ & rest & ->).
    destruct Hl as [Hl|[Hs _]]; [by destruct asks|by apply within_budget]. }
  case_bool_decide as Eu; [|case_bool_decide as Emo; [|case_bool_decide as Ec]].
  - subst choice. intros [= <- _]. destruct Hl as [Hl|[Hs Hl]]; [done|]. split; [by apply within_budget|]. apply asks_well.
    destruct Hl as [(tool & _ & Ho & En)|[(x & y & Hin)|[(x & y & z & Hin)|[[_ Ha]|[Hm _]]]]]; try done.
    + unfold offered in Ho. by rewrite En in Ho.
    + by apply delegate_choice in Hin as (_ & _ & _ & rest & E).
    + apply message_choice in Hin as (_ & _ & _ & _ & _ & rest & E). by destruct z.
  - subst choice. intros [= <- _]. destruct Hl as [Hl|[Hs Hl]]; [done|]. split; [|done]. apply within_budget; [done|].
    destruct Hl as [(tool & _ & Ho & En)|[(x & y & Hin)|[(x & y & z & Hin)|[[Ha _]|[_ Hm]]]]]; try done.
    + unfold offered in Ho. by rewrite En in Ho.
    + by apply delegate_choice in Hin as (_ & _ & _ & rest & E).
    + apply message_choice in Hin as (_ & _ & _ & _ & _ & rest & E). by destruct z.
  - subst choice. intros [= <- _]. split; [|done]. cbn. by destruct Hrun as (? & ? & ->).
  - destruct (new_invocation w) as [i w1]. intros [= <- _]. destruct Hl as [Hl|[Hs Hl]]; [done|]. split; [by apply within_budget|].
    destruct Hl as [(tool & Hin & _ & <-)|[(x & y & Hin)|[(x & y & z & Hin)|[[Ha _]|[Hm _]]]]]; try done.
    + split; [done|]. by apply list_elem_of_fmap_2.
    + apply list_elem_of_In in Hin. by apply (find_none _ _ Ed), bool_decide_eq_false in Hin.
    + apply list_elem_of_In in Hin. by apply (find_none _ _ Em), bool_decide_eq_false in Hin.
Qed.

(** C34. Whatever Jev answers, at a step of a running driver that is not answered yet, an effect it decides is within
    the run's budget, so that no run ends for what Jev chose, and can be done: it names a tool that is there; a
    delegation or a message goes to another agent that is offered, is authorized and applicable, carries the run's
    input, and leaves, once it is recorded, at least one step and one model call to give; a question is put only
    where it can be answered, and is authorized unless it is blank. *)
Theorem jev_decides_what_can_be_done w eff w' :
  jev_decide payload_json harness_json new_invocation system_one view w = (Ok eff, w') ->
  over_budget (d_spec d) (state d) eff = false /\ can_be_done d tools eff.
Proof.
  unfold jev_decide. destruct (system_one _ _ _) as [[[choice|e]|e] w1]; try done.
  destruct (existsb _ _) eqn:Ex; [|done]. cbn [negb]. destruct (chosen_effect _ _ _ _) as [e w2] eqn:Ec. intros [= <- _].
  by eapply chosen_well.
Qed.
End Decided.

(** ** Labels *)

(** What kind of choice a label is of. *)
Definition label_kind (label : string) : nat :=
  if starts_with DELEGATE label then 1 else if starts_with TELL label then 2 else if starts_with ASK label then 3
  else if bool_decide (label = ASK_USER) then 4 else if bool_decide (label = MODEL) then 5
  else if bool_decide (label = COMPLETE) then 6 else 0.

Lemma kind_delegate rest : label_kind (DELEGATE +:+ rest) = 1.
Proof. reflexivity. Qed.

Lemma kind_tell rest : label_kind (TELL +:+ rest) = 2.
Proof. reflexivity. Qed.

Lemma kind_ask rest : label_kind (ASK +:+ rest) = 3.
Proof. reflexivity. Qed.

Lemma kind_tool tool : offered tool = true -> label_kind (tool_name tool) = 0.
Proof.
  unfold offered, label_kind. cbn [existsb]. rewrite !orb_false_r. destruct (starts_with DELEGATE _); [by rewrite andb_false_r|].
  destruct (starts_with TELL _); [by rewrite andb_false_r|]. destruct (starts_with ASK _); [by rewrite andb_false_r|].
  by repeat case_bool_decide.
Qed.

(** Lists of different kinds, one after the other. *)
Lemma NoDup_kinds n (l k : list string) : NoDup l -> NoDup k ->
  Forall (fun label => label_kind label <= n) l -> Forall (fun label => n < label_kind label) k -> NoDup (l ++ k).
Proof.
  intros Hl Hk Fl Fk. apply NoDup_app. split_and!; [done| |done]. intros x Hx Hy.
  rewrite Forall_forall in Fl, Fk. specialize (Fl x Hx). specialize (Fk x Hy). lia.
Qed.

Lemma target_labels view prefix describe n : (forall rest, label_kind (prefix +:+ rest) = n) ->
  let labels := (fun choice => choice.1.1) <$> target_choices view prefix describe in
  NoDup labels /\ Forall (fun label => label_kind label = n) labels.
Proof.
  intros Hk labels. split; [apply target_choices_nodup|]. apply Forall_fmap, Forall_forall. intros [[l t] a] Hin.
  apply target_choices_spec in Hin as (_ & _ & rest & ->). apply Hk.
Qed.

Lemma delegate_labels view :
  ((fun '(label, description, _) => (label, Some description)) <$> delegate_choices view).*1 =
    (fun choice => choice.1.1) <$> delegate_choices view.
Proof. rewrite <-list_fmap_compose. apply list_fmap_ext. by intros ? [[] ?] _. Qed.

Lemma message_labels view :
  ((fun '(label, description, _, _) => (label, Some description)) <$> message_choices view).*1 =
    (fun choice => choice.1.1.1) <$> message_choices view.
Proof. rewrite <-list_fmap_compose. apply list_fmap_ext. by intros ? [[[] ?] ?] _. Qed.

Lemma delegates_nodup view :
  let labels := (fun choice => choice.1.1) <$> delegate_choices view in
  NoDup labels /\ Forall (fun label => label_kind label = 1) labels.
Proof.
  unfold delegate_choices. destruct (negb _); [by split; [constructor|]|]. apply target_labels, kind_delegate.
Qed.

Lemma messages_nodup view :
  let labels := (fun choice => choice.1.1.1) <$> message_choices view in
  NoDup labels /\ Forall (fun label => 2 <= label_kind label <= 3) labels.
Proof.
  unfold message_choices. destruct (negb _ || _ || _); [by split; [constructor|]|]. cbn zeta.
  rewrite fmap_app, <-!list_fmap_compose.
  edestruct (target_labels view TELL) as [Nt Kt]; [apply kind_tell|]. edestruct (target_labels view ASK) as [Na Ka]; [apply kind_ask|].
  assert (forall n m (l : list string), Forall (fun label => label_kind label = n) l -> m <= n <= 3 ->
    Forall (fun label => m <= label_kind label <= 3) l) as Hkind by (intros n m l Hl Hn; eapply Forall_impl; [exact Hl|]; intros x Hx; cbn in *; lia).
  split; [apply (NoDup_kinds 2); [exact Nt|exact Na| |]|apply Forall_app; split].
  - eapply Forall_impl; [exact Kt|]. cbn. lia.
  - eapply Forall_impl; [exact Ka|]. cbn. lia.
  - by apply (Hkind 2); [exact Kt|lia].
  - by apply (Hkind 3); [exact Ka|lia].
Qed.

Lemma tools_nodup tools : NoDup (tool_name <$> tools) ->
  let labels := tool_name <$> List.filter offered tools in
  NoDup labels /\ Forall (fun label => label_kind label = 0) labels.
Proof.
  intros Hn labels. split.
  - eapply sublist_NoDup; [exact Hn|]. apply fmap_sublist. clear. induction tools as [|t tools IH]; cbn; [done|].
    destruct (offered t); [by apply sublist_skip|by apply sublist_cons].
  - apply Forall_fmap, Forall_forall. intros t Hin. rewrite list_elem_of_In, List.filter_In in Hin. apply kind_tool, Hin.
Qed.

(** No label is offered twice: with tools that have names of their own, the labels of Jev's choices are
    different from one another, so that its answer names one effect, whatever the names and the ids of the agents and
    however the tools are named. *)
Theorem jev_labels_are_unique view : NoDup (tool_name <$> dv_tools view) -> NoDup (jev_choices view).*1.
Proof.
  intros Hn. unfold jev_choices. destruct (dv_steps_exhausted view); [apply NoDup_singleton|].
  rewrite !fmap_app, delegate_labels, message_labels, <-list_fmap_compose.
  destruct (tools_nodup _ Hn) as [Nt Kt], (delegates_nodup view) as [Nd Kd], (messages_nodup view) as [Nm Km].
  set (rest := (if asks_user view then _ else _).*1 ++ _).
  assert (NoDup rest /\ Forall (fun label => 3 < label_kind label) rest) as [Nr Kr].
  { subst rest. clear. destruct (asks_user view), (dv_model_calls_exhausted view); cbn; split;
      repeat constructor; try (vm_compute; lia); set_solver. }
  apply (NoDup_kinds 0); [exact Nt| | |].
  - apply (NoDup_kinds 1); [exact Nd| | |].
    + apply (NoDup_kinds 3); [exact Nm|exact Nr| |exact Kr]. eapply Forall_impl; [exact Km|]. cbn. lia.
    + eapply Forall_impl; [exact Kd|]. cbn. lia.
    + apply Forall_app. split; [eapply Forall_impl; [exact Km|]|eapply Forall_impl; [exact Kr|]]; cbn; lia.
  - eapply Forall_impl; [exact Kt|]. cbn. lia.
  - apply Forall_app. split; [|apply Forall_app; split];
      [eapply Forall_impl; [exact Kd|]|eapply Forall_impl; [exact Km|]|eapply Forall_impl; [exact Kr|]]; cbn; lia.
Qed.

(** ** What it is told *)

(** A text of an event is told as it is, or its first characters and how many
    more there are. *)
Lemma capped_text_bounded s :
  capped_text s = s /\ chars_count s <= MAX_EVENT_TEXT \/
  exists kept, capped_text s = kept +:+ "… [truncated " +:+ pretty (chars_count s - MAX_EVENT_TEXT) +:+ " chars]" /\
    chars_count kept <= MAX_EVENT_TEXT.
Proof.
  unfold capped_text. destruct (chars_count s <=? MAX_EVENT_TEXT) eqn:E; [left|right]; bool_to_prop; [done|].
  eexists. split; [done|]. apply take_chars_count.
Qed.

End Choices.

(** ** At concrete inputs *)

Definition demo_spec : RunSpec := with_caps [AGENT_DELEGATE; AGENT_MESSAGE; USER_ASK; MODEL_CALL] sample_spec.

(** Two agents with one name and the head of one id, one of its own, and the
    run's own. *)
Definition demo_targets : list DelegateTarget :=
  [mkDelegateTarget (id_of 7) "writer" "Writes."; mkDelegateTarget (id_of 8) "twin" ""; mkDelegateTarget (id_of 9) "twin" "";
   mkDelegateTarget (agent_id demo_spec) "self" ""].

Definition demo_driver : Driver unit :=
  with_user_questions (with_deliverer
    (with_spawner (driver_new demo_spec [sample_event RunStarted]) (fun _ w => (Err "full"%string, w)) demo_targets)
    (fun _ w => (Err "full"%string, w))).

Definition demo_tool (name : string) : ToolDescriptor := mkToolDescriptor (id_of 20) name "" "" "" (mkCapability MODEL_CALL).

Definition demo_tools : list ToolDescriptor := [demo_tool "echo"; demo_tool "model"; demo_tool "ask:writer"].

Definition demo_jev (choice : string) : Decider unit :=
  jev_decide (H := hyphenated) (fun _ => JNull) (fun _ => JNull) (fun w => (id_of 30, w)) (fun _ _ w => (Ok (Ok choice), w)).

Lemma jev_labels_are_unique_witness :
  (jev_choices (H := hyphenated) (decision_view demo_driver demo_tools [])).*1 =
    ["echo"; "delegate:writer"; "tell:writer"; "ask:writer"; "ask_user"; "model"; "complete"]%string /\
  NoDup (jev_choices (H := hyphenated) (decision_view demo_driver demo_tools [])).*1.
Proof.
  split; [vm_compute; reflexivity|].
  apply (jev_labels_are_unique (H := hyphenated) (decision_view demo_driver demo_tools [])).
  apply (bool_decide_unpack _). vm_compute. exact I.
Defined.

(** A delegation, and an answer that names no choice. *)
Lemma jev_decides_what_can_be_done_witness :
  (demo_jev "delegate:twin" (decision_view demo_driver demo_tools []) tt).1 =
    Err (mkDeciderError "unknown effect choice: delegate:twin") /\
  can_be_done (H := hyphenated) demo_driver demo_tools (EDelegate (id_of 7) "hello").
Proof.
  split; [vm_compute; reflexivity|].
  refine (proj2 (jev_decides_what_can_be_done (H := hyphenated) (fun _ => JNull) (fun _ => JNull) (fun w => (id_of 30, w))
    (fun _ _ w => (Ok (Ok "delegate:writer"%string), w)) demo_driver demo_tools [] _ _ tt _ tt _)).
  - vm_compute. discriminate.
  - exists 1%N, 0%N. vm_compute. reflexivity.
  - vm_compute. reflexivity.
Defined.
