(* ===== verification/Scripts.v ===== *)
(** * The decisions a script may build ([workflow-js], [workflow-rhai])

    What both script front ends promise of a program they compile: its size,
    its names and its inputs.  [decisions] counts what a program is made of,
    and [built_within] says it keeps the limits. *)

From S2P Require Import Prelude Workflow.

Definition MAX_DECISIONS : nat := 1024.

Definition MAX_NAME_BYTES : nat := 128.

Definition MAX_INPUT_BYTES : nat := (64 * 1024)%nat.

Definition valid_name (name : string) : bool :=
  negb (bool_decide (name = "")) && (String.length name <=? MAX_NAME_BYTES)%nat.

(** How many decisions one is made of, with itself. *)
Fixpoint decisions (d : WorkDecision) : nat :=
  match d with
  | DSeq items => S (sum_list (decisions <$> items))
  | DOnCounter missing zero other => S (decisions missing + decisions zero + decisions other)
  | _ => 1
  end.

(** Names are there and short, inputs are bounded, and no sequence is empty. *)
Fixpoint built_within (d : WorkDecision) : bool :=
  match d with
  | DTool name input | DSpawnAgent name input => valid_name name && (String.length input <=? MAX_INPUT_BYTES)%nat
  | DSeq items => negb (bool_decide (length items = 0)) && forallb built_within items
  | DOnCounter missing zero other => built_within missing && built_within zero && built_within other
  | DComplete | DFail => true
  end.

(** ** Slots

    A front end keeps the decisions made in slots, emptied as they are
    used. *)

Definition kept (slots : list (option WorkDecision)) : list WorkDecision := omap id slots.

Lemma kept_app k l : kept (k ++ l) = kept k ++ kept l.
Proof. apply omap_app. Qed.

(** Taking a decision out of its slot. *)
Lemma kept_take slots n d : slots !! n = Some (Some d) ->
  kept slots ≡ₚ d :: kept (<[n := None]> slots) /\ length (<[n := None]> slots) = length slots.
Proof.
  intros Hn. split; [|apply length_insert]. revert n Hn. induction slots as [|s slots IH]; intros [|n] Hn; try done; cbn in *.
  - by injection Hn as ->.
  - specialize (IH n Hn). unfold kept in *. destruct s as [e|]; cbn; [|done]. rewrite IH. apply Permutation_swap.
Qed.

Definition total (l : list WorkDecision) : nat := sum_list (decisions <$> l).

Lemma total_perm k l : k ≡ₚ l -> total k = total l.
Proof. intros E. unfold total. by rewrite E. Qed.

Lemma total_app k l : total (k ++ l) = (total k + total l)%nat.
Proof. unfold total. rewrite fmap_app. induction (decisions <$> k); cbn in *; lia. Qed.

(** The slots [s], with [taken] in hand. *)
Definition in_hand (taken : list WorkDecision) (s s' : list (option WorkDecision)) : Prop :=
  kept s ≡ₚ taken ++ kept s' /\ length s' = length s.

Lemma in_hand_nothing s : in_hand [] s s.
Proof. by split. Qed.

Lemma in_hand_app l k s s1 s2 : in_hand l s s1 -> in_hand k s1 s2 -> in_hand (l ++ k) s s2.
Proof. intros [P1 L1] [P2 L2]. split; [by rewrite P1, P2, app_assoc|congruence]. Qed.

Lemma in_hand_take s n d : s !! n = Some (Some d) -> in_hand [d] s (<[n := None]> s).
Proof. apply kept_take. Qed.

(** All slots together hold as many decisions as were made, within the
    limits. *)
Record clean_slots (s : list (option WorkDecision)) : Prop := mkCleanSlots {
  cs_total : total (kept s) = length s;
  cs_most : length s <= MAX_DECISIONS;
  cs_within : Forall (fun d => built_within d = true) (kept s);
}.

Lemma clean_none : clean_slots [].
Proof. split; cbn; [done|lia|constructor]. Qed.

(** A decision made of what was in hand. *)
Lemma make_clean_slots taken d s s1 : clean_slots s -> in_hand taken s s1 -> decisions d = S (total taken) ->
  (Forall (fun x => built_within x = true) taken -> built_within d = true) -> length s1 < MAX_DECISIONS ->
  clean_slots (s1 ++ [Some d]).
Proof.
  intros [Ht Hm Hw] [P L] Hd Hwithin Hlt. rewrite (total_perm _ _ P), total_app in Ht. rewrite P in Hw.
  apply Forall_app in Hw as [Hw1 Hw2]. split.
  - rewrite kept_app, total_app, length_app. change (total (kept [Some d])) with (decisions d + 0)%nat. cbn [length]. lia.
  - rewrite length_app. cbn. lia.
  - rewrite kept_app. apply Forall_app. split; [done|]. cbn. auto.
Qed.

(** The one program left is all that was made. *)
Lemma clean_root s root : clean_slots s -> kept s = [root] ->
  decisions root = length s /\ (decisions root <= MAX_DECISIONS)%nat /\ built_within root = true.
Proof.
  intros [Ht Hm Hw] Hk. rewrite Hk in Ht, Hw. apply Forall_cons in Hw as [Hw _]. unfold total in Ht. cbn in Ht.
  split_and!; [lia|lia|done].
Qed.

(** ** The slots a program leaves *)

Lemma decisions_pos d : 1 <= decisions d.
Proof. destruct d; cbn; lia. Qed.

(** Those of [d], and those of several. *)
Definition slots_of (d : WorkDecision) : list (option WorkDecision) := replicate (decisions d - 1) None ++ [Some d].

Definition slots (ds : list WorkDecision) : list (option WorkDecision) := ds ≫= slots_of.

Lemma slots_of_length d : length (slots_of d) = decisions d.
Proof. pose proof (decisions_pos d). unfold slots_of. rewrite length_app, length_replicate. cbn. lia. Qed.

Lemma slots_length ds : length (slots ds) = total ds.
Proof.
  induction ds as [|d ds IH]; [done|]. change (slots (d :: ds)) with (slots_of d ++ slots ds).
  rewrite length_app, slots_of_length, IH. done.
Qed.

Lemma replicate_slots d n pre : decisions d = S n -> (pre ++ replicate n None) ++ [Some d] = pre ++ slots_of d.
Proof. intros E. unfold slots_of. rewrite E. replace (S n - 1)%nat with n by lia. by rewrite app_assoc. Qed.

Lemma kept_slots_of d : kept (slots_of d) = [d].
Proof.
  unfold slots_of. rewrite kept_app. assert (forall n, kept (replicate n None) = []) as -> by (intros n; by induction n). done.
Qed.

(** Taking the first of several out of its slot. *)
Lemma slots_take d ds pre : let i := (length pre + decisions d - 1)%nat in
  (pre ++ slots (d :: ds)) !! i = Some (Some d) /\
  <[i := None]> (pre ++ slots (d :: ds)) = (pre ++ replicate (decisions d) None) ++ slots ds.
Proof.
  intros i. pose proof (decisions_pos d) as Hpos. set (k := replicate (decisions d - 1) (None : option WorkDecision)).
  assert (length (pre ++ k) = i) as Hlen by (subst k i; rewrite length_app, length_replicate; lia).
  assert (pre ++ slots (d :: ds) = (pre ++ k) ++ Some d :: slots ds) as ->
    by (change (slots (d :: ds)) with (slots_of d ++ slots ds); unfold slots_of; fold k; by rewrite <-!app_assoc).
  rewrite <-Hlen, list_lookup_middle by done. rewrite insert_app_r_alt, Nat.sub_diag by done. split; [done|]. cbn [insert list_insert].
  replace (decisions d) with (decisions d - 1 + 1)%nat by lia. rewrite replicate_add. cbn. by rewrite <-!app_assoc.
Qed.
