(* ===== verification/Rhai.v ===== *)
(** * Workflows written in Rhai ([workflow-rhai/lib.rs])

    A script builds a program by calling the builtins; the builder keeps what
    they made.  The engine is outside of the model: a script is the calls it
    makes, each with the arguments the engine passes, whatever it does with
    their answers, and how its run ended.  [None] is a panic.

    The theorems: a script that compiles misused no builtin, and its program
    is all it made, each decision once, within the limits
    ([rhai_program_is_what_was_made]); every program within them can be
    written ([rhai_writes_every_program]); and no script makes the builder
    panic ([rhai_never_panics]). *)

From S2P Require Import Prelude Workflow Scripts.

Inductive FrontendError := Script (message : string) | InvalidProgram (message : string).

(** [slots[n]] is [None] once another decision consumed it. *)
Record Builder : Type := mkBuilder { nodes : list (option WorkDecision); fault : option string }.

Definition new_builder : Builder := mkBuilder [] None.

(** The limits set on the engine. *)
Definition MAX_OPERATIONS : N := 100000.
Definition MAX_CALL_LEVELS : nat := 32.
Definition MAX_EXPR_DEPTH : nat := 64.
Definition MAX_FUNCTION_EXPR_DEPTH : nat := 32.
Definition MAX_STRING_SIZE : nat := 64 * 1024.
Definition MAX_COLLECTION_SIZE : nat := 1024.

(** ** The builder *)

(** What may fail and changes the builder. *)
Definition M (A : Type) : Type := Builder -> option (result A string * Builder).

Definition ret {A} (a : A) : M A := fun b => Some (Ok a, b).

Definition bind {A B} (m : M A) (f : A -> M B) : M B := fun b =>
  match m b with
  | Some (Ok a, b) => f a b
  | Some (Err e, b) => Some (Err e, b)
  | None => None
  end.

Notation "x <-? m ; k" := (bind m (fun x => k)) (at level 60, m at next level, right associativity).

(** [fault]: the first is kept. *)
Definition record_fault {A} (message : string) : M A := fun b =>
  Some (Err message, mkBuilder (nodes b) (Some (default message (fault b)))).

Definition make (d : WorkDecision) : M nat := fun b =>
  if (MAX_DECISIONS <=? length (nodes b))%nat then record_fault "too many decisions" b
  else Some (Ok (length (nodes b)), mkBuilder (nodes b ++ [Some d]) (fault b)).

Definition take_node (n : nat) : M WorkDecision := fun b =>
  match nodes b !! n with
  | None => None
  | Some (Some d) => Some (Ok d, mkBuilder (<[n := None]> (nodes b)) (fault b))
  | Some None => record_fault "decision used twice" b
  end.

(** ** The builtins *)

(** A value of the engine, as the builtins tell them apart. *)
#[warnings="-register-all"]
Inductive Dynamic := DNode (n : nat) | DText (s : string) | DArray (items : list Dynamic) | DOther.

Definition BUILTINS : list string := ["on_counter"; "tool"; "spawn_agent"; "seq"; "complete"; "fail"].

Definition TOOL_NAME : string := "tool name must be 1 to 128 bytes".
Definition AGENT_NAME : string := "agent name must be 1 to 128 bytes".
Definition SEQ_EMPTY : string := "seq takes at least one decision".
Definition SEQ_ITEMS : string := "seq takes an array of decisions".

Definition make_tool (name inp : string) : M nat :=
  if negb (valid_name name) then record_fault TOOL_NAME else make (DTool name inp).

Definition on_counter (missing zero other : nat) : M nat :=
  missing <-? take_node missing; zero <-? take_node zero; other <-? take_node other;
  make (DOnCounter missing zero other).

Definition spawn_agent (agent inp : string) : M nat :=
  if negb (valid_name agent) then record_fault AGENT_NAME else make (DSpawnAgent agent inp).

Fixpoint take_items (items : list Dynamic) : M (list WorkDecision) :=
  match items with
  | [] => ret []
  | DNode n :: items => d <-? take_node n; ds <-? take_items items; ret (d :: ds)
  | _ => record_fault SEQ_ITEMS
  end.

Definition make_seq (items : list Dynamic) : M nat :=
  if bool_decide (length items = 0) then record_fault SEQ_EMPTY
  else ds <-? take_items items; make (DSeq ds).

Definition is_node (v : Dynamic) : bool := match v with DNode _ => true | _ => false end.

Definition has_overload (name : string) (args : list Dynamic) : bool :=
  match name, args with
  | "on_counter", [missing; zero; other] => is_node missing && is_node zero && is_node other
  | "tool", [DText _] => true
  | "tool", [DText _; DText _] | "spawn_agent", [DText _; DText _] => true
  | "seq", [DArray _] => true
  | "complete", [] | "fail", [] => true
  | _, _ => false
  end%string.

(** The hook, and the engine's own error. *)
Definition missing_function (name : string) (args : list Dynamic) : M nat := fun b =>
  if bool_decide (name ∈ BUILTINS) && negb (has_overload name args) then
    record_fault (name +:+ " called with the wrong arguments") b
  else Some (Err ("Function not found: " +:+ name), b).

(** [register]: what is registered under each name, by the arguments it
    takes. *)
Definition overloads : list (string * (list Dynamic -> option (M nat))) :=
  [("on_counter", fun args =>
      match args with [DNode missing; DNode zero; DNode other] => Some (on_counter missing zero other) | _ => None end);
   ("tool", fun args => match args with [DText name] => Some (make_tool name "") | _ => None end);
   ("tool", fun args => match args with [DText name; DText inp] => Some (make_tool name inp) | _ => None end);
   ("spawn_agent", fun args => match args with [DText agent; DText inp] => Some (spawn_agent agent inp) | _ => None end);
   ("seq", fun args => match args with [DArray items] => Some (make_seq items) | _ => None end);
   ("complete", fun args => match args with [] => Some (make DComplete) | _ => None end);
   ("fail", fun args => match args with [] => Some (make DFail) | _ => None end)]%string.

(** What the engine does with a call: the overload that takes the arguments,
    or the hook. *)
Definition call (name : string) (args : list Dynamic) : M nat :=
  match find_map (fun '(n, overload) => if bool_decide (n = name) then overload args else None) overloads with
  | Some body => body
  | None => missing_function name args
  end.

(** The calls of a script, one after the other; each is answered, and the
    script goes on. *)
Fixpoint run_calls (calls : list (string * list Dynamic)) (b : Builder) : option (list (result nat string) * Builder) :=
  match calls with
  | [] => Some ([], b)
  | (name, args) :: calls =>
      '(r, b) ← call name args b; '(rs, b) ← run_calls calls b; Some (r :: rs, b)
  end.

(** [compile], of a script's calls and how it ended. *)
Definition compile (calls : list (string * list Dynamic)) (evaluated : result unit string)
    : option (result WorkflowProgram FrontendError) :=
  '(_, b) ← run_calls calls new_builder;
  Some
    match fault b, evaluated with
    | Some message, _ => Err (InvalidProgram message)
    | None, Err error => Err (Script error)
    | None, Ok _ =>
        match kept (nodes b) with
        | [root] => Ok root
        | _ => Err (InvalidProgram "script must record one decision")
        end
    end.

(** ** What fails leaves a fault *)

Definition faulted (b : Builder) : Prop := is_Some (fault b).

(** A fault stays; a failure leaves one. *)
Record sound {A} (m : M A) : Prop := mkSound {
  keeps_fault b r b' : m b = Some (r, b') -> faulted b -> faulted b';
  failure_faults b e b' : m b = Some (Err e, b') -> faulted b';
}.

Lemma sound_ret {A} (a : A) : sound (ret a).
Proof. split; intros b r b'; [by intros [= <- <-]|done]. Qed.

Lemma sound_fault {A} message : sound (record_fault message : M A).
Proof. split; [intros b r b' [= <- <-] _|intros b r b' [= <- <-]]; by eexists. Qed.

Lemma sound_bind {A B} (m : M A) (f : A -> M B) : sound m -> (forall a, sound (f a)) -> sound (bind m f).
Proof.
  intros [Hk He] Hf. unfold bind. split.
  - intros b r b'. destruct (m b) as [[[a|e] b1]|] eqn:Em; [| |done].
    + intros Hr Hb. eapply (keeps_fault _ (Hf a)), Hk; done.
    + intros [= <- <-]. by apply (Hk _ _ _ Em).
  - intros b r b'. destruct (m b) as [[[a|e] b1]|] eqn:Em; [| |done].
    + apply (failure_faults _ (Hf a)).
    + intros [= <- <-]. by apply (He _ _ _ Em).
Qed.

Lemma sound_make d : sound (make d).
Proof.
  unfold make. split; intros b r b'; (destruct (_ <=? _); [|]).
  - apply keeps_fault, sound_fault.
  - by intros [= <- <-].
  - apply failure_faults, sound_fault.
  - done.
Qed.

Lemma sound_take n : sound (take_node n).
Proof.
  unfold take_node. split; intros b r b'; (destruct (nodes b !! n) as [[d|]|]; [| |done]).
  - by intros [= <- <-].
  - apply keeps_fault, sound_fault.
  - done.
  - apply failure_faults, sound_fault.
Qed.

Create HintDb rhai.
#[local] Hint Resolve sound_ret sound_fault sound_make sound_take : rhai.

Lemma sound_items items : sound (take_items items).
Proof.
  induction items as [|[n|s|l|] items IH]; cbn; auto with rhai.
  apply sound_bind; [auto with rhai|]. intros d. apply sound_bind; auto with rhai.
Qed.

#[local] Hint Resolve sound_items : rhai.

Lemma sound_on_counter m z o : sound (on_counter m z o).
Proof. unfold on_counter. repeat (apply sound_bind; [auto with rhai|intros ?]). auto with rhai. Qed.

Lemma sound_seq items : sound (make_seq items).
Proof. unfold make_seq. case_bool_decide; [auto with rhai|]. apply sound_bind; auto with rhai. Qed.

Lemma sound_named test message d : sound (if negb test then record_fault message else make d).
Proof. destruct (negb test); auto with rhai. Qed.

(** ** What the builtins take *)

(** The builder, with [taken] in hand. *)
Definition holding (taken : list WorkDecision) (b b' : Builder) : Prop :=
  in_hand taken (nodes b) (nodes b') /\ fault b' = fault b.

Lemma rhai_holding_app l k b b1 b2 : holding l b b1 -> holding k b1 b2 -> holding (l ++ k) b b2.
Proof. intros [H1 F1] [H2 F2]. split; [by eapply in_hand_app|congruence]. Qed.

Lemma rhai_take_ok n b d b' : take_node n b = Some (Ok d, b') -> holding [d] b b'.
Proof.
  unfold take_node. destruct (nodes b !! n) as [[x|]|] eqn:En; [|done|done]. intros [= <- <-].
  split; [by apply in_hand_take|done].
Qed.

Lemma bind_ok {A B} (m : M A) (f : A -> M B) b r b' :
  bind m f b = Some (Ok r, b') -> exists a b1, m b = Some (Ok a, b1) /\ f a b1 = Some (Ok r, b').
Proof. unfold bind. destruct (m b) as [[[a|e] b1]|]; [|done|done]. eauto. Qed.

Lemma items_ok items b ds b' : take_items items b = Some (Ok ds, b') -> holding ds b b' /\ length ds = length items.
Proof.
  revert b ds. induction items as [|[n|s|l|] items IH]; intros b ds; cbn [take_items]; try done.
  - intros [= <- <-]. split; [split; [apply in_hand_nothing|done]|done].
  - intros (d & b1 & Hd & (ds1 & b2 & Hds & Hr)%bind_ok)%bind_ok. injection Hr as <- <-.
    apply rhai_take_ok in Hd. apply IH in Hds as [Hds Hl]. split; [by apply (rhai_holding_app [d] ds1 b b1 b2)|cbn; by f_equal].
Qed.

Definition clean (b : Builder) : Prop := fault b = None /\ clean_slots (nodes b).

(** A decision made of what was in hand. *)
Lemma make_clean taken d b b1 h b2 : clean b -> holding taken b b1 ->
  decisions d = S (total taken) ->
  (Forall (fun x => built_within x = true) taken -> built_within d = true) ->
  make d b1 = Some (Ok h, b2) ->
  clean b2 /\ length (nodes b2) = S (length (nodes b)) /\ h = length (nodes b).
Proof.
  intros [Hf Hc] [Hhand F] Hd Hwithin. unfold make. destruct (MAX_DECISIONS <=? _) eqn:E; [done|].
  bool_to_prop. intros [= <- <-]. pose proof Hhand as [_ L]. cbn [nodes]. rewrite length_app, L. cbn [length].
  split; [|split; [lia|done]]. split; cbn [nodes fault]; [congruence|]. by eapply make_clean_slots.
Qed.

Lemma rhai_holding_nothing b : holding [] b b.
Proof. split; [apply in_hand_nothing|done]. Qed.

(** ** A call *)

(** What the engine passes is within its limits. *)
Definition text_fits (v : Dynamic) : bool := match v with DText s => (String.length s <=? MAX_STRING_SIZE)%nat | _ => true end.

Definition fits (args : list Dynamic) : bool := forallb text_fits args.

Lemma sound_missing name args : name ∈ BUILTINS -> has_overload name args = false -> sound (missing_function name args).
Proof. intros Hn Ho. unfold missing_function. rewrite bool_decide_true, Ho by done. cbn. apply (sound_fault (A := nat)). Qed.

Lemma find_map_in {A B} (f : A -> option B) l y : find_map f l = Some y -> exists x, x ∈ l /\ f x = Some y.
Proof.
  induction l as [|x l IH]; cbn; [done|]. destruct (f x) eqn:Ef.
  - intros [= <-]. exists x. split; [by left|done].
  - intros (z & Hz & Hf)%IH. exists z. split; [by right|done].
Qed.

Lemma find_map_none {A B} (f : A -> option B) l x : find_map f l = None -> x ∈ l -> f x = None.
Proof.
  induction l as [|y l IH]; cbn; [by intros _ Hx%not_elem_of_nil|]. destruct (f y) eqn:Ef; [done|].
  intros Hn [->|Hx]%elem_of_cons; [done|by apply IH].
Qed.

(** Arguments that no overload takes are misuse. *)
Lemma no_overload name args : name ∈ BUILTINS ->
  find_map (fun '(n, overload) => if bool_decide (n = name) then overload args else None) overloads = None ->
  has_overload name args = false.
Proof.
  intros Hin Hn.
  assert (Forall (fun '(n, overload) => n = name -> overload args = None) overloads) as Hall.
  { apply Forall_forall. intros [n overload] Ho Heq. pose proof (find_map_none _ _ _ Hn Ho) as E. cbn in E. by rewrite bool_decide_true in E. }
  clear Hn. unfold overloads in Hall. rewrite !Forall_cons in Hall. destruct Hall as (H1 & H2 & H3 & H4 & H5 & H6 & H7 & _).
  unfold BUILTINS in Hin. rewrite !elem_of_cons in Hin.
  destruct Hin as [->|[->|[->|[->|[->|[->|Hin]]]]]]; [..|by apply not_elem_of_nil in Hin];
    destruct args as [|[] [|[] [|[] [|]]]]; try done; exfalso;
    first [discriminate (H1 eq_refl)|discriminate (H2 eq_refl)|discriminate (H3 eq_refl)|discriminate (H4 eq_refl)
          |discriminate (H5 eq_refl)|discriminate (H6 eq_refl)|discriminate (H7 eq_refl)].
Qed.

(** The overloads. *)
Ltac by_overload Ef args :=
  let n := fresh in let Hin := fresh in let Ho := fresh in let E := fresh in let overload := fresh in
  apply find_map_in in Ef as ([n overload] & Hin & Ho); case_bool_decide; [subst n|done]; unfold overloads in Hin;
  rewrite !elem_of_cons in Hin;
  destruct Hin as [E|[E|[E|[E|[E|[E|[E|E]]]]]]]; [..|by apply not_elem_of_nil in E]; injection E as -> ->;
    destruct args as [|[] [|[] [|[] [|]]]]; try done; injection Ho as <-.

Lemma call_sound name args : name ∈ BUILTINS -> sound (call name args).
Proof.
  intros Hin. unfold call. destruct (find_map _ _) as [body|] eqn:Ef.
  - clear Hin. by_overload Ef args;
      [apply sound_on_counter|apply sound_named|apply sound_named|apply sound_named|apply sound_seq|apply sound_make|apply sound_make].
  - apply sound_missing; [done|]. by apply no_overload.
Qed.

(** A tool or an agent, with a name that is checked and an input that fits. *)
Lemma named_clean name inp d message b h b' : d = DTool name inp \/ d = DSpawnAgent name inp ->
  clean b -> (String.length inp <=? MAX_STRING_SIZE)%nat = true ->
  (if negb (valid_name name) then record_fault message else make d) b = Some (Ok h, b') ->
  clean b' /\ length (nodes b') = S (length (nodes b)) /\ h = length (nodes b).
Proof.
  intros Hd Hc Hi. destruct (valid_name name) eqn:En; cbn [negb]; [|done]. intros Hmake.
  refine (make_clean _ _ _ _ _ _ Hc (rhai_holding_nothing b) _ _ Hmake); [by destruct Hd as [->| ->]|]. intros _.
  destruct Hd as [->| ->]; cbn [built_within]; by rewrite En.
Qed.

(** A call that is answered made one decision more, out of what it used. *)
Lemma call_clean name args b h b' : clean b -> fits args = true -> call name args b = Some (Ok h, b') ->
  clean b' /\ length (nodes b') = S (length (nodes b)) /\ h = length (nodes b).
Proof.
  intros Hc Hfit. unfold call. destruct (find_map _ _) as [body|] eqn:Ef.
  2:{ unfold missing_function. by destruct (_ && _). }
  by_overload Ef args; cbn [fits forallb text_fits] in Hfit; rewrite ?andb_true_r in Hfit.
  - unfold on_counter. intros (m & b1 & Hm & (z & b2 & Hz & (o & b3 & Ho & Hmake)%bind_ok)%bind_ok)%bind_ok.
    apply rhai_take_ok in Hm, Hz, Ho. pose proof (rhai_holding_app _ _ _ _ _ Hm (rhai_holding_app _ _ _ _ _ Hz Ho)) as Hhand.
    refine (make_clean _ _ _ _ _ _ Hc Hhand _ _ Hmake).
    + cbn. unfold total. cbn. lia.
    + cbn [app]. rewrite !Forall_cons. intros (H1 & H2 & H3 & _). cbn. by rewrite H1, H2, H3.
  - apply (named_clean _ _ _ _ _ _ _ (or_introl eq_refl)); done.
  - apply (named_clean _ _ _ _ _ _ _ (or_introl eq_refl)); [done|]. by apply andb_true_iff in Hfit as [_ Hfit].
  - apply (named_clean _ _ _ _ _ _ _ (or_intror eq_refl)); [done|]. by apply andb_true_iff in Hfit as [_ Hfit].
  - unfold make_seq. case_bool_decide as Hl; [done|]. intros (ds & b1 & [Hhand Hlen]%items_ok & Hmake)%bind_ok.
    refine (make_clean _ _ _ _ _ _ Hc Hhand _ _ Hmake); [done|]. intros Hds. cbn. rewrite Hlen, bool_decide_false by done.
    cbn [negb andb]. apply forallb_forall. intros d Hd%list_elem_of_In. by apply (proj1 (Forall_forall _ _) Hds).
  - intros Hmake. by refine (make_clean _ _ _ _ _ _ Hc (rhai_holding_nothing b) _ _ Hmake).
  - intros Hmake. by refine (make_clean _ _ _ _ _ _ Hc (rhai_holding_nothing b) _ _ Hmake).
Qed.

(** ** A script *)

(** Each text an engine passes is within its limits. *)
Definition calls_fit (calls : list (string * list Dynamic)) : bool := forallb (fun '(_, args) => fits args) calls.

Definition is_builtin (c : string * list Dynamic) : bool := bool_decide (c.1 ∈ BUILTINS).

Lemma rhai_call_other name args b r b' : name ∉ BUILTINS -> call name args b = Some (r, b') -> b' = b /\ exists e, r = Err e.
Proof.
  intros Hn. unfold call. destruct (find_map _ _) as [body|] eqn:Ef.
  - apply find_map_in in Ef as ([n overload] & Hin & Ho). case_bool_decide; [subst n|done]. destruct Hn.
    unfold overloads in Hin. rewrite !elem_of_cons in Hin. unfold BUILTINS. rewrite !elem_of_cons.
    destruct Hin as [E|[E|[E|[E|[E|[E|[E|E]]]]]]]; [..|by apply not_elem_of_nil in E]; apply (f_equal fst) in E; cbn in E; tauto.
  - unfold missing_function. rewrite bool_decide_false by done. intros [= <- <-]. eauto.
Qed.

Lemma run_keeps_fault calls b rs b' : run_calls calls b = Some (rs, b') -> faulted b -> faulted b'.
Proof.
  revert b rs. induction calls as [|[name args] calls IH]; intros b rs; cbn; [by intros [= <- <-]|].
  destruct (call name args b) as [[r b1]|] eqn:Ec; [|done]. cbn. destruct (run_calls calls b1) as [[rs1 b2]|] eqn:Er; [|done].
  intros [= <- <-] Hb. apply (IH _ _ Er). destruct (decide (name ∈ BUILTINS)) as [Hin|Hin].
  - by apply (keeps_fault _ (call_sound name args Hin) _ _ _ Ec).
  - by apply rhai_call_other in Ec as [-> _].
Qed.

(** With no fault, each builtin it called was answered. *)
Lemma run_clean calls b rs b' : clean b -> calls_fit calls = true -> run_calls calls b = Some (rs, b') -> fault b' = None ->
  clean b' /\ length (nodes b') = (length (nodes b) + length (List.filter is_builtin calls))%nat /\
  forall i c, calls !! i = Some c -> is_builtin c = true -> exists h, rs !! i = Some (Ok h).
Proof.
  revert b rs. induction calls as [|[name args] calls IH]; intros b rs Hc; cbn [run_calls calls_fit forallb].
  { intros _ [= <- <-] _. cbn. split_and!; [done|lia|]. intros i c. by rewrite lookup_nil. }
  intros [Hfit Hfits]%andb_true_iff. destruct (call name args b) as [[r b1]|] eqn:Ec; [|done]. cbn [mbind option_bind].
  destruct (run_calls calls b1) as [[rs1 b2]|] eqn:Er; [|done]. intros [= <- <-] Hno.
  destruct (decide (name ∈ BUILTINS)) as [Hin|Hin].
  - destruct r as [h|e].
    + destruct (call_clean _ _ _ _ _ Hc Hfit Ec) as (Hc1 & Hl & _). destruct (IH _ _ Hc1 Hfits Er Hno) as (Hc2 & Hl2 & Hall).
      assert (is_builtin (name, args) = true) as Eb by (by apply bool_decide_eq_true_2).
      split; [done|]. cbn [List.filter]. rewrite Eb. cbn [length].
      split; [lia|]. intros [|i] c; cbn; [by intros [= <-]; eauto|apply Hall].
    + exfalso. pose proof (failure_faults _ (call_sound name args Hin) _ _ _ Ec) as Hf.
      apply (run_keeps_fault _ _ _ _ Er) in Hf as [x Hx]. congruence.
  - apply rhai_call_other in Ec as [-> [e ->]]; [|done]. destruct (IH _ _ Hc Hfits Er Hno) as (Hc2 & Hl2 & Hall).
    assert (is_builtin (name, args) = false) as Eb by (by apply bool_decide_eq_false_2).
    split; [done|]. cbn [List.filter]. rewrite Eb. split; [done|].
    intros [|i] c; cbn; [|apply Hall]. intros [= <-]. by rewrite Eb.
Qed.

Lemma new_clean : clean new_builder.
Proof. split; [done|apply clean_none]. Qed.

(** A script that compiles, with texts no longer than the engine lets it have, misused no builtin: each call of one
    was answered, whatever errors the script caught; and its program is all it made, each decision used once: it has
    as many decisions as there were calls, at most [MAX_DECISIONS], and keeps the limits on names, inputs and
    sequences. *)
Theorem rhai_program_is_what_was_made calls evaluated program :
  calls_fit calls = true -> compile calls evaluated = Some (Ok program) ->
  evaluated = Ok tt /\ decisions program = length (List.filter is_builtin calls) /\
  (decisions program <= MAX_DECISIONS)%nat /\ built_within program = true /\
  exists rs b, run_calls calls new_builder = Some (rs, b) /\
    forall i c, calls !! i = Some c -> is_builtin c = true -> exists h, rs !! i = Some (Ok h).
Proof.
  intros Hfits. unfold compile. destruct (run_calls calls new_builder) as [[rs b]|] eqn:Er; [|done]. cbn.
  destruct (fault b) as [message|] eqn:Hf; [done|]. destruct evaluated as [[]|e]; [|done].
  destruct (run_clean _ _ _ _ new_clean Hfits Er Hf) as ([_ Hc] & Hl & Hall).
  destruct (kept (nodes b)) as [|root [|]] eqn:Ek; [done| |done]. intros [= <-]. destruct (clean_root _ _ Hc Ek) as (Hd & Hm & Hw).
  split_and!; [done|by rewrite Hd|done|done|by exists rs, b].
Qed.

(** ** No panic *)

(** The handles in an argument. *)
Definition handles_of (v : Dynamic) : list nat :=
  match v with
  | DNode n => [n]
  | DArray items => items ≫= fun v => match v with DNode n => [n] | _ => [] end
  | _ => []
  end.

(** A script has no handle but those the builtins gave it. *)
Fixpoint handed_out (calls : list (string * list Dynamic)) (b : Builder) : bool :=
  match calls with
  | [] => true
  | (name, args) :: calls =>
      forallb (fun n => n <? length (nodes b))%nat (args ≫= handles_of) &&
      match call name args b with Some (_, b) => handed_out calls b | None => true end
  end.

(** From a builder with slots for what is used, no panic, and no slot less. *)
Definition goes_on {A} (n : nat) (m : M A) : Prop := forall b, n <= length (nodes b) ->
  exists r b', m b = Some (r, b') /\ length (nodes b) <= length (nodes b').

Lemma rhai_goes_ret {A} n (a : A) : goes_on n (ret a).
Proof. intros b _. by eexists _, _. Qed.

Lemma goes_fault {A} n message : goes_on n (record_fault message : M A).
Proof. intros b _. by eexists _, _. Qed.

Lemma goes_make n d : goes_on n (make d).
Proof.
  intros b _. unfold make. destruct (_ <=? _); [by eexists _, _|]. eexists _, _. split; [done|]. cbn. rewrite length_app. lia.
Qed.

Lemma goes_take n i : i < n -> goes_on n (take_node i).
Proof.
  intros Hi b Hn. unfold take_node. destruct (lookup_lt_is_Some_2 (nodes b) i) as [[d|] ->]; [lia| |by eexists _, _].
  eexists _, _. split; [done|]. cbn. by rewrite length_insert.
Qed.

Lemma rhai_goes_bind {A B} n (m : M A) (f : A -> M B) : goes_on n m -> (forall a, goes_on n (f a)) -> goes_on n (bind m f).
Proof.
  intros Hm Hf b Hb. unfold bind. destruct (Hm b Hb) as (r & b1 & -> & Hl). destruct r as [a|e]; [|by eexists _, _].
  destruct (Hf a b1) as (r & b2 & -> & Hl'); [lia|]. eexists _, _. split; [done|lia].
Qed.

Create HintDb goes.
#[local] Hint Resolve rhai_goes_ret goes_fault goes_make goes_take rhai_goes_bind : goes.

Lemma goes_items n items : Forall (fun i => i < n) (handles_of (DArray items)) -> goes_on n (take_items items).
Proof.
  induction items as [|[i|s|l|] items IH]; cbn; auto with goes. intros [Hi Hall]%Forall_cons.
  apply rhai_goes_bind; [auto with goes|]. intros d. apply rhai_goes_bind; auto with goes.
Qed.

Lemma call_goes n name args : Forall (fun i => i < n) (args ≫= handles_of) -> goes_on n (call name args).
Proof.
  intros Hall. unfold call. destruct (find_map _ _) as [body|] eqn:Ef.
  - by_overload Ef args.
    + cbn in Hall. rewrite !Forall_cons in Hall. destruct Hall as (H1 & H2 & H3 & _). unfold on_counter.
      repeat (apply rhai_goes_bind; [by apply goes_take|intros ?]). apply goes_make.
    + unfold make_tool. destruct (negb _); auto with goes.
    + unfold make_tool. destruct (negb _); auto with goes.
    + unfold spawn_agent. destruct (negb _); auto with goes.
    + unfold make_seq. case_bool_decide; [auto with goes|]. apply rhai_goes_bind; [|auto with goes].
      apply goes_items. cbn in Hall. by rewrite app_nil_r in Hall.
    + apply goes_make.
    + apply goes_make.
  - intros b _. unfold missing_function. destruct (_ && _); by eexists _, _.
Qed.

(** A script whose handles were handed to it makes nothing panic. *)
Theorem rhai_never_panics calls evaluated : handed_out calls new_builder = true -> is_Some (compile calls evaluated).
Proof.
  intros Hh. unfold compile. assert (is_Some (run_calls calls new_builder)) as [[rs b] ->]; [|by eexists].
  revert Hh. generalize new_builder. induction calls as [|[name args] calls IH]; intros b; cbn [handed_out run_calls]; [by eexists|].
  intros [Hall Hrest]%andb_true_iff.
  destruct (call_goes (length (nodes b)) name args) with (b := b) as (r & b1 & Ec & _); [|done|].
  - apply Forall_forall. intros i Hi%list_elem_of_In. rewrite forallb_forall in Hall. apply Hall in Hi. by apply Nat.ltb_lt.
  - rewrite Ec in Hrest |- *. destruct (IH b1 Hrest) as [[rs b2] E]. cbn. rewrite E. by eexists.
Qed.

(** ** Every program within the limits *)

(** The calls that make [ds], one after the other, from the slot [base] on, and
    their handles. *)
Definition calls_items (f : WorkDecision -> nat -> list (string * list Dynamic)) :
    list WorkDecision -> nat -> list (string * list Dynamic) * list Dynamic :=
  fix go ds base :=
    match ds with
    | [] => ([], [])
    | d :: ds =>
        let '(cs, hs) := go ds (base + decisions d)%nat in (f d base ++ cs, DNode (base + decisions d - 1)%nat :: hs)
    end.

Fixpoint calls_of (d : WorkDecision) (base : nat) : list (string * list Dynamic) :=
  match d with
  | DTool name inp => [("tool"%string, [DText name; DText inp])]
  | DSpawnAgent agent inp => [("spawn_agent"%string, [DText agent; DText inp])]
  | DSeq ds => let '(cs, hs) := calls_items calls_of ds base in cs ++ [("seq"%string, [DArray hs])]
  | DComplete => [("complete"%string, [])]
  | DFail => [("fail"%string, [])]
  | DOnCounter missing zero other =>
      let '(cs, hs) := calls_items calls_of [missing; zero; other] base in cs ++ [("on_counter"%string, hs)]
  end.

Lemma rhai_run_app k l b rs b1 : run_calls k b = Some (rs, b1) ->
  run_calls (k ++ l) b = ('(rs', b2) ← run_calls l b1; Some (rs ++ rs', b2)).
Proof.
  revert b rs. induction k as [|[name args] k IH]; intros b rs; cbn.
  - intros [= <- <-]. by destruct (run_calls l b) as [[]|].
  - destruct (call name args b) as [[r b0]|]; [|done]. cbn. destruct (run_calls k b0) as [[rs0 b2]|] eqn:Er; [|done].
    intros [= <- <-]. cbn. rewrite (IH _ _ Er). by destruct (run_calls l b2) as [[]|].
Qed.

(** [calls] make [d]. *)
Definition writes (d : WorkDecision) (calls : nat -> list (string * list Dynamic)) : Prop := forall pre,
  length pre + decisions d <= MAX_DECISIONS ->
  exists rs, run_calls (calls (length pre)) (mkBuilder pre None) = Some (rs, mkBuilder (pre ++ slots_of d) None).

Lemma rhai_items_written f ds pre : Forall (fun d => writes d (f d)) ds -> length pre + total ds <= MAX_DECISIONS ->
  exists rs, run_calls (fst (calls_items f ds (length pre))) (mkBuilder pre None) = Some (rs, mkBuilder (pre ++ slots ds) None).
Proof.
  intros Hall. revert pre. induction Hall as [|d ds Hd _ IH]; intros pre Hmax; cbn.
  { exists []. by rewrite app_nil_r. }
  change (total (d :: ds)) with (decisions d + total ds)%nat in Hmax.
  destruct (Hd pre) as [rs Hrs]; [lia|]. destruct (IH (pre ++ slots_of d)) as [rs' Hrs'].
  { rewrite length_app, slots_of_length. lia. }
  rewrite length_app, slots_of_length in Hrs'. destruct (calls_items f ds (length pre + decisions d)) as [cs hs]. cbn in *.
  exists (rs ++ rs'). rewrite (rhai_run_app _ _ _ _ _ Hrs), Hrs'. cbn. by rewrite <-app_assoc.
Qed.

(** The handles give back what was made. *)
Lemma items_taken f ds pre : take_items (snd (calls_items f ds (length pre))) (mkBuilder (pre ++ slots ds) None) =
  Some (Ok ds, mkBuilder (pre ++ replicate (total ds) None) None).
Proof.
  revert pre. induction ds as [|d ds IH]; intros pre; [done|]. destruct (slots_take d ds pre) as [Hslot Htake].
  generalize dependent (slots (d :: ds)). intros l Hslot Htake. cbn.
  destruct (calls_items f ds (length pre + decisions d)) as [cs hs] eqn:Ec. cbn.
  unfold bind at 1, take_node at 1. cbn [nodes fault]. rewrite Hslot, Htake.
  specialize (IH (pre ++ replicate (decisions d) None)).
  rewrite length_app, length_replicate, Ec in IH. cbn [snd] in IH.
  unfold bind, ret. rewrite IH. do 3 f_equal. change (total (d :: ds)) with (decisions d + total ds)%nat.
  by rewrite replicate_add, app_assoc.
Qed.

Lemma built_tool name inp : built_within (DTool name inp) = true -> valid_name name = true.
Proof. by intros [Hn _]%andb_true_iff. Qed.

(** A call that makes [d] of nothing, or of what it used. *)
Lemma rhai_make_runs d pre : length pre < MAX_DECISIONS ->
  make d (mkBuilder pre None) = Some (Ok (length pre), mkBuilder (pre ++ [Some d]) None).
Proof. intros Hl. unfold make. cbn [nodes fault]. destruct (MAX_DECISIONS <=? length pre)%nat eqn:E; [bool_to_prop; lia|done]. Qed.

Lemma counter_takes a b c m z o bu bu' : take_items [DNode a; DNode b; DNode c] bu = Some (Ok [m; z; o], bu') ->
  on_counter a b c bu = make (DOnCounter m z o) bu'.
Proof.
  cbn [take_items]. intros (x & b1 & H1 & (xs & b2 & (y & b3 & H2 & (ys & b4 & (v & b5 & H3 & (zs & b6 & Hz & H4)%bind_ok)%bind_ok & H5)%bind_ok)%bind_ok & H6)%bind_ok)%bind_ok.
  injection Hz as <- <-. injection H4 as <- <-. injection H5 as <- <-. injection H6 as <- <- <- <-.
  unfold on_counter, bind. by rewrite H1, H2, H3.
Qed.

Lemma rhai_calls_write d : built_within d = true -> writes d (calls_of d).
Proof.
  induction d as [name inp|agent inp|ds IH| | |m z o IHm IHz IHo] using WorkDecision_nested_ind; intros Hb pre Hmax.
  - cbn in Hmax. cbn [calls_of run_calls]. change (call "tool" [DText name; DText inp]) with (make_tool name inp).
    unfold make_tool. rewrite (built_tool _ _ Hb). cbn [negb]. rewrite rhai_make_runs by lia. by eexists.
  - cbn in Hmax. cbn [calls_of run_calls]. change (call "spawn_agent" [DText agent; DText inp]) with (spawn_agent agent inp).
    unfold spawn_agent. rewrite (built_tool agent inp Hb). cbn [negb]. rewrite rhai_make_runs by lia. by eexists.
  - cbn in Hb. apply andb_true_iff in Hb as [Hne Hb]. bool_to_prop. rewrite forallb_forall in Hb.
    change (decisions (DSeq ds)) with (S (total ds)) in Hmax.
    assert (Forall (fun d => writes d (calls_of d)) ds) as Hall.
    { rewrite Forall_forall in IH |- *. intros d Hd. apply IH; [done|]. by apply Hb, list_elem_of_In. }
    destruct (rhai_items_written calls_of ds pre Hall) as [rs Hrs]; [lia|]. pose proof (items_taken calls_of ds pre) as Ht.
    assert (snd (calls_items calls_of ds (length pre)) <> []) as Hhs by (destruct ds; [by destruct Hne|cbn; by case_match]).
    cbn [calls_of]. destruct (calls_items calls_of ds (length pre)) as [cs hs]. cbn [fst snd] in *.
    eexists. rewrite (rhai_run_app _ _ _ _ _ Hrs). cbn [run_calls]. change (call "seq" [DArray hs]) with (make_seq hs).
    unfold make_seq. rewrite bool_decide_false by (by destruct hs). unfold bind. rewrite Ht.
    rewrite rhai_make_runs by (rewrite length_app, length_replicate; lia). cbn. by rewrite (replicate_slots (DSeq ds)).
  - cbn in Hmax. cbn [calls_of run_calls]. change (call "complete" []) with (make DComplete). rewrite rhai_make_runs by lia. by eexists.
  - cbn in Hmax. cbn [calls_of run_calls]. change (call "fail" []) with (make DFail). rewrite rhai_make_runs by lia. by eexists.
  - cbn in Hb. apply andb_true_iff in Hb as [[Hm Hz]%andb_true_iff Ho].
    assert (decisions (DOnCounter m z o) = S (total [m; z; o])) as Ed by (unfold total; cbn; lia). rewrite Ed in Hmax.
    destruct (rhai_items_written calls_of [m; z; o] pre) as [rs Hrs]; [by repeat constructor; auto|lia|].
    pose proof (items_taken calls_of [m; z; o] pre) as Ht. cbn [calls_of].
    destruct (calls_items calls_of [m; z; o] (length pre)) as [cs hs] eqn:Ec. cbn [fst snd] in *.
    cbn in Ec. injection Ec as _ <-. eexists. rewrite (rhai_run_app _ _ _ _ _ Hrs). cbn [run_calls].
    match goal with |- context [call "on_counter" [DNode ?a; DNode ?b; DNode ?c]] =>
      change (call "on_counter" [DNode a; DNode b; DNode c]) with (on_counter a b c) end.
    rewrite (counter_takes _ _ _ _ _ _ _ _ Ht). rewrite rhai_make_runs by (rewrite length_app, length_replicate; lia).
    cbn [mbind option_bind]. by rewrite (replicate_slots (DOnCounter m z o)).
Qed.

(** C36. Every program that keeps the limits, and has at most [MAX_DECISIONS] decisions, can be written: the calls
    [calls_of] gives for it compile to it. *)
Theorem rhai_writes_every_program p : built_within p = true -> (decisions p <= MAX_DECISIONS)%nat ->
  compile (calls_of p 0) (Ok tt) = Some (Ok p).
Proof.
  intros Hb Hmax. destruct (rhai_calls_write p Hb []) as [rs Hrs]; [done|]. unfold compile, new_builder. cbn [length] in Hrs.
  rewrite Hrs. cbn. by rewrite kept_slots_of.
Qed.

(** ** At concrete inputs *)

Definition demo_program : WorkflowProgram := DSeq [DTool "echo" "hi"; DOnCounter (DTool "counter" "") DComplete DFail].

Lemma rhai_writes_every_program_witness :
  length (calls_of demo_program 0) = 6 /\ compile (calls_of demo_program 0) (Ok tt) = Some (Ok demo_program).
Proof.
  split; [vm_compute; reflexivity|]. apply rhai_writes_every_program; [vm_compute; reflexivity|].
  apply Nat.leb_le. vm_compute. reflexivity.
Defined.

(** A script that uses a decision twice does not compile, even if it catches
    the error. *)
Lemma rhai_program_is_what_was_made_witness :
  compile [("complete", []); ("seq", [DArray [DNode 0]]); ("seq", [DArray [DNode 0]])]%string (Ok tt) =
    Some (Err (InvalidProgram "decision used twice")) /\
  decisions demo_program = length (List.filter is_builtin (calls_of demo_program 0)).
Proof.
  split; [vm_compute; reflexivity|].
  refine (proj1 (proj2 (rhai_program_is_what_was_made (calls_of demo_program 0) (Ok tt) demo_program _ _))); vm_compute; reflexivity.
Defined.

Lemma rhai_never_panics_witness : is_Some (compile (calls_of demo_program 0) (Err "stopped"%string)).
Proof. apply rhai_never_panics. vm_compute. reflexivity. Defined.
