(* ===== verification/Js.v ===== *)
(** * Workflows written in JavaScript ([workflow-js/lib.rs])

    As [Rhai], with two differences: a handle is an object the builder made,
    found by its identity, so that a script cannot forge one; and reading an
    array can run the script.  Reading touches nothing of the builder before
    all elements are read, so the calls the script makes meanwhile come before
    the call of [seq] in the list of its calls, and the array holds what the
    reads gave.

    The theorems: a script that compiles misused no builtin, and its program
    is all it made, each decision once, within the limits
    ([js_program_is_what_was_made]); and every program within them can be
    written ([js_writes_every_program]). *)

From S2P Require Import Prelude Workflow Scripts.

Inductive FrontendError := Script (message : string) | InvalidProgram (message : string).

Definition MAX_LOOP_ITERATIONS : N := 100000.
Definition MAX_RECURSION : nat := 64.

Definition ON_COUNTER_ARITY : string := "onCounter takes exactly three decisions".
Definition INPUT_SIZE : string := "input must be at most 65536 bytes".
Definition TOOL_NAME : string := "tool name must be 1 to 128 bytes".
Definition AGENT_NAME : string := "agent name must be 1 to 128 bytes".
Definition SEQ_EMPTY : string := "seq takes at least one decision".
Definition SEQ_ITEMS : string := "seq takes an array of decisions".

(** The identity of an object: the [n]th the builder made, or one of the
    script's own. *)
Inductive JsObject := Handle (n : nat) | Own (n : nat).

#[export] Instance JsObject_eq_dec : EqDecision JsObject.
Proof. solve_decision. Defined.

Record Node : Type := mkNode { handle : JsObject; decision : option WorkDecision }.

Record Builder : Type := mkBuilder { nodes : list Node; fault : option string }.

(** The data of the engine's context, and how many handles were made. *)
Record Context : Type := mkContext { data : option Builder; handles : nat }.

(** A value: a text, with its UTF-8 if it has one; an object; an array, its
    length and its elements, each of which may throw; another. *)
#[warnings="-register-all"]
Inductive JsValue :=
| VText (s : option string)
| VObject (o : JsObject)
| VArray (o : JsObject) (len : result N string) (at_ : nat -> result JsValue string)
| VOther.

Definition as_object (v : JsValue) : option JsObject :=
  match v with VObject o | VArray o _ _ => Some o | _ => None end.

(** ** The builder *)

Definition M (A : Type) : Type := Context -> result A string * Context.

Definition ret {A} (a : A) : M A := fun c => (Ok a, c).

Definition throw {A} (message : string) : M A := fun c => (Err message, c).

Definition bind {A B} (m : M A) (f : A -> M B) : M B := fun c =>
  match m c with (Ok a, c) => f a c | (Err e, c) => (Err e, c) end.

Notation "x <-? m ; k" := (bind m (fun x => k)) (at level 60, m at next level, right associativity).

(** [take] and [insert_data]. *)
Definition take_builder : M Builder := fun c =>
  match data c with
  | Some b => (Ok b, mkContext None (handles c))
  | None => (Err "compiler state missing"%string, c)
  end.

Definition insert_data (b : Builder) : M unit := fun c => (Ok tt, mkContext (Some b) (handles c)).

(** [fault]: the first is kept. *)
Definition record_fault {A} (message : string) : M A := fun c =>
  (Err message,
   match data c with
   | Some b => mkContext (Some (mkBuilder (nodes b) (Some (default message (fault b))))) (handles c)
   | None => c
   end).

(** [JsObject::with_null_proto]. *)
Definition new_handle : M JsObject := fun c => (Ok (Handle (handles c)), mkContext (data c) (S (handles c))).

Definition make (d : WorkDecision) : M JsValue :=
  handle <-? new_handle;
  builder <-? take_builder;
  if (MAX_DECISIONS <=? length (nodes builder))%nat then (_ <-? insert_data builder; record_fault "too many decisions")
  else (_ <-? insert_data (mkBuilder (nodes builder ++ [mkNode handle (Some d)]) (fault builder)); ret (VObject handle)).

(** The node of an object, the first of those before [l] not its own. *)
Fixpoint find_node (o : JsObject) (l : list Node) : option nat :=
  match l with
  | [] => None
  | node :: l => if bool_decide (handle node = o) then Some 0 else S <$> find_node o l
  end.

Definition consume (b : Builder) (value : JsValue) (not_decision : string) : result WorkDecision string * Builder :=
  match o ← as_object value; i ← find_node o (nodes b); node ← nodes b !! i; Some (i, node) with
  | None => (Err not_decision, b)
  | Some (i, node) =>
      match decision node with
      | None => (Err "decision used twice"%string, b)
      | Some d => (Ok d, mkBuilder (<[i := mkNode (handle node) None]> (nodes b)) (fault b))
      end
  end.

(** [collect]: up to the first that is none. *)
Fixpoint consume_items (b : Builder) (items : list JsValue) : result (list WorkDecision) string * Builder :=
  match items with
  | [] => (Ok [], b)
  | item :: items =>
      match consume b item SEQ_ITEMS with
      | (Err e, b) => (Err e, b)
      | (Ok d, b) => match consume_items b items with (Ok ds, b) => (Ok (d :: ds), b) | (Err e, b) => (Err e, b) end
      end
  end.

(** ** The builtins *)

(** [string]. *)
Definition js_string (v : JsValue) : option string := match v with VText s => s | _ => None end.

Definition on_counter (args : list JsValue) : M JsValue :=
  match args with
  | [missing; zero; other] =>
      builder <-? take_builder;
      let '(missing, builder) := consume builder missing ON_COUNTER_ARITY in
      let '(zero, builder) := consume builder zero ON_COUNTER_ARITY in
      let '(other, builder) := consume builder other ON_COUNTER_ARITY in
      _ <-? insert_data builder;
      match missing, zero, other with
      | Ok missing, Ok zero, Ok other => make (DOnCounter missing zero other)
      | Err message, _, _ | _, Err message, _ | _, _, Err message => record_fault message
      end
  | _ => record_fault ON_COUNTER_ARITY
  end.

(** A name and an input, checked. *)
Definition checked (name inp message : string) (d : WorkDecision) : M JsValue :=
  if negb (valid_name name) then record_fault message
  else if (MAX_INPUT_BYTES <? String.length inp)%nat then record_fault INPUT_SIZE
  else make d.

Definition tool (args : list JsValue) : M JsValue :=
  let with_input name inp :=
    match js_string name with
    | None => record_fault "tool name must be a string"
    | Some name =>
        match inp with
        | None => checked name "" TOOL_NAME (DTool name "")
        | Some v =>
            match js_string v with
            | None => record_fault "tool input must be a string"
            | Some inp => checked name inp TOOL_NAME (DTool name inp)
            end
        end
    end in
  match args with
  | [name] => with_input name None
  | [name; inp] => with_input name (Some inp)
  | _ => record_fault "tool takes a name and an optional input"
  end.

Definition spawn_agent (args : list JsValue) : M JsValue :=
  match args with
  | [agent; inp] =>
      match js_string agent, js_string inp with
      | Some agent, Some inp => checked agent inp AGENT_NAME (DSpawnAgent agent inp)
      | _, _ => record_fault "spawnAgent takes two strings"
      end
  | _ => record_fault "spawnAgent takes an agent and an input"
  end.

(** The elements from [i] on, [n] of them; one that throws ends it. *)
Fixpoint read_items (at_ : nat -> result JsValue string) (i n : nat) : result (list JsValue) string :=
  match n with
  | O => Ok []
  | S n =>
      match at_ i with
      | Err e => Err e
      | Ok v => match read_items at_ (S i) n with Ok vs => Ok (v :: vs) | Err e => Err e end
      end
  end.

Definition seq_of (args : list JsValue) : M JsValue :=
  match args with
  | [VArray _ len at_] =>
      match len with
      | Err e => throw e
      | Ok n =>
          if (n =? 0)%N then record_fault SEQ_EMPTY
          else if (N.of_nat MAX_DECISIONS <? n)%N then record_fault "too many decisions"
          else
            match read_items at_ 0 (N.to_nat n) with
            | Err e => throw e
            | Ok items =>
                builder <-? take_builder;
                let '(decisions, builder) := consume_items builder items in
                _ <-? insert_data builder;
                match decisions with Ok ds => make (DSeq ds) | Err message => record_fault message end
            end
      end
  | _ => record_fault SEQ_ITEMS
  end.

Definition complete (args : list JsValue) : M JsValue :=
  match args with [] => make DComplete | _ => record_fault "complete takes no arguments" end.

Definition fail (args : list JsValue) : M JsValue :=
  match args with [] => make DFail | _ => record_fault "fail takes no arguments" end.

(** What is registered. *)
Definition builtins : list (string * (list JsValue -> M JsValue)) :=
  [("onCounter", on_counter); ("tool", tool); ("spawnAgent", spawn_agent); ("seq", seq_of); ("complete", complete); ("fail", fail)]%string.

(** A call of a global: a builtin, or what is not the builder's. *)
Definition call (name : string) (args : list JsValue) : M JsValue :=
  match find_map (fun '(n, body) => if bool_decide (n = name) then Some body else None) builtins with
  | Some body => body args
  | None => throw (name +:+ " is not defined")
  end.

Fixpoint run_calls (calls : list (string * list JsValue)) (c : Context) : list (result JsValue string) * Context :=
  match calls with
  | [] => ([], c)
  | (name, args) :: calls => let '(r, c) := call name args c in let '(rs, c) := run_calls calls c in (r :: rs, c)
  end.

Definition new_context : Context := mkContext (Some (mkBuilder [] None)) 0.

(** [compile], of a script's calls and how it ended. *)
Definition compile (calls : list (string * list JsValue)) (evaluated : result unit string)
    : result WorkflowProgram FrontendError :=
  let '(_, c) := run_calls calls new_context in
  match data c with
  | None => Err (InvalidProgram "compiler state missing")
  | Some builder =>
      match fault builder, evaluated with
      | Some message, _ => Err (InvalidProgram message)
      | None, Err error => Err (Script error)
      | None, Ok _ =>
          match omap decision (nodes builder) with
          | [root] => Ok root
          | _ => Err (InvalidProgram "script must record one decision")
          end
      end
  end.

(** ** The builder, as slots *)

Definition slots_in (b : Builder) : list (option WorkDecision) := decision <$> nodes b.

Lemma omap_slots b : omap decision (nodes b) = kept (slots_in b).
Proof. unfold kept, slots_in. induction (nodes b) as [|node l IH]; cbn; [done|]. destruct (decision node); cbn; by rewrite IH. Qed.

Definition holding (taken : list WorkDecision) (b b' : Builder) : Prop :=
  in_hand taken (slots_in b) (slots_in b') /\ fault b' = fault b.

Lemma js_holding_nothing b : holding [] b b.
Proof. split; [apply in_hand_nothing|done]. Qed.

Lemma js_holding_app l k b b1 b2 : holding l b b1 -> holding k b1 b2 -> holding (l ++ k) b b2.
Proof. intros [H1 F1] [H2 F2]. split; [by eapply in_hand_app|congruence]. Qed.

Definition clean (b : Builder) : Prop := fault b = None /\ clean_slots (slots_in b).

Definition faulted (b : Builder) : Prop := is_Some (fault b).

(** A decision is used, or nothing is. *)
Lemma consume_ok b v message r b' : consume b v message = (r, b') ->
  match r with Ok d => holding [d] b b' | Err _ => b' = b end.
Proof.
  unfold consume. destruct (o ← as_object v; i ← find_node o (nodes b); node ← nodes b !! i; Some (i, node)) as [[i node]|] eqn:E; [|by intros [= <- <-]].
  destruct (decision node) as [d|] eqn:Ed; intros [= <- <-]; [|done].
  destruct (as_object v) as [o|]; [|done]. cbn in E. destruct (find_node o (nodes b)) as [i'|]; [|done]. cbn in E.
  destruct (nodes b !! i') as [node'|] eqn:En; [|done]. cbn in E. injection E as <- <-. split; [|done].
  unfold slots_in. cbn. rewrite list_fmap_insert. apply in_hand_take. by rewrite list_lookup_fmap, En, <-Ed.
Qed.

Lemma consume_items_ok b items r b' : consume_items b items = (r, b') ->
  match r with Ok ds => holding ds b b' /\ length ds = length items | Err _ => fault b' = fault b end.
Proof.
  revert b r b'. induction items as [|item items IH]; intros b r b'; cbn [consume_items].
  { intros [= <- <-]. split; [apply js_holding_nothing|done]. }
  destruct (consume b item SEQ_ITEMS) as [[d|e] b1] eqn:Ec; apply consume_ok in Ec.
  - destruct (consume_items b1 items) as [[ds|e] b2] eqn:Ei; apply IH in Ei; intros [= <- <-].
    + destruct Ei as [Hds Hl]. split; [by apply (js_holding_app [d] ds b b1 b2)|cbn; by f_equal].
    + destruct Ec as [_ F]. congruence.
  - intros [= <- <-]. by subst.
Qed.

(** ** What comes of a call *)

(** Reading an array failed, which is no fault of the builder's. *)
Definition unreadable (args : list JsValue) : Prop := exists o len at_ e, args = [VArray o len at_] /\
  (len = Err e \/ exists n, len = Ok n /\ read_items at_ 0 (N.to_nat n) = Err e).

Inductive outcome (args : list JsValue) (b : Builder) : result JsValue string -> Builder -> Prop :=
| made_one v b' : fault b' = fault b ->
    (clean b -> clean b' /\ length (nodes b') = S (length (nodes b))) -> outcome args b (Ok v) b'
| misused e b' : faulted b' -> outcome args b (Err e) b'
| threw e : unreadable args -> outcome args b (Err e) b.

(** A body, from a context that has the builder. *)
Definition answers (args : list JsValue) (b : Builder) (m : M JsValue) (c : Context) : Prop :=
  exists r b' n, m c = (r, mkContext (Some b') n) /\ outcome args b r b'.

Lemma bind_take {B} (f : Builder -> M B) b n : bind take_builder f (mkContext (Some b) n) = f b (mkContext None n).
Proof. done. Qed.

Lemma bind_insert {B} b (f : unit -> M B) c : bind (insert_data b) f c = f tt (mkContext (Some b) (handles c)).
Proof. done. Qed.

Lemma js_make_runs d b n : make d (mkContext (Some b) n) =
  if (MAX_DECISIONS <=? length (nodes b))%nat then record_fault "too many decisions" (mkContext (Some b) (S n))
  else (Ok (VObject (Handle n)), mkContext (Some (mkBuilder (nodes b ++ [mkNode (Handle n) (Some d)]) (fault b))) (S n)).
Proof. unfold make, bind, new_handle, take_builder. cbn [data handles]. by destruct (_ <=? _)%nat. Qed.

Lemma answers_of args b m c m' c' : m c = m' c' -> answers args b m' c' -> answers args b m c.
Proof. unfold answers. by intros ->. Qed.

Lemma fault_answers args b b1 message n : answers args b (record_fault message) (mkContext (Some b1) n).
Proof. eexists _, _, _. split; [done|]. apply misused. by eexists. Qed.

Lemma make_answers args taken b b1 d n : holding taken b b1 -> decisions d = S (total taken) ->
  (Forall (fun x => built_within x = true) taken -> built_within d = true) ->
  answers args b (make d) (mkContext (Some b1) n).
Proof.
  intros [Hhand F] Hd Hwithin. unfold answers. rewrite js_make_runs.
  destruct (MAX_DECISIONS <=? length (nodes b1))%nat eqn:E; [apply fault_answers|]. bool_to_prop.
  eexists _, _, _. split; [done|]. apply made_one; [done|]. intros [Hf Hc]. pose proof Hhand as [_ L].
  unfold slots_in in L. rewrite !length_fmap in L. split; [|cbn; rewrite length_app; cbn; lia]. split; [cbn; congruence|].
  unfold slots_in. cbn. rewrite fmap_app. cbn. eapply make_clean_slots; try done. unfold slots_in. by rewrite length_fmap.
Qed.

Lemma checked_answers args b name inp message d n : d = DTool name inp \/ d = DSpawnAgent name inp ->
  answers args b (checked name inp message d) (mkContext (Some b) n).
Proof.
  intros Hd. unfold checked. destruct (valid_name name) eqn:En; cbn [negb]; [|apply fault_answers].
  destruct (MAX_INPUT_BYTES <? String.length inp)%nat eqn:El; [apply fault_answers|]. bool_to_prop. apply Nat.leb_le in El.
  apply (make_answers _ []); [apply js_holding_nothing|by destruct Hd as [->| ->]|]. intros _.
  destruct Hd as [->| ->]; cbn [built_within]; by rewrite En.
Qed.

Lemma tool_answers args b n : answers args b (tool args) (mkContext (Some b) n).
Proof.
  unfold tool. destruct args as [|name [|inp [|]]]; try apply fault_answers; destruct (js_string name) as [s|];
    try apply fault_answers; [by apply checked_answers; left|]. destruct (js_string inp); [by apply checked_answers; left|apply fault_answers].
Qed.

Lemma spawn_answers args b n : answers args b (spawn_agent args) (mkContext (Some b) n).
Proof.
  unfold spawn_agent. destruct args as [|agent [|inp [|]]]; try apply fault_answers.
  destruct (js_string agent), (js_string inp); try apply fault_answers. by apply checked_answers; right.
Qed.

Lemma counter_answers args b n : answers args b (on_counter args) (mkContext (Some b) n).
Proof.
  unfold on_counter. destruct args as [|m [|z [|o [|]]]]; try apply fault_answers.
  eapply answers_of; [rewrite bind_take; reflexivity|].
  destruct (consume b m _) as [m' b1] eqn:Em, (consume b1 z _) as [z' b2] eqn:Ez, (consume b2 o _) as [o' b3] eqn:Eo.
  apply consume_ok in Em, Ez, Eo. eapply answers_of; [rewrite bind_insert; reflexivity|].
  destruct m' as [m'|]; [|apply fault_answers]. destruct z' as [z'|]; [|apply fault_answers]. destruct o' as [o'|]; [|apply fault_answers].
  apply (make_answers _ ([m'] ++ [z'] ++ [o'])).
  - by eapply js_holding_app, js_holding_app.
  - unfold total. cbn. lia.
  - cbn [app]. rewrite !Forall_cons. intros (H1 & H2 & H3 & _). cbn. by rewrite H1, H2, H3.
Qed.

Lemma read_length at_ i n vs : read_items at_ i n = Ok vs -> length vs = n.
Proof.
  revert i vs. induction n as [|n IH]; intros i vs; cbn; [by intros [= <-]|]. destruct (at_ i); [|done].
  destruct (read_items at_ (S i) n) eqn:E; [|done]. intros [= <-]. cbn. f_equal. by eapply IH.
Qed.

Lemma seq_answers args b n : answers args b (seq_of args) (mkContext (Some b) n).
Proof.
  unfold seq_of. destruct args as [|[s|o|o len at_|] [|]]; try apply fault_answers. destruct len as [len|e].
  2:{ eexists _, _, _. split; [done|]. apply threw. exists o, (Err e), at_, e. auto. }
  destruct (len =? 0)%N eqn:E0; [apply fault_answers|]. destruct (N.of_nat MAX_DECISIONS <? len)%N; [apply fault_answers|].
  destruct (read_items at_ 0 (N.to_nat len)) as [items|e] eqn:Er.
  2:{ eexists _, _, _. split; [done|]. apply threw. exists o, (Ok len), at_, e. eauto 6. }
  eapply answers_of; [rewrite bind_take; reflexivity|]. destruct (consume_items b items) as [r b1] eqn:Ei. apply consume_items_ok in Ei.
  eapply answers_of; [rewrite bind_insert; reflexivity|]. destruct r as [ds|e]; [|apply fault_answers]. destruct Ei as [Hhand Hl].
  apply (make_answers _ ds); [done|done|]. intros Hds. cbn. bool_to_prop. apply read_length in Er.
  rewrite bool_decide_false by lia. cbn [negb andb]. apply forallb_forall. intros d Hd%list_elem_of_In. by apply (proj1 (Forall_forall _ _) Hds).
Qed.

Lemma complete_answers args b n : answers args b (complete args) (mkContext (Some b) n).
Proof. destruct args; [|apply fault_answers]. by apply (make_answers _ []); [apply js_holding_nothing| |]. Qed.

Lemma fail_answers args b n : answers args b (fail args) (mkContext (Some b) n).
Proof. destruct args; [|apply fault_answers]. by apply (make_answers _ []); [apply js_holding_nothing| |]. Qed.

(** ** A script *)

Definition is_builtin (c : string * list JsValue) : bool := bool_decide (c.1 ∈ builtins.*1).

Lemma call_answers name args b n : name ∈ builtins.*1 -> answers args b (call name args) (mkContext (Some b) n).
Proof.
  intros Hin. cbn in Hin. rewrite !elem_of_cons in Hin.
  destruct Hin as [->|[->|[->|[->|[->|[->|Hin]]]]]]; [..|by apply not_elem_of_nil in Hin].
  - apply counter_answers.
  - apply tool_answers.
  - apply spawn_answers.
  - apply seq_answers.
  - apply complete_answers.
  - apply fail_answers.
Qed.

Lemma js_call_other name args c : name ∉ builtins.*1 -> call name args c = (Err (name +:+ " is not defined"), c).
Proof.
  intros Hn. unfold call. cbn in Hn. rewrite !not_elem_of_cons in Hn. destruct Hn as (H1 & H2 & H3 & H4 & H5 & H6 & _).
  cbn [find_map builtins]. by rewrite !bool_decide_false by congruence.
Qed.

Lemma outcome_keeps_fault args b r b' : outcome args b r b' -> faulted b -> faulted b'.
Proof. unfold faulted. destruct 1 as [v b' F _|e b' Hf|e]; [by rewrite F|done|done]. Qed.

(** How many of its answers are decisions. *)
Definition answered (r : result JsValue string) : bool := is_ok r.

(** The builder is there throughout; with no fault, what a builtin threw is
    that its array could not be read. *)
Lemma run_spec calls b n : exists rs b' n', run_calls calls (mkContext (Some b) n) = (rs, mkContext (Some b') n') /\
  (faulted b -> faulted b') /\
  (fault b' = None -> clean b ->
     clean b' /\ length (nodes b') = (length (nodes b) + length (List.filter answered rs))%nat /\
     forall i c e, calls !! i = Some c -> is_builtin c = true -> rs !! i = Some (Err e) -> unreadable c.2).
Proof.
  revert b n. induction calls as [|[name args] calls IH]; intros b n; cbn [run_calls].
  { exists [], b, n. split; [done|]. split; [done|]. intros _ Hc. cbn. split_and!; [done|lia|]. intros i c e. by rewrite lookup_nil. }
  destruct (decide (name ∈ builtins.*1)) as [Hin|Hin].
  - destruct (call_answers name args b n Hin) as (r & b1 & n1 & -> & Hout). destruct (IH b1 n1) as (rs & b2 & n2 & -> & Hf & Hrest).
    exists (r :: rs), b2, n2. split; [done|]. split; [intros Hb; by eapply Hf, outcome_keeps_fault|]. intros Hno Hc.
    destruct Hout as [v b1 F Hmade|e b1 Hfault|e Hun].
    + destruct (Hmade Hc) as [Hc1 Hl]. destruct (Hrest Hno Hc1) as (Hc2 & Hl2 & Hall). split; [done|]. cbn. split; [lia|].
      intros [|i] c e; cbn; [done|apply Hall].
    + exfalso. apply Hf in Hfault as [x Hx]. congruence.
    + destruct (Hrest Hno Hc) as (Hc2 & Hl2 & Hall). split; [done|]. cbn. split; [lia|].
      intros [|i] c e'; cbn; [by intros [= <-]|apply Hall].
  - rewrite js_call_other by done. destruct (IH b n) as (rs & b2 & n2 & -> & Hf & Hrest). eexists (_ :: rs), b2, n2. split; [done|].
    split; [done|]. intros Hno Hc. destruct (Hrest Hno Hc) as (Hc2 & Hl2 & Hall). split; [done|]. cbn. split; [lia|].
    intros [|i] c e'; cbn; [|apply Hall]. intros [= <-]. unfold is_builtin. cbn [fst]. by rewrite bool_decide_false.
Qed.

(** C35. A script that compiles misused no builtin, whatever it caught: a call of one that threw could not read its
    array, which was the script's own doing; and its program is all it made, each decision used once: it has as many
    decisions as there were answers, at most [MAX_DECISIONS], and keeps the limits on names, inputs and sequences. *)
Theorem js_program_is_what_was_made calls evaluated program : compile calls evaluated = Ok program ->
  let rs := (run_calls calls new_context).1 in
  evaluated = Ok tt /\ decisions program = length (List.filter answered rs) /\
  (decisions program <= MAX_DECISIONS)%nat /\ built_within program = true /\
  forall i c e, calls !! i = Some c -> is_builtin c = true -> rs !! i = Some (Err e) -> unreadable c.2.
Proof.
  unfold compile, new_context. destruct (run_spec calls (mkBuilder [] None) 0) as (rs & b & n & -> & _ & Hrest). cbn [data fst].
  destruct (fault b) as [message|] eqn:Hf; [done|]. destruct evaluated as [[]|e]; [|done].
  destruct Hrest as ([_ Hc] & Hl & Hall); [done|by split; [|apply clean_none]|]. rewrite omap_slots.
  destruct (kept (slots_in b)) as [|root [|]] eqn:Ek; [done| |done]. intros [= <-]. destruct (clean_root _ _ Hc Ek) as (Hd & Hm & Hw).
  unfold slots_in in Hd. rewrite length_fmap in Hd. cbn in Hl. split_and!; [done|by rewrite Hd|done|done|done].
Qed.

(** ** Every program within the limits *)

(** An array of values. *)
Definition array_of (vs : list JsValue) : JsValue :=
  VArray (Own 0) (Ok (N.of_nat (length vs))) (fun i => match vs !! i with Some v => Ok v | None => Err "no element"%string end).

(** The calls that make [ds], one after the other, the [base]th handle first,
    and their handles. *)
Definition calls_items (f : WorkDecision -> nat -> list (string * list JsValue)) :
    list WorkDecision -> nat -> list (string * list JsValue) * list JsValue :=
  fix go ds base :=
    match ds with
    | [] => ([], [])
    | d :: ds =>
        let '(cs, hs) := go ds (base + decisions d)%nat in
        (f d base ++ cs, VObject (Handle (base + decisions d - 1)%nat) :: hs)
    end.

Fixpoint calls_of (d : WorkDecision) (base : nat) : list (string * list JsValue) :=
  match d with
  | DTool name inp => [("tool"%string, [VText (Some name); VText (Some inp)])]
  | DSpawnAgent agent inp => [("spawnAgent"%string, [VText (Some agent); VText (Some inp)])]
  | DSeq ds => let '(cs, hs) := calls_items calls_of ds base in cs ++ [("seq"%string, [array_of hs])]
  | DComplete => [("complete"%string, [])]
  | DFail => [("fail"%string, [])]
  | DOnCounter missing zero other =>
      let '(cs, hs) := calls_items calls_of [missing; zero; other] base in cs ++ [("onCounter"%string, hs)]
  end.

(** The builder of the slots [s], each made with the handle of its place. *)
Definition built (s : list (option WorkDecision)) : Builder := mkBuilder (imap (fun i slot => mkNode (Handle i) slot) s) None.

Definition at_slots (s : list (option WorkDecision)) : Context := mkContext (Some (built s)) (length s).

Lemma find_handle (s : list (option WorkDecision)) i k : i < length s ->
  find_node (Handle (k + i)) (imap (fun j slot => mkNode (Handle (k + j)) slot) s) = Some i.
Proof.
  revert i k. induction s as [|x s IH]; intros i k Hi; cbn in *; [lia|]. destruct i as [|i].
  - by rewrite bool_decide_true.
  - rewrite bool_decide_false by (intros [= E]; lia).
    rewrite (imap_ext _ (fun j slot => mkNode (Handle (S k + j)) slot)) by (intros; cbn; do 2 f_equal; lia).
    replace (k + S i)%nat with (S k + i)%nat by lia. by rewrite IH by lia.
Qed.

Lemma consume_slot s i d message : s !! i = Some (Some d) ->
  consume (built s) (VObject (Handle i)) message = (Ok d, built (<[i := None]> s)).
Proof.
  intros Hi. pose proof (lookup_lt_Some _ _ _ Hi) as Hl. unfold consume. cbn [as_object mbind option_bind nodes built].
  pose proof (find_handle s i 0 Hl) as Hf. cbn in Hf. rewrite Hf. cbn. rewrite list_lookup_imap, Hi. cbn.
  unfold built. do 2 f_equal. apply list_eq. intros j. rewrite list_lookup_imap.
  destruct (decide (i = j)) as [<-|Hne].
  - rewrite !list_lookup_insert_eq; [done|done|by rewrite length_imap].
  - by rewrite !list_lookup_insert_ne, list_lookup_imap by done.
Qed.

Lemma kept_built s : omap decision (nodes (built s)) = kept s.
Proof.
  rewrite omap_slots. f_equal. unfold slots_in, built. cbn [nodes]. apply list_eq. intros i.
  rewrite list_lookup_fmap, list_lookup_imap. by destruct (s !! i).
Qed.

Lemma make_slots d s : length s < MAX_DECISIONS -> make d (at_slots s) = (Ok (VObject (Handle (length s))), at_slots (s ++ [Some d])).
Proof.
  intros Hl. unfold at_slots at 1. rewrite js_make_runs. unfold built at 1. cbn [nodes]. rewrite length_imap.
  destruct (_ <=? _)%nat eqn:E; [bool_to_prop; lia|]. unfold at_slots, built. rewrite length_app, imap_app. cbn.
  by rewrite Nat.add_0_r, Nat.add_1_r.
Qed.

Lemma js_run_app k l c rs c1 : run_calls k c = (rs, c1) ->
  run_calls (k ++ l) c = let '(rs', c2) := run_calls l c1 in (rs ++ rs', c2).
Proof.
  revert c rs. induction k as [|[name args] k IH]; intros c rs; cbn.
  - intros [= <- <-]. by destruct (run_calls l c).
  - destruct (call name args c) as [r c0]. destruct (run_calls k c0) as [rs0 c2] eqn:Er.
    intros [= <- <-]. rewrite (IH _ _ Er). by destruct (run_calls l c2).
Qed.

(** [calls] make [d]. *)
Definition writes (d : WorkDecision) (calls : nat -> list (string * list JsValue)) : Prop := forall pre,
  length pre + decisions d <= MAX_DECISIONS ->
  exists rs, run_calls (calls (length pre)) (at_slots pre) = (rs, at_slots (pre ++ slots_of d)).

Lemma js_items_written f ds pre : Forall (fun d => writes d (f d)) ds -> length pre + total ds <= MAX_DECISIONS ->
  exists rs, run_calls (fst (calls_items f ds (length pre))) (at_slots pre) = (rs, at_slots (pre ++ slots ds)).
Proof.
  intros Hall. revert pre. induction Hall as [|d ds Hd _ IH]; intros pre Hmax; cbn.
  { exists []. by rewrite app_nil_r. }
  change (total (d :: ds)) with (decisions d + total ds)%nat in Hmax.
  destruct (Hd pre) as [rs Hrs]; [lia|]. destruct (IH (pre ++ slots_of d)) as [rs' Hrs'].
  { rewrite length_app, slots_of_length. lia. }
  rewrite length_app, slots_of_length in Hrs'. destruct (calls_items f ds (length pre + decisions d)) as [cs hs]. cbn in *.
  exists (rs ++ rs'). rewrite (js_run_app _ _ _ _ _ Hrs), Hrs'. by rewrite <-app_assoc.
Qed.

Lemma items_consumed f ds pre : consume_items (built (pre ++ slots ds)) (snd (calls_items f ds (length pre))) =
  (Ok ds, built (pre ++ replicate (total ds) None)).
Proof.
  revert pre. induction ds as [|d ds IH]; intros pre; [done|]. destruct (slots_take d ds pre) as [Hslot Htake].
  generalize dependent (slots (d :: ds)). intros l Hslot Htake. cbn.
  destruct (calls_items f ds (length pre + decisions d)) as [cs hs] eqn:Ec. cbn [snd consume_items].
  rewrite (consume_slot _ _ _ _ Hslot), Htake.
  specialize (IH (pre ++ replicate (decisions d) None)). rewrite length_app, length_replicate, Ec in IH. cbn [snd] in IH.
  rewrite IH. do 2 f_equal. change (total (d :: ds)) with (decisions d + total ds)%nat. by rewrite replicate_add, app_assoc.
Qed.

Lemma read_array vs k : read_items (fun i => match vs !! i with Some v => Ok v | None => Err "no element"%string end) k (length vs - k) = Ok (drop k vs).
Proof.
  remember (length vs - k)%nat as n eqn:En. revert k En. induction n as [|n IH]; intros k En; cbn.
  - by rewrite drop_ge by lia.
  - destruct (lookup_lt_is_Some_2 vs k) as [v Hv]; [lia|]. rewrite Hv, IH by lia. by rewrite (drop_S vs v k).
Qed.

Lemma handles_length f ds base : length (snd (calls_items f ds base)) = length ds.
Proof.
  revert base. induction ds as [|d ds IH]; intros base; [done|]. cbn. specialize (IH (base + decisions d)%nat).
  destruct (calls_items f ds (base + decisions d)). cbn in *. by rewrite IH.
Qed.

Lemma length_le_total ds : length ds <= total ds.
Proof. unfold total. induction ds as [|d ds IH]; cbn in *; [lia|]. pose proof (decisions_pos d). lia. Qed.

(** A sequence of what [hs] stand for. *)
Lemma seq_runs hs s ds s' : hs <> [] -> length hs <= MAX_DECISIONS ->
  consume_items (built s) hs = (Ok ds, built s') -> length s' = length s ->
  seq_of [array_of hs] (at_slots s) = make (DSeq ds) (at_slots s').
Proof.
  intros Hne Hlen Hc Hl. unfold seq_of, array_of.
  destruct (N.of_nat (length hs) =? 0)%N eqn:E0; [bool_to_prop; destruct hs; [done|cbn in *; lia]|].
  destruct (N.of_nat MAX_DECISIONS <? N.of_nat (length hs))%N eqn:El; [bool_to_prop; lia|].
  rewrite Nat2N.id. pose proof (read_array hs 0) as Hr. rewrite Nat.sub_0_r, drop_0 in Hr. rewrite Hr.
  unfold at_slots at 1. rewrite bind_take. cbv beta. rewrite Hc, bind_insert. cbn [handles]. unfold at_slots. by rewrite Hl.
Qed.

Lemma counter_runs m z o hm hz ho s s' : consume_items (built s) [hm; hz; ho] = (Ok [m; z; o], built s') -> length s' = length s ->
  on_counter [hm; hz; ho] (at_slots s) = make (DOnCounter m z o) (at_slots s').
Proof.
  intros Hc Hl. unfold on_counter, at_slots at 1. rewrite bind_take. cbv beta.
  assert (forall b v d b', consume b v SEQ_ITEMS = (Ok d, b') -> consume b v ON_COUNTER_ARITY = (Ok d, b')) as Hsame.
  { intros b v d b'. unfold consume. by destruct (o ← as_object v; _) as [[i node]|]; [destruct (decision node)|]. }
  cbn [consume_items] in Hc. destruct (consume (built s) hm SEQ_ITEMS) as [[d1|] b1] eqn:E1; [|done].
  destruct (consume b1 hz SEQ_ITEMS) as [[d2|] b2] eqn:E2; [|done]. destruct (consume b2 ho SEQ_ITEMS) as [[d3|] b3] eqn:E3; [|done].
  injection Hc as -> -> -> ->. apply Hsame in E1, E2, E3. rewrite E1, E2, E3, bind_insert. cbn [handles]. unfold at_slots. by rewrite Hl.
Qed.

Lemma checked_runs name inp message d s : valid_name name && (String.length inp <=? MAX_INPUT_BYTES)%nat = true ->
  checked name inp message d (at_slots s) = make d (at_slots s).
Proof.
  intros [Hn Hi]%andb_true_iff. unfold checked. rewrite Hn. cbn [negb].
  destruct (MAX_INPUT_BYTES <? String.length inp)%nat eqn:E; [|done]. apply Nat.leb_le in Hi. bool_to_prop. lia.
Qed.

Lemma js_calls_write d : built_within d = true -> writes d (calls_of d).
Proof.
  induction d as [name inp|agent inp|ds IH| | |m z o IHm IHz IHo] using WorkDecision_nested_ind; intros Hb pre Hmax.
  - cbn in Hmax. cbn [calls_of run_calls]. change (call "tool" [VText (Some name); VText (Some inp)]) with (checked name inp TOOL_NAME (DTool name inp)).
    rewrite checked_runs by exact Hb. rewrite make_slots by lia. by eexists.
  - cbn in Hmax. cbn [calls_of run_calls].
    change (call "spawnAgent" [VText (Some agent); VText (Some inp)]) with (checked agent inp AGENT_NAME (DSpawnAgent agent inp)).
    rewrite checked_runs by exact Hb. rewrite make_slots by lia. by eexists.
  - cbn [built_within] in Hb. apply andb_true_iff in Hb as [Hne Hb]. bool_to_prop. rewrite forallb_forall in Hb.
    change (decisions (DSeq ds)) with (S (total ds)) in Hmax.
    assert (Forall (fun d => writes d (calls_of d)) ds) as Hall.
    { rewrite Forall_forall in IH |- *. intros d Hd. apply IH; [done|]. by apply Hb, list_elem_of_In. }
    destruct (js_items_written calls_of ds pre Hall) as [rs Hrs]; [lia|]. pose proof (items_consumed calls_of ds pre) as Ht.
    pose proof (handles_length calls_of ds (length pre)) as Hhs. pose proof (length_le_total ds) as Hle.
    cbn [calls_of]. destruct (calls_items calls_of ds (length pre)) as [cs hs]. cbn [fst snd] in *.
    eexists. rewrite (js_run_app _ _ _ _ _ Hrs). cbn [run_calls]. change (call "seq" [array_of hs]) with (seq_of [array_of hs]).
    rewrite (seq_runs hs _ ds _ ltac:(intros ->; by destruct Hne) ltac:(lia) Ht)
      by (rewrite !length_app, length_replicate, slots_length; lia).
    rewrite make_slots by (rewrite length_app, length_replicate; lia). by rewrite (replicate_slots (DSeq ds)).
  - cbn in Hmax. cbn [calls_of run_calls]. change (call "complete" []) with (make DComplete). rewrite make_slots by lia. by eexists.
  - cbn in Hmax. cbn [calls_of run_calls]. change (call "fail" []) with (make DFail). rewrite make_slots by lia. by eexists.
  - cbn [built_within] in Hb. apply andb_true_iff in Hb as [[Hm Hz]%andb_true_iff Ho].
    assert (decisions (DOnCounter m z o) = S (total [m; z; o])) as Ed by (unfold total; cbn; lia). rewrite Ed in Hmax.
    destruct (js_items_written calls_of [m; z; o] pre) as [rs Hrs]; [by repeat constructor; auto|lia|].
    pose proof (items_consumed calls_of [m; z; o] pre) as Ht. cbn [calls_of].
    destruct (calls_items calls_of [m; z; o] (length pre)) as [cs hs] eqn:Ec. cbn [fst snd] in *.
    cbn in Ec. injection Ec as _ <-. eexists. rewrite (js_run_app _ _ _ _ _ Hrs). cbn [run_calls].
    match goal with |- context [call "onCounter" ?args] => change (call "onCounter" args) with (on_counter args) end.
    rewrite (counter_runs _ _ _ _ _ _ _ _ Ht) by (rewrite !length_app, length_replicate, slots_length; lia).
    rewrite make_slots by (rewrite length_app, length_replicate; lia). by rewrite (replicate_slots (DOnCounter m z o)).
Qed.

(** Every program that keeps the limits, and has at most [MAX_DECISIONS] decisions, can be written: the calls
    [calls_of] gives for it compile to it. *)
Theorem js_writes_every_program p : built_within p = true -> (decisions p <= MAX_DECISIONS)%nat ->
  compile (calls_of p 0) (Ok tt) = Ok p.
Proof.
  intros Hb Hmax. destruct (js_calls_write p Hb []) as [rs Hrs]; [done|]. unfold compile. cbn [length] in Hrs.
  change new_context with (at_slots []). rewrite Hrs. unfold at_slots. cbn [data app].
  change (fault (built (slots_of p))) with (@None string). by rewrite kept_built, kept_slots_of.
Qed.

(** ** At concrete inputs *)

Definition demo_program : WorkflowProgram := DSeq [DTool "echo" "hi"; DOnCounter (DTool "counter" "") DComplete DFail].

Lemma js_writes_every_program_witness :
  length (calls_of demo_program 0) = 6 /\ compile (calls_of demo_program 0) (Ok tt) = Ok demo_program.
Proof.
  split; [vm_compute; reflexivity|]. apply js_writes_every_program; [vm_compute; reflexivity|].
  apply Nat.leb_le. vm_compute. reflexivity.
Defined.

(** An array whose element throws is the script's own doing; an object of its
    own is no decision. *)
Lemma js_program_is_what_was_made_witness :
  let throwing := VArray (Own 1) (Ok 1%N) (fun _ => Err "thrown"%string) in
  let calls := [("complete", []); ("seq", [throwing])]%string in
  compile (calls ++ [("seq"%string, [array_of [VObject (Own 0)]])]) (Ok tt) = Err (InvalidProgram SEQ_ITEMS) /\
  compile calls (Ok tt) = Ok DComplete /\ unreadable [throwing] /\
  decisions DComplete = length (List.filter answered (run_calls calls new_context).1).
Proof.
  intros throwing calls. assert (compile calls (Ok tt) = Ok DComplete) as E by (vm_compute; reflexivity).
  destruct (js_program_is_what_was_made calls (Ok tt) DComplete E) as (_ & Hd & _ & _ & Hun).
  split; [vm_compute; reflexivity|]. split; [exact E|]. split; [|exact Hd].
  exact (Hun 1 ("seq"%string, [throwing]) "thrown"%string eq_refl eq_refl eq_refl).
Defined.
