(* ===== verification/WorkerLoop.v ===== *)
(** * The threads of a server ([server/worker.rs], [server/scheduler.rs])

    What [Worker], [Sweeps] and [Scheduler] leave out: the loops that take one
    run after another, sweep, reap and fire, and the heartbeat that keeps the
    lease of a claimed run.  Time passes in the queue's own steps; a loop is
    unfolded for the passes it makes, and the theorems are for any number.

    The theorems: while each beat reaches Redis before the lease ends, the run
    stays the worker's and nobody else is handed it
    ([heartbeat_keeps_the_lease]); a beat that finds the lease gone is the last
    ([heartbeat_ends_with_the_lease]); the loop pauses after every pass that
    did no work, for no longer than its settings say ([worker_pauses]); and
    however many passes they make, workers ([worker_goes_on]) and the threads
    beside them ([threads_go_on]) keep the rules and strand nothing. *)

From S2P Require Import Prelude Text Protocol Uuids SpecBuilder Queue QueueProofs MemoryOwner Store Driver.
From S2P Require Import Server ServerLogic Sandbox Turns Worker WorkerProofs Scheduler Sweeps.

(** ** The heartbeat *)

Section Heartbeat.
Context `{RR : Redis R} `{RL : !RedisLaws R} (q : RunQueue) (Hq : keys_ok q).
Context (timing : QueueTiming) (id token : string).

(** Between two beats: what the queue's other callers and the clock do, and
    whether the call of [renew] that follows reaches Redis. *)
Record Interval : Type := mkInterval { others : list QueueOp; reached : bool }.

(** [heartbeat], until [stopped] closes after the last interval, or a beat
    finds the lease gone; and the answers of its beats. *)
Fixpoint heartbeat_loop (intervals : list Interval) (r : R) : list (result bool string) * R :=
  match intervals with
  | [] => ([], r)
  | interval :: intervals =>
      let r := queue_steps q r (others interval) in
      if reached interval then
        let '(kept, r) := renew q r id token (lease_time timing) in
        if kept then let '(answers, r) := heartbeat_loop intervals r in (Ok true :: answers, r)
        else ([Ok false], r)
      else let '(answers, r) := heartbeat_loop intervals r in (Err "unreachable"%string :: answers, r)
  end.

(** What was handed out by [ops]. *)
Fixpoint handed (ops : list QueueOp) (r : R) : list string :=
  match ops with
  | [] => []
  | op :: ops =>
      let '(c, r') := queue_step q r op in
      match op, c with QClaim _ _, Some i => i :: handed ops r' | _, _ => handed ops r' end
  end.

(** What was handed out while the heartbeat went on. *)
Fixpoint handed_meanwhile (intervals : list Interval) (r : R) : list string :=
  match intervals with
  | [] => []
  | interval :: intervals =>
      let r' := queue_steps q r (others interval) in
      handed (others interval) r ++
      handed_meanwhile intervals (if reached interval then snd (renew q r' id token (lease_time timing)) else r')
  end.

(** Each interval ends before [until], the end of the lease, which a beat that
    reaches Redis moves. *)
Fixpoint in_time (until : N) (intervals : list Interval) (r : R) : Prop :=
  match intervals with
  | [] => True
  | interval :: intervals =>
      let r := queue_steps q r (others interval) in
      let now := now_ms (db r) in
      (now < until)%N /\
      if reached interval then in_time (now + millis (lease_time timing))%N intervals (snd (renew q r id token (lease_time timing)))
      else in_time until intervals r
  end.

Definition not_ours (interval : Interval) : Prop := Forall (fun op => ~ holder_op id token op) (others interval).

(** The lease [r1] was got in [r] and is the worker's for the lease's time. *)
Definition got (r r1 : R) (ms : N) : Prop :=
  claim q r token ms = (Some id, r1) \/ renew q r id token ms = (true, r1).

Lemma handed_claims ops r i : i ∈ handed ops r ->
  exists pre t ms post, ops = pre ++ QClaim t ms :: post /\ fst (claim q (queue_steps q r pre) t ms) = Some i.
Proof.
  revert r. induction ops as [|op ops IH]; intros r; cbn [handed]; [by intros ?%not_elem_of_nil|].
  destruct (queue_step q r op) as [c r'] eqn:Es.
  assert (i ∈ handed ops r' -> exists pre t ms post, op :: ops = pre ++ QClaim t ms :: post /\
    fst (claim q (queue_steps q r pre) t ms) = Some i) as Hrest.
  { intros (pre & t & ms & post & -> & Hc)%IH. exists (op :: pre), t, ms, post. split; [done|]. cbn. by rewrite Es. }
  destruct op; try exact Hrest. destruct c as [j|]; [|exact Hrest]. intros [->|Hin]%elem_of_cons; [|by apply Hrest].
  exists [], token0, ms, ops. split; [done|]. cbn in Es |- *. by rewrite Es.
Qed.

Lemma queue_steps_app r k l : queue_steps q r (k ++ l) = queue_steps q (queue_steps q r k) l.
Proof. apply fold_left_app. Qed.

(** From when the lease was got, with [done_] since. *)
Lemma heartbeat_from intervals r0 r1 done_ ms : got r0 r1 ms -> Forall (fun op => ~ holder_op id token op) done_ ->
  Forall not_ours intervals -> in_time (now_ms (db r0) + millis ms) intervals (queue_steps q r1 done_) ->
  (now_ms (db (queue_steps q r1 done_)) < now_ms (db r0) + millis ms)%N ->
  let '(answers, r') := heartbeat_loop intervals (queue_steps q r1 done_) in
  (Ok false ∉ answers) /\ length answers = length intervals /\ lease_of q r' id = Some token /\
  id ∉ handed_meanwhile intervals (queue_steps q r1 done_).
Proof.
  revert r0 r1 done_ ms. induction intervals as [|[ops ok] intervals IH]; intros r0 r1 done_ ms Hgot Hdone Hours Hin Hnow.
  { cbn. split_and!; [apply not_elem_of_nil|done| |apply not_elem_of_nil]. by apply (lease_excludes q Hq r0 token ms id r1 done_ Hgot Hdone Hnow). }
  apply Forall_cons in Hours as [Hops Hours]. unfold not_ours in Hops. cbn [others] in Hops.
  cbn [heartbeat_loop handed_meanwhile in_time others reached] in Hin |- *. destruct Hin as [Hlt Hin].
  rewrite <-queue_steps_app in Hlt, Hin |- *.
  assert (Forall (fun op => ~ holder_op id token op) (done_ ++ ops)) as Hall by (by apply Forall_app).
  destruct (lease_excludes q Hq r0 token ms id r1 (done_ ++ ops) Hgot Hall Hlt) as [Hlease Hno].
  assert (id ∉ handed ops (queue_steps q r1 done_)) as Hfree.
  { intros (pre & t & ms' & post & -> & Hc)%handed_claims. rewrite <-queue_steps_app in Hc.
    by apply (Hno (done_ ++ pre) t ms' post); [by rewrite <-app_assoc|]. }
  destruct ok.
  - destruct (renew q (queue_steps q r1 (done_ ++ ops)) id token (lease_time timing)) as [kept r2] eqn:Er.
    pose proof Er as Hview. apply renew_view in Hview as [(-> & _ & Hv)|(_ & Hl & _)]; [|done]. cbn [snd] in Hin |- *.
    specialize (IH _ r2 [] (lease_time timing) (or_intror Er) (Forall_nil_2 _) Hours Hin).
    cbn in IH. destruct (heartbeat_loop intervals r2) as [answers r3].
    destruct IH as (H1 & H2 & H3 & H4). { destruct Hv as [_ _ _ _ Hn]. unfold now_ms in *. rewrite Hn. unfold millis. lia. }
    split_and!; [rewrite elem_of_cons; naive_solver|cbn; by f_equal|done|]. rewrite elem_of_app. naive_solver.
  - specialize (IH r0 r1 (done_ ++ ops) ms Hgot Hall Hours Hin Hlt).
    destruct (heartbeat_loop intervals (queue_steps q r1 (done_ ++ ops))) as [answers r3]. destruct IH as (H1 & H2 & H3 & H4).
    split_and!; [rewrite elem_of_cons; naive_solver|cbn; by f_equal|done|]. rewrite elem_of_app. naive_solver.
Qed.

(** C29. The heartbeat keeps the run: from the claim on, whatever the queue's other callers do between the beats and
    whichever beats fail to reach Redis, as long as each interval ends before the lease does, every beat that reaches
    Redis finds the lease the worker's, it is the worker's at the end, and nobody was handed the run meanwhile. *)
Theorem heartbeat_keeps_the_lease intervals r r1 :
  claim q r token (lease_time timing) = (Some id, r1) -> Forall not_ours intervals ->
  in_time (now_ms (db r) + millis (lease_time timing)) intervals r1 ->
  let '(answers, r') := heartbeat_loop intervals r1 in
  (Ok false ∉ answers) /\ length answers = length intervals /\ lease_of q r' id = Some token /\
  id ∉ handed_meanwhile intervals r1.
Proof.
  intros Hc Hours Hin. apply (heartbeat_from intervals r r1 [] (lease_time timing)); [by left|constructor|done|done|].
  apply claim_view in Hc as [(? & _)|(l & i & _ & [(? & _)|(_ & _ & Hv)])]; [done|done| |done].
  destruct Hv as [_ _ _ _ Hn]. cbn. unfold now_ms. rewrite Hn. unfold millis. lia.
Qed.

(** A beat that finds the lease another's, or gone, changes nothing and is the
    last. *)
Theorem heartbeat_ends_with_the_lease interval intervals r : reached interval = true ->
  lease_of q (queue_steps q r (others interval)) id <> Some token ->
  heartbeat_loop (interval :: intervals) r = ([Ok false], queue_steps q r (others interval)).
Proof.
  intros Hr Hl. cbn [heartbeat_loop]. rewrite Hr.
  destruct (renew q _ id token (lease_time timing)) as [b r2] eqn:Er.
  apply renew_view in Er as [(_ & ? & _)|(-> & _ & ->)]; done.
Qed.

End Heartbeat.

(** ** One run after another *)

(** What a pass of [work_one] came to: a run, none waiting, an error, a
    panic. *)
Inductive Pass := Worked (run : RunId) | NothingWaiting | PassFailed (error : string) | PassPanicked.

(** The failures in a row after a pass, and how long the loop sleeps, in
    milliseconds. *)
Definition after_pass (timing : QueueTiming) (failures : N) (pass : Pass) : N * option N :=
  match pass with
  | Worked _ => (0%N, None)
  | NothingWaiting => (0%N, Some (idle_wait timing))
  | PassFailed _ | PassPanicked => let failures := wrap_add32 failures 1 in (failures, Some (backoff timing failures))
  end.

(** [work_forever], for the passes it makes: the sleeps between them. *)
Fixpoint work_forever (timing : QueueTiming) (failures : N) (passes : list Pass) : list (option N) :=
  match passes with
  | [] => []
  | pass :: passes => let '(failures, sleep) := after_pass timing failures pass in sleep :: work_forever timing failures passes
  end.

(** The failures in a row a loop that starts with [n] has after the passes. *)
Fixpoint in_a_row (n : N) (passes : list Pass) : N :=
  match passes with
  | [] => n
  | (Worked _ | NothingWaiting) :: passes => in_a_row 0 passes
  | (PassFailed _ | PassPanicked) :: passes => in_a_row (n + 1) passes
  end.

Lemma work_forever_at timing passes n i pass : passes !! i = Some pass ->
  work_forever timing (n mod 4294967296) passes !! i =
    Some (after_pass timing (in_a_row n (take i passes) mod 4294967296) pass).2.
Proof.
  revert n i. induction passes as [|p passes IH]; intros n i; [by rewrite lookup_nil|].
  assert (wrap_add32 (n mod 4294967296) 1 = (n + 1) mod 4294967296)%N as Hwrap
    by (unfold wrap_add32; by rewrite N.Div0.add_mod_idemp_l).
  destruct i as [|i]; cbn [lookup list_lookup take in_a_row work_forever].
  - intros [= ->]. destruct pass; cbn; rewrite ?Hwrap; reflexivity.
  - intros Hi. destruct p; cbn [after_pass]; rewrite ?Hwrap; cbn [lookup list_lookup];
      [by apply (IH 0%N)|by apply (IH 0%N)|by apply IH|by apply IH].
Qed.

(** The loop goes on after every pass, and pauses after each that did no work: for [idle_wait] when no run was
    waiting, and after a failure or a panic for the backoff of the failures in a row, never longer than
    [max_backoff]; after a run it goes on at once. *)
Theorem worker_pauses timing passes i pass : passes !! i = Some pass ->
  work_forever timing 0 passes !! i = Some
    match pass with
    | Worked _ => None
    | NothingWaiting => Some (idle_wait timing)
    | PassFailed _ | PassPanicked => Some (backoff timing (in_a_row 0 (take (S i) passes) mod 4294967296))
    end /\
  (match pass with PassFailed _ | PassPanicked => backoff timing (in_a_row 0 (take (S i) passes) mod 4294967296) <= max_backoff timing | _ => True end)%N.
Proof.
  intros Hi. split.
  - rewrite (work_forever_at timing passes 0 i pass Hi : work_forever timing 0 passes !! i = _), (take_S_r _ _ _ Hi).
    assert (forall l n, in_a_row n (l ++ [pass]) = match pass with Worked _ | NothingWaiting => 0 | _ => in_a_row n l + 1 end)%N as Hsnoc.
    { intros l. induction l as [|p l IH]; intros n; cbn [app in_a_row]; [by destruct pass|]. by destruct p, pass; rewrite IH. }
    rewrite Hsnoc. destruct pass; cbn; unfold wrap_add32; rewrite ?N.Div0.add_mod_idemp_l; done.
  - destruct pass; try done; unfold backoff; lia.
Qed.

(** ** The loops over the server's state

    [again] is a loop for the passes it makes.  The others step at each of its
    calls, so what they do while it sleeps is what they do before the next. *)

Section Loops.
Context `{UuidCrate} {R X : Type} `{Redis R} `{!RedisLaws R}.

Local Open Scope rust_scope.

Fixpoint again {A} (n : nat) (body : @M R X A) : @M R X unit :=
  match n with O => ret tt | S n => let! _ := body in again n body end.

Lemma triple_again q G `{!Discipline q G} {A} P (body : @M R X A) n :
  triple q G P body (fun _ => P) -> triple q G P (again n body) (fun _ => P).
Proof.
  intros Hb. induction n as [|n IH]; cbn [again]; [apply (triple_ret q G tt (fun _ => P))|].
  by eapply (triple_bind q G).
Qed.

Section Work.
Context `{Memory X} `{SandboxHost X} `{GatewayPoster X}.
Context (resume_debug : ResumeError → string) (turn_debug : TurnError → string).
Context (wk : Worker X) (Hq : keys_ok (wk_queue wk)).

(** One turn of the loop of [work_forever].  A panic leaves the state as a
    pass whose last calls failed does. *)
Definition work_pass : @M R X Pass :=
  let! worked := work_one resume_debug turn_debug wk in
  ret (match worked with
       | Ok (Some run) => Worked run
       | Ok None => NothingWaiting
       | Err error => PassFailed error
       end).

(** [work_forever], for [n] passes: each with the sleep after it. *)
Fixpoint work_loop (n : nat) (failures : N) : @M R X (list (Pass * option N)) :=
  match n with
  | O => ret []
  | S n =>
      let! pass := work_pass in
      let '(failures, sleep) := after_pass (wk_timing wk) failures pass in
      let! passes := work_loop n failures in
      ret ((pass, sleep) :: passes)
  end.

Definition worked_held (s : Shared R) (pass : Pass * option N) : Prop :=
  match pass.1 with Worked run => held (wk_queue wk) run s | _ => True end.

Lemma triple_work_loop n failures :
  triple (wk_queue wk) (prompt (wk_queue wk)) (fun _ => True) (work_loop n failures)
    (fun passes s => Forall (worked_held s) passes).
Proof.
  revert failures. induction n as [|n IH]; intros failures; cbn [work_loop].
  { apply (triple_done (wk_queue wk) (prompt (wk_queue wk))). constructor. }
  set (q := wk_queue wk) in *. set (G := prompt q).
  assert (forall pass sleep, stable q G (fun s => worked_held s (pass, sleep))) as Hst.
  { intros [] sleep; unfold worked_held; cbn; try (by intros s s'). apply (stable_held q G). }
  apply (triple_bind q G) with (Q := fun pass s => worked_held s (pass, None)).
  { unfold work_pass. eapply (triple_bind q G); [by apply triple_work_one|].
    intros [[run|]|e]; by apply (triple_done q G). }
  intros pass. destruct (after_pass _ failures pass) as [failures' sleep].
  apply (triple_bind q G) with (Q := fun passes s => worked_held s (pass, None) /\ Forall (worked_held s) passes).
  - eapply (triple_post q G); [eapply (triple_pre q G); [apply (triple_frame q G (fun s => worked_held s (pass, None))); [apply Hst|apply IH]|]|].
    + by intros s _ Hh.
    + intros passes s _ [Hh Hp]. by split.
  - intros passes. apply (triple_done q G). intros s _ [Hh Hp]. by constructor.
Qed.

Lemma work_loop_sleeps n failures w :
  (snd <$> (work_loop n failures w).1) = work_forever (wk_timing wk) failures (fst <$> (work_loop n failures w).1).
Proof.
  revert failures w. induction n as [|n IH]; intros failures w; cbn [work_loop]; [done|].
  unfold bind. destruct (work_pass w) as [pass w1]. destruct (after_pass (wk_timing wk) failures pass) as [failures' sleep] eqn:Ea.
  specialize (IH failures' w1). destruct (work_loop n failures' w1) as [passes w2]. cbn in IH |- *. rewrite Ea. by f_equal.
Qed.

(** A worker can go on for ever: among any other processes that follow the rules, whichever calls fail, after any
    number of passes, each of which may have worked a run, found none or failed, every step was within the rules, each
    run that was worked is still in the queue or has ended, and the sleeps were those [worker_pauses] tells of. *)
Theorem worker_goes_on n w :
  let '(passes, w') := work_loop n 0 w in
  respectful (wk_queue wk) (prompt (wk_queue wk)) w -> Good (wk_queue wk) (sv_shared w) ->
  keeps (wk_queue wk) (prompt (wk_queue wk)) w w' /\ length passes = n /\
  Forall (worked_held (sv_shared w')) passes /\
  snd <$> passes = work_forever (wk_timing wk) 0 (fst <$> passes).
Proof.
  pose proof (work_loop_sleeps n 0 w) as Hs. destruct (work_loop n 0 w) as [passes w'] eqn:E. intros Hr Hg.
  destruct (triple_work_loop n 0 w Hr Hg I) as [Hm Hh]. rewrite E in Hm, Hh. cbn [fst snd] in *. split_and!; [|clear Hs|done|done].
  - split; [done|]. by eapply (moves_good (wk_queue wk) (prompt (wk_queue wk))).
  - clear Hh Hm Hr Hg. revert passes w' w E. generalize 0%N. induction n as [|n IH]; intros f passes w' w E; cbn [work_loop] in E.
    { by injection E as <- <-. }
    unfold bind in E. destruct (work_pass w) as [pass w1]. destruct (after_pass _ f pass) as [f' sleep].
    destruct (work_loop n f' w1) as [rest w2] eqn:E2. injection E as <- <-. cbn. f_equal. by eapply IH.
Qed.

End Work.

(** [schedule_forever] and [sweep_sandboxes_forever]. *)
Definition schedule_forever `{Clocks} q fire_debug (n : nat) : @M R X unit := again n (drain q fire_debug DRAIN_PASSES).

Definition sweep_sandboxes_forever `{SandboxHost X} (n : nat) : @M R X unit := again n sweep_sandboxes.

(** [reap_forever]. *)
Definition reap_forever q enqueue_debug (messages outbox : bool) (timing : QueueTiming) (n : nat) : @M R X unit :=
  again n (reap_pass enqueue_debug q messages outbox timing).

(** In none of the [n] passes from [w] on is the put of a run still to come
    that was pending for [forget_after] then. *)
Fixpoint never_late q (enqueue_debug : Spawner.EnqueueError → string) (messages outbox : bool) (timing : QueueTiming)
    (n : nat) (w : Server R X) : Prop :=
  match n with
  | O => True
  | S n =>
      let w1 := (do_reap q w).2 in
      no_late_put q (forgotten_by q (forget_after timing) w1) w1 /\
      never_late q enqueue_debug messages outbox timing n (reap_pass enqueue_debug q messages outbox timing w).2
  end.

(** The threads beside the workers strand nothing either, however long they run: the scheduler and the sandbox
    sweeper always, and the reaper as long as no put comes late of a run that was pending for [forget_after]. *)
Theorem threads_go_on `{Clocks} `{SandboxLaws X} q (Hq : keys_ok q) fire_debug enqueue_debug messages outbox timing n
    (w : Server R X) :
  Good q (sv_shared w) ->
  (respectful q (prompt q) w -> keeps q (prompt q) w (schedule_forever q fire_debug n w).2) /\
  (respectful q (evolves q) w -> keeps q (evolves q) w (sweep_sandboxes_forever n w).2) /\
  (respectful q (evolves q) w -> never_late q enqueue_debug messages outbox timing n w ->
     keeps q (evolves q) w (reap_forever q enqueue_debug messages outbox timing n w).2).
Proof.
  intros Hg. split_and!.
  - intros Hr. eapply triple_keeps; [apply _|apply (triple_again q (prompt q) (fun _ => True)), triple_drain|..]; done.
  - intros Hr. eapply triple_keeps; [apply _|apply (triple_again q (evolves q) (fun _ => True))|..]; [|done..].
    intros w0 Hr0 Hg0 _. split; [|done]. destruct (sweep_sandboxes w0) as [r w1] eqn:E.
    destruct (sweep_sandboxes_sweeps q w0 r w1 E) as [Hs _]. by apply Hs.
  - revert w Hg. unfold reap_forever. induction n as [|n IH]; intros w Hg Hr Hl; cbn [again never_late] in *.
    { split; [reflexivity|done]. }
    destruct Hl as [Hl Hlater]. destruct (reap_pass_keeps q Hq enqueue_debug w messages outbox timing Hr Hg Hl) as [Hm Hg1].
    unfold bind. destruct (reap_pass enqueue_debug q messages outbox timing w) as [[] w1]. cbn [snd] in *.
    destruct (IH w1 Hg1) as [Hm2 Hg2]; [by eapply (moves_respectful q (evolves q))|done|]. split; [by etrans|done].
Qed.

End Loops.

(** ** At concrete inputs *)

(** A beat in time, one that does not reach Redis, and one that does, while
    another worker and the reaper try. *)
Definition demo_intervals : list Interval :=
  [mkInterval [QElapse 10000000; QReap] true; mkInterval [QElapse 10000000; QClaim "b" 30000] false;
   mkInterval [QElapse 10000000; QReap; QClaim "b" 30000] true].

Definition quick_timing : QueueTiming := QueueTiming_default.

Lemma heartbeat_keeps_the_lease_witness :
  (heartbeat_loop Queue.open quick_timing "run-1" "a" demo_intervals claimed_db).1 = [Ok true; Err "unreachable"%string; Ok true] /\
  "run-1" ∉ handed_meanwhile Queue.open quick_timing "run-1" "a" demo_intervals claimed_db.
Proof.
  split; [vm_compute; reflexivity|].
  assert (let '(answers, r') := heartbeat_loop Queue.open quick_timing "run-1" "a" demo_intervals claimed_db in
    ((Ok false) ∉ answers) /\ length answers = length demo_intervals /\ lease_of Queue.open r' "run-1" = Some "a"%string /\
    "run-1" ∉ handed_meanwhile Queue.open quick_timing "run-1" "a" demo_intervals claimed_db) as H.
  { apply (heartbeat_keeps_the_lease Queue.open gol_ok quick_timing "run-1" "a" demo_intervals queued_db claimed_db).
    - vm_compute. reflexivity.
    - unfold not_ours. cbn. repeat first [apply Forall_nil_2|apply Forall_cons_2]; cbn; tauto.
    - vm_compute. repeat split. }
  destruct (heartbeat_loop Queue.open quick_timing "run-1" "a" demo_intervals claimed_db) as [answers r']. exact (proj2 (proj2 (proj2 H))).
Defined.

Lemma worker_pauses_witness :
  work_forever QueueTiming_default 0 [PassPanicked; PassFailed "redis"; NothingWaiting; PassFailed "redis"; Worked (id_of 1)] =
    [Some 500; Some 1000; Some 500; Some 500; None]%N /\
  work_forever QueueTiming_default 0 [PassPanicked; PassFailed "redis"] !! 1 = Some (Some (backoff QueueTiming_default 2)).
Proof.
  split; [vm_compute; reflexivity|].
  exact (proj1 (worker_pauses QueueTiming_default [PassPanicked; PassFailed "redis"] 1 (PassFailed "redis") eq_refl)).
Defined.

#[local] Existing Instance WorkerProofs.demo_uuids.
#[local] Existing Instance WorkerProofs.demo_poster.
#[local] Existing Instance WorkerProofs.demo_no_memory.
#[local] Existing Instance demo_clocks.

(** A run, then nothing, then nothing. *)
Lemma worker_goes_on_witness :
  (work_loop (fun _ => "resume") (fun _ => "turn") demo_worker 3 0 queued_server).1 =
    [(Worked (id_of 1), None); (NothingWaiting, Some (idle_wait (wk_timing demo_worker)));
     (NothingWaiting, Some (idle_wait (wk_timing demo_worker)))] /\
  Forall (worked_held demo_worker (sv_shared (work_loop (fun _ => "resume") (fun _ => "turn") demo_worker 3 0 queued_server).2))
    (work_loop (fun _ => "resume") (fun _ => "turn") demo_worker 3 0 queued_server).1.
Proof.
  split; [vm_compute; reflexivity|].
  pose proof (worker_goes_on (fun _ => "resume") (fun _ => "turn") demo_worker gol_ok 3 queued_server) as Hgo.
  destruct (work_loop (fun _ => "resume") (fun _ => "turn") demo_worker 3 0 queued_server) as [passes w'].
  exact (proj1 (proj2 (proj2 (Hgo queued_respectful (proj2 queued_moves))))).
Defined.

Lemma threads_go_on_witness :
  keeps Queue.open (evolves Queue.open) stranded_server
    (reap_forever Queue.open (fun _ => "error") true true QueueTiming_default 2 stranded_server).2.
Proof.
  refine (proj2 (proj2 (threads_go_on Queue.open gol_ok (fun _ => "fire") (fun _ => "error") true true QueueTiming_default 2
    stranded_server stranded_good)) stranded_respectful _).
  assert (forall forgotten (w : Server Db MemorySandbox), sv_future w = sv_future stranded_server -> no_late_put Queue.open forgotten w) as Hl.
  { intros forgotten w Hw k s id _ _ Hn. rewrite Hw, stranded_quiet. exact Hn. }
  split; [|split; [|done]]; apply Hl; vm_compute; reflexivity.
Defined.
