(* ===== verification/Startup.v ===== *)
(** * Start-up ([server/main.rs], [stores.rs], [worker.rs], [http.rs])

    How a server comes up: its settings are read from the environment, its
    stores connected, Redis pinged and the catalog loaded, the port bound, and
    only then are its threads started and requests served.  What start-up does
    outside the process is a list of actions, each of which may fail; objects
    that are shared ([Arc]) are references, those of one object equal.  The
    builders of a worker and of a deliverer have their type parameters as
    indices.

    The theorems: start-up is exactly a prefix of its plan, cut at the first
    action that fails ([main_follows_plan]); a worker is started only with
    everything ready, on what was made ready ([workers_start_when_ready]); and
    the threads and the router share one store ([server_shares_its_stores]). *)

From S2P Require Import Prelude Text Protocol SpecBuilder Driver Auth AuthProofs Mcp Gateway GatewayProofs Fires Queue Sweeps Http.

(** ** The environment *)

(** The variables in order, as bytes. *)
Definition Environ : Type := list (string * string).

(** [std::env::var_os], which takes the first, and [std::env::var]. *)
Definition var_os (env : Environ) (name : string) : option string :=
  snd <$> List.find (fun entry => bool_decide (entry.1 = name)) env.

Definition is_unicode (text : string) : bool := utf8 (string_bytes text).

Definition var (env : Environ) (name : string) : option string :=
  value ← var_os env name; if is_unicode value then Some value else None.

(** The map [main] collects: what is UTF-8, the last of a name. *)
Definition vars (env : Environ) : gmap string string :=
  fold_left (fun map entry => if is_unicode entry.1 && is_unicode entry.2 then <[entry.1 := entry.2]> map else map) env ∅.

(** [catalog_dir_from_env]. *)
Definition catalog_dir_from_env (env : Environ) : option string :=
  dir ← var_os env "GOL_CATALOG_DIR"; if bool_decide (dir = "") then None else Some dir.

(** [parse::<u16>] and [parse::<u32>]. *)
Definition parse_at_most (most : N) (text : string) : option N :=
  n ← parse_u64 text; if (n <=? most)%N then Some n else None.

Definition port_from_env (env : Environ) : N :=
  default 43123%N (value ← var env "GOL_PORT"; parse_at_most 65535 value).

Definition jev_from_env (env : Environ) : string := default "https://api.typesafe.ai" (var env "TYPESAFE_BASE_URL").

(** [HttpGatewayPoster]; the timeout is in milliseconds. *)
Record HttpGatewayPoster : Type := mkHttpGatewayPoster { po_url : string; po_token : string; po_timeout : N }.

Definition GATEWAY_TIMEOUT : N := 600000.

Definition poster_from_env (env : Environ) : HttpGatewayPoster :=
  mkHttpGatewayPoster (default "http://127.0.0.1:43124" (var env "GOL_PROXY_URL"))
    (default "gol-gateway-local" (var env "GOL_GATEWAY_TOKEN")) GATEWAY_TIMEOUT.

(** ** Shared objects

    A reference is to the object that was made as the [made]-th. *)

Inductive StoreRef := InProcess (made : nat) | Database (url : string) (made : nat).
Inductive MemoryRef := InProcessMemory (made : nat) | DatabaseMemory (url : string) (made : nat).
Inductive SandboxRef := MemoryHost (made : nat) | DockerHost.
Record QueueRef : Type := mkQueueRef { qr_url : string; qr_made : nat }.

Record Stores : Type := mkStores {
  st_runs : StoreRef;
  st_memory : MemoryRef;
  st_messages : StoreRef;
  st_outbox : StoreRef;
}.

Record PoolOptions : Type := mkPoolOptions { max_size : N; min_idle : N }.
Definition PoolOptions_default : PoolOptions := mkPoolOptions 8 0.

(** ** A worker and a deliverer, and their builders *)

Record BuiltWorker : Type := mkBuiltWorker {
  bw_queue : QueueRef;
  bw_store : StoreRef;
  bw_memory : MemoryRef;
  bw_jev_base_url : string;
  bw_timing : QueueTiming;
  bw_models : ModelsConfig;
  bw_messages : option StoreRef;
  bw_poster : HttpGatewayPoster;
  bw_sandbox : SandboxRef;
  bw_catalog_dir : option string;
}.

Record WorkerDraft : Type := mkWorkerDraft {
  wd_queue : option QueueRef;
  wd_store : option StoreRef;
  wd_memory : option MemoryRef;
  wd_jev_base_url : option string;
  wd_timing : QueueTiming;
  wd_models : ModelsConfig;
  wd_messages : option StoreRef;
  wd_poster : option HttpGatewayPoster;
  wd_sandbox : option SandboxRef;
  wd_catalog_dir : option string;
}.

Record WorkerBuilder (Q S M J : Tag) : Type := mkWorkerBuilder { worker_draft : WorkerDraft }.
Arguments mkWorkerBuilder {Q S M J} _.
Arguments worker_draft {Q S M J} _.

Definition worker_builder (env : Environ) : WorkerBuilder Missing Missing Missing Missing :=
  mkWorkerBuilder (mkWorkerDraft None None None None QueueTiming_default models_default None None None
    (catalog_dir_from_env env)).

Section Optional.
Context {Q S M J : Tag}.

(** The setters of what is optional. *)
Definition set_catalog_dir (b : WorkerBuilder Q S M J) (dir : string) : WorkerBuilder Q S M J :=
  let d := worker_draft b in
  mkWorkerBuilder (mkWorkerDraft (wd_queue d) (wd_store d) (wd_memory d) (wd_jev_base_url d) (wd_timing d) (wd_models d)
    (wd_messages d) (wd_poster d) (wd_sandbox d) (Some dir)).

Definition set_timing (b : WorkerBuilder Q S M J) (timing : QueueTiming) : WorkerBuilder Q S M J :=
  let d := worker_draft b in
  mkWorkerBuilder (mkWorkerDraft (wd_queue d) (wd_store d) (wd_memory d) (wd_jev_base_url d) timing (wd_models d)
    (wd_messages d) (wd_poster d) (wd_sandbox d) (wd_catalog_dir d)).

Definition set_models (b : WorkerBuilder Q S M J) (models : ModelsConfig) : WorkerBuilder Q S M J :=
  let d := worker_draft b in
  mkWorkerBuilder (mkWorkerDraft (wd_queue d) (wd_store d) (wd_memory d) (wd_jev_base_url d) (wd_timing d) models
    (wd_messages d) (wd_poster d) (wd_sandbox d) (wd_catalog_dir d)).

Definition set_messages (b : WorkerBuilder Q S M J) (messages : StoreRef) : WorkerBuilder Q S M J :=
  let d := worker_draft b in
  mkWorkerBuilder (mkWorkerDraft (wd_queue d) (wd_store d) (wd_memory d) (wd_jev_base_url d) (wd_timing d) (wd_models d)
    (Some messages) (wd_poster d) (wd_sandbox d) (wd_catalog_dir d)).

Definition set_poster (b : WorkerBuilder Q S M J) (poster : HttpGatewayPoster) : WorkerBuilder Q S M J :=
  let d := worker_draft b in
  mkWorkerBuilder (mkWorkerDraft (wd_queue d) (wd_store d) (wd_memory d) (wd_jev_base_url d) (wd_timing d) (wd_models d)
    (wd_messages d) (Some poster) (wd_sandbox d) (wd_catalog_dir d)).

Definition set_sandbox (b : WorkerBuilder Q S M J) (sandbox : SandboxRef) : WorkerBuilder Q S M J :=
  let d := worker_draft b in
  mkWorkerBuilder (mkWorkerDraft (wd_queue d) (wd_store d) (wd_memory d) (wd_jev_base_url d) (wd_timing d) (wd_models d)
    (wd_messages d) (wd_poster d) (Some sandbox) (wd_catalog_dir d)).

End Optional.

(** The setters of what is required, each once. *)
Definition give_queue {S M J} (b : WorkerBuilder Missing S M J) (queue : QueueRef) : WorkerBuilder IsSet S M J :=
  let d := worker_draft b in
  mkWorkerBuilder (mkWorkerDraft (Some queue) (wd_store d) (wd_memory d) (wd_jev_base_url d) (wd_timing d) (wd_models d)
    (wd_messages d) (wd_poster d) (wd_sandbox d) (wd_catalog_dir d)).

Definition give_store {Q M J} (b : WorkerBuilder Q Missing M J) (store : StoreRef) : WorkerBuilder Q IsSet M J :=
  let d := worker_draft b in
  mkWorkerBuilder (mkWorkerDraft (wd_queue d) (Some store) (wd_memory d) (wd_jev_base_url d) (wd_timing d) (wd_models d)
    (wd_messages d) (wd_poster d) (wd_sandbox d) (wd_catalog_dir d)).

Definition give_memory {Q S J} (b : WorkerBuilder Q S Missing J) (memory : MemoryRef) : WorkerBuilder Q S IsSet J :=
  let d := worker_draft b in
  mkWorkerBuilder (mkWorkerDraft (wd_queue d) (wd_store d) (Some memory) (wd_jev_base_url d) (wd_timing d) (wd_models d)
    (wd_messages d) (wd_poster d) (wd_sandbox d) (wd_catalog_dir d)).

Definition give_jev {Q S M} (b : WorkerBuilder Q S M Missing) (base_url : string) : WorkerBuilder Q S M IsSet :=
  let d := worker_draft b in
  mkWorkerBuilder (mkWorkerDraft (wd_queue d) (wd_store d) (wd_memory d) (Some base_url) (wd_timing d) (wd_models d)
    (wd_messages d) (wd_poster d) (wd_sandbox d) (wd_catalog_dir d)).

(** A deliverer: its stores and its queue, shared with its spawner. *)
Record BuiltDeliverer : Type := mkBuiltDeliverer {
  bd_store : StoreRef;
  bd_messages : StoreRef;
  bd_queue : QueueRef;
  bd_spawner : StoreRef * option QueueRef;
}.

Record DelivererDraft : Type := mkDelivererDraft {
  dd_store : option StoreRef;
  dd_messages : option StoreRef;
  dd_queue : option QueueRef;
}.

Record OwnedDelivererBuilder (S M Q : Tag) : Type := mkDelivererBuilder { deliverer_draft : DelivererDraft }.
Arguments mkDelivererBuilder {S M Q} _.
Arguments deliverer_draft {S M Q} _.

Definition deliverer_builder : OwnedDelivererBuilder Missing Missing Missing :=
  mkDelivererBuilder (mkDelivererDraft None None None).

Definition deliver_store {M Q} (b : OwnedDelivererBuilder Missing M Q) (store : StoreRef) : OwnedDelivererBuilder IsSet M Q :=
  mkDelivererBuilder (mkDelivererDraft (Some store) (dd_messages (deliverer_draft b)) (dd_queue (deliverer_draft b))).

Definition deliver_messages {S Q} (b : OwnedDelivererBuilder S Missing Q) (messages : StoreRef)
    : OwnedDelivererBuilder S IsSet Q :=
  mkDelivererBuilder (mkDelivererDraft (dd_store (deliverer_draft b)) (Some messages) (dd_queue (deliverer_draft b))).

Definition deliver_queue {S M} (b : OwnedDelivererBuilder S M Missing) (queue : QueueRef) : OwnedDelivererBuilder S M IsSet :=
  mkDelivererBuilder (mkDelivererDraft (dd_store (deliverer_draft b)) (dd_messages (deliverer_draft b)) (Some queue)).

(** [None] is the [unreachable!]. *)
Definition build_deliverer (b : OwnedDelivererBuilder IsSet IsSet IsSet) : option BuiltDeliverer :=
  let d := deliverer_draft b in
  store ← dd_store d; messages ← dd_messages d; queue ← dd_queue d;
  Some (mkBuiltDeliverer store messages queue (store, Some queue)).

(** ** What start-up does *)

Section Process.
Context `{Jose} `{UrlCrate}.

(** [AppState]. *)
Record AppState : Type := mkAppState {
  as_store : StoreRef;
  as_memory : MemoryRef;
  as_jev_base_url : string;
  as_models : ModelsConfig;
  as_queue : option QueueRef;
  as_poster : HttpGatewayPoster;
  as_sandbox : SandboxRef;
  as_auth : Selected;
  as_streams : nat;
  as_webhook_key : option (list byte);
}.

Inductive Thread :=
| WorkerThread (index : nat) (worker : BuiltWorker)
| SchedulerThread (store : StoreRef) (queue : QueueRef)
| ReaperThread (queue : QueueRef) (store messages outbox : StoreRef) (timing : QueueTiming)
| SandboxSweepThread (store : StoreRef) (sandbox : SandboxRef).

(** The calls that reach outside the process.  [ConnectStore] opens the first
    connection and checks the schema; [Serve] is [axum::serve]. *)
Inductive Action :=
| ConnectStore (url : string) (pool : PoolOptions)
| ConnectMemory (url : string)
| PingRedis (queue : QueueRef)
| LoadCatalog (dir : string)
| Bind (port : N)
| Spawn (thread : Thread)
| Announce (port : N)
| Serve (app : AppState).

(** How [main] ends early: [std::process::exit], or a panic. *)
Inductive Stop := Exit (code : N) (message : string) | Panicked (message : string).

(** What was done, in order, and how many objects were made. *)
Record Process : Type := mkProcess { done : list Action; made : nat }.

(** What the outside answers to an action, after those before it. *)
Context (answer : list Action -> Action -> result unit string).

Definition Boot (A : Type) : Type := Process -> (A + Stop) * Process.

Definition boot_ret {A} (a : A) : Boot A := fun p => (inl a, p).

Definition boot_bind {A B} (m : Boot A) (k : A -> Boot B) : Boot B :=
  fun p => match m p with (inl a, p) => k a p | (inr stop, p) => (inr stop, p) end.

Definition perform (a : Action) : Boot (result unit string) :=
  fun p => (inl (answer (done p) a), mkProcess (done p ++ [a]) (made p)).

Definition make : Boot nat := fun p => (inl (made p), mkProcess (done p) (S (made p))).

Definition stop_with {A} (stop : Stop) : Boot A := fun p => (inr stop, p).

(** [gol: refusing to start: {message}], and exit 2. *)
Definition refuse {A} (message : string) : Boot A := stop_with (Exit 2 ("gol: refusing to start: " +:+ message)).

Notation "'do!' x ':=' m 'in' k" := (boot_bind m (fun x => k))
  (at level 10, x pattern, m at level 200, k at level 200).

(** The [?] operator. *)
Definition boot_try {A B E} (m : Boot (result A E)) (k : A -> Boot (result B E)) : Boot (result B E) :=
  boot_bind m (fun r => match r with Ok a => k a | Err e => boot_ret (Err e) end).

Notation "'do!?' x ':=' m 'in' k" := (boot_try m (fun x => k))
  (at level 10, x pattern, m at level 200, k at level 200).

(** [map_err]. *)
Definition named {A} (prefix : string) (m : Boot (result A string)) : Boot (result A string) :=
  do! r := m in boot_ret (match r with Ok a => Ok a | Err e => Err (prefix +:+ e) end).

Definition or_refuse {A} (r : result A string) : Boot A :=
  match r with Ok a => boot_ret a | Err message => refuse message end.

(** [expect]. *)
Definition or_panic {A} (text : string) (r : result A string) : Boot A :=
  match r with Ok a => boot_ret a | Err e => stop_with (Panicked (text +:+ ": " +:+ e)) end.

(** *** The stores *)

(** The size of the pool that is built. *)
Definition pool_of (options : PoolOptions) : PoolOptions :=
  mkPoolOptions (max_size options) (N.min (min_idle options) (max_size options)).

(** [PostgresStore::connect_with], whose timeouts are left out. *)
Definition connect_with (url : string) (options : PoolOptions) : Boot (result StoreRef string) :=
  if (max_size options =? 0)%N then boot_ret (Err "a postgres pool needs at least one connection")
  else
    do!? _ := perform (ConnectStore url (pool_of options)) in
    do! store := make in
    boot_ret (Ok (Database url store)).

(** [PostgresMemory::connect]. *)
Definition connect_memory (url : string) : Boot (result MemoryRef string) :=
  do!? _ := perform (ConnectMemory url) in
  do! memory := make in
  boot_ret (Ok (DatabaseMemory url memory)).

(** The connections the pool may open. *)
Definition pool_size (text_debug : string -> string) (env : gmap string string) : result N string :=
  match env_set env "GOL_DATABASE_POOL_SIZE" with
  | None => Ok (max_size PoolOptions_default)
  | Some size =>
      match parse_at_most u32_max size with
      | Some n =>
          if (0 <? n)%N then Ok n
          else Err ("GOL_DATABASE_POOL_SIZE must be a positive count, not " +:+ text_debug size)
      | None => Err ("GOL_DATABASE_POOL_SIZE must be a positive count, not " +:+ text_debug size)
      end
  end.

Definition stores_from_env (text_debug : string -> string) (env : gmap string string) : Boot (result Stores string) :=
  match env_set env "GOL_DATABASE_URL" with
  | None =>
      do! runs := make in
      do! memory := make in
      boot_ret (Ok (mkStores (InProcess runs) (InProcessMemory memory) (InProcess runs) (InProcess runs)))
  | Some url =>
      do!? max_size := boot_ret (pool_size text_debug env) in
      do!? runs := named "run store: " (connect_with url (mkPoolOptions max_size 1)) in
      do!? memory := named "memory: " (connect_memory url) in
      boot_ret (Ok (mkStores runs memory runs runs))
  end.

(** *** The router *)

(** [sandbox_from_env]. *)
Definition sandbox_from_env (env : Environ) : Boot SandboxRef :=
  if bool_decide (var env "GOL_START_BOX" = Some "1"%string) then boot_ret DockerHost
  else do! host := make in boot_ret (MemoryHost host).

(** [RedisRunQueue::open], which connects only when it is used. *)
Definition open_queue (url : string) : Boot QueueRef := do! queue := make in boot_ret (mkQueueRef url queue).

Definition open_queue_at (redis_url : option string) : Boot (option QueueRef) :=
  match redis_url with None => boot_ret None | Some url => do! queue := open_queue url in boot_ret (Some queue) end.

Definition router_with_memory (env : Environ) (store : StoreRef) (memory : MemoryRef) (jev_base_url : string)
    (redis_url : option string) (poster : HttpGatewayPoster) (models : ModelsConfig) (auth : Selected) : Boot AppState :=
  do! queue := open_queue_at redis_url in
  do! sandbox := sandbox_from_env env in
  do! streams := make in
  boot_ret (mkAppState store memory jev_base_url models queue poster sandbox auth streams
    (webhook_key_from_env (var env "GOL_WEBHOOK_KEY"))).

Definition router_with_queue (env : Environ) (store : StoreRef) (jev_base_url : string) (redis_url : option string)
    (auth : Selected) : Boot AppState :=
  do! memory := make in
  do! queue := open_queue_at redis_url in
  do! sandbox := sandbox_from_env env in
  do! streams := make in
  boot_ret (mkAppState store (InProcessMemory memory) jev_base_url models_default queue (poster_from_env env) sandbox auth
    streams (webhook_key_from_env (var env "GOL_WEBHOOK_KEY"))).

Definition router (env : Environ) (store : StoreRef) (jev_base_url : string) (auth : Selected) : Boot AppState :=
  router_with_queue env store jev_base_url None auth.

Definition router_with_sandbox (env : Environ) (store : StoreRef) (jev_base_url : string) (poster : HttpGatewayPoster)
    (sandbox : SandboxRef) (auth : Selected) : Boot AppState :=
  do! memory := make in
  do! streams := make in
  boot_ret (mkAppState store (InProcessMemory memory) jev_base_url models_default None poster sandbox auth streams
    (webhook_key_from_env (var env "GOL_WEBHOOK_KEY"))).

Definition router_with_gateway (env : Environ) (store : StoreRef) (jev_base_url : string) (poster : HttpGatewayPoster)
    (auth : Selected) : Boot AppState :=
  do! sandbox := sandbox_from_env env in
  router_with_sandbox env store jev_base_url poster sandbox auth.

Definition router_with_webhooks (env : Environ) (store : StoreRef) (jev_base_url : string) (redis_url : option string)
    (webhook_key : option (list byte)) (auth : Selected) : Boot AppState :=
  do! memory := make in
  do! queue := open_queue_at redis_url in
  do! sandbox := sandbox_from_env env in
  do! streams := make in
  boot_ret (mkAppState store (InProcessMemory memory) jev_base_url models_default queue (poster_from_env env) sandbox auth
    streams (key ← webhook_key; usable_webhook_key key)).

(** *** The threads *)

(** [WorkerBuilder::build].  The last case is the [unreachable!]. *)
Definition build_worker (env : Environ) (b : WorkerBuilder IsSet IsSet IsSet IsSet) : Boot BuiltWorker :=
  let d := worker_draft b in
  match wd_queue d, wd_store d, wd_memory d, wd_jev_base_url d with
  | Some queue, Some store, Some memory, Some jev_base_url =>
      let poster := match wd_poster d with Some poster => poster | None => poster_from_env env end in
      do! sandbox := match wd_sandbox d with Some sandbox => boot_ret sandbox | None => sandbox_from_env env end in
      boot_ret (mkBuiltWorker queue store memory jev_base_url (wd_timing d) (wd_models d) (wd_messages d) poster sandbox
        (wd_catalog_dir d))
  | _, _, _, _ => stop_with (Panicked "every required input is given in this state")
  end.

(** The loop that starts the workers from [index] on, [n] of them. *)
Fixpoint start_workers (env : Environ) (redis_url : string) (stores : Stores) (jev_base_url : string)
    (models : ModelsConfig) (sandbox : SandboxRef) (index n : nat) : Boot (result unit string) :=
  match n with
  | O => boot_ret (Ok tt)
  | S n =>
      do! queue := open_queue redis_url in
      let b := give_queue (worker_builder env) queue in
      let b := set_sandbox b sandbox in
      let b := give_store b (st_runs stores) in
      let b := give_memory b (st_memory stores) in
      let b := give_jev b jev_base_url in
      let b := set_timing b QueueTiming_default in
      let b := set_models b models in
      let b := set_messages b (st_messages stores) in
      do! worker := build_worker env b in
      do!? _ := perform (Spawn (WorkerThread index worker)) in
      start_workers env redis_url stores jev_base_url models sandbox (S index) n
  end.

Definition start_queue (env : Environ) (settings : QueueSettings) (stores : Stores) (jev_base_url : string)
    (models : ModelsConfig) (sandbox : SandboxRef) : Boot (result unit string) :=
  do!? _ := start_workers env (redis_url settings) stores jev_base_url models sandbox 0 (N.to_nat (workers settings)) in
  do! scheduler := open_queue (redis_url settings) in
  do!? _ := perform (Spawn (SchedulerThread (st_runs stores) scheduler)) in
  do! reaper := open_queue (redis_url settings) in
  perform (Spawn (ReaperThread reaper (st_runs stores) (st_messages stores) (st_outbox stores) QueueTiming_default)).

Definition start_sandbox_sweep (store : StoreRef) (sandbox : SandboxRef) : Boot (result unit string) :=
  perform (Spawn (SandboxSweepThread store sandbox)).

(** *** [main] *)

Context (text_debug : string -> string).

Definition main (env : Environ) : Boot unit :=
  let map := vars env in
  do! auth := or_refuse (auth_from_env map) in
  do! models := or_refuse (models_from_env map) in
  do! queue := or_refuse (queue_from_env text_debug map) in
  do! stores := (do! stores := stores_from_env text_debug map in or_refuse stores) in
  let port := port_from_env env in
  let jev_base_url := jev_from_env env in
  do! _ :=
    match queue with
    | Some queue =>
        do! probe := open_queue (redis_url queue) in
        do! ping := named "GOL_REDIS_URL: " (perform (PingRedis probe)) in
        or_refuse ping
    | None => boot_ret tt
    end in
  do! _ :=
    match catalog_dir_from_env env with
    | Some dir => do! loads := named "GOL_CATALOG_DIR: " (perform (LoadCatalog dir)) in or_refuse loads
    | None => boot_ret tt
    end in
  do! app := router_with_memory env (st_runs stores) (st_memory stores) jev_base_url (redis_url <$> queue)
    (poster_from_env env) models auth in
  do! _ := (do! bound := perform (Bind port) in or_panic "bind" bound) in
  do! sandbox := sandbox_from_env env in
  do! _ :=
    (do! swept := named "sandbox sweep: " (start_sandbox_sweep (st_runs stores) sandbox) in or_refuse swept) in
  do! _ :=
    match queue with
    | Some queue =>
        do! started := named "queue workers: " (start_queue env queue stores jev_base_url models sandbox) in
        or_refuse started
    | None => boot_ret tt
    end in
  do! _ := (do! told := perform (Announce port) in or_panic "failed printing to stdout" told) in
  do! served := perform (Serve app) in
  or_panic "serve" served.

(** ** What start-up is to do *)

(** What the environment asks for. *)
Record Ready : Type := mkReady {
  rd_auth : Selected;
  rd_models : ModelsConfig;
  rd_queue : option QueueSettings;
  rd_database : option (string * N);
}.

Definition ready (env : Environ) : result Ready string :=
  let map := vars env in
  match auth_from_env map, models_from_env map, queue_from_env text_debug map with
  | Ok auth, Ok models, Ok queue =>
      match env_set map "GOL_DATABASE_URL", pool_size text_debug map with
      | None, _ => Ok (mkReady auth models queue None)
      | Some url, Ok most => Ok (mkReady auth models queue (Some (url, most)))
      | Some _, Err e => Err e
      end
  | Err e, _, _ => Err e
  | _, Err e, _ => Err e
  | _, _, Err e => Err e
  end.

Definition docker (env : Environ) : bool := bool_decide (var env "GOL_START_BOX" = Some "1"%string).

Definition host (env : Environ) (n : nat) : SandboxRef := if docker env then DockerHost else MemoryHost n.

Definition the_stores (r : Ready) : Stores :=
  match rd_database r with
  | Some (url, _) => mkStores (Database url 0) (DatabaseMemory url 1) (Database url 0) (Database url 0)
  | None => mkStores (InProcess 0) (InProcessMemory 1) (InProcess 0) (InProcess 0)
  end.

(** How many objects are made before the router, and how many a host takes. *)
Definition probes (r : Ready) : nat := match rd_queue r with Some _ => 1 | None => 0 end.
Definition hosts (env : Environ) : nat := if docker env then 0 else 1.

Definition the_app (env : Environ) (r : Ready) : AppState :=
  mkAppState (st_runs (the_stores r)) (st_memory (the_stores r)) (jev_from_env env) (rd_models r)
    ((fun q => mkQueueRef (redis_url q) 3) <$> rd_queue r) (poster_from_env env) (host env (2 + 2 * probes r)) (rd_auth r)
    (2 + 2 * probes r + hosts env) (webhook_key_from_env (var env "GOL_WEBHOOK_KEY")).

(** The host the sweep and the workers share. *)
Definition the_host (env : Environ) (r : Ready) : SandboxRef := host env (3 + 2 * probes r + hosts env).

Definition the_worker (env : Environ) (r : Ready) (url : string) (n : nat) : BuiltWorker :=
  mkBuiltWorker (mkQueueRef url n) (st_runs (the_stores r)) (st_memory (the_stores r)) (jev_from_env env)
    QueueTiming_default (rd_models r) (Some (st_messages (the_stores r))) (poster_from_env env) (the_host env r)
    (catalog_dir_from_env env).

(** The workers from [index] on, whose queues are made from [n] on. *)
Fixpoint worker_plan (env : Environ) (r : Ready) (url : string) (index n count : nat) : list Action :=
  match count with
  | O => []
  | S count => Spawn (WorkerThread index (the_worker env r url n)) :: worker_plan env r url (S index) (S n) count
  end.

Definition queue_plan (env : Environ) (r : Ready) (q : QueueSettings) : list Action :=
  let first := 5 + 2 * hosts env in
  let count := N.to_nat (workers q) in
  worker_plan env r (redis_url q) 0 first count ++
  [Spawn (SchedulerThread (st_runs (the_stores r)) (mkQueueRef (redis_url q) (first + count)));
   Spawn (ReaperThread (mkQueueRef (redis_url q) (S (first + count))) (st_runs (the_stores r)) (st_messages (the_stores r))
     (st_outbox (the_stores r)) QueueTiming_default)].

(** Everything start-up does, when nothing fails. *)
Definition plan (env : Environ) (r : Ready) : list Action :=
  match rd_database r with
  | Some (url, most) => [ConnectStore url (mkPoolOptions most (N.min 1 most)); ConnectMemory url]
  | None => []
  end ++
  match rd_queue r with Some q => [PingRedis (mkQueueRef (redis_url q) 2)] | None => [] end ++
  match catalog_dir_from_env env with Some dir => [LoadCatalog dir] | None => [] end ++
  [Bind (port_from_env env); Spawn (SandboxSweepThread (st_runs (the_stores r)) (the_host env r))] ++
  match rd_queue r with Some q => queue_plan env r q | None => [] end ++
  [Announce (port_from_env env); Serve (the_app env r)].

Definition refused (message : string) : Stop := Exit 2 ("gol: refusing to start: " +:+ message).

(** What the failure of an action is reported as, and comes to. *)
Definition text_of (a : Action) (e : string) : string :=
  match a with
  | ConnectStore _ _ => "run store: "
  | ConnectMemory _ => "memory: "
  | PingRedis _ => "GOL_REDIS_URL: "
  | LoadCatalog _ => "GOL_CATALOG_DIR: "
  | Bind _ => "bind: "
  | Spawn (SandboxSweepThread _ _) => "sandbox sweep: "
  | Spawn _ => "queue workers: "
  | Announce _ => "failed printing to stdout: "
  | Serve _ => "serve: "
  end +:+ e.

Definition stop_of (a : Action) (e : string) : Stop :=
  match a with
  | Bind _ | Announce _ | Serve _ => Panicked (text_of a e)
  | _ => refused (text_of a e)
  end.

(** The actions of a plan, up to the first that fails. *)
Fixpoint follow (before acts : list Action) : list Action * option (Action * string) :=
  match acts with
  | [] => (before, None)
  | a :: acts =>
      match answer before a with
      | Ok _ => follow (before ++ [a]) acts
      | Err e => (before ++ [a], Some (a, e))
      end
  end.

(** [m] does [acts], and comes to [a] with [n] objects made, or to [fail] of
    the first action that fails. *)
Definition follows {A} (m : Boot A) (p : Process) (acts : list Action) (a : A) (n : nat)
    (fail : Action -> string -> A + Stop) : Prop :=
  match follow (done p) acts with
  | (d, None) => m p = (inl a, mkProcess d n)
  | (d, Some (x, e)) => exists k, m p = (fail x e, mkProcess d k)
  end.

Lemma follow_app before acts1 acts2 :
  follow before (acts1 ++ acts2) =
    match follow before acts1 with (d, None) => follow d acts2 | r => r end.
Proof.
  revert before. induction acts1 as [|a acts1 IH]; intros before; cbn [app follow]; [done|].
  destruct (answer before a); [apply IH|done].
Qed.

Lemma follow_done before acts d : follow before acts = (d, None) -> d = before ++ acts.
Proof.
  revert before. induction acts as [|a acts IH]; intros before; cbn [follow]; [intros [= <-]; by rewrite app_nil_r|].
  destruct (answer before a); [|done]. intros ->%IH. by rewrite <-app_assoc.
Qed.

Lemma follow_failed before acts d a e : follow before acts = (d, Some (a, e)) -> a ∈ acts.
Proof.
  revert before. induction acts as [|x acts IH]; intros before; cbn [follow]; [done|].
  destruct (answer before x); [intros ?%IH; by right|]. intros [= <- <- <-]. by left.
Qed.

Lemma follows_ret {A} (a : A) p fail : follows (boot_ret a) p [] a (made p) fail.
Proof. unfold follows. cbn. by destruct p. Qed.

Lemma follows_perform x p : follows (perform x) p [x] (Ok tt) (made p) (fun _ e => inl (Err e)).
Proof. unfold follows, perform. cbn. destruct (answer (done p) x) as [[]|e]; [done|by exists (made p)]. Qed.

(** A failure that goes on to be [stop], with nothing more done. *)
Definition passes_on {A B} (k : A -> Boot B) (out : A + Stop) (out' : B + Stop) : Prop :=
  match out with inl a => forall p, k a p = (out', p) | inr stop => out' = inr stop end.

Lemma follows_bind {A B} (m : Boot A) (k : A -> Boot B) p acts1 acts2 a b n1 n2 fail1 fail2 :
  follows m p acts1 a n1 fail1 ->
  follows (k a) (mkProcess (done p ++ acts1) n1) acts2 b n2 fail2 ->
  (forall x e, x ∈ acts1 -> passes_on k (fail1 x e) (fail2 x e)) ->
  follows (boot_bind m k) p (acts1 ++ acts2) b n2 fail2.
Proof.
  intros Hm Hk Hf. unfold follows in *. rewrite follow_app. unfold boot_bind.
  destruct (follow (done p) acts1) as [d [[x e]|]] eqn:E.
  - destruct Hm as [i ->]. exists i. specialize (Hf x e (follow_failed _ _ _ _ _ E)).
    destruct (fail1 x e) as [a'|stop]; cbn in Hf; [by rewrite Hf|by rewrite Hf].
  - rewrite Hm. apply follow_done in E as ->. exact Hk.
Qed.


(** A failure is stopped at, named, or an error as it is. *)
Definition stops {A} (x : Action) (e : string) : A + Stop := inr (stop_of x e).
Definition says {A} (x : Action) (e : string) : result A string + Stop := inl (Err (text_of x e)).
Definition errs {A} (x : Action) (e : string) : result A string + Stop := inl (Err e).

Lemma follows_make {A} (k : nat -> Boot A) p acts a n fail :
  follows (k (made p)) (mkProcess (done p) (S (made p))) acts a n fail -> follows (boot_bind make k) p acts a n fail.
Proof. exact id. Qed.

Lemma follows_value {A B} (a : A) (k : A -> Boot B) p acts b n fail :
  follows (k a) p acts b n fail -> follows (boot_bind (boot_ret a) k) p acts b n fail.
Proof. exact id. Qed.

(** A last step that does nothing more. *)
Lemma follows_last {A B} (m : Boot A) (k : A -> Boot B) p acts a b n fail1 fail2 :
  follows m p acts a n fail1 -> (forall p, k a p = (inl b, p)) ->
  (forall x e, x ∈ acts -> passes_on k (fail1 x e) (fail2 x e)) -> follows (boot_bind m k) p acts b n fail2.
Proof.
  intros Hm Hk Hf. rewrite <-(app_nil_r acts). eapply follows_bind; [exact Hm| |exact Hf].
  unfold follows. cbn. by rewrite Hk.
Qed.

(** The [?] passes an error on. *)
Lemma follows_try {A B} (m : Boot (result A string)) (k : A -> Boot (result B string)) p acts1 acts2 a b n1 n2
    (text : Action -> string -> string) :
  let fail {T} x e : result T string + Stop := inl (Err (text x e)) in
  follows m p acts1 (Ok a) n1 fail -> follows (k a) (mkProcess (done p ++ acts1) n1) acts2 b n2 fail ->
  follows (boot_try m k) p (acts1 ++ acts2) b n2 fail.
Proof. intros fail Hm Hk. by eapply follows_bind; [exact Hm|exact Hk|]. Qed.

Lemma follows_named {A} prefix (m : Boot (result A string)) p acts a n :
  follows m p acts (Ok a) n errs -> (forall x e, x ∈ acts -> text_of x e = prefix +:+ e) ->
  follows (named prefix m) p acts (Ok a) n says.
Proof.
  intros Hm Ht. eapply follows_last; [exact Hm|done|].
  intros x e Hx d. unfold says. by rewrite Ht.
Qed.

Lemma follows_refused {A} (m : Boot (result A string)) p acts a n :
  follows m p acts (Ok a) n says -> (forall x e, x ∈ acts -> stop_of x e = refused (text_of x e)) ->
  follows (boot_bind m or_refuse) p acts a n stops.
Proof.
  intros Hm Hs. eapply follows_last; [exact Hm|done|]. intros x e Hx d. unfold stops. by rewrite Hs.
Qed.

Lemma follows_panicked text x p :
  (forall e, stop_of x e = Panicked (text +:+ ": " +:+ e)) ->
  follows (boot_bind (perform x) (or_panic text)) p [x] tt (made p) stops.
Proof.
  intros Hs. eapply follows_last; [apply follows_perform|done|].
  intros y e ->%list_elem_of_singleton d. unfold stops. by rewrite Hs.
Qed.

Lemma pool_size_positive env n : pool_size text_debug env = Ok n -> (0 < n)%N.
Proof.
  unfold pool_size. destruct (env_set env _) as [size|]; [|by intros [= <-]].
  destruct (parse_at_most u32_max size); [|done]. destruct (0 <? _)%N eqn:E; [|done]. intros [= <-]. by apply N.ltb_lt.
Qed.

Lemma follows_connect_with url options p : (0 < max_size options)%N ->
  follows (connect_with url options) p [ConnectStore url (pool_of options)]
    (Ok (Database url (made p))) (S (made p)) errs.
Proof.
  intros Hmax. unfold connect_with. replace (max_size options =? 0)%N with false by (symmetry; apply N.eqb_neq; lia).
  eapply (follows_try _ _ p [_] [] tt); [apply follows_perform|]. apply follows_make, (follows_ret _ (mkProcess _ _)).
Qed.

Lemma follows_connect_memory url p :
  follows (connect_memory url) p [ConnectMemory url] (Ok (DatabaseMemory url (made p))) (S (made p)) errs.
Proof.
  eapply (follows_try _ _ p [_] [] tt); [apply follows_perform|]. apply follows_make, (follows_ret _ (mkProcess _ _)).
Qed.

Lemma follows_stores env r p : ready env = Ok r -> made p = 0 ->
  follows (boot_bind (stores_from_env text_debug (vars env)) or_refuse) p
    match rd_database r with
    | Some (url, most) => [ConnectStore url (mkPoolOptions most (N.min 1 most)); ConnectMemory url]
    | None => []
    end (the_stores r) 2 stops.
Proof.
  unfold ready, stores_from_env, the_stores. intros Hr Hp. destruct p as [d i]. cbn in Hp. subst i.
  destruct (auth_from_env (vars env)), (models_from_env (vars env)), (queue_from_env text_debug (vars env)); try done.
  destruct (env_set (vars env) "GOL_DATABASE_URL") as [url|]; [|by injection Hr as <-].
  destruct (pool_size text_debug (vars env)) as [most|] eqn:Emost; [|done]. injection Hr as <-. cbn [rd_database].
  apply follows_refused; [|intros x e [->|[->|[]%not_elem_of_nil]%elem_of_cons]%elem_of_cons; done].
  eapply (follows_try (boot_ret (Ok most)) _ _ [] _ most); [apply follows_ret|].
  eapply (follows_try (named "run store: " _) _ _ [_] [_] (Database url 0) _ 1).
  - apply follows_named; [|by intros x e ->%list_elem_of_singleton].
    apply (follows_connect_with url (mkPoolOptions most 1) (mkProcess _ 0)). by eapply pool_size_positive.
  - cbn [done]. eapply (follows_try (named "memory: " _) _ _ [_] [] (DatabaseMemory url 1) _ 2); [|apply (follows_ret _ (mkProcess _ 2))].
    apply follows_named; [|by intros x e ->%list_elem_of_singleton]. apply (follows_connect_memory url (mkProcess _ 1)).
Qed.


Lemma follows_workers env r url index count p :
  follows (start_workers env url (the_stores r) (jev_from_env env) (rd_models r) (the_host env r) index count) p
    (worker_plan env r url index (made p) count) (Ok tt) (made p + count) errs.
Proof.
  revert index p. induction count as [|count IH]; intros index p; cbn [start_workers worker_plan].
  { rewrite Nat.add_0_r. apply follows_ret. }
  eapply (follows_try (perform _) _ (mkProcess (done p) (S (made p))) [_] _ tt); [apply follows_perform|].
  cbn [done made]. rewrite Nat.add_succ_r. apply (IH (S index) (mkProcess _ (S (made p)))).
Qed.

Lemma follows_start_queue env r q p : made p = 5 + 2 * hosts env ->
  follows (start_queue env q (the_stores r) (jev_from_env env) (rd_models r) (the_host env r)) p
    (queue_plan env r q) (Ok tt) (7 + 2 * hosts env + N.to_nat (workers q)) errs.
Proof.
  intros Hp. unfold start_queue, queue_plan. rewrite <-Hp. cbv zeta.
  eapply follows_try; [apply follows_workers|]. set (count := N.to_nat (workers q)).
  eapply (follows_try (perform _) _ (mkProcess _ (S (made p + count))) [_] [_] tt); [apply follows_perform|].
  cbn [done made]. replace (7 + 2 * hosts env + count) with (S (S (made p + count))) by lia.
  apply (follows_perform _ (mkProcess _ (S (S (made p + count))))).
Qed.

Lemma worker_plan_elem env r url index n count a : a ∈ worker_plan env r url index n count ->
  exists i, i < count /\ a = Spawn (WorkerThread (index + i) (the_worker env r url (n + i))).
Proof.
  revert index n. induction count as [|count IH]; intros index n; cbn [worker_plan]; [by intros ?%not_elem_of_nil|].
  intros [->|(i & Hi & ->)%IH]%elem_of_cons.
  - exists 0. rewrite !Nat.add_0_r. split; [lia|done].
  - exists (S i). rewrite !Nat.add_succ_r. split; [lia|done].
Qed.

Lemma queue_plan_elem env r q a : a ∈ queue_plan env r q ->
  (exists i n, i < N.to_nat (workers q) /\ a = Spawn (WorkerThread i (the_worker env r (redis_url q) n))) \/
  (exists n, a = Spawn (SchedulerThread (st_runs (the_stores r)) (mkQueueRef (redis_url q) n))) \/
  (exists n, a = Spawn (ReaperThread (mkQueueRef (redis_url q) n) (st_runs (the_stores r)) (st_messages (the_stores r))
     (st_outbox (the_stores r)) QueueTiming_default)).
Proof.
  unfold queue_plan. rewrite elem_of_app, !elem_of_cons. intros [(i & Hi & ->)%worker_plan_elem|[->|[->|Hn]]].
  - left. eauto.
  - right. left. eauto.
  - right. right. eauto.
  - by apply not_elem_of_nil in Hn.
Qed.

Lemma follows_one prefix x p :
  (forall e, text_of x e = prefix +:+ e) -> (forall e, stop_of x e = refused (text_of x e)) ->
  follows (boot_bind (named prefix (perform x)) or_refuse) p [x] tt (made p) stops.
Proof.
  intros Ht Hs. apply follows_refused; [|by intros y e ->%list_elem_of_singleton].
  apply follows_named; [apply follows_perform|by intros y e ->%list_elem_of_singleton].
Qed.

Lemma follows_queue env r p : made p = 3 + 2 * probes r + 2 * hosts env ->
  follows
    match rd_queue r with
    | Some queue =>
        boot_bind (named "queue workers: " (start_queue env queue (the_stores r) (jev_from_env env) (rd_models r) (the_host env r)))
          or_refuse
    | None => boot_ret tt
    end p match rd_queue r with Some q => queue_plan env r q | None => [] end tt
    match rd_queue r with Some q => 7 + 2 * hosts env + N.to_nat (workers q) | None => made p end stops.
Proof.
  intros Hp. destruct (rd_queue r) as [q|] eqn:Eq; [|apply follows_ret].
  assert (forall x, x ∈ queue_plan env r q -> forall e, text_of x e = "queue workers: " +:+ e /\ stop_of x e = refused (text_of x e)) as Hx.
  { intros x [(i & n & _ & ->)|[(n & ->)|(n & ->)]]%queue_plan_elem; done. }
  apply follows_refused; [|intros x e Hin; by apply Hx].
  apply follows_named; [|intros x e Hin; by apply Hx]. apply follows_start_queue. rewrite Hp. unfold probes. rewrite Eq. lia.
Qed.

Lemma follows_host {A} env (k : SandboxRef -> Boot A) p acts b n fail :
  follows (k (host env (made p))) (mkProcess (done p) (made p + hosts env)) acts b n fail ->
  follows (boot_bind (sandbox_from_env env) k) p acts b n fail.
Proof.
  destruct p as [d i]. unfold sandbox_from_env, host, hosts, docker. cbn [done made].
  case_bool_decide; [by rewrite Nat.add_0_r|by rewrite Nat.add_1_r].
Qed.

(** From the port on. *)
Lemma follows_serving env r p : made p = 3 + 2 * probes r + hosts env ->
  exists n, follows
    (boot_bind (boot_bind (perform (Bind (port_from_env env))) (or_panic "bind")) (fun _ =>
     boot_bind (sandbox_from_env env) (fun sandbox =>
     boot_bind (boot_bind (named "sandbox sweep: " (start_sandbox_sweep (st_runs (the_stores r)) sandbox)) or_refuse) (fun _ =>
     boot_bind
       match rd_queue r with
       | Some queue =>
           boot_bind (named "queue workers: " (start_queue env queue (the_stores r) (jev_from_env env) (rd_models r) sandbox)) or_refuse
       | None => boot_ret tt
       end (fun _ =>
     boot_bind (boot_bind (perform (Announce (port_from_env env))) (or_panic "failed printing to stdout")) (fun _ =>
     boot_bind (perform (Serve (the_app env r))) (or_panic "serve")))))))
    p ([Bind (port_from_env env); Spawn (SandboxSweepThread (st_runs (the_stores r)) (the_host env r))] ++
       match rd_queue r with Some q => queue_plan env r q | None => [] end ++
       [Announce (port_from_env env); Serve (the_app env r)]) tt n stops.
Proof.
  intros Hp. eexists. eapply (follows_bind _ _ p [_] (_ :: _)); [by apply follows_panicked| |by intros x e _].
  apply follows_host. cbn [done made]. rewrite Hp. fold (the_host env r).
  eapply (follows_bind _ _ _ [_] _); [by apply follows_one| |by intros x e _].
  eapply follows_bind; [apply follows_queue; cbn; lia| |by intros x e _].
  eapply (follows_bind _ _ _ [_] [_]); [by apply follows_panicked| |by intros x e _].
  by apply follows_panicked.
Qed.

Lemma follows_ping r p : made p = 2 ->
  follows
    match rd_queue r with
    | Some queue =>
        boot_bind (open_queue (redis_url queue)) (fun probe =>
        boot_bind (named "GOL_REDIS_URL: " (perform (PingRedis probe))) or_refuse)
    | None => boot_ret tt
    end p match rd_queue r with Some q => [PingRedis (mkQueueRef (redis_url q) 2)] | None => [] end tt (2 + probes r) stops.
Proof.
  destruct p as [d i]. cbn. intros ->. unfold probes. destruct (rd_queue r) as [q|]; [|apply (follows_ret tt (mkProcess d 2))].
  by apply (follows_one "GOL_REDIS_URL: " _ (mkProcess d 3)).
Qed.

Lemma follows_catalog env p :
  follows
    match catalog_dir_from_env env with
    | Some dir => boot_bind (named "GOL_CATALOG_DIR: " (perform (LoadCatalog dir))) or_refuse
    | None => boot_ret tt
    end p match catalog_dir_from_env env with Some dir => [LoadCatalog dir] | None => [] end tt (made p) stops.
Proof. destruct (catalog_dir_from_env env); [by apply follows_one|apply follows_ret]. Qed.

Lemma follows_router env r p : made p = 2 + probes r ->
  follows
    (router_with_memory env (st_runs (the_stores r)) (st_memory (the_stores r)) (jev_from_env env) (redis_url <$> rd_queue r)
      (poster_from_env env) (rd_models r) (rd_auth r)) p [] (the_app env r) (3 + 2 * probes r + hosts env) stops.
Proof.
  destruct p as [d i]. cbn [made]. intros ->. unfold router_with_memory, the_app.
  assert (forall (k : option QueueRef -> Boot AppState) acts b n fail,
    follows (k ((fun q => mkQueueRef (redis_url q) 3) <$> rd_queue r)) (mkProcess d (2 + 2 * probes r)) acts b n fail ->
    follows (boot_bind (open_queue_at (redis_url <$> rd_queue r)) k) (mkProcess d (2 + probes r)) acts b n fail) as Hqueue.
  { intros k acts b n fail. unfold probes. by destruct (rd_queue r). }
  apply Hqueue, follows_host. cbn [done made]. apply follows_make. cbn [done made].
  replace (3 + 2 * probes r + hosts env) with (S (2 + 2 * probes r + hosts env)) by lia. apply (follows_ret _ (mkProcess d _)).
Qed.

Lemma ready_settings env r : ready env = Ok r ->
  auth_from_env (vars env) = Ok (rd_auth r) /\ models_from_env (vars env) = Ok (rd_models r) /\
  queue_from_env text_debug (vars env) = Ok (rd_queue r).
Proof.
  unfold ready. intros Hr.
  destruct (auth_from_env (vars env)) as [auth|]; [|done].
  destruct (models_from_env (vars env)) as [models|]; [|done].
  destruct (queue_from_env text_debug (vars env)) as [queue|]; [|done].
  destruct (env_set _ _) as [url|]; [destruct (pool_size _ _); [|done]|]; by injection Hr as <-.
Qed.

Definition start : Process := mkProcess [] 0.

(** Start-up follows its plan: with settings that do not read, nothing is
    done and the server exits with 2 and says which; else the actions of the
    plan are done in their order up to the first that fails, whatever the
    outside answers, and that failure is what the server exits with, or panics
    with; when none fails it is up. *)
Theorem main_follows_plan env :
  match ready env with
  | Err message => main env start = (inr (refused message), start)
  | Ok r => exists n, follows (main env) start (plan env r) tt n stops
  end.
Proof.
  destruct (ready env) as [r|message] eqn:Hr.
  2: { unfold ready in Hr. unfold main.
    destruct (auth_from_env (vars env)); [|by injection Hr as ->].
    destruct (models_from_env (vars env)); [|by injection Hr as ->].
    destruct (queue_from_env text_debug (vars env)) as [q|]; [|by injection Hr as ->].
    cbn [or_refuse]. unfold stores_from_env.
    destruct (env_set (vars env) "GOL_DATABASE_URL") as [url|]; [|done].
    destruct (pool_size text_debug (vars env)); [done|]. by injection Hr as ->. }
  destruct (ready_settings env r Hr) as (Hauth & Hmodels & Hqueue).
  set (connects := match rd_database r with
    | Some (url, most) => [ConnectStore url (mkPoolOptions most (N.min 1 most)); ConnectMemory url] | None => [] end).
  destruct (follows_serving env r (mkProcess (connects ++ match rd_queue r with Some q => [PingRedis (mkQueueRef (redis_url q) 2)] | None => [] end
    ++ match catalog_dir_from_env env with Some dir => [LoadCatalog dir] | None => [] end) (3 + 2 * probes r + hosts env)) eq_refl) as [n Hn].
  exists n. unfold main. rewrite Hauth, Hmodels, Hqueue. cbn [or_refuse]. do 3 apply follows_value.
  eapply follows_bind; [by apply follows_stores|..|by intros x e _]. cbn [done start app]. fold connects.
  eapply follows_bind; [by apply follows_ping|..|by intros x e _]. cbn [done made].
  eapply follows_bind; [by apply follows_catalog|..|by intros x e _]. cbn [done made].
  eapply (follows_bind _ _ _ [] _); [by apply follows_router|..|by intros x e _]. cbn [done made].
  rewrite app_nil_r, <-app_assoc. exact Hn.
Qed.


(** ** What follows from the plan *)

Lemma follow_prefix before acts : exists k, k <= length acts /\ (follow before acts).1 = before ++ take k acts /\
  forall i x, S i < k -> acts !! i = Some x -> answer (before ++ take i acts) x = Ok tt.
Proof.
  revert before. induction acts as [|a acts IH]; intros before; cbn [follow].
  { exists 0. cbn. rewrite app_nil_r. split_and!; [lia|done|lia]. }
  destruct (answer before a) as [[]|e] eqn:E.
  - destruct (IH (before ++ [a])) as (k & Hk & Hd & Hok). exists (S k). cbn [take length].
    split_and!; [lia|by rewrite Hd, <-app_assoc|]. intros [|i] x Hi; cbn [lookup list_lookup take].
    + intros [= <-]. by rewrite app_nil_r.
    + intros Hx. rewrite (cons_middle a before), app_assoc. apply Hok; [lia|done].
  - exists 1. cbn. rewrite take_0. split_and!; [lia|done|lia].
Qed.

(** [a] was done before the [j]-th action, and succeeded. *)
Definition done_well (d : list Action) (j : nat) (a : Action) : Prop :=
  exists i, i < j /\ d !! i = Some a /\ answer (take i d) a = Ok tt.

(** What was done is a prefix of the plan, and all but the last succeeded. *)
Lemma main_done env out p : main env start = (out, p) -> done p <> [] ->
  exists r k, ready env = Ok r /\ done p = take k (plan env r) /\ k <= length (plan env r) /\
    forall i j x, i < j -> j < k -> plan env r !! i = Some x -> done_well (done p) j x.
Proof.
  intros Hm Hd. pose proof (main_follows_plan env) as Hplan. destruct (ready env) as [r|e].
  2: { rewrite Hm in Hplan. by injection Hplan as -> ->. }
  destruct Hplan as [n Hf]. destruct (follow_prefix [] (plan env r)) as (k & Hk & Hdone & Hok).
  unfold follows in Hf. cbn [start done] in Hf.
  assert (done p = take k (plan env r)) as Hp.
  { destruct (follow [] (plan env r)) as [d [[x e]|]]; cbn in Hdone.
    - destruct Hf as [i Hf]. rewrite Hm in Hf. by injection Hf as -> ->.
    - rewrite Hm in Hf. by injection Hf as -> ->. }
  exists r, k. split_and!; [done|done|done|]. intros i j x Hij Hjk Hx. exists i. split_and!; [done|..].
  - rewrite Hp, lookup_take_lt by lia. done.
  - rewrite Hp, take_take, Nat.min_l by lia. by apply Hok; [lia|].
Qed.

Lemma queued_in_database env r q : ready env = Ok r -> rd_queue r = Some q ->
  exists url most, rd_database r = Some (url, most).
Proof.
  intros Hr Hq. destruct (ready_settings env r Hr) as (_ & _ & Hqueue). rewrite Hq in Hqueue.
  unfold queue_from_env in Hqueue. destruct (env_set _ "GOL_REDIS_URL"); [|done].
  unfold ready in Hr. destruct (env_set _ "GOL_DATABASE_URL") as [url|]; [|done].
  destruct (auth_from_env _); [|done]. destruct (models_from_env _); [|done]. destruct (queue_from_env _ _); [|done].
  destruct (pool_size _ _) as [most|]; [|done]. injection Hr as <-. by exists url, most.
Qed.

(** What comes before the first worker. *)
Definition before_workers (env : Environ) (r : Ready) (q : QueueSettings) (url : string) (most : N) : list Action :=
  [ConnectStore url (mkPoolOptions most (N.min 1 most)); ConnectMemory url; PingRedis (mkQueueRef (redis_url q) 2)] ++
  match catalog_dir_from_env env with Some dir => [LoadCatalog dir] | None => [] end ++
  [Bind (port_from_env env); Spawn (SandboxSweepThread (st_runs (the_stores r)) (the_host env r))].

(** C30. No run is taken before the server can serve: when a worker is started,
    the stores were connected, the Redis it takes its runs from was pinged,
    the catalog it loads its tools from had loaded, the port was bound and the
    sandbox sweep was running, each with success; and the worker's store,
    memory and catalog are those. *)
Theorem workers_start_when_ready env out p j i w :
  main env start = (out, p) -> done p !! j = Some (Spawn (WorkerThread i w)) ->
  exists url pool probe,
    bw_store w = Database url 0 /\ bw_messages w = Some (Database url 0) /\ bw_memory w = DatabaseMemory url 1 /\
    bw_catalog_dir w = catalog_dir_from_env env /\ qr_url probe = qr_url (bw_queue w) /\
    (forall a, a ∈ [ConnectStore url pool; ConnectMemory url; PingRedis probe; Bind (port_from_env env);
       Spawn (SandboxSweepThread (bw_store w) (bw_sandbox w))] -> done_well (done p) j a) /\
    (forall dir, bw_catalog_dir w = Some dir -> done_well (done p) j (LoadCatalog dir)).
Proof.
  intros Hm Hj. destruct (main_done env out p Hm) as (r & k & Hr & Hp & Hk & Hbefore). { intros E. by rewrite E in Hj. }
  assert (j < k) as Hjk. { apply lookup_lt_Some in Hj. rewrite Hp, length_take in Hj. lia. }
  assert (plan env r !! j = Some (Spawn (WorkerThread i w))) as Hw by (by rewrite Hp, lookup_take_lt in Hj).
  destruct (rd_queue r) as [q|] eqn:Eq.
  2: { exfalso. apply list_elem_of_lookup_2 in Hw. unfold plan in Hw. rewrite Eq in Hw.
    destruct (rd_database r) as [[url most]|], (catalog_dir_from_env env); set_solver. }
  destruct (queued_in_database env r q Hr Eq) as (url & most & Edb).
  assert (plan env r = before_workers env r q url most ++ queue_plan env r q ++
    [Announce (port_from_env env); Serve (the_app env r)]) as Hplan.
  { unfold plan, before_workers. rewrite Eq, Edb. by rewrite <-!app_assoc. }
  rewrite Hplan in Hw, Hbefore. apply lookup_app_Some in Hw as [Hw|[Hlen Hw]].
  { exfalso. apply list_elem_of_lookup_2 in Hw. unfold before_workers in Hw. destruct (catalog_dir_from_env env); set_solver. }
  assert (forall a, a ∈ before_workers env r q url most -> done_well (done p) j a) as Hall.
  { intros a [l Hl]%list_elem_of_lookup_1. apply (Hbefore l j a); [|done|by apply lookup_app_l_Some].
    apply lookup_lt_Some in Hl. lia. }
  apply list_elem_of_lookup_2, elem_of_app in Hw as [Hw|Hw]; [|set_solver].
  apply queue_plan_elem in Hw as [(i' & n & Hi & [= -> ->])|[(n & ?)|(n & ?)]]; [|done..].
  exists url, (mkPoolOptions most (N.min 1 most)), (mkQueueRef (redis_url q) 2).
  cbn [the_worker bw_store bw_messages bw_memory bw_catalog_dir bw_queue bw_sandbox qr_url].
  assert (the_stores r = mkStores (Database url 0) (DatabaseMemory url 1) (Database url 0) (Database url 0)) as Est
    by (unfold the_stores; by rewrite Edb).
  rewrite Est. cbn [st_runs st_memory st_messages]. split_and!; try done.
  - intros a Ha. apply Hall. unfold before_workers. rewrite Est. cbn [st_runs]. set_solver.
  - intros dir Hdir. apply Hall. unfold before_workers. rewrite Hdir. set_solver.
Qed.


(** A thread keeps to the stores and the Redis of the router's state, and to
    its sandboxes when they are Docker's. *)
Definition shares (env : Environ) (app : AppState) (t : Thread) : Prop :=
  match t with
  | WorkerThread _ w =>
      bw_store w = as_store app /\ bw_messages w = Some (as_store app) /\ bw_memory w = as_memory app /\
      bw_models w = as_models app /\ bw_jev_base_url w = as_jev_base_url app /\ bw_poster w = as_poster app /\
      Some (qr_url (bw_queue w)) = qr_url <$> as_queue app /\ (docker env = true <-> bw_sandbox w = as_sandbox app)
  | SchedulerThread store queue => store = as_store app /\ Some (qr_url queue) = qr_url <$> as_queue app
  | ReaperThread queue store messages outbox _ =>
      store = as_store app /\ messages = as_store app /\ outbox = as_store app /\
      Some (qr_url queue) = qr_url <$> as_queue app
  | SandboxSweepThread store sandbox => store = as_store app /\ (docker env = true <-> sandbox = as_sandbox app)
  end.

Lemma plan_serves env r app : Serve app ∈ plan env r -> app = the_app env r.
Proof.
  unfold plan. rewrite !elem_of_app. intros [Ha|[Ha|[Ha|[Ha|[Ha|Ha]]]]].
  - destruct (rd_database r) as [[url most]|]; set_solver.
  - destruct (rd_queue r); set_solver.
  - destruct (catalog_dir_from_env env); set_solver.
  - set_solver.
  - destruct (rd_queue r); [|set_solver]. by apply queue_plan_elem in Ha as [(? & ? & _ & ?)|[(? & ?)|(? & ?)]].
  - set_solver.
Qed.

Lemma plan_spawns env r t : Spawn t ∈ plan env r ->
  t = SandboxSweepThread (st_runs (the_stores r)) (the_host env r) \/
  exists q, rd_queue r = Some q /\ Spawn t ∈ queue_plan env r q.
Proof.
  unfold plan. rewrite !elem_of_app. intros [Ha|[Ha|[Ha|[Ha|[Ha|Ha]]]]].
  - destruct (rd_database r) as [[url most]|]; set_solver.
  - destruct (rd_queue r); set_solver.
  - destruct (catalog_dir_from_env env); set_solver.
  - set_solver.
  - destruct (rd_queue r) as [q|]; [|set_solver]. right. by exists q.
  - set_solver.
Qed.

(** One server, one store: every thread of a server that serves requests
    works on the router's store, as its runs, its messages and its outbox, on
    its memory, its models and its Redis; and with the router's sandbox host
    exactly when that is Docker. *)
Theorem server_shares_its_stores env out p app t :
  main env start = (out, p) -> Serve app ∈ done p -> Spawn t ∈ done p -> shares env app t.
Proof.
  intros Hm Hserve Hspawn. destruct (main_done env out p Hm) as (r & k & Hr & Hp & _ & _). { intros E. rewrite E in Hserve. set_solver. }
  assert (forall a, a ∈ done p -> a ∈ plan env r) as Hin.
  { intros a Ha. rewrite Hp in Ha. rewrite <-(take_drop k (plan env r)). apply elem_of_app. by left. }
  apply Hin, plan_serves in Hserve as ->. apply Hin, plan_spawns in Hspawn.
  assert (st_messages (the_stores r) = st_runs (the_stores r) /\ st_outbox (the_stores r) = st_runs (the_stores r)) as [Hmsg Hout]
    by (unfold the_stores; by destruct (rd_database r) as [[]|]).
  assert (docker env = true <-> the_host env r = as_sandbox (the_app env r)) as Hhost.
  { unfold the_host, the_app, host, hosts. cbn [as_sandbox]. destruct (docker env); [done|]. split; [done|]. intros [=]. lia. }
  destruct Hspawn as [->|(q & Hq & [(i & n & _ & [= ->])|[(n & [= ->])|(n & [= ->])]]%queue_plan_elem)]; cbn [shares];
    unfold the_worker; cbn; rewrite ?Hmsg, ?Hout, ?Hq; split_and!; done.
Qed.

Lemma follow_last before acts d a e : follow before acts = (d, Some (a, e)) ->
  exists pre post, acts = pre ++ a :: post /\ d = before ++ pre ++ [a].
Proof.
  revert before. induction acts as [|x acts IH]; intros before; cbn [follow]; [done|].
  destruct (answer before x).
  - intros (pre & post & -> & ->)%IH. exists (x :: pre), post. split; [done|]. by rewrite <-!app_assoc.
  - intros [= <- -> ->]. by exists [], acts.
Qed.

(** The plan but for its last action. *)
Lemma plan_ends env r : exists front, plan env r = front ++ [Serve (the_app env r)] /\ forall app, Serve app ∉ front.
Proof.
  exists (match rd_database r with
    | Some (url, most) => [ConnectStore url (mkPoolOptions most (N.min 1 most)); ConnectMemory url]
    | None => []
    end ++
    match rd_queue r with Some q => [PingRedis (mkQueueRef (redis_url q) 2)] | None => [] end ++
    match catalog_dir_from_env env with Some dir => [LoadCatalog dir] | None => [] end ++
    [Bind (port_from_env env); Spawn (SandboxSweepThread (st_runs (the_stores r)) (the_host env r))] ++
    match rd_queue r with Some q => queue_plan env r q | None => [] end ++
    [Announce (port_from_env env)]).
  split; [unfold plan; by rewrite <-!app_assoc|]. intros app. rewrite !not_elem_of_app. split_and!.
  - destruct (rd_database r) as [[url most]|]; set_solver.
  - destruct (rd_queue r); set_solver.
  - destruct (catalog_dir_from_env env); set_solver.
  - set_solver.
  - destruct (rd_queue r); [|set_solver]. by intros [(? & ? & _ & ?)|[(? & ?)|(? & ?)]]%queue_plan_elem.
  - set_solver.
Qed.

(** And what comes before its first thread. *)
Lemma plan_binds env r j t : plan env r !! j = Some (Spawn t) ->
  exists i, i < j /\ plan env r !! i = Some (Bind (port_from_env env)).
Proof.
  intros Hj.
  assert (exists before after, plan env r = before ++ Bind (port_from_env env) :: after /\ forall t, Spawn t ∉ before)
    as (before & after & Hplan & Hno).
  { unfold plan. exists (match rd_database r with
      | Some (url, most) => [ConnectStore url (mkPoolOptions most (N.min 1 most)); ConnectMemory url]
      | None => []
      end ++
      match rd_queue r with Some q => [PingRedis (mkQueueRef (redis_url q) 2)] | None => [] end ++
      match catalog_dir_from_env env with Some dir => [LoadCatalog dir] | None => [] end).
    eexists. split; [by rewrite <-!app_assoc|]. intros t'. rewrite !not_elem_of_app. split_and!.
    - destruct (rd_database r) as [[url most]|]; set_solver.
    - destruct (rd_queue r); set_solver.
    - destruct (catalog_dir_from_env env); set_solver. }
  rewrite Hplan in *. exists (length before). split; [|by apply list_lookup_middle].
  destruct (decide (j < length before)) as [Hlt|Hge].
  - rewrite lookup_app_l in Hj by done. by apply list_elem_of_lookup_2, Hno in Hj.
  - assert (j <> length before); [|lia]. intros ->. by rewrite list_lookup_middle in Hj.
Qed.

(** A server that refuses to start, with exit code 2, serves nothing; and
    no thread is started before the port is bound, so that of two servers on
    one port the second takes no runs. *)
Theorem refused_serves_nothing env out p :
  main env start = (out, p) ->
  (forall code message, out = inr (Exit code message) -> code = 2%N /\ forall app, Serve app ∉ done p) /\
  (forall j t, done p !! j = Some (Spawn t) -> done_well (done p) j (Bind (port_from_env env))).
Proof.
  intros Hm. split.
  - intros code message ->. pose proof (main_follows_plan env) as Hplan. destruct (ready env) as [r|e].
    2: { rewrite Hm in Hplan. unfold refused in Hplan. injection Hplan as -> _ ->. split; [done|]. intros app. apply not_elem_of_nil. }
    destruct Hplan as [n Hf]. unfold follows in Hf. rewrite Hm in Hf.
    destruct (follow _ (plan env r)) as [d [[x e]|]] eqn:E; [|done]. destruct Hf as [i Hf]. injection Hf as Hstop ->.
    cbn [done]. apply follow_last in E as (pre & post & Hplan & ->). cbn [start done app].
    unfold stop_of in Hstop. split; [destruct x; by inversion Hstop|].
    intros app [Hpre|Hx%list_elem_of_singleton]%elem_of_app; [|by subst x].
    destruct (plan_ends env r) as (front & Hfront & Hno). rewrite Hfront in Hplan.
    destruct post as [|y post _] using rev_ind.
    + apply app_inj_tail in Hplan as [-> _]. by apply (Hno app).
    + rewrite app_comm_cons, app_assoc in Hplan. apply app_inj_tail in Hplan as [-> _].
      apply (Hno app). rewrite elem_of_app. by left.
  - intros j t Hj. destruct (main_done env out p Hm) as (r & k & _ & Hp & _ & Hbefore). { intros E. by rewrite E in Hj. }
    assert (j < k) as Hjk. { apply lookup_lt_Some in Hj. rewrite Hp, length_take in Hj. lia. }
    rewrite Hp, lookup_take_lt in Hj by done. destruct (plan_binds env r j t Hj) as (i & Hi & Hbind).
    by apply (Hbefore i j).
Qed.

End Process.

(** A deliverer's spawner works on its own store and queue, in whichever order
    the three were given. *)
Lemma deliverer_spawns_on_its_own store messages queue :
  let built := Some (mkBuiltDeliverer store messages queue (store, Some queue)) in
  build_deliverer (deliver_queue (deliver_messages (deliver_store deliverer_builder store) messages) queue) = built /\
  build_deliverer (deliver_store (deliver_messages (deliver_queue deliverer_builder queue) messages) store) = built /\
  build_deliverer (deliver_messages (deliver_store (deliver_queue deliverer_builder queue) store) messages) = built.
Proof. done. Qed.

(** ** At concrete inputs *)

#[local] Existing Instance demo_jose.
#[local] Existing Instance demo_urls.

(** One worker, a database, a port, and a variable that is not UTF-8. *)
Definition demo_environ : Environ :=
  [("GOL_AUTH", "local-dev"); ("GOL_REDIS_URL", "redis://r"); ("GOL_DATABASE_URL", "postgres://d");
   ("GOL_WORKERS", "1"); ("GOL_PORT", "8080"); ("GOL_DATABASE_POOL_SIZE", "2");
   ("GOL_START_BOX", bytes_string [Ascii.ascii_of_N 255])]%string.

Definition all_well (before : list Action) (a : Action) : result unit string := Ok tt.

Definition port_taken (before : list Action) (a : Action) : result unit string :=
  match a with Bind _ => Err "address in use"%string | _ => Ok tt end.

Definition up : (unit + Stop) * Process := main all_well (fun s => s) demo_environ start.

Lemma up_is : main all_well (fun s => s) demo_environ start = (up.1, up.2).
Proof. unfold up. apply surjective_pairing. Qed.

Definition demo_worker : BuiltWorker :=
  mkBuiltWorker (mkQueueRef "redis://r" 7) (Database "postgres://d" 0) (DatabaseMemory "postgres://d" 1)
    "https://api.typesafe.ai" QueueTiming_default models_default (Some (Database "postgres://d" 0))
    (mkHttpGatewayPoster "http://127.0.0.1:43124" "gol-gateway-local" GATEWAY_TIMEOUT) (MemoryHost 6) None.

(** What can be read off the actions without an authenticator in hand. *)
Definition worker_at (d : list Action) (j : nat) : option (nat * BuiltWorker) :=
  match d !! j with Some (Spawn (WorkerThread i w)) => Some (i, w) | _ => None end.

Definition served_at (d : list Action) (j : nat) : option StoreRef :=
  match d !! j with Some (Serve app) => Some (as_store app) | _ => None end.

Lemma worker_at_lookup d j i w : worker_at d j = Some (i, w) -> d !! j = Some (Spawn (WorkerThread i w)).
Proof. unfold worker_at. destruct (d !! j) as [[]|]; try done. destruct thread; try done. by intros [= -> ->]. Qed.

Lemma served_at_elem d j store : served_at d j = Some store -> exists app, Serve app ∈ d /\ as_store app = store.
Proof.
  unfold served_at. destruct (d !! j) as [a|] eqn:E; [|done]. apply list_elem_of_lookup_2 in E.
  destruct a; try done. intros [= <-]. eauto.
Qed.

(** An equation whose left side evaluates to its right. *)
Ltac evaluates := match goal with |- _ = ?b => vm_cast_no_check (eq_refl b) end.

Lemma demo_up : worker_at (done up.2) 5 = Some (0, demo_worker) /\ served_at (done up.2) 9 = Some (Database "postgres://d" 0).
Proof. split; evaluates. Qed.

Example start_up_runs :
  up.1 = inl tt /\ length (done up.2) = 10 /\
  (main port_taken (fun s => s) demo_environ start).1 = inr (Panicked "bind: address in use") /\
  length (done (main port_taken (fun s => s) demo_environ start).2) = 4 /\
  (main all_well (fun s => s) [("GOL_AUTH", "no")]%string start).1 =
    inr (Exit 2 "gol: refusing to start: GOL_AUTH must be local-dev or unset, not no").
Proof. split_and!; evaluates. Qed.

Lemma workers_start_when_ready_witness :
  done up.2 !! 5 = Some (Spawn (WorkerThread 0 demo_worker)) /\ done_well all_well (done up.2) 5 (Bind 8080).
Proof.
  pose proof (worker_at_lookup _ _ _ _ (proj1 demo_up)) as Hw. split; [exact Hw|].
  destruct (workers_start_when_ready all_well (fun s => s) demo_environ up.1 up.2 5 0 demo_worker
    up_is Hw) as (url & pool & probe & _ & _ & _ & _ & _ & Hall & _).
  assert (port_from_env demo_environ = 8080%N) as Hport by evaluates. rewrite Hport in Hall.
  apply (Hall (Bind 8080)). do 3 right. left.
Defined.

Lemma server_shares_its_stores_witness : exists app, Serve app ∈ done up.2 /\
  as_store app = Database "postgres://d" 0 /\ shares demo_environ app (WorkerThread 0 demo_worker).
Proof.
  destruct (served_at_elem _ _ _ (proj2 demo_up)) as (app & Happ & Hstore). exists app. split_and!; [exact Happ|exact Hstore|].
  apply (server_shares_its_stores all_well (fun s => s) demo_environ up.1 up.2); [exact up_is|exact Happ|].
  exact (list_elem_of_lookup_2 _ _ _ (worker_at_lookup _ _ _ _ (proj1 demo_up))).
Defined.

Lemma refused_serves_nothing_witness :
  (main port_taken (fun s => s) [("GOL_AUTH", "no")]%string start).1 =
    inr (Exit 2 "gol: refusing to start: GOL_AUTH must be local-dev or unset, not no") /\
  forall app, Serve app ∉ done (main port_taken (fun s => s) [("GOL_AUTH", "no")]%string start).2.
Proof.
  assert ((main port_taken (fun s => s) [("GOL_AUTH", "no")]%string start).1 =
    inr (Exit 2 "gol: refusing to start: GOL_AUTH must be local-dev or unset, not no")) as Hout by evaluates.
  split; [exact Hout|].
  exact (proj2 (proj1 (refused_serves_nothing port_taken (fun s => s) _ _ _ (surjective_pairing _)) _ _ Hout)).
Defined.
