(* ===== verification/Proxy.v ===== *)
(** * The fixture proxy and its poster ([proxy/src], [server/inference.rs])

    What stands in for the vendors while nothing outside is called: an HTTP
    service with fixed answers, and the gateway's poster that asks it.  What
    axum took from a request (its method, path, headers and body) is data, and
    JSON is [Mcp]'s [Value]; the HTTP agent of the poster is a function.

    The theorems: the proxy tells nothing to a request without its credential
    ([proxy_asks_for_a_credential]); the poster never calls a vendor
    ([poster_calls_no_vendor]); and a poster with a usable token gets the
    proxy's completion through it ([poster_through_the_proxy]). *)

From S2P Require Import Prelude Text Protocol SpecBuilder Driver Auth Mcp Gateway Fires Turns Http HttpIsolation GatewayProofs Startup.

(** ** The proxy *)

Definition CLAUDE_TEXT : string := "fixture assistant text".
Definition CODEX_TEXT : string := "fixture codex text".
Definition GROK_TEXT : string := "fixture grok text".
Definition GATEWAY_TEXT : string := "fixture gateway completion".

Definition PASSTHROUGH : list string := ["anthropic-version"; "anthropic-beta"; "x-claude-code-session-id"]%string.

(** A body is JSON, or an event stream as text. *)
Inductive Body := JsonBody (v : Value) | SseBody (text : string).

Record Response : Type := mkResponse { rs_status : N; rs_body : Body; rs_headers : list (string * string) }.

Inductive Route := ClaudeMessages | ClaudeCountTokens | ClaudeModels | GrokResponses | GatewayComplete.

(** The routes: the path, whether it is [get] rather than [post], the handler. *)
Definition ROUTES : list (string * bool * Route) :=
  [("/v1/messages", false, ClaudeMessages); ("/v1/messages/count_tokens", false, ClaudeCountTokens);
   ("/v1/models", true, ClaudeModels); ("/v1/responses", false, GrokResponses);
   ("/v1/chat/completions", false, GrokResponses); ("/v1/gateway/complete", false, GatewayComplete)]%string.

Definition MAX_BODY : nat := (1024 * 1024)%nat.

Definition ends_with (suffix s : string) : bool :=
  bool_decide (is_Some (strip_prefix (rev (string_bytes suffix)) (rev (string_bytes s)))).

Definition is_codex_responses (path : string) : bool := ends_with "/backend-api/codex/responses" (trim_slashes path).

Definition FIXTURE : string := "gol-desktop-fixture".

Definition claude_authorized (headers : HeaderMap) : bool :=
  bool_decide (header_value headers "x-api-key" = Some FIXTURE) || bool_decide (bearer headers = Some FIXTURE).

Definition wants_stream (headers : HeaderMap) (body : Value) : bool :=
  default false (stream ← member "stream" body; as_bool stream) ||
  match header_value headers "accept" with Some value => contains "text/event-stream" value | None => false end.

Definition json_response (v : Value) : Response := mkResponse 200 (JsonBody v) [].

Definition unauthorized : Response := mkResponse 401 (JsonBody (JObject [("error", JString "unauthorized")])) [].
Definition not_found : Response := mkResponse 404 (JsonBody (JObject [("error", JString "not found")])) [].

Definition response_body (id model text : string) : Value :=
  JObject [("id", JString id); ("object", JString "response"); ("status", JString "completed"); ("model", JString model);
    ("output", JArray [JObject [("type", JString "message"); ("role", JString "assistant");
       ("content", JArray [JObject [("type", JString "output_text"); ("text", JString text)]])]])].

(** [HeaderValue::try_from] of a trimmed value cannot fail, and an insert
    replaces. *)
Definition with_passthrough (response : Response) (headers : HeaderMap) : Response :=
  mkResponse (rs_status response) (rs_body response)
    (omap (fun name => (fun value => (name, value)) <$> header_value headers name) PASSTHROUGH ++ rs_headers response).

Section Proxy.
Context `{Json}.

(** [parts]: the body as JSON, or null. *)
Definition json_of (body : list byte) : Value :=
  if (MAX_BODY <? length body)%nat then JNull
  else match body with
       | [] => JNull
       | _ => match from_slice body with Ok v => v | Err _ => JNull end
       end.

Definition quote : string := bytes_string [Ascii.ascii_of_N 34].
Definition new_line : string := bytes_string [Ascii.ascii_of_N 10].
Definition quoted (text : string) : string := quote +:+ text +:+ quote.

Definition sse (text : string) : Response :=
  let delta := JObject [("type", JString "content_block_delta");
    ("delta", JObject [("type", JString "text_delta"); ("text", JString text)])] in
  let event name data := "event: " +:+ name +:+ new_line +:+ "data: " +:+ data +:+ new_line +:+ new_line in
  mkResponse 200 (SseBody (
    event "message_start" ("{" +:+ quoted "type" +:+ ":" +:+ quoted "message_start" +:+ "," +:+ quoted "message" +:+ ":{" +:+
      quoted "role" +:+ ":" +:+ quoted "assistant" +:+ "}}") +:+
    event "content_block_delta" (json_text delta) +:+
    event "message_stop" ("{" +:+ quoted "type" +:+ ":" +:+ quoted "message_stop" +:+ "}"))) [].

Definition model_or (fallback : string) (body : Value) : string := default fallback (text_member "model" body).

Definition claude_messages (headers : HeaderMap) (body : Value) : Response :=
  if negb (claude_authorized headers) then unauthorized
  else if wants_stream headers body then with_passthrough (sse CLAUDE_TEXT) headers
  else with_passthrough (json_response (JObject [("id", JString "msg_fixture"); ("type", JString "message");
    ("role", JString "assistant"); ("model", JString (model_or "fixture" body)); ("stop_reason", JString "end_turn");
    ("content", JArray [JObject [("type", JString "text"); ("text", JString CLAUDE_TEXT)]]);
    ("usage", JObject [("input_tokens", JNumber (JInt 1)); ("output_tokens", JNumber (JInt 1))])])) headers.

Definition claude_count_tokens (headers : HeaderMap) : Response :=
  if negb (claude_authorized headers) then unauthorized
  else with_passthrough (json_response (JObject [("input_tokens", JNumber (JInt 1))])) headers.

Definition claude_models (headers : HeaderMap) : Response :=
  if negb (claude_authorized headers) then unauthorized
  else with_passthrough (json_response (JObject [("data", JArray [JObject [("id", JString "fixture");
    ("type", JString "model")]])])) headers.

Definition codex_responses (headers : HeaderMap) (body : Value) : Response :=
  if bool_decide (bearer headers = None) || bool_decide (header_value headers "chatgpt-account-id" = None) then unauthorized
  else if wants_stream headers body then sse CODEX_TEXT
  else json_response (response_body "resp_codex_fixture" "codex-fixture" CODEX_TEXT).

Definition grok_responses (headers : HeaderMap) (body : Value) : Response :=
  if bool_decide (bearer headers = None) ||
     negb (bool_decide (header_value headers "x-xai-token-auth" = Some "xai-grok-cli"%string)) then unauthorized
  else
    let model := default "grok-fixture"%string (header_value headers "x-grok-model-override") in
    if wants_stream headers body then sse GROK_TEXT
    else json_response (response_body "resp_grok_fixture" model GROK_TEXT).

Definition gateway_complete (headers : HeaderMap) (body : Value) : Response :=
  if bool_decide (bearer headers = None) then unauthorized
  else json_response (JObject [("id", JString "gw_fixture"); ("object", JString "gol.gateway.completion");
    ("role", JString "assistant"); ("model", JString (model_or "gateway-fixture" body)); ("text", JString GATEWAY_TEXT)]).

Definition fallback (method path : string) (headers : HeaderMap) (body : Value) : Response :=
  if bool_decide (method = "POST"%string) && is_codex_responses path then codex_responses headers body else not_found.

Definition proxy_route (r : Route) (headers : HeaderMap) (body : Value) : Response :=
  match r with
  | ClaudeMessages => claude_messages headers body
  | ClaudeCountTokens => claude_count_tokens headers
  | ClaudeModels => claude_models headers
  | GrokResponses => grok_responses headers body
  | GatewayComplete => gateway_complete headers body
  end.

(** [router]: a known path with another method is 405, as axum has it; a
    [get] answers [HEAD] too. *)
Definition proxy (method path : string) (headers : HeaderMap) (body : list byte) : Response :=
  match List.find (fun route => bool_decide (route.1.1 = path)) ROUTES with
  | Some (_, is_get, r) =>
      let allowed := if is_get : bool then bool_decide (method ∈ ["GET"; "HEAD"]%string) else bool_decide (method = "POST"%string) in
      if allowed then proxy_route r headers (json_of body) else mkResponse 405 (SseBody "") []
  | None => fallback method path headers (json_of body)
  end.

(** ** The poster *)

Definition placement_name (p : ExecutionPlacement) : string :=
  match p with Local => "Local" | Reverse => "Reverse" | PBox => "Box" end.

(** The agent is given the timeout of the call; [status_text] is what [ureq]
    says of a status of 400 or more. *)
Context {W : Type} (agent : N -> HttpPost -> W -> UreqReply * W) (status_text : string -> N -> string).

Definition the_call (poster : HttpGatewayPoster) (call : GatewayCall) : HttpPost :=
  mkHttpPost (trim_slashes (Startup.po_url poster) +:+ "/v1/gateway/complete")
    [("authorization", "Bearer " +:+ po_token poster); ("content-type", "application/json"); ("x-gol-caller", "server")]%string
    (JObject [("input", JString (gc_input call)); ("model", JString (gc_model_name call));
       ("placement", JString (placement_name (gc_placement call)))]).

Definition http_complete (poster : HttpGatewayPoster) (call : GatewayCall) (w : W) : result string string * W :=
  match ensure_fixture_proxy (Startup.po_url poster) with
  | Err e => (Err e, w)
  | Ok _ =>
      let post := the_call poster call in
      match agent (po_timeout poster) post w with
      | (UreqResponse _ (Ok body) _, w) =>
          (match text_member "text" body with Some text => Ok text | None => Err "proxy response missing text"%string end, w)
      | (UreqResponse _ (Err e) _, w) => (Err e, w)
      | (UreqStatus status _, w) => (Err (status_text (Gateway.po_url post) status), w)
      | (UreqFailed e, w) => (Err e, w)
      end
  end.

End Proxy.

(** ** What the proxy tells *)

(** Without the fixture's key and without a token, a request learns whether
    its path is there, and nothing else. *)
Theorem proxy_asks_for_a_credential `{Json} method path headers body :
  bearer headers = None -> header_value headers "x-api-key" <> Some FIXTURE ->
  proxy method path headers body ∈ [unauthorized; not_found; mkResponse 405 (SseBody "") []].
Proof.
  intros Hb Hk. assert (claude_authorized headers = false) as Hc.
  { unfold claude_authorized. rewrite Hb, bool_decide_false by done. done. }
  unfold proxy. destruct (List.find _ ROUTES) as [[[p is_get] r]|].
  - case_match; [|set_solver].
    destruct r; unfold proxy_route, claude_messages, claude_count_tokens, claude_models, grok_responses, gateway_complete;
      rewrite ?Hc, ?Hb; set_solver.
  - unfold fallback, codex_responses. rewrite Hb. case_match; set_solver.
Qed.

(** ** Texts without white space at their ends *)

Lemma trim_front_graphic c l : (33 <= c <= 126)%N -> trim_front (c :: l) = c :: l.
Proof. intros Hc. destruct c as [|c]; [lia|]. do 7 (destruct c as [c|c|]; try lia; try reflexivity). Qed.

Lemma trim_back_graphic c l : (33 <= c <= 126)%N -> trim_back (c :: l) = c :: l.
Proof.
  intros Hc. destruct c as [|c]; [lia|]. do 7 (destruct c as [c|c|]; try lia; try (destruct l as [|d l]; [reflexivity|];
    destruct d as [|d]; [reflexivity|]; do 8 (destruct d as [d|d|]; try reflexivity))).
Qed.

Lemma trim_graphic s a z : head (string_bytes s) = Some a -> last (string_bytes s) = Some z ->
  is_ascii_graphic a = true -> is_ascii_graphic z = true -> trim s = s.
Proof.
  intros Ha Hz Hga Hgz. unfold trim.
  assert (forall b, is_ascii_graphic b = true -> (33 <= code b <= 126)%N) as Hcode.
  { intros b [?%N.leb_le ?%N.leb_le]%andb_prop. done. }
  assert (trim_front (code <$> string_bytes s) = code <$> string_bytes s) as ->.
  { destruct (string_bytes s) as [|b bytes]; [done|]. injection Ha as ->. cbn [fmap list_fmap]. by apply trim_front_graphic, Hcode. }
  assert (trim_back (rev (code <$> string_bytes s)) = rev (code <$> string_bytes s)) as ->.
  { apply last_Some in Hz as [bytes ->]. rewrite fmap_app, rev_app_distr. cbn [fmap list_fmap rev app].
    by apply trim_back_graphic, Hcode. }
  by rewrite rev_involutive, ascii_of_codes, bytes_string_bytes.
Qed.

Definition graphic (s : string) : bool := forallb is_ascii_graphic (string_bytes s).

Lemma trim_graphic_text s : s <> "" -> graphic s = true -> trim s = s.
Proof.
  intros Hne Hg. unfold graphic in Hg. rewrite forallb_forall in Hg.
  destruct (string_bytes s) as [|a bytes] eqn:E.
  { destruct Hne. by rewrite <-(bytes_string_bytes s), E. }
  destruct (last (a :: bytes)) as [z|] eqn:Ez; [|by apply last_None in Ez].
  apply (trim_graphic s a z); rewrite ?E; try done.
  - apply Hg. by left.
  - apply Hg, list_elem_of_In. by apply last_Some_elem_of.
Qed.

(** ** The poster through the proxy *)

(** The headers a server reads: the first of a name, if it is visible. *)
Definition is_visible (b : byte) : bool := between 32 126 b || between 9 9 b.

Definition headers_of (headers : list (string * string)) : HeaderMap :=
  fun name =>
    entry ← List.find (fun header => bool_decide (string_lowercase header.1 = name)) headers;
    Some (if forallb is_visible (string_bytes entry.2) then Some entry.2 else None).

(** A response as [ureq] has it. *)
Definition reply_of (r : Response) (bytes : list byte) : UreqReply :=
  if (400 <=? rs_status r)%N then UreqStatus (rs_status r) bytes
  else UreqResponse (rs_status r) (match rs_body r with JsonBody v => Ok v | SseBody _ => Err "not JSON"%string end) bytes.

(** An agent whose posts to [base] the proxy answers. *)
Definition reaches_proxy `{Json} {W} (agent : N -> HttpPost -> W -> UreqReply * W) (base : string) : Prop :=
  forall timeout post w path, Gateway.po_url post = base +:+ path ->
    exists bytes, agent timeout post w =
      (reply_of (proxy "POST" path (headers_of (po_headers post)) (string_bytes (json_text (po_body post)))) bytes, w).

Lemma headers_of_first name value rest lower : string_lowercase name = lower -> forallb is_visible (string_bytes value) = true ->
  headers_of ((name, value) :: rest) lower = Some (Some value).
Proof. intros Hn Hv. unfold headers_of. cbn [List.find fst]. rewrite bool_decide_true by done. cbn [mbind option_bind snd]. by rewrite Hv. Qed.

Lemma graphic_visible s : graphic s = true -> forallb is_visible (string_bytes s) = true.
Proof.
  unfold graphic. rewrite !forallb_forall. intros Hg b Hb. specialize (Hg b Hb).
  unfold is_visible, is_ascii_graphic, between in *. apply andb_prop in Hg as [?%N.leb_le ?%N.leb_le].
  apply orb_true_intro. left. apply andb_true_intro. split; apply N.leb_le; lia.
Qed.

Lemma bearer_of headers token : token <> "" -> graphic token = true ->
  headers "authorization" = Some (Some ("Bearer " +:+ token)) -> bearer headers = Some token.
Proof.
  intros Hne Hg Hh. unfold bearer, header_value. rewrite Hh. cbn [mbind option_bind].
  assert (trim ("Bearer " +:+ token) = "Bearer " +:+ token) as ->.
  { destruct (last (string_bytes token)) as [z|] eqn:Ez.
    - apply (trim_graphic _ (Ascii.ascii_of_N 66) z); rewrite ?string_bytes_app; [done| |done|].
      + rewrite last_app, Ez. done.
      + unfold graphic in Hg. rewrite forallb_forall in Hg. apply Hg, list_elem_of_In. by apply last_Some_elem_of.
    - apply last_None in Ez. destruct Hne. by rewrite <-(bytes_string_bytes token), Ez. }
  rewrite bool_decide_false by done. cbn [mbind option_bind]. rewrite strip_text_app. cbn [mbind option_bind].
  rewrite trim_graphic_text by done. by rewrite bool_decide_false.
Qed.

Lemma poster_bearer poster call : po_token poster <> "" -> graphic (po_token poster) = true ->
  bearer (headers_of (Gateway.po_headers (the_call poster call))) = Some (po_token poster).
Proof.
  intros Hne Hg. apply bearer_of; [done|done|]. apply headers_of_first; [reflexivity|].
  rewrite string_bytes_app, forallb_app, (graphic_visible _ Hg). reflexivity.
Qed.

(** The poster calls no vendor: with a URL that names one, in whatever
    case, the call fails alike whatever the agent is, so nothing is posted. *)
Theorem poster_calls_no_vendor {W} status_text poster call (w : W) host :
  host ∈ ["anthropic.com"; "openai.com"; "chatgpt.com"; "x.ai"; "grok.com"]%string ->
  contains host (string_lowercase (Startup.po_url poster)) = true ->
  exists error, forall agent, http_complete agent status_text poster call w = (Err error, w).
Proof.
  intros Hin Hc. unfold http_complete.
  assert (exists e, ensure_fixture_proxy (Startup.po_url poster) = Err e) as [e ->]; [|by exists e].
  unfold ensure_fixture_proxy. revert Hin. generalize ["anthropic.com"; "openai.com"; "chatgpt.com"; "x.ai"; "grok.com"]%string.
  intros hosts. induction hosts as [|h hosts IH]; [by intros ?%not_elem_of_nil|]. cbn [refused_host].
  destruct (contains h _) eqn:Eh; [by eexists|]. intros [->|Hin]%elem_of_cons; [congruence|by apply IH].
Qed.

(** A turn's poster, with a token of visible characters, gets the proxy's
    completion through the proxy, whatever the call; with a blank one it is
    told it is unauthorized. *)
Theorem poster_through_the_proxy `{Json} {W} (agent : N -> HttpPost -> W -> UreqReply * W) status_text poster call w :
  ensure_fixture_proxy (Startup.po_url poster) = Ok tt ->
  reaches_proxy agent (trim_slashes (Startup.po_url poster)) ->
  (po_token poster <> "" -> graphic (po_token poster) = true ->
    http_complete agent status_text poster call w = (Ok GATEWAY_TEXT, w)) /\
  (po_token poster = "" -> exists url, http_complete agent status_text poster call w = (Err (status_text url 401%N), w)).
Proof.
  intros Hproxy Hreach.
  destruct (Hreach (po_timeout poster) (the_call poster call) w "/v1/gateway/complete" eq_refl) as [bytes Hagent].
  assert (forall headers body, proxy "POST" "/v1/gateway/complete" headers body = gateway_complete headers (json_of body)) as Hroute
    by reflexivity.
  split.
  - intros Hne Hg. unfold http_complete. rewrite Hproxy. cbv zeta. rewrite Hagent, Hroute.
    unfold gateway_complete. rewrite (poster_bearer poster call Hne Hg), bool_decide_false by done. reflexivity.
  - intros Hempty. exists (Gateway.po_url (the_call poster call)). unfold http_complete. rewrite Hproxy. cbv zeta.
    rewrite Hagent, Hroute. unfold gateway_complete.
    assert (bearer (headers_of (Gateway.po_headers (the_call poster call))) = None) as ->.
    { unfold the_call. rewrite Hempty. vm_compute. reflexivity. }
    reflexivity.
Qed.

(** ** At concrete inputs *)

(** A JSON that reads every text as null. *)
#[local] Instance demo_json : Json := { from_slice := fun _ => Ok JNull; json_text := fun _ => "{}"%string }.

Definition demo_poster : HttpGatewayPoster := poster_from_env [].

Definition demo_proxy_agent (timeout : N) (post : HttpPost) (w : nat) : UreqReply * nat :=
  let base := trim_slashes (Startup.po_url demo_poster) in
  match strip_text base (Gateway.po_url post) with
  | Some path => (reply_of (proxy "POST" path (headers_of (Gateway.po_headers post)) (string_bytes (json_text (po_body post)))) [], w)
  | None => (UreqFailed "no such host", w)
  end.

Definition demo_call : GatewayCall := mkGatewayCall (id_of 1) "hi" "model" Local.

Lemma demo_reaches : reaches_proxy demo_proxy_agent (trim_slashes (Startup.po_url demo_poster)).
Proof.
  intros timeout post w path Hurl. exists []. unfold demo_proxy_agent. rewrite Hurl. cbv zeta. by rewrite strip_text_app.
Qed.

Lemma proxy_asks_for_a_credential_witness :
  proxy "POST" "/v1/messages" (fun _ => None) [] ∈ [unauthorized; not_found; mkResponse 405 (SseBody "") []].
Proof. by apply proxy_asks_for_a_credential. Defined.

Lemma poster_calls_no_vendor_witness : exists error,
  http_complete demo_proxy_agent (fun url status => url) (mkHttpGatewayPoster "https://API.OpenAI.com" "t" 1) demo_call 0 = (Err error, 0).
Proof.
  destruct (poster_calls_no_vendor (fun url status => url) (mkHttpGatewayPoster "https://API.OpenAI.com" "t" 1) demo_call 0
    "openai.com") as [error He]; [set_solver|vm_compute; reflexivity|]. exists error. apply He.
Defined.

Lemma poster_through_the_proxy_witness :
  http_complete demo_proxy_agent (fun url status => url) demo_poster demo_call 0 = (Ok GATEWAY_TEXT, 0).
Proof.
  refine (proj1 (poster_through_the_proxy demo_proxy_agent (fun url status => url) demo_poster demo_call 0 _ demo_reaches) _ _).
  - vm_compute. reflexivity.
  - intros E. vm_compute in E. discriminate E.
  - vm_compute. reflexivity.
Defined.
