(* ===== verification/Execution.v ===== *)
(** * Placed runs and the surface ([execution/src], [server/local.rs],
      [surface-core/src])

    A run carried out on a thread of its own, for one placement; the decider
    of a local echo; and the surface's choice of a placement.  A placed run is
    the driver of [Driver] with the echo tool and no model; a panic of its
    thread is [WorkerStopped].

    The theorems: a placed run always comes back, with a log of due events
    that ends at most once, or with why not ([placed_run_comes_back]); the
    surface shows the placement of the last event ([surface_shows_the_last]). *)

From S2P Require Import Prelude Protocol Uuids MemoryOwner Reduce Authorizer Driver DriverTurns DriverProofs.

(** ** Placed runs *)

Inductive ExecError := WrongPlacement (p : ExecutionPlacement) | ExecDecider (text : string) | WorkerStopped.

Record PlacedRun : Type := mkPlacedRun { pr_events : list Event; pr_worker_thread : nat }.

Section Placed.
Context `{UuidCrate} {W : Type} `{World W} `{Memory W}.

(** What the thread comes to: [None] is a panic.  The fuel is [enough], and
    running out would be one. *)
Definition placed_thread (spec : RunSpec) (decider : Decider W) (thread : nat) (w : W)
    : option (result PlacedRun ExecError) * W :=
  match boot spec w with
  | (Err _, w) => (None, w)
  | (Ok driver, w) =>
      match run_to_completion decider [EchoTool] UnavailableModel (enough spec) driver w with
      | None => (None, w)
      | Some (Err error, (_, w)) => (Some (Err (ExecDecider (de_message error))), w)
      | Some (Ok _, (driver, w)) => (Some (Ok (mkPlacedRun (d_events driver) thread)), w)
      end
  end.

Definition run_on_worker (spec : RunSpec) (p : ExecutionPlacement) (decider : Decider W) (thread : nat) (w : W)
    : result PlacedRun ExecError * W :=
  if negb (bool_decide (placement spec = p)) then (Err (WrongPlacement (placement spec)), w)
  else
    match placed_thread spec decider thread w with
    | (Some r, w) => (r, w)
    | (None, w) => (Err WorkerStopped, w)
    end.

Definition run_reverse (spec : RunSpec) (decider : Decider W) := run_on_worker spec Reverse decider.
Definition run_box (spec : RunSpec) (decider : Decider W) := run_on_worker spec PBox decider.

End Placed.

(** ** The local echo *)

(** [LocalEchoDecider]: the calls so far, a [u8]; [fresh] is
    [InvocationId::new()]. *)
Definition local_echo_decide (view : DecisionView) (fresh : InvocationId) (calls : N) : result Effect DeciderError * N :=
  let effect := if (calls =? 0)%N then EToolCall "echo" (input (dv_spec view)) fresh else EComplete "done" in
  (Ok effect, (calls + 1) mod 256)%N.

(** [LocalEchoFactory::decider]. *)
Definition local_echo_new : N := 0.

(** ** The surface *)

Record SurfaceEvent : Type := mkSurfaceEvent { se_placement : ExecutionPlacement }.
Record SurfaceModel : Type := mkSurfaceModel { sm_placement : option ExecutionPlacement }.
Record SurfaceViewModel : Type := mkSurfaceViewModel { sv_placement : option ExecutionPlacement }.

(** [update], which asks for no effect. *)
Definition surface_update (event : SurfaceEvent) (model : SurfaceModel) : SurfaceModel := mkSurfaceModel (Some (se_placement event)).

Definition surface_view (model : SurfaceModel) : SurfaceViewModel := mkSurfaceViewModel (sm_placement model).

(** ** What they do *)

Section Proofs.
Context `{UuidCrate} {W : Type} `{World W} `{Memory W}.

(** A placed run comes back: on another placement it is refused and
    nothing is recorded; else its thread does not panic, and it answers with
    the decider's error or with a log that is the run's own, whose events were
    each due and which has at most one end, its last. *)
Theorem placed_run_comes_back spec p (decider : Decider W) thread (w : W) : limits_u32 (limits spec) ->
  let '(r, w') := run_on_worker spec p decider thread w in
  (placement spec <> p -> r = Err (WrongPlacement (placement spec)) /\ w' = w) /\
  (placement spec = p ->
     (exists text, r = Err (ExecDecider text)) \/
     exists run, r = Ok run /\ pr_worker_thread run = thread /\ Forall (stamped spec) (pr_events run) /\
       one_end (payload <$> pr_events run) /\
       all_due spec [EchoTool_descriptor] [] (payload <$> pr_events run)).
Proof.
  intros Hu. unfold run_on_worker. case_bool_decide as Hp; cbn [negb]; [|by split].
  unfold placed_thread. destruct (boot spec w) as [[d|e] w1] eqn:Eb; [|by unfold boot in Eb; destruct (push _ _ _ _)].
  assert (resume spec [] w = (Ok d, w1)) as Hres by (by rewrite boot_resume, Eb).
  unfold run_to_completion.
  destruct (run_until_due decider [EchoTool] UnavailableModel (fun _ w => (Continue, w)) spec Hu [] w w1 d d Hres
    (configured_refl d) (enough spec) (le_n _)) as (r & d' & w' & new & -> & He & Hst & Hone & Hdue).
  { intros i q Hq. discriminate Hq. }
  rewrite app_nil_l in He. destruct r as [[]|error].
  - split; [done|]. intros _. right. exists (mkPlacedRun (d_events d') thread). rewrite He. cbn [pr_events pr_worker_thread].
    rewrite He in Hone. by split_and!.
  - split; [done|]. intros _. left. by exists (de_message error).
Qed.

End Proofs.

(** The local echo calls the tool once, and then completes, for the 255 calls
    a [u8] counts. *)
Lemma local_echo_completes view fresh calls : (0 < calls < 256)%N ->
  local_echo_decide view fresh local_echo_new = (Ok (EToolCall "echo" (input (dv_spec view)) fresh), 1%N) /\
  (local_echo_decide view fresh calls).1 = Ok (EComplete "done").
Proof.
  intros Hc. split; [done|]. unfold local_echo_decide. by replace (calls =? 0)%N with false by (symmetry; apply N.eqb_neq; lia).
Qed.

(** The surface shows the placement of the last event, or what it showed
    before any. *)
Theorem surface_shows_the_last events model :
  sv_placement (surface_view (fold_left (fun m e => surface_update e m) events model)) =
    match last events with Some event => Some (se_placement event) | None => sm_placement model end.
Proof.
  induction events as [|event events IH] using rev_ind; [done|]. by rewrite fold_left_app, last_snoc.
Qed.

(** ** At concrete inputs *)

#[local] Existing Instance hyphenated.

Definition demo_placed : RunSpec := with_caps ["tool.echo"] sample_spec.

Lemma placed_run_comes_back_witness :
  (fun run => payload <$> pr_events run) <$>
    (match (run_on_worker demo_placed (placement demo_placed) sim_decider 7
      (sim_world [EToolCall "echo" "ping" (id_of 7); EComplete "done"])).1 with Ok run => Some run | Err _ => None end) =
  Some [RunStarted; EffectDecided (EToolCall "echo" "ping" (id_of 7)); EffectAuthorized (EToolCall "echo" "ping" (id_of 7));
        ToolResult "echo" (id_of 7) 1 0 "ping"; StepAdvanced; EffectDecided (EComplete "done");
        EffectAuthorized (EComplete "done"); RunCompleted "done"] /\
  let '(r, w') := run_on_worker demo_placed (placement demo_placed) sim_decider 7
    (sim_world [EToolCall "echo" "ping" (id_of 7); EComplete "done"]) in
  (placement demo_placed <> placement demo_placed -> r = Err (WrongPlacement (placement demo_placed)) /\
     w' = sim_world [EToolCall "echo" "ping" (id_of 7); EComplete "done"]) /\
  (placement demo_placed = placement demo_placed ->
     (exists text, r = Err (ExecDecider text)) \/
     exists run, r = Ok run /\ pr_worker_thread run = 7 /\ Forall (stamped demo_placed) (pr_events run) /\
       one_end (payload <$> pr_events run) /\
       all_due demo_placed [EchoTool_descriptor] [] (payload <$> pr_events run)).
Proof.
  split; [vm_compute; reflexivity|]. apply placed_run_comes_back. split; vm_compute; discriminate.
Defined.
