(* ===== verification/Commands.v ===== *)
(** * Commands of the host ([server/inference.rs], [run_within])

    A command is started, its pipes are drained by threads of their own, and
    it is looked at every 20 ms until it has exited or its time is up, when it
    is killed.  The command is what it does over time: what each look finds,
    when each is made, and what its pipes carry until they close.  [docker] is
    [run_within] with five minutes; [Sandbox] has its callers.

    The theorems: the looks come to an end ([run_within_ends]); what is
    answered is what the first look that found it exited tells, and it is
    killed exactly when every look before the deadline found it running
    ([run_within_answers]). *)

From S2P Require Import Prelude Text Auth Mcp Gateway Fires.

(** An [ExitStatus]. *)
Record Status : Type := mkStatus { es_success : bool; es_display : string }.

(** A child, from its start: the answer of the [i]-th [try_wait], the
    milliseconds since the start when the [i]-th look compares them with the
    deadline, and what is read of a pipe, if it closes. *)
Record Child : Type := mkChild {
  ch_try_wait : nat -> result (option Status) string;
  ch_elapsed : nat -> N;
  ch_stdout : option (list byte);
  ch_stderr : option (list byte);
}.

(** What the loop comes to: a status, an error of [try_wait], or the kill. *)
Inductive Waited := Exited (status : Status) | WaitFailed (error : string) | Killed.

Definition LOOK_EVERY : N := 20.

(** The looks from the [i]-th on; [None] is out of fuel. *)
Fixpoint looks (fuel : nat) (child : Child) (timeout : N) (i : nat) : option Waited :=
  match fuel with
  | O => None
  | S fuel =>
      match ch_try_wait child i with
      | Err error => Some (WaitFailed error)
      | Ok (Some status) => Some (Exited status)
      | Ok None => if (ch_elapsed child i <? timeout)%N then looks fuel child timeout (S i) else Some Killed
      end
  end.

Definition looks_enough (timeout : N) : nat := N.to_nat (timeout / LOOK_EVERY) + 2.

Section RunWithin.
Context (args_debug : list string -> string) (show_ms : N -> string).

(** [run_within], from what starting the program came to.  [None]: a drain of
    a pipe that never closes is waited for. *)
Definition run_within (program : string) (args : list string) (spawned : result Child string) (timeout : N)
    : option (result string string) :=
  match spawned with
  | Err error => Some (Err error)
  | Ok child =>
      waited ← looks (looks_enough timeout) child timeout 0;
      match waited with
      | WaitFailed error => Some (Err error)
      | Killed => Some (Err (program +:+ " " +:+ args_debug args +:+ " did not finish in " +:+ show_ms timeout +:+ "ms"))
      | Exited status =>
          stdout ← ch_stdout child;
          stderr ← ch_stderr child;
          if es_success status then Some (Ok (from_utf8_lossy stdout))
          else Some (Err (program +:+ " " +:+ args_debug args +:+ " exited " +:+ es_display status +:+ ": " +:+
                            trim (from_utf8_lossy stderr)))
      end
  end.

(** [docker_output]. *)
Definition DOCKER_TIMEOUT : N := 300000.

Definition docker_output (args : list string) (spawned : result Child string) : option (result string string) :=
  run_within "docker" args spawned DOCKER_TIMEOUT.

End RunWithin.

(** ** The looks end *)

(** Each look is at least the sleep after the one before. *)
Definition sleeps (child : Child) : Prop := forall i, (ch_elapsed child i + LOOK_EVERY <= ch_elapsed child (S i))%N.

Lemma elapsed_grows child i : sleeps child -> (LOOK_EVERY * N.of_nat i <= ch_elapsed child i)%N.
Proof. intros Hs. induction i as [|i IH]; [unfold LOOK_EVERY; lia|]. specialize (Hs i). unfold LOOK_EVERY in *. lia. Qed.

Lemma looks_end child timeout fuel i : sleeps child -> (timeout / LOOK_EVERY + 2 <= N.of_nat (fuel + i))%N ->
  (0 < fuel)%nat -> is_Some (looks fuel child timeout i).
Proof.
  intros Hs. revert i. induction fuel as [|fuel IH]; intros i Hf Hpos; [lia|]. cbn [looks].
  destruct (ch_try_wait child i) as [[status|]|error]; [by eexists| |by eexists].
  destruct (ch_elapsed child i <? timeout)%N eqn:E; [|by eexists].
  apply N.ltb_lt in E. pose proof (elapsed_grows child i Hs) as Hg. apply IH; [lia|].
  assert (N.of_nat i <= timeout / LOOK_EVERY)%N as Hi by (apply N.div_le_lower_bound; unfold LOOK_EVERY in *; lia). lia.
Qed.

Lemma looks_enough_fuel timeout :
  (timeout / LOOK_EVERY + 2 <= N.of_nat (looks_enough timeout + 0))%N /\ (0 < looks_enough timeout)%nat.
Proof. unfold looks_enough. generalize (timeout / LOOK_EVERY)%N. lia. Qed.

(** A command's looks end: whatever it does, one of the first
    [timeout / 20 + 2] finds it exited, fails, or kills it, so a daemon that
    hangs holds nobody for longer than its time. *)
Theorem run_within_ends child timeout : sleeps child ->
  exists waited, looks (looks_enough timeout) child timeout 0 = Some waited.
Proof. intros Hs. apply looks_end; [done|apply looks_enough_fuel..]. Qed.

Lemma looks_running child timeout fuel i waited : looks fuel child timeout i = Some waited ->
  exists n, (i <= n)%nat /\
    (forall j, (i <= j < n)%nat -> ch_try_wait child j = Ok None /\ (ch_elapsed child j < timeout)%N) /\
    match waited with
    | Exited status => ch_try_wait child n = Ok (Some status)
    | WaitFailed error => ch_try_wait child n = Err error
    | Killed => ch_try_wait child n = Ok None /\ (timeout <= ch_elapsed child n)%N
    end.
Proof.
  revert i. induction fuel as [|fuel IH]; intros i; cbn [looks]; [done|].
  destruct (ch_try_wait child i) as [[status|]|error] eqn:Et.
  - intros [= <-]. exists i. split_and!; [done|lia|done].
  - destruct (ch_elapsed child i <? timeout)%N eqn:Ee.
    + intros (n & Hn & Hb & Hw)%IH. exists n. split_and!; [lia| |done]. intros j Hj.
      destruct (decide (j = i)) as [->|Hne]; [split; [done|by apply N.ltb_lt]|apply Hb; lia].
    + intros [= <-]. apply N.ltb_ge in Ee. exists i. split_and!; [done|lia|done|done].
  - intros [= <-]. exists i. split_and!; [done|lia|done].
Qed.

(** What is answered of a child that sleeps between its looks: its output when
    the first look that found it exited found success; otherwise an error,
    and the one of a kill only when every look found it running, up to one
    past the deadline.  It never comes back only when the child exited and
    left a pipe open behind it. *)
Theorem run_within_answers args_debug show_ms program args child timeout : sleeps child ->
  exists n, (forall j, (j < n)%nat -> ch_try_wait child j = Ok None /\ (ch_elapsed child j < timeout)%N) /\
    match ch_try_wait child n with
    | Err error => run_within args_debug show_ms program args (Ok child) timeout = Some (Err error)
    | Ok None => (timeout <= ch_elapsed child n)%N /\
        run_within args_debug show_ms program args (Ok child) timeout =
          Some (Err (program +:+ " " +:+ args_debug args +:+ " did not finish in " +:+ show_ms timeout +:+ "ms"))
    | Ok (Some status) =>
        match ch_stdout child, ch_stderr child with
        | Some stdout, Some stderr =>
            run_within args_debug show_ms program args (Ok child) timeout =
              Some (if es_success status then Ok (from_utf8_lossy stdout)
                    else Err (program +:+ " " +:+ args_debug args +:+ " exited " +:+ es_display status +:+ ": " +:+
                                trim (from_utf8_lossy stderr)))
        | _, _ => run_within args_debug show_ms program args (Ok child) timeout = None
        end
    end.
Proof.
  intros Hs. destruct (looks_end child timeout (looks_enough timeout) 0 Hs) as [waited Hw]; [apply looks_enough_fuel..|].
  destruct (looks_running child timeout _ 0 waited Hw) as (n & _ & Hb & Hn). exists n.
  split; [intros j Hj; apply Hb; lia|]. unfold run_within. rewrite Hw. cbn [mbind option_bind].
  destruct waited as [status|error|].
  - rewrite Hn. destruct (ch_stdout child), (ch_stderr child); try done. cbn. by destruct (es_success status).
  - by rewrite Hn.
  - destruct Hn as [-> Hn]. done.
Qed.

(** ** At concrete inputs *)

(** A child that exits at its third look. *)
Definition demo_child : Child :=
  mkChild (fun i => if (i <? 2)%nat then Ok None else Ok (Some (mkStatus true "exit status: 0")))
    (fun i => 20 * N.of_nat i)%N (Some (string_bytes "ok")) (Some []).

Lemma demo_sleeps : sleeps demo_child.
Proof. intros i. unfold demo_child, LOOK_EVERY. cbn [ch_elapsed]. lia. Qed.

Lemma run_within_ends_witness : exists waited, looks (looks_enough 100) demo_child 100 0 = Some waited.
Proof. exact (run_within_ends demo_child 100 demo_sleeps). Defined.

Lemma run_within_answers_witness :
  docker_output (fun _ => "[]") show_u64 [] (Ok demo_child) = Some (Ok "ok"%string) /\
  run_within (fun _ => "[]") show_u64 "docker" [] (Ok demo_child) 30 = Some (Ok "ok"%string) /\
  run_within (fun _ => "[]") show_u64 "docker" [] (Ok demo_child) 20 = Some (Err "docker [] did not finish in 20ms"%string) /\
  exists n, (forall j, (j < n)%nat -> ch_try_wait demo_child j = Ok None /\ (ch_elapsed demo_child j < 100)%N).
Proof.
  split_and!; [vm_compute; reflexivity..|].
  destruct (run_within_answers (fun _ => "[]"%string) show_u64 "docker" [] demo_child 100 demo_sleeps) as (n & Hn & _). by exists n.
Defined.
